(* ===== verification/_CoqProject ===== *)
-Q . S2P
Prelude.v
Js.v
Text.v
KeyRegistry.v
CommitmentBroadcaster.v
RotationCeremony.v
RotationPenalty.v
NodeTables.v
RollbackHandler.v
TwoPhaseController.v
TentativeCleanupWorker.v
TwoPhaseWorld.v
BondPool.v
DeadLetterQueue.v
JobScheduler.v
NonceStore.v
SlashingSequencer.v
Number.v
Doubles.v
Config.v
Printing.v
FeatureFlags.v
CapacityShedder.v
ConfigSchema.v
ConfigLoader.v
ConfigManager.v
Sessions.v
Reputation.v
Rewards.v
SlashingExecution.v
Notifications.v
AtomicFiles.v
Certificates.v
CertificateService.v
KafkaScaling.v
MultiRegion.v
ConfigDrift.v
RateLimiter.v
Tasks.v
Cache.v
MigrationFiles.v
Migrations.v
Baselines.v
BaselineStore.v
AuditLog.v
PoolProbe.v
PoolRouter.v
SecretRotation.v
PayloadEncryption.v
Mtls.v
BurnRate.v
StateArchival.v
Preflight.v
ConsensusSim.v
CapacityPlanner.v
ChangePoints.v
Performance.v
BackupVerification.v
Incidents.v
UptimeStore.v
Logger.v
Tracing.v
ScrapeMetrics.v
Attestation.v
Server.v
Gates.v
WorkerRegistry.v
Factories.v
Issuers.v
