(* ===== verification/Prelude.v ===== *)
(** * VeriNode-Backend: a verification library

    VeriNode-Backend (TypeScript, under [src/src/]) runs a validator network's
    back office: it keeps validator keys and stakes, moves node statuses in step
    with a contract, submits slashing transactions and runs background jobs.
    This library models the parts that carry that logic and proves what makes
    them correct.  It is a shallow embedding: a method is a function of the
    object's state that returns or throws ([M] below), an operation with an
    [await] is split there, and everything else that can happen in between is an
    event of a run.

    ** Foundations

    - [Prelude] (this file): method bodies as a state-and-exception monad, their
      weakest preconditions ([wp], hint database [wp]), the predicates
      [preserves] and [atomic], shared tactics.
    - [Js]: safe integers, strings, insertion-ordered [Map] and [Set].
    - [Text]: [split], [trim], decimal integers, [BigInt(string)], JSON of flat
      objects, with the round trip [JSON_parse_stringify].
    - [Number]: JavaScript numbers as exact rationals, infinities and NaN, with
      [to_double] (IEEE round to nearest even) after each operation; [Math.floor],
      [Math.max] and [Math.min].
    - [Doubles]: numbers that are integers, sums, bounds and signs of differences.

    ** Key rotation and its penalty exception

    - [KeyRegistry] ([keys/key-registry.ts]): records by public key, current and
      pending key of each validator.  One signing key per validator after any
      calls; calls are atomic; a disabled key stays disabled; activation is
      idempotent.
    - [CommitmentBroadcaster] ([consensus/commitment-broadcaster.ts]): collecting
      approvals as an event system of calls, snapshots, listeners and timers.
      A promise settles once and only with a two-thirds quorum; quorums intersect;
      missing approvals complete a commitment.
    - [RotationCeremony] ([keys/rotation-ceremony.ts]): INITIATE, APPROVE,
      ACTIVATE, RETIRE over the registry.  Phases only advance, an approved
      rotation can always be activated, retirement waits its 4096 slots.
      [CommitterContract] is what the ceremony asks of a committer; the
      broadcaster discharges it.
    - [RotationPenalty] ([slashing/penalty-calculator.ts]): lifts the double-sign
      penalty for exactly the legitimate overlaps of reachable ceremonies.

    ** Two-phase node status

    - [NodeTables] ([database/node_status.sql]): the rows.
    - [RollbackHandler] ([core/state/rollback_handler.ts]),
      [TwoPhaseController] ([core/state/two_phase_controller.ts]),
      [TentativeCleanupWorker] ([core/state/tentative_cleanup_worker.ts]): one
      transaction, one transition resumed reply by reply, one sweep; the sweep is
      proved against [RollbackContract], which the handler discharges.
    - [TwoPhaseWorld]: any number of transitions, sweeps and admin resolutions
      interleaved at their [await]s: tables stay well formed, statuses stay
      reachable, nothing is rolled back twice; and what the protocol does not
      prevent ([late_confirmation_reopens_archived_node]).

    ** Stakes

    - [BondPool] ([staking/poolStore.ts], [staking/bondPool.ts],
      [006_bond_pools.sql]): the abstract ledger, the contract of a store
      ([StoreContract]), the PostgreSQL store with its optimistic loops and the
      in-memory store that implement it, and the service proved over both:
      whatever it is asked, it answers as the ledger does.

    ** Slashing submission

    - [DeadLetterQueue] ([queue/dead_letter_queue.ts]): retries with backoff,
      dead letters, manual retry.
    - [NonceStore] ([database/nonce_store.ts]): the write-ahead log as text;
      [represents] relates the text to its entries, and every operation on the
      text is shown to be one on the entries.
    - [SlashingSequencer] ([staking/slashing_sequencer.ts]): nonces, submission
      through the queue, water mark, restart; requests interleave ([seq_step]) and
      processes follow one another ([world_step]).

    ** Slashing events

    - [SlashingExecution] ([slashing/penaltyCalculator.ts], [executor.ts],
      [staking/validatorRegistry.ts]): the penalty in doubles and the transaction
      that records it over the locked registry.  Every event carries the
      membership committed before it.
    - [Notifications] ([notifications/]): both delivery stores, the senders and the
      retry loop.  A sender that acknowledged is not asked again.

    ** Background jobs

    - [JobScheduler] ([scheduler/job_store.ts], [scheduler.ts], [metrics.ts],
      [types.ts]): the statements over the jobs table and the workers as an event
      system.
    - [WorkerRegistry] ([scheduler.ts]): workers by type and id; what stopping them
      all stops.

    ** Database, scores and rewards

    - [Sessions] ([config/database.ts]): methods as programs of statements, any
      number of sessions interleaved statement by statement, lost connections,
      and the rely-guarantee proof rule [run_safe].
    - [MigrationFiles], [Migrations] ([database/migration_manager.ts]): the files and
      their sections; managers over one database.  The table of migrations is what
      the committed scripts make of it.
    - [Reputation] ([reputation/scoreService.ts], [store.ts]): the service over row
      locks.  Scores stay bounded, a method that returns committed exactly one
      write, a slashing is never overwritten.
    - [Rewards] ([rewards/distributor.ts], [lock_manager.ts],
      [cycle_scheduler.ts]): amounts as texts, allocation of a pool, distribution
      under advisory locks.  A node is paid its pending amount once.

    ** Configuration and load shedding

    - [Config] ([config/utils.ts]): configuration trees, [Number(string)],
      [getIn], [setIn], [deleteIn], [deepMerge], [deepClone].
    - [ConfigSchema] ([config/schema.ts], [config/validator.ts]): the schema and
      the validator.  What is accepted conforms, with its defaults filled in, and
      is accepted again unchanged.
    - [ConfigLoader] ([config/loader.ts]): the sources and their merge by
      priority, the names of environment variables.
    - [ConfigManager] ([config/manager.ts], [eventbus.ts], [index.ts]): reloads,
      hot updates, listeners and watched files as an event system.  The
      configuration is valid in every run and no triggered reload is lost.
    - [FeatureFlags] ([core/ingress/feature_flags.ts]) and [CapacityShedder]
      ([capacity_shedder.ts], [graceful_degradation.ts]): statuses, dependencies,
      listeners; levels from metrics, shedding and restoring of flags.
    - [ConfigDrift] ([config-drift/]): flattening, hash, comparison with a
      baseline, reports and alerts.

    ** Configuration audit

    - [Baselines] ([audit/baseline_manager.ts], [drift_detector.ts],
      [alert_dispatcher.ts]): snapshots, the difference to the live configuration
      and the alerts.  The difference is exact, the snapshot canonical.
    - [BaselineStore]: the baselines as rows, under interleaved captures.  One
      baseline is active.
    - [AuditLog] ([audit/audit_logger.ts], [hmac.ts], [config_audit_service.ts]):
      the log with its retries, deadline, queue and probe as an event system,
      verification, queries, rollback.  Entries are not lost, and what a late
      insertion does to the queue.

    ** Capacity

    - [KafkaScaling] ([queue/kafka_consumer_monitor.ts], [kafka_auto_scaler.ts]):
      the monitor, the autoscaler and the two together, as event systems.
    - [MultiRegion] ([replication/multi_region.ts]): failover decisions.
    - [CapacityPlanner] ([capacity/planner.ts]): series of samples, their trend and the
      ranked forecasts.  Growth by a whole amount a day is forecast exactly.
    - [RateLimiter] ([security/rate_limiter.ts]): token buckets in memory and in
      Redis, counted in doubles and, in Redis, kept with 14 digits.  What a client
      gets in any period, and how far the two stores can part, rounding included.
    - [Tasks]: calls of one object in progress, interleaved at their awaits, with a
      proof rule.
    - [Cache] ([cache/cache_layer.ts]): the map in memory and Redis as such calls.
      What a call finds was stored under its key and had not expired at some moment
      since the call was launched.

    ** Certificates

    - [AtomicFiles] ([atomicWriteFile] of [tls/acme_rotation.ts]): names, inodes,
      concurrent writers, refused system calls, power losses that keep only some of
      the renames, since no directory is synced.  Files are replaced atomically.
    - [Certificates] ([CertificateStore], [AcmeRenewalManager]): renewal as a tree of
      requests over that disk.  How a check can end and what it has then written.
    - [CertificateService]: the reloader, the lifecycle manager and its metrics, the
      challenge files, the settings of the bootstrap.
    - [Issuers] ([AcmeClientIssuer], [AcmeDns01Issuer]): the account key and the challenges
      that a client has published and withdrawn.

    ** Secrets

    - [SecretRotation] ([security/secret_rotation.ts]): store and service, calls
      overlapping at their awaits.  Secrets keep a stored current version.
    - [PayloadEncryption] ([security/payload_encryption.ts]): sensitive paths of a
      payload, over any cipher that opens what it sealed.  Decryption undoes
      encryption.
    - [Mtls] ([security/mtls.ts]): SPIFFE ids and peers, the certificate in use, its
      reloads and the latency histogram.

    ** Service objectives

    - [BurnRate] ([slo/burn_rate_monitor.ts]): error and burn rates in doubles,
      thresholds, budgets and alerts.

    ** Performance

    - [ChangePoints] ([performance/edm.ts]): the bisection of a series at its splits of
      greatest energy, and why error rates never have a change point.
    - [Performance] ([performance/detector.ts], [benchmark.ts], [baseline.ts]): what is
      a regression, percentiles, and the files of baselines as a map.

    ** Blockchain

    - [StateArchival] ([blockchain/state_archival.ts], [transaction_builder.ts],
      [rpc_client.ts], [contracts/verification_contract.ts]): the watchlist of
      contract entries, its ticks and manual renewals as calls over a node and a
      database.  A row says that it was renewed only if a transaction with its
      entry was accepted; an undisturbed tick renews exactly what is due.
    - [Preflight] ([blockchain/preflight_analyzer.ts]): the estimate of a call from a
      simulation, in doubles, and its cache.

    ** Simulation

    - [ConsensusSim] ([consensus-sim/]): the rounds of the fault simulation, which
      never reach a decision.

    ** Attestations

    - [Attestation] ([core/attestation/engine.js], [core/crypto/]): signatures, proofs of
      possession, aggregates and the validator of batches.  With Ed25519 the verdict does
      not depend on how a batch is cut; and of a BLS batch only one message is checked.

    ** Operations

    - [BackupVerification] ([database/backup_verification.ts]): what a backup that was
      verified is known to satisfy, and the table of results.
    - [UptimeStore] ([database/uptime_queries.ts]): the statements with their parameters;
      every row and every condition gets its own values.
    - [Incidents] ([incident/runbook_automation.ts], [chaos/blueprint.ts]): runbooks,
      incident ids, and the validation of chaos blueprints.
    - [Server] ([index.js], [shutdown.js], [api/admin_routes.ts]): requests through
      [RateLimiter] and the peer check of [Mtls] to their routes, the administration of
      [TwoPhaseController], and the shutdown as an event system.
    - [Factories] ([config/database.ts], [security/mtls.ts], [config-drift/auditor.ts]):
      which source a setting comes from, and the counters of queries.
    - [Gates] ([scripts/dependency-vulnerability-gate.js], [coverage-enforce.js]): what
      decides whether a change passes.

    ** Diagnostics

    - [Logger] ([diagnostics/logger.ts]): entries and their attributes, loggers and their
      children.
    - [Tracing] ([diagnostics/tracer.ts]): settings, start and shutdown of the SDK in any
      order.
    - [ScrapeMetrics] ([api/metrics/prometheus.ts]): the collectors and their histograms as
      labels and numbers.

    ** Conventions and bounds

    Clocks, generated ids, hashes, curves, RPC answers, failures of the database and
    snapshots of the validator set are arguments or events; so are the parts of
    the host that no file here defines (RegExp matching, [JSON.parse] of nested
    values, [URL], collation).  A fuel occurs in nine places: [parse_members] is
    given the length of its text, which bounds the number of members
    ([parse_object_stringify]); [chunks] the length of its list; [evictOldest] the
    size of the cache it shrinks; [searchSegment] the depth of the call stack, for
    which the length of the series is enough ([change_points_bisect]);
    [validateBatch] the same and the loop of [slices] the rounds left, for which more
    than the length of the batch is enough ([validation_partitions]) where there are
    two workers, and nothing where there is one ([one_worker_never_ends]);
    [hex_digits] the eight digits of a 32-bit number; the optimistic loops of
    [BondPool] run the five rounds of the code; and [isEnabled] has the call
    stack's depth, which [isEnabled_decides] shows to suffice above the rank of
    the flag and [cyclic_dependencies_overflow] shows never to suffice on a
    cycle.  The retry loops of [DeadLetterQueue] count down the code's own bound.
    Strings are sequences of code units below 256.  [bigint] is unbounded and the
    [BIGINT] columns are range-checked.

    ** Not modelled

    The text of metrics and of what is logged, and spans; wall-clock timers beyond the
    events they cause; the promise chain of the in-memory store's lock (its order is
    the model's).  Of the rest of the program: the clients of networks and services
    (the ACME protocol, PagerDuty, etcd and Consul beyond their answers, the simulated contract
    manager), which only carry requests; the gateway in Rust; the registration of
    routes, middleware and collectors with their libraries; the table definitions
    beyond what statements rely on; and the scripts that run tests, seed a local
    network or check the build files. *)

From Stdlib Require Import ZArith Lia.
From stdpp Require Import base list strings gmap sorting.

#[global] Open Scope Z_scope.

(** ** Method bodies: state, exceptions, results

    A JavaScript method of a class with mutable fields is a function of the
    object's state that ends either with a value or with a thrown error.  A
    throw does not undo the assignments that preceded it, so the state is
    returned in both cases. *)

Definition M (S E A : Type) : Type := S -> S * (E + A).

Declare Scope js_scope.
Delimit Scope js_scope with js.
#[global] Open Scope js_scope.

Section monad.
Context {S E : Type}.

Definition ret {A} (a : A) : M S E A := fun s => (s, inr a).
Definition throw {A} (e : E) : M S E A := fun s => (s, inl e).
Definition bind {A B} (m : M S E A) (k : A -> M S E B) : M S E B :=
  fun s => match m s with
           | (s', inl e) => (s', inl e)
           | (s', inr a) => k a s'
           end.
Definition get : M S E S := fun s => (s, inr s).
Definition put (s : S) : M S E unit := fun _ => (s, inr tt).
Definition gets {A} (f : S -> A) : M S E A := fun s => (s, inr (f s)).
Definition modify (f : S -> S) : M S E unit := fun s => (f s, inr tt).

(** [if (!b) throw e] *)
Definition guard (b : bool) (e : E) : M S E unit :=
  if b then ret tt else throw e.

(** [try { m } catch (e) { h(e) }] *)
Definition catch {A} (m : M S E A) (h : E -> M S E A) : M S E A :=
  fun s => match m s with
           | (s', inl e) => h e s'
           | r => r
           end.

(** Lift a pure check that may throw. *)
Definition of_sum {A} (r : E + A) : M S E A :=
  fun s => (s, r).
End monad.

Notation "'let!' x := m 'in' k" := (bind m (fun x => k))
  (at level 10, x name, m at level 100, k at level 200) : js_scope.
Notation "m ;;; k" := (bind m (fun _ => k))
  (at level 100, k at level 200, right associativity) : js_scope.

(** Call a method of a component object held in a field: [getter] and
    [setter] are the field, [f] embeds the component's errors. *)
Definition zoom {S T E F A} (getter : S -> T) (setter : T -> S -> S)
    (f : E -> F) (m : M T E A) : M S F A :=
  fun s => let '(t, r) := m (getter s) in
           (setter t s, match r with inl e => inl (f e) | inr a => inr a end).

(** Run for the state change only. *)
Definition ignore {S E A} (m : M S E A) : M S E unit :=
  m ;;; ret tt.

(** *** Weakest preconditions

    [wp m Q X s]: started in [s], [m] returns a value satisfying [Q] or throws
    an error satisfying [X], each with the state it leaves behind. *)

Definition wp {S E A} (m : M S E A) (Q : A -> S -> Prop) (X : E -> S -> Prop)
    (s : S) : Prop :=
  match m s with
  | (s', inr a) => Q a s'
  | (s', inl e) => X e s'
  end.

Create HintDb wp.

Section wp_rules.
Context {S E : Type}.
Implicit Types (s : S) (X : E -> S -> Prop).

Lemma wp_ret {A} (a : A) Q X s : wp (ret a) Q X s = Q a s.
Proof. done. Qed.
Lemma wp_throw {A} (e : E) (Q : A -> S -> Prop) X s :
  wp (throw e) Q X s = X e s.
Proof. done. Qed.
Lemma wp_bind {A B} (m : M S E A) (k : A -> M S E B) Q X s :
  wp (bind m k) Q X s = wp m (fun a s' => wp (k a) Q X s') X s.
Proof. unfold wp, bind. by destruct (m s) as [s' [e|a]]. Qed.
Lemma wp_get Q X s : wp get Q X s = Q s s.
Proof. done. Qed.
Lemma wp_put s0 Q X s : wp (put s0) Q X s = Q tt s0.
Proof. done. Qed.
Lemma wp_gets {A} (f : S -> A) Q X s : wp (gets f) Q X s = Q (f s) s.
Proof. done. Qed.
Lemma wp_modify (f : S -> S) Q X s : wp (modify f) Q X s = Q tt (f s).
Proof. done. Qed.
Lemma wp_guard b e Q X s :
  wp (guard b e) Q X s = if b then Q tt s else X e s.
Proof. by destruct b. Qed.
Lemma wp_of_sum {A} (r : E + A) Q X s :
  wp (of_sum r) Q X s = match r with inr a => Q a s | inl e => X e s end.
Proof. done. Qed.
Lemma wp_catch {A} (m : M S E A) h Q X s :
  wp (catch m h) Q X s = wp m Q (fun e s' => wp (h e) Q X s') s.
Proof. unfold wp, catch. by destruct (m s) as [s' [e|a]]. Qed.
Lemma wp_ignore {A} (m : M S E A) Q X s :
  wp (ignore m) Q X s = wp m (fun _ s' => Q tt s') X s.
Proof. unfold ignore. by rewrite wp_bind. Qed.

(** Consequence, and its setoid form. *)
Lemma wp_mono {A} (m : M S E A) (Q Q' : A -> S -> Prop) X X' s :
  (forall a s', Q a s' -> Q' a s') -> (forall e s', X e s' -> X' e s') ->
  wp m Q X s -> wp m Q' X' s.
Proof. unfold wp. destruct (m s) as [s' [e|a]]; auto. Qed.

#[global] Instance wp_proper {A} (m : M S E A) :
  Proper (pointwise_relation _ (pointwise_relation _ iff) ==>
          pointwise_relation _ (pointwise_relation _ iff) ==>
          eq ==> iff) (wp m).
Proof.
  intros Q Q' HQ X X' HX s ? <-. unfold wp.
  destruct (m s) as [s' [e|a]]; [apply HX | apply HQ].
Qed.
End wp_rules.

Lemma wp_zoom {S T E F A} (g : S -> T) st (f : E -> F) (m : M T E A) Q X s :
  wp (zoom g st f m) Q X s =
  wp m (fun a t => Q a (st t s)) (fun e t => X (f e) (st t s)) (g s).
Proof. unfold wp, zoom. by destruct (m (g s)) as [t [e|a]]. Qed.

Lemma bind_assoc {S E A B C} (m : M S E A) (k : A -> M S E B) (k' : B -> M S E C) s :
  bind (bind m k) k' s = bind m (fun a => bind (k a) k') s.
Proof. unfold bind. by destruct (m s) as [s' [e|a]]. Qed.

#[export] Hint Rewrite @wp_ret @wp_throw @wp_bind @wp_get @wp_put @wp_gets
  @wp_modify @wp_guard @wp_of_sum @wp_catch @wp_ignore @wp_zoom : wp.

(** [preserves I m]: whatever [m] does, it keeps [I]. *)
Definition preserves {S E A} (I : S -> Prop) (m : M S E A) : Prop :=
  forall s, I s -> wp m (fun _ => I) (fun _ => I) s.

(** [atomic m]: a throw leaves the object as it was. *)
Definition atomic {S E A} (m : M S E A) : Prop :=
  forall s, wp m (fun _ _ => True) (fun _ s' => s' = s) s.

Lemma preserves_run {S E A} (I : S -> Prop) (m : M S E A) s :
  preserves I m -> I s -> I (fst (m s)).
Proof.
  intros Hp HI. specialize (Hp s HI). unfold wp in Hp.
  by destruct (m s) as [s' [e|a]].
Qed.

Lemma wp_run {S E A} (m : M S E A) Q X s :
  wp m Q X s <-> (exists s' a, m s = (s', inr a) /\ Q a s') \/
                 (exists s' e, m s = (s', inl e) /\ X e s').
Proof.
  unfold wp. destruct (m s) as [s' [e|a]]; naive_solver.
Qed.

(** *** Tactics *)

(** Symbolic execution of a method body. *)
Ltac wp_simpl :=
  cbn beta iota zeta delta [andb orb negb]; autorewrite with wp;
  cbn beta iota zeta delta [andb orb negb].

(** Case analysis on every test of the goal, then close the branches that
    are contradictory. *)
Ltac split_match :=
  match goal with
  | |- context [match ?x with _ => _ end] =>
      lazymatch x with
      | context [match _ with _ => _ end] => fail
      | _ => destruct x eqn:?
      end
  end.

Ltac wp_cases :=
  repeat (wp_simpl; try split_match; simplify_eq/=); wp_simpl.

(** Turn boolean tests of the hypotheses into propositions. *)
Ltac bool_props :=
  repeat match goal with
  | H : _ && _ = true |- _ => apply andb_true_iff in H as [? ?]
  | H : _ || _ = false |- _ => apply orb_false_iff in H as [? ?]
  | H : negb _ = true |- _ => apply negb_true_iff in H
  | H : negb _ = false |- _ => apply negb_false_iff in H
  | H : bool_decide _ = true |- _ => apply bool_decide_eq_true in H
  | H : bool_decide _ = false |- _ => apply bool_decide_eq_false in H
  | H : (_ <? _) = true |- _ => apply Z.ltb_lt in H
  | H : (_ <? _) = false |- _ => apply Z.ltb_ge in H
  | H : (_ <=? _) = true |- _ => apply Z.leb_le in H
  | H : (_ <=? _) = false |- _ => apply Z.leb_gt in H
  | H : (_ =? _) = true |- _ => apply Z.eqb_eq in H
  | H : (_ =? _) = false |- _ => apply Z.eqb_neq in H
  end.

(** Decide the equality tests that [done] can settle. *)
Ltac simpl_decide :=
  repeat match goal with
  | |- context [bool_decide (?a = ?b)] =>
      first [rewrite (bool_decide_true (a = b)) by done
            |rewrite (bool_decide_false (a = b)) by done]
  end.

(** Saturation: add each instance of a universally quantified fact once. *)
Inductive learnt {P : Prop} (p : P) : Prop := Learnt.

Tactic Notation "learn" constr(p) "as" simple_intropattern(pat) :=
  lazymatch goal with
  | _ : learnt p |- _ => fail
  | _ => pose proof (Learnt p); pose proof p as pat
  end.

Ltac forget_learnt :=
  repeat match goal with H : learnt _ |- _ => clear H end.

(** ** Lists *)

Lemma NoDup_fmap_filter {A B} (f : A -> B) (P : A -> Prop)
    `{!forall x, Decision (P x)} l :
  NoDup (f <$> l) -> NoDup (f <$> filter P l).
Proof.
  induction l as [|x l IH]; [done|]. rewrite fmap_cons, NoDup_cons.
  intros [Hx Hl]. rewrite filter_cons. case_decide; [|auto].
  rewrite fmap_cons, NoDup_cons. split; [|auto].
  intros (y & Ey & [_ Hy]%list_elem_of_filter)%list_elem_of_fmap.
  apply Hx. rewrite Ey. by apply list_elem_of_fmap_2.
Qed.
