(* ===== verification/Js.v ===== *)
(** * JavaScript values used by the sources

    Numbers, strings and insertion-ordered [Map]/[Set] objects.  A [number]
    that the code checks with [Number.isSafeInteger] is a [jsnum]: either an
    integer or one of the other doubles (fractions, NaN, the infinities),
    which every such check rejects.  Strings are sequences of code units below
    256; the empty string is falsy. *)

From Stdlib Require Import ZArith Lia Ascii String Sorted.
From stdpp Require Import base list strings gmap sorting.
From S2P Require Import Prelude.

(** ** Numbers *)

(** A JavaScript [number] as far as the integer checks see it. *)
Inductive jsnum := JInt (z : Z) | JNonInt.

#[export] Instance jsnum_eq_dec : EqDecision jsnum.
Proof. solve_decision. Defined.

Definition MAX_SAFE_INTEGER : Z := 2 ^ 53 - 1.

(** [Number.isSafeInteger] *)
Definition isSafeZ (z : Z) : bool := (Z.abs z <=? MAX_SAFE_INTEGER).

Definition isSafeInteger (n : jsnum) : option Z :=
  match n with
  | JInt z => if isSafeZ z then Some z else None
  | JNonInt => None
  end.

(** [Number.isSafeInteger(n) && n >= 0] *)
Definition safeNonNeg (n : jsnum) : option Z :=
  match isSafeInteger n with
  | Some z => if 0 <=? z then Some z else None
  | None => None
  end.

Lemma safeNonNeg_Some n z :
  safeNonNeg n = Some z <-> n = JInt z /\ 0 <= z <= MAX_SAFE_INTEGER.
Proof.
  unfold safeNonNeg, isSafeInteger, isSafeZ. destruct n as [y|]; [|naive_solver].
  destruct (Z.leb_spec (Z.abs y) MAX_SAFE_INTEGER); [|naive_solver lia].
  destruct (Z.leb_spec 0 y); naive_solver lia.
Qed.

(** [Math.ceil(a / b)] for integers, exact while the quotient is below 2^52. *)
Definition ceil_div (a b : Z) : Z := - ((- a) / b).

Lemma ceil_div_spec a b : 0 < b -> a <= b * ceil_div a b < a + b.
Proof.
  intros Hb. unfold ceil_div.
  pose proof (Z.mul_div_le (- a) b Hb).
  pose proof (Z.mul_succ_div_gt (- a) b Hb). lia.
Qed.

(** ** Strings *)

(** [!s] for a string *)
Definition falsy (s : string) : bool := bool_decide (s = "").

(** White space of [String.prototype.trim], code units below 256. *)
Definition is_ws (c : ascii) : bool :=
  let n := N_of_ascii c in
  ((9 <=? n)%N && (n <=? 13)%N) || (n =? 32)%N || (n =? 160)%N.

(** [value.trim().length === 0] *)
Fixpoint blank (s : string) : bool :=
  match s with
  | EmptyString => true
  | String c s' => is_ws c && blank s'
  end.

Lemma blank_empty s : blank s = false -> s <> "".
Proof. by intros Hb ->. Qed.

(** Comparison of code units, the order of [Array.prototype.sort]. *)
Definition str_le (a b : string) : Prop := String.leb a b = true.
#[export] Instance str_le_dec a b : Decision (str_le a b).
Proof. unfold str_le. apply _. Defined.

Definition js_sort (l : list string) : list string := merge_sort str_le l.

Lemma js_sort_Permutation l : js_sort l ≡ₚ l.
Proof. apply merge_sort_Permutation. Qed.

Lemma ascii_leb_trans a b c :
  Ascii.compare a b <> Gt -> Ascii.compare b c <> Gt -> Ascii.compare a c <> Gt.
Proof. unfold Ascii.compare. rewrite !N.compare_le_iff. lia. Qed.

Lemma str_le_String a s b t :
  str_le (String a s) (String b t) <->
  Ascii.compare a b = Lt \/ (a = b /\ str_le s t).
Proof.
  unfold str_le, String.leb. cbn [String.compare]. destruct (Ascii.compare a b) eqn:E.
  - apply Ascii.compare_eq_iff in E as ->. naive_solver.
  - naive_solver.
  - split; [done|]. intros [?|[-> _]]; [done|]. unfold Ascii.compare in E.
    by rewrite N.compare_refl in E.
Qed.

#[global] Instance str_le_trans : Transitive str_le.
Proof.
  intros s. induction s as [|a s IH]; intros [|b t] [|c u]; try done.
  rewrite !str_le_String. intros [H1|[-> H1]] [H2|[-> H2]]; [left|by left|by left|right; eauto].
  unfold Ascii.compare in *. rewrite N.compare_lt_iff in *. lia.
Qed.
#[global] Instance str_le_antisymm : AntiSymm eq str_le.
Proof. intros s t. apply String.leb_antisym. Qed.
#[global] Instance str_le_total : Total str_le.
Proof. intros s t. apply String.leb_total. Qed.

(** Sorting forgets the order of the array. *)
Lemma js_sort_unique l l' : l ≡ₚ l' -> js_sort l = js_sort l'.
Proof.
  intros Hp. apply (Sorted_unique str_le); [apply Sorted_merge_sort, _..|].
  by rewrite !js_sort_Permutation.
Qed.

(** ** [Array.prototype.sort] with a comparison

    [le a b] is [compare(a, b) <= 0]; elements that compare equal keep their
    order. *)

Section sort_by.
Context {A : Type} (le : A -> A -> bool).

Fixpoint insert_by (x : A) (l : list A) : list A :=
  match l with
  | [] => [x]
  | y :: l' => if le x y then x :: l else y :: insert_by x l'
  end.
Definition sort_by (l : list A) : list A := foldr insert_by [] l.

Lemma insert_by_Permutation x l : insert_by x l ≡ₚ x :: l.
Proof.
  induction l as [|y l IH]; [done|]. cbn. destruct (le x y); [done|].
  rewrite IH. apply Permutation_swap.
Qed.

Lemma sort_by_Permutation l : sort_by l ≡ₚ l.
Proof. induction l as [|x l IH]; [done|]. cbn. by rewrite insert_by_Permutation, IH. Qed.

Lemma elem_of_sort_by x l : x ∈ sort_by l <-> x ∈ l.
Proof. by rewrite sort_by_Permutation. Qed.

Lemma length_sort_by l : length (sort_by l) = length l.
Proof. by rewrite sort_by_Permutation. Qed.

Hypothesis le_total : forall a b, le a b = true \/ le b a = true.
Hypothesis le_trans : forall a b c, le a b = true -> le b c = true -> le a c = true.

Lemma insert_by_sorted x l :
  StronglySorted (fun a b => le a b = true) l -> StronglySorted (fun a b => le a b = true) (insert_by x l).
Proof.
  induction 1 as [|y l Hl IH Hy]; cbn; [by repeat constructor|].
  destruct (le x y) eqn:Hxy.
  - constructor; [by constructor|]. constructor; [done|].
    eapply Forall_impl; [done|]. cbn. eauto.
  - constructor; [done|]. rewrite insert_by_Permutation. constructor; [|done].
    destruct (le_total x y); congruence.
Qed.

Lemma sort_by_sorted l : StronglySorted (fun a b => le a b = true) (sort_by l).
Proof. induction l; cbn; [constructor|by apply insert_by_sorted]. Qed.

(** The first element of a sorted array is least. *)
Lemma sort_by_head l x rest y : sort_by l = x :: rest -> y ∈ l -> y = x \/ le x y = true.
Proof.
  intros E Hy. pose proof (sort_by_sorted l) as Hs. rewrite E in Hs. inversion Hs as [|? ? _ Hx]; subst.
  rewrite <- elem_of_sort_by, E, elem_of_cons in Hy. destruct Hy as [->|Hy]; [by left|right].
  rewrite Forall_forall in Hx. by apply Hx.
Qed.
End sort_by.

(** ** Insertion-ordered maps

    [Map] iterates in insertion order, and re-setting a present key keeps the
    key's position. *)

Record jsmap (K V : Type) := JsMap { entries : list (K * V) }.
Arguments JsMap {K V} _.
Arguments entries {K V} _.

Section jsmap.
Context {K V : Type} `{EqDecision K}.
Implicit Types (m : jsmap K V) (l : list (K * V)).

Fixpoint assoc_get (k : K) l : option V :=
  match l with
  | [] => None
  | (k', v) :: l' => if decide (k = k') then Some v else assoc_get k l'
  end.

Fixpoint assoc_set (k : K) (v : V) l : list (K * V) :=
  match l with
  | [] => [(k, v)]
  | (k', v') :: l' =>
      if decide (k = k') then (k, v) :: l' else (k', v') :: assoc_set k v l'
  end.

Fixpoint assoc_del (k : K) l : list (K * V) :=
  match l with
  | [] => []
  | (k', v') :: l' =>
      if decide (k = k') then assoc_del k l' else (k', v') :: assoc_del k l'
  end.

#[global] Instance jsmap_lookup : Lookup K V (jsmap K V) :=
  fun k m => assoc_get k (entries m).
#[global] Instance jsmap_insert : Insert K V (jsmap K V) :=
  fun k v m => JsMap (assoc_set k v (entries m)).
#[global] Instance jsmap_delete : Delete K (jsmap K V) :=
  fun k m => JsMap (assoc_del k (entries m)).
#[global] Instance jsmap_empty : Empty (jsmap K V) := JsMap [].

Definition map_has (k : K) m : bool := bool_decide (is_Some (m !! k)).
Definition map_size m : nat := length (entries m).
Definition map_keys m : list K := (entries m).*1.
Definition map_values m : list V := (entries m).*2.

(** Every map the code can build has distinct keys. *)
Definition map_wf m : Prop := NoDup (map_keys m).

Lemma jsmap_lookup_empty k : (∅ : jsmap K V) !! k = None.
Proof. done. Qed.

Lemma jsmap_lookup_insert m k v k' :
  <[k := v]> m !! k' = if decide (k = k') then Some v else m !! k'.
Proof.
  destruct m as [l]. unfold lookup, insert, jsmap_lookup, jsmap_insert. cbn.
  induction l as [|[k0 v0] l IH]; cbn; [by repeat case_decide|].
  destruct (decide (k = k0)) as [->|]; cbn; [by repeat case_decide; simplify_eq|].
  destruct (decide (k' = k0)) as [->|]; [by rewrite decide_False by done|]. done.
Qed.

Lemma jsmap_lookup_delete m k k' :
  delete k m !! k' = if decide (k = k') then None else m !! k'.
Proof.
  destruct m as [l]. unfold lookup, delete, jsmap_lookup, jsmap_delete. cbn.
  induction l as [|[k0 v0] l IH]; cbn; [by case_decide|].
  destruct (decide (k = k0)) as [->|]; cbn; [rewrite IH; by repeat case_decide|].
  destruct (decide (k' = k0)) as [->|]; [by rewrite decide_False by done|]. done.
Qed.

Lemma jsmap_lookup_insert_eq m k v : <[k := v]> m !! k = Some v.
Proof. by rewrite jsmap_lookup_insert, decide_True. Qed.
Lemma jsmap_lookup_insert_ne m k v k' : k <> k' -> <[k := v]> m !! k' = m !! k'.
Proof. intros. by rewrite jsmap_lookup_insert, decide_False. Qed.
Lemma jsmap_lookup_delete_eq m k : delete k m !! k = None.
Proof. by rewrite jsmap_lookup_delete, decide_True. Qed.
Lemma jsmap_lookup_delete_ne m k k' : k <> k' -> delete k m !! k' = m !! k'.
Proof. intros. by rewrite jsmap_lookup_delete, decide_False. Qed.

Lemma map_has_true m k : map_has k m = true <-> is_Some (m !! k).
Proof. apply bool_decide_eq_true. Qed.
Lemma map_has_false m k : map_has k m = false <-> m !! k = None.
Proof. unfold map_has. rewrite bool_decide_eq_false. symmetry. apply eq_None_not_Some. Qed.

Lemma assoc_get_elem_of l k v : assoc_get k l = Some v -> (k, v) ∈ l.
Proof.
  induction l as [|[k0 v0] l IH]; cbn; [done|].
  case_decide; simplify_eq; intros; simplify_eq; [left|right; auto].
Qed.

Lemma assoc_get_None l k : assoc_get k l = None <-> k ∉ l.*1.
Proof.
  induction l as [|[k0 v0] l IH]; cbn; [set_solver|].
  case_decide; subst; rewrite not_elem_of_cons; naive_solver.
Qed.

Lemma jsmap_lookup_elem_of m k v : m !! k = Some v -> (k, v) ∈ entries m.
Proof. apply assoc_get_elem_of. Qed.

Lemma elem_of_jsmap_lookup m k v :
  map_wf m -> (k, v) ∈ entries m -> m !! k = Some v.
Proof.
  destruct m as [l]. unfold map_wf, map_keys, lookup, jsmap_lookup. cbn.
  induction l as [|[k0 v0] l IH]; cbn; [set_solver|].
  rewrite NoDup_cons. intros [Hk Hl] [?|Hin]%elem_of_cons; simplify_eq.
  - by rewrite decide_True.
  - rewrite decide_False; [auto|]. intros ->. apply Hk.
    apply list_elem_of_fmap. by exists (k0, v).
Qed.

Lemma jsmap_lookup_None m k : m !! k = None <-> k ∉ map_keys m.
Proof. apply assoc_get_None. Qed.

Lemma assoc_set_keys l k v :
  (assoc_set k v l).*1 = if decide (k ∈ l.*1) then l.*1 else l.*1 ++ [k].
Proof.
  induction l as [|[k0 v0] l IH]; [done|]. cbn.
  destruct (decide (k = k0)) as [->|Hne]; cbn.
  - rewrite decide_True; [done|left].
  - rewrite IH. case_decide as H1; case_decide as H2; try done; set_solver.
Qed.

Lemma map_keys_insert m k v :
  map_keys (<[k := v]> m) =
  if decide (k ∈ map_keys m) then map_keys m else map_keys m ++ [k].
Proof. apply assoc_set_keys. Qed.

Lemma assoc_del_keys l k : (assoc_del k l).*1 = filter (fun x => x <> k) l.*1.
Proof.
  induction l as [|[k0 v0] l IH]; [done|].
  rewrite fmap_cons, filter_cons. cbn [assoc_del fst].
  destruct (decide (k = k0)) as [->|Hne].
  - by rewrite decide_False by naive_solver.
  - rewrite decide_True by done. cbn. by rewrite <- IH.
Qed.

Lemma jsmap_delete_notin m k : m !! k = None -> delete k m = m.
Proof.
  destruct m as [l]. unfold lookup, delete, jsmap_lookup, jsmap_delete. cbn.
  intros H. f_equal. induction l as [|[k0 v0] l IH]; cbn in *; [done|].
  case_decide; [done|]. by rewrite IH.
Qed.

Lemma map_keys_delete m k :
  map_keys (delete k m) = filter (fun x => x <> k) (map_keys m).
Proof. apply assoc_del_keys. Qed.

Lemma map_wf_empty : map_wf ∅.
Proof. constructor. Qed.

Lemma map_wf_insert m k v : map_wf m -> map_wf (<[k := v]> m).
Proof.
  unfold map_wf. rewrite map_keys_insert. case_decide; [done|].
  intros. apply NoDup_app. split; [done|]. split; [set_solver|].
  apply NoDup_singleton.
Qed.

Lemma map_wf_delete m k : map_wf m -> map_wf (delete k m).
Proof. unfold map_wf. rewrite map_keys_delete. apply NoDup_filter. Qed.

(** A predicate that only one key can satisfy selects at most one value. *)
Lemma map_values_filter_unique m (P : V -> Prop) `{!forall v, Decision (P v)} :
  map_wf m ->
  (forall k1 k2 v1 v2, m !! k1 = Some v1 -> m !! k2 = Some v2 ->
     P v1 -> P v2 -> k1 = k2) ->
  (length (filter P (map_values m)) <= 1)%nat.
Proof.
  intros Hwf Huniq.
  assert (Hin : forall k v, (k, v) ∈ entries m -> m !! k = Some v)
    by (intros; by apply elem_of_jsmap_lookup).
  revert Hwf. unfold map_wf, map_keys, map_values.
  generalize (entries m) Hin. clear Hin.
  induction l as [|[k v] l IH]; intros Hin; [cbn; lia|].
  rewrite !fmap_cons, NoDup_cons. cbn [fst snd]. intros [Hk Hl].
  assert (IH' := IH (fun k' v' H => Hin k' v' (list_elem_of_further _ _ _ H)) Hl).
  rewrite filter_cons. case_decide as HP; [|done]. cbn.
  destruct (filter P l.*2) as [|v' rest] eqn:Hf; [cbn; lia|]. exfalso.
  assert (v' ∈ filter P l.*2) as [HP' Hv']%list_elem_of_filter
    by (rewrite Hf; left).
  apply list_elem_of_fmap in Hv' as ([k' ?] & -> & Hkv). cbn in *.
  apply Hk, list_elem_of_fmap. exists (k', v0). split; [|done].
  apply (Huniq _ _ v v0); auto using list_elem_of_here, list_elem_of_further.
Qed.

Lemma map_size_keys m : map_size m = length (map_keys m).
Proof. unfold map_size, map_keys. by rewrite length_fmap. Qed.

Lemma map_size_insert m k v :
  map_size (<[k := v]> m) =
  if decide (k ∈ map_keys m) then map_size m else S (map_size m).
Proof.
  rewrite !map_size_keys, map_keys_insert. case_decide; [done|].
  rewrite length_app. cbn. lia.
Qed.
End jsmap.

Arguments map_wf {K V} _.

#[export] Hint Resolve map_wf_empty map_wf_insert map_wf_delete : core.
#[export] Hint Rewrite @jsmap_lookup_empty @jsmap_lookup_insert_eq
  @jsmap_lookup_delete_eq : jsmap.
#[export] Hint Rewrite @jsmap_lookup_insert_ne @jsmap_lookup_delete_ne
  using done : jsmap.

(** Read a map through its updates; [jsmap_cases] also splits on whether the
    keys are equal. *)
Ltac jsmap_simpl :=
  repeat (autorewrite with jsmap in *; simplify_eq/=).
Ltac jsmap_cases :=
  repeat match goal with
  | H : context [<[?k := _]> _ !! ?k'] |- _ =>
      rewrite (jsmap_lookup_insert _ k _ k') in H; destruct (decide (k = k'))
  | H : context [delete ?k _ !! ?k'] |- _ =>
      rewrite (jsmap_lookup_delete _ k k') in H; destruct (decide (k = k'))
  | |- context [<[?k := _]> _ !! ?k'] =>
      rewrite (jsmap_lookup_insert _ k _ k'); destruct (decide (k = k'))
  | |- context [delete ?k _ !! ?k'] =>
      rewrite (jsmap_lookup_delete _ k k'); destruct (decide (k = k'))
  end; simplify_eq/=.

(** ** Sets

    [new Set(list)]: the distinct elements, in order of first occurrence. *)

Section jsset.
Context {A : Type} `{EqDecision A}.
Implicit Types (l : list A).

Definition set_has (x : A) l : bool := bool_decide (x ∈ l).

Definition set_add (x : A) l : list A := if set_has x l then l else l ++ [x].

Definition new_Set l : list A := foldl (fun acc x => set_add x acc) [] l.

Lemma elem_of_set_add x y l : y ∈ set_add x l <-> y = x \/ y ∈ l.
Proof.
  unfold set_add, set_has. case_bool_decide; [naive_solver|].
  rewrite elem_of_app, list_elem_of_singleton. naive_solver.
Qed.

Lemma NoDup_set_add x l : NoDup l -> NoDup (set_add x l).
Proof.
  unfold set_add, set_has. case_bool_decide; [done|]. intros.
  apply NoDup_app. split; [done|]. split; [set_solver|]. apply NoDup_singleton.
Qed.

Lemma foldl_set_add_spec l acc :
  NoDup acc ->
  NoDup (foldl (fun acc x => set_add x acc) acc l) /\
  forall x, x ∈ foldl (fun acc x => set_add x acc) acc l <-> x ∈ acc \/ x ∈ l.
Proof.
  revert acc. induction l as [|y l IH]; intros acc Hacc; cbn; [set_solver|].
  destruct (IH (set_add y acc) (NoDup_set_add _ _ Hacc)) as [H1 H2].
  split; [done|]. intros x. rewrite H2, elem_of_set_add, elem_of_cons. naive_solver.
Qed.

Lemma NoDup_new_Set l : NoDup (new_Set l).
Proof. apply foldl_set_add_spec. constructor. Qed.

Lemma elem_of_new_Set x l : x ∈ new_Set l <-> x ∈ l.
Proof.
  unfold new_Set. rewrite (proj2 (foldl_set_add_spec l [] (NoDup_nil_2))). set_solver.
Qed.

Lemma foldl_set_add_NoDup l acc :
  NoDup (acc ++ l) -> foldl (fun acc x => set_add x acc) acc l = acc ++ l.
Proof.
  revert acc. induction l as [|y l IH]; intros acc Hnd; cbn; [by rewrite app_nil_r|].
  unfold set_add at 2, set_has. rewrite bool_decide_false.
  - rewrite IH; [by rewrite <- app_assoc|]. by rewrite <- app_assoc.
  - apply NoDup_app in Hnd as (_ & Hd & _). set_solver.
Qed.

(** Building a set from distinct elements keeps them as they are. *)
Lemma new_Set_NoDup l : NoDup l -> new_Set l = l.
Proof. intros. by apply (foldl_set_add_NoDup l []). Qed.
End jsset.

#[export] Hint Resolve NoDup_new_Set NoDup_set_add : core.
