(* ===== verification/Text.v ===== *)
(** * Text: splitting, trimming, decimal integers, flat JSON objects

    The parts of JavaScript's [String], [BigInt] and [JSON] that the
    line-oriented stores use.  [JSON_parse] reads flat objects of strings and
    integers written without white space, which is what [JSON.stringify] makes of
    such objects; on every other text it gives [None], the [SyntaxError].  For
    the texts built by concatenating [JSON_stringify] outputs this is what
    [JSON.parse] answers. *)

From Stdlib Require Import ZArith Lia Ascii String DecimalString DecimalN DecimalPos DecimalZ.
From stdpp Require Import base list strings.
From S2P Require Import Prelude Js.

(** ** Characters *)

Definition code (c : ascii) : nat := nat_of_ascii c.
Definition DQUOTE : ascii := "034"%char.
Definition BSLASH : ascii := "092"%char.
Definition NEWLINE : ascii := "010"%char.
Definition LBRACE : ascii := "{"%char.
Definition RBRACE : ascii := "}"%char.
Definition COMMA : ascii := ","%char.
Definition COLON : ascii := ":"%char.

Fixpoint all_chars (P : ascii -> bool) (s : string) : bool :=
  match s with
  | EmptyString => true
  | String c s' => P c && all_chars P s'
  end.

Definition lacks (sep : ascii) : string -> bool :=
  all_chars (fun c => negb (bool_decide (c = sep))).

Lemma app_String c s t : String c s +:+ t = String c (s +:+ t).
Proof. done. Qed.
Lemma app_Empty t : EmptyString +:+ t = t.
Proof. done. Qed.
Lemma app_nil_s s : s +:+ "" = s.
Proof. induction s as [|c s IH]; [done|]. by rewrite app_String, IH. Qed.
Lemma app_assoc_s s t u : (s +:+ t) +:+ u = s +:+ (t +:+ u).
Proof. induction s as [|c s IH]; [done|]. by rewrite !app_String, IH. Qed.
Lemma length_app_s s t : String.length (s +:+ t) = (String.length s + String.length t)%nat.
Proof. induction s as [|c s IH]; [done|]. rewrite app_String. cbn. by rewrite IH. Qed.

Lemma app_inv_head_s s t u : s +:+ t = s +:+ u -> t = u.
Proof. induction s as [|c s IH]; [done|]. rewrite !app_String. intros [= E]. by apply IH. Qed.

#[export] Hint Rewrite app_String app_Empty app_nil_s app_assoc_s : text.

Lemma all_chars_app P s t : all_chars P (s +:+ t) = all_chars P s && all_chars P t.
Proof.
  induction s as [|c s IH]; [done|]. rewrite app_String. cbn. by rewrite IH, andb_assoc.
Qed.

Lemma all_chars_mono (P Q : ascii -> bool) s :
  (forall c, P c = true -> Q c = true) -> all_chars P s = true -> all_chars Q s = true.
Proof.
  intros HPQ. induction s as [|c s IH]; [done|]. cbn.
  intros [H1 H2]%andb_true_iff. by rewrite HPQ, IH.
Qed.

(** ** Joining, lower case *)

(** [l.join(sep)] *)
Fixpoint join (sep : string) (l : list string) : string :=
  match l with
  | [] => ""
  | [x] => x
  | x :: l' => x +:+ sep +:+ join sep l'
  end.

(** [s.toLowerCase()], code units below 128 *)
Definition lower1 (c : ascii) : ascii :=
  if (65 <=? code c)%nat && (code c <=? 90)%nat then ascii_of_nat (code c + 32) else c.
Fixpoint toLowerCase (s : string) : string :=
  match s with EmptyString => EmptyString | String c s' => String (lower1 c) (toLowerCase s') end.

(** What follows a prefix. *)
Fixpoint stripPrefix (p s : string) : option string :=
  match p, s with
  | EmptyString, _ => Some s
  | String a p', String b s' => if Ascii.eqb a b then stripPrefix p' s' else None
  | _, EmptyString => None
  end.

(** [s.endsWith(suffix)] *)
Fixpoint endsWith (suffix s : string) : bool :=
  String.eqb s suffix || match s with String _ s' => endsWith suffix s' | EmptyString => false end.

Lemma endsWith_app suffix s : endsWith suffix (s +:+ suffix) = true.
Proof.
  induction s as [|c s IH].
  - rewrite app_Empty. destruct suffix; cbn; [done|]. by rewrite Ascii.eqb_refl, String.eqb_refl.
  - rewrite app_String. cbn [endsWith]. by rewrite IH, orb_true_r.
Qed.

(** ** Splitting and trimming *)

(** [s.split(sep)] for a one-character separator *)
Fixpoint split (sep : ascii) (s : string) : list string :=
  match s with
  | EmptyString => [""]
  | String c s' =>
      if bool_decide (c = sep) then "" :: split sep s'
      else match split sep s' with
           | [] => [String c ""]
           | w :: ws => String c w :: ws
           end
  end.

Lemma split_String sep c s :
  split sep (String c s) =
  if bool_decide (c = sep) then "" :: split sep s
  else match split sep s with [] => [String c ""] | w :: ws => String c w :: ws end.
Proof. done. Qed.

Lemma lacks_String sep c s :
  lacks sep (String c s) = true <-> c <> sep /\ lacks sep s = true.
Proof.
  unfold lacks. change (all_chars ?P (String c s)) with (P c && all_chars P s).
  rewrite andb_true_iff, negb_true_iff, bool_decide_eq_false. done.
Qed.

Lemma split_lacks sep s : lacks sep s = true -> split sep s = [s].
Proof.
  induction s as [|c s IH]; [done|]. rewrite lacks_String. intros [Hc Hs].
  by rewrite split_String, bool_decide_false, IH.
Qed.

Lemma split_app sep s t :
  lacks sep s = true -> split sep (s +:+ String sep t) = s :: split sep t.
Proof.
  induction s as [|c s IH].
  - intros _. by rewrite app_Empty, split_String, bool_decide_true.
  - rewrite lacks_String. intros [Hc Hs].
    by rewrite app_String, split_String, bool_decide_false, IH.
Qed.

Lemma last_separator_inj sep s1 t1 s2 t2 :
  lacks sep t1 = true -> lacks sep t2 = true ->
  s1 +:+ String sep t1 = s2 +:+ String sep t2 -> s1 = s2 /\ t1 = t2.
Proof.
  intros H1 H2. revert s2. induction s1 as [|c s1 IH]; intros [|c' s2]; rewrite ?app_Empty, ?app_String.
  - by intros [= ->].
  - intros [= <- E]. exfalso. rewrite E in H1. clear -H1.
    induction s2 as [|x s2 IH]; rewrite ?app_Empty, ?app_String, lacks_String in H1; naive_solver.
  - intros [= -> E]. exfalso. rewrite <- E in H2. clear -H2.
    induction s1 as [|x s1 IH]; rewrite ?app_Empty, ?app_String, lacks_String in H2; naive_solver.
  - intros [= -> E]. destruct (IH _ E) as [-> ->]. done.
Qed.

(** [s.trimStart()], [s.trimEnd()], [s.trim()] *)
Fixpoint trimStart (s : string) : string :=
  match s with
  | String c s' => if is_ws c then trimStart s' else s
  | EmptyString => EmptyString
  end.

Fixpoint trimEnd (s : string) : string :=
  match s with
  | EmptyString => EmptyString
  | String c s' =>
      match trimEnd s' with
      | EmptyString => if is_ws c then EmptyString else String c EmptyString
      | t => String c t
      end
  end.

Definition trim (s : string) : string := trimEnd (trimStart s).

Lemma trimEnd_String c s :
  trimEnd (String c s) =
  match trimEnd s with
  | EmptyString => if is_ws c then EmptyString else String c EmptyString
  | t => String c t
  end.
Proof. done. Qed.

Lemma trimEnd_last s c : is_ws c = false -> trimEnd (s +:+ String c "") = s +:+ String c "".
Proof.
  intros Hc. induction s as [|d s IH].
  - by rewrite app_Empty, trimEnd_String, Hc.
  - rewrite app_String, trimEnd_String, IH. by destruct s.
Qed.

Lemma trimEnd_ws s c : is_ws c = true -> trimEnd (s +:+ String c "") = trimEnd s.
Proof.
  intros Hc. induction s as [|d s IH].
  - by rewrite app_Empty, trimEnd_String, Hc.
  - by rewrite app_String, !trimEnd_String, IH.
Qed.

(** ** Integers in decimal *)

(** [String(z)], for a number below 10^21 or a [bigint] *)
Definition print_Z (z : Z) : string := NilZero.string_of_int (Z.to_int z).

(** The integer a text denotes in that form. *)
Definition parse_Z (s : string) : option Z :=
  match NilZero.int_of_string s with
  | Some i => if bool_decide (print_Z (Z.of_int i) = s) then Some (Z.of_int i) else None
  | None => None
  end.

Lemma parse_print_Z z : parse_Z (print_Z z) = Some z.
Proof.
  unfold parse_Z, print_Z at 1. rewrite NilZero.isi.
  - by rewrite DecimalZ.of_to, bool_decide_true.
  - destruct z; cbn; [done| |]; intros [= H]; by apply (DecimalPos.Unsigned.to_uint_nonnil p).
  - destruct z; cbn; [done| |]; intros [= H]; by apply (DecimalPos.Unsigned.to_uint_nonnil p).
Qed.

Lemma print_Z_inj a b : print_Z a = print_Z b -> a = b.
Proof. intros H. pose proof (parse_print_Z a) as Ha. rewrite H, parse_print_Z in Ha. congruence. Qed.

Definition is_numchar (c : ascii) : bool :=
  bool_decide (c = "-"%char) || ((48 <=? code c)%nat && (code c <=? 57)%nat).

Lemma print_Z_numchars z : all_chars is_numchar (print_Z z) = true.
Proof.
  assert (Hu : forall u, all_chars is_numchar (NilEmpty.string_of_uint u) = true)
    by (induction u; cbn; auto).
  assert (Hz : forall u, all_chars is_numchar (NilZero.string_of_uint u) = true)
    by (intros []; done || apply Hu).
  unfold print_Z. destruct (Z.to_int z); cbn; apply Hz.
Qed.

(** [BigInt(s)] for a string: white space is trimmed, the empty string is 0,
    [0x], [0o] and [0b] literals have no sign, anything else is a [SyntaxError]. *)
Definition digit_value (c : ascii) : option Z :=
  let n := Z.of_nat (code c) in
  if (48 <=? n) && (n <=? 57) then Some (n - 48)
  else if (97 <=? n) && (n <=? 102) then Some (n - 87)
  else if (65 <=? n) && (n <=? 70) then Some (n - 55)
  else None.

Fixpoint radix_digits (base acc : Z) (s : string) : option Z :=
  match s with
  | EmptyString => Some acc
  | String c s' =>
      match digit_value c with
      | Some d => if d <? base then radix_digits base (acc * base + d) s' else None
      | None => None
      end
  end.

Definition radix_of (c : ascii) : option Z :=
  if bool_decide (c = "x"%char) || bool_decide (c = "X"%char) then Some 16
  else if bool_decide (c = "o"%char) || bool_decide (c = "O"%char) then Some 8
  else if bool_decide (c = "b"%char) || bool_decide (c = "B"%char) then Some 2
  else None.

Definition decimal (s : string) : option Z :=
  match s with
  | String c s' =>
      if bool_decide (c = "+"%char) && negb (falsy s')
      then match s' with
           | String d _ => if bool_decide (d = "-"%char) then None
                           else Z.of_int <$> NilZero.int_of_string s'
           | EmptyString => None
           end
      else Z.of_int <$> NilZero.int_of_string s
  | EmptyString => None
  end.

Definition BigInt_of_string (s : string) : option Z :=
  let t := trim s in
  if falsy t then Some 0 else
  match t with
  | String z (String r (String d ds)) =>
      match radix_of r with
      | Some base => if bool_decide (z = "0"%char) then radix_digits base 0 (String d ds)
                     else decimal t
      | None => decimal t
      end
  | _ => decimal t
  end.

Example BigInt_of_string_samples :
  BigInt_of_string <$> ["12"; " -7 "; "+5"; ""; "0x1F"; "007"; "0x"; "-0x1"; "1n"; "+-1"; "1 2"; "-"]
  = [Some 12; Some (-7); Some 5; Some 0; Some 31; Some 7; None; None; None; None; None; None].
Proof. vm_compute. reflexivity. Qed.

(** Reading back a printed [bigint]. *)
Lemma is_ws_numchar c : is_numchar c = true -> is_ws c = false.
Proof. destruct c as [[] [] [] [] [] [] [] []]; vm_compute; done. Qed.

Lemma trim_numchars s : all_chars is_numchar s = true -> trim s = s.
Proof.
  assert (HS : forall t, all_chars is_numchar t = true -> trimStart t = t).
  { intros [|c t]; [done|]. change (all_chars ?P (String c t)) with (P c && all_chars P t).
    intros [Hc _]%andb_true_iff. cbn [trimStart]. by rewrite is_ws_numchar. }
  intros Hs. unfold trim. rewrite HS by done.
  induction s as [|c s IH]; [done|]. revert Hs.
  change (all_chars ?P (String c s)) with (P c && all_chars P s).
  intros [Hc Hs]%andb_true_iff. rewrite trimEnd_String, IH by done.
  destruct s; [by rewrite is_ws_numchar|done].
Qed.

Lemma BigInt_print_Z z : BigInt_of_string (print_Z z) = Some z.
Proof.
  pose proof (print_Z_numchars z) as Hn. pose proof (parse_print_Z z) as Hp.
  unfold BigInt_of_string. rewrite trim_numchars by done.
  assert (Hd : decimal (print_Z z) = Some z).
  { unfold parse_Z in Hp. unfold decimal.
    destruct (print_Z z) as [|c s]; [done|].
    rewrite (bool_decide_false (c = "+"%char)).
    - cbn [andb]. destruct (NilZero.int_of_string (String c s)); [|done]. cbn.
      by case_bool_decide.
    - intros ->. done. }
  unfold falsy. rewrite bool_decide_false by (intros E; rewrite E in Hd; done).
  destruct (print_Z z) as [|a [|b [|c s]]]; [done..|].
  destruct (radix_of b) eqn:Hr; [|done]. exfalso.
  repeat match type of Hn with
         | all_chars ?P (String ?x ?y) = _ =>
             change (P x && all_chars P y = true) in Hn
         end.
  apply andb_true_iff in Hn as [_ Hn].
  change (is_numchar b && all_chars is_numchar (String c s) = true) in Hn.
  apply andb_true_iff in Hn as [Hn _]. revert Hr Hn. clear.
  destruct b as [[] [] [] [] [] [] [] []]; vm_compute; done.
Qed.

(** *** Digits

    Texts of digits, with leading zeros or not, and their lengths. *)

Definition is_digit (c : ascii) : bool := (48 <=? code c)%nat && (code c <=? 57)%nat.

(** The leading digits of a string, and the rest. *)
Fixpoint span_digits (s : string) : string * string :=
  match s with
  | String c s' =>
      if is_digit c then let '(d, rest) := span_digits s' in (String c d, rest) else ("", s)
  | EmptyString => ("", "")
  end.

(** [s.padEnd(n, '0')], [s.padStart(n, '0')] *)
Fixpoint zeros (n : nat) : string :=
  match n with O => "" | S n' => String "0" (zeros n') end.
Definition padEnd (n : nat) (s : string) : string := s +:+ zeros (n - String.length s).
Definition padStart (n : nat) (s : string) : string := zeros (n - String.length s) +:+ s.

Lemma digit_numchar c : is_digit c = true -> is_numchar c = true.
Proof. unfold is_digit, is_numchar. intros ->. apply orb_true_r. Qed.

Lemma all_chars_String P c s : all_chars P (String c s) = P c && all_chars P s.
Proof. done. Qed.

(** [BigInt] of digits is their decimal value. *)
Lemma BigInt_digits s :
  all_chars is_digit s = true -> s <> "" ->
  BigInt_of_string s = Z.of_uint <$> NilEmpty.uint_of_string s.
Proof.
  intros Hs Hne. unfold BigInt_of_string.
  rewrite trim_numchars by (eapply all_chars_mono; [apply digit_numchar|done]).
  unfold falsy. rewrite bool_decide_false by done.
  assert (Hd : decimal s = Z.of_uint <$> NilEmpty.uint_of_string s).
  { destruct s as [|c s]; [done|]. rewrite all_chars_String in Hs.
    apply andb_true_iff in Hs as [Hc _]. unfold decimal.
    rewrite (bool_decide_false (c = "+"%char)) by (intros ->; done). cbn [andb].
    unfold NilZero.int_of_string. destruct (Ascii.eqb_spec c "-"%char) as [->|_]; [done|].
    unfold NilZero.uint_of_string. by destruct (NilEmpty.uint_of_string (String c s)). }
  destruct s as [|a [|b [|c s]]]; [done..|].
  destruct (radix_of b) eqn:Hr; [|done]. exfalso.
  rewrite !all_chars_String in Hs. apply andb_true_iff in Hs as [_ [Hb _]%andb_true_iff].
  revert Hr Hb. clear. destruct b as [[] [] [] [] [] [] [] []]; vm_compute; done.
Qed.

Lemma BigInt_zeros k s :
  all_chars is_digit s = true -> s <> "" ->
  BigInt_of_string (zeros k +:+ s) = BigInt_of_string s.
Proof.
  intros Hs Hne. induction k as [|k IH]; [done|]. cbn [zeros].
  assert (Hz : forall j, all_chars is_digit (zeros j +:+ s) = true)
    by (induction j; cbn [zeros]; [done|]; by rewrite app_String, all_chars_String).
  rewrite <- IH, !BigInt_digits; [|apply Hz| |apply (Hz (S k))|done].
  - rewrite app_String. cbn [NilEmpty.uint_of_string].
    by destruct (NilEmpty.uint_of_string (zeros k +:+ s)).
  - destruct k; cbn [zeros]; [done|]. by rewrite app_String.
Qed.

Lemma print_Z_digits z : 0 <= z -> all_chars is_digit (print_Z z) = true.
Proof.
  assert (Hu : forall u, all_chars is_digit (NilEmpty.string_of_uint u) = true)
    by (induction u; cbn; auto).
  intros Hz. unfold print_Z. destruct z as [|p|p]; [done| |lia]. cbn.
  unfold NilZero.string_of_uint. destruct (Pos.to_uint p) eqn:?; done || apply (Hu (_ _)).
Qed.

Lemma print_Z_nonempty z : print_Z z <> "".
Proof. intros E. pose proof (parse_print_Z z) as H. by rewrite E in H. Qed.

Lemma length_string_of_uint u :
  String.length (NilEmpty.string_of_uint u) = Decimal.nb_digits u.
Proof. induction u; cbn; congruence. Qed.

Lemma of_uint_acc_lower u acc :
  (Z.pos acc * 10 ^ Z.of_nat (Decimal.nb_digits u) <= Z.pos (Pos.of_uint_acc u acc)).
Proof.
  revert acc. induction u; intros acc; cbn [Decimal.nb_digits Pos.of_uint_acc]; [lia|..];
    rewrite Nat2Z.inj_succ, Z.pow_succ_r by lia;
    (etransitivity; [|apply IHu]);
    pose proof (Z.pow_pos_nonneg 10 (Z.of_nat (Decimal.nb_digits u)) ltac:(lia) ltac:(lia)); nia.
Qed.

Lemma nb_digits_nzhead u : (Decimal.nb_digits (Decimal.nzhead u) <= Decimal.nb_digits u)%nat.
Proof. induction u; cbn; lia. Qed.

Lemma to_uint_no_leading_zero p u : Pos.to_uint p <> Decimal.D0 u.
Proof.
  intros E. pose proof (DecimalN.Unsigned.to_of (Pos.to_uint p)) as H.
  unfold N.of_uint in H. rewrite DecimalPos.Unsigned.of_to in H. cbn in H. rewrite E in H.
  pose proof (DecimalPos.Unsigned.of_to p) as Hp. rewrite E in Hp.
  pose proof (nb_digits_nzhead u) as Hn. unfold Decimal.unorm in H. cbn in H.
  destruct (Decimal.nzhead u) eqn:Hz; [injection H as ->; done|..];
    apply (f_equal Decimal.nb_digits) in H; cbn in *; lia.
Qed.

(** A printed number has as many digits as its size asks for. *)
Lemma length_print_Z z k : (0 < k)%nat -> 0 <= z < 10 ^ Z.of_nat k -> (String.length (print_Z z) <= k)%nat.
Proof.
  intros Hk Hz. unfold print_Z. destruct z as [|p|p]; [cbn; lia| |lia]. cbn.
  pose proof (DecimalPos.Unsigned.of_to p) as Hp.
  pose proof (to_uint_no_leading_zero p) as H0. unfold NilZero.string_of_uint.
  assert (Hlen : forall u a, Z.pos (Pos.of_uint_acc u a) = Z.pos p ->
            (S (Decimal.nb_digits u) <= k)%nat).
  { intros u a E. pose proof (of_uint_acc_lower u a) as Hl. rewrite E in Hl.
    destruct (decide (S (Decimal.nb_digits u) <= k)%nat) as [|Hgt]; [done|exfalso].
    pose proof (Z.pow_le_mono_r 10 (Z.of_nat k) (Z.of_nat (Decimal.nb_digits u))
                  ltac:(lia) ltac:(lia)).
    pose proof (Z.pow_pos_nonneg 10 (Z.of_nat (Decimal.nb_digits u)) ltac:(lia) ltac:(lia)). nia. }
  destruct (Pos.to_uint p) as [|u|u|u|u|u|u|u|u|u|u]; [done|by destruct (H0 u)|..];
    rewrite length_string_of_uint; cbn [Decimal.nb_digits]; cbn in Hp; injection Hp as Hp;
    (eapply Hlen; by rewrite Hp).
Qed.

Lemma length_zeros k : String.length (zeros k) = k.
Proof. induction k; cbn; congruence. Qed.

Lemma length_padStart n s : (String.length s <= n)%nat -> String.length (padStart n s) = n.
Proof. intros. unfold padStart. rewrite length_app_s, length_zeros. lia. Qed.

Lemma all_digits_zeros k : all_chars is_digit (zeros k) = true.
Proof. induction k; [done|]. cbn [zeros]. by rewrite all_chars_String. Qed.

Lemma all_digits_padStart n s : all_chars is_digit s = true -> all_chars is_digit (padStart n s) = true.
Proof. intros Hs. unfold padStart. by rewrite all_chars_app, all_digits_zeros. Qed.

Lemma padEnd_full n s : String.length s = n -> padEnd n s = s.
Proof. intros <-. unfold padEnd. by rewrite Nat.sub_diag, app_nil_s. Qed.

(** ** JSON of flat objects *)

Inductive jfield := FStr (s : string) | FNum (z : Z).
#[export] Instance jfield_eq_dec : EqDecision jfield.
Proof. solve_decision. Defined.
Abbreviation jobject := (list (string * jfield)).

Definition hex_digit (n : nat) : ascii := ascii_of_nat (if (n <? 10)%nat then 48 + n else 87 + n).

(** A character inside a JSON string. *)
Definition escape1 (c : ascii) : string :=
  let n := code c in
  if bool_decide (c = DQUOTE) || bool_decide (c = BSLASH) then String BSLASH (String c "")
  else if (n =? 8)%nat then String BSLASH "b"
  else if (n =? 9)%nat then String BSLASH "t"
  else if (n =? 10)%nat then String BSLASH "n"
  else if (n =? 12)%nat then String BSLASH "f"
  else if (n =? 13)%nat then String BSLASH "r"
  else if (n <? 32)%nat then
    String BSLASH (String "u" (String "0" (String "0"
      (String (hex_digit (n / 16)) (String (hex_digit (n mod 16)) "")))))
  else String c "".

Fixpoint escape (s : string) : string :=
  match s with
  | EmptyString => EmptyString
  | String c s' => escape1 c +:+ escape s'
  end.

Definition quoted (s : string) : string := String DQUOTE (escape s +:+ String DQUOTE "").

Definition print_field (f : jfield) : string :=
  match f with FStr s => quoted s | FNum z => print_Z z end.

Definition print_member (m : string * jfield) : string :=
  quoted m.1 +:+ String COLON (print_field m.2).

Fixpoint print_members (l : jobject) : string :=
  match l with
  | [] => ""
  | [m] => print_member m
  | m :: l' => print_member m +:+ String COMMA (print_members l')
  end.

(** [JSON.stringify] of an object with these members, in this order. *)
Definition JSON_stringify (o : jobject) : string :=
  String LBRACE (print_members o +:+ String RBRACE "").

(** The character an escape letter stands for. *)
Definition unescape1 (e : ascii) : option ascii :=
  if bool_decide (e = DQUOTE) || bool_decide (e = BSLASH) || bool_decide (e = "/"%char) then Some e
  else if bool_decide (e = "b"%char) then Some (ascii_of_nat 8)
  else if bool_decide (e = "t"%char) then Some (ascii_of_nat 9)
  else if bool_decide (e = "n"%char) then Some (ascii_of_nat 10)
  else if bool_decide (e = "f"%char) then Some (ascii_of_nat 12)
  else if bool_decide (e = "r"%char) then Some (ascii_of_nat 13)
  else None.

Definition hex_char (a b c d : ascii) : option ascii :=
  match digit_value a, digit_value b, digit_value c, digit_value d with
  | Some 0, Some 0, Some x, Some y => Some (ascii_of_nat (Z.to_nat (16 * x + y)))
  | _, _, _, _ => None
  end.

Definition push (c : option ascii) (r : option (string * string)) : option (string * string) :=
  match c, r with
  | Some c, Some (s, rest) => Some (String c s, rest)
  | _, _ => None
  end.

(** The rest of a JSON string after its opening quote: its characters and what
    follows the closing quote. *)
Fixpoint parse_chars (s : string) : option (string * string) :=
  match s with
  | EmptyString => None
  | String c s' =>
      if bool_decide (c = DQUOTE) then Some ("", s')
      else if bool_decide (c = BSLASH) then
        match s' with
        | String e s'' =>
            if bool_decide (e = "u"%char) then
              match s'' with
              | String h1 (String h2 (String h3 (String h4 s6))) =>
                  push (hex_char h1 h2 h3 h4) (parse_chars s6)
              | _ => None
              end
            else push (unescape1 e) (parse_chars s'')
        | EmptyString => None
        end
      else if (code c <? 32)%nat then None
      else push (Some c) (parse_chars s')
  end.

Fixpoint span_num (s : string) : string * string :=
  match s with
  | String c s' =>
      if is_numchar c then let '(n, rest) := span_num s' in (String c n, rest) else ("", s)
  | EmptyString => ("", "")
  end.

Definition parse_field (s : string) : option (jfield * string) :=
  match s with
  | String c s' =>
      if bool_decide (c = DQUOTE) then
        match parse_chars s' with Some (v, rest) => Some (FStr v, rest) | None => None end
      else let '(n, rest) := span_num s in
           match parse_Z n with Some z => Some (FNum z, rest) | None => None end
  | EmptyString => None
  end.

Definition expect (c : ascii) (s : string) : option string :=
  match s with
  | String d s' => if bool_decide (d = c) then Some s' else None
  | EmptyString => None
  end.

Definition parse_member (s : string) : option ((string * jfield) * string) :=
  match expect DQUOTE s with
  | Some s1 =>
      match parse_chars s1 with
      | Some (k, s2) =>
          match expect COLON s2 with
          | Some s3 => match parse_field s3 with
                       | Some (v, rest) => Some ((k, v), rest)
                       | None => None
                       end
          | None => None
          end
      | None => None
      end
  | None => None
  end.

(** Members up to the closing brace; [fuel] bounds their number. *)
Fixpoint parse_members (fuel : nat) (s : string) : option (jobject * string) :=
  match fuel with
  | O => None
  | S fuel' =>
      match parse_member s with
      | Some (m, String c rest) =>
          if bool_decide (c = RBRACE) then Some ([m], rest)
          else if bool_decide (c = COMMA) then
            match parse_members fuel' rest with
            | Some (l, rest') => Some (m :: l, rest')
            | None => None
            end
          else None
      | _ => None
      end
  end.

Definition parse_object (s : string) : option (jobject * string) :=
  match expect LBRACE s with
  | Some s1 =>
      match expect RBRACE s1 with
      | Some rest => Some ([], rest)
      | None => parse_members (String.length s1) s1
      end
  | None => None
  end.

(** [JSON.parse] on such texts; [None] is the [SyntaxError]. *)
Definition JSON_parse (s : string) : option jobject :=
  match parse_object s with
  | Some (o, EmptyString) => Some o
  | _ => None
  end.

(** *** Reading back what was printed *)

Lemma parse_chars_escape1 c t :
  parse_chars (escape1 c +:+ t) = push (Some c) (parse_chars t).
Proof. destruct c as [[] [] [] [] [] [] [] []]; reflexivity. Qed.

Lemma parse_chars_escape s t :
  parse_chars (escape s +:+ String DQUOTE t) = Some (s, t).
Proof.
  induction s as [|c s IH]; [done|]. cbn [escape].
  by rewrite app_assoc_s, parse_chars_escape1, IH.
Qed.

Definition stops (s : string) : Prop :=
  match s with String c _ => is_numchar c = false | EmptyString => True end.

Lemma span_num_app n t : all_chars is_numchar n = true -> stops t -> span_num (n +:+ t) = (n, t).
Proof.
  intros Hn Ht. induction n as [|c n IH].
  - rewrite app_Empty. destruct t as [|d t]; [done|]. cbn [span_num]. cbn in Ht. by rewrite Ht.
  - change (is_numchar c && all_chars is_numchar n = true) in Hn.
    apply andb_true_iff in Hn as [Hc Hn]. rewrite app_String. cbn [span_num].
    by rewrite Hc, IH.
Qed.

Lemma print_Z_first z : exists c s, print_Z z = String c s /\ c <> DQUOTE.
Proof.
  pose proof (print_Z_numchars z) as Hn. pose proof (parse_print_Z z) as Hp.
  destruct (print_Z z) as [|c s]; [done|]. exists c, s. split; [done|]. intros ->.
  change (is_numchar DQUOTE && all_chars is_numchar s = true) in Hn. done.
Qed.

Lemma parse_field_print f t : stops t -> parse_field (print_field f +:+ t) = Some (f, t).
Proof.
  intros Ht. destruct f as [s|z]; cbn [print_field].
  - unfold quoted, parse_field. rewrite app_String, app_assoc_s, app_String, app_Empty.
    rewrite bool_decide_true by done. by rewrite parse_chars_escape.
  - destruct (print_Z_first z) as (c & s & E & Hc). unfold parse_field.
    pose proof (span_num_app (print_Z z) t (print_Z_numchars z) Ht) as Hs.
    pose proof (parse_print_Z z) as Hp. rewrite E in *. rewrite app_String in *.
    by rewrite bool_decide_false, Hs, Hp.
Qed.

Lemma expect_String c s : expect c (String c s) = Some s.
Proof. unfold expect. by rewrite bool_decide_true. Qed.

Lemma parse_member_print m t : stops t -> parse_member (print_member m +:+ t) = Some (m, t).
Proof.
  intros Ht. destruct m as [k v]. unfold print_member, parse_member, quoted. cbn [fst snd].
  rewrite !app_String, !app_assoc_s, expect_String, !app_String, app_Empty.
  by rewrite parse_chars_escape, expect_String, parse_field_print.
Qed.

Lemma parse_members_print l : forall fuel t,
  l <> [] -> (length l <= fuel)%nat ->
  parse_members fuel (print_members l +:+ String RBRACE t) = Some (l, t).
Proof.
  induction l as [|m l IH]; intros fuel t Hl Hf; [done|].
  destruct fuel as [|fuel]; cbn [length] in Hf; [lia|]. cbn [parse_members].
  destruct l as [|m' l].
  - cbn [print_members]. by rewrite parse_member_print, bool_decide_true.
  - change (print_members (m :: m' :: l))
      with (print_member m +:+ String COMMA (print_members (m' :: l))).
    rewrite app_assoc_s, app_String, parse_member_print by done.
    rewrite bool_decide_false, bool_decide_true by done. by rewrite IH by (done || lia).
Qed.

Lemma length_print_members l : (length l <= String.length (print_members l))%nat.
Proof.
  assert (Hm : forall m, (1 <= String.length (print_member m))%nat).
  { intros m. unfold print_member, quoted. rewrite app_String. cbn. lia. }
  induction l as [|m l IH]; [cbn; lia|]. destruct l as [|m' l]; [apply Hm|].
  change (print_members (m :: m' :: l))
    with (print_member m +:+ String COMMA (print_members (m' :: l))).
  rewrite length_app_s. cbn [String.length length] in *. specialize (Hm m). lia.
Qed.

Lemma print_members_first l : l <> [] -> exists t, print_members l = String DQUOTE t.
Proof.
  destruct l as [|m l]; [done|]. intros _. destruct l as [|m' l].
  - eexists. unfold print_members, print_member, quoted. by rewrite app_String.
  - eexists. cbn [print_members]. unfold print_member at 1, quoted at 1.
    by rewrite !app_String.
Qed.

Lemma parse_object_stringify o t : parse_object (JSON_stringify o +:+ t) = Some (o, t).
Proof.
  unfold parse_object, JSON_stringify.
  rewrite app_String, app_assoc_s, app_String, app_Empty, expect_String.
  destruct o as [|m o]; [by rewrite app_Empty, expect_String|].
  destruct (print_members_first (m :: o)) as [u Eu]; [done|].
  rewrite Eu at 1. rewrite app_String. unfold expect at 1. rewrite bool_decide_false by done.
  apply parse_members_print; [done|].
  pose proof (length_print_members (m :: o)). rewrite length_app_s. lia.
Qed.

Lemma JSON_parse_stringify o : JSON_parse (JSON_stringify o) = Some o.
Proof.
  unfold JSON_parse. rewrite <- (app_nil_s (JSON_stringify o)).
  by rewrite parse_object_stringify.
Qed.

(** Two objects on one line are no JSON text. *)
Lemma JSON_parse_trailing o t : t <> "" -> JSON_parse (JSON_stringify o +:+ t) = None.
Proof. intros Ht. unfold JSON_parse. rewrite parse_object_stringify. by destruct t. Qed.

(** *** A printed object is one line *)

Definition visible (c : ascii) : bool := (32 <=? code c)%nat.

Lemma escape_visible s : all_chars visible (escape s) = true.
Proof.
  induction s as [|c s IH]; [done|]. cbn [escape]. rewrite all_chars_app, IH, andb_true_r.
  destruct c as [[] [] [] [] [] [] [] []]; reflexivity.
Qed.

Lemma quoted_visible s : all_chars visible (quoted s) = true.
Proof.
  unfold quoted. change (all_chars ?P (String DQUOTE ?t)) with (P DQUOTE && all_chars P t).
  by rewrite all_chars_app, escape_visible.
Qed.

Lemma print_field_visible f : all_chars visible (print_field f) = true.
Proof.
  destruct f; cbn [print_field]; [apply quoted_visible|].
  eapply all_chars_mono; [|apply print_Z_numchars].
  intros []; repeat match goal with b : bool |- _ => destruct b end; vm_compute; done.
Qed.

Lemma print_member_visible m : all_chars visible (print_member m) = true.
Proof.
  unfold print_member. rewrite all_chars_app, quoted_visible.
  change (all_chars ?P (String COLON ?t)) with (P COLON && all_chars P t).
  by rewrite print_field_visible.
Qed.

Lemma print_members_visible l : all_chars visible (print_members l) = true.
Proof.
  induction l as [|m [|m' l] IH]; [done|apply print_member_visible|].
  change (print_members (m :: m' :: l))
    with (print_member m +:+ String COMMA (print_members (m' :: l))).
  rewrite all_chars_app, print_member_visible.
  change (all_chars ?P (String COMMA ?t)) with (P COMMA && all_chars P t). by rewrite IH.
Qed.

Lemma stringify_visible o : all_chars visible (JSON_stringify o) = true.
Proof.
  unfold JSON_stringify. change (all_chars ?P (String LBRACE ?t)) with (P LBRACE && all_chars P t).
  by rewrite all_chars_app, print_members_visible.
Qed.

Lemma stringify_one_line o : lacks NEWLINE (JSON_stringify o) = true.
Proof.
  eapply all_chars_mono; [|apply stringify_visible]. intros c Hc.
  apply negb_true_iff, bool_decide_eq_false. intros ->. done.
Qed.

(** [s.includes(sub)] *)
Fixpoint includes (sub s : string) : bool :=
  String.prefix sub s || match s with EmptyString => false | String _ s' => includes sub s' end.

(** ** 32-bit integers and hexadecimal *)

(** A number as a signed 32-bit integer, the operand of [<<]. *)
Definition to_int32 (z : Z) : Z := (z + 2 ^ 31) mod 2 ^ 32 - 2 ^ 31.

Lemma to_int32_mod z : exists k, to_int32 z = z + k * 2 ^ 32.
Proof.
  exists (- ((z + 2 ^ 31) / 2 ^ 32)). unfold to_int32.
  pose proof (Z.div_mod (z + 2 ^ 31) (2 ^ 32) ltac:(lia)). lia.
Qed.

(** [n.toString(16)] for [0 <= n < 2^32] *)
Fixpoint hex_digits (fuel : nat) (n : Z) (acc : string) : string :=
  match fuel with
  | O => acc
  | S fuel' =>
      let acc' := String (hex_digit (Z.to_nat (n mod 16))) acc in
      if n <? 16 then acc' else hex_digits fuel' (n / 16) acc'
  end.
Definition toString16 (n : Z) : string := hex_digits 8 n "".
