(* ===== verification/KeyRegistry.v ===== *)
(** * Validator key registry ([src/src/keys/key-registry.ts])

    Three indexes kept by one object: the key records by public key, the
    current signing key of each validator and its pending key.  Every method
    is synchronous, so a method body is one transition. *)

From Stdlib Require Import ZArith Lia.
From stdpp Require Import base list strings relations.
From S2P Require Import Prelude Js.

(** ** Data *)

Inductive KeyState := PENDING | ACTIVE | RETIRED.
#[export] Instance KeyState_eq_dec : EqDecision KeyState.
Proof. solve_decision. Defined.

Record KeyRecord := mkKeyRecord {
  validatorId : string;
  publicKey : string;
  state : KeyState;
  registeredEpoch : Z;
  activationEpoch : option Z;
  activationSlot : option Z;
  deactivationEpoch : option Z;
  deactivationSlot : option Z;
  retirementEpoch : option Z;
  signingEnabled : bool
}.
#[export] Instance KeyRecord_eq_dec : EqDecision KeyRecord.
Proof. solve_decision. Defined.

Record RegisterActiveKeyInput := mkRegisterActive {
  rak_validatorId : string;
  rak_publicKey : string;
  rak_registeredEpoch : jsnum;
  rak_activationEpoch : option jsnum;
  rak_activationSlot : option jsnum
}.

Record ReservePendingKeyInput := mkReservePending {
  rpk_validatorId : string;
  rpk_publicKey : string;
  rpk_registeredEpoch : jsnum
}.

Record ActivateKeyRotationInput := mkActivateRotation {
  akr_validatorId : string;
  akr_oldPublicKey : string;
  akr_newPublicKey : string;
  akr_activationEpoch : jsnum;
  akr_activationSlot : jsnum
}.

(** [DuplicateKeyError] and the codes of [KeyRegistryError]. *)
Inductive KeyError :=
  | ERR_DUPLICATE_KEY (publicKey : string)
  | ERR_INVALID_KEY_RECORD
  | ERR_ACTIVE_KEY_EXISTS
  | ERR_PENDING_KEY_EXISTS
  | ERR_ACTIVATION_CONFLICT
  | ERR_INVALID_OLD_KEY
  | ERR_INVALID_NEW_KEY
  | ERR_UNKNOWN_KEY
  | ERR_KEY_NOT_DEACTIVATED
  | ERR_REGISTRY_INCONSISTENT.
#[export] Instance KeyError_eq_dec : EqDecision KeyError.
Proof. solve_decision. Defined.

Record KeyRegistry := mkRegistry {
  keysByPublicKey : jsmap string KeyRecord;
  currentSigningKeyByValidator : jsmap string string;
  pendingKeyByValidator : jsmap string string
}.

Definition new_KeyRegistry : KeyRegistry := mkRegistry ∅ ∅ ∅.

(** Methods of the registry. *)
Abbreviation RM := (M KeyRegistry KeyError).

Definition set_keys f r :=
  mkRegistry (f (keysByPublicKey r)) (currentSigningKeyByValidator r)
    (pendingKeyByValidator r).
Definition set_current f r :=
  mkRegistry (keysByPublicKey r) (f (currentSigningKeyByValidator r))
    (pendingKeyByValidator r).
Definition set_pending f r :=
  mkRegistry (keysByPublicKey r) (currentSigningKeyByValidator r)
    (f (pendingKeyByValidator r)).

(** ** Checks *)

Definition assertIdentifier (value : string) : RM unit :=
  guard (negb (blank value)) ERR_INVALID_KEY_RECORD.

Definition assertProtocolNumber (value : jsnum) : RM Z :=
  match safeNonNeg value with
  | Some z => ret z
  | None => throw ERR_INVALID_KEY_RECORD
  end.

Definition validateRegistration (validatorId publicKey : string)
    (registeredEpoch : jsnum) : RM Z :=
  assertIdentifier validatorId ;;;
  assertIdentifier publicKey ;;;
  assertProtocolNumber registeredEpoch.

Definition assertPublicKeyAvailable (publicKey : string) : RM unit :=
  let! keys := gets keysByPublicKey in
  guard (negb (map_has publicKey keys)) (ERR_DUPLICATE_KEY publicKey).

(** ** Operations *)

Definition registerActiveKey (input : RegisterActiveKeyInput) : RM KeyRecord :=
  let! registered := validateRegistration (rak_validatorId input)
                       (rak_publicKey input) (rak_registeredEpoch input) in
  let! activationE := assertProtocolNumber
      (default (rak_registeredEpoch input) (rak_activationEpoch input)) in
  let! activationS := assertProtocolNumber
      (default (JInt 0) (rak_activationSlot input)) in
  assertPublicKeyAvailable (rak_publicKey input) ;;;
  let! current := gets currentSigningKeyByValidator in
  guard (negb (map_has (rak_validatorId input) current)) ERR_ACTIVE_KEY_EXISTS ;;;
  let record := mkKeyRecord (rak_validatorId input) (rak_publicKey input) ACTIVE
                  registered (Some activationE) (Some activationS)
                  None None None true in
  modify (set_keys <[publicKey record := record]>) ;;;
  modify (set_current <[validatorId record := publicKey record]>) ;;;
  ret record.

Definition reservePendingKey (input : ReservePendingKeyInput) : RM KeyRecord :=
  let! registered := validateRegistration (rpk_validatorId input)
                       (rpk_publicKey input) (rpk_registeredEpoch input) in
  assertPublicKeyAvailable (rpk_publicKey input) ;;;
  let! pending := gets pendingKeyByValidator in
  guard (negb (map_has (rpk_validatorId input) pending)) ERR_PENDING_KEY_EXISTS ;;;
  let record := mkKeyRecord (rpk_validatorId input) (rpk_publicKey input) PENDING
                  registered None None None None None false in
  modify (set_keys <[publicKey record := record]>) ;;;
  modify (set_pending <[validatorId record := publicKey record]>) ;;;
  ret record.

Definition releasePendingKey (validator pk : string) : RM bool :=
  let! r := get in
  match keysByPublicKey r !! pk with
  | Some record =>
      if bool_decide (validatorId record = validator)
         && bool_decide (state record = PENDING)
         && bool_decide (pendingKeyByValidator r !! validator = Some pk)
      then
        modify (set_keys (delete pk)) ;;;
        modify (set_pending (delete validator)) ;;;
        ret true
      else ret false
  | None => ret false
  end.

(** The two records [activateRotation] writes. *)
Definition deactivated (oldKey : KeyRecord) (epoch slot : Z) : KeyRecord :=
  mkKeyRecord (validatorId oldKey) (publicKey oldKey) (state oldKey)
    (registeredEpoch oldKey) (activationEpoch oldKey) (activationSlot oldKey)
    (Some epoch) (Some slot) (retirementEpoch oldKey) false.
Definition activated (newKey : KeyRecord) (epoch slot : Z) : KeyRecord :=
  mkKeyRecord (validatorId newKey) (publicKey newKey) ACTIVE
    (registeredEpoch newKey) (Some epoch) (Some slot)
    (deactivationEpoch newKey) (deactivationSlot newKey)
    (retirementEpoch newKey) true.

(** The first test of [activateRotation]: the rotation already happened. *)
Definition alreadyActivated (r : KeyRegistry) (validator oldPk newPk : string)
    : option (KeyRecord * KeyRecord) :=
  match keysByPublicKey r !! oldPk, keysByPublicKey r !! newPk with
  | Some oldKey, Some newKey =>
      if bool_decide (validatorId oldKey = validator)
         && bool_decide (validatorId newKey = validator)
         && bool_decide (state oldKey = ACTIVE)
         && negb (signingEnabled oldKey)
         && bool_decide (state newKey = ACTIVE)
         && signingEnabled newKey
         && bool_decide (currentSigningKeyByValidator r !! validator = Some newPk)
      then Some (oldKey, newKey) else None
  | _, _ => None
  end.

Definition sameCoordinates (keys : KeyRecord * KeyRecord) (epoch slot : Z)
    : bool :=
  bool_decide (deactivationEpoch keys.1 = Some epoch)
  && bool_decide (deactivationSlot keys.1 = Some slot)
  && bool_decide (activationEpoch keys.2 = Some epoch)
  && bool_decide (activationSlot keys.2 = Some slot).

Definition checkOldKey (r : KeyRegistry) (validator oldPk : string)
    : KeyError + KeyRecord :=
  match keysByPublicKey r !! oldPk with
  | Some oldKey =>
      if bool_decide (validatorId oldKey = validator)
         && bool_decide (state oldKey = ACTIVE)
         && signingEnabled oldKey
         && bool_decide (currentSigningKeyByValidator r !! validator = Some oldPk)
      then inr oldKey else inl ERR_INVALID_OLD_KEY
  | None => inl ERR_INVALID_OLD_KEY
  end.

Definition checkNewKey (r : KeyRegistry) (validator newPk : string)
    : KeyError + KeyRecord :=
  match keysByPublicKey r !! newPk with
  | Some newKey =>
      if bool_decide (validatorId newKey = validator)
         && bool_decide (state newKey = PENDING)
         && bool_decide (pendingKeyByValidator r !! validator = Some newPk)
      then inr newKey else inl ERR_INVALID_NEW_KEY
  | None => inl ERR_INVALID_NEW_KEY
  end.

Definition activateRotation (input : ActivateKeyRotationInput)
    : RM (KeyRecord * KeyRecord) :=
  let validator := akr_validatorId input in
  let oldPk := akr_oldPublicKey input in
  let newPk := akr_newPublicKey input in
  let! r := get in
  let! epoch := assertProtocolNumber (akr_activationEpoch input) in
  let! slot := assertProtocolNumber (akr_activationSlot input) in
  match alreadyActivated r validator oldPk newPk with
  | Some (oldKey, newKey) =>
      guard (sameCoordinates (oldKey, newKey) epoch slot)
        ERR_ACTIVATION_CONFLICT ;;;
      ret (oldKey, newKey)
  | None =>
      let! oldKey := of_sum (checkOldKey r validator oldPk) in
      let! newKey := of_sum (checkNewKey r validator newPk) in
      let deactivatedOldKey := deactivated oldKey epoch slot in
      let activatedNewKey := activated newKey epoch slot in
      modify (set_keys <[oldPk := deactivatedOldKey]>) ;;;
      modify (set_keys <[newPk := activatedNewKey]>) ;;;
      modify (set_current <[validator := newPk]>) ;;;
      modify (set_pending (delete validator)) ;;;
      ret (deactivatedOldKey, activatedNewKey)
  end.

Definition retired (record : KeyRecord) (epoch : Z) : KeyRecord :=
  mkKeyRecord (validatorId record) (publicKey record) RETIRED
    (registeredEpoch record) (activationEpoch record) (activationSlot record)
    (deactivationEpoch record) (deactivationSlot record) (Some epoch) false.

Definition retireKey (validator pk : string) (retirementEpoch : jsnum)
    : RM KeyRecord :=
  let! epoch := assertProtocolNumber retirementEpoch in
  let! keys := gets keysByPublicKey in
  match keys !! pk with
  | Some record =>
      guard (bool_decide (validatorId record = validator)) ERR_UNKNOWN_KEY ;;;
      if bool_decide (state record = RETIRED) then ret record
      else
        guard (bool_decide (state record = ACTIVE)
               && negb (signingEnabled record)
               && bool_decide (is_Some (deactivationSlot record)))
          ERR_KEY_NOT_DEACTIVATED ;;;
        modify (set_keys <[pk := retired record epoch]>) ;;;
        ret (retired record epoch)
  | None => throw ERR_UNKNOWN_KEY
  end.

(** ** Queries *)

Definition getKey (r : KeyRegistry) (pk : string) : option KeyRecord :=
  keysByPublicKey r !! pk.

Definition getCurrentSigningKey (r : KeyRegistry) (validator : string)
    : option KeyRecord :=
  match currentSigningKeyByValidator r !! validator with
  | Some pk => if falsy pk then None else getKey r pk
  | None => None
  end.

Definition getValidatorKeys (r : KeyRegistry) (validator : string)
    : list KeyRecord :=
  filter (fun record => validatorId record = validator)
    (map_values (keysByPublicKey r)).

Definition hasPublicKey (r : KeyRegistry) (pk : string) : bool :=
  map_has pk (keysByPublicKey r).

Definition size (r : KeyRegistry) : nat := map_size (keysByPublicKey r).

Definition currentEntryOk (r : KeyRegistry) (e : string * string) : bool :=
  match keysByPublicKey r !! e.2 with
  | Some record => bool_decide (validatorId record = e.1)
                   && bool_decide (state record = ACTIVE)
                   && signingEnabled record
  | None => false
  end.

Definition pendingEntryOk (r : KeyRegistry) (e : string * string) : bool :=
  match keysByPublicKey r !! e.2 with
  | Some record => bool_decide (validatorId record = e.1)
                   && bool_decide (state record = PENDING)
  | None => false
  end.

Definition assertConsistent : RM unit :=
  let! r := get in
  guard (forallb (currentEntryOk r) (entries (currentSigningKeyByValidator r)))
    ERR_REGISTRY_INCONSISTENT ;;;
  guard (forallb (pendingEntryOk r) (entries (pendingKeyByValidator r)))
    ERR_REGISTRY_INCONSISTENT.

(** ** Histories

    Any sequence of calls, successful or not. *)

Inductive RegistryOp :=
  | OpRegister (input : RegisterActiveKeyInput)
  | OpReserve (input : ReservePendingKeyInput)
  | OpRelease (validator pk : string)
  | OpActivate (input : ActivateKeyRotationInput)
  | OpRetire (validator pk : string) (epoch : jsnum).

Definition runOp (op : RegistryOp) : RM unit :=
  match op with
  | OpRegister input => ignore (registerActiveKey input)
  | OpReserve input => ignore (reservePendingKey input)
  | OpRelease v pk => ignore (releasePendingKey v pk)
  | OpActivate input => ignore (activateRotation input)
  | OpRetire v pk e => ignore (retireKey v pk e)
  end.

Definition runOps (ops : list RegistryOp) (r : KeyRegistry) : KeyRegistry :=
  foldl (fun r op => fst (runOp op r)) r ops.

Lemma checkOldKey_inr r v pk k :
  checkOldKey r v pk = inr k <->
  keysByPublicKey r !! pk = Some k /\ validatorId k = v /\ state k = ACTIVE /\
  signingEnabled k = true /\ currentSigningKeyByValidator r !! v = Some pk.
Proof.
  unfold checkOldKey. split.
  - intros. repeat case_match; simplify_eq; bool_props. done.
  - intros (-> & -> & -> & -> & ->). by rewrite !bool_decide_true.
Qed.

Lemma checkNewKey_inr r v pk k :
  checkNewKey r v pk = inr k <->
  keysByPublicKey r !! pk = Some k /\ validatorId k = v /\ state k = PENDING /\
  pendingKeyByValidator r !! v = Some pk.
Proof.
  unfold checkNewKey. split.
  - intros. repeat case_match; simplify_eq; bool_props. done.
  - intros (-> & -> & -> & ->). by rewrite !bool_decide_true.
Qed.

(** ** The registry invariant *)

Record RegInv (r : KeyRegistry) : Prop := {
  inv_keyed : forall pk k, keysByPublicKey r !! pk = Some k ->
    publicKey k = pk /\ blank pk = false;
  inv_current : forall v pk, currentSigningKeyByValidator r !! v = Some pk ->
    exists k, keysByPublicKey r !! pk = Some k /\
              validatorId k = v /\ state k = ACTIVE /\ signingEnabled k = true;
  inv_pending : forall v pk, pendingKeyByValidator r !! v = Some pk ->
    exists k, keysByPublicKey r !! pk = Some k /\
              validatorId k = v /\ state k = PENDING;
  inv_signing : forall pk k, keysByPublicKey r !! pk = Some k ->
    signingEnabled k = true ->
    currentSigningKeyByValidator r !! validatorId k = Some pk;
  inv_reserved : forall pk k, keysByPublicKey r !! pk = Some k ->
    state k = PENDING ->
    pendingKeyByValidator r !! validatorId k = Some pk /\ signingEnabled k = false;
  inv_deactivated : forall pk k, keysByPublicKey r !! pk = Some k ->
    state k = ACTIVE -> signingEnabled k = false ->
    is_Some (deactivationSlot k);
  inv_wf : map_wf (keysByPublicKey r) /\
           map_wf (currentSigningKeyByValidator r) /\
           map_wf (pendingKeyByValidator r)
}.

Lemma RegInv_new : RegInv new_KeyRegistry.
Proof. by split. Qed.

(** The protocol-number and identifier checks leave the registry alone. *)
Lemma wp_assertProtocolNumber n Q X r :
  wp (assertProtocolNumber n) Q X r =
  match safeNonNeg n with
  | Some z => Q z r
  | None => X ERR_INVALID_KEY_RECORD r
  end.
Proof. unfold assertProtocolNumber. by destruct (safeNonNeg n). Qed.
#[export] Hint Rewrite wp_assertProtocolNumber : wp.

Lemma wp_validateRegistration v pk n Q X r :
  wp (validateRegistration v pk n) Q X r =
  if blank v then X ERR_INVALID_KEY_RECORD r
  else if blank pk then X ERR_INVALID_KEY_RECORD r
  else match safeNonNeg n with
       | Some z => Q z r
       | None => X ERR_INVALID_KEY_RECORD r
       end.
Proof.
  unfold validateRegistration, assertIdentifier. wp_simpl.
  destruct (blank v); cbn; [done|]. wp_simpl.
  by destruct (blank pk); cbn; wp_simpl.
Qed.
#[export] Hint Rewrite wp_validateRegistration : wp.

(** Use the invariant on every lookup of the hypotheses. *)
Ltac reg_saturate :=
  repeat (simplify_eq/=; match goal with
  | H : RegInv ?r, L : keysByPublicKey ?r !! ?pk = Some ?k |- _ =>
      learn (inv_keyed r H pk k L) as [? ?]
  | H : RegInv ?r, L : currentSigningKeyByValidator ?r !! ?v = Some ?pk |- _ =>
      learn (inv_current r H v pk L) as (? & ? & ? & ? & ?)
  | H : RegInv ?r, L : pendingKeyByValidator ?r !! ?v = Some ?pk |- _ =>
      learn (inv_pending r H v pk L) as (? & ? & ? & ?)
  | H : RegInv ?r, L : keysByPublicKey ?r !! ?pk = Some ?k,
    E : signingEnabled ?k = true |- _ =>
      learn (inv_signing r H pk k L E) as ?
  | H : RegInv ?r, L : keysByPublicKey ?r !! ?pk = Some ?k,
    E : state ?k = PENDING |- _ =>
      learn (inv_reserved r H pk k L E) as [? ?]
  | H : RegInv ?r, L : keysByPublicKey ?r !! ?pk = Some ?k,
    E : state ?k = ACTIVE, F : signingEnabled ?k = false |- _ =>
      learn (inv_deactivated r H pk k L E F) as ?
  end).

(** Prove the invariant of an updated registry. *)
Ltac reg_inv :=
  split;
  [ intros ?? HL | intros ?? HL | intros ?? HL | intros ?? HL ? | intros ?? HL ?
  | intros ?? HL ?? | ];
  simplify_eq/=; jsmap_cases; reg_saturate; jsmap_cases; reg_saturate;
  try congruence; eauto 10;
  try (match goal with H : RegInv _ |- _ => destruct (inv_wf _ H) as (? & ? & ?) end;
       by auto 10).

Definition addSigningKey (k : KeyRecord) (r : KeyRegistry) : KeyRegistry :=
  set_current <[validatorId k := publicKey k]>
    (set_keys <[publicKey k := k]> r).

Definition addPendingKey (k : KeyRecord) (r : KeyRegistry) : KeyRegistry :=
  set_pending <[validatorId k := publicKey k]>
    (set_keys <[publicKey k := k]> r).

Definition dropPendingKey (v pk : string) (r : KeyRegistry) : KeyRegistry :=
  set_pending (delete v) (set_keys (delete pk) r).

Definition switchSigningKey (v oldPk newPk : string) (oldKey newKey : KeyRecord)
    (r : KeyRegistry) : KeyRegistry :=
  set_pending (delete v) (set_current <[v := newPk]>
    (set_keys <[newPk := newKey]> (set_keys <[oldPk := oldKey]> r))).

Lemma RegInv_addSigningKey k r :
  RegInv r -> blank (publicKey k) = false ->
  keysByPublicKey r !! publicKey k = None ->
  currentSigningKeyByValidator r !! validatorId k = None ->
  state k = ACTIVE -> signingEnabled k = true ->
  RegInv (addSigningKey k r).
Proof.
  intros HI Hb Hfree Hcur Hst Hsig. reg_inv.
Qed.

Lemma RegInv_addPendingKey k r :
  RegInv r -> blank (publicKey k) = false ->
  keysByPublicKey r !! publicKey k = None ->
  pendingKeyByValidator r !! validatorId k = None ->
  state k = PENDING -> signingEnabled k = false ->
  RegInv (addPendingKey k r).
Proof.
  intros HI Hb Hfree Hcur Hst Hsig. reg_inv.
Qed.

Lemma RegInv_dropPendingKey v pk r :
  RegInv r -> pendingKeyByValidator r !! v = Some pk ->
  RegInv (dropPendingKey v pk r).
Proof.
  intros HI Hp. reg_inv.
Qed.

Lemma RegInv_switchSigningKey v oldPk newPk oldKey newKey epoch slot r :
  RegInv r ->
  checkOldKey r v oldPk = inr oldKey -> checkNewKey r v newPk = inr newKey ->
  RegInv (switchSigningKey v oldPk newPk (deactivated oldKey epoch slot)
            (activated newKey epoch slot) r).
Proof.
  intros HI (?&?&?&?&?)%checkOldKey_inr (?&?&?&?)%checkNewKey_inr. reg_inv.
Qed.

Lemma RegInv_retireKey pk k epoch r :
  RegInv r -> keysByPublicKey r !! pk = Some k ->
  state k = ACTIVE -> signingEnabled k = false ->
  RegInv (set_keys <[pk := retired k epoch]> r).
Proof.
  intros HI Hk Hst Hsig. reg_inv.
Qed.

(** ** One call, as a transition

    Every method either leaves the registry alone or performs one of five
    updates, each under the guards of its method. *)

Inductive RegStep (r : KeyRegistry) : KeyRegistry -> Prop :=
  | step_none : RegStep r r
  | step_register k :
      blank (publicKey k) = false ->
      keysByPublicKey r !! publicKey k = None ->
      currentSigningKeyByValidator r !! validatorId k = None ->
      state k = ACTIVE -> signingEnabled k = true ->
      RegStep r (addSigningKey k r)
  | step_reserve k :
      blank (publicKey k) = false ->
      keysByPublicKey r !! publicKey k = None ->
      pendingKeyByValidator r !! validatorId k = None ->
      state k = PENDING -> signingEnabled k = false ->
      RegStep r (addPendingKey k r)
  | step_release v pk k :
      keysByPublicKey r !! pk = Some k -> validatorId k = v ->
      state k = PENDING -> pendingKeyByValidator r !! v = Some pk ->
      RegStep r (dropPendingKey v pk r)
  | step_activate v oldPk newPk oldKey newKey epoch slot :
      checkOldKey r v oldPk = inr oldKey -> checkNewKey r v newPk = inr newKey ->
      RegStep r (switchSigningKey v oldPk newPk (deactivated oldKey epoch slot)
                   (activated newKey epoch slot) r)
  | step_retire pk k epoch :
      keysByPublicKey r !! pk = Some k ->
      state k = ACTIVE -> signingEnabled k = false ->
      RegStep r (set_keys <[pk := retired k epoch]> r).

Ltac reg_wp :=
  wp_cases; bool_props;
  repeat match goal with
  | H : map_has _ _ = true |- _ => apply map_has_true in H
  | H : map_has _ _ = false |- _ => apply map_has_false in H
  end; try done.

(** The record a goal builds. *)
Ltac with_record tac :=
  match goal with
  | |- context [mkKeyRecord ?a ?b ?c ?d ?e ?f ?g ?h ?i ?j] =>
      tac (mkKeyRecord a b c d e f g h i j)
  end.

Lemma registerActiveKey_wp input r :
  wp (registerActiveKey input)
    (fun k r' => r' = addSigningKey k r /\ RegStep r r' /\
       keysByPublicKey r !! publicKey k = None /\
       currentSigningKeyByValidator r !! validatorId k = None /\
       validatorId k = rak_validatorId input /\ publicKey k = rak_publicKey input)
    (fun _ r' => r' = r) r.
Proof.
  unfold registerActiveKey, assertPublicKeyAvailable. reg_wp.
  split_and!; try done. with_record ltac:(fun k => by apply (step_register r k)).
Qed.

Lemma reservePendingKey_wp input r :
  wp (reservePendingKey input)
    (fun k r' => r' = addPendingKey k r /\ RegStep r r' /\
       keysByPublicKey r !! rpk_publicKey input = None /\
       pendingKeyByValidator r !! rpk_validatorId input = None /\
       exists epoch, safeNonNeg (rpk_registeredEpoch input) = Some epoch /\
       k = mkKeyRecord (rpk_validatorId input) (rpk_publicKey input) PENDING
             epoch None None None None None false)
    (fun _ r' => r' = r) r.
Proof.
  unfold reservePendingKey, assertPublicKeyAvailable. reg_wp.
  split_and!; eauto. with_record ltac:(fun k => by apply (step_reserve r k)).
Qed.

Lemma releasePendingKey_wp v pk r :
  wp (releasePendingKey v pk) (fun _ r' => RegStep r r') (fun _ _ => False) r.
Proof.
  unfold releasePendingKey. reg_wp; try constructor. by eapply step_release.
Qed.

Lemma activateRotation_wp input r :
  wp (activateRotation input)
    (fun res r' =>
       exists epoch slot,
         safeNonNeg (akr_activationEpoch input) = Some epoch /\
         safeNonNeg (akr_activationSlot input) = Some slot /\
         ((alreadyActivated r (akr_validatorId input) (akr_oldPublicKey input)
             (akr_newPublicKey input) = Some res /\
           sameCoordinates res epoch slot = true /\ r' = r) \/
          exists oldKey newKey,
            checkOldKey r (akr_validatorId input) (akr_oldPublicKey input)
              = inr oldKey /\
            checkNewKey r (akr_validatorId input) (akr_newPublicKey input)
              = inr newKey /\
            res = (deactivated oldKey epoch slot, activated newKey epoch slot) /\
            r' = switchSigningKey (akr_validatorId input) (akr_oldPublicKey input)
                   (akr_newPublicKey input) res.1 res.2 r))
    (fun _ r' => r' = r) r.
Proof.
  unfold activateRotation. reg_wp; eauto 15.
Qed.

Lemma retireKey_wp v pk n r :
  wp (retireKey v pk n) (fun _ r' => RegStep r r') (fun _ r' => r' = r) r.
Proof.
  unfold retireKey. reg_wp; try constructor; auto.
Qed.

Lemma runOp_wp op r :
  wp (runOp op) (fun _ r' => RegStep r r') (fun _ r' => r' = r) r.
Proof.
  destruct op; cbn [runOp]; rewrite wp_ignore.
  - eapply wp_mono; [| |apply registerActiveKey_wp]; naive_solver.
  - eapply wp_mono; [| |apply reservePendingKey_wp]; naive_solver.
  - eapply wp_mono; [| |apply releasePendingKey_wp]; naive_solver.
  - eapply wp_mono; [| |apply activateRotation_wp]; [|done].
    intros res r' (epoch & slot & _ & _ & [(_ & _ & ->)|(o & n & Ho & Hn & -> & ->)]);
      [constructor|by apply step_activate].
  - apply retireKey_wp.
Qed.

Lemma RegStep_inv r r' : RegStep r r' -> RegInv r -> RegInv r'.
Proof.
  destruct 1; intros HI; [done|..];
    eauto using RegInv_addSigningKey, RegInv_addPendingKey,
      RegInv_dropPendingKey, RegInv_switchSigningKey, RegInv_retireKey.
Qed.

Lemma runOp_RegStep op r : RegStep r (fst (runOp op r)).
Proof.
  pose proof (runOp_wp op r) as H. unfold wp in H.
  destruct (runOp op r) as [r' [e|a]]; cbn; subst; [constructor|done].
Qed.

Lemma runOps_ind (P : KeyRegistry -> Prop) :
  (forall r r', RegStep r r' -> RegInv r -> P r -> P r') ->
  forall ops r, RegInv r -> P r -> RegInv (runOps ops r) /\ P (runOps ops r).
Proof.
  intros Hstep ops. induction ops as [|op ops IH]; intros r HI HP; [done|].
  cbn. apply IH; [eapply RegStep_inv|eapply Hstep]; eauto using runOp_RegStep.
Qed.

Lemma RegInv_runOps ops : RegInv (runOps ops new_KeyRegistry).
Proof.
  by apply (runOps_ind (fun _ => True)); auto using RegInv_new.
Qed.

Lemma assertConsistent_inv r : RegInv r -> assertConsistent r = (r, inr tt).
Proof.
  intros HI. unfold assertConsistent, bind, get, guard.
  destruct (inv_wf r HI) as (_ & Hwc & Hwp).
  rewrite !(proj2 (forallb_forall _ _)); [done|..];
    intros [v pk] Hin%list_elem_of_In%elem_of_jsmap_lookup; auto.
  - unfold pendingEntryOk. cbn.
    destruct (inv_pending r HI v pk) as (k & -> & -> & ->); [done|].
    by rewrite !bool_decide_true.
  - unfold currentEntryOk. cbn.
    destruct (inv_current r HI v pk) as (k & -> & -> & -> & ->); [done|].
    by rewrite !bool_decide_true.
Qed.

(** C1: in every history of calls on a fresh registry, successful or failing,
    a validator never has two keys with signing enabled, and
    [assertConsistent] does not throw. *)
Theorem registry_single_signing_key ops v :
  let r := runOps ops new_KeyRegistry in
  (length (filter (fun k => signingEnabled k = true) (getValidatorKeys r v)) <= 1)%nat
  /\ assertConsistent r = (r, inr tt).
Proof.
  intros r. assert (HI : RegInv r) by apply RegInv_runOps.
  split; [|by apply assertConsistent_inv].
  unfold getValidatorKeys. rewrite list_filter_filter.
  apply map_values_filter_unique; [by apply (inv_wf r HI)|].
  intros pk1 pk2 k1 k2 H1 H2 [E1 V1] [E2 V2].
  apply (inv_signing r HI) in H1, H2; congruence.
Qed.

(** a call that throws leaves the registry exactly as it was: validation
    comes before every assignment. *)
Theorem registry_calls_atomic op : atomic (runOp op).
Proof.
  intros r. eapply wp_mono; [| |apply runOp_wp]; done.
Qed.

(** A key that was deactivated (or retired) stays registered, for the same
    validator, with signing disabled. *)
Definition disabledKey (pk v : string) (r : KeyRegistry) : Prop :=
  exists k, keysByPublicKey r !! pk = Some k /\ validatorId k = v /\
            state k <> PENDING /\ signingEnabled k = false.

Lemma RegStep_disabled pk v r r' :
  RegStep r r' -> RegInv r -> disabledKey pk v r -> disabledKey pk v r'.
Proof.
  unfold disabledKey.
  destruct 1; intros HI (k0 & Hk0 & Hv & Hs & Hd);
    repeat match goal with
    | H : checkOldKey _ _ _ = inr _ |- _ => apply checkOldKey_inr in H as (?&?&?&?&?)
    | H : checkNewKey _ _ _ = inr _ |- _ => apply checkNewKey_inr in H as (?&?&?&?)
    end; cbn in *; jsmap_cases; 
    eauto; try congruence; eexists; split_and!; eauto; cbn; congruence.
Qed.

(** a key whose signing was disabled never signs again and never
    disappears, whatever calls follow. *)
Theorem disabled_key_stays_disabled ops pk v r :
  RegInv r -> disabledKey pk v r -> disabledKey pk v (runOps ops r).
Proof.
  intros HI Hd. eapply (runOps_ind (disabledKey pk v)); eauto using RegStep_disabled.
Qed.

(** After a switch the first test of [activateRotation] recognises it. *)
Lemma alreadyActivated_switch r v oldPk newPk oldKey newKey epoch slot :
  checkOldKey r v oldPk = inr oldKey -> checkNewKey r v newPk = inr newKey ->
  let res := (deactivated oldKey epoch slot, activated newKey epoch slot) in
  alreadyActivated (switchSigningKey v oldPk newPk res.1 res.2 r) v oldPk newPk
  = Some res /\ sameCoordinates res epoch slot = true.
Proof.
  intros (?&?&?&?&?)%checkOldKey_inr (?&?&?&?)%checkNewKey_inr.
  assert (newPk <> oldPk) by congruence.
  unfold alreadyActivated, sameCoordinates. cbn. jsmap_cases.
  by rewrite !bool_decide_true.
Qed.

Lemma activateRotation_again input r res epoch slot :
  safeNonNeg (akr_activationEpoch input) = Some epoch ->
  safeNonNeg (akr_activationSlot input) = Some slot ->
  alreadyActivated r (akr_validatorId input) (akr_oldPublicKey input)
    (akr_newPublicKey input) = Some res ->
  activateRotation input r =
  (r, if sameCoordinates res epoch slot then inr res else inl ERR_ACTIVATION_CONFLICT).
Proof.
  intros He Hs Ha. unfold activateRotation, assertProtocolNumber.
  rewrite He, Hs. unfold bind, get, ret. rewrite Ha. destruct res as [o n].
  by destruct (sameCoordinates (o, n) epoch slot).
Qed.

(** A successful activation, whichever branch it took. *)
Lemma activateRotation_success input r r' res :
  activateRotation input r = (r', inr res) ->
  exists epoch slot,
    safeNonNeg (akr_activationEpoch input) = Some epoch /\
    safeNonNeg (akr_activationSlot input) = Some slot /\
    alreadyActivated r' (akr_validatorId input) (akr_oldPublicKey input)
      (akr_newPublicKey input) = Some res /\
    sameCoordinates res epoch slot = true.
Proof.
  intros H. pose proof (activateRotation_wp input r) as W.
  unfold wp in W. rewrite H in W.
  destruct W as (epoch & slot & He & Hs & [(Ha & Hc & ->)|(o & n & Ho & Hn & -> & ->)]);
    exists epoch, slot; [done|].
  destruct (alreadyActivated_switch _ _ _ _ _ _ epoch slot Ho Hn). done.
Qed.

(** The switch itself, on a prepared pair. *)
Lemma activateRotation_switch r v oldPk newPk oldKey newKey epoch slot :
  checkOldKey r v oldPk = inr oldKey -> checkNewKey r v newPk = inr newKey ->
  0 <= epoch <= MAX_SAFE_INTEGER -> 0 <= slot <= MAX_SAFE_INTEGER ->
  let res := (deactivated oldKey epoch slot, activated newKey epoch slot) in
  activateRotation (mkActivateRotation v oldPk newPk (JInt epoch) (JInt slot)) r =
  (switchSigningKey v oldPk newPk res.1 res.2 r, inr res).
Proof.
  intros Ho Hn He Hs. unfold activateRotation, assertProtocolNumber. cbn.
  rewrite (proj2 (safeNonNeg_Some (JInt epoch) epoch)),
    (proj2 (safeNonNeg_Some (JInt slot) slot)) by done.
  assert (alreadyActivated r v oldPk newPk = None) as Ha.
  { apply checkOldKey_inr in Ho as (Ho & _ & _ & Hsig & _).
    unfold alreadyActivated. rewrite Ho, Hsig. case_match; [|done].
    cbn. rewrite andb_false_r. by destruct (signingEnabled k). }
  unfold bind, get, ret. rewrite Ha. unfold of_sum. by rewrite Ho, Hn.
Qed.

(** Retirement of a deactivated key. *)
Lemma retireKey_deactivated r v pk k epoch :
  keysByPublicKey r !! pk = Some k -> validatorId k = v -> state k = ACTIVE ->
  signingEnabled k = false -> is_Some (deactivationSlot k) ->
  0 <= epoch <= MAX_SAFE_INTEGER ->
  retireKey v pk (JInt epoch) r =
  (set_keys <[pk := retired k epoch]> r, inr (retired k epoch)).
Proof.
  intros Hk Hv Hst Hsig Hd He. unfold retireKey, assertProtocolNumber.
  rewrite (proj2 (safeNonNeg_Some (JInt epoch) epoch)) by done.
  unfold bind, gets, ret. rewrite Hk, Hv, Hst, Hsig.
  by rewrite (bool_decide_true (v = v)), (bool_decide_false (ACTIVE = RETIRED)),
    (bool_decide_true (ACTIVE = ACTIVE)), (bool_decide_true (is_Some _)).
Qed.

(** activation is idempotent: repeating a successful [activateRotation]
    with the same coordinates returns the same records and changes nothing,
    and other valid coordinates are rejected with [ERR_ACTIVATION_CONFLICT]. *)
Theorem activateRotation_idempotent input r r' res :
  activateRotation input r = (r', inr res) ->
  activateRotation input r' = (r', inr res) /\
  forall epoch slot,
    0 <= epoch <= MAX_SAFE_INTEGER -> 0 <= slot <= MAX_SAFE_INTEGER ->
    (JInt epoch, JInt slot) <> (akr_activationEpoch input, akr_activationSlot input) ->
    activateRotation (mkActivateRotation (akr_validatorId input)
        (akr_oldPublicKey input) (akr_newPublicKey input) (JInt epoch) (JInt slot)) r'
    = (r', inl ERR_ACTIVATION_CONFLICT).
Proof.
  intros (epoch & slot & He & Hs & Ha & Hc)%activateRotation_success.
  split.
  - by rewrite (activateRotation_again _ _ _ _ _ He Hs Ha), Hc.
  - intros e s HeZ HsZ Hne.
    apply safeNonNeg_Some in He as [He _], Hs as [Hs _]. rewrite He, Hs in Hne.
    rewrite (activateRotation_again _ _ res e s); [|by apply safeNonNeg_Some..|done].
    destruct (sameCoordinates res e s) eqn:E; [|done].
    unfold sameCoordinates in *. bool_props. congruence.
Qed.

(** ** Witnesses *)

Module Examples.
Definition regA : RegisterActiveKeyInput :=
  mkRegisterActive "v1" "pkA" (JInt 1) None None.
Definition resB : ReservePendingKeyInput := mkReservePending "v1" "pkB" (JInt 2).
Definition actB : ActivateKeyRotationInput :=
  mkActivateRotation "v1" "pkA" "pkB" (JInt 5) (JInt 160).
Definition reg2 : KeyRegistry := runOps [OpRegister regA; OpReserve resB] new_KeyRegistry.
Definition reg3 : KeyRegistry := fst (activateRotation actB reg2).

Lemma activateRotation_idempotent_witness :
  activateRotation actB reg3 = activateRotation actB reg2 /\
  activateRotation (mkActivateRotation "v1" "pkA" "pkB" (JInt 5) (JInt 161)) reg3
  = (reg3, inl ERR_ACTIVATION_CONFLICT).
Proof.
  destruct (activateRotation actB reg2) as [r [e|res]] eqn:E; [vm_compute in E; done|].
  assert (reg3 = r) as -> by (unfold reg3; by rewrite E).
  destruct (activateRotation_idempotent actB reg2 r res E) as [H1 H2].
  split; [done|]. apply H2; [vm_compute; split; discriminate..|discriminate].
Defined.

Lemma disabled_key_stays_disabled_witness :
  disabledKey "pkA" "v1" (runOps [OpRetire "v1" "pkA" (JInt 9); OpReserve resB] reg3).
Proof.
  apply disabled_key_stays_disabled.
  - exact (RegInv_runOps [OpRegister regA; OpReserve resB; OpActivate actB]).
  - eexists. split; [reflexivity|]. split_and!; [reflexivity|discriminate|reflexivity].
Defined.
End Examples.
