(* ===== verification/CommitmentBroadcaster.v ===== *)
(** * Rotation quorum collector ([src/src/consensus/commitment-broadcaster.ts])

    A commitment is started by [commitRotation], waits for a snapshot of the
    active validators, collects approvals and settles its promise when the
    quorum is reached, the timer fires or a listener throws.  A promise is
    named by a handle; [settled] logs the calls of [resolve] and [reject].
    [startCommit] is suspended once, at its [await]: its two halves are
    [beginCommit] and [resumeCommit]. *)

From Stdlib Require Import ZArith Lia.
From stdpp Require Import base list strings gmap sorting.
From S2P Require Import Prelude Js.

(** ** Data *)

Definition VALIDATOR_KEY_ROTATION_EVENT : string := "ValidatorKeyRotation".

Record ValidatorKeyRotation := mkRotation {
  vkr_type : string;
  vkr_rotationId : string;
  vkr_validatorId : string;
  vkr_oldPublicKey : string;
  vkr_newPublicKey : string;
  vkr_initiatedEpoch : Z;
  vkr_initiatedSlot : Z
}.
#[export] Instance ValidatorKeyRotation_eq_dec : EqDecision ValidatorKeyRotation.
Proof. solve_decision. Defined.

Record RotationCommitResult := mkCommitResult {
  rcr_rotationId : string;
  rcr_approvals : list string;
  rcr_approvalThreshold : Z;
  rcr_activeValidatorIds : list string
}.

Inductive ApprovalStatus := COUNTED | DUPLICATE | INELIGIBLE | UNKNOWN_ROTATION.

Record ApprovalResult := mkApprovalResult {
  ar_status : ApprovalStatus;
  ar_approvalCount : nat;
  ar_approvalThreshold : option Z
}.

(** [RotationCommitTimeoutError], the codes of [RotationCommitError], and the
    errors of the provider and of a listener. *)
Inductive CommitError :=
  | ERR_ROTATION_COMMIT_TIMEOUT (rotationId : string)
  | ERR_INVALID_COMMIT_TIMEOUT
  | ERR_INVALID_COMMIT_CACHE
  | ERR_EMPTY_ACTIVE_VALIDATOR_SET
  | ERR_INVALID_ROTATION_PROPOSAL
  | ERR_ROTATION_ID_CONFLICT
  | ForeignError (message : string).

Abbreviation handle := nat.

Record PendingCommitment := mkPending {
  pc_handle : handle;
  pc_proposal : ValidatorKeyRotation;
  pc_activeValidatorIds : list string;
  pc_eligibleValidators : list string;
  pc_approvalThreshold : Z;
  pc_approvals : list string
}.

Record Broadcaster := mkBroadcaster {
  maxCompletedCommitments : nat;
  pending : jsmap string PendingCommitment;
  starting : jsmap string (ValidatorKeyRotation * handle);
  completed : jsmap string (ValidatorKeyRotation * RotationCommitResult);
  suspended : list (ValidatorKeyRotation * handle);
  nextHandle : handle;
  settled : list (handle * (CommitError + RotationCommitResult))
}.

(** Methods of the broadcaster. *)
Abbreviation BM := (M Broadcaster CommitError).

Definition set_pending f b :=
  mkBroadcaster (maxCompletedCommitments b) (f (pending b)) (starting b)
    (completed b) (suspended b) (nextHandle b) (settled b).
Definition set_starting f b :=
  mkBroadcaster (maxCompletedCommitments b) (pending b) (f (starting b))
    (completed b) (suspended b) (nextHandle b) (settled b).
Definition set_completed f b :=
  mkBroadcaster (maxCompletedCommitments b) (pending b) (starting b)
    (f (completed b)) (suspended b) (nextHandle b) (settled b).
Definition set_suspended f b :=
  mkBroadcaster (maxCompletedCommitments b) (pending b) (starting b)
    (completed b) (f (suspended b)) (nextHandle b) (settled b).
Definition bump b :=
  mkBroadcaster (maxCompletedCommitments b) (pending b) (starting b)
    (completed b) (suspended b) (S (nextHandle b)) (settled b).
Definition log_settled h r b :=
  mkBroadcaster (maxCompletedCommitments b) (pending b) (starting b)
    (completed b) (suspended b) (nextHandle b) (settled b ++ [(h, r)]).

(** ** The threshold *)

Definition calculateRotationApprovalThreshold (activeValidatorCount : jsnum)
    : CommitError + Z :=
  match isSafeInteger activeValidatorCount with
  | Some n => if n <=? 0 then inl ERR_EMPTY_ACTIVE_VALIDATOR_SET
              else inr (ceil_div (2 * n) 3)
  | None => inl ERR_EMPTY_ACTIVE_VALIDATOR_SET
  end.

(** ** Construction

    [timeoutMs] is only tested for being finite and positive. *)
Definition new_CommitmentBroadcaster (timeoutPositive : bool)
    (maxCompleted : option jsnum) : CommitError + Broadcaster :=
  if negb timeoutPositive then inl ERR_INVALID_COMMIT_TIMEOUT
  else match safeNonNeg (default (JInt 1024) maxCompleted) with
       | Some n => inr (mkBroadcaster (Z.to_nat n) ∅ ∅ ∅ [] 0 [])
       | None => inl ERR_INVALID_COMMIT_CACHE
       end.

(** ** Checks on proposals *)

Definition proposalsMatch (left right : ValidatorKeyRotation) : bool :=
  bool_decide (vkr_type left = vkr_type right)
  && bool_decide (vkr_rotationId left = vkr_rotationId right)
  && bool_decide (vkr_validatorId left = vkr_validatorId right)
  && bool_decide (vkr_oldPublicKey left = vkr_oldPublicKey right)
  && bool_decide (vkr_newPublicKey left = vkr_newPublicKey right)
  && bool_decide (vkr_initiatedEpoch left = vkr_initiatedEpoch right)
  && bool_decide (vkr_initiatedSlot left = vkr_initiatedSlot right).

Definition assertSameProposal (expected received : ValidatorKeyRotation) : BM unit :=
  guard (proposalsMatch expected received) ERR_ROTATION_ID_CONFLICT.

Definition validateProposal (p : ValidatorKeyRotation) : BM unit :=
  guard (bool_decide (vkr_type p = VALIDATOR_KEY_ROTATION_EVENT)
         && negb (falsy (vkr_rotationId p)) && negb (falsy (vkr_validatorId p)))
    ERR_INVALID_ROTATION_PROPOSAL ;;;
  guard (negb (falsy (vkr_oldPublicKey p)) && negb (falsy (vkr_newPublicKey p))
         && negb (bool_decide (vkr_oldPublicKey p = vkr_newPublicKey p)))
    ERR_INVALID_ROTATION_PROPOSAL.

(** ** Completion *)

(** [while (size > max) delete oldest]: the map shrinks by one each time, so
    its size is enough fuel. *)
Fixpoint evictOldest (fuel max : nat)
    (m : jsmap string (ValidatorKeyRotation * RotationCommitResult)) :=
  match fuel with
  | O => m
  | S fuel' =>
      if (max <? map_size m)%nat then
        match map_keys m with
        | oldest :: _ => evictOldest fuel' max (delete oldest m)
        | [] => m
        end
      else m
  end.

Definition rememberCompleted (p : ValidatorKeyRotation) (res : RotationCommitResult)
    : BM unit :=
  let! b := get in
  if (maxCompletedCommitments b =? 0)%nat then ret tt
  else
    modify (set_completed (fun m =>
      let m' := <[vkr_rotationId p := (p, res)]> m in
      evictOldest (map_size m') (maxCompletedCommitments b) m')).

(** [this.pending.get(id) !== pending] *)
Definition isCurrent (b : Broadcaster) (pc : PendingCommitment) : bool :=
  match pending b !! vkr_rotationId (pc_proposal pc) with
  | Some current => (pc_handle current =? pc_handle pc)%nat
  | None => false
  end.

Definition commitResult (pc : PendingCommitment) : RotationCommitResult :=
  mkCommitResult (vkr_rotationId (pc_proposal pc)) (js_sort (pc_approvals pc))
    (pc_approvalThreshold pc) (pc_activeValidatorIds pc).

Definition completeCommitment (pc : PendingCommitment) : BM unit :=
  let! b := get in
  if negb (isCurrent b pc) then ret tt
  else
    modify (set_pending (delete (vkr_rotationId (pc_proposal pc)))) ;;;
    rememberCompleted (pc_proposal pc) (commitResult pc) ;;;
    modify (log_settled (pc_handle pc) (inr (commitResult pc))).

Definition failCommitment (pc : PendingCommitment) (e : CommitError) : BM unit :=
  let! b := get in
  if negb (isCurrent b pc) then ret tt
  else
    modify (set_pending (delete (vkr_rotationId (pc_proposal pc)))) ;;;
    modify (log_settled (pc_handle pc) (inl e)).

(** ** Approval *)

Definition withApproval (pc : PendingCommitment) (validator : string) :=
  mkPending (pc_handle pc) (pc_proposal pc) (pc_activeValidatorIds pc)
    (pc_eligibleValidators pc) (pc_approvalThreshold pc)
    (set_add validator (pc_approvals pc)).

Definition approveRotation (rotationId validatorId : string) : BM ApprovalResult :=
  let! b := get in
  match pending b !! rotationId with
  | None => ret (mkApprovalResult UNKNOWN_ROTATION 0 None)
  | Some pc =>
      if negb (set_has validatorId (pc_eligibleValidators pc)) then
        ret (mkApprovalResult INELIGIBLE (length (pc_approvals pc))
               (Some (pc_approvalThreshold pc)))
      else if set_has validatorId (pc_approvals pc) then
        ret (mkApprovalResult DUPLICATE (length (pc_approvals pc))
               (Some (pc_approvalThreshold pc)))
      else
        let pc' := withApproval pc validatorId in
        modify (set_pending <[rotationId := pc']>) ;;;
        (if pc_approvalThreshold pc' <=? Z.of_nat (length (pc_approvals pc'))
         then completeCommitment pc' else ret tt) ;;;
        ret (mkApprovalResult COUNTED (length (pc_approvals pc'))
               (Some (pc_approvalThreshold pc')))
  end.

Definition pendingCommitmentCount (b : Broadcaster) : nat := map_size (pending b).

(** ** Commitment *)

(** What [commitRotation] returns: a resolved promise or a pending one. *)
Inductive CommitCall :=
  | Resolved (result : RotationCommitResult)
  | Wait (h : handle).

(** [startCommit] up to its [await], with the bookkeeping of [starting]. *)
Definition beginCommit (p : ValidatorKeyRotation) : BM CommitCall :=
  let! b := get in
  let h := nextHandle b in
  modify (set_starting <[vkr_rotationId p := (p, h)]>) ;;;
  modify (set_suspended (fun l => l ++ [(p, h)])) ;;;
  modify bump ;;;
  ret (Wait h).

Definition commitRotation (p : ValidatorKeyRotation) : BM CommitCall :=
  validateProposal p ;;;
  let! b := get in
  match completed b !! vkr_rotationId p with
  | Some (q, res) => assertSameProposal q p ;;; ret (Resolved res)
  | None =>
      match pending b !! vkr_rotationId p with
      | Some pc => assertSameProposal (pc_proposal pc) p ;;; ret (Wait (pc_handle pc))
      | None =>
          match starting b !! vkr_rotationId p with
          | Some (q, h) => assertSameProposal q p ;;; ret (Wait h)
          | None => beginCommit p
          end
      end
  end.

(** What the listeners of the event do while [emit] runs them. *)
Inductive ListenerAction :=
  | LApprove (rotationId validatorId : string)
  | LCommit (p : ValidatorKeyRotation)
  | LThrow (message : string).

Fixpoint emit (actions : list ListenerAction) : BM unit :=
  match actions with
  | [] => ret tt
  | LApprove i v :: rest => approveRotation i v ;;; emit rest
  | LCommit p :: rest => commitRotation p ;;; emit rest
  | LThrow msg :: _ => throw (ForeignError msg)
  end.

(** [startCommit] after its [await]: the snapshot (or its failure, a timeout
    included) has arrived.  An error before [pending.set] rejects the promise
    of the [async] function. *)
Definition newPending (p : ValidatorKeyRotation) (h : handle) (ids : list string)
    (threshold : Z) : PendingCommitment :=
  let activeValidatorIds := new_Set (filter (fun id => id <> "") ids) in
  mkPending h p activeValidatorIds (new_Set activeValidatorIds) threshold [].

Definition resumeCommit (p : ValidatorKeyRotation) (h : handle)
    (snapshot : CommitError + list string) (actions : list ListenerAction)
    : BM unit :=
  modify (set_suspended (filter (fun e => e.2 <> h))) ;;;
  match snapshot with
  | inl e => modify (log_settled h (inl e))
  | inr ids =>
      let activeValidatorIds := new_Set (filter (fun id => id <> "") ids) in
      match calculateRotationApprovalThreshold
              (JInt (Z.of_nat (length activeValidatorIds))) with
      | inl e => modify (log_settled h (inl e))
      | inr approvalThreshold =>
          let pc := newPending p h ids approvalThreshold in
          modify (set_pending <[vkr_rotationId p := pc]>) ;;;
          catch (emit actions) (fun e => failCommitment pc e)
      end
  end.

(** ** Events

    The interleavings of the event loop: calls, the arrival of a snapshot, the
    timer of a pending commitment and the clean-up that follows settlement. *)

Inductive Event :=
  | EvCommit (p : ValidatorKeyRotation)
  | EvSnapshot (h : handle) (snapshot : CommitError + list string)
      (actions : list ListenerAction)
  | EvApprove (rotationId validatorId : string)
  | EvTimer (rotationId : string)
  | EvCleanup (rotationId : string).

Definition timerFires (rotationId : string) : BM unit :=
  let! b := get in
  match pending b !! rotationId with
  | Some current => failCommitment current (ERR_ROTATION_COMMIT_TIMEOUT rotationId)
  | None => ret tt
  end.

(** [promise.then(cleanup, cleanup)]: runs only after the promise settled. *)
Definition cleanup (rotationId : string) : BM unit :=
  let! b := get in
  match starting b !! rotationId with
  | Some (_, h) =>
      if bool_decide (h ∈ (settled b).*1)
      then modify (set_starting (delete rotationId)) else ret tt
  | None => ret tt
  end.

Definition runEvent (ev : Event) : BM unit :=
  match ev with
  | EvCommit p => ignore (commitRotation p)
  | EvSnapshot h snapshot actions =>
      let! b := get in
      match list_find (fun e => e.2 = h) (suspended b) with
      | Some (_, (p, _)) => resumeCommit p h snapshot actions
      | None => ret tt
      end
  | EvApprove i v => ignore (approveRotation i v)
  | EvTimer i => timerFires i
  | EvCleanup i => cleanup i
  end.

Definition runEvents (evs : list Event) (b : Broadcaster) : Broadcaster :=
  foldl (fun b ev => fst (runEvent ev b)) b evs.

(** ** Quorums *)

(** [approvals] is a two-thirds quorum of [active]. *)
Definition Quorum (active approvals : list string) (threshold : Z) : Prop :=
  NoDup active /\ active <> [] /\
  threshold = ceil_div (2 * Z.of_nat (length active)) 3 /\
  NoDup approvals /\ approvals ⊆ active /\
  threshold <= Z.of_nat (length approvals).

Definition goodResult (res : RotationCommitResult) : Prop :=
  Quorum (rcr_activeValidatorIds res) (rcr_approvals res) (rcr_approvalThreshold res).

Lemma Quorum_Permutation active l l' t :
  l ≡ₚ l' -> Quorum active l t -> Quorum active l' t.
Proof.
  unfold Quorum. intros Hp (?&?&?&?&?&?). rewrite <- Hp. split_and!; auto.
Qed.

(** A commitment that is still collecting: below its threshold. *)
Definition collecting (pc : PendingCommitment) : Prop :=
  NoDup (pc_activeValidatorIds pc) /\ pc_activeValidatorIds pc <> [] /\
  pc_eligibleValidators pc = pc_activeValidatorIds pc /\
  pc_approvalThreshold pc
    = ceil_div (2 * Z.of_nat (length (pc_activeValidatorIds pc))) 3 /\
  NoDup (pc_approvals pc) /\ pc_approvals pc ⊆ pc_activeValidatorIds pc.

Definition belowThreshold (pc : PendingCommitment) : Prop :=
  Z.of_nat (length (pc_approvals pc)) < pc_approvalThreshold pc.

(** ** Invariant *)

Record BInv (b : Broadcaster) : Prop := {
  bi_starting : forall i p h, starting b !! i = Some (p, h) ->
    vkr_rotationId p = i /\ (h < nextHandle b)%nat;
  bi_inj : forall i j p q h, starting b !! i = Some (p, h) ->
    starting b !! j = Some (q, h) -> i = j;
  bi_suspended : forall p h, (p, h) ∈ suspended b ->
    starting b !! vkr_rotationId p = Some (p, h);
  bi_pending : forall i pc, pending b !! i = Some pc ->
    collecting pc /\ belowThreshold pc /\ vkr_rotationId (pc_proposal pc) = i /\
    starting b !! i = Some (pc_proposal pc, pc_handle pc) /\
    pc_handle pc ∉ (suspended b).*2;
  bi_settled : forall h r, (h, r) ∈ settled b ->
    (h < nextHandle b)%nat /\ h ∉ (suspended b).*2 /\
    (forall i pc, pending b !! i = Some pc -> pc_handle pc <> h) /\
    match r with inr res => goodResult res | inl _ => True end;
  bi_once : NoDup (settled b).*1;
  bi_completed : forall i p res, completed b !! i = Some (p, res) ->
    goodResult res /\ rcr_rotationId res = i /\ vkr_rotationId p = i;
  bi_cache : (map_size (completed b) <= maxCompletedCommitments b)%nat;
  bi_wf : NoDup (suspended b).*2 /\ map_wf (completed b)
}.

Lemma calculate_inr n t :
  calculateRotationApprovalThreshold (JInt n) = inr t ->
  0 < n /\ t = ceil_div (2 * n) 3.
Proof.
  unfold calculateRotationApprovalThreshold, isSafeInteger.
  destruct (isSafeZ n); [|done]. destruct (Z.leb_spec n 0); [done|]. by intros [= <-].
Qed.

Lemma newPending_collecting p h ids t :
  calculateRotationApprovalThreshold
    (JInt (Z.of_nat (length (new_Set (filter (fun id => id <> "") ids))))) = inr t ->
  collecting (newPending p h ids t) /\ belowThreshold (newPending p h ids t).
Proof.
  intros [Hn ->]%calculate_inr. unfold collecting, belowThreshold. cbn.
  set (active := new_Set _) in *.
  assert (NoDup active) by apply NoDup_new_Set.
  pose proof (ceil_div_spec (2 * Z.of_nat (length active)) 3 ltac:(lia)).
  split_and!; auto; [|by apply new_Set_NoDup|constructor|set_solver|lia].
  intros E. rewrite E in Hn. cbn in Hn. lia.
Qed.

Lemma withApproval_collecting pc v :
  collecting pc -> v ∈ pc_eligibleValidators pc -> collecting (withApproval pc v).
Proof.
  unfold collecting. cbn. intros (?&?&E&?&?&Hs) Hv. rewrite E in Hv.
  split_and!; auto.
  intros x [->|Hx]%elem_of_set_add; auto.
Qed.

Lemma commitResult_good pc :
  collecting pc -> pc_approvalThreshold pc <= Z.of_nat (length (pc_approvals pc)) ->
  goodResult (commitResult pc).
Proof.
  unfold collecting. intros (?&?&?&?&?&?) Ht.
  unfold goodResult. cbn. apply (Quorum_Permutation _ (pc_approvals pc)).
  - by rewrite js_sort_Permutation.
  - done.
Qed.

(** *** The completed cache *)

Lemma evictOldest_spec fuel max m :
  map_wf m -> (map_size m <= fuel)%nat ->
  let m' := evictOldest fuel max m in
  (map_size m' <= max)%nat /\ map_wf m' /\
  (forall i x, m' !! i = Some x -> m !! i = Some x).
Proof.
  revert m. induction fuel as [|fuel IH]; intros m Hwf Hf;
    cbn [evictOldest].
  { split_and!; auto. lia. }
  destruct (Nat.ltb_spec max (map_size m)) as [Hlt|]; [|split_and!; auto].
  destruct (map_keys m) as [|oldest ks] eqn:Hk.
  { rewrite map_size_keys, Hk in *. cbn in *. lia. }
  assert (Hsz : (map_size (delete oldest m) < map_size m)%nat).
  { rewrite !map_size_keys, map_keys_delete, Hk.
    rewrite filter_cons_False by naive_solver.
    pose proof (length_filter (fun x => x <> oldest) ks). cbn. lia. }
  destruct (IH (delete oldest m)) as (H1 & H2 & H3); [auto|lia|].
  split; [exact H1|]. split; [exact H2|].
  intros i x Hi. apply H3 in Hi. by jsmap_cases.
Qed.

(** *** State changes that keep the invariant *)

Lemma elem_of_suspended_handle (l : list (ValidatorKeyRotation * handle)) p h :
  (p, h) ∈ l -> h ∈ l.*2.
Proof. intros. apply list_elem_of_fmap. by exists (p, h). Qed.

Lemma elem_of_settled_handle {A} (l : list (handle * A)) h :
  h ∈ l.*1 -> exists r, (h, r) ∈ l.
Proof. intros ([h' r] & -> & ?)%list_elem_of_fmap. eauto. Qed.

(** Settling the promise of the commitment pending under [i]. *)
Definition settle (i : string) (h : handle) r (b : Broadcaster) : Broadcaster :=
  log_settled h r (set_pending (delete i) b).

Lemma BInv_log_settled b h r m :
  BInv b ->
  (forall j pc, m !! j = Some pc -> pending b !! j = Some pc /\ pc_handle pc <> h) ->
  (h < nextHandle b)%nat -> h ∉ (suspended b).*2 -> h ∉ (settled b).*1 ->
  match r with inr res => goodResult res | inl _ => True end ->
  BInv (log_settled h r (set_pending (fun _ => m) b)).
Proof.
  intros HI Hm Hlt Hs Hn Hr. destruct HI as [H1 H2 H3 H4 H5 H6 H7 H8 H9].
  split; cbn; try done.
  - intros j q Hj. apply Hm in Hj as [Hj _]. eauto.
  - intros h' r' [Hin|Hin%list_elem_of_singleton]%elem_of_app; simplify_eq.
    + destruct (H5 _ _ Hin) as (?&?&Hp&?). split_and!; auto.
      intros j q Hj. apply Hm in Hj as [Hj _]. eauto.
    + split_and!; auto. intros j q Hj. by destruct (Hm _ _ Hj).
  - rewrite fmap_app. apply NoDup_app. split; [done|].
    split; [|apply NoDup_singleton]. cbn. set_solver.
Qed.

Lemma pending_handle_inj b i j pc pc' :
  BInv b -> pending b !! i = Some pc -> pending b !! j = Some pc' ->
  pc_handle pc = pc_handle pc' -> i = j.
Proof.
  intros HI Hi Hj E.
  destruct (bi_pending b HI i pc Hi) as (_&_&_&S1&_).
  destruct (bi_pending b HI j pc' Hj) as (_&_&_&S2&_).
  rewrite E in S1. by eapply bi_inj.
Qed.

Lemma pending_unsettled b i pc :
  BInv b -> pending b !! i = Some pc -> pc_handle pc ∉ (settled b).*1.
Proof.
  intros HI Hi [r Hr]%elem_of_settled_handle.
  destruct (bi_settled b HI _ _ Hr) as (_&_&Hp&_). by eapply Hp.
Qed.

(** [i] stops pending, whatever was written under it last. *)
Lemma BInv_settle b i pc m r :
  BInv b -> pending b !! i = Some pc ->
  (forall j, m !! j = if decide (i = j) then None else pending b !! j) ->
  match r with inr res => goodResult res | inl _ => True end ->
  BInv (log_settled (pc_handle pc) r (set_pending (fun _ => m) b)).
Proof.
  intros HI Hi Hm Hr.
  destruct (bi_pending b HI i pc Hi) as (_&_&_&Hst&Hsus).
  apply BInv_log_settled; auto.
  - intros j pc' Hj. rewrite Hm in Hj. case_decide; [done|].
    split; [done|]. intros E. eauto using pending_handle_inj.
  - by eapply bi_starting.
  - by eapply pending_unsettled.
Qed.

(** Caching a result. *)
Definition remembered (p : ValidatorKeyRotation) (res : RotationCommitResult)
    (b : Broadcaster) : Broadcaster :=
  if (maxCompletedCommitments b =? 0)%nat then b
  else set_completed (fun m =>
         let m' := <[vkr_rotationId p := (p, res)]> m in
         evictOldest (map_size m') (maxCompletedCommitments b) m') b.

Lemma BInv_remembered p res b :
  BInv b -> goodResult res -> rcr_rotationId res = vkr_rotationId p ->
  BInv (remembered p res b).
Proof.
  intros HI Hg Hid. unfold remembered.
  destruct (maxCompletedCommitments b =? 0)%nat; [done|].
  destruct HI as [H1 H2 H3 H4 H5 H6 H7 H8 [H9 H10]].
  destruct (evictOldest_spec
    (map_size (<[vkr_rotationId p := (p, res)]> (completed b)))
    (maxCompletedCommitments b) (<[vkr_rotationId p := (p, res)]> (completed b)))
    as (Hsz & Hwf & Hsub); [auto|lia|].
  split; cbn; try done.
  intros i q res' Hi. apply Hsub in Hi. jsmap_cases; eauto.
Qed.

Lemma BInv_begin p b :
  BInv b -> starting b !! vkr_rotationId p = None ->
  BInv (bump (set_suspended (fun l => l ++ [(p, nextHandle b)])
         (set_starting <[vkr_rotationId p := (p, nextHandle b)]> b))).
Proof.
  intros [H1 H2 H3 H4 H5 H6 H7 H8 [H9 H10]] Hnone.
  assert (Hlt : forall h, h ∈ (suspended b).*2 -> (h < nextHandle b)%nat).
  { intros h ([q h'] & -> & Hin)%list_elem_of_fmap. by eapply H1, H3. }
  split; cbn; try done.
  - intros i q h Hi. jsmap_cases; [auto|]. apply H1 in Hi as []. auto.
  - intros i j q q' h Hi Hj. jsmap_cases; eauto;
      match goal with H : starting b !! _ = Some (_, nextHandle b) |- _ =>
        apply H1 in H as [_ ?]; lia end.
  - intros q h [Hin|Hin%list_elem_of_singleton]%elem_of_app; simplify_eq.
    + apply H3 in Hin as Hst. jsmap_cases; congruence.
    + by jsmap_simpl.
  - intros i pc Hi. destruct (H4 _ _ Hi) as (?&?&?&Hst&?). split_and!; auto.
    + jsmap_cases; congruence.
    + rewrite fmap_app. apply not_elem_of_app. split; [done|]. cbn.
      intros E%list_elem_of_singleton. apply H1 in Hst as []. lia.
  - intros h r Hin. destruct (H5 _ _ Hin) as (?&?&?&?). split_and!; auto.
    rewrite fmap_app. apply not_elem_of_app. split; [done|]. cbn.
    intros E%list_elem_of_singleton. lia.
  - split; [|done]. rewrite fmap_app. apply NoDup_app. split_and!; [done| |apply NoDup_singleton].
    cbn. intros h Hh E%list_elem_of_singleton. apply Hlt in Hh. lia.
Qed.

Lemma elem_of_resumed (l : list (ValidatorKeyRotation * handle)) h q :
  (q, h) ∉ filter (fun e => e.2 <> h) l.
Proof. intros []%list_elem_of_filter. done. Qed.

Lemma resumed_handles (l : list (ValidatorKeyRotation * handle)) h h' :
  h' ∈ (filter (fun e => e.2 <> h) l).*2 <-> h' <> h /\ h' ∈ l.*2.
Proof.
  rewrite !list_elem_of_fmap. split.
  - intros ([q x] & -> & [? ?]%list_elem_of_filter). split; [done|]. by exists (q, x).
  - intros (? & [q x] & -> & ?). exists (q, x). by rewrite list_elem_of_filter.
Qed.

Lemma BInv_resumed h b : BInv b -> BInv (set_suspended (filter (fun e => e.2 <> h)) b).
Proof.
  intros [H1 H2 H3 H4 H5 H6 H7 H8 [H9 H10]]. split; cbn; try done.
  - intros q h' [_ ?]%list_elem_of_filter. auto.
  - intros i pc Hi. destruct (H4 _ _ Hi) as (?&?&?&?&?).
    split_and!; auto. rewrite resumed_handles. naive_solver.
  - intros h' r Hin. destruct (H5 _ _ Hin) as (?&?&?&?).
    split_and!; auto. rewrite resumed_handles. naive_solver.
  - split; [|done]. by apply NoDup_fmap_filter.
Qed.

(** *** Methods *)

Lemma isCurrent_Some b pc :
  isCurrent b pc = true ->
  exists cur, pending b !! vkr_rotationId (pc_proposal pc) = Some cur /\
              pc_handle cur = pc_handle pc.
Proof.
  unfold isCurrent. case_match; [|done]. intros E%Nat.eqb_eq. eauto.
Qed.

(** [failCommitment] keeps the invariant for any commitment object. *)
Lemma failCommitment_wp pc e b :
  BInv b -> wp (failCommitment pc e) (fun _ => BInv) (fun _ _ => False) b.
Proof.
  intros HI. unfold failCommitment. wp_simpl.
  destruct (isCurrent b pc) eqn:Hc; cbn; wp_simpl; [|done].
  apply isCurrent_Some in Hc as (cur & Hcur & <-).
  exact (BInv_settle b _ cur (delete _ (pending b)) (inl e) HI Hcur
           (fun j => jsmap_lookup_delete _ _ j) I).
Qed.

Lemma completeCommitment_eq pc b :
  isCurrent b pc = true ->
  completeCommitment pc b =
  (log_settled (pc_handle pc) (inr (commitResult pc))
     (remembered (pc_proposal pc) (commitResult pc)
        (set_pending (delete (vkr_rotationId (pc_proposal pc))) b)), inr tt).
Proof.
  intros Hc. unfold completeCommitment, rememberCompleted, remembered.
  unfold bind, get, ret, modify. rewrite Hc. cbn.
  by destruct (maxCompletedCommitments b).
Qed.

Lemma log_settled_remembered h r p res f b :
  log_settled h r (remembered p res (set_pending f b)) =
  remembered p res (log_settled h r (set_pending f b)).
Proof. unfold remembered. cbn. by destruct (maxCompletedCommitments b =? 0)%nat. Qed.

(** The state after a counted approval. *)
Definition approved (i v : string) (pc : PendingCommitment) (b : Broadcaster)
    : Broadcaster :=
  let pc' := withApproval pc v in
  if pc_approvalThreshold pc <=? Z.of_nat (length (pc_approvals pc'))
  then log_settled (pc_handle pc) (inr (commitResult pc'))
         (remembered (pc_proposal pc) (commitResult pc')
            (set_pending (fun m => delete i (<[i := pc']> m)) b))
  else set_pending <[i := pc']> b.

Lemma approveRotation_eq i v b pc :
  pending b !! i = Some pc -> vkr_rotationId (pc_proposal pc) = i ->
  v ∈ pc_eligibleValidators pc -> v ∉ pc_approvals pc ->
  approveRotation i v b =
  (approved i v pc b,
   inr (mkApprovalResult COUNTED (length (pc_approvals (withApproval pc v)))
          (Some (pc_approvalThreshold pc)))).
Proof.
  intros Hp Hi Hv Hn. unfold approveRotation, approved.
  unfold bind at 1, get. cbn [fst snd]. rewrite Hp.
  unfold set_has. rewrite bool_decide_true, bool_decide_false by done. cbn [negb].
  unfold bind, modify. cbn [pc_approvalThreshold withApproval].
  destruct (_ <=? _); [|done].
  rewrite completeCommitment_eq; [cbn; by rewrite Hi|].
  unfold isCurrent. cbn. rewrite Hi, jsmap_lookup_insert_eq. cbn.
  apply Nat.eqb_refl.
Qed.

Lemma BInv_approved i v pc b :
  BInv b -> pending b !! i = Some pc -> v ∈ pc_eligibleValidators pc ->
  BInv (approved i v pc b).
Proof.
  intros HI Hp Hv. destruct (bi_pending b HI i pc Hp) as (Hcol & Hlow & Hi & Hst & Hsus).
  assert (Hcol' := withApproval_collecting pc v Hcol Hv).
  unfold approved. destruct (Z.leb_spec (pc_approvalThreshold pc)
    (Z.of_nat (length (pc_approvals (withApproval pc v))))) as [Ht|Ht].
  - rewrite log_settled_remembered. apply BInv_remembered; [|by apply commitResult_good|done].
    apply (BInv_settle b i pc (delete i (<[i := withApproval pc v]> (pending b))));
      [done|done| |by apply commitResult_good].
    intros j. by jsmap_cases.
  - destruct HI as [H1 H2 H3 H4 H5 H6 H7 H8 H9]. split; cbn; try done.
    + intros j pc' Hj. jsmap_cases; [|eauto]. by split_and!.
    + intros h r Hin. destruct (H5 _ _ Hin) as (?&?&Hne&?). split_and!; auto.
      intros j pc' Hj. jsmap_cases; eauto.
Qed.

Lemma approveRotation_wp i v b :
  BInv b -> wp (approveRotation i v) (fun _ => BInv) (fun _ _ => False) b.
Proof.
  intros HI. destruct (pending b !! i) as [pc|] eqn:Hp.
  - destruct (bi_pending b HI i pc Hp) as (_&_&Hi&_).
    destruct (decide (v ∈ pc_eligibleValidators pc)) as [Hv|Hv];
      [destruct (decide (v ∈ pc_approvals pc)) as [Ha|Ha]|].
    + unfold approveRotation, set_has. wp_simpl. rewrite Hp. wp_simpl.
      by rewrite !bool_decide_true.
    + unfold wp. rewrite (approveRotation_eq _ _ _ _ Hp Hi Hv Ha).
      by apply BInv_approved.
    + unfold approveRotation, set_has. wp_simpl. rewrite Hp. wp_simpl.
      by rewrite (bool_decide_false _ Hv).
  - unfold approveRotation. wp_simpl. rewrite Hp. by wp_simpl.
Qed.

Lemma commitRotation_wp p b :
  BInv b -> wp (commitRotation p) (fun _ => BInv) (fun _ => BInv) b.
Proof.
  intros HI. unfold commitRotation, validateProposal, assertSameProposal, beginCommit.
  wp_cases; try done. by apply BInv_begin.
Qed.

Lemma emit_wp actions b :
  BInv b -> wp (emit actions) (fun _ => BInv) (fun _ => BInv) b.
Proof.
  revert b. induction actions as [|[i v|p|msg] rest IH]; intros b HI; cbn [emit];
    wp_simpl; try done.
  - eapply wp_mono; [| |apply approveRotation_wp, HI]; [|done]. intros ? b' HI'. auto.
  - eapply wp_mono; [| |apply commitRotation_wp, HI]; [|done]. intros ? b' HI'. auto.
Qed.

Lemma resumeCommit_wp p h snapshot actions b :
  BInv b -> (p, h) ∈ suspended b ->
  wp (resumeCommit p h snapshot actions) (fun _ => BInv) (fun _ _ => False) b.
Proof.
  intros HI Hin. assert (Hst := bi_suspended b HI p h Hin).
  destruct (bi_starting b HI _ _ _ Hst) as [_ Hlt].
  assert (Hns : h ∉ (settled b).*1).
  { intros [r Hr]%elem_of_settled_handle.
    destruct (bi_settled b HI _ _ Hr) as (_ & Hx & _).
    by apply Hx, (elem_of_suspended_handle _ p). }
  assert (Hnp : forall i pc, pending b !! i = Some pc -> pc_handle pc <> h).
  { intros i pc Hi <-. destruct (bi_pending b HI i pc Hi) as (_&_&_&_&Hx).
    by apply Hx, (elem_of_suspended_handle _ p). }
  assert (Hfree : pending b !! vkr_rotationId p = None).
  { destruct (pending b !! vkr_rotationId p) as [pc|] eqn:Hp; [|done].
    destruct (bi_pending b HI _ _ Hp) as (_&_&_&E&_).
    rewrite Hst in E. simplify_eq. by destruct (Hnp _ _ Hp). }
  assert (HI' := BInv_resumed h b HI).
  set (b1 := set_suspended (filter (fun e => e.2 <> h)) b) in *.
  assert (Hh : h ∉ (suspended b1).*2).
  { unfold b1. cbn [suspended set_suspended]. rewrite resumed_handles. naive_solver. }
  assert (Hfail : forall e, BInv (log_settled h (inl e) b1)).
  { intros e. apply (BInv_log_settled b1 h (inl e) (pending b)); auto.
    intros j pc Hj. split; [done|]. eauto. }
  unfold resumeCommit. wp_simpl. fold b1.
  destruct snapshot as [e|ids]; wp_simpl; [apply Hfail|].
  destruct (calculateRotationApprovalThreshold _) as [e|t] eqn:Ht; wp_simpl;
    [apply Hfail|].
  destruct (newPending_collecting p h ids t Ht) as [Hcol Hlow].
  eapply wp_mono; [| |apply emit_wp]; [done| |].
  { intros e b' Hb'. by apply failCommitment_wp. }
  destruct HI' as [H1 H2 H3 H4 H5 H6 H7 H8 H9]. split; cbn; try done.
  - intros i pc Hi. jsmap_cases; [|eauto]. by split_and!.
  - intros h' r Hr. destruct (H5 _ _ Hr) as (?&?&Hne&?). split_and!; auto.
    intros j pc Hj. jsmap_cases; [|eauto]. intros <-.
    apply Hns, list_elem_of_fmap. by exists (h, r).
Qed.

Lemma runEvent_wp ev b :
  BInv b -> wp (runEvent ev) (fun _ => BInv) (fun _ => BInv) b.
Proof.
  intros HI. destruct ev as [p|h sn acts|i v|i|i]; cbn [runEvent].
  - wp_simpl. eapply wp_mono; [| |apply commitRotation_wp, HI]; done.
  - wp_simpl. destruct (list_find _ _) as [[k [p h']]|] eqn:Hf; wp_simpl; [|done].
    apply list_find_Some in Hf as (Hk & <- & _).
    eapply wp_mono; [| |apply resumeCommit_wp]; [done|done|done|].
    by eapply list_elem_of_lookup_2.
  - wp_simpl. eapply wp_mono; [| |apply approveRotation_wp, HI]; done.
  - unfold timerFires. wp_simpl. case_match; wp_simpl; [|done].
    eapply wp_mono; [| |apply failCommitment_wp, HI]; done.
  - unfold cleanup. wp_simpl. case_match; wp_simpl; [|done].
    destruct p as [q h]. case_bool_decide as Hset; wp_simpl; [|done].
    apply elem_of_settled_handle in Hset as [r Hr].
    destruct HI as [H1 H2 H3 H4 H5 H6 H7 H8 H9].
    destruct (H5 _ _ Hr) as (_ & Hx & Hne & _).
    split; cbn; try done; intros; jsmap_cases; eauto.
    + apply H3 in H0 as Hst. simplify_eq. destruct Hx. by eapply elem_of_suspended_handle.
    + destruct (H4 _ _ H0) as (?&?&?&E&?). split_and!; auto.
      exfalso. eapply Hne; [done|]. congruence.
Qed.

Lemma BInv_runEvents evs b : BInv b -> BInv (runEvents evs b).
Proof.
  revert b. induction evs as [|ev evs IH]; intros b HI; [done|]. cbn. apply IH.
  pose proof (runEvent_wp ev b HI) as H. unfold wp in H.
  by destruct (runEvent ev b) as [b' [e|[]]].
Qed.

Lemma BInv_new timeoutPositive max b :
  new_CommitmentBroadcaster timeoutPositive max = inr b -> BInv b.
Proof.
  unfold new_CommitmentBroadcaster. intros. repeat case_match; simplify_eq.
  split; cbn; intros; try set_solver; try done; try (unfold map_size; cbn; lia); repeat constructor.
Qed.

(** ** Properties *)

(** C2: in every run of the event loop, whatever calls, snapshots, listeners
    and timers are interleaved, each promise settles at most once, and a
    promise is only ever resolved with a two-thirds quorum of distinct members
    of its validator snapshot; the cache of completed commitments holds only
    such results and never outgrows [maxCompletedCommitments]. *)
Theorem broadcaster_resolves_with_quorum timeoutPositive max evs b0 :
  new_CommitmentBroadcaster timeoutPositive max = inr b0 ->
  let b := runEvents evs b0 in
  NoDup (settled b).*1 /\
  (forall h res, (h, inr res) ∈ settled b -> goodResult res) /\
  (forall i p res, completed b !! i = Some (p, res) -> goodResult res) /\
  (map_size (completed b) <= maxCompletedCommitments b)%nat.
Proof.
  intros Hnew b. assert (HI : BInv b) by (by eapply BInv_runEvents, BInv_new).
  split_and!.
  - apply (bi_once b HI).
  - intros h res Hin. by destruct (bi_settled b HI _ _ Hin) as (_&_&_&?).
  - intros i p res Hc. by destruct (bi_completed b HI _ _ _ Hc).
  - apply (bi_cache b HI).
Qed.

(** The part of a duplicate-free list that lies in another. *)
Definition common (l l' : list string) : list string := filter (fun x => x ∈ l') l.

Lemma common_length active l l' :
  NoDup active -> NoDup l -> NoDup l' -> l ⊆ active -> l' ⊆ active ->
  (length l + length l' <= length active + length (common l l'))%nat.
Proof.
  intros Ha Hl Hl' Hs Hs'. unfold common.
  pose proof (filter_app_complement (fun x => x ∈ l') l) as Hp.
  apply Permutation_length in Hp. rewrite length_app in Hp.
  assert (Hd : (length (filter (fun x => ~ x ∈ l') l ++ l') <= length active)%nat).
  { apply submseteq_length, NoDup_submseteq.
    - apply NoDup_app. split_and!; [by apply NoDup_filter| |done].
      intros x [? _]%list_elem_of_filter. done.
    - intros x [[_ ?]%list_elem_of_filter|?]%elem_of_app; auto. }
  rewrite length_app in Hd. lia.
Qed.

Lemma quorums_intersect active l l' t t' :
  Quorum active l t -> Quorum active l' t' ->
  Z.of_nat (length active) <= 3 * Z.of_nat (length (common l l')).
Proof.
  intros (Ha & _ & -> & Hl & Hs & Ht) (_ & _ & -> & Hl' & Hs' & Ht').
  pose proof (common_length active l l' Ha Hl Hl' Hs Hs').
  pose proof (ceil_div_spec (2 * Z.of_nat (length active)) 3 ltac:(lia)). lia.
Qed.

(** quorums intersect: any two commitments a broadcaster resolves, in any
    run, over the same validator snapshot have at least a third of the validators
    approving both, so a conflicting pair needs a third of the set to sign both. *)
Theorem rotation_quorums_intersect timeoutPositive max evs b0 h h' res res' :
  new_CommitmentBroadcaster timeoutPositive max = inr b0 ->
  (h, inr res) ∈ settled (runEvents evs b0) ->
  (h', inr res') ∈ settled (runEvents evs b0) ->
  rcr_activeValidatorIds res' = rcr_activeValidatorIds res ->
  Z.of_nat (length (rcr_activeValidatorIds res))
  <= 3 * Z.of_nat (length (common (rcr_approvals res) (rcr_approvals res'))).
Proof.
  intros Hnew Hin Hin' E.
  assert (HI : BInv (runEvents evs b0)) by (by eapply BInv_runEvents, BInv_new).
  destruct (bi_settled _ HI _ _ Hin) as (_ & _ & _ & H).
  destruct (bi_settled _ HI _ _ Hin') as (_ & _ & _ & H').
  unfold goodResult in H, H'. rewrite E in H'. by eapply quorums_intersect.
Qed.

(** *** Liveness *)

Definition approveAll (i : string) (vs : list string) (b : Broadcaster) : Broadcaster :=
  runEvents (EvApprove i <$> vs) b.

Lemma approveAll_complete i vs : forall b pc,
  BInv b -> pending b !! i = Some pc -> NoDup vs ->
  (forall v, v ∈ vs -> v ∈ pc_eligibleValidators pc /\ v ∉ pc_approvals pc) ->
  Z.of_nat (length (pc_approvals pc) + length vs) = pc_approvalThreshold pc ->
  vs <> [] ->
  settled (approveAll i vs b) =
  settled b ++ [(pc_handle pc,
    inr (mkCommitResult i (js_sort (pc_approvals pc ++ vs))
           (pc_approvalThreshold pc) (pc_activeValidatorIds pc)))].
Proof.
  induction vs as [|v vs IH]; intros b pc HI Hp Hnd Hvs Hlen Hne; [done|].
  apply NoDup_cons in Hnd as [Hv Hnd].
  destruct (bi_pending b HI i pc Hp) as (_&_&Hi&_).
  destruct (Hvs v ltac:(left)) as [Hel Hna].
  unfold approveAll. cbn [fmap list_fmap runEvents foldl runEvent].
  unfold ignore, bind, ret. rewrite (approveRotation_eq _ _ _ _ Hp Hi Hel Hna).
  cbn [fst]. assert (Hap : pc_approvals (withApproval pc v) = pc_approvals pc ++ [v]).
  { cbn. unfold set_add, set_has. by rewrite bool_decide_false. }
  assert (HI' := BInv_approved i v pc b HI Hp Hel).
  unfold approved in *. rewrite Hap, length_app in *. cbn [length] in *.
  destruct vs as [|w vs].
  - destruct (Z.leb_spec (pc_approvalThreshold pc)
      (Z.of_nat (length (pc_approvals pc) + 1))); [|cbn in *; lia].
    cbn. unfold commitResult, remembered. rewrite Hap. cbn. rewrite Hi.
    by destruct (maxCompletedCommitments b =? 0)%nat.
  - destruct (Z.leb_spec (pc_approvalThreshold pc)
      (Z.of_nat (length (pc_approvals pc) + 1))); [cbn in *; lia|].
    assert (Hgo := IH _ (withApproval pc v) HI').
    rewrite Hap, <- app_assoc in Hgo. apply Hgo; clear Hgo; auto.
    + cbn. by rewrite jsmap_lookup_insert_eq.
    + intros x Hx. destruct (Hvs x ltac:(by right)). split; [done|].
      rewrite not_elem_of_app, list_elem_of_singleton. set_solver.
    + rewrite length_app. cbn in *. lia.
Qed.

(** liveness: once a commitment is pending, the missing approvals of
    distinct eligible validators, in any order, resolve its promise with the
    sorted approvals. *)
Theorem quorum_resolves_commitment i vs b pc :
  BInv b -> pending b !! i = Some pc -> NoDup vs ->
  (forall v, v ∈ vs -> v ∈ pc_eligibleValidators pc /\ v ∉ pc_approvals pc) ->
  Z.of_nat (length (pc_approvals pc) + length vs) = pc_approvalThreshold pc ->
  exists res,
    settled (approveAll i vs b) = settled b ++ [(pc_handle pc, inr res)] /\
    goodResult res /\ rcr_rotationId res = i /\
    rcr_approvals res ≡ₚ pc_approvals pc ++ vs.
Proof.
  intros HI Hp Hnd Hvs Hlen.
  assert (vs <> []) as Hne.
  { intros ->. destruct (bi_pending b HI i pc Hp) as (_&Hlow&_).
    unfold belowThreshold in Hlow. cbn in Hlen. lia. }
  assert (Hset := approveAll_complete i vs b pc HI Hp Hnd Hvs Hlen Hne).
  assert (HI' : BInv (approveAll i vs b)) by (by apply BInv_runEvents).
  eexists. split; [exact Hset|].
  split; [|split; [done|apply js_sort_Permutation]].
  refine (proj2 (proj2 (proj2 (bi_settled _ HI' (pc_handle pc) (inr _) _)))).
  rewrite Hset. apply elem_of_app. right. by apply list_elem_of_singleton.
Qed.

(** ** Witnesses *)

Module Examples.

Definition proposal : ValidatorKeyRotation :=
  mkRotation VALIDATOR_KEY_ROTATION_EVENT "r1" "v1" "pkA" "pkB" 3 96.
Definition b0 : Broadcaster := mkBroadcaster 2 ∅ ∅ ∅ [] 0 [].
Definition snapshot : list string := ["c"; "a"; ""; "b"; "a"; "d"].
Definition b1 : Broadcaster :=
  runEvents [EvCommit proposal; EvSnapshot 0 (inr snapshot) []] b0.
Definition pc1 : PendingCommitment :=
  mkPending 0 proposal ["c"; "a"; "b"; "d"] ["c"; "a"; "b"; "d"] 3 [].

Lemma b0_new : new_CommitmentBroadcaster true (Some (JInt 2)) = inr b0.
Proof. reflexivity. Qed.

Lemma b1_inv : BInv b1.
Proof. apply BInv_runEvents. by apply (BInv_new true (Some (JInt 2))). Qed.

Lemma broadcaster_resolves_with_quorum_witness :
  let b := runEvents [EvCommit proposal; EvSnapshot 0 (inr snapshot) [LApprove "r1" "d"];
                      EvApprove "r1" "a"; EvApprove "r1" "x"; EvApprove "r1" "c";
                      EvTimer "r1"; EvCleanup "r1"] b0 in
  settled b = [(0%nat, inr (mkCommitResult "r1" ["a"; "c"; "d"] 3 ["c"; "a"; "b"; "d"]))]
  /\ NoDup (settled b).*1.
Proof.
  split; [vm_compute; reflexivity|].
  exact (proj1 (broadcaster_resolves_with_quorum true (Some (JInt 2)) _ b0 b0_new)).
Defined.

(** Two rotations over one snapshot, approved by different quorums. *)
Definition proposal2 : ValidatorKeyRotation :=
  mkRotation VALIDATOR_KEY_ROTATION_EVENT "r2" "v2" "pkC" "pkD" 3 96.
Definition two : list Event :=
  [EvCommit proposal; EvSnapshot 0 (inr snapshot) []; EvCommit proposal2;
   EvSnapshot 1 (inr snapshot) []; EvApprove "r1" "a"; EvApprove "r1" "b"; EvApprove "r1" "c";
   EvApprove "r2" "b"; EvApprove "r2" "c"; EvApprove "r2" "d"].
Definition resultOf (rid : string) (approvals : list string) : RotationCommitResult :=
  mkCommitResult rid approvals 3 ["c"; "a"; "b"; "d"].

Lemma rotation_quorums_intersect_witness :
  4 <= 3 * Z.of_nat (length (common ["a"; "b"; "c"] ["b"; "c"; "d"])).
Proof.
  apply (rotation_quorums_intersect true (Some (JInt 2)) two b0 0%nat 1%nat
    (resultOf "r1" ["a"; "b"; "c"]) (resultOf "r2" ["b"; "c"; "d"]) b0_new).
  - replace (settled (runEvents two b0))
      with [(0%nat, inr (A := CommitError) (resultOf "r1" ["a"; "b"; "c"]));
            (1%nat, inr (resultOf "r2" ["b"; "c"; "d"]))] by (vm_compute; reflexivity).
    left.
  - replace (settled (runEvents two b0))
      with [(0%nat, inr (A := CommitError) (resultOf "r1" ["a"; "b"; "c"]));
            (1%nat, inr (resultOf "r2" ["b"; "c"; "d"]))] by (vm_compute; reflexivity).
    right. left.
  - reflexivity.
Defined.

Lemma quorum_resolves_commitment_witness :
  exists res, settled (approveAll "r1" ["d"; "a"; "b"] b1) = [(0%nat, inr res)].
Proof.
  destruct (quorum_resolves_commitment "r1" ["d"; "a"; "b"] b1 pc1 b1_inv)
    as (res & Hres & _); [reflexivity|compute_done| |reflexivity|].
  - intros v Hv. split; [set_solver|]. cbn. set_solver.
  - exists res. exact Hres.
Defined.

End Examples.
