(* ===== verification/RotationCeremony.v ===== *)
(** * Key-rotation ceremony ([src/src/keys/rotation-ceremony.ts])

    INITIATE, APPROVE, ACTIVATE, RETIRE over the key registry.  The two
    [async] methods are split at their [await]: [initiate] into
    [initiateBegin]/[initiateResume] around the stake query, [approve] into
    [approve]/[persistApproval] around the committer.  The clock's readings,
    the stake and the generated id are arguments, since they are supplied by
    the caller's environment at each call. *)

From Stdlib Require Import ZArith Lia.
From stdpp Require Import base list strings gmap sorting.
From S2P Require Import Prelude Js KeyRegistry CommitmentBroadcaster.

(** ** Data *)

Definition ROTATION_GRACE_EPOCHS : Z := 256.
Definition MIN_ROTATION_STAKE : Z := 10000.
Definition OLD_KEY_RETIREMENT_SLOTS : Z := 4096.

Inductive RotationPhase := INITIATE | APPROVE | ACTIVATE | RETIRE.
#[export] Instance RotationPhase_eq_dec : EqDecision RotationPhase.
Proof. solve_decision. Defined.

Record RotationRecord := mkRotationRecord {
  rr_rotationId : string;
  rr_validatorId : string;
  rr_oldPublicKey : string;
  rr_newPublicKey : string;
  rr_phase : RotationPhase;
  rr_initiatedEpoch : Z;
  rr_initiatedSlot : Z;
  rr_approvedEpoch : option Z;
  rr_activatedEpoch : option Z;
  rr_activationSlot : option Z;
  rr_retiredEpoch : option Z;
  rr_approvals : list string;
  rr_approvalThreshold : option Z;
  rr_approvalValidatorSet : list string
}.

Record InitiateRotationInput := mkInitiate {
  ir_validatorId : string;
  ir_newPublicKey : string;
  ir_rotationId : option string
}.

(** One reading of [currentEpoch()] and [currentSlot()]. *)
Record ClockReading := mkClock { currentEpoch : jsnum; currentSlot : jsnum }.

Inductive CeremonyError :=
  | KeyErr (e : KeyError)
  | CommitErr (e : CommitError)
  | ERR_INVALID_ROTATION
  | ERR_INSUFFICIENT_ROTATION_STAKE
  | ERR_INVALID_PROTOCOL_CLOCK
  | ERR_ROTATION_IN_PROGRESS
  | ERR_NO_ACTIVE_SIGNING_KEY
  | ERR_ROTATION_ID_CONFLICT
  | ERR_ILLEGAL_ROTATION_TRANSITION
  | ERR_RETIREMENT_DELAY
  | ERR_INVALID_ROTATION_COMMITMENT
  | ERR_UNKNOWN_ROTATION.

Record Ceremony := mkCeremony {
  registry : KeyRegistry;
  rotations : jsmap string RotationRecord;
  activeRotationByValidator : jsmap string string;
  approvalAttempts : jsmap string nat;
  nextAttempt : nat
}.

Definition new_RotationCeremony (r : KeyRegistry) : Ceremony :=
  mkCeremony r ∅ ∅ ∅ 0.

(** Methods of the ceremony. *)
Abbreviation CM := (M Ceremony CeremonyError).

Definition set_registry r c :=
  mkCeremony r (rotations c) (activeRotationByValidator c) (approvalAttempts c)
    (nextAttempt c).
Definition set_rotations f c :=
  mkCeremony (registry c) (f (rotations c)) (activeRotationByValidator c)
    (approvalAttempts c) (nextAttempt c).
Definition set_active f c :=
  mkCeremony (registry c) (rotations c) (f (activeRotationByValidator c))
    (approvalAttempts c) (nextAttempt c).
Definition set_attempts f c :=
  mkCeremony (registry c) (rotations c) (activeRotationByValidator c)
    (f (approvalAttempts c)) (nextAttempt c).
Definition bump_attempt c :=
  mkCeremony (registry c) (rotations c) (activeRotationByValidator c)
    (approvalAttempts c) (S (nextAttempt c)).

(** A call of a method of [this.registry]. *)
Definition callRegistry {A} (m : M KeyRegistry KeyError A) : CM A :=
  zoom registry set_registry KeyErr m.

(** [assertProtocolNumber] of this file; its error is the clock error. *)
Definition assertClockNumber (value : jsnum) : CM Z :=
  match safeNonNeg value with
  | Some z => ret z
  | None => throw ERR_INVALID_PROTOCOL_CLOCK
  end.

Definition requireRotation (rotationId : string) : CM RotationRecord :=
  let! c := get in
  match rotations c !! rotationId with
  | Some record => ret record
  | None => throw ERR_UNKNOWN_ROTATION
  end.

(** ** INITIATE *)

Definition initiateBegin (input : InitiateRotationInput) : CM unit :=
  guard (negb (falsy (ir_validatorId input)) && negb (falsy (ir_newPublicKey input)))
    ERR_INVALID_ROTATION ;;;
  let! c := get in
  guard (negb (hasPublicKey (registry c) (ir_newPublicKey input)))
    (KeyErr (ERR_DUPLICATE_KEY (ir_newPublicKey input))).

(** The [catch] block of [initiate]. *)
Definition initiateRollback (reserved : bool) (validator newPk rotationId : string)
    : CM unit :=
  (if reserved then ignore (callRegistry (releasePendingKey validator newPk)) else ret tt) ;;;
  modify (set_rotations (delete rotationId)) ;;;
  let! c := get in
  if bool_decide (activeRotationByValidator c !! validator = Some rotationId)
  then modify (set_active (delete validator)) else ret tt.

Definition initiatedRecord (rotationId validator oldPk newPk : string)
    (epoch slot : Z) : RotationRecord :=
  mkRotationRecord rotationId validator oldPk newPk INITIATE epoch slot
    None None None None [] None [].

Definition initiateResume (input : InitiateRotationInput) (stake : Z)
    (clock : ClockReading) (generatedId : string) : CM RotationRecord :=
  let validator := ir_validatorId input in
  let newPk := ir_newPublicKey input in
  guard (MIN_ROTATION_STAKE <=? stake) ERR_INSUFFICIENT_ROTATION_STAKE ;;;
  let! initiatedEpoch := assertClockNumber (currentEpoch clock) in
  let! initiatedSlot := assertClockNumber (currentSlot clock) in
  let! c := get in
  guard (match activeRotationByValidator c !! validator with
         | Some conflicting => falsy conflicting
         | None => true
         end) ERR_ROTATION_IN_PROGRESS ;;;
  match getCurrentSigningKey (registry c) validator with
  | Some oldKey =>
      guard (bool_decide (state oldKey = ACTIVE) && signingEnabled oldKey)
        ERR_NO_ACTIVE_SIGNING_KEY ;;;
      let rotationId := default generatedId (ir_rotationId input) in
      guard (negb (falsy rotationId) && negb (map_has rotationId (rotations c)))
        ERR_ROTATION_ID_CONFLICT ;;;
      let record := initiatedRecord rotationId validator (publicKey oldKey) newPk
                      initiatedEpoch initiatedSlot in
      catch (ignore (callRegistry (reservePendingKey
               (mkReservePending validator newPk (JInt initiatedEpoch)))))
        (fun e => initiateRollback false validator newPk rotationId ;;; throw e) ;;;
      catch
        (modify (set_rotations <[rotationId := record]>) ;;;
         modify (set_active <[validator := rotationId]>) ;;;
         ret record)
        (fun e => initiateRollback true validator newPk rotationId ;;; throw e)
  | None => throw ERR_NO_ACTIVE_SIGNING_KEY
  end.

(** The whole method when nothing runs while the stake is fetched. *)
Definition initiate (input : InitiateRotationInput) (stake : Z)
    (clock : ClockReading) (generatedId : string) : CM RotationRecord :=
  initiateBegin input ;;; initiateResume input stake clock generatedId.

(** ** APPROVE *)

Definition rotationProposal (record : RotationRecord) : ValidatorKeyRotation :=
  mkRotation VALIDATOR_KEY_ROTATION_EVENT (rr_rotationId record)
    (rr_validatorId record) (rr_oldPublicKey record) (rr_newPublicKey record)
    (rr_initiatedEpoch record) (rr_initiatedSlot record).

(** What [approve] returns: a settled promise, the promise of the attempt in
    flight, or a new attempt that has sent its proposal to the committer. *)
Inductive ApproveCall :=
  | AlreadyPast (record : RotationRecord)
  | Joined (attempt : nat)
  | Started (attempt : nat) (proposal : ValidatorKeyRotation).

Definition approve (rotationId : string) : CM ApproveCall :=
  let! record := requireRotation rotationId in
  if negb (bool_decide (rr_phase record = INITIATE)) then ret (AlreadyPast record)
  else
    let! c := get in
    match approvalAttempts c !! rotationId with
    | Some attempt => ret (Joined attempt)
    | None =>
        modify (set_attempts <[rotationId := nextAttempt c]>) ;;;
        modify bump_attempt ;;;
        ret (Started (nextAttempt c) (rotationProposal record))
    end.

Definition attemptCleanup (rotationId : string) (attempt : nat) : CM unit :=
  let! c := get in
  if bool_decide (approvalAttempts c !! rotationId = Some attempt)
  then modify (set_attempts (delete rotationId)) else ret tt.

Definition approvedRecord (current : RotationRecord) (epoch : Z)
    (approvals : list string) (threshold : Z) (validators : list string) :=
  mkRotationRecord (rr_rotationId current) (rr_validatorId current)
    (rr_oldPublicKey current) (rr_newPublicKey current) APPROVE
    (rr_initiatedEpoch current) (rr_initiatedSlot current) (Some epoch)
    (rr_activatedEpoch current) (rr_activationSlot current)
    (rr_retiredEpoch current) approvals (Some threshold) validators.

Definition commitmentValid (rotationId : string) (commitment : RotationCommitResult)
    (expectedThreshold : Z) (activeValidatorIds approvals : list string) : bool :=
  bool_decide (rcr_rotationId commitment = rotationId)
  && (rcr_approvalThreshold commitment =? expectedThreshold)
  && (expectedThreshold <=? Z.of_nat (length approvals))
  && forallb (fun v => set_has v activeValidatorIds) approvals.

Definition persistApproval (rotationId : string) (commitment : RotationCommitResult)
    (clock : ClockReading) : CM RotationRecord :=
  let! current := requireRotation rotationId in
  if negb (bool_decide (rr_phase current = INITIATE)) then ret current
  else
    let activeValidatorIds := new_Set (rcr_activeValidatorIds commitment) in
    let approvals := new_Set (rcr_approvals commitment) in
    match calculateRotationApprovalThreshold
            (JInt (Z.of_nat (length activeValidatorIds))) with
    | inl e => throw (CommitErr e)
    | inr expectedThreshold =>
        guard (commitmentValid rotationId commitment expectedThreshold
                 activeValidatorIds approvals) ERR_INVALID_ROTATION_COMMITMENT ;;;
        let! approvedEpoch := assertClockNumber (currentEpoch clock) in
        let approved := approvedRecord current approvedEpoch approvals
                          expectedThreshold activeValidatorIds in
        modify (set_rotations <[rotationId := approved]>) ;;;
        ret approved
    end.

(** ** ACTIVATE *)

Definition activatedRecord (record : RotationRecord) (epoch slot : Z) :=
  mkRotationRecord (rr_rotationId record) (rr_validatorId record)
    (rr_oldPublicKey record) (rr_newPublicKey record) ACTIVATE
    (rr_initiatedEpoch record) (rr_initiatedSlot record)
    (rr_approvedEpoch record) (Some epoch) (Some slot)
    (rr_retiredEpoch record) (rr_approvals record) (rr_approvalThreshold record)
    (rr_approvalValidatorSet record).

Definition activate (rotationId : string) (clock : ClockReading) : CM RotationRecord :=
  let! record := requireRotation rotationId in
  if bool_decide (rr_phase record = ACTIVATE) || bool_decide (rr_phase record = RETIRE)
  then ret record
  else
    guard (bool_decide (rr_phase record = APPROVE)) ERR_ILLEGAL_ROTATION_TRANSITION ;;;
    let! activatedEpoch := assertClockNumber (currentEpoch clock) in
    let! activationSlot := assertClockNumber (currentSlot clock) in
    callRegistry (activateRotation (mkActivateRotation (rr_validatorId record)
      (rr_oldPublicKey record) (rr_newPublicKey record)
      (JInt activatedEpoch) (JInt activationSlot))) ;;;
    let activated := activatedRecord record activatedEpoch activationSlot in
    modify (set_rotations <[rotationId := activated]>) ;;;
    ret activated.

(** ** RETIRE *)

Definition retiredRecord (record : RotationRecord) (epoch : Z) :=
  mkRotationRecord (rr_rotationId record) (rr_validatorId record)
    (rr_oldPublicKey record) (rr_newPublicKey record) RETIRE
    (rr_initiatedEpoch record) (rr_initiatedSlot record)
    (rr_approvedEpoch record) (rr_activatedEpoch record) (rr_activationSlot record)
    (Some epoch) (rr_approvals record) (rr_approvalThreshold record)
    (rr_approvalValidatorSet record).

Definition retire (rotationId : string) (clock : ClockReading) : CM RotationRecord :=
  let! record := requireRotation rotationId in
  if bool_decide (rr_phase record = RETIRE) then ret record
  else
    match rr_activationSlot record with
    | Some activationSlot =>
        guard (bool_decide (rr_phase record = ACTIVATE)) ERR_ILLEGAL_ROTATION_TRANSITION ;;;
        let! slot := assertClockNumber (currentSlot clock) in
        let! retiredEpoch := assertClockNumber (currentEpoch clock) in
        guard (OLD_KEY_RETIREMENT_SLOTS <=? slot - activationSlot) ERR_RETIREMENT_DELAY ;;;
        callRegistry (retireKey (rr_validatorId record) (rr_oldPublicKey record)
          (JInt retiredEpoch)) ;;;
        let retired := retiredRecord record retiredEpoch in
        modify (set_rotations <[rotationId := retired]>) ;;;
        let! c := get in
        (if bool_decide (activeRotationByValidator c !! rr_validatorId record
                         = Some rotationId)
         then modify (set_active (delete (rr_validatorId record))) else ret tt) ;;;
        ret retired
    | None => throw ERR_ILLEGAL_ROTATION_TRANSITION
    end.

(** ** Queries *)

Definition getRotation (c : Ceremony) (rotationId : string) : option RotationRecord :=
  rotations c !! rotationId.

Definition listRotations (c : Ceremony) : list RotationRecord :=
  map_values (rotations c).

Definition ceremonyKey (c : Ceremony) (publicKey : string) : option KeyRecord :=
  getKey (registry c) publicKey.

(** ** Histories

    The event loop interleaves the halves of the methods freely; the registry
    is shared with the code that registers first keys. *)

Inductive CeremonyEvent :=
  | EvRegister (input : RegisterActiveKeyInput)
  | EvInitiateBegin (input : InitiateRotationInput)
  | EvInitiateResume (input : InitiateRotationInput) (stake : Z)
      (clock : ClockReading) (generatedId : string)
  | EvApproveRotation (rotationId : string)
  | EvPersist (rotationId : string) (commitment : RotationCommitResult)
      (clock : ClockReading)
  | EvAttemptCleanup (rotationId : string) (attempt : nat)
  | EvActivate (rotationId : string) (clock : ClockReading)
  | EvRetire (rotationId : string) (clock : ClockReading).

Definition runCeremony (ev : CeremonyEvent) : CM unit :=
  match ev with
  | EvRegister input => ignore (callRegistry (registerActiveKey input))
  | EvInitiateBegin input => initiateBegin input
  | EvInitiateResume input stake clock gid =>
      ignore (initiateResume input stake clock gid)
  | EvApproveRotation i => ignore (approve i)
  | EvPersist i commitment clock => ignore (persistApproval i commitment clock)
  | EvAttemptCleanup i a => attemptCleanup i a
  | EvActivate i clock => ignore (activate i clock)
  | EvRetire i clock => ignore (retire i clock)
  end.

Definition runCeremonies (evs : list CeremonyEvent) (c : Ceremony) : Ceremony :=
  foldl (fun c ev => fst (runCeremony ev c)) c evs.

(** ** What a rotation record says about the registry *)

(** The old key of a finished rotation. *)
Definition retiredKey (pk v : string) (r : KeyRegistry) : Prop :=
  exists k, keysByPublicKey r !! pk = Some k /\ validatorId k = v /\
            state k = RETIRED.

Lemma RegStep_retired pk v r r' :
  RegStep r r' -> RegInv r -> retiredKey pk v r -> retiredKey pk v r'.
Proof.
  unfold retiredKey.
  destruct 1; intros HI (k0 & Hk0 & Hv & Hs);
    repeat match goal with
    | H : checkOldKey _ _ _ = inr _ |- _ => apply checkOldKey_inr in H as (?&?&?&?&?)
    | H : checkNewKey _ _ _ = inr _ |- _ => apply checkNewKey_inr in H as (?&?&?&?)
    end; cbn in *; jsmap_cases; eauto; congruence.
Qed.

Definition recordOk (r : KeyRegistry) (rec : RotationRecord) : Prop :=
  match rr_phase rec with
  | INITIATE | APPROVE =>
      exists o n, checkOldKey r (rr_validatorId rec) (rr_oldPublicKey rec) = inr o /\
                  checkNewKey r (rr_validatorId rec) (rr_newPublicKey rec) = inr n
  | ACTIVATE =>
      exists e s keys,
        rr_activatedEpoch rec = Some e /\ rr_activationSlot rec = Some s /\
        0 <= s <= MAX_SAFE_INTEGER /\
        alreadyActivated r (rr_validatorId rec) (rr_oldPublicKey rec)
          (rr_newPublicKey rec) = Some keys /\
        sameCoordinates keys e s = true
  | RETIRE => retiredKey (rr_oldPublicKey rec) (rr_validatorId rec) r
  end.

Definition approvalsOk (rec : RotationRecord) : Prop :=
  rr_phase rec <> INITIATE ->
  is_Some (rr_approvedEpoch rec) /\
  exists t, rr_approvalThreshold rec = Some t /\
            Quorum (rr_approvalValidatorSet rec) (rr_approvals rec) t /\
            calculateRotationApprovalThreshold
              (JInt (Z.of_nat (length (rr_approvalValidatorSet rec)))) = inr t.

(** *** Registry updates on behalf of one validator *)

(** [r'] differs from [r] only in keys and indexes of [v]. *)
Record Frame (v : string) (r r' : KeyRegistry) : Prop := {
  fr_keys : forall pk k, keysByPublicKey r !! pk = Some k -> validatorId k <> v ->
    keysByPublicKey r' !! pk = Some k;
  fr_current : forall v', v' <> v ->
    currentSigningKeyByValidator r' !! v' = currentSigningKeyByValidator r !! v';
  fr_pending : forall v', v' <> v ->
    pendingKeyByValidator r' !! v' = pendingKeyByValidator r !! v'
}.

Lemma Frame_refl v r : Frame v r r.
Proof. by split. Qed.

Ltac frame_tac :=
  split; cbn; intros; jsmap_cases; congruence.

Lemma Frame_addSigningKey k r :
  keysByPublicKey r !! publicKey k = None -> Frame (validatorId k) r (addSigningKey k r).
Proof. intros. frame_tac. Qed.

Lemma Frame_addPendingKey k r :
  keysByPublicKey r !! publicKey k = None -> Frame (validatorId k) r (addPendingKey k r).
Proof. intros. frame_tac. Qed.

Lemma Frame_switch v oldPk newPk o n o' n' r :
  checkOldKey r v oldPk = inr o -> checkNewKey r v newPk = inr n ->
  Frame v r (switchSigningKey v oldPk newPk o' n' r).
Proof. intros (?&?&?&?&?)%checkOldKey_inr (?&?&?&?)%checkNewKey_inr. frame_tac. Qed.

Lemma Frame_retire pk k k' r :
  keysByPublicKey r !! pk = Some k ->
  Frame (validatorId k) r (KeyRegistry.set_keys <[pk := k']> r).
Proof. intros. frame_tac. Qed.

Lemma alreadyActivated_Some r v oldPk newPk o n :
  alreadyActivated r v oldPk newPk = Some (o, n) <->
  keysByPublicKey r !! oldPk = Some o /\ keysByPublicKey r !! newPk = Some n /\
  validatorId o = v /\ validatorId n = v /\ state o = ACTIVE /\
  signingEnabled o = false /\ state n = ACTIVE /\ signingEnabled n = true /\
  currentSigningKeyByValidator r !! v = Some newPk.
Proof.
  unfold alreadyActivated. split.
  - intros. repeat case_match; simplify_eq; bool_props. done.
  - intros (-> & -> & -> & -> & -> & -> & -> & -> & ->). by rewrite !bool_decide_true.
Qed.

Lemma recordOk_frame v r r' rec :
  Frame v r r' -> rr_validatorId rec <> v -> recordOk r rec -> recordOk r' rec.
Proof.
  intros [Fk Fc Fp] Hne. unfold recordOk.
  assert (H2 : forall o n,
    checkOldKey r (rr_validatorId rec) (rr_oldPublicKey rec) = inr o ->
    checkNewKey r (rr_validatorId rec) (rr_newPublicKey rec) = inr n ->
    checkOldKey r' (rr_validatorId rec) (rr_oldPublicKey rec) = inr o /\
    checkNewKey r' (rr_validatorId rec) (rr_newPublicKey rec) = inr n).
  { intros o n (?&Ho&?&?&?)%checkOldKey_inr (?&Hn&?&?)%checkNewKey_inr.
    rewrite checkOldKey_inr, checkNewKey_inr, Fc, Fp by done.
    split_and!; auto; apply Fk; congruence. }
  destruct (rr_phase rec).
  - naive_solver.
  - naive_solver.
  - intros (e & s & [o n] & ?&?&? & (?&?&E1&E2&?&?&?&?&?)%alreadyActivated_Some & ?).
    exists e, s, (o, n). rewrite alreadyActivated_Some, Fc by done.
    split_and!; try apply Fk; auto; try congruence; lia.
  - intros (k & ? & ? & ?). exists k. split_and!; auto. apply Fk; congruence.
Qed.

(** ** The ceremony invariant *)

Record CInv (c : Ceremony) : Prop := {
  ci_registry : RegInv (registry c);
  ci_record : forall i rec, rotations c !! i = Some rec ->
    rr_rotationId rec = i /\ i <> "" /\
    rr_oldPublicKey rec <> rr_newPublicKey rec /\
    recordOk (registry c) rec /\ approvalsOk rec;
  ci_active : forall v i, activeRotationByValidator c !! v = Some i ->
    exists rec, rotations c !! i = Some rec /\ rr_validatorId rec = v /\
                rr_phase rec <> RETIRE;
  ci_live : forall i rec, rotations c !! i = Some rec -> rr_phase rec <> RETIRE ->
    activeRotationByValidator c !! rr_validatorId rec = Some i
}.

Lemma CInv_new r : RegInv r -> CInv (new_RotationCeremony r).
Proof. by split. Qed.

Lemma CInv_attempts c a n :
  CInv c -> CInv (mkCeremony (registry c) (rotations c) (activeRotationByValidator c) a n).
Proof. by intros []; split. Qed.

(** Two live rotations of one validator are the same. *)
Lemma live_unique c i j ri rj :
  CInv c -> rotations c !! i = Some ri -> rotations c !! j = Some rj ->
  rr_phase ri <> RETIRE -> rr_phase rj <> RETIRE ->
  rr_validatorId ri = rr_validatorId rj -> i = j.
Proof.
  intros HI Hi Hj Pi Pj E.
  apply (ci_live c HI) in Hi; [|done]. apply (ci_live c HI) in Hj; [|done]. congruence.
Qed.

(** The registry changes for [v] while no rotation of [v] but [i] is live. *)
Lemma recordOk_others c v r' i j rec :
  CInv c -> Frame v (registry c) r' -> RegStep (registry c) r' ->
  (forall k rk, rotations c !! k = Some rk -> rr_validatorId rk = v ->
     rr_phase rk <> RETIRE -> k = i) ->
  rotations c !! j = Some rec -> j <> i -> recordOk r' rec.
Proof.
  intros HI Hf Hstep Hlive Hj Hne.
  destruct (ci_record c HI j rec Hj) as (_ & _ & _ & Hok & _).
  destruct (decide (rr_validatorId rec = v)) as [Hv|]; [|by eapply recordOk_frame].
  destruct (decide (rr_phase rec = RETIRE)) as [E|E];
    [|by destruct Hne; eauto].
  unfold recordOk in *. rewrite E in *.
  eapply RegStep_retired; eauto. apply (ci_registry c HI).
Qed.

Definition sameIdentity (rec rec' : RotationRecord) : Prop :=
  rr_rotationId rec' = rr_rotationId rec /\ rr_validatorId rec' = rr_validatorId rec /\
  rr_oldPublicKey rec' = rr_oldPublicKey rec /\
  rr_newPublicKey rec' = rr_newPublicKey rec.

(** A live rotation moves on. *)
Lemma CInv_advance c i rec rec' r' :
  CInv c -> rotations c !! i = Some rec -> rr_phase rec <> RETIRE ->
  sameIdentity rec rec' ->
  Frame (rr_validatorId rec) (registry c) r' -> RegStep (registry c) r' ->
  recordOk r' rec' -> approvalsOk rec' ->
  CInv (mkCeremony r' (<[i := rec']> (rotations c))
          (if decide (rr_phase rec' = RETIRE)
           then delete (rr_validatorId rec) (activeRotationByValidator c)
           else activeRotationByValidator c)
          (approvalAttempts c) (nextAttempt c)).
Proof.
  intros HI Hi Hlive (Ei & Ev & Eo & En) Hf Hstep Hok Hap.
  destruct (ci_record c HI i rec Hi) as (Hid & Hne & Hon & _).
  assert (Huniq : forall j rj, rotations c !! j = Some rj ->
    rr_validatorId rj = rr_validatorId rec -> rr_phase rj <> RETIRE -> j = i)
    by (intros; eapply live_unique; eauto).
  split; cbn.
  - eapply RegStep_inv; [done|apply (ci_registry c HI)].
  - intros j rj Hj. jsmap_cases; [split_and!; auto; congruence|].
    destruct (ci_record c HI j rj Hj) as (?&?&?&_&?). split_and!; auto.
    by eapply recordOk_others.
  - intros v j Hj.
    assert (Hj' : activeRotationByValidator c !! v = Some j)
      by (case_decide; jsmap_cases; done).
    destruct (ci_active c HI v j Hj') as (rj & Hrj & Hv & Hp).
    destruct (decide (i = j)) as [->|Hij].
    + simplify_eq. exists rec'. rewrite jsmap_lookup_insert_eq.
      split_and!; auto. intros E. rewrite decide_True in Hj by done. jsmap_cases; done.
    + exists rj. by rewrite jsmap_lookup_insert_ne.
  - intros j rj Hj Hp. jsmap_cases.
    + rewrite decide_False by done. rewrite Ev. by apply (ci_live c HI).
    + assert (rr_validatorId rj <> rr_validatorId rec) by naive_solver.
      case_decide; [rewrite jsmap_lookup_delete_ne by done|]; by apply (ci_live c HI).
Qed.

(** A new rotation starts. *)
Lemma CInv_initiate c i v oldPk newPk epoch slot r' :
  CInv c -> i <> "" -> rotations c !! i = None ->
  activeRotationByValidator c !! v = None -> oldPk <> newPk ->
  Frame v (registry c) r' -> RegStep (registry c) r' ->
  recordOk r' (initiatedRecord i v oldPk newPk epoch slot) ->
  CInv (mkCeremony r' (<[i := initiatedRecord i v oldPk newPk epoch slot]> (rotations c))
          (<[v := i]> (activeRotationByValidator c)) (approvalAttempts c) (nextAttempt c)).
Proof.
  intros HI Hne Hfree Hact Hon Hf Hstep Hok.
  assert (Huniq : forall j rj, rotations c !! j = Some rj -> rr_validatorId rj = v ->
    rr_phase rj <> RETIRE -> j = i).
  { intros j rj Hj Hv Hp. apply (ci_live c HI) in Hj; [|done]. congruence. }
  split; cbn.
  - eapply RegStep_inv; [done|apply (ci_registry c HI)].
  - intros j rj Hj. jsmap_cases; [by split_and!|].
    destruct (ci_record c HI j rj Hj) as (?&?&?&_&?). split_and!; auto.
    eapply recordOk_others; eauto.
  - intros w j Hj. rewrite jsmap_lookup_insert in Hj. case_decide; simplify_eq.
    + eexists. rewrite jsmap_lookup_insert_eq. by split_and!.
    + destruct (ci_active c HI w j Hj) as (rj & Hrj & ? & ?). exists rj.
      by rewrite jsmap_lookup_insert_ne by congruence.
  - intros j rj Hj Hp. rewrite jsmap_lookup_insert in Hj. case_decide; simplify_eq.
    { apply jsmap_lookup_insert_eq. }
    rewrite jsmap_lookup_insert_ne; [by apply (ci_live c HI)|].
    intros E. symmetry in E. apply (Huniq _ _ Hj) in E; congruence.
Qed.

(** A first key is registered for a validator with none. *)
Lemma CInv_register c v r' :
  CInv c -> currentSigningKeyByValidator (registry c) !! v = None ->
  Frame v (registry c) r' -> RegStep (registry c) r' ->
  CInv (set_registry r' c).
Proof.
  intros HI Hcur Hf Hstep. split; cbn; try apply HI.
  - eapply RegStep_inv; [done|apply (ci_registry c HI)].
  - intros j rj Hj. destruct (ci_record c HI j rj Hj) as (?&?&?&Hok&?).
    split_and!; auto. apply (recordOk_others c v r' "" j); auto.
    intros k rk Hk <- Hp. exfalso.
    destruct (ci_record c HI k rk Hk) as (_&_&_&Hk'&_). unfold recordOk in Hk'.
    destruct (rr_phase rk); try done.
    + destruct Hk' as (o & n & (?&?&?&?&?)%checkOldKey_inr & _). congruence.
    + destruct Hk' as (o & n & (?&?&?&?&?)%checkOldKey_inr & _). congruence.
    + destruct Hk' as (e & s & [o n] & _ & _ & _ & Ha & _).
      apply alreadyActivated_Some in Ha as (_&_&_&_&_&_&_&_&?). congruence.
Qed.

(** ** Methods *)

Lemma wp_assertClockNumber n Q X c :
  wp (assertClockNumber n) Q X c =
  match safeNonNeg n with
  | Some z => Q z c
  | None => X ERR_INVALID_PROTOCOL_CLOCK c
  end.
Proof. unfold assertClockNumber. by destruct (safeNonNeg n). Qed.

Lemma wp_requireRotation i Q X c :
  wp (requireRotation i) Q X c =
  match rotations c !! i with
  | Some rec => Q rec c
  | None => X ERR_UNKNOWN_ROTATION c
  end.
Proof. unfold requireRotation. wp_simpl. by destruct (rotations c !! i). Qed.

Lemma wp_callRegistry {A} (m : M KeyRegistry KeyError A) Q X c :
  wp (callRegistry m) Q X c =
  wp m (fun a r => Q a (set_registry r c)) (fun e r => X (KeyErr e) (set_registry r c))
    (registry c).
Proof. apply wp_zoom. Qed.
#[export] Hint Rewrite wp_assertClockNumber wp_requireRotation @wp_callRegistry : wp.

Lemma set_registry_same c : set_registry (registry c) c = c.
Proof. destruct c. reflexivity. Qed.

Lemma safeNonNeg_JInt n z : safeNonNeg n = Some z -> safeNonNeg (JInt z) = Some z.
Proof. intros [-> ?]%safeNonNeg_Some. by apply safeNonNeg_Some. Qed.

Lemma getCurrentSigningKey_Some r v k :
  RegInv r -> getCurrentSigningKey r v = Some k ->
  currentSigningKeyByValidator r !! v = Some (publicKey k) /\
  keysByPublicKey r !! publicKey k = Some k /\ validatorId k = v /\
  state k = ACTIVE /\ signingEnabled k = true.
Proof.
  intros HI. unfold getCurrentSigningKey, getKey.
  destruct (currentSigningKeyByValidator r !! v) as [pk|] eqn:Hc; [|done].
  destruct (falsy pk); [done|]. intros Hk.
  destruct (inv_current r HI v pk Hc) as (k' & Hk' & ? & ? & ?).
  destruct (inv_keyed r HI pk k Hk) as [<- _]. naive_solver.
Qed.

(** The active index never holds the empty id. *)
Lemma active_free c v :
  CInv c ->
  match activeRotationByValidator c !! v with
  | Some conflicting => falsy conflicting
  | None => true
  end = true -> activeRotationByValidator c !! v = None.
Proof.
  intros HI. destruct (activeRotationByValidator c !! v) as [i|] eqn:Ha; [|done].
  destruct (ci_active c HI v i Ha) as (rec & Hr & _).
  destruct (ci_record c HI i rec Hr) as (_ & Hne & _).
  unfold falsy. by rewrite bool_decide_false.
Qed.

(** A successful [initiate] reserves the new key and opens the rotation; a
    failing one, its [catch] block included, leaves everything as it was. *)
Lemma initiateResume_wp input stake clock gid c :
  CInv c ->
  wp (initiateResume input stake clock gid)
    (fun rec c' => CInv c' /\ rr_phase rec = INITIATE /\
       rotations c' !! rr_rotationId rec = Some rec)
    (fun _ c' => c' = c) c.
Proof.
  intros HI. unfold initiateResume. wp_simpl.
  destruct (MIN_ROTATION_STAKE <=? stake); [|done]. wp_simpl.
  destruct (safeNonNeg (currentEpoch clock)) as [epoch|] eqn:He; [|done]. wp_simpl.
  destruct (safeNonNeg (currentSlot clock)) as [slot|]; [|done]. wp_simpl.
  match goal with |- context [if ?b then _ else _] => destruct b eqn:Hb end; [|done].
  apply active_free in Hb as Hact; [|done].
  destruct (getCurrentSigningKey _ _) as [oldKey|] eqn:Hold; wp_simpl; [|done].
  apply getCurrentSigningKey_Some in Hold as (Hcur & Hkey & Hval & Hst & Hsig);
    [|apply (ci_registry c HI)].
  rewrite Hst, Hsig. cbn [andb bool_decide]. rewrite bool_decide_true by done. cbn [andb].
  set (i := default gid (ir_rotationId input)).
  destruct (negb (falsy i) && negb (map_has i (rotations c))) eqn:Hi; [|done].
  bool_props. apply map_has_false in H0 as Hfree.
  assert (i <> "") as Hne by (unfold falsy in *; bool_props; done).
  wp_simpl. eapply wp_mono; [| |apply reservePendingKey_wp].
  - intros k r' (-> & Hstep & Hnk & Hnp & e' & Hrange & ->). wp_simpl.
    cbn [rpk_validatorId rpk_publicKey] in *.
    split; [|split; [done|by cbn; jsmap_simpl]].
    apply (CInv_initiate c i (ir_validatorId input) (publicKey oldKey)
             (ir_newPublicKey input) epoch slot); auto; [congruence| |].
    + by apply (Frame_addPendingKey
        (mkKeyRecord (ir_validatorId input) (ir_newPublicKey input) PENDING
           e' None None None None None false)).
    + unfold recordOk. cbn.
      eexists oldKey, _. rewrite checkOldKey_inr, checkNewKey_inr. cbn.
      jsmap_cases; [congruence|]. by split_and!.
  - intros e r' ->. unfold initiateRollback. rewrite set_registry_same. wp_simpl.
    cbn. rewrite Hact, bool_decide_false by done. wp_simpl.
    unfold set_rotations.
    rewrite jsmap_delete_notin by done. destruct c. reflexivity.
Qed.

(** An accepted commitment is a quorum, whatever the committer sent. *)
Lemma commitmentValid_quorum i commitment t :
  let active := new_Set (rcr_activeValidatorIds commitment) in
  let approvals := new_Set (rcr_approvals commitment) in
  calculateRotationApprovalThreshold (JInt (Z.of_nat (length active))) = inr t ->
  commitmentValid i commitment t active approvals = true ->
  Quorum active approvals t.
Proof.
  intros active approvals [Hn ->]%calculate_inr Hv.
  unfold commitmentValid in Hv. bool_props. split_and!; auto.
  - unfold active. apply NoDup_new_Set.
  - intros E. rewrite E in Hn. cbn in Hn. lia.
  - unfold approvals. apply NoDup_new_Set.
  - intros v Hin. eapply forallb_forall in H0; [|by apply list_elem_of_In].
    unfold set_has in H0. by bool_props.
Qed.

(** Conversely, every quorum for the right rotation is accepted. *)
Lemma quorum_commitmentValid commitment :
  goodResult commitment ->
  let active := new_Set (rcr_activeValidatorIds commitment) in
  let approvals := new_Set (rcr_approvals commitment) in
  let t := rcr_approvalThreshold commitment in
  (Z.of_nat (length active) <= MAX_SAFE_INTEGER) ->
  calculateRotationApprovalThreshold (JInt (Z.of_nat (length active))) = inr t /\
  commitmentValid (rcr_rotationId commitment) commitment t active approvals = true.
Proof.
  unfold goodResult. intros (Ha & Hne & Ht & Hl & Hs & Hle).
  cbn zeta. rewrite !new_Set_NoDup by done. intros Hsafe. split.
  - unfold calculateRotationApprovalThreshold, isSafeInteger, isSafeZ.
    destruct (Z.leb_spec (Z.abs (Z.of_nat (length (rcr_activeValidatorIds commitment))))
                MAX_SAFE_INTEGER); [|lia].
    destruct (rcr_activeValidatorIds commitment) as [|x l] eqn:E; [done|].
    cbn [length] in *. destruct (Z.leb_spec (Z.of_nat (S (length l))) 0); [lia|].
    by rewrite Ht.
  - unfold commitmentValid. rewrite bool_decide_true, Z.eqb_refl by done.
    rewrite (proj2 (Z.leb_le _ _)) by done. cbn. apply forallb_forall.
    intros v Hv%list_elem_of_In. unfold set_has. apply bool_decide_eq_true. auto.
Qed.

Lemma sameIdentity_approved rec epoch l t vs :
  sameIdentity rec (approvedRecord rec epoch l t vs).
Proof. done. Qed.

Lemma phase_live rec p : rr_phase rec = p -> p <> RETIRE -> rr_phase rec <> RETIRE.
Proof. by intros ->. Qed.

Lemma persistApproval_wp i commitment clock c :
  CInv c ->
  wp (persistApproval i commitment clock)
    (fun rec c' => CInv c' /\ rotations c' !! i = Some rec)
    (fun _ c' => c' = c) c.
Proof.
  intros HI. unfold persistApproval. wp_simpl.
  destruct (rotations c !! i) as [rec|] eqn:Hi; [|done].
  destruct (bool_decide (rr_phase rec = INITIATE)) eqn:Hp; cbn; wp_simpl; [|done].
  destruct (calculateRotationApprovalThreshold _) as [e|t] eqn:Ht; wp_simpl; [done|].
  destruct (commitmentValid _ _ _ _ _) eqn:Hv; [|done]. wp_simpl.
  destruct (safeNonNeg (currentEpoch clock)) as [epoch|] eqn:He; [|done]. wp_simpl.
  bool_props. destruct (ci_record c HI i rec Hi) as (_ & _ & _ & Hok & _).
  split; [|cbn; by jsmap_simpl].
  refine (CInv_advance c i rec _ (registry c) HI Hi (phase_live _ _ Hp ltac:(done))
           (sameIdentity_approved _ _ _ _ _) (Frame_refl _ _) (step_none _) _ _).
  - unfold recordOk in *. rewrite Hp in Hok. exact Hok.
  - intros _. split; [done|]. eexists. split; [done|].
    split; [by eapply commitmentValid_quorum|exact Ht].
Qed.

(** ACTIVATE, on a rotation whose keys are prepared. *)
Lemma activate_eq i rec o n epoch slot clock c :
  rotations c !! i = Some rec -> rr_phase rec = APPROVE ->
  checkOldKey (registry c) (rr_validatorId rec) (rr_oldPublicKey rec) = inr o ->
  checkNewKey (registry c) (rr_validatorId rec) (rr_newPublicKey rec) = inr n ->
  safeNonNeg (currentEpoch clock) = Some epoch ->
  safeNonNeg (currentSlot clock) = Some slot ->
  activate i clock c =
  (mkCeremony
     (switchSigningKey (rr_validatorId rec) (rr_oldPublicKey rec) (rr_newPublicKey rec)
        (deactivated o epoch slot) (KeyRegistry.activated n epoch slot) (registry c))
     (<[i := activatedRecord rec epoch slot]> (rotations c))
     (activeRotationByValidator c) (approvalAttempts c) (nextAttempt c),
   inr (activatedRecord rec epoch slot)).
Proof.
  intros Hi Hp Ho Hn He Hs.
  unfold activate, requireRotation, assertClockNumber, callRegistry, zoom.
  unfold bind, get, ret. rewrite Hi, Hp. simpl_decide. cbn -[activateRotation]. rewrite He, Hs.
  apply safeNonNeg_Some in He as [_ He], Hs as [_ Hs].
  by rewrite (activateRotation_switch _ _ _ _ o n).
Qed.

Lemma CInv_activate i rec o n epoch slot c :
  CInv c -> rotations c !! i = Some rec -> rr_phase rec = APPROVE ->
  checkOldKey (registry c) (rr_validatorId rec) (rr_oldPublicKey rec) = inr o ->
  checkNewKey (registry c) (rr_validatorId rec) (rr_newPublicKey rec) = inr n ->
  0 <= slot <= MAX_SAFE_INTEGER ->
  CInv (mkCeremony
     (switchSigningKey (rr_validatorId rec) (rr_oldPublicKey rec) (rr_newPublicKey rec)
        (deactivated o epoch slot) (KeyRegistry.activated n epoch slot) (registry c))
     (<[i := activatedRecord rec epoch slot]> (rotations c))
     (activeRotationByValidator c) (approvalAttempts c) (nextAttempt c)).
Proof.
  intros HI Hi Hp Ho Hn Hs.
  refine (CInv_advance c i rec (activatedRecord rec epoch slot) _ HI Hi
           (phase_live _ _ Hp ltac:(done)) ltac:(done) (Frame_switch _ _ _ _ _ _ _ _ Ho Hn)
           (step_activate _ _ _ _ _ _ epoch slot Ho Hn) _ _).
  - destruct (alreadyActivated_switch _ _ _ _ _ _ epoch slot Ho Hn) as [Ha Hc].
    exists epoch, slot, (deactivated o epoch slot, KeyRegistry.activated n epoch slot).
    cbn. split_and!; try done; lia.
  - destruct (ci_record c HI i rec Hi) as (_ & _ & _ & _ & Hap).
    intros _. apply Hap. by rewrite Hp.
Qed.

Lemma recordOk_prepared c i rec :
  CInv c -> rotations c !! i = Some rec -> rr_phase rec = APPROVE ->
  exists o n,
    checkOldKey (registry c) (rr_validatorId rec) (rr_oldPublicKey rec) = inr o /\
    checkNewKey (registry c) (rr_validatorId rec) (rr_newPublicKey rec) = inr n.
Proof.
  intros HI Hi Hp. destruct (ci_record c HI i rec Hi) as (_ & _ & _ & Hok & _).
  unfold recordOk in Hok. by rewrite Hp in Hok.
Qed.

Lemma activate_wp i clock c :
  CInv c -> wp (activate i clock)
    (fun rec c' => CInv c' /\ rotations c' !! i = Some rec) (fun _ c' => c' = c) c.
Proof.
  intros HI. destruct (rotations c !! i) as [rec|] eqn:Hi;
    [|unfold activate; wp_simpl; by rewrite Hi].
  destruct (decide (rr_phase rec = APPROVE)) as [Hp|Hp].
  - destruct (recordOk_prepared c i rec HI Hi Hp) as (o & n & Ho & Hn).
    destruct (safeNonNeg (currentEpoch clock)) as [e|] eqn:He;
      [destruct (safeNonNeg (currentSlot clock)) as [s|] eqn:Hs|].
    + unfold wp. rewrite (activate_eq i rec o n e s clock c Hi Hp Ho Hn He Hs).
      apply safeNonNeg_Some in Hs as [_ Hs]. cbn. jsmap_simpl.
      split; [by apply CInv_activate|done].
    + unfold activate. wp_simpl. rewrite Hi, Hp. simpl_decide. wp_simpl. rewrite He. wp_simpl.
      by rewrite Hs.
    + unfold activate. wp_simpl. rewrite Hi, Hp. simpl_decide. wp_simpl. by rewrite He.
  - unfold activate. wp_simpl. rewrite Hi. wp_cases; bool_props; try done.
Qed.

(** RETIRE, once the waiting period is over. *)
Lemma retire_eq i rec epoch slot s0 clock c :
  CInv c -> rotations c !! i = Some rec -> rr_phase rec = ACTIVATE ->
  rr_activationSlot rec = Some s0 ->
  safeNonNeg (currentEpoch clock) = Some epoch ->
  safeNonNeg (currentSlot clock) = Some slot ->
  OLD_KEY_RETIREMENT_SLOTS <= slot - s0 ->
  exists c', retire i clock c = (c', inr (retiredRecord rec epoch)) /\ CInv c' /\
    rotations c' = <[i := retiredRecord rec epoch]> (rotations c) /\
    activeRotationByValidator c'
    = delete (rr_validatorId rec) (activeRotationByValidator c).
Proof.
  intros HI Hi Hp Hs0 He Hs Hdelay.
  destruct (ci_record c HI i rec Hi) as (_ & _ & _ & Hok & Hap).
  unfold recordOk in Hok. rewrite Hp in Hok.
  destruct Hok as (e & s & [o n] & _ & _ & _ & Ha & Hc).
  apply alreadyActivated_Some in Ha as (Ho & _ & Hv & _ & Hst & Hsig & _).
  unfold sameCoordinates in Hc. cbn in Hc. bool_props.
  assert (Hlive := ci_live c HI i rec Hi (phase_live _ _ Hp ltac:(done))).
  assert (HeZ := He). apply safeNonNeg_Some in HeZ as [_ HeZ].
  eexists. split; [|split; [|split]].
  - unfold retire, requireRotation, assertClockNumber, callRegistry, zoom.
    unfold bind, get, ret. rewrite Hi, Hp. simpl_decide. cbn -[retireKey]. rewrite Hs0, He, Hs.
    rewrite (proj2 (Z.leb_le _ _) Hdelay). cbn -[retireKey].
    rewrite (retireKey_deactivated _ _ _ o) by (eauto; done). cbn.
    rewrite Hlive, bool_decide_true by done. reflexivity.
  - refine (CInv_advance c i rec (retiredRecord rec epoch) _ HI Hi
             (phase_live _ _ Hp ltac:(done)) ltac:(done) _
             (step_retire _ _ o epoch Ho Hst Hsig) _ _).
    + rewrite <- Hv. by apply Frame_retire.
    + eexists. cbn. rewrite jsmap_lookup_insert_eq. by split_and!.
    + intros _. apply Hap. by rewrite Hp.
  - done.
  - done.
Qed.

Lemma retire_early i rec epoch slot s0 clock c :
  rotations c !! i = Some rec -> rr_phase rec = ACTIVATE ->
  rr_activationSlot rec = Some s0 ->
  safeNonNeg (currentEpoch clock) = Some epoch ->
  safeNonNeg (currentSlot clock) = Some slot ->
  slot - s0 < OLD_KEY_RETIREMENT_SLOTS ->
  retire i clock c = (c, inl ERR_RETIREMENT_DELAY).
Proof.
  intros Hi Hp Hs0 He Hs Hd. unfold retire, requireRotation, assertClockNumber.
  unfold bind, get, ret. rewrite Hi, Hp. simpl_decide. cbn -[retireKey].
  rewrite Hs0, He, Hs. by rewrite (proj2 (Z.leb_gt _ _)) by lia.
Qed.

Lemma retire_wp i clock c :
  CInv c -> wp (retire i clock)
    (fun rec c' => CInv c' /\ rotations c' !! i = Some rec) (fun _ c' => c' = c) c.
Proof.
  intros HI. destruct (rotations c !! i) as [rec|] eqn:Hi;
    [|unfold retire; wp_simpl; by rewrite Hi].
  destruct (decide (rr_phase rec = ACTIVATE)) as [Hp|Hp].
  2:{ unfold retire. wp_simpl. rewrite Hi. wp_cases; bool_props; try done. }
  destruct (rr_activationSlot rec) as [s0|] eqn:Hs0.
  2:{ unfold retire. wp_simpl. rewrite Hi, Hp, Hs0. simpl_decide. by wp_simpl. }
  destruct (safeNonNeg (currentSlot clock)) as [s|] eqn:Hs.
  2:{ unfold retire. wp_simpl. rewrite Hi, Hp, Hs0. simpl_decide. wp_simpl. by rewrite Hs. }
  destruct (safeNonNeg (currentEpoch clock)) as [e|] eqn:He.
  2:{ unfold retire. wp_simpl. rewrite Hi, Hp, Hs0. simpl_decide. wp_simpl. rewrite Hs. wp_simpl.
      by rewrite He. }
  destruct (Z.le_gt_cases OLD_KEY_RETIREMENT_SLOTS (s - s0)) as [Hd|Hd].
  - destruct (retire_eq i rec e s s0 clock c HI Hi Hp Hs0 He Hs Hd)
      as (c' & E & HI' & Hr & _).
    unfold wp. rewrite E, Hr. jsmap_simpl. done.
  - unfold wp. by rewrite (retire_early i rec e s s0 clock c) by (done || lia).
Qed.

Lemma approve_wp i c :
  CInv c -> wp (approve i) (fun _ => CInv) (fun _ c' => c' = c) c.
Proof.
  intros HI. unfold approve. wp_cases; try done; exact (CInv_attempts c _ _ HI).
Qed.

(** Every event keeps the invariant, and a throw changes nothing. *)
Lemma runCeremony_wp ev c :
  CInv c -> wp (runCeremony ev) (fun _ => CInv) (fun _ c' => c' = c) c.
Proof.
  intros HI. destruct ev; cbn [runCeremony]; wp_simpl.
  - eapply wp_mono; [| |apply registerActiveKey_wp].
    + intros k r' (-> & Hstep & Hk & Hc & _). cbn.
      apply (CInv_register c (validatorId k)); auto. by apply Frame_addSigningKey.
    + intros e r' ->. apply set_registry_same.
  - unfold initiateBegin. wp_cases; done.
  - eapply wp_mono; [| |apply initiateResume_wp, HI]; naive_solver.
  - by apply approve_wp.
  - eapply wp_mono; [| |apply persistApproval_wp, HI]; naive_solver.
  - unfold attemptCleanup. wp_cases; try done; exact (CInv_attempts c _ _ HI).
  - eapply wp_mono; [| |apply activate_wp, HI]; naive_solver.
  - eapply wp_mono; [| |apply retire_wp, HI]; naive_solver.
Qed.

Lemma CInv_run evs c : CInv c -> CInv (runCeremonies evs c).
Proof.
  revert c. induction evs as [|ev evs IH]; intros c HI; [done|]. cbn. apply IH.
  pose proof (runCeremony_wp ev c HI) as H. unfold wp in H.
  destruct (runCeremony ev c) as [c' [e|[]]]; cbn; by subst.
Qed.

(** ** Phases move forward, one at a time *)

Definition nextPhase (p : RotationPhase) : option RotationPhase :=
  match p with
  | INITIATE => Some APPROVE
  | APPROVE => Some ACTIVATE
  | ACTIVATE => Some RETIRE
  | RETIRE => None
  end.

Definition phaseStep (rec rec' : RotationRecord) : Prop :=
  rec' = rec \/
  (sameIdentity rec rec' /\ nextPhase (rr_phase rec) = Some (rr_phase rec')).

(** Every record of [c] survives in [c'], in its phase or the next. *)
Definition recordsStep (c c' : Ceremony) : Prop :=
  forall i rec, rotations c !! i = Some rec ->
    exists rec', rotations c' !! i = Some rec' /\ phaseStep rec rec'.

Lemma recordsStep_refl c c' : rotations c' = rotations c -> recordsStep c c'.
Proof. intros E i rec Hi. rewrite E. exists rec. split; [done|by left]. Qed.

Lemma recordsStep_insert c c' i rec' :
  rotations c' = <[i := rec']> (rotations c) ->
  (forall rec, rotations c !! i = Some rec -> phaseStep rec rec') ->
  recordsStep c c'.
Proof.
  intros E Hi j rec Hj. rewrite E, jsmap_lookup_insert. case_decide; subst.
  - exists rec'. auto.
  - exists rec. split; [done|by left].
Qed.

Lemma wp_true {S E A} (m : M S E A) s : wp m (fun _ _ => True) (fun _ _ => True) s.
Proof. unfold wp. by destruct (m s) as [? [?|?]]. Qed.

Ltac skip_registry :=
  eapply wp_mono; [| |apply wp_true]; intros; wp_simpl; try done; try apply wp_true.

Lemma runCeremony_steps ev c :
  CInv c ->
  wp (runCeremony ev) (fun _ => recordsStep c) (fun _ _ => True) c.
Proof.
  intros HI. destruct ev as [inp|inp|inp st clk gid|i|i com clk|i a|i clk|i clk];
    cbn [runCeremony]; wp_simpl.
  - skip_registry. by apply recordsStep_refl.
  - unfold initiateBegin. wp_cases; by try apply recordsStep_refl.
  - unfold initiateResume. wp_cases; try done; skip_registry.
    all: eapply recordsStep_insert; [done|]; intros rec Hrec; bool_props;
      match goal with H : map_has _ _ = false |- _ => apply map_has_false in H end;
      cbn in *; congruence.
  - unfold approve. wp_cases; try done; by apply recordsStep_refl.
  - unfold persistApproval. wp_cases; try done; try by apply recordsStep_refl.
    eapply recordsStep_insert; [done|]. intros rec Hrec. bool_props.
    right. split; [by simplify_eq|]. cbn. simplify_eq. by rewrite Heqb.
  - unfold attemptCleanup. wp_cases; by apply recordsStep_refl.
  - unfold activate. wp_cases; try done; try by apply recordsStep_refl.
    skip_registry. eapply recordsStep_insert; [done|].
    intros rec Hrec. bool_props. right. simplify_eq. split; [done|].
    cbn. by match goal with H : rr_phase _ = APPROVE |- _ => rewrite H end.
  - unfold retire. wp_cases; try done; try by apply recordsStep_refl.
    eapply wp_mono; [| |apply wp_true]; intros; wp_simpl; [|done].
    wp_cases; (eapply recordsStep_insert; [done|]; intros rec Hrec; bool_props; right;
       simplify_eq; split; [done|]; cbn;
       by match goal with H : rr_phase _ = ACTIVATE |- _ => rewrite H end).
Qed.

Lemma recordsStep_run evs c : CInv c ->
  forall i rec, rotations c !! i = Some rec ->
  exists rec', rotations (runCeremonies evs c) !! i = Some rec' /\ sameIdentity rec rec'.
Proof.
  revert c. induction evs as [|ev evs IH]; intros c HI i rec Hi; [by exists rec|].
  cbn. assert (HI' : CInv (fst (runCeremony ev c))) by exact (CInv_run [ev] c HI).
  assert (exists rec', rotations (fst (runCeremony ev c)) !! i = Some rec' /\
            sameIdentity rec rec') as (rec' & Hi' & Hsame).
  { pose proof (runCeremony_steps ev c HI) as H1.
    pose proof (runCeremony_wp ev c HI) as H2. unfold wp in H1, H2.
    destruct (runCeremony ev c) as [c' [e|[]]]; cbn; [by subst; exists rec|].
    destruct (H1 i rec Hi) as (rec' & ? & [E|[? _]]); exists rec'; split; by try subst rec'. }
  destruct (IH _ HI' _ _ Hi') as (rec'' & ? & Hsame'). exists rec''. split; [done|].
  destruct Hsame as (?&?&?&?), Hsame' as (?&?&?&?). split_and!; congruence.
Qed.

(** *** Properties

    All of them start from a ceremony the service can reach. *)

Definition reachable (c : Ceremony) : Prop :=
  exists ops evs, c = runCeremonies evs (new_RotationCeremony (runOps ops new_KeyRegistry)).

Lemma reachable_CInv c : reachable c -> CInv c.
Proof. intros (ops & evs & ->). apply CInv_run, CInv_new, RegInv_runOps. Qed.

(** C4: an approved rotation always activates: with a valid clock [activate]
    cannot throw, whatever happened since the approval; afterwards the new key
    is the validator's signing key and the old key no longer signs. *)
Theorem approved_rotation_activates c i rec epoch slot :
  reachable c -> rotations c !! i = Some rec -> rr_phase rec = APPROVE ->
  0 <= epoch <= MAX_SAFE_INTEGER -> 0 <= slot <= MAX_SAFE_INTEGER ->
  exists c' oldKey newKey,
    activate i (mkClock (JInt epoch) (JInt slot)) c
    = (c', inr (activatedRecord rec epoch slot)) /\
    rotations c' = <[i := activatedRecord rec epoch slot]> (rotations c) /\
    getCurrentSigningKey (registry c') (rr_validatorId rec) = Some newKey /\
    publicKey newKey = rr_newPublicKey rec /\ signingEnabled newKey = true /\
    getKey (registry c') (rr_oldPublicKey rec) = Some oldKey /\
    signingEnabled oldKey = false /\ deactivationSlot oldKey = Some slot.
Proof.
  intros HI%reachable_CInv Hi Hp He Hs.
  destruct (recordOk_prepared c i rec HI Hi Hp) as (o & n & Ho & Hn).
  assert (HI' := CInv_activate i rec o n epoch slot c HI Hi Hp Ho Hn Hs).
  rewrite (activate_eq i rec o n epoch slot _ c Hi Hp Ho Hn)
    by (by apply safeNonNeg_Some).
  do 3 eexists. split; [reflexivity|]. split; [done|]. cbn [registry].
  destruct (alreadyActivated_switch _ _ _ _ _ _ epoch slot Ho Hn) as [Ha _].
  cbn [fst snd] in Ha. apply alreadyActivated_Some in Ha as (Hko & Hkn & _ & _ & _ & Eo & _ & En & Hcur).
  destruct (inv_keyed _ (ci_registry _ HI') _ _ Hkn) as [Epk Hne].
  unfold getCurrentSigningKey, getKey. cbn [registry] in *. rewrite Hcur.
  unfold falsy. rewrite bool_decide_false by (by apply blank_empty). by split_and!.
Qed.

(** C5: no event loses a rotation or changes its parties; its phase stays or
    moves to the next one, and from APPROVE on it carries the approvals of a
    two-thirds quorum of its validator set. *)
Theorem rotation_phases_advance ev c i rec :
  reachable c -> rotations c !! i = Some rec ->
  exists rec', rotations (fst (runCeremony ev c)) !! i = Some rec' /\
    phaseStep rec rec' /\
    (rr_phase rec' <> INITIATE ->
     exists t, rr_approvalThreshold rec' = Some t /\
               Quorum (rr_approvalValidatorSet rec') (rr_approvals rec') t).
Proof.
  intros HI%reachable_CInv Hi.
  assert (HI' : CInv (fst (runCeremony ev c))) by exact (CInv_run [ev] c HI).
  assert (exists rec', rotations (fst (runCeremony ev c)) !! i = Some rec' /\
            phaseStep rec rec') as (rec' & Hi' & Hstep).
  { pose proof (runCeremony_steps ev c HI) as H1.
    pose proof (runCeremony_wp ev c HI) as H2. unfold wp in H1, H2.
    destruct (runCeremony ev c) as [c' [e|[]]]; cbn; [|by apply H1].
    subst. exists rec. split; [done|by left]. }
  exists rec'. split_and!; [done..|]. intros Hp.
  destruct (ci_record _ HI' i rec' Hi') as (_ & _ & _ & _ & Hap).
  destruct (Hap Hp) as (_ & t & Ht & HQ & _). by exists t.
Qed.

(** the waiting period: [retire] rejects an activated rotation until 4096
    slots after its activation, changing nothing; from then on it cannot fail,
    the old key becomes RETIRED, and the validator can rotate again. *)
Theorem retirement_waits_for_delay c i rec epoch slot :
  reachable c -> rotations c !! i = Some rec -> rr_phase rec = ACTIVATE ->
  0 <= epoch <= MAX_SAFE_INTEGER -> 0 <= slot <= MAX_SAFE_INTEGER ->
  exists s0, rr_activationSlot rec = Some s0 /\
    let (c', result) := retire i (mkClock (JInt epoch) (JInt slot)) c in
    (slot - s0 < 4096 -> c' = c /\ result = inl ERR_RETIREMENT_DELAY) /\
    (4096 <= slot - s0 ->
       result = inr (retiredRecord rec epoch) /\
       rotations c' !! i = Some (retiredRecord rec epoch) /\
       retiredKey (rr_oldPublicKey rec) (rr_validatorId rec) (registry c') /\
       activeRotationByValidator c' !! rr_validatorId rec = None).
Proof.
  intros HI%reachable_CInv Hi Hp He Hs.
  destruct (ci_record c HI i rec Hi) as (_ & _ & _ & Hok & _).
  assert (Hok' := Hok). unfold recordOk in Hok'. rewrite Hp in Hok'.
  destruct Hok' as (e & s0 & _ & _ & Hs0 & _). exists s0. split; [done|].
  assert (HeS : safeNonNeg (JInt epoch) = Some epoch) by (by apply safeNonNeg_Some).
  assert (HsS : safeNonNeg (JInt slot) = Some slot) by (by apply safeNonNeg_Some).
  destruct (Z.le_gt_cases 4096 (slot - s0)) as [Hd|Hd].
  - destruct (retire_eq i rec epoch slot s0 (mkClock (JInt epoch) (JInt slot)) c
                HI Hi Hp Hs0 HeS HsS Hd) as (c' & -> & HI' & Hr & Ha).
    split; [lia|]. intros _. rewrite Hr, Ha. jsmap_simpl.
    assert (Hi' : rotations c' !! i = Some (retiredRecord rec epoch))
      by (rewrite Hr; apply jsmap_lookup_insert_eq).
    destruct (ci_record c' HI' i _ Hi') as (_ & _ & _ & Hok' & _). done.
  - pose proof (retire_early i rec epoch slot s0 (mkClock (JInt epoch) (JInt slot)) c
                  Hi Hp Hs0 HeS HsS Hd) as E. rewrite E. split; [done|lia].
Qed.

(** a validator has at most one rotation that is not yet retired, and an
    event that throws leaves the ceremony and the registry as they were. *)
Theorem one_live_rotation_and_atomicity c :
  reachable c ->
  (forall (i j : string) ri rj, rotations c !! i = Some ri -> rotations c !! j = Some rj ->
     rr_phase ri <> RETIRE -> rr_phase rj <> RETIRE ->
     rr_validatorId ri = rr_validatorId rj -> i = j) /\
  (forall ev c' e, runCeremony ev c = (c', inl e) -> c' = c).
Proof.
  intros HI%reachable_CInv. split; [by eauto using live_unique|].
  intros ev c' e E. pose proof (runCeremony_wp ev c HI) as H. unfold wp in H.
  by rewrite E in H.
Qed.

(** ** The committer's contract

    [approve] hands the proposal to a [RotationCommitter] and trusts what it
    delivers only as far as [persistApproval] checks it.  The contract under
    which that check never rejects is the class below; the broadcaster
    implements it. *)

Class CommitterContract (delivers : RotationCommitResult -> Prop) : Prop :=
  delivers_good : forall res, delivers res -> goodResult res.

(** The results some run of a broadcaster can resolve a promise with. *)
Definition broadcasterDelivers (b0 : Broadcaster) (res : RotationCommitResult) : Prop :=
  exists evs h, (h, inr res) ∈ settled (runEvents evs b0).

Lemma broadcaster_contract b0 :
  BInv b0 -> CommitterContract (broadcasterDelivers b0).
Proof.
  intros HI res (evs & h & Hin).
  by destruct (bi_settled _ (BInv_runEvents evs b0 HI) _ _ Hin) as (_ & _ & _ & ?).
Qed.

Lemma contract_accepted delivers `{!CommitterContract delivers} c i rec res epoch clock :
  rotations c !! i = Some rec -> rr_phase rec = INITIATE ->
  delivers res -> rcr_rotationId res = i ->
  Z.of_nat (length (rcr_activeValidatorIds res)) <= MAX_SAFE_INTEGER ->
  safeNonNeg (currentEpoch clock) = Some epoch ->
  let rec' := approvedRecord rec epoch (rcr_approvals res) (rcr_approvalThreshold res)
                (rcr_activeValidatorIds res) in
  persistApproval i res clock c =
  (mkCeremony (registry c) (<[i := rec']> (rotations c)) (activeRotationByValidator c)
     (approvalAttempts c) (nextAttempt c), inr rec').
Proof.
  intros Hi Hp Hd <- Hlen He rec'.
  assert (Hg := delivers_good res Hd). assert (Hg' := Hg).
  destruct Hg' as (HNa & _ & _ & HNl & _).
  destruct (quorum_commitmentValid res Hg) as [Ht Hv]; [by rewrite new_Set_NoDup|].
  unfold persistApproval, requireRotation, assertClockNumber.
  unfold bind, get, ret, modify, guard. rewrite Hi, Hp. simpl_decide. cbn zeta. rewrite Ht, Hv, He.
  unfold rec'. by rewrite !new_Set_NoDup.
Qed.

(** end to end: what the broadcaster resolves for a rotation, the ceremony
    accepts: the rotation becomes APPROVE with exactly the broadcaster's
    approvals, threshold and validator set. *)
Theorem broadcaster_commitment_approves timeoutPositive max b0 evs h res c i rec epoch slot :
  new_CommitmentBroadcaster timeoutPositive max = inr b0 ->
  (h, inr res) ∈ settled (runEvents evs b0) -> rcr_rotationId res = i ->
  Z.of_nat (length (rcr_activeValidatorIds res)) <= MAX_SAFE_INTEGER ->
  rotations c !! i = Some rec -> rr_phase rec = INITIATE ->
  0 <= epoch <= MAX_SAFE_INTEGER ->
  exists c', persistApproval i res (mkClock (JInt epoch) slot) c
    = (c', inr (approvedRecord rec epoch (rcr_approvals res) (rcr_approvalThreshold res)
                  (rcr_activeValidatorIds res))) /\
    getRotation c' i
    = Some (approvedRecord rec epoch (rcr_approvals res) (rcr_approvalThreshold res)
              (rcr_activeValidatorIds res)).
Proof.
  intros HI%BInv_new Hin Hid Hlen Hi Hp He.
  pose proof (broadcaster_contract b0 HI).
  assert (broadcasterDelivers b0 res) as Hd by (exists evs, h; done).
  assert (safeNonNeg (JInt epoch) = Some epoch) as HeS by (by apply safeNonNeg_Some).
  rewrite (contract_accepted (broadcasterDelivers b0) c i rec res epoch
             (mkClock (JInt epoch) slot) Hi Hp Hd Hid Hlen HeS).
  eexists. split; [reflexivity|]. unfold getRotation. cbn. apply jsmap_lookup_insert_eq.
Qed.

(** ** Witnesses *)

Module Examples.
Definition firstKeys : list RegistryOp := [OpRegister (mkRegisterActive "v1" "pkA" (JInt 1) None None)].
Definition at_ (epoch slot : Z) : ClockReading := mkClock (JInt epoch) (JInt slot).
Definition rotate : InitiateRotationInput := mkInitiate "v1" "pkB" (Some "r1").
Definition quorum3 : RotationCommitResult :=
  mkCommitResult "r1" ["a"; "c"; "d"] 3 ["c"; "a"; "b"; "d"].
Definition start : list CeremonyEvent :=
  [EvInitiateBegin rotate; EvInitiateResume rotate 10000 (at_ 2 64) "x"; EvApproveRotation "r1"].
Definition approved : list CeremonyEvent := start ++ [EvPersist "r1" quorum3 (at_ 3 96)].
Definition running : list CeremonyEvent := approved ++ [EvActivate "r1" (at_ 5 160)].
Definition after (evs : list CeremonyEvent) : Ceremony :=
  runCeremonies evs (new_RotationCeremony (runOps firstKeys new_KeyRegistry)).
Definition initiated1 : RotationRecord := initiatedRecord "r1" "v1" "pkA" "pkB" 2 64.
Definition approved1 : RotationRecord :=
  approvedRecord initiated1 3 ["a"; "c"; "d"] 3 ["c"; "a"; "b"; "d"].
Definition activated1 : RotationRecord := activatedRecord approved1 5 160.

Lemma after_reachable evs : reachable (after evs).
Proof. by exists firstKeys, evs. Qed.

Lemma approved_rotation_activates_witness :
  exists c', activate "r1" (at_ 5 160) (after approved) = (c', inr activated1) /\
    publicKey <$> getCurrentSigningKey (registry c') "v1" = Some "pkB".
Proof.
  destruct (approved_rotation_activates (after approved) "r1" approved1 5 160)
    as (c' & o & n & Ha & _ & Hc & Hk & _);
    [apply after_reachable|vm_compute; reflexivity|reflexivity|vm_compute; split; discriminate..|].
  exists c'. split; [exact Ha|]. change "v1" with (rr_validatorId approved1).
  rewrite Hc. cbn. f_equal. exact Hk.
Defined.

Lemma rotation_phases_advance_witness :
  exists rec', rotations (after approved) !! "r1" = Some rec' /\ phaseStep initiated1 rec'.
Proof.
  destruct (rotation_phases_advance (EvPersist "r1" quorum3 (at_ 3 96)) (after start) "r1" initiated1)
    as (rec' & Hi & Hs & _); [apply after_reachable|vm_compute; reflexivity|].
  exists rec'. split; [exact Hi|exact Hs].
Defined.

Lemma retirement_waits_for_delay_witness :
  snd (retire "r1" (at_ 140 4255) (after running)) = inl ERR_RETIREMENT_DELAY /\
  snd (retire "r1" (at_ 140 4256) (after running)) = inr (retiredRecord activated1 140).
Proof.
  split.
  - destruct (retirement_waits_for_delay (after running) "r1" activated1 140 4255)
      as (s0 & Hs0 & H); [apply after_reachable|vm_compute; reflexivity|reflexivity
        |vm_compute; split; discriminate..|].
    injection Hs0 as <-. destruct (retire _ _ _) as [c' r]. apply H. reflexivity.
  - destruct (retirement_waits_for_delay (after running) "r1" activated1 140 4256)
      as (s0 & Hs0 & H); [apply after_reachable|vm_compute; reflexivity|reflexivity
        |vm_compute; split; discriminate..|].
    injection Hs0 as <-. destruct (retire _ _ _) as [c' r]. apply H. vm_compute. discriminate.
Defined.

Lemma one_live_rotation_and_atomicity_witness :
  fst (runCeremony (EvActivate "r1" (at_ 3 96)) (after start)) = after start.
Proof.
  destruct (one_live_rotation_and_atomicity (after start) (after_reachable _)) as [_ H].
  destruct (runCeremony _ _) as [c' [e|u]] eqn:E; [exact (H _ _ _ E)|vm_compute in E; discriminate].
Defined.

Lemma broadcaster_commitment_approves_witness :
  exists c', persistApproval "r1" quorum3 (at_ 3 96) (after start) = (c', inr approved1).
Proof.
  destruct (broadcaster_commitment_approves true (Some (JInt 2))
    CommitmentBroadcaster.Examples.b0
    [EvCommit CommitmentBroadcaster.Examples.proposal;
     EvSnapshot 0 (inr CommitmentBroadcaster.Examples.snapshot) [LApprove "r1" "d"];
     EvApprove "r1" "a"; EvApprove "r1" "c"] 0 quorum3 (after start) "r1" initiated1 3 (JInt 96))
    as (c' & Hc & _).
  - reflexivity.
  - vm_compute. apply list_elem_of_singleton. reflexivity.
  - reflexivity.
  - vm_compute. discriminate.
  - vm_compute. reflexivity.
  - reflexivity.
  - vm_compute. split; discriminate.
  - exists c'. exact Hc.
Defined.
End Examples.
