(* ===== verification/RotationPenalty.v ===== *)
(** * Penalty exception for key rotations ([src/src/slashing/penalty-calculator.ts])

    The calculator reads rotation records and key records and decides whether
    double-sign evidence is a legitimate rotation overlap.  In the service both
    providers are the ceremony and its registry; the decision is modelled over
    arbitrary ones. *)

From Stdlib Require Import ZArith Lia.
From stdpp Require Import base list strings gmap sorting.
From S2P Require Import Prelude Js KeyRegistry CommitmentBroadcaster RotationCeremony.

Definition DOUBLE_SIGNING_MISBEHAVIOR : string := "DOUBLE_SIGNING".

Record KeyOverlapEvidence := mkEvidence {
  ev_validatorId : string;
  ev_misbehaviorType : string;
  ev_firstPublicKey : string;
  ev_secondPublicKey : string;
  ev_firstSigningSlot : jsnum;
  ev_secondSigningSlot : jsnum;
  ev_rotationId : option string
}.

Inductive PenaltyDecisionReason :=
  | LEGITIMATE_ROTATION_OVERLAP
  | NOT_DOUBLE_SIGNING
  | NO_KNOWN_ROTATION
  | ROTATION_NOT_ACTIVATED
  | VALIDATOR_MISMATCH
  | KEY_PAIR_MISMATCH
  | EVIDENCE_OUTSIDE_ACTIVATION_TRANSITION
  | INVALID_ROTATION_COMMITMENT
  | INVALID_KEY_STATE
  | OUTSIDE_ROTATION_GRACE_PERIOD.

Record PenaltyDecision := mkDecision {
  penaltyRequired : bool;
  suppressed : bool;
  reason : PenaltyDecisionReason
}.

Definition penalize (r : PenaltyDecisionReason) : PenaltyDecision :=
  mkDecision true false r.

Definition suppress : PenaltyDecision :=
  mkDecision false true LEGITIMATE_ROTATION_OVERLAP.

Definition exactPair (e : KeyOverlapEvidence) (rotation : RotationRecord) : bool :=
  (bool_decide (ev_firstPublicKey e = rr_oldPublicKey rotation)
   && bool_decide (ev_secondPublicKey e = rr_newPublicKey rotation))
  || (bool_decide (ev_firstPublicKey e = rr_newPublicKey rotation)
      && bool_decide (ev_secondPublicKey e = rr_oldPublicKey rotation)).

Definition oldKeySigningSlot (e : KeyOverlapEvidence) (rotation : RotationRecord) : jsnum :=
  if bool_decide (ev_firstPublicKey e = rr_oldPublicKey rotation)
  then ev_firstSigningSlot e else ev_secondSigningSlot e.

Definition newKeySigningSlot (e : KeyOverlapEvidence) (rotation : RotationRecord) : jsnum :=
  if bool_decide (ev_firstPublicKey e = rr_newPublicKey rotation)
  then ev_firstSigningSlot e else ev_secondSigningSlot e.

Definition transitionEvidenceValid (oldSlot newSlot current : jsnum)
    (activation : Z) : bool :=
  match isSafeInteger oldSlot, isSafeInteger newSlot, isSafeInteger current with
  | Some o, Some n, Some c =>
      (0 <=? o) && (o <? activation) && (activation <=? n) && (n <=? c)
  | _, _, _ => false
  end.

(** The quorum test over a stored record; the threshold is not computed for an
    empty validator set. *)
Definition recordedCommitmentValid (rotation : RotationRecord) : CommitError + bool :=
  let uniqueApprovals := new_Set (rr_approvals rotation) in
  let eligibleValidators := new_Set (rr_approvalValidatorSet rotation) in
  if (0 <? Z.of_nat (length eligibleValidators)) then
    match calculateRotationApprovalThreshold
            (JInt (Z.of_nat (length eligibleValidators))) with
    | inl e => inl e
    | inr expectedThreshold =>
        inr (bool_decide (rr_approvalThreshold rotation = Some expectedThreshold)
             && (expectedThreshold <=? Z.of_nat (length uniqueApprovals))
             && forallb (fun v => set_has v eligibleValidators) uniqueApprovals)
    end
  else inr false.

Definition keyStateValid (oldKey newKey : option KeyRecord) (validator : string)
    (activatedEpoch activationSlot : Z) : bool :=
  match oldKey, newKey with
  | Some o, Some n =>
      bool_decide (validatorId o = validator)
      && bool_decide (state o = ACTIVE)
      && negb (signingEnabled o)
      && bool_decide (deactivationEpoch o = Some activatedEpoch)
      && bool_decide (deactivationSlot o = Some activationSlot)
      && bool_decide (validatorId n = validator)
      && bool_decide (state n = ACTIVE)
      && signingEnabled n
      && bool_decide (activationEpoch n = Some activatedEpoch)
      && bool_decide (KeyRegistry.activationSlot n = Some activationSlot)
  | _, _ => false
  end.

Definition withinGracePeriod (current : jsnum) (activatedEpoch : Z) : bool :=
  match isSafeInteger current with
  | Some c => negb (c - activatedEpoch <? 0)
              && negb (ROTATION_GRACE_EPOCHS <=? c - activatedEpoch)
  | None => false
  end.

(** [PenaltyCalculator.calculate]; [getRot] and [getK] are the providers. *)
Definition calculate (getRot : string -> option RotationRecord)
    (getK : string -> option KeyRecord) (clock : ClockReading)
    (e : KeyOverlapEvidence) : CommitError + PenaltyDecision :=
  if negb (bool_decide (ev_misbehaviorType e = DOUBLE_SIGNING_MISBEHAVIOR))
  then inr (penalize NOT_DOUBLE_SIGNING)
  else
  match ev_rotationId e with
  | None => inr (penalize NO_KNOWN_ROTATION)
  | Some rotationId =>
  if falsy rotationId then inr (penalize NO_KNOWN_ROTATION) else
  match getRot rotationId with
  | None => inr (penalize NO_KNOWN_ROTATION)
  | Some rotation =>
  match rr_phase rotation, rr_approvedEpoch rotation, rr_activatedEpoch rotation,
        rr_activationSlot rotation with
  | ACTIVATE, Some _, Some activatedEpoch, Some slot =>
      if negb (bool_decide (rr_validatorId rotation = ev_validatorId e))
      then inr (penalize VALIDATOR_MISMATCH)
      else if negb (exactPair e rotation)
              || bool_decide (ev_firstPublicKey e = ev_secondPublicKey e)
      then inr (penalize KEY_PAIR_MISMATCH)
      else if negb (transitionEvidenceValid (oldKeySigningSlot e rotation)
                      (newKeySigningSlot e rotation) (currentSlot clock) slot)
      then inr (penalize EVIDENCE_OUTSIDE_ACTIVATION_TRANSITION)
      else match recordedCommitmentValid rotation with
      | inl err => inl err
      | inr valid =>
          if negb valid then inr (penalize INVALID_ROTATION_COMMITMENT)
          else if negb (keyStateValid (getK (rr_oldPublicKey rotation))
                          (getK (rr_newPublicKey rotation)) (rr_validatorId rotation)
                          activatedEpoch slot)
          then inr (penalize INVALID_KEY_STATE)
          else if negb (withinGracePeriod (currentEpoch clock) activatedEpoch)
          then inr (penalize OUTSIDE_ROTATION_GRACE_PERIOD)
          else inr suppress
      end
  | _, _, _, _ => inr (penalize ROTATION_NOT_ACTIVATED)
  end
  end
  end.

Definition shouldSuppress getRot getK clock e : CommitError + bool :=
  match calculate getRot getK clock e with
  | inl err => inl err
  | inr d => inr (suppressed d)
  end.

(** The calculator as the service wires it, over one ceremony. *)
Definition decide_ (c : Ceremony) : ClockReading -> KeyOverlapEvidence ->
    CommitError + PenaltyDecision :=
  calculate (getRotation c) (ceremonyKey c).

(** ** On a ceremony's own records the cross-checks succeed *)

Lemma activated_commitment_valid c i rec :
  CInv c -> rotations c !! i = Some rec -> rr_phase rec = ACTIVATE ->
  recordedCommitmentValid rec = inr true.
Proof.
  intros HI Hi Hp. destruct (ci_record c HI i rec Hi) as (_ & _ & _ & _ & Hap).
  destruct (Hap ltac:(congruence)) as (_ & t & Ht & (Ha & Hne & _ & Hl & Hs & Hle) & Hc).
  unfold recordedCommitmentValid. rewrite !new_Set_NoDup by done. rewrite Hc, Ht.
  destruct (rr_approvalValidatorSet rec) as [|x l] eqn:E; [done|]. rewrite <- E.
  rewrite (proj2 (Z.ltb_lt _ _)) by (rewrite E; cbn; lia).
  rewrite bool_decide_true, (proj2 (Z.leb_le _ _)) by done. cbn. f_equal.
  apply forallb_forall. intros v Hv%list_elem_of_In.
  apply bool_decide_eq_true. rewrite E. auto.
Qed.

Lemma activated_keys_valid c i rec :
  CInv c -> rotations c !! i = Some rec -> rr_phase rec = ACTIVATE ->
  exists e a s, rr_approvedEpoch rec = Some e /\ rr_activatedEpoch rec = Some a /\
    rr_activationSlot rec = Some s /\
    keyStateValid (ceremonyKey c (rr_oldPublicKey rec)) (ceremonyKey c (rr_newPublicKey rec))
      (rr_validatorId rec) a s = true.
Proof.
  intros HI Hi Hp. destruct (ci_record c HI i rec Hi) as (_ & _ & _ & Hok & Hap).
  destruct (Hap ltac:(congruence)) as ([e He] & _).
  unfold recordOk in Hok. rewrite Hp in Hok.
  destruct Hok as (a & s & [o n] & Ha & Hs & _ & Hk & Hc).
  apply alreadyActivated_Some in Hk as (Ho & Hn & Vo & Vn & So & Eo & Sn & En & _).
  unfold sameCoordinates in Hc. cbn in Hc. bool_props.
  exists e, a, s. split_and!; auto. unfold keyStateValid, ceremonyKey, getKey.
  rewrite Ho, Hn, Eo, En. by rewrite !bool_decide_true.
Qed.

(** What the exception means, without the cross-checks. *)
Definition legitimateOverlap (c : Ceremony) (epoch slot : Z) (e : KeyOverlapEvidence)
    : Prop :=
  ev_misbehaviorType e = DOUBLE_SIGNING_MISBEHAVIOR /\
  exists i rec a s o n,
    ev_rotationId e = Some i /\ rotations c !! i = Some rec /\
    rr_phase rec = ACTIVATE /\ rr_validatorId rec = ev_validatorId e /\
    rr_activatedEpoch rec = Some a /\ rr_activationSlot rec = Some s /\
    ((ev_firstPublicKey e = rr_oldPublicKey rec /\ ev_firstSigningSlot e = JInt o /\
      ev_secondPublicKey e = rr_newPublicKey rec /\ ev_secondSigningSlot e = JInt n) \/
     (ev_firstPublicKey e = rr_newPublicKey rec /\ ev_firstSigningSlot e = JInt n /\
      ev_secondPublicKey e = rr_oldPublicKey rec /\ ev_secondSigningSlot e = JInt o)) /\
    0 <= o < s /\ s <= n <= slot /\ a <= epoch < a + 256.

Lemma isSafeInteger_Some n z :
  isSafeInteger n = Some z <-> n = JInt z /\ Z.abs z <= MAX_SAFE_INTEGER.
Proof.
  unfold isSafeInteger, isSafeZ. destruct n as [y|]; [|naive_solver].
  destruct (Z.leb_spec (Z.abs y) MAX_SAFE_INTEGER); naive_solver lia.
Qed.

Lemma transitionEvidenceValid_spec oldSlot newSlot slot s :
  0 <= slot <= MAX_SAFE_INTEGER -> 0 <= s ->
  transitionEvidenceValid oldSlot newSlot (JInt slot) s = true <->
  exists o n, oldSlot = JInt o /\ newSlot = JInt n /\ 0 <= o < s /\ s <= n <= slot.
Proof.
  intros Hslot Hs. unfold transitionEvidenceValid.
  rewrite (proj2 (isSafeInteger_Some (JInt slot) slot)) by (split; [done|lia]).
  split.
  - destruct (isSafeInteger oldSlot) as [o|] eqn:Ho, (isSafeInteger newSlot) as [n|] eqn:Hn;
      try done. apply isSafeInteger_Some in Ho as [-> _], Hn as [-> _].
    intros ?. bool_props. exists o, n. split_and!; done || lia.
  - intros (o & n & -> & -> & ? & ?).
    rewrite (proj2 (isSafeInteger_Some (JInt o) o)) by (split; [done|lia]).
    rewrite (proj2 (isSafeInteger_Some (JInt n) n)) by (split; [done|lia]). lia.
Qed.

Lemma withinGracePeriod_spec epoch a :
  0 <= epoch <= MAX_SAFE_INTEGER ->
  withinGracePeriod (JInt epoch) a = true <-> a <= epoch < a + 256.
Proof.
  intros He. unfold withinGracePeriod.
  rewrite (proj2 (isSafeInteger_Some (JInt epoch) epoch)) by (split; [done|lia]).
  unfold ROTATION_GRACE_EPOCHS. lia.
Qed.

(** The two orders of the evidence, together with the slots they select. *)
Lemma pairSlots_spec e rec o n :
  rr_oldPublicKey rec <> rr_newPublicKey rec ->
  (exactPair e rec = true /\ oldKeySigningSlot e rec = JInt o /\
   newKeySigningSlot e rec = JInt n) <->
  ((ev_firstPublicKey e = rr_oldPublicKey rec /\ ev_firstSigningSlot e = JInt o /\
    ev_secondPublicKey e = rr_newPublicKey rec /\ ev_secondSigningSlot e = JInt n) \/
   (ev_firstPublicKey e = rr_newPublicKey rec /\ ev_firstSigningSlot e = JInt n /\
    ev_secondPublicKey e = rr_oldPublicKey rec /\ ev_secondSigningSlot e = JInt o)).
Proof.
  intros Hne. unfold exactPair, oldKeySigningSlot, newKeySigningSlot.
  rewrite orb_true_iff, !andb_true_iff, !bool_decide_eq_true.
  repeat case_bool_decide; split; intros; destruct_and?; destruct_or?; destruct_and?;
    try congruence; naive_solver congruence.
Qed.

Lemma exactPair_distinct e rec :
  rr_oldPublicKey rec <> rr_newPublicKey rec -> exactPair e rec = true ->
  bool_decide (ev_firstPublicKey e = ev_secondPublicKey e) = false.
Proof.
  intros Hne. unfold exactPair. rewrite orb_true_iff, !andb_true_iff, !bool_decide_eq_true.
  intros. apply bool_decide_eq_false. intuition congruence.
Qed.

(** The decision on a known, activated rotation of the ceremony. *)
Lemma calculate_activated c i rec e epoch slot :
  CInv c -> 0 <= epoch <= MAX_SAFE_INTEGER -> 0 <= slot <= MAX_SAFE_INTEGER ->
  rotations c !! i = Some rec -> rr_phase rec = ACTIVATE ->
  ev_misbehaviorType e = DOUBLE_SIGNING_MISBEHAVIOR -> ev_rotationId e = Some i ->
  exists a s, rr_activatedEpoch rec = Some a /\ rr_activationSlot rec = Some s /\ 0 <= s /\
    decide_ c (mkClock (JInt epoch) (JInt slot)) e = inr
      (if negb (bool_decide (rr_validatorId rec = ev_validatorId e))
       then penalize VALIDATOR_MISMATCH
       else if negb (exactPair e rec) then penalize KEY_PAIR_MISMATCH
       else if negb (transitionEvidenceValid (oldKeySigningSlot e rec)
                       (newKeySigningSlot e rec) (JInt slot) s)
       then penalize EVIDENCE_OUTSIDE_ACTIVATION_TRANSITION
       else if negb (withinGracePeriod (JInt epoch) a)
       then penalize OUTSIDE_ROTATION_GRACE_PERIOD
       else suppress).
Proof.
  intros HI He Hs Hi Hp Hm Hr.
  destruct (activated_keys_valid c i rec HI Hi Hp) as (ap & a & s & Hap & Ha & Hsl & Hk).
  destruct (ci_record c HI i rec Hi) as (_ & Hne & Hon & Hok & _).
  unfold recordOk in Hok. rewrite Hp in Hok.
  destruct Hok as (a' & s' & _ & _ & Hsl' & Hrange & _).
  assert (s' = s) as -> by congruence.
  exists a, s. split_and!; [done..|lia|].
  unfold decide_, calculate, getRotation. rewrite Hm, Hr, Hi, Hp, Hap, Ha, Hsl.
  unfold falsy. rewrite (bool_decide_true (_ = DOUBLE_SIGNING_MISBEHAVIOR)),
    (bool_decide_false (i = "")) by done.
  cbn [negb currentEpoch currentSlot].
  destruct (bool_decide (rr_validatorId rec = ev_validatorId e)); cbn [negb]; [|done].
  destruct (exactPair e rec) eqn:Hpair; cbn [negb orb]; [|done].
  rewrite (exactPair_distinct e rec Hon Hpair).
  destruct (transitionEvidenceValid _ _ _ _); cbn [negb]; [|done].
  rewrite (activated_commitment_valid c i rec HI Hi Hp), Hk. cbn [negb].
  by destruct (withinGracePeriod _ _).
Qed.

(** Without an activated rotation there is a penalty. *)
Definition namesActivated (c : Ceremony) (e : KeyOverlapEvidence) : Prop :=
  exists i rec, ev_misbehaviorType e = DOUBLE_SIGNING_MISBEHAVIOR /\
    ev_rotationId e = Some i /\ rotations c !! i = Some rec /\ rr_phase rec = ACTIVATE.

Lemma legitimate_activated c epoch slot e :
  legitimateOverlap c epoch slot e -> namesActivated c e.
Proof. intros (? & i & rec & ? & ? & ? & ? & ? & ? & ? & _). by exists i, rec. Qed.

Lemma calculate_cases c clock e :
  CInv c ->
  (exists r, decide_ c clock e = inr (penalize r) /\ ~ namesActivated c e /\
     r <> INVALID_ROTATION_COMMITMENT /\ r <> INVALID_KEY_STATE) \/
  namesActivated c e.
Proof.
  intros HI. unfold decide_, calculate, getRotation, namesActivated.
  case_bool_decide as Hm; cbn [negb]; [|left; eexists; split; [done|]; naive_solver].
  destruct (ev_rotationId e) as [i|]; [|left; eexists; split; [done|]; naive_solver].
  destruct (rotations c !! i) as [rec|] eqn:Hi.
  2:{ left. exists NO_KNOWN_ROTATION. split; [by destruct (falsy i)|]. naive_solver. }
  destruct (ci_record c HI i rec Hi) as (_ & Hne & _).
  unfold falsy. rewrite bool_decide_false by done.
  destruct (decide (rr_phase rec = ACTIVATE)) as [Hp|Hp]; [right; by exists i, rec|].
  left. exists ROTATION_NOT_ACTIVATED. split; [by destruct (rr_phase rec)|].
  split; [|done]. intros (j & rj & _ & ? & ? & ?). congruence.
Qed.

(** C3: on every state the ceremony can reach, the calculator lifts the
    penalty for exactly the legitimate overlaps: double-sign evidence that
    names an activated rotation of the same validator and its two keys, the old
    key used before the activation slot, the new one from it on and not in the
    future, within 256 epochs of the activation.  It never throws, and the
    commitment and key-state cross-checks never contradict the ceremony. *)
Theorem suppresses_exactly_legitimate_overlaps c epoch slot e :
  reachable c -> 0 <= epoch <= MAX_SAFE_INTEGER -> 0 <= slot <= MAX_SAFE_INTEGER ->
  exists d, decide_ c (mkClock (JInt epoch) (JInt slot)) e = inr d /\
    (suppressed d = true <-> legitimateOverlap c epoch slot e) /\
    penaltyRequired d = negb (suppressed d) /\
    reason d <> INVALID_ROTATION_COMMITMENT /\ reason d <> INVALID_KEY_STATE.
Proof.
  intros HI%reachable_CInv He Hs.
  destruct (calculate_cases c (mkClock (JInt epoch) (JInt slot)) e HI)
    as [(r & Hd & Hno & ? & ?)|(i & rec & Hm & Hr & Hi & Hp)].
  { exists (penalize r). split; [done|]. split_and!; try done. split; [done|].
    by intros ?%legitimate_activated. }
  destruct (calculate_activated c i rec e epoch slot HI He Hs Hi Hp Hm Hr)
    as (a & s & Ha & Hsl & Hs0 & ->).
  eexists. split; [reflexivity|].
  destruct (ci_record c HI i rec Hi) as (_ & _ & Hon & _).
  assert (legitimateOverlap c epoch slot e <->
    rr_validatorId rec = ev_validatorId e /\ exactPair e rec = true /\
    transitionEvidenceValid (oldKeySigningSlot e rec) (newKeySigningSlot e rec) (JInt slot) s
      = true /\ withinGracePeriod (JInt epoch) a = true) as ->.
  { rewrite transitionEvidenceValid_spec, withinGracePeriod_spec by done. split.
    - intros (_ & j & rj & a' & s' & o & n & ? & ? & _ & ? & ? & ? & Hpair & ? & ? & ?).
      simplify_eq. apply pairSlots_spec in Hpair as (? & ? & ?); [|done]. eauto 10.
    - intros (? & ? & (o & n & ? & ? & ? & ?) & ?). split; [done|].
      exists i, rec, a, s, o, n. split_and!; try done; try lia. by apply pairSlots_spec. }
  case_bool_decide; cbn [negb]; [|by split_and!; naive_solver].
  destruct (exactPair e rec); cbn [negb]; [|by split_and!; naive_solver].
  destruct (transitionEvidenceValid _ _ _ _); cbn [negb]; [|by split_and!; naive_solver].
  destruct (withinGracePeriod _ _); cbn [negb]; by split_and!; naive_solver.
Qed.

(** ** Witnesses *)

Module Examples.
Import RotationCeremony.Examples.
Definition overlap : KeyOverlapEvidence :=
  mkEvidence "v1" "DOUBLE_SIGNING" "pkB" "pkA" (JInt 165) (JInt 158) (Some "r1").

Lemma suppresses_exactly_legitimate_overlaps_witness :
  decide_ (after running) (at_ 260 9000) overlap = inr suppress /\
  legitimateOverlap (after running) 260 9000 overlap.
Proof.
  split; [vm_compute; reflexivity|].
  destruct (suppresses_exactly_legitimate_overlaps (after running) 260 9000 overlap)
    as (d & Hd & Hiff & _);
    [apply after_reachable|vm_compute; split; discriminate..|].
  apply Hiff. vm_compute in Hd. by injection Hd as <-.
Defined.
End Examples.
