(* ===== verification/NodeTables.v ===== *)
(** * Tables of the two-phase node status protocol
    ([src/src/database/node_status.sql])

    The rows the protocol reads and writes, and the error a statement can end
    with.  Columns nothing reads back ([updated_at], serial ids, the audit
    time of the log) are left out; [NUMERIC] scores are integers.  [NOW()] is an
    argument, in milliseconds. *)

From Stdlib Require Import ZArith Lia Ascii String.
From stdpp Require Import base list strings gmap sorting.
From S2P Require Import Prelude Js.

Inductive NodeStatus := Provisioned | Pending | Active | Slashed | Archived.
#[export] Instance NodeStatus_eq_dec : EqDecision NodeStatus.
Proof. solve_decision. Defined.

(** The column [state] of [node_status_tentative]. *)
Inductive TentativeState := PENDING | COMMITTED | ROLLED_BACK.
#[export] Instance TentativeState_eq_dec : EqDecision TentativeState.
Proof. solve_decision. Defined.

Record TentativeRow := mkTentative {
  target_status : NodeStatus;
  idempotency_key : string;
  t_state : TentativeState;
  error_detail : option string;
  resolved_at : option Z;
  created_at : Z;
  expires_at : Z
}.

Record RollbackLogRow := mkRollbackLog {
  log_node_id : string;
  log_idempotency_key : string;
  log_target_status : NodeStatus;
  log_failure_reason : string
}.

Record RewardTx := mkRewardTx { rw_node_id : string; rw_created_at : Z }.

Record Attestation := mkAttestation {
  at_node_id : string; at_status : NodeStatus; at_created_at : Z
}.

Record Reputation := mkReputation { score : Z; slash_version : Z }.

Record Adjustment := mkAdjustment {
  adj_node_id : string; adj_key : string; delta : Z; is_slash : bool
}.

Record NodeDb := mkNodeDb {
  node_status : gmap string NodeStatus;
  node_status_tentative : gmap string TentativeRow;
  two_phase_rollback_log : list RollbackLogRow;
  reward_tx : list RewardTx;
  node_attestations : list Attestation;
  reputations : gmap string Reputation;
  reputation_adjustments : list Adjustment
}.

Inductive DbError :=
  | DbFault                   (* connection lost, deadlock, ... *)
  | UniqueViolation           (* UNIQUE (idempotency_key) *)
  | ForeignKeyViolation.      (* fk_node *)

(** Statements and transactions. *)
Abbreviation DbM := (M NodeDb DbError).

(** [db.transaction(fn)]: all of [fn] or nothing ([pool_isolation.ts]:
    BEGIN, COMMIT, and ROLLBACK on a throw). *)
Definition transaction {S E A} (m : M S E A) : M S E A :=
  fun s => match m s with
           | (_, inl e) => (s, inl e)
           | r => r
           end.

Lemma wp_transaction {S E A} (m : M S E A) Q X s :
  wp (transaction m) Q X s = wp m Q (fun e _ => X e s) s.
Proof. unfold wp, transaction. by destruct (m s) as [s' [e|a]]. Qed.
#[export] Hint Rewrite @wp_transaction : wp.

(** The statement cannot reach the database. *)
Definition may_fail (fault : bool) : DbM unit := guard (negb fault) DbFault.

Definition set_status f d :=
  mkNodeDb (f (node_status d)) (node_status_tentative d) (two_phase_rollback_log d)
    (reward_tx d) (node_attestations d) (reputations d) (reputation_adjustments d).
Definition set_tentative f d :=
  mkNodeDb (node_status d) (f (node_status_tentative d)) (two_phase_rollback_log d)
    (reward_tx d) (node_attestations d) (reputations d) (reputation_adjustments d).
Definition set_log f d :=
  mkNodeDb (node_status d) (node_status_tentative d) (f (two_phase_rollback_log d))
    (reward_tx d) (node_attestations d) (reputations d) (reputation_adjustments d).
Definition set_rewards f d :=
  mkNodeDb (node_status d) (node_status_tentative d) (two_phase_rollback_log d)
    (f (reward_tx d)) (node_attestations d) (reputations d) (reputation_adjustments d).
Definition set_attestations f d :=
  mkNodeDb (node_status d) (node_status_tentative d) (two_phase_rollback_log d)
    (reward_tx d) (f (node_attestations d)) (reputations d) (reputation_adjustments d).
Definition set_reputations f d :=
  mkNodeDb (node_status d) (node_status_tentative d) (two_phase_rollback_log d)
    (reward_tx d) (node_attestations d) (f (reputations d)) (reputation_adjustments d).
Definition set_adjustments f d :=
  mkNodeDb (node_status d) (node_status_tentative d) (two_phase_rollback_log d)
    (reward_tx d) (node_attestations d) (reputations d) (f (reputation_adjustments d)).

(** Lookups of a row of the tentative table. *)
Definition tentativeOf (node : string) (d : NodeDb) : option TentativeRow :=
  node_status_tentative d !! node.

Definition isPending (row : TentativeRow) : bool := bool_decide (t_state row = PENDING).

Definition hasPending (node : string) (d : NodeDb) : bool :=
  match tentativeOf node d with Some row => isPending row | None => false end.

(** ** Well-formed tables

    The foreign key, the uniqueness of the keys, and what every row of the
    tentative table satisfies: pending exactly while it has no [resolved_at],
    and expiring 30 s after its creation. *)

Definition TENTATIVE_TTL : Z := 30000.

Record DbInv (d : NodeDb) : Prop := {
  dbi_fk : forall n row, tentativeOf n d = Some row -> is_Some (node_status d !! n);
  dbi_unique : forall n n' row row', tentativeOf n d = Some row ->
    tentativeOf n' d = Some row' -> idempotency_key row = idempotency_key row' -> n = n';
  dbi_resolved : forall n row, tentativeOf n d = Some row ->
    t_state row = PENDING <-> resolved_at row = None;
  dbi_ttl : forall n row, tentativeOf n d = Some row ->
    expires_at row = created_at row + TENTATIVE_TTL
}.

(** Replace the row of [n] by one with the same key and creation time. *)
Lemma DbInv_update d d' n row row' :
  DbInv d -> tentativeOf n d = Some row ->
  node_status_tentative d' = <[n := row']> (node_status_tentative d) ->
  (forall m, is_Some (node_status d !! m) -> is_Some (node_status d' !! m)) ->
  idempotency_key row' = idempotency_key row -> created_at row' = created_at row ->
  expires_at row' = expires_at row ->
  (t_state row' = PENDING <-> resolved_at row' = None) -> DbInv d'.
Proof.
  intros [H1 H2 H3 H4] Hn E Hst Hk Hc He Hr. unfold tentativeOf in *.
  split; unfold tentativeOf; rewrite E.
  - intros m r. rewrite lookup_insert. case_decide; intros; simplify_eq; eauto.
  - intros m m' r r'. rewrite !lookup_insert.
    repeat case_decide; intros; simplify_eq; auto.
    + eapply H2; eauto; congruence.
    + eapply H2; eauto; congruence.
    + eauto.
  - intros m r. rewrite lookup_insert. case_decide; intros; simplify_eq; eauto.
  - intros m r. rewrite lookup_insert. case_decide; intros; simplify_eq; eauto.
    rewrite He, Hc. eauto.
Qed.

(** Other tables do not matter. *)
Lemma DbInv_same d d' :
  DbInv d -> node_status_tentative d' = node_status_tentative d ->
  (forall m, is_Some (node_status d !! m) -> is_Some (node_status d' !! m)) -> DbInv d'.
Proof.
  intros [H1 H2 H3 H4] E Hst. unfold tentativeOf in *.
  split; unfold tentativeOf; rewrite E; eauto.
Qed.
