(* ===== verification/RollbackHandler.v ===== *)
(** * Coordinated rollback ([src/src/core/state/rollback_handler.ts])

    One transaction: claim the tentative row, log the incident, delete the
    speculative rows, revert the reputation. *)

From Stdlib Require Import ZArith Lia Ascii String.
From stdpp Require Import base list strings gmap sorting.
From S2P Require Import Prelude Js NodeTables.

(** ** The statements of the cascade *)

(** Step 1: the compare-and-swap; [true] when a row was updated. *)
Definition claimRow (now : Z) (node reason : string) : DbM bool :=
  let! d := get in
  match tentativeOf node d with
  | Some row =>
      if isPending row then
        put (set_tentative <[node := mkTentative (target_status row) (idempotency_key row)
               ROLLED_BACK (Some reason) (Some now) (created_at row) (expires_at row)]> d) ;;;
        ret true
      else ret false
  | None => ret false
  end.

Definition appendLog (row : RollbackLogRow) : DbM unit :=
  modify (set_log (fun l => l ++ [row])).

(** Steps 3 and 4 compare with the [created_at] of the node's tentative row;
    with no such row the comparison is with NULL and nothing is deleted. *)
Definition createdSince (node : string) (d : NodeDb) (t : Z) : bool :=
  match tentativeOf node d with
  | Some row => created_at row <=? t
  | None => false
  end.

Definition speculativeReward (node : string) (d : NodeDb) (r : RewardTx) : bool :=
  bool_decide (rw_node_id r = node) && createdSince node d (rw_created_at r).

Definition deleteRewards (node : string) : DbM unit :=
  modify (fun d => set_rewards (filter (fun r => speculativeReward node d r = false)) d).

Definition speculativeAttestation (node : string) (target : NodeStatus) (d : NodeDb)
    (a : Attestation) : bool :=
  bool_decide (at_node_id a = node) && bool_decide (at_status a = target)
  && createdSince node d (at_created_at a).

Definition deleteAttestations (node : string) (target : NodeStatus) : DbM unit :=
  modify (fun d =>
    set_attestations (filter (fun a => speculativeAttestation node target d a = false)) d).

(** Step 5. *)
Definition taggedAdjustment (node key : string) (a : Adjustment) : bool :=
  bool_decide (adj_node_id a = node) && bool_decide (adj_key a = key).

Definition sumDelta (l : list Adjustment) : Z := foldr (fun a s => delta a + s) 0 l.

Definition tagged (node key : string) (l : list Adjustment) : list Adjustment :=
  filter (fun a => taggedAdjustment node key a = true) l.

Definition clampScore (z : Z) : Z := Z.max (-1000) (Z.min 1000 z).

Definition revertedReputation (node key : string) (l : list Adjustment) (r : Reputation)
    : Reputation :=
  mkReputation (clampScore (score r - sumDelta (tagged node key l)))
    (slash_version r
     - Z.of_nat (length (filter (fun a => is_slash a = true) (tagged node key l)))).

Definition revertReputation (node key : string) : DbM unit :=
  modify (fun d => set_reputations
    (alter (revertedReputation node key (reputation_adjustments d)) node) d).

Definition deleteAdjustments (node key : string) : DbM unit :=
  modify (set_adjustments (filter (fun a => taggedAdjustment node key a = false))).

(** [RollbackHandler.execute]; the result is [claimed]. *)
Definition execute (now : Z) (fault : bool) (nodeId idempotencyKey : string)
    (targetStatus : NodeStatus) (reason : string) : DbM bool :=
  transaction (
    may_fail fault ;;;
    let! claimed := claimRow now nodeId reason in
    if negb claimed then ret false
    else
      appendLog (mkRollbackLog nodeId idempotencyKey targetStatus reason) ;;;
      deleteRewards nodeId ;;;
      deleteAttestations nodeId targetStatus ;;;
      revertReputation nodeId idempotencyKey ;;;
      deleteAdjustments nodeId idempotencyKey ;;;
      ret true).

(** ** The contract callers rely on *)

Definition rolledBackRow (now : Z) (reason : string) (row : TentativeRow) : TentativeRow :=
  mkTentative (target_status row) (idempotency_key row) ROLLED_BACK (Some reason)
    (Some now) (created_at row) (expires_at row).

(** The database after the cascade for a pending [row]. *)
Definition cascaded (now : Z) (node key : string) (target : NodeStatus) (reason : string)
    (row : TentativeRow) (d : NodeDb) : NodeDb :=
  mkNodeDb (node_status d)
    (<[node := rolledBackRow now reason row]> (node_status_tentative d))
    (two_phase_rollback_log d ++ [mkRollbackLog node key target reason])
    (filter (fun r => speculativeReward node d r = false) (reward_tx d))
    (filter (fun a => speculativeAttestation node target d a = false) (node_attestations d))
    (alter (revertedReputation node key (reputation_adjustments d)) node (reputations d))
    (filter (fun a => taggedAdjustment node key a = false) (reputation_adjustments d)).

(** What the callers of [execute] may assume. *)
Class RollbackContract
    (exec : Z -> bool -> string -> string -> NodeStatus -> string -> DbM bool) : Prop := {
  rollback_claims : forall now node key target reason d row,
    tentativeOf node d = Some row -> t_state row = PENDING ->
    exec now false node key target reason d
    = (cascaded now node key target reason row d, inr true);
  rollback_skips : forall now node key target reason d,
    hasPending node d = false ->
    exec now false node key target reason d = (d, inr false);
  rollback_fails : forall now node key target reason d,
    exec now true node key target reason d = (d, inl DbFault)
}.

#[export] Instance execute_contract : RollbackContract execute.
Proof.
  split.
  - intros now node key target reason d row Hrow Hp.
    unfold execute, transaction, may_fail, claimRow, appendLog, deleteRewards,
      deleteAttestations, revertReputation, deleteAdjustments.
    unfold bind, get, put, modify, ret, guard. cbn -[filter]. rewrite Hrow. unfold isPending.
    rewrite Hp, bool_decide_true by done. cbn -[filter].
    unfold cascaded. unfold createdSince, speculativeReward, speculativeAttestation,
      createdSince, tentativeOf in *.
    cbn -[filter]. rewrite Hrow, lookup_insert_eq. reflexivity.
  - intros now node key target reason d Hp.
    unfold execute, transaction, may_fail, claimRow.
    unfold bind, get, put, modify, ret, guard. cbn. unfold hasPending in Hp.
    destruct (tentativeOf node d); [|done]. by rewrite Hp.
  - done.
Qed.

Lemma execute_DbInv now fault node key target reason d :
  DbInv d -> DbInv (fst (execute now fault node key target reason d)).
Proof.
  intros HI. destruct fault; [done|].
  destruct (hasPending node d) eqn:Hp.
  - unfold hasPending in Hp. destruct (tentativeOf node d) as [row|] eqn:Hr; [|done].
    unfold isPending in Hp. bool_props.
    rewrite (rollback_claims now node key target reason d row Hr Hp). cbn [fst].
    by eapply (DbInv_update d _ node row (rolledBackRow now reason row)).
  - by rewrite rollback_skips.
Qed.

(** C10: rolling back a pending transition leaves [node_status] alone, removes
    exactly the node's reward rows, attestations of the target and adjustments
    of the key that are speculative, touches no other node, restores the
    reputation the adjustments started from, and cannot happen twice: a second
    [execute], from whichever worker and with whatever key, changes nothing. *)
Theorem rollback_undoes_speculation now node key target reason d row :
  tentativeOf node d = Some row -> t_state row = PENDING ->
  let (d', claimed) := execute now false node key target reason d in
  claimed = inr true /\ node_status d' = node_status d /\
  tentativeOf node d' = Some (rolledBackRow now reason row) /\
  (forall r, r ∈ reward_tx d' <->
     r ∈ reward_tx d /\ ~ (rw_node_id r = node /\ created_at row <= rw_created_at r)) /\
  (forall a, a ∈ node_attestations d' <->
     a ∈ node_attestations d /\
     ~ (at_node_id a = node /\ at_status a = target /\ created_at row <= at_created_at a)) /\
  (forall a, a ∈ reputation_adjustments d' <->
     a ∈ reputation_adjustments d /\ ~ (adj_node_id a = node /\ adj_key a = key)) /\
  (forall n, n <> node -> reputations d' !! n = reputations d !! n /\
     tentativeOf n d' = tentativeOf n d) /\
  (forall s0 v0, -1000 <= s0 <= 1000 ->
     let adjs := tagged node key (reputation_adjustments d) in
     let slashes := Z.of_nat (length (filter (fun a => is_slash a = true) adjs)) in
     reputations d !! node = Some (mkReputation (s0 + sumDelta adjs) (v0 + slashes)) ->
     reputations d' !! node = Some (mkReputation s0 v0)) /\
  (forall now' key' target' reason',
     execute now' false node key' target' reason' d' = (d', inr false)).
Proof.
  intros Hr Hp. rewrite (rollback_claims now node key target reason d row Hr Hp).
  split_and!; try done.
  - unfold tentativeOf. cbn. by rewrite lookup_insert_eq.
  - intros r. cbn -[filter]. rewrite list_elem_of_filter.
    unfold speculativeReward, createdSince. rewrite Hr.
    rewrite andb_false_iff, bool_decide_eq_false, Z.leb_gt, not_and_l, Z.nle_gt. tauto.
  - intros a. cbn -[filter]. rewrite list_elem_of_filter.
    unfold speculativeAttestation, createdSince. rewrite Hr.
    rewrite !andb_false_iff, !bool_decide_eq_false, Z.leb_gt, !not_and_l, Z.nle_gt. tauto.
  - intros a. cbn -[filter]. rewrite list_elem_of_filter.
    unfold taggedAdjustment. rewrite andb_false_iff, !bool_decide_eq_false, not_and_l. tauto.
  - intros n Hn. unfold tentativeOf. cbn.
    by rewrite lookup_alter_ne, lookup_insert_ne by done.
  - intros s0 v0 Hs adjs slashes Hrep. cbn. rewrite lookup_alter_eq, Hrep. cbn.
    f_equal. unfold revertedReputation, clampScore. cbn -[filter].
    fold adjs. fold slashes. f_equal; lia.
  - intros now' key' target' reason'. apply rollback_skips.
    unfold hasPending, tentativeOf. cbn. by rewrite lookup_insert_eq.
Qed.

(** ** Witnesses *)

Module Examples.
Definition row1 : TentativeRow := mkTentative Slashed "k1" PENDING None None 1000 31000.
Definition d1 : NodeDb :=
  mkNodeDb {["n1" := Active]} {["n1" := row1]} [] [mkRewardTx "n1" 900; mkRewardTx "n1" 1500]
    [mkAttestation "n1" Slashed 1200] {["n1" := mkReputation 60 2]}
    [mkAdjustment "n1" "k1" (-20) true].

Lemma rollback_undoes_speculation_witness :
  let d' := fst (execute 2000 false "n1" "k1" Slashed "expired" d1) in
  reputations d' !! "n1" = Some (mkReputation 80 1) /\ ~ (mkRewardTx "n1" 1500 ∈ reward_tx d').
Proof.
  pose proof (rollback_undoes_speculation 2000 "n1" "k1" Slashed "expired" d1 row1
    eq_refl eq_refl) as H.
  destruct (execute _ _ _ _ _ _ _) as [d' b].
  destruct H as (_ & _ & _ & Hr & _ & _ & _ & Hrep & _). split.
  - apply (Hrep 80 1); [lia|reflexivity].
  - intros [_ Hn]%Hr. apply Hn. cbn. split; [reflexivity|lia].
Defined.
End Examples.
