(* ===== verification/TwoPhaseController.v ===== *)
(** * Two-phase node status transitions ([src/src/core/state/two_phase_controller.ts])

    A transition is a job of the event loop: each [await] is a point where
    other jobs run.  [stepJob] resumes a job with what it was waiting for (a
    [Reply]); [transition] resumes it until it ends with nothing in between.
    Hashing and the RPC's answers come from outside: the idempotency key, the
    outcome of the contract call and the failures of the database are part of
    the replies.  [encodeStatusTransitionTx] only produces the RPC's argument. *)

From Stdlib Require Import ZArith Lia Ascii String.
From stdpp Require Import base list strings gmap sorting pretty.
From S2P Require Import Prelude Js NodeTables RollbackHandler.

Definition COMMIT_RETRY_ATTEMPTS : nat := 2.

Definition VALID_TRANSITIONS (s : NodeStatus) : list NodeStatus :=
  match s with
  | Provisioned => [Pending]
  | Pending => [Active]
  | Active => [Slashed; Archived]
  | Slashed => [Archived]
  | Archived => []
  end.

Definition allows (current target : NodeStatus) : bool :=
  bool_decide (target ∈ VALID_TRANSITIONS current).

(** ** The idempotency key *)

(** [parseInt(resp.latestLedger, 10)], 0 when it is not finite or the call
    threw: [None]. *)
Definition fetchLedgerSequence (answer : option Z) : Z := default 0 answer.

Definition keyPreimage (nodeId : string) (ledgerSequence : Z) (nonce : string) : string :=
  (nodeId ++ ":" ++ pretty ledgerSequence ++ ":" ++ nonce)%string.

Definition buildIdempotencyKey (sha256hex : string -> string) (nodeId : string)
    (ledgerSequence : Z) (nonce : string) : string :=
  sha256hex (keyPreimage nodeId ledgerSequence nonce).

(** ** Results *)

Record TransitionResult := mkResult {
  res_nodeId : string;
  res_previousStatus : NodeStatus;
  res_targetStatus : NodeStatus;
  res_idempotencyKey : string;
  res_txHash : option string;
  res_committed : bool;
  res_rolledBack : bool
}.

Inductive ControllerError :=
  | NodeNotFound
  | IllegalTransition (current target : NodeStatus)
  | AlreadyPending (existing : option TentativeRow)
  | DbFailure (e : DbError).

Abbreviation TM := (M NodeDb ControllerError).

Definition onDb {A} (m : DbM A) : TM A :=
  zoom (fun d => d) (fun d _ => d) DbFailure m.

(** ** Statements *)

Definition fetchCommittedStatus (fault : bool) (node : string) : DbM (option NodeStatus) :=
  may_fail fault ;;; gets (fun d => node_status d !! node).

Definition fetchTentativeRow (fault : bool) (node : string) : DbM (option TentativeRow) :=
  may_fail fault ;;; gets (tentativeOf node).

(** Another node's row holds the key. *)
Definition keyTaken (node key : string) (d : NodeDb) : bool :=
  existsb (fun e => negb (bool_decide (e.1 = node)) && bool_decide (idempotency_key e.2 = key))
    (map_to_list (node_status_tentative d)).

(** The guarded upsert of phase 1; the result is [rowCount]. *)
Definition insertTentative (fault : bool) (now : Z) (node : string) (target : NodeStatus)
    (key : string) : DbM nat :=
  may_fail fault ;;;
  let! d := get in
  if hasPending node d then ret 0%nat
  else
    guard (match tentativeOf node d with
           | Some _ => true
           | None => bool_decide (is_Some (node_status d !! node))
           end) ForeignKeyViolation ;;;
    guard (negb (keyTaken node key d)) UniqueViolation ;;;
    put (set_tentative <[node := mkTentative target key PENDING None None now
                                   (now + TENTATIVE_TTL)]> d) ;;;
    ret 1%nat.

Definition updateStatus (node : string) (target : NodeStatus) : DbM unit :=
  modify (set_status (alter (fun _ => target) node)).

(** [UPDATE ... SET state = 'COMMITTED'], with [error_detail] when given. *)
Definition committedRow (now : Z) (detail : option string) (row : TentativeRow) :=
  mkTentative (target_status row) (idempotency_key row) COMMITTED
    (match detail with Some x => Some x | None => error_detail row end)
    (Some now) (created_at row) (expires_at row).

Definition markCommitted (now : Z) (node : string) (detail : option string) : DbM unit :=
  modify (set_tentative (alter (committedRow now detail) node)).

Definition commitTx (now : Z) (fault : bool) (node : string) (target : NodeStatus)
    (detail : option string) : DbM unit :=
  transaction (may_fail fault ;;; updateStatus node target ;;; markCommitted now node detail).

Definition COMMIT_FAILED_DETAIL : string :=
  "COMMIT_FAILED_ONCHAIN_CONFIRMED: requires admin resolveTentative(commit)".

Definition commitFailedRow (row : TentativeRow) : TentativeRow :=
  if isPending row then
    mkTentative (target_status row) (idempotency_key row) (t_state row)
      (Some COMMIT_FAILED_DETAIL) (resolved_at row) (created_at row) (expires_at row)
  else row.

Definition markCommitFailed (fault : bool) (node : string) : DbM unit :=
  may_fail fault ;;; modify (set_tentative (alter commitFailedRow node)).

(** ** Phase 2 *)

(** [sendTransaction]: an answer, or an exception with its message when it is
    an [Error]. *)
Inductive RpcOutcome :=
  | RpcAnswer (success : bool) (hash : string) (error : option string)
  | RpcThrew (message : option string).

(** [inl contractError] or [inr txHash]. *)
Definition phase2 (o : RpcOutcome) : string + string :=
  match o with
  | RpcAnswer true hash _ => inr hash
  | RpcAnswer false _ error => inl (default "Contract rejected the transaction" error)
  | RpcThrew message => inl (default "RPC threw unexpectedly" message)
  end.

(** ** The job of one [transition] call *)

Record Reply := mkReply {
  rep_now : Z;              (* NOW() of the statement *)
  rep_fault : bool;         (* the database call rejects *)
  rep_key : string;         (* the idempotency key, drawn in phase 1 *)
  rep_rpc : RpcOutcome
}.

Inductive Job :=
  | AwaitPhase1 (node : string) (current target : NodeStatus)
  | AwaitRpc (node : string) (current target : NodeStatus) (key : string)
  | AwaitCommit (node : string) (current target : NodeStatus) (key hash : string)
      (attemptsLeft : nat)
  | AwaitMark (node : string) (current target : NodeStatus) (key hash : string)
  | AwaitRollback (node : string) (current target : NodeStatus) (key reason : string)
  | Finished (outcome : ControllerError + TransitionResult).

(** The checks before the first write. *)
Definition transitionBegin (fault : bool) (node : string) (target : NodeStatus) : TM NodeStatus :=
  let! current := onDb (fetchCommittedStatus fault node) in
  match current with
  | None => throw NodeNotFound
  | Some s =>
      guard (allows s target) (IllegalTransition s target) ;;;
      ret s
  end.

Definition phase1 (r : Reply) (node : string) (target : NodeStatus) : TM unit :=
  let! rowCount := onDb (insertTentative (rep_fault r) (rep_now r) node target (rep_key r)) in
  if (rowCount =? 0)%nat then
    let! existing := onDb (fetchTentativeRow (rep_fault r) node) in
    throw (AlreadyPending existing)
  else ret tt.

(** The end of a method body becomes the job's next state. *)
Definition continue {A} (m : TM A) (k : A -> Job) (d : NodeDb) : NodeDb * Job :=
  match m d with
  | (d', inl e) => (d', Finished (inl e))
  | (d', inr a) => (d', k a)
  end.

Definition beginJob (fault : bool) (node : string) (target : NodeStatus) (d : NodeDb)
    : NodeDb * Job :=
  continue (transitionBegin fault node target) (fun s => AwaitPhase1 node s target) d.

Definition stepJob (r : Reply) (job : Job) (d : NodeDb) : NodeDb * Job :=
  match job with
  | AwaitPhase1 node current target =>
      continue (phase1 r node target) (fun _ => AwaitRpc node current target (rep_key r)) d
  | AwaitRpc node current target key =>
      (d, match phase2 (rep_rpc r) with
          | inr hash => AwaitCommit node current target key hash COMMIT_RETRY_ATTEMPTS
          | inl contractError => AwaitRollback node current target key contractError
          end)
  | AwaitCommit node current target key hash attemptsLeft =>
      match attemptsLeft with
      | O => (d, AwaitMark node current target key hash)
      | S n =>
          match commitTx (rep_now r) (rep_fault r) node target None d with
          | (d', inr _) =>
              (d', Finished (inr (mkResult node current target key (Some hash) true false)))
          | (d', inl _) =>
              (d', match n with
                   | O => AwaitMark node current target key hash
                   | _ => AwaitCommit node current target key hash n
                   end)
          end
      end
  | AwaitMark node current target key hash =>
      (* best effort: a failure is swallowed *)
      (fst (markCommitFailed (rep_fault r) node d),
       Finished (inr (mkResult node current target key (Some hash) false false)))
  | AwaitRollback node current target key reason =>
      continue (onDb (execute (rep_now r) (rep_fault r) node key target reason))
        (fun _ => Finished (inr (mkResult node current target key None false true))) d
  | Finished _ => (d, job)
  end.

Definition runJob (replies : list Reply) (job : Job) (d : NodeDb) : NodeDb * Job :=
  foldl (fun s r => stepJob r s.2 s.1) (d, job) replies.

(** The whole method, uninterrupted. *)
Definition transition (fault : bool) (replies : list Reply) (node : string)
    (target : NodeStatus) (d : NodeDb) : NodeDb * Job :=
  let (d', job) := beginJob fault node target d in runJob replies job d'.

(** ** Reading the effective status *)

Inductive GetStatusResult :=
  | CommittedStatus (status : NodeStatus)
  | TentativeStatus (status : NodeStatus) (key : string) (expiresAt : Z).

Definition liveTentative (now : Z) (node : string) (d : NodeDb) : option TentativeRow :=
  match tentativeOf node d with
  | Some row => if isPending row && (now <? expires_at row) then Some row else None
  | None => None
  end.

Definition getNodeStatus (now : Z) (node : string) (d : NodeDb) : option GetStatusResult :=
  match liveTentative now node d with
  | Some row => Some (TentativeStatus (target_status row) (idempotency_key row) (expires_at row))
  | None => CommittedStatus <$> node_status d !! node
  end.

(** ** Admin resolution, split at its [await] *)

Inductive Resolution := ResolveCommit | ResolveRollback.
Inductive ResolveOutcome := OutCommitted | OutRolledBack | OutNoPendingRow.

Definition resolveBegin (fault : bool) (node : string) : TM (option TentativeRow) :=
  let! row := onDb (fetchTentativeRow fault node) in
  ret (match row with
       | Some r => if isPending r then Some r else None
       | None => None
       end).

Definition resolveFinish (now : Z) (fault : bool) (node : string) (row : TentativeRow)
    (resolution : Resolution) : TM ResolveOutcome :=
  match resolution with
  | ResolveCommit =>
      onDb (commitTx now fault node (target_status row) (Some "Admin force-commit")) ;;;
      ret OutCommitted
  | ResolveRollback =>
      onDb (execute now fault node (idempotency_key row) (target_status row)
        "Admin force-rollback via /internal/state/resolve-tentative") ;;;
      ret OutRolledBack
  end.

Definition resolveTentative (now : Z) (fault : bool) (node : string)
    (resolution : Resolution) : TM (bool * ResolveOutcome) :=
  let! row := resolveBegin fault node in
  match row with
  | None => ret (false, OutNoPendingRow)
  | Some row =>
      let! outcome := resolveFinish now fault node row resolution in
      ret (true, outcome)
  end.

(** ** Step equations *)

Definition pendingRow (now : Z) (target : NodeStatus) (key : string) : TentativeRow :=
  mkTentative target key PENDING None None now (now + TENTATIVE_TTL).

Definition written (now : Z) (node : string) (target : NodeStatus) (key : string) (d : NodeDb) :=
  set_tentative <[node := pendingRow now target key]> d.

Lemma beginJob_ok node current target d :
  node_status d !! node = Some current -> allows current target = true ->
  beginJob false node target d = (d, AwaitPhase1 node current target).
Proof.
  intros Hn Ha. unfold beginJob, continue, transitionBegin, onDb, zoom, fetchCommittedStatus,
    may_fail, guard, bind, ret, gets. cbn. by rewrite Hn, Ha.
Qed.

Lemma insertTentative_fresh now node target key d :
  is_Some (node_status d !! node) -> hasPending node d = false ->
  keyTaken node key d = false ->
  insertTentative false now node target key d = (written now node target key d, inr 1%nat).
Proof.
  intros Hn Hp Hk. unfold insertTentative, may_fail, bind, guard, ret, get, put. cbn.
  rewrite Hp. assert ((match tentativeOf node d with Some _ => true
    | None => bool_decide (is_Some (node_status d !! node)) end) = true) as ->
    by (destruct (tentativeOf node d); [done|by rewrite bool_decide_true]).
  by rewrite Hk.
Qed.

Lemma stepJob_phase1 r node current target d :
  rep_fault r = false -> is_Some (node_status d !! node) -> hasPending node d = false ->
  keyTaken node (rep_key r) d = false ->
  stepJob r (AwaitPhase1 node current target) d
  = (written (rep_now r) node target (rep_key r) d, AwaitRpc node current target (rep_key r)).
Proof.
  intros Hf Hn Hp Hk. cbn. unfold continue, phase1, onDb, zoom, bind. rewrite Hf.
  by rewrite insertTentative_fresh.
Qed.

Lemma tentativeOf_written now node target key d :
  tentativeOf node (written now node target key d) = Some (pendingRow now target key).
Proof. unfold tentativeOf. cbn. apply lookup_insert_eq. Qed.

(** ** Properties of one call *)

(** What became of a transition with a free node and a fresh key. *)
Definition committedIn (now : Z) (node : string) (target : NodeStatus) (key : string)
    (d d' : NodeDb) : Prop :=
  node_status d' = <[node := target]> (node_status d) /\
  exists row, tentativeOf node d' = Some row /\ idempotency_key row = key /\
    target_status row = target /\ t_state row = COMMITTED /\ resolved_at row = Some now.

Definition leftPending (node : string) (target : NodeStatus) (key : string)
    (detail : option string) (d d' : NodeDb) : Prop :=
  node_status d' = node_status d /\
  exists row, tentativeOf node d' = Some row /\ idempotency_key row = key /\
    target_status row = target /\ t_state row = PENDING /\ error_detail row = detail.

Definition rolledBackIn (node : string) (target : NodeStatus) (key reason : string)
    (d d' : NodeDb) : Prop :=
  node_status d' = node_status d /\
  two_phase_rollback_log d'
  = two_phase_rollback_log d ++ [mkRollbackLog node key target reason] /\
  exists row, tentativeOf node d' = Some row /\ idempotency_key row = key /\
    target_status row = target /\ t_state row = ROLLED_BACK /\ error_detail row = Some reason.

Definition othersUntouched (node : string) (d d' : NodeDb) : Prop :=
  forall n, n <> node -> node_status d' !! n = node_status d !! n /\
    tentativeOf n d' = tentativeOf n d.

Lemma commitTx_fault now node target detail d :
  commitTx now true node target detail d = (d, inl DbFault).
Proof. done. Qed.

Lemma commitTx_ok now node target detail d :
  commitTx now false node target detail d
  = (fst (commitTx now false node target detail d), inr tt).
Proof. done. Qed.

Lemma commit_written now now' node target key d :
  is_Some (node_status d !! node) ->
  let d' := fst (commitTx now' false node target None (written now node target key d)) in
  committedIn now' node target key d d' /\ othersUntouched node d d'.
Proof.
  intros [s Hs]. cbn. unfold committedIn, othersUntouched, tentativeOf. cbn. split.
  - split.
    + apply map_eq. intros m. destruct (decide (m = node)) as [->|].
      * by rewrite lookup_alter_eq, lookup_insert_eq, Hs.
      * by rewrite lookup_alter_ne, lookup_insert_ne.
    + rewrite lookup_alter_eq, lookup_insert_eq. cbn. eexists. by split_and!.
  - intros n Hn. by rewrite !lookup_alter_ne, lookup_insert_ne by done.
Qed.

Lemma mark_written now fault node target key d :
  let d' := fst (markCommitFailed fault node (written now node target key d)) in
  leftPending node target key (if fault then None else Some COMMIT_FAILED_DETAIL) d d' /\
  othersUntouched node d d'.
Proof.
  destruct fault; cbn; unfold leftPending, othersUntouched, tentativeOf; cbn.
  - split; [split; [done|]|].
    + rewrite lookup_insert_eq. eexists. by split_and!.
    + intros n Hn. by rewrite lookup_insert_ne.
  - split; [split; [done|]|].
    + rewrite lookup_alter_eq, lookup_insert_eq. eexists. by split_and!.
    + intros n Hn. by rewrite lookup_alter_ne, lookup_insert_ne.
Qed.

Lemma rollback_written now now' node target key reason d :
  let d' := fst (execute now' false node key target reason (written now node target key d)) in
  rolledBackIn node target key reason d d' /\ othersUntouched node d d'.
Proof.
  erewrite rollback_claims by (apply tentativeOf_written || done).
  unfold rolledBackIn, othersUntouched, tentativeOf. cbn. split; [split_and!; [done..|]|].
  - rewrite lookup_insert_eq. eexists. by split_and!.
  - intros n Hn. by rewrite !lookup_insert_ne.
Qed.

Lemma transition_outcomes_spec r1 r2 r3 r4 r5 node current target d :
  node_status d !! node = Some current -> allows current target = true ->
  hasPending node d = false -> keyTaken node (rep_key r1) d = false ->
  rep_fault r1 = false ->
  let key := rep_key r1 in
  let (d', job) := transition false [r1; r2; r3; r4; r5] node target d in
  othersUntouched node d d' /\
  match phase2 (rep_rpc r2) with
  | inr hash =>
      if rep_fault r3 && rep_fault r4 then
        job = Finished (inr (mkResult node current target key (Some hash) false false)) /\
        leftPending node target key
          (if rep_fault r5 then None else Some COMMIT_FAILED_DETAIL) d d'
      else
        job = Finished (inr (mkResult node current target key (Some hash) true false)) /\
        committedIn (if rep_fault r3 then rep_now r4 else rep_now r3) node target key d d'
  | inl reason =>
      if rep_fault r3 then
        job = Finished (inl (DbFailure DbFault)) /\ leftPending node target key None d d'
      else
        job = Finished (inr (mkResult node current target key None false true)) /\
        rolledBackIn node target key reason d d'
  end.
Proof.
  intros Hn Ha Hp Hk Hf key. unfold transition. rewrite (beginJob_ok node current) by done.
  unfold runJob. cbn [foldl fst snd]. rewrite stepJob_phase1 by done.
  fold key. cbn [fst snd]. cbn [stepJob].
  destruct (phase2 (rep_rpc r2)) as [reason|hash]; cbn [stepJob fst snd COMMIT_RETRY_ATTEMPTS].
  - unfold continue, onDb, zoom. destruct (rep_fault r3).
    + rewrite rollback_fails. cbn [stepJob fst snd].
      destruct (mark_written (rep_now r1) true node target key d) as [? ?]. done.
    + destruct (rollback_written (rep_now r1) (rep_now r3) node target key reason d) as [H1 H2].
      rewrite (rollback_claims _ _ _ _ _ _ _ (tentativeOf_written _ _ _ _ _) eq_refl) in *.
      cbn [stepJob fst snd] in *. done.
  - destruct (rep_fault r3).
    + rewrite commitTx_fault. cbn [stepJob fst snd].
      destruct (rep_fault r4); cbn [andb].
      * rewrite commitTx_fault. cbn [stepJob fst snd].
        destruct (mark_written (rep_now r1) (rep_fault r5) node target key d). done.
      * rewrite commitTx_ok. cbn [stepJob fst snd].
        by destruct (commit_written (rep_now r1) (rep_now r4) node target key d ltac:(eauto)).
    + rewrite commitTx_ok. cbn [stepJob fst snd andb].
      by destruct (commit_written (rep_now r1) (rep_now r3) node target key d ltac:(eauto)).
Qed.


Lemma runJob_finished replies o d : runJob replies (Finished o) d = (d, Finished o).
Proof. induction replies; [done|]. exact IHreplies. Qed.

(** a transition the state machine or a pending row forbids is rejected
    before anything is written, whatever the environment answers later. *)
Theorem rejected_transition_writes_nothing r replies node target d :
  rep_fault r = false ->
  let result := transition false (r :: replies) node target d in
  (node_status d !! node = None -> result = (d, Finished (inl NodeNotFound))) /\
  (forall current, node_status d !! node = Some current ->
     (target ∉ VALID_TRANSITIONS current ->
        result = (d, Finished (inl (IllegalTransition current target)))) /\
     (target ∈ VALID_TRANSITIONS current -> hasPending node d = true ->
        result = (d, Finished (inl (AlreadyPending (tentativeOf node d)))))).
Proof.
  intros Hf result. unfold result, transition. split_and!.
  - intros Hn. unfold beginJob, continue, transitionBegin, onDb, zoom, fetchCommittedStatus,
      may_fail, guard, bind, ret, gets. cbn [negb]. rewrite Hn. apply runJob_finished.
  - intros current Hn. split.
    + intros Ht. unfold beginJob, continue, transitionBegin, onDb, zoom, fetchCommittedStatus,
        may_fail, guard, bind, ret, gets. cbn [negb]. rewrite Hn. unfold allows.
      rewrite bool_decide_false by done. apply runJob_finished.
    + intros Ht Hp. rewrite (beginJob_ok node current) by (try apply bool_decide_true; done).
      unfold runJob. cbn [foldl fst snd stepJob].
      unfold continue, phase1, onDb, zoom, insertTentative, fetchTentativeRow, may_fail, guard,
        bind, ret, get, gets. rewrite Hf. cbn [negb]. rewrite Hp. cbn [Nat.eqb].
      apply runJob_finished.
Qed.

Lemma getNodeStatus_committedIn t now node target key d d' :
  committedIn now node target key d d' ->
  getNodeStatus t node d' = Some (CommittedStatus target).
Proof.
  intros (Hs & row & Hr & _ & _ & Hst & _). unfold getNodeStatus, liveTentative, isPending.
  by rewrite Hr, Hst, Hs, lookup_insert_eq.
Qed.

Lemma getNodeStatus_rolledBackIn t node current target key reason d d' :
  node_status d !! node = Some current -> rolledBackIn node target key reason d d' ->
  getNodeStatus t node d' = Some (CommittedStatus current).
Proof.
  intros Hn (Hs & _ & row & Hr & _ & _ & Hst & _).
  unfold getNodeStatus, liveTentative, isPending. by rewrite Hr, Hst, Hs, Hn.
Qed.

(** what readers see: from phase 1 until the 30 s expiry the tentative
    target, afterwards the committed status; once the transition returned, the
    target if it was committed, the previous status if it was rolled back. *)
Theorem reads_follow_transition r1 r2 r3 r4 r5 node current target d :
  node_status d !! node = Some current -> allows current target = true ->
  hasPending node d = false -> keyTaken node (rep_key r1) d = false ->
  rep_fault r1 = false ->
  (forall t, getNodeStatus t node (fst (transition false [r1] node target d)) =
     Some (if t <? rep_now r1 + 30000
           then TentativeStatus target (rep_key r1) (rep_now r1 + 30000)
           else CommittedStatus current)) /\
  (let (d', job) := transition false [r1; r2; r3; r4; r5] node target d in
   forall t res, job = Finished (inr res) ->
     (res_committed res = true -> getNodeStatus t node d' = Some (CommittedStatus target)) /\
     (res_rolledBack res = true -> getNodeStatus t node d' = Some (CommittedStatus current))).
Proof.
  intros Hn Ha Hp Hk Hf. split.
  - intros t. unfold transition. rewrite (beginJob_ok node current) by done.
    unfold runJob. cbn [foldl fst snd]. rewrite stepJob_phase1 by done. cbn [fst].
    unfold getNodeStatus, liveTentative. rewrite tentativeOf_written. cbn.
    unfold TENTATIVE_TTL. destruct (t <? rep_now r1 + 30000); [done|]. cbn. by rewrite Hn.
  - pose proof (transition_outcomes_spec r1 r2 r3 r4 r5 node current target d Hn Ha Hp Hk Hf) as H.
    destruct (transition false _ node target d) as [d' job].
    destruct H as [_ H]. intros t res ->.
    destruct (phase2 (rep_rpc r2)); [destruct (rep_fault r3)|destruct (rep_fault r3 && rep_fault r4)];
      destruct H as [Hj H]; simplify_eq; cbn;
      (split; intros; try done;
       eauto using getNodeStatus_committedIn, getNodeStatus_rolledBackIn).
Qed.

(** ** Witnesses *)

Module Examples.
Definition d0 : NodeDb :=
  mkNodeDb {["n1" := Active; "n2" := Pending]} ∅ [] [mkRewardTx "n1" 900; mkRewardTx "n1" 1500]
    [mkAttestation "n1" Slashed 1200] {["n1" := mkReputation 80 1]}
    [mkAdjustment "n1" "k1" (-20) true].
Definition ok (now : Z) : Reply := mkReply now false "k1" (RpcAnswer true "tx1" None).
Definition down (now : Z) : Reply := mkReply now true "k1" (RpcThrew (Some "timeout")).


Lemma rejected_transition_witness :
  transition false [ok 1000] "n2" Slashed d0 = (d0, Finished (inl (IllegalTransition Pending Slashed))).
Proof.
  refine (proj1 (proj2 (rejected_transition_writes_nothing (ok 1000) [] "n2" Slashed d0 eq_refl)
    Pending eq_refl) _).
  cbn. set_solver.
Defined.

Lemma reads_follow_transition_witness :
  getNodeStatus 30999 "n1" (fst (transition false [ok 1000] "n1" Slashed d0))
    = Some (TentativeStatus Slashed "k1" 31000) /\
  getNodeStatus 31000 "n1" (fst (transition false [ok 1000] "n1" Slashed d0))
    = Some (CommittedStatus Active).
Proof.
  destruct (reads_follow_transition (ok 1000) (ok 1001) (ok 1002) (ok 1003) (ok 1004)
    "n1" Active Slashed d0 eq_refl eq_refl eq_refl eq_refl eq_refl) as [H _].
  split; rewrite H; reflexivity.
Defined.
End Examples.
