(* ===== verification/TentativeCleanupWorker.v ===== *)
(** * Sweeping expired tentative rows ([src/src/core/state/tentative_cleanup_worker.ts])

    A sweep selects the expired rows and rolls each back through the handler.
    The worker is proved against [RollbackContract], not against the handler's
    body.  [locked] are the nodes whose rows other transactions hold
    ([SKIP LOCKED]); rows with equal expiry come in some fixed order. *)

From Stdlib Require Import ZArith Lia Ascii String Sorting.Sorted.
From stdpp Require Import base list strings gmap sorting.
From S2P Require Import Prelude Js NodeTables RollbackHandler TwoPhaseController.

(** SQL [LIKE 'prefix%']: an underscore stands for any character. *)
Fixpoint like_prefix (pattern s : string) : bool :=
  match pattern, s with
  | EmptyString, _ => true
  | String p pattern', String c s' =>
      (bool_decide (p = "_"%char) || bool_decide (p = c)) && like_prefix pattern' s'
  | String _ _, EmptyString => false
  end.

(** The [WHERE] clause of the sweep. *)
Definition sweepable (now : Z) (row : TentativeRow) : bool :=
  isPending row && (expires_at row <? now)
  && match error_detail row with
     | None => true
     | Some detail => negb (like_prefix "COMMIT_FAILED" detail)
     end.

Definition expires_le (a b : string * TentativeRow) : Prop :=
  expires_at a.2 <= expires_at b.2.
#[export] Instance expires_le_dec a b : Decision (expires_le a b).
Proof. unfold expires_le. apply _. Defined.
#[export] Instance expires_le_total : Total expires_le.
Proof. intros a b. unfold expires_le. lia. Qed.
#[export] Instance expires_le_trans : Transitive expires_le.
Proof. intros a b c. unfold expires_le. lia. Qed.

Definition sweepCandidates (now : Z) (locked : list string) (d : NodeDb)
    : list (string * TentativeRow) :=
  merge_sort expires_le
    (filter (fun e => sweepable now e.2 && negb (bool_decide (e.1 ∈ locked)) = true)
       (map_to_list (node_status_tentative d))).

Definition selectExpired (now : Z) (locked : list string) (batchSize : nat) (d : NodeDb)
    : list (string * TentativeRow) :=
  take batchSize (sweepCandidates now locked d).

Record CleanupWorkerMetrics := mkMetrics {
  rollbacksTotal : nat; sweepsTotal : nat; skippedTotal : nat; lastSweepAt : Z
}.

Definition new_metrics : CleanupWorkerMetrics := mkMetrics 0 0 0 0.

Record SweepState := mkSweep { sw_db : NodeDb; sw_metrics : CleanupWorkerMetrics }.

Abbreviation SM := (M SweepState DbError).

Definition SWEEP_REASON : string :=
  "Expired without on-chain confirmation (TentativeCleanupWorker sweep)".

Definition countSweep (now : Z) (s : SweepState) : SweepState :=
  let m := sw_metrics s in
  mkSweep (sw_db s) (mkMetrics (rollbacksTotal m) (S (sweepsTotal m)) (skippedTotal m) now).

Definition countRow (claimed : bool) (s : SweepState) : SweepState :=
  let m := sw_metrics s in
  mkSweep (sw_db s)
    (if claimed then mkMetrics (S (rollbacksTotal m)) (sweepsTotal m) (skippedTotal m) (lastSweepAt m)
     else mkMetrics (rollbacksTotal m) (sweepsTotal m) (S (skippedTotal m)) (lastSweepAt m)).

Section worker.
Context (exec : Z -> bool -> string -> string -> NodeStatus -> string -> DbM bool).

(** One iteration of the loop body. *)
Definition sweepRow (now : Z) (fault : bool) (e : string * TentativeRow) : SM bool :=
  let! claimed := zoom sw_db (fun d s => mkSweep d (sw_metrics s)) (fun err => err)
    (exec now fault e.1 (idempotency_key e.2) (target_status e.2) SWEEP_REASON) in
  modify (countRow claimed) ;;;
  ret claimed.

(** The loop; a rejected rollback ends the sweep.  [faults] tells which of the
    rollbacks the database rejects. *)
Fixpoint sweepLoop (now : Z) (faults : list bool) (rows : list (string * TentativeRow))
    (processed skipped : nat) : SM (nat * nat) :=
  match rows with
  | [] => ret (processed, skipped)
  | e :: rows' =>
      let! claimed := sweepRow now (hd false faults) e in
      if claimed then sweepLoop now (tl faults) rows' (S processed) skipped
      else sweepLoop now (tl faults) rows' processed (S skipped)
  end.

Definition sweep (now : Z) (locked : list string) (batchSize : nat) (fault : bool)
    (faults : list bool) : SM (nat * nat) :=
  modify (countSweep now) ;;;
  guard (negb fault) DbFault ;;;
  let! rows := gets (fun s => selectExpired now locked batchSize (sw_db s)) in
  if bool_decide (rows = []) then ret (0%nat, 0%nat)
  else sweepLoop now faults rows 0 0.
End worker.

(** ** The selection *)

Lemma NoDup_take' {A} k (l : list A) : NoDup l -> NoDup (take k l).
Proof. rewrite <- (take_drop k l) at 1. by intros [? _]%NoDup_app. Qed.

Lemma elem_of_candidates now locked d n row :
  (n, row) ∈ sweepCandidates now locked d <->
  tentativeOf n d = Some row /\ sweepable now row = true /\ n ∉ locked.
Proof.
  unfold sweepCandidates. rewrite merge_sort_Permutation, list_elem_of_filter.
  cbn [fst snd]. rewrite andb_true_iff, negb_true_iff, bool_decide_eq_false.
  rewrite elem_of_map_to_list. unfold tentativeOf. tauto.
Qed.

Lemma NoDup_candidates now locked d : NoDup (sweepCandidates now locked d).*1.
Proof.
  unfold sweepCandidates. rewrite merge_sort_Permutation.
  apply NoDup_fmap_filter, NoDup_fst_map_to_list.
Qed.

Lemma candidates_sorted now locked d : Sorted expires_le (sweepCandidates now locked d).
Proof. apply Sorted_merge_sort. apply _. Qed.

Lemma selected_candidate now locked batch d e :
  e ∈ selectExpired now locked batch d -> e ∈ sweepCandidates now locked d.
Proof. intros (i & ? & _)%elem_of_take. by eapply list_elem_of_lookup_2. Qed.

(** Oldest first: what is left out expires no earlier than what is taken. *)
Lemma oldest_first now locked batch d e e' :
  e ∈ selectExpired now locked batch d -> e' ∈ sweepCandidates now locked d ->
  e' ∉ selectExpired now locked batch d -> expires_at e.2 <= expires_at e'.2.
Proof.
  intros He He' Hn. unfold selectExpired in *.
  pose proof (candidates_sorted now locked d) as Hs%Sorted_StronglySorted; [|apply _].
  rewrite <- (take_drop batch (sweepCandidates now locked d)) in Hs, He'.
  apply elem_of_app in He' as [?|He']; [done|].
  exact (StronglySorted_app_1_elem_of _ _ _ _ _ Hs He He').
Qed.

(** ** The effect of a sweep *)

Definition sweptRow (now : Z) (d : NodeDb) (e : string * TentativeRow) : NodeDb :=
  cascaded now e.1 (idempotency_key e.2) (target_status e.2) SWEEP_REASON e.2 d.

Definition swept (now : Z) (rows : list (string * TentativeRow)) (d : NodeDb) : NodeDb :=
  foldl (sweptRow now) d rows.

Definition sweepLogRow (e : string * TentativeRow) : RollbackLogRow :=
  mkRollbackLog e.1 (idempotency_key e.2) (target_status e.2) SWEEP_REASON.

Lemma tentativeOf_sweptRow now d e n :
  tentativeOf n (sweptRow now d e)
  = if decide (e.1 = n) then Some (rolledBackRow now SWEEP_REASON e.2) else tentativeOf n d.
Proof. unfold tentativeOf, sweptRow. cbn. rewrite lookup_insert. done. Qed.

Lemma swept_cons now e rows d : swept now (e :: rows) d = swept now rows (sweptRow now d e).
Proof. done. Qed.

Lemma swept_status now rows d : node_status (swept now rows d) = node_status d.
Proof. revert d. induction rows as [|e rows IH]; intros d; [done|]. by rewrite swept_cons, IH. Qed.

Lemma swept_log now rows d :
  two_phase_rollback_log (swept now rows d)
  = two_phase_rollback_log d ++ (sweepLogRow <$> rows).
Proof.
  revert d. induction rows as [|e rows IH]; intros d; [symmetry; apply app_nil_r|].
  rewrite swept_cons, IH. cbn. by rewrite <- app_assoc.
Qed.

Lemma swept_other now rows d n :
  n ∉ rows.*1 -> tentativeOf n (swept now rows d) = tentativeOf n d.
Proof.
  revert d. induction rows as [|e rows IH]; intros d Hn; [done|].
  rewrite fmap_cons, not_elem_of_cons in Hn. destruct Hn as [Hne Hn].
  rewrite swept_cons, IH by done. rewrite tentativeOf_sweptRow. by rewrite decide_False.
Qed.

Lemma swept_selected now rows d e :
  NoDup rows.*1 -> e ∈ rows ->
  tentativeOf e.1 (swept now rows d) = Some (rolledBackRow now SWEEP_REASON e.2).
Proof.
  revert d. induction rows as [|e' rows IH]; intros d Hnd He; [by apply elem_of_nil in He|].
  rewrite fmap_cons, NoDup_cons in Hnd. destruct Hnd as [Hn Hnd].
  rewrite swept_cons. apply elem_of_cons in He as [->|He]; [|by apply IH].
  rewrite swept_other by done. rewrite tentativeOf_sweptRow. by rewrite decide_True.
Qed.

Section spec.
Context exec `{!RollbackContract exec}.

Lemma sweepLoop_eq now rows : forall d m p s,
  NoDup rows.*1 ->
  (forall e, e ∈ rows -> tentativeOf e.1 d = Some e.2 /\ t_state e.2 = PENDING) ->
  sweepLoop exec now [] rows p s (mkSweep d m)
  = (mkSweep (swept now rows d)
       (mkMetrics (rollbacksTotal m + length rows) (sweepsTotal m) (skippedTotal m) (lastSweepAt m)),
     inr ((p + length rows)%nat, s)).
Proof.
  induction rows as [|e rows IH]; intros d m p s Hnd Hrows.
  { cbn. destruct m. cbn. by rewrite !Nat.add_0_r. }
  rewrite fmap_cons, NoDup_cons in Hnd. destruct Hnd as [Hn Hnd].
  destruct (Hrows e ltac:(left)) as [He Hp].
  cbn [sweepLoop hd tl]. unfold bind at 1, sweepRow at 1, bind, zoom, modify, ret.
  cbn [sw_db sw_metrics].
  rewrite (rollback_claims (exec := exec) now e.1 _ _ _ d e.2 He Hp). cbn [sw_db sw_metrics].
  unfold countRow. cbn [sw_db sw_metrics]. rewrite IH; [|done|].
  - cbn [length rollbacksTotal sweepsTotal skippedTotal lastSweepAt]. 
    by rewrite swept_cons, !Nat.add_succ_r.
  - intros e' He'. destruct (Hrows e' ltac:(by right)). split; [|done].
    change (cascaded _ _ _ _ _ _ _) with (sweptRow now d e).
    rewrite tentativeOf_sweptRow, decide_False; [done|].
    intros E. apply Hn. rewrite E. by apply list_elem_of_fmap_2.
Qed.

Lemma sweep_eq now locked batch d m :
  let rows := selectExpired now locked batch d in
  sweep exec now locked batch false [] (mkSweep d m)
  = (mkSweep (swept now rows d)
       (mkMetrics (rollbacksTotal m + length rows) (S (sweepsTotal m)) (skippedTotal m) now),
     inr (length rows, 0%nat)).
Proof.
  intros rows. unfold sweep, bind at 1 2 3, modify, guard, gets, ret, countSweep.
  cbn [negb sw_db sw_metrics]. fold rows. case_bool_decide as E.
  { rewrite E. cbn. by rewrite Nat.add_0_r. }
  rewrite sweepLoop_eq; [done| |].
  - unfold rows, selectExpired. rewrite fmap_take. apply NoDup_take', NoDup_candidates.
  - intros e He%selected_candidate. destruct e as [n row].
    apply elem_of_candidates in He as (? & Hs & _). unfold sweepable, isPending in Hs.
    bool_props. done.
Qed.
End spec.


(** ** Witnesses *)

Module Examples.
Definition expired (key : string) (at_ : Z) (detail : option string) : TentativeRow :=
  mkTentative Slashed key PENDING detail None at_ (at_ + 30000).
Definition backlog : NodeDb :=
  mkNodeDb {["n1" := Active; "n2" := Active; "n3" := Active]}
    {["n1" := expired "k1" 2000 None; "n2" := expired "k2" 1000 None;
      "n3" := expired "k3" 500 (Some COMMIT_FAILED_DETAIL)]} [] [] [] ∅ [].

End Examples.
