(* ===== verification/TwoPhaseWorld.v ===== *)
(** * Interleavings of the two-phase protocol

    Any number of transitions, sweeps (of any number of workers) and admin
    resolutions run against one database; between two [await]s of one of them
    anything else can happen.  A world is the database and the suspended jobs;
    [writes] is a ghost list of the nodes whose tentative row phase 1 wrote. *)

From Stdlib Require Import ZArith Lia Ascii String.
From stdpp Require Import base list strings gmap sorting.
From S2P Require Import Prelude Js NodeTables RollbackHandler.
From S2P Require Import TwoPhaseController TentativeCleanupWorker.

Record AdminJob := mkAdmin {
  adm_node : string; adm_row : TentativeRow; adm_resolution : Resolution
}.

Record World := mkWorld {
  wdb : NodeDb;
  jobs : list Job;
  admins : list AdminJob;
  sweeps : list (list (string * TentativeRow));
  writes : list string
}.

Inductive WorldEvent :=
  | WBegin (fault : bool) (node : string) (target : NodeStatus)
  | WResume (i : nat) (r : Reply)
  | WResolve (fault : bool) (node : string) (resolution : Resolution)
  | WResolveFinish (i : nat) (now : Z) (fault : bool)
  | WSweep (now : Z) (locked : list string) (batchSize : nat)
  | WSweepRow (i : nat) (now : Z) (fault : bool)
  | WReward (node : string) (now : Z)
  | WAttest (node : string) (status : NodeStatus) (now : Z)
  | WAdjust (a : Adjustment).

Definition set_wdb d w := mkWorld d (jobs w) (admins w) (sweeps w) (writes w).

(** Did this resumption write the tentative row? *)
Definition wroteRow (before after : Job) : list string :=
  match before, after with
  | AwaitPhase1 node _ _, AwaitRpc _ _ _ _ => [node]
  | _, _ => []
  end.

Definition worldStep (ev : WorldEvent) (w : World) : World :=
  match ev with
  | WBegin fault node target =>
      let (d, job) := beginJob fault node target (wdb w) in
      mkWorld d (jobs w ++ [job]) (admins w) (sweeps w) (writes w)
  | WResume i r =>
      match jobs w !! i with
      | Some job =>
          let (d, job') := stepJob r job (wdb w) in
          mkWorld d (<[i := job']> (jobs w)) (admins w) (sweeps w)
            (writes w ++ wroteRow job job')
      | None => w
      end
  | WResolve fault node resolution =>
      match resolveBegin fault node (wdb w) with
      | (d, inr (Some row)) =>
          mkWorld d (jobs w) (admins w ++ [mkAdmin node row resolution]) (sweeps w) (writes w)
      | (d, _) => set_wdb d w
      end
  | WResolveFinish i now fault =>
      match admins w !! i with
      | Some a =>
          mkWorld (fst (resolveFinish now fault (adm_node a) (adm_row a) (adm_resolution a) (wdb w)))
            (jobs w) (delete i (admins w)) (sweeps w) (writes w)
      | None => w
      end
  | WSweep now locked batch =>
      mkWorld (wdb w) (jobs w) (admins w)
        (sweeps w ++ [selectExpired now locked batch (wdb w)]) (writes w)
  | WSweepRow i now fault =>
      match sweeps w !! i with
      | Some (e :: rows) =>
          let (d, result) := execute now fault e.1 (idempotency_key e.2) (target_status e.2)
                               SWEEP_REASON (wdb w) in
          (* a rejected rollback ends the sweep *)
          mkWorld d (jobs w) (admins w)
            (<[i := match result with inr _ => rows | inl _ => [] end]> (sweeps w)) (writes w)
      | _ => w
      end
  | WReward node now => set_wdb (set_rewards (cons (mkRewardTx node now)) (wdb w)) w
  | WAttest node status now =>
      set_wdb (set_attestations (cons (mkAttestation node status now)) (wdb w)) w
  | WAdjust a => set_wdb (set_adjustments (cons a) (wdb w)) w
  end.

Definition runWorld (evs : list WorldEvent) (w : World) : World :=
  foldl (fun w ev => worldStep ev w) w evs.

Definition new_World (d : NodeDb) : World := mkWorld d [] [] [] [].

(** ** What holds in every interleaving *)

(** The edges of the state machine, and paths along them. *)
Definition edge (s t : NodeStatus) : Prop := t ∈ VALID_TRANSITIONS s.

Definition fromInitial (d0 : NodeDb) (node : string) (s : NodeStatus) : Prop :=
  exists s0, node_status d0 !! node = Some s0 /\ rtc edge s0 s.

Definition jobOk (d0 : NodeDb) (j : Job) : Prop :=
  match j with
  | AwaitPhase1 n c t | AwaitRpc n c t _ | AwaitCommit n c t _ _ _ | AwaitMark n c t _ _
  | AwaitRollback n c t _ _ => fromInitial d0 n c /\ edge c t
  | Finished _ => True
  end.

Definition countNode (n : string) (l : list string) : nat :=
  length (filter (fun m => m = n) l).

Definition rollbacksOf (n : string) (d : NodeDb) : nat :=
  countNode n (log_node_id <$> two_phase_rollback_log d).

Definition pendingCount (n : string) (d : NodeDb) : nat :=
  if hasPending n d then 1 else 0.

(** The part of the invariant about the database. *)
Record DbGood (d0 d : NodeDb) (ws : list string) : Prop := {
  dg_inv : DbInv d;
  dg_nodes : forall n, is_Some (node_status d !! n) <-> is_Some (node_status d0 !! n);
  dg_status : forall n s, node_status d !! n = Some s -> fromInitial d0 n s;
  dg_target : forall n row, tentativeOf n d = Some row -> fromInitial d0 n (target_status row);
  dg_count : forall n,
    (rollbacksOf n d + pendingCount n d
     <= rollbacksOf n d0 + pendingCount n d0 + countNode n ws)%nat
}.

(** What one event may do to the database; the last argument are the nodes
    whose row it wrote. *)
Inductive DbStep (d0 d : NodeDb) : NodeDb -> list string -> Prop :=
  | step_same d' :
      node_status d' = node_status d ->
      node_status_tentative d' = node_status_tentative d ->
      two_phase_rollback_log d' = two_phase_rollback_log d -> DbStep d0 d d' []
  | step_write now n target key :
      is_Some (node_status d !! n) -> hasPending n d = false -> keyTaken n key d = false ->
      fromInitial d0 n target -> DbStep d0 d (written now n target key d) [n]
  | step_commit now n target detail :
      fromInitial d0 n target ->
      DbStep d0 d (fst (commitTx now false n target detail d)) []
  | step_mark n : DbStep d0 d (set_tentative (alter commitFailedRow n) d) []
  | step_rollback now n key target reason row :
      tentativeOf n d = Some row -> t_state row = PENDING ->
      DbStep d0 d (cascaded now n key target reason row d) [].

Lemma countNode_app n l l' : countNode n (l ++ l') = (countNode n l + countNode n l')%nat.
Proof. unfold countNode. by rewrite filter_app, length_app. Qed.

Lemma countNode_one n m : countNode n [m] = if decide (m = n) then 1%nat else 0%nat.
Proof. unfold countNode. rewrite filter_cons. by case_decide. Qed.

Lemma keyTaken_false n key d :
  keyTaken n key d = false <->
  forall m row, tentativeOf m d = Some row -> idempotency_key row = key -> m = n.
Proof.
  unfold keyTaken. rewrite <- not_true_iff_false, existsb_exists. split.
  - intros H m row Hm Hk. destruct (decide (m = n)) as [|Hne]; [done|]. exfalso.
    apply H. exists (m, row). rewrite <- list_elem_of_In, elem_of_map_to_list. split; [done|].
    cbn. rewrite bool_decide_false, bool_decide_true by done. done.
  - intros H ([m row] & Hin & Hb). apply list_elem_of_In, elem_of_map_to_list in Hin.
    cbn in Hb. bool_props. eauto.
Qed.

Lemma DbInv_written now n target key d :
  DbInv d -> is_Some (node_status d !! n) -> keyTaken n key d = false ->
  DbInv (written now n target key d).
Proof.
  intros [H1 H2 H3 H4] Hn Hk. rewrite keyTaken_false in Hk.
  unfold tentativeOf in *. split; unfold tentativeOf; cbn.
  - intros m row. rewrite lookup_insert. case_decide; intros; simplify_eq; eauto.
  - intros m m' r r'. rewrite !lookup_insert.
    repeat case_decide; intros; simplify_eq; auto; cbn in *.
    + symmetry. eapply Hk; eauto.
    + eapply Hk; eauto.
    + eauto.
  - intros m row. rewrite lookup_insert. case_decide; intros; simplify_eq; eauto. done.
  - intros m row. rewrite lookup_insert. case_decide; intros; simplify_eq; eauto.
Qed.

(** A statement that alters at most the row of [n]. *)
Lemma DbInv_alter f n d d' :
  DbInv d -> node_status_tentative d' = alter f n (node_status_tentative d) ->
  (forall m, is_Some (node_status d !! m) -> is_Some (node_status d' !! m)) ->
  (forall row, tentativeOf n d = Some row ->
     idempotency_key (f row) = idempotency_key row /\
     created_at (f row) = created_at row /\ expires_at (f row) = expires_at row /\
     (t_state (f row) = PENDING <-> resolved_at (f row) = None)) -> DbInv d'.
Proof.
  intros HI E Hst Hf. destruct (tentativeOf n d) as [row|] eqn:Hn.
  - destruct (Hf row eq_refl) as (? & ? & ? & ?).
    eapply (DbInv_update d d' n row (f row)); eauto.
    rewrite E. apply map_eq. intros m. destruct (decide (m = n)) as [->|].
    + unfold tentativeOf in Hn. by rewrite lookup_alter_eq, lookup_insert_eq, Hn.
    + by rewrite lookup_alter_ne, lookup_insert_ne.
  - eapply DbInv_same; eauto. rewrite E. apply map_eq. intros m.
    destruct (decide (m = n)) as [->|].
    + unfold tentativeOf in Hn. by rewrite lookup_alter_eq, Hn.
    + by rewrite lookup_alter_ne.
Qed.

Lemma tentativeOf_alter f n m d d' :
  node_status_tentative d' = alter f n (node_status_tentative d) ->
  tentativeOf m d' = if decide (n = m) then f <$> tentativeOf m d else tentativeOf m d.
Proof.
  unfold tentativeOf. intros ->. destruct (decide (n = m)) as [->|].
  - apply lookup_alter_eq.
  - by apply lookup_alter_ne.
Qed.

Lemma pendingCount_le n d : (pendingCount n d <= 1)%nat.
Proof. unfold pendingCount. destruct (hasPending n d); lia. Qed.

Lemma pendingCount_other n d d' :
  tentativeOf n d' = tentativeOf n d -> pendingCount n d' = pendingCount n d.
Proof. unfold pendingCount, hasPending. by intros ->. Qed.

Lemma good_write d0 now n target key d ws :
  DbGood d0 d ws -> is_Some (node_status d !! n) -> hasPending n d = false ->
  keyTaken n key d = false -> fromInitial d0 n target ->
  DbGood d0 (written now n target key d) (ws ++ [n]).
Proof.
  intros [H1 H2 H3 H4 H5] Hn Hp Hk Ht. split; try done.
  - by apply DbInv_written.
  - intros m row. unfold tentativeOf. cbn. rewrite lookup_insert.
    case_decide; intros; simplify_eq; [done|]. by apply H4.
  - intros m. specialize (H5 m). rewrite countNode_app, countNode_one.
    change (rollbacksOf m (written now n target key d)) with (rollbacksOf m d).
    destruct (decide (n = m)) as [->|Hne].
    + pose proof (pendingCount_le m (written now m target key d)).
      unfold pendingCount at 1 in H5. rewrite Hp in H5. lia.
    + rewrite (pendingCount_other m d); [lia|].
      unfold tentativeOf. cbn. by rewrite lookup_insert_ne.
Qed.

(** Statements that alter one row, add no incident and make nothing pending. *)
Lemma good_alter d0 f n d d' ws :
  DbGood d0 d ws -> node_status_tentative d' = alter f n (node_status_tentative d) ->
  two_phase_rollback_log d' = two_phase_rollback_log d ->
  (forall m, is_Some (node_status d' !! m) <-> is_Some (node_status d !! m)) ->
  (forall m s, node_status d' !! m = Some s -> fromInitial d0 m s) ->
  (forall row, tentativeOf n d = Some row ->
     idempotency_key (f row) = idempotency_key row /\
     created_at (f row) = created_at row /\ expires_at (f row) = expires_at row /\
     target_status (f row) = target_status row /\
     (t_state (f row) = PENDING -> t_state row = PENDING) /\
     (t_state (f row) = PENDING <-> resolved_at (f row) = None)) ->
  DbGood d0 d' ws.
Proof.
  intros [H1 H2 H3 H4 H5] E Hl Hst Hs Hf. split; auto.
  - eapply (DbInv_alter f n d d'); eauto; [intros; by apply Hst|].
    intros row Hrow. destruct (Hf row Hrow) as (?&?&?&?&?&?). done.
  - intros m. rewrite Hst. apply H2.
  - intros m row. rewrite (tentativeOf_alter f n m d d' E). case_decide; subst; [|by apply H4].
    destruct (tentativeOf m d) as [row0|] eqn:Hr; [|done]. intros [= <-].
    destruct (Hf row0 eq_refl) as (?&?&?&->&?&?). by apply H4.
  - intros m. specialize (H5 m). unfold rollbacksOf in *. rewrite Hl.
    assert (pendingCount m d' <= pendingCount m d)%nat; [|lia].
    unfold pendingCount, hasPending. rewrite (tentativeOf_alter f n m d d' E).
    case_decide; subst; [|lia]. destruct (tentativeOf m d) as [row0|] eqn:Hr; cbn; [|lia].
    destruct (Hf row0 eq_refl) as (?&?&?&?&Hp&?). unfold isPending.
    do 2 case_bool_decide; try lia. tauto.
Qed.

Lemma good_rollback d0 now n key target reason row d ws :
  DbGood d0 d ws -> tentativeOf n d = Some row -> t_state row = PENDING ->
  DbGood d0 (cascaded now n key target reason row d) ws.
Proof.
  intros [H1 H2 H3 H4 H5] Hrow Hp. split; try done.
  - pose proof (execute_DbInv now false n key target reason d H1) as H.
    by rewrite (rollback_claims now n key target reason d row Hrow Hp) in H.
  - intros m r. unfold tentativeOf. cbn. rewrite lookup_insert.
    case_decide; subst; [|by apply H4]. intros [= <-]. by apply (H4 _ row).
  - intros m. specialize (H5 m). unfold rollbacksOf in *. cbn [cascaded two_phase_rollback_log].
    rewrite fmap_app, countNode_app. cbn [fmap list_fmap log_node_id].
    rewrite countNode_one. destruct (decide (n = m)) as [->|Hne].
    + assert (pendingCount m (cascaded now m key target reason row d) = 0%nat) as ->
        by (unfold pendingCount, hasPending, tentativeOf; cbn; by rewrite lookup_insert_eq).
      assert (pendingCount m d = 1%nat) as Hpc; [|lia].
      unfold pendingCount, hasPending. rewrite Hrow. unfold isPending.
      by rewrite bool_decide_true.
    + rewrite (pendingCount_other m d); [lia|].
      unfold tentativeOf. cbn. by rewrite lookup_insert_ne.
Qed.

Lemma DbStep_good d0 d d' ws ws' :
  DbGood d0 d ws -> DbStep d0 d d' ws' -> DbGood d0 d' (ws ++ ws').
Proof.
  intros HG Hstep. assert (HI := HG). destruct HI as [H1 H2 H3 H4 H5].
  destruct Hstep as [d' Es Et El|now n target key Hn Hp Hk Ht|now n target detail Ht|n
                    |now n key target reason row Hrow Hp]; rewrite ?app_nil_r.
  - split.
    + eapply DbInv_same; eauto. by rewrite Es.
    + by rewrite Es.
    + by rewrite Es.
    + unfold tentativeOf. by rewrite Et.
    + intros n. unfold rollbacksOf, pendingCount, hasPending, tentativeOf.
      rewrite Et, El. apply H5.
  - by apply good_write.
  - apply (good_alter d0 (committedRow now detail) n d); auto; try done; cbn.
    + intros m. rewrite lookup_alter. case_decide; subst; [|done]. by rewrite fmap_is_Some.
    + intros m s. rewrite lookup_alter. case_decide; subst; [|by apply H3].
      destruct (node_status d !! m); [|done]. by intros [= <-].
  - apply (good_alter d0 commitFailedRow n d); auto; try done.
    intros row Hrow. pose proof (dbi_resolved d H1 n row Hrow).
    unfold commitFailedRow. by destruct (isPending row).
  - by apply good_rollback.
Qed.

Lemma step_refl d0 d : DbStep d0 d d [].
Proof. by apply step_same. Qed.

Lemma insertTentative_cases fault now n target key d :
  DbInv d ->
  (fst (insertTentative fault now n target key d) = d /\
   ((exists e, snd (insertTentative fault now n target key d) = inl e) \/
    snd (insertTentative fault now n target key d) = inr 0%nat)) \/
  (insertTentative fault now n target key d = (written now n target key d, inr 1%nat) /\
   is_Some (node_status d !! n) /\ hasPending n d = false /\ keyTaken n key d = false).
Proof.
  intros HI. unfold insertTentative, may_fail, bind, guard, throw, ret, get, put.
  destruct fault; [left; eauto|]. cbn [negb].
  destruct (hasPending n d) eqn:Hp; [left; eauto|].
  destruct (match tentativeOf n d with Some _ => true
            | None => bool_decide (is_Some (node_status d !! n)) end) eqn:Hfk; [|left; eauto].
  destruct (keyTaken n key d) eqn:Hk; [left; eauto|]. right. split_and!; auto.
  destruct (tentativeOf n d) as [row|] eqn:Hr; [by eapply dbi_fk|by bool_props].
Qed.

Lemma execute_step d0 now fault n key target reason d :
  DbStep d0 d (fst (execute now fault n key target reason d)) [].
Proof.
  destruct fault; [apply step_refl|]. destruct (hasPending n d) eqn:Hp.
  - unfold hasPending in Hp. destruct (tentativeOf n d) as [row|] eqn:Hr; [|done].
    unfold isPending in Hp. bool_props.
    rewrite (rollback_claims now n key target reason d row Hr Hp). by eapply step_rollback.
  - rewrite rollback_skips by done. apply step_refl.
Qed.

Lemma commitTx_step d0 now fault n target detail d :
  fromInitial d0 n target -> DbStep d0 d (fst (commitTx now fault n target detail d)) [].
Proof. intros. destruct fault; [apply step_refl|by apply step_commit]. Qed.

Lemma fromInitial_edge d0 n c t : fromInitial d0 n c -> edge c t -> fromInitial d0 n t.
Proof. intros (s0 & ? & ?) ?. exists s0. split; [done|]. by eapply rtc_r. Qed.

Lemma stepJob_step d0 ws r job d :
  DbGood d0 d ws -> jobOk d0 job ->
  DbStep d0 d (fst (stepJob r job d)) (wroteRow job (snd (stepJob r job d))) /\
  jobOk d0 (snd (stepJob r job d)).
Proof.
  intros HG Hok. destruct job as [n c t|n c t key|n c t key hash k|n c t key hash|n c t key reason|o];
    cbn [stepJob wroteRow]; try destruct Hok as [Hc Ht].
  - unfold continue, phase1, onDb, zoom, bind.
    destruct (insertTentative_cases (rep_fault r) (rep_now r) n t (rep_key r) d)
      as [[E Hne]|(E & Hn & Hp & Hk)]; [apply HG| |].
    + destruct (insertTentative _ _ _ _ _ d) as [d' [e|count]]; cbn [fst snd] in *; subst;
        [split; [apply step_refl|done]|].
      assert (count = 0%nat) as -> by (destruct Hne as [[??]|?]; congruence).
      cbn [Nat.eqb]. unfold fetchTentativeRow, may_fail, bind, guard, gets, throw, ret.
      destruct (rep_fault r); cbn; (split; [apply step_refl|done]).
    + rewrite E. cbn. split; [|done]. apply step_write; auto. by eapply fromInitial_edge.
  - cbn [fst snd]. split; [apply step_refl|]. by destruct (phase2 _).
  - destruct k as [|k]; [split; [apply step_refl|done]|].
    pose proof (commitTx_step d0 (rep_now r) (rep_fault r) n t None d
      (fromInitial_edge _ _ _ _ Hc Ht)) as H.
    destruct (commitTx _ _ _ _ _ d) as [d' [e|u]]; cbn in *; (split; [exact H|]); [|done].
    by destruct k.
  - cbn [fst snd]. split; [|done]. unfold markCommitFailed, may_fail, bind, guard, modify, throw, ret.
    destruct (rep_fault r); [apply step_refl|apply step_mark].
  - pose proof (execute_step d0 (rep_now r) (rep_fault r) n key t reason d) as H.
    unfold continue, onDb, zoom. by destruct (execute _ _ _ _ _ _ d) as [d' [e|b]].
  - split; [apply step_refl|done].
Qed.

(** ** Worlds *)

Record WInv (d0 : NodeDb) (w : World) : Prop := {
  wi_db : DbGood d0 (wdb w) (writes w);
  wi_jobs : forall j, j ∈ jobs w -> jobOk d0 j;
  wi_admins : forall a, a ∈ admins w -> fromInitial d0 (adm_node a) (target_status (adm_row a))
}.

Lemma WInv_new d : DbInv d -> (forall n row, tentativeOf n d = Some row ->
    fromInitial d n (target_status row)) -> WInv d (new_World d).
Proof.
  intros HI Ht. split; [split|..]; cbn; auto.
  - intros n s Hs. exists s. split; [done|apply rtc_refl].
  - intros n. unfold countNode. cbn. lia.
  - by intros ? ?%elem_of_nil.
  - by intros ? ?%elem_of_nil.
Qed.

Lemma beginJob_step d0 fault n target d ws :
  DbGood d0 d ws ->
  fst (beginJob fault n target d) = d /\ jobOk d0 (snd (beginJob fault n target d)).
Proof.
  intros HG. unfold beginJob, continue, transitionBegin, onDb, zoom, fetchCommittedStatus,
    may_fail, guard, bind, gets, ret, throw.
  destruct fault; [done|]. cbn [negb].
  destruct (node_status d !! n) as [s|] eqn:Hn; [|done].
  destruct (allows s target) eqn:Ha; [|done]. cbn. unfold allows in Ha. bool_props.
  split; [done|]. split; [by apply (dg_status _ _ _ HG)|done].
Qed.

Lemma resolveBegin_spec fault n d :
  fst (resolveBegin fault n d) = d /\
  forall row, snd (resolveBegin fault n d) = inr (Some row) -> tentativeOf n d = Some row.
Proof.
  unfold resolveBegin, onDb, zoom, fetchTentativeRow, may_fail, guard, bind, gets, ret, throw.
  destruct fault; [done|]. cbn. split; [done|]. intros row.
  destruct (tentativeOf n d) as [r|]; [|done]. destruct (isPending r); [|done]. congruence.
Qed.

Lemma resolveFinish_step d0 now fault a d :
  fromInitial d0 (adm_node a) (target_status (adm_row a)) ->
  DbStep d0 d (fst (resolveFinish now fault (adm_node a) (adm_row a) (adm_resolution a) d)) [].
Proof.
  intros Ha. unfold resolveFinish. destruct (adm_resolution a).
  - pose proof (commitTx_step d0 now fault (adm_node a) (target_status (adm_row a))
      (Some "Admin force-commit") d Ha) as H.
    unfold bind, onDb, zoom. by destruct (commitTx _ _ _ _ _ d) as [d' [e|u]].
  - pose proof (execute_step d0 now fault (adm_node a) (idempotency_key (adm_row a))
      (target_status (adm_row a))
      "Admin force-rollback via /internal/state/resolve-tentative" d) as H.
    unfold bind, onDb, zoom. by destruct (execute _ _ _ _ _ _ d) as [d' [e|b]].
Qed.

Lemma DbGood_side d0 d d' ws :
  DbGood d0 d ws -> node_status d' = node_status d ->
  node_status_tentative d' = node_status_tentative d ->
  two_phase_rollback_log d' = two_phase_rollback_log d -> DbGood d0 d' ws.
Proof.
  intros HG ? ? ?. rewrite <- (app_nil_r ws). eapply DbStep_good; eauto. by apply step_same.
Qed.

Lemma worldStep_inv d0 ev w : WInv d0 w -> WInv d0 (worldStep ev w).
Proof.
  intros HW. assert (HW' := HW). destruct HW' as [HG HJ HA].
  destruct ev as [fault n t|i r|fault n res|i now fault|now locked batch|i now fault|n now|n s now|a];
    cbn [worldStep].
  - destruct (beginJob_step d0 fault n t (wdb w) _ HG) as [E Hok].
    destruct (beginJob fault n t (wdb w)) as [d j]. cbn in E, Hok. subst. split; auto; cbn.
    intros j' [?| ->%list_elem_of_singleton]%elem_of_app; auto.
  - destruct (jobs w !! i) as [job|] eqn:Hi; [|done].
    assert (Hok := HJ job (list_elem_of_lookup_2 _ _ _ Hi)).
    destruct (stepJob_step d0 _ r job (wdb w) HG Hok) as [Hs Hok'].
    destruct (stepJob r job (wdb w)) as [d job']. cbn in *. split; auto; cbn.
    + by eapply DbStep_good.
    + intros j [k Hk]%list_elem_of_lookup_1.
      apply list_lookup_insert_Some in Hk as [(<- & <- & _)|[_ Hk]]; [done|].
      by eapply HJ, list_elem_of_lookup_2.
  - destruct (resolveBegin_spec fault n (wdb w)) as [E Hrow].
    destruct (resolveBegin fault n (wdb w)) as [d [e|[row|]]]; cbn in E, Hrow; subst;
      split; auto; cbn.
    intros a [?| ->%list_elem_of_singleton]%elem_of_app; auto. cbn.
    apply (dg_target _ _ _ HG). auto.
  - destruct (admins w !! i) as [a|] eqn:Hi; [|done]. split; auto; cbn.
    + rewrite <- (app_nil_r (writes w)). eapply DbStep_good; [done|].
      apply resolveFinish_step. by eapply HA, list_elem_of_lookup_2.
    + intros b Hb. apply HA. by eapply list_subseteq_delete.
  - by split.
  - destruct (sweeps w !! i) as [[|e rows]|] eqn:Hi; [done| |done].
    pose proof (execute_step d0 now fault e.1 (idempotency_key e.2) (target_status e.2)
      SWEEP_REASON (wdb w)) as Hs.
    destruct (execute _ _ _ _ _ _ _) as [d result]. split; auto; cbn in *.
    rewrite <- (app_nil_r (writes w)). by eapply DbStep_good.
  - split; auto. by eapply DbGood_side.
  - split; auto. by eapply DbGood_side.
  - split; auto. by eapply DbGood_side.
Qed.

Lemma WInv_run d0 evs w : WInv d0 w -> WInv d0 (runWorld evs w).
Proof.
  revert w. induction evs as [|ev evs IH]; intros w HW; [done|]. by apply IH, worldStep_inv.
Qed.

(** C7: under every interleaving of transitions, sweeps, admin resolutions and
    database failures: the tables stay well formed, no node appears or
    disappears, every status is one the state machine can reach from the
    node's initial status, and the rollback incidents of a node never
    outnumber the tentative rows written for it (no double rollback). *)
Theorem two_phase_interleavings_safe d0 evs :
  DbInv d0 -> node_status_tentative d0 = ∅ -> two_phase_rollback_log d0 = [] ->
  let w := runWorld evs (new_World d0) in
  DbInv (wdb w) /\
  (forall n, is_Some (node_status (wdb w) !! n) <-> is_Some (node_status d0 !! n)) /\
  (forall n s, node_status (wdb w) !! n = Some s ->
     exists s0, node_status d0 !! n = Some s0 /\ rtc edge s0 s) /\
  (forall n, (rollbacksOf n (wdb w) + pendingCount n (wdb w) <= countNode n (writes w))%nat).
Proof.
  intros HI Ht Hl w.
  assert (Hnone : forall n, tentativeOf n d0 = None)
    by (intros n; unfold tentativeOf; rewrite Ht; apply lookup_empty).
  assert (HW : WInv d0 w).
  { apply WInv_run, WInv_new; [done|]. intros n row Hr. by rewrite Hnone in Hr. }
  destruct HW as [[H1 H2 H3 H4 H5] _ _]. split_and!; auto.
  intros n. specialize (H5 n). unfold rollbacksOf at 2, pendingCount at 2, hasPending in H5.
  rewrite Hl, Hnone in H5. cbn in H5. exact H5.
Qed.

(** ** A late confirmation

    The commit transaction checks neither the idempotency key nor the state of
    the tentative row it resolves. *)

Module Examples.
Definition w0 : World := new_World
  (mkNodeDb {["n1" := Active]} ∅ [] [] [] ∅ []).
Definition reply (now : Z) (key : string) : Reply :=
  mkReply now false key (RpcAnswer true ("tx-" ++ key)%string None).
(** The slow call times out locally, is swept, and the node is archived. *)
Definition archived : list WorldEvent :=
  [WBegin false "n1" Slashed; WResume 0 (reply 1000 "k1");
   WSweep 31001 [] 50; WSweepRow 0 31001 false;
   WBegin false "n1" Archived; WResume 1 (reply 32000 "k2"); WResume 1 (reply 32001 "k2");
   WResume 1 (reply 32002 "k2")].
(** Then its confirmation arrives. *)
Definition late : list WorldEvent := [WResume 0 (reply 33000 "k1"); WResume 0 (reply 33001 "k1")].

Lemma w0_inv : DbInv (wdb w0).
Proof. by split; intros *; unfold tentativeOf; cbn; rewrite lookup_empty. Qed.

Lemma two_phase_interleavings_safe_witness :
  let w := runWorld archived w0 in
  (rollbacksOf "n1" (wdb w) + pendingCount "n1" (wdb w) <= countNode "n1" (writes w))%nat.
Proof.
  exact (proj2 (proj2 (proj2 (two_phase_interleavings_safe (wdb w0) archived w0_inv eq_refl eq_refl)))
    "n1").
Defined.
End Examples.

(** the protocol does not enforce the state machine across concurrent
    transitions: a contract confirmation that arrives after its tentative row
    was swept is still committed, here moving an Archived node to Slashed. *)
Theorem late_confirmation_reopens_archived_node :
  let w := runWorld Examples.archived Examples.w0 in
  let w' := runWorld Examples.late w in
  node_status (wdb w) !! "n1" = Some Archived /\
  node_status (wdb w') !! "n1" = Some Slashed /\
  Slashed ∉ VALID_TRANSITIONS Archived /\
  target_status <$> tentativeOf "n1" (wdb w') = Some Archived.
Proof. split_and!; try (vm_compute; reflexivity). intros H. by apply elem_of_nil in H. Qed.
