(* ===== verification/BondPool.v ===== *)
(** * Bond pools ([src/src/staking/poolStore.ts], [src/src/staking/bondPool.ts],
    [src/src/database/migrations/006_bond_pools.sql])

    Two stores implement [BondPoolStore]: one over PostgreSQL, one in memory.
    [Ledger] is the abstract account book both promise to be; [StoreContract]
    is that promise, proved of both ([memory_contract], [pg_contract]), and the service
    is proved over each of them ([pool_balance_is_sum_of_stakes]).  Amounts are
    [bigint] in the code and [BIGINT] in the tables, whose range is checked.

    An operation of the in-memory store runs to completion once it holds the
    pool's lock, and the lock's only effect is that order; its promise chain is
    not modelled.  An SQL transaction is run with nothing committed in between,
    except in the optimistic loops, where other transactions may commit between
    the read and the conditional update. *)

From Stdlib Require Import ZArith Lia Ascii String.
From stdpp Require Import base list strings gmap sorting.
From S2P Require Import Prelude Js.

Record BondPool := mkPool { pool_id : string; balance : Z; version : Z }.
Record ValidatorStake := mkStake { st_poolId : string; st_validatorId : string; amount : Z }.

Inductive PoolError :=
  | PoolNotFoundError
  | InsufficientStakeError
  | InsufficientPoolBalanceError
  | ValidatorStakeLimitError
  | StakeAmountError
  | UpdateConflict          (* balance update conflicted too many times *)
  | SqlCheckViolation       (* CHECK, or BIGINT out of range *).

(** ** The interface *)

Record BondPoolStore (S : Type) := mkStore {
  st_getPool : string -> S -> option BondPool;
  st_getValidatorStake : string -> string -> S -> option ValidatorStake;
  st_stake : string -> string -> Z -> M S PoolError BondPool;
  st_unstake : string -> string -> Z -> M S PoolError BondPool;
  st_sumValidatorStakes : string -> S -> Z;
  st_reconcilePool : string -> M S PoolError BondPool
}.
Arguments st_getPool {S} _ _ _.
Arguments st_getValidatorStake {S} _ _ _ _.
Arguments st_stake {S} _ _ _ _ _.
Arguments st_unstake {S} _ _ _ _ _.
Arguments st_sumValidatorStakes {S} _ _ _.
Arguments st_reconcilePool {S} _ _ _.

(** ** The service *)

Module Service.
Definition MIN_STAKE : Z := 100.
Definition MAX_STAKE : Z := 100000.

Section service.
Context {S : Type} (store : BondPoolStore S).

Definition assertStakeAmount (a : Z) : M S PoolError unit :=
  guard (negb ((a <? MIN_STAKE) || (MAX_STAKE <? a))) StakeAmountError.

Definition stake (poolId validatorId : string) (a : Z) : M S PoolError BondPool :=
  assertStakeAmount a ;;; st_stake store poolId validatorId a.

Definition unstake (poolId validatorId : string) (a : Z) : M S PoolError BondPool :=
  assertStakeAmount a ;;; st_unstake store poolId validatorId a.

Definition getPool (poolId : string) (s : S) : option BondPool :=
  match st_getPool store poolId s with
  | Some pool => Some (mkPool (pool_id pool) (st_sumValidatorStakes store poolId s) (version pool))
  | None => None
  end.

Definition getDerivedBalance (poolId : string) (s : S) : Z :=
  st_sumValidatorStakes store poolId s.

Definition reconcile (poolId : string) : M S PoolError BondPool :=
  st_reconcilePool store poolId.
End service.
End Service.

(** ** The in-memory store *)

Module InMemory.
Record Store := mkMem {
  pools : jsmap string BondPool;
  stakes : jsmap string ValidatorStake;
  maxValidatorStake : Z
}.

Definition new_Store (max : Z) : Store := mkMem ∅ ∅ max.

Definition set_pools f s := mkMem (f (pools s)) (stakes s) (maxValidatorStake s).
Definition set_stakes f s := mkMem (pools s) (f (stakes s)) (maxValidatorStake s).

Abbreviation SM := (M Store PoolError).

Definition stakeKey (poolId validatorId : string) : string :=
  (poolId ++ ":" ++ validatorId)%string.

Definition createPool (pool : BondPool) : SM unit :=
  modify (set_pools <[pool_id pool := pool]>).

Definition createStake (st : ValidatorStake) : SM unit :=
  modify (set_stakes <[stakeKey (st_poolId st) (st_validatorId st) := st]>).

Definition getPool (poolId : string) (s : Store) : option BondPool := pools s !! poolId.

Definition getValidatorStake (poolId validatorId : string) (s : Store) : option ValidatorStake :=
  stakes s !! stakeKey poolId validatorId.

Definition requirePool (poolId : string) : SM BondPool :=
  let! s := get in
  match pools s !! poolId with
  | Some pool => ret pool
  | None => throw PoolNotFoundError
  end.

Definition sumOf (poolId : string) (l : list ValidatorStake) : Z :=
  foldl (fun total st => if bool_decide (st_poolId st = poolId) then total + amount st else total)
    0 l.

Definition sumValidatorStakes (poolId : string) (s : Store) : Z :=
  sumOf poolId (map_values (stakes s)).

Definition stake (poolId validatorId : string) (a : Z) : SM BondPool :=
  let! pool := requirePool poolId in
  let! s := get in
  let key := stakeKey poolId validatorId in
  let nextAmount := match stakes s !! key with Some e => amount e | None => 0 end + a in
  guard (negb (maxValidatorStake s <? nextAmount)) ValidatorStakeLimitError ;;;
  modify (set_stakes <[key := mkStake poolId validatorId nextAmount]>) ;;;
  let pool' := mkPool (pool_id pool) (balance pool + a) (version pool + 1) in
  modify (set_pools <[poolId := pool']>) ;;;
  ret pool'.

Definition unstake (poolId validatorId : string) (a : Z) : SM BondPool :=
  let! pool := requirePool poolId in
  let! s := get in
  let key := stakeKey poolId validatorId in
  match stakes s !! key with
  | None => throw InsufficientStakeError
  | Some st =>
      guard (negb (amount st <? a)) InsufficientStakeError ;;;
      guard (negb (balance pool <? a)) InsufficientPoolBalanceError ;;;
      let nextAmount := amount st - a in
      (if nextAmount =? 0 then modify (set_stakes (delete key))
       else modify (set_stakes <[key := mkStake (st_poolId st) (st_validatorId st) nextAmount]>)) ;;;
      let pool' := mkPool (pool_id pool) (balance pool - a) (version pool + 1) in
      modify (set_pools <[poolId := pool']>) ;;;
      ret pool'
  end.

Definition reconcilePool (poolId : string) : SM BondPool :=
  let! pool := requirePool poolId in
  let! s := get in
  let pool' := mkPool (pool_id pool) (sumValidatorStakes poolId s) (version pool + 1) in
  modify (set_pools <[poolId := pool']>) ;;;
  ret pool'.

Definition store : BondPoolStore Store :=
  mkStore Store getPool getValidatorStake stake unstake sumValidatorStakes reconcilePool.
End InMemory.

(** ** The PostgreSQL store *)

Module Pg.
Record PoolRow := mkRow { row_balance : Z; row_version : Z }.

Record Tables := mkTables {
  bond_pools : gmap string PoolRow;
  validator_stakes : gmap (string * string) Z;
  maxValidatorStake : Z
}.

Definition set_bond_pools f t :=
  mkTables (f (bond_pools t)) (validator_stakes t) (maxValidatorStake t).
Definition set_validator_stakes f t :=
  mkTables (bond_pools t) (f (validator_stakes t)) (maxValidatorStake t).

Abbreviation PM := (M Tables PoolError).

Definition MAX_BIGINT : Z := 2 ^ 63 - 1.

(** [BIGINT CHECK (x >= 0)] *)
Definition checked (z : Z) : bool := (0 <=? z) && (z <=? MAX_BIGINT).

(** BEGIN, COMMIT, and ROLLBACK on a throw. *)
Definition withTransaction {A} (m : PM A) : PM A :=
  fun t => match m t with (_, inl e) => (t, inl e) | r => r end.

(** [SELECT SUM(amount) ... WHERE pool_id = $1] *)
Definition sumTable (poolId : string) (m : gmap (string * string) Z) : Z :=
  map_fold (fun k a total => if decide (k.1 = poolId) then a + total else total) 0 m.

Definition sumValidatorStakes (poolId : string) (t : Tables) : Z :=
  sumTable poolId (validator_stakes t).

Definition getPool (poolId : string) (t : Tables) : option BondPool :=
  match bond_pools t !! poolId with
  | Some r => Some (mkPool poolId (sumValidatorStakes poolId t) (row_version r))
  | None => None
  end.

Definition getValidatorStake (poolId validatorId : string) (t : Tables)
    : option ValidatorStake :=
  mkStake poolId validatorId <$> validator_stakes t !! (poolId, validatorId).

Definition maxOptimisticAttempts : nat := 5.

Definition selectPool (poolId : string) : PM PoolRow :=
  let! t := get in
  match bond_pools t !! poolId with
  | Some r => ret r
  | None => throw PoolNotFoundError
  end.

(** [UPDATE bond_pools SET balance = balance + delta, version = version + 1
    WHERE id = .. AND version = .. [AND balance >= minimum] RETURNING ..] *)
Definition updatePool (poolId : string) (expected delta : Z) (minimum : option Z)
    : PM (option BondPool) :=
  let! t := get in
  match bond_pools t !! poolId with
  | Some r =>
      if (row_version r =? expected)
         && match minimum with Some least => least <=? row_balance r | None => true end then
        guard (checked (row_balance r + delta) && checked (row_version r + 1)) SqlCheckViolation ;;;
        let r' := mkRow (row_balance r + delta) (row_version r + 1) in
        modify (set_bond_pools <[poolId := r']>) ;;;
        ret (Some (mkPool poolId (row_balance r') (row_version r')))
      else ret None
  | None => ret None
  end.

(** What other transactions commit between two statements, per attempt. *)
Abbreviation Interference := (list (Tables -> Tables)).

Definition others (env : Interference) : PM unit := modify (hd (fun t => t) env).

Fixpoint incrementLoop (attempts : nat) (env : Interference) (poolId : string) (a : Z)
    : PM BondPool :=
  match attempts with
  | O => throw UpdateConflict
  | S n =>
      let! current := selectPool poolId in
      others env ;;;
      let! updated := updatePool poolId (row_version current) a None in
      match updated with
      | Some pool => ret pool
      | None => incrementLoop n (tl env) poolId a
      end
  end.

Definition incrementPoolBalance (env : Interference) (poolId : string) (a : Z) : PM BondPool :=
  incrementLoop maxOptimisticAttempts env poolId a.

Fixpoint decrementLoop (attempts : nat) (env : Interference) (poolId : string) (a : Z)
    : PM BondPool :=
  match attempts with
  | O => throw UpdateConflict
  | S n =>
      let! current := selectPool poolId in
      guard (negb (row_balance current <? a)) InsufficientPoolBalanceError ;;;
      others env ;;;
      let! updated := updatePool poolId (row_version current) (- a) (Some a) in
      match updated with
      | Some pool => ret pool
      | None => decrementLoop n (tl env) poolId a
      end
  end.

Definition decrementPoolBalance (env : Interference) (poolId : string) (a : Z) : PM BondPool :=
  decrementLoop maxOptimisticAttempts env poolId a.

(** [INSERT .. ON CONFLICT DO UPDATE .. WHERE sum <= max RETURNING]: the limit
    guards the update only. *)
Definition upsertStake (poolId validatorId : string) (a : Z) : PM (option Z) :=
  let! t := get in
  match validator_stakes t !! (poolId, validatorId) with
  | None =>
      guard (checked a) SqlCheckViolation ;;;
      modify (set_validator_stakes <[(poolId, validatorId) := a]>) ;;;
      ret (Some a)
  | Some current =>
      if current + a <=? maxValidatorStake t then
        guard (checked (current + a)) SqlCheckViolation ;;;
        modify (set_validator_stakes <[(poolId, validatorId) := current + a]>) ;;;
        ret (Some (current + a))
      else ret None
  end.

Definition stake (poolId validatorId : string) (a : Z) : PM BondPool :=
  withTransaction (
    ignore (selectPool poolId) ;;;
    let! st := upsertStake poolId validatorId a in
    match st with
    | None => throw ValidatorStakeLimitError
    | Some _ => incrementPoolBalance [] poolId a
    end).

Definition subtractStake (poolId validatorId : string) (a : Z) : PM unit :=
  let! t := get in
  match validator_stakes t !! (poolId, validatorId) with
  | Some current =>
      guard (checked (current - a)) SqlCheckViolation ;;;
      modify (set_validator_stakes <[(poolId, validatorId) := current - a]>)
  | None => ret tt
  end.

Definition deleteEmptyStake (poolId validatorId : string) : PM unit :=
  let! t := get in
  if bool_decide (validator_stakes t !! (poolId, validatorId) = Some 0)
  then modify (set_validator_stakes (delete (poolId, validatorId)))
  else ret tt.

Definition unstake (poolId validatorId : string) (a : Z) : PM BondPool :=
  withTransaction (
    let! t := get in
    guard (match validator_stakes t !! (poolId, validatorId) with
           | Some current => negb (current <? a)
           | None => false
           end) InsufficientStakeError ;;;
    subtractStake poolId validatorId a ;;;
    deleteEmptyStake poolId validatorId ;;;
    decrementPoolBalance [] poolId a).

Definition reconcilePool (poolId : string) : PM BondPool :=
  let! t := get in
  match bond_pools t !! poolId with
  | Some r =>
      let r' := mkRow (sumValidatorStakes poolId t) (row_version r + 1) in
      guard (checked (row_balance r') && checked (row_version r')) SqlCheckViolation ;;;
      modify (set_bond_pools <[poolId := r']>) ;;;
      ret (mkPool poolId (row_balance r') (row_version r'))
  | None => throw PoolNotFoundError
  end.

Definition store : BondPoolStore Tables :=
  mkStore Tables getPool getValidatorStake stake unstake sumValidatorStakes reconcilePool.
End Pg.

(** ** The abstract ledger *)

Record Ledger := mkLedger { l_pools : gmap string Z; l_stakes : gmap (string * string) Z }.

(** A pool's balance is, by definition, the sum of its stakes. *)
Definition ledgerSum (poolId : string) (l : Ledger) : Z := Pg.sumTable poolId (l_stakes l).

Definition ledgerPool (poolId : string) (l : Ledger) : option BondPool :=
  (fun v => mkPool poolId (ledgerSum poolId l) v) <$> l_pools l !! poolId.

Definition stakeOf (poolId validatorId : string) (l : Ledger) : Z :=
  default 0 (l_stakes l !! (poolId, validatorId)).

(** Record a new amount, dropping empty stakes, and count the change. *)
Definition setStake (poolId validatorId : string) (a ver : Z) (l : Ledger) : Ledger :=
  mkLedger (<[poolId := ver + 1]> (l_pools l))
    (if a =? 0 then delete (poolId, validatorId) (l_stakes l)
     else <[(poolId, validatorId) := a]> (l_stakes l)).

Definition ledgerStake (max : Z) (poolId validatorId : string) (a : Z) (l : Ledger)
    : option Ledger :=
  match l_pools l !! poolId with
  | None => None
  | Some ver =>
      let next := stakeOf poolId validatorId l + a in
      if max <? next then None else Some (setStake poolId validatorId next ver l)
  end.

Definition ledgerUnstake (poolId validatorId : string) (a : Z) (l : Ledger) : option Ledger :=
  match l_pools l !! poolId with
  | None => None
  | Some ver =>
      let next := stakeOf poolId validatorId l - a in
      if next <? 0 then None else Some (setStake poolId validatorId next ver l)
  end.

Definition ledgerReconcile (poolId : string) (l : Ledger) : option Ledger :=
  match l_pools l !! poolId with
  | None => None
  | Some ver => Some (mkLedger (<[poolId := ver + 1]> (l_pools l)) (l_stakes l))
  end.

(** Stakes are positive and within the limit, and belong to known pools. *)
Record LedgerInv (max : Z) (l : Ledger) : Prop := {
  li_range : forall k a, l_stakes l !! k = Some a -> 0 < a <= max;
  li_pool : forall p v a, l_stakes l !! (p, v) = Some a -> is_Some (l_pools l !! p)
}.

Lemma sumTable_insert p k a m :
  Pg.sumTable p (<[k := a]> m)
  = Pg.sumTable p m + (if decide (k.1 = p) then a - default 0 (m !! k) else 0).
Proof.
  assert (Hfresh : forall x m', m' !! k = None ->
    Pg.sumTable p (<[k := x]> m')
    = (if decide (k.1 = p) then x + Pg.sumTable p m' else Pg.sumTable p m')).
  { intros x m' Hm. unfold Pg.sumTable. rewrite map_fold_insert_L; [done| |done].
    intros. repeat case_decide; lia. }
  destruct (m !! k) as [b|] eqn:Hk.
  - assert (Hd : delete k m !! k = None) by apply lookup_delete_eq.
    assert (E : m = <[k := b]> (delete k m)) by (symmetry; by apply insert_delete_id).
    revert E. generalize (delete k m) Hd. intros m0 H0 ->.
    rewrite insert_insert_eq, !Hfresh by done. cbn.
    case_decide; lia.
  - rewrite Hfresh by done. cbn. case_decide; lia.
Qed.

Lemma sumTable_delete p k m :
  Pg.sumTable p (delete k m)
  = Pg.sumTable p m - (if decide (k.1 = p) then default 0 (m !! k) else 0).
Proof.
  destruct (m !! k) as [b|] eqn:Hk.
  - assert (E : m = <[k := b]> (delete k m)) by (symmetry; by apply insert_delete_id).
    rewrite E at 2. rewrite sumTable_insert, lookup_delete_eq.
    cbn. case_decide; lia.
  - rewrite delete_id by done. cbn. case_decide; lia.
Qed.

Lemma sumTable_nonneg p m :
  (forall k a, m !! k = Some a -> 0 <= a) -> 0 <= Pg.sumTable p m.
Proof.
  unfold Pg.sumTable.
  apply (map_fold_weak_ind (fun total m => (forall k a, m !! k = Some a -> 0 <= a) -> 0 <= total)).
  - done.
  - intros i x m' r Hi IH H. assert (0 <= x) by (eapply (H i), lookup_insert_eq).
    assert (0 <= r); [|case_decide; lia].
    apply IH. intros k a Hk. apply (H k). by rewrite lookup_insert_ne by congruence.
Qed.

Lemma ledgerSum_setStake p q v a ver l :
  ledgerSum q (setStake p v a ver l)
  = ledgerSum q l + (if decide (p = q) then a - stakeOf p v l else 0).
Proof.
  unfold ledgerSum, stakeOf. cbn. destruct (Z.eqb_spec a 0) as [->|].
  - rewrite sumTable_delete. cbn. case_decide; lia.
  - rewrite sumTable_insert. cbn. done.
Qed.

Lemma setStake_lookup p v a ver l k :
  l_stakes (setStake p v a ver l) !! k
  = if decide ((p, v) = k) then (if a =? 0 then None else Some a) else l_stakes l !! k.
Proof.
  cbn. destruct (a =? 0); [rewrite lookup_delete|rewrite lookup_insert]; by case_decide.
Qed.

Lemma LedgerInv_setStake max p v a ver l :
  LedgerInv max l -> 0 <= a <= max -> LedgerInv max (setStake p v a ver l).
Proof.
  intros [H1 H2] Ha. split.
  - intros k b. rewrite setStake_lookup. case_decide; [|apply H1].
    destruct (Z.eqb_spec a 0); [done|]. intros [= <-]. lia.
  - intros q w b. rewrite setStake_lookup. cbn. rewrite lookup_insert.
    repeat case_decide; simplify_eq; intros; eauto.
Qed.

Lemma stakeOf_range max p v l : LedgerInv max l -> 0 <= max -> 0 <= stakeOf p v l <= max.
Proof.
  intros [H1 _] Hmax. unfold stakeOf. destruct (l_stakes l !! (p, v)) as [a|] eqn:E; cbn; [|lia].
  apply H1 in E. lia.
Qed.

Lemma ledgerSum_nonneg max p l : LedgerInv max l -> 0 <= ledgerSum p l.
Proof. intros [H1 _]. apply sumTable_nonneg. intros k a E. apply H1 in E. lia. Qed.

(** One stake is part of its pool's sum. *)
Lemma stakeOf_le_sum max p v l : LedgerInv max l -> 0 <= max -> stakeOf p v l <= ledgerSum p l.
Proof.
  intros HI Hmax.
  assert (HI' := LedgerInv_setStake max p v 0 0 l HI ltac:(lia)).
  pose proof (ledgerSum_nonneg max p _ HI') as H. rewrite ledgerSum_setStake in H.
  rewrite decide_True in H by done. lia.
Qed.

(** ** The contract of a store *)

(** No room left in the [BIGINT] columns for adding [a] to the pool. *)
Definition outOfRange (p : string) (a : Z) (l : Ledger) : Prop :=
  Pg.MAX_BIGINT < ledgerSum p l + a \/
  exists ver, l_pools l !! p = Some ver /\ Pg.MAX_BIGINT < ver + 1.

(** The operation did what the ledger does and returned the new pool, or it
    threw, changed nothing, and the ledger rejects it too (or the columns have
    no room). *)
Definition refines {S} (R : S -> Ledger -> Prop) (p : string) (a : Z) (s : S) (l : Ledger)
    (abstract : option Ledger) (result : S * (PoolError + BondPool)) : Prop :=
  (exists l' pool, abstract = Some l' /\ ledgerPool p l' = Some pool /\
     result.2 = inr pool /\ R result.1 l') \/
  (exists e, result = (s, inl e) /\ (abstract = None \/ outOfRange p a l)).

Class StoreContract {S} (store : BondPoolStore S) (R : S -> Ledger -> Prop)
    (okId : string -> Prop) (max : Z) : Prop := {
  sc_getPool : forall s l p, R s l -> okId p -> st_getPool store p s = ledgerPool p l;
  sc_getValidatorStake : forall s l p v, R s l -> okId p ->
    st_getValidatorStake store p v s = mkStake p v <$> l_stakes l !! (p, v);
  sc_sum : forall s l p, R s l -> okId p -> st_sumValidatorStakes store p s = ledgerSum p l;
  sc_stake : forall s l p v a, R s l -> LedgerInv max l -> okId p -> 0 < a <= max ->
    refines R p a s l (ledgerStake max p v a l) (st_stake store p v a s);
  sc_unstake : forall s l p v a, R s l -> LedgerInv max l -> okId p -> 0 < a ->
    refines R p 0 s l (ledgerUnstake p v a l) (st_unstake store p v a s);
  sc_reconcile : forall s l p, R s l -> LedgerInv max l -> okId p ->
    refines R p 0 s l (ledgerReconcile p l) (st_reconcilePool store p s)
}.

(** ** The in-memory store implements the contract *)

Fixpoint no_colon (s : string) : Prop :=
  match s with
  | EmptyString => True
  | String c s' => c <> ":"%char /\ no_colon s'
  end.

Lemma append_String c p q : (String c p ++ q)%string = String c (p ++ q)%string.
Proof. done. Qed.
Lemma append_Empty q : ("" ++ q)%string = q.
Proof. done. Qed.

(** Keys are unambiguous while pool ids have no colon. *)
Lemma stakeKey_inj p q v w :
  no_colon p -> no_colon q -> InMemory.stakeKey p v = InMemory.stakeKey q w ->
  p = q /\ v = w.
Proof.
  unfold InMemory.stakeKey. revert q.
  induction p as [|c p IH]; intros [|c' q]; cbn [no_colon];
    rewrite ?append_Empty, !append_String, ?append_Empty.
  - by intros _ _ [= ->].
  - intros _ [Hc _] E. congruence.
  - intros [Hc _] _ E. congruence.
  - intros [_ Hp] [_ Hq] [= -> E]. destruct (IH q Hp Hq E) as [-> ->]. done.
Qed.

Definition contribution (p : string) (st : option ValidatorStake) : Z :=
  match st with
  | Some st => if bool_decide (st_poolId st = p) then amount st else 0
  | None => 0
  end.

Lemma sumOf_cons p st l :
  InMemory.sumOf p (st :: l) = contribution p (Some st) + InMemory.sumOf p l.
Proof.
  unfold InMemory.sumOf. cbn [foldl].
  assert (Hshift : forall l z,
    foldl (fun total st => if bool_decide (st_poolId st = p) then total + amount st else total) z l
    = z + foldl (fun total st => if bool_decide (st_poolId st = p) then total + amount st
                                 else total) 0 l).
  { clear. induction l as [|x l IH]; intros z; cbn [foldl]; [lia|].
    case_bool_decide; [rewrite (IH (z + _)), (IH (0 + _)); lia|apply IH]. }
  rewrite Hshift. cbn. case_bool_decide; lia.
Qed.

Lemma sumOf_insert p k st (m : jsmap string ValidatorStake) :
  InMemory.sumOf p (map_values (<[k := st]> m))
  = InMemory.sumOf p (map_values m) + contribution p (Some st) - contribution p (m !! k).
Proof.
  destruct m as [l]. unfold map_values, insert, jsmap_insert, lookup, jsmap_lookup.
  cbn [entries]. induction l as [|[k' st'] l IH].
  - cbn [assoc_set assoc_get]. rewrite fmap_cons, sumOf_cons. cbn. lia.
  - cbn [assoc_set assoc_get]. destruct (decide (k = k')) as [->|].
    + rewrite !fmap_cons, !sumOf_cons. cbn [snd]. lia.
    + rewrite !fmap_cons, !sumOf_cons. cbn [snd]. lia.
Qed.

Lemma sumOf_delete p k (m : jsmap string ValidatorStake) :
  map_wf m ->
  InMemory.sumOf p (map_values (delete k m))
  = InMemory.sumOf p (map_values m) - contribution p (m !! k).
Proof.
  destruct m as [l]. unfold map_wf, map_keys, map_values, delete, jsmap_delete, lookup,
    jsmap_lookup. cbn [entries]. induction l as [|[k' st'] l IH]; intros Hwf; [cbn; lia|].
  rewrite fmap_cons, NoDup_cons in Hwf. destruct Hwf as [Hk' Hwf].
  cbn [assoc_del assoc_get]. destruct (decide (k = k')) as [->|].
  - rewrite fmap_cons, sumOf_cons. cbn [snd]. rewrite IH by done.
    assert (assoc_get k' l = None) as -> by (by apply assoc_get_None). cbn. lia.
  - rewrite !fmap_cons, !sumOf_cons. cbn [snd]. rewrite IH by done. lia.
Qed.

Record MemRel (max : Z) (s : InMemory.Store) (l : Ledger) : Prop := {
  mr_max : InMemory.maxValidatorStake s = max;
  mr_wf : map_wf (InMemory.stakes s);
  mr_pools : forall p, no_colon p -> InMemory.pools s !! p = ledgerPool p l;
  mr_stakes : forall p v, no_colon p ->
    InMemory.stakes s !! InMemory.stakeKey p v = mkStake p v <$> l_stakes l !! (p, v);
  mr_sum : forall p, no_colon p -> InMemory.sumValidatorStakes p s = ledgerSum p l
}.

Lemma contribution_stake max s l p q v :
  MemRel max s l -> no_colon p ->
  contribution q (InMemory.stakes s !! InMemory.stakeKey p v)
  = if decide (p = q) then stakeOf p v l else 0.
Proof.
  intros HR Hp. rewrite (mr_stakes _ _ _ HR) by done. unfold stakeOf.
  destruct (l_stakes l !! (p, v)); cbn; repeat case_decide; case_bool_decide || idtac; done.
Qed.

(** The two maps after an operation, for a pool with version [ver]. *)
Definition memSet (p v : string) (a ver : Z) (l' : Ledger) (s : InMemory.Store) :=
  InMemory.mkMem (<[p := mkPool p (ledgerSum p l') (ver + 1)]> (InMemory.pools s))
    (if a =? 0 then delete (InMemory.stakeKey p v) (InMemory.stakes s)
     else <[InMemory.stakeKey p v := mkStake p v a]> (InMemory.stakes s))
    (InMemory.maxValidatorStake s).

Lemma MemRel_set max s l p v a ver :
  MemRel max s l -> no_colon p ->
  MemRel max (memSet p v a ver (setStake p v a ver l) s) (setStake p v a ver l).
Proof.
  intros HR Hp. split; cbn [memSet InMemory.maxValidatorStake InMemory.stakes InMemory.pools].
  - apply HR.
  - destruct (a =? 0); [apply map_wf_delete|apply map_wf_insert]; apply HR.
  - intros q Hq. unfold ledgerPool.
    rewrite jsmap_lookup_insert. cbn [setStake l_pools]. rewrite lookup_insert.
    destruct (decide (q = p)) as [->|Hne].
    + rewrite !decide_True by done. reflexivity.
    + rewrite !decide_False by congruence.
      rewrite ledgerSum_setStake, decide_False, Z.add_0_r by congruence. by apply (mr_pools _ _ _ HR).
  - intros q w Hq. rewrite setStake_lookup.
    assert (Hkey : InMemory.stakeKey q w = InMemory.stakeKey p v <-> (p, v) = (q, w)).
    { split; [|congruence]. intros E. apply stakeKey_inj in E as [-> ->]; done. }
    assert (Hkey' : InMemory.stakeKey p v = InMemory.stakeKey q w <-> (p, v) = (q, w))
      by (rewrite <- Hkey; split; congruence).
    destruct (a =? 0); [rewrite jsmap_lookup_delete|rewrite jsmap_lookup_insert];
      repeat case_decide; try tauto; simplify_eq; try done; by apply (mr_stakes _ _ _ HR).
  - intros q Hq. unfold InMemory.sumValidatorStakes.
    cbn [memSet InMemory.stakes]. rewrite ledgerSum_setStake, <- (mr_sum _ _ _ HR) by done.
    unfold InMemory.sumValidatorStakes. destruct (Z.eqb_spec a 0) as [->|].
    + rewrite sumOf_delete by apply HR.
      rewrite (contribution_stake max s l) by done. case_decide; lia.
    + rewrite sumOf_insert, (contribution_stake max s l) by done. cbn.
      case_bool_decide; case_decide; try done; lia.
Qed.

Lemma requirePool_eq p s :
  InMemory.requirePool p s
  = (s, match InMemory.pools s !! p with Some pool => inr pool | None => inl PoolNotFoundError end).
Proof. unfold InMemory.requirePool, bind, get. by destruct (InMemory.pools s !! p). Qed.

Lemma stakes_amount max s l p v :
  MemRel max s l -> no_colon p ->
  match InMemory.stakes s !! InMemory.stakeKey p v with Some e => amount e | None => 0 end
  = stakeOf p v l.
Proof.
  intros HR Hp. rewrite (mr_stakes _ _ _ HR) by done. unfold stakeOf.
  by destruct (l_stakes l !! (p, v)).
Qed.

Lemma mem_stake max s l p v a :
  MemRel max s l -> LedgerInv max l -> no_colon p -> 0 < a <= max ->
  refines (MemRel max) p a s l (ledgerStake max p v a l) (InMemory.stake p v a s).
Proof.
  intros HR HI Hp Ha. unfold InMemory.stake, ledgerStake, bind, get, guard, modify, ret, throw.
  rewrite requirePool_eq, (mr_pools _ _ _ HR) by done. unfold ledgerPool.
  destruct (l_pools l !! p) as [ver|] eqn:Hver; cbn [fmap option_fmap option_map];
    [|right; eauto].
  rewrite (stakes_amount max s l) by done. rewrite (mr_max _ _ _ HR).
  pose proof (stakeOf_range max p v l HI ltac:(lia)).
  destruct (max <? stakeOf p v l + a) eqn:Hmax; cbn [negb]; [right; eauto|].
  left. exists (setStake p v (stakeOf p v l + a) ver l). eexists.
  split; [done|]. split; [unfold ledgerPool; cbn [setStake l_pools]; by rewrite lookup_insert_eq|].
  cbn [fst snd]. rewrite ledgerSum_setStake, decide_True by done. split; [do 2 f_equal; cbn; lia|].
  assert (HS := MemRel_set max s l p v (stakeOf p v l + a) ver HR Hp).
  unfold memSet in HS. rewrite ledgerSum_setStake, decide_True in HS by done.
  rewrite (proj2 (Z.eqb_neq _ 0)) in HS by lia.
  replace (ledgerSum p l + (stakeOf p v l + a - stakeOf p v l)) with (ledgerSum p l + a) in HS by lia.
  exact HS.
Qed.

Lemma mem_unstake max s l p v a :
  MemRel max s l -> LedgerInv max l -> 0 <= max -> no_colon p -> 0 < a ->
  refines (MemRel max) p 0 s l (ledgerUnstake p v a l) (InMemory.unstake p v a s).
Proof.
  intros HR HI Hmax Hp Ha.
  unfold InMemory.unstake, ledgerUnstake, bind, get, guard, modify, ret, throw.
  rewrite requirePool_eq, (mr_pools _ _ _ HR) by done. unfold ledgerPool.
  destruct (l_pools l !! p) as [ver|] eqn:Hver; cbn [fmap option_fmap option_map];
    [|right; eauto].
  rewrite (mr_stakes _ _ _ HR) by done.
  pose proof (stakeOf_le_sum max p v l HI Hmax) as Hle. unfold stakeOf in *.
  destruct (l_stakes l !! (p, v)) as [cur|] eqn:Hcur; cbn [fmap option_fmap option_map default amount st_poolId st_validatorId] in *.
  2:{ right. eexists. split; [done|]. left. cbn. destruct (Z.ltb_spec (0 - a) 0); [done|lia]. }
  cbn in Hle |- *.
  destruct (Z.ltb_spec cur a) as [Hlt|Hge]; cbn [negb].
  { right. eexists. split; [done|]. left. by rewrite (proj2 (Z.ltb_lt _ _)) by lia. }
  rewrite (proj2 (Z.ltb_ge (cur - a) 0)) by lia.
  rewrite (proj2 (Z.ltb_ge (ledgerSum p l) a)) by lia. cbn [negb].
  left. exists (setStake p v (cur - a) ver l). eexists.
  split; [done|]. split; [unfold ledgerPool; cbn [setStake l_pools]; by rewrite lookup_insert_eq|].
  assert (HS := MemRel_set max s l p v (cur - a) ver HR Hp). unfold memSet in HS.
  assert (Hsum : ledgerSum p (setStake p v (cur - a) ver l) = ledgerSum p l - a).
  { rewrite ledgerSum_setStake, decide_True by done. unfold stakeOf. rewrite Hcur. cbn. lia. }
  rewrite Hsum in HS |- *.
  destruct (cur - a =? 0); split; try done; exact HS.
Qed.

Lemma mem_reconcile max s l p :
  MemRel max s l -> no_colon p ->
  refines (MemRel max) p 0 s l (ledgerReconcile p l) (InMemory.reconcilePool p s).
Proof.
  intros HR Hp.
  unfold InMemory.reconcilePool, ledgerReconcile, bind, get, modify, ret.
  rewrite requirePool_eq, (mr_pools _ _ _ HR) by done. unfold ledgerPool at 1.
  destruct (l_pools l !! p) as [ver|] eqn:Hver; cbn [fmap option_fmap option_map];
    [|right; eauto].
  left. eexists. eexists. split; [done|]. unfold ledgerPool. cbn [l_pools].
  rewrite lookup_insert_eq. split; [done|]. cbn [fst snd pool_id version].
  rewrite (mr_sum _ _ _ HR) by done. split; [done|].
  split; cbn; try apply HR.
  intros q Hq. rewrite jsmap_lookup_insert. unfold ledgerPool. cbn. rewrite lookup_insert.
  destruct (decide (q = p)) as [->|]; [rewrite !decide_True by done; reflexivity|].
  rewrite !decide_False by congruence. by apply (mr_pools _ _ _ HR).
Qed.

#[export] Instance memory_contract max :
  0 <= max -> StoreContract InMemory.store (MemRel max) no_colon max.
Proof.
  intros Hmax. split; cbn; intros.
  - by apply (mr_pools _ _ _ H).
  - by apply (mr_stakes _ _ _ H).
  - by apply (mr_sum _ _ _ H).
  - by apply mem_stake.
  - by apply (mem_unstake max).
  - by apply mem_reconcile.
Qed.

(** ** The PostgreSQL store implements the contract *)

Record PgRel (max : Z) (t : Pg.Tables) (l : Ledger) : Prop := {
  pr_max : Pg.maxValidatorStake t = max;
  pr_pools : forall p, Pg.bond_pools t !! p
    = (fun v => Pg.mkRow (ledgerSum p l) v) <$> l_pools l !! p;
  pr_stakes : Pg.validator_stakes t = l_stakes l;
  pr_versions : forall p ver, l_pools l !! p = Some ver -> 0 <= ver
}.

(** One round of the optimistic loop is enough when nothing interferes. *)
Lemma increment_alone p a t r :
  Pg.bond_pools t !! p = Some r ->
  Pg.incrementPoolBalance [] p a t
  = if Pg.checked (Pg.row_balance r + a) && Pg.checked (Pg.row_version r + 1)
    then (Pg.set_bond_pools <[p := Pg.mkRow (Pg.row_balance r + a) (Pg.row_version r + 1)]> t,
          inr (mkPool p (Pg.row_balance r + a) (Pg.row_version r + 1)))
    else (t, inl SqlCheckViolation).
Proof.
  intros Hp. unfold Pg.incrementPoolBalance, Pg.maxOptimisticAttempts.
  cbn [Pg.incrementLoop]. unfold Pg.selectPool, Pg.others, Pg.updatePool, bind, get, ret, modify,
    guard, throw. cbn [hd]. rewrite Hp. cbn -[Pg.checked].
  rewrite Hp, Z.eqb_refl. cbn -[Pg.checked].
  by destruct (Pg.checked _ && Pg.checked _).
Qed.

Lemma decrement_alone p a t r :
  Pg.bond_pools t !! p = Some r -> a <= Pg.row_balance r ->
  Pg.decrementPoolBalance [] p a t
  = if Pg.checked (Pg.row_balance r + - a) && Pg.checked (Pg.row_version r + 1)
    then (Pg.set_bond_pools <[p := Pg.mkRow (Pg.row_balance r + - a) (Pg.row_version r + 1)]> t,
          inr (mkPool p (Pg.row_balance r + - a) (Pg.row_version r + 1)))
    else (t, inl SqlCheckViolation).
Proof.
  intros Hp Hle. unfold Pg.decrementPoolBalance, Pg.maxOptimisticAttempts.
  cbn [Pg.decrementLoop]. unfold Pg.selectPool, Pg.others, Pg.updatePool, bind, get, ret, modify,
    guard, throw. cbn [hd]. rewrite Hp. cbn -[Pg.checked].
  rewrite (proj2 (Z.ltb_ge _ _)) by done. cbn -[Pg.checked].
  rewrite Hp, Z.eqb_refl, (proj2 (Z.leb_le a _)) by done. cbn -[Pg.checked].
  by destruct (Pg.checked _ && Pg.checked _).
Qed.

Lemma pg_pools max t l p :
  PgRel max t l ->
  Pg.bond_pools t !! p = (fun v => Pg.mkRow (ledgerSum p l) v) <$> l_pools l !! p.
Proof. intros HR. apply (pr_pools _ _ _ HR). Qed.

Lemma PgRel_set max t l p v a ver bal stakes :
  PgRel max t l -> 0 <= ver ->
  stakes = l_stakes (setStake p v a ver l) ->
  bal = ledgerSum p (setStake p v a ver l) ->
  PgRel max (Pg.mkTables (<[p := Pg.mkRow bal (ver + 1)]> (Pg.bond_pools t)) stakes
               (Pg.maxValidatorStake t)) (setStake p v a ver l).
Proof.
  intros HR Hver -> ->. split; cbn [Pg.maxValidatorStake Pg.bond_pools Pg.validator_stakes].
  - apply HR.
  - intros q. cbn [setStake l_pools]. rewrite !lookup_insert.
    destruct (decide (p = q)) as [->|Hne]; [done|].
    rewrite ledgerSum_setStake, decide_False, Z.add_0_r by done. apply (pr_pools _ _ _ HR).
  - done.
  - intros q w. cbn. rewrite lookup_insert. case_decide; [intros [= <-]; lia|].
    apply (pr_versions _ _ _ HR).
Qed.

Lemma checked_false a l p ver :
  0 <= ver -> l_pools l !! p = Some ver -> 0 <= ledgerSum p l + a ->
  Pg.checked (ledgerSum p l + a) && Pg.checked (ver + 1) = false -> outOfRange p a l.
Proof.
  intros Hver Hp Hs. unfold Pg.checked, outOfRange.
  destruct (Z.leb_spec (ledgerSum p l + a) Pg.MAX_BIGINT); [|left; lia].
  rewrite (proj2 (Z.leb_le 0 _)) by done. rewrite (proj2 (Z.leb_le 0 (ver + 1))) by lia. cbn.
  destruct (Z.leb_spec (ver + 1) Pg.MAX_BIGINT); [done|]. intros _. right. exists ver. split; [done|lia].
Qed.

Lemma pg_upsert max t l p v a :
  PgRel max t l -> LedgerInv max l -> 0 < a <= max -> max <= Pg.MAX_BIGINT ->
  Pg.upsertStake p v a t
  = let next := stakeOf p v l + a in
    if max <? next then (t, inr None)
    else (Pg.set_validator_stakes <[(p, v) := next]> t, inr (Some next)).
Proof.
  intros HR HI Ha Hmax.
  unfold Pg.upsertStake, bind, get, guard, modify, ret, throw.
  pose proof (stakeOf_range max p v l HI ltac:(lia)) as Hr.
  rewrite (pr_stakes _ _ _ HR), (pr_max _ _ _ HR). unfold stakeOf in *.
  assert (Hck : forall z, 0 <= z <= max -> Pg.checked z = true).
  { intros z Hz. unfold Pg.checked. rewrite !(proj2 (Z.leb_le _ _)) by lia. done. }
  destruct (l_stakes l !! (p, v)) as [cur|]; cbn in *.
  - destruct (Z.leb_spec (cur + a) max).
    + rewrite (proj2 (Z.ltb_ge _ _)) by lia. by rewrite Hck by lia.
    + by rewrite (proj2 (Z.ltb_lt _ _)) by lia.
  - rewrite (proj2 (Z.ltb_ge _ _)) by lia. by rewrite Hck by lia.
Qed.

Lemma pg_stake max t l p v a :
  PgRel max t l -> LedgerInv max l -> max <= Pg.MAX_BIGINT -> 0 < a <= max ->
  refines (PgRel max) p a t l (ledgerStake max p v a l) (Pg.stake p v a t).
Proof.
  intros HR HI Hmax Ha. unfold Pg.stake, Pg.withTransaction, Pg.selectPool, ignore, ledgerStake.
  unfold bind at 1 2 3, get, ret, throw. rewrite (pg_pools max t l) by done.
  destruct (l_pools l !! p) as [ver|] eqn:Hver; cbn [fmap option_fmap option_map];
    [|right; eauto].
  unfold bind. rewrite (pg_upsert max t l) by done. cbn zeta.
  pose proof (stakeOf_range max p v l HI ltac:(lia)).
  destruct (max <? stakeOf p v l + a) eqn:Hlim; [right; eauto|].
  assert (Hrow : Pg.bond_pools (Pg.set_validator_stakes <[(p, v) := stakeOf p v l + a]> t) !! p
    = Some (Pg.mkRow (ledgerSum p l) ver))
    by (cbn; rewrite (pg_pools max t l), Hver by done; reflexivity).
  rewrite (increment_alone p a _ _ Hrow). cbn [Pg.row_balance Pg.row_version].
  assert (Hver0 := pr_versions _ _ _ HR p ver Hver).
  pose proof (ledgerSum_nonneg max p l HI).
  destruct (Pg.checked (ledgerSum p l + a) && Pg.checked (ver + 1)) eqn:Hck.
  - left. exists (setStake p v (stakeOf p v l + a) ver l). eexists.
    split; [done|]. split; [unfold ledgerPool; cbn [setStake l_pools]; by rewrite lookup_insert_eq|].
    cbn [fst snd]. rewrite ledgerSum_setStake, decide_True by done.
    split; [do 2 f_equal; lia|]. apply (PgRel_set max t); [done..| |].
    + cbn [setStake l_stakes]. rewrite (proj2 (Z.eqb_neq _ 0)) by lia.
      by rewrite <- (pr_stakes _ _ _ HR).
    + rewrite ledgerSum_setStake, decide_True by done. lia.
  - right. eexists. split; [done|]. right.
    eapply checked_false; [exact Hver0|exact Hver|lia|exact Hck].
Qed.

Lemma pg_subtract max t l p v a :
  PgRel max t l -> LedgerInv max l -> max <= Pg.MAX_BIGINT -> 0 < a <= stakeOf p v l ->
  (Pg.subtractStake p v a ;;; Pg.deleteEmptyStake p v) t
  = (Pg.set_validator_stakes
       (fun _ => l_stakes (setStake p v (stakeOf p v l - a) 0 l)) t, inr tt).
Proof.
  intros HR HI Hmax Ha. unfold Pg.subtractStake, Pg.deleteEmptyStake.
  unfold bind, get, guard, modify, ret, throw. rewrite (pr_stakes _ _ _ HR).
  unfold stakeOf in *. destruct (l_stakes l !! (p, v)) as [cur|] eqn:Hcur; cbn in Ha |- *; [|lia].
  destruct (li_range max l HI _ _ Hcur).
  assert (Pg.checked (cur - a) = true) as ->
    by (unfold Pg.checked; rewrite !(proj2 (Z.leb_le _ _)) by lia; done).
  cbn. rewrite lookup_insert_eq.
  destruct (Z.eqb_spec (cur - a) 0) as [E|E];
    [rewrite bool_decide_true by congruence|rewrite bool_decide_false by congruence];
    unfold Pg.set_validator_stakes; cbn; rewrite (pr_stakes _ _ _ HR); [|done].
  do 2 f_equal. apply delete_insert_eq.
Qed.

Lemma pg_unstake max t l p v a :
  PgRel max t l -> LedgerInv max l -> 0 <= max -> max <= Pg.MAX_BIGINT -> 0 < a ->
  refines (PgRel max) p 0 t l (ledgerUnstake p v a l) (Pg.unstake p v a t).
Proof.
  intros HR HI Hmax0 Hmax Ha. unfold Pg.unstake, Pg.withTransaction, ledgerUnstake.
  pose proof (stakeOf_le_sum max p v l HI Hmax0) as Hsum.
  unfold bind at 1 2, get, guard, ret, throw. rewrite (pr_stakes _ _ _ HR).
  assert ((match l_stakes l !! (p, v) with Some c => negb (c <? a) | None => false end)
    = negb (stakeOf p v l - a <? 0)) as ->.
  { unfold stakeOf. destruct (l_stakes l !! (p, v)) as [c|]; cbn.
    - destruct (Z.ltb_spec c a), (Z.ltb_spec (c - a) 0); try done; lia.
    - destruct (Z.ltb_spec (0 - a) 0); [done|lia]. }
  destruct (Z.ltb_spec (stakeOf p v l - a) 0) as [Hlt|Hge]; cbn [negb].
  { right. eexists. split; [done|]. left. by destruct (l_pools l !! p). }
  rewrite <- bind_assoc. unfold bind at 1.
  rewrite (pg_subtract max t l) by (done || lia).
  destruct (l_pools l !! p) as [ver|] eqn:Hver.
  2:{ exfalso. unfold stakeOf in Hge. destruct (l_stakes l !! (p, v)) as [c|] eqn:Hc;
        [|cbn in Hge; lia].
      apply (li_pool max l HI) in Hc as [w Hw]. congruence. }
  rewrite (decrement_alone p a _ (Pg.mkRow (ledgerSum p l) ver));
    [|cbn; rewrite (pg_pools max t l), Hver by done; reflexivity|cbn; lia].
  cbn [Pg.row_balance Pg.row_version].
  assert (Hver0 := pr_versions _ _ _ HR p ver Hver).
  destruct (Pg.checked (ledgerSum p l + - a) && Pg.checked (ver + 1)) eqn:Hck.
  - left. exists (setStake p v (stakeOf p v l - a) ver l). eexists.
    split; [done|]. split; [unfold ledgerPool; cbn [setStake l_pools]; by rewrite lookup_insert_eq|].
    cbn [fst snd]. rewrite ledgerSum_setStake, decide_True by done.
    split; [do 2 f_equal; lia|]. apply (PgRel_set max t); [done..|].
    rewrite ledgerSum_setStake, decide_True by done. lia.
  - right. eexists. split; [done|]. right.
    apply checked_false in Hck; [|done..|lia]. destruct Hck as [?|?]; [left; lia|by right].
Qed.

Lemma pg_reconcile max t l p :
  PgRel max t l -> LedgerInv max l ->
  refines (PgRel max) p 0 t l (ledgerReconcile p l) (Pg.reconcilePool p t).
Proof.
  intros HR HI. unfold Pg.reconcilePool, ledgerReconcile, bind, get, guard, modify, ret, throw.
  rewrite (pg_pools max t l) by done.
  destruct (l_pools l !! p) as [ver|] eqn:Hver; cbn [fmap option_fmap option_map];
    [|right; eauto].
  assert (Pg.sumValidatorStakes p t = ledgerSum p l) as ->
    by (unfold Pg.sumValidatorStakes; by rewrite (pr_stakes _ _ _ HR)).
  cbn [Pg.row_balance Pg.row_version].
  assert (Hver0 := pr_versions _ _ _ HR p ver Hver).
  pose proof (ledgerSum_nonneg max p l HI).
  destruct (Pg.checked (ledgerSum p l) && Pg.checked (ver + 1)) eqn:Hck.
  - left. eexists. eexists. split; [done|]. unfold ledgerPool. cbn [l_pools].
    rewrite lookup_insert_eq. split; [done|]. cbn [fst snd]. split; [done|].
    split; cbn; try apply HR.
    + intros q. rewrite !lookup_insert. case_decide; subst; [done|].
      apply (pg_pools max t l q HR).
    + intros q w. rewrite lookup_insert. case_decide; [intros [= <-]; lia|].
      apply (pr_versions _ _ _ HR).
  - right. eexists. split; [done|]. right.
    apply (checked_false 0 l p ver); auto; rewrite Z.add_0_r; done.
Qed.

#[export] Instance pg_contract max :
  0 <= max -> max <= Pg.MAX_BIGINT -> StoreContract Pg.store (PgRel max) (fun _ => True) max.
Proof.
  intros Hmax0 Hmax. split; cbn; intros s l p.
  - intros HR _. unfold Pg.getPool, ledgerPool. rewrite (pg_pools max s l) by done.
    destruct (l_pools l !! p); [|done]. cbn. unfold Pg.sumValidatorStakes.
    by rewrite (pr_stakes _ _ _ HR).
  - intros v HR _. unfold Pg.getValidatorStake. by rewrite (pr_stakes _ _ _ HR).
  - intros HR _. unfold Pg.sumValidatorStakes. by rewrite (pr_stakes _ _ _ HR).
  - intros. by apply pg_stake.
  - intros. by apply (pg_unstake max).
  - intros. by apply (pg_reconcile max).
Qed.

(** ** The service over any store that keeps the contract *)

Inductive PoolOp :=
  | OpStake (p v : string) (a : Z)
  | OpUnstake (p v : string) (a : Z)
  | OpReconcile (p : string).

Definition opPool (op : PoolOp) : string :=
  match op with OpStake p _ _ | OpUnstake p _ _ | OpReconcile p => p end.

Definition callPool {S} (store : BondPoolStore S) (op : PoolOp) (s : S) : S * (PoolError + BondPool) :=
  match op with
  | OpStake p v a => Service.stake store p v a s
  | OpUnstake p v a => Service.unstake store p v a s
  | OpReconcile p => Service.reconcile store p s
  end.
Definition runPoolOp {S} (store : BondPoolStore S) (op : PoolOp) (s : S) : S := (callPool store op s).1.

Definition runPoolOps {S} (store : BondPoolStore S) (ops : list PoolOp) (s : S) : S :=
  foldl (fun s op => runPoolOp store op s) s ops.

Lemma ledgerStake_inv max p v a l l' :
  LedgerInv max l -> 0 < a <= max -> ledgerStake max p v a l = Some l' -> LedgerInv max l'.
Proof.
  intros HI Ha. unfold ledgerStake. destruct (l_pools l !! p); [|done].
  pose proof (stakeOf_range max p v l HI ltac:(lia)).
  destruct (Z.ltb_spec max (stakeOf p v l + a)); [done|]. intros [= <-].
  apply LedgerInv_setStake; [done|lia].
Qed.

Lemma ledgerUnstake_inv max p v a l l' :
  LedgerInv max l -> 0 <= max -> 0 < a -> ledgerUnstake p v a l = Some l' -> LedgerInv max l'.
Proof.
  intros HI Hmax Ha. unfold ledgerUnstake. destruct (l_pools l !! p); [|done].
  pose proof (stakeOf_range max p v l HI Hmax).
  destruct (Z.ltb_spec (stakeOf p v l - a) 0); [done|]. intros [= <-].
  apply LedgerInv_setStake; [done|lia].
Qed.

Lemma ledgerReconcile_inv max p l l' :
  LedgerInv max l -> ledgerReconcile p l = Some l' -> LedgerInv max l'.
Proof.
  intros [H1 H2]. unfold ledgerReconcile. destruct (l_pools l !! p); [|done]. intros [= <-].
  split; cbn; [done|]. intros q w a Hq. apply H2 in Hq. rewrite lookup_insert. by case_decide.
Qed.

(** *** What the ledger makes of the calls *)

Definition inRange (a : Z) : bool := (100 <=? a) && (a <=? 100000).

Definition specOp (max : Z) (op : PoolOp) (l : Ledger) : option Ledger :=
  match op with
  | OpStake p v a => if inRange a then ledgerStake max p v a l else None
  | OpUnstake p v a => if inRange a then ledgerUnstake p v a l else None
  | OpReconcile p => ledgerReconcile p l
  end.
Definition ledgerRun (max : Z) (ops : list PoolOp) (l : Ledger) : Ledger := foldl (fun l op => default l (specOp max op l)) l ops.

(** The answer of a call: the pool as it is then, or an error if the ledger refuses. *)
Definition answered (r : PoolError + BondPool) (abstract : option Ledger) (p : string) : Prop :=
  match abstract with
  | Some l => exists pool, ledgerPool p l = Some pool /\ r = inr pool
  | None => exists e, r = inl e
  end.

(** What is seen of pool [p] through the service *)
Definition shows {S} (store : BondPoolStore S) (s : S) (l : Ledger) (p : string) : Prop :=
  st_getPool store p s = ledgerPool p l /\ Service.getPool store p s = ledgerPool p l /\
  Service.getDerivedBalance store p s = ledgerSum p l /\
  forall v, st_getValidatorStake store p v s = mkStake p v <$> l_stakes l !! (p, v).

(** The columns have room for [n] calls. *)
Definition roomFor (n : nat) (l : Ledger) : Prop :=
  (forall p, ledgerSum p l + Z.of_nat n * 100000 <= Pg.MAX_BIGINT) /\
  (forall p ver, l_pools l !! p = Some ver -> ver + Z.of_nat n <= Pg.MAX_BIGINT).

Lemma roomFor_inside n p a l : roomFor (S n) l -> a <= 100000 -> ~ outOfRange p a l.
Proof.
  intros [H1 H2] Ha [H|(ver & Hv & H)]; [specialize (H1 p)|specialize (H2 p ver Hv)]; lia.
Qed.

Lemma roomFor_set n max p v next ver l : LedgerInv max l -> 0 <= max -> l_pools l !! p = Some ver ->
  next <= stakeOf p v l + 100000 -> roomFor (S n) l -> roomFor n (setStake p v next ver l).
Proof.
  intros HI Hmax Hp Hn [H1 H2]. split.
  - intros q. rewrite ledgerSum_setStake. specialize (H1 q). case_decide; lia.
  - intros q w. cbn. rewrite lookup_insert. case_decide as E; [intros [= <-]; subst q; specialize (H2 p ver Hp); lia|].
    intros Hq. specialize (H2 q w Hq). lia.
Qed.

Lemma roomFor_less n l : roomFor (S n) l -> roomFor n l.
Proof. intros [H1 H2]. split; [intros p; specialize (H1 p)|intros p w Hp; specialize (H2 p w Hp)]; lia. Qed.

Lemma specOp_inv max op l n : 100000 <= max -> LedgerInv max l -> roomFor (S n) l ->
  LedgerInv max (default l (specOp max op l)) /\ roomFor n (default l (specOp max op l)).
Proof.
  intros Hmax HI Hroom. assert (Hsame : LedgerInv max l /\ roomFor n l) by (split; [done|by apply roomFor_less]).
  destruct op as [p v a|p v a|p]; cbn [specOp].
  - destruct (inRange a) eqn:Ha; [|done]. unfold inRange in Ha. apply andb_true_iff in Ha as [Ha1%Z.leb_le Ha2%Z.leb_le].
    destruct (ledgerStake max p v a l) as [l'|] eqn:E; [|done]. cbn. split; [by apply (ledgerStake_inv max p v a l); [|lia|]|].
    unfold ledgerStake in E. destruct (l_pools l !! p) as [ver|] eqn:Hp; [|done]. destruct (max <? _); [done|]. injection E as <-.
    apply (roomFor_set n max); [done|lia|done|lia|done].
  - destruct (inRange a) eqn:Ha; [|done]. unfold inRange in Ha. apply andb_true_iff in Ha as [Ha1%Z.leb_le Ha2%Z.leb_le].
    destruct (ledgerUnstake p v a l) as [l'|] eqn:E; [|done]. cbn. split; [by apply (ledgerUnstake_inv max p v a l); [|lia|lia|]|].
    unfold ledgerUnstake in E. destruct (l_pools l !! p) as [ver|] eqn:Hp; [|done]. destruct (_ <? 0); [done|]. injection E as <-.
    apply (roomFor_set n max); [done|lia|done|lia|done].
  - destruct (ledgerReconcile p l) as [l'|] eqn:E; [|done]. cbn. split; [by apply (ledgerReconcile_inv max p l)|].
    unfold ledgerReconcile in E. destruct (l_pools l !! p) as [ver|] eqn:Hp; [|done]. injection E as <-. destruct Hroom as [H1 H2].
    split; [intros q; specialize (H1 q); unfold ledgerSum in *; cbn; lia|]. intros q w. cbn. rewrite lookup_insert.
    case_decide as E; [intros [= <-]; subst q; specialize (H2 p ver Hp); lia|]. intros Hq. specialize (H2 q w Hq). lia.
Qed.

Lemma ledgerRun_inv max ops : forall l n, 100000 <= max -> LedgerInv max l -> roomFor (length ops + n) l -> LedgerInv max (ledgerRun max ops l).
Proof.
  induction ops as [|op ops IH]; intros l n Hmax HI Hroom; [done|].
  destruct (specOp_inv max op l (length ops + n) Hmax HI Hroom) as [HI' Hroom']. by apply (IH _ n).
Qed.

Section client.
Context {S} (store : BondPoolStore S) (R : S -> Ledger -> Prop) (okId : string -> Prop) (max : Z).
Context `{!StoreContract store R okId max}.
Hypothesis max_covers : Service.MAX_STAKE <= max.

Lemma assertStakeAmount_ok a s :
  (Service.assertStakeAmount (S := S) a s = (s, inr tt) /\ inRange a = true /\ 100 <= a <= 100000) \/
  (Service.assertStakeAmount (S := S) a s = (s, inl StakeAmountError) /\ inRange a = false).
Proof.
  unfold Service.assertStakeAmount, guard, inRange, Service.MIN_STAKE, Service.MAX_STAKE.
  destruct (Z.ltb_spec a 100), (Z.ltb_spec 100000 a), (Z.leb_spec 100 a), (Z.leb_spec a 100000); try lia; [by right..|].
  left. by split_and!.
Qed.

(** One call does what the ledger does with it, and answers as the ledger would. *)
Lemma runPoolOp_spec op s l n :
  R s l -> LedgerInv max l -> okId (opPool op) -> roomFor (Datatypes.S n) l ->
  answered (callPool store op s).2 (specOp max op l) (opPool op) /\
  R (runPoolOp store op s) (default l (specOp max op l)) /\ LedgerInv max (default l (specOp max op l)) /\
  roomFor n (default l (specOp max op l)).
Proof.
  intros HR HI Hid Hroom. assert (0 <= max) by (unfold Service.MAX_STAKE in *; lia).
  pose proof (specOp_inv max op l n max_covers HI Hroom) as [HI' Hroom'].
  assert (Hdo : forall p a abstract result, refines R p a s l abstract result -> a <= 100000 ->
    answered result.2 abstract p /\ R result.1 (default l abstract)).
  { intros p a abstract result [(l' & pool & -> & Hp & Hr & HR')|(e & -> & [->|Hout])] Ha; cbn.
    - rewrite Hr. split; [by exists pool|done].
    - split; [by exists e|done].
    - by destruct (roomFor_inside n p a l Hroom Ha Hout). }
  assert (Hgo : answered (callPool store op s).2 (specOp max op l) (opPool op) /\ R (runPoolOp store op s) (default l (specOp max op l))).
  { unfold runPoolOp. destruct op as [p v a|p v a|p]; cbn [opPool callPool specOp] in *.
    - unfold Service.stake, bind. destruct (assertStakeAmount_ok a s) as [[-> [-> Ha]]|[-> ->]]; [|split; [by eexists|done]].
      unfold Service.MAX_STAKE in *. apply (Hdo p a); [by apply sc_stake; [..|lia]|lia].
    - unfold Service.unstake, bind. destruct (assertStakeAmount_ok a s) as [[-> [-> Ha]]|[-> ->]]; [|split; [by eexists|done]].
      apply (Hdo p 0); [by apply sc_unstake; [..|lia]|lia].
    - unfold Service.reconcile. apply (Hdo p 0); [by apply sc_reconcile|lia]. }
  by destruct Hgo.
Qed.

Lemma runPoolOps_spec ops : forall s l n,
  R s l -> LedgerInv max l -> Forall (fun op => okId (opPool op)) ops -> roomFor (length ops + n) l ->
  R (runPoolOps store ops s) (ledgerRun max ops l) /\ LedgerInv max (ledgerRun max ops l) /\ roomFor n (ledgerRun max ops l).
Proof.
  induction ops as [|op ops IH]; intros s l n HR HI Hids Hroom; [done|].
  apply Forall_cons in Hids as [Hid Hids].
  destruct (runPoolOp_spec op s l (length ops + n) HR HI Hid Hroom) as (_ & HR' & HI' & Hroom'). by apply IH.
Qed.

(** What the service shows of pool [p] is what the ledger holds. *)
Lemma shows_ledger s l p : R s l -> LedgerInv max l -> okId p -> shows store s l p.
Proof.
  intros HR HI Hp. unfold shows, Service.getPool, Service.getDerivedBalance.
  rewrite (sc_getPool s l p), (sc_sum s l p) by done. split; [done|]. split; [|split; [done|]].
  - unfold ledgerPool. by destruct (l_pools l !! p).
  - intros v. by apply sc_getValidatorStake.
Qed.

Lemma service_refines ops s l p :
  R s l -> LedgerInv max l -> Forall (fun op => okId (opPool op)) ops -> okId p -> roomFor (length ops) l ->
  shows store (runPoolOps store ops s) (ledgerRun max ops l) p /\
  (forall ops1 op ops2, ops = ops1 ++ op :: ops2 ->
     answered (callPool store op (runPoolOps store ops1 s)).2 (specOp max op (ledgerRun max ops1 l)) (opPool op)).
Proof.
  intros HR HI Hids Hp Hroom. rewrite <- (Nat.add_0_r (length ops)) in Hroom.
  destruct (runPoolOps_spec ops s l 0 HR HI Hids Hroom) as (HR' & HI' & _). split; [by apply shows_ledger|].
  intros ops1 op ops2 ->. apply Forall_app in Hids as [H1 [H2 _]%Forall_cons]. rewrite length_app in Hroom. cbn [length] in Hroom.
  replace (length ops1 + Datatypes.S (length ops2) + 0)%nat with (length ops1 + Datatypes.S (length ops2))%nat in Hroom by lia.
  destruct (runPoolOps_spec ops1 s l _ HR HI H1 Hroom) as (HR1 & HI1 & Hroom1).
  by apply (runPoolOp_spec op _ _ (length ops2)).
Qed.
End client.

(** C8: over either store, from states that stand for the same ledger: whatever stakes,
    unstakes and reconciliations are asked of the service, every call answers what the
    ledger answers, an amount outside [100, 100000] refused, and afterwards each pool the
    service reports has the sum of its validators' stakes as its balance, never negative,
    every stake lies between 1 and the limit of the store, and both stores show the same.
    The limit covers the largest amount, pool ids hold no colon, and the columns have room
    for all the calls. *)
Theorem pool_balance_is_sum_of_stakes max ops s t l p :
  100000 <= max -> max <= Pg.MAX_BIGINT -> MemRel max s l -> PgRel max t l -> LedgerInv max l ->
  Forall (fun op => no_colon (opPool op)) ops -> no_colon p -> roomFor (length ops) l ->
  let l' := ledgerRun max ops l in
  (shows InMemory.store (runPoolOps InMemory.store ops s) l' p /\ shows Pg.store (runPoolOps Pg.store ops t) l' p) /\
  (forall ops1 op ops2, ops = ops1 ++ op :: ops2 ->
     answered (callPool InMemory.store op (runPoolOps InMemory.store ops1 s)).2 (specOp max op (ledgerRun max ops1 l)) (opPool op) /\
     answered (callPool Pg.store op (runPoolOps Pg.store ops1 t)).2 (specOp max op (ledgerRun max ops1 l)) (opPool op)) /\
  0 <= ledgerSum p l' /\
  (forall v a, l_stakes l' !! (p, v) = Some a -> 0 < a <= max /\ a <= ledgerSum p l').
Proof.
  intros Hmax Hmax' Hs Ht HI Hids Hp Hroom l'. assert (H0 : 0 <= max) by lia.
  assert (Hids' : Forall (fun op => (fun _ : string => True) (opPool op)) ops) by (by apply Forall_forall).
  destruct (service_refines InMemory.store (MemRel max) no_colon max (StoreContract0 := memory_contract max H0) Hmax ops s l p) as [M1 M2]; [done..|].
  destruct (service_refines Pg.store (PgRel max) (fun _ => True) max (StoreContract0 := pg_contract max H0 Hmax') Hmax ops t l p) as [P1 P2]; [done..|].
  assert (HI' : LedgerInv max l').
  { assert (Hroom' : roomFor (length ops + 0) l) by (by rewrite Nat.add_0_r). by apply (ledgerRun_inv max ops l 0). }
  split; [done|]. split; [intros ops1 op ops2 E; split; [by apply (M2 ops1 op ops2)|by apply (P2 ops1 op ops2)]|].
  split; [by apply (ledgerSum_nonneg max)|]. intros v a Ha. split; [by apply (li_range max l' HI' (p, v))|].
  pose proof (stakeOf_le_sum max p v l' HI' H0) as Hle. unfold stakeOf in Hle. by rewrite Ha in Hle.
Qed.

(** ** The two stores compared *)

(** Both succeed with the same pool and stay related, or both reject and change
    nothing. *)
Definition agree (max : Z) (s : InMemory.Store) (t : Pg.Tables)
    (rs : InMemory.Store * (PoolError + BondPool)) (rt : Pg.Tables * (PoolError + BondPool))
    : Prop :=
  (exists l' pool, rs.2 = inr pool /\ rt.2 = inr pool /\ MemRel max rs.1 l' /\
     PgRel max rt.1 l' /\ LedgerInv max l') \/
  (exists e e', rs = (s, inl e) /\ rt = (t, inl e')).

Lemma refines_agree max p a s t l abstract rs rt :
  refines (MemRel max) p a s l abstract rs -> refines (PgRel max) p a t l abstract rt ->
  ~ outOfRange p a l -> (forall l', abstract = Some l' -> LedgerInv max l') ->
  agree max s t rs rt.
Proof.
  intros [(l1 & p1 & E1 & Hp1 & Hr1 & HR1)|(e1 & E1 & Ho1)]
    [(l2 & p2 & E2 & Hp2 & Hr2 & HR2)|(e2 & E2 & Ho2)] Hroom Hinv.
  - left. assert (l2 = l1) as -> by congruence. assert (p2 = p1) as -> by congruence.
    exists l1, p1. split_and!; auto.
  - destruct Ho2; [congruence|done].
  - destruct Ho1; [congruence|done].
  - right. eauto.
Qed.

(** C9: from states that stand for the same ledger, for a pool id free of colons, a
    positive amount within the limit of both stores and with room in the columns, each
    of [stake], [unstake] and [reconcilePool] returns the same pool from the in-memory
    and the PostgreSQL store and leaves both standing for the same ledger, or fails on
    both, with errors that may differ, and changes neither. *)
Theorem stores_agree max s t l p v a :
  0 <= max -> max <= Pg.MAX_BIGINT -> MemRel max s l -> PgRel max t l -> LedgerInv max l ->
  no_colon p -> 0 < a <= max -> ~ outOfRange p a l ->
  agree max s t (InMemory.stake p v a s) (Pg.stake p v a t) /\
  agree max s t (InMemory.unstake p v a s) (Pg.unstake p v a t) /\
  agree max s t (InMemory.reconcilePool p s) (Pg.reconcilePool p t).
Proof.
  intros Hmax Hmax' Hs Ht HI Hp Ha Hroom.
  assert (Hroom0 : ~ outOfRange p 0 l).
  { intros [H|H]; apply Hroom; [left; lia|by right]. }
  split_and!.
  - eapply refines_agree; [by apply mem_stake|by apply pg_stake|done|].
    intros l'. by apply ledgerStake_inv.
  - eapply refines_agree; [by apply mem_unstake; [..|lia]|by apply pg_unstake; [..|lia]|done|].
    intros l'. apply ledgerUnstake_inv; [done..|lia].
  - eapply refines_agree; [by apply mem_reconcile|by apply pg_reconcile|done|].
    intros l'. by apply ledgerReconcile_inv.
Qed.

(** ** Where they differ *)

(** the PostgreSQL store limits only later stakes: a validator's first
    stake in a pool is accepted however far it exceeds [maxValidatorStake],
    where the in-memory store rejects it. *)
Theorem pg_first_stake_ignores_limit t p v a r :
  Pg.bond_pools t !! p = Some r -> Pg.validator_stakes t !! (p, v) = None ->
  Pg.maxValidatorStake t < a -> 0 <= a <= Pg.MAX_BIGINT ->
  0 <= Pg.row_balance r -> 0 <= Pg.row_version r < Pg.MAX_BIGINT ->
  Pg.row_balance r + a <= Pg.MAX_BIGINT ->
  let (t', result) := Pg.stake p v a t in
  result = inr (mkPool p (Pg.row_balance r + a) (Pg.row_version r + 1)) /\
  Pg.getValidatorStake p v t' = Some (mkStake p v a) /\
  forall s pool, InMemory.pools s !! p = Some pool ->
    InMemory.stakes s !! InMemory.stakeKey p v = None ->
    InMemory.maxValidatorStake s = Pg.maxValidatorStake t ->
    InMemory.stake p v a s = (s, inl ValidatorStakeLimitError).
Proof.
  intros Hp Hv Hlim Ha Hb Hver Hroom.
  assert (Hck : forall z, 0 <= z <= Pg.MAX_BIGINT -> Pg.checked z = true)
    by (intros z Hz; unfold Pg.checked; rewrite !(proj2 (Z.leb_le _ _)) by lia; done).
  unfold Pg.stake, Pg.withTransaction, Pg.selectPool, ignore, Pg.upsertStake,
    bind, get, ret, guard, modify. rewrite Hp. cbn -[Pg.checked Pg.incrementPoolBalance].
  rewrite Hv, Hck by done. cbn -[Pg.checked Pg.incrementPoolBalance].
  rewrite (increment_alone p a _ r) by done.
  rewrite !Hck by lia. cbn [andb]. split; [done|]. split.
  - unfold Pg.getValidatorStake. cbn. by rewrite lookup_insert_eq.
  - intros s pool Hpool Hs Hm. unfold InMemory.stake, bind, get, guard, throw.
    rewrite requirePool_eq, Hpool, Hs, Hm.
    by rewrite (proj2 (Z.ltb_lt _ _)) by lia.
Qed.

(** ** The optimistic loop *)

(** Everything the other transactions committed in the first [k] rounds. *)
Definition interfered (env : list (Pg.Tables -> Pg.Tables)) (k : nat) (t : Pg.Tables) : Pg.Tables :=
  foldl (fun t f => f t) t (take k env).

(** The version moved in each of the first [n] rounds. *)
Definition alwaysChanged (p : string) (env : list (Pg.Tables -> Pg.Tables)) (n : nat)
    (t : Pg.Tables) : Prop :=
  forall k r r', (k < n)%nat ->
    Pg.bond_pools (interfered env k t) !! p = Some r ->
    Pg.bond_pools (interfered env (S k) t) !! p = Some r' ->
    Pg.row_version r' <> Pg.row_version r.

Lemma alwaysChanged_cons p f env n t r :
  Pg.bond_pools t !! p = Some r ->
  (forall r', Pg.bond_pools (f t) !! p = Some r' -> Pg.row_version r' <> Pg.row_version r) ->
  alwaysChanged p env n (f t) -> alwaysChanged p (f :: env) (S n) t.
Proof.
  intros Hr Hne H [|k] q q' Hk; cbn.
  - intros Hq Hq'. cbn in *. assert (q = r) as -> by congruence. auto.
  - intros Hq Hq'. apply (H k); [lia|done..].
Qed.

Lemma incrementLoop_spec p a n : forall env t,
  length env = n ->
  let (t', result) := Pg.incrementLoop n env p a t in
  match result with
  | inr pool => exists k r, (k < n)%nat /\
      Pg.bond_pools (interfered env (S k) t) !! p = Some r /\
      t' = Pg.set_bond_pools <[p := Pg.mkRow (Pg.row_balance r + a) (Pg.row_version r + 1)]>
             (interfered env (S k) t) /\
      pool = mkPool p (Pg.row_balance r + a) (Pg.row_version r + 1)
  | inl UpdateConflict => t' = interfered env n t /\ alwaysChanged p env n t
  | inl _ => exists k, (k <= n)%nat /\ t' = interfered env k t
  end.
Proof.
  induction n as [|n IH]; intros env t Hlen; [by split; [destruct env|intros ????; lia]|].
  destruct env as [|f env]; [done|]. injection Hlen as Hlen.
  cbn [Pg.incrementLoop]. unfold bind at 1, Pg.selectPool at 1, bind at 1, get.
  destruct (Pg.bond_pools t !! p) as [cur|] eqn:Hcur; [|exists 0%nat; split; [lia|done]].
  cbn [ret]. unfold bind at 1, Pg.others at 1, modify. cbn [hd tl].
  unfold bind at 1, Pg.updatePool at 1, bind at 1, get. cbn [ret].
  destruct (Pg.bond_pools (f t) !! p) as [r|] eqn:Hr.
  - rewrite andb_true_r. destruct (Z.eqb_spec (Pg.row_version r) (Pg.row_version cur)).
    + unfold bind, guard, modify, ret, throw.
      destruct (Pg.checked _ && Pg.checked _); cbn.
      * exists 0%nat, r. split; [lia|]. cbn. done.
      * exists 1%nat. split; [lia|done].
    + cbn [ret]. specialize (IH env (f t) Hlen).
      destruct (Pg.incrementLoop n env p a (f t)) as [t' [e|pool]].
      * destruct e; try (destruct IH as (k & ? & ->); exists (S k); split; [lia|done]).
         destruct IH as [-> Hal]. split; [done|].
         eapply alwaysChanged_cons; [done| |exact Hal]. congruence.
      * destruct IH as (k & r' & ? & ? & ? & ?). exists (S k), r'. split_and!; auto. lia.
  - cbn [ret]. specialize (IH env (f t) Hlen).
    destruct (Pg.incrementLoop n env p a (f t)) as [t' [e|pool]].
    + destruct e; try (destruct IH as (k & ? & ->); exists (S k); split; [lia|done]).
       destruct IH as [-> Hal]. split; [done|].
       eapply alwaysChanged_cons; [done| |exact Hal]. congruence.
    + destruct IH as (k & r' & ? & ? & ? & ?). exists (S k), r'. split_and!; auto. lia.
Qed.

(** no lost update: whatever other transactions commit between the reads
    and the conditional updates, a successful increment is applied on top of
    the balance and version they left, nothing else changes, and the operation
    gives up only after all five rounds saw the version move. *)
Theorem increment_never_loses_update env p a t :
  length env = 5%nat ->
  let (t', result) := Pg.incrementPoolBalance env p a t in
  match result with
  | inr pool => exists k r, (k < 5)%nat /\
      Pg.bond_pools (interfered env (S k) t) !! p = Some r /\
      t' = Pg.set_bond_pools <[p := Pg.mkRow (Pg.row_balance r + a) (Pg.row_version r + 1)]>
             (interfered env (S k) t) /\
      pool = mkPool p (Pg.row_balance r + a) (Pg.row_version r + 1)
  | inl UpdateConflict => t' = interfered env 5 t /\ alwaysChanged p env 5 t
  | inl _ => exists k, (k <= 5)%nat /\ t' = interfered env k t
  end.
Proof. apply incrementLoop_spec. Qed.

(** the colon restriction is needed: the in-memory store keys a stake by
    [poolId:validatorId], so pool [a] with validator [b:c] and pool [a:b] with
    validator [c] share an entry, and the stored balances leave the sums. *)
Theorem memory_keys_collide :
  let created := fst (InMemory.createPool (mkPool "a:b" 0 0)
    (fst (InMemory.createPool (mkPool "a" 0 0) (InMemory.new_Store 100000)))) in
  let s := runPoolOps InMemory.store [OpStake "a" "b:c" 100; OpStake "a:b" "c" 100] created in
  balance <$> InMemory.getPool "a" s = Some 100 /\
  balance <$> InMemory.getPool "a:b" s = Some 100 /\
  Service.getDerivedBalance InMemory.store "a" s = 0 /\
  Service.getDerivedBalance InMemory.store "a:b" s = 200.
Proof. vm_compute. split_and!; reflexivity. Qed.

(** ** Witnesses *)

Module Examples.
Definition l0 : Ledger := mkLedger {["p" := 0]} ∅.
Definition mem0 : InMemory.Store :=
  fst (InMemory.createPool (mkPool "p" 0 0) (InMemory.new_Store 100000)).
Definition pg0 : Pg.Tables := Pg.mkTables {["p" := Pg.mkRow 0 0]} ∅ 100000.

Lemma l0_inv : LedgerInv 100000 l0.
Proof. by split; intros *; cbn; rewrite lookup_empty. Qed.

Lemma mem0_rel : MemRel 100000 mem0 l0.
Proof.
  split; try done.
  - intros p _. unfold ledgerPool, mem0. cbn. unfold lookup at 1, jsmap_lookup. cbn.
    destruct (decide (p = "p")) as [->|Hne]; [done|].
    by rewrite lookup_singleton_ne by congruence.
Qed.

Lemma pg0_rel : PgRel 100000 pg0 l0.
Proof.
  split; try done.
  - intros p. cbn. destruct (decide (p = "p")) as [->|Hne]; [done|].
    by rewrite !lookup_singleton_ne by congruence.
  - intros p ver. cbn. intros [_ <-]%lookup_singleton_Some. done.
Qed.

Definition someOps : list PoolOp := [OpStake "p" "v" 150; OpStake "p" "w" 99; OpUnstake "p" "v" 100].

Lemma l0_room : roomFor 3 l0.
Proof.
  split.
  - intros p. unfold ledgerSum, Pg.sumTable. cbn [l0 l_stakes]. rewrite map_fold_empty. vm_compute. discriminate.
  - intros p ver. cbn. intros [_ <-]%lookup_singleton_Some. vm_compute. discriminate.
Qed.

Lemma pool_balance_is_sum_of_stakes_witness :
  InMemory.getPool "p" (runPoolOps InMemory.store someOps mem0) = Some (mkPool "p" 50 2) /\
  Service.getDerivedBalance Pg.store "p" (runPoolOps Pg.store someOps pg0) = 50.
Proof.
  destruct (pool_balance_is_sum_of_stakes 100000 someOps mem0 pg0 l0 "p" ltac:(lia) ltac:(vm_compute; discriminate) mem0_rel pg0_rel l0_inv)
    as [[M P] _].
  - repeat constructor; discriminate.
  - split; [discriminate|exact I].
  - exact l0_room.
  - destruct M as [M _], P as (_ & _ & P & _). split; [etransitivity; [exact M|vm_compute; reflexivity]|etransitivity; [exact P|vm_compute; reflexivity]].
Defined.

Lemma stores_agree_witness :
  agree 100000 mem0 pg0 (InMemory.stake "p" "v" 500 mem0) (Pg.stake "p" "v" 500 pg0).
Proof.
  refine (proj1 (stores_agree 100000 mem0 pg0 l0 "p" "v" 500 _ _ mem0_rel pg0_rel l0_inv _ _ _)).
  - lia.
  - vm_compute. discriminate.
  - split; [discriminate|exact I].
  - lia.
  - intros [H|(ver & Hv & H)]; [vm_compute in H; discriminate|].
    vm_compute in Hv. injection Hv as <-. vm_compute in H. discriminate.
Defined.

Lemma pg_first_stake_ignores_limit_witness :
  Pg.getValidatorStake "p" "v" (fst (Pg.stake "p" "v" 200000 pg0)) = Some (mkStake "p" "v" 200000).
Proof.
  pose proof (pg_first_stake_ignores_limit pg0 "p" "v" 200000 (Pg.mkRow 0 0)
    eq_refl eq_refl eq_refl ltac:(vm_compute; split; discriminate)
    ltac:(vm_compute; discriminate) ltac:(vm_compute; split; [discriminate|reflexivity])
    ltac:(vm_compute; discriminate)) as H.
  destruct (Pg.stake "p" "v" 200000 pg0) as [t' r]. exact (proj1 (proj2 H)).
Defined.

Definition bump (t : Pg.Tables) : Pg.Tables := Pg.set_bond_pools (alter (fun r =>
  Pg.mkRow (Pg.row_balance r + 7) (Pg.row_version r + 1)) "p") t.

Lemma increment_never_loses_update_witness :
  exists k r, (k < 5)%nat /\
    Pg.bond_pools (interfered [bump; bump; (fun t => t); bump; bump] (S k) pg0) !! "p" = Some r /\
    snd (Pg.incrementPoolBalance [bump; bump; (fun t => t); bump; bump] "p" 100 pg0)
    = inr (mkPool "p" (Pg.row_balance r + 100) (Pg.row_version r + 1)).
Proof.
  pose proof (increment_never_loses_update [bump; bump; (fun t => t); bump; bump] "p" 100 pg0
    eq_refl) as H.
  destruct (Pg.incrementPoolBalance _ _ _ _) as [t' r] eqn:E.
  assert (r = inr (mkPool "p" 114 3)) as -> by (vm_compute in E; congruence).
  destruct H as (k & row & Hk & Hrow & _ & Hp). exists k, row. split; [exact Hk|].
  split; [exact Hrow|]. cbn [snd]. f_equal. exact Hp.
Defined.
End Examples.
