(* ===== verification/DeadLetterQueue.v ===== *)
(** * Dead letter queue ([src/src/queue/dead_letter_queue.ts])

    The manager retries a handler with backoff; a message that fails every
    attempt becomes a row of [dead_letter_queue], which an operator can retry or
    purge.  Handlers and the database come from outside: [Handler] gives the
    outcome of each attempt, [Faults] the statements the database rejects.  The
    sleeps are recorded; [NOW()] is an argument.  Errors are what
    [serializeError] makes of them.  Attempt counts are integers. *)

From Stdlib Require Import ZArith Lia Ascii String.
From stdpp Require Import base list strings gmap sorting.
From S2P Require Import Prelude Js.

Definition DLQ_MAX_RETRIES : Z := 3.
Definition DLQ_BACKOFF_MS : list Z := [30000; 120000; 600000].
Definition DLQ_TTL : Z := 7 * 24 * 60 * 60 * 1000.

Inductive DeadLetterStatus := Failed | Retrying.
#[export] Instance DeadLetterStatus_eq_dec : EqDecision DeadLetterStatus.
Proof. solve_decision. Defined.

(** [serializeError]: a thrown [Error] with its name (empty or not), message and
    stack, or another value with its [typeof] and its string. *)
Inductive ErrorValue :=
  | IsError (name message : string) (stack : option string)
  | NotError (typeof text : string).

Record SerializedError := mkSerialized {
  se_type : string; se_message : string; se_stackTrace : option string
}.

Definition serializeError (e : ErrorValue) : SerializedError :=
  match e with
  | IsError name message stack =>
      mkSerialized (if falsy name then "Error" else name) message stack
  | NotError typeof text => mkSerialized typeof text None
  end.

Section dlq.
Context {Msg Res : Type}.

Record DeadLetterEntry := mkEntry {
  e_messageType : string;
  e_originalMessage : Msg;
  e_errorType : string;
  e_errorMessage : string;
  e_stackTrace : option string;
  e_retryCount : Z;
  e_status : DeadLetterStatus;
  e_createdAt : Z;
  e_updatedAt : Z;
  e_expiresAt : Z
}.

(** Histogram buckets 0, 1, 2, 3 and the outcome counters. *)
Record DeadLetterQueueMetrics := mkDlqMetrics {
  counts : list Z; retrySum : Z; retryTotal : Z;
  retrySuccessTotal : Z; retryFailureTotal : Z
}.
Definition buckets : list Z := [0; 1; 2; 3].
Definition new_DlqMetrics : DeadLetterQueueMetrics := mkDlqMetrics [0; 0; 0; 0] 0 0 0 0.

Definition observeRetryCount (count : Z) (m : DeadLetterQueueMetrics) : DeadLetterQueueMetrics :=
  mkDlqMetrics (zip_with (fun b c => if count <=? b then c + 1 else c) buckets (counts m))
    (retrySum m + count) (retryTotal m + 1) (retrySuccessTotal m) (retryFailureTotal m).

Definition recordRetryOutcome (success : bool) (m : DeadLetterQueueMetrics)
    : DeadLetterQueueMetrics :=
  if success
  then mkDlqMetrics (counts m) (retrySum m) (retryTotal m) (retrySuccessTotal m + 1) (retryFailureTotal m)
  else mkDlqMetrics (counts m) (retrySum m) (retryTotal m) (retrySuccessTotal m) (retryFailureTotal m + 1).

(** The table, the manager's metrics, and what the run did: handler calls and
    sleeps. *)
Record Dlq := mkDlq {
  table : gmap nat DeadLetterEntry;
  nextId : nat;
  metrics : DeadLetterQueueMetrics;
  calls : nat;
  slept : list Z
}.

Inductive DlqError :=
  | Thrown (e : ErrorValue)       (* the handler's error, rethrown *)
  | RepositoryError               (* the database rejected a statement *)
  | EntryNotFound
  | MessageProcessingError.

Abbreviation QM := (M Dlq DlqError).

(** The outcome of the handler's k-th call in this run. *)
Abbreviation Handler := (nat -> ErrorValue + Res).

Definition set_table f q := mkDlq (f (table q)) (nextId q) (metrics q) (calls q) (slept q).
Definition set_metrics f q := mkDlq (table q) (nextId q) (f (metrics q)) (calls q) (slept q).

(** ** Repository *)

Definition insert_ (now : Z) (fault : bool) (messageType : string) (message : Msg)
    (error : ErrorValue) (retryCount : Z) : QM unit :=
  guard (negb fault) RepositoryError ;;;
  let se := serializeError error in
  modify (fun q => mkDlq
    (<[nextId q := mkEntry messageType message (se_type se) (se_message se) (se_stackTrace se)
         retryCount Failed now now (now + DLQ_TTL)]> (table q))
    (S (nextId q)) (metrics q) (calls q) (slept q)).

Definition unexpired (now : Z) (e : DeadLetterEntry) : bool := now <? e_expiresAt e.

Definition get_ (now : Z) (id : nat) (q : Dlq) : option DeadLetterEntry :=
  match table q !! id with
  | Some e => if unexpired now e then Some e else None
  | None => None
  end.

Definition withStatus (now : Z) (s : DeadLetterStatus) (e : DeadLetterEntry) : DeadLetterEntry :=
  mkEntry (e_messageType e) (e_originalMessage e) (e_errorType e) (e_errorMessage e)
    (e_stackTrace e) (e_retryCount e) s (e_createdAt e) now (e_expiresAt e).

Definition markRetrying (now : Z) (fault : bool) (id : nat) : QM unit :=
  guard (negb fault) RepositoryError ;;;
  modify (set_table (alter (withStatus now Retrying) id)).

Definition failedAgain (now : Z) (error : ErrorValue) (retryCount : Z) (e : DeadLetterEntry)
    : DeadLetterEntry :=
  let se := serializeError error in
  mkEntry (e_messageType e) (e_originalMessage e) (se_type se) (se_message se)
    (se_stackTrace se) retryCount Failed (e_createdAt e) now (e_expiresAt e).

Definition markFailed (now : Z) (fault : bool) (id : nat) (error : ErrorValue) (retryCount : Z)
    : QM unit :=
  guard (negb fault) RepositoryError ;;;
  modify (set_table (alter (failedAgain now error retryCount) id)).

Definition delete_ (fault : bool) (id : nat) : QM bool :=
  guard (negb fault) RepositoryError ;;;
  let! q := get in
  put (set_table (delete id) q) ;;;
  ret (bool_decide (is_Some (table q !! id))).

Definition purgeExpired (now : Z) : QM nat :=
  let! q := get in
  let kept := filter (fun e => now < e_expiresAt e.2) (table q) in
  put (set_table (fun _ => kept) q) ;;;
  ret (size (table q) - size kept)%nat.

Definition depth (now : Z) (q : Dlq) : nat :=
  size (filter (fun e => now < e_expiresAt e.2) (table q)).

(** ** Manager *)

(** [backoffMs[retryCount] ?? backoffMs[backoffMs.length - 1] ?? 0] *)
Definition backoff (backoffMs : list Z) (retryCount : nat) : Z :=
  match backoffMs !! retryCount with
  | Some ms => ms
  | None => default 0 (last backoffMs)
  end.

Definition sleep (ms : Z) : QM unit :=
  modify (fun q => mkDlq (table q) (nextId q) (metrics q) (calls q) (slept q ++ [ms])).

(** Call the handler once more; [k] is the number of this run's earlier calls. *)
Definition callHandler (handler : Handler) (k : nat) : QM (ErrorValue + Res) :=
  modify (fun q => mkDlq (table q) (nextId q) (metrics q) (S (calls q)) (slept q)) ;;;
  ret (handler k).

(** The loop of [process] from [retryCount] on; [left] iterations remain. *)
Fixpoint processLoop (now : Z) (fault : bool) (messageType : string) (message : Msg)
    (handler : Handler) (backoffMs : list Z) (left retryCount : nat) : QM Res :=
  match left with
  | O => throw MessageProcessingError
  | S left' =>
      let! outcome := callHandler handler retryCount in
      match outcome with
      | inr result => ret result
      | inl errorValue =>
          if (left' =? 0)%nat then
            modify (set_metrics (observeRetryCount (Z.of_nat retryCount))) ;;;
            insert_ now fault messageType message errorValue (Z.of_nat retryCount) ;;;
            throw (Thrown errorValue)
          else
            sleep (backoff backoffMs retryCount) ;;;
            processLoop now fault messageType message handler backoffMs left' (S retryCount)
      end
  end.

(** [for (retryCount = 0; retryCount <= maxRetries; ...)] *)
Definition iterations (maxRetries : Z) : nat := Z.to_nat (maxRetries + 1).

Definition process (now : Z) (fault : bool) (messageType : string) (message : Msg)
    (handler : Handler) (maxRetries : option Z) (backoffMs : option (list Z)) : QM Res :=
  processLoop now fault messageType message handler (default DLQ_BACKOFF_MS backoffMs)
    (iterations (default DLQ_MAX_RETRIES maxRetries)) 0.

(** The statements [retry] may see rejected; the deletion per attempt. *)
Record Faults := mkFaults {
  f_get : bool; f_markRetrying : bool; f_delete : nat -> bool; f_markFailed : bool
}.

(** What the [catch] of [retry] sees: the handler's error, or the database's when
    the deletion was rejected. *)
Definition DB_ERROR : ErrorValue := IsError "Error" "database error" None.

Fixpoint retryLoop (now : Z) (faults : Faults) (id : nat) (handler : Handler)
    (backoffMs : list Z) (left retryCount : nat) : QM Res :=
  match left with
  | O => throw MessageProcessingError
  | S left' =>
      let onError errorValue rethrow :=
        if (left' =? 0)%nat then
          markFailed now (f_markFailed faults) id errorValue (Z.of_nat retryCount) ;;;
          modify (set_metrics (observeRetryCount (Z.of_nat retryCount))) ;;;
          modify (set_metrics (recordRetryOutcome false)) ;;;
          throw rethrow
        else
          sleep (backoff backoffMs retryCount) ;;;
          retryLoop now faults id handler backoffMs left' (S retryCount)
      in
      let! outcome := callHandler handler retryCount in
      match outcome with
      | inl errorValue => onError errorValue (Thrown errorValue)
      | inr result =>
          if f_delete faults retryCount then onError DB_ERROR RepositoryError
          else
            delete_ false id ;;;
            modify (set_metrics (observeRetryCount (Z.of_nat retryCount))) ;;;
            modify (set_metrics (recordRetryOutcome true)) ;;;
            ret result
      end
  end.

Definition retry (now : Z) (faults : Faults) (id : nat) (handler : Msg -> Handler)
    (maxRetries : option Z) (backoffMs : option (list Z)) : QM Res :=
  guard (negb (f_get faults)) RepositoryError ;;;
  let! q := get in
  match get_ now id q with
  | None => throw EntryNotFound
  | Some entry =>
      markRetrying now (f_markRetrying faults) id ;;;
      retryLoop now faults id (handler (e_originalMessage entry))
        (default DLQ_BACKOFF_MS backoffMs) (iterations (default DLQ_MAX_RETRIES maxRetries)) 0
  end.

Definition purge (fault : bool) (id : nat) : QM bool := delete_ fault id.

(** [list]: unexpired entries, newest first. *)
Definition clampInt (value min max : Z) : Z := Z.min max (Z.max min value).

Definition newer (a b : nat * DeadLetterEntry) : Prop := e_createdAt b.2 <= e_createdAt a.2.
#[export] Instance newer_dec a b : Decision (newer a b).
Proof. unfold newer. apply _. Defined.

Definition matchesType (messageType : option string) (e : DeadLetterEntry) : bool :=
  match messageType with
  | Some t => falsy t || bool_decide (e_messageType e = t)
  | None => true
  end.

Definition list_ (now : Z) (messageType : option string) (limit offset : option Z) (q : Dlq)
    : list (nat * DeadLetterEntry) :=
  let matching := filter (fun e => unexpired now e.2 && matchesType messageType e.2 = true)
                    (table q) in
  take (Z.to_nat (clampInt (default 100 limit) 1 500))
    (drop (Z.to_nat (Z.max 0 (default 0 offset))) (merge_sort newer (map_to_list matching))).
End dlq.
Arguments DeadLetterEntry : clear implicits.
Arguments Dlq : clear implicits.

(** ** What the loops do *)

Section spec.
Context {Msg Res : Type}.
Implicit Types (q : Dlq Msg) (handler : nat -> ErrorValue + Res).

(** The sleeps before attempt [k]. *)
Definition backoffs (backoffMs : list Z) (from k : nat) : list Z :=
  backoff backoffMs <$> seq from k.

(** The first [k] attempts from [from] on failed. *)
Definition failsFor handler (from k : nat) : Prop :=
  forall i, (from <= i < from + k)%nat -> exists e, handler i = inl e.

Definition afterAttempts (backoffMs : list Z) (from called slepts : nat) q : Dlq Msg :=
  mkDlq (table q) (nextId q) (metrics q) (calls q + called)
    (slept q ++ backoffs backoffMs from slepts).

Definition deadLetter (now : Z) (messageType : string) (message : Msg) (e : ErrorValue)
    (retryCount : Z) : DeadLetterEntry Msg :=
  let se := serializeError e in
  mkEntry messageType message (se_type se) (se_message se) (se_stackTrace se) retryCount
    Failed now now (now + DLQ_TTL).

Lemma backoffs_cons backoffMs from k :
  backoffs backoffMs from (S k) = backoff backoffMs from :: backoffs backoffMs (S from) k.
Proof. done. Qed.

Lemma processLoop_retry now fault ty msg handler bo e left from q :
  handler from = inl e ->
  processLoop now fault ty msg handler bo (S (S left)) from q
  = processLoop now fault ty msg handler bo (S left) (S from)
      (mkDlq (table q) (nextId q) (metrics q) (S (calls q)) (slept q ++ [backoff bo from])).
Proof.
  intros He. unfold processLoop at 1. fold (processLoop (Msg := Msg) (Res := Res)).
  unfold bind at 1, callHandler at 1, bind at 1, modify at 1, ret at 1. by rewrite He.
Qed.

Lemma processLoop_success now fault ty msg handler bo r k : forall left from q,
  failsFor handler from k -> handler (from + k)%nat = inr r -> (k < left)%nat ->
  processLoop now fault ty msg handler bo left from q
  = (afterAttempts bo from (S k) k q, inr r).
Proof.
  induction k as [|k IH]; intros left from q Hf Hs Hlt; destruct left as [|left]; try lia.
  - rewrite Nat.add_0_r in Hs. cbn. unfold bind, callHandler, modify, ret. rewrite Hs.
    unfold afterAttempts, backoffs. cbn. by rewrite app_nil_r, Nat.add_1_r.
  - destruct (Hf from) as [e He]; [lia|]. destruct left as [|left]; [lia|].
    rewrite (processLoop_retry _ _ _ _ _ _ e) by done.
    rewrite (IH (S left) (S from)); [|intros i Hi; apply Hf; lia|by rewrite <- Hs; f_equal; lia|lia].
    unfold afterAttempts. cbn [table nextId metrics calls slept].
    rewrite <- app_assoc. f_equal. f_equal. lia.
Qed.

Lemma processLoop_failure now ty msg handler bo e k : forall from q,
  failsFor handler from k -> handler (from + k)%nat = inl e ->
  processLoop now false ty msg handler bo (S k) from q
  = (let q' := afterAttempts bo from (S k) k q in
     mkDlq (<[nextId q := deadLetter now ty msg e (Z.of_nat (from + k))]> (table q))
       (S (nextId q)) (observeRetryCount (Z.of_nat (from + k)) (metrics q)) (calls q') (slept q'),
     inl (Thrown e)).
Proof.
  induction k as [|k IH]; intros from q Hf Hs.
  - rewrite Nat.add_0_r in Hs |- *. cbn [processLoop Nat.eqb].
    unfold bind, callHandler, modify, ret, throw. rewrite Hs. cbn.
    unfold backoffs. cbn. by rewrite app_nil_r, Nat.add_1_r.
  - destruct (Hf from) as [e' He]; [lia|]. rewrite (processLoop_retry _ _ _ _ _ _ e') by done.
    rewrite (IH (S from)); [|intros i Hi; apply Hf; lia|by rewrite <- Hs; f_equal; lia].
    unfold afterAttempts. cbn [table nextId metrics calls slept].
    rewrite <- app_assoc. replace (S from + k)%nat with (from + S k)%nat by lia.
    do 2 f_equal. lia.
Qed.

(** *** The retry loop

    An attempt fails when the handler throws, but also when the handler succeeds
    and the entry cannot be deleted. *)

Definition attemptError (faults : Faults) handler (k : nat) : option (ErrorValue * DlqError) :=
  match handler k with
  | inl e => Some (e, Thrown e)
  | inr _ => if f_delete faults k then Some (DB_ERROR, RepositoryError) else None
  end.

Definition attemptsFail (faults : Faults) handler (from k : nat) : Prop :=
  forall i, (from <= i < from + k)%nat -> is_Some (attemptError faults handler i).

Lemma retryLoop_again now faults id handler bo left from q :
  is_Some (attemptError faults handler from) ->
  retryLoop now faults id handler bo (S (S left)) from q
  = retryLoop now faults id handler bo (S left) (S from)
      (mkDlq (table q) (nextId q) (metrics q) (S (calls q)) (slept q ++ [backoff bo from])).
Proof.
  unfold attemptError. intros [x Hx]. unfold retryLoop at 1.
  fold (retryLoop (Msg := Msg) (Res := Res)).
  unfold bind at 1, callHandler at 1, bind at 1, modify at 1, ret at 1.
  destruct (handler from) as [e|r]; [done|]. by destruct (f_delete faults from).
Qed.

Definition finished (success : bool) (retryCount : nat) (m : DeadLetterQueueMetrics) :=
  recordRetryOutcome success (observeRetryCount (Z.of_nat retryCount) m).

Lemma retryLoop_success now faults id handler bo r k : forall left from q,
  attemptsFail faults handler from k ->
  handler (from + k)%nat = inr r -> f_delete faults (from + k) = false -> (k < left)%nat ->
  retryLoop now faults id handler bo left from q
  = (let q' := afterAttempts bo from (S k) k q in
     mkDlq (delete id (table q)) (nextId q) (finished true (from + k) (metrics q))
       (calls q') (slept q'), inr r).
Proof.
  induction k as [|k IH]; intros left from q Hf Hs Hd Hlt; destruct left as [|left]; try lia.
  - rewrite Nat.add_0_r in *. cbn [retryLoop].
    unfold bind, callHandler, modify, ret, throw. rewrite Hs, Hd. cbn.
    unfold backoffs. cbn. by rewrite app_nil_r, Nat.add_1_r.
  - destruct left as [|left]; [lia|]. rewrite retryLoop_again by (apply Hf; lia).
    replace (from + S k)%nat with (S from + k)%nat in * by lia.
    rewrite (IH (S left) (S from)) by (done || lia || (intros i Hi; apply Hf; lia)).
    unfold afterAttempts. cbn [table nextId metrics calls slept].
    rewrite <- app_assoc. do 2 f_equal. lia.
Qed.

Lemma retryLoop_failure now faults id handler bo e err k : forall from q,
  attemptsFail faults handler from k ->
  attemptError faults handler (from + k) = Some (e, err) -> f_markFailed faults = false ->
  retryLoop now faults id handler bo (S k) from q
  = (let q' := afterAttempts bo from (S k) k q in
     mkDlq (alter (failedAgain now e (Z.of_nat (from + k))) id (table q)) (nextId q)
       (finished false (from + k) (metrics q)) (calls q') (slept q'), inl err).
Proof.
  induction k as [|k IH]; intros from q Hf Hs Hm.
  - rewrite Nat.add_0_r in *. cbn [retryLoop Nat.eqb]. unfold attemptError in Hs.
    unfold bind, callHandler, modify, ret, throw, markFailed, guard. rewrite Hm.
    unfold bind, ret, modify.
    destruct (handler from) as [e'|r]; [|destruct (f_delete faults from); [|done]];
      injection Hs as <- <-; cbn; unfold backoffs; cbn; by rewrite app_nil_r, Nat.add_1_r.
  - rewrite retryLoop_again by (apply Hf; lia).
    replace (from + S k)%nat with (S from + k)%nat in * by lia.
    rewrite (IH (S from)) by (done || (intros i Hi; apply Hf; lia)).
    unfold afterAttempts. cbn [table nextId metrics calls slept].
    rewrite <- app_assoc. do 2 f_equal. lia.
Qed.

(** Either some attempt among the first [n] is the first to succeed, or all fail. *)
Lemma first_success {A} (outcome : nat -> option A) n :
  (exists k, (k < n)%nat /\ outcome k = None /\ forall i, (i < k)%nat -> is_Some (outcome i)) \/
  (forall i, (i < n)%nat -> is_Some (outcome i)).
Proof.
  induction n as [|n [(k & Hk & Hn & Hb)|Hall]]; [right; lia| |].
  - left. exists k. split; [lia|done].
  - destruct (outcome n) eqn:E; [right|left; exists n; eauto].
    intros i Hi. destruct (decide (i = n)) as [->|]; [by rewrite E|]. apply Hall. lia.
Qed.
End spec.

Section properties.
Context {Msg Res : Type}.
Implicit Types (q : Dlq Msg) (handler : nat -> ErrorValue + Res).

(** Ids are fresh. *)
Definition FreshIds q : Prop := forall id, (nextId q <= id)%nat -> table q !! id = None.

(** C20: with a database that accepts the insertion and ids that are new, [process] calls the handler until its first success, at most
    [maxRetries + 1] times and with the configured sleeps in between; it
    returns the result and writes nothing, or, when every attempt threw,
    rethrows the last error after filing the message exactly once, keeping
    every entry already there. *)
Theorem process_delivers_or_dead_letters now ty msg handler maxRetries bo q :
  FreshIds q ->
  let n := Z.of_nat maxRetries in
  let (q', result) := process now false ty msg handler (Some n) (Some bo) q in
  match result with
  | inr r => exists k, (k <= maxRetries)%nat /\ failsFor handler 0 k /\ handler k = inr r /\
      table q' = table q /\ calls q' = (calls q + S k)%nat /\
      slept q' = slept q ++ backoffs bo 0 k
  | inl err => exists e, failsFor handler 0 (S maxRetries) /\ handler maxRetries = inl e /\
      err = Thrown e /\
      table q' = <[nextId q := deadLetter now ty msg e n]> (table q) /\
      (forall id entry, table q !! id = Some entry -> table q' !! id = Some entry) /\
      calls q' = (calls q + S maxRetries)%nat /\
      slept q' = slept q ++ backoffs bo 0 maxRetries
  end.
Proof.
  intros Hfresh n. unfold process. cbn [from_option id].
  replace (iterations n) with (S maxRetries) by (unfold iterations, n; lia).
  destruct (first_success (fun i => match handler i with inl e => Some e | inr _ => None end)
    (S maxRetries)) as [(k & Hk & Hs & Hb)|Hall].
  - destruct (handler k) as [|r] eqn:Hr; [done|].
    assert (Hf : failsFor handler 0 k).
    { intros i Hi. specialize (Hb i ltac:(lia)). destruct (handler i); [eauto|by destruct Hb]. }
    rewrite (processLoop_success now false ty msg handler bo r k)
      by (exact Hf || exact Hr || lia).
    exists k. split_and!; try done. lia.
  - assert (Hf : failsFor handler 0 (S maxRetries)).
    { intros i Hi. specialize (Hall i ltac:(lia)). destruct (handler i); [eauto|by destruct Hall]. }
    destruct (Hf maxRetries) as [e He]; [lia|].
    rewrite (processLoop_failure now ty msg handler bo e maxRetries) by
      (done || (intros i Hi; apply Hf; lia)).
    exists e. split_and!; try done. intros id entry Hid. cbn.
    rewrite lookup_insert_ne; [done|]. intros <-. rewrite Hfresh in Hid; [done|lia].
Qed.

(** an operator's [retry] of an unexpired entry, with the database up:
    the entry is deleted exactly when some attempt succeeds; otherwise it stays,
    FAILED again with the last error and attempt count, and the error is
    rethrown.  All other entries are untouched. *)
Theorem retry_deletes_only_on_success now id (handler : Msg -> nat -> ErrorValue + Res)
    maxRetries bo q entry :
  get_ now id q = Some entry ->
  let n := Z.of_nat maxRetries in
  let faults := mkFaults false false (fun _ => false) false in
  let h := handler (e_originalMessage entry) in
  let (q', result) := retry now faults id handler (Some n) (Some bo) q in
  (forall id', id' <> id -> table q' !! id' = table q !! id') /\
  match result with
  | inr r => exists k, (k <= maxRetries)%nat /\ failsFor h 0 k /\ h k = inr r /\
      table q' !! id = None /\ calls q' = (calls q + S k)%nat
  | inl err => exists e, failsFor h 0 (S maxRetries) /\ h maxRetries = inl e /\
      err = Thrown e /\ table q' !! id = Some (failedAgain now e n entry) /\
      calls q' = (calls q + S maxRetries)%nat
  end.
Proof.
  intros Hget n faults h.
  assert (Hentry : table q !! id = Some entry).
  { unfold get_ in Hget. destruct (table q !! id) as [x|]; [|done].
    destruct (unexpired now x); congruence. }
  unfold retry, markRetrying, guard, bind, get, modify, ret. cbn [negb faults f_get f_markRetrying].
  rewrite Hget. cbn [negb from_option Datatypes.id]. fold h.
  replace (iterations n) with (S maxRetries) by (unfold iterations, n; lia).
  set (q1 := set_table _ q).
  assert (Herr : forall i, attemptError faults h i =
    match h i with inl e => Some (e, Thrown e) | inr _ => None end)
    by (intros i; unfold attemptError; by destruct (h i)).
  destruct (first_success (attemptError faults h) (S maxRetries)) as [(k & Hk & Hs & Hb)|Hall].
  - rewrite Herr in Hs. destruct (h k) as [|r] eqn:Hr; [done|].
    rewrite (retryLoop_success now faults id h bo r k) by (done || (intros i Hi; apply Hb; lia)).
    cbn [table]. split.
    + intros id' Hne. rewrite lookup_delete_ne by done. cbn. by rewrite lookup_alter_ne.
    + exists k. split_and!; try done; [lia| |by rewrite lookup_delete_eq].
      intros i Hi. specialize (Hb i ltac:(lia)). rewrite Herr in Hb.
      destruct (h i); [eauto|by destruct Hb].
  - destruct (Hall maxRetries) as [[e err] He]; [lia|].
    rewrite (retryLoop_failure now faults id h bo e err maxRetries)
      by (done || (intros i Hi; apply Hall; lia)).
    rewrite Herr in He. destruct (h maxRetries) as [e'|] eqn:Hh; [|done]. simplify_eq.
    cbn [table]. split.
    + intros id' Hne. rewrite lookup_alter_ne by done. cbn. by rewrite lookup_alter_ne.
    + exists e. split_and!; try done.
      * intros i Hi. specialize (Hall i ltac:(lia)). rewrite Herr in Hall.
        destruct (h i); [eauto|by destruct Hall].
      * rewrite lookup_alter_eq. cbn. rewrite lookup_alter_eq, Hentry. reflexivity.
Qed.

(** a deletion the database rejects makes [retry] run the handler again
    although it succeeded: the message is handled twice. *)
Theorem rejected_deletion_repeats_handler now id (handler : Msg -> nat -> ErrorValue + Res)
    bo q entry r1 r2 :
  get_ now id q = Some entry ->
  handler (e_originalMessage entry) 0%nat = inr r1 ->
  handler (e_originalMessage entry) 1%nat = inr r2 ->
  let faults := mkFaults false false (fun k => (k =? 0)%nat) false in
  let (q', result) := retry now faults id handler None bo q in
  result = inr r2 /\ calls q' = (calls q + 2)%nat.
Proof.
  intros Hget H1 H2 faults.
  unfold retry, markRetrying, guard, bind, get, modify, ret. cbn [negb faults f_get f_markRetrying].
  rewrite Hget. cbn [negb]. change (iterations _) with 4%nat.
  rewrite (retryLoop_success now faults id (handler (e_originalMessage entry)) _ r2 1);
    [|intros i Hi|done|done|lia].
  - done.
  - assert (i = 0%nat) as -> by lia. unfold attemptError. rewrite H1. cbn. eauto.
Qed.
End properties.

(** ** Witnesses *)

Module Examples.
Definition boom : ErrorValue := IsError "TypeError" "boom" None.
Definition empty : Dlq string := mkDlq ∅ 0 new_DlqMetrics 0 [].
Definition flaky (k : nat) : ErrorValue + string := if (k <? 2)%nat then inl boom else inr "ok".
Definition broken (k : nat) : ErrorValue + string := inl boom.
Definition filed : Dlq string := fst (process 1000 false "mail" "hello" broken None None empty).

Lemma empty_fresh : FreshIds empty.
Proof. intros id _. apply lookup_empty. Qed.

Lemma process_delivers_or_dead_letters_witness :
  (let (q, result) := process 1000 false "mail" "hello" flaky (Some 3) (Some DLQ_BACKOFF_MS) empty in
   result = inr "ok" /\ table q = ∅ /\ slept q = [30000; 120000]) /\
  (let (q, result) := process 1000 false "mail" "hello" broken (Some 3) (Some DLQ_BACKOFF_MS) empty in
   result = inl (Thrown boom) /\ slept q = DLQ_BACKOFF_MS).
Proof.
  split.
  - pose proof (process_delivers_or_dead_letters 1000 "mail" "hello" flaky 3 DLQ_BACKOFF_MS empty
      empty_fresh) as H. cbn zeta in H. change (Z.of_nat 3) with 3 in H.
    destruct (process _ _ _ _ _ _ _ _) as [q result] eqn:E.
    assert (result = inr "ok") as -> by (vm_compute in E; congruence).
    destruct H as (k & Hk & Hf & Hs & Ht & _ & Hsl). split; [reflexivity|]. split; [exact Ht|].
    assert (k = 2%nat) as ->; [|exact Hsl].
    destruct k as [|[|[|[|k]]]]; try (cbn in Hs; discriminate); [reflexivity| |lia].
    destruct (Hf 2%nat) as [e He]; [lia|]. discriminate.
  - pose proof (process_delivers_or_dead_letters 1000 "mail" "hello" broken 3 DLQ_BACKOFF_MS empty
      empty_fresh) as H. cbn zeta in H. change (Z.of_nat 3) with 3 in H.
    destruct (process _ _ _ _ _ _ _ _) as [q result] eqn:E.
    assert (result = inl (Thrown boom)) as -> by (vm_compute in E; injection E as _ <-; reflexivity).
    destruct H as (e & _ & _ & _ & _ & _ & _ & Hsl). split; [reflexivity|exact Hsl].
Defined.

Lemma filed_entry :
  get_ 2000 0 filed = Some (deadLetter 1000 "mail" "hello" boom 3).
Proof. vm_compute. reflexivity. Qed.

Lemma retry_deletes_only_on_success_witness :
  let (q, result) := retry 2000 (mkFaults false false (fun _ => false) false) 0
                       (fun _ => broken) (Some 1) (Some [500]) filed in
  e_retryCount <$> table q !! 0%nat = Some 1 /\ e_status <$> table q !! 0%nat = Some Failed.
Proof.
  pose proof (retry_deletes_only_on_success 2000 0 (fun _ => broken) 1 [500] filed _ filed_entry) as H.
  cbn zeta in H. change (Z.of_nat 1) with 1 in H.
  destruct (retry _ _ _ _ _ _ _) as [q result] eqn:E.
  assert (result = inl (Thrown boom)) as -> by (vm_compute in E; injection E as _ <-; reflexivity).
  destruct H as (_ & e & _ & _ & _ & Ht & _). rewrite Ht. split; reflexivity.
Defined.

Lemma rejected_deletion_repeats_handler_witness :
  let (q, result) := retry 2000 (mkFaults false false (fun k => (k =? 0)%nat) false) 0
                       (fun _ _ => inr "sent") None None filed in
  result = inr "sent" /\ calls q = 6%nat.
Proof.
  exact (rejected_deletion_repeats_handler 2000 0 (fun _ _ => inr "sent") None filed _ "sent" "sent"
    filed_entry eq_refl eq_refl).
Defined.
End Examples.
