(* ===== verification/JobScheduler.v ===== *)
(** * Distributed job scheduler ([src/src/scheduler/], [011_distributed_jobs.sql])

    [Store]: the statements of [job_store.ts] over the table.  [Metrics]: the
    counters of [metrics.ts].  The workers of [scheduler.ts] are an event system
    over the shared table: a worker's timer, the answer to a claim, a lease
    renewal, the end of a handler and each database answer are events that can
    come in any order, from any number of workers and processes.  [NOW()] is an
    argument, in milliseconds.  Tracing and logging are left out. *)

From Stdlib Require Import ZArith Lia Ascii String.
From stdpp Require Import base list strings gmap sorting.
From S2P Require Import Prelude Js DeadLetterQueue.

Inductive JobStatus := Pending | Running | Completed | FailedJob.
#[export] Instance JobStatus_eq_dec : EqDecision JobStatus.
Proof. solve_decision. Defined.

(** A row of [distributed_jobs]; the payload is JSON text. *)
Record JobRow := mkJob {
  job_type : string;
  payload : string;
  status : JobStatus;
  run_at : Z;
  locked_until : option Z;
  locked_by : option string;
  retry_count : Z;
  max_retries : Z;
  error_message : option string;
  j_created_at : Z;
  j_updated_at : Z
}.

Abbreviation Jobs := (gmap nat JobRow).

Record LeaseConfig := mkLease { leaseDurationMs : Z; leaseRenewIntervalMs : Z; maxExecutionTimeMs : Z }.
Definition DEFAULT_LEASE_CONFIG : LeaseConfig := mkLease 30000 10000 300000.

(** ** The store *)

Module Store.
Definition clampInt (value min max : Z) : Z := Z.min max (Z.max min value).

(** The row [scheduleJob] inserts; its id is the database's. *)
Definition scheduledRow (now : Z) (jobType pay : string) (runAt maxRetries : option Z) : JobRow :=
  mkJob jobType pay Pending (default now runAt) None None 0
    (clampInt (default 3 maxRetries) 0 10) None now now.

Definition scheduleJob (now : Z) (id : nat) (jobType pay : string) (runAt maxRetries : option Z)
    (t : Jobs) : Jobs :=
  <[id := scheduledRow now jobType pay runAt maxRetries]> t.

(** [status IN ('pending', 'running')] *)
Definition open (r : JobRow) : bool :=
  bool_decide (status r = Pending) || bool_decide (status r = Running).

(** [locked_until IS NULL OR locked_until <= NOW()] *)
Definition unleased (now : Z) (r : JobRow) : bool :=
  match locked_until r with Some t => t <=? now | None => true end.

Definition claimable (now : Z) (jobType : string) (r : JobRow) : bool :=
  bool_decide (job_type r = jobType) && open r && unleased now r && (run_at r <=? now).

Definition earlier (a b : nat * JobRow) : Prop := run_at a.2 <= run_at b.2.
#[global] Instance earlier_dec a b : Decision (earlier a b).
Proof. unfold earlier. apply _. Defined.
#[global] Instance earlier_total : Total earlier.
Proof. intros a b. unfold earlier. lia. Qed.
#[global] Instance earlier_trans : Transitive earlier.
Proof. intros a b c. unfold earlier. lia. Qed.

(** Rows other claims hold locked at this moment are skipped. *)
Definition candidates (now : Z) (jobType : string) (skipLocked : list nat) (t : Jobs)
    : list (nat * JobRow) :=
  merge_sort earlier
    (filter (fun e => claimable now jobType e.2 && negb (bool_decide (e.1 ∈ skipLocked)) = true)
       (map_to_list t)).

(** [make_interval(secs => floor(ms / 1000))] *)
Definition leaseInterval (leaseMs : Z) : Z := leaseMs / 1000 * 1000.

Definition claimedRow (now : Z) (workerId : string) (leaseMs : Z) (r : JobRow) : JobRow :=
  mkJob (job_type r) (payload r) Running (run_at r) (Some (now + leaseInterval leaseMs))
    (Some workerId) (retry_count r) (max_retries r) (error_message r) (j_created_at r) now.

Definition claimJob (now : Z) (jobType workerId : string) (leaseMs : Z) (skipLocked : list nat)
    (t : Jobs) : Jobs * option (nat * JobRow) :=
  match candidates now jobType skipLocked t with
  | [] => (t, None)
  | (id, r) :: _ =>
      let r' := claimedRow now workerId leaseMs r in (<[id := r']> t, Some (id, r'))
  end.

Definition completedRow (now : Z) (r : JobRow) : JobRow :=
  mkJob (job_type r) (payload r) Completed (run_at r) None None (retry_count r) (max_retries r)
    (error_message r) (j_created_at r) now.

Definition completeJob (now : Z) (id : nat) (t : Jobs) : Jobs := alter (completedRow now) id t.

Definition failedRow (now : Z) (message : string) (r : JobRow) : JobRow :=
  mkJob (job_type r) (payload r) FailedJob (run_at r) None None (retry_count r + 1)
    (max_retries r) (Some message) (j_created_at r) now.

Definition failJob (now : Z) (id : nat) (message : string) (t : Jobs) : Jobs :=
  alter (failedRow now message) id t.

Definition holds (workerId : string) (r : JobRow) : bool :=
  bool_decide (locked_by r = Some workerId) && bool_decide (status r = Running).

Definition renewedRow (now leaseMs : Z) (r : JobRow) : JobRow :=
  mkJob (job_type r) (payload r) (status r) (run_at r) (Some (now + leaseInterval leaseMs))
    (locked_by r) (retry_count r) (max_retries r) (error_message r) (j_created_at r) now.

Definition renewLease (now : Z) (id : nat) (workerId : string) (leaseMs : Z) (t : Jobs)
    : Jobs * bool :=
  match t !! id with
  | Some r => if holds workerId r then (<[id := renewedRow now leaseMs r]> t, true) else (t, false)
  | None => (t, false)
  end.

Definition getJob (id : nat) (t : Jobs) : option JobRow := t !! id.

(** An empty [jobType] is falsy and counts every type. *)
Definition getQueueDepth (now : Z) (jobType : option string) (t : Jobs) : nat :=
  size (filter (fun e => open e.2 && unleased now e.2 &&
    match jobType with
    | Some ty => falsy ty || bool_decide (job_type e.2 = ty)
    | None => true
    end = true) t).

Definition purgeable (olderThan : Z) (r : JobRow) : bool :=
  (bool_decide (status r = Completed) || bool_decide (status r = FailedJob))
  && (j_created_at r <? olderThan).

Definition purgeCompleted (olderThan : Z) (t : Jobs) : Jobs :=
  filter (fun e => purgeable olderThan e.2 = false) t.
End Store.

(** ** Metrics *)

Record JobMetrics := mkJobMetrics {
  executionRecords : list (string * Z * bool * Z);  (* type, duration, success, retries *)
  jobsCompletedTotal : nat;
  jobsFailedTotal : nat;
  leaseRenewalFailures : nat;
  queueDepth : nat;
  queueDepthByType : jsmap string nat
}.
Definition new_JobMetrics : JobMetrics := mkJobMetrics [] 0 0 0 0 ∅.

Definition recordExecution (ty : string) (duration : Z) (success : bool) (retries : Z)
    (m : JobMetrics) : JobMetrics :=
  let pushed := executionRecords m ++ [(ty, duration, success, retries)] in
  mkJobMetrics (if (1000 <? length pushed)%nat then tl pushed else pushed)
    (if success then S (jobsCompletedTotal m) else jobsCompletedTotal m)
    (if success then jobsFailedTotal m else S (jobsFailedTotal m))
    (leaseRenewalFailures m) (queueDepth m) (queueDepthByType m).

Definition recordLeaseRenewalFailure (m : JobMetrics) : JobMetrics :=
  mkJobMetrics (executionRecords m) (jobsCompletedTotal m) (jobsFailedTotal m)
    (S (leaseRenewalFailures m)) (queueDepth m) (queueDepthByType m).

Definition setQueueDepth (depth : nat) (ty : string) (m : JobMetrics) : JobMetrics :=
  mkJobMetrics (executionRecords m) (jobsCompletedTotal m) (jobsFailedTotal m)
    (leaseRenewalFailures m) depth
    (if falsy ty then queueDepthByType m else <[ty := depth]> (queueDepthByType m)).

(** ** Workers *)

Record Worker := mkWorker {
  workerId : string;
  w_jobType : string;
  maxConcurrency : nat;
  running : bool;
  activeJobs : nat;
  claimsInFlight : nat      (* polls whose [claimJob] has not answered *)
}.

(** Where an [executeJob] call is. *)
Inductive Phase :=
  | Handling                         (* in the handler *)
  | Completing                       (* in [completeJob] *)
  | Failing (message : string)       (* in [failJob] *)
  | Routing (message : string).      (* in [dlqManager.process] *)

Record Execution := mkExec {
  x_worker : nat;
  x_job : nat;
  x_row : JobRow;                    (* the row [claimJob] returned *)
  x_phase : Phase;
  x_renewing : bool                  (* the renewal interval is set *)
}.

Record Sched := mkSched {
  s_jobs : Jobs;
  s_workers : gmap nat Worker;
  s_execs : gmap nat Execution;
  s_nextExec : nat;
  s_metrics : JobMetrics;
  s_dlq : option (Dlq string);       (* the optional dead-letter manager *)
  s_lease : LeaseConfig
}.

Definition set_jobs f s :=
  mkSched (f (s_jobs s)) (s_workers s) (s_execs s) (s_nextExec s) (s_metrics s) (s_dlq s) (s_lease s).
Definition set_workers f s :=
  mkSched (s_jobs s) (f (s_workers s)) (s_execs s) (s_nextExec s) (s_metrics s) (s_dlq s) (s_lease s).
Definition set_execs f s :=
  mkSched (s_jobs s) (s_workers s) (f (s_execs s)) (s_nextExec s) (s_metrics s) (s_dlq s) (s_lease s).
Definition set_smetrics f s :=
  mkSched (s_jobs s) (s_workers s) (s_execs s) (s_nextExec s) (f (s_metrics s)) (s_dlq s) (s_lease s).
Definition set_dlq f s :=
  mkSched (s_jobs s) (s_workers s) (s_execs s) (s_nextExec s) (s_metrics s) (f (s_dlq s)) (s_lease s).

Definition startedWorker (w : Worker) : Worker :=
  mkWorker (workerId w) (w_jobType w) (maxConcurrency w) true (activeJobs w) (claimsInFlight w).
Definition stoppedWorker (w : Worker) : Worker :=
  mkWorker (workerId w) (w_jobType w) (maxConcurrency w) false (activeJobs w) (claimsInFlight w).
Definition addClaim (w : Worker) : Worker :=
  mkWorker (workerId w) (w_jobType w) (maxConcurrency w) (running w) (activeJobs w) (S (claimsInFlight w)).
Definition answerClaim (w : Worker) : Worker :=
  mkWorker (workerId w) (w_jobType w) (maxConcurrency w) (running w) (activeJobs w) (pred (claimsInFlight w)).
Definition beginJob (w : Worker) : Worker :=
  mkWorker (workerId w) (w_jobType w) (maxConcurrency w) (running w) (S (activeJobs w)) (claimsInFlight w).
Definition endJob (w : Worker) : Worker :=
  mkWorker (workerId w) (w_jobType w) (maxConcurrency w) (running w) (pred (activeJobs w)) (claimsInFlight w).

(** [poll]: one timer tick. *)
Definition poll (w : Worker) : Worker :=
  if running w && (activeJobs w <? maxConcurrency w)%nat then addClaim w else w.

Inductive SchedEvent :=
  | SSchedule (now : Z) (id : nat) (jobType pay : string) (runAt maxRetries : option Z)
  | SRegister (w : nat) (config : Worker)
  | SStart (w : nat)
  | SStop (w : nat)
  | SPoll (w : nat)
  | SClaimAnswer (w : nat) (now : Z) (skipLocked : list nat) (fault : bool)
  | SRenew (x : nat) (now : Z) (fault : bool)
  | SHandlerEnd (x : nat) (error : option string)
  | SCompleteAnswer (x : nat) (now duration : Z) (fault : option string)
  | SFailAnswer (x : nat) (now duration : Z) (fault : bool)
  | SDlqAnswer (x : nat) (now duration : Z) (fault : bool)
  | SPurge (olderThan : Z).

(** The end of [executeJob] and of the [finally] of [tryClaimAndExecute]. *)
Definition finish (x : nat) (e : Execution) (duration : Z) (success : bool) (s : Sched) : Sched :=
  set_smetrics (recordExecution (job_type (x_row e)) duration success (retry_count (x_row e)))
    (set_workers (alter endJob (x_worker e)) (set_execs (delete x) s)).

Definition withPhase (p : Phase) (e : Execution) : Execution :=
  mkExec (x_worker e) (x_job e) (x_row e) p (x_renewing e).

Definition stopRenewing (e : Execution) : Execution :=
  mkExec (x_worker e) (x_job e) (x_row e) (x_phase e) false.

(** The answer to one [claimJob] of [tryClaimAndExecute]. *)
Definition claimAnswer (w : nat) (now : Z) (skipLocked : list nat) (fault : bool) (s : Sched) : Sched :=
  match s_workers s !! w with
  | Some wk =>
      if (claimsInFlight wk =? 0)%nat then s
      else
        let s := set_workers (alter answerClaim w) s in
        if fault then s
        else
          match Store.claimJob now (w_jobType wk) (workerId wk) (leaseDurationMs (s_lease s))
                  skipLocked (s_jobs s) with
          | (_, None) =>
              set_smetrics (setQueueDepth (Store.getQueueDepth now (Some (w_jobType wk)) (s_jobs s))
                              (w_jobType wk)) s
          | (jobs', Some (id, r)) =>
              mkSched jobs' (alter beginJob w (s_workers s))
                (<[s_nextExec s := mkExec w id r Handling true]> (s_execs s)) (S (s_nextExec s))
                (s_metrics s) (s_dlq s) (s_lease s)
          end
  | None => s
  end.

(** One tick of the renewal interval. *)
Definition renew (x : nat) (now : Z) (fault : bool) (s : Sched) : Sched :=
  match s_execs s !! x with
  | Some e =>
      match s_workers s !! x_worker e with
      | Some wk =>
          if negb (x_renewing e) then s
          else if fault then set_smetrics recordLeaseRenewalFailure s
          else
            let '(jobs', renewed) := Store.renewLease now (x_job e) (workerId wk)
                                      (leaseDurationMs (s_lease s)) (s_jobs s) in
            if renewed then set_jobs (fun _ => jobs') s
            else set_smetrics recordLeaseRenewalFailure (set_execs (alter stopRenewing x) s)
      | None => s
      end
  | None => s
  end.

(** The [catch] block: [retryCount < maxRetries] only changes the log line,
    except for the dead-letter routing. *)
Definition failAnswer (x : nat) (e : Execution) (now duration : Z) (message : string) (s : Sched)
    : Sched :=
  let s' := set_jobs (Store.failJob now (x_job e) message) s in
  if retry_count (x_row e) <? max_retries (x_row e) then finish x e duration false s'
  else
    match s_dlq s' with
    | Some _ => set_execs (alter (withPhase (Routing message)) x) s'
    | None => finish x e duration false s'
    end.

(** [dlqManager.process] with a handler that always rethrows; failures of the
    manager are swallowed. *)
Definition routeToDlq (now : Z) (fault : bool) (e : Execution) (message : string)
    (q : Dlq string) : Dlq string :=
  fst (process (Res := unit) now fault (job_type (x_row e)) (payload (x_row e))
         (fun _ => inl (IsError "Error" message None)) None None q).

Definition schedStep (ev : SchedEvent) (s : Sched) : Sched :=
  match ev with
  | SSchedule now id ty pay runAt maxRetries =>
      (* gen_random_uuid never repeats an id *)
      match s_jobs s !! id with
      | Some _ => s
      | None => set_jobs (Store.scheduleJob now id ty pay runAt maxRetries) s
      end
  | SRegister w config =>
      match s_workers s !! w with
      | Some _ => s
      | None => set_workers <[w := mkWorker (workerId config) (w_jobType config)
                               (maxConcurrency config) false 0 0]> s
      end
  | SStart w => set_workers (alter (fun wk => if running wk then wk else poll (startedWorker wk)) w) s
  | SStop w => set_workers (alter stoppedWorker w) s
  | SPoll w => set_workers (alter poll w) s
  | SClaimAnswer w now skipLocked fault => claimAnswer w now skipLocked fault s
  | SRenew x now fault => renew x now fault s
  | SHandlerEnd x error =>
      set_execs (alter (fun e =>
        match x_phase e with
        | Handling => withPhase (match error with Some m => Failing m | None => Completing end) e
        | _ => e
        end) x) s
  | SCompleteAnswer x now duration fault =>
      match s_execs s !! x with
      | Some e =>
          match x_phase e, fault with
          | Completing, None => finish x e duration true (set_jobs (Store.completeJob now (x_job e)) s)
          | Completing, Some m => set_execs (alter (withPhase (Failing m)) x) s
          | _, _ => s
          end
      | None => s
      end
  | SFailAnswer x now duration fault =>
      match s_execs s !! x with
      | Some e =>
          match x_phase e with
          | Failing m => if fault then finish x e duration false s else failAnswer x e now duration m s
          | _ => s
          end
      | None => s
      end
  | SDlqAnswer x now duration fault =>
      match s_execs s !! x with
      | Some e =>
          match x_phase e with
          | Routing m =>
              finish x e duration false (set_dlq (option_map (routeToDlq now fault e m)) s)
          | _ => s
          end
      | None => s
      end
  | SPurge olderThan => set_jobs (Store.purgeCompleted olderThan) s
  end.

Definition runSched (evs : list SchedEvent) (s : Sched) : Sched :=
  foldl (fun s ev => schedStep ev s) s evs.

Definition new_Sched (dlq : option (Dlq string)) (lease : LeaseConfig) : Sched :=
  mkSched ∅ ∅ ∅ 0 new_JobMetrics dlq lease.

(** ** The store's claim *)

Lemma elem_of_claim_candidates now ty skip t id r :
  (id, r) ∈ Store.candidates now ty skip t <->
  t !! id = Some r /\ Store.claimable now ty r = true /\ id ∉ skip.
Proof.
  unfold Store.candidates. rewrite merge_sort_Permutation, list_elem_of_filter.
  cbn [fst snd]. rewrite andb_true_iff, negb_true_iff, bool_decide_eq_false.
  rewrite elem_of_map_to_list. tauto.
Qed.

Lemma claimJob_cases now ty wid lease skip t :
  (Store.claimJob now ty wid lease skip t = (t, None) /\
   forall id r, t !! id = Some r -> Store.claimable now ty r = true -> id ∈ skip) \/
  (exists id r, t !! id = Some r /\ Store.claimable now ty r = true /\ id ∉ skip /\
   Store.claimJob now ty wid lease skip t
   = (<[id := Store.claimedRow now wid lease r]> t, Some (id, Store.claimedRow now wid lease r)) /\
   forall id' r', t !! id' = Some r' -> Store.claimable now ty r' = true -> id' ∉ skip ->
     run_at r <= run_at r').
Proof.
  unfold Store.claimJob. destruct (Store.candidates now ty skip t) as [|[id r] rest] eqn:E.
  - left. split; [done|]. intros id r Hid Hc. destruct (decide (id ∈ skip)) as [|Hn]; [done|].
    assert (H : (id, r) ∈ Store.candidates now ty skip t) by (by apply elem_of_claim_candidates).
    rewrite E in H. by apply elem_of_nil in H.
  - right. exists id, r.
    assert (H : (id, r) ∈ Store.candidates now ty skip t) by (rewrite E; left).
    apply elem_of_claim_candidates in H as (Hid & Hc & Hs). split_and!; try done.
    intros id' r' Hid' Hc' Hs'.
    assert (H' : (id', r') ∈ Store.candidates now ty skip t) by (by apply elem_of_claim_candidates).
    assert (Hsorted : Sorted.StronglySorted Store.earlier (Store.candidates now ty skip t))
      by (apply Sorted.Sorted_StronglySorted; [exact Store.earlier_trans|apply Sorted_merge_sort, _]).
    rewrite E in H', Hsorted. apply Sorted.StronglySorted_inv in Hsorted as [_ Hall].
    apply elem_of_cons in H' as [[= -> ->]|H']; [lia|].
    rewrite Forall_forall in Hall. by apply (Hall (id', r')).
Qed.

(** [claimJob] hands out the earliest due job of its type that is open and
    under no live lease (skipping rows other claims lock), marks exactly that
    row running for the caller until the lease ends, and returns nothing only
    when there is no such job; so a live lease keeps every other worker out,
    and only its holder can renew it. *)
Theorem claim_respects_leases now ty wid leaseMs skip t :
  let (t', claimed) := Store.claimJob now ty wid leaseMs skip t in
  (forall id r until, t !! id = Some r -> locked_until r = Some until -> now < until ->
     t' !! id = Some r /\
     (locked_by r <> Some wid -> Store.renewLease now id wid leaseMs t = (t, false))) /\
  match claimed with
  | None => t' = t /\ forall id r, t !! id = Some r -> Store.claimable now ty r = true -> id ∈ skip
  | Some (id, r') => exists r, t !! id = Some r /\ Store.claimable now ty r = true /\ id ∉ skip /\
      t' = <[id := r']> t /\ status r' = Running /\ locked_by r' = Some wid /\
      locked_until r' = Some (now + leaseMs / 1000 * 1000) /\
      forall id' q, t !! id' = Some q -> Store.claimable now ty q = true -> id' ∉ skip ->
        run_at r <= run_at q
  end.
Proof.
  assert (Hrenew : forall id r, t !! id = Some r -> locked_by r <> Some wid ->
    Store.renewLease now id wid leaseMs t = (t, false)).
  { intros id r Hid Hne. unfold Store.renewLease, Store.holds. by rewrite Hid, bool_decide_false. }
  destruct (claimJob_cases now ty wid leaseMs skip t)
    as [[-> Hnone]|(id & r & Hid & Hc & Hs & -> & Hfirst)].
  - split; [|done]. intros id r until Hid _ _. split; [done|]. by apply Hrenew.
  - split.
    + intros id' q until Hid' Hu Hlt. split; [|by apply Hrenew].
      rewrite lookup_insert_ne; [done|]. intros <-. rewrite Hid in Hid'. injection Hid' as <-.
      unfold Store.claimable, Store.unleased in Hc. rewrite Hu in Hc. bool_props. lia.
    + exists r. by split_and!.
Qed.

(** ** What one event does to one row *)

Inductive RowStep (ev : SchedEvent) (id : nat) : option JobRow -> option JobRow -> Prop :=
  | row_same o : RowStep ev id o o
  | row_new now ty pay ra mr : ev = SSchedule now id ty pay ra mr ->
      RowStep ev id None (Some (Store.scheduledRow now ty pay ra mr))
  | row_claim now wid lease r : Store.open r = true -> Store.unleased now r = true ->
      RowStep ev id (Some r) (Some (Store.claimedRow now wid lease r))
  | row_renew now lease r : status r = Running ->
      RowStep ev id (Some r) (Some (Store.renewedRow now lease r))
  | row_complete now r : RowStep ev id (Some r) (Some (Store.completedRow now r))
  | row_fail now m r : RowStep ev id (Some r) (Some (Store.failedRow now m r))
  | row_purge r : RowStep ev id (Some r) None.

Lemma RowStep_alter ev id f n (t : Jobs) :
  (forall r, t !! n = Some r -> RowStep ev n (Some r) (Some (f r))) ->
  RowStep ev id (t !! id) (alter f n t !! id).
Proof.
  intros H. destruct (decide (n = id)) as [->|].
  - rewrite lookup_alter_eq. destruct (t !! id) as [r|]; [by apply H|apply row_same].
  - rewrite lookup_alter_ne by done. apply row_same.
Qed.

Lemma RowStep_insert ev id n r' (t : Jobs) :
  RowStep ev n (t !! n) (Some r') -> RowStep ev id (t !! id) (<[n := r']> t !! id).
Proof.
  intros H. destruct (decide (n = id)) as [->|].
  - by rewrite lookup_insert_eq.
  - rewrite lookup_insert_ne by done. apply row_same.
Qed.

Lemma claimAnswer_row ev id w now skip fault s :
  RowStep ev id (s_jobs s !! id) (s_jobs (claimAnswer w now skip fault s) !! id).
Proof.
  unfold claimAnswer. destruct (s_workers s !! w) as [wk|]; [|apply row_same].
  destruct (claimsInFlight wk =? 0)%nat; [apply row_same|]. destruct fault; [apply row_same|].
  cbn [set_workers s_jobs s_lease].
  destruct (claimJob_cases now (w_jobType wk) (workerId wk) (leaseDurationMs (s_lease s)) skip
    (s_jobs s)) as [[-> _]|(n & r & Hn & Hc & _ & -> & _)]; [apply row_same|].
  cbn [s_jobs]. apply RowStep_insert. rewrite Hn.
  unfold Store.claimable in Hc. bool_props. by apply row_claim.
Qed.

Lemma renew_row ev id x now fault s :
  RowStep ev id (s_jobs s !! id) (s_jobs (renew x now fault s) !! id).
Proof.
  unfold renew. destruct (s_execs s !! x) as [e|]; [|apply row_same].
  destruct (s_workers s !! x_worker e) as [wk|]; [|apply row_same].
  destruct (negb (x_renewing e)); [apply row_same|]. destruct fault; [apply row_same|].
  unfold Store.renewLease. destruct (s_jobs s !! x_job e) as [r|] eqn:Hr; [|apply row_same].
  destruct (Store.holds (workerId wk) r) eqn:Hh; [|apply row_same].
  cbn. apply RowStep_insert. rewrite Hr. unfold Store.holds in Hh. bool_props. by apply row_renew.
Qed.

Lemma failAnswer_row ev id x e now duration m s :
  RowStep ev id (s_jobs s !! id) (s_jobs (failAnswer x e now duration m s) !! id).
Proof.
  assert (H : RowStep ev id (s_jobs s !! id) (Store.failJob now (x_job e) m (s_jobs s) !! id))
    by (apply RowStep_alter; intros; apply row_fail).
  unfold failAnswer. destruct (_ <? _); [exact H|]. by destruct (s_dlq _).
Qed.

Lemma schedStep_row ev id s : RowStep ev id (s_jobs s !! id) (s_jobs (schedStep ev s) !! id).
Proof.
  destruct ev; cbn [schedStep]; try apply row_same.
  - destruct (s_jobs s !! id0) as [r|] eqn:Hid; [apply row_same|].
    cbn. unfold Store.scheduleJob. destruct (decide (id0 = id)) as [->|].
    + rewrite lookup_insert_eq, Hid. by eapply row_new.
    + rewrite lookup_insert_ne by done. apply row_same.
  - destruct (s_workers s !! w); apply row_same.
  - apply claimAnswer_row.
  - apply renew_row.
  - destruct (s_execs s !! x) as [e|]; [|apply row_same].
    destruct (x_phase e), fault; try apply row_same.
    cbn. apply RowStep_alter. intros. apply row_complete.
  - destruct (s_execs s !! x) as [e|]; [|apply row_same].
    destruct (x_phase e); try apply row_same. destruct fault; [apply row_same|].
    apply failAnswer_row.
  - destruct (s_execs s !! x) as [e|]; [|apply row_same].
    destruct (x_phase e); apply row_same.
  - cbn. unfold Store.purgeCompleted. destruct (s_jobs s !! id) as [r|] eqn:Hid.
    + destruct (Store.purgeable olderThan r) eqn:Hp.
      * rewrite (map_lookup_filter_None_2); [apply row_purge|]. right. intros ? ?.
        simplify_eq. cbn. congruence.
      * rewrite (map_lookup_filter_Some_2 _ _ id r); [apply row_same|done|done].
    + rewrite map_lookup_filter_None_2; [apply row_same|by left].
Qed.

(** ** What one event does to the executions *)

(** [e] is [e0] in a possibly later phase. *)
Definition sameExec (e0 e : Execution) : Prop :=
  x_job e = x_job e0 /\ x_row e = x_row e0 /\ x_worker e = x_worker e0 /\
  forall m, x_phase e = Routing m ->
    x_phase e0 = Routing m \/ max_retries (x_row e) <= retry_count (x_row e).

Definition freshExec (s : Sched) (x : nat) (e : Execution) : Prop :=
  x = s_nextExec s /\ x_phase e = Handling /\
  exists r, s_jobs s !! x_job e = Some r /\ Store.open r = true /\
    retry_count (x_row e) = retry_count r /\ max_retries (x_row e) = max_retries r.

Lemma sameExec_refl e : sameExec e e.
Proof. split_and!; auto. Qed.

Lemma exec_alter f n x e (t : gmap nat Execution) :
  alter f n t !! x = Some e -> (forall e0, t !! n = Some e0 -> sameExec e0 (f e0)) ->
  exists e0, t !! x = Some e0 /\ sameExec e0 e.
Proof.
  intros H Hf. destruct (decide (n = x)) as [->|].
  - rewrite lookup_alter_eq in H. destruct (t !! x) as [e0|]; [|done].
    injection H as <-. exists e0. auto.
  - rewrite lookup_alter_ne in H by done. exists e. split; [done|apply sameExec_refl].
Qed.

Lemma exec_same x e (t : gmap nat Execution) :
  t !! x = Some e -> exists e0, t !! x = Some e0 /\ sameExec e0 e.
Proof. intros H. exists e. split; [done|apply sameExec_refl]. Qed.

Lemma exec_deleted n x e (t : gmap nat Execution) :
  delete n t !! x = Some e -> exists e0, t !! x = Some e0 /\ sameExec e0 e.
Proof. intros [_ H]%lookup_delete_Some. by apply exec_same. Qed.

Lemma claimAnswer_exec w now skip fault s x e :
  s_execs (claimAnswer w now skip fault s) !! x = Some e ->
  (exists e0, s_execs s !! x = Some e0 /\ sameExec e0 e) \/ freshExec s x e.
Proof.
  unfold claimAnswer. destruct (s_workers s !! w) as [wk|]; [|eauto using exec_same].
  destruct (claimsInFlight wk =? 0)%nat; [eauto using exec_same|].
  destruct fault; [eauto using exec_same|]. cbn [set_workers s_jobs s_lease s_execs s_nextExec].
  destruct (claimJob_cases now (w_jobType wk) (workerId wk) (leaseDurationMs (s_lease s)) skip
    (s_jobs s)) as [[-> _]|(n & r & Hn & Hc & _ & -> & _)]; [cbn; eauto using exec_same|].
  cbn [s_execs]. intros [[<- <-]|[_ H]]%lookup_insert_Some; [|eauto using exec_same].
  right. split; [done|]. split; [done|]. exists r. cbn. split_and!; try done.
  unfold Store.claimable in Hc. by bool_props.
Qed.

Lemma renew_exec x0 now fault s x e :
  s_execs (renew x0 now fault s) !! x = Some e ->
  exists e0, s_execs s !! x = Some e0 /\ sameExec e0 e.
Proof.
  unfold renew. destruct (s_execs s !! x0) as [e0|]; [|apply exec_same].
  destruct (s_workers s !! x_worker e0) as [wk|]; [|apply exec_same].
  destruct (negb (x_renewing e0)); [apply exec_same|]. destruct fault; [apply exec_same|].
  destruct (Store.renewLease _ _ _ _ _) as [t [|]]; [apply exec_same|].
  cbn. intros H. eapply exec_alter; [exact H|]. intros e1 _. split_and!; auto.
Qed.

Lemma failAnswer_exec x0 e1 now duration m s x e :
  s_execs s !! x0 = Some e1 ->
  s_execs (failAnswer x0 e1 now duration m s) !! x = Some e ->
  exists e0, s_execs s !! x = Some e0 /\ sameExec e0 e.
Proof.
  intros Hx0. unfold failAnswer. destruct (Z.ltb_spec (retry_count (x_row e1)) (max_retries (x_row e1))).
  - cbn. apply exec_deleted.
  - cbn. destruct (s_dlq s); cbn; [|apply exec_deleted].
    intros H'. eapply exec_alter; [exact H'|]. intros e0 He0. simplify_eq.
    split_and!; auto.
Qed.

Lemma schedStep_exec ev s x e :
  s_execs (schedStep ev s) !! x = Some e ->
  (exists e0, s_execs s !! x = Some e0 /\ sameExec e0 e) \/ freshExec s x e.
Proof.
  destruct ev; cbn [schedStep]; try (intros H; left; by apply exec_same).
  - destruct (s_jobs s !! id); intros H; left; by apply exec_same.
  - destruct (s_workers s !! w); intros H; left; by apply exec_same.
  - apply claimAnswer_exec.
  - intros H. left. by eapply renew_exec.
  - cbn. intros H. left. eapply exec_alter; [exact H|]. intros e0 _.
    cbn beta. destruct (x_phase e0) eqn:Hp; try apply sameExec_refl.
    split_and!; auto. intros m. by destruct error.
  - intros H. left. destruct (s_execs s !! x0) as [e0|] eqn:H0; [|by apply exec_same].
    destruct (x_phase e0), fault; try (by apply exec_same); cbn in H.
    + eapply exec_alter; [exact H|]. intros e1 _. by split_and!.
    + by eapply exec_deleted.
  - intros H. left. destruct (s_execs s !! x0) as [e0|] eqn:H0; [|by apply exec_same].
    destruct (x_phase e0); try (by apply exec_same).
    destruct fault; [cbn in H; by eapply exec_deleted|by eapply failAnswer_exec].
  - intros H. left. destruct (s_execs s !! x0) as [e0|] eqn:H0; [|by apply exec_same].
    destruct (x_phase e0); try (by apply exec_same). cbn in H. by eapply exec_deleted.
Qed.

Lemma schedStep_nextExec ev s : (s_nextExec s <= s_nextExec (schedStep ev s))%nat.
Proof.
  destruct ev; cbn [schedStep]; try done; repeat (case_match; try done).
  - unfold claimAnswer. repeat (case_match; try done); cbn; lia.
  - unfold renew. repeat (case_match; try done).
  - unfold failAnswer. repeat (case_match; try done).
Qed.

(** ** Failed jobs *)

Definition closed (o : option JobRow) : Prop :=
  match o with Some r => Store.open r = false | None => True end.

Definition notScheduling (id : nat) (ev : SchedEvent) : Prop :=
  match ev with SSchedule _ id' _ _ _ _ => id' <> id | _ => True end.

Lemma RowStep_closed ev id o o' :
  notScheduling id ev -> RowStep ev id o o' -> closed o -> closed o'.
Proof.
  intros Hns Hs Hc. destruct Hs; cbn in *; auto; try congruence.
  by subst.
Qed.

(** Every execution of [id] is older than [N]. *)
Definition noneSince (id N : nat) (s : Sched) : Prop :=
  (N <= s_nextExec s)%nat /\
  forall x e, s_execs s !! x = Some e -> x_job e = id -> (x < N)%nat.

Lemma noneSince_step id N ev s :
  notScheduling id ev -> closed (s_jobs s !! id) -> noneSince id N s ->
  closed (s_jobs (schedStep ev s) !! id) /\ noneSince id N (schedStep ev s).
Proof.
  intros Hns Hc [HN Hx]. split; [by eapply RowStep_closed; [|apply schedStep_row|]|].
  split; [pose proof (schedStep_nextExec ev s); lia|].
  intros x e He <-. apply schedStep_exec in He as [(e0 & He0 & Hj & _)|(_ & _ & r & Hr & Ho & _)].
  - by eapply Hx.
  - rewrite Hr in Hc. cbn in Hc. congruence.
Qed.

(** a failure is final: once a job's row is failed (or completed), no later
    event of any worker makes it claimable again, and no execution of it starts,
    whatever [retry_count] and [max_retries] say. *)
Theorem failed_job_never_retried evs id s r :
  s_jobs s !! id = Some r -> status r = FailedJob -> Forall (notScheduling id) evs ->
  (forall x e, s_execs s !! x = Some e -> (x < s_nextExec s)%nat) ->
  let s' := runSched evs s in
  (forall r', s_jobs s' !! id = Some r' -> status r' = FailedJob \/ status r' = Completed) /\
  (forall x e, s_execs s' !! x = Some e -> x_job e = id -> (x < s_nextExec s)%nat).
Proof.
  intros Hr Hst Hns Hids s'.
  assert (Hgo : closed (s_jobs s' !! id) /\ noneSince id (s_nextExec s) s').
  { assert (Hc : closed (s_jobs s !! id)).
    { rewrite Hr. cbn. unfold Store.open. rewrite Hst. done. }
    assert (HN : noneSince id (s_nextExec s) s) by (split; [done|intros; eauto]).
    unfold s'. clear s' Hr Hids. revert HN. generalize (s_nextExec s). revert s Hc.
    induction evs as [|ev evs IH]; intros s Hc N HN; [done|].
    apply Forall_cons in Hns as [Hev Hns].
    destruct (noneSince_step id N ev s Hev Hc HN). by apply (IH Hns). }
  destruct Hgo as [Hc [_ Hx]]. split; [|exact Hx].
  intros r' Hr'. rewrite Hr' in Hc. cbn in Hc. unfold Store.open in Hc. bool_props.
  destruct (status r'); auto; done.
Qed.

(** ** Dead-letter routing *)

Definition retryable (ev : SchedEvent) : Prop :=
  match ev with SSchedule _ _ _ _ _ (Some n) => 1 <= n | _ => True end.

Definition rowNeverRetried (r : JobRow) : Prop :=
  1 <= max_retries r /\ (Store.open r = true -> retry_count r = 0).

Record NoDlq (q : option (Dlq string)) (s : Sched) : Prop := {
  nd_rows : forall id r, s_jobs s !! id = Some r -> rowNeverRetried r;
  nd_execs : forall x e, s_execs s !! x = Some e ->
    1 <= max_retries (x_row e) /\ retry_count (x_row e) = 0 /\ forall m, x_phase e <> Routing m;
  nd_dlq : s_dlq s = q
}.

Lemma RowStep_neverRetried ev id o o' :
  retryable ev -> RowStep ev id o o' ->
  (forall r, o = Some r -> rowNeverRetried r) -> forall r, o' = Some r -> rowNeverRetried r.
Proof.
  intros Hev Hs Ho r' Hr'. destruct Hs; simplify_eq; eauto.
  - split; [|done]. cbn in *. unfold Store.clampInt. destruct mr as [n|]; cbn in *; lia.
  - destruct (Ho r eq_refl) as [? Hz]. split; [done|]. intros _. by apply Hz.
  - destruct (Ho r eq_refl) as [? Hz]. split; [done|]. intros _. apply Hz.
    unfold Store.open. by rewrite H, orb_true_r.
  - destruct (Ho r eq_refl). by split.
  - destruct (Ho r eq_refl). by split.
Qed.

Lemma schedStep_dlq ev s :
  (forall x e m, s_execs s !! x = Some e -> x_phase e <> Routing m) ->
  s_dlq (schedStep ev s) = s_dlq s.
Proof.
  intros Hno. destruct ev; cbn [schedStep]; try done; repeat (case_match; try done).
  - unfold claimAnswer. repeat (case_match; try done).
  - unfold renew. repeat (case_match; try done).
  - unfold failAnswer. repeat (case_match; try done).
  - exfalso. by eapply Hno.
Qed.

Lemma NoDlq_step q ev s : retryable ev -> NoDlq q s -> NoDlq q (schedStep ev s).
Proof.
  intros Hev [H1 H2 H3]. split.
  - intros id r Hr. eapply RowStep_neverRetried; [exact Hev|apply (schedStep_row ev id s)| |exact Hr].
    intros r0. apply H1.
  - intros x e He. apply schedStep_exec in He as [(e0 & He0 & _ & Er & _ & Hp)|(_ & Hh & r & Hr & Ho & E1 & E2)].
    + destruct (H2 x e0 He0) as (Hm & Hz & Hnr). rewrite Er. split_and!; [done..|].
      intros m Hm'. destruct (Hp m Hm') as [?|Hle]; [by eapply Hnr|].
      rewrite Er in Hle. lia.
    + destruct (H1 _ _ Hr) as [? Hz]. rewrite E1, E2, Hh. split_and!; auto; done.
  - rewrite <- H3. apply schedStep_dlq. intros x e m He. by apply (H2 x e He).
Qed.

(** as a consequence the dead-letter queue is never reached by a job that
    may be retried at all: while every job is scheduled with at least one
    retry (the default is three), in every run no entry is ever filed. *)
Theorem retryable_jobs_never_dead_lettered evs q lease :
  Forall retryable evs -> s_dlq (runSched evs (new_Sched q lease)) = q.
Proof.
  intros Hevs. enough (NoDlq q (runSched evs (new_Sched q lease))) as [_ _ ?] by done.
  assert (H : NoDlq q (new_Sched q lease)) by (split; try done; by intros ? ? ?%lookup_empty_Some).
  revert H. generalize (new_Sched q lease). induction Hevs as [|ev evs Hev _ IH]; intros s Hs; [done|].
  by apply IH, NoDlq_step.
Qed.

(** ** Slots *)

Definition execsOf (w : nat) (t : gmap nat Execution) : nat :=
  size (filter (fun e => x_worker e.2 = w) t).

Lemma execsOf_insert w x e t :
  t !! x = None -> execsOf w (<[x := e]> t) = ((if decide (x_worker e = w) then 1 else 0) + execsOf w t)%nat.
Proof.
  intros Hx. unfold execsOf. case_decide.
  - rewrite map_filter_insert_True by done. rewrite map_size_insert_None; [lia|].
    apply map_lookup_filter_None. by left.
  - rewrite map_filter_insert_False by done. by rewrite delete_id.
Qed.

Lemma execsOf_delete w x e t :
  t !! x = Some e -> execsOf w t = ((if decide (x_worker e = w) then 1 else 0) + execsOf w (delete x t))%nat.
Proof.
  intros Hx. rewrite <- (execsOf_insert w x e) by apply lookup_delete_eq.
  by rewrite insert_delete_id.
Qed.

Lemma execsOf_alter w x f t :
  (forall e, x_worker (f e) = x_worker e) -> execsOf w (alter f x t) = execsOf w t.
Proof.
  intros Hf. destruct (t !! x) as [e|] eqn:Hx.
  - rewrite (execsOf_delete w x (f e) (alter f x t)) by (by rewrite lookup_alter_eq, Hx).
    rewrite (execsOf_delete w x e t) by done. rewrite Hf. by rewrite delete_alter_eq.
  - by rewrite alter_id by (intros; congruence).
Qed.

Record Slots (s : Sched) : Prop := {
  sl_active : forall w wk, s_workers s !! w = Some wk -> activeJobs wk = execsOf w (s_execs s);
  sl_known : forall x e, s_execs s !! x = Some e ->
    is_Some (s_workers s !! x_worker e) /\ (x < s_nextExec s)%nat
}.

(** Workers change only in fields other than their slots. *)
Lemma Slots_workers f w s :
  Slots s -> (forall wk, activeJobs (f wk) = activeJobs wk) ->
  Slots (set_workers (alter f w) s).
Proof.
  intros [H1 H2] Hf. split; cbn.
  - intros w' wk. destruct (decide (w = w')) as [->|].
    + rewrite lookup_alter_eq. destruct (s_workers s !! w') as [wk0|] eqn:Hw; [|done].
      intros [= <-]. rewrite Hf. by apply H1.
    + rewrite lookup_alter_ne by done. apply H1.
  - intros x e He. destruct (H2 x e He) as [Hk ?]. split; [|done].
    destruct (decide (w = x_worker e)) as [->|]; [|by rewrite lookup_alter_ne].
    rewrite lookup_alter_eq. by apply fmap_is_Some.
Qed.

Lemma Slots_execs f x s :
  Slots s -> (forall e, x_worker (f e) = x_worker e) -> Slots (set_execs (alter f x) s).
Proof.
  intros [H1 H2] Hf. split; cbn.
  - intros w wk Hw. rewrite execsOf_alter by done. by apply H1.
  - intros y e. destruct (decide (x = y)) as [->|]; [|rewrite lookup_alter_ne by done; apply H2].
    rewrite lookup_alter_eq. destruct (s_execs s !! y) as [e0|] eqn:He; [|done].
    intros [= <-]. rewrite Hf. by apply H2.
Qed.

Lemma Slots_same s s' :
  Slots s -> s_workers s' = s_workers s -> s_execs s' = s_execs s ->
  s_nextExec s' = s_nextExec s -> Slots s'.
Proof. intros [H1 H2] Ew Ee En. split; rewrite ?Ew, ?Ee, ?En; done. Qed.

Lemma Slots_finish x e duration success s :
  Slots s -> s_execs s !! x = Some e -> Slots (finish x e duration success s).
Proof.
  intros [H1 H2] Hx. split; cbn.
  - intros w wk. destruct (decide (x_worker e = w)) as [<-|Hne].
    + rewrite lookup_alter_eq. destruct (s_workers s !! x_worker e) as [wk0|] eqn:Hw; [|done].
      intros [= <-]. cbn. rewrite (H1 _ _ Hw), (execsOf_delete _ x e) by done.
      by rewrite decide_True.
    + rewrite lookup_alter_ne by done. intros Hw.
      rewrite (H1 _ _ Hw), (execsOf_delete w x e) by done. by rewrite decide_False.
  - intros y e' [_ He]%lookup_delete_Some. destruct (H2 y e' He) as [Hk ?]. split; [|done].
    destruct (decide (x_worker e = x_worker e')) as [E|]; [|by rewrite lookup_alter_ne].
    rewrite E, lookup_alter_eq. by apply fmap_is_Some.
Qed.

Lemma Slots_claim w jobs' id r s :
  Slots s -> is_Some (s_workers s !! w) ->
  Slots (mkSched jobs' (alter beginJob w (s_workers s))
    (<[s_nextExec s := mkExec w id r Handling true]> (s_execs s)) (S (s_nextExec s))
    (s_metrics s) (s_dlq s) (s_lease s)).
Proof.
  intros [H1 H2] [wk0 Hw0].
  assert (Hfresh : s_execs s !! s_nextExec s = None).
  { destruct (s_execs s !! s_nextExec s) as [e|] eqn:E; [|done]. apply H2 in E as [_ ?]. lia. }
  split; cbn.
  - intros w' wk. rewrite execsOf_insert by done. cbn [x_worker].
    destruct (decide (w = w')) as [<-|].
    + rewrite lookup_alter_eq, Hw0. intros [= <-]. cbn. by rewrite (H1 _ _ Hw0).
    + rewrite lookup_alter_ne by done. apply H1.
  - intros y e [[<- <-]|[_ He]]%lookup_insert_Some.
    + cbn. rewrite lookup_alter_eq, Hw0. split; [by eexists|lia].
    + destruct (H2 y e He) as [Hk ?]. split; [|lia].
      destruct (decide (w = x_worker e)) as [->|]; [|by rewrite lookup_alter_ne].
      rewrite lookup_alter_eq. by apply fmap_is_Some.
Qed.

Lemma Slots_claimAnswer w now skip fault s : Slots s -> Slots (claimAnswer w now skip fault s).
Proof.
  intros HS. unfold claimAnswer. destruct (s_workers s !! w) as [wk|] eqn:Hw; [|done].
  destruct (claimsInFlight wk =? 0)%nat; [done|].
  assert (HS' : Slots (set_workers (alter answerClaim w) s)) by (by apply Slots_workers).
  destruct fault; [done|].
  destruct (Store.claimJob _ _ _ _ _ _) as [jobs' [[id r]|]].
  - apply Slots_claim; [done|]. cbn. rewrite lookup_alter_eq, Hw. by eexists.
  - by eapply Slots_same.
Qed.

Lemma Slots_renew x now fault s : Slots s -> Slots (renew x now fault s).
Proof.
  intros HS. unfold renew. destruct (s_execs s !! x) as [e|]; [|done].
  destruct (s_workers s !! x_worker e) as [wk|]; [|done].
  destruct (negb (x_renewing e)); [done|]. destruct fault; [by eapply Slots_same|].
  destruct (Store.renewLease _ _ _ _ _) as [jobs' [|]]; [by eapply Slots_same|].
  eapply Slots_same; [apply (Slots_execs stopRenewing x s HS); done|done..].
Qed.

Lemma schedStep_Slots ev s : Slots s -> Slots (schedStep ev s).
Proof.
  intros HS. destruct ev; cbn [schedStep].
  - destruct (s_jobs s !! id); [done|by eapply Slots_same].
  - destruct (s_workers s !! w) as [wk|] eqn:Hw; [done|]. destruct HS as [H1 H2]. split; cbn.
    + intros w' wk [[<- <-]|[_ Hw']]%lookup_insert_Some; [|by apply H1].
      cbn. unfold execsOf. symmetry. apply map_size_empty_iff, map_empty.
      intros x. apply map_lookup_filter_None. right. intros e He Hx. cbn in Hx.
      apply H2 in He as [[? Hk] _]. congruence.
    + intros x e He. destruct (H2 x e He) as [[wk Hk] ?]. split; [|done].
      rewrite lookup_insert_ne by congruence. by eexists.
  - apply Slots_workers; [done|]. intros wk. destruct (running wk) eqn:Hr; [done|].
    unfold poll. cbn. by case_match.
  - by apply Slots_workers.
  - apply Slots_workers; [done|]. intros wk. unfold poll. by case_match.
  - by apply Slots_claimAnswer.
  - by apply Slots_renew.
  - apply Slots_execs; [done|]. intros e. by destruct (x_phase e).
  - destruct (s_execs s !! x) as [e|] eqn:Hx; [|done].
    destruct (x_phase e), fault; try done; [by apply Slots_execs|].
    apply Slots_finish; [by eapply Slots_same|done].
  - destruct (s_execs s !! x) as [e|] eqn:Hx; [|done]. destruct (x_phase e); try done.
    destruct fault; [by apply Slots_finish|]. unfold failAnswer.
    assert (HS' : Slots (set_jobs (Store.failJob now (x_job e) message) s)) by (by eapply Slots_same).
    destruct (_ <? _); [by apply Slots_finish|]. cbn [s_dlq set_jobs].
    destruct (s_dlq s); [by apply Slots_execs|by apply Slots_finish].
  - destruct (s_execs s !! x) as [e|] eqn:Hx; [|done]. destruct (x_phase e); try done.
    apply Slots_finish; [by eapply Slots_same|done].
  - by eapply Slots_same.
Qed.

(** slot accounting: in every run a worker's [activeJobs] is the number of
    its executions in progress, so it returns to zero when they end, however
    they end. *)
Theorem active_jobs_accounting evs dlq lease w wk :
  let s := runSched evs (new_Sched dlq lease) in
  s_workers s !! w = Some wk -> activeJobs wk = execsOf w (s_execs s).
Proof.
  intros s. enough (Slots s) as [H _] by apply H.
  assert (H : Slots (new_Sched dlq lease))
    by (split; cbn; intros ? ? ?%lookup_empty_Some; done).
  unfold s. clear s. revert H. generalize (new_Sched dlq lease).
  induction evs as [|ev evs IH]; intros s HS; [done|]. by apply IH, schedStep_Slots.
Qed.

(** ** Two races *)

Module Examples.
Definition cfg (name : string) : Worker := mkWorker name "mail" 1 false 0 0.
Definition two_jobs : list SchedEvent :=
  [SSchedule 0 1 "mail" "a" None None; SSchedule 0 2 "mail" "b" (Some 5) None;
   SRegister 0 (cfg "w0"); SRegister 1 (cfg "w1")].
Definition s0 : Sched := runSched two_jobs (new_Sched (Some DeadLetterQueue.Examples.empty) DEFAULT_LEASE_CONFIG).
(** A second poll fires before the first claim is answered. *)
Definition slow_claims : list SchedEvent :=
  [SStart 0; SPoll 0; SClaimAnswer 0 1000 [] false; SClaimAnswer 0 1001 [] false].
(** [w0]'s lease lapses, [w1] takes the job over, [w0]'s handler then throws. *)
Definition stale : list SchedEvent :=
  [SStart 0; SClaimAnswer 0 1000 [] false; SStart 1; SClaimAnswer 1 31000 [] false;
   SHandlerEnd 0 (Some "late"); SFailAnswer 0 31500 0 false].
Definition failed_run : list SchedEvent :=
  [SStart 0; SClaimAnswer 0 1000 [] false; SHandlerEnd 0 (Some "boom"); SFailAnswer 0 1500 0 false].

Lemma claim_respects_leases_witness :
  let (t', claimed) := Store.claimJob 1000 "mail" "w0" 30999 [] (s_jobs s0) in
  exists r', claimed = Some (1%nat, r') /\ locked_until r' = Some 31000.
Proof.
  pose proof (claim_respects_leases 1000 "mail" "w0" 30999 [] (s_jobs s0)) as H.
  destruct (Store.claimJob _ _ _ _ _ _) as [t' claimed] eqn:E. destruct H as [_ H].
  assert (Hc : (fst <$> claimed) = Some 1%nat) by (vm_compute in E; injection E as _ <-; reflexivity).
  destruct claimed as [[id r']|]; [|discriminate]. injection Hc as ->.
  exists r'. split; [reflexivity|]. destruct H as (r & _ & _ & _ & _ & _ & _ & Hl & _). exact Hl.
Defined.

Definition polls_later : list SchedEvent :=
  [SPoll 0; SClaimAnswer 0 99999 [] false; SPoll 1; SClaimAnswer 1 99999 [] false].

Lemma failed_job_never_retried_witness :
  exists r', s_jobs (runSched polls_later (runSched failed_run s0)) !! 1%nat = Some r' /\
    (status r' = FailedJob \/ status r' = Completed).
Proof.
  destruct (s_jobs (runSched failed_run s0) !! 1%nat) as [r|] eqn:Hr; [|vm_compute in Hr; discriminate].
  destruct (s_jobs (runSched polls_later (runSched failed_run s0)) !! 1%nat) as [r'|] eqn:Hr';
    [|vm_compute in Hr'; discriminate].
  exists r'. split; [reflexivity|].
  refine (proj1 (failed_job_never_retried polls_later 1 (runSched failed_run s0) r Hr _ _ _) r' Hr').
  - vm_compute in Hr. injection Hr as <-. reflexivity.
  - repeat constructor.
  - intros x e He. assert (Hn : s_execs (runSched failed_run s0) = ∅) by (vm_compute; reflexivity).
    rewrite Hn in He. discriminate.
Defined.

Lemma retryable_jobs_never_dead_lettered_witness :
  s_dlq (runSched (two_jobs ++ failed_run)
    (new_Sched (Some DeadLetterQueue.Examples.empty) DEFAULT_LEASE_CONFIG))
  = Some DeadLetterQueue.Examples.empty.
Proof. apply retryable_jobs_never_dead_lettered. repeat constructor. Defined.

Lemma active_jobs_accounting_witness :
  exists wk, s_workers (runSched (two_jobs ++ slow_claims) (new_Sched None DEFAULT_LEASE_CONFIG)) !! 0%nat
    = Some wk /\ activeJobs wk = 2%nat.
Proof.
  destruct (s_workers (runSched (two_jobs ++ slow_claims) (new_Sched None DEFAULT_LEASE_CONFIG)) !! 0%nat)
    as [wk|] eqn:E; [|vm_compute in E; discriminate].
  exists wk. split; [reflexivity|].
  rewrite (active_jobs_accounting _ _ _ 0 wk E). vm_compute. reflexivity.
Defined.
End Examples.

(** two races the store does not rule out: a worker whose claim is still
    unanswered at the next poll runs more jobs than [maxConcurrency]; and a
    worker whose lease lapsed and whose job was taken over still marks the row
    failed and clears the new holder's lease while it is executing. *)
Theorem scheduler_races :
  (let s := runSched Examples.slow_claims Examples.s0 in
   exists wk, s_workers s !! 0%nat = Some wk /\
     activeJobs wk = 2%nat /\ maxConcurrency wk = 1%nat) /\
  (let s := runSched (take 4 Examples.stale) Examples.s0 in
   let s' := runSched Examples.stale Examples.s0 in
   (locked_by <$> s_jobs s !! 1%nat) = Some (Some "w1") /\
   (status <$> s_jobs s' !! 1%nat) = Some FailedJob /\
   (locked_by <$> s_jobs s' !! 1%nat) = Some None /\
   (x_phase <$> s_execs s' !! 1%nat) = Some Handling).
Proof.
  split; [eexists; split; [vm_compute; reflexivity|split; reflexivity]|].
  split_and!; vm_compute; reflexivity.
Qed.
