(* ===== verification/NonceStore.v ===== *)
(** * Write-ahead log of slashing nonces ([src/src/database/nonce_store.ts])

    The store appends JSON lines to a log file and keeps a water mark in a second
    file.  Entries are objects shared with the sequencer, which changes their
    status while they wait in the buffer: the store holds references into a heap,
    and [flush] writes what the objects hold at that time.  Files are their text;
    the file system does not fail. *)

From Stdlib Require Import ZArith Lia Ascii String.
From stdpp Require Import base numbers list strings.
From S2P Require Import Prelude Js Text.

(** A [WalEntry], as created and as [JSON.parse] returns it: its members. *)
Abbreviation WalEntry := jobject.

Definition walEntry (nonce txHash : string) (timestamp : Z) (status : string) : WalEntry :=
  [("nonce", FStr nonce); ("txHash", FStr txHash); ("timestamp", FNum timestamp);
   ("status", FStr status)].

(** [e.key], [undefined] when absent; [e.key = v] *)
Definition prop (e : WalEntry) (key : string) : option jfield := assoc_get key e.
Definition set_prop (key : string) (v : jfield) (e : WalEntry) : WalEntry := assoc_set key v e.

Definition has_status (status : string) (e : WalEntry) : Prop :=
  prop e "status" = Some (FStr status).
#[export] Instance has_status_dec status e : Decision (has_status status e).
Proof. unfold has_status. apply _. Defined.

Inductive WalError := SyntaxError | TypeError.

(** [BigInt(v)] *)
Definition BigInt (v : option jfield) : WalError + Z :=
  match v with
  | Some (FStr s) => match BigInt_of_string s with Some z => inr z | None => inl SyntaxError end
  | Some (FNum z) => inr z
  | None => inl TypeError
  end.

Record NonceStore := mkStore {
  heap : list WalEntry;             (* the entry objects *)
  buffer : list nat;                (* references *)
  walFile : option string;
  waterMarkFile : option string;
  flushThreshold : nat
}.

Definition set_heap f st :=
  mkStore (f (heap st)) (buffer st) (walFile st) (waterMarkFile st) (flushThreshold st).
Definition set_buffer f st :=
  mkStore (heap st) (f (buffer st)) (walFile st) (waterMarkFile st) (flushThreshold st).
Definition set_walFile f st :=
  mkStore (heap st) (buffer st) (f (walFile st)) (waterMarkFile st) (flushThreshold st).
Definition set_waterMarkFile f st :=
  mkStore (heap st) (buffer st) (walFile st) (f (waterMarkFile st)) (flushThreshold st).

(** [new NonceStore(dataDir, flushThreshold)] on a directory's files *)
Definition new_NonceStore (wal waterMark : option string) (threshold : option nat) : NonceStore :=
  mkStore [] [] wal waterMark (default 64%nat threshold).

(** [appendFileSync] *)
Definition appendFile (text : string) (file : option string) : option string :=
  Some (default "" file +:+ text).

(** The objects waiting in the buffer. *)
Definition buffered (st : NonceStore) : list WalEntry :=
  omap (fun r => heap st !! r) (buffer st).

Definition flush (st : NonceStore) : NonceStore :=
  let st' := foldl (fun s e => set_walFile (appendFile (JSON_stringify e +:+ String NEWLINE "")) s)
               st (buffered st) in
  set_buffer (fun _ => []) st'.

Definition append (ref : nat) (st : NonceStore) : NonceStore :=
  let st' := set_buffer (fun b => b ++ [ref]) st in
  if (flushThreshold st' <=? length (buffer st'))%nat then flush st' else st'.

Definition advanceWaterMark (nonce : string) (st : NonceStore) : NonceStore :=
  set_waterMarkFile (fun _ => Some (JSON_stringify [("nonce", FStr nonce)])) st.

Definition getWaterMark (st : NonceStore) : option jfield :=
  match waterMarkFile st with
  | Some data => match JSON_parse data with
                 | Some parsed => prop parsed "nonce"
                 | None => Some (FStr "0")
                 end
  | None => Some (FStr "0")
  end.

(** [content.trim().split('\n').filter(Boolean)] *)
Definition wal_lines (content : string) : list string :=
  filter (fun l => falsy l = false) (split NEWLINE (trim content)).

(** [lines.map((line) => JSON.parse(line))] *)
Definition parse_lines (lines : list string) : WalError + list WalEntry :=
  match mapM JSON_parse lines with Some es => inr es | None => inl SyntaxError end.

Definition replayUnconfirmed (st : NonceStore) : WalError + list WalEntry :=
  match walFile st with
  | None => inr []
  | Some content =>
      match parse_lines (wal_lines content) with
      | inl e => inl e
      | inr es => inr (filter (has_status "pending") es)
      end
  end.

(** [e.status !== 'confirmed' && BigInt(e.nonce) > upTo] *)
Definition keeps (upTo : Z) (e : WalEntry) : WalError + bool :=
  if bool_decide (has_status "confirmed" e) then inr false
  else match BigInt (prop e "nonce") with
       | inl err => inl err
       | inr n => inr (upTo <? n)
       end.

Fixpoint filterKept (upTo : Z) (es : list WalEntry) : WalError + list WalEntry :=
  match es with
  | [] => inr []
  | e :: es' =>
      match keeps upTo e with
      | inl err => inl err
      | inr b => match filterKept upTo es' with
                 | inl err => inl err
                 | inr rest => inr (if b then e :: rest else rest)
                 end
      end
  end.

(** [remaining.map((e) => JSON.stringify(e)).join('\n')] *)
Fixpoint join (sep : ascii) (ls : list string) : string :=
  match ls with
  | [] => ""
  | [l] => l
  | l :: ls' => l +:+ String sep (join sep ls')
  end.

Definition purgeConfirmed (upToNonce : string) : M NonceStore WalError unit :=
  let! st := get in
  match walFile st with
  | None => ret tt
  | Some content =>
      let! upTo := of_sum (BigInt (Some (FStr upToNonce))) in
      let! es := of_sum (parse_lines (wal_lines content)) in
      let! remaining := of_sum (filterKept upTo es) in
      put (set_walFile (fun _ => Some (join NEWLINE (JSON_stringify <$> remaining))) st)
  end.

(** ** The log as entries

    [Wal] is what the text of the log means: lines of entries, and whether the
    last line is ended by a newline.  A line holds more than one entry when an
    append follows an unterminated line. *)

Record Wal := mkWal { rows : list (list WalEntry); terminated : bool }.

Definition row_text (es : list WalEntry) : string :=
  foldr (fun e t => JSON_stringify e +:+ t) "" es.

Definition wal_text (w : Wal) : string :=
  join NEWLINE (row_text <$> rows w) +:+ (if terminated w then String NEWLINE "" else "").

Definition wal_wf (w : Wal) : Prop :=
  Forall (fun es => es <> []) (rows w) /\ (terminated w = true -> rows w <> []).

(** The text of the log file, no file being an empty log. *)
Definition represents (file : option string) (w : Wal) : Prop :=
  wal_wf w /\ match file with
              | Some text => text = wal_text w
              | None => w = mkWal [] false
              end.

(** Appending an entry and its newline. *)
Definition wal_append (e : WalEntry) (w : Wal) : Wal :=
  if terminated w || bool_decide (rows w = []) then mkWal (rows w ++ [[e]]) true
  else mkWal (take (length (rows w) - 1) (rows w) ++ [default [] (last (rows w)) ++ [e]]) true.

(** Reading the entries back: a line of several is no JSON. *)
Fixpoint wal_entries (rs : list (list WalEntry)) : WalError + list WalEntry :=
  match rs with
  | [] => inr []
  | [e] :: rs' => match wal_entries rs' with inr es => inr (e :: es) | inl err => inl err end
  | _ :: _ => inl SyntaxError
  end.

Lemma row_text_shape es :
  es <> [] -> exists t u, row_text es = String LBRACE t /\ row_text es = u +:+ String RBRACE "".
Proof.
  induction es as [|e es IH]; [done|]. intros _. cbn [row_text foldr].
  fold (row_text es). destruct es as [|e' es].
  - cbn. rewrite app_nil_s. unfold JSON_stringify. rewrite <- !app_String. eauto.
  - destruct IH as (t & u & _ & E2); [done|]. rewrite E2. rewrite <- app_assoc_s.
    unfold JSON_stringify at 1. rewrite !app_String. eauto.
Qed.

Lemma row_text_one_line es : lacks NEWLINE (row_text es) = true.
Proof.
  induction es as [|e es IH]; [done|]. cbn. fold (row_text es). unfold lacks.
  rewrite all_chars_app. fold (lacks NEWLINE). by rewrite stringify_one_line, IH.
Qed.

Lemma row_text_app es es' : row_text (es ++ es') = row_text es +:+ row_text es'.
Proof.
  induction es as [|e es IH]; [done|]. cbn. fold (row_text (es ++ es')) (row_text es).
  by rewrite IH, app_assoc_s.
Qed.

Lemma join_cons sep l ls : ls <> [] -> join sep (l :: ls) = l +:+ String sep (join sep ls).
Proof. by destruct ls. Qed.

Lemma join_snoc sep ls l :
  ls <> [] -> join sep (ls ++ [l]) = join sep ls +:+ String sep l.
Proof.
  induction ls as [|x ls IH]; [done|]. intros _. destruct ls as [|y ls]; [done|].
  rewrite <- app_comm_cons, (join_cons sep x (y :: ls)) by done.
  rewrite join_cons by (by destruct ls). rewrite IH by done.
  by rewrite app_assoc_s, app_String.
Qed.

Lemma split_join sep ls :
  ls <> [] -> Forall (fun l => lacks sep l = true) ls -> split sep (join sep ls) = ls.
Proof.
  induction ls as [|l ls IH]; [done|]. intros _ Hl. inv Hl as [|?? Hlk Hls]. destruct ls as [|l' ls].
  - cbn. by apply split_lacks.
  - rewrite join_cons, split_app by done. by rewrite IH.
Qed.

Lemma filter_Forall {A} (P : A -> Prop) `{!forall x, Decision (P x)} l :
  Forall P l -> filter P l = l.
Proof.
  induction 1 as [|x l Hx Hl IH]; [done|]. by rewrite filter_cons_True, IH.
Qed.

(** The lines of a log. *)
Lemma joined_shape rs :
  rs <> [] -> Forall (fun es => es <> []) rs ->
  exists t u, join NEWLINE (row_text <$> rs) = String LBRACE t /\
              join NEWLINE (row_text <$> rs) = u +:+ String RBRACE "".
Proof.
  intros Hne Hrs. destruct rs as [|r rs]; [done|]. inv Hrs as [|?? Hr Hrs'].
  destruct (row_text_shape r Hr) as (t & u & E1 & E2). clear Hne.
  revert r t u Hr E1 E2. induction rs as [|r' rs IH]; intros r t u Hr E1 E2.
  - cbn. eauto.
  - inv Hrs' as [|?? Hr' Hrs]. destruct (row_text_shape r' Hr') as (t' & u' & E1' & E2').
    destruct (IH Hrs r' t' u' Hr' E1' E2') as (a & b & _ & E3).
    rewrite fmap_cons, join_cons by done. rewrite E3, E1. eexists _, _. split.
    + by rewrite app_String.
    + rewrite <- E1, <- app_String, <- app_assoc_s. done.
Qed.

Lemma trim_wal_text w : wal_wf w -> trim (wal_text w) = join NEWLINE (row_text <$> rows w).
Proof.
  intros [Hne Ht]. unfold trim, wal_text.
  destruct (decide (rows w = [])) as [E|E].
  - rewrite E. destruct (terminated w); [by destruct Ht|]. done.
  - destruct (joined_shape (rows w) E Hne) as (t & u & E1 & E2).
    assert (HS : forall v, trimStart (join NEWLINE (row_text <$> rows w) +:+ v)
                           = join NEWLINE (row_text <$> rows w) +:+ v).
    { intros v. rewrite E1, app_String. done. }
    rewrite HS. destruct (terminated w).
    + rewrite trimEnd_ws by done. rewrite E2. by apply trimEnd_last.
    + rewrite app_nil_s, E2. by apply trimEnd_last.
Qed.

Lemma wal_lines_text w : wal_wf w -> wal_lines (wal_text w) = row_text <$> rows w.
Proof.
  intros Hwf. unfold wal_lines. rewrite trim_wal_text by done. destruct Hwf as [Hne _].
  destruct (decide (rows w = [])) as [->|E]; [done|].
  rewrite split_join.
  - apply filter_Forall. apply Forall_fmap.
    eapply Forall_impl; [exact Hne|]. intros r Hr. cbn.
    destruct (row_text_shape r Hr) as (t & u & -> & _). done.
  - by intros ?%fmap_nil_inv.
  - apply Forall_fmap, Forall_true. intros r. cbn. apply row_text_one_line.
Qed.

Lemma parse_row_single e : JSON_parse (row_text [e]) = Some e.
Proof. cbn. by rewrite app_nil_s, JSON_parse_stringify. Qed.

Lemma parse_row_many e e' es : JSON_parse (row_text (e :: e' :: es)) = None.
Proof. apply JSON_parse_trailing. cbn. by destruct (row_text es). Qed.

Lemma parse_rows rs :
  Forall (fun es => es <> []) rs -> parse_lines (row_text <$> rs) = wal_entries rs.
Proof.
  unfold parse_lines. induction 1 as [|r rs Hr Hrs IH]; [done|].
  rewrite fmap_cons. cbn [mapM wal_entries]. destruct r as [|e [|e' es]]; [done| |].
  - rewrite parse_row_single. cbn. destruct (mapM JSON_parse (row_text <$> rs));
      rewrite <- IH; done.
  - rewrite parse_row_many. done.
Qed.

Lemma represents_lines text w :
  represents (Some text) w -> parse_lines (wal_lines text) = wal_entries (rows w).
Proof.
  intros [Hwf ->]. rewrite wal_lines_text by done. apply parse_rows, Hwf.
Qed.

(** Appending a line to the text appends it to the entries. *)
Lemma represents_append file w e :
  represents file w ->
  represents (appendFile (JSON_stringify e +:+ String NEWLINE "") file) (wal_append e w).
Proof.
  intros Hr. unfold appendFile, wal_append, represents.
  assert (Hd : wal_wf w /\ default "" file = wal_text w).
  { destruct file as [text|]; [exact Hr|]. destruct Hr as [? ->]. done. }
  destruct Hd as [[Hne Ht] ->]. unfold wal_text.
  destruct (decide (rows w = [])) as [E|E].
  - rewrite E, bool_decide_true, orb_true_r by done.
    destruct (terminated w); [by destruct Ht|]. split; [split; [by repeat constructor|done]|].
    cbn. by rewrite !app_nil_s.
  - rewrite (bool_decide_false (rows w = [])) by done. rewrite orb_false_r.
    assert (E' : row_text <$> rows w <> []) by (by intros ?%fmap_nil_inv).
    destruct (terminated w) eqn:Et; cbn [rows terminated].
    + split; [split|].
      * apply Forall_app. split; [done|]. by repeat constructor.
      * by destruct (rows w).
      * rewrite fmap_app. change (row_text <$> [[e]]) with [row_text [e]].
        rewrite join_snoc by done. cbn. by autorewrite with text.
    + destruct (rows w) as [|r0 rs0 _] using rev_ind; [done|].
      rewrite last_snoc. cbn [default].
      rewrite length_app. cbn [length]. rewrite Nat.add_sub, take_app_length.
      apply Forall_app in Hne as [Hrs [Hr0 _]%Forall_cons]. split; [split|].
      * apply Forall_app. split; [done|]. repeat constructor. by destruct r0.
      * intros _. by destruct rs0.
      * rewrite !fmap_app. change (row_text <$> [?r]) with [row_text r].
        rewrite row_text_app. change (row_text [e]) with (JSON_stringify e +:+ "").
        destruct rs0 as [|r1 rs0]; [cbn; by autorewrite with text|].
        rewrite !join_snoc by done. by autorewrite with text.
Qed.

(** ** The store's operations on the entries *)

Definition wal_flush (es : list WalEntry) (w : Wal) : Wal :=
  foldl (fun w e => wal_append e w) w es.

Definition holds (st : NonceStore) (w : Wal) : Prop := represents (walFile st) w.

Lemma flush_frame st :
  heap (flush st) = heap st /\ buffer (flush st) = [] /\
  waterMarkFile (flush st) = waterMarkFile st /\ flushThreshold (flush st) = flushThreshold st.
Proof.
  unfold flush. generalize (buffered st). intros es. revert st.
  induction es as [|e es IH]; intros st; [done|]. cbn [foldl].
  destruct (IH (set_walFile (appendFile (JSON_stringify e +:+ String NEWLINE "")) st))
    as (H1 & H2 & H3 & H4). by rewrite H1, H2, H3, H4.
Qed.

Lemma flush_holds st w : holds st w -> holds (flush st) (wal_flush (buffered st) w).
Proof.
  unfold flush, holds. generalize (buffered st). intros es. revert st w.
  induction es as [|e es IH]; intros st w Hst; [done|]. cbn [foldl].
  apply (IH (set_walFile _ st)). by apply represents_append.
Qed.

Lemma replay_holds st w :
  holds st w ->
  replayUnconfirmed st =
  match wal_entries (rows w) with
  | inr es => inr (filter (has_status "pending") es)
  | inl err => inl err
  end.
Proof.
  unfold holds, replayUnconfirmed. destruct (walFile st) as [text|].
  - intros Hr. by rewrite (represents_lines text w).
  - intros [_ ->]. done.
Qed.

Definition single (es : list WalEntry) : list (list WalEntry) := (fun e => [e]) <$> es.

Lemma wal_entries_single es : wal_entries (single es) = inr es.
Proof. induction es as [|e es IH]; [done|]. cbn. fold (single es). by rewrite IH. Qed.

Lemma wal_entries_inr rs es : wal_entries rs = inr es -> rs = single es.
Proof.
  revert es. induction rs as [|r rs IH]; intros es; cbn; [by intros [= <-]|].
  destruct r as [|e [|e' r]]; [done| |done]. destruct (wal_entries rs); [done|].
  intros [= <-]. cbn. f_equal. by apply IH.
Qed.

(** A log written by appends alone. *)
Definition logged (es : list WalEntry) : Wal := mkWal (single es) (negb (bool_decide (es = []))).

Lemma wal_append_logged e es : wal_append e (logged es) = logged (es ++ [e]).
Proof.
  unfold wal_append, logged. cbn [rows terminated].
  rewrite (bool_decide_false (es ++ [e] = [])) by (by destruct es).
  replace (bool_decide (single es = [])) with (bool_decide (es = [])) by (by destruct es).
  rewrite orb_comm, orb_negb_r. unfold single. by rewrite fmap_app.
Qed.

Lemma wal_flush_logged new es : wal_flush new (logged es) = logged (es ++ new).
Proof.
  revert es. induction new as [|e new IH]; intros es; [by rewrite app_nil_r|].
  cbn [wal_flush foldl]. fold (wal_flush new). rewrite wal_append_logged.
  change (wal_flush new (logged (es ++ [e])) = logged (es ++ e :: new)).
  by rewrite IH, <- app_assoc.
Qed.

(** A log that a purge has just rewritten. *)
Definition rewritten (es : list WalEntry) : Wal := mkWal (single es) false.

Lemma rewritten_represents es :
  represents (Some (join NEWLINE (JSON_stringify <$> es))) (rewritten es).
Proof.
  split; [split; [|done]|].
  - apply Forall_fmap, Forall_true. done.
  - unfold wal_text, rewritten. cbn [rows terminated]. rewrite app_nil_s. f_equal.
    unfold single. rewrite <- list_fmap_compose. apply list_fmap_ext.
    intros ? e _. cbn. by rewrite app_nil_s.
Qed.

(** Appends after a purge that kept something. *)
Lemma wal_append_rewritten e l es :
  wal_append e (rewritten (es ++ [l])) = mkWal (single es ++ [[l; e]]) true.
Proof.
  unfold wal_append, rewritten, single. cbn [rows terminated].
  rewrite fmap_app. change ((fun e => [e]) <$> [l]) with [[l]].
  rewrite bool_decide_false by (by destruct (_ <$> es)).
  rewrite last_snoc, length_app. cbn [length default app orb].
  by rewrite Nat.add_sub, take_app_length.
Qed.

Lemma wal_append_spliced e es l l' rs :
  wal_append e (mkWal (single es ++ [l; l'] :: rs) true)
  = mkWal (single es ++ [l; l'] :: (rs ++ [[e]])) true.
Proof. unfold wal_append. cbn. by rewrite <- app_assoc. Qed.

Lemma wal_flush_spliced new : forall es l l' rs,
  wal_entries (rows (wal_flush new (mkWal (single es ++ [l; l'] :: rs) true))) = inl SyntaxError.
Proof.
  induction new as [|e new IH]; intros es l l' rs.
  - cbn [wal_flush foldl rows]. induction es as [|x es IH]; [done|].
    cbn. fold (single es). by rewrite IH.
  - change (wal_flush (e :: new) ?w) with (wal_flush new (wal_append e w)).
    rewrite wal_append_spliced. apply IH.
Qed.

Lemma wal_flush_rewritten new es :
  es <> [] -> new <> [] ->
  wal_entries (rows (wal_flush new (rewritten es))) = inl SyntaxError.
Proof.
  intros Hes Hnew. destruct new as [|e new]; [done|].
  destruct es as [|l es _] using rev_ind; [done|].
  change (wal_flush (e :: new) ?w) with (wal_flush new (wal_append e w)).
  rewrite wal_append_rewritten. apply wal_flush_spliced.
Qed.

Lemma purge_holds st w upTo es kept :
  holds st w -> walFile st <> None ->
  BigInt_of_string upTo = Some es.1 -> wal_entries (rows w) = inr es.2 ->
  filterKept es.1 es.2 = inr kept ->
  exists st', purgeConfirmed upTo st = (st', inr tt) /\ holds st' (rewritten kept) /\
    heap st' = heap st /\ buffer st' = buffer st /\ waterMarkFile st' = waterMarkFile st.
Proof.
  unfold holds. intros Hw Hf Hu He Hk. destruct (walFile st) as [text|] eqn:Ef; [|done].
  eexists. unfold purgeConfirmed, bind, get, of_sum, put. rewrite Ef. unfold BigInt. rewrite Hu.
  rewrite (represents_lines text w) by done. rewrite He, Hk. cbn.
  split; [done|]. split; [apply rewritten_represents|done].
Qed.

(** [filterKept] on entries whose nonces are printed integers. *)
Definition nonced (e : WalEntry) : Prop := exists z, prop e "nonce" = Some (FStr (print_Z z)).
Definition nonce_of (e : WalEntry) : Z :=
  match BigInt (prop e "nonce") with inr z => z | inl _ => 0 end.

Definition above (upTo : Z) (e : WalEntry) : Prop :=
  ~ has_status "confirmed" e /\ upTo < nonce_of e.
#[export] Instance above_dec upTo e : Decision (above upTo e).
Proof. unfold above. apply _. Defined.

Lemma filterKept_nonced upTo es :
  Forall nonced es -> filterKept upTo es = inr (filter (above upTo) es).
Proof.
  induction 1 as [|e es [z Hz] Hes IH]; [done|]. cbn [filterKept]. unfold keeps.
  assert (En : nonce_of e = z) by (unfold nonce_of; by rewrite Hz; cbn; rewrite BigInt_print_Z).
  rewrite IH, filter_cons, Hz. cbn [BigInt]. rewrite BigInt_print_Z.
  assert (Ha : above upTo e <-> ~ has_status "confirmed" e /\ upTo < z)
    by (unfold above; by rewrite En).
  case_bool_decide; [case_decide; naive_solver|].
  destruct (Z.ltb_spec upTo z); case_decide as Hd; rewrite Ha in Hd; naive_solver lia.
Qed.

(** ** Properties *)

(** C21: the log is a faithful record as long as it is only appended to.  From a
    log file that holds exactly the lines of the entries [es], one after the other (a
    purged log does not, see [purge_spoils_next_flush]), flushing the buffer and opening a store on the
    files again leaves and reads back [es] followed by what the buffered objects held when
    they were flushed (not when they were appended), and [replayUnconfirmed] gives
    exactly the entries among them whose status is pending, in order, whatever
    characters their strings contain. *)
Theorem flushed_entries_replay st es :
  holds st (logged es) ->
  holds (flush st) (logged (es ++ buffered st)) /\
  buffer (flush st) = [] /\
  forall threshold,
    replayUnconfirmed (new_NonceStore (walFile (flush st)) (waterMarkFile (flush st)) threshold)
    = inr (filter (has_status "pending") (es ++ buffered st)).
Proof.
  intros Hst. pose proof (flush_holds st _ Hst) as Hf. rewrite wal_flush_logged in Hf.
  split; [done|]. split; [apply flush_frame|]. intros threshold.
  rewrite (replay_holds _ (logged (es ++ buffered st))) by exact Hf.
  unfold logged. cbn [rows]. by rewrite wal_entries_single.
Qed.

(** a purge spoils the log for the next append.  [purgeConfirmed] keeps the
    entries that are not confirmed and lie above the mark (so a pending entry at or
    below the mark is dropped), but ends the file without a newline: whenever it
    keeps an entry, the next flush of a non-empty buffer puts two entries on one
    line, and from then on [replayUnconfirmed], and with it every later start of
    the sequencer, throws. *)
Theorem purge_spoils_next_flush st es upTo :
  holds st (logged es) -> walFile st <> None -> Forall nonced es ->
  exists st', purgeConfirmed (print_Z upTo) st = (st', inr tt) /\
    replayUnconfirmed st' = inr (filter (has_status "pending") (filter (above upTo) es)) /\
    (filter (above upTo) es <> [] -> buffered st <> [] ->
       replayUnconfirmed (flush st') = inl SyntaxError).
Proof.
  intros Hst Hf Hn.
  destruct (purge_holds st (logged es) (print_Z upTo) (upTo, es) (filter (above upTo) es))
    as (st' & Hp & Hst' & Hh & Hb & _); [done|done|apply BigInt_print_Z| | |].
  - unfold logged. cbn [rows]. apply wal_entries_single.
  - by apply filterKept_nonced.
  - exists st'. split; [done|]. split.
    + rewrite (replay_holds _ _ Hst'). unfold rewritten. cbn [rows].
      by rewrite wal_entries_single.
    + intros Hk Hbuf. rewrite (replay_holds _ _ (flush_holds _ _ Hst')).
      rewrite wal_flush_rewritten; [done|done|].
      unfold buffered in *. by rewrite Hh, Hb.
Qed.

Module Examples.

Definition entry (n : Z) (status : string) : WalEntry := walEntry (print_Z n) "" 1700000000000 status.

(** Three entries, the second confirmed while it waited in the buffer. *)
Definition store3 : NonceStore :=
  mkStore [entry 0 "pending"; walEntry "1" "line
break" 5 "confirmed"; entry 2 "pending"] [0; 1; 2]%nat None None 64.

Lemma flushed_entries_replay_witness :
  holds store3 (logged []) /\
  replayUnconfirmed (new_NonceStore (walFile (flush store3)) (waterMarkFile (flush store3)) None)
  = inr [entry 0 "pending"; entry 2 "pending"].
Proof.
  assert (H : holds store3 (logged [])) by (split; [by split|done]).
  split; [exact H|]. apply (proj2 (proj2 (flushed_entries_replay store3 [] H)) None).
Defined.

(** Entries 0 to 2 are in the file, entry 3 waits; the purge is up to 0. *)
Definition purging : NonceStore :=
  mkStore (heap store3 ++ [entry 3 "pending"]) [3]%nat (walFile (flush store3)) None 64.

Lemma purge_spoils_next_flush_witness :
  exists st', purgeConfirmed (print_Z 0) purging = (st', inr tt) /\
    replayUnconfirmed (flush st') = inl SyntaxError.
Proof.
  assert (H : holds purging (logged (heap store3))).
  { split; [split; [by repeat constructor|done]|]. vm_compute. reflexivity. }
  destruct (purge_spoils_next_flush purging (heap store3) 0 H) as (st' & H1 & _ & H2).
  - done.
  - repeat constructor; [by exists 0|by exists 1|by exists 2].
  - exists st'. split; [exact H1|]. apply H2; vm_compute; discriminate.
Defined.
End Examples.
