(* ===== verification/SlashingSequencer.v ===== *)
(** * Slashing sequencer ([src/src/staking/slashing_sequencer.ts])

    [NonceSequencer] gives each slashing request the next nonce, logs it in the
    [NonceStore], submits the transaction (through the dead letter queue when it
    has one) and updates the log entry, the totals and the water mark with the
    answer.  A request is two steps, since the code awaits the submission between
    them: [beginRequest] up to the first call of the RPC client, [settle] from the
    end of the submission.  Steps of different requests interleave freely.  RPC
    answers, clock and rejected DLQ statements are arguments.  Tracing spans are
    left out; [sent] records what is handed to the RPC client. *)

From Stdlib Require Import ZArith Lia Ascii String.
From stdpp Require Import base numbers list strings gmap.
From S2P Require Import Prelude Js Text DeadLetterQueue NonceStore.

Definition NONCE_WINDOW_SIZE : nat := 1024.
Definition WAL_FLUSH_INTERVAL : Z := 64.

Record SlashingTx := mkTx {
  validatorId : string; misbehaviorType : string; evidence : string; signature : string
}.

Record SlashingResult := mkResult {
  r_validatorId : string; r_nonce : Z; r_txHash : string; r_success : bool;
  r_error : option string
}.

Record SlashingMetrics := mkSlashingMetrics {
  m_totalSubmitted : Z; m_totalConfirmed : Z; m_totalFailed : Z; m_currentNonce : string;
  m_pendingCount : Z
}.

(** [TransactionResult] of the RPC client, and a call that throws. *)
Record TransactionResult := mkTransactionResult {
  hash : string; success : bool; error : option (Z * string)
}.
Inductive RpcAnswer := Answer (r : TransactionResult) | RpcThrows (e : ErrorValue).

Record SlashingProcessingMessage := mkMessage {
  msg_tx : SlashingTx; msg_nonce : string; txPayload : string
}.

(** What the RPC client is asked to send: a built transaction, or the [txHash]
    member of a replayed entry. *)
Inductive Sent := Built (payload : string) | Resent (txHash : option jfield).

(** A request whose submission has not ended, with its log entry. *)
Record Request := mkRequest { rq_entry : nat; rq_tx : SlashingTx; rq_nonce : Z }.

Record NonceSequencer := mkSeq {
  nonceStore : NonceStore;
  headPointer : Z;
  waterMark : Z;
  walFlushCounter : Z;
  totalSubmitted : Z;
  totalConfirmed : Z;
  totalFailed : Z;
  pendingCount : Z;
  dlqManager : option (Dlq SlashingProcessingMessage);
  requests : list Request;
  resubmits : list WalEntry;      (* replayed entries awaiting their answer *)
  sent : list Sent
}.

Abbreviation NM := (M NonceSequencer WalError).

Definition set_store f s := mkSeq (f (nonceStore s)) (headPointer s) (waterMark s)
  (walFlushCounter s) (totalSubmitted s) (totalConfirmed s) (totalFailed s) (pendingCount s)
  (dlqManager s) (requests s) (resubmits s) (sent s).
Definition set_waterMark f s := mkSeq (nonceStore s) (headPointer s) (f (waterMark s))
  (walFlushCounter s) (totalSubmitted s) (totalConfirmed s) (totalFailed s) (pendingCount s)
  (dlqManager s) (requests s) (resubmits s) (sent s).
Definition set_dlq f s := mkSeq (nonceStore s) (headPointer s) (waterMark s)
  (walFlushCounter s) (totalSubmitted s) (totalConfirmed s) (totalFailed s) (pendingCount s)
  (f (dlqManager s)) (requests s) (resubmits s) (sent s).
Definition set_requests f s := mkSeq (nonceStore s) (headPointer s) (waterMark s)
  (walFlushCounter s) (totalSubmitted s) (totalConfirmed s) (totalFailed s) (pendingCount s)
  (dlqManager s) (f (requests s)) (resubmits s) (sent s).
Definition set_resubmits f s := mkSeq (nonceStore s) (headPointer s) (waterMark s)
  (walFlushCounter s) (totalSubmitted s) (totalConfirmed s) (totalFailed s) (pendingCount s)
  (dlqManager s) (requests s) (f (resubmits s)) (sent s).
Definition log_sent (x : list Sent) s := mkSeq (nonceStore s) (headPointer s) (waterMark s)
  (walFlushCounter s) (totalSubmitted s) (totalConfirmed s) (totalFailed s) (pendingCount s)
  (dlqManager s) (requests s) (resubmits s) (sent s ++ x).
(** Add to the totals of submitted, confirmed, failed and pending. *)
Definition count (ds dc df dp : Z) s := mkSeq (nonceStore s) (headPointer s) (waterMark s)
  (walFlushCounter s) (totalSubmitted s + ds) (totalConfirmed s + dc) (totalFailed s + df)
  (pendingCount s + dp) (dlqManager s) (requests s) (resubmits s) (sent s).
(** [this.pendingCount = Math.max(0, this.pendingCount - 1)] *)
Definition one_less_pending s := mkSeq (nonceStore s) (headPointer s) (waterMark s)
  (walFlushCounter s) (totalSubmitted s) (totalConfirmed s) (totalFailed s)
  (Z.max 0 (pendingCount s - 1)) (dlqManager s) (requests s) (resubmits s) (sent s).

(** ** Submission *)

Definition buildTx (tx : SlashingTx) (nonce : Z) : string :=
  JSON_stringify [("nonce", FStr (print_Z nonce)); ("validatorId", FStr (validatorId tx));
    ("misbehaviorType", FStr (misbehaviorType tx)); ("evidence", FStr (evidence tx));
    ("signature", FStr (signature tx))].

(** [new SlashingSubmissionError(result)]; its stack trace is left out. *)
Definition submissionError (r : TransactionResult) : ErrorValue :=
  IsError "SlashingSubmissionError"
    (match error r with Some (_, m) => m | None => "Unknown slashing submission failure" end) None.

(** The handler on the k-th call of the RPC client. *)
Definition handlerOf (rpc : nat -> RpcAnswer) (k : nat) : ErrorValue + TransactionResult :=
  match rpc k with
  | Answer r => if success r then inr r else inl (submissionError r)
  | RpcThrows e => inl e
  end.

(** [err instanceof Error ? err.message : String(err)] *)
Definition errorText (e : ErrorValue) : string :=
  match e with IsError _ message _ => message | NotError _ text => text end.

Definition rpcFailure (message : string) : TransactionResult :=
  mkTransactionResult "" false (Some (-32000, message)).

(** The [catch] of [submitWithRetry]; a [SlashingSubmissionError] is the one made
    of the last answer. *)
Definition caught (lastAnswer : RpcAnswer) (err : DlqError) : TransactionResult :=
  match err with
  | Thrown e => match lastAnswer with
                | Answer r => r
                | RpcThrows e' => rpcFailure (errorText e')
                end
  | RepositoryError => rpcFailure (errorText DB_ERROR)
  | EntryNotFound => rpcFailure ""
  | MessageProcessingError => rpcFailure "message processing failed without captured error"
  end.

(** The answer, the queue afterwards, and the number of calls made. *)
Definition submitWithRetry (now : Z) (fault : bool) (rpc : nat -> RpcAnswer)
    (message : SlashingProcessingMessage) (dlq : option (Dlq SlashingProcessingMessage))
    : TransactionResult * option (Dlq SlashingProcessingMessage) * nat :=
  match dlq with
  | Some q =>
      match process now fault "slashing_request" message (handlerOf rpc) None None q with
      | (q', inr r) => (r, Some q', calls q' - calls q)%nat
      | (q', inl err) =>
          (caught (rpc (calls q' - calls q - 1)%nat) err, Some q', calls q' - calls q)%nat
      end
  | None =>
      match handlerOf rpc 0 with
      | inr r => (r, None, 1%nat)
      | inl e => (caught (rpc 0%nat) (Thrown e), None, 1%nat)
      end
  end.

(** ** Requests *)

Definition reserveNonce : NM Z :=
  let! s := get in
  let nonce := headPointer s in
  let counter := walFlushCounter s + 1 in
  put (mkSeq (if counter mod WAL_FLUSH_INTERVAL =? 0 then flush (nonceStore s) else nonceStore s)
         (headPointer s + 1) (waterMark s) counter (totalSubmitted s) (totalConfirmed s)
         (totalFailed s) (pendingCount s) (dlqManager s) (requests s) (resubmits s) (sent s)) ;;;
  ret nonce.

Definition advanceWaterMark_ : NM unit :=
  modify (set_waterMark (fun m => m + 1)) ;;;
  let! s := get in
  if walFlushCounter s mod WAL_FLUSH_INTERVAL =? 0 then
    modify (set_store (advanceWaterMark (print_Z (waterMark s)))) ;;;
    zoom nonceStore (fun st => set_store (fun _ => st)) id
      (purgeConfirmed (print_Z (waterMark s)))
  else ret tt.

(** [onSlashingRequest] up to the first call of the RPC client. *)
Definition beginRequest (tx : SlashingTx) (now : Z) : NM unit :=
  let! nonce := reserveNonce in
  let! s := get in
  let entry := length (heap (nonceStore s)) in
  modify (set_store (set_heap (fun h => h ++ [walEntry (print_Z nonce) "" now "pending"]))) ;;;
  modify (set_store (append entry)) ;;;
  modify (set_requests (fun l => l ++ [mkRequest entry tx nonce])) ;;;
  modify (log_sent [Built (buildTx tx nonce)]).

(** [walEntry.key = v] on the request's entry *)
Definition updateEntry (r : Request) (key v : string) : NM unit :=
  modify (set_store (set_heap (alter (set_prop key (FStr v)) (rq_entry r)))).

(** The rest of [onSlashingRequest], once the submission of [r] has ended. *)
Definition settle (i : nat) (r : Request) (now : Z) (fault : bool) (rpc : nat -> RpcAnswer)
    : NM SlashingResult :=
  let! s := get in
  let tx := rq_tx r in
  let payload := buildTx tx (rq_nonce r) in
  let message := mkMessage tx (print_Z (rq_nonce r)) payload in
  let '(result, dlq', called) := submitWithRetry now fault rpc message (dlqManager s) in
  modify (fun s => set_requests (delete i) (set_dlq (fun _ => dlq')
            (log_sent (replicate (called - 1) (Built payload)) s))) ;;;
  modify (count 1 0 0 0) ;;;
  if success result then
    updateEntry r "txHash" (hash result) ;;;
    updateEntry r "status" "confirmed" ;;;
    modify (count 0 1 0 0) ;;;
    modify one_less_pending ;;;
    advanceWaterMark_ ;;;
    ret (mkResult (validatorId tx) (rq_nonce r) (hash result) true None)
  else
    updateEntry r "status" "failed" ;;;
    modify (count 0 0 1 0) ;;;
    modify one_less_pending ;;;
    ret (mkResult (validatorId tx) (rq_nonce r) "" false
      (Some (match error result with Some (_, m) => m | None => "Unknown error" end))).

(** ** Start: the water mark, and resubmission of the log *)

Definition resubmitEntry (e : WalEntry) (s : NonceSequencer) : NonceSequencer :=
  log_sent [Resent (prop e "txHash")] (set_resubmits (fun l => l ++ [e]) (count 1 0 0 1 s)).

(** [resubmitEntry] after its await; nothing else refers to the entry.  A throw is
    an unhandled rejection. *)
Definition resubmitted (i : nat) (answer : RpcAnswer) (s : NonceSequencer) : NonceSequencer :=
  let s' := set_resubmits (delete i) s in
  match answer with
  | Answer r => one_less_pending (if success r then count 0 1 0 0 s' else count 0 0 1 0 s')
  | RpcThrows _ => s'
  end.

Definition new_NonceSequencer (store : NonceStore)
    (dlq : option (Dlq SlashingProcessingMessage)) : WalError + NonceSequencer :=
  match BigInt (getWaterMark store) with
  | inl err => inl err
  | inr mark =>
      match replayUnconfirmed store with
      | inl err => inl err
      | inr unconfirmed =>
          inr (foldl (fun s e => resubmitEntry e s)
                 (mkSeq store mark mark 0 0 0 0 0 dlq [] [] []) unconfirmed)
      end
  end.

Definition getMetrics (s : NonceSequencer) : SlashingMetrics :=
  mkSlashingMetrics (totalSubmitted s) (totalConfirmed s) (totalFailed s)
    (print_Z (headPointer s)) (pendingCount s).

(** ** Runs

    One process: requests begin and end, resubmissions are answered. *)

Inductive seq_step : NonceSequencer -> NonceSequencer -> Prop :=
  | step_begin s tx now : seq_step s (fst (beginRequest tx now s))
  | step_settle s i r now fault rpc :
      requests s !! i = Some r -> seq_step s (fst (settle i r now fault rpc s))
  | step_resubmitted s i e answer :
      resubmits s !! i = Some e -> seq_step s (resubmitted i answer s).

(** The next process on the same files; what was in memory is lost. *)
Definition restart (threshold : option nat) (dlq : option (Dlq SlashingProcessingMessage))
    (s : NonceSequencer) : WalError + NonceSequencer :=
  new_NonceSequencer
    (new_NonceStore (walFile (nonceStore s)) (waterMarkFile (nonceStore s)) threshold) dlq.

Inductive world_step : NonceSequencer -> NonceSequencer -> Prop :=
  | world_seq s s' : seq_step s s' -> world_step s s'
  | world_restart s threshold dlq s' : restart threshold dlq s = inr s' -> world_step s s'.

(** A sequencer on an empty data directory. *)
Definition fresh (threshold : option nat) (dlq : option (Dlq SlashingProcessingMessage))
    : NonceSequencer :=
  mkSeq (new_NonceStore None None threshold) 0 0 0 0 0 0 0 dlq [] [] [].

Lemma new_NonceSequencer_fresh threshold dlq :
  new_NonceSequencer (new_NonceStore None None threshold) dlq = inr (fresh threshold dlq).
Proof. done. Qed.

(** ** [NonceWindow] *)

Record NonceWindow := mkWindow { slots : list (option Z); head : nat; size : nat }.

Definition new_NonceWindow (size : option nat) : NonceWindow :=
  let n := default NONCE_WINDOW_SIZE size in mkWindow (replicate n None) 0 n.

(** The loop of [claim] from [i] on; [left] iterations remain. *)
Fixpoint claimLoop (w : NonceWindow) (left i : nat) : NonceWindow * option Z :=
  match left with
  | O => (w, None)
  | S left' =>
      let index := ((head w + i) mod size w)%nat in
      match slots w !! index with
      | Some None =>
          (mkWindow (<[index := Some (Z.of_nat index)]> (slots w))
             ((index + 1) mod size w)%nat (size w), Some (Z.of_nat index))
      | _ => claimLoop w left' (S i)
      end
  end.

Definition claim (w : NonceWindow) : NonceWindow * option Z := claimLoop w (size w) 0.

(** [release]; [%] on a bigint truncates, and 0 divides nothing. *)
Definition release (nonce : Z) (w : NonceWindow) : option NonceWindow :=
  if (size w =? 0)%nat then None else
  let index := Z.rem nonce (Z.of_nat (size w)) in
  if (0 <=? index) && bool_decide (slots w !! Z.to_nat index = Some (Some nonce))
  then Some (mkWindow (<[Z.to_nat index := None]> (slots w)) (head w) (size w))
  else Some w.

(** ** What each step leaves behind *)

Lemma append_frame ref st :
  heap (append ref st) = heap st /\ waterMarkFile (append ref st) = waterMarkFile st.
Proof.
  unfold append. case_match; [|done].
  destruct (flush_frame (set_buffer (fun b => b ++ [ref]) st)) as (-> & _ & -> & _). done.
Qed.

Lemma purge_frame upTo st :
  let st' := fst (purgeConfirmed upTo st) in
  heap st' = heap st /\ buffer st' = buffer st /\ waterMarkFile st' = waterMarkFile st /\
  flushThreshold st' = flushThreshold st.
Proof.
  unfold purgeConfirmed, bind, get, of_sum, put, ret.
  repeat (case_match; simplify_eq/=; try done).
Qed.

(** The store with which a new request is logged. *)
Definition loggedStore (now : Z) (s : NonceSequencer) : NonceStore :=
  let st := if (walFlushCounter s + 1) mod WAL_FLUSH_INTERVAL =? 0
            then flush (nonceStore s) else nonceStore s in
  append (length (heap st))
    (set_heap (fun h => h ++ [walEntry (print_Z (headPointer s)) "" now "pending"]) st).

Lemma beginRequest_eq tx now s :
  beginRequest tx now s =
  (mkSeq (loggedStore now s) (headPointer s + 1) (waterMark s) (walFlushCounter s + 1)
     (totalSubmitted s) (totalConfirmed s) (totalFailed s) (pendingCount s) (dlqManager s)
     (requests s ++ [mkRequest (length (heap (nonceStore s))) tx (headPointer s)])
     (resubmits s) (sent s ++ [Built (buildTx tx (headPointer s))]), inr tt).
Proof.
  unfold beginRequest, reserveNonce, loggedStore, bind, get, put, modify, ret. cbn.
  do 4 f_equal. case_match; [|done]. by destruct (flush_frame (nonceStore s)) as (-> & _).
Qed.

Lemma heap_loggedStore now s :
  heap (loggedStore now s)
  = heap (nonceStore s) ++ [walEntry (print_Z (headPointer s)) "" now "pending"].
Proof.
  unfold loggedStore. rewrite (proj1 (append_frame _ _)). cbn.
  case_match; [|done]. by destruct (flush_frame (nonceStore s)) as (-> & _).
Qed.

(** The fields that only requests and resubmissions change. *)
Record frame (s s' : NonceSequencer) : Prop := {
  f_head : headPointer s' = headPointer s;
  f_counter : walFlushCounter s' = walFlushCounter s;
  f_heap : heap (nonceStore s') = heap (nonceStore s);
  f_buffer : buffer (nonceStore s') = buffer (nonceStore s);
  f_submitted : totalSubmitted s' = totalSubmitted s;
  f_confirmed : totalConfirmed s' = totalConfirmed s;
  f_failed : totalFailed s' = totalFailed s;
  f_pending : pendingCount s' = pendingCount s;
  f_dlq : dlqManager s' = dlqManager s;
  f_requests : requests s' = requests s;
  f_resubmits : resubmits s' = resubmits s;
  f_sent : sent s' = sent s
}.

Lemma advance_frame s :
  frame s (fst (advanceWaterMark_ s)) /\
  waterMark (fst (advanceWaterMark_ s)) = waterMark s + 1.
Proof.
  unfold advanceWaterMark_, bind, modify, get, zoom. cbn -[purgeConfirmed].
  case_match; [|by repeat split]. cbn -[purgeConfirmed].
  set (st := advanceWaterMark _ _). pose proof (purge_frame (print_Z (waterMark s + 1)) st) as H'.
  destruct (purgeConfirmed (print_Z (waterMark s + 1)) st) as [st' r].
  destruct H' as (H1 & H2 & _). cbn in *. destruct r; by repeat split.
Qed.

(** The state in which [settle] has recorded the answer. *)
Definition recorded (i : nat) (r : Request) (result : TransactionResult)
    (dlq' : option (Dlq SlashingProcessingMessage)) (called : nat) (s : NonceSequencer)
    : NonceSequencer :=
  let s1 := count 1 0 0 0 (set_requests (delete i) (set_dlq (fun _ => dlq')
    (log_sent (replicate (called - 1) (Built (buildTx (rq_tx r) (rq_nonce r)))) s))) in
  let set k v := set_store (set_heap (alter (set_prop k (FStr v)) (rq_entry r))) in
  if success result
  then one_less_pending (count 0 1 0 0 (set "status" "confirmed" (set "txHash" (hash result) s1)))
  else one_less_pending (count 0 0 1 0 (set "status" "failed" s1)).

Definition submission (r : Request) now fault rpc s :=
  submitWithRetry now fault rpc
    (mkMessage (rq_tx r) (print_Z (rq_nonce r)) (buildTx (rq_tx r) (rq_nonce r))) (dlqManager s).

Lemma settle_eq i r now fault rpc s result dlq' called :
  submission r now fault rpc s = (result, dlq', called) ->
  let s1 := recorded i r result dlq' called s in
  settle i r now fault rpc s =
  if success result then
    (advanceWaterMark_ ;;;
     ret (mkResult (validatorId (rq_tx r)) (rq_nonce r) (hash result) true None)) s1
  else (s1, inr (mkResult (validatorId (rq_tx r)) (rq_nonce r) "" false
          (Some (match error result with Some (_, m) => m | None => "Unknown error" end)))).
Proof.
  intros E. unfold settle, recorded. unfold submission in E.
  unfold bind at 1, get. rewrite E. destruct (success result); done.
Qed.

Lemma settle_state i r now fault rpc s result dlq' called :
  submission r now fault rpc s = (result, dlq', called) ->
  let s1 := recorded i r result dlq' called s in
  let s' := fst (settle i r now fault rpc s) in
  frame s1 s' /\
  waterMark s' = waterMark s + (if success result then 1 else 0) /\
  (nonceStore s' = nonceStore s1 \/
   nonceStore s' = nonceStore (fst (advanceWaterMark_ s1))).
Proof.
  intros E. rewrite (settle_eq _ _ _ _ _ _ _ _ _ E).
  assert (Ew : waterMark (recorded i r result dlq' called s) = waterMark s)
    by (unfold recorded; by destruct (success result)).
  destruct (success result).
  - unfold bind, ret.
    destruct (advance_frame (recorded i r result dlq' called s)) as [Hf Hw].
    destruct (advanceWaterMark_ _) as [s' [e|[]]]; cbn in *;
      rewrite Hw, Ew; auto.
  - cbn. rewrite Ew, Z.add_0_r. split; [by repeat split|auto].
Qed.

(** Setting a member of an entry of the heap. *)
Lemma heap_set_prop (key : string) v ref (h : list WalEntry) k e :
  alter (set_prop key v) ref h !! k = Some e ->
  exists e0, h !! k = Some e0 /\ e = if decide (k = ref) then set_prop key v e0 else e0.
Proof.
  destruct (decide (k = ref)) as [->|Hne].
  - rewrite list_lookup_alter_eq. destruct (h !! ref) as [e0|]; [|done].
    intros [= <-]. eauto.
  - rewrite list_lookup_alter_ne by done. eauto.
Qed.

Lemma prop_set_prop key key' v e :
  prop (set_prop key v e) key' = if decide (key = key') then Some v else prop e key'.
Proof.
  unfold prop, set_prop.
  change (<[key := v]> (JsMap e) !! key' = if decide (key = key') then Some v else JsMap e !! key').
  apply jsmap_lookup_insert.
Qed.

(** Recording an answer keeps every nonce, and only the request's own entry
    changes: it is no longer pending. *)
Lemma recorded_heap i r result dlq' called s k e :
  heap (nonceStore (recorded i r result dlq' called s)) !! k = Some e ->
  exists e0, heap (nonceStore s) !! k = Some e0 /\
    prop e "nonce" = prop e0 "nonce" /\
    (e = e0 \/ k = rq_entry r /\ ~ has_status "pending" e).
Proof.
  unfold recorded, has_status. destruct (success result); cbn.
  - intros (e1 & (e0 & He0 & ->)%heap_set_prop & ->)%heap_set_prop. exists e0.
    split; [done|]. case_decide; [|auto]. rewrite !prop_set_prop. auto.
  - intros (e0 & He0 & ->)%heap_set_prop. exists e0. split; [done|].
    case_decide; [|auto]. rewrite !prop_set_prop. auto.
Qed.

Lemma recorded_fields i r result dlq' called s :
  let s1 := recorded i r result dlq' called s in
  headPointer s1 = headPointer s /\ walFlushCounter s1 = walFlushCounter s /\
  requests s1 = delete i (requests s) /\ resubmits s1 = resubmits s /\
  totalSubmitted s1 = totalSubmitted s + 1 /\
  totalConfirmed s1 = totalConfirmed s + (if success result then 1 else 0) /\
  totalFailed s1 = totalFailed s + (if success result then 0 else 1) /\
  pendingCount s1 = Z.max 0 (pendingCount s - 1) /\
  sent s1 = sent s ++ replicate (called - 1) (Built (buildTx (rq_tx r) (rq_nonce r))) /\
  length (heap (nonceStore s1)) = length (heap (nonceStore s)) /\
  buffer (nonceStore s1) = buffer (nonceStore s) /\
  walFile (nonceStore s1) = walFile (nonceStore s) /\
  waterMarkFile (nonceStore s1) = waterMarkFile (nonceStore s).
Proof.
  cbn zeta. unfold recorded.
  destruct (success result); cbn; rewrite ?length_alter; repeat split; lia.
Qed.

(** ** Nonces of one process *)

Record numbered (h0 : Z) (s : NonceSequencer) : Prop := {
  n_head : headPointer s = h0 + Z.of_nat (length (heap (nonceStore s)));
  n_counter : walFlushCounter s = Z.of_nat (length (heap (nonceStore s)));
  n_heap : forall k e, heap (nonceStore s) !! k = Some e ->
             prop e "nonce" = Some (FStr (print_Z (h0 + Z.of_nat k)));
  n_requests : Forall (fun r => rq_nonce r = h0 + Z.of_nat (rq_entry r) /\
                                (rq_entry r < length (heap (nonceStore s)))%nat) (requests s);
  n_distinct : NoDup (rq_entry <$> requests s)
}.

Lemma NoDup_delete {A} (l : list A) i : NoDup l -> NoDup (delete i l).
Proof. intros. eapply sublist_NoDup; [done|apply sublist_delete]. Qed.

Lemma foldl_resubmit es s :
  let s' := foldl (fun s e => resubmitEntry e s) s es in
  nonceStore s' = nonceStore s /\ headPointer s' = headPointer s /\
  waterMark s' = waterMark s /\ walFlushCounter s' = walFlushCounter s /\
  requests s' = requests s /\ resubmits s' = resubmits s ++ es /\
  totalConfirmed s' = totalConfirmed s /\ totalFailed s' = totalFailed s /\
  totalSubmitted s' = totalSubmitted s + Z.of_nat (length es) /\
  pendingCount s' = pendingCount s + Z.of_nat (length es) /\
  sent s' = sent s ++ ((fun e => Resent (prop e "txHash")) <$> es).
Proof.
  revert s. induction es as [|e es IH]; intros s.
  - cbn. rewrite !app_nil_r. repeat split; lia.
  - cbn [foldl]. destruct (IH (resubmitEntry e s))
      as (-> & -> & -> & -> & -> & -> & -> & -> & -> & -> & ->).
    unfold resubmitEntry. cbn [length fmap list_fmap]. cbn.
    rewrite <- !app_assoc. cbn. repeat split; lia.
Qed.

(** A sequencer as the constructor leaves it. *)
Definition started (s : NonceSequencer) : Prop :=
  exists wal mark threshold dlq,
    new_NonceSequencer (new_NonceStore wal mark threshold) dlq = inr s.

Lemma started_fields s :
  started s ->
  heap (nonceStore s) = [] /\ buffer (nonceStore s) = [] /\ requests s = [] /\
  headPointer s = waterMark s /\ walFlushCounter s = 0 /\
  totalConfirmed s = 0 /\ totalFailed s = 0 /\
  totalSubmitted s = Z.of_nat (length (resubmits s)) /\
  pendingCount s = Z.of_nat (length (resubmits s)) /\
  sent s = (fun e => Resent (prop e "txHash")) <$> resubmits s /\
  replayUnconfirmed (nonceStore s) = inr (resubmits s).
Proof.
  intros (wal & mark & threshold & dlq & H). unfold new_NonceSequencer in H.
  destruct (BigInt _) as [|h0]; [done|].
  destruct (replayUnconfirmed (new_NonceStore wal mark threshold)) as [|es] eqn:Er; [done|].
  injection H as H.
  pose proof (foldl_resubmit es (mkSeq (new_NonceStore wal mark threshold) h0 h0 0 0 0 0 0 dlq
    [] [] [])) as Hs. cbn zeta in Hs. rewrite H in Hs.
  destruct Hs as (-> & -> & -> & -> & -> & -> & -> & -> & -> & -> & ->). done.
Qed.

Lemma numbered_started s : started s -> numbered (headPointer s) s.
Proof.
  intros (Hh & _ & Hr & _ & Hc & _)%started_fields.
  constructor; rewrite ?Hh, ?Hr, ?Hc; cbn; (lia || done || by constructor).
Qed.

Lemma numbered_step h0 s s' : seq_step s s' -> numbered h0 s -> numbered h0 s'.
Proof.
  intros Hstep [H1 H2 H3 H4 H5]. destruct Hstep as [s tx now|s i r now fault rpc Hr|s i e answer He].
  - rewrite beginRequest_eq. cbn [fst]. constructor;
      cbn [nonceStore headPointer walFlushCounter requests];
      rewrite ?heap_loggedStore, ?length_app; cbn [length]; [lia|lia| | |].
    + intros k e [Hk|[Hk Hx]]%lookup_app_Some; [by apply H3|].
      apply list_lookup_singleton_Some in Hx as [Hx <-]. cbn. do 3 f_equal. lia.
    + apply Forall_app. split; [|repeat constructor; cbn; lia].
      eapply Forall_impl; [exact H4|]. cbn. lia.
    + rewrite fmap_app. cbn. apply NoDup_app. split; [done|]. split; [|apply NoDup_singleton].
      intros k (r & -> & Hin)%list_elem_of_fmap. rewrite Forall_forall in H4.
      destruct (H4 _ Hin) as [_ Hlt]. rewrite list_elem_of_singleton. lia.
  - destruct (submission r now fault rpc s) as [[result dlq'] called] eqn:E.
    destruct (settle_state i _ _ _ _ _ _ _ _ E) as (Hf & _).
    destruct (recorded_fields i r result dlq' called s) as (R1 & R2 & R3 & _ & _ & _ & _ & _ & _ & R4 & _).
    destruct Hf. constructor; rewrite ?f_head0, ?f_counter0, ?f_heap0, ?f_requests0, ?R1, ?R2, ?R3, ?R4; try lia.
    + intros k e (e0 & He0 & -> & _)%recorded_heap. by apply H3.
    + by apply Forall_delete.
    + rewrite list_fmap_delete. by apply NoDup_delete.
  - unfold resubmitted. destruct answer as [a|x]; [destruct (success a)|]; by constructor.
Qed.

Lemma numbered_run h0 s s' : rtc seq_step s s' -> numbered h0 s -> numbered h0 s'.
Proof. induction 1; eauto using numbered_step. Qed.

(** ** Totals of a process that had nothing to resubmit *)

Record accounted (m0 : Z) (s : NonceSequencer) : Prop := {
  a_resubmits : resubmits s = [];
  a_total : totalSubmitted s = totalConfirmed s + totalFailed s;
  a_begun : Z.of_nat (length (heap (nonceStore s)))
            = totalSubmitted s + Z.of_nat (length (requests s));
  a_mark : waterMark s = m0 + totalConfirmed s;
  a_pending : pendingCount s = 0
}.

Lemma accounted_started s : started s -> resubmits s = [] -> accounted (waterMark s) s.
Proof.
  intros (H1 & _ & H2 & _ & _ & H3 & H4 & H5 & H6 & _)%started_fields Hn.
  rewrite Hn in *. constructor; rewrite ?H1, ?H2, ?H3, ?H4, ?H5, ?H6; cbn; lia || done.
Qed.

Lemma length_delete_lookup {A} (l : list A) i x :
  l !! i = Some x -> Z.of_nat (length (delete i l)) = Z.of_nat (length l) - 1.
Proof.
  intros Hx. pose proof (length_delete l i (mk_is_Some _ _ Hx)).
  apply lookup_lt_Some in Hx. lia.
Qed.

Lemma accounted_step m0 s s' : seq_step s s' -> accounted m0 s -> accounted m0 s'.
Proof.
  intros Hstep [H1 H2 H3 H4 H5]. destruct Hstep as [s tx now|s i r now fault rpc Hr|s i e answer He].
  - rewrite beginRequest_eq. constructor; cbn; rewrite ?heap_loggedStore, ?length_app; cbn; lia || done.
  - destruct (submission r now fault rpc s) as [[result dlq'] called] eqn:E.
    destruct (settle_state i _ _ _ _ _ _ _ _ E) as (Hf & Hw & _).
    destruct (recorded_fields i r result dlq' called s)
      as (_ & _ & R1 & R2 & R3 & R4 & R5 & R6 & _ & R7 & _).
    pose proof (length_delete_lookup _ _ _ Hr).
    destruct Hf. constructor; rewrite ?Hw, ?f_resubmits0, ?f_submitted0, ?f_confirmed0, ?f_failed0,
      ?f_pending0, ?f_heap0, ?f_requests0, ?R1, ?R2, ?R3, ?R4, ?R5, ?R6, ?R7; try done;
      destruct (success result); lia.
  - by rewrite H1 in He.
Qed.

Lemma accounted_run m0 s s' : rtc seq_step s s' -> accounted m0 s -> accounted m0 s'.
Proof. induction 1; eauto using accounted_step. Qed.

(** ** What the log can hold *)

(** A pending entry has no transaction hash. *)
Definition hashless (e : WalEntry) : Prop :=
  has_status "pending" e -> prop e "txHash" = Some (FStr "").

Definition resent_nothing (x : Sent) : Prop :=
  match x with Resent h => h = Some (FStr "") | Built _ => True end.

Record hashless_log (s : NonceSequencer) : Prop := {
  h_heap : Forall hashless (heap (nonceStore s));
  h_wal : exists w, holds (nonceStore s) w /\ Forall (Forall hashless) (rows w);
  h_sent : Forall resent_nothing (sent s)
}.

Lemma wal_append_hashless e w :
  hashless e -> Forall (Forall hashless) (rows w) -> Forall (Forall hashless) (rows (wal_append e w)).
Proof.
  intros He Hw. unfold wal_append. case_match; cbn [rows]; apply Forall_app; split.
  - done.
  - by repeat constructor.
  - by apply Forall_take.
  - repeat constructor. apply Forall_app. split; [|by repeat constructor].
    destruct (last (rows w)) as [r|] eqn:El; cbn; [|done].
    rewrite Forall_forall in Hw. apply Hw. by apply last_Some_elem_of.
Qed.

Definition hashless_store (st : NonceStore) : Prop :=
  Forall hashless (heap st) /\ exists w, holds st w /\ Forall (Forall hashless) (rows w).

Lemma wal_flush_hashless es w :
  Forall hashless es -> Forall (Forall hashless) (rows w) ->
  Forall (Forall hashless) (rows (wal_flush es w)).
Proof.
  intros Hes. revert w. induction Hes as [|e es He Hes IH]; intros w Hw; [done|].
  change (wal_flush (e :: es) w) with (wal_flush es (wal_append e w)).
  apply IH. by apply wal_append_hashless.
Qed.

Lemma flush_hashless st : hashless_store st -> hashless_store (flush st).
Proof.
  intros (Hh & w & Hw & Hr). split; [by destruct (flush_frame st) as (-> & _)|].
  eexists. split; [by apply flush_holds|]. apply wal_flush_hashless; [|done].
  apply Forall_forall. intros e (r & _ & He)%list_elem_of_omap.
  rewrite Forall_forall in Hh. apply Hh. by eapply list_elem_of_lookup_2.
Qed.

Lemma append_hashless ref st : hashless_store st -> hashless_store (append ref st).
Proof. intros H. unfold append. case_match; [by apply flush_hashless|done]. Qed.

Lemma set_heap_hashless f st :
  hashless_store st -> Forall hashless (f (heap st)) -> hashless_store (set_heap f st).
Proof. intros (_ & w & Hw & Hr) Hf. split; [done|]. by exists w. Qed.

Lemma filterKept_subset upTo es kept : filterKept upTo es = inr kept -> forall e, e ∈ kept -> e ∈ es.
Proof.
  revert kept. induction es as [|e es IH]; intros kept; cbn; [by intros [= <-]|].
  destruct (keeps upTo e) as [|b]; [done|]. destruct (filterKept upTo es) as [|rest]; [done|].
  intros [= <-] x. specialize (IH rest eq_refl x). destruct b; rewrite ?elem_of_cons; naive_solver.
Qed.

Lemma purge_hashless upTo st :
  hashless_store st -> hashless_store (fst (purgeConfirmed upTo st)).
Proof.
  intros (Hh & w & Hw & Hr).
  destruct (purge_frame upTo st) as (Hph & _).
  split; [by rewrite Hph|]. clear Hph.
  unfold purgeConfirmed, bind, get, of_sum, put, ret.
  destruct (walFile st) as [text|] eqn:Ef; [|eauto].
  destruct (BigInt _) as [|mark]; [eauto|].
  unfold holds in Hw. rewrite Ef in Hw. rewrite (represents_lines text w Hw).
  destruct (wal_entries (rows w)) as [|es] eqn:Ee.
  { exists w. split; [|done]. unfold holds. cbn. by rewrite Ef. }
  destruct (filterKept mark es) as [|kept] eqn:Ek.
  { exists w. split; [|done]. unfold holds. cbn. by rewrite Ef. }
  exists (rewritten kept). split; [apply rewritten_represents|].
  apply wal_entries_inr in Ee. unfold rewritten. cbn [rows].
  apply Forall_fmap, Forall_forall. intros e Hin. cbn. repeat constructor.
  eapply filterKept_subset in Ek; [|done]. rewrite Ee in Hr. unfold single in Hr.
  rewrite Forall_fmap, Forall_forall in Hr. specialize (Hr e Ek). cbn in Hr. by inv Hr.
Qed.

Lemma advance_hashless s :
  hashless_store (nonceStore s) -> hashless_store (nonceStore (fst (advanceWaterMark_ s))).
Proof.
  intros H. unfold advanceWaterMark_, bind, modify, get, zoom. cbn -[purgeConfirmed].
  case_match; [|done]. cbn -[purgeConfirmed].
  set (st := advanceWaterMark _ _).
  assert (Hst : hashless_store st) by exact H.
  pose proof (purge_hashless (print_Z (waterMark s + 1)) st Hst) as Hp.
  by destruct (purgeConfirmed (print_Z (waterMark s + 1)) st) as [st' []].
Qed.

Lemma hashless_log_store s :
  hashless_log s <-> hashless_store (nonceStore s) /\ Forall resent_nothing (sent s).
Proof. split; [by intros [? ? ?]|]. by intros [[? ?] ?]. Qed.

Lemma hashless_recorded i r result dlq' called s :
  hashless_store (nonceStore s) -> hashless_store (nonceStore (recorded i r result dlq' called s)).
Proof.
  intros [Hh (w & Hw & Hr)]. split.
  - apply Forall_lookup. intros k e (e0 & He0 & _ & Hx)%recorded_heap.
    destruct Hx as [->|[_ Hp]]; [|by intros ?].
    rewrite Forall_lookup in Hh. by eapply Hh.
  - exists w. split; [|done]. unfold holds in *.
    by destruct (recorded_fields i r result dlq' called s)
      as (_ & _ & _ & _ & _ & _ & _ & _ & _ & _ & _ & -> & _).
Qed.

Lemma hashless_started s :
  started s -> hashless_store (nonceStore s) -> hashless_log s.
Proof.
  intros Hs Hst. apply hashless_log_store. split; [done|].
  destruct Hst as [_ (w & Hw & Hr)].
  apply started_fields in Hs as (_ & _ & _ & _ & _ & _ & _ & _ & _ & -> & Hrep).
  rewrite (replay_holds _ _ Hw) in Hrep.
  destruct (wal_entries (rows w)) as [|es] eqn:Ee; [done|]. injection Hrep as <-.
  apply wal_entries_inr in Ee. rewrite Ee in Hr. unfold single in Hr.
  rewrite Forall_fmap, Forall_forall in Hr.
  apply Forall_fmap, Forall_forall. intros e [Hp Hin]%list_elem_of_filter. cbn.
  specialize (Hr e Hin). cbn in Hr. inv Hr. auto.
Qed.

Lemma new_NonceSequencer_store st dlq s :
  new_NonceSequencer st dlq = inr s -> nonceStore s = st.
Proof.
  unfold new_NonceSequencer. destruct (BigInt _); [done|].
  destruct (replayUnconfirmed st) as [|es]; [done|]. intros [= <-].
  by rewrite (proj1 (foldl_resubmit _ _)).
Qed.

Lemma hashless_step s s' : world_step s s' -> hashless_log s -> hashless_log s'.
Proof.
  intros Hstep [Hst Hsent]%hashless_log_store.
  destruct Hstep as [s s' Hs|s threshold dlq s' Hr].
  - apply hashless_log_store. destruct Hs as [s tx now|s i r now fault rpc Hr|s i e answer He].
    + rewrite beginRequest_eq. cbn. split; [|by apply Forall_app; repeat constructor].
      unfold loggedStore. apply append_hashless.
      assert (H : hashless_store (if (walFlushCounter s + 1) mod WAL_FLUSH_INTERVAL =? 0
                    then flush (nonceStore s) else nonceStore s))
        by (case_match; [by apply flush_hashless|done]).
      apply set_heap_hashless; [done|]. apply Forall_app. split; [apply H|by repeat constructor].
    + destruct (submission r now fault rpc s) as [[result dlq'] called] eqn:E.
      destruct (settle_state i _ _ _ _ _ _ _ _ E) as (Hf & _ & Hn).
      pose proof (hashless_recorded i r result dlq' called s Hst) as Hrec. split.
      * destruct Hn as [->| ->]; [done|]. by apply advance_hashless.
      * rewrite (f_sent _ _ Hf).
        destruct (recorded_fields i r result dlq' called s)
          as (_ & _ & _ & _ & _ & _ & _ & _ & -> & _).
        apply Forall_app. split; [done|]. by apply Forall_replicate.
    + unfold resubmitted. destruct answer as [a|x]; [destruct (success a)|]; done.
  - apply hashless_started; [by repeat eexists|].
    rewrite (new_NonceSequencer_store _ _ _ Hr).
    split; [done|]. apply Hst.
Qed.

Lemma hashless_run s s' : rtc world_step s s' -> hashless_log s -> hashless_log s'.
Proof. induction 1; eauto using hashless_step. Qed.

(** ** The files of a young process *)

Lemma counter_small (n : Z) : 0 < n < WAL_FLUSH_INTERVAL -> (n mod WAL_FLUSH_INTERVAL =? 0) = false.
Proof. intros Hn. apply Z.eqb_neq. rewrite Z.mod_small by (unfold WAL_FLUSH_INTERVAL in *; lia). lia. Qed.

(** Before the 64th request nothing has been purged and no mark written. *)
Record young (s : NonceSequencer) : Prop := {
  y_mark : waterMarkFile (nonceStore s) = None;
  y_log : exists es, holds (nonceStore s) (logged es)
}.

Lemma young_begin tx now s : young s -> young (fst (beginRequest tx now s)).
Proof.
  intros [Hm (es & Hl)]. rewrite beginRequest_eq. cbn [fst nonceStore].
  unfold loggedStore.
  set (st := if (walFlushCounter s + 1) mod WAL_FLUSH_INTERVAL =? 0
             then flush (nonceStore s) else nonceStore s).
  assert (Hst : waterMarkFile st = None /\ exists es, holds st (logged es)).
  { subst st. case_match; [|eauto]. destruct (flush_frame (nonceStore s)) as (_ & _ & -> & _).
    split; [done|]. eexists. rewrite <- wal_flush_logged. by apply flush_holds. }
  destruct Hst as [Hm' (es' & Hl')]. constructor; cbn [nonceStore].
  - by rewrite (proj2 (append_frame _ _)).
  - unfold append. case_match; [|by exists es'].
    eexists. rewrite <- wal_flush_logged. apply flush_holds. exact Hl'.
Qed.

Lemma advance_quiet s :
  0 < walFlushCounter s < WAL_FLUSH_INTERVAL ->
  nonceStore (fst (advanceWaterMark_ s)) = nonceStore s.
Proof.
  intros Hc. unfold advanceWaterMark_, bind, modify, get. cbn.
  by rewrite counter_small.
Qed.

Lemma young_step h0 s s' :
  seq_step s s' -> numbered h0 s -> (length (heap (nonceStore s')) < 64)%nat -> young s -> young s'.
Proof.
  intros Hstep Hn Hlen Hy. destruct Hstep as [s tx now|s i r now fault rpc Hr|s i e answer He].
  - by apply young_begin.
  - destruct (submission r now fault rpc s) as [[result dlq'] called] eqn:E.
    destruct (settle_state i _ _ _ _ _ _ _ _ E) as (Hf & _ & Hst).
    destruct (recorded_fields i r result dlq' called s)
      as (_ & R1 & _ & _ & _ & _ & _ & _ & _ & R2 & _ & R3 & R4).
    assert (Hst' : nonceStore (fst (settle i r now fault rpc s))
                   = nonceStore (recorded i r result dlq' called s)).
    { destruct Hst as [->| ->]; [done|]. apply advance_quiet.
      rewrite R1. destruct Hn as [_ -> _ Hreq _].
      rewrite (f_heap _ _ Hf), R2 in Hlen. rewrite Forall_lookup in Hreq.
      destruct (Hreq _ _ Hr) as [_ ?]. unfold WAL_FLUSH_INTERVAL. lia. }
    destruct Hy as [Hm (es & Hl)]. constructor; rewrite Hst'.
    + by rewrite R4.
    + exists es. unfold holds in *. by rewrite R3.
  - destruct Hy as [Hm Hl]. unfold resubmitted.
    destruct answer as [a|x]; [destruct (success a)|]; by constructor.
Qed.

Lemma heap_grows s s' :
  seq_step s s' -> (length (heap (nonceStore s)) <= length (heap (nonceStore s')))%nat.
Proof.
  intros [x tx now|x i r now fault rpc Hr|x i e answer He].
  - rewrite beginRequest_eq. cbn [fst nonceStore]. rewrite heap_loggedStore, length_app. lia.
  - destruct (submission r now fault rpc x) as [[result dlq'] called] eqn:E.
    destruct (settle_state i _ _ _ _ _ _ _ _ E) as (Hf & _).
    rewrite (f_heap _ _ Hf).
    destruct (recorded_fields i r result dlq' called x)
      as (_ & _ & _ & _ & _ & _ & _ & _ & _ & -> & _). done.
  - unfold resubmitted. destruct answer as [a|y]; [destruct (success a)|]; done.
Qed.

Lemma heap_grows_run s s' :
  rtc seq_step s s' -> (length (heap (nonceStore s)) <= length (heap (nonceStore s')))%nat.
Proof. induction 1 as [|a b c Hab _ IH]; [done|]. apply heap_grows in Hab. lia. Qed.

Lemma young_run h0 s s' :
  rtc seq_step s s' -> numbered h0 s -> (length (heap (nonceStore s')) < 64)%nat ->
  young s -> young s'.
Proof.
  induction 1 as [|a b c Hab Hbc IH]; [done|]. intros Hn Hlen Hy.
  apply IH; [by eapply numbered_step|done|].
  eapply young_step; [done|done| |done]. apply heap_grows_run in Hbc. lia.
Qed.

(** ** Submissions through the dead letter queue *)

Definition answer_error (a : RpcAnswer) : option ErrorValue :=
  match a with
  | Answer r => if success r then None else Some (submissionError r)
  | RpcThrows e => Some e
  end.

Lemma handlerOf_error rpc k :
  handlerOf rpc k = match answer_error (rpc k) with
                    | Some e => inl e
                    | None => match rpc k with Answer r => inr r | RpcThrows e => inl e end
                    end.
Proof. unfold handlerOf, answer_error. destruct (rpc k) as [r|e]; [by destruct (success r)|done]. Qed.

(** The result of a submission whose last call was answered by [a]. *)
Definition failureOf (a : RpcAnswer) : TransactionResult :=
  match a with Answer r => r | RpcThrows e => rpcFailure (errorText e) end.

Lemma submit_success now fault rpc message q k r :
  (forall j, (j < k)%nat -> is_Some (answer_error (rpc j))) -> (k <= 3)%nat ->
  rpc k = Answer r -> success r = true ->
  exists q', submitWithRetry now fault rpc message (Some q) = (r, Some q', S k) /\
    table q' = table q.
Proof.
  intros Hf Hk Hr Hs. unfold submitWithRetry, process.
  rewrite (processLoop_success _ _ _ _ _ _ r k).
  - exists (afterAttempts DLQ_BACKOFF_MS 0 (S k) k q). cbn -[Nat.sub]. split; [|done].
    by replace (calls q + S k - calls q)%nat with (S k) by lia.
  - intros j Hj. rewrite handlerOf_error. destruct (Hf j) as [e ->]; [lia|]. eauto.
  - cbn. unfold handlerOf. by rewrite Hr, Hs.
  - change (iterations (default DLQ_MAX_RETRIES None)) with 4%nat. lia.
Qed.

Lemma submit_failure now rpc message q e :
  (forall j, (j < 3)%nat -> is_Some (answer_error (rpc j))) ->
  answer_error (rpc 3%nat) = Some e ->
  exists q', submitWithRetry now false rpc message (Some q) = (failureOf (rpc 3%nat), Some q', 4%nat) /\
    table q' = <[nextId q := deadLetter now "slashing_request" message e 3]> (table q).
Proof.
  intros Hf He. unfold submitWithRetry, process.
  change (iterations (default DLQ_MAX_RETRIES None)) with 4%nat.
  rewrite (processLoop_failure _ _ _ _ _ e 3).
  - cbn -[failureOf Nat.sub caught].
    replace (calls q + 4 - calls q - 1)%nat with 3%nat by lia.
    replace (calls q + 4 - calls q)%nat with 4%nat by lia.
    eexists. split; [unfold caught, failureOf; by destruct (rpc 3%nat)|done].
  - intros j Hj. rewrite handlerOf_error. destruct (Hf j) as [e' ->]; [lia|]. eauto.
  - cbn. rewrite handlerOf_error. by rewrite He.
Qed.

(** ** Properties *)

(** C22: within one process no nonce is given out twice.  However requests,
    answers and resubmissions interleave, the k-th request gets the nonce
    [start + k] and logs it, and the requests in flight hold distinct nonces, all
    below the head pointer that the next request will take. *)
Theorem nonces_never_repeat s0 s :
  started s0 -> rtc seq_step s0 s ->
  headPointer s = headPointer s0 + Z.of_nat (length (heap (nonceStore s))) /\
  (forall k e, heap (nonceStore s) !! k = Some e ->
     prop e "nonce" = Some (FStr (print_Z (headPointer s0 + Z.of_nat k)))) /\
  NoDup (rq_nonce <$> requests s) /\
  Forall (fun n => headPointer s0 <= n < headPointer s) (rq_nonce <$> requests s).
Proof.
  intros Hs Hrun. apply numbered_started in Hs.
  destruct (numbered_run _ _ _ Hrun Hs) as [H1 _ H3 H4 H5].
  split; [done|]. split; [done|]. split.
  - assert (E : rq_nonce <$> requests s
                = (fun k => headPointer s0 + Z.of_nat k) <$> (rq_entry <$> requests s)).
    { rewrite <- list_fmap_compose. apply list_fmap_ext. intros i r Hr. cbn.
      rewrite Forall_lookup in H4. by destruct (H4 _ _ Hr). }
    rewrite E. apply NoDup_fmap_2; [|done]. intros a b Hab. lia.
  - apply Forall_fmap. eapply Forall_impl; [exact H4|]. cbn. lia.
Qed.

(** the totals of a process that had nothing to resubmit.  Every request
    begun is confirmed, failed or in flight, and the water mark is its first value
    plus the number of confirmations, whichever nonces they had: with an earlier
    request failed or in flight it passes nonces that were never confirmed.
    [pendingCount] stays 0 with any number of requests in flight. *)
Theorem metrics_account_for_requests s0 s :
  started s0 -> resubmits s0 = [] -> rtc seq_step s0 s ->
  Z.of_nat (length (heap (nonceStore s)))
    = totalConfirmed s + totalFailed s + Z.of_nat (length (requests s)) /\
  totalSubmitted s = totalConfirmed s + totalFailed s /\
  waterMark s = waterMark s0 + totalConfirmed s /\
  m_pendingCount (getMetrics s) = 0.
Proof.
  intros Hs Hr Hrun.
  destruct (accounted_run _ _ _ Hrun (accounted_started _ Hs Hr)) as [_ H2 H3 H4 H5].
  cbn. split; [lia|]. split; [done|]. split; [done|]. exact H5.
Qed.

Lemma dlqManager_recorded i r result dlq' called s :
  dlqManager (recorded i r result dlq' called s) = dlq'.
Proof. unfold recorded. by destruct (success result). Qed.

(** The request's own entry after the answer has been recorded. *)
Lemma recorded_entry i r result dlq' called s :
  is_Some (heap (nonceStore s) !! rq_entry r) ->
  exists e, heap (nonceStore (recorded i r result dlq' called s)) !! rq_entry r = Some e /\
    has_status (if success result then "confirmed" else "failed") e /\
    (success result = true -> prop e "txHash" = Some (FStr (hash result))).
Proof.
  intros [e0 He0]. unfold recorded, has_status.
  destruct (success result); cbn; rewrite !list_lookup_alter_eq, He0; eexists;
    (split; [done|]); by rewrite !prop_set_prop.
Qed.

(** Between two multiples of 64 advancing the mark touches no file and cannot throw. *)
Lemma settle_quiet i r now fault rpc s result dlq' called :
  submission r now fault rpc s = (result, dlq', called) -> success result = true ->
  walFlushCounter s mod WAL_FLUSH_INTERVAL <> 0 ->
  snd (settle i r now fault rpc s)
  = inr (mkResult (validatorId (rq_tx r)) (rq_nonce r) (hash result) true None).
Proof.
  intros E Es Hc. rewrite (settle_eq _ _ _ _ _ _ _ _ _ E), Es.
  unfold advanceWaterMark_, bind, modify, get. cbn -[recorded].
  destruct (recorded_fields i r result dlq' called s) as (_ & -> & _).
  by rewrite (proj2 (Z.eqb_neq _ _) Hc).
Qed.

(** C23: a request of a sequencer that was given a dead letter queue, whose database
    accepts the insertion, ends with the first successful answer among four calls, its
    log entry confirmed with the hash (and, unless this is the confirmation on which
    the log is flushed, the hash is returned); or,
    when the four calls fail, with an error, its entry failed and one new
    dead letter holding the message and that error. *)
Theorem request_ends_confirmed_or_dead_lettered s i r now rpc q :
  requests s !! i = Some r -> is_Some (heap (nonceStore s) !! rq_entry r) ->
  dlqManager s = Some q ->
  (exists k a, (k <= 3)%nat /\ rpc k = Answer a /\ success a = true /\
     (forall j, (j < k)%nat -> is_Some (answer_error (rpc j))) /\
     let s' := fst (settle i r now false rpc s) in
     (exists e, heap (nonceStore s') !! rq_entry r = Some e /\
        has_status "confirmed" e /\ prop e "txHash" = Some (FStr (hash a))) /\
     (exists q', dlqManager s' = Some q' /\ table q' = table q) /\
     waterMark s' = waterMark s + 1 /\
     (walFlushCounter s mod WAL_FLUSH_INTERVAL <> 0 ->
        snd (settle i r now false rpc s)
        = inr (mkResult (validatorId (rq_tx r)) (rq_nonce r) (hash a) true None))) \/
  (exists e, answer_error (rpc 3%nat) = Some e /\
     let s' := fst (settle i r now false rpc s) in
     (exists x, heap (nonceStore s') !! rq_entry r = Some x /\ has_status "failed" x) /\
     (exists q' d, dlqManager s' = Some q' /\ table q' = <[nextId q := d]> (table q) /\
        txPayload (e_originalMessage d) = buildTx (rq_tx r) (rq_nonce r) /\
        e_errorMessage d = se_message (serializeError e)) /\
     waterMark s' = waterMark s /\
     exists message,
       snd (settle i r now false rpc s)
       = inr (mkResult (validatorId (rq_tx r)) (rq_nonce r) "" false (Some message))).
Proof.
  intros Hr Hs0 Hq. set (message := mkMessage (rq_tx r) (print_Z (rq_nonce r))
    (buildTx (rq_tx r) (rq_nonce r))).
  destruct (first_success (fun k => answer_error (rpc k)) 4) as [(k & Hk & Hn & Hb)|Hall].
  - left. unfold answer_error in Hn. destruct (rpc k) as [a|] eqn:Ea; [|done].
    destruct (success a) eqn:Es; [|done]. exists k, a.
    destruct (submit_success now false rpc message q k a) as (q' & E & Ht); [done|lia|done..|].
    assert (E' : submission r now false rpc s = (a, Some q', S k))
      by (unfold submission; by rewrite Hq).
    destruct (settle_state i _ _ _ _ _ _ _ _ E') as (Hf & Hw & _). rewrite Es in Hw.
    destruct (recorded_entry i r a (Some q') (S k) s Hs0) as (e & He & Hst & Hh). rewrite Es in Hst, Hh.
    split_and!; [lia|done..|]. cbn zeta.
    split_and!; [| |done|by intros; eapply settle_quiet].
    + exists e. rewrite (f_heap _ _ Hf). auto.
    + exists q'. by rewrite (f_dlq _ _ Hf), dlqManager_recorded.
  - right. destruct (Hall 3%nat) as [e He]; [lia|]. exists e.
    destruct (submit_failure now rpc message q e) as (q' & E & Ht); [intros; apply Hall; lia|done|].
    assert (E' : submission r now false rpc s = (failureOf (rpc 3%nat), Some q', 4%nat))
      by (unfold submission; by rewrite Hq).
    assert (Es : success (failureOf (rpc 3%nat)) = false).
    { unfold answer_error in He. destruct (rpc 3%nat) as [a|]; [cbn; by destruct (success a)|done]. }
    destruct (settle_state i _ _ _ _ _ _ _ _ E') as (Hf & Hw & _). rewrite Es in Hw.
    destruct (recorded_entry i r (failureOf (rpc 3%nat)) (Some q') 4 s Hs0) as (x & Hx & Hst & _). rewrite Es in Hst.
    split; [done|]. cbn zeta.
    split_and!; [| |lia|rewrite (settle_eq _ _ _ _ _ _ _ _ _ E'), Es; by eexists].
    + exists x. by rewrite (f_heap _ _ Hf).
    + exists q', (deadLetter now "slashing_request" message e 3).
      by rewrite (f_dlq _ _ Hf), dlqManager_recorded.
Qed.

(** a replayed request is never really sent again.  In every run of the
    sequencer from an empty data directory, through any number of restarts,
    everything that a restart resubmits is the empty string: a pending entry's
    [txHash] is only filled in when its status leaves pending. *)
Theorem resubmissions_are_empty threshold dlq s h :
  rtc world_step (fresh threshold dlq) s -> Resent h ∈ sent s -> h = Some (FStr "").
Proof.
  intros Hrun Hin.
  assert (H0 : hashless_log (fresh threshold dlq)).
  { constructor; [constructor| |constructor]. exists (mkWal [] false).
    split; [|constructor]. split; [by split|done]. }
  destruct (hashless_run _ _ Hrun H0) as [_ _ Hs].
  rewrite Forall_forall in Hs. by specialize (Hs _ Hin).
Qed.

(** a restart gives nonces out again.  After fewer than 64 requests on an
    empty data directory, confirmed or not, the sequencer of the next process
    starts (the log is well formed) and its first nonce is 0 again. *)
Theorem restart_reissues_nonces threshold dlq s threshold' dlq' :
  rtc seq_step (fresh threshold dlq) s -> (length (heap (nonceStore s)) < 64)%nat ->
  exists s', restart threshold' dlq' s = inr s' /\ headPointer s' = 0.
Proof.
  intros Hrun Hlen.
  assert (Hst : started (fresh threshold dlq)) by (by exists None, None, threshold, dlq).
  assert (Hy : young (fresh threshold dlq)).
  { constructor; [done|]. exists []. by split. }
  destruct (young_run _ _ _ Hrun (numbered_started _ Hst) Hlen Hy) as [Hm (es & Hl)].
  unfold restart, new_NonceSequencer. unfold getWaterMark, new_NonceStore at 1.
  cbn [waterMarkFile]. rewrite Hm. cbn [BigInt].
  replace (BigInt_of_string "0") with (Some 0) by (vm_compute; reflexivity).
  rewrite (replay_holds _ (logged es)) by exact Hl. unfold logged. cbn [rows].
  rewrite wal_entries_single. eexists. split; [done|].
  by rewrite (proj1 (proj2 (foldl_resubmit _ _))).
Qed.

(** ** [NonceWindow] claims *)

Definition slotAt (w : NonceWindow) (i : nat) : nat := ((head w + i) mod size w)%nat.

Lemma claimLoop_spec w left : forall i,
  (claimLoop w left i = (w, None) /\
   forall j, (i <= j < i + left)%nat -> slots w !! slotAt w j <> Some None) \/
  (exists j, (i <= j < i + left)%nat /\ slots w !! slotAt w j = Some None /\
     (forall k, (i <= k < j)%nat -> slots w !! slotAt w k <> Some None) /\
     claimLoop w left i =
       (mkWindow (<[slotAt w j := Some (Z.of_nat (slotAt w j))]> (slots w))
          ((slotAt w j + 1) mod size w)%nat (size w), Some (Z.of_nat (slotAt w j)))).
Proof.
  induction left as [|left IH]; intros i; [left; split; [done|lia]|].
  cbn [claimLoop]. fold (slotAt w i).
  destruct (decide (slots w !! slotAt w i = Some None)) as [E|E].
  - right. exists i. rewrite E. split; [lia|]. split; [done|]. split; [lia|done].
  - assert (Er : forall A (a b : A), match slots w !! slotAt w i with Some None => a | _ => b end = b)
      by (intros; destruct (slots w !! slotAt w i) as [[?|]|]; done).
    rewrite Er. destruct (IH (S i)) as [[-> Hn]|(j & Hj & Hs & Hb & ->)].
    + left. split; [done|]. intros j Hj. destruct (decide (j = i)) as [->|]; [done|]. apply Hn. lia.
    + right. exists j. split; [lia|]. split; [done|]. split; [|done].
      intros k Hk. destruct (decide (k = i)) as [->|]; [done|]. apply Hb. lia.
Qed.

Lemma slotAt_onto w i :
  (i < size w)%nat -> exists j, (j < size w)%nat /\ slotAt w j = i.
Proof.
  intros Hi. exists ((i + (size w - head w mod size w)) mod size w)%nat.
  pose proof (Nat.mod_upper_bound (head w) (size w) ltac:(lia)).
  split; [apply Nat.mod_upper_bound; lia|]. unfold slotAt.
  rewrite Nat.Div0.add_mod_idemp_r, <- Nat.Div0.add_mod_idemp_l.
  replace (head w mod size w + (i + (size w - head w mod size w)))%nat with (i + 1 * size w)%nat by lia.
  rewrite Nat.Div0.mod_add. by apply Nat.mod_small.
Qed.

(** [claim] takes the first free slot at or after [head], around the ring, and
    answers [null] exactly when no slot is free; [release] frees the slot again. *)
Theorem claim_takes_first_free_slot w :
  length (slots w) = size w ->
  (claim w = (w, None) /\ forall i, (i < size w)%nat -> slots w !! i <> Some None) \/
  (exists j w', (j < size w)%nat /\ slots w !! slotAt w j = Some None /\
     (forall k, (k < j)%nat -> slots w !! slotAt w k <> Some None) /\
     claim w = (w', Some (Z.of_nat (slotAt w j))) /\
     slots w' = <[slotAt w j := Some (Z.of_nat (slotAt w j))]> (slots w) /\
     exists w'', release (Z.of_nat (slotAt w j)) w' = Some w'' /\ slots w'' = slots w).
Proof.
  intros Hlen. unfold claim. destruct (claimLoop_spec w (size w) 0) as [[-> Hn]|(j & Hj & Hs & Hb & ->)].
  - left. split; [done|]. intros i Hi. destruct (slotAt_onto w i Hi) as (j & Hj & <-). apply Hn. lia.
  - right. pose proof (lookup_lt_Some _ _ _ Hs) as Hlt. rewrite Hlen in Hlt.
    eexists j, _. split; [lia|]. split; [done|]. split; [intros; apply Hb; lia|].
    split; [done|]. split; [done|]. unfold release. cbn [size slots head].
    rewrite (proj2 (Nat.eqb_neq _ _)) by lia. rewrite Z.rem_small by lia.
    rewrite Nat2Z.id, list_lookup_insert_eq by lia.
    rewrite bool_decide_true by done. rewrite (proj2 (Z.leb_le 0 _)) by lia. cbn.
    eexists. split; [done|]. cbn. rewrite list_insert_insert_eq. by apply list_insert_id.
Qed.

Module Examples.

Definition tx (v : string) : SlashingTx := mkTx v "double_sign" "proof" "sig".
Definition confirms (h : string) (k : nat) : RpcAnswer :=
  Answer (mkTransactionResult h true None).
Definition refuses (k : nat) : RpcAnswer :=
  Answer (mkTransactionResult "" false (Some (-1, "refused"))).

(** Two requests; the second is confirmed while the first is in flight. *)
Definition s0 : NonceSequencer := fresh (Some 1%nat) None.
Definition s1 : NonceSequencer := fst (beginRequest (tx "a") 10 s0).
Definition s2 : NonceSequencer := fst (beginRequest (tx "b") 20 s1).
Definition s3 : NonceSequencer := fst (settle 1 (mkRequest 1 (tx "b") 1) 30 false (confirms "0xb") s2).

Lemma run3 : rtc seq_step s0 s3.
Proof.
  eapply rtc_l; [apply (step_begin s0 (tx "a") 10)|].
  eapply rtc_l; [apply (step_begin s1 (tx "b") 20)|].
  eapply rtc_l; [|apply rtc_refl].
  apply (step_settle s2 1 (mkRequest 1 (tx "b") 1) 30 false (confirms "0xb")). reflexivity.
Qed.

Lemma started0 : started s0.
Proof. by exists None, None, (Some 1%nat), None. Qed.

Lemma nonces_never_repeat_witness : headPointer s3 = 2 /\ NoDup (rq_nonce <$> requests s3).
Proof.
  destruct (nonces_never_repeat s0 s3 started0 run3) as (H & _ & H' & _).
  split; [exact H|exact H'].
Defined.

Lemma metrics_account_for_requests_witness :
  length (requests s3) = 1%nat /\ m_pendingCount (getMetrics s3) = 0.
Proof.
  split; [vm_compute; reflexivity|].
  apply (metrics_account_for_requests s0 s3 started0 eq_refl run3).
Defined.

(** The same request with a queue: confirmed on the second call, or dead-lettered. *)
Definition queued : NonceSequencer :=
  set_dlq (fun _ => Some (mkDlq ∅ 0 new_DlqMetrics 0 [])) s2.

Lemma request_ends_confirmed_or_dead_lettered_witness :
  waterMark (fst (settle 1 (mkRequest 1 (tx "b") 1) 30 false refuses queued)) = 0.
Proof.
  destruct (request_ends_confirmed_or_dead_lettered queued 1 (mkRequest 1 (tx "b") 1) 30 refuses
    (mkDlq ∅ 0 new_DlqMetrics 0 []) eq_refl) as [(k & a & _ & Ha & Hs & _)|(e & _ & _ & _ & H & _)].
  - by eexists.
  - reflexivity.
  - injection Ha as <-. discriminate.
  - exact H.
Defined.

(** The process dies with both entries in the log as pending: request 1, already
    confirmed, and request 0 are resubmitted as empty transactions, and the next
    request takes nonce 0 again. *)
Definition s4 : NonceSequencer := match restart None None s3 with inr s => s | inl _ => s3 end.

Lemma resubmissions_are_empty_witness :
  sent s4 = [Resent (Some (FStr "")); Resent (Some (FStr ""))] /\
  (forall h, Resent h ∈ sent s4 -> h = Some (FStr "")).
Proof.
  split; [vm_compute; reflexivity|]. intros h. apply (resubmissions_are_empty (Some 1%nat) None s4 h).
  eapply rtc_r; [|apply (world_restart s3 None None s4); vm_compute; reflexivity].
  eapply rtc_subrel; [|exact run3]. intros x y Hxy. by constructor.
Defined.

Lemma restart_reissues_nonces_witness :
  totalConfirmed s3 = 1 /\
  exists s', restart None None s3 = inr s' /\ headPointer s' = 0.
Proof.
  split; [vm_compute; reflexivity|].
  apply (restart_reissues_nonces (Some 1%nat) None s3 None None run3). vm_compute. lia.
Defined.
End Examples.
