(* ===== verification/Number.v ===== *)
(** * Numbers: IEEE doubles as rationals

    A JavaScript number is a rational, an infinity or NaN; the two zeros are one.
    [to_double] rounds to the nearest double, ties to even, and the arithmetic
    operators round the exact result.  Rounding is monotone ([to_double_mono]) and
    leaves a double as it is ([to_double_exact]), so that a bound that is a double
    survives it. *)

From Stdlib Require Import ZArith Lia QArith Qround.
From stdpp Require Import base numbers.
From S2P Require Import Prelude.
#[local] Open Scope Z_scope.

Inductive number := Finite (q : Q) | Infinite (negative : bool) | NaN.

(** [a >= b] *)
Definition num_ge (a b : number) : bool :=
  match a, b with
  | NaN, _ | _, NaN => false
  | Infinite na, Infinite nb => negb na || nb
  | Infinite na, Finite _ => negb na
  | Finite _, Infinite nb => nb
  | Finite x, Finite y => Qle_bool y x
  end.

Lemma num_ge_trans a b c : num_ge a b = true -> num_ge b c = true -> num_ge a c = true.
Proof.
  destruct a as [x|[]|], b as [y|[]|], c as [z|[]|]; cbn; try done.
  rewrite !Qle_bool_iff. intros. by eapply Qle_trans.
Qed.

(** [a < b] *)
Definition num_lt (a b : number) : bool :=
  match a, b with
  | NaN, _ | _, NaN => false
  | _, _ => negb (num_ge a b)
  end.

(** [a === b] *)
Definition num_eqb (a b : number) : bool :=
  match a, b with
  | Finite x, Finite y => Qeq_bool x y
  | Infinite x, Infinite y => Bool.eqb x y
  | _, _ => false
  end.

(** [Number.isFinite], [Number.isInteger], [Number.isSafeInteger] *)
Definition isFinite (n : number) : bool := match n with Finite _ => true | _ => false end.
Definition isInteger (n : number) : bool :=
  match n with Finite q => (Qnum q mod Z.pos (Qden q) =? 0) | _ => false end.

Definition int (z : Z) : number := Finite (inject_Z z).

(** [Math.floor], [Math.max], [Math.min] *)
Definition floor (n : number) : number := match n with Finite q => int (Qfloor q) | _ => n end.
Definition num_max (a b : number) : number :=
  match a, b with NaN, _ | _, NaN => NaN | _, _ => if num_ge a b then a else b end.
Definition num_min (a b : number) : number :=
  match a, b with NaN, _ | _, NaN => NaN | _, _ => if num_ge a b then b else a end.

(** ** Rounding *)

(** [2^e] is [pow2 e / pow2 (- e)]. *)
Definition pow2 (e : Z) : Z := 2 ^ Z.max 0 e.

(** The integer nearest to [num / den], ties to even. *)
Definition rne (num den : Z) : Z :=
  let r := num mod den in
  num / den + (if (den <? 2 * r) || ((2 * r =? den) && Z.odd (num / den)) then 1 else 0).

(** The exponent of the leading bit of [n / d]. *)
Definition leading (n d : Z) : Z :=
  let e0 := Z.log2 n - Z.log2 d in
  if n * pow2 (- e0) <? d * pow2 e0 then e0 - 1 else e0.

(** The double nearest to [q]: 53 bits, exponents from -1074 to 971. *)
Definition to_double (q : Q) : number :=
  let n := Z.abs (Qnum q) in
  let d := Z.pos (Qden q) in
  if n =? 0 then Finite 0 else
  let e := Z.max (leading n d - 52) (-1074) in
  let m := rne (n * pow2 (- e)) (d * pow2 e) in
  let negative := Qnum q <? 0 in
  if 2 ^ 1024 <=? m * pow2 e then Infinite negative
  else Finite (Qmake ((if negative then - m else m) * pow2 e) (Z.to_pos (pow2 (- e)))).

(** ** Arithmetic *)

Definition num_neg (n : number) : number :=
  match n with Finite q => Finite (- q) | Infinite b => Infinite (negb b) | NaN => NaN end.

Definition num_add (a b : number) : number :=
  match a, b with
  | Finite x, Finite y => to_double (x + y)
  | Infinite x, Infinite y => if Bool.eqb x y then Infinite x else NaN
  | Infinite x, Finite _ | Finite _, Infinite x => Infinite x
  | _, _ => NaN
  end.
Definition num_sub (a b : number) : number := num_add a (num_neg b).

Definition is_negative (q : Q) : bool := Qnum q <? 0.
Definition is_zero (q : Q) : bool := Qnum q =? 0.

Definition num_mul (a b : number) : number :=
  match a, b with
  | Finite x, Finite y => to_double (x * y)
  | Infinite x, Infinite y => Infinite (xorb x y)
  | Infinite x, Finite y | Finite y, Infinite x =>
      if is_zero y then NaN else Infinite (xorb x (is_negative y))
  | _, _ => NaN
  end.

(** A division by zero is by the positive one. *)
Definition num_div (a b : number) : number :=
  match a, b with
  | Finite x, Finite y =>
      if is_zero y then (if is_zero x then NaN else Infinite (is_negative x)) else to_double (x / y)
  | Infinite x, Finite y => Infinite (xorb x (is_negative y))
  | Finite _, Infinite _ => Finite 0
  | _, _ => NaN
  end.

(** ** Powers of two *)

Lemma pow2_pos e : 0 < pow2 e.
Proof. apply Z.pow_pos_nonneg; lia. Qed.

Lemma pow2_shift a b : a <= b -> pow2 b * pow2 (- a) = 2 ^ (b - a) * (pow2 a * pow2 (- b)).
Proof.
  intros H. unfold pow2. rewrite <- !Z.pow_add_r by lia. f_equal. lia.
Qed.

Ltac pows :=
  repeat match goal with
    | |- context [pow2 ?e] =>
        lazymatch goal with H : 0 < pow2 e |- _ => fail | _ => pose proof (pow2_pos e) end
    | _ : context [pow2 ?e] |- _ =>
        lazymatch goal with H : 0 < pow2 e |- _ => fail | _ => pose proof (pow2_pos e) end
    end.

Lemma rne_up num den b : 0 < den -> num <= b * den -> rne num den <= b.
Proof.
  intros Hd H. unfold rne. pose proof (Z.div_mod num den ltac:(lia)).
  pose proof (Z.mod_pos_bound num den Hd).
  destruct (decide (num mod den = 0)) as [E|E].
  - rewrite E. rewrite (proj2 (Z.ltb_ge _ _)) by lia. rewrite (proj2 (Z.eqb_neq _ _)) by lia. cbn. nia.
  - assert (num / den < b) by nia. case_match; lia.
Qed.

Lemma rne_low num den b : 0 < den -> b * den <= num -> b <= rne num den.
Proof.
  intros Hd H. unfold rne. assert (b <= num / den) by (apply Z.div_le_lower_bound; lia).
  case_match; lia.
Qed.

Lemma rne_exact b den : 0 < den -> rne (b * den) den = b.
Proof. intros Hd. apply Z.le_antisymm; [by apply rne_up|by apply rne_low]. Qed.

Lemma rne_mono num1 den1 num2 den2 :
  0 < den1 -> 0 < den2 -> num1 * den2 <= num2 * den1 -> rne num1 den1 <= rne num2 den2.
Proof.
  intros Hd1 Hd2 H. unfold rne.
  pose proof (Z.div_mod num1 den1 ltac:(lia)). pose proof (Z.mod_pos_bound num1 den1 Hd1).
  pose proof (Z.div_mod num2 den2 ltac:(lia)). pose proof (Z.mod_pos_bound num2 den2 Hd2).
  set (a := num1 / den1) in *. set (b := num2 / den2) in *.
  set (r := num1 mod den1) in *. set (t := num2 mod den2) in *.
  assert (Hab : a <= b).
  { assert (den1 * (den2 * a) <= den1 * num2) by nia.
    assert (den2 * a <= num2) by (by apply (Z.mul_le_mono_pos_l _ _ den1)). nia. }
  destruct (decide (a = b)) as [E|Hne]; [|repeat case_match; lia].
  rewrite <- E in *. assert (Hrt : r * den2 <= t * den1) by nia.
  destruct (den1 <? 2 * r) eqn:E1, (den2 <? 2 * t) eqn:E2; cbn [orb]; bool_props; try lia.
  - exfalso. nia.
  - repeat case_match; lia.
  - destruct (2 * r =? den1) eqn:E3; [|cbn; repeat case_match; lia]. bool_props.
    assert (2 * t = den2) as -> by nia. rewrite Z.eqb_refl. cbn. repeat case_match; lia.
Qed.

(** ** The leading bit *)

Lemma pow2_nonneg e : 0 <= e -> pow2 e = 2 ^ e.
Proof. intros. unfold pow2. f_equal. lia. Qed.
Lemma pow2_neg e : e <= 0 -> pow2 e = 1.
Proof. intros. unfold pow2. by rewrite Z.max_l. Qed.

(** [2 ^ a] is below [n], [d] is below [2 ^ b]. *)
Lemma ratio_low n d a b :
  0 <= a -> 0 <= b -> 2 ^ a <= n -> d <= 2 ^ b -> pow2 (a - b) * d <= n * pow2 (- (a - b)).
Proof.
  intros Ha Hb Hn Hd. destruct (decide (b <= a)).
  - rewrite pow2_nonneg, pow2_neg by lia. transitivity (2 ^ (a - b) * 2 ^ b).
    + apply Z.mul_le_mono_nonneg_l; [|done]. by apply Z.pow_nonneg.
    + rewrite <- Z.pow_add_r by lia. replace (a - b + b) with a by lia. lia.
  - rewrite pow2_neg, pow2_nonneg by lia. transitivity (2 ^ a * 2 ^ (- (a - b))).
    + rewrite <- Z.pow_add_r by lia. replace (a + - (a - b)) with b by lia. lia.
    + apply Z.mul_le_mono_nonneg_r; [|done]. by apply Z.pow_nonneg.
Qed.

Lemma ratio_high n d a b :
  0 <= a -> 0 <= b -> n < 2 ^ a -> 2 ^ b <= d -> n * pow2 (- (a - b)) < pow2 (a - b) * d.
Proof.
  intros Ha Hb Hn Hd. destruct (decide (b <= a)).
  - rewrite (pow2_neg (- _)), pow2_nonneg by lia. eapply Z.lt_le_trans with (2 ^ (a - b) * 2 ^ b).
    + rewrite <- Z.pow_add_r by lia. replace (a - b + b) with a by lia. lia.
    + apply Z.mul_le_mono_nonneg_l; [|done]. by apply Z.pow_nonneg.
  - rewrite pow2_nonneg, pow2_neg by lia. eapply Z.lt_le_trans with (2 ^ a * 2 ^ (- (a - b))).
    + apply Z.mul_lt_mono_pos_r; [|done]. apply Z.pow_pos_nonneg; lia.
    + rewrite <- Z.pow_add_r by lia. replace (a + - (a - b)) with b by lia. lia.
Qed.

Lemma leading_spec n d :
  0 < n -> 0 < d ->
  pow2 (leading n d) * d <= n * pow2 (- leading n d) /\
  n * pow2 (- (leading n d + 1)) < pow2 (leading n d + 1) * d.
Proof.
  intros Hn Hd. pose proof (Z.log2_spec n Hn) as [N1 N2]. pose proof (Z.log2_spec d Hd) as [D1 D2].
  pose proof (Z.log2_nonneg n). pose proof (Z.log2_nonneg d).
  unfold leading. set (a := Z.log2 n) in *. set (b := Z.log2 d) in *.
  pose proof (ratio_low n d a (Z.succ b) ltac:(lia) ltac:(lia) N1 ltac:(lia)) as Hlow.
  pose proof (ratio_high n d (Z.succ a) b ltac:(lia) ltac:(lia) N2 D1) as Hhigh.
  replace (a - Z.succ b) with (a - b - 1) in Hlow by lia.
  replace (Z.succ a - b) with (a - b + 1) in Hhigh by lia.
  destruct (_ <? _) eqn:E; bool_props.
  - split; [done|]. replace (a - b - 1 + 1) with (a - b) by lia. lia.
  - split; [lia|done].
Qed.

(** A power of two below [n1 / d1] is below a larger quotient. *)
Lemma below_trans n1 d1 n2 d2 e :
  0 < d1 -> 0 < d2 -> n1 * d2 <= n2 * d1 ->
  pow2 e * d1 <= n1 * pow2 (- e) -> pow2 e * d2 <= n2 * pow2 (- e).
Proof.
  intros Hd1 Hd2 H He. pows. apply (Z.mul_le_mono_pos_r _ _ d1 Hd1). nia.
Qed.

(** The powers of two below a quotient are those up to the leading one. *)
Lemma leading_max n d e :
  0 < n -> 0 < d -> pow2 e * d <= n * pow2 (- e) -> e <= leading n d.
Proof.
  intros Hn Hd He. destruct (leading_spec n d Hn Hd) as [_ Hl].
  apply Z.nlt_ge. intros Hlt. pose proof (pow2_shift (leading n d + 1) e ltac:(lia)) as Hs.
  set (l := leading n d + 1) in *. pows.
  assert (1 <= 2 ^ (e - l)) by (pose proof (Z.pow_pos_nonneg 2 (e - l)); lia).
  assert (n * pow2 (- l) * pow2 (- e) < pow2 l * d * pow2 (- e)) by nia.
  assert (pow2 l * d * pow2 (- e) <= pow2 e * pow2 (- l) * d) by (rewrite Hs; nia). nia.
Qed.

Lemma leading_mono n1 d1 n2 d2 :
  0 < n1 -> 0 < d1 -> 0 < n2 -> 0 < d2 -> n1 * d2 <= n2 * d1 -> leading n1 d1 <= leading n2 d2.
Proof.
  intros Hn1 Hd1 Hn2 Hd2 H. apply leading_max; [done..|].
  eapply below_trans; [exact Hd1|done..|]. by apply leading_spec.
Qed.

(** ** Rounding a positive quotient *)

(** The exponent and the significand of the double nearest to [n / d]. *)
Definition unit_of (n d : Z) : Z := Z.max (leading n d - 52) (-1074).
Definition significand (n d : Z) : Z :=
  rne (n * pow2 (- unit_of n d)) (d * pow2 (unit_of n d)).

Lemma above_leading n d e :
  0 < n -> 0 < d -> leading n d < e -> n * pow2 (- e) <= pow2 e * d.
Proof.
  intros Hn Hd He. apply Z.lt_le_incl, Z.nle_gt. intros Hle.
  pose proof (leading_max n d e Hn Hd ltac:(lia)). lia.
Qed.

Lemma significand_low n d :
  0 < n -> 0 < d -> -1074 < unit_of n d -> 2 ^ 52 <= significand n d.
Proof.
  intros Hn Hd He. destruct (leading_spec n d Hn Hd) as [Hl _].
  apply rne_low; [pows; nia|]. unfold unit_of in *. set (l := leading n d) in *.
  replace (Z.max (l - 52) (-1074)) with (l - 52) by lia.
  pose proof (pow2_shift (l - 52) l ltac:(lia)) as Hs. replace (l - (l - 52)) with 52 in Hs by lia.
  pows. apply (Z.mul_le_mono_pos_r _ _ (pow2 (- l))); [done|]. nia.
Qed.

(** With a bound [2 ^ k] on the quotient. *)
Lemma significand_high n d k :
  0 < n -> 0 < d -> leading n d < k -> unit_of n d <= k ->
  significand n d <= 2 ^ (k - unit_of n d).
Proof.
  intros Hn Hd Hk Hu. pose proof (above_leading n d k Hn Hd Hk) as Hl.
  apply rne_up; [pows; nia|]. set (e := unit_of n d) in *.
  pose proof (pow2_shift e k Hu) as Hs. pows.
  apply (Z.mul_le_mono_pos_r _ _ (pow2 (- k))); [done|].
  pose proof (Z.pow_pos_nonneg 2 (k - e) ltac:(lia) ltac:(lia)). nia.
Qed.

Lemma significand_bound n d : 0 < n -> 0 < d -> 0 <= significand n d <= 2 ^ 53.
Proof.
  intros Hn Hd. split; [apply rne_low; pows; nia|].
  set (k := unit_of n d + 53).
  replace 53 with (k - unit_of n d) by lia. apply significand_high; unfold k, unit_of in *; lia.
Qed.

Lemma rounding_mono n1 d1 n2 d2 :
  0 < n1 -> 0 < d1 -> 0 < n2 -> 0 < d2 -> n1 * d2 <= n2 * d1 ->
  let e1 := unit_of n1 d1 in
  let e2 := unit_of n2 d2 in
  e1 <= e2 /\
  significand n1 d1 * pow2 e1 * pow2 (- e2) <= significand n2 d2 * pow2 e2 * pow2 (- e1).
Proof.
  intros Hn1 Hd1 Hn2 Hd2 H. cbn zeta. pose proof (leading_mono n1 d1 n2 d2 Hn1 Hd1 Hn2 Hd2 H) as Hl.
  assert (He : unit_of n1 d1 <= unit_of n2 d2) by (unfold unit_of; lia). split; [done|].
  destruct (decide (unit_of n1 d1 = unit_of n2 d2)) as [E|Hne].
  - rewrite E. apply Z.mul_le_mono_nonneg_r; [pows; lia|].
    apply Z.mul_le_mono_nonneg_r; [pows; lia|]. unfold significand. rewrite E. set (e := unit_of n2 d2).
    pows. apply rne_mono; nia.
  - assert (E2 : unit_of n2 d2 = leading n2 d2 - 52) by (unfold unit_of in *; lia).
    pose proof (significand_low n2 d2 Hn2 Hd2 ltac:(unfold unit_of in *; lia)) as H2.
    pose proof (significand_high n1 d1 (leading n2 d2) Hn1 Hd1
      ltac:(unfold unit_of in *; lia) ltac:(unfold unit_of in *; lia)) as H1.
    set (e1 := unit_of n1 d1) in *. set (e2 := unit_of n2 d2) in *.
    replace (leading n2 d2 - e1) with (52 + (e2 - e1)) in H1 by lia.
    rewrite Z.pow_add_r in H1 by lia. pose proof (pow2_shift e1 e2 He) as Hs.
    pose proof (Z.pow_pos_nonneg 2 (e2 - e1) ltac:(lia) ltac:(lia)). pows.
    set (m1 := significand n1 d1) in *. set (m2 := significand n2 d2) in *.
    transitivity (2 ^ 52 * (2 ^ (e2 - e1) * (pow2 e1 * pow2 (- e2)))); [nia|].
    rewrite <- Hs. nia.
Qed.

Lemma to_double_pos q :
  0 < Qnum q ->
  let e := unit_of (Qnum q) (Z.pos (Qden q)) in
  let m := significand (Qnum q) (Z.pos (Qden q)) in
  to_double q =
  if 2 ^ 1024 <=? m * pow2 e then Infinite false
  else Finite (Qmake (m * pow2 e) (Z.to_pos (pow2 (- e)))).
Proof.
  intros Hq. cbn zeta. unfold to_double. rewrite Z.abs_eq by lia.
  rewrite (proj2 (Z.eqb_neq _ _)) by lia. rewrite (proj2 (Z.ltb_ge _ _)) by lia. done.
Qed.

Lemma to_double_opp q : to_double (- q) = num_neg (to_double q).
Proof.
  unfold to_double. change (Qnum (- q)) with (- Qnum q).
  change (Qden (- q)) with (Qden q). rewrite Z.abs_opp.
  destruct (Z.eqb_spec (Z.abs (Qnum q)) 0) as [E|Hne]; [done|].
  replace (- Qnum q <? 0) with (negb (Qnum q <? 0)) by
    (destruct (Z.ltb_spec (Qnum q) 0), (Z.ltb_spec (- Qnum q) 0); cbn; lia).
  set (p := Z.pos (Qden q)). case_match; [done|]. cbn. unfold Qopp. cbn.
  do 2 f_equal. destruct (Qnum q <? 0); cbn; lia.
Qed.

Lemma pow2_to_pos e : Z.pos (Z.to_pos (pow2 e)) = pow2 e.
Proof. apply Z2Pos.id, pow2_pos. Qed.

Lemma to_double_mono_pos q1 q2 :
  0 < Qnum q1 -> 0 < Qnum q2 -> (q1 <= q2)%Q -> num_ge (to_double q2) (to_double q1) = true.
Proof.
  intros H1 H2 Hle. unfold Qle in Hle. rewrite !to_double_pos by done. cbn zeta.
  destruct (rounding_mono _ _ _ _ H1 (Pos2Z.is_pos (Qden q1)) H2 (Pos2Z.is_pos (Qden q2)) Hle) as [He Hm].
  pose proof (significand_bound _ _ H1 (Pos2Z.is_pos (Qden q1))) as B1.
  set (m1 := significand (Qnum q1) _) in *. set (m2 := significand (Qnum q2) _) in *.
  set (e1 := unit_of (Qnum q1) _) in *. set (e2 := unit_of (Qnum q2) _) in *.
  destruct (Z.leb_spec (2 ^ 1024) (m1 * pow2 e1)) as [O1|O1],
    (Z.leb_spec (2 ^ 1024) (m2 * pow2 e2)) as [O2|O2]; cbn; [done| |done|].
  - exfalso. assert (H : 0 < e1).
    { apply Z.nle_gt. intros Hn. rewrite (pow2_neg e1) in O1 by done.
      assert (2 ^ 53 < 2 ^ 1024) by (by apply Z.pow_lt_mono_r). lia. }
    rewrite (pow2_neg (- e1)), (pow2_neg (- e2)) in Hm by lia. lia.
  - rewrite Qle_bool_iff. unfold Qle. cbn. rewrite !pow2_to_pos. done.
Qed.

(** ** Rounding is monotone and keeps doubles *)

Lemma num_ge_neg a b : num_ge (num_neg a) (num_neg b) = num_ge b a.
Proof.
  destruct a as [x|[]|], b as [y|[]|]; cbn; try done.
  unfold Qle_bool, Qopp. cbn. apply eq_true_iff_eq. rewrite !Z.leb_le. lia.
Qed.

Lemma to_double_nonneg q : 0 <= Qnum q -> num_ge (to_double q) (Finite 0) = true.
Proof.
  intros H. destruct (decide (Qnum q = 0)) as [E|Hne].
  - unfold to_double. rewrite E. done.
  - rewrite to_double_pos by lia. cbn zeta.
    pose proof (significand_bound (Qnum q) (Z.pos (Qden q)) ltac:(lia) (Pos2Z.is_pos _)). pows.
    case_match; [done|]. cbn. rewrite Qle_bool_iff. unfold Qle. cbn. nia.
Qed.

Lemma to_double_mono q1 q2 : (q1 <= q2)%Q -> num_ge (to_double q2) (to_double q1) = true.
Proof.
  intros H. assert (Hs : forall q, to_double q = num_neg (to_double (- q))).
  { intros q. rewrite <- to_double_opp. unfold Qopp. cbn. rewrite Z.opp_involutive. by destruct q. }
  assert (Hn : forall q, Qnum q <= 0 -> num_ge (Finite 0) (to_double q) = true).
  { intros q Hq. rewrite Hs. change (Finite 0) with (num_neg (Finite 0)). rewrite num_ge_neg.
    apply to_double_nonneg. cbn. lia. }
  unfold Qle in H. destruct (Z.lt_trichotomy (Qnum q1) 0) as [L1|[E1|G1]].
  - destruct (Z.lt_trichotomy (Qnum q2) 0) as [L2|G2].
    + rewrite (Hs q1), (Hs q2), num_ge_neg. apply to_double_mono_pos; cbn; [lia..|].
      unfold Qle. cbn. lia.
    + eapply num_ge_trans; [apply to_double_nonneg; lia|]. apply Hn. lia.
  - eapply num_ge_trans; [apply to_double_nonneg; nia|]. apply Hn. lia.
  - apply to_double_mono_pos; [done|nia|done].
Qed.

(** The rationals that are doubles. *)
Definition is_double (q : Q) : Prop :=
  exists m k, Z.abs m < 2 ^ 53 /\ -1074 <= k <= 971 /\
    Qnum q * pow2 (- k) = m * pow2 k * Z.pos (Qden q).

Lemma below_leading n d e : 0 < n -> 0 < d -> e <= leading n d -> pow2 e * d <= n * pow2 (- e).
Proof.
  intros Hn Hd He. destruct (leading_spec n d Hn Hd) as [Hl _].
  pose proof (pow2_shift e (leading n d) He) as Hs. set (l := leading n d) in *.
  pose proof (Z.pow_pos_nonneg 2 (l - e) ltac:(lia) ltac:(lia)). pows.
  apply (Z.mul_le_mono_pos_r _ _ (pow2 (- l))); [done|]. nia.
Qed.

Lemma to_double_exact q : is_double q -> exists r, to_double q = Finite r /\ (r == q)%Q.
Proof.
  assert (Hpos : forall q, 0 < Qnum q -> is_double q -> exists r, to_double q = Finite r /\ (r == q)%Q).
  { clear q. intros q Hq (m & k & Hm & Hk & E). rewrite to_double_pos by done. cbn zeta.
    set (n := Qnum q) in *. set (d := Z.pos (Qden q)) in *. assert (Hd : 0 < d) by done.
    assert (Hm0 : 0 < m) by (pows; nia). rewrite Z.abs_eq in Hm by lia.
    assert (Hl : leading n d < k + 53).
    { apply Z.nle_gt. intros Hle. pose proof (below_leading n d (k + 53) Hq Hd Hle).
      pose proof (pow2_shift k (k + 53) ltac:(lia)) as Hs. replace (k + 53 - k) with 53 in Hs by lia.
      pose proof (pow2_pos k) as P1. pose proof (pow2_pos (- k)) as P2.
      pose proof (pow2_pos (- (k + 53))) as P3. set (c := 2 ^ 53) in *.
      apply (Z.mul_le_mono_nonneg_r _ _ (pow2 (- k))) in H; [|lia].
      replace (pow2 (k + 53) * d * pow2 (- k)) with (c * (pow2 k * pow2 (- (k + 53)) * d)) in H
        by (transitivity (pow2 (k + 53) * pow2 (- k) * d); [rewrite Hs|]; ring).
      replace (n * pow2 (- (k + 53)) * pow2 (- k)) with (m * (pow2 k * pow2 (- (k + 53)) * d)) in H
        by (transitivity (n * pow2 (- k) * pow2 (- (k + 53))); [rewrite E|]; ring).
      apply Z.mul_le_mono_pos_r in H; [lia|]. nia. }
    assert (He : unit_of n d <= k) by (unfold unit_of; lia).
    pose proof (pow2_shift (unit_of n d) k He) as Hs. set (e := unit_of n d) in *.
    assert (Hn : n * pow2 (- e) = m * 2 ^ (k - e) * (d * pow2 e)).
    { pows. apply (Z.mul_cancel_r _ _ (pow2 (- k))); [lia|]. nia. }
    assert (Hsig : significand n d = m * 2 ^ (k - e)).
    { unfold significand. fold e. rewrite Hn. apply rne_exact. pows. nia. }
    rewrite Hsig. replace (2 ^ 1024 <=? m * 2 ^ (k - e) * pow2 e) with false.
    - eexists. split; [done|]. unfold Qeq. cbn. rewrite pow2_to_pos. fold n d. lia.
    - symmetry. apply Z.leb_gt.
      destruct (decide (e <= 0)).
      + rewrite pow2_neg, Z.mul_1_r, <- Hsig by done.
        pose proof (significand_bound n d Hq Hd) as [_ Hb].
        eapply Z.le_lt_trans; [exact Hb|]. by apply Z.pow_lt_mono_r.
      + rewrite pow2_nonneg, <- Z.mul_assoc, <- Z.pow_add_r by lia. replace (k - e + e) with k by lia.
        eapply Z.lt_le_trans with (2 ^ 53 * 2 ^ k).
        * apply Z.mul_lt_mono_pos_r; [apply Z.pow_pos_nonneg; lia|done].
        * rewrite <- Z.pow_add_r by lia. apply Z.pow_le_mono_r; lia. }
  intros H. destruct (Z.lt_trichotomy (Qnum q) 0) as [L|[E|G]]; [| |by apply Hpos].
  - destruct (Hpos (- q)%Q) as (r & Hr & Er); [cbn; lia| |].
    { destruct H as (m & k & Hm & Hk & E). exists (- m), k. cbn. split_and!; lia. }
    rewrite to_double_opp in Hr. destruct (to_double q) as [x| |]; cbn in Hr; [|done..].
    injection Hr as Hr. exists x. split; [done|]. rewrite <- (Qopp_involutive x), Hr, Er. apply Qopp_involutive.
  - exists 0%Q. unfold to_double. rewrite E. split; [done|]. unfold Qeq. by rewrite E.
Qed.

Lemma to_double_between lo hi q :
  is_double lo -> is_double hi -> (lo <= q)%Q -> (q <= hi)%Q ->
  exists r, to_double q = Finite r /\ (lo <= r)%Q /\ (r <= hi)%Q.
Proof.
  intros Hlo Hhi H1 H2. destruct (to_double_exact lo Hlo) as (l & El & Ql).
  destruct (to_double_exact hi Hhi) as (h & Eh & Qh).
  apply to_double_mono in H1, H2. rewrite El in H1. rewrite Eh in H2.
  destruct (to_double q) as [r|[]|]; [|done..]. cbn in H1, H2. rewrite Qle_bool_iff in H1, H2.
  exists r. split; [done|]. by rewrite <- Ql, <- Qh.
Qed.

Lemma is_double_Z z : Z.abs z < 2 ^ 53 -> is_double (inject_Z z).
Proof. intros H. exists z, 0. split; [exact H|]. split; [lia|]. change (pow2 (- 0)) with 1. change (pow2 0) with 1. cbn. lia. Qed.

#[export] Instance is_double_proper : Proper (Qeq ==> iff) is_double.
Proof.
  assert (H : forall x y, (x == y)%Q -> is_double x -> is_double y).
  { intros x y E (m & k & Hm & Hk & Hx). exists m, k. split; [done|]. split; [done|].
    unfold Qeq in E. apply (Z.mul_cancel_r _ _ (Z.pos (Qden x))); [lia|].
    transitivity (Qnum y * Z.pos (Qden x) * pow2 (- k)); [ring|]. rewrite <- E.
    transitivity (Qnum x * pow2 (- k) * Z.pos (Qden y)); [ring|]. rewrite Hx. ring. }
  intros x y E. split; [by apply H|apply H; by symmetry].
Qed.

Lemma num_ge_Finite x y : (y <= x)%Q -> num_ge (Finite x) (Finite y) = true.
Proof. cbn. by rewrite Qle_bool_iff. Qed.
