(* ===== verification/Doubles.v ===== *)
(** * Doubles: integers and orders in double arithmetic

    What [Number] gives for programs that count and compare: [counts n z], a number that
    is the integer [z], with the operators that stay exact below 2^53 and sums of such
    numbers; every finite result is a double; and the sign of a difference of doubles,
    which is what a comparison function [(a, b) => a - b] tells [sort]. *)

From Stdlib Require Import ZArith Lia Lqa QArith Qround Sorted.
From stdpp Require Import base numbers list.
From S2P Require Import Prelude Js Number.
#[local] Open Scope Z_scope.

(** ** Results are doubles *)

Lemma is_double_0 : is_double 0.
Proof. by apply (is_double_Z 0). Qed.

Lemma is_double_opp q : is_double q -> is_double (- q).
Proof. intros (m & k & Hm & Hk & E). exists (- m), k. cbn. split_and!; lia. Qed.

Lemma to_double_double q r : to_double q = Finite r -> is_double r.
Proof.
  assert (Hpos : forall q r, 0 < Qnum q -> to_double q = Finite r -> is_double r).
  { clear q r. intros q r Hq. rewrite to_double_pos by done. cbn zeta. set (n := Qnum q) in *. set (d := Z.pos (Qden q)).
    pose proof (significand_bound n d Hq ltac:(done)) as Hb. pose proof (significand_low n d Hq ltac:(done)) as Hl.
    assert (He0 : -1074 <= unit_of n d) by (unfold unit_of; lia).
    set (m := significand n d) in *. set (e := unit_of n d) in *.
    destruct (Z.leb_spec (2 ^ 1024) (m * pow2 e)) as [|Hlt]; [done|]. intros [= <-]. destruct (decide (m = 2 ^ 53)) as [E|Hne].
    - assert (He : e < 971).
      { apply Z.nle_gt. intros He. rewrite E, pow2_nonneg in Hlt by lia. rewrite <- Z.pow_add_r in Hlt by lia.
        apply Z.pow_lt_mono_r_iff in Hlt; lia. }
      exists (2 ^ 52), (e + 1). split; [done|]. split; [lia|]. cbn [Qnum Qden]. rewrite pow2_to_pos, E.
      pose proof (pow2_shift e (e + 1) ltac:(lia)) as Hs. replace (e + 1 - e) with 1 in Hs by lia.
      transitivity (2 ^ 52 * (2 ^ 1 * (pow2 e * pow2 (- (e + 1))))); [|rewrite <- Hs; ring].
      change (2 ^ 53) with (2 ^ 52 * 2 ^ 1). ring.
    - exists m, e. split; [lia|]. split.
      + split; [done|]. apply Z.nlt_ge. intros He. specialize (Hl ltac:(lia)). rewrite pow2_nonneg in Hlt by lia.
        assert (2 ^ 52 * 2 ^ 972 <= m * 2 ^ e).
        { apply Z.mul_le_mono_nonneg; [done|done|done|]. apply Z.pow_le_mono_r; lia. }
        rewrite <- Z.pow_add_r in H by lia. change (52 + 972) with 1024 in H. lia.
      + cbn [Qnum Qden]. rewrite pow2_to_pos. ring. }
  intros E. destruct (Z.lt_trichotomy (Qnum q) 0) as [L|[Z0|G]]; [| |by eapply Hpos].
  - rewrite <- (Qopp_involutive r). apply is_double_opp. apply (Hpos (- q)%Q); [cbn; lia|]. by rewrite to_double_opp, E.
  - unfold to_double in E. rewrite Z0 in E. injection E as <-. apply is_double_0.
Qed.

(** A number of the program: finite ones are doubles. *)
Definition genuine (n : number) : Prop := match n with Finite q => is_double q | _ => True end.

Lemma genuine_to_double q : genuine (to_double q).
Proof. unfold genuine. case_match eqn:E; [|done..]. by eapply to_double_double. Qed.

Lemma genuine_add a b : genuine (num_add a b).
Proof. destruct a as [x|[]|], b as [y|[]|]; cbn; try done; apply genuine_to_double. Qed.

(** ** The sign of a difference *)

(** A double is a multiple of the least positive one. *)
Lemma is_double_scaled q : is_double q -> exists z, Qnum q * 2 ^ 1074 = z * Z.pos (Qden q).
Proof.
  intros (m & k & _ & Hk & E). destruct (decide (0 <= k)) as [H|H].
  - rewrite (pow2_nonneg k), (pow2_neg (- k)) in E by lia. exists (m * 2 ^ k * 2 ^ 1074). rewrite Z.mul_1_r in E. rewrite E. ring.
  - rewrite (pow2_neg k), (pow2_nonneg (- k)) in E by lia. exists (m * 2 ^ (1074 + k)).
    replace (2 ^ 1074) with (2 ^ (- k) * 2 ^ (1074 + k)) by (rewrite <- Z.pow_add_r by lia; f_equal; lia).
    rewrite Z.mul_assoc, E. ring.
Qed.

Definition least : Q := 1 # Z.to_pos (2 ^ 1074).

Lemma least_double : is_double least.
Proof. exists 1, (-1074). split; [done|]. split; [done|]. reflexivity. Qed.

Lemma doubles_apart a b : is_double a -> is_double b -> (b < a)%Q -> (least <= a - b)%Q.
Proof.
  intros Ha Hb H. apply is_double_scaled in Ha as [x Hx], Hb as [y Hy].
  unfold Qlt in H. unfold Qle, least. cbn [Qnum Qden Qminus Qplus Qopp].
  rewrite Z2Pos.id by done. rewrite Pos2Z.inj_mul. set (K := 2 ^ 1074) in *. assert (HK : 0 < K) by done. clearbody K.
  set (p := Z.pos (Qden a)) in *. set (q := Z.pos (Qden b)) in *. assert (0 < p /\ 0 < q) as [Hp Hq] by done.
  assert (H1 : y < x).
  { apply (Z.mul_lt_mono_pos_r (p * q)); [nia|].
    replace (y * (p * q)) with (Qnum b * K * p) by (rewrite Hy; ring). replace (x * (p * q)) with (Qnum a * K * q) by (rewrite Hx; ring). nia. }
  replace ((Qnum a * q + - Qnum b * p) * K) with (Qnum a * K * q - Qnum b * K * p) by ring. rewrite Hx, Hy. nia.
Qed.

Lemma sub_positive a b : is_double a -> is_double b -> num_lt (int 0) (num_sub (Finite a) (Finite b)) = negb (num_ge (Finite b) (Finite a)).
Proof.
  intros Ha Hb. change (num_sub (Finite a) (Finite b)) with (to_double (a - b)). destruct (num_ge (Finite b) (Finite a)) eqn:E.
  - cbn in E. rewrite Qle_bool_iff in E. assert (H : num_ge (to_double 0) (to_double (a - b)) = true) by (apply to_double_mono; unfold Qminus; lra).
    change (to_double 0) with (int 0) in H. unfold num_lt. cbn [negb]. by destruct (to_double (a - b)) as [x|[]|]; rewrite ?H.
  - assert (Hlt : (b < a)%Q) by (apply Qnot_le_lt; rewrite <- Qle_bool_iff; by apply not_true_iff_false).
    pose proof (to_double_mono _ _ (doubles_apart a b Ha Hb Hlt)) as H. destruct (to_double_exact least least_double) as (l & El & Ql).
    rewrite El in H. destruct (to_double (a - b)) as [x|[]|]; [|done..]. cbn in H. rewrite Qle_bool_iff in H. cbn.
    apply negb_true_iff, not_true_iff_false. rewrite Qle_bool_iff. apply Qlt_not_le. apply Qlt_le_trans with l; [rewrite Ql; done|done].
Qed.

(** [(a, b) => a - b], at most 0 *)
Definition diff_le (a b : number) : bool := negb (num_lt (int 0) (num_sub a b)).

Lemma diff_le_ge a b : isFinite a = true -> isFinite b = true -> genuine a -> genuine b -> diff_le a b = num_ge b a.
Proof. destruct a as [x| |], b as [y| |]; try done. intros _ _ Ha Hb. unfold diff_le. by rewrite sub_positive, negb_involutive. Qed.

(** ** Integers *)

(** The number is the integer. *)
Definition counts (n : number) (z : Z) : Prop := exists q, n = Finite q /\ (q == inject_Z z)%Q.

Lemma counts_int z : counts (int z) z.
Proof. by exists (inject_Z z). Qed.

Lemma counts_to_double q z : (q == inject_Z z)%Q -> Z.abs z < 2 ^ 53 -> counts (to_double q) z.
Proof.
  intros E H. destruct (to_double_exact q) as (r & Er & Hr); [rewrite E; by apply is_double_Z|].
  exists r. split; [done|]. by rewrite Hr.
Qed.

Lemma counts_add a b x y : counts a x -> counts b y -> Z.abs (x + y) < 2 ^ 53 -> counts (num_add a b) (x + y).
Proof. intros (p & -> & Hp) (q & -> & Hq) Hb. apply counts_to_double; [|done]. by rewrite Hp, Hq, <- inject_Z_plus. Qed.

Lemma counts_sub a b x y : counts a x -> counts b y -> Z.abs (x - y) < 2 ^ 53 -> counts (num_sub a b) (x - y).
Proof.
  intros (p & -> & Hp) (q & -> & Hq) Hb. apply counts_to_double; [|done]. by rewrite Hp, Hq, <- inject_Z_opp, <- inject_Z_plus.
Qed.

Lemma counts_mul a b x y : counts a x -> counts b y -> Z.abs (x * y) < 2 ^ 53 -> counts (num_mul a b) (x * y).
Proof. intros (p & -> & Hp) (q & -> & Hq) Hb. apply counts_to_double; [|done]. by rewrite Hp, Hq, <- inject_Z_mult. Qed.

Lemma counts_zero q y : (q == inject_Z y)%Q -> is_zero q = (y =? 0).
Proof.
  unfold Qeq, is_zero. cbn. rewrite Z.mul_1_r. intros ->. apply eq_true_iff_eq. rewrite !Z.eqb_eq. lia.
Qed.

(** A division without remainder *)
Lemma counts_div a b x y : counts a (x * y) -> counts b y -> y <> 0 -> Z.abs x < 2 ^ 53 -> counts (num_div a b) x.
Proof.
  intros (p & -> & Hp) (q & -> & Hq) Hy Hx. cbn [num_div]. rewrite (counts_zero q y Hq), (proj2 (Z.eqb_neq _ _) Hy).
  apply counts_to_double; [|done]. rewrite Hp, Hq, inject_Z_mult. field. change 0%Q with (inject_Z 0). by rewrite inject_Z_injective.
Qed.

Lemma counts_ge a b x y : counts a x -> counts b y -> num_ge a b = (y <=? x).
Proof. intros (p & -> & Hp) (q & -> & Hq). cbn. apply eq_true_iff_eq. rewrite Qle_bool_iff, Hp, Hq, <- Zle_Qle. by rewrite Z.leb_le. Qed.

Lemma counts_lt a b x y : counts a x -> counts b y -> num_lt a b = (x <? y).
Proof.
  intros Ha Hb. pose proof (counts_ge _ _ _ _ Ha Hb) as H. destruct Ha as (p & -> & _), Hb as (q & -> & _). unfold num_lt.
  rewrite H. by rewrite Z.ltb_antisym.
Qed.

Lemma counts_eqb a b x y : counts a x -> counts b y -> num_eqb a b = (x =? y).
Proof.
  intros (p & -> & Hp) (q & -> & Hq). cbn. apply eq_true_iff_eq. rewrite Qeq_bool_iff, Hp, Hq, inject_Z_injective. by rewrite Z.eqb_eq.
Qed.

Lemma counts_max a b x y : counts a x -> counts b y -> counts (num_max a b) (Z.max x y).
Proof.
  intros Ha Hb. pose proof (counts_ge _ _ _ _ Ha Hb) as H. assert (E : num_max a b = if num_ge a b then a else b) by
    (destruct Ha as (p & -> & _), Hb as (q & -> & _); done).
  rewrite E, H. destruct (Z.leb_spec y x); [by rewrite Z.max_l by lia|by rewrite Z.max_r by lia].
Qed.

Lemma counts_min a b x y : counts a x -> counts b y -> counts (num_min a b) (Z.min x y).
Proof.
  intros Ha Hb. pose proof (counts_ge _ _ _ _ Ha Hb) as H. assert (E : num_min a b = if num_ge a b then b else a) by
    (destruct Ha as (p & -> & _), Hb as (q & -> & _); done).
  rewrite E, H. destruct (Z.leb_spec y x); [by rewrite Z.min_r by lia|by rewrite Z.min_l by lia].
Qed.

Lemma counts_genuine a x : Z.abs x < 2 ^ 53 -> counts a x -> genuine a.
Proof. intros H (q & -> & Hq). unfold genuine. rewrite Hq. by apply is_double_Z. Qed.

(** ** Sums *)

(** [l.reduce((sum, x) => sum + f(x), acc)] *)
Definition sumOf {A} (f : A -> number) (acc : number) (l : list A) : number := foldl (fun s x => num_add s (f x)) acc l.
Definition zsum {A} (g : A -> Z) (l : list A) : Z := foldr (fun x s => g x + s) 0 l.

Lemma zsum_nonneg {A} (g : A -> Z) l : (forall x, x ∈ l -> 0 <= g x) -> 0 <= zsum g l.
Proof.
  induction l as [|x l IH]; cbn; [done|]. intros H. specialize (H x ltac:(by left)) as Hx.
  enough (0 <= zsum g l) by (unfold zsum in *; lia). apply IH. intros; apply H; by right.
Qed.

Lemma counts_sumOf {A} (f : A -> number) (g : A -> Z) l acc a :
  (forall x, x ∈ l -> counts (f x) (g x)) -> counts acc a -> Z.abs a + zsum (fun x => Z.abs (g x)) l < 2 ^ 53 ->
  counts (sumOf f acc l) (a + zsum g l).
Proof.
  assert (Hn : forall l, 0 <= zsum (fun x => Z.abs (g x)) l) by (intros l'; apply zsum_nonneg; lia).
  unfold zsum in *. revert acc a. induction l as [|x l IH]; intros acc a Hf Ha Hb; cbn in *; [by rewrite Z.add_0_r|].
  rewrite Z.add_assoc. specialize (Hn l). apply IH; [intros; apply Hf; by right|apply counts_add; [done|apply Hf; by left|lia]|lia].
Qed.

Lemma zsum_ext {A} (g h : A -> Z) l : (forall x, x ∈ l -> g x = h x) -> zsum g l = zsum h l.
Proof.
  unfold zsum. induction l as [|x l IH]; cbn; [done|]. intros H. rewrite (H x) by (by left). rewrite IH; [done|]. intros; apply H; by right.
Qed.

Lemma zsum_linear {A} (g h : A -> Z) u v l : zsum (fun x => u * g x + v * h x) l = u * zsum g l + v * zsum h l.
Proof. unfold zsum. induction l as [|x l IH]; cbn; [lia|]. rewrite IH. ring. Qed.

Lemma zsum_const {A} (c : Z) (l : list A) : zsum (fun _ => c) l = c * Z.of_nat (length l).
Proof. induction l as [|x l IH]; cbn [zsum foldr length] in *; [lia|]. unfold zsum in IH. rewrite IH. lia. Qed.

Lemma zsum_fmap {A B} (f : A -> B) (g : B -> Z) l : zsum g (f <$> l) = zsum (fun x => g (f x)) l.
Proof. induction l as [|x l IH]; cbn; [done|]. f_equal. exact IH. Qed.

Lemma sumOf_fmap {A B} (f : A -> B) (g : B -> number) acc l : sumOf g acc (f <$> l) = sumOf (fun x => g (f x)) acc l.
Proof. unfold sumOf. revert acc. induction l as [|x l IH]; intros acc; cbn; [done|]. apply IH. Qed.

Lemma zip_fmap_both {A B C} (f : A -> B) (g : A -> C) l : zip (f <$> l) (g <$> l) = (fun x => (f x, g x)) <$> l.
Proof. induction l as [|x l IH]; cbn; [done|]. f_equal. exact IH. Qed.

(** ** Sorting by a difference *)

Lemma insert_by_ext {A} (le le' : A -> A -> bool) x l :
  (forall y, y ∈ l -> le x y = le' x y) -> insert_by le x l = insert_by le' x l.
Proof.
  induction l as [|y l IH]; intros H; cbn; [done|]. rewrite (H y) by (by left). destruct (le' x y); [done|].
  f_equal. apply IH. intros; apply H; by right.
Qed.

Lemma sort_by_ext {A} (le le' : A -> A -> bool) l :
  (forall x y, x ∈ l -> y ∈ l -> le x y = le' x y) -> sort_by le l = sort_by le' l.
Proof.
  induction l as [|x l IH]; intros H; cbn; [done|]. fold (sort_by le l) (sort_by le' l). rewrite IH by (intros; apply H; by right).
  apply insert_by_ext. intros y Hy. apply H; [by left|]. right. by apply elem_of_sort_by in Hy.
Qed.

(** The rational of a finite number *)
Definition rat (n : number) : Q := match n with Finite q => q | _ => 0 end.

Lemma StronglySorted_impl_in {A} (R S : A -> A -> Prop) l : (forall x y, x ∈ l -> y ∈ l -> R x y -> S x y) ->
  StronglySorted R l -> StronglySorted S l.
Proof.
  intros H Hs. induction Hs as [|x l Hs IH Hx]; constructor; [apply IH; intros x' y' Hx' Hy'; apply H; by right|].
  rewrite Forall_forall in Hx |- *. intros y Hy. apply H; [by left|by right|by apply Hx].
Qed.

(** An array sorted by a comparison that, on its elements, is that of some rationals *)
Lemma sort_by_rat {A} (le : A -> A -> bool) (v : A -> Q) l : (forall x y, x ∈ l -> y ∈ l -> le x y = Qle_bool (v x) (v y)) ->
  StronglySorted (fun a b => le a b = true) (sort_by le l).
Proof.
  intros H. rewrite (sort_by_ext _ _ _ H). pose (le' := fun a b => Qle_bool (v a) (v b)). fold le'.
  assert (Hs : StronglySorted (fun a b => le' a b = true) (sort_by le' l)).
  { apply sort_by_sorted; unfold le'.
    - intros a b. rewrite !Qle_bool_iff. destruct (Qlt_le_dec (v a) (v b)); [left; by apply Qlt_le_weak|by right].
    - intros a b c. rewrite !Qle_bool_iff. apply Qle_trans. }
  eapply StronglySorted_impl_in; [|exact Hs]. intros x y. rewrite !elem_of_sort_by. intros Hx Hy E. by rewrite H.
Qed.

Lemma diff_le_rat a b : isFinite a = true -> isFinite b = true -> genuine a -> genuine b -> diff_le a b = Qle_bool (rat a) (rat b).
Proof. intros Fa Fb Ga Gb. rewrite diff_le_ge by done. by destruct a, b. Qed.

(** An array sorted by the difference of genuine finite numbers is in their order, or in the opposite one. *)
Lemma sort_by_diff {A} (f : A -> number) l : (forall x, x ∈ l -> isFinite (f x) = true /\ genuine (f x)) ->
  StronglySorted (fun a b => num_ge (f b) (f a) = true) (sort_by (fun a b => diff_le (f a) (f b)) l) /\
  StronglySorted (fun a b => num_ge (f a) (f b) = true) (sort_by (fun a b => diff_le (f b) (f a)) l).
Proof.
  intros H. assert (E : forall x y, x ∈ l -> y ∈ l -> diff_le (f x) (f y) = num_ge (f y) (f x) /\ diff_le (f x) (f y) = Qle_bool (rat (f x)) (rat (f y))).
  { intros x y [Fx Gx]%H [Fy Gy]%H. split; [by apply diff_le_ge|by apply diff_le_rat]. }
  split.
  - eapply StronglySorted_impl_in; [|apply (sort_by_rat _ (fun x => rat (f x))); intros x y Hx Hy; by apply E].
    intros x y Hx%elem_of_sort_by Hy%elem_of_sort_by. cbn beta. by rewrite (proj1 (E x y Hx Hy)).
  - eapply StronglySorted_impl_in; [|apply (sort_by_rat _ (fun x => - rat (f x))%Q)]; cbn beta.
    + intros x y Hx%elem_of_sort_by Hy%elem_of_sort_by. cbn beta. by rewrite (proj1 (E y x Hy Hx)).
    + intros x y Hx Hy. rewrite (proj2 (E y x Hy Hx)). apply eq_true_iff_eq. rewrite !Qle_bool_iff. split; lra.
Qed.

(** ** Absolute values, square roots and bounds *)

(** [Math.abs] *)
Definition num_abs (n : number) : number :=
  match n with Finite q => Finite (Qmake (Z.abs (Qnum q)) (Qden q)) | Infinite _ => Infinite false | NaN => NaN end.

(** [Math.sqrt] of a non-negative integer below 2^53: 60 binary places and whether there are
    more decide the rounding. *)
Definition num_sqrt (n : Z) : number :=
  let r := Z.sqrt (n * 4 ^ 60) in
  to_double (Qmake (2 * r + (if r * r =? n * 4 ^ 60 then 0 else 1)) (2 ^ 61)).

Lemma num_sqrt_ge n k : 0 <= k -> k * k <= n -> is_double (inject_Z k) -> num_ge (num_sqrt n) (int k) = true.
Proof.
  intros Hk Hn Hd. unfold num_sqrt. set (r := Z.sqrt (n * 4 ^ 60)). destruct (to_double_exact _ Hd) as (d & Ed & Qd).
  apply num_ge_trans with (to_double (inject_Z k)); [|rewrite Ed; apply num_ge_Finite; rewrite Qd; apply Qle_refl].
  apply to_double_mono. unfold Qle. cbn [Qnum Qden inject_Z]. rewrite Z.mul_1_r.
  assert (H : k * 2 ^ 60 <= r).
  { unfold r. rewrite <- (Z.sqrt_square (k * 2 ^ 60)) by lia. apply Z.sqrt_le_mono. change (4 ^ 60) with (2 ^ 60 * 2 ^ 60). nia. }
  change (Z.pos (2 ^ 61)) with (2 * 2 ^ 60). case_match; lia.
Qed.

(** ** How far rounding moves a small number *)

Lemma is_double_grid k : Z.abs k < 2 ^ 53 -> is_double (k # 2 ^ 44).
Proof. intros H. exists k, (-44). split; [exact H|]. split; [lia|]. change (pow2 (- (-44))) with (2 ^ 44). change (pow2 (-44)) with 1. cbn [Qnum Qden]. lia. Qed.

Lemma to_double_near q : (0 <= q)%Q -> (q <= 511 # 1)%Q ->
  exists r, to_double q = Finite r /\ (0 <= r)%Q /\ (q - (1 # 2 ^ 44) <= r)%Q /\ (r <= q + (1 # 2 ^ 44))%Q.
Proof.
  intros H0 H1. set (z := Qfloor (q * inject_Z (2 ^ 44))).
  pose proof (Qfloor_le (q * inject_Z (2 ^ 44))) as L. pose proof (Qlt_floor (q * inject_Z (2 ^ 44))) as U. fold z in L, U.
  rewrite inject_Z_plus in U. change (inject_Z (2 ^ 44)) with (17592186044416 # 1)%Q in L, U.
  assert (Hz : 0 <= z < 2 ^ 53 - 1).
  { split.
    - apply (Qfloor_resp_le 0 (q * inject_Z (2 ^ 44))). change (inject_Z (2 ^ 44)) with (17592186044416 # 1)%Q. lra.
    - apply Z.le_lt_trans with (511 * 2 ^ 44); [|done]. rewrite Zle_Qle. eapply Qle_trans; [exact L|].
      change (inject_Z (511 * 2 ^ 44)) with (8989607068696576 # 1)%Q. lra. }
  assert (E : forall k, (k # 2 ^ 44 == inject_Z k * (1 # 2 ^ 44))%Q) by (intros k; unfold Qeq; cbn; lia).
  destruct (to_double_between (z # 2 ^ 44) ((z + 1) # 2 ^ 44) q) as (r & Er & R1 & R2).
  - apply is_double_grid. lia.
  - apply is_double_grid. lia.
  - rewrite E. change (1 # 2 ^ 44)%Q with (1 # 17592186044416)%Q. lra.
  - rewrite E, inject_Z_plus. change (1 # 2 ^ 44)%Q with (1 # 17592186044416)%Q. change (inject_Z 1) with 1%Q in *. lra.
  - exists r. rewrite E in R1. rewrite E, inject_Z_plus in R2. change (1 # 2 ^ 44)%Q with (1 # 17592186044416)%Q in *.
    change (inject_Z 1) with 1%Q in *. assert (0 <= inject_Z z)%Q by (rewrite <- (Zle_Qle 0); lia).
    split_and!; [done|lra..].
Qed.

(** A finite number from [lo] to [hi] *)
Definition in_range (lo hi : Z) (n : number) : Prop := exists q, n = Finite q /\ (inject_Z lo <= q)%Q /\ (q <= inject_Z hi)%Q.

Lemma in_range_int lo hi z : lo <= z <= hi -> in_range lo hi (int z).
Proof. intros H. exists (inject_Z z). rewrite <- !Zle_Qle. by split. Qed.

Lemma in_range_to_double lo hi q : Z.abs lo < 2 ^ 53 -> Z.abs hi < 2 ^ 53 -> (inject_Z lo <= q)%Q -> (q <= inject_Z hi)%Q ->
  in_range lo hi (to_double q).
Proof.
  intros Hl Hh H1 H2. destruct (to_double_between (inject_Z lo) (inject_Z hi) q) as (r & Er & R1 & R2); [by apply is_double_Z..|done|done|].
  by exists r.
Qed.

Lemma in_range_add lo hi lo' hi' a b : in_range lo hi a -> in_range lo' hi' b -> Z.abs (lo + lo') < 2 ^ 53 -> Z.abs (hi + hi') < 2 ^ 53 ->
  in_range (lo + lo') (hi + hi') (num_add a b).
Proof.
  intros (p & -> & P1 & P2) (q & -> & Q1 & Q2) Hl Hh. apply in_range_to_double; [done|done|rewrite inject_Z_plus; lra..].
Qed.

Lemma in_range_sub lo hi lo' hi' a b : in_range lo hi a -> in_range lo' hi' b -> Z.abs (lo - hi') < 2 ^ 53 -> Z.abs (hi - lo') < 2 ^ 53 ->
  in_range (lo - hi') (hi - lo') (num_sub a b).
Proof.
  intros (p & -> & P1 & P2) (q & -> & Q1 & Q2) Hl Hh.
  apply in_range_to_double; [done|done| |]; unfold Z.sub; rewrite inject_Z_plus, inject_Z_opp; lra.
Qed.

Lemma in_range_abs k n : in_range (- k) k n -> in_range 0 k (num_abs n).
Proof.
  intros ([a d] & -> & H1 & H2). eexists. split; [reflexivity|]. unfold Qle in *. cbn in *. lia.
Qed.

Lemma in_range_le lo hi lo' hi' n : in_range lo hi n -> lo' <= lo -> hi <= hi' -> in_range lo' hi' n.
Proof.
  intros (q & -> & H1 & H2) Hl Hh. exists q. split; [done|]. rewrite Zle_Qle in Hl, Hh. split; lra.
Qed.

(** A division by a positive integer *)
Lemma in_range_div hi k a b : in_range 0 (hi * k) a -> counts b k -> 0 < k -> 0 <= hi < 2 ^ 53 -> in_range 0 hi (num_div a b).
Proof.
  intros (p & -> & P1 & P2) (q & -> & Hq) Hk Hh. cbn [num_div]. rewrite (counts_zero q k Hq), (proj2 (Z.eqb_neq _ _)) by lia.
  assert (Hpos : (0 < q)%Q) by (rewrite Hq; change 0%Q with (inject_Z 0); by rewrite <- Zlt_Qlt).
  apply in_range_to_double; [done|lia| |].
  - apply Qle_shift_div_l; [done|]. change (inject_Z 0) with 0%Q in *. by rewrite Qmult_0_l.
  - apply Qle_shift_div_r; [done|]. by rewrite Hq, <- inject_Z_mult.
Qed.

Lemma in_range_mul hi k a b : in_range 0 hi a -> counts b k -> 0 <= k -> 0 <= hi -> hi * k < 2 ^ 53 -> in_range 0 (hi * k) (num_mul b a).
Proof.
  intros (p & -> & P1 & P2) (q & -> & Hq) Hk Hh Hb. change (inject_Z 0) with 0%Q in *. apply in_range_to_double; [done|nia| |].
  - change (inject_Z 0) with 0%Q. apply Qmult_le_0_compat; [|done]. rewrite Hq. change 0%Q with (inject_Z 0). by rewrite <- Zle_Qle.
  - rewrite Hq, inject_Z_mult, (Qmult_comm (inject_Z k)). apply Qmult_le_compat_r; [done|]. change 0%Q with (inject_Z 0). by rewrite <- Zle_Qle.
Qed.

(** A sum of numbers from 0 to 1 *)
Lemma in_range_sum {A} (f : A -> number) l acc k : (forall x, x ∈ l -> in_range 0 1 (f x)) -> in_range 0 k acc ->
  0 <= k -> k + Z.of_nat (length l) < 2 ^ 53 -> in_range 0 (k + Z.of_nat (length l)) (sumOf f acc l).
Proof.
  revert acc k. induction l as [|x l IH]; intros acc k Hf Ha Hk Hb; cbn [sumOf foldl length] in *; [by rewrite Z.add_0_r|].
  replace (k + Z.of_nat (S (length l))) with (k + 1 + Z.of_nat (length l)) by lia. apply IH; [intros; apply Hf; by right| |lia|lia].
  change 0 with (0 + 0) at 1. apply in_range_add; [done|apply Hf; by left|lia|lia].
Qed.
