(* ===== verification/Config.v ===== *)
(** * Configuration values ([src/src/config/utils.ts])

    The configuration is a tree of plain objects, read with [getIn], merged, cloned
    and updated in place ([setIn], [deleteIn]); an object is its own members in
    insertion order ([Object.keys] lists array-index keys first; no result below
    depends on the order), without the members every object inherits from its
    prototype. *)

From Stdlib Require Import ZArith Lia Ascii String QArith.
From stdpp Require Import base numbers list strings sets.
From S2P Require Import Prelude Js Text Number.
#[local] Open Scope Z_scope.

(** ** Values *)

Inductive value :=
  | VUndefined | VNull | VBool (b : bool) | VNumber (n : number) | VString (s : string)
  | VArray (l : list value) | VObject (l : list (string * value)).

(** [v !== null && typeof v === 'object' && !Array.isArray(v)] *)
Definition isObject (v : value) : bool := match v with VObject _ => true | _ => false end.

(** [v === null || v === undefined || typeof v !== 'object'], negated *)
Definition hasMembers (v : value) : bool :=
  match v with VObject _ | VArray _ => true | _ => false end.

(** [if (v)] *)
Definition truthy (v : value) : bool :=
  match v with
  | VUndefined | VNull | VBool false | VNumber NaN => false
  | VNumber n => negb (num_eqb n (Finite 0))
  | VString str => negb (falsy str)
  | _ => true
  end.

(** [v[key]] for an object or an array *)
Fixpoint index_member (key : string) (i : Z) (l : list value) : value :=
  match l with
  | [] => VUndefined
  | v :: l' => if bool_decide (key = print_Z i) then v else index_member key (i + 1) l'
  end.

Definition member (v : value) (key : string) : value :=
  match v with
  | VObject l => default VUndefined (assoc_get key l)
  | VArray l => if bool_decide (key = "length") then VNumber (Finite (inject_Z (Z.of_nat (length l))))
                else index_member key 0 l
  | _ => VUndefined
  end.

(** [getIn(obj, path, defaultValue)], for a path as an array of keys *)
Fixpoint getIn_keys (obj : value) (keys : list string) (defaultValue : value) : value :=
  match keys with
  | [] => match obj with VUndefined => defaultValue | v => v end
  | key :: keys' =>
      if hasMembers obj then getIn_keys (member obj key) keys' defaultValue else defaultValue
  end.

(** and for a dotted string *)
Definition getIn (obj : value) (path : string) (defaultValue : value) : value :=
  getIn_keys obj (split "."%char path) defaultValue.

(** ** [deepMerge]

    [merge_into dst src] is one round of the outer loop, with [result] holding the
    members [dst].  Its recursive call [deepMerge(destValue, sourceValue)] first
    copies the members of [destValue] into a new object, where no key is present
    yet, and then merges [sourceValue] into the copy. *)

Definition copy_members (l : list (string * value)) : list (string * value) :=
  foldl (fun result kv => assoc_set kv.1 kv.2 result) [] l.

Fixpoint merge_into (result : list (string * value)) (source : value) {struct source}
    : list (string * value) :=
  let assign key sourceValue result :=
    match sourceValue, assoc_get key result with
    | VObject _, Some (VObject dl) =>
        assoc_set key (VObject (merge_into (copy_members dl) sourceValue)) result
    | _, _ => assoc_set key sourceValue result
    end in
  match source with
  | VObject l =>
      (fix members (result l : list (string * value)) :=
         match l with
         | [] => result
         | (key, v) :: l' => members (assign key v result) l'
         end) result l
  | VArray l =>
      (fix elements (i : Z) (result : list (string * value)) (l : list value) :=
         match l with
         | [] => result
         | v :: l' => elements (i + 1) (assign (print_Z i) v result) l'
         end) 0 result l
  | _ => result
  end.

Definition deepMerge (sources : list value) : value :=
  VObject (foldl merge_into [] sources).

(** [deepClone] *)
Fixpoint deepClone (v : value) : value :=
  match v with
  | VArray l => VArray (deepClone <$> l)
  | VObject l =>
      VObject ((fix members (result : list (string * value)) (l : list (string * value)) :=
                  match l with
                  | [] => result
                  | (key, v) :: l' => members (assoc_set key (deepClone v) result) l'
                  end) [] l)
  | v => v
  end.

(** ** [Number(s)]

    A decimal literal is read exactly and then rounded to the nearest double, ties
    to even; a literal with a radix prefix has no sign. *)

Definition digits_value (s : string) : Z := default 0 (radix_digits 10 0 s).

(** What follows the mantissa: nothing, or an exponent. *)
Definition exponent (s : string) : option Z :=
  match s with
  | EmptyString => Some 0
  | String c s' =>
      if bool_decide (c = "e"%char) || bool_decide (c = "E"%char) then
        let '(negative, t) :=
          match s' with
          | String "-" t => (true, t)
          | String "+" t => (false, t)
          | _ => (false, s')
          end in
        let '(digits, rest) := span_digits t in
        if falsy digits || negb (falsy rest) then None
        else Some (if negative then - digits_value digits else digits_value digits)
      else None
  end.

(** An unsigned decimal literal. *)
Definition decimalLiteral (s : string) : option Q :=
  let '(whole, r1) := span_digits s in
  let '(frac, r2) := match r1 with String "." r => span_digits r | _ => ("", r1) end in
  if falsy whole && falsy frac then None else
  match exponent r2 with
  | Some e =>
      let m := digits_value (whole +:+ frac) in
      let k := e - Z.of_nat (String.length frac) in
      Some (Qmake (m * 10 ^ Z.max 0 k) (Z.to_pos (10 ^ Z.max 0 (- k))))
  | None => None
  end.

Definition unsignedNumber (s : string) : number :=
  if bool_decide (s = "Infinity") then Infinite false
  else match decimalLiteral s with Some q => to_double q | None => NaN end.

Definition Number_ (s : string) : number :=
  let t := trim s in
  match t with
  | EmptyString => Finite 0
  | String "-" s' => num_neg (unsignedNumber s')
  | String "+" s' => unsignedNumber s'
  | String "0" (String r (String c ds)) =>
      match radix_of r with
      | Some base => match radix_digits base 0 (String c ds) with
                     | Some z => to_double (inject_Z z)
                     | None => NaN
                     end
      | None => unsignedNumber t
      end
  | _ => unsignedNumber t
  end.

Example Number_samples :
  (fun p => num_eqb (Number_ p.1) p.2) <$>
    [("8080", Finite 8080); (" 1e3 ", Finite 1000); ("", Finite 0); ("-.5", Finite (-1 # 2));
     ("0x1F", Finite 31); ("0.1", Finite (3602879701896397 # 36028797018963968));
     ("9007199254740993", Finite 9007199254740992); ("1e309", Infinite false); ("-Infinity", Infinite true)]
  = repeat true 9 /\
  (Number_ <$> ["abc"; "1 2"; "."; "-0x1"; "1e"; "+-1"]) = repeat NaN 6.
Proof. vm_compute. split; reflexivity. Qed.

(** [parseEnvValue(value, targetType)] for a variable that is set *)
Inductive EnvType := EnvString | EnvNumber | EnvBoolean | EnvArray.

Definition parseEnvValue (v : string) (targetType : EnvType) : value :=
  match targetType with
  | EnvNumber => VNumber (Number_ v)
  | EnvBoolean => VBool (bool_decide (toLowerCase v ∈ ["true"; "1"; "yes"]))
  | EnvArray =>
      VArray (VString <$> filter (fun s => falsy s = false) (trim <$> split ","%char v))
  | EnvString => VString v
  end.

(** ** Updates in place: [setIn], [deleteIn]

    The tree after the update, or the [TypeError] of assigning a property of a
    primitive.  An array is its elements: an assignment that would give it other
    members or holes is [Unmodelled]. *)

Inductive SetResult := Updated (v : value) | SetTypeError | Unmodelled.

Definition array_index (key : string) : option nat :=
  match parse_Z key with
  | Some z => if (0 <=? z) && String.eqb (print_Z z) key then Some (Z.to_nat z) else None
  | None => None
  end.

(** [current[key] = v] *)
Definition assignMember (current : value) (key : string) (v : value) : SetResult :=
  match current with
  | VObject l => Updated (VObject (assoc_set key v l))
  | VArray l =>
      match array_index key with
      | Some i => if (i <? length l)%nat then Updated (VArray (<[i := v]> l))
                  else if (i =? length l)%nat then Updated (VArray (l ++ [v]))
                  else Unmodelled
      | None => Unmodelled
      end
  | _ => SetTypeError
  end.

(** [keys[keys.length - 1]] of no keys is [undefined], which names a member. *)
Fixpoint setIn_keys (current : value) (keys : list string) (v : value) : SetResult :=
  match keys with
  | [] => assignMember current "undefined" v
  | [key] => assignMember current key v
  | key :: rest =>
      if hasMembers current then
        let child := match member current key with
                     | VUndefined | VNull => VObject []
                     | c => c
                     end in
        match setIn_keys child rest v with
        | Updated child' => assignMember current key child'
        | r => r
        end
      else SetTypeError
  end.

Definition setIn (obj : value) (path : string) (v : value) : SetResult :=
  setIn_keys obj (split "."%char path) v.

(** [delete parent[key]] or [parent.splice(Number(key), 1)]; [None] is the answer
    [false]. *)
Definition deleteMember (parent : value) (key : string) : option value :=
  match parent with
  | VArray l =>
      match Number_ key with
      | Finite q =>
          let i := Qnum q / Z.pos (Qden q) in
          if (Qnum q <? 0) || (Z.of_nat (length l) * Z.pos (Qden q) <=? Qnum q) then None
          else Some (VArray (take (Z.to_nat i) l ++ drop (S (Z.to_nat i)) l))
      | _ => None
      end
  | VObject l => Some (VObject (assoc_del key l))
  | _ => None
  end.

Fixpoint deleteIn_keys (current : value) (keys : list string) : option value :=
  match keys with
  | [] => None
  | [key] => if falsy key then None else deleteMember current key
  | key :: rest =>
      match current with
      | VObject l =>
          match deleteIn_keys (member current key) rest with
          | Some child => Some (VObject (assoc_set key child l))
          | None => None
          end
      | VArray l =>
          match array_index key, deleteIn_keys (member current key) rest with
          | Some i, Some child => Some (VArray (<[i := child]> l))
          | _, _ => None
          end
      | _ => None
      end
  end.

(** The tree after the deletion, if it answers [true].  When the path is an array
    of keys, its last key is popped off the caller's array. *)
Definition deleteIn (obj : value) (path : string) : option value :=
  deleteIn_keys obj (split "."%char path).

(** ** Well-formed trees: the keys of every object are distinct *)

Fixpoint wf (v : value) : bool :=
  match v with
  | VArray l => forallb wf l
  | VObject l => bool_decide (NoDup l.*1) && forallb (fun kv => wf kv.2) l
  | _ => true
  end.

Lemma wf_object l :
  wf (VObject l) = true <-> NoDup l.*1 /\ forall k v, assoc_get k l = Some v -> wf v = true.
Proof.
  cbn. rewrite andb_true_iff, bool_decide_eq_true, forallb_forall.
  split; intros [Hn Hl]; (split; [done|]).
  - intros k v Hk. apply (Hl (k, v)). apply list_elem_of_In. by apply assoc_get_elem_of.
  - intros [k v] Hin%list_elem_of_In. apply (Hl k).
    by apply (elem_of_jsmap_lookup (JsMap l)).
Qed.

Lemma assoc_get_set (k k' : string) (v : value) l :
  assoc_get k' (assoc_set k v l) = if decide (k = k') then Some v else assoc_get k' l.
Proof. apply (jsmap_lookup_insert (JsMap l)). Qed.

Lemma copy_members_get l k :
  NoDup l.*1 -> assoc_get k (copy_members l) = assoc_get k l.
Proof.
  unfold copy_members. intros Hn.
  assert (H : forall acc, (forall x, x ∈ l.*1 -> x ∉ acc.*1) ->
    assoc_get k (foldl (fun r kv => assoc_set kv.1 kv.2 r) acc l)
    = match assoc_get k l with Some v => Some v | None => assoc_get k acc end).
  { induction l as [|[k0 v0] l IH]; intros acc Hd; [done|]. cbn [foldl fst snd].
    rewrite fmap_cons, NoDup_cons in Hn. destruct Hn as [Hk0 Hn].
    rewrite IH; [|done|].
    - rewrite assoc_get_set. cbn [assoc_get]. destruct (decide (k = k0)) as [->|Hne].
      + rewrite decide_True by done. by rewrite (proj2 (assoc_get_None l k0) Hk0).
      + by rewrite decide_False by done.
    - intros x Hx. rewrite assoc_set_keys. cbn in Hk0.
      case_decide; [apply Hd; by right|]. rewrite elem_of_app, list_elem_of_singleton.
      intros [?| ->]; [by eapply Hd; [right|]|done]. }
  rewrite H by set_solver. by destruct (assoc_get k l).
Qed.

(** The members of a merge, one by one. *)
Definition assign (key : string) (sourceValue : value) (result : list (string * value)) :=
  match sourceValue, assoc_get key result with
  | VObject _, Some (VObject dl) =>
      assoc_set key (VObject (merge_into (copy_members dl) sourceValue)) result
  | _, _ => assoc_set key sourceValue result
  end.

Lemma merge_into_object result l :
  merge_into result (VObject l) = foldl (fun r kv => assign kv.1 kv.2 r) result l.
Proof.
  revert result. induction l as [|[k v] l IH]; intros result; [done|].
  cbn [foldl fst snd]. by rewrite <- IH.
Qed.

Lemma assign_get key v result k :
  assoc_get k (assign key v result) =
  if decide (key = k)
  then Some (match v, assoc_get key result with
             | VObject _, Some (VObject dl) => VObject (merge_into (copy_members dl) v)
             | _, _ => v
             end)
  else assoc_get k result.
Proof.
  unfold assign. destruct v; try (by rewrite assoc_get_set).
  destruct (assoc_get key result) as [[]|]; by rewrite assoc_get_set.
Qed.

Lemma merge_into_get result l k :
  NoDup l.*1 ->
  assoc_get k (merge_into result (VObject l)) =
  match assoc_get k l with
  | None => assoc_get k result
  | Some v => Some (match v, assoc_get k result with
                    | VObject _, Some (VObject dl) => VObject (merge_into (copy_members dl) v)
                    | _, _ => v
                    end)
  end.
Proof.
  rewrite merge_into_object. revert result.
  induction l as [|[k0 v0] l IH]; intros result Hn; [done|]. cbn [foldl fst snd].
  rewrite fmap_cons, NoDup_cons in Hn. destruct Hn as [Hk0 Hn]. cbn in Hk0.
  rewrite IH by done. rewrite assign_get. cbn [assoc_get].
  destruct (decide (k = k0)) as [->|Hne].
  - by rewrite (proj2 (assoc_get_None l k0) Hk0), decide_True.
  - by rewrite decide_False by done.
Qed.

(** What one layer of configuration over another answers for a key. *)
Lemma deepMerge_two b o :
  NoDup b.*1 -> deepMerge [VObject b; VObject o] = VObject (merge_into (copy_members b) (VObject o)).
Proof.
  intros Hb. unfold deepMerge. cbn [foldl]. do 2 f_equal.
  rewrite merge_into_object. unfold copy_members.
  assert (H : forall acc, (forall x, x ∈ b.*1 -> x ∉ acc.*1) ->
    foldl (fun r kv => assign kv.1 kv.2 r) acc b
    = foldl (fun r kv => assoc_set kv.1 kv.2 r) acc b).
  { induction b as [|[k v] b IH]; intros acc Hd; [done|]. cbn [foldl fst snd].
    rewrite fmap_cons, NoDup_cons in Hb. destruct Hb as [Hk Hb].
    replace (assign k v acc) with (assoc_set k v acc).
    - apply IH; [done|]. intros x Hx. rewrite assoc_set_keys. cbn in Hk.
      case_decide; [apply Hd; by right|]. rewrite elem_of_app, list_elem_of_singleton.
      intros [?| ->]; [by eapply Hd; [right|]|done].
    - unfold assign. rewrite (proj2 (assoc_get_None acc k)) by (apply Hd; left). by destruct v. }
  apply H. set_solver.
Qed.

Lemma deepMerge_member b o k :
  NoDup b.*1 -> NoDup o.*1 ->
  member (deepMerge [VObject b; VObject o]) k =
  match assoc_get k o with
  | None => member (VObject b) k
  | Some ov => match ov, assoc_get k b with
               | VObject _, Some (VObject bl) => VObject (merge_into (copy_members bl) ov)
               | _, _ => ov
               end
  end.
Proof.
  intros Hb Ho. rewrite deepMerge_two by done. cbn [member].
  rewrite merge_into_get, copy_members_get by done.
  destruct (assoc_get k o) as [ov|]; done.
Qed.

(** A path on which the override says nothing: both trees have objects up to a key
    that the override lacks. *)
Fixpoint untouched (b o : value) (keys : list string) : bool :=
  match keys, b, o with
  | k :: keys', VObject bl, VObject ol =>
      match assoc_get k ol, assoc_get k bl with
      | None, _ => true
      | Some ov, Some bv => untouched bv ov keys'
      | Some _, None => false
      end
  | _, _, _ => false
  end.

(** layered configuration.  Merging an override over a base, a path at which
    the override holds a value other than an object (or [undefined]) reads that
    value, whatever the base holds there or above it; a path the override does
    not touch reads what the base says, defaults included. *)
Theorem override_wins_path_by_path b o keys d :
  wf (VObject b) = true -> wf (VObject o) = true ->
  let merged := deepMerge [VObject b; VObject o] in
  (forall v, keys <> [] -> getIn_keys (VObject o) keys VUndefined = v -> v <> VUndefined ->
     isObject v = false -> getIn_keys merged keys d = v) /\
  (untouched (VObject b) (VObject o) keys = true ->
     getIn_keys merged keys d = getIn_keys (VObject b) keys d).
Proof.
  cbn zeta. revert b o. induction keys as [|k keys IH]; intros b o Hb Ho; [done|].
  apply wf_object in Hb as [Hbn Hb]. apply wf_object in Ho as [Hon Ho].
  assert (E : forall w, getIn_keys (deepMerge [VObject b; VObject o]) (k :: keys) w
            = getIn_keys (member (deepMerge [VObject b; VObject o]) k) keys w) by done.
  rewrite E, deepMerge_member by done. cbn [getIn_keys hasMembers member untouched].
  destruct (assoc_get k o) as [ov|] eqn:Eo; cbn [default].
  - assert (Hdef : forall v, getIn_keys ov keys VUndefined = v -> v <> VUndefined ->
              getIn_keys ov keys d = v).
    { clear. revert ov. induction keys as [|k keys IH]; intros ov v; cbn.
      - destruct ov; congruence.
      - destruct (hasMembers ov); [apply IH|congruence]. }
    destruct ov as [| | | | | |ol];
      try (split; [intros v _ Hv Hu _; by apply Hdef|]; destruct (assoc_get k b) as [[]|];
           (by destruct keys) || done).
    destruct (assoc_get k b) as [[| | | | | |bl]|] eqn:Eb;
      try (split; [intros v _ Hv Hu _; by apply Hdef|]; by destruct keys).
    rewrite <- deepMerge_two by (by apply Hb, wf_object in Eb as []).
    destruct keys as [|k' keys].
    + split; [|done]. cbn. intros v _ <- _. done.
    + destruct (IH bl ol) as [H1 H2]; [by eapply Hb|by eapply Ho|].
      split; [|done]. intros v _ Hv Hu Hi. by apply H1.
  - split; [|done]. intros v _ Hv Hu _. exfalso. apply Hu. rewrite <- Hv. by destruct keys.
Qed.

(** [deepClone] copies a tree as it is. *)
Lemma value_ind' (P : value -> Prop) :
  P VUndefined -> P VNull -> (forall b, P (VBool b)) -> (forall n, P (VNumber n)) ->
  (forall s, P (VString s)) -> (forall l, Forall P l -> P (VArray l)) ->
  (forall l, Forall (fun kv => P kv.2) l -> P (VObject l)) -> forall v, P v.
Proof.
  intros H1 H2 H3 H4 H5 H6 H7. fix IH 1. intros [| |b|n|s|l|l];
    [exact H1|exact H2|apply H3|apply H4|apply H5| |].
  - apply H6. induction l as [|v l IHl]; constructor; [apply IH|exact IHl].
  - apply H7. induction l as [|[k v] l IHl]; constructor; [apply IH|exact IHl].
Qed.

Lemma assoc_set_new (k : string) (v : value) l : k ∉ l.*1 -> assoc_set k v l = l ++ [(k, v)].
Proof.
  induction l as [|[k0 v0] l IH]; [done|]. cbn. rewrite not_elem_of_cons. intros [Hk Hl].
  rewrite decide_False by done. by rewrite IH.
Qed.

Theorem deepClone_id v : wf v = true -> deepClone v = v.
Proof.
  induction v as [| | | | |l IH|l IH] using value_ind'; try done.
  - cbn. intros Hl. f_equal. induction IH as [|v l Hv Hf IHl]; [done|].
    cbn in Hl. apply andb_true_iff in Hl as [H1 H2]. cbn. by rewrite Hv, IHl.
  - intros [Hn Hw]%wf_object.
    assert (Hw' : forall kv, kv ∈ l -> wf kv.2 = true).
    { intros [k v] Hin. apply (Hw k). by apply (elem_of_jsmap_lookup (JsMap l)). }
    clear Hw. cbn. f_equal.
    assert (H : forall acc, NoDup (acc.*1 ++ l.*1) ->
      (fix members (result l : list (string * value)) :=
         match l with
         | [] => result
         | (key, v) :: l' => members (assoc_set key (deepClone v) result) l'
         end) acc l = acc ++ l).
    { clear Hn. induction IH as [|[k v] l Hv Hf IHl]; intros acc Hn; [by rewrite app_nil_r|].
      cbn in Hv. rewrite Hv by (apply (Hw' (k, v)); left).
      rewrite fmap_cons in Hn. cbn in Hn.
      rewrite assoc_set_new by (apply NoDup_app in Hn as (_ & Hd & _); intros Hk;
                                apply (Hd k Hk); left).
      rewrite IHl; [by rewrite <- app_assoc|by intros; apply Hw'; right|].
      rewrite fmap_app, <- app_assoc. exact Hn. }
    apply (H []). exact Hn.
Qed.

(** ** Reading back an update *)

Lemma array_index_Some key i : array_index key = Some i -> key = print_Z (Z.of_nat i).
Proof.
  unfold array_index. destruct (parse_Z key) as [z|]; [|done].
  destruct (_ && _) eqn:E; [|done]. intros [= <-]. bool_props.
  match goal with H : String.eqb _ _ = true |- _ => apply String.eqb_eq in H as <- end.
  by rewrite Z2Nat.id.
Qed.

Lemma index_member_lookup l : forall i n,
  index_member (print_Z (i + Z.of_nat n)) i l = default VUndefined (l !! n).
Proof.
  induction l as [|v l IH]; intros i n; [done|]. cbn [index_member].
  destruct n as [|n].
  - rewrite Z.add_0_r. by rewrite bool_decide_true.
  - rewrite bool_decide_false by (intros E%print_Z_inj; lia).
    change ((v :: l) !! S n) with (l !! n). rewrite <- (IH (i + 1) n). f_equal. f_equal. lia.
Qed.

Lemma index_member_other l l' key n : forall i,
  (forall k, k <> n -> l' !! k = l !! k) -> key <> print_Z (i + Z.of_nat n) ->
  index_member key i l' = index_member key i l.
Proof.
  revert l' n. induction l as [|v l IH]; intros l' n i Hl Hk.
  - destruct l' as [|v' l']; [done|]. cbn [index_member].
    destruct n as [|n]; [|specialize (Hl 0%nat); cbn in Hl; exfalso; by discriminate Hl].
    rewrite Z.add_0_r in Hk. rewrite bool_decide_false by done.
    destruct l' as [|w l']; [done|]. specialize (Hl 1%nat). cbn in Hl. by discriminate Hl.
  - destruct l' as [|v' l'].
    + cbn [index_member]. destruct n as [|n]; [|specialize (Hl 0%nat); cbn in Hl; by discriminate Hl].
      rewrite Z.add_0_r in Hk. rewrite bool_decide_false by done.
      destruct l as [|w l]; [done|]. specialize (Hl 1%nat). cbn in Hl. by discriminate Hl.
    + cbn [index_member]. case_bool_decide as E.
      * destruct n as [|n]; [by rewrite Z.add_0_r in Hk|].
        specialize (Hl 0%nat). cbn in Hl. by injection Hl.
      * destruct n as [|n].
        -- replace l' with l; [done|]. apply list_eq. intros k. symmetry. apply (Hl (S k)). lia.
        -- apply (IH l' n). { intros k Hkn. apply (Hl (S k)). lia. }
           replace (i + 1 + Z.of_nat n) with (i + Z.of_nat (S n)) by lia. done.
Qed.

Lemma assignMember_get current key v w :
  assignMember current key v = Updated w -> member w key = v.
Proof.
  destruct current; try done; cbn [assignMember].
  - destruct (array_index key) as [i|] eqn:E; [|done]. apply array_index_Some in E as ->.
    assert (Hlen : print_Z (Z.of_nat i) <> "length").
    { intros H. pose proof (parse_print_Z (Z.of_nat i)) as Hp. rewrite H in Hp. done. }
    pose proof (fun l => index_member_lookup l 0 i) as Hi. cbn [Z.add] in Hi.
    destruct (Nat.ltb_spec i (length l)); [|destruct (Nat.eqb_spec i (length l)); [|done]];
      intros [= <-]; cbn [member]; rewrite bool_decide_false by done; rewrite Hi.
    + by rewrite list_lookup_insert_eq.
    + subst i. by rewrite list_lookup_middle.
  - intros [= <-]. cbn [member]. by rewrite assoc_get_set, decide_True.
Qed.

Lemma assignMember_other current key v w key' :
  assignMember current key v = Updated w -> key <> key' -> key' <> "length" ->
  member w key' = member current key'.
Proof.
  intros H Hk Hl. destruct current; try done; cbn [assignMember] in H.
  - destruct (array_index key) as [i|] eqn:E; [|done]. apply array_index_Some in E as ->.
    assert (Hm : forall l', (forall k, k <> i -> l' !! k = l !! k) -> w = VArray l' ->
                 member w key' = member (VArray l) key').
    { intros l' Hl' ->. cbn [member]. rewrite !bool_decide_false by done.
      apply (index_member_other l l' key' i); [done|rewrite Z.add_0_l; congruence]. }
    destruct (Nat.ltb_spec i (length l)); [|destruct (Nat.eqb_spec i (length l)); [|done]];
      injection H as <-; (eapply Hm; [|done]); intros k Hne.
    + by rewrite list_lookup_insert_ne.
    + subst i. destruct (decide (k < length l)%nat); [by rewrite lookup_app_l|].
      rewrite (lookup_ge_None_2 l) by lia. apply lookup_ge_None_2. rewrite length_app. cbn. lia.
  - injection H as <-. cbn [member]. by rewrite assoc_get_set, decide_False.
Qed.

Lemma assignMember_hasMembers current key v w :
  assignMember current key v = Updated w -> hasMembers w = true /\ hasMembers current = true.
Proof.
  destruct current; try done; cbn [assignMember]; [|by intros [= <-]].
  destruct (array_index key); [|done]. repeat case_match; naive_solver.
Qed.

Lemma getIn_keys_default obj keys d :
  getIn_keys obj keys d = match getIn_keys obj keys VUndefined with VUndefined => d | v => v end.
Proof.
  revert obj. induction keys as [|k keys IH]; intros obj; cbn; [by destruct obj|].
  destruct (hasMembers obj); [apply IH|done].
Qed.

Lemma setIn_keys_cons current key k keys v :
  setIn_keys current (key :: k :: keys) v =
  if hasMembers current then
    match setIn_keys (match member current key with VUndefined | VNull => VObject [] | c => c end)
            (k :: keys) v with
    | Updated child' => assignMember current key child'
    | r => r
    end
  else SetTypeError.
Proof. done. Qed.

(** [setIn] followed by [getIn] *)
Lemma setIn_getIn keys : forall obj v w d,
  setIn_keys obj keys v = Updated w -> keys <> [] -> v <> VUndefined -> getIn_keys w keys d = v.
Proof.
  induction keys as [|key keys IH]; intros obj v w d; [done|]. intros H _ Hv.
  assert (Hg : forall u c, assignMember obj key c = Updated u -> getIn_keys u (key :: keys) d = getIn_keys c keys d).
  { intros u c Hu. destruct (assignMember_hasMembers _ _ _ _ Hu) as [Hm _].
    cbn [getIn_keys]. rewrite Hm. by rewrite (assignMember_get _ _ _ _ Hu). }
  destruct keys as [|k keys].
  - rewrite (Hg _ _ H). cbn. by destruct v.
  - rewrite setIn_keys_cons in H. destruct (hasMembers obj); [|done].
    destruct (setIn_keys _ _ _) as [c| |] eqn:E; try done.
    rewrite (Hg _ _ H). by eapply IH.
Qed.

(** Two paths that part at some key. *)
Fixpoint diverge (keys keys' : list string) : Prop :=
  match keys, keys' with
  | k :: l, k' :: l' => if decide (k = k') then diverge l l' else k' <> "length"
  | _, _ => False
  end.

Lemma setIn_other keys : forall keys' obj v w d,
  setIn_keys obj keys v = Updated w -> diverge keys keys' -> getIn_keys w keys' d = getIn_keys obj keys' d.
Proof.
  induction keys as [|key keys IH]; intros [|k' keys'] obj v w d H Hd; try done.
  cbn [diverge] in Hd.
  assert (Hg : forall c, assignMember obj key c = Updated w -> hasMembers obj = true /\
     getIn_keys w (k' :: keys') d = getIn_keys (if decide (key = k') then c else member obj k') keys' d).
  { intros c Hc. destruct (assignMember_hasMembers _ _ _ _ Hc) as [Hm Hm']. split; [done|].
    cbn [getIn_keys]. rewrite Hm. case_decide; subst.
    - by rewrite (assignMember_get _ _ _ _ Hc).
    - by rewrite (assignMember_other _ _ _ _ _ Hc). }
  destruct keys as [|k keys].
  - destruct (Hg _ H) as [Hm ->]. cbn [getIn_keys]. rewrite Hm. by case_decide.
  - rewrite setIn_keys_cons in H. destruct (hasMembers obj) eqn:Hm; [|done].
    destruct (setIn_keys _ _ _) as [c| |] eqn:E; try done.
    destruct (Hg _ H) as [_ ->]. cbn [getIn_keys]. rewrite Hm. case_decide; [subst k'|done].
    rewrite (IH _ _ _ _ _ E Hd). destruct keys' as [|k' keys']; [done|].
    destruct (member obj key); try done; cbn; by destruct keys'.
Qed.

Module Examples.

Definition base : list (string * value) :=
  [("app", VObject [("port", VNumber (Finite 3000)); ("logLevel", VString "info")]);
   ("feature_flags", VObject [("overrides", VObject [])])].
Definition over : list (string * value) :=
  [("app", VObject [("logLevel", VString "debug")])].

Lemma override_wins_path_by_path_witness :
  getIn_keys (deepMerge [VObject base; VObject over]) ["app"; "logLevel"] VUndefined = VString "debug" /\
  getIn (deepMerge [VObject base; VObject over]) "app.port" VUndefined = VNumber (Finite 3000).
Proof.
  split.
  - by apply (override_wins_path_by_path base over ["app"; "logLevel"] VUndefined).
  - by apply (override_wins_path_by_path base over ["app"; "port"] VUndefined).
Defined.
End Examples.
