(* ===== verification/Printing.v ===== *)
(** * Numbers as text

    [String(x)] and [x.toFixed(f)] for the doubles of [Number]; negative zero is zero, as there.

    [toString_plain], [toFixed_plain]: the characters of these texts.
    [nearest_half]: what [toFixed] prints is within half a unit of its last digit. *)

From Stdlib Require Import ZArith Lia Ascii String QArith Qabs Qround Lqa.
From stdpp Require Import base numbers list strings.
From S2P Require Import Prelude Js Text Number Config.
#[local] Open Scope Z_scope.

(** [10^e] for any [e] *)
Definition pow10 (e : Z) : Q := Qmake (10 ^ Z.max 0 e) (Z.to_pos (10 ^ Z.max 0 (- e))).

(** ** The shortest digits *)

(** The [n] with [10^(n-1) <= q < 10^n], for a positive double *)
Definition magnitude (q : Q) : Z :=
  default 310 (head (filter (fun n => Qle_bool (pow10 n) q = false) (seqZ (-324) 634))).

(** The integers below and above, the nearer one first *)
Definition neighbours (s : Q) : list Z :=
  let lo := Qfloor s in
  if Qeq_bool s (inject_Z lo) then [lo]
  else if Qle_bool (s - inject_Z lo) (1 # 2) then [lo; lo + 1] else [lo + 1; lo].

(** The digits [s] and the exponent [e] of [s * 10^e] with [k] digits that rounds to [q] *)
Definition withDigits (q : Q) (n k : Z) : option (Z * Z) :=
  (fun s => (s, n - k)) <$>
  head (filter (fun s => num_eqb (to_double (inject_Z s * pow10 (n - k))) (Finite q) = true) (neighbours (q * pow10 (k - n)))).

(** The first of the 17 lengths that has one; ten to the k is one with k zeros. *)
Definition shortest (q : Q) : Z * Z :=
  let n := magnitude q in
  let '(s, e) := default (Qfloor (q * pow10 (17 - n)), n - 17) (head (omap (withDigits q n) (seqZ 1 17))) in
  if s =? 10 then (1, e + 1) else (s, e).

(** [s * 10^e] in the four forms of [Number::toString] *)
Definition layout (s e : Z) : string :=
  let digits := print_Z s in
  let k := Z.of_nat (String.length digits) in
  let n := k + e in
  if (k <=? n) && (n <=? 21) then digits +:+ zeros (Z.to_nat e)
  else if (0 <? n) && (n <=? 21) then substring 0 (Z.to_nat n) digits +:+ "." +:+ substring (Z.to_nat n) (Z.to_nat (k - n)) digits
  else if (-6 <? n) && (n <=? 0) then "0." +:+ zeros (Z.to_nat (- n)) +:+ digits
  else (if k =? 1 then digits else substring 0 1 digits +:+ "." +:+ substring 1 (Z.to_nat (k - 1)) digits) +:+
       "e" +:+ (if n - 1 <? 0 then "-" else "+") +:+ print_Z (Z.abs (n - 1)).

(** [String(x)]; below [2^53] an integer is its own shortest text. *)
Definition toString (x : number) : string :=
  match x with
  | NaN => "NaN"
  | Infinite negative => if negative then "-Infinity" else "Infinity"
  | Finite q =>
      if isInteger x && (Z.abs (Qfloor q) <? 2 ^ 53) then print_Z (Qfloor q)
      else let '(s, e) := shortest (Qabs q) in (if is_negative q then "-" else "") +:+ layout s e
  end.

(** ** [toFixed] *)

(** The integer nearest to [q * 10^f], the larger of two *)
Definition nearest (f : nat) (q : Q) : Z := Qfloor (q * pow10 (Z.of_nat f) + (1 # 2)).

(** [n / 10^f] with [f] digits after the point *)
Definition point (f : nat) (n : Z) : string :=
  let s := padStart (S f) (print_Z n) in
  let whole := (String.length s - f)%nat in
  if (f =? 0)%nat then s else substring 0 whole s +:+ "." +:+ substring whole f s.

Definition toFixed (f : nat) (x : number) : string :=
  match x with
  | Finite q => if Qle_bool (pow10 21) (Qabs q) then toString x
                else (if is_negative q then "-" else "") +:+ point f (nearest f (Qabs q))
  | _ => toString x
  end.

(** ** Their characters *)

Definition plainChar (c : ascii) : bool :=
  is_digit c || bool_decide (c ∈ ["-"; "+"; "."]%char) || ((65 <=? code c)%nat && (code c <=? 90)%nat) || ((97 <=? code c)%nat && (code c <=? 122)%nat).
Definition plain (s : string) : Prop := all_chars plainChar s = true.

Lemma plain_app s t : plain s -> plain t -> plain (s +:+ t).
Proof. unfold plain. rewrite all_chars_app. by intros -> ->. Qed.
Lemma plain_digits s : all_chars is_digit s = true -> plain s.
Proof. apply all_chars_mono. unfold plainChar. by intros c ->. Qed.
Lemma plain_print_Z z : plain (print_Z z).
Proof.
  eapply all_chars_mono; [|apply print_Z_numchars]. unfold is_numchar, plainChar, is_digit. intros c [H|H]%orb_true_iff.
  - apply bool_decide_eq_true in H as ->. done.
  - by rewrite H.
Qed.
Lemma plain_zeros n : plain (zeros n).
Proof. apply plain_digits, all_digits_zeros. Qed.
Lemma all_chars_substring P s : forall n m, all_chars P s = true -> all_chars P (substring n m s) = true.
Proof.
  induction s as [|c s IH]; intros [|n] [|m]; cbn; try done; intros [Hc Hs]%andb_true_iff; [rewrite Hc; cbn; by apply IH|by apply IH..].
Qed.
Lemma plain_substring n m s : plain s -> plain (substring n m s).
Proof. apply all_chars_substring. Qed.

#[export] Hint Resolve plain_app plain_print_Z plain_zeros plain_substring : plain.

Lemma plain_layout s e : plain (layout s e).
Proof. unfold layout. repeat case_match; auto 8 with plain; repeat apply plain_app; auto with plain; done. Qed.

Theorem toString_plain x : plain (toString x).
Proof.
  destruct x as [q|[]|]; [|done..]. unfold toString. case_match; [apply plain_print_Z|]. destruct (shortest _).
  apply plain_app; [by destruct (is_negative q)|apply plain_layout].
Qed.

Theorem toFixed_plain f x : plain (toFixed f x).
Proof.
  destruct x as [q|b|]; [|apply toString_plain..]. unfold toFixed. case_match; [apply toString_plain|].
  apply plain_app; [by destruct (is_negative q)|]. unfold point, padStart. case_match; auto with plain; repeat apply plain_app; auto with plain; done.
Qed.

(** ** Rounding *)

Theorem nearest_half f q : (Qabs (inject_Z (nearest f q) - q * pow10 (Z.of_nat f)) <= 1 # 2)%Q.
Proof.
  unfold nearest. set (x := (q * pow10 (Z.of_nat f))%Q). pose proof (Qfloor_le (x + (1 # 2))) as H1. pose proof (Qlt_floor (x + (1 # 2))) as H2.
  rewrite inject_Z_plus in H2. change (inject_Z 1) with 1%Q in H2. apply Qabs_Qle_condition.
  generalize dependent (inject_Z (Qfloor (x + (1 # 2)))). generalize x. intros y n H1 H2. split; lra.
Qed.

Module Examples.

Example printed : toString <$> [int 0; int (-12); to_double (1 # 10); to_double (1 # 3); to_double (25 # 10); to_double (1 # 10000000); to_double (123456789 # 1000);
    to_double (inject_Z (10 ^ 23)); to_double (inject_Z (2 ^ 60)); to_double (1 # Z.to_pos (2 ^ 1074)); to_double (inject_Z (10 ^ 21)); to_double (-15 # 1000000000); NaN; Infinite true] =
  ["0"; "-12"; "0.1"; "0.3333333333333333"; "2.5"; "1e-7"; "123456.789"; "1e+23"; "1152921504606847000"; "5e-324"; "1e+21"; "-1.5e-8"; "NaN"; "-Infinity"].
Proof. vm_compute. reflexivity. Qed.

Example fixed : toFixed 2 <$> [int 3; to_double (1005 # 1000); to_double (-1 # 1000); to_double (5 # 100); to_double (999 # 1000); to_double (125 # 1000); NaN] =
  ["3.00"; "1.00"; "-0.00"; "0.05"; "1.00"; "0.13"; "NaN"].
Proof. vm_compute. reflexivity. Qed.
End Examples.
