(* ===== verification/FeatureFlags.v ===== *)
(** * Feature flags ([src/src/core/ingress/feature_flags.ts])

    The module's variables are a state: registered flags, cached statuses and the
    listeners of each flag.  The configuration is an argument, read through
    [getIn].  [isEnabled] follows dependencies recursively and is given the depth of
    the call stack as fuel: running out is the [RangeError] JavaScript throws.
    Listeners are identified by numbers; each call to one is recorded, and what the
    listener does, or throws, does not reach this module. *)

From Stdlib Require Import ZArith Lia Ascii String.
From stdpp Require Import base numbers list strings sets.
From S2P Require Import Prelude Js Text Number Config.

Inductive FeatureFlagStatus := Enabled | Disabled | Degraded.
#[export] Instance FeatureFlagStatus_eq_dec : EqDecision FeatureFlagStatus.
Proof. solve_decision. Defined.

Record FeatureFlag := mkFlag {
  key : string;
  description : string;
  defaultStatus : FeatureFlagStatus;
  dependencies : option (list string);
  owner : option string
}.

(** A call [cb(key, newStatus, oldStatus)]. *)
Record Notification := mkNotification {
  n_listener : nat; n_key : string; n_new : FeatureFlagStatus; n_old : FeatureFlagStatus
}.

Record Flags := mkFlags {
  FLAG_REGISTRY : jsmap string FeatureFlag;
  FLAG_CACHE : jsmap string FeatureFlagStatus;
  CHANGE_LISTENERS : jsmap string (list nat);
  initialized : bool;
  notified : list Notification
}.

Definition set_registry f st := mkFlags (f (FLAG_REGISTRY st)) (FLAG_CACHE st)
  (CHANGE_LISTENERS st) (initialized st) (notified st).
Definition set_cache f st := mkFlags (FLAG_REGISTRY st) (f (FLAG_CACHE st))
  (CHANGE_LISTENERS st) (initialized st) (notified st).
Definition set_listeners f st := mkFlags (FLAG_REGISTRY st) (FLAG_CACHE st)
  (f (CHANGE_LISTENERS st)) (initialized st) (notified st).
Definition set_initialized b st := mkFlags (FLAG_REGISTRY st) (FLAG_CACHE st)
  (CHANGE_LISTENERS st) b (notified st).
Definition log_notified l st := mkFlags (FLAG_REGISTRY st) (FLAG_CACHE st)
  (CHANGE_LISTENERS st) (initialized st) (notified st ++ l).

Definition no_flags : Flags := mkFlags ∅ ∅ ∅ false [].

Inductive FlagError := StackOverflow.
Abbreviation FM := (M Flags FlagError).

(** [getConfigValue(path)] of a configuration *)
Definition getConfigValue (config : value) (path : string) : value :=
  getIn config path VUndefined.

Definition getFlagFromConfig (config : value) (key : string) : option FeatureFlagStatus :=
  match getConfigValue config ("feature_flags.overrides." +:+ key) with
  | VString s =>
      if bool_decide (s = "enabled") then Some Enabled
      else if bool_decide (s = "disabled") then Some Disabled
      else if bool_decide (s = "degraded") then Some Degraded
      else None
  | _ => None
  end.

Definition registerFlag (flag : FeatureFlag) (st : Flags) : Flags :=
  set_registry (fun r => <[key flag := flag]> r) st.

Definition registerFlags (flags : list FeatureFlag) (st : Flags) : Flags :=
  foldl (fun s f => registerFlag f s) st flags.

Definition notifyListeners (key : string) (newStatus oldStatus : FeatureFlagStatus)
    (st : Flags) : Flags :=
  match CHANGE_LISTENERS st !! key with
  | Some listeners => log_notified ((fun l => mkNotification l key newStatus oldStatus) <$> listeners) st
  | None => st
  end.

(** A status is a non-empty string, hence truthy. *)
Definition getStatus (config : value) (key : string) : FM FeatureFlagStatus :=
  let! st := get in
  match FLAG_CACHE st !! key with
  | Some cached => ret cached
  | None =>
      match FLAG_REGISTRY st !! key with
      | None => ret Disabled
      | Some flag =>
          let status := default (defaultStatus flag) (getFlagFromConfig config key) in
          modify (set_cache (fun c => <[key := status]> c)) ;;;
          ret status
      end
  end.

(** [for (const dep of deps) if (!isEnabled(dep)) return false; return true] *)
Fixpoint allEnabled (isEnabled : string -> FM bool) (deps : list string) : FM bool :=
  match deps with
  | [] => ret true
  | dep :: deps' =>
      let! b := isEnabled dep in
      if negb b then ret false else allEnabled isEnabled deps'
  end.

(** [stack]: the calls that still fit on the call stack. *)
Fixpoint isEnabled (config : value) (stack : nat) (key : string) : FM bool :=
  match stack with
  | O => throw StackOverflow
  | S stack' =>
      let! status := getStatus config key in
      match status with
      | Enabled => ret true
      | Degraded =>
          let! st := get in
          match FLAG_REGISTRY st !! key with
          | Some flag =>
              match dependencies flag with
              | Some deps => allEnabled (isEnabled config stack') deps
              | None => ret true
              end
          | None => ret true
          end
      | Disabled => ret false
      end
  end.

Definition setOverride (config : value) (key : string) (status : FeatureFlagStatus) : FM bool :=
  let! st := get in
  match FLAG_REGISTRY st !! key with
  | None => ret false
  | Some flag =>
      let! oldStatus := getStatus config key in
      modify (set_cache (fun c => <[key := status]> c)) ;;;
      modify (fun st => if bool_decide (oldStatus = status) then st
                        else notifyListeners key status oldStatus st) ;;;
      ret true
  end.

Definition resetOverride (config : value) (key : string) : FM bool :=
  let! st := get in
  match FLAG_REGISTRY st !! key with
  | None => ret false
  | Some flag =>
      let! oldStatus := getStatus config key in
      modify (set_cache (fun c => delete key c)) ;;;
      let! newStatus := getStatus config key in
      modify (fun st => if bool_decide (oldStatus = newStatus) then st
                        else notifyListeners key newStatus oldStatus st) ;;;
      ret true
  end.

(** One round of the loop of the configuration listener. *)
Definition refreshFlag (config : value) (key : string) (flag : FeatureFlag) : FM unit :=
  let! oldStatus := getStatus config key in
  let newStatus := default (defaultStatus flag) (getFlagFromConfig config key) in
  modify (fun st =>
    if bool_decide (oldStatus = newStatus) then st
    else notifyListeners key newStatus oldStatus (set_cache (fun c => <[key := newStatus]> c) st)).

Fixpoint refreshFlags (config : value) (flags : list (string * FeatureFlag)) : FM unit :=
  match flags with
  | [] => ret tt
  | (key, flag) :: flags' => refreshFlag config key flag ;;; refreshFlags config flags'
  end.

(** What [onChangePath('feature_flags', ...)] runs when that subtree changed;
    [config] is the new configuration. *)
Definition onConfigChange (config : value) : FM unit :=
  let! st := get in refreshFlags config (entries (FLAG_REGISTRY st)).

(** The two loops of [initFeatureFlags]. *)
Definition initOverride (config : value) (key : string) (st : Flags) : Flags :=
  match FLAG_REGISTRY st !! key with
  | Some _ => match getFlagFromConfig config key with
              | Some status => set_cache (fun c => <[key := status]> c) st
              | None => st
              end
  | None => st
  end.

Definition initDefault (kf : string * FeatureFlag) (st : Flags) : Flags :=
  if map_has kf.1 (FLAG_CACHE st) then st
  else set_cache (fun c => <[kf.1 := defaultStatus kf.2]> c) st.

Definition object_keys (v : value) : list string :=
  match v with
  | VObject l => l.*1
  | VArray l => imap (fun i _ => print_Z (Z.of_nat i)) l
  | _ => []
  end.

Definition initFeatureFlags (config : value) (st : Flags) : Flags :=
  if initialized st then st else
  let st1 := foldl (fun s k => initOverride config k s) st
               (object_keys (getConfigValue config "feature_flags.overrides")) in
  let st2 := foldl (fun s kf => initDefault kf s) st1 (entries (FLAG_REGISTRY st1)) in
  set_initialized true st2.

Definition onFeatureFlagChange (key : string) (callback : nat) (st : Flags) : Flags :=
  let st' := if map_has key (CHANGE_LISTENERS st) then st
             else set_listeners (fun m => <[key := []]> m) st in
  set_listeners (fun m => <[key := set_add callback (default [] (m !! key))]> m) st'.

(** The function [onFeatureFlagChange] returns. *)
Definition unsubscribe (key : string) (callback : nat) (st : Flags) : Flags :=
  match CHANGE_LISTENERS st !! key with
  | Some l => set_listeners (fun m => <[key := filter (fun c => c <> callback) l]> m) st
  | None => st
  end.

Definition getRegisteredFlags (st : Flags) : list FeatureFlag := map_values (FLAG_REGISTRY st).

Definition resetForTest (st : Flags) : Flags := mkFlags ∅ ∅ ∅ false (notified st).

(** ** Statuses *)

(** The status that the configuration and the flag's default give. *)
Definition configured (config : value) (flag : FeatureFlag) (k : string) : FeatureFlagStatus :=
  default (defaultStatus flag) (getFlagFromConfig config k).

(** What [getStatus] answers. *)
Definition statusOf (config : value) (st : Flags) (k : string) : FeatureFlagStatus :=
  match FLAG_CACHE st !! k with
  | Some s => s
  | None => match FLAG_REGISTRY st !! k with
            | Some flag => configured config flag k
            | None => Disabled
            end
  end.

Definition deps (st : Flags) (k : string) : list string :=
  match FLAG_REGISTRY st !! k with
  | Some flag => default [] (dependencies flag)
  | None => []
  end.

(** Two states that answer alike; filling the cache stays within it. *)
Record same_flags (config : value) (a b : Flags) : Prop := {
  sf_registry : FLAG_REGISTRY b = FLAG_REGISTRY a;
  sf_listeners : CHANGE_LISTENERS b = CHANGE_LISTENERS a;
  sf_notified : notified b = notified a;
  sf_status : forall k, statusOf config b k = statusOf config a k
}.

#[export] Instance same_flags_equivalence config : Equivalence (same_flags config).
Proof.
  split.
  - by intros a.
  - intros a b [H1 H2 H3 H4]. constructor; congruence || (intros; by rewrite H4).
  - intros a b c [H1 H2 H3 H4] [G1 G2 G3 G4].
    constructor; congruence || (intros; by rewrite G4, H4).
Qed.

Lemma getStatus_eq config k st :
  exists st', getStatus config k st = (st', inr (statusOf config st k)) /\
    same_flags config st st'.
Proof.
  unfold getStatus, statusOf, bind, get, ret, modify.
  destruct (FLAG_CACHE st !! k) as [s|] eqn:Ec; [by eexists|].
  destruct (FLAG_REGISTRY st !! k) as [flag|] eqn:Er; [|by eexists].
  eexists. split; [done|]. constructor; try done. intros k'.
  unfold statusOf. cbn. rewrite jsmap_lookup_insert.
  destruct (decide (k = k')) as [<-|]; [|done]. by rewrite Ec, Er.
Qed.

(** A flag is enabled when its status says so, or when it is degraded and its
    dependencies are enabled. *)
Inductive enabled (config : value) (st : Flags) : string -> Prop :=
  | enabled_on k : statusOf config st k = Enabled -> enabled config st k
  | enabled_degraded k :
      statusOf config st k = Degraded ->
      (forall d, d ∈ deps st k -> enabled config st d) -> enabled config st k.

#[export] Instance enabled_proper config :
  Proper (same_flags config ==> eq ==> iff) (enabled config).
Proof.
  assert (H : forall a b k, same_flags config a b -> enabled config a k -> enabled config b k).
  { intros a b k Hab He. revert b Hab. induction He as [k Hk|k Hk Hd IH]; intros b Hab.
    - apply enabled_on. by rewrite (sf_status _ _ _ Hab).
    - apply enabled_degraded; [by rewrite (sf_status _ _ _ Hab)|].
      intros d Hin. apply IH; [|done]. unfold deps in *. by rewrite <- (sf_registry _ _ _ Hab). }
  intros a b Hab ? k ->. split; intros He; (eapply H; [|exact He]); [exact Hab|by symmetry].
Qed.

(** Degraded flags depend on flags of lower rank. *)
Definition ranked (config : value) (st : Flags) (rank : string -> nat) : Prop :=
  forall k d, statusOf config st k = Degraded -> d ∈ deps st k -> (rank d < rank k)%nat.

Lemma ranked_same config a b rank :
  same_flags config a b -> ranked config a rank -> ranked config b rank.
Proof.
  intros Hab Ha k d. rewrite (sf_status _ _ _ Hab). unfold deps.
  rewrite (sf_registry _ _ _ Hab). apply Ha.
Qed.

(** *** Answers that leave the flags as they are *)

Definition answers (config : value) (m : FM bool) (P : Prop) (st : Flags) : Prop :=
  exists st' b, m st = (st', inr b) /\ (b = true <-> P) /\ same_flags config st st'.

Lemma allEnabled_answers config (f : string -> FM bool) ds : forall st,
  (forall d st', d ∈ ds -> same_flags config st st' ->
     answers config (f d) (enabled config st' d) st') ->
  answers config (allEnabled f ds) (forall d, d ∈ ds -> enabled config st d) st.
Proof.
  induction ds as [|d ds IH]; intros st Hf.
  - exists st, true. split; [done|]. split; [|done]. split; [|done]. intros _ d Hd.
    by apply not_elem_of_nil in Hd.
  - destruct (Hf d st) as (st1 & b & E & Hb & Hs); [left|done|].
    cbn [allEnabled]. unfold answers, bind at 1. rewrite E. destruct b; cbn [negb].
    + destruct (IH st1) as (st2 & b & E2 & Hb2 & Hs2).
      { intros d' st' Hd' Hs'. apply Hf; [by right|]. by etrans. }
      exists st2, b. split; [done|]. split; [|by etrans].
      rewrite Hb2. setoid_rewrite elem_of_cons. split.
      * intros H d' [-> | Hd']; [by apply Hb|]. rewrite Hs. by apply H.
      * intros H d' Hd'. rewrite <- Hs. apply H. by right.
    + exists st1, false. split; [done|]. split; [|done]. split; [done|]. intros H.
      apply Hb. apply H. left.
Qed.

Lemma isEnabled_answers config rank stack : forall k st,
  ranked config st rank -> (rank k < stack)%nat ->
  answers config (isEnabled config stack k) (enabled config st k) st.
Proof.
  induction stack as [|stack IH]; intros k st Hr Hk; [lia|].
  destruct (getStatus_eq config k st) as (st1 & E & Hs).
  cbn [isEnabled]. unfold answers, bind at 1. rewrite E.
  destruct (statusOf config st k) eqn:Est.
  - exists st1, true. split; [done|]. split; [|done]. split; [|done]. intros _. by apply enabled_on.
  - exists st1, false. split; [done|]. split; [|done]. split; [done|].
    intros He. inv He; congruence.
  - assert (Hd : enabled config st k <-> forall d, d ∈ deps st1 k -> enabled config st1 d).
    { unfold deps. rewrite (sf_registry _ _ _ Hs). fold (deps st k). split.
      - intros He. inv He; [congruence|]. intros d Hd. rewrite <- Hs. auto.
      - intros H. apply enabled_degraded; [done|]. intros d Hd. rewrite Hs. auto. }
    unfold deps in Hd. unfold bind, get.
    destruct (FLAG_REGISTRY st1 !! k) as [flag|] eqn:Ef;
      [destruct (dependencies flag) as [ds|] eqn:Eds|]; cbn [default] in Hd.
    2,3: exists st1, true; split; [done|]; split; [|done]; rewrite Hd;
      split; [|done]; intros _ d Hin; by apply not_elem_of_nil in Hin.
    destruct (allEnabled_answers config (isEnabled config stack) ds st1) as (st2 & b & E2 & Hb & Hs2).
    { intros d st' Hin Hs'. assert (Hs2 : same_flags config st st') by (by etrans).
      apply IH; [by eapply ranked_same|].
      assert (rank d < rank k)%nat; [|lia]. apply Hr; [done|]. unfold deps.
      rewrite <- (sf_registry _ _ _ Hs), Ef. by rewrite Eds. }
    exists st2, b. split; [done|]. split; [by rewrite Hb, Hd|]. by etrans.
Qed.

(** ** Changing statuses *)

Lemma statusOf_set config st k s k' :
  statusOf config (set_cache (fun c => <[k := s]> c) st) k'
  = if decide (k = k') then s else statusOf config st k'.
Proof.
  unfold statusOf. cbn. rewrite jsmap_lookup_insert. by destruct (decide (k = k')).
Qed.

Lemma notify_frame k new old st :
  FLAG_REGISTRY (notifyListeners k new old st) = FLAG_REGISTRY st /\
  FLAG_CACHE (notifyListeners k new old st) = FLAG_CACHE st /\
  CHANGE_LISTENERS (notifyListeners k new old st) = CHANGE_LISTENERS st.
Proof. unfold notifyListeners. by destruct (CHANGE_LISTENERS st !! k). Qed.

Lemma statusOf_notify config k new old st k' :
  statusOf config (notifyListeners k new old st) k' = statusOf config st k'.
Proof.
  unfold statusOf. by destruct (notify_frame k new old st) as (-> & -> & _).
Qed.

Definition calls_for (st : Flags) (k : string) (new old : FeatureFlagStatus) : list Notification :=
  if bool_decide (old = new) then []
  else (fun l => mkNotification l k new old) <$> default [] (CHANGE_LISTENERS st !! k).

Lemma notified_notify k new old st :
  old <> new -> notified (notifyListeners k new old st) = notified st ++ calls_for st k new old.
Proof.
  intros Hne. unfold notifyListeners, calls_for. rewrite bool_decide_false by done.
  destruct (CHANGE_LISTENERS st !! k); [done|]. cbn. by rewrite app_nil_r.
Qed.

(** [sets k s st st']: flag [k] got the status [s], its listeners were called once
    each if that is a change, and nothing else changed. *)
Record sets (config : value) (k : string) (s : FeatureFlagStatus) (st st' : Flags) : Prop := {
  s_registry : FLAG_REGISTRY st' = FLAG_REGISTRY st;
  s_listeners : CHANGE_LISTENERS st' = CHANGE_LISTENERS st;
  s_notified : notified st' = notified st ++ calls_for st k s (statusOf config st k);
  s_status : forall k', statusOf config st' k' = if decide (k = k') then s else statusOf config st k'
}.

Lemma setOverride_sets config k s st :
  is_Some (FLAG_REGISTRY st !! k) ->
  exists st', setOverride config k s st = (st', inr true) /\ sets config k s st st'.
Proof.
  intros [flag Hf]. unfold setOverride, bind at 1, get. rewrite Hf.
  destruct (getStatus_eq config k st) as (st1 & E & [S1 S2 S3 S4]).
  unfold bind at 1. rewrite E. unfold bind, modify, ret. eexists. split; [done|].
  case_bool_decide as Hs; constructor; cbn.
  - done.
  - done.
  - unfold calls_for. rewrite bool_decide_true by done. by rewrite app_nil_r.
  - intros k'. by rewrite statusOf_set, S4.
  - by rewrite (proj1 (notify_frame _ _ _ _)).
  - by rewrite (proj2 (proj2 (notify_frame _ _ _ _))).
  - rewrite notified_notify by done. cbn. rewrite S3. unfold calls_for. cbn. by rewrite S2.
  - intros k'. by rewrite statusOf_notify, statusOf_set, S4.
Qed.

Lemma resetOverride_sets config k flag st :
  FLAG_REGISTRY st !! k = Some flag ->
  exists st', resetOverride config k st = (st', inr true) /\
    sets config k (configured config flag k) st st'.
Proof.
  intros Hf. unfold resetOverride, bind at 1, get. rewrite Hf.
  destruct (getStatus_eq config k st) as (st1 & E & [S1 S2 S3 S4]).
  unfold bind at 1. rewrite E. unfold bind at 1, modify.
  set (st2 := set_cache _ _).
  destruct (getStatus_eq config k st2) as (st3 & E3 & [T1 T2 T3 T4]).
  unfold bind at 1. rewrite E3.
  assert (Hnew : statusOf config st2 k = configured config flag k).
  { unfold statusOf, st2. cbn. rewrite jsmap_lookup_delete_eq, S1, Hf. done. }
  assert (Hold : forall k', statusOf config st2 k'
            = if decide (k = k') then configured config flag k else statusOf config st k').
  { intros k'. destruct (decide (k = k')) as [<-|Hne]; [done|]. rewrite <- S4.
    unfold statusOf, st2. cbn. by rewrite jsmap_lookup_delete_ne. }
  rewrite Hnew. unfold bind, modify, ret. eexists. split; [done|].
  case_bool_decide as Hs; constructor; cbn.
  - by rewrite T1.
  - by rewrite T2.
  - rewrite T3. unfold calls_for. rewrite bool_decide_true by done. cbn. by rewrite app_nil_r.
  - intros k'. by rewrite T4.
  - rewrite (proj1 (notify_frame _ _ _ _)). by rewrite T1.
  - rewrite (proj2 (proj2 (notify_frame _ _ _ _))). by rewrite T2.
  - rewrite notified_notify by done. rewrite T3. cbn. rewrite S3. unfold calls_for.
    rewrite T2. cbn. by rewrite S2.
  - intros k'. by rewrite statusOf_notify, T4.
Qed.

Lemma refreshFlag_sets config k flag st :
  exists st', refreshFlag config k flag st = (st', inr tt) /\
    sets config k (configured config flag k) st st'.
Proof.
  unfold refreshFlag. fold (configured config flag k).
  destruct (getStatus_eq config k st) as (st1 & E & [S1 S2 S3 S4]).
  unfold bind at 1. rewrite E. unfold modify. eexists. split; [done|].
  case_bool_decide as Hs; constructor; cbn.
  - done.
  - done.
  - unfold calls_for. rewrite bool_decide_true by done. by rewrite app_nil_r.
  - intros k'. rewrite S4. by destruct (decide (k = k')) as [<-|].
  - by rewrite (proj1 (notify_frame _ _ _ _)).
  - by rewrite (proj2 (proj2 (notify_frame _ _ _ _))).
  - rewrite notified_notify by done. cbn. rewrite S3. unfold calls_for. cbn. by rewrite S2.
  - intros k'. by rewrite statusOf_notify, statusOf_set, S4.
Qed.

Lemma refreshFlags_spec config l : forall st,
  NoDup l.*1 -> (forall k flag, (k, flag) ∈ l -> FLAG_REGISTRY st !! k = Some flag) ->
  exists st', refreshFlags config l st = (st', inr tt) /\
    FLAG_REGISTRY st' = FLAG_REGISTRY st /\ CHANGE_LISTENERS st' = CHANGE_LISTENERS st /\
    (forall k, statusOf config st' k =
       match assoc_get k l with
       | Some flag => configured config flag k
       | None => statusOf config st k
       end) /\
    notified st' = notified st ++
      mjoin ((fun kf => calls_for st kf.1 (configured config kf.2 kf.1) (statusOf config st kf.1)) <$> l).
Proof.
  induction l as [|[k flag] l IH]; intros st Hn Hin.
  - exists st. cbn. by rewrite app_nil_r.
  - rewrite fmap_cons, NoDup_cons in Hn. destruct Hn as [Hk Hn]. cbn in Hk.
    destruct (refreshFlag_sets config k flag st) as (st1 & E & [R1 R2 R3 R4]).
    destruct (IH st1) as (st2 & E2 & G1 & G2 & G3 & G4); [done| |].
    { intros k' f' Hf'. rewrite R1. apply Hin. by right. }
    exists st2. cbn [refreshFlags]. unfold bind. rewrite E. split; [done|].
    split; [congruence|]. split; [congruence|]. split.
    + intros k'. rewrite G3, R4. cbn [assoc_get]. destruct (decide (k' = k)) as [->|Hne].
      * rewrite (proj2 (assoc_get_None l k) Hk). by rewrite decide_True.
      * by rewrite (decide_False (P := k = k')) by congruence.
    + rewrite G4, R3. rewrite fmap_cons. cbn [mjoin list_join]. rewrite <- app_assoc. do 2 f_equal.
      f_equal. apply list_fmap_ext. intros i [k' f'] Hkf. cbn [fst snd]. unfold calls_for.
      rewrite R2, R4, decide_False; [done|]. intros ->. apply Hk.
      apply list_elem_of_fmap. exists (k', f'). split; [done|]. by eapply list_elem_of_lookup_2.
Qed.

(** ** Properties *)

(** [isEnabled] decides what it means to.  When degraded flags depend only on
    flags of lower rank, a call stack deeper than the rank of the flag is enough: the
    answer is true exactly if the flag is enabled, or degraded with all its
    dependencies enabled in the same sense; and asking changes no status and calls
    no listener. *)
Theorem isEnabled_decides config rank stack k st :
  ranked config st rank -> (rank k < stack)%nat ->
  exists st' b, isEnabled config stack k st = (st', inr b) /\
    (b = true <-> enabled config st k) /\ same_flags config st st'.
Proof. apply isEnabled_answers. Qed.

Lemma cycle_overflows config (cycle : string -> Prop) st :
  (forall k, cycle k -> statusOf config st k = Degraded /\
     exists d ds, deps st k = d :: ds /\ cycle d) ->
  forall stack st1 k, same_flags config st st1 -> cycle k ->
    snd (isEnabled config stack k st1) = inl StackOverflow.
Proof.
  intros Hc stack. induction stack as [|stack IH]; intros st1 k Hs Hk; [done|].
  destruct (Hc k Hk) as (Est & d & ds & Ed & Hd).
  destruct (getStatus_eq config k st1) as (st2 & E & Hs2).
  cbn [isEnabled]. unfold bind at 1. rewrite E, (sf_status _ _ _ Hs), Est. unfold bind, get.
  unfold deps in Ed. rewrite (sf_registry _ _ _ Hs2), (sf_registry _ _ _ Hs).
  destruct (FLAG_REGISTRY st !! k) as [flag|]; [|done].
  destruct (dependencies flag) as [ds'|]; [|done]. cbn in Ed. subst ds'. cbn [allEnabled].
  unfold bind. assert (Hi : snd (isEnabled config stack d st2) = inl StackOverflow)
    by (apply IH; [by etrans|done]).
  destruct (isEnabled config stack d st2) as [st3 [[]|b]]; cbn in Hi; done.
Qed.

(** a cycle of dependencies is never answered.  If each of some degraded flags
    names another of them as its first dependency, [isEnabled] of any of them
    overflows the call stack, whatever its depth. *)
Theorem cyclic_dependencies_overflow config (cycle : string -> Prop) st :
  (forall k, cycle k -> statusOf config st k = Degraded /\
     exists d ds, deps st k = d :: ds /\ cycle d) ->
  forall stack k, cycle k -> snd (isEnabled config stack k st) = inl StackOverflow.
Proof.
  intros Hc.
  intros stack k. by apply (cycle_overflows config cycle st Hc).
Qed.

(** a configuration change restores the configuration.  After the listener of
    [feature_flags] has run, every registered flag has the status of the new
    configuration or its default, so that an override set by [setOverride] (as load
    shedding does) is gone; the listeners of exactly the flags whose status changed
    are called, with the new and the old status; other keys keep their status. *)
Theorem config_change_restores_configuration config st :
  map_wf (FLAG_REGISTRY st) ->
  exists st', onConfigChange config st = (st', inr tt) /\
    (forall k flag, FLAG_REGISTRY st !! k = Some flag ->
       statusOf config st' k = configured config flag k) /\
    (forall k, FLAG_REGISTRY st !! k = None -> statusOf config st' k = statusOf config st k) /\
    (forall n, n ∈ notified st' <-> n ∈ notified st \/
       exists flag, FLAG_REGISTRY st !! n_key n = Some flag /\
         n_new n = configured config flag (n_key n) /\ n_old n = statusOf config st (n_key n) /\
         n_old n <> n_new n /\ n_listener n ∈ default [] (CHANGE_LISTENERS st !! n_key n)).
Proof.
  intros Hwf. unfold onConfigChange, bind at 1, get.
  destruct (refreshFlags_spec config (entries (FLAG_REGISTRY st)) st) as (st' & E & _ & _ & Hs & Hn).
  { exact Hwf. } { intros k flag. by apply elem_of_jsmap_lookup. }
  exists st'. split; [done|]. split; [|split].
  - intros k flag Hf. rewrite Hs. unfold lookup, jsmap_lookup in Hf. by rewrite Hf.
  - intros k Hf. rewrite Hs. unfold lookup, jsmap_lookup in Hf. by rewrite Hf.
  - intros [l k new old]. cbn. rewrite Hn, elem_of_app, list_elem_of_join.
    apply or_iff_compat_l. split.
    + intros (x & Hin & ([k' flag] & -> & Hkf)%list_elem_of_fmap).
      apply elem_of_jsmap_lookup in Hkf; [|done]. cbn [fst snd] in Hin. unfold calls_for in Hin.
      case_bool_decide; [by apply not_elem_of_nil in Hin|].
      apply list_elem_of_fmap in Hin as (l' & [= -> -> -> ->] & Hl). by exists flag.
    + intros (flag & Hf & -> & -> & Hne & Hl). eexists. split.
      2: { apply list_elem_of_fmap. exists (k, flag). split; [done|].
           by apply jsmap_lookup_elem_of. }
      cbn [fst snd]. unfold calls_for. rewrite bool_decide_false by done.
      apply list_elem_of_fmap. by exists l.
Qed.

Module Examples.

Definition flag (k : string) (s : FeatureFlagStatus) (ds : list string) : FeatureFlag :=
  mkFlag k "" s (Some ds) None.

(** [a] is degraded and needs [b], which is on; [c] and [d] need each other. *)
Definition sample : Flags :=
  onFeatureFlagChange "b" 7
    (registerFlags [flag "a" Degraded ["b"]; flag "b" Enabled [];
                    flag "c" Degraded ["d"]; flag "d" Degraded ["c"]] no_flags).

Definition overriding : value :=
  VObject [("feature_flags", VObject [("overrides", VObject [("b", VString "disabled")])])].

Definition ab : Flags := registerFlags [flag "a" Degraded ["b"]; flag "b" Enabled []] no_flags.

Lemma ab_ranked : ranked VNull ab (fun k => if bool_decide (k = "a") then 1%nat else 0%nat).
Proof.
  intros k d. unfold deps, statusOf, ab, registerFlags. cbn [foldl].
  unfold registerFlag. cbn [FLAG_REGISTRY FLAG_CACHE set_registry no_flags].
  rewrite jsmap_lookup_empty, !jsmap_lookup_insert. cbn [key flag].
  destruct (decide ("b" = k)) as [<-|]; [vm_compute; done|].
  destruct (decide ("a" = k)) as [<-|]; [|done].
  cbn. intros _ ->%list_elem_of_singleton. vm_compute. lia.
Qed.

Lemma isEnabled_decides_witness : enabled VNull ab "a".
Proof.
  destruct (isEnabled_decides VNull _ 2 "a" ab ab_ranked) as (st' & b & E & Hb & _);
    [vm_compute; lia|].
  apply Hb. vm_compute in E. injection E as _ <-. reflexivity.
Defined.

Lemma cyclic_dependencies_overflow_witness :
  snd (isEnabled VNull 50 "c" sample) = inl StackOverflow.
Proof.
  apply (cyclic_dependencies_overflow VNull (fun k => k = "c" \/ k = "d") sample).
  - intros k [-> | ->]; (split; [vm_compute; reflexivity|]).
    + exists "d", []. split; [vm_compute; reflexivity|by right].
    + exists "c", []. split; [vm_compute; reflexivity|by left].
  - by left.
Defined.

Lemma config_change_restores_configuration_witness :
  exists st', onConfigChange overriding sample = (st', inr tt) /\
    statusOf overriding st' "b" = Disabled.
Proof.
  destruct (config_change_restores_configuration overriding sample) as (st' & E & H & _).
  - apply (bool_decide_unpack (NoDup _)). vm_compute. exact I.
  - exists st'. split; [exact E|]. apply (H "b" (flag "b" Enabled [])). vm_compute. reflexivity.
Defined.
End Examples.
