(* ===== verification/CapacityShedder.v ===== *)
(** * Capacity shedder ([src/src/core/ingress/capacity_shedder.ts], [graceful_degradation.ts])

    The module's variables are a state that holds the feature flags it drives.
    Metrics and thresholds are doubles.  The configuration, the clock and what the
    metric collector returns (or that it throws) are arguments of [evaluate]; the
    interval timer is the caller of it.  Level listeners are numbers and their calls
    are recorded.  [loadConfig] reads what the configuration's schema admits:
    numbers for the thresholds and times, statuses for [flagsToShed]. *)

From Stdlib Require Import ZArith Lia Ascii String QArith.
From stdpp Require Import base numbers list strings sets.
From S2P Require Import Prelude Js Text Number Config FeatureFlags.
#[local] Open Scope Z_scope.

Inductive SheddingLevel := LNone | LLight | LMedium | LCritical.
#[export] Instance SheddingLevel_eq_dec : EqDecision SheddingLevel.
Proof. solve_decision. Defined.

Record CapacityThresholds := mkThresholds {
  t_cpuPercent : number; t_memoryPercent : number;
  t_requestRatePerSec : number; t_p99LatencyMs : number
}.

Record Thresholds := mkLevels {
  light : CapacityThresholds; medium : CapacityThresholds; critical : CapacityThresholds
}.

Record CapacityShedderConfig := mkShedderConfig {
  checkIntervalMs : number;
  cooldownPeriodMs : number;
  thresholds : Thresholds;
  flagsToShed : list (string * FeatureFlagStatus)
}.

Record MetricSnapshot := mkSnapshot {
  cpuPercent : number; memoryPercent : number;
  requestRatePerSec : number; p99LatencyMs : number;
  timestamp : number
}.

Definition num (z : Z) : number := Finite (inject_Z z).

Definition DEFAULT_CONFIG : CapacityShedderConfig :=
  mkShedderConfig (num 5000) (num 30000)
    (mkLevels (mkThresholds (num 70) (num 75) (num 800) (num 500))
       (mkThresholds (num 85) (num 85) (num 1200) (num 1000))
       (mkThresholds (num 95) (num 95) (num 2000) (num 3000))) [].

Record Shedder := mkShedder {
  flags : Flags;
  shedderConfig : CapacityShedderConfig;
  currentLevel : SheddingLevel;
  previousLevel : SheddingLevel;
  checkTimer : option number;        (* the interval of the running timer *)
  lastElevatedAt : Z;
  collector : bool;                  (* one has been given *)
  initialized : bool;
  listeners : list nat;
  level_calls : list (nat * SheddingLevel * SheddingLevel)
}.

Definition new_Shedder (fs : Flags) : Shedder :=
  mkShedder fs DEFAULT_CONFIG LNone LNone None 0 false false [] [].

Abbreviation SM := (M Shedder FlagError).

Definition set_flags fs s := mkShedder fs (shedderConfig s) (currentLevel s) (previousLevel s)
  (checkTimer s) (lastElevatedAt s) (collector s) (initialized s) (listeners s) (level_calls s).
Definition set_config c s := mkShedder (flags s) c (currentLevel s) (previousLevel s)
  (checkTimer s) (lastElevatedAt s) (collector s) (initialized s) (listeners s) (level_calls s).
Definition set_current l s := mkShedder (flags s) (shedderConfig s) l (previousLevel s)
  (checkTimer s) (lastElevatedAt s) (collector s) (initialized s) (listeners s) (level_calls s).
Definition set_previous l s := mkShedder (flags s) (shedderConfig s) (currentLevel s) l
  (checkTimer s) (lastElevatedAt s) (collector s) (initialized s) (listeners s) (level_calls s).
Definition set_timer t s := mkShedder (flags s) (shedderConfig s) (currentLevel s) (previousLevel s)
  t (lastElevatedAt s) (collector s) (initialized s) (listeners s) (level_calls s).
Definition set_elevated t s := mkShedder (flags s) (shedderConfig s) (currentLevel s) (previousLevel s)
  (checkTimer s) t (collector s) (initialized s) (listeners s) (level_calls s).
Definition set_collector b s := mkShedder (flags s) (shedderConfig s) (currentLevel s) (previousLevel s)
  (checkTimer s) (lastElevatedAt s) b (initialized s) (listeners s) (level_calls s).
Definition set_initialized b s := mkShedder (flags s) (shedderConfig s) (currentLevel s) (previousLevel s)
  (checkTimer s) (lastElevatedAt s) (collector s) b (listeners s) (level_calls s).
Definition set_listeners f s := mkShedder (flags s) (shedderConfig s) (currentLevel s) (previousLevel s)
  (checkTimer s) (lastElevatedAt s) (collector s) (initialized s) (f (listeners s)) (level_calls s).
Definition log_calls l s := mkShedder (flags s) (shedderConfig s) (currentLevel s) (previousLevel s)
  (checkTimer s) (lastElevatedAt s) (collector s) (initialized s) (listeners s) (level_calls s ++ l).

(** ** Configuration *)

(** A member that is a number, or the value it is spread over. *)
Definition number_or (d : number) (v : value) : number :=
  match v with VNumber n => n | _ => d end.

(** [{ ...d, ...(cfg.thresholds?.name || {}) }] *)
Definition loadThresholds (d : CapacityThresholds) (v : value) : CapacityThresholds :=
  mkThresholds (number_or (t_cpuPercent d) (member v "cpuPercent"))
    (number_or (t_memoryPercent d) (member v "memoryPercent"))
    (number_or (t_requestRatePerSec d) (member v "requestRatePerSec"))
    (number_or (t_p99LatencyMs d) (member v "p99LatencyMs")).

Definition status_of_value (v : value) : option FeatureFlagStatus :=
  match v with
  | VString s =>
      if bool_decide (s = "enabled") then Some Enabled
      else if bool_decide (s = "disabled") then Some Disabled
      else if bool_decide (s = "degraded") then Some Degraded
      else None
  | _ => None
  end.

Definition loadFlags (v : value) : list (string * FeatureFlagStatus) :=
  match v with
  | VObject l => omap (fun kv => pair kv.1 <$> status_of_value kv.2) l
  | _ => []
  end.

(** The new [shedderConfig]. *)
Definition loadConfig (config : value) : CapacityShedderConfig :=
  let cfg := getConfigValue config "capacity_shedding" in
  if hasMembers cfg then
    let ts := member cfg "thresholds" in
    mkShedderConfig (number_or (checkIntervalMs DEFAULT_CONFIG) (member cfg "checkIntervalMs"))
      (number_or (cooldownPeriodMs DEFAULT_CONFIG) (member cfg "cooldownPeriodMs"))
      (mkLevels (loadThresholds (light (thresholds DEFAULT_CONFIG)) (member ts "light"))
         (loadThresholds (medium (thresholds DEFAULT_CONFIG)) (member ts "medium"))
         (loadThresholds (critical (thresholds DEFAULT_CONFIG)) (member ts "critical")))
      (loadFlags (member cfg "flagsToShed"))
  else DEFAULT_CONFIG.

(** ** Evaluation *)

(** One metric at least as large as its threshold. *)
Definition reaches (snapshot : MetricSnapshot) (t : CapacityThresholds) : bool :=
  num_ge (cpuPercent snapshot) (t_cpuPercent t) ||
  num_ge (memoryPercent snapshot) (t_memoryPercent t) ||
  num_ge (requestRatePerSec snapshot) (t_requestRatePerSec t) ||
  num_ge (p99LatencyMs snapshot) (t_p99LatencyMs t).

Definition determineLevel (ts : Thresholds) (snapshot : MetricSnapshot) : SheddingLevel :=
  if reaches snapshot (critical ts) then LCritical
  else if reaches snapshot (medium ts) then LMedium
  else if reaches snapshot (light ts) then LLight
  else LNone.

Definition applyFlag (config : value) (level : SheddingLevel) (ks : string * FeatureFlagStatus)
    : FM bool :=
  if bool_decide (level = LNone) then resetOverride config ks.1
  else setOverride config ks.1 ks.2.

Fixpoint applyFlags (config : value) (level : SheddingLevel)
    (l : list (string * FeatureFlagStatus)) : FM unit :=
  match l with
  | [] => ret tt
  | ks :: l' => applyFlag config level ks ;;; applyFlags config level l'
  end.

Definition applyShedding (config : value) (level : SheddingLevel) : SM unit :=
  let! s := get in
  zoom flags set_flags id (applyFlags config level (flagsToShed (shedderConfig s))).

Definition notifyChange (level previous : SheddingLevel) : SM unit :=
  modify (fun s => log_calls ((fun l => (l, level, previous)) <$> listeners s) s).

(** [now - lastElevatedAt < cooldownPeriodMs] *)
Definition num_lt (a b : number) : bool := num_ge b a && negb (num_ge a b).

(** [snapshot]: what the collector returns, [None] when it throws. *)
Definition evaluate (config : value) (now : Z) (snapshot : option MetricSnapshot) : SM unit :=
  let! s0 := get in
  if negb (collector s0) then ret tt else
  match snapshot with
  | None => ret tt
  | Some snap =>
      let level := determineLevel (thresholds (shedderConfig s0)) snap in
      modify (fun s => set_previous (currentLevel s) s) ;;;
      let! s := get in
      if bool_decide (level = currentLevel s) then ret tt
      else if bool_decide (level = LNone) && negb (bool_decide (previousLevel s = LNone)) &&
              num_lt (num (now - lastElevatedAt s)) (cooldownPeriodMs (shedderConfig s))
      then ret tt
      else
        (if bool_decide (level = LNone) then ret tt else modify (set_elevated now)) ;;;
        modify (set_current level) ;;;
        applyShedding config level ;;;
        notifyChange level (previousLevel s)
  end.

Definition evaluateNow (config : value) (now : Z) (snapshot : option MetricSnapshot)
    : SM SheddingLevel :=
  evaluate config now snapshot ;;; gets currentLevel.

(** ** Lifecycle *)

Definition initCapacityShedder (config : value) (s : Shedder) : Shedder :=
  if initialized s then s else
  let s' := set_config (loadConfig config) (set_collector true s) in
  set_initialized true (set_timer (Some (checkIntervalMs (shedderConfig s'))) s').

(** What [onChangePath('capacity_shedding', ...)] runs. *)
Definition onSheddingConfigChange (config : value) (s : Shedder) : Shedder :=
  set_config (loadConfig config) s.

Definition stopCapacityShedder (s : Shedder) : Shedder :=
  set_initialized false (set_previous LNone (set_current LNone (set_timer None s))).

Definition onSheddingChange (callback : nat) (s : Shedder) : Shedder :=
  set_listeners (set_add callback) s.
Definition offSheddingChange (callback : nat) (s : Shedder) : Shedder :=
  set_listeners (filter (fun c => c <> callback)) s.

Definition resetShedderForTest (s : Shedder) : Shedder :=
  set_initialized false (set_listeners (fun _ => []) (set_config DEFAULT_CONFIG
    (stopCapacityShedder s))).

Definition getCurrentLevel (s : Shedder) : SheddingLevel := currentLevel s.

(** ** [graceful_degradation.ts]: the request guards *)

(** A guard passes the request on or answers it. *)
Inductive Reply := Next | Respond (status : Z) (feature : option string)
                                  (sheddingLevel : option SheddingLevel) (custom : bool).

Record FlagCheckOptions := mkOptions { statusCode : option Z; degradeResponse : bool }.

Definition requireFlag (config : value) (stack : nat) (flagKey : string)
    (options : FlagCheckOptions) : FM Reply :=
  let! b := isEnabled config stack flagKey in
  if b then ret Next
  else ret (if degradeResponse options
            then Respond (default 503 (statusCode options)) None None true
            else Respond (default 503 (statusCode options)) (Some flagKey) None false).

Definition levels : list SheddingLevel := [LNone; LLight; LMedium; LCritical].

(** [levels.indexOf(level)] *)
Definition indexOf (level : SheddingLevel) : Z :=
  match list_find (fun l => l = level) levels with Some (i, _) => Z.of_nat i | None => -1 end.

Definition degradeOnLevel (minLevel : SheddingLevel) (options : FlagCheckOptions) (s : Shedder)
    : Reply :=
  if indexOf minLevel <=? indexOf (getCurrentLevel s) then
    if degradeResponse options
    then Respond (default 503 (statusCode options)) None None true
    else Respond (default 503 (statusCode options)) None (Some (getCurrentLevel s)) false
  else Next.

Definition featureFlagMiddleware := requireFlag.

Record DegradationConfig := mkDegradation { d_flags : list FeatureFlag; d_metricCollector : bool }.

Definition initGracefulDegradation (config : value) (c : DegradationConfig) (s : Shedder) : Shedder :=
  let s' := set_flags (initFeatureFlags config (registerFlags (d_flags c) (flags s))) s in
  if d_metricCollector c then initCapacityShedder config s' else s'.

(** ** Levels *)

Definition rank (l : SheddingLevel) : Z := indexOf l.

(** At least as loaded in every metric. *)
Definition at_least (a b : MetricSnapshot) : Prop :=
  num_ge (cpuPercent a) (cpuPercent b) = true /\
  num_ge (memoryPercent a) (memoryPercent b) = true /\
  num_ge (requestRatePerSec a) (requestRatePerSec b) = true /\
  num_ge (p99LatencyMs a) (p99LatencyMs b) = true.

Lemma reaches_mono a b t : at_least a b -> reaches b t = true -> reaches a t = true.
Proof.
  unfold at_least, reaches. rewrite !orb_true_iff.
  intros (H1 & H2 & H3 & H4) [[[?|?]|?]|?]; eauto using num_ge_trans.
Qed.

Lemma determineLevel_mono ts a b :
  at_least a b -> rank (determineLevel ts b) <= rank (determineLevel ts a).
Proof.
  intros Hab. unfold determineLevel.
  destruct (reaches b (critical ts)) eqn:E1; [by rewrite (reaches_mono a b)|].
  destruct (reaches a (critical ts)).
  { by destruct (reaches b (medium ts)), (reaches b (light ts)). }
  destruct (reaches b (medium ts)) eqn:E2; [by rewrite (reaches_mono a b)|].
  destruct (reaches a (medium ts)); [by destruct (reaches b (light ts))|].
  destruct (reaches b (light ts)) eqn:E3; [by rewrite (reaches_mono a b)|].
  by destruct (reaches a (light ts)).
Qed.

(** ** Applying a level to the flags *)

(** The status a shed flag gets at a level. *)
Definition shedStatus (config : value) (level : SheddingLevel) (flag : FeatureFlag)
    (k : string) (degradedStatus : FeatureFlagStatus) : FeatureFlagStatus :=
  if bool_decide (level = LNone) then configured config flag k else degradedStatus.

Lemma applyFlag_spec config level ks st :
  exists st' b, applyFlag config level ks st = (st', inr b) /\
    FLAG_REGISTRY st' = FLAG_REGISTRY st /\
    forall k, statusOf config st' k =
      if decide (k = ks.1) then
        match FLAG_REGISTRY st !! k with
        | Some flag => shedStatus config level flag k ks.2
        | None => statusOf config st k
        end
      else statusOf config st k.
Proof.
  destruct ks as [k s]. unfold applyFlag, shedStatus. cbn [fst snd].
  destruct (FLAG_REGISTRY st !! k) as [flag|] eqn:Ef.
  - case_bool_decide.
    + destruct (resetOverride_sets config k flag st Ef) as (st' & E & [H1 _ _ H4]).
      exists st', true. split; [done|]. split; [done|]. intros k'. rewrite H4.
      destruct (decide (k' = k)) as [->|]; [by rewrite decide_True, Ef|].
      by rewrite decide_False.
    + destruct (setOverride_sets config k s st) as (st' & E & [H1 _ _ H4]); [eauto|].
      exists st', true. split; [done|]. split; [done|]. intros k'. rewrite H4.
      destruct (decide (k' = k)) as [->|]; [by rewrite decide_True, Ef|].
      by rewrite decide_False.
  - exists st, false. split.
    { case_bool_decide; unfold resetOverride, setOverride, bind, get; by rewrite Ef. }
    split; [done|]. intros k'. case_decide; [subst; by rewrite Ef|done].
Qed.

Lemma applyFlags_spec config level l : forall st,
  NoDup l.*1 ->
  exists st', applyFlags config level l st = (st', inr tt) /\
    FLAG_REGISTRY st' = FLAG_REGISTRY st /\
    forall k, statusOf config st' k =
      match assoc_get k l, FLAG_REGISTRY st !! k with
      | Some s, Some flag => shedStatus config level flag k s
      | _, _ => statusOf config st k
      end.
Proof.
  induction l as [|[k0 s0] l IH]; intros st Hn; [by exists st|].
  rewrite fmap_cons, NoDup_cons in Hn. destruct Hn as [Hk Hn]. cbn in Hk.
  destruct (applyFlag_spec config level (k0, s0) st) as (st1 & b & E & R1 & S1).
  destruct (IH st1 Hn) as (st2 & E2 & R2 & S2).
  exists st2. cbn [applyFlags]. unfold bind. rewrite E. split; [done|].
  split; [congruence|]. intros k. rewrite S2, S1, R1. cbn [assoc_get fst snd].
  destruct (decide (k = k0)) as [->|Hne].
  - rewrite (proj2 (assoc_get_None l k0) Hk). by destruct (FLAG_REGISTRY st !! k0).
  - done.
Qed.

(** ** One evaluation *)

Definition changes (level : SheddingLevel) (now : Z) (s : Shedder) : bool :=
  negb (bool_decide (level = currentLevel s)) &&
  negb (bool_decide (level = LNone) &&
        num_lt (num (now - lastElevatedAt s)) (cooldownPeriodMs (shedderConfig s))).

Lemma evaluate_keeps config now snap s :
  let level := determineLevel (thresholds (shedderConfig s)) snap in
  collector s = true -> changes level now s = false ->
  evaluate config now (Some snap) s = (set_previous (currentLevel s) s, inr tt).
Proof.
  cbn zeta. intros Hc Hch. unfold evaluate, bind, get, modify. rewrite Hc. cbn [negb].
  unfold changes in Hch. apply andb_false_iff in Hch. cbn [currentLevel set_previous].
  destruct (bool_decide (determineLevel _ snap = currentLevel s)) eqn:Eb; [done|].
  cbn [previousLevel set_previous lastElevatedAt shedderConfig].
  destruct Hch as [?|Hch]; [done|]. apply negb_false_iff, andb_true_iff in Hch as [H1 H2].
  rewrite H1, H2. apply bool_decide_eq_true in H1. apply bool_decide_eq_false in Eb.
  rewrite (bool_decide_false (currentLevel s = LNone)) by congruence. done.
Qed.

Lemma evaluate_changes config now snap s :
  let level := determineLevel (thresholds (shedderConfig s)) snap in
  collector s = true -> changes level now s = true ->
  NoDup (flagsToShed (shedderConfig s)).*1 ->
  exists s', evaluate config now (Some snap) s = (s', inr tt) /\
    currentLevel s' = level /\ previousLevel s' = currentLevel s /\
    shedderConfig s' = shedderConfig s /\ collector s' = collector s /\
    lastElevatedAt s' = (if bool_decide (level = LNone) then lastElevatedAt s else now) /\
    level_calls s' = level_calls s ++ ((fun l => (l, level, currentLevel s)) <$> listeners s) /\
    forall k, statusOf config (flags s') k =
      match assoc_get k (flagsToShed (shedderConfig s)), FLAG_REGISTRY (flags s) !! k with
      | Some st, Some flag => shedStatus config level flag k st
      | _, _ => statusOf config (flags s) k
      end.
Proof.
  cbn zeta. intros Hc Hch Hn. unfold changes in Hch. apply andb_true_iff in Hch as [H1 H2].
  apply negb_true_iff in H1, H2.
  set (level := determineLevel (thresholds (shedderConfig s)) snap) in *.
  unfold evaluate, bind at 1, get. rewrite Hc. cbn [negb]. fold level.
  unfold bind at 1, modify. unfold bind at 1. cbn [currentLevel set_previous]. rewrite H1.
  cbn [previousLevel set_previous lastElevatedAt shedderConfig].
  replace (bool_decide (level = LNone) && negb (bool_decide (currentLevel s = LNone)) &&
           num_lt (num (now - lastElevatedAt s)) (cooldownPeriodMs (shedderConfig s)))
    with false.
  2: { symmetry. apply andb_false_iff in H2 as [->| ->]; [done|]. by rewrite andb_false_r. }
  destruct (applyFlags_spec config level (flagsToShed (shedderConfig s)) (flags s) Hn)
    as (fs & E & _ & Hs).
  destruct (bool_decide (level = LNone)) eqn:El; eexists; (split;
    [unfold bind, applyShedding, notifyChange, zoom, bind, get, modify;
     cbn -[applyFlags]; rewrite E; reflexivity|]);
    repeat (split; [first [reflexivity | exact Hc]|]); exact Hs.
Qed.

(** ** Properties *)

(** flags follow the load.  An evaluation either keeps the level and every
    flag, when the metrics are at the current level or fell to none within the
    cooldown of [lastElevatedAt]; or it moves to the metrics' level, tells every
    listener once, and each registered flag of [flagsToShed] gets its degraded
    status (level elevated) or its configured one (level none), other flags keeping
    theirs.  A collector that throws changes nothing. *)
Theorem evaluation_sheds_or_restores config now snap s :
  collector s = true -> NoDup (flagsToShed (shedderConfig s)).*1 ->
  let level := determineLevel (thresholds (shedderConfig s)) snap in
  evaluate config now None s = (s, inr tt) /\
  exists s', evaluate config now (Some snap) s = (s', inr tt) /\
    if changes level now s then
      currentLevel s' = level /\
      level_calls s' = level_calls s ++ ((fun l => (l, level, currentLevel s)) <$> listeners s) /\
      (forall k flag st, assoc_get k (flagsToShed (shedderConfig s)) = Some st ->
         FLAG_REGISTRY (flags s) !! k = Some flag ->
         statusOf config (flags s') k = shedStatus config level flag k st) /\
      (forall k, assoc_get k (flagsToShed (shedderConfig s)) = None ->
         statusOf config (flags s') k = statusOf config (flags s) k)
    else currentLevel s' = currentLevel s /\ flags s' = flags s /\ level_calls s' = level_calls s.
Proof.
  intros Hc Hn level. split.
  { unfold evaluate, bind, get. by rewrite Hc. }
  destruct (changes level now s) eqn:Ech.
  - destruct (evaluate_changes config now snap s Hc Ech Hn)
      as (s' & E & H1 & _ & _ & _ & _ & H2 & H3).
    exists s'. split; [done|]. split; [done|]. split; [done|]. split.
    + intros k flag st Hk Hf. by rewrite H3, Hk, Hf.
    + intros k Hk. by rewrite H3, Hk.
  - eexists. split; [by apply evaluate_keeps|done].
Qed.

(** Several evaluations, the clock of each with its metrics. *)
Fixpoint evaluations (config : value) (l : list (Z * MetricSnapshot)) (s : Shedder) : Shedder :=
  match l with
  | [] => s
  | (now, snap) :: l' => evaluations config l' (fst (evaluate config now (Some snap) s))
  end.

Lemma evaluations_steady config level l : forall s,
  collector s = true -> currentLevel s = level ->
  Forall (fun x => determineLevel (thresholds (shedderConfig s)) x.2 = level) l ->
  let s' := evaluations config l s in
  collector s' = true /\ currentLevel s' = level /\ lastElevatedAt s' = lastElevatedAt s /\
  shedderConfig s' = shedderConfig s /\ flags s' = flags s.
Proof.
  induction l as [|[now snap] l IH]; intros s Hc Hl Hf; [done|].
  inv Hf as [|?? Hx Hf']. cbn in Hx. cbn [evaluations].
  rewrite evaluate_keeps by (done || (unfold changes; rewrite Hx; by rewrite bool_decide_true)).
  cbn [fst]. apply (IH (set_previous (currentLevel s) s)); done.
Qed.

(** the cooldown runs from the last change of level, not from the last
    elevated measurement.  However long the metrics stay at the same elevated level,
    [lastElevatedAt] keeps the time the level was entered; once [cooldownPeriodMs]
    has passed since then, the first measurement below the thresholds restores the
    flags at once, even directly after an elevated one. *)
Theorem cooldown_runs_from_level_change config level l snap now s :
  collector s = true -> currentLevel s = level -> level <> LNone ->
  Forall (fun x => determineLevel (thresholds (shedderConfig s)) x.2 = level) l ->
  NoDup (flagsToShed (shedderConfig s)).*1 ->
  determineLevel (thresholds (shedderConfig s)) snap = LNone ->
  num_lt (num (now - lastElevatedAt s)) (cooldownPeriodMs (shedderConfig s)) = false ->
  let s' := fst (evaluate config now (Some snap) (evaluations config l s)) in
  currentLevel s' = LNone /\
  forall k flag st, assoc_get k (flagsToShed (shedderConfig s)) = Some st ->
    FLAG_REGISTRY (flags s) !! k = Some flag ->
    statusOf config (flags s') k = configured config flag k.
Proof.
  intros Hc Hl Hne Hf Hn Hsnap Hcool.
  destruct (evaluations_steady config level l s Hc Hl Hf) as (C1 & C2 & C3 & C4 & C5).
  destruct (evaluate_changes config now snap (evaluations config l s) C1)
    as (s' & E & H1 & _ & _ & _ & _ & _ & H3).
  - unfold changes. rewrite C2, C3, C4, Hsnap, Hcool, (bool_decide_false (LNone = level)) by congruence.
    by rewrite andb_false_r.
  - by rewrite C4.
  - cbn zeta. rewrite E. cbn [fst]. rewrite C4, Hsnap in H1. split; [done|].
    intros k flag st Hk Hfl. rewrite H3, C4, C5, Hk, Hfl, Hsnap. done.
Qed.

Module Examples.

Definition snapshot (cpu : Z) : MetricSnapshot := mkSnapshot (num cpu) (num 10) (num 10) (num 10) (num 0).

(** [search] is shed to degraded; the level went critical at time 0. *)
Definition shedding_config : CapacityShedderConfig :=
  mkShedderConfig (num 5000) (num 30000) (thresholds DEFAULT_CONFIG) [("search", Degraded)].

Definition calm : Shedder :=
  set_listeners (set_add 3%nat) (set_config shedding_config (set_collector true
    (new_Shedder (registerFlags [mkFlag "search" "" Enabled None None] no_flags)))).

Definition hot : Shedder := fst (evaluate VNull 0 (Some (snapshot 96)) calm).

Lemma evaluation_sheds_or_restores_witness :
  exists s', evaluate VNull 0 (Some (snapshot 96)) calm = (s', inr tt) /\
    currentLevel s' = LCritical /\ statusOf VNull (flags s') "search" = Degraded.
Proof.
  destruct (evaluation_sheds_or_restores VNull 0 (snapshot 96) calm) as [_ (s' & E & H)].
  - reflexivity.
  - apply NoDup_singleton.
  - exists s'. split; [exact E|].
    replace (changes _ _ _) with true in H by (vm_compute; reflexivity).
    destruct H as (H1 & _ & H2 & _). split; [exact H1|].
    rewrite (H2 "search" (mkFlag "search" "" Enabled None None) Degraded); reflexivity.
Defined.

Lemma cooldown_runs_from_level_change_witness :
  currentLevel (fst (evaluate VNull 60001 (Some (snapshot 20))
    (evaluations VNull [(30000, snapshot 97); (60000, snapshot 99)] hot))) = LNone.
Proof.
  apply (cooldown_runs_from_level_change VNull LCritical
    [(30000, snapshot 97); (60000, snapshot 99)] (snapshot 20) 60001 hot);
    try (vm_compute; reflexivity).
  - discriminate.
  - repeat constructor.
  - apply NoDup_singleton.
Defined.
End Examples.
