(* ===== verification/ConfigSchema.v ===== *)
(** * The configuration schema and its validator
    ([src/src/config/schema.ts], [src/src/config/validator.ts])

    A JSON schema is the part of one that the validator reads.  [validate] copies
    the data, fills in the defaults and collects errors and warnings in the order
    of the code; an error carries what its message says instead of the text.
    Regular expressions and URLs are the host's: [RegExp.test] and [new URL] are
    arguments.  The validator fills the defaults of nested objects in place, in
    objects it shares with its argument; here the argument is a value and keeps
    what it was.

    [validate_typed] is what callers rely on: whatever is accepted conforms to the
    schema ([conforms]), contains every default, and is accepted again
    unchanged. *)

From Stdlib Require Import ZArith Lia Ascii String QArith.
From stdpp Require Import base numbers list strings.
From S2P Require Import Prelude Js Text Number Config.
#[local] Open Scope Z_scope.

(** [SameValueZero] on the values a schema lists; two objects are never the same
    object here. *)
Definition sameValueZero (a b : value) : bool :=
  match a, b with
  | VUndefined, VUndefined | VNull, VNull => true
  | VBool x, VBool y => Bool.eqb x y
  | VString x, VString y => String.eqb x y
  | VNumber (Finite x), VNumber (Finite y) => Qeq_bool x y
  | VNumber (Infinite x), VNumber (Infinite y) => Bool.eqb x y
  | VNumber NaN, VNumber NaN => true
  | _, _ => false
  end.

(** ** Schemas *)

Inductive jsonType := TyObject | TyArray | TyString | TyInteger | TyNumber | TyBoolean.

Inductive schema := Schema {
  s_type : option jsonType;
  s_properties : option (list (string * schema));
  s_required : list string;
  s_additional : option (bool + schema);
  s_items : option schema;
  s_enum : option (list value);
  s_pattern : option string;
  s_format : option string;
  s_minimum : option number;
  s_maximum : option number;
  s_default : value
}.

Definition emptySchema : schema := Schema None None [] None None None None None None None VUndefined.

Definition typed (t : jsonType) : schema :=
  Schema (Some t) None [] None None None None None None None VUndefined.
Definition object_ (props : list (string * schema)) (required : list string) : schema :=
  Schema (Some TyObject) (Some props) required None None None None None None None VUndefined.
Definition array_ (items : schema) : schema :=
  Schema (Some TyArray) None [] None (Some items) None None None None None VUndefined.
Definition default_ (v : value) (s : schema) : schema :=
  Schema (s_type s) (s_properties s) (s_required s) (s_additional s) (s_items s) (s_enum s)
    (s_pattern s) (s_format s) (s_minimum s) (s_maximum s) v.
Definition enum_ (l : list string) (s : schema) : schema :=
  Schema (s_type s) (s_properties s) (s_required s) (s_additional s) (s_items s)
    (Some (VString <$> l)) (s_pattern s) (s_format s) (s_minimum s) (s_maximum s) (s_default s).
Definition pattern_ (p : string) (s : schema) : schema :=
  Schema (s_type s) (s_properties s) (s_required s) (s_additional s) (s_items s) (s_enum s)
    (Some p) (s_format s) (s_minimum s) (s_maximum s) (s_default s).
Definition format_ (f : string) (s : schema) : schema :=
  Schema (s_type s) (s_properties s) (s_required s) (s_additional s) (s_items s) (s_enum s)
    (s_pattern s) (Some f) (s_minimum s) (s_maximum s) (s_default s).
Definition additional_ (a : bool + schema) (s : schema) : schema :=
  Schema (s_type s) (s_properties s) (s_required s) (Some a) (s_items s) (s_enum s)
    (s_pattern s) (s_format s) (s_minimum s) (s_maximum s) (s_default s).
Definition bounds_ (lo hi : option Z) (s : schema) : schema :=
  Schema (s_type s) (s_properties s) (s_required s) (s_additional s) (s_items s) (s_enum s)
    (s_pattern s) (s_format s) (int <$> lo) (int <$> hi) (s_default s).

Definition string_ : schema := typed TyString.
Definition boolean_ (d : bool) : schema := default_ (VBool d) (typed TyBoolean).
Definition text (d : string) : schema := default_ (VString d) string_.
Definition range (lo hi d : Z) : schema :=
  default_ (VNumber (int d)) (bounds_ (Some lo) (Some hi) (typed TyInteger)).
Definition nonnegative (d : Z) : schema :=
  default_ (VNumber (int d)) (bounds_ (Some 0) None (typed TyInteger)).

Section main_schema.
Local Open Scope string_scope.
Local Open Scope list_scope.

Definition databaseSchema : schema :=
  object_ [("host", text "localhost");
           ("port", range 1 65535 5432);
           ("user", text "verinode");
           ("password", text "");
           ("database", text "verinode");
           ("maxConnections", range 1 100 20);
           ("idleTimeoutMs", range 1000 300000 30000);
           ("connectionTimeoutMs", range 1000 60000 10000)]
    ["host"; "port"; "user"; "password"; "database"].

Definition mtlsSchema : schema :=
  object_ [("enabled", boolean_ false);
           ("certFile", string_);
           ("keyFile", string_);
           ("caFile", string_);
           ("trustDomain", text "cluster.local");
           ("allowedSpiffeIds", default_ (VArray []) (array_ string_));
           ("certMaxValidityMs", range 1 86400000 86400000);
           ("minSecondsUntilExpiry", range 1 86400 3600);
           ("reloadPollMs", range 10000 300000 30000)]
    ["enabled"].

Definition tlsSchema : schema :=
  object_ [("acme",
            object_ [("enabled", boolean_ false);
                     ("domains", default_ (VArray []) (array_ string_));
                     ("email", string_);
                     ("directoryUrl", text "https://acme-v02.api.letsencrypt.org/directory");
                     ("termsOfServiceAgreed", boolean_ false);
                     ("renewBeforeDays", range 1 90 30);
                     ("emergencyNotifyDays", range 1 30 7);
                     ("checkIntervalMs", range 3600000 86400000 86400000)]
              ["enabled"]);
           ("certPath", string_);
           ("keyPath", string_);
           ("chainPath", string_);
           ("webroot", text "/tmp/verinode-acme")]
    ["certPath"; "keyPath"].

Definition telemetrySchema : schema :=
  object_ [("otel",
            object_ [("enabled", boolean_ true);
                     ("endpoint", format_ "uri" (text "http://localhost:4317"));
                     ("serviceName", text "verinode-backend");
                     ("samplingRatio",
                      default_ (VNumber (int 1)) (bounds_ (Some 0) (Some 1) (typed TyNumber)))]
              ["enabled"])]
    ["otel"].

Definition appSchema : schema :=
  object_ [("port", range 1 65535 3000);
           ("environment", enum_ ["development"; "production"; "test"] (text "development"));
           ("logLevel", enum_ ["debug"; "info"; "warn"; "error"] (text "info"))]
    ["port"; "environment"; "logLevel"].

Definition stakingSchema : schema :=
  object_ [("maxConcurrentWorkers", range 1 100 10);
           ("nonceRangeLimit", pattern_ "^[0-9]+$" (text "1000"))]
    ["maxConcurrentWorkers"; "nonceRangeLimit"].

Definition remoteSchema : schema :=
  object_ [("etcd",
            object_ [("enabled", boolean_ false);
                     ("endpoints", default_ (VArray [VString "http://localhost:2379"])
                                     (array_ (format_ "uri" string_)));
                     ("username", string_);
                     ("password", string_);
                     ("keyPrefix", text "verinode/config");
                     ("watchIntervalMs", range 1000 60000 10000)]
              ["enabled"]);
           ("consul",
            object_ [("enabled", boolean_ false);
                     ("address", format_ "hostname" string_);
                     ("token", string_);
                     ("keyPrefix", text "verinode/config");
                     ("watchIntervalMs", range 1000 60000 10000)]
              ["enabled"])]
    [].

Definition statusMap : schema :=
  default_ (VObject [])
    (additional_ (inr (enum_ ["enabled"; "disabled"; "degraded"] string_)) (typed TyObject)).

Definition thresholds (cpu memory rate latency : Z) : schema :=
  default_ (VObject [])
    (object_ [("cpuPercent", range 0 100 cpu);
              ("memoryPercent", range 0 100 memory);
              ("requestRatePerSec", nonnegative rate);
              ("p99LatencyMs", nonnegative latency)] []).

Definition mainSchema : schema :=
  additional_ (inl false)
    (object_ [("db", databaseSchema);
              ("mtls", mtlsSchema);
              ("tls", tlsSchema);
              ("telemetry", telemetrySchema);
              ("app", appSchema);
              ("staking", stakingSchema);
              ("remote", remoteSchema);
              ("feature_flags",
               default_ (VObject []) (object_ [("overrides", statusMap)] []));
              ("capacity_shedding",
               default_ (VObject [])
                 (object_ [("enabled", boolean_ true);
                           ("checkIntervalMs", range 1000 60000 5000);
                           ("cooldownPeriodMs", range 5000 300000 30000);
                           ("thresholds",
                            default_ (VObject [])
                              (object_ [("light", thresholds 70 75 800 500);
                                        ("medium", thresholds 85 85 1200 1000);
                                        ("critical", thresholds 95 95 2000 3000)] []));
                           ("flagsToShed", statusMap)] []))]
      ["db"; "app"]).
End main_schema.

(** ** The validator *)

Inductive message :=
  | MustBeObject
  | Expected (t : jsonType) (got : string)
  | PatternMismatch (pattern : string)
  | InvalidUri
  | InvalidHostname
  | BelowMinimum (m : number)
  | AboveMaximum (m : number)
  | NotInEnum (allowed : list value)
  | MissingRequired.

Record ConfigValidationError := mkError {
  e_path : string; e_message : message; e_schema : schema; e_value : value
}.

Record ValidationResult := mkResult {
  valid : bool; errors : list ConfigValidationError; warnings : list string; data : value
}.

(** [typeof v] *)
Definition typeof (v : value) : string :=
  match v with
  | VUndefined => "undefined"
  | VBool _ => "boolean"
  | VNumber _ => "number"
  | VString _ => "string"
  | VNull | VArray _ | VObject _ => "object"
  end.

Definition joinPath (path key : string) : string :=
  if falsy path then key else path +:+ "." +:+ key.

(** [/^(https?:\/\/)?[a-z0-9.-]+(:[0-9]{1,5})?$/i]: an optional scheme, a name, an
    optional port.  A name holds no colon, so what follows the last one, if it is
    a port, is one. *)
Definition is_name_char (c : ascii) : bool :=
  is_digit c || ((97 <=? code c)%nat && (code c <=? 122)%nat) || Ascii.eqb c "."%char || Ascii.eqb c "-"%char.
Definition is_name (s : string) : bool := negb (falsy s) && all_chars is_name_char s.
Definition is_port (s : string) : bool :=
  negb (falsy s) && all_chars is_digit s && (String.length s <=? 5)%nat.

Definition isHostname (value : string) : bool :=
  let s := toLowerCase value in
  let host := match stripPrefix "https://" s with
              | Some h => h
              | None => match stripPrefix "http://" s with Some h => h | None => s end
              end in
  match split ":"%char host with
  | [name] => is_name name
  | [name; port] => is_name name && is_port port
  | _ => false
  end.

Section validator.
(** [new RegExp(pattern).test(value)] and whether [new URL(value)] succeeds. *)
Context (regexTest : string -> string -> bool) (isUri : string -> bool).

Definition error (path : string) (m : message) (s : schema) (v : value) : list ConfigValidationError :=
  [mkError path m s v].

Definition patternOk (s : schema) (str : string) : bool :=
  match s_pattern s with Some p => falsy p || regexTest p str | None => true end.
Definition uriOk (s : schema) (str : string) : bool :=
  negb (bool_decide (s_format s = Some "uri")) || isUri str.
Definition hostnameOk (s : schema) (str : string) : bool :=
  negb (bool_decide (s_format s = Some "hostname")) || falsy str || isHostname str.

Definition isNumeric (t : jsonType) (n : number) : bool :=
  match t with TyInteger => isFinite n && isInteger n | _ => isFinite n end.
Definition aboveMinimum (s : schema) (n : number) : bool :=
  match s_minimum s with Some m => negb (num_lt n m) | None => true end.
Definition belowMaximum (s : schema) (n : number) : bool :=
  match s_maximum s with Some m => negb (num_lt m n) | None => true end.

(** [validateType], but for the items of an array *)
Definition typeErrors (s : schema) (v : value) (path : string) : list ConfigValidationError :=
  match s_type s with
  | None => []
  | Some TyObject =>
      match v with
      | VObject _ => []
      | VNull => error path (Expected TyObject "null") s v
      | VArray _ => error path (Expected TyObject "array") s v
      | _ => error path (Expected TyObject (typeof v)) s v
      end
  | Some TyArray =>
      match v with VArray _ => [] | _ => error path (Expected TyArray (typeof v)) s v end
  | Some TyString =>
      match v with
      | VString str =>
          if negb (patternOk s str) then error path (PatternMismatch (default "" (s_pattern s))) s v
          else if negb (uriOk s str) then error path InvalidUri s v
          else if negb (hostnameOk s str) then error path InvalidHostname s v
          else []
      | _ => error path (Expected TyString (typeof v)) s v
      end
  | Some TyBoolean =>
      match v with VBool _ => [] | _ => error path (Expected TyBoolean (typeof v)) s v end
  | Some t =>
      match v with
      | VNumber n =>
          if negb (isNumeric t n) then error path (Expected t (typeof v)) s v
          else if negb (aboveMinimum s n)
          then error path (BelowMinimum (default NaN (s_minimum s))) s v
          else if negb (belowMaximum s n)
          then error path (AboveMaximum (default NaN (s_maximum s))) s v
          else []
      | _ => error path (Expected t (typeof v)) s v
      end
  end.

Definition enumErrors (s : schema) (v : value) (path : string) : list ConfigValidationError :=
  match s_enum s with
  | Some allowed => if existsb (sameValueZero v) allowed then [] else error path (NotInEnum allowed) s v
  | None => []
  end.

(** What has been collected: errors and warnings. *)
Definition Acc : Type := list ConfigValidationError * list string.
Definition add_errors (l : list ConfigValidationError) (acc : Acc) : Acc := (acc.1 ++ l, acc.2).

Definition isUndefined (v : value) : bool := match v with VUndefined => true | _ => false end.

Definition requireFields (s : schema) (v : value) (path : string) (acc : Acc) : Acc :=
  foldl (fun acc field =>
    if isUndefined (member v field)
    then add_errors (error (joinPath path field) MissingRequired emptySchema VUndefined) acc
    else acc) acc (s_required s).

Definition unknownKeys (path : string) (known : list string) (l : list (string * value)) : list string :=
  (fun k => joinPath path k +:+ ": unknown configuration key") <$>
    filter (fun k => k ∉ known) l.*1.

(** [validateValue]; the warnings of array items are dropped. *)
Fixpoint validateValue (s : schema) (v : value) (path : string) (acc : Acc) {struct s} : Acc :=
  match s with
  | Schema ty props required additional items _ _ _ _ _ _ =>
      let acc := add_errors (typeErrors s v path) acc in
      let acc :=
        match ty, v, items with
        | Some TyArray, VArray l, Some itemSchema =>
            ((fix elements (i : Z) (errs : list ConfigValidationError) (l : list value) :=
                match l with
                | [] => errs
                | item :: l' =>
                    elements (i + 1)
                      (validateValue itemSchema item (path +:+ "[" +:+ print_Z i +:+ "]") (errs, [])).1 l'
                end) 0 acc.1 l, acc.2)
        | _, _, _ => acc
        end in
      if existsb (fun e => String.eqb (e_path e) path) acc.1 then acc else
      let acc := add_errors (enumErrors s v path) acc in
      match ty, props, v with
      | Some TyObject, Some properties, VObject l =>
          let acc :=
            (fix members (acc : Acc) (properties : list (string * schema)) :=
               match properties with
               | [] => acc
               | (key, propSchema) :: rest =>
                   members (if isUndefined (member v key) then acc
                            else validateValue propSchema (member v key) (joinPath path key) acc) rest
               end) acc properties in
          let acc := requireFields s v path acc in
          match additional with
          | Some (inl false) => (acc.1, acc.2 ++ unknownKeys path properties.*1 l)
          | Some (inr extra) =>
              (fix others (acc : Acc) (l : list (string * value)) :=
                 match l with
                 | [] => acc
                 | (key, propValue) :: rest =>
                     others (if bool_decide (key ∈ properties.*1) then acc
                             else validateValue extra propValue (joinPath path key) acc) rest
                 end) acc l
          | _ => acc
          end
      | _, _, _ => acc
      end
  end.

(** [applyDefaults] *)
Definition fillDefault (propSchema : schema) (key : string) (l : list (string * value)) :
    list (string * value) :=
  if isUndefined (member (VObject l) key) && negb (isUndefined (s_default propSchema))
  then assoc_set key (deepClone (s_default propSchema)) l else l.

Fixpoint applyDefaults (s : schema) (v : value) {struct s} : value :=
  match s, v with
  | Schema _ (Some properties) _ _ _ _ _ _ _ _ _, VObject l =>
      VObject ((fix members (l : list (string * value)) (properties : list (string * schema)) :=
                  match properties with
                  | [] => l
                  | (key, propSchema) :: rest =>
                      let l := fillDefault propSchema key l in
                      let l := match s_type propSchema, assoc_get key l with
                               | Some TyObject, Some (VObject m) =>
                                   assoc_set key (applyDefaults propSchema (VObject m)) l
                               | _, _ => l
                               end in
                      members l rest
                  end) l properties)
  | _, _ => v
  end.

Definition validate (s : schema) (v : value) : ValidationResult :=
  match v with
  | VObject _ =>
      let normalized := applyDefaults s (deepMerge [VObject []; v]) in
      let acc := validateValue s normalized "" ([], []) in
      mkResult (match acc.1 with [] => true | _ => false end) acc.1 acc.2 normalized
  | _ => mkResult false (error "" MustBeObject s v) [] (VObject [])
  end.
End validator.

(** ** What a schema describes *)

Section conforms.
Context (regexTest : string -> string -> bool) (isUri : string -> bool).

(** The type of a value, with the pattern, format and bounds that go with it. *)
Definition well_typed (s : schema) (v : value) : Prop :=
  match s_type s with
  | None => True
  | Some TyObject => exists l, v = VObject l
  | Some TyArray => exists l, v = VArray l
  | Some TyBoolean => exists b, v = VBool b
  | Some TyString =>
      exists str, v = VString str /\
        (forall p, s_pattern s = Some p -> p <> "" -> regexTest p str = true) /\
        (s_format s = Some "uri" -> isUri str = true) /\
        (s_format s = Some "hostname" -> str = "" \/ isHostname str = true)
  | Some t =>
      exists q, v = VNumber (Finite q) /\
        (t = TyInteger -> exists z, (q == inject_Z z)%Q) /\
        (forall m, s_minimum s = Some (Finite m) -> (m <= q)%Q) /\
        (forall m, s_maximum s = Some (Finite m) -> (q <= m)%Q)
  end.

Definition in_enum (s : schema) (v : value) : Prop :=
  forall allowed, s_enum s = Some allowed -> exists w, w ∈ allowed /\ sameValueZero v w = true.

(** As the validator reads a schema: [additionalProperties] only counts beside
    [properties]. *)
Inductive conforms : schema -> value -> Prop :=
  | conforms_intro s v :
      well_typed s v ->
      in_enum s v ->
      (forall items l x, s_type s = Some TyArray -> s_items s = Some items ->
         v = VArray l -> x ∈ l -> conforms items x) ->
      (forall props k p, s_type s = Some TyObject -> s_properties s = Some props ->
         (k, p) ∈ props -> member v k <> VUndefined -> conforms p (member v k)) ->
      (forall props k, s_type s = Some TyObject -> s_properties s = Some props ->
         k ∈ s_required s -> member v k <> VUndefined) ->
      (forall props extra l k w, s_type s = Some TyObject -> s_properties s = Some props ->
         s_additional s = Some (inr extra) -> v = VObject l ->
         (k, w) ∈ l -> k ∉ props.*1 -> conforms extra w) ->
      conforms s v.
End conforms.

(** Every default, as deep as the data goes. *)
Inductive filled : schema -> value -> Prop :=
  | filled_intro s v :
      (forall props k p, isObject v = true -> s_properties s = Some props -> (k, p) ∈ props ->
         (s_default p <> VUndefined -> member v k <> VUndefined)) ->
      (forall props k p, isObject v = true -> s_properties s = Some props -> (k, p) ∈ props ->
         s_type p = Some TyObject -> isObject (member v k) = true -> filled p (member v k)) ->
      filled s v.

(** Schemas a source file can hold: distinct property names, finite bounds. *)
Definition bound_wf (m : option number) : bool :=
  match m with Some n => isFinite n | None => true end.

Fixpoint schema_wf (s : schema) : bool :=
  match s with
  | Schema _ props _ additional items _ _ _ lo hi d =>
      bound_wf lo && bound_wf hi && wf d &&
      match props with
      | Some l => bool_decide (NoDup l.*1) && forallb (fun kp => schema_wf kp.2) l
      | None => true
      end &&
      match additional with Some (inr s') => schema_wf s' | _ => true end &&
      match items with Some s' => schema_wf s' | None => true end
  end.

Lemma schema_ind' (P : schema -> Prop) :
  (forall ty props req additional items en pat fmt lo hi d,
     (forall l, props = Some l -> Forall (fun kp => P kp.2) l) ->
     (forall s, additional = Some (inr s) -> P s) ->
     (forall s, items = Some s -> P s) ->
     P (Schema ty props req additional items en pat fmt lo hi d)) ->
  forall s, P s.
Proof.
  intros H. fix IH 1. intros [ty props req additional items en pat fmt lo hi d]. apply H.
  - destruct props as [l0|]; [|discriminate].
    assert (Hl : Forall (fun kp => P kp.2) l0).
    { induction l0 as [|[k p] l0 IHl]; constructor; [apply IH|exact IHl]. }
    clear IH. intros l [= <-]. exact Hl.
  - destruct additional as [[b|s0]|]; [discriminate| |discriminate].
    pose proof (IH s0) as Hs. clear IH. intros s [= <-]. exact Hs.
  - destruct items as [s0|]; [|discriminate].
    pose proof (IH s0) as Hs. clear IH. intros s [= <-]. exact Hs.
Qed.

Lemma schema_wf_props s l k p :
  schema_wf s = true -> s_properties s = Some l -> NoDup l.*1 /\ ((k, p) ∈ l -> schema_wf p = true).
Proof.
  destruct s as [? props ? ? ? ? ? ? ? ? ?]. cbn. intros H ->. bool_props.
  split; [done|]. intros Hin%list_elem_of_In.
  match goal with F : forallb _ l = true |- _ => rewrite forallb_forall in F; by apply (F (k, p)) end.
Qed.

Lemma mainSchema_wf : schema_wf mainSchema = true.
Proof. vm_compute. reflexivity. Qed.

(** ** Collecting errors

    A step of the validator only adds errors; it [checks] a property when,
    starting without errors, it adds none exactly when the property holds. *)

Definition grows (f : Acc -> Acc) : Prop := forall acc, exists e, (f acc).1 = acc.1 ++ e.
Definition checks (f : Acc -> Acc) (P : Prop) : Prop :=
  grows f /\ forall ws, (f ([], ws)).1 = [] <-> P.

Lemma grows_nil f acc : grows f -> (f acc).1 = [] -> acc.1 = [].
Proof. intros Hf. destruct (Hf acc) as [e ->]. by intros [? _]%app_nil. Qed.

Lemma checks_from f P acc : checks f P -> (f acc).1 = [] <-> acc.1 = [] /\ P.
Proof.
  intros [Hg Hc]. split.
  - intros H. pose proof (grows_nil _ _ Hg H) as E. destruct acc as [l ws]. cbn in E. subst l.
    split; [done|]. by apply (Hc ws).
  - intros [E HP]. destruct acc as [l ws]. cbn in E. subst l. by apply Hc.
Qed.

Lemma checks_iff f P Q : checks f P -> (P <-> Q) -> checks f Q.
Proof. intros [Hg Hc] HPQ. split; [done|]. intros ws. by rewrite Hc. Qed.

Lemma checks_id : checks (fun acc => acc) True.
Proof. split; [intros acc; exists []; by rewrite app_nil_r|done]. Qed.

Lemma checks_add l P : (l = [] <-> P) -> checks (add_errors l) P.
Proof. intros H. split; [by intros acc; exists l|]. intros ws. by cbn. Qed.

Lemma checks_seq f g P Q : checks f P -> checks g Q -> checks (fun acc => g (f acc)) (P /\ Q).
Proof.
  intros Hf Hg. split.
  - intros acc. destruct Hf as [Hf _], Hg as [Hg _].
    destruct (Hf acc) as [e1 E1], (Hg (f acc)) as [e2 E2].
    exists (e1 ++ e2). by rewrite E2, E1, app_assoc.
  - intros ws. rewrite (checks_from g Q), (checks_from f P) by done. naive_solver.
Qed.

Lemma checks_if (b : bool) f P :
  checks f P -> checks (fun acc => if b then acc else f acc) (b = false -> P).
Proof.
  intros Hf. destruct b.
  - apply (checks_iff _ True); [apply checks_id|done].
  - apply (checks_iff _ P); [done|naive_solver].
Qed.

Lemma checks_foldl {A} (f : A -> Acc -> Acc) (P : A -> Prop) l :
  (forall x, x ∈ l -> checks (f x) (P x)) ->
  checks (fun acc => foldl (fun acc x => f x acc) acc l) (forall x, x ∈ l -> P x).
Proof.
  induction l as [|x l IH]; intros H.
  - apply (checks_iff _ True); [apply checks_id|]. split; [|done]. intros _ x. by rewrite elem_of_nil.
  - apply (checks_iff _ (P x /\ forall y, y ∈ l -> P y)).
    + apply (checks_seq (f x) (fun acc => foldl (fun acc x => f x acc) acc l)); [apply H; left|].
      apply IH. intros y Hy. apply H. by right.
    + split; [intros [? ?] y [->|?]%elem_of_cons; auto|]. intros Hl. split; [apply Hl; left|].
      intros y Hy. apply Hl. by right.
Qed.

(** The early return: nothing is skipped while there are no errors. *)
Lemma checks_return f g (stop : Acc -> bool) P Q :
  checks f P -> grows g -> (P -> checks g Q) -> (forall acc, acc.1 = [] -> stop acc = false) ->
  checks (fun acc => if stop (f acc) then f acc else g (f acc)) (P /\ Q).
Proof.
  intros Hf Hg Hq Hs. split.
  - intros acc. destruct (stop (f acc)); [apply Hf|]. destruct Hf as [Hf _].
    destruct (Hf acc) as [e1 E1], (Hg (f acc)) as [e2 E2]. exists (e1 ++ e2). by rewrite E2, E1, app_assoc.
  - intros ws. pose proof (checks_from f P ([], ws) Hf) as Hc.
    assert (Hz : (if stop (f ([], ws)) then f ([], ws) else g (f ([], ws))).1 = [] ->
                 (f ([], ws)).1 = []).
    { destruct (stop _); [done|]. by apply grows_nil. }
    split.
    + intros H. pose proof (Hz H) as E. destruct (proj1 Hc E) as [_ HP]. split; [done|].
      rewrite Hs in H by done. by apply (checks_from g Q (f ([], ws)) (Hq HP)) in H as [_ ?].
    + intros [HP HQ]. assert (E : (f ([], ws)).1 = []) by (by apply Hc). rewrite Hs by done.
      by apply (checks_from g Q (f ([], ws)) (Hq HP)).
Qed.

Lemma checks_ext f g P : (forall acc, f acc = g acc) -> checks f P -> checks g P.
Proof.
  intros H [Hg Hc]. split; [intros acc; rewrite <- H; apply Hg|intros ws; rewrite <- H; apply Hc].
Qed.

Lemma checks_warnings (w : list string) P f :
  checks f P -> checks (fun acc => ((f acc).1, (f acc).2 ++ w)) P.
Proof. intros [Hg Hc]. split; [intros acc; apply Hg|intros ws; apply Hc]. Qed.

Lemma isInteger_spec q : isInteger (Finite q) = true <-> exists z, (q == inject_Z z)%Q.
Proof.
  destruct q as [n d]. cbn. rewrite Z.eqb_eq. unfold Qeq. cbn. split.
  - intros H. exists (n / Z.pos d). pose proof (Z.div_mod n (Z.pos d)). lia.
  - intros [z Hz]. rewrite Z.mul_1_r in Hz. rewrite Hz. apply Z.mod_mul. lia.
Qed.

Lemma num_lt_finite x y : num_lt (Finite x) (Finite y) = false <-> (y <= x)%Q.
Proof. cbn. rewrite negb_false_iff. apply Qle_bool_iff. Qed.

Lemma aboveMinimum_spec s q :
  bound_wf (s_minimum s) = true ->
  aboveMinimum s (Finite q) = true <-> forall m, s_minimum s = Some (Finite m) -> (m <= q)%Q.
Proof.
  unfold aboveMinimum. destruct (s_minimum s) as [[m| |]|]; cbn [bound_wf isFinite]; try done.
  rewrite negb_true_iff, num_lt_finite. naive_solver.
Qed.

Lemma belowMaximum_spec s q :
  bound_wf (s_maximum s) = true ->
  belowMaximum s (Finite q) = true <-> forall m, s_maximum s = Some (Finite m) -> (q <= m)%Q.
Proof.
  unfold belowMaximum. destruct (s_maximum s) as [[m| |]|]; cbn [bound_wf isFinite]; try done.
  rewrite negb_true_iff, num_lt_finite. naive_solver.
Qed.

(** A chain of checks, the first of which that fails is reported. *)
Lemma first_error_nil {A} (b : bool) (e : A) l :
  (if negb b then [e] else l) = [] <-> b = true /\ l = [].
Proof. destruct b; cbn; naive_solver. Qed.

(** ** The validator accepts exactly what conforms *)

Section correctness.
Context (regexTest : string -> string -> bool) (isUri : string -> bool).
#[local] Notation validateValue := (validateValue regexTest isUri).
#[local] Notation typeErrors := (typeErrors regexTest isUri).
#[local] Notation conforms := (conforms regexTest isUri).
#[local] Notation well_typed := (well_typed regexTest isUri).

(** The loops of [validateValue] *)
Definition validateItem (s : schema) (path : string) (i : Z) (v : value) (acc : Acc) : Acc :=
  ((validateValue s v (path +:+ "[" +:+ print_Z i +:+ "]") (acc.1, [])).1, acc.2).
Fixpoint validateItems (s : schema) (path : string) (i : Z) (l : list value) (acc : Acc) : Acc :=
  match l with
  | [] => acc
  | v :: l' => validateItems s path (i + 1) l' (validateItem s path i v acc)
  end.
Definition validateMember (v : value) (path : string) (kp : string * schema) (acc : Acc) : Acc :=
  if isUndefined (member v kp.1) then acc
  else validateValue kp.2 (member v kp.1) (joinPath path kp.1) acc.
Definition validateOther (known : list string) (extra : schema) (path : string)
    (kw : string * value) (acc : Acc) : Acc :=
  if bool_decide (kw.1 ∈ known) then acc else validateValue extra kw.2 (joinPath path kw.1) acc.

Definition validateItemsOf (s : schema) (v : value) (path : string) (acc : Acc) : Acc :=
  match s_type s, v, s_items s with
  | Some TyArray, VArray l, Some itemSchema => validateItems itemSchema path 0 l acc
  | _, _, _ => acc
  end.
Definition validateMembersOf (s : schema) (v : value) (path : string) (acc : Acc) : Acc :=
  match s_type s, s_properties s, v with
  | Some TyObject, Some properties, VObject l =>
      let acc := foldl (fun acc kp => validateMember v path kp acc) acc properties in
      let acc := requireFields s v path acc in
      match s_additional s with
      | Some (inl false) => (acc.1, acc.2 ++ unknownKeys path properties.*1 l)
      | Some (inr extra) =>
          foldl (fun acc kw => validateOther properties.*1 extra path kw acc) acc l
      | _ => acc
      end
  | _, _, _ => acc
  end.
Definition at_path (path : string) (acc : Acc) : bool :=
  existsb (fun e => String.eqb (e_path e) path) acc.1.

Lemma validateItems_eq (s : schema) path l : forall i acc,
  ((fix elements (i : Z) (errs : list ConfigValidationError) (l : list value) :=
      match l with
      | [] => errs
      | item :: l' =>
          elements (i + 1)
            (validateValue s item (path +:+ "[" +:+ print_Z i +:+ "]") (errs, [])).1 l'
      end) i acc.1 l, acc.2) = validateItems s path i l acc.
Proof.
  induction l as [|v l IH]; intros i acc; [by destruct acc|]. cbn [validateItems].
  by rewrite <- IH.
Qed.

Lemma validateValue_eq s v path acc :
  validateValue s v path acc =
  let acc := validateItemsOf s v path (add_errors (typeErrors s v path) acc) in
  if at_path path acc then acc
  else validateMembersOf s v path (add_errors (enumErrors s v path) acc).
Proof.
  destruct s as [ty props req additional items en pat fmt lo hi d]. cbn zeta.
  set (s := Schema ty props req additional items en pat fmt lo hi d).
  assert (Hi : validateItemsOf s v path (add_errors (typeErrors s v path) acc) =
    match ty, v, items with
    | Some TyArray, VArray l, Some itemSchema =>
        ((fix elements (i : Z) (errs : list ConfigValidationError) (l : list value) :=
            match l with
            | [] => errs
            | item :: l' =>
                elements (i + 1)
                  (validateValue itemSchema item (path +:+ "[" +:+ print_Z i +:+ "]") (errs, [])).1 l'
            end) 0 (add_errors (typeErrors s v path) acc).1 l,
         (add_errors (typeErrors s v path) acc).2)
    | _, _, _ => add_errors (typeErrors s v path) acc
    end).
  { unfold validateItemsOf. cbn [s_type s_items s]. destruct ty as [[]|]; try done.
    destruct v; try done. destruct items as [it|]; [|done]. symmetry. apply validateItems_eq. }
  rewrite Hi. clear Hi. unfold s at 1. cbn [ConfigSchema.validateValue]. fold s. unfold at_path.
  destruct (existsb _ _); [done|].
  unfold validateMembersOf. cbn [s_type s_properties s_additional s].
  destruct ty as [[]|]; try done. destruct props as [ps|]; [|done]. destruct v; try done.
  set (a0 := add_errors _ _).
  assert (Hm : forall a, (fix members (acc : Acc) (properties : list (string * schema)) :=
               match properties with
               | [] => acc
               | (key, propSchema) :: rest =>
                   members (if isUndefined (member (VObject l) key) then acc
                            else validateValue propSchema (member (VObject l) key) (joinPath path key) acc) rest
               end) a ps = foldl (fun acc kp => validateMember (VObject l) path kp acc) a ps).
  { generalize ps as ps'. clear. induction ps' as [|[k p] ps' IH]; intros a; [done|]. cbn [foldl]. by rewrite <- IH. }
  rewrite Hm. set (a1 := requireFields _ _ _ _).
  destruct additional as [[[]|extra]|]; try done.
  generalize a1. clear. induction l as [|[k w] l IH]; intros a; [done|].
  cbn [foldl]. by rewrite <- IH.
Qed.

Lemma stringErrors_nil s v path :
  match v with
  | VString str =>
      if negb (patternOk regexTest s str)
      then [mkError path (PatternMismatch (default "" (s_pattern s))) s v]
      else if negb (uriOk isUri s str) then [mkError path InvalidUri s v]
      else if negb (hostnameOk s str) then [mkError path InvalidHostname s v]
      else []
  | _ => [mkError path (Expected TyString (typeof v)) s v]
  end = [] <->
  exists str, v = VString str /\
    (forall p, s_pattern s = Some p -> p <> "" -> regexTest p str = true) /\
    (s_format s = Some "uri" -> isUri str = true) /\
    (s_format s = Some "hostname" -> str = "" \/ isHostname str = true).
Proof.
  destruct v; try (split; [done|intros (? & ? & _); done]). rewrite !first_error_nil.
  assert (Hp : patternOk regexTest s s0 = true <->
    forall p, s_pattern s = Some p -> p <> "" -> regexTest p s0 = true).
  { unfold patternOk, falsy. destruct (s_pattern s) as [p|]; [|naive_solver].
    rewrite orb_true_iff, bool_decide_eq_true. split; [naive_solver|].
    intros H. destruct (decide (p = "")); naive_solver. }
  assert (Hf : forall f (P : bool), negb (bool_decide (s_format s = Some f)) || P = true <->
    (s_format s = Some f -> P = true)).
  { intros f P. rewrite orb_true_iff, negb_true_iff, bool_decide_eq_false.
    destruct (decide (s_format s = Some f)); naive_solver. }
  unfold uriOk, hostnameOk. rewrite <- orb_assoc, Hp, !Hf, orb_true_iff.
  unfold falsy. rewrite bool_decide_eq_true. naive_solver.
Qed.

Lemma numberErrors_nil s v path t :
  t = TyInteger \/ t = TyNumber ->
  bound_wf (s_minimum s) = true -> bound_wf (s_maximum s) = true ->
  match v with
  | VNumber n =>
      if negb (isNumeric t n) then [mkError path (Expected t (typeof v)) s v]
      else if negb (aboveMinimum s n) then [mkError path (BelowMinimum (default NaN (s_minimum s))) s v]
      else if negb (belowMaximum s n) then [mkError path (AboveMaximum (default NaN (s_maximum s))) s v]
      else []
  | _ => [mkError path (Expected t (typeof v)) s v]
  end = [] <->
  exists q, v = VNumber (Finite q) /\
    (t = TyInteger -> exists z, (q == inject_Z z)%Q) /\
    (forall m, s_minimum s = Some (Finite m) -> (m <= q)%Q) /\
    (forall m, s_maximum s = Some (Finite m) -> (q <= m)%Q).
Proof.
  intros Ht Hlo Hhi. destruct v as [| | |n| | |]; try (split; [done|intros (? & ? & _); done]).
  rewrite !first_error_nil. destruct n as [q| |];
    [|split; [intros [H _]; by destruct Ht; subst t|intros (? & ? & _); done]..].
  rewrite aboveMinimum_spec, belowMaximum_spec by done.
  assert (Hn : isNumeric t (Finite q) = true <-> (t = TyInteger -> exists z, (q == inject_Z z)%Q)).
  { destruct Ht as [-> | ->]; cbn [isNumeric isFinite andb]; [rewrite isInteger_spec|]; naive_solver. }
  rewrite Hn. naive_solver.
Qed.

Lemma typeErrors_nil s v path :
  schema_wf s = true -> typeErrors s v path = [] <-> well_typed s v.
Proof.
  intros Hwf. assert (Hb : bound_wf (s_minimum s) = true /\ bound_wf (s_maximum s) = true).
  { destruct s. cbn in Hwf. bool_props. done. }
  destruct Hb as [Hlo Hhi]. unfold ConfigSchema.typeErrors, ConfigSchema.well_typed, error.
  destruct (s_type s) as [[]|]; [| | | | | |done].
  - destruct v; (split; [try done|intros [? ?]; done]). by eexists.
  - destruct v; (split; [try done|intros [? ?]; done]). by eexists.
  - apply stringErrors_nil.
  - apply numberErrors_nil; [by left|done..].
  - apply numberErrors_nil; [by right|done..].
  - destruct v; (split; [try done|intros [? ?]; done]). by eexists.
Qed.

Lemma enumErrors_nil s v path : enumErrors s v path = [] <-> in_enum s v.
Proof.
  unfold enumErrors, in_enum. destruct (s_enum s) as [allowed|]; [|naive_solver].
  destruct (existsb (sameValueZero v) allowed) eqn:E.
  - split; [intros _ ? [= <-]|done]. apply existsb_exists in E as (w & Hw & ?).
    exists w. by rewrite list_elem_of_In.
  - split; [done|]. intros H. destruct (H allowed eq_refl) as (w & Hw & Hs).
    assert (existsb (sameValueZero v) allowed = true); [|congruence].
    apply existsb_exists. exists w. by rewrite <- list_elem_of_In.
Qed.

Definition conforming (s : schema) : Prop :=
  forall v path, checks (validateValue s v path) (conforms s v).

Lemma validateItems_checks s path l : forall i,
  conforming s -> checks (validateItems s path i l) (forall x, x ∈ l -> conforms s x).
Proof.
  induction l as [|v l IH]; intros i Hs; cbn [validateItems].
  - apply (checks_iff _ True); [apply checks_id|]. split; [|done]. intros _ x. by rewrite elem_of_nil.
  - apply (checks_iff _ (conforms s v /\ forall x, x ∈ l -> conforms s x)).
    + apply (checks_seq (validateItem s path i v)); [|by apply IH].
      destruct (Hs v (path +:+ "[" +:+ print_Z i +:+ "]")) as [Hg Hc].
      split; [intros acc; apply (Hg (acc.1, []))|intros ws; apply (Hc [])].
    + split; [intros [? ?] y [->|?]%elem_of_cons; auto|]. intros Hl. split; [apply Hl; left|].
      intros y Hy. apply Hl. by right.
Qed.

Lemma isUndefined_false v : isUndefined v = false <-> v <> VUndefined.
Proof. by destruct v. Qed.

Lemma validateMember_checks v path kp :
  conforming kp.2 ->
  checks (validateMember v path kp) (member v kp.1 <> VUndefined -> conforms kp.2 (member v kp.1)).
Proof.
  intros Hs. eapply checks_iff; [apply (checks_if (isUndefined (member v kp.1))), Hs|].
  by rewrite isUndefined_false.
Qed.

Lemma validateOther_checks known extra path kw :
  conforming extra -> checks (validateOther known extra path kw) (kw.1 ∉ known -> conforms extra kw.2).
Proof.
  intros Hs. eapply checks_iff; [apply (checks_if (bool_decide (kw.1 ∈ known))), Hs|].
  by rewrite bool_decide_eq_false.
Qed.

Lemma requireFields_checks s v path :
  checks (requireFields s v path) (forall k, k ∈ s_required s -> member v k <> VUndefined).
Proof.
  apply (checks_foldl (fun field acc => if isUndefined (member v field)
    then add_errors (error (joinPath path field) MissingRequired emptySchema VUndefined) acc
    else acc)).
  intros k _. destruct (isUndefined (member v k)) eqn:E.
  - apply checks_add. split; [done|]. intros H. by apply isUndefined_false in H; rewrite H in E.
  - apply isUndefined_false in E. apply (checks_iff _ True); [apply checks_id|done].
Qed.

(** What the members of an object must satisfy. *)
Definition members_conform (s : schema) (v : value) : Prop :=
  forall props, s_type s = Some TyObject -> s_properties s = Some props ->
    (forall k p, (k, p) ∈ props -> member v k <> VUndefined -> conforms p (member v k)) /\
    (forall k, k ∈ s_required s -> member v k <> VUndefined) /\
    (forall extra l k w, s_additional s = Some (inr extra) -> v = VObject l ->
       (k, w) ∈ l -> k ∉ props.*1 -> conforms extra w).

Definition items_conform (s : schema) (v : value) : Prop :=
  forall items l x, s_type s = Some TyArray -> s_items s = Some items ->
    v = VArray l -> x ∈ l -> conforms items x.

Lemma conforms_unfold s v :
  conforms s v <-> (well_typed s v /\ items_conform s v) /\ in_enum s v /\ members_conform s v.
Proof.
  split.
  - intros H. destruct H as [s v Hw He Hi Hp Hr Ha]. split_and!; [done|exact Hi|done|].
    intros props Ht Hps. split_and!; [intros k p; by apply (Hp props)|intros k; by apply (Hr props)|].
    intros extra l k w. by apply (Ha props).
  - intros ([Hw Hi] & He & Hm). constructor; [exact Hw|exact He|exact Hi| | |].
    + intros props k p Ht Hps. apply (Hm props Ht Hps).
    + intros props k Ht Hps. apply (Hm props Ht Hps).
    + intros props extra l k w Ht Hps. apply (Hm props Ht Hps).
Qed.

Lemma validateItemsOf_checks s v path :
  (forall items, s_items s = Some items -> conforming items) ->
  checks (validateItemsOf s v path) (items_conform s v).
Proof.
  intros Hi. unfold validateItemsOf, items_conform.
  assert (Hid : forall P : Prop, P -> checks (fun acc => acc) P)
    by (intros P HP; by apply (checks_iff _ True); [apply checks_id|]).
  destruct (s_type s) as [[]|]; try (by apply Hid).
  destruct v; try (by apply Hid). destruct (s_items s) as [items|]; [|by apply Hid].
  eapply checks_iff; [apply validateItems_checks, Hi; done|]. split.
  - intros H ? ? x _ [= <-] [= <-] Hx. by apply H.
  - intros H x Hx. by apply (H items l).
Qed.

Lemma validateMembersOf_checks s v path :
  (exists l, v = VObject l) \/ s_type s <> Some TyObject ->
  (forall props k p, s_properties s = Some props -> (k, p) ∈ props -> conforming p) ->
  (forall extra, s_additional s = Some (inr extra) -> conforming extra) ->
  checks (validateMembersOf s v path) (members_conform s v).
Proof.
  intros Hv Hp Ha. unfold validateMembersOf, members_conform.
  assert (Hid : forall P : Prop, P -> checks (fun acc => acc) P)
    by (intros P HP; by apply (checks_iff _ True); [apply checks_id|]).
  destruct (s_type s) as [[]|]; try (by apply Hid).
  destruct (s_properties s) as [props|]; [|by apply Hid].
  destruct Hv as [[l ->]|?]; [|done].
  set (Q := forall extra k w, s_additional s = Some (inr extra) -> (k, w) ∈ l -> k ∉ props.*1 -> conforms extra w).
  eapply (checks_iff _ (((forall kp, kp ∈ props -> member (VObject l) kp.1 <> VUndefined ->
                            conforms kp.2 (member (VObject l) kp.1)) /\
                         (forall k, k ∈ s_required s -> member (VObject l) k <> VUndefined)) /\ Q)).
  2:{ unfold Q. split; [intros [[Hm Hr] Hq] ? _ [= <-]|intros H; destruct (H _ eq_refl eq_refl) as (H1 & H2 & H3)].
      - split_and!; [intros k p; apply (Hm (k, p))|done|]. intros extra l' k w He [= <-]. by apply Hq.
      - split_and!; [intros [k p]; apply H1|done|]. intros extra k w He. by apply (H3 extra l). }
  assert (Hb : checks (fun acc => requireFields s (VObject l) path
                 (foldl (fun acc kp => validateMember (VObject l) path kp acc) acc props))
                ((forall kp, kp ∈ props -> member (VObject l) kp.1 <> VUndefined ->
                            conforms kp.2 (member (VObject l) kp.1)) /\
                 (forall k, k ∈ s_required s -> member (VObject l) k <> VUndefined))).
  { apply (checks_seq _ (requireFields s (VObject l) path)); [|apply requireFields_checks].
    apply checks_foldl. intros [k p] Hin. apply validateMember_checks. by eapply Hp. }
  unfold Q. clear Q. destruct (s_additional s) as [[[]|extra]|].
  - eapply checks_iff; [apply Hb|]. split; [by intros ?|by intros [? _]].
  - eapply checks_iff; [apply (checks_warnings _ _ _ Hb)|]. split; [by intros ?|by intros [? _]].
  - eapply checks_iff.
    + apply (checks_seq _ (fun acc => foldl (fun acc kw => validateOther props.*1 extra path kw acc) acc l));
        [apply Hb|].
      apply checks_foldl. intros kw _. apply validateOther_checks, Ha. done.
    + split; intros [? Ho]; (split; [done|]); [|intros [k w]; by apply Ho].
      intros ? k w [= <-] Hin. by apply (Ho (k, w)).
  - eapply checks_iff; [apply Hb|]. split; [by intros ?|by intros [? _]].
Qed.

Lemma validateValue_checks s : schema_wf s = true -> conforming s.
Proof.
  induction s as [ty props req additional items en pat fmt lo hi d IHp IHa IHi] using schema_ind'.
  intros Hwf v path. set (s := Schema ty props req additional items en pat fmt lo hi d) in *.
  assert (Hsub : (forall l, props = Some l -> Forall (fun kp => schema_wf kp.2 = true) l) /\
                 (forall s', additional = Some (inr s') -> schema_wf s' = true) /\
                 (forall s', items = Some s' -> schema_wf s' = true)).
  { cbn in Hwf. bool_props. split_and!; [|by intros s' ->..].
    intros l ->. bool_props. apply Forall_forall. intros kp Hin%list_elem_of_In.
    match goal with F : forallb _ l = true |- _ => rewrite forallb_forall in F; by apply (F kp) end. }
  destruct Hsub as (Hsp & Hsa & Hsi).
  assert (Hty : typeErrors s v path = [] -> (exists l, v = VObject l) \/ s_type s <> Some TyObject).
  { rewrite typeErrors_nil by done. unfold ConfigSchema.well_typed. destruct (s_type s) as [[]|]; auto. }
  set (f := fun acc => validateItemsOf s v path (add_errors (typeErrors s v path) acc)).
  set (g := fun acc => validateMembersOf s v path (add_errors (enumErrors s v path) acc)).
  assert (Hf : checks f (well_typed s v /\ items_conform s v)).
  { apply (checks_seq (add_errors (typeErrors s v path))).
    - apply checks_add. by apply typeErrors_nil.
    - apply validateItemsOf_checks. intros it Hit. apply IHi; [done|]. by apply Hsi. }
  eapply (checks_ext (fun acc => if at_path path (f acc) then f acc else g (f acc)));
    [intros acc; symmetry; apply validateValue_eq|].
  eapply checks_iff; [|symmetry; apply conforms_unfold].
  assert (Hm : (exists l, v = VObject l) \/ s_type s <> Some TyObject ->
               checks (validateMembersOf s v path) (members_conform s v)).
  { intros Hv. apply validateMembersOf_checks; [done| |].
    - intros ps k p Hps Hin. cbn in Hps. specialize (IHp ps Hps). rewrite Forall_forall in IHp.
      apply (IHp (k, p)); [done|]. specialize (Hsp ps Hps). rewrite Forall_forall in Hsp. by apply (Hsp (k, p)).
    - intros extra He. apply IHa; [done|]. by apply Hsa. }
  assert (He : checks (add_errors (enumErrors s v path)) (in_enum s v)) by apply checks_add, enumErrors_nil.
  apply checks_return; [done| | |by intros acc; unfold at_path; intros ->].
  - destruct (isObject v) eqn:Hv.
    + apply (checks_seq _ _ _ (members_conform s v) He), Hm. left. destruct v; try done. by eexists.
    + intros acc. exists (enumErrors s v path). unfold g, validateMembersOf.
      by destruct (s_type s) as [[]|], (s_properties s), v.
  - intros [Hw _]. apply (checks_seq _ _ _ _ He), Hm, Hty. by apply typeErrors_nil.
Qed.

End correctness.

(** ** Defaults *)

(** One round of [applyDefaults] *)
Definition defaultMember (l : list (string * value)) (kp : string * schema) : list (string * value) :=
  let l := fillDefault kp.2 kp.1 l in
  match s_type kp.2, assoc_get kp.1 l with
  | Some TyObject, Some (VObject m) => assoc_set kp.1 (applyDefaults kp.2 (VObject m)) l
  | _, _ => l
  end.

Lemma applyDefaults_eq s v :
  applyDefaults s v =
  match s_properties s, v with
  | Some props, VObject l => VObject (foldl defaultMember l props)
  | _, _ => v
  end.
Proof.
  destruct s as [ty props req additional items en pat fmt lo hi d]. cbn [s_properties].
  destruct props as [props|]; [|done]. destruct v; try done. cbn [applyDefaults]. f_equal.
  revert l. induction props as [|[k p] props IH]; intros l; [done|]. cbn [foldl]. by rewrite <- IH.
Qed.

Lemma isObject_applyDefaults s v : isObject (applyDefaults s v) = isObject v.
Proof. rewrite applyDefaults_eq. by destruct (s_properties s), v. Qed.

Lemma isUndefined_deepClone v : isUndefined (deepClone v) = isUndefined v.
Proof. by destruct v. Qed.

Lemma fillDefault_get p k l k' :
  assoc_get k' (fillDefault p k l) =
  if decide (k = k')
  then if isUndefined (member (VObject l) k) && negb (isUndefined (s_default p))
       then Some (deepClone (s_default p)) else assoc_get k l
  else assoc_get k' l.
Proof.
  unfold fillDefault. destruct (isUndefined _ && _).
  - rewrite assoc_get_set. by case_decide.
  - case_decide; by subst.
Qed.

Lemma defaultMember_other l kp k : kp.1 <> k -> assoc_get k (defaultMember l kp) = assoc_get k l.
Proof.
  intros Hk. unfold defaultMember.
  assert (H : assoc_get k (fillDefault kp.2 kp.1 l) = assoc_get k l)
    by (rewrite fillDefault_get; by rewrite decide_False).
  destruct (s_type kp.2) as [[]|], (assoc_get kp.1 (fillDefault kp.2 kp.1 l)) as [[]|]; try exact H.
  rewrite assoc_get_set. by rewrite decide_False.
Qed.

(** A member that has its default and, if an object, all of its own. *)
Definition settled (p : schema) (o : option value) : Prop :=
  (isUndefined (default VUndefined o) = true -> isUndefined (s_default p) = true) /\
  (forall m, s_type p = Some TyObject -> o = Some (VObject m) ->
     applyDefaults p (VObject m) = VObject m /\ filled p (VObject m)).

Lemma assoc_set_same (k : string) (v : value) l : assoc_get k l = Some v -> assoc_set k v l = l.
Proof.
  induction l as [|[k0 v0] l IH]; [done|]. cbn. case_decide; [by intros [= ->]; subst|].
  intros Hk. by rewrite IH.
Qed.

Lemma settled_fixed p k l : settled p (assoc_get k l) -> defaultMember l (k, p) = l.
Proof.
  intros [Hd Ho]. unfold defaultMember. cbn [fst snd].
  assert (E : fillDefault p k l = l).
  { unfold fillDefault. cbn [member]. destruct (isUndefined (default _ _)) eqn:E; [|done].
    by rewrite Hd. }
  rewrite E. destruct (s_type p) as [[]|]; try done.
  destruct (assoc_get k l) as [[]|] eqn:G; try done.
  destruct (Ho l0 eq_refl eq_refl) as [-> _]. by apply assoc_set_same.
Qed.

(** What one round leaves behind, given that [applyDefaults] of the property is
    settled. *)
Lemma defaultMember_settled p k l :
  (forall m m', applyDefaults p (VObject m) = VObject m' ->
     applyDefaults p (VObject m') = VObject m' /\ filled p (VObject m')) ->
  settled p (assoc_get k (defaultMember l (k, p))).
Proof.
  intros IH. unfold defaultMember. cbn [fst snd].
  set (l1 := fillDefault p k l).
  assert (Hd : isUndefined (default VUndefined (assoc_get k l1)) = true -> isUndefined (s_default p) = true).
  { unfold l1. rewrite fillDefault_get, decide_True by done. cbn [member].
    destruct (isUndefined (default VUndefined (assoc_get k l))) eqn:E, (isUndefined (s_default p)) eqn:E';
      cbn [andb negb]; try done.
    - cbn [default from_option id]. by rewrite isUndefined_deepClone, E'.
    - by rewrite E. }
  assert (Hnot : (s_type p <> Some TyObject \/ forall m, assoc_get k l1 <> Some (VObject m)) ->
                 settled p (assoc_get k l1)).
  { intros Hno. split; [exact Hd|]. intros m Ht Hm. by destruct Hno as [H|H]; [|destruct (H m)]. }
  destruct (s_type p) as [[]|]; try (apply Hnot; by left).
  destruct (assoc_get k l1) as [w|] eqn:G; [|rewrite G; apply Hnot; by right].
  destruct w as [| | | | | |m]; try (rewrite G; apply Hnot; by right).
  rewrite assoc_get_set, decide_True by reflexivity.
  pose proof (isObject_applyDefaults p (VObject m)) as Hi.
  destruct (applyDefaults p (VObject m)) as [| | | | | |m'] eqn:E; try discriminate.
  split; [discriminate|]. intros ? _ [= <-]. exact (IH m m' E).
Qed.

Lemma defaultMembers_settled props l k p :
  NoDup props.*1 -> (k, p) ∈ props ->
  (forall m m', applyDefaults p (VObject m) = VObject m' ->
     applyDefaults p (VObject m') = VObject m' /\ filled p (VObject m')) ->
  settled p (assoc_get k (foldl defaultMember l props)).
Proof.
  intros Hn Hin IH. revert l. induction props as [|[k0 p0] props IHp]; [by apply elem_of_nil in Hin|].
  intros l. cbn [foldl]. rewrite fmap_cons, NoDup_cons in Hn. destruct Hn as [Hk0 Hn].
  apply elem_of_cons in Hin as [[= -> ->]|Hin]; [|by apply IHp].
  assert (Hrest : forall l', assoc_get k0 (foldl defaultMember l' props) = assoc_get k0 l').
  { cbn in Hk0. clear -Hk0. induction props as [|[k p] props IH]; intros l'; [done|]. cbn [foldl].
    rewrite fmap_cons, not_elem_of_cons in Hk0. destruct Hk0 as [? ?].
    rewrite IH by done. by apply defaultMember_other. }
  rewrite Hrest. by apply defaultMember_settled.
Qed.

Lemma applyDefaults_settled s l :
  schema_wf s = true ->
  forall v, applyDefaults s (VObject l) = v -> applyDefaults s v = v /\ filled s v.
Proof.
  revert l. induction s as [ty props req additional items en pat fmt lo hi d IHp _ _] using schema_ind'.
  set (s := Schema ty props req additional items en pat fmt lo hi d). intros l Hwf v <-.
  rewrite !(applyDefaults_eq s). destruct (s_properties s) as [ps|] eqn:Hps.
  2:{ split; [done|]. constructor; intros ? ? ? ?; congruence. }
  destruct (schema_wf_props s ps "" s Hwf Hps) as [Hn _].
  set (l' := foldl defaultMember l ps).
  assert (Hset : forall k p, (k, p) ∈ ps -> settled p (assoc_get k l')).
  { intros k p Hin. apply defaultMembers_settled; [done..|]. intros m m' E.
    specialize (IHp ps Hps). rewrite Forall_forall in IHp. apply (IHp (k, p) Hin m); [|done].
    by apply (schema_wf_props s ps k p Hwf Hps). }
  clear IHp. split.
  - f_equal. clearbody l'. clear -Hset. induction ps as [|[k p] ps IH]; [done|]. cbn [foldl].
    rewrite settled_fixed by (apply Hset; left). apply IH. intros k' p' Hin. apply Hset. by right.
  - constructor.
    + intros ps' k p _ E' Hin Hd. assert (ps' = ps) as -> by congruence. destruct (Hset k p Hin) as [H _]. cbn [member].
      intros E. rewrite E in H. specialize (H eq_refl). by destruct (s_default p).
    + intros ps' k p _ E' Hin Ht Ho. assert (ps' = ps) as -> by congruence. destruct (Hset k p Hin) as [_ H]. cbn [member] in *.
      destruct (assoc_get k l') as [[| | | | | |m]|]; try discriminate Ho.
      apply (H m Ht eq_refl).
Qed.

(** ** Validation *)

Lemma merge_into_fresh l : NoDup l.*1 -> merge_into [] (VObject l) = l.
Proof.
  intros Hn. rewrite merge_into_object.
  assert (H : forall acc, NoDup (acc.*1 ++ l.*1) -> foldl (fun r kv => assign kv.1 kv.2 r) acc l = acc ++ l).
  { clear Hn. induction l as [|[k v] l IH]; intros acc Hn; [by rewrite app_nil_r|]. cbn [foldl fst snd].
    rewrite fmap_cons in Hn. cbn in Hn.
    assert (Hk : k ∉ acc.*1).
    { apply NoDup_app in Hn as (_ & Hd & _). intros Hk. apply (Hd k Hk). left. }
    replace (assign k v acc) with (acc ++ [(k, v)]).
    - rewrite IH; [by rewrite <- app_assoc|]. by rewrite fmap_app, <- app_assoc.
    - unfold assign. rewrite (proj2 (assoc_get_None acc k) Hk).
      rewrite <- assoc_set_new by done. by destruct v. }
  by apply (H []).
Qed.

Lemma NoDup_assoc_set (k : string) (v : value) l : NoDup l.*1 -> NoDup (assoc_set k v l).*1.
Proof.
  intros Hn. rewrite assoc_set_keys. case_decide; [done|].
  apply NoDup_app. split_and!; [done| |apply NoDup_singleton]. intros x Hx ->%list_elem_of_singleton. done.
Qed.

Lemma merge_into_keys l result : NoDup result.*1 -> NoDup (merge_into result (VObject l)).*1.
Proof.
  rewrite merge_into_object. revert result. induction l as [|[k w] l IH]; intros result Hn; [done|].
  cbn [foldl fst snd]. apply IH. unfold assign.
  destruct w, (assoc_get k result) as [[]|]; by apply NoDup_assoc_set.
Qed.

Lemma defaultMember_keys l kp : NoDup l.*1 -> NoDup (defaultMember l kp).*1.
Proof.
  intros Hn. unfold defaultMember.
  assert (Hf : NoDup (fillDefault kp.2 kp.1 l).*1)
    by (unfold fillDefault; destruct (_ && _); [by apply NoDup_assoc_set|done]).
  destruct (s_type kp.2) as [[]|], (assoc_get kp.1 (fillDefault kp.2 kp.1 l)) as [[]|];
    try exact Hf. by apply NoDup_assoc_set.
Qed.

(** Defaults do not touch a value that is there. *)
Lemma getIn_applyDefaults keys : forall s c v d,
  getIn_keys c keys VUndefined = v -> v <> VUndefined -> isObject v = false ->
  getIn_keys (applyDefaults s c) keys d = v.
Proof.
  induction keys as [|k keys IH]; intros s c v d Hg Hu Ho.
  { cbn in Hg. assert (c = v) as -> by (destruct c; congruence).
    rewrite applyDefaults_eq. destruct (s_properties s), v; try done. }
  assert (Hd : forall c', getIn_keys c' keys VUndefined = v -> getIn_keys c' keys d = v).
  { intros c' H. rewrite getIn_keys_default, H. by destruct v. }
  destruct c as [| | | | |l|l]; cbn [getIn_keys hasMembers] in Hg; try congruence;
    rewrite applyDefaults_eq; destruct (s_properties s) as [props|]; try exact (Hd _ Hg).
  cbn [getIn_keys hasMembers]. revert l Hg. induction props as [|[k' p] props IHp]; intros l Hg; [exact (Hd _ Hg)|].
  cbn [foldl]. apply IHp. cbn [member] in *.
  destruct (decide (k' = k)) as [->|Hne]; [|by rewrite defaultMember_other].
  destruct (assoc_get k l) as [w|] eqn:G; cbn [default from_option id] in Hg;
    [|exfalso; apply Hu; rewrite <- Hg; by destruct keys].
  assert (Hw : isUndefined w = false) by (destruct w; try done; exfalso; apply Hu; rewrite <- Hg; by destruct keys).
  assert (E : fillDefault p k l = l).
  { unfold fillDefault. cbn [member]. rewrite G. cbn [default from_option id]. by rewrite Hw. }
  unfold defaultMember. cbn [fst snd]. rewrite E, G.
  destruct (s_type p) as [[]|]; try (by rewrite G). destruct w as [| | | | | |m]; try (by rewrite G).
  rewrite assoc_get_set, decide_True by done. cbn [default from_option id]. by apply IH.
Qed.

(** The data a validation works on: its keys are distinct and its defaults filled,
    so that validating it again starts from the same data. *)
Definition normalized (s : schema) (v : value) : value := applyDefaults s (deepMerge [VObject []; v]).

Lemma normalized_spec s l :
  schema_wf s = true ->
  exists l', normalized s (VObject l) = VObject l' /\ NoDup l'.*1 /\
    filled s (VObject l') /\ normalized s (VObject l') = VObject l'.
Proof.
  intros Hwf. unfold normalized. change (deepMerge [VObject []; VObject l]) with (VObject (merge_into [] (VObject l))).
  set (m := merge_into [] (VObject l)).
  assert (Hm : NoDup m.*1) by (apply merge_into_keys; constructor).
  pose proof (isObject_applyDefaults s (VObject m)) as Hi.
  destruct (applyDefaults s (VObject m)) as [| | | | | |l'] eqn:E; try done. exists l'.
  assert (Hn : NoDup l'.*1).
  { rewrite applyDefaults_eq in E. destruct (s_properties s) as [ps|]; injection E as <-; [|done].
    clearbody m. clear -Hm. revert m Hm. induction ps as [|kp ps IH]; intros m Hm; [done|]. cbn [foldl].
    by apply IH, defaultMember_keys. }
  destruct (applyDefaults_settled s m Hwf _ E) as [Hs Hf].
  split_and!; [done|done|done|].
  change (deepMerge [VObject []; VObject l']) with (VObject (merge_into [] (VObject l'))).
  by rewrite merge_into_fresh.
Qed.

Lemma getIn_normalized s c keys v d :
  wf c = true -> isObject c = true ->
  v <> VUndefined -> isObject v = false -> getIn_keys c keys VUndefined = v ->
  getIn_keys (normalized s c) keys d = v.
Proof.
  intros Hw Hc Hu Ho Hg. destruct c as [| | | | | |l]; try done. unfold normalized.
  change (deepMerge [VObject []; VObject l]) with (VObject (merge_into [] (VObject l))).
  rewrite merge_into_fresh by (by apply wf_object in Hw as [? _]). by apply getIn_applyDefaults.
Qed.

Lemma wf_member l k v : wf (VObject l) = true -> assoc_get k l = Some v -> wf v = true.
Proof. intros [_ H]%wf_object. apply H. Qed.

Lemma wf_assoc_set l k v : wf (VObject l) = true -> wf v = true -> wf (VObject (assoc_set k v l)) = true.
Proof.
  rewrite !wf_object. intros [Hn Hl] Hv. split; [by apply NoDup_assoc_set|].
  intros k' v'. rewrite assoc_get_set. case_decide; [by intros [= <-]|apply Hl].
Qed.

Lemma copy_members_id l : NoDup l.*1 -> copy_members l = l.
Proof.
  intros Hn. unfold copy_members.
  assert (H : forall acc, NoDup (acc.*1 ++ l.*1) ->
     foldl (fun r kv => assoc_set kv.1 kv.2 r) acc l = acc ++ l); [|by apply (H [])].
  clear Hn. induction l as [|[k v] l IH]; intros acc Hn; [by rewrite app_nil_r|]. cbn [foldl fst snd].
  rewrite fmap_cons in Hn. cbn in Hn.
  rewrite assoc_set_new.
  - rewrite IH; [by rewrite <- app_assoc|]. by rewrite fmap_app, <- app_assoc.
  - apply NoDup_app in Hn as (_ & Hd & _). intros Hk. apply (Hd k Hk). left.
Qed.

Section validation.
Context (regexTest : string -> string -> bool) (isUri : string -> bool).
#[local] Notation validate := (validate regexTest isUri).

Lemma validate_spec s v :
  schema_wf s = true ->
  let r := validate s v in
  (valid r = true <-> isObject v = true /\ conforms regexTest isUri s (normalized s v)) /\
  (valid r = true <-> errors r = []) /\
  (isObject v = true ->
     data r = normalized s v /\ isObject (data r) = true /\ filled s (data r) /\
     validate s (data r) = r).
Proof.
  intros Hwf r. unfold r. clear r. destruct v as [| | | | | |l]; try (split_and!; [|by cbn..]; cbn; naive_solver).
  destruct (normalized_spec s l Hwf) as (l' & E & Hn & Hf & E').
  assert (H : forall m, normalized s (VObject m) = VObject l' -> validate s (VObject m) =
     let acc := validateValue regexTest isUri s (VObject l') "" ([], []) in
     mkResult (match acc.1 with [] => true | _ => false end) acc.1 acc.2 (VObject l')).
  { intros m Hm. unfold ConfigSchema.validate. by fold (normalized s (VObject m)); rewrite Hm. }
  rewrite !(H l E), E. cbn zeta. cbn [valid errors data isObject].
  destruct (validateValue_checks regexTest isUri s Hwf (VObject l') "") as [_ Hc]. rewrite <- (Hc []).
  split_and!.
  - destruct (_.1); naive_solver.
  - destruct (_.1); naive_solver.
  - intros _. split_and!; [done..|]. by rewrite (H l' E').
Qed.

(** C14: validation against a schema of distinct property names and finite bounds.
    Exactly the objects are accepted that, with the defaults filled in, conform to
    the schema; whatever is accepted comes back with every default and conforming,
    and validating it again changes nothing. *)
Theorem validate_typed s v :
  schema_wf s = true ->
  let r := validate s v in
  (valid r = true <-> isObject v = true /\ conforms regexTest isUri s (normalized s v)) /\
  (valid r = true <-> errors r = []) /\
  (isObject v = true ->
     data r = normalized s v /\ isObject (data r) = true /\ filled s (data r) /\
     validate s (data r) = r).
Proof. apply validate_spec. Qed.
End validation.

(** ** Concrete validations *)

Module Examples.
Local Open Scope string_scope.
Local Open Scope list_scope.

Definition digitsOnly (pattern s : string) : bool := all_chars is_digit s && negb (falsy s).
Definition anyUri (s : string) : bool := true.

Definition minimal : value := VObject [("db", VObject []); ("app", VObject [("port", VNumber (int 8080))])].

Lemma validate_typed_witness :
  valid (validate digitsOnly anyUri mainSchema minimal) = true /\
  getIn (data (validate digitsOnly anyUri mainSchema minimal)) "app.logLevel" VUndefined = VString "info" /\
  validate digitsOnly anyUri mainSchema (data (validate digitsOnly anyUri mainSchema minimal)) =
    validate digitsOnly anyUri mainSchema minimal.
Proof.
  split; [vm_compute; reflexivity|]. split; [vm_compute; reflexivity|].
  destruct (validate_typed digitsOnly anyUri mainSchema minimal) as (_ & _ & H); [vm_compute; reflexivity|].
  exact (proj2 (proj2 (proj2 (H eq_refl)))).
Defined.

(** A port out of range and an unknown key. *)
Lemma invalid_port_reported :
  let r := validate digitsOnly anyUri mainSchema
             (VObject [("db", VObject []); ("app", VObject [("port", VNumber (int 70000))]);
                       ("extra", VNull)]) in
  (e_path <$> errors r) = ["app.port"] /\ warnings r = ["extra: unknown configuration key"].
Proof. vm_compute. split; reflexivity. Qed.

(** The statuses of feature flags are never validated: their schema has
    [additionalProperties] but no [properties], and the validator looks at the
    former only beside the latter. *)
Lemma flag_overrides_unchecked :
  valid (validate digitsOnly anyUri mainSchema
           (VObject [("db", VObject []); ("app", VObject []);
                     ("feature_flags",
                      VObject [("overrides", VObject [("staking", VNumber (int 7))])])])) = true.
Proof. vm_compute. reflexivity. Qed.
End Examples.
