(* ===== verification/ConfigLoader.v ===== *)
(** * Loading the configuration ([src/src/config/loader.ts], the name helpers of
    [src/src/config/validator.ts])

    The sources of a loader in the order of their priorities, what each of them
    yields, and [load], which merges them and validates the result.  What is
    outside the process, the variables, files and answers of etcd and Consul, is a
    record [Outside]; parsing JSON is the host's.  The sources do not change
    while a load is in progress.

    [load_merges_by_priority]: what [load] returns is typed, and a setting is read
    from the source of the highest priority that says something about it.
    [environment_names_resolve]: which settings an environment variable reaches. *)

From Stdlib Require Import ZArith Lia Ascii String QArith Sorted.
From stdpp Require Import base numbers list strings.
From S2P Require Import Prelude Js Text Number Config ConfigSchema.
#[local] Open Scope Z_scope.

(** ** Names of environment variables *)

(** [s.startsWith(p)] *)
Definition startsWith (p s : string) : bool := match stripPrefix p s with Some _ => true | None => false end.

(** [.replace(/__/g, '.').replace(/_/g, '.')] *)
Fixpoint dots (s : string) : string :=
  match s with
  | EmptyString => EmptyString
  | String "_" (String "_" s') => String "." (dots s')
  | String "_" s' => String "." (dots s')
  | String c s' => String c (dots s')
  end.

(** [normalizeEnvKey(key)], with its default prefix *)
Definition normalizeEnvKey (key : string) : string :=
  dots (toLowerCase (default key (stripPrefix "VERINODE_" key))).

Definition upper1 (c : ascii) : ascii :=
  if (97 <=? code c)%nat && (code c <=? 122)%nat then ascii_of_nat (code c - 32) else c.
Fixpoint toUpperCase (s : string) : string :=
  match s with EmptyString => EmptyString | String c s' => String (upper1 c) (toUpperCase s') end.

(** The name [flattenToEnv] gives to a setting. *)
Definition envName (path : list string) : string := toUpperCase (join "_" ("VERINODE" :: path)).

(** [path.replace(/[\._]/g, '')] *)
Fixpoint collapse (s : string) : string :=
  match s with
  | EmptyString => EmptyString
  | String c s' => if Ascii.eqb c "." || Ascii.eqb c "_" then collapse s' else String c (collapse s')
  end.

Fixpoint search (s : schema) (currentPath : list string) (target : string) {struct s} : option (list string) :=
  if String.eqb (toLowerCase (join "" currentPath)) target then Some currentPath else
  match s with
  | Schema _ (Some properties) _ _ _ _ _ _ _ _ _ =>
      (fix first (properties : list (string * schema)) :=
         match properties with
         | [] => None
         | (key, p) :: rest =>
             match search p (currentPath ++ [key]) target with
             | Some result => Some result
             | None => first rest
             end
         end) properties
  | _ => None
  end.

Definition findActualPath (s : schema) (path : string) : option (list string) :=
  search s [] (toLowerCase (collapse path)).

(** [getSchemaTypeForPath] *)
Fixpoint schemaAt (s : schema) (keys : list string) : option schema :=
  match keys with
  | [] => Some s
  | key :: rest =>
      match s_properties s with
      | Some properties => match assoc_get key properties with
                           | Some p => schemaAt p rest
                           | None => None
                           end
      | None => None
      end
  end.

Definition getSchemaTypeForPath (s : schema) (path : string) : option EnvType :=
  match schemaAt s (split "."%char path) with
  | Some p =>
      match s_type p with
      | Some TyInteger | Some TyNumber => Some EnvNumber
      | Some TyBoolean => Some EnvBoolean
      | Some TyArray => Some EnvArray
      | Some TyString => Some EnvString
      | _ => None
      end
  | None => None
  end.

(** ** The environment *)

Definition parseUntyped (v : string) : value :=
  if bool_decide (v = "true") || bool_decide (v = "false") then VBool (bool_decide (v = "true"))
  else if negb (falsy v) && isFinite (Number_ v) then VNumber (Number_ v)
  else VString v.

Definition setVariable (s : schema) (result : value) (key v : string) : SetResult :=
  let configKey := normalizeEnvKey key in
  let actualPath := findActualPath s configKey in
  let targetPath := match actualPath with Some p => join "." p | None => configKey end in
  let parsed := match getSchemaTypeForPath s targetPath with
                | Some t => parseEnvValue v t
                | None => parseUntyped v
                end in
  match actualPath with
  | Some p => setIn_keys result p parsed
  | None => setIn result configKey parsed
  end.

Fixpoint loadVariables (s : schema) (result : value) (env : list (string * string)) : SetResult :=
  match env with
  | [] => Updated result
  | (key, v) :: rest =>
      if startsWith "VERINODE_" key then
        match setVariable s result key v with
        | Updated result' => loadVariables s result' rest
        | r => r
        end
      else loadVariables s result rest
  end.

(** [loadEnvironment(prefix)] *)
Definition loadEnvironment (s : schema) (env : list (string * string)) : SetResult :=
  loadVariables s (VObject []) env.

(** ** Remote stores *)

Definition endsWithSlash (s : string) : bool :=
  match String.get (String.length s - 1) s with Some c => Ascii.eqb c "/" | None => false end.
Definition dropLast (s : string) : string := String.substring 0 (String.length s - 1) s.

(** [keyPrefix.endsWith('/') ? keyPrefix : `${keyPrefix}/`], of [options.keyPrefix]
    or its default *)
Definition normalizedPrefix (keyPrefix : option string) : string :=
  let p := match keyPrefix with
           | Some p => if falsy p then "verinode/config" else p
           | None => "verinode/config"
           end in
  if endsWithSlash p then p else p +:+ "/".

(** [url.replace(/\/$/, '')] *)
Definition withoutSlash (s : string) : string := if endsWithSlash s then dropLast s else s.

(** [getRangeEnd]; the code of the last character is below 255 *)
Definition getRangeEnd (prefix : string) : string :=
  match String.get (String.length prefix - 1) prefix with
  | Some c => dropLast prefix +:+ String (ascii_of_nat (S (code c))) ""
  | None => String "255" ""
  end.

(** [k.replace(/\//g, '.')] *)
Fixpoint slashesToDots (s : string) : string :=
  match s with
  | EmptyString => EmptyString
  | String c s' => String (if Ascii.eqb c "/" then "."%char else c) (slashesToDots s')
  end.

Section remote.
(** [JSON.parse] *)
Context (parseJSON : string -> option value).

Definition relativeKey (prefix fullKey : string) : string :=
  let k := default fullKey (stripPrefix prefix fullKey) in
  default k (stripPrefix "/" k).

(** [Object.assign(result, parsed)] *)
Definition assignAll (result parsed : value) : value :=
  match result, parsed with
  | VObject r, VObject l => VObject (foldl (fun r kv => assoc_set kv.1 kv.2 r) r l)
  | VObject r, VArray l =>
      VObject (foldl (fun r kv => assoc_set kv.1 kv.2 r) r
                 (imap (fun i v => (print_Z (Z.of_nat i), v)) l))
  | r, _ => r
  end.

Definition setEntry (prefix : string) (result : value) (kv : string * string) : SetResult :=
  let key := relativeKey prefix kv.1 in
  if falsy key then
    Updated (match parseJSON kv.2 with Some parsed => assignAll result parsed | None => result end)
  else setIn result (slashesToDots key) (default (VString kv.2) (parseJSON kv.2)).

Fixpoint setEntries (prefix : string) (result : value) (kvs : list (string * string)) : SetResult :=
  match kvs with
  | [] => Updated result
  | kv :: rest =>
      match setEntry prefix result kv with
      | Updated result' => setEntries prefix result' rest
      | r => r
      end
  end.

(** The keys and values etcd holds in a range; the endpoints are tried in turn.
    An answer that cannot be laid out as a tree counts as a failure of that
    endpoint. *)
Fixpoint loadRemoteEtcd (range : string -> string -> string -> option (list (string * string)))
    (prefix : string) (endpoints : list string) : option SetResult :=
  match endpoints with
  | [] => None
  | endpoint :: rest =>
      match range (withoutSlash endpoint +:+ "/v3/kv/range") prefix (getRangeEnd prefix) with
      | Some kvs =>
          match setEntries prefix (VObject []) kvs with
          | SetTypeError => loadRemoteEtcd range prefix rest
          | r => Some r
          end
      | None => loadRemoteEtcd range prefix rest
      end
  end.

Inductive ConsulReply := ConsulMissing | ConsulFails | ConsulEntries (kvs : list (string * string)).

Definition consulUrl (address : option string) (prefix : string) : string :=
  let a := match address with
           | Some a => if falsy a then "localhost:8500" else a
           | None => "localhost:8500"
           end in
  let baseUrl := if startsWith "http" a then a else "http://" +:+ a in
  withoutSlash baseUrl +:+ "/v1/kv/" +:+ prefix +:+ "?recurse=true".

Definition loadRemoteConsul (reply : string -> ConsulReply) (address : option string) (prefix : string) :
    option SetResult :=
  match reply (consulUrl address prefix) with
  | ConsulMissing => Some (Updated (VObject []))
  | ConsulFails => None
  | ConsulEntries kvs => Some (setEntries prefix (VObject []) kvs)
  end.

(** ** Sources *)

Inductive SourceKind :=
  | Defaults (defaults : value)
  | Environment
  | File (filePath : string)
  | Etcd (endpoints : option (list string)) (keyPrefix : option string)
  | Consul (address keyPrefix : option string).

Record ConfigSource := mkSource { priority : Z; kind : SourceKind }.

Definition defaultsSource (defaults : value) : ConfigSource := mkSource 100 (Defaults defaults).
Definition environmentSource : ConfigSource := mkSource 10 Environment.
Definition fileSource (filePath : string) : ConfigSource := mkSource 20 (File filePath).
Definition remoteSource (k : SourceKind) : ConfigSource := mkSource 5 k.

(** [addSource]: before the first source of a larger number *)
Fixpoint addSource (source : ConfigSource) (sources : list ConfigSource) : list ConfigSource :=
  match sources with
  | [] => [source]
  | s :: rest => if priority source <? priority s then source :: sources else s :: addSource source rest
  end.

(** [readFileSync] and [JSON.parse]: no such file, another failure, the text. *)
Inductive FileReply := NoEntry | ReadFails | Content (text : string).

Record Outside := mkOutside {
  processEnv : list (string * string);
  readFile : string -> FileReply;
  etcdRange : string -> string -> string -> option (list (string * string));
  consulGet : string -> ConsulReply
}.

(** A source yields a value or throws; [Unmodelled] is neither. *)
Definition of_set (r : SetResult) : option (option value) :=
  match r with Updated v => Some (Some v) | SetTypeError => Some None | Unmodelled => None end.

Definition loadSource (s : schema) (o : Outside) (k : SourceKind) : option (option value) :=
  match k with
  | Defaults defaults => Some (Some defaults)
  | Environment => of_set (loadEnvironment s (processEnv o))
  | File filePath =>
      Some (match readFile o filePath with
            | NoEntry => Some (VObject [])
            | ReadFails => None
            | Content text => parseJSON text
            end)
  | Etcd endpoints keyPrefix =>
      match loadRemoteEtcd (etcdRange o) (normalizedPrefix keyPrefix)
              (default ["http://localhost:2379"] endpoints) with
      | Some r => of_set r
      | None => Some None
      end
  | Consul address keyPrefix =>
      match loadRemoteConsul (consulGet o) address (normalizedPrefix keyPrefix) with
      | Some r => of_set r
      | None => Some None
      end
  end.

(** [Object.keys(v).length > 0]; [null] and [undefined] throw. *)
Definition hasKeys (v : value) : bool :=
  match v with
  | VObject l => negb (bool_decide (l = []))
  | VArray l => negb (bool_decide (length l = 0%nat))
  | VString s => negb (falsy s)
  | _ => false
  end.
End remote.

(** ** [load] *)

Section load.
Context (parseJSON : string -> option value) (regexTest : string -> string -> bool) (isUri : string -> bool).
Context (s : schema) (o : Outside).

Definition byPriority (sources : list ConfigSource) : list ConfigSource :=
  sort_by (fun a b => priority a <=? priority b) sources.

(** The configurations of the sources that yield any, first the highest priority;
    a source that throws, or yields [null], is skipped. *)
Fixpoint collect (sources : list ConfigSource) : option (list value) :=
  match sources with
  | [] => Some []
  | source :: rest =>
      match loadSource parseJSON s o (kind source), collect rest with
      | Some (Some config), Some configs => Some (if hasKeys config then config :: configs else configs)
      | Some None, Some configs => Some configs
      | _, _ => None
      end
  end.

Definition mergeConfigs (configs : list value) : value :=
  foldl (fun merged config => deepMerge [merged; config]) (VObject []) configs.

Record ConfigLoader := mkLoader { sources : list ConfigSource; cache : option value }.

Definition addSource_ (source : ConfigSource) (l : ConfigLoader) : ConfigLoader :=
  mkLoader (addSource source (sources l)) None.
Definition clearCache (l : ConfigLoader) : ConfigLoader := mkLoader (sources l) None.

(** The errors of the validation, or the configuration; [None] when a source is
    not modelled. *)
Definition load (l : ConfigLoader) : ConfigLoader * option (list ConfigValidationError + value) :=
  match cache l with
  | Some c => (l, Some (inr c))
  | None =>
      let sorted := byPriority (sources l) in
      match collect sorted with
      | None => (mkLoader sorted None, None)
      | Some configs =>
          let result := validate regexTest isUri s (mergeConfigs (rev configs)) in
          if valid result then (mkLoader sorted (Some (data result)), Some (inr (data result)))
          else (mkLoader sorted None, Some (inl (errors result)))
      end
  end.

(** [get] *)
Definition getLoaded (l : ConfigLoader) : ConfigLoader * option (list ConfigValidationError + value) := load l.
End load.

Lemma byPriority_sorted l : StronglySorted (fun a b => priority a <= priority b) (byPriority l).
Proof.
  pose proof (sort_by_sorted (fun a b => priority a <=? priority b)
    ltac:(intros a b; rewrite !Z.leb_le; lia) ltac:(intros a b c; rewrite !Z.leb_le; lia) l) as H.
  unfold byPriority. induction H as [|a l' Hs IH Ha]; constructor; [done|].
  eapply Forall_impl; [exact Ha|]. intros b. apply Z.leb_le.
Qed.

(** ** Which source a setting comes from *)

(** A setting at a path of objects: a value that is neither an object nor
    [undefined]. *)
Fixpoint setting (c : value) (keys : list string) (v : value) : Prop :=
  match keys, c with
  | [], _ => c = v /\ v <> VUndefined /\ isObject v = false
  | k :: keys', VObject l => exists w, assoc_get k l = Some w /\ setting w keys' v
  | _, _ => False
  end.

(** A configuration that says nothing about a path. *)
Fixpoint silent (c : value) (keys : list string) : Prop :=
  match keys, c with
  | k :: keys', VObject l => forall w, assoc_get k l = Some w -> silent w keys'
  | _, _ => False
  end.

Lemma setting_getIn c keys v d : setting c keys v -> getIn_keys c keys d = v.
Proof.
  revert c. induction keys as [|k keys IH]; intros c.
  - intros (-> & Hu & _). by destruct v.
  - destruct c; try done. intros (w & Hw & Hs). cbn. rewrite Hw. by apply IH.
Qed.

Lemma setting_scalar c keys v : setting c keys v -> v <> VUndefined /\ isObject v = false.
Proof.
  revert c. induction keys as [|k keys IH]; intros c; [by intros (_ & ? & ?)|].
  destruct c; try done. intros (w & _ & Hs). by apply (IH w).
Qed.

Lemma wf_merge_into source : forall result,
  wf (VObject result) = true -> wf source = true -> isObject source = true ->
  wf (VObject (merge_into result source)) = true.
Proof.
  induction source as [| | | | | |l IH] using value_ind'; try done. intros result Hr Hs _.
  rewrite merge_into_object.
  assert (Hl : forall k v, (k, v) ∈ l -> wf v = true).
  { intros k v Hin. apply (wf_member l k v Hs). apply wf_object in Hs as [Hn _].
    by apply (elem_of_jsmap_lookup (JsMap l)). }
  clear Hs. revert result Hr. induction IH as [|[k v] l Hv Hf IHl]; intros result Hr; [done|].
  cbn [foldl fst snd]. apply IHl.
  { intros k' v' Hin. apply (Hl k' v'). by right. }
  assert (Hwv : wf v = true) by (apply (Hl k v); left). cbn in Hv.
  unfold assign. destruct v as [| | | | | |vl]; try (by apply wf_assoc_set).
  destruct (assoc_get k result) as [[| | | | | |dl]|] eqn:G; try (by apply wf_assoc_set).
  apply wf_assoc_set; [done|]. pose proof (wf_member _ _ _ Hr G) as Hd.
  apply Hv; [|done..]. rewrite copy_members_id; [done|]. by apply wf_object in Hd as [? _].
Qed.

Lemma deepMerge_objects b l :
  wf (VObject b) = true -> wf (VObject l) = true ->
  exists m, deepMerge [VObject b; VObject l] = VObject m /\ wf (VObject m) = true.
Proof.
  intros Hb Hl. pose proof Hb as [Hn _]%wf_object.
  rewrite deepMerge_two, copy_members_id by done. eexists. split; [done|]. by apply wf_merge_into.
Qed.

Lemma deepMerge_get b l m k :
  wf (VObject b) = true -> wf (VObject l) = true -> deepMerge [VObject b; VObject l] = VObject m ->
  assoc_get k m =
  match assoc_get k l with
  | None => assoc_get k b
  | Some v => Some (match v, assoc_get k b with
                    | VObject _, Some (VObject bl) => deepMerge [VObject bl; v]
                    | _, _ => v
                    end)
  end.
Proof.
  intros Hb Hl. pose proof Hb as [Hbn Hbm]%wf_object. pose proof Hl as [Hln _]%wf_object.
  rewrite deepMerge_two, copy_members_id by done. intros E.
  assert (m = merge_into b (VObject l)) as -> by congruence. rewrite merge_into_get by done. clear E.
  destruct (assoc_get k l) as [v|]; [|done]. destruct v; try done.
  destruct (assoc_get k b) as [[| | | | | |bl]|] eqn:G; try done.
  specialize (Hbm _ _ G). apply wf_object in Hbm as [? _]. by rewrite deepMerge_two.
Qed.

(** The higher layer's setting wins; where it is silent the lower layer's stays. *)
Lemma setting_deepMerge keys : forall b l v,
  keys <> [] -> wf (VObject b) = true -> wf (VObject l) = true ->
  setting (VObject l) keys v \/ silent (VObject l) keys /\ setting (VObject b) keys v ->
  setting (deepMerge [VObject b; VObject l]) keys v.
Proof.
  induction keys as [|k keys IH]; intros b l v Hk Hb Hl H; [done|]. clear Hk.
  destruct (deepMerge_objects b l Hb Hl) as (m & E & Hm). rewrite E. cbn [setting].
  rewrite (deepMerge_get b l m k Hb Hl E). destruct H as [(w & Hw & Hs)|[Hsil (w & Hw & Hs)]].
  - rewrite Hw. eexists. split; [done|]. pose proof (wf_member _ _ _ Hl Hw) as Hww.
    destruct keys as [|k' keys].
    + destruct Hs as (-> & Hu & Ho). by destruct v.
    + destruct w as [| | | | | |wl]; try done.
      destruct (assoc_get k b) as [[| | | | | |bl]|] eqn:G; try done.
      apply IH; [done|by apply (wf_member _ _ _ Hb G)|done|by left].
  - cbn [silent] in Hsil. destruct (assoc_get k l) as [u|] eqn:G; [|by exists w].
    specialize (Hsil u eq_refl). rewrite Hw. destruct keys as [|k' keys]; [done|].
    destruct u as [| | | | | |ul]; try done. destruct w as [| | | | | |wl]; try done.
    eexists. split; [done|].
    apply IH; [done|by apply (wf_member _ _ _ Hb Hw)|by apply (wf_member _ _ _ Hl G)|by right].
Qed.

Definition config_object (c : value) : Prop := wf c = true /\ isObject c = true.

Lemma deepMerge_object b c :
  config_object b -> config_object c -> config_object (deepMerge [b; c]).
Proof.
  intros [Hb ?] [Hc ?]. destruct b as [| | | | | |b]; try done.
  destruct c as [| | | | | |l]; try done.
  destruct (deepMerge_objects b l Hb Hc) as (m & -> & ?). done.
Qed.

Lemma merged_object configs b :
  config_object b -> Forall config_object configs ->
  config_object (foldl (fun merged config => deepMerge [merged; config]) b configs).
Proof.
  intros Hb H. revert b Hb. induction H as [|c configs Hc _ IH]; intros b Hb; [done|].
  cbn [foldl]. by apply IH, deepMerge_object.
Qed.

Lemma setting_merge b c keys v :
  keys <> [] -> config_object b -> config_object c ->
  setting c keys v \/ silent c keys /\ setting b keys v -> setting (deepMerge [b; c]) keys v.
Proof.
  intros Hk [Hb Hbo] [Hc Hco] Hset. destruct b as [| | | | | |b]; try done.
  destruct c as [| | | | | |l]; try done.
  by apply setting_deepMerge.
Qed.

Lemma mergeConfigs_setting hi ci lo keys v :
  keys <> [] -> Forall config_object (hi ++ ci :: lo) ->
  Forall (fun h => silent h keys) hi -> setting ci keys v ->
  config_object (mergeConfigs (rev (hi ++ ci :: lo))) /\
  setting (mergeConfigs (rev (hi ++ ci :: lo))) keys v.
Proof.
  intros Hk Hall Hsil Hs. assert (H0 : config_object (VObject [])) by (split; reflexivity).
  split; [apply merged_object; [done|]; by apply Forall_rev|].
  unfold mergeConfigs. rewrite rev_app_distr. cbn [rev]. rewrite !foldl_app. cbn [foldl].
  apply Forall_app in Hall as [Hhi [Hci Hlo]%Forall_cons].
  pose proof (merged_object (rev lo) (VObject []) H0 (Forall_rev Hlo)) as Hb.
  set (b := foldl _ _ (rev lo)) in *.
  assert (Hm : config_object (deepMerge [b; ci]) /\ setting (deepMerge [b; ci]) keys v).
  { split; [by apply deepMerge_object|]. apply setting_merge; auto. }
  revert Hm. generalize (deepMerge [b; ci]). apply Forall_rev in Hhi, Hsil.
  induction Hhi as [|h hi' Hh _ IH]; intros m [Hm1 Hm2]; [done|]. cbn [foldl].
  apply Forall_cons in Hsil as [Hh' Hsil]. apply IH; [done|].
  split; [by apply deepMerge_object|]. apply setting_merge; auto.
Qed.

Section load_correct.
Context (parseJSON : string -> option value) (regexTest : string -> string -> bool) (isUri : string -> bool).

(** C16: the configuration a loader returns.  It conforms to the schema, with every
    default; and with [hi], [ci] and [lo] what the sources yield in the order of
    their priorities, a setting of [ci] on which the higher ones are silent is
    what the configuration says, whatever the lower ones and the defaults are. *)
Theorem load_merges_by_priority s o l l' c hi ci lo keys v d :
  schema_wf s = true -> cache l = None ->
  load parseJSON regexTest isUri s o l = (l', Some (inr c)) ->
  collect parseJSON s o (byPriority (sources l)) = Some (hi ++ ci :: lo) ->
  Forall config_object (hi ++ ci :: lo) ->
  keys <> [] -> Forall (fun h => silent h keys) hi -> setting ci keys v ->
  getIn_keys c keys d = v /\
  conforms regexTest isUri s c /\ filled s c /\
  cache l' = Some c /\
  StronglySorted (fun a b => priority a <= priority b) (sources l').
Proof.
  intros Hwf Hcache Hload Hcol Hall Hk Hsil Hs.
  destruct (mergeConfigs_setting hi ci lo keys v) as [[Hmw Hmo] Hms]; [done..|].
  unfold load in Hload. rewrite Hcache, Hcol in Hload. set (m := mergeConfigs _) in *.
  destruct (validate_spec regexTest isUri s m Hwf) as (Hv & _ & Hd).
  destruct (Hd Hmo) as (Edata & Ho & Hf & _).
  destruct (valid (validate regexTest isUri s m)) eqn:E; [|done].
  injection Hload as <- <-. cbn [cache sources]. rewrite Edata in *.
  split_and!; [|by apply Hv|done|done|].
  - destruct (setting_scalar _ _ _ Hms) as [Hu Hno].
    apply getIn_normalized; [done..|]. by apply setting_getIn.
  - apply byPriority_sorted.
Qed.
End load_correct.

(** ** Settings and environment variables *)

(** Every path of a schema *)
Fixpoint schema_paths (s : schema) : list (list string) :=
  [] :: match s with
        | Schema _ (Some properties) _ _ _ _ _ _ _ _ _ =>
            (fix members (properties : list (string * schema)) : list (list string) :=
               match properties with
               | [] => []
               | (key, p) :: rest => (cons key <$> schema_paths p) ++ members rest
               end) properties
        | _ => []
        end.

Definition setting_paths : list (list string) :=
  filter (fun p => p <> []) (schema_paths mainSchema).

Definition no_underscore (path : list string) : bool := forallb (lacks "_"%char) path.

(** The type a variable is parsed as *)
Definition env_type (s : schema) : option EnvType :=
  match s_type s with
  | Some TyInteger | Some TyNumber => Some EnvNumber
  | Some TyBoolean => Some EnvBoolean
  | Some TyArray => Some EnvArray
  | Some TyString => Some EnvString
  | _ => None
  end.

#[global] Instance EnvType_eq_dec : EqDecision EnvType.
Proof. solve_decision. Defined.

Definition resolves (path : list string) : bool :=
  bool_decide (findActualPath mainSchema (normalizeEnvKey (envName path)) =
               if no_underscore path then Some path else None) &&
  bool_decide (getSchemaTypeForPath mainSchema (join "." path) =
               match schemaAt mainSchema path with Some p => env_type p | None => None end).

Lemma settings_resolve : forallb resolves setting_paths = true.
Proof. vm_compute. reflexivity. Qed.

Lemma settings_exist : forallb (fun path => match schemaAt mainSchema path with Some _ => true | None => false end) setting_paths = true.
Proof. vm_compute. reflexivity. Qed.

Lemma setting_paths_exist path : path ∈ setting_paths -> schemaAt mainSchema path <> None.
Proof.
  intros Hin E. pose proof settings_exist as Hall. rewrite forallb_forall in Hall.
  specialize (Hall path). rewrite <- list_elem_of_In, E in Hall. by specialize (Hall Hin).
Qed.

Lemma split_nonempty sep str : exists x l, split sep str = x :: l.
Proof.
  destruct str as [|c str]; [by eexists _, _|]. rewrite split_String.
  repeat case_match; by eexists _, _.
Qed.

(** a variable named after a setting of the main schema, [VERINODE_] and the
    upper-case keys joined by underscores, sets exactly that setting, parsed by the
    type the schema gives it, unless one of the keys itself contains an
    underscore: the settings under [feature_flags] and [capacity_shedding] are not
    found, and the variable sets a path of its own. *)
Theorem environment_names_resolve path result v r d :
  path ∈ setting_paths ->
  setVariable mainSchema result (envName path) v = Updated r ->
  if no_underscore path then
    exists p, schemaAt mainSchema path = Some p /\
      getIn_keys r path d = match env_type p with
                            | Some t => parseEnvValue v t
                            | None => parseUntyped v
                            end
  else
    findActualPath mainSchema (normalizeEnvKey (envName path)) = None /\
    getIn r (normalizeEnvKey (envName path)) d <> VUndefined.
Proof.
  intros Hin. pose proof settings_resolve as Hall. rewrite forallb_forall in Hall.
  specialize (Hall path). rewrite <- list_elem_of_In in Hall. specialize (Hall Hin).
  unfold resolves in Hall. bool_props. unfold setVariable. rewrite H.
  assert (Hparse : forall t, match t with Some t => parseEnvValue v t | None => parseUntyped v end <> VUndefined).
  { intros [[]|]; cbn; try done. unfold parseUntyped. by repeat case_match. }
  destruct (no_underscore path).
  - rewrite H0. intros Hr. assert (Hp : path <> []) by (by apply list_elem_of_filter in Hin as [? _]).
    destruct (schemaAt mainSchema path) as [p|] eqn:Hs; [|exfalso; by apply (setting_paths_exist path)].
    exists p. split; [done|]. by eapply setIn_getIn.
  - intros Hr. split; [done|]. unfold getIn. unfold setIn in Hr.
    erewrite setIn_getIn; [apply Hparse|exact Hr| |apply Hparse].
    by destruct (split_nonempty "."%char (normalizeEnvKey (envName path))) as (x & l & ->).
Qed.

(** ** Concrete loads *)

Module Examples.
Local Open Scope string_scope.
Local Open Scope list_scope.

Definition noJSON (text : string) : option value := None.
Definition anyText (pattern s : string) : bool := true.
Definition anyUri (s : string) : bool := true.

Definition outside (env : list (string * string)) : Outside :=
  mkOutside env (fun _ => NoEntry) (fun _ _ _ => None) (fun _ => ConsulFails).

Definition defaults0 : value :=
  VObject [("db", VObject []); ("app", VObject [("port", VNumber (int 3000)); ("logLevel", VString "info")])].
Definition loader0 : ConfigLoader :=
  addSource_ environmentSource (addSource_ (defaultsSource defaults0) (mkLoader [] None)).

Definition env0 : list (string * string) := [("PATH", "/bin"); ("VERINODE_APP_LOGLEVEL", "debug")].
Definition loaded0 := (load noJSON anyText anyUri mainSchema (outside env0) loader0).2.

Lemma load_merges_by_priority_witness :
  exists l' c, load noJSON anyText anyUri mainSchema (outside env0) loader0 = (l', Some (inr c)) /\
    getIn_keys c ["app"; "logLevel"] VUndefined = VString "debug" /\
    getIn_keys c ["app"; "port"] VUndefined = VNumber (int 3000).
Proof.
  eexists _, _. split; [vm_compute; reflexivity|]. split.
  - refine (proj1 (load_merges_by_priority noJSON anyText anyUri mainSchema (outside env0) loader0 _ _
      [] (VObject [("app", VObject [("logLevel", VString "debug")])]) [defaults0]
      ["app"; "logLevel"] (VString "debug") VUndefined _ _ _ _ _ _ _ _));
      try (vm_compute; reflexivity); try done.
    + repeat constructor.
    + exists (VObject [("logLevel", VString "debug")]). split; [done|]. by exists (VString "debug").
  - vm_compute. reflexivity.
Defined.

Lemma environment_names_resolve_witness :
  exists r, setVariable mainSchema (VObject []) "VERINODE_APP_PORT" "8080" = Updated r /\
    exists p, schemaAt mainSchema ["app"; "port"] = Some p /\
      getIn_keys r ["app"; "port"] VUndefined = VNumber (Number_ "8080").
Proof.
  eexists. split; [vm_compute; reflexivity|].
  pose proof (fun r => environment_names_resolve ["app"; "port"] (VObject []) "8080" r VUndefined) as H.
  change (no_underscore ["app"; "port"]) with true in H. cbv iota in H.
  edestruct H as (p & Hp & Hg).
  - apply (bool_decide_unpack _). vm_compute. exact I.
  - vm_compute. reflexivity.
  - exists p. split; [exact Hp|]. rewrite Hg. vm_compute in Hp. injection Hp as <-. vm_compute. reflexivity.
Defined.

(** [VERINODE_CAPACITY_SHEDDING_ENABLED] does not reach [capacity_shedding.enabled]. *)
Lemma underscored_setting_missed :
  loadEnvironment mainSchema [("VERINODE_CAPACITY_SHEDDING_ENABLED", "false")] =
  Updated (VObject [("capacity", VObject [("shedding", VObject [("enabled", VBool false)])])]).
Proof. vm_compute. reflexivity. Qed.

(** One variable that assigns below a scalar makes the whole environment throw,
    and [load] then goes on without it. *)
Lemma clashing_variable_drops_environment :
  let env := [("VERINODE_DB_HOST", "db.internal"); ("VERINODE_X", "1"); ("VERINODE_X_Y", "2")] in
  loadEnvironment mainSchema env = SetTypeError /\
  match (load noJSON anyText anyUri mainSchema (outside env) loader0).2 with
  | Some (inr c) => getIn c "db.host" VUndefined = VString "localhost"
  | _ => False
  end.
Proof. vm_compute. split; reflexivity. Qed.
End Examples.
