(* ===== verification/ConfigManager.v ===== *)
(** * The configuration manager ([src/src/config/manager.ts], [eventbus.ts],
    [index.ts])

    The manager as an event system: hot updates and deletions, reloads split at
    the [await] of the loader, the debounce timer, polled files, change listeners
    in the order of their registration, and the promises of [reloadConfig].  What
    a listener does when called is not modelled, only that it is; a listener that
    throws is caught.  [cb] numbers stand for functions.

    [config_always_valid]: in every run the configuration conforms to the schema.
    [update_sets_exactly]: an update sets its path and no other setting, or changes
    nothing.  [triggered_reload_not_lost]: reloads that are triggered run one at a
    time and a trigger is not lost. *)

From Stdlib Require Import ZArith Lia Ascii String QArith.
From stdpp Require Import base numbers list strings gmap.
From S2P Require Import Prelude Js Text Number Config ConfigSchema ConfigLoader.
#[local] Open Scope Z_scope.

Inductive Callback :=
  | OnAny (cb : nat)
  | OnPath (path : string) (cb : nat).

Inductive Called :=
  | CalledAny (cb : nat) (oldConfig newConfig : value)
  | CalledPath (cb : nat) (newValue : value).

Inductive ConfigEvent := EvLoaded | EvUpdated | EvReloadInitiated | EvReloadComplete | EvError.

Record WatchedFile := mkWatched { w_path : string; w_interval : option nat; w_lastModified : Z }.

(** A [reload()] at its [await]: started by the timer, or called directly. *)
Record Reload := mkReload { triggered : bool; oldConfig : value }.

Record ConfigManager := mkManager {
  config : value;                          (* [null] before the first load *)
  loader : ConfigLoader;
  changeCallbacks : jsmap string Callback;
  watchedFiles : list WatchedFile;
  reloadInProgress : bool;
  reloadTimer : bool;
  reloads : gmap nat Reload;
  nextId : nat;
  intervals : list nat;                    (* polling timers that are running *)
  waiting : list nat;                      (* promises of [reloadConfig] *)
  errorListeners : nat;                    (* other listeners of [error] *)
  called : list Called;
  emitted : list ConfigEvent;
  settled : list (nat * bool);
  crashed : bool
}.

Inductive ManagerError :=
  | NotInitialized
  | AssignmentTypeError
  | ConfigurationValidationFailed (errors : list ConfigValidationError)
  | NotModelled.

Definition set_config (m : ConfigManager) (c : value) (l : ConfigLoader) : ConfigManager :=
  mkManager c l (changeCallbacks m) (watchedFiles m) (reloadInProgress m) (reloadTimer m) (reloads m)
    (nextId m) (intervals m) (waiting m) (errorListeners m) (called m) (emitted m) (settled m) (crashed m).
Definition set_callbacks (m : ConfigManager) (cbs : jsmap string Callback) : ConfigManager :=
  mkManager (config m) (loader m) cbs (watchedFiles m) (reloadInProgress m) (reloadTimer m) (reloads m)
    (nextId m) (intervals m) (waiting m) (errorListeners m) (called m) (emitted m) (settled m) (crashed m).
Definition set_watched (m : ConfigManager) (w : list WatchedFile) (ivs : list nat) (next : nat) : ConfigManager :=
  mkManager (config m) (loader m) (changeCallbacks m) w (reloadInProgress m) (reloadTimer m) (reloads m)
    next ivs (waiting m) (errorListeners m) (called m) (emitted m) (settled m) (crashed m).
Definition set_reload (m : ConfigManager) (inProgress timer : bool) (rs : gmap nat Reload) (next : nat) :
    ConfigManager :=
  mkManager (config m) (loader m) (changeCallbacks m) (watchedFiles m) inProgress timer rs
    next (intervals m) (waiting m) (errorListeners m) (called m) (emitted m) (settled m) (crashed m).
Definition set_waiting (m : ConfigManager) (ws : list nat) (n : nat) (st : list (nat * bool)) : ConfigManager :=
  mkManager (config m) (loader m) (changeCallbacks m) (watchedFiles m) (reloadInProgress m) (reloadTimer m)
    (reloads m) (nextId m) (intervals m) ws n (called m) (emitted m) st (crashed m).
Definition emit (e : ConfigEvent) (m : ConfigManager) : ConfigManager :=
  mkManager (config m) (loader m) (changeCallbacks m) (watchedFiles m) (reloadInProgress m) (reloadTimer m)
    (reloads m) (nextId m) (intervals m) (waiting m) (errorListeners m) (called m) (emitted m ++ [e])
    (settled m) (crashed m).
Definition call (l : list Called) (m : ConfigManager) : ConfigManager :=
  mkManager (config m) (loader m) (changeCallbacks m) (watchedFiles m) (reloadInProgress m) (reloadTimer m)
    (reloads m) (nextId m) (intervals m) (waiting m) (errorListeners m) (called m ++ l) (emitted m)
    (settled m) (crashed m).
Definition crash (m : ConfigManager) : ConfigManager :=
  mkManager (config m) (loader m) (changeCallbacks m) (watchedFiles m) (reloadInProgress m) (reloadTimer m)
    (reloads m) (nextId m) (intervals m) (waiting m) (errorListeners m) (called m) (emitted m)
    (settled m) true.

Definition new_ConfigManager : ConfigManager :=
  mkManager VNull (mkLoader [] None) ∅ [] false false ∅ 0 [] [] 0 [] [] [] false.

(** ** The defaults of [initialize] *)

Section defaults.
Local Open Scope string_scope.
Local Open Scope list_scope.

Definition num (z : Z) : value := VNumber (int z).
Definition obj (l : list (string * value)) : value := VObject l.
Definition limits (cpu memory rate latency : Z) : value :=
  obj [("cpuPercent", num cpu); ("memoryPercent", num memory);
       ("requestRatePerSec", num rate); ("p99LatencyMs", num latency)].

Definition DEFAULTS : value :=
  obj [("db", obj [("host", VString "localhost"); ("port", num 5432); ("user", VString "verinode");
                   ("password", VString ""); ("database", VString "verinode");
                   ("maxConnections", num 20); ("idleTimeoutMs", num 30000);
                   ("connectionTimeoutMs", num 10000)]);
       ("mtls", obj [("enabled", VBool false); ("trustDomain", VString "cluster.local");
                     ("allowedSpiffeIds", VArray []); ("certMaxValidityMs", num 86400000);
                     ("minSecondsUntilExpiry", num 3600); ("reloadPollMs", num 30000)]);
       ("tls", obj [("acme", obj [("enabled", VBool false); ("domains", VArray []);
                                  ("email", VString "");
                                  ("directoryUrl", VString "https://acme-v02.api.letsencrypt.org/directory");
                                  ("termsOfServiceAgreed", VBool false); ("renewBeforeDays", num 30);
                                  ("emergencyNotifyDays", num 7); ("checkIntervalMs", num 86400000)]);
                    ("certPath", VString ""); ("keyPath", VString ""); ("chainPath", VString "");
                    ("webroot", VString "/tmp/verinode-acme")]);
       ("telemetry", obj [("otel", obj [("enabled", VBool true); ("endpoint", VString "http://localhost:4317");
                                        ("serviceName", VString "verinode-backend");
                                        ("samplingRatio", num 1)])]);
       ("app", obj [("port", num 3000); ("environment", VString "development"); ("logLevel", VString "info")]);
       ("staking", obj [("maxConcurrentWorkers", num 10); ("nonceRangeLimit", VString "1000")]);
       ("feature_flags", obj [("overrides", obj [])]);
       ("capacity_shedding",
        obj [("enabled", VBool true); ("checkIntervalMs", num 5000); ("cooldownPeriodMs", num 30000);
             ("thresholds", obj [("light", limits 70 75 800 500); ("medium", limits 85 85 1200 1000);
                                 ("critical", limits 95 95 2000 3000)]);
             ("flagsToShed", obj [])]);
       ("remote", obj [("etcd", obj [("enabled", VBool false);
                                     ("endpoints", VArray [VString "http://localhost:2379"]);
                                     ("keyPrefix", VString "verinode/config"); ("watchIntervalMs", num 10000)]);
                       ("consul", obj [("enabled", VBool false); ("address", VString "");
                                       ("keyPrefix", VString "verinode/config"); ("watchIntervalMs", num 10000)])])].
End defaults.

(** ** Change listeners *)

(** [oldValue !== newValue].  The old configuration is a deep clone, so that two
    objects are never the same one. *)
Definition differs (oldValue newValue : value) : bool :=
  match oldValue, newValue with
  | VUndefined, VUndefined | VNull, VNull => false
  | VBool a, VBool b => negb (Bool.eqb a b)
  | VString a, VString b => negb (String.eqb a b)
  | VNumber a, VNumber b => negb (num_eqb a b)
  | _, _ => true
  end.

Definition notifyOne (old new : value) (cb : Callback) : list Called :=
  match cb with
  | OnAny cb => [CalledAny cb old new]
  | OnPath path cb =>
      let newValue := getIn new path VUndefined in
      if differs (getIn old path VUndefined) newValue then [CalledPath cb newValue] else []
  end.

Definition notifications (old new : value) (cbs : jsmap string Callback) : list Called :=
  concat (notifyOne old new <$> map_values cbs).

Definition onChange (id : string) (cb : nat) (m : ConfigManager) : ConfigManager :=
  set_callbacks m (<[id := OnAny cb]> (changeCallbacks m)).
Definition onChangePath (path : string) (id : string) (cb : nat) (m : ConfigManager) : ConfigManager :=
  set_callbacks m (<[id := OnPath path cb]> (changeCallbacks m)).
Definition offChange (id : string) (m : ConfigManager) : ConfigManager :=
  set_callbacks m (delete id (changeCallbacks m)).

(** ** Reading *)

Definition get_ : M ConfigManager ManagerError value :=
  let! m := get in
  match config m with VNull => throw NotInitialized | c => ret c end.
Definition getConfigIn (m : ConfigManager) (path : string) : value := getIn (config m) path VUndefined.

(** ** Polled files *)

Definition triggerReload (m : ConfigManager) : ConfigManager :=
  let m := emit EvReloadInitiated m in
  set_reload m (reloadInProgress m) true (reloads m) (nextId m).

(** [watchFile]: the new interval goes to the first entry with that path. *)
Fixpoint set_interval (path : string) (i : nat) (l : list WatchedFile) : list WatchedFile :=
  match l with
  | [] => []
  | w :: rest =>
      if bool_decide (w_path w = path) then mkWatched path (Some i) (w_lastModified w) :: rest
      else w :: set_interval path i rest
  end.

Definition watchFile (path : string) (lastModified : Z) (m : ConfigManager) : ConfigManager :=
  set_watched m (set_interval path (nextId m) (watchedFiles m ++ [mkWatched path None lastModified]))
    (nextId m :: intervals m) (S (nextId m)).

(** [checkFileChanges] with what [statSync] says *)
Definition checkFileChanges (mtime : string -> option Z) (m : ConfigManager) : ConfigManager :=
  let changed w := match mtime (w_path w) with Some t => w_lastModified w <? t | None => false end in
  let m' := set_watched m
              ((fun w => match mtime (w_path w) with
                         | Some t => if w_lastModified w <? t then mkWatched (w_path w) (w_interval w) t else w
                         | None => w
                         end) <$> watchedFiles m) (intervals m) (nextId m) in
  foldl (fun m _ => triggerReload m) m' (filter (fun w => changed w = true) (watchedFiles m)).

Definition cleanup (m : ConfigManager) : ConfigManager :=
  let m := set_reload m (reloadInProgress m) false (reloads m) (nextId m) in
  set_watched m [] (filter (fun i => Some i ∉ (w_interval <$> watchedFiles m)) (intervals m)) (nextId m).

(** [reloadConfig()]: a promise that listens to [reload_complete] and [error] *)
Definition reloadConfig (promise : nat) (m : ConfigManager) : ConfigManager :=
  triggerReload (set_waiting m (waiting m ++ [promise]) (errorListeners m) (settled m)).

Definition settle (ok : bool) (m : ConfigManager) : ConfigManager :=
  set_waiting m [] (errorListeners m) (settled m ++ ((fun p => (p, ok)) <$> waiting m)).

Section manager.
Context (s : schema) (parseJSON : string -> option value)
        (regexTest : string -> string -> bool) (isUri : string -> bool).

#[local] Notation validate := (validate regexTest isUri s).

(** ** Hot updates *)

(** What [update] and [delete] do with the changed clone. *)
Definition replaceConfig (newConfig : value) : M ConfigManager ManagerError unit :=
  let! m := get in
  let old := deepClone (config m) in
  let result := validate newConfig in
  guard (valid result) (ConfigurationValidationFailed (errors result)) ;;;
  put (call (notifications old (data result) (changeCallbacks m))
         (emit EvUpdated (set_config m (data result) (loader m)))).

Definition update (keys : list string) (v : value) : M ConfigManager ManagerError unit :=
  let! m := get in
  match setIn_keys (deepClone (config m)) keys v with
  | Updated newConfig => replaceConfig newConfig
  | SetTypeError => throw AssignmentTypeError
  | Unmodelled => throw NotModelled
  end.

Definition delete_ (keys : list string) : M ConfigManager ManagerError bool :=
  let! m := get in
  match deleteIn_keys (deepClone (config m)) keys with
  | Some newConfig => replaceConfig newConfig ;;; ret true
  | None => ret false
  end.

(** ** Reloading *)

(** [reload()] up to its [await] *)
Definition beginReload (triggered : bool) (m : ConfigManager) : ConfigManager :=
  let m := set_config m (config m) (clearCache (loader m)) in
  set_reload m (reloadInProgress m) (reloadTimer m)
    (<[nextId m := mkReload triggered (deepClone (config m))]> (reloads m)) (S (nextId m)).

(** The callback of the debounce timer *)
Definition timerFires (m : ConfigManager) : ConfigManager :=
  if reloadTimer m then
    if reloadInProgress m then triggerReload m
    else beginReload true (set_reload m true false (reloads m) (nextId m))
  else m.

(** [emit('error')] throws when nobody listens; nothing catches what the catch
    block of the timer throws, and an unhandled rejection ends the process. *)
Definition emitError (m : ConfigManager) : ConfigManager :=
  match waiting m, errorListeners m with
  | [], 0%nat => crash m
  | _, _ => settle false (emit EvError m)
  end.

(** [reload()] when the loader answers, with the rest of the timer's callback. *)
Definition reloadAnswer (id : nat) (o : Outside) (m : ConfigManager) : ConfigManager :=
  match reloads m !! id with
  | None => m
  | Some r =>
      let ends m := set_reload m (if triggered r then false else reloadInProgress m) (reloadTimer m)
                      (delete id (reloads m)) (nextId m) in
      match load parseJSON regexTest isUri s o (clearCache (loader m)) with
      | (l, Some (inr c)) =>
          let m := call (notifications (oldConfig r) c (changeCallbacks m))
                     (emit EvLoaded (emit EvUpdated (set_config m c l))) in
          ends (if triggered r then settle true (emit EvReloadComplete m) else m)
      | (l, Some (inl _)) =>
          let m := set_config m (config m) l in
          ends (if triggered r then emitError m else m)
      | (_, None) => m
      end
  end.

(** ** Initialisation *)

(** The sources [initialize] adds before its first load. *)
Definition initSources (defaults : value) (configFile : option string) (l : ConfigLoader) : ConfigLoader :=
  let l := addSource_ environmentSource (addSource_ (defaultsSource defaults) l) in
  match configFile with
  | Some f => if falsy f then l else addSource_ (fileSource f) l
  | None => l
  end.

Definition strings_of (v : value) : option (list string) :=
  match v with
  | VArray l => Some (omap (fun v => match v with VString x => Some x | _ => None end) l)
  | _ => None
  end.
Definition string_of (v : value) : option string := match v with VString x => Some x | _ => None end.

(** The remote sources of the configuration of the first load; the schema makes
    [endpoints] an array of strings and the others strings. *)
Definition remoteSources (c : value) : list ConfigSource :=
  let remote := getIn c "remote" VUndefined in
  let etcd := member remote "etcd" in
  let consul := member remote "consul" in
  (if truthy (member etcd "enabled")
   then [remoteSource (Etcd (strings_of (member etcd "endpoints")) (string_of (member etcd "keyPrefix")))]
   else []) ++
  (if truthy (member consul "enabled")
   then [remoteSource (Consul (string_of (member consul "address")) (string_of (member consul "keyPrefix")))]
   else []).

(** ** Runs *)

Inductive Event :=
  | AddSource (source : ConfigSource)
  | Reload_                               (* [reload()] called directly *)
  | Answer (id : nat) (o : Outside)
  | Update (keys : list string) (v : value)
  | Delete_ (keys : list string)
  | OnChange_ (id : string) (cb : nat)
  | OnChangePath_ (path id : string) (cb : nat)
  | OffChange_ (id : string)
  | OnError
  | Trigger
  | ReloadConfig (promise : nat)
  | Tick
  | Watch (path : string) (lastModified : Z)
  | Poll (mtime : string -> option Z)
  | Cleanup.

Definition step (m : ConfigManager) (ev : Event) : ConfigManager :=
  if crashed m then m else
  match ev with
  | AddSource source => set_config m (config m) (addSource_ source (loader m))
  | Reload_ => beginReload false m
  | Answer id o => reloadAnswer id o m
  | Update keys v => (update keys v m).1
  | Delete_ keys => (delete_ keys m).1
  | OnChange_ id cb => onChange id cb m
  | OnChangePath_ path id cb => onChangePath path id cb m
  | OffChange_ id => offChange id m
  | OnError => set_waiting m (waiting m) (S (errorListeners m)) (settled m)
  | Trigger => triggerReload m
  | ReloadConfig promise => reloadConfig promise m
  | Tick => timerFires m
  | Watch path t => watchFile path t m
  | Poll mtime => checkFileChanges mtime m
  | Cleanup => cleanup m
  end.

Definition run (evs : list Event) : ConfigManager := foldl step new_ConfigManager evs.

(** ** The configuration stays valid *)

Definition accepted (c : value) : Prop :=
  isObject c = true /\ conforms regexTest isUri s c /\ filled s c /\
  valid (validate c) = true /\ data (validate c) = c.

Definition valid_or_null (m : ConfigManager) : Prop := config m = VNull \/ accepted (config m).

Lemma accepted_data c : schema_wf s = true -> valid (validate c) = true -> accepted (data (validate c)).
Proof.
  intros Hwf Hv. destruct (validate_spec regexTest isUri s c Hwf) as (H1 & _ & H3).
  destruct (proj1 H1 Hv) as [Ho Hc]. destruct (H3 Ho) as (E & Ho' & Hf & Ei).
  split_and!; [done|by rewrite E|done|by rewrite Ei|by rewrite Ei].
Qed.

Lemma load_accepted o l l' c :
  schema_wf s = true -> cache l = None ->
  load parseJSON regexTest isUri s o l = (l', Some (inr c)) -> accepted c.
Proof.
  intros Hwf Hc. unfold load. rewrite Hc. destruct (collect _ _ _ _) as [configs|]; [|done].
  destruct (valid _) eqn:Hv; [|done]. intros [= <- <-]. by apply accepted_data.
Qed.

Lemma replaceConfig_wp c m (Q : ConfigManager -> Prop) :
  (valid (validate c) = true ->
     Q (call (notifications (deepClone (config m)) (data (validate c)) (changeCallbacks m))
          (emit EvUpdated (set_config m (data (validate c)) (loader m))))) ->
  wp (replaceConfig c) (fun _ => Q) (fun e m' => m' = m /\ e = ConfigurationValidationFailed (errors (validate c))) m.
Proof.
  intros H. unfold replaceConfig. rewrite wp_bind, wp_get, wp_bind, wp_guard.
  destruct (valid (validate c)); [|done]. rewrite wp_put. by apply H.
Qed.

Lemma replaceConfig_valid c : schema_wf s = true -> preserves valid_or_null (replaceConfig c).
Proof.
  intros Hwf m Hm. eapply (wp_mono _ (fun _ => valid_or_null)); [done| |apply replaceConfig_wp].
  { by intros e m' [-> _]. } intros Hv. right. by apply accepted_data.
Qed.

Lemma update_valid keys v : schema_wf s = true -> preserves valid_or_null (update keys v).
Proof.
  intros Hwf m Hm. unfold update. rewrite wp_bind, wp_get.
  destruct (setIn_keys _ _ _); [by apply replaceConfig_valid|exact Hm..].
Qed.

Lemma delete_valid keys : schema_wf s = true -> preserves valid_or_null (delete_ keys).
Proof.
  intros Hwf m Hm. unfold delete_. rewrite wp_bind, wp_get.
  destruct (deleteIn_keys _ _); [|exact Hm]. rewrite wp_bind. by apply replaceConfig_valid.
Qed.

Lemma emitError_config m : config (emitError m) = config m.
Proof. unfold emitError. by destruct (waiting m), (errorListeners m). Qed.

Lemma reloadAnswer_valid id o m :
  schema_wf s = true -> valid_or_null m -> valid_or_null (reloadAnswer id o m).
Proof.
  intros Hwf Hm. unfold reloadAnswer. destruct (reloads m !! id) as [r|]; [|done].
  destruct (load _ _ _ _ _ _) as [l [[es|c]|]] eqn:El; [| |done].
  - unfold valid_or_null. cbn [config set_reload]. destruct (triggered r); [|done].
    by rewrite emitError_config.
  - apply load_accepted in El; [|done..]. right. by destruct (triggered r).
Qed.

Lemma triggers_config {A} (l : list A) m :
  config (foldl (fun m _ => triggerReload m) m l) = config m.
Proof. revert m. induction l as [|w l IH]; intros m; [done|]. cbn [foldl]. by rewrite IH. Qed.

Lemma step_valid m ev : schema_wf s = true -> valid_or_null m -> valid_or_null (step m ev).
Proof.
  intros Hwf Hm. unfold step. destruct (crashed m); [done|].
  destruct ev; try exact Hm.
  - by apply reloadAnswer_valid.
  - apply preserves_run; [by apply update_valid|done].
  - apply preserves_run; [by apply delete_valid|done].
  - unfold timerFires. destruct (reloadTimer m), (reloadInProgress m); exact Hm.
  - unfold valid_or_null, checkFileChanges. by rewrite triggers_config.
Qed.

(** C15: whatever is loaded, updated, deleted or reloaded, in whatever order, and
    whatever fails, the manager has no configuration or one that conforms to the
    schema with every default, and validating it again changes nothing. *)
Theorem config_always_valid evs :
  schema_wf s = true -> let m := run evs in config m = VNull \/ accepted (config m).
Proof.
  intros Hwf. cbn zeta. unfold run. assert (H : valid_or_null new_ConfigManager) by by left.
  revert H. generalize new_ConfigManager. induction evs as [|ev evs IH]; intros m Hm; [done|].
  cbn [foldl]. by apply IH, step_valid.
Qed.

(** ** Updates *)

Lemma wf_member_value c k : wf c = true -> wf (member c k) = true.
Proof.
  intros Hc. destruct c as [| | | | |l|l]; try done; cbn [member].
  - case_bool_decide; [done|]. cbn in Hc. generalize 0. induction l as [|v l IH]; intros i; [done|].
    cbn in Hc. apply andb_true_iff in Hc as [Hv Hl]. cbn [index_member].
    case_bool_decide; [done|by apply IH].
  - destruct (assoc_get k l) as [v|] eqn:E; [|done]. by apply (wf_member l k).
Qed.

(** The value at a path that is there and not an object. *)
Definition reads (c : value) (keys : list string) (v : value) : Prop :=
  getIn_keys c keys VUndefined = v /\ v <> VUndefined /\ isObject v = false.

Lemma reads_normalized c keys v :
  wf c = true -> isObject c = true -> reads c keys v -> reads (normalized s c) keys v.
Proof. intros Hw Ho (Hg & Hu & Hno). split_and!; [|done..]. by apply getIn_normalized. Qed.

Lemma wf_array l : wf (VArray l) = true <-> Forall (fun v => wf v = true) l.
Proof. cbn. rewrite forallb_forall, Forall_forall. by setoid_rewrite list_elem_of_In. Qed.

Lemma wf_setIn keys : forall c v w,
  wf c = true -> wf v = true -> setIn_keys c keys v = Updated w ->
  wf w = true /\ isObject w = isObject c.
Proof.
  assert (Ha : forall c key v w, wf c = true -> wf v = true -> assignMember c key v = Updated w ->
                 wf w = true /\ isObject w = isObject c).
  { intros c key v w Hc Hv. destruct c; try done; cbn [assignMember].
    - apply wf_array in Hc. destruct (array_index key) as [i|]; [|done].
      destruct (i <? length l)%nat; [|destruct (i =? length l)%nat; [|done]]; intros [= <-];
        (split; [apply wf_array|done]); [by apply Forall_insert|].
      apply Forall_app. by repeat constructor.
    - intros [= <-]. split; [by apply wf_assoc_set|done]. }
  induction keys as [|k keys IH]; intros c v w Hc Hv H; [by eapply Ha|].
  destruct keys as [|k' keys]; [by eapply Ha|]. rewrite setIn_keys_cons in H.
  destruct (hasMembers c); [|done]. destruct (setIn_keys _ (k' :: keys) v) as [u| |] eqn:E; try done.
  eapply (Ha c k u); [done| |done]. eapply IH; [|exact Hv|exact E].
  pose proof (wf_member_value c k Hc) as Hm. by destruct (member c k).
Qed.

(** a hot update.  When it is accepted, its path reads the new value (a value
    that is not an object), every other setting reads what it did, the
    configuration conforms, and the listeners hear of the old and the new one, in
    the order of their registration, those of a path only if it differs; when it
    throws, nothing changed and nobody was called. *)
Theorem update_sets_exactly m keys v :
  schema_wf s = true -> wf (config m) = true -> isObject (config m) = true ->
  keys <> [] -> wf v = true ->
  match update keys v m with
  | (m', inr _) =>
      (v <> VUndefined -> isObject v = false -> reads (config m') keys v) /\
      (forall keys' w, diverge keys keys' -> reads (config m) keys' w -> reads (config m') keys' w) /\
      accepted (config m') /\
      called m' = called m ++ notifications (config m) (config m') (changeCallbacks m)
  | (m', inl _) => m' = m
  end.
Proof.
  intros Hwf Hc Ho Hk Hv. enough (H : wp (update keys v) (fun _ m' =>
      (v <> VUndefined -> isObject v = false -> reads (config m') keys v) /\
      (forall keys' w, diverge keys keys' -> reads (config m) keys' w -> reads (config m') keys' w) /\
      accepted (config m') /\
      called m' = called m ++ notifications (config m) (config m') (changeCallbacks m))
      (fun _ m' => m' = m) m).
  { unfold wp in H. by destruct (update keys v m) as [m' [e|a]]. }
  unfold update. rewrite wp_bind, wp_get, deepClone_id by done.
  destruct (setIn_keys (config m) keys v) as [c| |] eqn:E; [|done..].
  destruct (wf_setIn _ _ _ _ Hc Hv E) as [Hwc Hoc]. rewrite Ho in Hoc.
  eapply wp_mono; [intros a m' H; exact H| |apply replaceConfig_wp]; [by intros e m' [? _]|].
  intros Hvalid. cbn [config called call emit set_config].
  rewrite deepClone_id by done.
  destruct (validate_spec regexTest isUri s c Hwf) as (_ & _ & Hd). destruct (Hd Hoc) as (Ed & _).
  split_and!; [| |by apply accepted_data|done]; rewrite Ed.
  - intros Hu Hno. apply reads_normalized; [done..|]. split_and!; [|done..]. by eapply setIn_getIn.
  - intros keys' w Hdiv (Hg & Hu & Hno). apply reads_normalized; [done..|]. split_and!; [|done..].
    by rewrite (setIn_other _ _ _ _ _ _ E Hdiv).
Qed.

(** ** Triggered reloads *)

Definition running (m : ConfigManager) (id : nat) : Prop :=
  exists r, reloads m !! id = Some r /\ triggered r = true.

Record ReloadInv (m : ConfigManager) : Prop := {
  ri_fresh : forall id, is_Some (reloads m !! id) -> (id < nextId m)%nat;
  ri_one : forall id id', running m id -> running m id' -> id = id';
  ri_flag : forall id, running m id -> reloadInProgress m = true
}.

Lemma ReloadInv_same m m' :
  reloads m' = reloads m -> (nextId m <= nextId m')%nat -> reloadInProgress m' = reloadInProgress m ->
  ReloadInv m -> ReloadInv m'.
Proof.
  intros Hr Hn Hp [Hf Ho Hg]. unfold running in *. split; unfold running; rewrite Hr, ?Hp; [|done..].
  intros id Hid. specialize (Hf id Hid). lia.
Qed.

Lemma ReloadInv_begin (t : bool) m p :
  ReloadInv m -> (if t then reloadInProgress m = false /\ p = true else p = reloadInProgress m) ->
  ReloadInv (beginReload t (set_reload m p (reloadTimer m && negb t) (reloads m) (nextId m))).
Proof.
  intros [Hf Ho Hg] Ht.
  assert (Hrun : forall id, running (beginReload t (set_reload m p (reloadTimer m && negb t) (reloads m) (nextId m))) id ->
                 (id = nextId m /\ t = true) \/ (t = false /\ running m id)).
  { intros id (r & Hr & Hrt). cbn in Hr. destruct (decide (nextId m = id)) as [<-|Hne].
    - rewrite lookup_insert_eq in Hr. injection Hr as <-. cbn in Hrt. by left.
    - rewrite lookup_insert_ne in Hr by done. assert (running m id) by by exists r.
      destruct t; [|by right]. destruct Ht as [Ht _]. by rewrite (Hg id) in Ht. }
  split.
  - intros id [r Hr]. cbn in *. destruct (decide (nextId m = id)) as [->|Hne]; [lia|].
    rewrite lookup_insert_ne in Hr by done. specialize (Hf id (ex_intro _ _ Hr)). lia.
  - intros id id' [[-> ?]|[? ?]]%Hrun [[-> ?]|[? ?]]%Hrun; [done|congruence..|]. by apply Ho.
  - intros id [[_ Et]|[Et Hid]]%Hrun; subst t; cbn; [by destruct Ht as [_ ->]|].
    rewrite Ht. by apply (Hg id).
Qed.

Lemma triggers_same {A} (l : list A) m :
  let m' := foldl (fun m _ => triggerReload m) m l in
  reloads m' = reloads m /\ nextId m' = nextId m /\ reloadInProgress m' = reloadInProgress m /\
  (reloadTimer m = true -> reloadTimer m' = true).
Proof.
  cbn. revert m. induction l as [|w l IH]; intros m; [done|]. cbn [foldl].
  destruct (IH (triggerReload m)) as (-> & -> & -> & Ht). split_and!; [done..|]. intros _. by apply Ht.
Qed.

Lemma emitError_same m :
  reloads (emitError m) = reloads m /\ nextId (emitError m) = nextId m /\
  reloadTimer (emitError m) = reloadTimer m /\ reloadInProgress (emitError m) = reloadInProgress m.
Proof. unfold emitError. by destruct (waiting m), (errorListeners m). Qed.

(** An answer that the model covers ends its reload. *)
Lemma reloadAnswer_ends id o m r :
  reloads m !! id = Some r ->
  let m' := reloadAnswer id o m in
  m' = m \/
  reloads m' = delete id (reloads m) /\ nextId m' = nextId m /\ reloadTimer m' = reloadTimer m /\
  reloadInProgress m' = (if triggered r then false else reloadInProgress m).
Proof.
  intros Hr. cbn zeta. unfold reloadAnswer. rewrite Hr.
  destruct (load _ _ _ _ _ _) as [l [[es|c]|]]; [| |by left]; right.
  - destruct (triggered r); [|done]. cbn.
    by destruct (emitError_same (set_config m (config m) l)) as (-> & -> & -> & _).
  - by destruct (triggered r).
Qed.

Lemma ReloadInv_answer id o m : ReloadInv m -> ReloadInv (reloadAnswer id o m).
Proof.
  intros Hm. destruct (reloads m !! id) as [r|] eqn:Hr; [|unfold reloadAnswer; by rewrite Hr].
  destruct (reloadAnswer_ends id o m r Hr) as [->|(Er & En & _ & Ep)]; [done|].
  destruct Hm as [Hf Ho Hg].
  assert (Hrun : forall id', running (reloadAnswer id o m) id' -> id' <> id /\ running m id').
  { intros id' (r' & Hr' & Ht'). rewrite Er in Hr'. apply lookup_delete_Some in Hr' as [? Hr'].
    split; [done|]. by exists r'. }
  split.
  - intros id' [r' Hr']. rewrite Er in Hr'. apply lookup_delete_Some in Hr' as [_ Hr']. rewrite En.
    apply Hf. by eexists.
  - intros a b [_ Ha]%Hrun [_ Hb]%Hrun. by apply Ho.
  - intros a [Hne Ha]%Hrun. rewrite Ep. destruct (triggered r) eqn:Et; [|by apply (Hg a)].
    exfalso. apply Hne. apply Ho; [done|]. by exists r.
Qed.

(** Hot updates do not touch the reloads. *)
Definition same_reloads (m m' : ConfigManager) : Prop :=
  reloads m' = reloads m /\ nextId m' = nextId m /\ reloadTimer m' = reloadTimer m /\
  reloadInProgress m' = reloadInProgress m.

Lemma replaceConfig_same m0 c : preserves (same_reloads m0) (replaceConfig c).
Proof.
  intros m Hm. unfold replaceConfig. rewrite wp_bind, wp_get, wp_bind, wp_guard.
  by destruct (valid (validate c)).
Qed.

Lemma update_same m keys v : same_reloads m (update keys v m).1.
Proof.
  apply preserves_run; [|done]. intros m' Hm'. unfold update. rewrite wp_bind, wp_get.
  destruct (setIn_keys _ _ _); [by apply replaceConfig_same|done..].
Qed.

Lemma delete_same m keys : same_reloads m (delete_ keys m).1.
Proof.
  apply preserves_run; [|done]. intros m' Hm'. unfold delete_. rewrite wp_bind, wp_get.
  destruct (deleteIn_keys _ _); [|done]. rewrite wp_bind. by apply replaceConfig_same.
Qed.

Lemma step_ReloadInv m ev : ReloadInv m -> ReloadInv (step m ev).
Proof.
  intros Hm. unfold step. destruct (crashed m); [done|].
  destruct ev; try (by apply (ReloadInv_same m); [cbn; done || lia..|]).
  - pose proof (ReloadInv_begin false m (reloadInProgress m) Hm eq_refl) as H. cbn in H.
    by rewrite andb_true_r in H; destruct m.
  - by apply ReloadInv_answer.
  - destruct (update_same m keys v) as (? & E & _ & ?).
    apply (ReloadInv_same m); [done|rewrite E; lia|done..].
  - destruct (delete_same m keys) as (? & E & _ & ?).
    apply (ReloadInv_same m); [done|rewrite E; lia|done..].
  - unfold timerFires. destruct (reloadTimer m) eqn:Et; [|done].
    destruct (reloadInProgress m) eqn:Ep; [by apply (ReloadInv_same m); [cbn; done || lia..|]|].
    pose proof (ReloadInv_begin true m true Hm (conj Ep eq_refl)) as H.
    by rewrite andb_false_r in H.
  - unfold checkFileChanges. match goal with |- context [foldl _ ?x ?l] => destruct (triggers_same l x) as (? & E & ? & _) end.
    apply (ReloadInv_same m); [done|rewrite E; cbn; lia|done..].
Qed.

(** reloads that are triggered, by a signal, a changed file or
    [reloadConfig], run one at a time, and a trigger is not lost: the pending
    timer stays pending through every event until it starts a reload, unless the
    manager is cleaned up or the process ends; it starts one at once when none is
    running, and the one that is running ends with the answer of the loader. *)
Theorem triggered_reload_not_lost evs :
  let m := run evs in
  (forall id id', running m id -> running m id' -> id = id') /\
  (reloadTimer m = true -> crashed m = false -> forall ev, ev <> Cleanup ->
     reloadTimer (step m ev) = true \/
     ev = Tick /\ reloadInProgress m = false /\ running (step m Tick) (nextId m)) /\
  (forall id o, running m id -> (load parseJSON regexTest isUri s o (clearCache (loader m))).2 <> None ->
     crashed m = false -> reloadInProgress (step m (Answer id o)) = false).
Proof.
  cbn zeta. assert (Hm : ReloadInv (run evs)).
  { unfold run. assert (H : ReloadInv new_ConfigManager).
    { split; unfold running; cbn.
      - by intros id [r Hr]. - by intros id id' (r & Hr & _). - by intros id (r & Hr & _). }
    revert H. generalize new_ConfigManager. induction evs as [|ev evs IH]; intros m Hm; [done|].
    cbn [foldl]. by apply IH, step_ReloadInv. }
  generalize dependent (run evs). intros m Hm. split_and!; [apply Hm| |].
  - intros Ht Hc ev Hev. unfold step. rewrite Hc. destruct ev; try (by left).
    + left. destruct (reloads m !! id) as [r|] eqn:Hr; [|unfold reloadAnswer; by rewrite Hr].
      by destruct (reloadAnswer_ends id o m r Hr) as [->|(_ & _ & -> & _)].
    + left. by destruct (update_same m keys v) as (_ & _ & -> & _).
    + left. by destruct (delete_same m keys) as (_ & _ & -> & _).
    + unfold timerFires. rewrite Ht. destruct (reloadInProgress m) eqn:Ep; [by left|right].
      split_and!; [done..|]. eexists. split; [apply lookup_insert_eq|done].
    + left. unfold checkFileChanges. match goal with |- context [foldl _ ?x ?l] => destruct (triggers_same l x) as (_ & _ & _ & H) end.
      by apply H.
  - intros id o (r & Hr & Htr) Hload Hc. unfold step. rewrite Hc.
    unfold reloadAnswer. rewrite Hr, Htr. revert Hload.
    destruct (load _ _ _ _ _ _) as [l [[es|c]|]]; [done..|]. intros H. by destruct H.
Qed.
End manager.

(** ** Concrete runs *)

Module Examples.
Local Open Scope string_scope.
Local Open Scope list_scope.

Definition digitsOnly (pattern str : string) : bool := all_chars is_digit str && negb (falsy str).
Definition anyUri (str : string) : bool := true.
(** The files hold one of two texts. *)
Definition parse0 (text : string) : option value :=
  if bool_decide (text = "port 8080") then Some (obj [("app", obj [("port", num 8080)])])
  else if bool_decide (text = "port 0") then Some (obj [("app", obj [("port", num 0)])])
  else None.
Definition outside (text : string) : Outside :=
  mkOutside [] (fun _ => Content text) (fun _ _ _ => None) (fun _ => ConsulFails).

#[local] Notation step := (step mainSchema parse0 digitsOnly anyUri).
#[local] Notation run := (run mainSchema parse0 digitsOnly anyUri).
#[local] Notation update := (update mainSchema digitsOnly anyUri).

Definition boot : list Event :=
  [AddSource (defaultsSource DEFAULTS); AddSource environmentSource; AddSource (fileSource "config.json");
   Reload_; Answer 0 (outside "port 8080")].

(** The defaults conform and need no other defaults; the file overrides them. *)
Lemma defaults_accepted :
  valid (validate digitsOnly anyUri mainSchema DEFAULTS) = true /\
  data (validate digitsOnly anyUri mainSchema DEFAULTS) = DEFAULTS /\
  getConfigIn (run boot) "app.port" = num 8080 /\
  getConfigIn (run boot) "app.logLevel" = VString "info".
Proof. vm_compute. repeat split; reflexivity. Qed.

Lemma config_always_valid_witness :
  config (run boot) <> VNull /\
  (config (run boot) = VNull \/ accepted mainSchema digitsOnly anyUri (config (run boot))).
Proof.
  split; [vm_compute; discriminate|].
  apply (config_always_valid mainSchema parse0 digitsOnly anyUri boot). vm_compute. reflexivity.
Defined.

Lemma update_sets_exactly_witness :
  let m := run (boot ++ [OnChangePath_ "app.port" "p" 1; OnChange_ "a" 2]) in
  let m' := (update ["app"; "port"] (num 9000) m).1 in
  getConfigIn m' "app.port" = num 9000 /\
  called m' = [CalledPath 1 (num 9000); CalledAny 2 (config m) (config m')] /\
  reads (config m') ["app"; "logLevel"] (VString "info").
Proof.
  cbn zeta. split; [vm_compute; reflexivity|]. split; [vm_compute; reflexivity|].
  pose proof (update_sets_exactly mainSchema digitsOnly anyUri
    (run (boot ++ [OnChangePath_ "app.port" "p" 1; OnChange_ "a" 2])) ["app"; "port"] (num 9000)
    ltac:(vm_compute; reflexivity) ltac:(vm_compute; reflexivity) ltac:(vm_compute; reflexivity)
    ltac:(discriminate) ltac:(reflexivity)) as H.
  destruct (update ["app"; "port"] (num 9000) _) as [m' [e|[]]] eqn:E.
  - exfalso. vm_compute in E. discriminate E.
  - destruct H as (_ & H & _). apply H; [vm_compute; discriminate|].
    split; [vm_compute; reflexivity|]. split; [discriminate|reflexivity].
Defined.

(** An invalid update is refused. *)
Lemma invalid_update_refused :
  (update ["app"; "port"] (num 0) (run boot)).1 = run boot.
Proof. vm_compute. reflexivity. Qed.

(** A listener of an object is called at every change of the configuration: the
    old value it is compared with is a clone. *)
Lemma unchanged_object_reported :
  called (run (boot ++ [OnChangePath_ "db" "d" 7; Update ["app"; "logLevel"] (VString "debug")])) =
  [CalledPath 7 (getConfigIn (run boot) "db")].
Proof. vm_compute. reflexivity. Qed.

(** A file that has become invalid: the reload it triggers fails, nobody listens
    to [error], and the process ends.  A caller of [reloadConfig] is a listener. *)
Lemma failed_reload_ends_process :
  crashed (run (boot ++ [Trigger; Tick; Answer 1 (outside "port 0")])) = true /\
  let m := run (boot ++ [ReloadConfig 5; Tick; Answer 1 (outside "port 0")]) in
  crashed m = false /\ settled m = [(5%nat, false)] /\ getConfigIn m "app.port" = num 8080.
Proof. vm_compute. repeat split; reflexivity. Qed.

(** A reload that is in progress while a hot update is made discards it, and tells
    the listeners of an old configuration that was not the last one. *)
Lemma reload_discards_update :
  let m := run (boot ++ [Trigger; Tick; Update ["app"; "port"] (num 9000); OnChangePath_ "app.port" "p" 1;
                         Answer 1 (outside "port 8080")]) in
  getConfigIn m "app.port" = num 8080 /\ called m = [].
Proof. vm_compute. split; reflexivity. Qed.
End Examples.
