(* ===== verification/Sessions.v ===== *)
(** * Database sessions: methods that await statements, and their interleavings
    ([src/src/config/database.ts])

    A method that talks to PostgreSQL is a [prog]: it returns, throws, or awaits
    the reply to a statement and goes on.  A statement is a function of the
    session that issues it and of the database; it may have to wait for a lock.
    A [World] holds a database and the methods in progress; an event lets one of
    them have its statement executed, refuses that statement, or breaks its
    connection, before or after the statement took effect.  Any list of events is
    a run, so that a theorem about all runs is a theorem about all
    interleavings.

    [run_safe] is the proof rule: an invariant of the database, for each session
    what the others may do to it ([Rely]), and each method verified on its own
    ([safe]). *)

From Stdlib Require Import ZArith Lia.
From stdpp Require Import base list strings gmap.
From S2P Require Import Prelude.

Section programs.
Context {Db E : Type}.

(** The answer of the server to session [sid]: [None] while it waits for a
    lock. *)
Definition stmt (B : Type) : Type := nat -> Db -> option (Db * (E + B)).

Inductive prog (A : Type) : Type :=
  | Return (a : A)
  | Raise (e : E)
  | Query {B : Type} (q : stmt B) (k : E + B -> prog A)
  | Local {B : Type} (f : Db -> Db * B) (k : B -> prog A).
Arguments Return {A} _.
Arguments Raise {A} _.
Arguments Query {A B} _ _.
Arguments Local {A B} _ _.

(** [await client.query(...)] *)
Definition query {B} (q : stmt B) : prog B :=
  Query q (fun r => match r with inl e => Raise e | inr b => Return b end).

(** A synchronous assignment to fields of the process. *)
Definition local (f : Db -> Db) : prog unit := Local (fun db => (f db, tt)) Return.

Fixpoint then_ {A B} (p : prog A) (f : A -> prog B) : prog B :=
  match p with
  | Return a => f a
  | Raise e => Raise e
  | Query q k => Query q (fun r => then_ (k r) f)
  | Local g k => Local g (fun b => then_ (k b) f)
  end.

(** [try { p } catch (e) { h(e) }] *)
Fixpoint try_ {A} (p : prog A) (h : E -> prog A) : prog A :=
  match p with
  | Return a => Return a
  | Raise e => h e
  | Query q k => Query q (fun r => try_ (k r) h)
  | Local g k => Local g (fun b => try_ (k b) h)
  end.

(** A statement without effect that always succeeds. *)
Definition noop : stmt unit := fun _ db => Some (db, inr tt).

(** [Database.transaction(fn)] over the server's COMMIT and ROLLBACK. *)
Definition transaction {A} (commit rollback : stmt unit) (fn : prog A) : prog A :=
  then_ (query noop) (fun _ =>             (* pool.connect() *)
  try_ (then_ (query noop) (fun _ =>       (* BEGIN *)
        then_ fn (fun result =>
        then_ (query commit) (fun _ => Return result))))
       (fun err => then_ (query rollback) (fun _ => Raise err))).

(** What is left of a method whose connection is lost: every statement it still
    issues fails. *)
Fixpoint drain {A} (lost : E) (p : prog A) (db : Db) : Db * (E + A) :=
  match p with
  | Return a => (db, inr a)
  | Raise e => (db, inl e)
  | Query q k => drain lost (k (inl lost)) db
  | Local f k => let '(db', b) := f db in drain lost (k b) db'
  end.

(** The error it then fails with, if it does nothing else. *)
Fixpoint quits {A} (lost : E) (p : prog A) : option E :=
  match p with
  | Return _ | Local _ _ => None
  | Raise e => Some e
  | Query q k => quits lost (k (inl lost))
  end.
Definition fails {A} (lost : E) (p : prog A) : Prop := quits lost p = Some lost.

Lemma quits_drain {A} lost (p : prog A) e db : quits lost p = Some e -> drain lost p db = (db, inl e).
Proof. induction p; cbn; naive_solver. Qed.

Lemma quits_then {A B} lost (p : prog A) (f : A -> prog B) e :
  quits lost p = Some e -> quits lost (then_ p f) = Some e.
Proof. induction p; cbn; naive_solver. Qed.

Lemma quits_try {A} lost (p : prog A) h e :
  quits lost p = Some e -> quits lost (try_ p h) = quits lost (h e).
Proof. induction p; cbn; naive_solver. Qed.

Definition ended {A} (r : E + A) : prog A :=
  match r with inl e => Raise e | inr a => Return a end.
End programs.

Arguments prog : clear implicits.
Arguments stmt : clear implicits.
Arguments Return {Db E A} _.
Arguments Raise {Db E A} _.
Arguments Query {Db E A B} _ _.
Arguments Local {Db E A B} _ _.

Notation "'await' x := q 'in' p" := (then_ (query q) (fun x => p))
  (at level 10, x name, q at level 100, p at level 200) : js_scope.

Section worlds.
Context {Db E A Call : Type}.
Context (body : Call -> prog Db E A) (lost : E) (abandon : nat -> Db -> Db).

Record World := mkWorld {
  w_db : Db;
  sessions : gmap nat (Call * prog Db E A)
}.

Inductive Event :=
  | Start (sid : nat) (c : Call)
  | Exec (sid : nat)
  | Refuse (sid : nat) (e : E)               (* lock timeout, deadlock, ... *)
  | Disconnect (sid : nat) (executed : bool).

Definition with_session (w : World) (db : Db) (sid : nat) (c : Call)
    (p : prog Db E A) : World :=
  mkWorld db (<[sid := (c, p)]> (sessions w)).

Definition step (w : World) (ev : Event) : World :=
  match ev with
  | Start sid c =>
      match sessions w !! sid with
      | None => with_session w (w_db w) sid c (body c)
      | Some _ => w
      end
  | Exec sid =>
      match sessions w !! sid with
      | Some (c, Query q k) =>
          match q sid (w_db w) with
          | Some (db, r) => with_session w db sid c (k r)
          | None => w
          end
      | Some (c, Local f k) =>
          let '(db, b) := f (w_db w) in with_session w db sid c (k b)
      | _ => w
      end
  | Refuse sid e =>
      match sessions w !! sid with
      | Some (c, Query q k) => with_session w (w_db w) sid c (k (inl e))
      | _ => w
      end
  | Disconnect sid executed =>
      match sessions w !! sid with
      | Some (c, Query q k) =>
          let db := if executed
                    then match q sid (w_db w) with Some (db, _) => db | None => w_db w end
                    else w_db w in
          let '(db', r) := drain lost (k (inl lost)) (abandon sid db) in
          with_session w db' sid c (ended r)
      | _ => w
      end
  end.

Definition run (db : Db) (evs : list Event) : World :=
  foldl step (mkWorld db ∅) evs.

(** The outcome of a session that has ended. *)
Definition outcome (w : World) (sid : nat) : option (Call * (E + A)) :=
  match sessions w !! sid with
  | Some (c, Return a) => Some (c, inr a)
  | Some (c, Raise e) => Some (c, inl e)
  | _ => None
  end.

(** ** The proof rule *)

Context (Inv : Db -> Prop) (Rely : nat -> Db -> Db -> Prop).
Context (Post : nat -> Call -> E + A -> Db -> Prop) (Fresh : nat -> Db -> Prop).

(** What a step of session [sid] may do to the others. *)
Definition guar (sid : nat) (db db' : Db) : Prop :=
  forall o, o <> sid -> Rely o db db'.

(** A method whose connection is lost fails, with an error that satisfies [L]. *)
Definition gives_up {B} (L : E -> Db -> Prop) (p : prog Db E B) (db : Db) : Prop :=
  exists e, quits lost p = Some e /\ L e db.

(** [Q] holds of the program's outcome, [L] of the error it fails with when its
    connection is lost: each of its statements, after whatever the others did,
    keeps the invariant and their assumptions, and no handler takes the lost
    connection for an answer. *)
Fixpoint safely {B} (sid : nat) (L : E -> Db -> Prop) (Q : E + B -> Db -> Prop)
    (p : prog Db E B) (db : Db) : Prop :=
  match p with
  | Return a => Q (inr a) db
  | Raise e => Q (inl e) db
  | Query q k =>
      forall db1, Rely sid db db1 -> Inv db1 ->
        (forall db2 r, q sid db1 = Some (db2, r) ->
           Inv db2 /\ guar sid db1 db2 /\ safely sid L Q (k r) db2 /\
           gives_up L (k (inl lost)) (abandon sid db2)) /\
        (forall e, safely sid L Q (k (inl e)) db1) /\
        gives_up L (k (inl lost)) (abandon sid db1)
  | Local f k =>
      forall db1, Rely sid db db1 -> Inv db1 -> forall db2 b, f db1 = (db2, b) ->
        Inv db2 /\ guar sid db1 db2 /\ safely sid L Q (k b) db2
  end.

(** With the lost connection as the only error a loss leads to. *)
Definition when_lost (L : Db -> Prop) (e : E) (db : Db) : Prop := e = lost /\ L db.
Definition safe {B} (sid : nat) (L : Db -> Prop) : (E + B -> Db -> Prop) -> prog Db E B -> Db -> Prop :=
  safely sid (when_lost L).

Definition settles (sid : nat) (c : Call) : prog Db E A -> Db -> Prop :=
  safely sid (fun e => Post sid c (inl e)) (Post sid c).

Class SessionProtocol : Prop := {
  rely_refl sid db : Rely sid db db;
  rely_trans sid db1 db2 db3 : Rely sid db1 db2 -> Rely sid db2 db3 -> Rely sid db1 db3;
  post_stable sid c r db db' : Rely sid db db' -> Post sid c r db -> Post sid c r db';
  fresh_stable sid db db' : Rely sid db db' -> Fresh sid db -> Fresh sid db';
  abandon_inv sid db : Inv db -> Inv (abandon sid db);
  abandon_guar sid db : Inv db -> guar sid db (abandon sid db);
  body_settles sid c db : Inv db -> Fresh sid db -> settles sid c (body c) db
}.

(** *** Rules for programs *)

Lemma gives_up_mono {B} (L1 L2 : E -> Db -> Prop) (p : prog Db E B) db :
  (forall e, L1 e db -> L2 e db) -> gives_up L1 p db -> gives_up L2 p db.
Proof. intros HL (e & He & H). exists e. auto. Qed.

Lemma gives_up_then {B C} L (p : prog Db E B) (f : B -> prog Db E C) db :
  gives_up L p db -> gives_up L (then_ p f) db.
Proof. intros (e & He & H). exists e. split; [by apply quits_then|done]. Qed.

Lemma gives_up_try {B} (L1 L2 : E -> Db -> Prop) (p : prog Db E B) h db :
  (forall e, L1 e db -> gives_up L2 (h e) db) -> gives_up L1 p db -> gives_up L2 (try_ p h) db.
Proof.
  intros Hh (e & He & H). destruct (Hh e H) as (e' & He' & H'). exists e'. split; [|done].
  by rewrite (quits_try _ _ _ _ He).
Qed.

Lemma safely_mono {B} sid (L1 L2 : E -> Db -> Prop) (Q1 Q2 : E + B -> Db -> Prop) p db :
  (forall r db', Q1 r db' -> Q2 r db') -> (forall e db', L1 e db' -> L2 e db') ->
  safely sid L1 Q1 p db -> safely sid L2 Q2 p db.
Proof.
  intros HQ HL. revert db. induction p as [a|e|C q k IH|C f k IH]; intros db; cbn; [apply HQ..| |].
  - intros Hs db1 HR HI. destruct (Hs db1 HR HI) as (Hq & He & Hl).
    split_and!; [|intros e; apply IH, He|by eapply gives_up_mono; [intros e; apply HL|]].
    intros db2 r Hr. destruct (Hq _ _ Hr) as (? & ? & ? & ?).
    split_and!; [done|done|by apply IH|by eapply gives_up_mono; [intros e; apply HL|]].
  - intros Hs db1 HR HI db2 b Hb. destruct (Hs db1 HR HI db2 b Hb) as (? & ? & ?). eauto.
Qed.

Lemma safely_query {B} sid (q : stmt Db E B) (L : E -> Db -> Prop) Q db :
  (forall db1, Rely sid db db1 -> Inv db1 ->
     (forall db2 r, q sid db1 = Some (db2, r) ->
        Inv db2 /\ guar sid db1 db2 /\ Q r db2 /\ L lost (abandon sid db2)) /\
     (forall e, Q (inl e) db1) /\ L lost (abandon sid db1)) ->
  safely sid L Q (query q) db.
Proof.
  intros H. cbn. intros db1 HR HI. destruct (H db1 HR HI) as (Hq & He & Hl).
  split_and!; [|done|by exists lost]. intros db2 r Hr. destruct (Hq _ _ Hr) as (? & ? & HQ & ?).
  split_and!; [done..| |by exists lost]. by destruct r.
Qed.

Lemma safely_then {B C} sid L (Q1 : E + B -> Db -> Prop) (Q2 : E + C -> Db -> Prop) p f db :
  safely sid L Q1 p db ->
  (forall a db', Q1 (inr a) db' -> safely sid L Q2 (f a) db') ->
  (forall e db', Q1 (inl e) db' -> Q2 (inl e) db') ->
  safely sid L Q2 (then_ p f) db.
Proof.
  intros Hp Hf HX. revert db Hp. induction p as [a|e|D q k IH|D g k IH]; intros db; cbn.
  - apply Hf.
  - apply HX.
  - intros Hs db1 HR HI. destruct (Hs db1 HR HI) as (Hq & He & Hl).
    split_and!; [|intros e; apply IH, He|by apply gives_up_then].
    intros db2 r Hr. destruct (Hq _ _ Hr) as (? & ? & ? & ?).
    split_and!; [done|done|by apply IH|by apply gives_up_then].
  - intros Hs db1 HR HI db2 b Hb. destruct (Hs db1 HR HI db2 b Hb) as (? & ? & ?). eauto.
Qed.

Lemma safely_try {B} sid (L1 L2 : E -> Db -> Prop) (Q1 Q2 : E + B -> Db -> Prop) p h db :
  safely sid L1 Q1 p db ->
  (forall a db', Q1 (inr a) db' -> Q2 (inr a) db') ->
  (forall e db', Q1 (inl e) db' -> safely sid L2 Q2 (h e) db') ->
  (forall e db', L1 e db' -> gives_up L2 (h e) db') ->
  safely sid L2 Q2 (try_ p h) db.
Proof.
  intros Hp HQ Hh HL. revert db Hp. induction p as [a|e|D q k IH|D g k IH]; intros db; cbn.
  - apply HQ.
  - apply Hh.
  - intros Hs db1 HR HI. destruct (Hs db1 HR HI) as (Hq & He & Hl).
    split_and!; [|intros e; apply IH, He|by eapply gives_up_try; [intros e; apply HL|]].
    intros db2 r Hr. destruct (Hq _ _ Hr) as (? & ? & ? & ?).
    split_and!; [done|done|by apply IH|by eapply gives_up_try; [intros e; apply HL|]].
  - intros Hs db1 HR HI db2 b Hb. destruct (Hs db1 HR HI db2 b Hb) as (? & ? & ?). eauto.
Qed.

(** *** The rules for [safe] *)

Lemma safe_query {B} sid (q : stmt Db E B) L Q db :
  (forall db1, Rely sid db db1 -> Inv db1 ->
     (forall db2 r, q sid db1 = Some (db2, r) ->
        Inv db2 /\ guar sid db1 db2 /\ Q r db2 /\ L (abandon sid db2)) /\
     (forall e, Q (inl e) db1) /\ L (abandon sid db1)) ->
  safe sid L Q (query q) db.
Proof.
  intros H. apply safely_query. intros db1 HR HI. destruct (H db1 HR HI) as (Hq & He & Hl).
  split_and!; [|done|done]. intros db2 r Hr. destruct (Hq _ _ Hr) as (? & ? & ? & ?).
  by split_and!.
Qed.

Lemma safe_mono {B} sid (L1 L2 : Db -> Prop) (Q1 Q2 : E + B -> Db -> Prop) p db :
  (forall r db', Q1 r db' -> Q2 r db') -> (forall db', L1 db' -> L2 db') ->
  safe sid L1 Q1 p db -> safe sid L2 Q2 p db.
Proof. intros HQ HL. apply safely_mono; [done|]. intros e db' [? ?]. split; auto. Qed.

Lemma safe_then {B C} sid L (Q1 : E + B -> Db -> Prop) (Q2 : E + C -> Db -> Prop) p f db :
  safe sid L Q1 p db ->
  (forall a db', Q1 (inr a) db' -> safe sid L Q2 (f a) db') ->
  (forall e db', Q1 (inl e) db' -> Q2 (inl e) db') ->
  safe sid L Q2 (then_ p f) db.
Proof. apply safely_then. Qed.

Lemma safe_try {B} sid L (Q1 Q2 : E + B -> Db -> Prop) p h db :
  safe sid L Q1 p db ->
  (forall a db', Q1 (inr a) db' -> Q2 (inr a) db') ->
  (forall e db', Q1 (inl e) db' -> safe sid L Q2 (h e) db') ->
  fails lost (h lost) ->
  safe sid L Q2 (try_ p h) db.
Proof.
  intros Hp HQ Hh Hl. eapply safely_try; [exact Hp|done..|].
  intros e db' [-> HL]. by exists lost.
Qed.

Lemma safe_settles sid c p db :
  safe sid (Post sid c (inl lost)) (Post sid c) p db -> settles sid c p db.
Proof. apply safely_mono; [done|]. by intros e db' [-> ?]. Qed.

(** A postcondition whose failures leave [quiet]. *)
Definition upto {B} (quiet : Db -> Prop) (K : B -> Db -> Prop) (r : E + B) (db : Db) : Prop :=
  match r with inl _ => quiet db | inr b => K b db end.

Lemma statement_safe {B} sid (quiet unknown : Db -> Prop) (q : stmt Db E B) K db :
  (forall db, quiet db -> unknown db) ->
  (forall db, unknown db -> unknown (abandon sid db)) ->
  (forall db1, Rely sid db db1 -> Inv db1 -> quiet db1 /\
     forall db2 r, q sid db1 = Some (db2, r) ->
       Inv db2 /\ guar sid db1 db2 /\ upto quiet K r db2 /\ unknown db2) ->
  safe sid unknown (upto quiet K) (query q) db.
Proof.
  intros Hqu Hua H. apply safe_query. intros db1 HR HI. destruct (H db1 HR HI) as [Hq Hs].
  split_and!; [|done|auto]. intros db2 r Hr. destruct (Hs _ _ Hr) as (? & ? & ? & ?). auto.
Qed.

Lemma local_safe sid (f : Db -> Db) (K : Db -> Prop) quiet unknown db :
  (forall db1, Rely sid db db1 -> Inv db1 ->
     Inv (f db1) /\ guar sid db1 (f db1) /\ K (f db1)) ->
  safe sid unknown (upto quiet (fun _ => K)) (local f) db.
Proof. intros H db1 HR HI db2 b [= <- <-]. by apply H. Qed.

(** *** Soundness *)

Context `{!SessionProtocol}.

Lemma settles_rely sid c p db db' : Rely sid db db' -> settles sid c p db -> settles sid c p db'.
Proof.
  intros HR. destruct p as [a|e|B q k|B f k]; cbn; [by apply post_stable..| |];
    intros Hs db1 HR1 HI; (apply Hs; [|done]); by eapply rely_trans.
Qed.

Definition world_safe (w : World) : Prop :=
  Inv (w_db w) /\
  (forall sid c p, sessions w !! sid = Some (c, p) -> settles sid c p (w_db w)) /\
  (forall sid, sessions w !! sid = None -> Fresh sid (w_db w)).

Lemma with_session_safe w db sid c p :
  world_safe w -> Inv db -> guar sid (w_db w) db -> settles sid c p db ->
  world_safe (with_session w db sid c p).
Proof.
  intros (_ & Hs & Hf) HI HG Hp. split_and!; cbn; [done| |].
  - intros o c' p'. rewrite lookup_insert_Some. intros [[-> [= -> ->]]|[Hne Ho]]; [done|].
    eapply settles_rely; [by apply HG|]. by apply Hs.
  - intros o. rewrite lookup_insert_None. intros [Ho Hne].
    eapply fresh_stable; [by apply HG|]. by apply Hf.
Qed.

Lemma guar_refl sid db : guar sid db db.
Proof. intros o _. apply rely_refl. Qed.

Lemma guar_trans sid db1 db2 db3 : guar sid db1 db2 -> guar sid db2 db3 -> guar sid db1 db3.
Proof. intros H1 H2 o Ho. eapply rely_trans; eauto. Qed.

Lemma disconnect_safe w db sid c (p : prog Db E A) :
  world_safe w -> Inv db -> guar sid (w_db w) db ->
  gives_up (fun e => Post sid c (inl e)) p (abandon sid db) ->
  world_safe (let '(db', r) := drain lost p (abandon sid db) in with_session w db' sid c (ended r)).
Proof.
  intros Hw HI HG (e & He & HP). rewrite (quits_drain _ _ _ _ He).
  apply with_session_safe; [done|by apply abandon_inv| |done].
  eapply guar_trans; [done|]. by apply abandon_guar.
Qed.

Lemma step_safe w ev : world_safe w -> world_safe (step w ev).
Proof.
  intros Hw. pose proof Hw as (HI & Hs & Hf).
  destruct ev as [sid c|sid|sid e|sid b]; cbn;
    destruct (sessions w !! sid) as [[c' [a|err|B q k|B f k]]|] eqn:Hsid; try done.
  { apply with_session_safe; [done..|apply guar_refl|]. by apply body_settles; [|apply Hf]. }
  2:{ destruct (f (w_db w)) as [db b] eqn:Hf'.
      destruct (Hs _ _ _ Hsid (w_db w)) with (db2 := db) (b := b) as (? & ? & ?);
        [apply rely_refl|done..|]. by apply with_session_safe. }
  all: destruct (Hs _ _ _ Hsid (w_db w)) as (He & Hr & Hl); [apply rely_refl|done|].
  - destruct (q sid (w_db w)) as [[db r]|]; [|done].
    destruct (He _ _ eq_refl) as (HI' & HG & Hk & _). by apply with_session_safe.
  - apply with_session_safe; [done..|apply guar_refl|]. apply Hr.
  - pose proof (guar_refl sid (w_db w)). destruct b; [|by apply disconnect_safe].
    destruct (q sid (w_db w)) as [[db r]|]; [|by apply disconnect_safe].
    destruct (He _ _ eq_refl) as (HI' & HG & _ & Hp). by apply disconnect_safe.
Qed.

Lemma run_safe db evs :
  Inv db -> (forall sid, Fresh sid db) -> world_safe (run db evs).
Proof.
  intros HI HF. unfold run.
  assert (H0 : world_safe (mkWorld db ∅)).
  { split_and!; cbn; [done| |done]. intros sid c p. by rewrite lookup_empty. }
  revert H0. generalize (mkWorld db ∅). induction evs as [|ev evs IH]; [done|].
  intros w Hw. apply IH, step_safe, Hw.
Qed.

Lemma run_outcome db evs sid c r :
  Inv db -> (forall sid, Fresh sid db) ->
  outcome (run db evs) sid = Some (c, r) -> Post sid c r (w_db (run db evs)).
Proof.
  intros HI HF. destruct (run_safe db evs HI HF) as (_ & Hs & _). unfold outcome.
  destruct (sessions _ !! sid) as [[c' [a|e|B q k|B f k]]|] eqn:Hsid; [| |done..];
    intros [= -> <-]; apply (Hs _ _ _ Hsid).
Qed.
End worlds.

Arguments mkWorld {Db E A Call} _ _.
Arguments Start {E Call} _ _.
Arguments Exec {E Call} _.
Arguments Refuse {E Call} _ _.
Arguments Disconnect {E Call} _ _.

(** ** Row locks

    A locked row carries the session that holds it and the version it will
    commit. *)

Section row_locks.
Context {V : Type}.
Implicit Types (lks : gmap string (nat * V)) (rows : gmap string V).

Definition owned (sid : nat) lks : gmap string V :=
  omap (fun lk => if bool_decide (lk.1 = sid) then Some lk.2 else None) lks.

Definition locked_by_other (sid : nat) (n : string) lks : bool :=
  match lks !! n with
  | Some lk => negb (bool_decide (lk.1 = sid))
  | None => false
  end.

(** The version of a row a session sees: its own, else the committed one. *)
Definition visible (sid : nat) (n : string) lks rows : option V :=
  match owned sid lks !! n with
  | Some r => Some r
  | None => rows !! n
  end.

Definition unlock (sid : nat) lks : gmap string (nat * V) :=
  filter (fun kv => kv.2.1 <> sid) lks.

Lemma owned_lookup sid lks n r : owned sid lks !! n = Some r <-> lks !! n = Some (sid, r).
Proof.
  unfold owned. rewrite lookup_omap. destruct (lks !! n) as [[o r']|]; cbn; [|done].
  case_bool_decide; naive_solver.
Qed.

Lemma owned_insert sid n r lks : owned sid (<[n := (sid, r)]> lks) = <[n := r]> (owned sid lks).
Proof. unfold owned. apply omap_insert_Some. cbn. by rewrite bool_decide_true. Qed.

Lemma owned_insert_other o sid n r lks :
  o <> sid -> locked_by_other sid n lks = false -> owned o (<[n := (sid, r)]> lks) = owned o lks.
Proof.
  intros Ho Hh. apply map_eq. intros m. apply option_eq. intros x.
  rewrite !owned_lookup, lookup_insert. case_decide as Hm; [subst m|done].
  unfold locked_by_other in Hh. destruct (lks !! n) as [[o' r']|]; [|naive_solver].
  bool_props. cbn in *. naive_solver.
Qed.

Lemma owned_unlock o sid lks :
  owned o (unlock sid lks) = if bool_decide (o = sid) then ∅ else owned o lks.
Proof.
  apply map_eq. intros m. apply option_eq. intros x. case_bool_decide as Ho.
  - rewrite owned_lookup, lookup_empty. unfold unlock. rewrite map_lookup_filter_Some. naive_solver.
  - rewrite !owned_lookup. unfold unlock. rewrite map_lookup_filter_Some. naive_solver.
Qed.

Lemma visible_unowned sid n lks rows : owned sid lks = ∅ -> visible sid n lks rows = rows !! n.
Proof. intros Ho. unfold visible. by rewrite Ho, lookup_empty. Qed.

Lemma visible_owned sid n r lks rows :
  owned sid lks = {[n := r]} -> visible sid n lks rows = Some r.
Proof. intros Ho. unfold visible. by rewrite Ho, lookup_singleton_eq. Qed.

Lemma owned_not_other sid n r lks :
  owned sid lks = {[n := r]} -> locked_by_other sid n lks = false.
Proof.
  intros Ho. unfold locked_by_other.
  assert (lks !! n = Some (sid, r)) as -> by (apply owned_lookup; by rewrite Ho, lookup_singleton_eq).
  by rewrite bool_decide_true.
Qed.

(** The table after a session that owns one row has committed. *)
Lemma committed_lookup sid n r lks rows m :
  owned sid lks = {[n := r]} ->
  (owned sid lks ∪ rows) !! m = if decide (n = m) then Some r else rows !! m.
Proof.
  intros Ho. rewrite Ho, lookup_union. destruct (decide (n = m)) as [->|Hne].
  - rewrite lookup_singleton_eq. by destruct (rows !! m).
  - rewrite lookup_singleton_ne by done. by destruct (rows !! m).
Qed.

Lemma unlock_lookup sid n r lks m lk :
  owned sid lks = {[n := r]} -> unlock sid lks !! m = Some lk -> lks !! m = Some lk /\ m <> n.
Proof.
  intros Ho. unfold unlock. rewrite map_lookup_filter_Some. intros [Hm Hs]. split; [done|].
  intros ->. assert (Hn : lks !! n = Some (sid, r)) by (apply owned_lookup; by rewrite Ho, lookup_singleton_eq).
  rewrite Hn in Hm. by injection Hm as <-.
Qed.
End row_locks.
