(* ===== verification/Reputation.v ===== *)
(** * Reputation scores
    ([src/src/reputation/store.ts], [scoreService.ts],
    [database/migrations/001_create_reputations.sql])

    The table [reputations] under PostgreSQL's row locks: a row locked by a
    session carries the version that session will commit, and a statement that
    needs the lock of another session waits for it, or fails at once with NOWAIT.
    [wal] is the sequence of committed writes.  Each method of the service is a
    [prog] over these statements; the column [updated_at], which nothing computes
    with, is left out.

    Whatever the interleaving: scores stay within their bounds, whether or not the
    table has the CHECK of the migration ([checked], [scores_stay_bounded]); an operation that returns has committed exactly one
    write, computed from the row it replaced, and one that throws none
    ([operations_commit_once]); no slashing is ever overwritten
    ([slashings_never_overwritten]). *)

From Stdlib Require Import ZArith Lia Ascii String.
From stdpp Require Import base list strings gmap.
From S2P Require Import Prelude Js Sessions.

(** ** The table *)

Record ReputationRecord := mkReputation { score : Z; slash_version : Z }.
#[export] Instance ReputationRecord_eq_dec : EqDecision ReputationRecord.
Proof. solve_decision. Defined.

(** A committed change of a row; [before] is absent for an insertion. *)
Record Write := mkWrite {
  by_session : nat;
  node : string;
  before : option ReputationRecord;
  after : ReputationRecord
}.

Record Db := mkDb {
  reputations : gmap string ReputationRecord;
  locks : gmap string (nat * ReputationRecord);
  wal : list Write
}.

Inductive RepError :=
  | NotFound (nodeId : string)
  | NotInTable (nodeId : string)
  | ConcurrentSlashing (nodeId : string)
  | TypeError                      (* a property of undefined *)
  | LockNotAvailable               (* 55P03, NOWAIT *)
  | CheckViolation                 (* CHECK (score ...) *)
  | OutOfRange                     (* beyond INTEGER *)
  | ServerError
  | ConnectionLost.

Abbreviation Stmt := (stmt Db RepError).
Abbreviation Prog := (prog Db RepError).

Definition REWARD_DELTA : Z := 10.
Definition SLASHING_DELTA : Z := 500.
Definition MIN_SCORE : Z := -1000.
Definition MAX_SCORE : Z := 1000.

(** [LEAST(1000, GREATEST(-1000, x))], [Math.min(1000, Math.max(-1000, x))] *)
Definition clamp (x : Z) : Z := Z.min MAX_SCORE (Z.max MIN_SCORE x).

Definition is_int4 (z : Z) : bool := (- 2 ^ 31 <=? z) && (z <? 2 ^ 31).

Section checked.
Context (checked : bool).            (* whether the table has the CHECK on its scores *)

(** The column types and the CHECK constraint. *)
Definition constraints (r : ReputationRecord) : option RepError :=
  if negb (is_int4 (score r) && is_int4 (slash_version r)) then Some OutOfRange
  else if checked && negb ((MIN_SCORE <=? score r) && (score r <=? MAX_SCORE)) then Some CheckViolation
  else None.

(** ** Locks, versions, commits *)

(** The rows a session holds, as it will commit them; the row it sees. *)
Definition own (sid : nat) (db : Db) : gmap string ReputationRecord := owned sid (locks db).
Definition version (sid : nat) (n : string) (db : Db) : option ReputationRecord :=
  visible sid n (locks db) (reputations db).
Definition held_by_other (sid : nat) (n : string) (db : Db) : bool :=
  locked_by_other sid n (locks db).

Definition lockRow (sid : nat) (n : string) (r : ReputationRecord) (db : Db) : Db :=
  mkDb (reputations db) (<[n := (sid, r)]> (locks db)) (wal db).

Definition commit_ (sid : nat) (db : Db) : Db :=
  mkDb (own sid db ∪ reputations db) (unlock sid (locks db))
    (wal db ++ ((fun kv => mkWrite sid kv.1 (reputations db !! kv.1) kv.2)
                 <$> map_to_list (own sid db))).

Definition rollback_ (sid : nat) (db : Db) : Db :=
  mkDb (reputations db) (unlock sid (locks db)) (wal db).

Definition commit : Stmt unit := fun sid db => Some (commit_ sid db, inr tt).
Definition rollback : Stmt unit := fun sid db => Some (rollback_ sid db, inr tt).

(** A statement outside a transaction. *)
Definition autocommit {B} (q : Stmt B) : Stmt B := fun sid db =>
  match q sid db with
  | Some (db', inr b) => Some (commit_ sid db', inr b)
  | Some (db', inl e) => Some (rollback_ sid db', inl e)
  | None => None
  end.

(** ** Statements *)

(** [SELECT ... WHERE node_id = $1] *)
Definition selectRow (n : string) : Stmt (option ReputationRecord) := fun sid db =>
  Some (db, inr (version sid n db)).

(** [SELECT ... FOR UPDATE], with or without NOWAIT *)
Definition selectForUpdate (nowait : bool) (n : string) : Stmt (option ReputationRecord) :=
  fun sid db =>
  match version sid n db with
  | None => Some (db, inr None)
  | Some r =>
      if held_by_other sid n db
      then if nowait then Some (db, inl LockNotAvailable) else None
      else Some (lockRow sid n r db, inr (Some r))
  end.

(** [UPDATE reputations SET f WHERE node_id = n AND cond RETURNING ...] *)
Definition updateRow (n : string) (cond : ReputationRecord -> bool)
    (f : ReputationRecord -> RepError + ReputationRecord) :
    Stmt (option ReputationRecord) := fun sid db =>
  match version sid n db with
  | None => Some (db, inr None)
  | Some r =>
      if negb (cond r) then Some (db, inr None)
      else if held_by_other sid n db then None
      else match f r with
           | inl e => Some (db, inl e)
           | inr r' =>
               match constraints r' with
               | Some e => Some (db, inl e)
               | None => Some (lockRow sid n r' db, inr (Some r'))
               end
           end
  end.

(** A parameter of type INTEGER and a sum of that type. *)
Definition int4_param {B} (z : Z) (q : Stmt B) : Stmt B := fun sid db =>
  if is_int4 z then q sid db else Some (db, inl OutOfRange).
Definition int4_sum (a b : Z) (k : Z -> ReputationRecord) : RepError + ReputationRecord :=
  if is_int4 (a + b) then inr (k (a + b)) else inl OutOfRange.

(** [INSERT ... ON CONFLICT (node_id) DO NOTHING] *)
Definition insertRow (n : string) (initialScore : Z) : Stmt unit := fun sid db =>
  match constraints (mkReputation initialScore 0) with
  | Some e => Some (db, inl e)
  | None =>
      match reputations db !! n with
      | Some _ => Some (db, inr tt)
      | None =>
          if held_by_other sid n db then None    (* another insertion of the key *)
          else Some (lockRow sid n (mkReputation initialScore 0) db, inr tt)
      end
  end.

(** ** [ReputationStore] *)

Definition getReputationScore (n : string) : Prog (option ReputationRecord) :=
  query (selectRow n).

Definition initializeReputation (n : string) (initialScore : Z) : Prog unit :=
  query (autocommit (int4_param initialScore (insertRow n initialScore))).

Definition applyRewardAtomic (n : string) (delta : Z) : Prog Z :=
  await result := autocommit (int4_param delta (updateRow n (fun _ => true) (fun r =>
      int4_sum (score r) delta (fun x => mkReputation (clamp x) (slash_version r))))) in
  match result with
  | None => Raise (NotInTable n)
  | Some r => Return (score r)
  end.

Definition applySlashingAtomic (n : string) (delta : Z) : Prog ReputationRecord :=
  await result := autocommit (int4_param delta (updateRow n (fun _ => true) (fun r =>
      int4_sum (score r) (- delta) (fun x => mkReputation (clamp x) (slash_version r + 1))))) in
  match result with
  | None => Raise (NotInTable n)
  | Some r => Return r
  end.

Definition applyRewardWithLock (n : string) (delta : Z) : Prog Z :=
  await selectResult := selectForUpdate false n in
  match selectResult with
  | None => Raise (NotInTable n)
  | Some row =>
      let newScore := clamp (score row + delta) in
      await updateResult := updateRow n (fun _ => true)
        (fun r => inr (mkReputation newScore (slash_version r))) in
      match updateResult with
      | None => Raise TypeError
      | Some r => Return (score r)
      end
  end.

Definition applySlashingWithLock (n : string) (delta : Z) : Prog ReputationRecord :=
  await selectResult := selectForUpdate true n in
  match selectResult with
  | None => Raise (NotInTable n)
  | Some row =>
      let currentSlashVersion := slash_version row in
      let newScore := clamp (score row - delta) in
      await updateResult := updateRow n (fun _ => true)
        (fun _ => inr (mkReputation newScore (currentSlashVersion + 1))) in
      match updateResult with
      | None => Raise TypeError
      | Some r => Return r
      end
  end.

(** ** [ReputationScoreService] *)

Inductive Result :=
  | Score (r : option ReputationRecord)
  | Initialized
  | RewardResult (previousScore newScore delta : Z)
  | SlashingResult (previousScore newScore delta slashVersion : Z).

Definition getScore (n : string) : Prog Result :=
  then_ (getReputationScore n) (fun record => Return (Score record)).

Definition initializeNode (n : string) (initialScore : Z) : Prog Result :=
  then_ (initializeReputation n initialScore) (fun _ => Return Initialized).

Definition applyReward (n : string) (delta : Z) : Prog Result :=
  then_ (getReputationScore n) (fun before =>
  match before with
  | None => Raise (NotFound n)
  | Some b =>
      then_ (applyRewardAtomic n delta) (fun newScore =>
      Return (RewardResult (score b) newScore delta))
  end).

Definition applySlashing (n : string) (delta : Z) : Prog Result :=
  then_ (getReputationScore n) (fun before =>
  match before with
  | None => Raise (NotFound n)
  | Some b =>
      then_ (applySlashingAtomic n delta) (fun result =>
      Return (SlashingResult (score b) (score result) delta (slash_version result)))
  end).

Definition applyRewardTransactional (n : string) (delta : Z) : Prog Result :=
  transaction commit rollback (
    await beforeResult := selectForUpdate false n in
    match beforeResult with
    | None => Raise (NotFound n)
    | Some b =>
        then_ (applyRewardWithLock n delta) (fun newScore =>
        Return (RewardResult (score b) newScore delta))
    end).

Definition applySlashingTransactional (n : string) (delta : Z) : Prog Result :=
  transaction commit rollback (
    await beforeResult := selectForUpdate true n in
    match beforeResult with
    | None => Raise (NotFound n)
    | Some b =>
        then_ (applySlashingWithLock n delta) (fun result =>
        Return (SlashingResult (score b) (score result) delta (slash_version result)))
    end).

Definition applyRewardWithSlashCheck (n : string) (delta : Z) : Prog Result :=
  transaction commit rollback (
    await beforeResult := selectRow n in
    match beforeResult with
    | None => Raise (NotFound n)
    | Some b =>
        let newScore := clamp (score b + delta) in
        await updateResult := updateRow n
          (fun r => slash_version r =? slash_version b)
          (fun r => inr (mkReputation newScore (slash_version r))) in
        match updateResult with
        | None => Raise (ConcurrentSlashing n)
        | Some _ => Return (RewardResult (score b) newScore delta)
        end
    end).

Inductive Call :=
  | GetReputationScore (n : string)
  | InitializeNode (n : string) (initialScore : Z)
  | ApplyReward (n : string) (delta : Z)
  | ApplySlashing (n : string) (delta : Z)
  | ApplyRewardTransactional (n : string) (delta : Z)
  | ApplySlashingTransactional (n : string) (delta : Z)
  | ApplyRewardWithSlashCheck (n : string) (delta : Z).

Definition body (c : Call) : Prog Result :=
  match c with
  | GetReputationScore n => getScore n
  | InitializeNode n z => initializeNode n z
  | ApplyReward n d => applyReward n d
  | ApplySlashing n d => applySlashing n d
  | ApplyRewardTransactional n d => applyRewardTransactional n d
  | ApplySlashingTransactional n d => applySlashingTransactional n d
  | ApplyRewardWithSlashCheck n d => applyRewardWithSlashCheck n d
  end.

Definition empty_db : Db := mkDb ∅ ∅ [].

(** Any calls, interleaved in any way, on a fresh table. *)
Abbreviation service := (run body ConnectionLost rollback_ empty_db).

(** ** Rows, histories, the invariant *)

(** The committed versions of a row, oldest first, and the last of them. *)
Definition history (n : string) (l : list Write) : list ReputationRecord :=
  after <$> filter (fun w => node w = n) l.
Definition last_version (n : string) (l : list Write) : option ReputationRecord :=
  last (history n l).

Definition writes (sid : nat) (db : Db) : list Write :=
  filter (fun w => by_session w = sid) (wal db).

Definition bounded (r : ReputationRecord) : Prop := MIN_SCORE <= score r <= MAX_SCORE.

(** A change [b] to [a] keeps the score within bounds; without the CHECK a row may be
    inserted with any score, and stays so until it is first changed. *)
Definition valid (b : option ReputationRecord) (r : ReputationRecord) : Prop :=
  slash_version r < 2 ^ 31 /\ (bounded r \/ (checked = false /\ (b = None \/ b = Some r))).

(** Scores may change at will, the version only counts up. *)
Definition grows (b : option ReputationRecord) (a : ReputationRecord) : Prop :=
  match b with
  | None => slash_version a = 0
  | Some r => slash_version a = slash_version r \/ slash_version a = slash_version r + 1
  end.

(** Every write replaces the last committed version of its row. *)
Inductive chained : list Write -> Prop :=
  | chained_nil : chained []
  | chained_snoc l w :
      chained l -> before w = last_version (node w) l -> grows (before w) (after w) ->
      valid (before w) (after w) -> chained (l ++ [w]).

Definition Inv (db : Db) : Prop :=
  chained (wal db) /\
  (forall n, reputations db !! n = last_version n (wal db)) /\
  (forall n lk, locks db !! n = Some lk -> valid (reputations db !! n) lk.2 /\ grows (reputations db !! n) lk.2).

(** What the other sessions leave alone. *)
Record Rely (sid : nat) (db db' : Db) : Prop := {
  rely_own : own sid db' = own sid db;
  rely_locked n : is_Some (own sid db !! n) -> reputations db' !! n = reputations db !! n;
  rely_rows n : is_Some (reputations db !! n) -> is_Some (reputations db' !! n);
  rely_wal : exists ext, wal db' = wal db ++ ext /\ Forall (fun w => by_session w <> sid) ext
}.

Definition idle (sid : nat) (db : Db) : Prop := own sid db = ∅ /\ writes sid db = [].

(** Session [sid] holds the row of [n], found as [r0], to be committed as [r]. *)
Definition holding (sid : nat) (n : string) (r0 r : ReputationRecord) (db : Db) : Prop :=
  own sid db = {[n := r]} /\ reputations db !! n = Some r0 /\ writes sid db = [].

(** *** Basic facts *)

#[local] Arguments own : simpl never.
#[local] Arguments writes : simpl never.

Lemma own_lookup sid db n r : own sid db !! n = Some r <-> locks db !! n = Some (sid, r).
Proof. apply owned_lookup. Qed.

Lemma own_lockRow sid n r db : own sid (lockRow sid n r db) = <[n := r]> (own sid db).
Proof. apply owned_insert. Qed.

Lemma own_lockRow_other o sid n r db :
  o <> sid -> held_by_other sid n db = false -> own o (lockRow sid n r db) = own o db.
Proof. apply owned_insert_other. Qed.

Lemma own_unlock o sid lks rows l :
  own o (mkDb rows (unlock sid lks) l) = if bool_decide (o = sid) then ∅ else own o (mkDb rows lks l).
Proof. apply owned_unlock. Qed.

Lemma history_app n l l' : history n (l ++ l') = history n l ++ history n l'.
Proof. unfold history. by rewrite filter_app, fmap_app. Qed.

Lemma last_version_snoc n l w :
  last_version n (l ++ [w]) = if bool_decide (node w = n) then Some (after w) else last_version n l.
Proof.
  unfold last_version. rewrite history_app. unfold history at 2. rewrite filter_cons.
  case_bool_decide as Hn.
  - rewrite decide_True by done. cbn. by rewrite last_snoc.
  - rewrite decide_False by done. cbn. by rewrite app_nil_r.
Qed.

Lemma writes_app sid rows lks l l' :
  writes sid (mkDb rows lks (l ++ l')) = writes sid (mkDb rows lks l) ++ writes sid (mkDb rows lks l').
Proof. unfold writes. cbn. apply filter_app. Qed.

Lemma filter_foreign sid (ext : list Write) :
  Forall (fun w => by_session w <> sid) ext -> filter (fun w => by_session w = sid) ext = [].
Proof. induction 1; [done|]. by rewrite filter_cons, decide_False. Qed.

Lemma rely_writes sid db db' : Rely sid db db' -> writes sid db' = writes sid db.
Proof.
  intros [_ _ _ (ext & E & HF)]. unfold writes. rewrite E, filter_app.
  by rewrite (filter_foreign _ _ HF), app_nil_r.
Qed.

Lemma idle_stable sid db db' : Rely sid db db' -> idle sid db -> idle sid db'.
Proof. intros HR [Ho Hw]. split; [by rewrite (rely_own _ _ _ HR)|by rewrite (rely_writes _ _ _ HR)]. Qed.

Lemma holding_stable sid n r0 r db db' :
  Rely sid db db' -> holding sid n r0 r db -> holding sid n r0 r db'.
Proof.
  intros HR (Ho & Hr & Hw). split_and!.
  - by rewrite (rely_own _ _ _ HR).
  - rewrite (rely_locked _ _ _ HR); [done|]. rewrite Ho. by rewrite lookup_singleton_eq.
  - by rewrite (rely_writes _ _ _ HR).
Qed.

Lemma Rely_refl sid db : Rely sid db db.
Proof. split; [done..|]. exists []. by rewrite app_nil_r. Qed.

Lemma Rely_trans sid db1 db2 db3 : Rely sid db1 db2 -> Rely sid db2 db3 -> Rely sid db1 db3.
Proof.
  intros [Ho1 Hl1 Hr1 (e1 & E1 & F1)] [Ho2 Hl2 Hr2 (e2 & E2 & F2)]. split.
  - congruence.
  - intros n Hn. rewrite Hl2, Hl1; [done..|]. by rewrite Ho1.
  - auto.
  - exists (e1 ++ e2). rewrite E2, E1, <- app_assoc. split; [done|]. by apply Forall_app.
Qed.

Abbreviation Guar := (guar Rely).

Lemma Guar_refl sid db : Guar sid db db.
Proof. intros o _. apply Rely_refl. Qed.

(** *** Lock, commit and roll back *)

Lemma lockRow_spec sid n r db :
  Inv db -> held_by_other sid n db = false -> valid (reputations db !! n) r -> grows (reputations db !! n) r ->
  Inv (lockRow sid n r db) /\ Guar sid db (lockRow sid n r db).
Proof.
  intros (Hc & Hr & Hl) Hh Hv Hg. split.
  - split_and!; cbn; [done..|]. intros m lk. rewrite lookup_insert_Some.
    intros [[-> <-]|[_ Hm]]; [done|by apply Hl].
  - intros o Ho. split; cbn; [by apply own_lockRow_other|done..|].
    exists []. by rewrite app_nil_r.
Qed.

Lemma rollback_spec sid db :
  Inv db -> Inv (rollback_ sid db) /\ Guar sid db (rollback_ sid db) /\
  writes sid (rollback_ sid db) = writes sid db /\ own sid (rollback_ sid db) = ∅.
Proof.
  intros (Hc & Hr & Hl). unfold rollback_. split_and!; [split_and!|..]; cbn.
  - done.
  - done.
  - intros n lk. unfold unlock. rewrite map_lookup_filter_Some. intros [Hn _]. by apply Hl.
  - intros o Ho. split; cbn; [|done..|].
    + by rewrite own_unlock, bool_decide_false.
    + exists []. by rewrite app_nil_r.
  - done.
  - by rewrite own_unlock, bool_decide_true.
Qed.

Lemma commit_nothing sid db : own sid db = ∅ -> commit_ sid db = rollback_ sid db.
Proof.
  intros Ho. unfold commit_, rollback_. rewrite Ho, map_to_list_empty, (left_id_L ∅ (∪)).
  cbn. by rewrite app_nil_r.
Qed.

Lemma commit_wal sid n r db :
  own sid db = {[n := r]} ->
  wal (commit_ sid db) = wal db ++ [mkWrite sid n (reputations db !! n) r].
Proof. intros Ho. unfold commit_. by rewrite Ho, map_to_list_singleton. Qed.

Lemma commit_lookup sid n r db m :
  own sid db = {[n := r]} ->
  reputations (commit_ sid db) !! m = if decide (n = m) then Some r else reputations db !! m.
Proof. apply committed_lookup. Qed.

Lemma commit_spec sid n r db :
  Inv db -> own sid db = {[n := r]} ->
  Inv (commit_ sid db) /\ Guar sid db (commit_ sid db) /\ own sid (commit_ sid db) = ∅.
Proof.
  intros (Hc & Hr & Hl) Ho.
  assert (Hn : locks db !! n = Some (sid, r)).
  { apply own_lookup. rewrite Ho. by rewrite lookup_singleton_eq. }
  destruct (Hl _ _ Hn) as [Hv Hg]. cbn in Hv, Hg.
  split_and!; [split_and!|..].
  - rewrite (commit_wal _ _ _ _ Ho). apply chained_snoc; cbn; [done| |done..]. apply Hr.
  - intros m. rewrite (commit_lookup _ _ _ _ _ Ho), (commit_wal _ _ _ _ Ho), last_version_snoc.
    cbn. case_decide as Hm; [by rewrite bool_decide_true|by rewrite bool_decide_false, Hr].
  - intros m lk Hm. unfold commit_, unlock in Hm. cbn in Hm.
    apply map_lookup_filter_Some in Hm as [Hm Hs]. cbn in Hs.
    rewrite (commit_lookup _ _ _ _ _ Ho). case_decide as Hd; [|by apply Hl].
    subst m. naive_solver.
  - intros o Hne. split.
    + unfold commit_. by rewrite own_unlock, bool_decide_false.
    + intros m [x Hx%own_lookup]. rewrite (commit_lookup _ _ _ _ _ Ho), decide_False; [done|].
      intros <-. naive_solver.
    + intros m Hm. rewrite (commit_lookup _ _ _ _ _ Ho). by case_decide.
    + exists [mkWrite sid n (reputations db !! n) r]. split; [by apply commit_wal|].
      apply Forall_singleton. cbn. congruence.
  - unfold commit_. by rewrite own_unlock, bool_decide_true.
Qed.

(** A row that meets the constraints, if it is new or its score was computed by [clamp]. *)
Lemma constraints_valid b r :
  constraints r = None -> b = None \/ bounded r -> valid b r.
Proof.
  unfold constraints, valid, bounded, is_int4. intros H Hb.
  repeat case_match; [done..|]. bool_props. split; [lia|]. destruct checked, Hb; bool_props; auto; left; lia.
Qed.

Lemma clamp_bounds x : MIN_SCORE <= clamp x <= MAX_SCORE.
Proof. unfold clamp, MIN_SCORE, MAX_SCORE. lia. Qed.

(** ** What a call is to do *)

Definition target (c : Call) : string :=
  match c with
  | GetReputationScore n | InitializeNode n _ | ApplyReward n _ | ApplySlashing n _
  | ApplyRewardTransactional n _ | ApplySlashingTransactional n _
  | ApplyRewardWithSlashCheck n _ => n
  end.

(** The write of call [c] after the writes [l1]: rewards and slashings act on the
    row they replace; a checked reward acts on a row it read earlier, when the
    version was the same. *)
Definition effect (c : Call) (l1 : list Write) (w : Write) : Prop :=
  match c with
  | GetReputationScore _ => False
  | InitializeNode _ z => before w = None /\ after w = mkReputation z 0
  | ApplyReward _ d | ApplyRewardTransactional _ d =>
      exists r, before w = Some r /\
        after w = mkReputation (clamp (score r + d)) (slash_version r)
  | ApplySlashing _ d | ApplySlashingTransactional _ d =>
      exists r, before w = Some r /\
        after w = mkReputation (clamp (score r - d)) (slash_version r + 1)
  | ApplyRewardWithSlashCheck n d =>
      exists r r0 la lb, before w = Some r /\ l1 = la ++ lb /\ last_version n la = Some r0 /\
        slash_version r0 = slash_version r /\
        after w = mkReputation (clamp (score r0 + d)) (slash_version r)
  end.

(** The answer to the caller: the new score and version are those written; the
    previous score is that of the replaced row for the locking variants. *)
Definition reported (c : Call) (res : Result) (w : Write) : Prop :=
  match c, res with
  | InitializeNode _ _, Initialized => True
  | ApplyReward _ d, RewardResult _ newScore delta
  | ApplyRewardWithSlashCheck _ d, RewardResult _ newScore delta =>
      newScore = score (after w) /\ delta = d
  | ApplySlashing _ d, SlashingResult _ newScore delta v =>
      newScore = score (after w) /\ v = slash_version (after w) /\ delta = d
  | ApplyRewardTransactional _ d, RewardResult previous newScore delta =>
      Some previous = score <$> before w /\ newScore = score (after w) /\ delta = d
  | ApplySlashingTransactional _ d, SlashingResult previous newScore delta v =>
      Some previous = score <$> before w /\ newScore = score (after w) /\
      v = slash_version (after w) /\ delta = d
  | _, _ => False
  end.

(** Session [sid] has committed one write, that of [c]. *)
Definition committed (sid : nat) (c : Call) (P : Write -> Prop) (db : Db) : Prop :=
  exists l1 w l2, wal db = l1 ++ w :: l2 /\ writes sid db = [w] /\ node w = target c /\
    effect c l1 w /\ P w.

Definition Post (sid : nat) (c : Call) (r : RepError + Result) (db : Db) : Prop :=
  match r with
  | inl e => writes sid db = [] \/ (e = ConnectionLost /\ committed sid c (fun _ => True) db)
  | inr res =>
      committed sid c (reported c res) db \/
      (writes sid db = [] /\
       match c, res with
       | GetReputationScore _, Score _ => True
       | InitializeNode n _, Initialized => is_Some (reputations db !! n)
       | _, _ => False
       end)
  end.

Lemma committed_stable sid c P db db' :
  Rely sid db db' -> committed sid c P db -> committed sid c P db'.
Proof.
  intros HR (l1 & w & l2 & E & Hw & Hrest). pose proof (rely_writes _ _ _ HR) as HW.
  destruct (rely_wal _ _ _ HR) as (ext & E' & _).
  exists l1, w, (l2 ++ ext). split_and!; [|congruence|apply Hrest..].
  by rewrite E', E, <- app_assoc.
Qed.

Lemma Post_stable sid c r db db' : Rely sid db db' -> Post sid c r db -> Post sid c r db'.
Proof.
  intros HR. pose proof (rely_writes _ _ _ HR) as HW. destruct r as [e|res]; cbn.
  - rewrite HW. intros [?|[? ?]]; [by left|right]. split; [done|]. by eapply committed_stable.
  - rewrite HW. intros [?|[? Hres]]; [left; by eapply committed_stable|right].
    split; [done|]. destruct c, res; try done. by apply (rely_rows _ _ _ HR).
Qed.

(** The write a commit appends. *)
Lemma commit_committed sid c n r0 r db (P : Write -> Prop) :
  own sid db = {[n := r]} -> writes sid db = [] -> n = target c ->
  reputations db !! n = r0 ->
  effect c (wal db) (mkWrite sid n r0 r) -> P (mkWrite sid n r0 r) ->
  committed sid c P (commit_ sid db).
Proof.
  intros Ho Hw Hn Hr He HP. exists (wal db), (mkWrite sid n r0 r), [].
  rewrite (commit_wal _ _ _ _ Ho), Hr. split_and!; [done| |done..].
  unfold writes in *. rewrite (commit_wal _ _ _ _ Ho), filter_app, Hw, Hr.
  rewrite filter_cons, decide_True by done. by rewrite filter_nil.
Qed.

(** ** Each statement verified once *)

Abbreviation Safe := (safe ConnectionLost rollback_ Inv Rely).

Definition quiet (sid : nat) (db : Db) : Prop := writes sid db = [].

Lemma idle_quiet sid db : idle sid db -> quiet sid db.
Proof. by intros [_ Hw]. Qed.
Lemma holding_quiet sid n r0 r db : holding sid n r0 r db -> quiet sid db.
Proof. by intros (_ & _ & Hw). Qed.
#[local] Hint Resolve idle_quiet holding_quiet : rep.

(** At most the write of [c]: what a lost connection leaves. *)
Definition unknown (sid : nat) (c : Call) (db : Db) : Prop :=
  quiet sid db \/ committed sid c (fun _ => True) db.

(** A postcondition whose failures leave nothing written. *)
Abbreviation upto sid := (upto (quiet sid)).

Lemma score_statement_safe {B} sid c (q : Stmt B) (K : B -> Db -> Prop) db :
  (forall db1, Rely sid db db1 -> Inv db1 -> quiet sid db1 /\
     forall db2 r, q sid db1 = Some (db2, r) ->
       Inv db2 /\ Guar sid db1 db2 /\ upto sid K r db2 /\ unknown sid c db2) ->
  Safe sid (unknown sid c) (upto sid K) (query q) db.
Proof. apply statement_safe; [by left|done]. Qed.

Lemma idle_version sid n db : idle sid db -> version sid n db = reputations db !! n.
Proof. intros [Ho _]. by apply visible_unowned. Qed.

Lemma holding_version sid n r0 r db : holding sid n r0 r db -> version sid n db = Some r.
Proof. intros [Ho _]. by apply visible_owned. Qed.

Lemma holding_not_other sid n r0 r db : holding sid n r0 r db -> held_by_other sid n db = false.
Proof. intros [Ho _]. by eapply owned_not_other. Qed.

Lemma row_valid n r db : Inv db -> reputations db !! n = Some r -> valid (Some r) r.
Proof.
  intros (Hc & Hr & _). rewrite Hr. generalize (wal db) Hc. clear.
  induction 1 as [|l w Hl IH Hb Hg [Hv Hs]]; [done|]. rewrite last_version_snoc.
  case_bool_decide; [|done]. intros [= <-]. split; [done|]. naive_solver.
Qed.

Lemma lock_holding sid n r0 r db :
  own sid db = ∅ \/ (exists x, own sid db = {[n := x]}) ->
  reputations db !! n = Some r0 -> quiet sid db ->
  holding sid n r0 r (lockRow sid n r db).
Proof.
  intros Ho Hr Hw. split_and!; [|done|done]. rewrite own_lockRow.
  destruct Ho as [->|[x ->]]; [apply insert_empty|apply insert_singleton_eq].
Qed.

(** What session [sid] knows of the rows it has read without a lock. *)
Definition seen (n : string) (r : option ReputationRecord) (db : Db) : Prop :=
  exists la lb, wal db = la ++ lb /\ last_version n la = r.

Lemma seen_stable sid n r db db' : Rely sid db db' -> seen n r db -> seen n r db'.
Proof.
  intros HR (la & lb & E & Hl). destruct (rely_wal _ _ _ HR) as (ext & E' & _).
  exists la, (lb ++ ext). by rewrite E', E, <- app_assoc.
Qed.

Lemma seen_prefix n r db db' : wal db `prefix_of` wal db' -> seen n r db -> seen n r db'.
Proof.
  intros [ext E] (la & lb & E' & Hl). exists la, (lb ++ ext). by rewrite E, E', <- app_assoc.
Qed.

Lemma select_safe sid c n db :
  idle sid db ->
  Safe sid (unknown sid c) (upto sid (fun r db' => idle sid db' /\ seen n r db')) (query (selectRow n)) db.
Proof.
  intros Hi. apply score_statement_safe. intros db1 HR HI.
  pose proof (idle_stable _ _ _ HR Hi) as Hi1. split; [auto with rep|].
  intros db2 r [= <- <-]. split_and!; [done|apply Guar_refl| |left; auto with rep].
  cbn. split; [done|]. exists (wal db1), []. rewrite app_nil_r. split; [done|].
  rewrite idle_version by done. symmetry. apply HI.
Qed.

Lemma forUpdate_safe nowait sid c n db :
  idle sid db ->
  Safe sid (unknown sid c) (upto sid (fun r db' => match r with
                                   | None => quiet sid db'
                                   | Some r => holding sid n r r db'
                                   end)) (query (selectForUpdate nowait n)) db.
Proof.
  intros Hi. apply score_statement_safe. intros db1 HR HI.
  pose proof (idle_stable _ _ _ HR Hi) as Hi1. pose proof (idle_quiet _ _ Hi1) as Hq.
  split; [done|]. intros db2 r. unfold selectForUpdate. rewrite idle_version by done.
  destruct (reputations db1 !! n) as [r0|] eqn:Hr.
  2:{ intros [= <- <-]. split_and!; [done|apply Guar_refl|done|by left]. }
  destruct (held_by_other sid n db1) eqn:Hh.
  { destruct nowait; [|done]. intros [= <- <-]. split_and!; [done|apply Guar_refl|done|by left]. }
  intros [= <- <-]. destruct (lockRow_spec sid n r0 db1) as [HI' HG]; [done..| | |].
  { rewrite Hr. by eapply row_valid. }
  { rewrite Hr. by left. }
  split_and!; [done..| |by left]. cbn. apply lock_holding; [left; apply Hi1|done|done].
Qed.

Lemma forUpdate_again_safe nowait sid c n r db :
  holding sid n r r db ->
  Safe sid (unknown sid c) (upto sid (fun x db' => x = Some r /\ holding sid n r r db'))
    (query (selectForUpdate nowait n)) db.
Proof.
  intros Hh. apply score_statement_safe. intros db1 HR HI.
  pose proof (holding_stable _ _ _ _ _ _ HR Hh) as Hh1. pose proof (holding_quiet _ _ _ _ _ Hh1) as Hq.
  split; [done|]. intros db2 x. unfold selectForUpdate.
  rewrite (holding_version _ _ _ _ _ Hh1), (holding_not_other _ _ _ _ _ Hh1). intros [= <- <-].
  destruct Hh1 as (Ho & Hr & _).
  destruct (lockRow_spec sid n r db1) as [HI' HG]; [done|by eapply holding_not_other| | |].
  { rewrite Hr. by eapply row_valid. }
  { rewrite Hr. by left. }
  split_and!; [done..| |by left]. split; [done|]. apply lock_holding; eauto.
Qed.

(** One UPDATE, on a row that is free or held. *)
Lemma updateRow_step sid n cond f db db2 x :
  Inv db -> idle sid db \/ (exists r, holding sid n r r db) ->
  (forall r r', reputations db !! n = Some r -> f r = inr r' -> grows (Some r) r' /\ bounded r') ->
  updateRow n cond f sid db = Some (db2, x) ->
  Inv db2 /\ Guar sid db db2 /\ quiet sid db2 /\ wal db2 = wal db /\
  match x with
  | inr (Some r') => exists r, reputations db !! n = Some r /\ cond r = true /\ f r = inr r' /\
                               holding sid n r r' db2
  | inr None => db2 = db /\ forall r, holding sid n r r db -> cond r = false
  | inl _ => db2 = db
  end.
Proof.
  intros HI Hs Hf. unfold updateRow.
  assert (Hq : quiet sid db) by (destruct Hs as [?|[? ?]]; eauto with rep).
  assert (Hv : version sid n db = reputations db !! n).
  { destruct Hs as [Hi|[r Hh]]; [by apply idle_version|].
    rewrite (holding_version _ _ _ _ _ Hh). symmetry. apply Hh. }
  rewrite Hv. destruct (reputations db !! n) as [r|] eqn:Hr.
  2:{ intros [= <- <-]. split_and!; [done|apply Guar_refl|done|done|done|].
      intros r (_ & Hr' & _). congruence. }
  destruct (cond r) eqn:Hc; cbn.
  2:{ intros [= <- <-]. split_and!; [done|apply Guar_refl|done|done|done|].
      intros r' (_ & Hr' & _). congruence. }
  destruct (held_by_other sid n db) eqn:Hh; [done|].
  destruct (f r) as [e|r'] eqn:Hfr.
  { intros [= <- <-]. split_and!; [done|apply Guar_refl|done|done|done]. }
  destruct (constraints r') as [e|] eqn:Hcr.
  { intros [= <- <-]. split_and!; [done|apply Guar_refl|done|done|done]. }
  intros [= <- <-]. destruct (lockRow_spec sid n r' db) as [HI' HG]; [done..| | |].
  { apply constraints_valid; [done|right]. by eapply Hf. }
  { rewrite Hr. by apply Hf. }
  split_and!; [done..|]. exists r. split_and!; [done..|].
  apply lock_holding; [|done|done]. destruct Hs as [Hi|[y Hy]]; [left; apply Hi|right].
  exists y. apply Hy.
Qed.

(** An UPDATE inside a transaction, of a free row or of the row it has locked. *)
Lemma update_safe sid c n cond f (K : ReputationRecord -> Prop) db :
  (idle sid db /\ forall r, K r) \/ (exists r, holding sid n r r db /\ K r) ->
  (forall r r', K r -> f r = inr r' -> grows (Some r) r' /\ bounded r') ->
  Safe sid (unknown sid c) (upto sid (fun x db' => match x with
      | None => quiet sid db'
      | Some r' => wal db `prefix_of` wal db' /\
          exists r, K r /\ cond r = true /\ f r = inr r' /\ holding sid n r r' db'
      end)) (query (updateRow n cond f)) db.
Proof.
  intros Hs Hf. apply score_statement_safe. intros db1 HR HI.
  assert (Hs1 : idle sid db1 \/ exists r, holding sid n r r db1).
  { destruct Hs as [[Hi _]|(r & Hh & _)]; [left; by eapply idle_stable|right].
    exists r. by eapply holding_stable. }
  assert (HK : forall r, reputations db1 !! n = Some r -> K r).
  { destruct Hs as [[_ HK]|(y & Hh & Hy)]; [done|]. intros r Hr.
    destruct (holding_stable _ _ _ _ _ _ HR Hh) as (_ & Hr' & _). congruence. }
  split; [destruct Hs1 as [?|[? ?]]; eauto with rep|].
  intros db2 x Hx.
  destruct (updateRow_step sid n cond f db1 db2 x) as (HI2 & HG & Hq & Hwal & Hres); [done..| |done|].
  { intros r r' Hr. auto. }
  split_and!; [done..| |by left]. destruct x as [e|[r'|]]; [done| |done].
  destruct Hres as (r & Hr & Hc & Hfr & Hh). cbn. split; [|by eauto 10].
  destruct (rely_wal _ _ _ HR) as (ext & E & _). exists ext. congruence.
Qed.

Lemma committed_mono sid c (P P' : Write -> Prop) db :
  (forall w, P w -> P' w) -> committed sid c P db -> committed sid c P' db.
Proof. intros HP (l1 & w & l2 & ? & ? & ? & ? & ?). exists l1, w, l2. auto 10. Qed.

(** A one-statement transaction that updates the row. *)
Lemma autocommit_update_safe sid c (n := target c) delta f db :
  idle sid db ->
  (forall r r', f r = inr r' -> grows (Some r) r' /\ bounded r') ->
  (forall l r r', f r = inr r' -> effect c l (mkWrite sid n (Some r) r')) ->
  Safe sid (unknown sid c) (upto sid (fun x db' => match x with
      | None => quiet sid db'
      | Some r' => committed sid c (fun w => after w = r') db'
      end)) (query (autocommit (int4_param delta (updateRow n (fun _ => true) f)))) db.
Proof.
  intros Hi Hf He. apply score_statement_safe. intros db1 HR HI.
  pose proof (idle_stable _ _ _ HR Hi) as Hi1. pose proof (idle_quiet _ _ Hi1) as Hq1.
  split; [done|]. intros db2 x. unfold autocommit, int4_param.
  destruct (rollback_spec sid db1 HI) as (HIr & HGr & _).
  destruct (is_int4 delta).
  2:{ intros [= <- <-]. split_and!; [done..|by left]. }
  destruct (updateRow n (fun _ => true) f sid db1) as [[db' y]|] eqn:Hu; [|done].
  destruct (updateRow_step sid n _ f db1 db' y HI (or_introl Hi1) (fun r r' _ => Hf r r') Hu) as (HI2 & HG & Hq & _ & Hres).
  destruct y as [e|[r'|]]; intros [= <- <-].
  - subst db'. split_and!; [done..|by left].
  - destruct Hres as (r & Hr & _ & Hfr & (Ho & Hr' & Hw)).
    destruct (commit_spec sid n r' db' HI2 Ho) as (HIc & HGc & _).
    assert (Hcm : committed sid c (fun w => after w = r') (commit_ sid db')).
    { eapply commit_committed; eauto. }
    split_and!; [done| |done|right; by eapply committed_mono].
    intros o Hne. eapply Rely_trans; [by apply HG|by apply HGc].
  - destruct Hres as [-> _]. rewrite commit_nothing by apply Hi1. split_and!; [done..|by left].
Qed.

(** ** [Database.transaction] verified once

    [prepared]: the transaction is about to commit the write of [c]. *)
Definition prepared (sid : nat) (c : Call) (res : Result) (db : Db) : Prop :=
  exists r0 r, holding sid (target c) r0 r db /\
    effect c (wal db) (mkWrite sid (target c) (Some r0) r) /\
    reported c res (mkWrite sid (target c) (Some r0) r).

Lemma effect_app c l ext w : effect c l w -> effect c (l ++ ext) w.
Proof.
  destruct c; cbn; try done. intros (r & r0 & la & lb & Hb & -> & Hl & Hv & Ha).
  exists r, r0, la, (lb ++ ext). by rewrite <- app_assoc.
Qed.

Lemma prepared_stable sid c res db db' :
  Rely sid db db' -> prepared sid c res db -> prepared sid c res db'.
Proof.
  intros HR (r0 & r & Hh & He & Hrep). exists r0, r. split_and!; [by eapply holding_stable| |done].
  destruct (rely_wal _ _ _ HR) as (ext & -> & _). by apply effect_app.
Qed.

Lemma commit_safe sid c res db :
  prepared sid c res db ->
  Safe sid (unknown sid c) (upto sid (fun _ => committed sid c (reported c res)))
    (query commit) db.
Proof.
  intros Hp. apply score_statement_safe. intros db1 HR HI.
  destruct (prepared_stable _ _ _ _ _ HR Hp) as (r0 & r & (Ho & Hr & Hw) & He & Hrep).
  split; [done|]. intros db2 x [= <- <-].
  destruct (commit_spec sid _ r db1 HI Ho) as (HIc & HGc & _).
  assert (Hcm : committed sid c (reported c res) (commit_ sid db1))
    by (eapply commit_committed; eauto).
  split_and!; [done..|]. right. by eapply committed_mono.
Qed.

Lemma noop_safe sid c db :
  idle sid db ->
  Safe sid (unknown sid c) (upto sid (fun _ => idle sid)) (query noop) db.
Proof.
  intros Hi. apply score_statement_safe. intros db1 HR HI.
  pose proof (idle_stable _ _ _ HR Hi) as Hi1. split; [auto with rep|].
  intros db2 r [= <- <-]. split_and!; [done|apply Guar_refl|done|left; auto with rep].
Qed.

Lemma rollback_safe sid c db :
  quiet sid db ->
  Safe sid (unknown sid c) (upto sid (fun _ => quiet sid)) (query rollback) db.
Proof.
  intros Hq. apply score_statement_safe. intros db1 HR HI.
  assert (Hq1 : quiet sid db1) by (unfold quiet; by rewrite (rely_writes _ _ _ HR)).
  split; [done|]. intros db2 r [= <- <-].
  destruct (rollback_spec sid db1 HI) as (? & ? & _). split_and!; [done..|by left].
Qed.

Lemma transaction_safe sid c fn db :
  idle sid db ->
  (forall db', idle sid db' -> Safe sid (unknown sid c) (upto sid (prepared sid c)) fn db') ->
  Safe sid (unknown sid c) (upto sid (fun res => committed sid c (reported c res)))
    (transaction commit rollback fn) db.
Proof.
  intros Hi Hfn. unfold transaction.
  eapply safe_then; [by apply noop_safe| |done]. intros ? db1 Hi1.
  apply safe_try with (Q1 := upto sid (fun res => committed sid c (reported c res))); [|done| |done].
  - eapply safe_then; [by apply noop_safe| |done]. intros ? db2 Hi2.
    eapply safe_then; [by apply Hfn| |done]. intros res db3 Hp.
    eapply safe_then; [by apply commit_safe| |done]. by intros ? db4 Hc.
  - intros e db2 He. eapply safe_then; [by apply rollback_safe| |done]. by intros ? db3 Hq.
Qed.

(** ** The methods *)

Abbreviation Settles := (settles ConnectionLost rollback_ Inv Rely Post).

Lemma settles_intro sid c K p db :
  Safe sid (unknown sid c) (upto sid K) p db ->
  (forall res db', K res db' -> Post sid c (inr res) db') ->
  Settles sid c p db.
Proof.
  intros Hp HK. apply safe_settles. eapply safe_mono; [| |exact Hp].
  - intros [e|res] db' H; [by left|by apply HK].
  - intros db' [?|?]; [by left|by right].
Qed.

Lemma insert_safe sid n z db :
  idle sid db ->
  Safe sid (unknown sid (InitializeNode n z))
    (upto sid (fun _ => Post sid (InitializeNode n z) (inr Initialized)))
    (initializeReputation n z) db.
Proof.
  intros Hi. apply score_statement_safe. intros db1 HR HI.
  pose proof (idle_stable _ _ _ HR Hi) as Hi1. pose proof (idle_quiet _ _ Hi1) as Hq1.
  split; [done|]. intros db2 x. unfold autocommit, int4_param, insertRow.
  destruct (rollback_spec sid db1 HI) as (HIr & HGr & _).
  destruct (is_int4 z); [|intros [= <- <-]; split_and!; [done..|by left]].
  destruct (constraints _) eqn:Hc; [intros [= <- <-]; split_and!; [done..|by left]|].
  destruct (reputations db1 !! n) as [r|] eqn:Hr.
  - intros [= <- <-]. rewrite commit_nothing by apply Hi1. split_and!; [done..| |by left].
    right. split; [done|]. cbn. by rewrite Hr.
  - destruct (held_by_other sid n db1) eqn:Hh; [done|]. intros [= <- <-].
    destruct (lockRow_spec sid n (mkReputation z 0) db1) as [HI' HG];
      [done|done|rewrite Hr; by apply constraints_valid; [|left]|by rewrite Hr|].
    assert (Ho : own sid (lockRow sid n (mkReputation z 0) db1) = {[n := mkReputation z 0]}).
    { rewrite own_lockRow, (proj1 Hi1). apply insert_empty. }
    destruct (commit_spec sid n _ _ HI' Ho) as (HIc & HGc & _).
    assert (Hcm : committed sid (InitializeNode n z) (fun _ => True)
                    (commit_ sid (lockRow sid n (mkReputation z 0) db1)))
      by (eapply commit_committed; eauto; done).
    split_and!; [done| |by left|by right].
    intros o Hne. eapply Rely_trans; [by apply HG|by apply HGc].
Qed.

Lemma applyRewardWithLock_safe sid c n r delta db :
  holding sid n r r db ->
  Safe sid (unknown sid c) (upto sid (fun newScore db' =>
      exists r', newScore = score r' /\ holding sid n r r' db' /\
        r' = mkReputation (clamp (score r + delta)) (slash_version r)))
    (applyRewardWithLock n delta) db.
Proof.
  intros Hh. unfold applyRewardWithLock.
  eapply safe_then; [by apply forUpdate_again_safe| |done]. intros ? db1 [-> Hh1]. cbn in Hh1.
  eapply safe_then; [apply (update_safe sid c n _ _ (fun y => y = r)); [by eauto|]| |done].
  { intros x x' _ [= <-]. split; [by left|apply clamp_bounds]. }
  intros [r'|] db2; cbn; [|done]. intros (_ & x & -> & _ & [= <-] & Hh2). eauto.
Qed.

Lemma applySlashingWithLock_safe sid c n r delta db :
  holding sid n r r db ->
  Safe sid (unknown sid c) (upto sid (fun r' db' => holding sid n r r' db' /\
        r' = mkReputation (clamp (score r - delta)) (slash_version r + 1)))
    (applySlashingWithLock n delta) db.
Proof.
  intros Hh. unfold applySlashingWithLock.
  eapply safe_then; [by apply forUpdate_again_safe| |done]. intros ? db1 [-> Hh1]. cbn in Hh1.
  eapply safe_then; [apply (update_safe sid c n _ _ (fun y => y = r)); [by eauto|]| |done].
  { intros x x' -> [= <-]. split; [by right|apply clamp_bounds]. }
  intros [r'|] db2; cbn; [|done]. intros (_ & x & -> & _ & [= <-] & Hh2). eauto.
Qed.

Lemma getScore_settles sid n db : idle sid db -> Settles sid (GetReputationScore n) (getScore n) db.
Proof.
  intros Hi. apply (settles_intro _ _ (fun res db' => quiet sid db' /\ exists r, res = Score r)).
  - eapply safe_then; [by apply select_safe| |done]. intros r db1 [Hi1 _]. cbn. eauto with rep.
  - intros res db' [Hq [r ->]]. by right.
Qed.

Lemma initializeNode_settles sid n z db :
  idle sid db -> Settles sid (InitializeNode n z) (initializeNode n z) db.
Proof.
  intros Hi. apply (settles_intro _ _ (fun res db' =>
    res = Initialized /\ Post sid (InitializeNode n z) (inr Initialized) db')).
  - eapply safe_then; [by apply insert_safe| |done]. by intros ? db1 H.
  - by intros res db' [-> H].
Qed.

Lemma applyReward_settles sid n d db :
  idle sid db -> Settles sid (ApplyReward n d) (applyReward n d) db.
Proof.
  intros Hi. apply (settles_intro _ _ (fun res => committed sid (ApplyReward n d)
                                                  (reported (ApplyReward n d) res))); [|by left].
  eapply safe_then; [by apply select_safe| |done]. intros [b|] db1 [Hi1 _]; [|by apply idle_quiet].
  apply safe_then with (Q1 := upto sid (fun x => committed sid (ApplyReward n d)
                                              (fun w => x = score (after w)))); [| |done].
  - eapply safe_then; [apply (autocommit_update_safe sid (ApplyReward n d)); [done|..]| |done].
    + unfold int4_sum. intros r r' H. case_match; simplify_eq. split; [by left|apply clamp_bounds].
    + unfold int4_sum. intros l r r' H. case_match; simplify_eq. cbn. eauto.
    + intros [r'|] db2; cbn; [|done]. apply committed_mono. congruence.
  - intros x db2. cbn. apply committed_mono. by intros w ->.
Qed.

Lemma applySlashing_settles sid n d db :
  idle sid db -> Settles sid (ApplySlashing n d) (applySlashing n d) db.
Proof.
  intros Hi. apply (settles_intro _ _ (fun res => committed sid (ApplySlashing n d)
                                                  (reported (ApplySlashing n d) res))); [|by left].
  eapply safe_then; [by apply select_safe| |done]. intros [b|] db1 [Hi1 _]; [|by apply idle_quiet].
  apply safe_then with (Q1 := upto sid (fun x => committed sid (ApplySlashing n d)
                                              (fun w => after w = x))); [| |done].
  - eapply safe_then; [apply (autocommit_update_safe sid (ApplySlashing n d)); [done|..]| |done].
    + unfold int4_sum. intros r r' H. case_match; simplify_eq. split; [by right|apply clamp_bounds].
    + unfold int4_sum. intros l r r' H. case_match; simplify_eq. cbn. exists r. eauto.
    + by intros [r'|] db2; cbn.
  - intros x db2. cbn. apply committed_mono. by intros w <-.
Qed.

(** The transactional variants: only what the transaction prepares differs. *)
Lemma transaction_settles sid c fn db :
  idle sid db ->
  (forall db', idle sid db' -> Safe sid (unknown sid c) (upto sid (prepared sid c)) fn db') ->
  Settles sid c (transaction commit rollback fn) db.
Proof.
  intros Hi Hfn. eapply settles_intro; [by apply transaction_safe|]. by left.
Qed.

Lemma applyRewardTransactional_settles sid n d db :
  idle sid db -> Settles sid (ApplyRewardTransactional n d) (applyRewardTransactional n d) db.
Proof.
  intros Hi. apply transaction_settles; [done|]. intros db1 Hi1.
  eapply safe_then; [by apply forUpdate_safe| |done]. intros [b|] db2 Hh; [|done]. cbn in Hh.
  eapply safe_then; [by apply applyRewardWithLock_safe| |done].
  intros x db3 (r' & -> & Hh3 & ->). exists b. eexists. split_and!; [done|by exists b|done..].
Qed.

Lemma applySlashingTransactional_settles sid n d db :
  idle sid db -> Settles sid (ApplySlashingTransactional n d) (applySlashingTransactional n d) db.
Proof.
  intros Hi. apply transaction_settles; [done|]. intros db1 Hi1.
  eapply safe_then; [by apply forUpdate_safe| |done]. intros [b|] db2 Hh; [|done]. cbn in Hh.
  eapply safe_then; [by apply applySlashingWithLock_safe| |done].
  intros x db3 (Hh3 & ->). exists b. eexists. split_and!; [done|by exists b|done..].
Qed.

Lemma applyRewardWithSlashCheck_settles sid n d db :
  idle sid db -> Settles sid (ApplyRewardWithSlashCheck n d) (applyRewardWithSlashCheck n d) db.
Proof.
  intros Hi. apply transaction_settles; [done|]. intros db1 Hi1.
  eapply safe_then; [by apply select_safe| |done].
  intros [b|] db2 [Hi2 Hseen]; [|by apply idle_quiet].
  set (c := ApplyRewardWithSlashCheck n d).
  apply safe_then with (Q1 := upto sid (fun x db' => match x with
      | None => quiet sid db'
      | Some r' => seen n (Some b) db' /\ exists r, slash_version b = slash_version r /\
          r' = mkReputation (clamp (score b + d)) (slash_version r) /\ holding sid n r r' db'
      end)); [| |done].
  - eapply safe_mono; [|done|apply (update_safe sid c n _ _ (fun _ => True)); [by left|]].
    + intros [e|[r'|]] db'; cbn; [done| |done]. intros [Hp (r & _ & Hv & [= <-] & Hh)].
      split; [by eapply seen_prefix|]. bool_props. eauto.
    + intros r r' _ [= <-]. split; [by left|apply clamp_bounds].
  - intros [r'|] db3; cbn; [|done]. intros ((la & lb & El & Hl) & r & Hv & -> & Hh).
    exists r, (mkReputation (clamp (score b + d)) (slash_version r)).
    split_and!; [done| |done]. exists r, b, la, lb. auto.
Qed.

#[local] Instance reputation_protocol :
  SessionProtocol body ConnectionLost rollback_ Inv Rely Post idle.
Proof.
  split.
  - apply Rely_refl.
  - apply Rely_trans.
  - apply Post_stable.
  - apply idle_stable.
  - intros. by apply rollback_spec.
  - intros. by apply rollback_spec.
  - intros sid [] db _ Hi; cbn.
    + by apply getScore_settles.
    + by apply initializeNode_settles.
    + by apply applyReward_settles.
    + by apply applySlashing_settles.
    + by apply applyRewardTransactional_settles.
    + by apply applySlashingTransactional_settles.
    + by apply applyRewardWithSlashCheck_settles.
Qed.

Lemma service_inv evs : Inv (w_db (service evs)).
Proof.
  apply (run_safe body ConnectionLost rollback_ Inv Rely Post idle).
  - split_and!; [constructor|done|done].
  - done.
Qed.

Lemma service_outcome evs sid c r :
  outcome (service evs) sid = Some (c, r) -> Post sid c r (w_db (service evs)).
Proof.
  apply (run_outcome body ConnectionLost rollback_ Inv Rely Post idle); [|done].
  split_and!; [constructor|done|done].
Qed.

(** ** Counting slashings *)

(** The write raises the version: it is that of a slashing. *)
Definition raises (w : Write) : bool :=
  match before w with
  | Some r => slash_version (after w) =? slash_version r + 1
  | None => false
  end.

Definition slashings (n : string) (l : list Write) : nat :=
  length (filter (fun w => node w = n /\ raises w = true) l).

Lemma slashings_app n l l' : slashings n (l ++ l') = (slashings n l + slashings n l')%nat.
Proof. unfold slashings. by rewrite filter_app, length_app. Qed.

Lemma slashings_none n l :
  slashings n l = 0%nat -> Forall (fun w => node w = n -> raises w = false) l.
Proof.
  intros H. apply Forall_forall. intros w Hw Hn. apply not_true_iff_false. intros Hr.
  apply length_zero_iff_nil in H.
  assert (Hin : w ∈ filter (fun w => node w = n /\ raises w = true) l)
    by (by apply list_elem_of_filter).
  rewrite H in Hin. by apply not_elem_of_nil in Hin.
Qed.

Lemma slashings_one n w :
  slashings n [w] = if bool_decide (node w = n) && raises w then 1%nat else 0%nat.
Proof.
  unfold slashings. rewrite filter_cons. case_bool_decide; destruct (raises w) eqn:?; cbn;
    case_decide; naive_solver.
Qed.

Lemma chained_version n l :
  chained l ->
  match last_version n l with
  | Some r => slash_version r = Z.of_nat (slashings n l)
  | None => slashings n l = 0%nat
  end.
Proof.
  induction 1 as [|l w Hl IH Hb Hg Hv]; [done|].
  rewrite last_version_snoc, slashings_app, slashings_one.
  case_bool_decide as Hn; cbn [andb]; [|by rewrite Nat.add_0_r].
  rewrite Hn in Hb. rewrite <- Hb in IH. unfold raises, grows in *.
  destruct (before w) as [r|]; [|lia].
  destruct (Z.eqb_spec (slash_version (after w)) (slash_version r + 1)); lia.
Qed.

Lemma chained_snoc_inv l w : chained (l ++ [w]) -> chained l /\ before w = last_version (node w) l.
Proof.
  intros H. inversion H as [E|l0 w0 Hl Hb Hg Hv E]; [by destruct l|].
  by apply app_inj_tail in E as [-> ->].
Qed.

Lemma chained_prefix l l' : chained (l ++ l') -> chained l.
Proof.
  induction l' as [|w l' IH] using rev_ind; [by rewrite app_nil_r|].
  rewrite app_assoc. intros [H _]%chained_snoc_inv. by apply IH.
Qed.

Lemma chained_at l w l' : chained (l ++ w :: l') -> before w = last_version (node w) l.
Proof.
  intros H. replace (l ++ w :: l') with ((l ++ [w]) ++ l') in H by by rewrite <- app_assoc.
  by apply chained_prefix, chained_snoc_inv in H as [_ ?].
Qed.

(** Between two states of a row with the same version lies no slashing. *)
Lemma same_version_no_slashing n la lb ra rb :
  chained (la ++ lb) -> last_version n la = Some ra -> last_version n (la ++ lb) = Some rb ->
  slash_version ra = slash_version rb ->
  Forall (fun w => node w = n -> raises w = false) lb.
Proof.
  intros Hc Ha Hb Hv. apply slashings_none.
  pose proof (chained_version n _ (chained_prefix _ _ Hc)) as Hva. rewrite Ha in Hva.
  pose proof (chained_version n _ Hc) as Hvb. rewrite Hb, slashings_app in Hvb. lia.
Qed.

(** ** The properties *)

(** The row is still as an initialisation inserted it. *)
Definition as_inserted (n : string) (r : ReputationRecord) (l : list Write) : Prop :=
  exists w, w ∈ l /\ node w = n /\ before w = None /\ after w = r.

Lemma chained_scores n l r :
  chained l -> last_version n l = Some r ->
  slash_version r < 2 ^ 31 /\
  (MIN_SCORE <= score r <= MAX_SCORE \/ (checked = false /\ as_inserted n r l)).
Proof.
  induction 1 as [|l w Hl IH Hb Hg [Hv Hs]]; [done|]. rewrite last_version_snoc.
  assert (Hext : as_inserted n r l -> as_inserted n r (l ++ [w])).
  { intros (w' & Hw & ?). exists w'. by rewrite elem_of_app; auto. }
  case_bool_decide as Hn; [|intros Hr; destruct (IH Hr) as [? [?|[? ?]]]; auto 6].
  intros [= <-]. split; [done|].
  destruct Hs as [Hs|[Hc [Hs|Hs]]]; [by left| |].
  - right. split; [done|]. exists w. split_and!; [|done..]. apply elem_of_app. right. by left.
  - rewrite Hn, Hs in Hb. destruct (IH (eq_sym Hb)) as [_ [?|[? ?]]]; auto.
Qed.

(** C13: in every run of the service every committed version is a non-negative
    [INTEGER] and every committed score lies in [-1000, 1000], whether or not the
    table has a CHECK on its scores; the one exception, on a table without the CHECK,
    is a row that nothing has changed since an initialisation inserted it.  A row that
    a session is about to commit obeys the same bounds, unless it is such a row or
    replaces none. *)
Theorem scores_stay_bounded evs :
  let db := w_db (service evs) in
  (forall n r, reputations db !! n = Some r ->
     0 <= slash_version r < 2 ^ 31 /\
     (-1000 <= score r <= 1000 \/ (checked = false /\ as_inserted n r (wal db)))) /\
  (forall n sid r, locks db !! n = Some (sid, r) ->
     0 <= slash_version r < 2 ^ 31 /\
     (-1000 <= score r <= 1000 \/
      (checked = false /\ (reputations db !! n = None \/ as_inserted n r (wal db))))).
Proof.
  intros db. destruct (service_inv evs) as (Hc & Hr & Hl). fold db in Hc, Hr, Hl.
  assert (Hrow : forall n r, reputations db !! n = Some r ->
    0 <= slash_version r < 2 ^ 31 /\
    (-1000 <= score r <= 1000 \/ (checked = false /\ as_inserted n r (wal db)))).
  { intros n r Hn. pose proof (chained_version n _ Hc) as Hv. rewrite <- Hr, Hn in Hv.
    rewrite Hr in Hn. destruct (chained_scores n _ r Hc Hn) as [? ?]. split; [lia|done]. }
  split; [exact Hrow|]. intros n sid r Hn. destruct (Hl _ _ Hn) as [[Hv Hs] Hg]. cbn in Hv, Hs, Hg.
  assert (0 <= slash_version r).
  { unfold grows in Hg. destruct (reputations db !! n) as [r0|] eqn:Hn'; [|lia].
    destruct (Hrow _ _ Hn') as [? _]. lia. }
  split; [lia|]. destruct Hs as [Hs|[Hf [Hs|Hs]]]; [by left|right; by auto|].
  destruct (Hrow _ _ Hs) as [_ [?|[_ ?]]]; [by left|right; by auto].
Qed.

(** C12: whatever is interleaved, an operation that returns has committed exactly
    one write: a reward adds its amount, a slashing subtracts it and raises the
    version, each to the row it replaced and within the bounds, and what it
    reports is what it wrote (a read writes nothing, and an initialisation may
    find the row).  An operation that throws has committed nothing, unless its
    connection broke. *)
Theorem operations_commit_once evs sid c r :
  outcome (service evs) sid = Some (c, r) -> Post sid c r (w_db (service evs)).
Proof. apply service_outcome. Qed.

(** C19: no slashing is lost.  The version of a row counts the slashings committed
    to it; every write replaces the last committed row; and between the moment a
    checked reward read the score it builds on and its own write no slashing of
    the node was committed. *)
Theorem slashings_never_overwritten evs n :
  let db := w_db (service evs) in
  (forall r, reputations db !! n = Some r ->
     slash_version r = Z.of_nat (slashings n (wal db))) /\
  (forall l1 w l2, wal db = l1 ++ w :: l2 -> before w = last_version (node w) l1) /\
  (forall sid d res, outcome (service evs) sid = Some (ApplyRewardWithSlashCheck n d, inr res) ->
     exists la lb w l2 r0, wal db = (la ++ lb) ++ w :: l2 /\ by_session w = sid /\
       last_version n la = Some r0 /\ score (after w) = clamp (score r0 + d) /\
       Forall (fun w' => node w' = n -> raises w' = false) lb).
Proof.
  intros db. destruct (service_inv evs) as (Hc & Hr & Hl). fold db in Hc, Hr, Hl. split_and!.
  - intros r Hn. pose proof (chained_version n _ Hc) as Hv. by rewrite <- Hr, Hn in Hv.
  - intros l1 w l2 E. rewrite E in Hc. by apply chained_at in Hc.
  - intros sid d res Ho.
    destruct (service_outcome _ _ _ _ Ho) as [(l1 & w & l2 & E & Hw & Hn & He & _)|[_ []]].
    fold db in E, Hw. destruct He as (r & r0 & la & lb & Hb & -> & Hl0 & Hv & Ha).
    exists la, lb, w, l2, r0. rewrite Ha. split_and!; [done| |done..|].
    + assert (Hin : w ∈ writes sid db) by (rewrite Hw; left).
      by apply list_elem_of_filter in Hin as [? _].
    + rewrite E in Hc. pose proof (chained_at _ _ _ Hc) as Hbw. cbn in Hn. rewrite Hn, Hb in Hbw.
      eapply same_version_no_slashing; [by eapply chained_prefix|done|done|done].
Qed.

End checked.

(** ** Runs *)

Module Examples.
Local Open Scope string_scope.
Local Open Scope list_scope.

(** The table of the migration, and one without its CHECK. *)
Abbreviation service := (run (body true) ConnectionLost rollback_ empty_db).
Abbreviation unchecked := (run (body false) ConnectionLost rollback_ empty_db).

Definition exec (sid : nat) (k : nat) : list (Event (E := RepError) (Call := Call)) :=
  replicate k (Exec sid).
Definition alone (sid : nat) (c : Call) : list (Event (E := RepError)) := Start sid c :: exec sid 8.

(** A node at 0 that a checked reward and a slashing reach together: the reward
    is read first and written last, and is refused. *)
Definition race : list (Event (E := RepError)) :=
  alone 0 (InitializeNode "n" 0) ++
  [Start 1 (ApplyRewardWithSlashCheck "n" 10)] ++ exec 1 3 ++
  alone 2 (ApplySlashing "n" 500) ++ exec 1 4.

Example race_outcome :
  (outcome (service race) 1, outcome (service race) 2, reputations (w_db (service race)) !! "n") =
  (Some (ApplyRewardWithSlashCheck "n" 10, inl (ConcurrentSlashing "n")),
   Some (ApplySlashing "n" 500, inr (SlashingResult 0 (-500) 500 1)),
   Some (mkReputation (-500) 1)).
Proof. vm_compute. reflexivity. Qed.

(** Two checked rewards that overlap: both report success, one of them is lost,
    because a reward leaves [slash_version] as it was. *)
Definition two_rewards : list (Event (E := RepError)) :=
  alone 0 (InitializeNode "n" 0) ++
  [Start 1 (ApplyRewardWithSlashCheck "n" 10)] ++ exec 1 3 ++
  alone 2 (ApplyRewardWithSlashCheck "n" 10) ++ exec 1 4.

Lemma checked_rewards_lose_update :
  let w := service two_rewards in
  outcome w 1 = Some (ApplyRewardWithSlashCheck "n" 10, inr (RewardResult 0 10 10)) /\
  outcome w 2 = Some (ApplyRewardWithSlashCheck "n" 10, inr (RewardResult 0 10 10)) /\
  reputations (w_db w) !! "n" = Some (mkReputation 10 0).
Proof. vm_compute. done. Qed.

(** A transactional slashing that meets a reward's lock is dropped. *)
Lemma contended_slashing_dropped :
  let w := service (alone 0 (InitializeNode "n" 0) ++
    [Start 1 (ApplyRewardTransactional "n" 10)] ++ exec 1 3 ++
    alone 2 (ApplySlashingTransactional "n" 500) ++ exec 1 5) in
  outcome w 2 = Some (ApplySlashingTransactional "n" 500, inl LockNotAvailable) /\
  reputations (w_db w) !! "n" = Some (mkReputation 10 0).
Proof. vm_compute. done. Qed.

(** The atomic reward reports a previous score it did not add to. *)
Lemma reported_previous_score_stale :
  let w := service (alone 0 (InitializeNode "n" 0) ++
    [Start 1 (ApplyReward "n" 10)] ++ exec 1 1 ++
    alone 2 (ApplySlashing "n" 500) ++ exec 1 1) in
  outcome w 1 = Some (ApplyReward "n" 10, inr (RewardResult 0 (-490) 10)).
Proof. vm_compute. done. Qed.

(** A slashing at the lower bound subtracts less than its amount. *)
Lemma slashing_is_clamped :
  let w := service (alone 0 (InitializeNode "n" (-800)) ++ alone 1 (ApplySlashing "n" 500)) in
  outcome w 1 = Some (ApplySlashing "n" 500, inr (SlashingResult (-800) (-1000) 500 1)).
Proof. vm_compute. done. Qed.

(** Without the CHECK a row keeps any initial score until it is first changed. *)
Lemma initial_score_unchecked :
  let init := alone 0 (InitializeNode "n" 5000) in
  (outcome (service init) 0, reputations (w_db (unchecked init)) !! "n",
   reputations (w_db (unchecked (init ++ alone 1 (ApplyReward "n" 10)))) !! "n") =
  (Some (InitializeNode "n" 5000, inl CheckViolation), Some (mkReputation 5000 0),
   Some (mkReputation 1000 0)).
Proof. vm_compute. reflexivity. Qed.

Lemma operations_commit_once_witness :
  exists c r, outcome (service race) 1 = Some (c, r) /\ Post 1 c r (w_db (service race)).
Proof.
  eexists _, _. split; [vm_compute; reflexivity|].
  apply (operations_commit_once true). vm_compute. reflexivity.
Defined.

Lemma slashings_never_overwritten_witness :
  let db := w_db (service two_rewards) in
  (forall r, reputations db !! "n" = Some r ->
     slash_version r = Z.of_nat (slashings "n" (wal db))) /\
  exists la lb w l2 r0, wal db = (la ++ lb) ++ w :: l2 /\ by_session w = 1%nat /\
    last_version "n" la = Some r0 /\ score (after w) = clamp (score r0 + 10) /\
    Forall (fun w' => node w' = "n" -> raises w' = false) lb.
Proof.
  destruct (slashings_never_overwritten true two_rewards "n") as (H1 & H2 & H3).
  split; [exact H1|]. apply (H3 1%nat 10 (RewardResult 0 10 10)). vm_compute. reflexivity.
Defined.
End Examples.
