(* ===== verification/Rewards.v ===== *)
(** * Reward amounts and their distribution
    ([src/src/rewards/distributor.ts], [lock_manager.ts], [cycle_scheduler.ts],
    [database/balance_ledger.sql])

    Amounts are texts with seven decimals, computed with as integers; the columns
    [NUMERIC(30, 7)] are kept in the same unit.  A distribution is a [prog] over
    the statements it issues, under PostgreSQL's advisory and row locks; the
    counters of the distributor and the retry queue of the scheduler are fields of
    the process.  Durations are left out.

    The texts round-trip ([reward_amounts_round_trip]); allocations never exceed
    the pool ([allocations_within_pool]); in every interleaving a node is paid its
    pending amount once ([rewards_paid_once]). *)

From Stdlib Require Import ZArith Lia Ascii String DecimalString.
From stdpp Require Import base list strings gmap.
From S2P Require Import Prelude Js Text Sessions.

(** ** Amounts *)

Definition DECIMAL_SCALE : Z := 10 ^ 7.
Definition REWARD_POOL_MIN_UNITS : Z := 1.
Definition REWARD_POOL_MAX_UNITS : Z := 1000000 * DECIMAL_SCALE.

(** The groups of [/^(\d+)(?:\.(\d{0,7}))?$/]. *)
Definition amountGroups (value : string) : option (string * option string) :=
  let '(whole, rest) := span_digits value in
  if falsy whole then None else
  match rest with
  | EmptyString => Some (whole, None)
  | String dot frac =>
      let '(digits, rest') := span_digits frac in
      if bool_decide (dot = "."%char) && falsy rest' && (String.length digits <=? 7)%nat
      then Some (whole, Some digits) else None
  end.

Inductive RewardError :=
  | InvalidAmount (value : string)
  | PoolOutOfBounds
  | RewardLockTimeoutError (nodeId : string) (code : option string)
  | ServerError (code : option string) (message : string)
  | TypeError.

Definition parseUnits (value : string) : RewardError + Z :=
  match amountGroups value with
  | None => inl (InvalidAmount value)
  | Some (whole, frac) =>
      match BigInt_of_string whole, BigInt_of_string (padEnd 7 (default "" frac)) with
      | Some w, Some f => inr (w * DECIMAL_SCALE + f)
      | _, _ => inl (InvalidAmount value)
      end
  end.

Definition formatUnits (value : Z) : string :=
  let whole := Z.quot value DECIMAL_SCALE in
  let fraction := Z.rem value DECIMAL_SCALE in
  print_Z whole +:+ String "." (padStart 7 (print_Z fraction)).

(** ** Allocation *)

Record RewardAllocation := mkAllocation { nodeId : string; amount : string }.
Record UnitAllocation := mkUnits { u_nodeId : string; u_amount : Z }.

(** [.map] with a function that may throw *)
Fixpoint map_sum {E A B} (f : A -> E + B) (l : list A) : E + list B :=
  match l with
  | [] => inr []
  | a :: l' =>
      match f a with
      | inl e => inl e
      | inr b => match map_sum f l' with inl e => inl e | inr bs => inr (b :: bs) end
      end
  end.

Fixpoint filter_sum {E A} (f : A -> E + bool) (l : list A) : E + list A :=
  match l with
  | [] => inr []
  | a :: l' =>
      match f a with
      | inl e => inl e
      | inr b => match filter_sum f l' with
                 | inl e => inl e
                 | inr rest => inr (if b then a :: rest else rest)
                 end
      end
  end.

Definition totalOf (l : list UnitAllocation) : Z :=
  foldl (fun sum reward => sum + u_amount reward) 0 l.

Definition positiveUnits (l : list UnitAllocation) : list UnitAllocation :=
  filter (fun reward => 0 < u_amount reward) l.

(** The share of one reward, in units. *)
Definition share (pool totalPending : Z) (reward : UnitAllocation) : Z :=
  Z.quot (pool * u_amount reward) totalPending.

Definition computeAllocations (pendingRewards : list RewardAllocation)
    (totalRewardPool : string) : RewardError + list RewardAllocation :=
  match parseUnits totalRewardPool with
  | inl e => inl e
  | inr pool =>
      if (pool <? REWARD_POOL_MIN_UNITS) || (REWARD_POOL_MAX_UNITS <? pool)
      then inl PoolOutOfBounds else
      match map_sum (fun reward => match parseUnits (amount reward) with
                                   | inl e => inl e
                                   | inr u => inr (mkUnits (nodeId reward) u)
                                   end) pendingRewards with
      | inl e => inl e
      | inr units =>
          let positiveRewards := positiveUnits units in
          let totalPending := totalOf positiveRewards in
          if totalPending =? 0 then inr [] else
          filter_sum (fun reward => match parseUnits (amount reward) with
                                    | inl e => inl e
                                    | inr u => inr (0 <? u)
                                    end)
            ((fun reward => mkAllocation (u_nodeId reward)
                              (formatUnits (share pool totalPending reward)))
             <$> positiveRewards)
      end
  end.

Example amounts :
  parseUnits <$> ["12.5"; "3"; "3."; ".5"; "1.12345678"; "-1"; "007.0000001"; "1e3"] =
  [inr 125000000; inr 30000000; inr 30000000; inl (InvalidAmount ".5");
   inl (InvalidAmount "1.12345678"); inl (InvalidAmount "-1"); inr 70000001;
   inl (InvalidAmount "1e3")].
Proof. vm_compute. reflexivity. Qed.

Example thirds :
  computeAllocations [mkAllocation "a" "1"; mkAllocation "b" "1"; mkAllocation "c" "0";
                      mkAllocation "d" "1"] "10" =
  inr [mkAllocation "a" "3.3333333"; mkAllocation "b" "3.3333333"; mkAllocation "d" "3.3333333"].
Proof. vm_compute. reflexivity. Qed.

(** ** Locks ([lock_manager.ts]) *)

Definition REWARD_LOCK_TIMEOUT_MS : Z := 5000.

Definition rewardLockName (n : string) : string := "reward_cycle_" +:+ n.

Definition codeOf (e : RewardError) : option string :=
  match e with
  | RewardLockTimeoutError _ c | ServerError c _ => c
  | _ => None
  end.

Definition messageOf (e : RewardError) : string :=
  match e with
  | InvalidAmount v => "Invalid 7-decimal reward amount: " +:+ v
  | PoolOutOfBounds => "totalRewardPool is outside supported reward-cycle bounds"
  | RewardLockTimeoutError n _ => "Timed out acquiring reward distribution lock for node " +:+ n
  | ServerError _ m => m
  | TypeError => "Cannot read properties of undefined"
  end.

Definition isLockTimeoutError (e : RewardError) : bool :=
  match e with
  | RewardLockTimeoutError _ _ => true
  | _ => bool_decide (codeOf e = Some "55P03") || includes "lock timeout" (toLowerCase (messageOf e))
  end.

(** ** Amounts as numbers *)

Lemma span_digits_app s t :
  all_chars is_digit s = true ->
  match t with String c _ => is_digit c = false | EmptyString => True end ->
  span_digits (s +:+ t) = (s, t).
Proof.
  intros Hs Ht. induction s as [|c s IH].
  - rewrite app_Empty. destruct t as [|c t]; [done|]. cbn. by rewrite Ht.
  - rewrite all_chars_String in Hs. apply andb_true_iff in Hs as [Hc Hs].
    rewrite app_String. cbn. by rewrite Hc, IH.
Qed.

Lemma scale_pos : 0 < DECIMAL_SCALE.
Proof. done. Qed.

Lemma quot_rem_scale z : 0 <= z ->
  0 <= Z.quot z DECIMAL_SCALE /\ 0 <= Z.rem z DECIMAL_SCALE < 10 ^ Z.of_nat 7 /\
  Z.quot z DECIMAL_SCALE * DECIMAL_SCALE + Z.rem z DECIMAL_SCALE = z.
Proof.
  intros Hz. pose proof scale_pos.
  pose proof (Z.rem_bound_pos z DECIMAL_SCALE Hz ltac:(lia)).
  pose proof (Z.quot_pos z DECIMAL_SCALE Hz ltac:(lia)).
  pose proof (Z.quot_rem' z DECIMAL_SCALE). unfold DECIMAL_SCALE in *. cbn in *. lia.
Qed.

Lemma amountGroups_formatUnits z :
  0 <= z ->
  amountGroups (formatUnits z) =
  Some (print_Z (Z.quot z DECIMAL_SCALE),
        Some (padStart 7 (print_Z (Z.rem z DECIMAL_SCALE)))).
Proof.
  intros Hz. destruct (quot_rem_scale z Hz) as (Hq & Hr & _).
  unfold amountGroups, formatUnits. rewrite span_digits_app; [|by apply print_Z_digits|done].
  unfold falsy. rewrite bool_decide_false by apply print_Z_nonempty.
  pose proof (span_digits_app (padStart 7 (print_Z (Z.rem z DECIMAL_SCALE))) "") as Hs.
  rewrite app_nil_s in Hs. rewrite Hs; [|apply all_digits_padStart, print_Z_digits; lia|done].
  rewrite !bool_decide_true by done. cbn [andb].
  by rewrite length_padStart by (apply length_print_Z; lia).
Qed.

Lemma parse_format z : 0 <= z -> parseUnits (formatUnits z) = inr z.
Proof.
  intros Hz. destruct (quot_rem_scale z Hz) as (Hq & Hr & E).
  unfold parseUnits. rewrite amountGroups_formatUnits by done.
  change (default "" (Some ?x)) with x.
  rewrite padEnd_full by (apply length_padStart, length_print_Z; lia).
  unfold padStart. rewrite BigInt_zeros;
    [by rewrite !BigInt_print_Z, E|apply print_Z_digits; lia|apply print_Z_nonempty].
Qed.

Lemma span_digits_digits s : all_chars is_digit (span_digits s).1 = true.
Proof.
  induction s as [|c s IH]; [done|]. cbn. destruct (is_digit c) eqn:Hc; [|done].
  destruct (span_digits s). cbn in *. by rewrite Hc.
Qed.

Lemma BigInt_digits_nonneg s z :
  all_chars is_digit s = true -> s <> "" -> BigInt_of_string s = Some z -> 0 <= z.
Proof.
  intros Hs Hne. rewrite BigInt_digits by done.
  destruct (NilEmpty.uint_of_string s) as [u|]; [|done]. intros [= <-]. unfold Z.of_uint. lia.
Qed.

Lemma amountGroups_digits v w f :
  amountGroups v = Some (w, f) ->
  all_chars is_digit w = true /\ w <> "" /\ all_chars is_digit (default "" f) = true /\
  (String.length (default "" f) <= 7)%nat.
Proof.
  unfold amountGroups. pose proof (span_digits_digits v) as Hw.
  destruct (span_digits v) as [w' rest]. cbn in Hw. unfold falsy at 1.
  case_bool_decide; [done|]. destruct rest as [|dot frac]; [intros [= <- <-]; cbn; auto with lia|].
  pose proof (span_digits_digits frac) as Hf. destruct (span_digits frac) as [d r]. cbn in Hf.
  intros H'. case_match eqn:Hm; [|done]. simplify_eq. bool_props.
  split_and!; [done..|]. by apply Nat.leb_le.
Qed.

Lemma parseUnits_nonneg v u : parseUnits v = inr u -> 0 <= u.
Proof.
  unfold parseUnits. destruct (amountGroups v) as [[w f]|] eqn:Hg; [|done].
  destruct (amountGroups_digits _ _ _ Hg) as (Hw & Hw0 & Hf & Hl).
  destruct (BigInt_of_string w) as [x|] eqn:Hx; [|done].
  destruct (BigInt_of_string (padEnd _ _)) as [y|] eqn:Hy; [|done]. intros [= <-].
  apply BigInt_digits_nonneg in Hx; [|done..].
  apply BigInt_digits_nonneg in Hy.
  - pose proof scale_pos. nia.
  - unfold padEnd. by rewrite all_chars_app, Hf, all_digits_zeros.
  - intros E. apply (f_equal String.length) in E. unfold padEnd in E.
    rewrite length_app_s, length_zeros in E. cbn in E. lia.
Qed.

(** printing an amount of units and reading it back gives the same units;
    hence what the distributor reads, whatever its notation, survives being
    printed and read again. *)
Theorem reward_amounts_round_trip :
  (forall z, 0 <= z -> parseUnits (formatUnits z) = inr z) /\
  (forall v u, parseUnits v = inr u -> parseUnits (formatUnits u) = inr u).
Proof.
  split; [apply parse_format|]. intros v u Hu. by apply parse_format, (parseUnits_nonneg v).
Qed.

(** ** What is allocated *)

Definition sumZ (l : list Z) : Z := foldr Z.add 0 l.

Lemma totalOf_sum l : totalOf l = sumZ (u_amount <$> l).
Proof.
  unfold totalOf. assert (H : forall acc, foldl (fun sum r => sum + u_amount r) acc l =
                                 acc + sumZ (u_amount <$> l)).
  { induction l as [|r l IH]; intros acc; cbn; [lia|]. rewrite IH. unfold sumZ. lia. }
  by rewrite H.
Qed.

Lemma filter_sum_pure {E A B} (f : B -> E + bool) (g : A -> B) (P : A -> Prop)
    `{!forall a, Decision (P a)} l :
  Forall (fun a => f (g a) = inr (bool_decide (P a))) l ->
  filter_sum f (g <$> l) = inr (g <$> filter P l).
Proof.
  induction 1 as [|a l Ha Hl IH]; [done|]. rewrite fmap_cons. cbn [filter_sum].
  rewrite Ha, IH, filter_cons. by case_decide; [rewrite bool_decide_true|rewrite bool_decide_false].
Qed.

Lemma positive_amounts l : Forall (fun r => 0 < u_amount r) (positiveUnits l).
Proof.
  apply Forall_forall. unfold positiveUnits. by intros r [? _]%list_elem_of_filter.
Qed.

Lemma sum_positive l : Forall (fun r => 0 < u_amount r) l -> totalOf l = 0 -> l = [].
Proof.
  rewrite totalOf_sum. destruct 1 as [|r l Hr Hl]; [done|]. cbn.
  assert (0 <= sumZ (u_amount <$> l)) by (induction Hl; cbn; unfold sumZ in *; lia).
  unfold sumZ in *. lia.
Qed.

Lemma totalOf_nonneg l : Forall (fun r => 0 <= u_amount r) l -> 0 <= totalOf l.
Proof. rewrite totalOf_sum. induction 1; cbn; unfold sumZ in *; lia. Qed.

Lemma totalOf_pos l : Forall (fun r => 0 < u_amount r) l -> l <> [] -> 0 < totalOf l.
Proof.
  intros Hl Hne. assert (H0 : 0 <= totalOf l).
  { apply totalOf_nonneg. eapply Forall_impl; [done|]. cbn. intros. lia. }
  assert (totalOf l <> 0) by (intros E; by apply Hne, sum_positive). lia.
Qed.

(** Dropping what is zero keeps the sum. *)
Lemma totalOf_positiveUnits l : Forall (fun r => 0 <= u_amount r) l -> totalOf (positiveUnits l) = totalOf l.
Proof.
  rewrite !totalOf_sum. unfold positiveUnits. induction 1 as [|r l Hr Hl IH]; [done|].
  rewrite filter_cons. case_decide; cbn; unfold sumZ in *; lia.
Qed.

(** The shares of some rewards, in units. *)
Definition shares (pool : Z) (rewards : list UnitAllocation) : list UnitAllocation :=
  (fun r => mkUnits (u_nodeId r) (share pool (totalOf rewards) r)) <$> rewards.

Lemma share_bounds p t r :
  0 <= p -> 0 < t -> 0 < u_amount r ->
  0 <= share p t r /\ t * share p t r <= p * u_amount r <= t * share p t r + (t - 1).
Proof.
  intros Hp Ht Hr. unfold share. pose proof (Z.quot_rem' (p * u_amount r) t).
  pose proof (Z.rem_bound_pos (p * u_amount r) t ltac:(nia) Ht).
  pose proof (Z.quot_pos (p * u_amount r) t ltac:(nia) Ht). lia.
Qed.

Lemma shares_nonneg p l :
  0 <= p -> Forall (fun r => 0 < u_amount r) l -> Forall (fun r => 0 <= u_amount r) (shares p l).
Proof.
  intros Hp Hl. unfold shares. apply Forall_fmap.
  destruct (decide (l = [])) as [->|Hne]; [done|]. pose proof (totalOf_pos l Hl Hne).
  eapply Forall_impl; [done|]. intros r Hr. by apply (share_bounds p (totalOf l)).
Qed.

(** Rounding down loses less than one unit per reward. *)
Lemma shares_sum p t l :
  0 <= p -> 0 < t -> Forall (fun r => 0 < u_amount r) l ->
  let s := sumZ (share p t <$> l) in
  t * s <= p * sumZ (u_amount <$> l) <= t * s + Z.of_nat (length l) * (t - 1).
Proof.
  intros Hp Ht. induction 1 as [|r l Hr Hl IH]; [cbn; lia|].
  pose proof (share_bounds p t r Hp Ht Hr). rewrite !fmap_cons. cbn [length]. unfold sumZ in *.
  cbn [foldr] in *. nia.
Qed.

Lemma shares_total p l :
  0 <= p -> Forall (fun r => 0 < u_amount r) l -> l <> [] ->
  totalOf (shares p l) <= p < totalOf (shares p l) + Z.of_nat (length l).
Proof.
  intros Hp Hl Hne.
  pose proof (totalOf_pos l Hl Hne) as Ht.
  pose proof (shares_sum p (totalOf l) l Hp Ht Hl) as Hs. cbn zeta in Hs.
  rewrite <- totalOf_sum in Hs. rewrite (totalOf_sum (shares p l)).
  replace (sumZ (u_amount <$> shares p l)) with (sumZ (share p (totalOf l) <$> l)).
  - assert (0 < Z.of_nat (length l)) by (destruct l; [done|cbn; lia]). nia.
  - unfold shares. by rewrite <- list_fmap_compose.
Qed.

(** The filter that drops the allocations of zero. *)
Lemma filter_sum_shares pool rewards :
  Forall (fun r => 0 <= u_amount r) (shares pool rewards) ->
  filter_sum (fun reward => match parseUnits (amount reward) with
                            | inl e => inl e
                            | inr u => inr (0 <? u)
                            end)
    ((fun reward => mkAllocation (u_nodeId reward)
                      (formatUnits (share pool (totalOf rewards) reward))) <$> rewards) =
  inr ((fun a => mkAllocation (u_nodeId a) (formatUnits (u_amount a)))
         <$> positiveUnits (shares pool rewards)).
Proof.
  intros Hn. set (g := fun a => mkAllocation (u_nodeId a) (formatUnits (u_amount a))).
  replace (_ <$> rewards) with (g <$> shares pool rewards)
    by (unfold shares; by rewrite <- list_fmap_compose).
  apply filter_sum_pure.
  - eapply Forall_impl; [done|]. intros a Ha. cbn. rewrite parse_format by done.
    f_equal. apply eq_true_iff_eq. by rewrite Z.ltb_lt, bool_decide_eq_true.
Qed.

(** C25: allocations are the proportional shares, rounded down to units of 10^-7,
    of the rewards that get anything, in the order given; together they stay
    within the pool and leave less than one unit per positive reward; the pool
    itself is between one unit and a million. *)
Theorem allocations_within_pool pendingRewards totalRewardPool allocations :
  computeAllocations pendingRewards totalRewardPool = inr allocations ->
  exists pool units,
    parseUnits totalRewardPool = inr pool /\
    REWARD_POOL_MIN_UNITS <= pool <= REWARD_POOL_MAX_UNITS /\
    map_sum (fun r => match parseUnits (amount r) with
                      | inl e => inl e
                      | inr u => inr (mkUnits (nodeId r) u)
                      end) pendingRewards = inr units /\
    let rewards := positiveUnits units in
    let paid := positiveUnits (shares pool rewards) in
    allocations = (fun a => mkAllocation (u_nodeId a) (formatUnits (u_amount a))) <$> paid /\
    0 <= totalOf paid <= pool /\
    (rewards <> [] -> pool - totalOf paid < Z.of_nat (length rewards)).
Proof.
  unfold computeAllocations. destruct (parseUnits totalRewardPool) as [|pool]; [done|].
  destruct (_ || _) eqn:Hpool; [done|]. bool_props. unfold REWARD_POOL_MIN_UNITS in *.
  destruct (map_sum _ pendingRewards) as [|units] eqn:Hu; [done|]. intros Hal.
  exists pool, units. do 3 (split; [done|]).
  pose proof (positive_amounts units) as Hpos. revert Hal.
  generalize (positiveUnits units) Hpos. clear Hu Hpos. intros rewards Hpos Hal.
  assert (Hn : Forall (fun r => 0 <= u_amount r) (shares pool rewards))
    by (apply shares_nonneg; lia || done).
  cbn zeta. rewrite totalOf_positiveUnits by done.
  pose proof (totalOf_nonneg _ Hn) as Hn0. destruct (decide (rewards = [])) as [->|Hne].
  { simplify_eq/=. split; [done|]. split; [|done]. cbn. lia. }
  pose proof (shares_total pool rewards ltac:(lia) Hpos Hne). split; [|lia].
  pose proof (totalOf_pos rewards Hpos Hne). rewrite (proj2 (Z.eqb_neq _ _)) in Hal by lia.
  rewrite (filter_sum_shares pool) in Hal by done. by injection Hal.
Qed.

(** ** The database and the process *)

Record Payment := mkPayment { by_session : nat; p_node : string; p_amount : Z }.
#[export] Instance Payment_eq_dec : EqDecision Payment.
Proof. solve_decision. Defined.

Record State := mkState {
  pending : gmap string Z;                 (* reward_pending_amounts *)
  reward_tx : list Payment;
  locks : gmap string (nat * Z);           (* locked rows of pending *)
  uncommitted : list Payment;
  advisory : gmap Z nat;                   (* advisory locks and their holders *)
  acquisitions : nat;                      (* length of metrics.acquisitionSeconds *)
  contentionTotal : nat;
  doubleSpendPreventedTotal : nat;
  retryQueue : list string                 (* RewardCycleScheduler *)
}.

Abbreviation Stmt := (stmt State RewardError).
Abbreviation Prog := (prog State RewardError).

Definition set_db (st : State) (rows : gmap string Z) (tx : list Payment)
    (lks : gmap string (nat * Z)) (unc : list Payment) (adv : gmap Z nat) : State :=
  mkState rows tx lks unc adv (acquisitions st) (contentionTotal st)
    (doubleSpendPreventedTotal st) (retryQueue st).

Definition set_process (st : State) (acq con dbl : nat) (queue : list string) : State :=
  mkState (pending st) (reward_tx st) (locks st) (uncommitted st) (advisory st)
    acq con dbl queue.

Definition of_session (sid : nat) (l : list Payment) : list Payment :=
  filter (fun p => by_session p = sid) l.
Definition not_of_session (sid : nat) (l : list Payment) : list Payment :=
  filter (fun p => by_session p <> sid) l.

Definition commit_ (sid : nat) (st : State) : State :=
  set_db st (owned sid (locks st) ∪ pending st)
    (reward_tx st ++ of_session sid (uncommitted st))
    (unlock sid (locks st)) (not_of_session sid (uncommitted st))
    (filter (fun kv => kv.2 <> sid) (advisory st)).

Definition rollback_ (sid : nat) (st : State) : State :=
  set_db st (pending st) (reward_tx st) (unlock sid (locks st))
    (not_of_session sid (uncommitted st)) (filter (fun kv => kv.2 <> sid) (advisory st)).

Definition commit : Stmt unit := fun sid st => Some (commit_ sid st, inr tt).
Definition rollback : Stmt unit := fun sid st => Some (rollback_ sid st, inr tt).

(** SAVEPOINT and RELEASE change nothing; the savepoint is set right after BEGIN,
    so that rolling back to it undoes everything the transaction did and gives its
    locks back. *)
Definition savepoint (name : string) : Stmt unit := noop.
Definition releaseSavepoint (name : string) : Stmt unit := noop.
Definition rollbackToSavepoint (name : string) : Stmt unit := rollback.

Definition sanitize1 (c : ascii) : ascii :=
  let n := code c in
  if ((97 <=? n)%nat && (n <=? 122)%nat) || ((65 <=? n)%nat && (n <=? 90)%nat)
     || is_digit c || (n =? 95)%nat then c else "_"%char.
Fixpoint sanitize (s : string) : string :=
  match s with EmptyString => EmptyString | String c s' => String (sanitize1 c) (sanitize s') end.
Definition savepointName (n : string) : string :=
  "reward_node_" +:+ String.substring 0 48 (sanitize n).

Definition sqlError {B} (code message : string) (st : State) : option (State * (RewardError + B)) :=
  Some (st, inl (ServerError (Some code) message)).

(** [SELECT amount ... FOR UPDATE]: the text of a [NUMERIC(30, 7)]. *)
Definition selectPending (n : string) : Stmt (option string) := fun sid st =>
  match visible sid n (locks st) (pending st) with
  | None => Some (st, inr None)
  | Some v =>
      if locked_by_other sid n (locks st) then None
      else Some (set_db st (pending st) (reward_tx st) (<[n := (sid, v)]> (locks st))
                   (uncommitted st) (advisory st), inr (Some (formatUnits v)))
  end.

Definition insertReward (n amount : string) : Stmt unit := fun sid st =>
  match parseUnits amount with
  | inl _ => sqlError "22P02" "invalid input syntax for type numeric" st
  | inr u =>
      if u <=? 0 then sqlError "23514" "check constraint" st
      else match visible sid n (locks st) (pending st) with
           | None => sqlError "23503" "foreign key constraint" st
           | Some _ =>
               if locked_by_other sid n (locks st) then None
               else Some (set_db st (pending st) (reward_tx st) (locks st)
                            (uncommitted st ++ [mkPayment sid n u]) (advisory st), inr tt)
           end
  end.

Definition subtractPending (n amount : string) : Stmt unit := fun sid st =>
  match parseUnits amount with
  | inl _ => sqlError "22P02" "invalid input syntax for type numeric" st
  | inr u =>
      match visible sid n (locks st) (pending st) with
      | None => Some (st, inr tt)
      | Some v =>
          if locked_by_other sid n (locks st) then None
          else if v - u <? 0 then sqlError "23514" "check constraint" st
          else Some (set_db st (pending st) (reward_tx st) (<[n := (sid, v - u)]> (locks st))
                       (uncommitted st) (advisory st), inr tt)
      end
  end.

(** [pg_advisory_xact_lock(key)] *)
Definition advisoryLock (key : Z) : Stmt unit := fun sid st =>
  match advisory st !! key with
  | Some o => if bool_decide (o = sid) then Some (st, inr tt) else None
  | None => Some (set_db st (pending st) (reward_tx st) (locks st) (uncommitted st)
                    (<[key := sid]> (advisory st)), inr tt)
  end.

Inductive RewardStatus := Distributed | Skipped | Requeued.
Record RewardDistributionResult := mkDistribution {
  d_nodeId : string; allocatedAmount : string; status : RewardStatus
}.

Definition CONNECTION_LOST : RewardError := ServerError None "Connection terminated".

(** What the distributor does not decide: PostgreSQL's hash, whether the server
    takes a bind parameter in SET, whether a requeue target is configured, and the
    amounts pending at the start. *)
Section distributor.
Context (hashtext : string -> Z) (setTakesParameter hasRequeue : bool).

(** [SET LOCAL lock_timeout = $1] *)
Definition setLockTimeout (timeoutMs : Z) : Stmt unit := fun _ st =>
  if setTakesParameter then Some (st, inr tt)
  else sqlError "42601" "syntax error at or near $1" st.

Definition acquireRewardNodeLock (n : string) : Prog unit :=
  try_ (await _r := setLockTimeout REWARD_LOCK_TIMEOUT_MS in
        query (advisoryLock (hashtext (rewardLockName n))))
       (fun error =>
          if isLockTimeoutError error then Raise (RewardLockTimeoutError n (codeOf error))
          else Raise error).

Definition countAcquisition (st : State) : State :=
  set_process st (S (acquisitions st)) (contentionTotal st) (doubleSpendPreventedTotal st)
    (retryQueue st).
Definition countContention (st : State) : State :=
  set_process st (acquisitions st) (S (contentionTotal st)) (doubleSpendPreventedTotal st)
    (retryQueue st).
Definition countDistribution (st : State) : State :=
  set_process st (acquisitions st) (contentionTotal st) (S (doubleSpendPreventedTotal st))
    (retryQueue st).

(** [RewardCycleScheduler.requeueRewardCycle], [drainRetryQueue] *)
Definition requeueRewardCycle (n : string) (st : State) : State :=
  set_process st (acquisitions st) (contentionTotal st) (doubleSpendPreventedTotal st)
    (retryQueue st ++ [n]).
Definition drainRetryQueue (st : State) : State * list string :=
  (set_process st (acquisitions st) (contentionTotal st) (doubleSpendPreventedTotal st) [],
   retryQueue st).

Definition skipped (n : string) : RewardDistributionResult := mkDistribution n "0.0000000" Skipped.

(** The body of the [try]. *)
Definition distributeLocked (n : string) : Prog RewardDistributionResult :=
  let sp := savepointName n in
  then_ (acquireRewardNodeLock n) (fun _ =>
  then_ (local countAcquisition) (fun _ =>
  await row := selectPending n in
  let pendingAmount := default "0" row in
  match parseUnits pendingAmount with
  | inl e => Raise e
  | inr u =>
      if u <=? 0 then await _r := releaseSavepoint sp in Return (skipped n)
      else match computeAllocations [mkAllocation n pendingAmount] pendingAmount with
           | inl e => Raise e
           | inr [] => await _r := releaseSavepoint sp in Return (skipped n)
           | inr (allocation :: _) =>
               await _i := insertReward n (amount allocation) in
               await _u := subtractPending n (amount allocation) in
               then_ (local countDistribution) (fun _ =>
               await _r := releaseSavepoint sp in
               Return (mkDistribution n (amount allocation) Distributed))
           end
  end)).

Definition onDistributeError (n : string) (error : RewardError) : Prog RewardDistributionResult :=
  let sp := savepointName n in
  await _b := rollbackToSavepoint sp in
  await _r := releaseSavepoint sp in
  if isLockTimeoutError error then
    then_ (local countContention) (fun _ =>
    then_ (if hasRequeue then local (requeueRewardCycle n) else Return tt) (fun _ =>
    Return (mkDistribution n "0.0000000" Requeued)))
  else Raise error.

Definition computeAndDistributeNodeReward (n : string) : Prog RewardDistributionResult :=
  transaction commit rollback (
    await _s := savepoint (savepointName n) in
    try_ (distributeLocked n) (onDistributeError n)).
End distributor.

(** ** Every node is paid once *)

(** A node whose pending amount is the whole pool gets exactly that amount. *)
Lemma computeAllocations_own n v :
  0 < v -> computeAllocations [mkAllocation n (formatUnits v)] (formatUnits v) =
           if REWARD_POOL_MAX_UNITS <? v then inl PoolOutOfBounds
           else inr [mkAllocation n (formatUnits v)].
Proof.
  intros Hv. unfold computeAllocations. cbn [map_sum amount nodeId].
  rewrite parse_format by lia. unfold REWARD_POOL_MIN_UNITS.
  rewrite (proj2 (Z.ltb_ge _ _)) by lia. cbn [orb].
  destruct (REWARD_POOL_MAX_UNITS <? v); [done|].
  unfold positiveUnits. rewrite filter_cons, decide_True by done. cbn [filter list_filter].
  unfold totalOf. cbn [foldl u_amount]. rewrite (proj2 (Z.eqb_neq _ _)) by lia.
  cbn [fmap list_fmap filter_sum amount u_nodeId]. unfold share. cbn [u_amount].
  rewrite Z.add_0_l, Z.quot_mul, parse_format by lia.
  by rewrite (proj2 (Z.ltb_lt _ _)).
Qed.

#[local] Arguments of_session : simpl never.
#[local] Arguments not_of_session : simpl never.
#[local] Arguments owned : simpl never.
#[local] Arguments unlock : simpl never.

Section paid_once.
Context (hashtext : string -> Z) (setTakesParameter hasRequeue : bool) (init : gmap string Z).
Context (Hinit : map_Forall (fun _ v => 0 <= v) init).

Definition initial : State := mkState init [] ∅ [] ∅ 0 0 0 [].

Definition body : string -> Prog RewardDistributionResult :=
  computeAndDistributeNodeReward hashtext setTakesParameter hasRequeue.

Definition paid (n : string) (st : State) : list Payment :=
  filter (fun p => p_node p = n) (reward_tx st).

(** Nothing paid and all pending, or one payment of all that was pending. *)
Definition account (n : string) (st : State) : Prop :=
  (paid n st = [] /\ pending st !! n = init !! n) \/
  (exists p, paid n st = [p] /\ init !! n = Some (p_amount p) /\
     0 < p_amount p <= REWARD_POOL_MAX_UNITS /\
     pending st !! n = Some 0 /\ setTakesParameter = true).

Definition Inv (st : State) : Prop := forall n, account n st.

Definition own (sid : nat) (st : State) : gmap string Z := owned sid (locks st).
Definition mine (sid : nat) (st : State) : list Payment := of_session sid (uncommitted st).
Definition payments (sid : nat) (st : State) : list Payment := of_session sid (reward_tx st).

Record Rely (sid : nat) (st st' : State) : Prop := {
  rely_own : own sid st' = own sid st;
  rely_mine : mine sid st' = mine sid st;
  rely_payments : payments sid st' = payments sid st;
  rely_pending n : is_Some (own sid st !! n) -> pending st' !! n = pending st !! n
}.

Abbreviation Guar := (guar Rely).

(** Session [sid] holds [o], has inserted [ps], and has committed nothing. *)
Definition local_state (sid : nat) (o : gmap string Z) (ps : list Payment) (st : State) : Prop :=
  own sid st = o /\ mine sid st = ps /\ payments sid st = [].

Definition idle (sid : nat) : State -> Prop := local_state sid ∅ [].

(** It has locked the row of [n], found as [v], and left it as [v']. *)
Definition holding (sid : nat) (n : string) (v v' : Z) (ps : list Payment) (st : State) : Prop :=
  local_state sid {[n := v']} ps st /\ pending st !! n = Some v.

Definition unpaid (sid : nat) (st : State) : Prop := payments sid st = [].

Definition Post (sid : nat) (n : string) (r : RewardError + RewardDistributionResult)
    (st : State) : Prop :=
  match r with
  | inl e => unpaid sid st \/ (e = CONNECTION_LOST /\ exists v, payments sid st = [mkPayment sid n v])
  | inr (mkDistribution n' a Distributed) =>
      n' = n /\ exists v, payments sid st = [mkPayment sid n v] /\ a = formatUnits v
  | inr (mkDistribution n' a _) => n' = n /\ a = "0.0000000" /\ unpaid sid st
  end.

Lemma reward_Rely_refl sid st : Rely sid st st.
Proof. done. Qed.

Lemma reward_Rely_trans sid st1 st2 st3 : Rely sid st1 st2 -> Rely sid st2 st3 -> Rely sid st1 st3.
Proof.
  intros [O1 M1 P1 R1] [O2 M2 P2 R2]. split; [congruence..|].
  intros n Hn. rewrite R2, R1; [done|done|]. by rewrite O1.
Qed.

Lemma reward_Guar_refl sid st : Guar sid st st.
Proof. intros o _. apply reward_Rely_refl. Qed.

Lemma local_stable sid o ps st st' : Rely sid st st' -> local_state sid o ps st -> local_state sid o ps st'.
Proof. intros [HO HM HP _] (? & ? & ?). split_and!; congruence. Qed.

Lemma reward_holding_stable sid n v v' ps st st' :
  Rely sid st st' -> holding sid n v v' ps st -> holding sid n v v' ps st'.
Proof.
  intros HR [Hl Hp]. split; [by eapply local_stable|].
  rewrite (rely_pending _ _ _ HR); [done|]. destruct Hl as (-> & _ & _).
  by rewrite lookup_singleton_eq.
Qed.

Lemma unpaid_stable sid st st' : Rely sid st st' -> unpaid sid st -> unpaid sid st'.
Proof. intros [_ _ HP _]. unfold unpaid. congruence. Qed.

Lemma reward_Post_stable sid n r st st' : Rely sid st st' -> Post sid n r st -> Post sid n r st'.
Proof.
  intros [_ _ HP _]. unfold Post, unpaid. destruct r as [e|[n' a []]]; by rewrite HP.
Qed.

Lemma of_not_of_session o sid l :
  of_session o (not_of_session sid l) = if bool_decide (o = sid) then [] else of_session o l.
Proof.
  unfold of_session, not_of_session. induction l as [|p l IH]; [by case_bool_decide|].
  rewrite !filter_cons. repeat case_decide; rewrite ?filter_cons, ?IH;
    case_bool_decide; repeat case_decide; congruence.
Qed.

Lemma of_session_other o sid l : o <> sid -> of_session o (of_session sid l) = [].
Proof.
  intros Ho. unfold of_session. induction l as [|p l IH]; [done|].
  rewrite (filter_cons (fun p => by_session p = sid)). case_decide; [|done].
  rewrite filter_cons, decide_False, IH; congruence.
Qed.

Lemma of_session_app o l l' : of_session o (l ++ l') = of_session o l ++ of_session o l'.
Proof. apply filter_app. Qed.

(** *** Changes of the database *)

Lemma change_rest (sid : nat) st st' :
  pending st' = pending st -> reward_tx st' = reward_tx st ->
  (forall o, o <> sid -> own o st' = own o st /\ mine o st' = mine o st) ->
  Inv st -> Inv st' /\ Guar sid st st'.
Proof.
  intros Hp Hr Ho HI. split.
  - intros n. unfold account, paid. rewrite Hp, Hr. apply HI.
  - intros o Hne. destruct (Ho o Hne). split; [done|done| |by rewrite Hp].
    unfold payments. by rewrite Hr.
Qed.

Lemma lock_spec sid n x st :
  locked_by_other sid n (locks st) = false -> Inv st ->
  let st' := set_db st (pending st) (reward_tx st) (<[n := (sid, x)]> (locks st))
               (uncommitted st) (advisory st) in
  Inv st' /\ Guar sid st st' /\ own sid st' = <[n := x]> (own sid st).
Proof.
  intros Hl HI st'. destruct (change_rest sid st st') as [? ?]; [done|done| |done|].
  { intros o Ho. split; [|done]. by apply owned_insert_other. }
  split; [done|]. split; [done|]. apply owned_insert.
Qed.

Lemma insert_spec sid p st :
  by_session p = sid -> Inv st ->
  let st' := set_db st (pending st) (reward_tx st) (locks st) (uncommitted st ++ [p]) (advisory st) in
  Inv st' /\ Guar sid st st' /\ mine sid st' = mine sid st ++ [p].
Proof.
  intros Hp HI st'.
  assert (Hm : forall o, mine o st' = mine o st ++ (if bool_decide (o = sid) then [p] else [])).
  { intros o. unfold mine. cbn. rewrite of_session_app. f_equal. unfold of_session.
    rewrite filter_cons, filter_nil. case_decide; case_bool_decide; congruence. }
  destruct (change_rest sid st st') as [? ?]; [done|done| |done|].
  { intros o Ho. by rewrite Hm, bool_decide_false, app_nil_r. }
  split; [done|]. split; [done|]. by rewrite Hm, bool_decide_true.
Qed.

Lemma reward_rollback_spec sid st :
  Inv st -> Inv (rollback_ sid st) /\ Guar sid st (rollback_ sid st) /\
  (unpaid sid st -> idle sid (rollback_ sid st)).
Proof.
  intros HI. destruct (change_rest sid st (rollback_ sid st)) as [? ?]; [done|done| |done|].
  { intros o Ho. unfold own, mine. cbn.
    by rewrite owned_unlock, of_not_of_session, !bool_decide_false. }
  split; [done|]. split; [done|]. intros Hu. unfold idle, local_state, own, mine. cbn.
  by rewrite owned_unlock, of_not_of_session, !bool_decide_true.
Qed.

Lemma commit_others sid st o :
  o <> sid -> own o (commit_ sid st) = own o st /\ mine o (commit_ sid st) = mine o st /\
  payments o (commit_ sid st) = payments o st.
Proof.
  intros Ho. unfold own, mine, payments. cbn.
  rewrite owned_unlock, of_not_of_session, !bool_decide_false, of_session_app by done.
  by rewrite of_session_other, app_nil_r.
Qed.

(** Committing a transaction that only read, and one that pays. *)
Lemma commit_read_spec sid st :
  (forall n x, own sid st !! n = Some x -> pending st !! n = Some x) -> mine sid st = [] ->
  Inv st -> Inv (commit_ sid st) /\ Guar sid st (commit_ sid st) /\
            payments sid (commit_ sid st) = payments sid st.
Proof.
  intros Ho Hm HI. unfold mine in Hm.
  assert (Hpend : pending (commit_ sid st) = pending st).
  { apply map_eq. intros n. cbn. rewrite lookup_union. fold (own sid st).
    destruct (own sid st !! n) as [x|] eqn:Hx; [rewrite (Ho _ _ Hx)|]; by destruct (pending st !! n). }
  assert (Htx : reward_tx (commit_ sid st) = reward_tx st) by (cbn; by rewrite Hm, app_nil_r).
  destruct (change_rest sid st (commit_ sid st)) as [? ?]; [done|done| |done|].
  { intros o Hne. by destruct (commit_others sid st o Hne) as (? & ? & _). }
  split_and!; [done..|]. unfold payments. by rewrite Htx.
Qed.

Lemma commit_pay_spec sid n v st :
  holding sid n v 0 [mkPayment sid n v] st -> 0 < v <= REWARD_POOL_MAX_UNITS ->
  setTakesParameter = true -> Inv st ->
  Inv (commit_ sid st) /\ Guar sid st (commit_ sid st) /\
  payments sid (commit_ sid st) = [mkPayment sid n v].
Proof.
  intros [(Ho & Hm & Hp) Hpend] Hv Hset HI. unfold own in Ho. unfold mine in Hm.
  split_and!.
  - intros m. specialize (HI m). unfold account, paid in *.
    change (pending (commit_ sid st)) with (owned sid (locks st) ∪ pending st).
    rewrite (committed_lookup _ _ _ _ _ _ Ho).
    change (reward_tx (commit_ sid st)) with (reward_tx st ++ of_session sid (uncommitted st)).
    rewrite Hm, filter_app, filter_cons, filter_nil. cbn [p_node].
    destruct (decide (n = m)) as [->|Hne]; [|by rewrite app_nil_r].
    right. exists (mkPayment sid m v). destruct HI as [[-> Hi]|(p & _ & _ & ? & Hz & _)].
    + cbn. split_and!; [done|congruence|lia|lia|done|done].
    + exfalso. rewrite Hpend in Hz. naive_solver lia.
  - intros o Hne. destruct (commit_others sid st o Hne) as (? & ? & ?). split; [done..|].
    intros m [x Hx]. change (pending (commit_ sid st)) with (owned sid (locks st) ∪ pending st).
    rewrite (committed_lookup _ _ _ _ _ _ Ho), decide_False; [done|]. intros <-.
    apply owned_lookup in Hx.
    assert (Hs : locks st !! n = Some (sid, 0)) by (apply owned_lookup; by rewrite Ho, lookup_singleton_eq).
    rewrite Hs in Hx. by injection Hx.
  - unfold payments in *. change (reward_tx (commit_ sid st)) with
      (reward_tx st ++ of_session sid (uncommitted st)).
    rewrite of_session_app, Hp, Hm. unfold of_session. by rewrite filter_cons, decide_True.
Qed.
(** *** Each statement *)

Abbreviation Safe := (safe CONNECTION_LOST rollback_ Inv Rely).
Abbreviation upto sid := (upto (unpaid sid)).

Definition unknown (sid : nat) (n : string) (st : State) : Prop :=
  unpaid sid st \/ exists v, payments sid st = [mkPayment sid n v].

Lemma reward_statement_safe {B} sid n (q : Stmt B) (K : B -> State -> Prop) st :
  (forall st1, Rely sid st st1 -> Inv st1 -> unpaid sid st1 /\
     forall st2 r, q sid st1 = Some (st2, r) ->
       Inv st2 /\ Guar sid st1 st2 /\ upto sid K r st2 /\ unknown sid n st2) ->
  Safe sid (unknown sid n) (upto sid K) (query q) st.
Proof. apply statement_safe; [by left|done]. Qed.

(** Statements that keep what the session knows. *)
Definition stable (sid : nat) (K : State -> Prop) : Prop :=
  forall st st', Rely sid st st' -> K st -> K st' /\ unpaid sid st'.

Lemma keep_safe {B} sid n (K : State -> Prop) (q : Stmt B) st :
  stable sid K -> K st ->
  (forall st1 st2 r, Inv st1 -> q sid st1 = Some (st2, r) ->
     Inv st2 /\ Guar sid st1 st2 /\ (K st1 -> K st2 /\ unpaid sid st2)) ->
  Safe sid (unknown sid n) (upto sid (fun _ => K)) (query q) st.
Proof.
  intros HK Hst Hq. apply reward_statement_safe. intros st1 HR HI. destruct (HK _ _ HR Hst) as [HK1 Hu1].
  split; [done|]. intros st2 r Hr. destruct (Hq _ _ _ HI Hr) as (? & ? & H2).
  destruct (H2 HK1) as [? ?]. split_and!; [done..| |by left]. by destruct r.
Qed.

Lemma reward_noop_safe sid n (K : State -> Prop) st :
  stable sid K -> K st -> Safe sid (unknown sid n) (upto sid (fun _ => K)) (query noop) st.
Proof.
  intros HK Hst. apply keep_safe; [done..|]. intros st1 st2 r HI [= <- <-].
  split_and!; [done|apply reward_Guar_refl|]. intros H1. by apply (HK st1 st1 (reward_Rely_refl _ _)).
Qed.

Lemma reward_idle_stable sid : stable sid (idle sid).
Proof.
  intros st st' HR Hi. pose proof (local_stable _ _ _ _ _ HR Hi) as H. split; [done|apply H].
Qed.

Lemma held_stable sid n v v' ps : stable sid (holding sid n v v' ps).
Proof.
  intros st st' HR Hh. pose proof (reward_holding_stable _ _ _ _ _ _ _ HR Hh) as H.
  split; [done|apply H].
Qed.

Lemma process_safe sid n (K : State -> Prop) f st :
  stable sid K -> K st -> (forall st, K st -> K (f st)) ->
  (forall st, f st = set_process st (acquisitions (f st)) (contentionTotal (f st))
                       (doubleSpendPreventedTotal (f st)) (retryQueue (f st))) ->
  Safe sid (unknown sid n) (upto sid (fun _ => K)) (local f) st.
Proof.
  intros HK Hst Hf Hp. apply local_safe. intros st1 HR HI. destruct (HK _ _ HR Hst) as [HK1 _].
  assert (Inv (f st1) /\ Guar sid st1 (f st1)) as [? ?]
    by (rewrite Hp; by apply (change_rest sid)).
  auto.
Qed.

Lemma advisoryLock_safe sid n key st :
  idle sid st -> Safe sid (unknown sid n) (upto sid (fun _ => idle sid)) (query (advisoryLock key)) st.
Proof.
  intros Hi. apply keep_safe; [apply reward_idle_stable|done|]. intros st1 st2 r HI. unfold advisoryLock.
  destruct (advisory st1 !! key) as [o|].
  - case_bool_decide; [|done]. intros [= <- <-]. split_and!; [done|apply reward_Guar_refl|].
    intros Hi1. split; [done|apply Hi1].
  - intros [= <- <-]. destruct (change_rest sid st1 (set_db st1 (pending st1) (reward_tx st1)
      (locks st1) (uncommitted st1) (<[key := sid]> (advisory st1)))) as [HI2 HG]; [done..|].
    split_and!; [done..|]. intros H. split; [exact H|apply H].
Qed.

Lemma setLockTimeout_safe sid n ms st :
  idle sid st ->
  Safe sid (unknown sid n) (upto sid (fun _ st' => idle sid st' /\ setTakesParameter = true))
    (query (setLockTimeout setTakesParameter ms)) st.
Proof.
  intros Hi. apply reward_statement_safe. intros st1 HR HI. destruct (reward_idle_stable _ _ _ HR Hi) as [Hi1 Hu1].
  split; [done|]. intros st2 r. unfold setLockTimeout.
  destruct setTakesParameter eqn:?; intros [= <- <-]; split_and!; first [done|apply reward_Guar_refl|by left].
Qed.

Lemma pending_nonneg n v st : Inv st -> pending st !! n = Some v -> 0 <= v.
Proof.
  intros HI Hv. destruct (HI n) as [[_ Hn]|(p & _ & _ & _ & Hn & _)]; [|naive_solver lia].
  rewrite Hn in Hv. by apply (Hinit n).
Qed.

Lemma selectPending_safe sid n st :
  idle sid st ->
  Safe sid (unknown sid n) (upto sid (fun row st' => match row with
      | None => idle sid st'
      | Some a => exists v, a = formatUnits v /\ 0 <= v /\ holding sid n v v [] st'
      end)) (query (selectPending n)) st.
Proof.
  intros Hi. apply reward_statement_safe. intros st1 HR HI. destruct (reward_idle_stable _ _ _ HR Hi) as [Hi1 Hu1].
  destruct Hi1 as (Ho & Hm & Hp).
  split; [done|]. intros st2 r. unfold selectPending. rewrite (visible_unowned _ _ _ _ Ho).
  destruct (pending st1 !! n) as [v|] eqn:Hv.
  - destruct (locked_by_other sid n (locks st1)) eqn:Hl; [done|]. intros [= <- <-].
    destruct (lock_spec sid n v st1 Hl HI) as (? & ? & Ho'). split_and!; [done..| |by left].
    cbn [Sessions.upto]. exists v. split; [done|]. split; [by eapply pending_nonneg|].
    split; [|done]. split_and!; [|done|done].
    by rewrite Ho', Ho, insert_empty.
  - intros [= <- <-]. split_and!; [done|apply reward_Guar_refl|done|by left].
Qed.

Lemma insertReward_safe sid n v st :
  0 < v -> holding sid n v v [] st ->
  Safe sid (unknown sid n) (upto sid (fun _ => holding sid n v v [mkPayment sid n v]))
    (query (insertReward n (formatUnits v))) st.
Proof.
  intros Hv Hh. apply reward_statement_safe. intros st1 HR HI.
  destruct (held_stable _ _ _ _ _ _ _ HR Hh) as [[(Ho & Hm & Hp) Hpend] Hu].
  split; [done|]. intros st2 r. unfold insertReward. rewrite parse_format by lia.
  rewrite (proj2 (Z.leb_gt _ _)), (visible_owned _ _ _ _ _ Ho), (owned_not_other _ _ _ _ Ho) by done.
  intros [= <- <-]. destruct (insert_spec sid (mkPayment sid n v) st1) as (? & ? & Hm'); [done..|].
  split_and!; [done..| |by left]. split; [|done]. split_and!; [done| |done]. by rewrite Hm', Hm.
Qed.

Lemma subtractPending_safe sid n v ps st :
  0 < v -> holding sid n v v ps st ->
  Safe sid (unknown sid n) (upto sid (fun _ => holding sid n v 0 ps))
    (query (subtractPending n (formatUnits v))) st.
Proof.
  intros Hv Hh. apply reward_statement_safe. intros st1 HR HI.
  destruct (held_stable _ _ _ _ _ _ _ HR Hh) as [[(Ho & Hm & Hp) Hpend] Hu].
  split; [done|]. intros st2 r. unfold subtractPending. rewrite parse_format by lia.
  pose proof (owned_not_other _ _ _ _ Ho) as Hl.
  rewrite (visible_owned _ _ _ _ _ Ho), Hl, Z.sub_diag. intros [= <- <-].
  destruct (lock_spec sid n 0 st1 Hl HI) as (? & ? & Ho').
  split_and!; [done..| |by left]. split; [|done]. split_and!; [|done|done].
  by rewrite Ho', Ho, insert_singleton_eq.
Qed.
(** *** The program *)

Lemma acquire_safe sid n st :
  idle sid st ->
  Safe sid (unknown sid n) (upto sid (fun _ st' => idle sid st' /\ setTakesParameter = true))
    (acquireRewardNodeLock hashtext setTakesParameter n) st.
Proof.
  intros Hi. unfold acquireRewardNodeLock.
  apply safe_try with (Q1 := upto sid (fun _ st' => idle sid st' /\ setTakesParameter = true));
    [|done| |done].
  - eapply safe_then; [by apply setLockTimeout_safe| |done]. intros [] st1 [Hi1 Hset].
    eapply safe_mono; [|done|by apply advisoryLock_safe]. by intros [e|[]] st2 H.
  - intros e st1 Hu. by destruct (isLockTimeoutError e).
Qed.

(** The transaction is ready to commit: it has paid or it has changed nothing. *)
Definition clean (sid : nat) (st : State) : Prop :=
  idle sid st \/ exists n v, holding sid n v v [] st.

Definition ready (sid : nat) (n : string) (res : RewardDistributionResult) (st : State) : Prop :=
  match status res with
  | Distributed => exists v, res = mkDistribution n (formatUnits v) Distributed /\
      holding sid n v 0 [mkPayment sid n v] st /\ 0 < v <= REWARD_POOL_MAX_UNITS /\
      setTakesParameter = true
  | s => res = mkDistribution n "0.0000000" s /\ clean sid st
  end.

Lemma clean_stable sid : stable sid (clean sid).
Proof.
  intros st st' HR [Hi|(n & v & Hh)].
  - destruct (reward_idle_stable _ _ _ HR Hi). split; [by left|done].
  - destruct (held_stable _ _ _ _ _ _ _ HR Hh). split; [right; eauto|done].
Qed.

Lemma clean_unpaid sid st : clean sid st -> unpaid sid st.
Proof. intros H. by apply (clean_stable sid st st (reward_Rely_refl _ _)). Qed.

Lemma release_safe sid n sp (K : State -> Prop) (res : RewardDistributionResult) st :
  stable sid K -> K st -> (forall st', K st' -> ready sid n res st') ->
  Safe sid (unknown sid n) (upto sid (ready sid n))
    (await _r := releaseSavepoint sp in Return res) st.
Proof.
  intros HK Hst Hr. eapply safe_then; [by apply (reward_noop_safe sid n K)| |done].
  intros u st1 H1. cbn. by apply Hr.
Qed.

Lemma distributeLocked_safe sid n st :
  idle sid st ->
  Safe sid (unknown sid n) (upto sid (ready sid n))
    (distributeLocked hashtext setTakesParameter n) st.
Proof.
  intros Hi. unfold distributeLocked.
  eapply safe_then; [by apply acquire_safe| |done]. intros [] st1 [Hi1 Hset].
  eapply safe_then; [apply (process_safe sid n (idle sid)); [apply reward_idle_stable|done..]| |done].
  intros u st2 Hi2. eapply safe_then; [by apply selectPending_safe| |done].
  assert (Hskip : forall st, clean sid st -> Safe sid (unknown sid n) (upto sid (ready sid n))
      (await _r := releaseSavepoint (savepointName n) in Return (skipped n)) st).
  { intros st3 H3. apply (release_safe sid n _ (clean sid)); [apply clean_stable|done|by split]. }
  intros [a|] st3; cbn [Sessions.upto]; [|intros Hi3; apply Hskip; by left].
  intros (v & -> & Hv & Hh). change (default "0" (Some ?x)) with x. rewrite parse_format by done.
  destruct (Z.leb_spec v 0) as [_|Hpos]; [apply Hskip; right; eauto|].
  rewrite computeAllocations_own by done. destruct (REWARD_POOL_MAX_UNITS <? v) eqn:Hmax.
  { by apply Hh. }
  bool_props. cbn [amount].
  eapply safe_then; [by apply insertReward_safe| |done]. intros u4 st4 H4.
  eapply safe_then; [by apply subtractPending_safe| |done]. intros u5 st5 H5.
  pose proof (held_stable sid n v 0 [mkPayment sid n v]) as HK.
  eapply safe_then; [by apply (process_safe sid n (holding sid n v 0 [mkPayment sid n v]))| |done]. intros u6 st6 H6.
  apply (release_safe sid n _ (holding sid n v 0 [mkPayment sid n v])); [done|exact H6|].
  intros st7 H7. exists v. split; [done|]. split; [exact H7|]. split; [lia|done].
Qed.

Lemma rollbackTo_safe sid n st :
  unpaid sid st -> Safe sid (unknown sid n) (upto sid (fun _ => idle sid)) (query rollback) st.
Proof.
  intros Hu. apply reward_statement_safe. intros st1 HR HI. pose proof (unpaid_stable _ _ _ HR Hu).
  split; [done|]. intros st2 r [= <- <-]. destruct (reward_rollback_spec sid st1 HI) as (? & ? & Hi).
  split_and!; [done|done|by apply Hi|by left].
Qed.

Lemma onDistributeError_safe sid n e st :
  unpaid sid st ->
  Safe sid (unknown sid n) (upto sid (ready sid n)) (onDistributeError hasRequeue n e) st.
Proof.
  intros Hu. unfold onDistributeError.
  pose proof (reward_idle_stable sid) as HK.
  eapply safe_then; [by apply rollbackTo_safe| |done]. intros [] st1 H1.
  eapply safe_then; [by apply (reward_noop_safe sid n (idle sid))| |done]. intros [] st2 H2.
  destruct (isLockTimeoutError e); [|apply H2].
  eapply safe_then; [by apply (process_safe sid n (idle sid))| |done]. intros [] st3 H3.
  apply safe_then with (Q1 := upto sid (fun _ => idle sid)); [| |done].
  - destruct hasRequeue; [by apply (process_safe sid n (idle sid))|done].
  - intros u st4 H4. split; [done|by left].
Qed.

Lemma reward_commit_safe sid n res st :
  ready sid n res st ->
  Safe sid (unknown sid n) (upto sid (fun _ => Post sid n (inr res))) (query commit) st.
Proof.
  intros Hr. apply reward_statement_safe. intros st1 HR HI. unfold ready in Hr.
  assert (Hclean : clean sid st -> Inv (commit_ sid st1) /\ Guar sid st1 (commit_ sid st1) /\
            unpaid sid (commit_ sid st1) /\ unpaid sid st1).
  { intros Hc. destruct (clean_stable _ _ _ HR Hc) as [Hc1 Hu1].
    destruct (commit_read_spec sid st1) as (? & ? & Hp); [| |done|].
    - destruct Hc1 as [[Ho _]|(m & v & [(Ho & _) Hp])]; intros k x; rewrite Ho; [done|].
      rewrite lookup_singleton_Some. by intros [<- <-].
    - by destruct Hc1 as [(_ & Hm & _)|(m & v & [(_ & Hm & _) _])].
    - split_and!; [done..| |done]. unfold unpaid. by rewrite Hp. }
  destruct res as [n' a []]; cbn in Hr.
  - destruct Hr as (v & [= -> ->] & Hh & Hv & Hset).
    destruct (held_stable _ _ _ _ _ _ _ HR Hh) as [Hh1 Hu1]. split; [done|].
    intros st2 r [= <- <-]. destruct (commit_pay_spec sid n v st1) as (? & ? & ?); [done..|].
    split_and!; [done|done|split; eauto|right; eauto].
  - destruct Hr as [[= -> ->] Hc]. destruct (Hclean Hc) as (? & ? & ? & ?). split; [done|].
    intros st2 r [= <- <-]. split_and!; [done|done|by split_and!|by left].
  - destruct Hr as [[= -> ->] Hc]. destruct (Hclean Hc) as (? & ? & ? & ?). split; [done|].
    intros st2 r [= <- <-]. split_and!; [done|done|by split_and!|by left].
Qed.

Abbreviation Settles := (settles CONNECTION_LOST rollback_ Inv Rely Post).

Lemma body_settles sid n st : idle sid st -> Settles sid n (body n) st.
Proof.
  intros Hi. unfold body, computeAndDistributeNodeReward. apply safe_settles.
  apply safe_mono with (L1 := unknown sid n) (Q1 := upto sid (fun res => Post sid n (inr res))).
  { intros [e|res] st' H; [by left|exact H]. }
  { intros st' [?|?]; [by left|by right]. }
  pose proof (reward_idle_stable sid) as HK. unfold transaction.
  eapply safe_then; [by apply (reward_noop_safe sid n (idle sid))| |done]. intros u1 st1 H1.
  apply safe_try with (Q1 := upto sid (fun res => Post sid n (inr res))); [|done| |done].
  - eapply safe_then; [by apply (reward_noop_safe sid n (idle sid))| |done]. intros u2 st2 H2.
    apply safe_then with (Q1 := upto sid (ready sid n)); [| |done].
    + eapply safe_then; [by apply (reward_noop_safe sid n (idle sid))| |done]. intros u3 st3 H3.
      eapply safe_try; [by apply distributeLocked_safe|done| |done].
      intros e st4 H4. by apply onDistributeError_safe.
    + intros res st3 H3. eapply safe_then; [by apply reward_commit_safe| |done].
      by intros u4 st4 H4.
  - intros e st2 H2. eapply safe_then; [by apply rollbackTo_safe| |done].
    intros u3 st3 H3. apply H3.
Qed.

#[local] Instance rewards_protocol :
  SessionProtocol body CONNECTION_LOST rollback_ Inv Rely Post idle.
Proof.
  split.
  - apply reward_Rely_refl.
  - apply reward_Rely_trans.
  - apply reward_Post_stable.
  - intros sid st st' HR. apply reward_idle_stable, HR.
  - intros sid st HI. by apply reward_rollback_spec.
  - intros sid st HI. by apply reward_rollback_spec.
  - intros. by apply body_settles.
Qed.
Abbreviation distribution := (run body CONNECTION_LOST rollback_ initial).

Lemma distribution_safe evs :
  Inv (w_db (distribution evs)) /\
  forall sid n r, outcome (distribution evs) sid = Some (n, r) ->
    Post sid n r (w_db (distribution evs)).
Proof.
  assert (HI : Inv initial) by (intros n; by left).
  split; [by apply (run_safe body CONNECTION_LOST rollback_ Inv Rely Post idle)|].
  intros sid n r. by apply (run_outcome body CONNECTION_LOST rollback_ Inv Rely Post idle).
Qed.

(** C18: however distributions of any nodes overlap, fail, time out or lose their
    connections, each node has either been paid nothing and kept its pending
    amount, or been paid exactly that amount, once and within the bounds of a
    pool, with nothing left pending; a distribution that reports an amount has
    paid it, and one that is skipped, requeued or throws has paid nothing (unless
    its connection broke). *)
Theorem rewards_paid_once evs :
  (forall n, account n (w_db (distribution evs))) /\
  (forall sid n r, outcome (distribution evs) sid = Some (n, r) ->
     Post sid n r (w_db (distribution evs))).
Proof. apply distribution_safe. Qed.

(** on a server that takes no bind parameter in SET, as PostgreSQL, no run
    ever pays a reward. *)
Theorem bind_parameter_blocks_rewards evs :
  setTakesParameter = false -> reward_tx (w_db (distribution evs)) = [].
Proof.
  intros Hset. destruct (distribution_safe evs) as [HI _].
  destruct (reward_tx _) as [|p l] eqn:E; [done|].
  destruct (HI (p_node p)) as [[Hp _]|(q & _ & _ & _ & _ & ?)]; [|congruence].
  unfold paid in Hp. rewrite E, filter_cons, decide_True in Hp; done.
Qed.
End paid_once.

(** ** Runs *)

Module Examples.
Local Open Scope string_scope.
Local Open Scope list_scope.

Definition length_hash (s : string) : Z := Z.of_nat (String.length s).
Definition amounts0 : gmap string Z := {["a" := 125000000; "b" := 0]}.

Lemma amounts0_nonneg : map_Forall (fun _ v => 0 <= v) amounts0.
Proof. apply map_Forall_insert_2; [done|]. by apply map_Forall_singleton. Qed.

Definition exec (sid k : nat) : list (Event (E := RewardError) (Call := string)) :=
  replicate k (Exec sid).
Definition server (accepts : bool) := run (body length_hash accepts true) CONNECTION_LOST rollback_ (initial amounts0).

(** Two distributions of [a] at once: the second waits for the advisory lock and
    then finds nothing pending; its lock timing out requeues it instead. *)
Definition overlap : list (Event (E := RewardError)) :=
  [Start 1 "a"; Start 2 "a"] ++ exec 1 8 ++ exec 2 9 ++ exec 1 9 ++ exec 2 9.
Definition timeout : list (Event (E := RewardError)) :=
  [Start 1 "a"; Start 2 "a"] ++ exec 1 8 ++ exec 2 4 ++
  [Refuse 2 (ServerError (Some "55P03") "canceling statement due to lock timeout")] ++
  exec 2 9 ++ exec 1 9.

Example overlap_outcome :
  let w := server true overlap in
  (outcome w 1, outcome w 2, pending (w_db w) !! "a") =
  (Some ("a", inr (mkDistribution "a" "12.5000000" Distributed)),
   Some ("a", inr (mkDistribution "a" "0.0000000" Skipped)), Some 0).
Proof. vm_compute. reflexivity. Qed.

Example timeout_outcome :
  let w := server true timeout in
  (outcome w 2, retryQueue (w_db w), contentionTotal (w_db w), length (reward_tx (w_db w))) =
  (Some ("a", inr (mkDistribution "a" "0.0000000" Requeued)), ["a"], 1%nat, 1%nat).
Proof. vm_compute. reflexivity. Qed.

Lemma allocations_within_pool_witness :
  exists pool, parseUnits "10" = inr pool /\ pool <= REWARD_POOL_MAX_UNITS.
Proof.
  destruct (allocations_within_pool [mkAllocation "a" "1"; mkAllocation "b" "1"; mkAllocation "c" "1"] "10"
    [mkAllocation "a" "3.3333333"; mkAllocation "b" "3.3333333"; mkAllocation "c" "3.3333333"])
    as (pool & units & Hp & Hb & _); [vm_compute; reflexivity|].
  exists pool. split; [exact Hp|apply Hb].
Defined.

Lemma rewards_paid_once_witness :
  account true amounts0 "a" (w_db (server true overlap)) /\
  Post 1 "a" (inr (mkDistribution "a" "12.5000000" Distributed)) (w_db (server true overlap)).
Proof.
  destruct (rewards_paid_once length_hash true true amounts0 amounts0_nonneg overlap) as [H1 H2].
  split; [apply H1|]. apply H2. vm_compute. reflexivity.
Defined.

Lemma bind_parameter_blocks_rewards_witness : reward_tx (w_db (server false overlap)) = [].
Proof.
  apply (bind_parameter_blocks_rewards length_hash false true amounts0 amounts0_nonneg). reflexivity.
Defined.
End Examples.
