(* ===== verification/SlashingExecution.v ===== *)
(** * Slashing penalties and their execution
    ([src/src/slashing/penaltyCalculator.ts], [src/src/slashing/executor.ts],
    [src/src/staking/validatorRegistry.ts],
    [database/migrations/012_slashing_penalty_consistency.sql])

    The registry of validators and the table of slashing events under
    PostgreSQL's locks.  The executor locks the registry, counts the active
    validators, computes the penalty in doubles and records the event; registry
    changes are single statements that wait for the lock.  [wal] is the sequence
    of committed changes.  A NUMERIC column holds the double that was sent: its
    shortest text reads back as the same double.  Timestamps are left out, and so
    are the checks of argument types the compiler makes.

    [penalty_bounds]: the penalty lies between the base and twice the base and
    grows with the number of inactive validators, whatever the roundings.
    [slashings_match_membership]: in every interleaving a call that returns an
    event committed exactly that one, computed from the membership at its
    commit. *)

From Stdlib Require Import ZArith Lia Ascii String QArith Psatz.
From stdpp Require Import base numbers list strings gmap.
From S2P Require Import Prelude Js Number Sessions.
#[local] Open Scope Z_scope.

(** ** The penalty *)

Inductive SlashError :=
  | NotFiniteSafeInteger (name : string)
  | CountTooSmall (name : string)
  | ActiveExceedsTotal
  | BadBasePenalty
  | PenaltyNotFinite
  | EmptyText (name : string)              (* TypeError *)
  | NotRegistered (validatorId : string)
  | InvalidDatabaseCount
  | InsertReturnedNoRow
  | CheckViolation
  | ServerError
  | ConnectionLost.

Definition BASE_SLASHING_PENALTY : number := int 500.

Record PenaltyCalculation := mkPenalty {
  penalty : number;
  multiplier : number;
  activeValidators : Z;
  totalValidators : Z;
  basePenalty : number
}.

(** [assertValidatorCount]; a count that passes is the integer it stands for. *)
Definition assertValidatorCount (value : jsnum) (name : string) (allowZero : bool) : SlashError + Z :=
  match isSafeInteger value with
  | None => inl (NotFiniteSafeInteger name)
  | Some z => if (if allowZero then z <? 0 else z <=? 0) then inl (CountTooSmall name) else inr z
  end.

Definition calculatePenalty (active total : jsnum) (base : number) : SlashError + PenaltyCalculation :=
  match assertValidatorCount total "totalValidators" false with
  | inl e => inl e
  | inr totalValidators =>
      match assertValidatorCount active "activeValidators" true with
      | inl e => inl e
      | inr activeValidators =>
          if totalValidators <? activeValidators then inl ActiveExceedsTotal
          else if negb (isFinite base) || negb (num_lt (int 0) base) then inl BadBasePenalty
          else
            let multiplier :=
              num_add (int 1) (num_div (num_sub (int totalValidators) (int activeValidators))
                                       (int totalValidators)) in
            let penalty := num_mul base multiplier in
            if negb (isFinite penalty) then inl PenaltyNotFinite
            else inr (mkPenalty penalty multiplier activeValidators totalValidators base)
      end
  end.

(** ** The tables *)

Record SlashingRow := mkRow {
  event_id : Z;
  validator_id : string;
  misbehavior_type : string;
  penalty_amount : number;
  base_penalty : number;
  total_validator_count : Z;
  validator_count_at_slashing : Z
}.

(** A committed change. *)
Inductive Commit :=
  | Membership (id : string) (active : bool)
  | Slashed (row : SlashingRow).

Record Db := mkDb {
  registry : gmap string bool;
  holder : option nat;                     (* SHARE ROW EXCLUSIVE on the registry *)
  inserted : gmap nat SlashingRow;         (* by transactions not yet committed *)
  nextEventId : Z;
  wal : list (nat * Commit)
}.

Abbreviation Stmt := (stmt Db SlashError).
Abbreviation Prog := (prog Db SlashError).

Definition set_holder (h : option nat) (db : Db) : Db :=
  mkDb (registry db) h (inserted db) (nextEventId db) (wal db).

Definition active_count (reg : gmap string bool) : Z :=
  Z.of_nat (size (filter (fun kv => kv.2 = true) reg)).

Definition lockedByOther (sid : nat) (db : Db) : bool :=
  match holder db with Some o => negb (bool_decide (o = sid)) | None => false end.

(** ** Statements *)

(** [LOCK TABLE validator_registry IN SHARE ROW EXCLUSIVE MODE] *)
Definition lockTable : Stmt unit := fun sid db =>
  if lockedByOther sid db then None else Some (set_holder (Some sid) db, inr tt).

(** [SELECT COUNT( * ) AS count FROM active_validators] *)
Definition countActive : Stmt Z := fun sid db => Some (db, inr (active_count (registry db))).

(** The CHECK constraints of [slashing_events]. *)
Definition row_ok (r : SlashingRow) : bool :=
  negb (falsy (validator_id r)) && negb (falsy (misbehavior_type r)) &&
  num_lt (int 0) (penalty_amount r) && num_lt (int 0) (base_penalty r) &&
  (0 <? total_validator_count r) && (0 <=? validator_count_at_slashing r) &&
  (validator_count_at_slashing r <=? total_validator_count r).

(** [INSERT INTO slashing_events ... RETURNING ...]; an identity is used up even
    by an insertion that fails. *)
Definition insertEvent (r : Z -> SlashingRow) : Stmt (option SlashingRow) := fun sid db =>
  let row := r (nextEventId db) in
  if row_ok row
  then Some (mkDb (registry db) (holder db) (<[sid := row]> (inserted db)) (nextEventId db + 1) (wal db),
             inr (Some row))
  else Some (mkDb (registry db) (holder db) (inserted db) (nextEventId db + 1) (wal db), inl CheckViolation).

Definition release (sid : nat) (db : Db) : option nat :=
  if lockedByOther sid db then holder db else None.

Definition commit_ (sid : nat) (db : Db) : Db :=
  mkDb (registry db) (release sid db) (delete sid (inserted db)) (nextEventId db)
    (wal db ++ match inserted db !! sid with Some row => [(sid, Slashed row)] | None => [] end).
Definition rollback_ (sid : nat) (db : Db) : Db :=
  mkDb (registry db) (release sid db) (delete sid (inserted db)) (nextEventId db) (wal db).

Definition commit : Stmt unit := fun sid db => Some (commit_ sid db, inr tt).
Definition rollback : Stmt unit := fun sid db => Some (rollback_ sid db, inr tt).

(** A statement that writes the registry needs a lock that conflicts with the
    executor's. *)
Definition writeRegistry (sid : nat) (db : Db) (id : string) (active : bool) : Db :=
  mkDb (<[id := active]> (registry db)) (holder db) (inserted db) (nextEventId db)
    (wal db ++ [(sid, Membership id active)]).

(** [INSERT ... ON CONFLICT (validator_id) DO UPDATE ... RETURNING ...] *)
Definition upsertValidator (id : string) (active : bool) : Stmt (string * bool) := fun sid db =>
  if lockedByOther sid db then None else Some (writeRegistry sid db id active, inr (id, active)).

(** [UPDATE validator_registry SET active = $2 WHERE validator_id = $1 RETURNING ...] *)
Definition updateValidator (id : string) (active : bool) : Stmt (option (string * bool)) := fun sid db =>
  if lockedByOther sid db then None else
  match registry db !! id with
  | Some _ => Some (writeRegistry sid db id active, inr (Some (id, active)))
  | None => Some (db, inr None)
  end.

(** ** [ValidatorRegistry] *)

Definition requireValidatorId (validatorId : string) : SlashError + unit :=
  if blank validatorId then inl (EmptyText "validatorId") else inr tt.

(** Throws an error found before any statement. *)
Definition require {A} (check : SlashError + unit) (p : Prog A) : Prog A :=
  match check with inl e => Raise e | inr _ => p end.

Definition registerValidator (validatorId : string) (active : bool) : Prog (string * bool) :=
  require (requireValidatorId validatorId) (query (upsertValidator validatorId active)).

Definition addValidator (validatorId : string) (active : bool) : Prog (string * bool) :=
  registerValidator validatorId active.

Definition setActive (validatorId : string) (active : bool) : Prog (string * bool) :=
  require (requireValidatorId validatorId) (
    await result := updateValidator validatorId active in
    match result with
    | None => Raise (NotRegistered validatorId)
    | Some membership => Return membership
    end).

Definition activateValidator (validatorId : string) : Prog (string * bool) := setActive validatorId true.
Definition deactivateValidator (validatorId : string) : Prog (string * bool) := setActive validatorId false.
Definition removeValidator (validatorId : string) : Prog (string * bool) := deactivateValidator validatorId.

(** [ORDER BY validator_id], in the order of code units *)
Definition selectActiveIds : Stmt (list string) := fun sid db =>
  Some (db, inr (js_sort (filter (fun kv => kv.2 = true) (map_to_list (registry db))).*1)).
Definition getActiveValidatorIds : Prog (list string) := query selectActiveIds.

Definition parseCount (count : Z) : SlashError + Z :=
  if isSafeZ count && (0 <=? count) then inr count else inl InvalidDatabaseCount.

Definition getActiveValidatorCount : Prog Z :=
  await count := countActive in
  match parseCount count with inl e => Raise e | inr n => Return n end.

(** ** [SlashingExecutor] *)

Record ExecuteSlashingInput := mkInput {
  i_validatorId : string;
  i_misbehaviorType : string;
  i_totalValidators : jsnum
}.

Record SlashingEvent := mkEvent {
  eventId : Z;
  e_validatorId : string;
  e_misbehaviorType : string;
  e_penalty : number;
  e_multiplier : number;
  e_activeValidators : Z;
  e_totalValidators : Z;
  e_basePenalty : number;
  validatorCountAtSlashing : Z
}.

Definition requireText (value name : string) : SlashError + unit :=
  if blank value then inl (EmptyText name) else inr tt.

Definition mapEvent (row : SlashingRow) (calculation : PenaltyCalculation) : SlashingEvent :=
  mkEvent (event_id row) (validator_id row) (misbehavior_type row) (penalty_amount row)
    (multiplier calculation) (validator_count_at_slashing row) (total_validator_count row)
    (base_penalty row) (validator_count_at_slashing row).

Definition eventRow (input : ExecuteSlashingInput) (calculation : PenaltyCalculation) (count : Z)
    (id : Z) : SlashingRow :=
  mkRow id (i_validatorId input) (i_misbehaviorType input) (penalty calculation)
    (basePenalty calculation) (totalValidators calculation) count.

(** What runs inside the transaction, up to and including COMMIT. *)
Definition slashingTransaction (input : ExecuteSlashingInput) : Prog SlashingEvent :=
  await _ := lockTable in
  await count := countActive in
  match parseCount count with
  | inl e => Raise e
  | inr validatorCountAtSlashing =>
      match calculatePenalty (JInt validatorCountAtSlashing) (i_totalValidators input) BASE_SLASHING_PENALTY with
      | inl e => Raise e
      | inr calculation =>
          await result := insertEvent (eventRow input calculation validatorCountAtSlashing) in
          match result with
          | None => Raise InsertReturnedNoRow
          | Some row =>
              await _ := commit in
              Return (mapEvent row calculation)
          end
      end
  end.

(** ROLLBACK, whose own failure is swallowed, and the original error. *)
Definition abort {A} (err : SlashError) : Prog A :=
  then_ (try_ (query rollback) (fun _ => Return tt)) (fun _ => Raise err).

Definition execute (input : ExecuteSlashingInput) : Prog SlashingEvent :=
  require (requireText (i_validatorId input) "validatorId") (
  require (requireText (i_misbehaviorType input) "misbehaviorType") (
    await _ := noop in                       (* pool.connect() *)
    await _ := noop in                       (* BEGIN ISOLATION LEVEL SERIALIZABLE *)
    try_ (slashingTransaction input) abort)).

Definition slash (input : ExecuteSlashingInput) : Prog SlashingEvent := execute input.
Definition executeSlashing (input : ExecuteSlashingInput) : Prog SlashingEvent := execute input.

(** ** Calls *)

Inductive Call :=
  | RegisterValidator (id : string) (active : bool)
  | SetActive (id : string) (active : bool)
  | GetActiveValidatorIds
  | GetActiveValidatorCount
  | Execute (input : ExecuteSlashingInput).

Inductive Result :=
  | Member (id : string) (active : bool)
  | Ids (l : list string)
  | Count (n : Z)
  | Event (e : SlashingEvent).

Definition body (c : Call) : Prog Result :=
  match c with
  | RegisterValidator id active => then_ (registerValidator id active) (fun m => Return (Member m.1 m.2))
  | SetActive id active => then_ (setActive id active) (fun m => Return (Member m.1 m.2))
  | GetActiveValidatorIds => then_ getActiveValidatorIds (fun l => Return (Ids l))
  | GetActiveValidatorCount => then_ getActiveValidatorCount (fun n => Return (Count n))
  | Execute input => then_ (execute input) (fun e => Return (Event e))
  end.

Definition empty_db : Db := mkDb ∅ None ∅ 1 [].

(** Any calls, interleaved in any way, on fresh tables. *)
Abbreviation service := (run body ConnectionLost rollback_ empty_db).

(** ** The penalty is bounded and monotone *)

Lemma to_double_int z : Z.abs z < 2 ^ 53 -> exists r, to_double (inject_Z z) = Finite r /\ (r == inject_Z z)%Q.
Proof. intros H. by apply to_double_exact, is_double_Z. Qed.

Lemma Qle_bool_true x y : (x <= y)%Q -> Qle_bool x y = true.
Proof. by rewrite Qle_bool_iff. Qed.

(** The share of inactive validators, as computed. *)
Definition inactiveShare (active total : Z) : number :=
  num_div (num_sub (int total) (int active)) (int total).

Lemma inactiveShare_eq a t :
  0 <= a <= t -> 0 < t < 2 ^ 53 ->
  exists q, inactiveShare a t = to_double q /\ (q == inject_Z (t - a) / inject_Z t)%Q.
Proof.
  intros Ha Ht. unfold inactiveShare, num_sub, num_add, int, num_neg.
  destruct (to_double_int (t - a) ltac:(lia)) as (r & Er & Qr).
  assert (E : to_double (inject_Z t + - inject_Z a) = to_double (inject_Z (t - a))).
  { f_equal. unfold inject_Z, Qplus, Qopp. cbn. f_equal. lia. }
  rewrite E, Er. cbn [num_div]. unfold is_zero. cbn [Qnum inject_Z].
  rewrite (proj2 (Z.eqb_neq _ _)) by lia. exists (r / inject_Z t)%Q. split; [done|].
  apply Qmult_comp; [exact Qr|reflexivity].
Qed.

Lemma slash_share_bounds a t :
  0 <= a <= t -> 0 < t -> (0 <= inject_Z (t - a) / inject_Z t <= 1)%Q.
Proof.
  intros Ha Ht. assert (0 < inject_Z t)%Q by (unfold Qlt; cbn; lia). split.
  - apply Qle_shift_div_l; [done|]. unfold Qle. cbn. lia.
  - apply Qle_shift_div_r; [done|]. unfold Qle. cbn. lia.
Qed.

Lemma share_mono a a' t :
  a' <= a -> 0 < t -> (inject_Z (t - a) / inject_Z t <= inject_Z (t - a') / inject_Z t)%Q.
Proof.
  intros Ha Ht. assert (0 < inject_Z t)%Q by (unfold Qlt; cbn; lia).
  apply Qmult_le_compat_r; [unfold Qle; cbn; lia|]. by apply Qlt_le_weak, Qinv_lt_0_compat.
Qed.

(** The multiplier and the penalty of [a] active validators among [t], when the
    share of the inactive ones is between the integers [u] and [v]. *)
Lemma penalty_parts a t b u v :
  0 <= a <= t -> 0 < t < 2 ^ 53 -> (0 < b)%Q -> 0 <= u <= v -> v <= 1 ->
  is_double (b * inject_Z (1 + u)) -> is_double (b * inject_Z (1 + v)) ->
  (inject_Z u <= inject_Z (t - a) / inject_Z t <= inject_Z v)%Q ->
  exists s m p,
    inactiveShare a t = Finite s /\
    num_add (int 1) (Finite s) = Finite m /\ (inject_Z (1 + u) <= m <= inject_Z (1 + v))%Q /\
    num_mul (Finite b) (Finite m) = Finite p /\
    (b * inject_Z (1 + u) <= p <= b * inject_Z (1 + v))%Q.
Proof.
  intros Ha Ht Hb Hu Hv Du Dv [S1 S2]. destruct (inactiveShare_eq a t Ha Ht) as (q & Eq & Qq).
  rewrite <- Qq in S1, S2.
  destruct (to_double_between (inject_Z u) (inject_Z v) q) as (s & Es & L1 & L2);
    [apply is_double_Z; lia..|done|done|].
  destruct (to_double_between (inject_Z (1 + u)) (inject_Z (1 + v)) (inject_Z 1 + s)) as (m & Em & M1 & M2);
    [apply is_double_Z; lia..|rewrite inject_Z_plus; lra|rewrite inject_Z_plus; lra|].
  destruct (to_double_between (b * inject_Z (1 + u)) (b * inject_Z (1 + v)) (b * m)) as (p & Ep & P1 & P2);
    [done..|apply Qmult_le_l; done|apply Qmult_le_l; done|].
  exists s, m, p. split_and!; try done. by rewrite Eq.
Qed.

Lemma calculate_valid a t b :
  0 <= a <= t -> 0 < t <= MAX_SAFE_INTEGER -> (0 < b)%Q ->
  calculatePenalty (JInt a) (JInt t) (Finite b) =
  let m := num_add (int 1) (inactiveShare a t) in
  let p := num_mul (Finite b) m in
  if isFinite p then inr (mkPenalty p m a t (Finite b)) else inl PenaltyNotFinite.
Proof.
  intros Ha Ht Hb. unfold calculatePenalty, assertValidatorCount, isSafeInteger, isSafeZ.
  destruct (Z.leb_spec (Z.abs t) MAX_SAFE_INTEGER); [|lia]. destruct (Z.leb_spec t 0); [lia|].
  destruct (Z.leb_spec (Z.abs a) MAX_SAFE_INTEGER); [|lia]. destruct (Z.ltb_spec a 0); [lia|].
  destruct (Z.ltb_spec t a); [lia|].
  assert (E : num_lt (int 0) (Finite b) = true).
  { cbn. apply negb_true_iff. destruct (Qle_bool b _) eqn:E; [|done].
    rewrite Qle_bool_iff in E. change (inject_Z 0) with 0%Q in E. lra. }
  rewrite E. cbn zeta. cbn [isFinite negb orb]. fold (inactiveShare a t). by destruct (isFinite _).
Qed.

(** The counts that pass the checks. *)
Lemma calculate_accepted active total b :
  match calculatePenalty active total b with inr _ | inl PenaltyNotFinite => True | _ => False end ->
  exists a t, active = JInt a /\ total = JInt t /\ 0 <= a <= t /\ 0 < t <= MAX_SAFE_INTEGER.
Proof.
  unfold calculatePenalty, assertValidatorCount, isSafeInteger, isSafeZ.
  destruct total as [t|]; [|done]. destruct (Z.leb_spec (Z.abs t) MAX_SAFE_INTEGER); [|done].
  destruct (Z.leb_spec t 0); [done|]. destruct active as [a|]; [|done].
  destruct (Z.leb_spec (Z.abs a) MAX_SAFE_INTEGER); [|done].
  destruct (Z.ltb_spec a 0); [done|]. destruct (Z.ltb_spec t a); [done|]. intros _.
  exists a, t. split_and!; [done..|lia|lia|lia|lia].
Qed.

(** Rounding keeps the order of the numbers of inactive validators. *)
Lemma penalty_mono a a' t b s m p s' m' p' :
  0 <= a' <= a -> a <= t -> 0 < t < 2 ^ 53 -> (0 < b)%Q ->
  inactiveShare a t = Finite s -> num_add (int 1) (Finite s) = Finite m ->
  num_mul (Finite b) (Finite m) = Finite p ->
  inactiveShare a' t = Finite s' -> num_add (int 1) (Finite s') = Finite m' ->
  num_mul (Finite b) (Finite m') = Finite p' ->
  (p <= p')%Q.
Proof.
  intros Ha Hat Ht Hb Es Em Ep Es' Em' Ep'.
  destruct (inactiveShare_eq a t ltac:(lia) Ht) as (q & Eq & Qq).
  destruct (inactiveShare_eq a' t ltac:(lia) Ht) as (q' & Eq' & Qq').
  pose proof (share_mono a a' t ltac:(lia) ltac:(lia)) as Hq. rewrite <- Qq, <- Qq' in Hq.
  apply to_double_mono in Hq. rewrite <- Eq, <- Eq', Es, Es' in Hq. cbn in Hq. rewrite Qle_bool_iff in Hq.
  cbn in Em, Em', Ep, Ep'. pose proof (to_double_mono (1 + s) (1 + s') ltac:(lra)) as Hm.
  change (inject_Z 1) with 1%Q in *. rewrite Em, Em' in Hm. cbn in Hm. rewrite Qle_bool_iff in Hm.
  assert (Hp : (b * m <= b * m')%Q) by (by apply Qmult_le_l).
  apply to_double_mono in Hp. rewrite Ep, Ep' in Hp. cbn in Hp. by rewrite Qle_bool_iff in Hp.
Qed.

(** for a base that is a double, and whose double is one, the calculation
    fails exactly when the counts are not safe integers with [0 <= active <=
    total], [0 < total]; otherwise, whatever the roundings, the multiplier is
    between 1 and 2 and the penalty between the base and twice the base, exactly
    the base when all validators are active and twice the base when none is, and
    fewer active validators never make a smaller penalty. *)
Theorem penalty_bounds active total b :
  (0 < b)%Q -> is_double b -> is_double (2 * b) ->
  match calculatePenalty active total (Finite b) with
  | inr c => exists a t m p,
      active = JInt a /\ total = JInt t /\ 0 <= a <= t /\ 0 < t <= MAX_SAFE_INTEGER /\
      c = mkPenalty (Finite p) (Finite m) a t (Finite b) /\
      (1 <= m <= 2)%Q /\ (b <= p <= 2 * b)%Q /\
      (a = t -> (p == b)%Q) /\ (a = 0 -> (p == 2 * b)%Q) /\
      (forall a' c', 0 <= a' <= a -> calculatePenalty (JInt a') total (Finite b) = inr c' ->
         num_ge (penalty c') (Finite p) = true)
  | inl e =>
      e <> PenaltyNotFinite /\
      ~ exists a t, active = JInt a /\ total = JInt t /\ 0 <= a <= t /\ 0 < t <= MAX_SAFE_INTEGER
  end.
Proof.
  intros Hb Db D2b.
  assert (D1 : is_double (b * inject_Z (1 + 0))) by (by rewrite Qmult_1_r).
  assert (D2 : is_double (b * inject_Z (1 + 1))) by (by rewrite Qmult_comm).
  assert (Hparts : forall a t, 0 <= a <= t -> 0 < t <= MAX_SAFE_INTEGER -> exists s m p,
    inactiveShare a t = Finite s /\ num_add (int 1) (Finite s) = Finite m /\ (1 <= m <= 2)%Q /\
    num_mul (Finite b) (Finite m) = Finite p /\ (b <= p <= 2 * b)%Q).
  { intros a t Ha Ht. destruct (penalty_parts a t b 0 1) as (s & m & p & Es & Em & Hm & Ep & Hp);
      [lia|unfold MAX_SAFE_INTEGER in *; lia|done|lia|lia|done..|by apply slash_share_bounds; lia|].
    exists s, m, p. rewrite Qmult_1_r in Hp. rewrite (Qmult_comm b) in Hp. done. }
  destruct (calculatePenalty active total (Finite b)) as [e|c] eqn:Ec.
  - assert (Hn : ~ exists a t, active = JInt a /\ total = JInt t /\ 0 <= a <= t /\ 0 < t <= MAX_SAFE_INTEGER).
    { intros (a & t & -> & -> & Ha & Ht). rewrite calculate_valid in Ec by done.
      destruct (Hparts a t Ha Ht) as (s & m & p & Es & Em & _ & Ep & _).
      cbn zeta in Ec. by rewrite Es, Em, Ep in Ec. }
    split; [|done]. intros ->. apply Hn, (calculate_accepted active total (Finite b)). by rewrite Ec.
  - destruct (calculate_accepted active total (Finite b)) as (a & t & -> & -> & Ha & Ht); [by rewrite Ec|].
    destruct (Hparts a t Ha Ht) as (s & m & p & Es & Em & Hm & Ep & Hp).
    rewrite calculate_valid in Ec by done. cbn zeta in Ec. rewrite Es, Em, Ep in Ec. injection Ec as <-.
    assert (Ht' : 0 < t < 2 ^ 53) by (unfold MAX_SAFE_INTEGER in *; lia).
    exists a, t, m, p. do 7 (split; [done|]).
    assert (Hedge : forall u, 0 <= u <= 1 -> is_double (b * inject_Z (1 + u)) ->
              (inject_Z (t - a) / inject_Z t == inject_Z u)%Q -> (p == b * inject_Z (1 + u))%Q).
    { intros u Hu Du Eu. destruct (penalty_parts a t b u u) as (s1 & m1 & p1 & Es1 & Em1 & _ & Ep1 & Hp1);
        [done..|lia|lia|done|done|rewrite Eu; split; apply Qle_refl|].
      assert (p1 = p) as -> by congruence. destruct Hp1. by apply Qle_antisym. }
    split; [|split].
    + intros ->. rewrite (Hedge 0); [apply Qmult_1_r|lia|done|]. rewrite Z.sub_diag. apply Qmult_0_l.
    + intros ->. rewrite (Hedge 1); [apply Qmult_comm|lia|done|]. rewrite Z.sub_0_r.
      apply Qmult_inv_r. unfold Qeq. cbn. lia.
    + intros a' c' Ha' Ec'. destruct (Hparts a' t ltac:(lia) Ht) as (s' & m' & p' & Es' & Em' & _ & Ep' & _).
      rewrite calculate_valid in Ec' by (done || lia). cbn zeta in Ec'. rewrite Es', Em', Ep' in Ec'.
      injection Ec' as <-. cbn [penalty]. apply num_ge_Finite.
      by eapply (penalty_mono a a' t b s m p s' m' p'); try done; lia.
Qed.

(** ** Histories and the invariant *)

(** The registry after some commits. *)
Definition replay (l : list (nat * Commit)) : gmap string bool :=
  foldl (fun reg w => match w.2 with Membership id active => <[id := active]> reg | Slashed _ => reg end) ∅ l.

Definition eventIds (l : list (nat * Commit)) : list Z :=
  omap (fun w => match w.2 with Slashed row => Some (event_id row) | Membership _ _ => None end) l.

Definition mine (sid : nat) (db : Db) : list (nat * Commit) := filter (fun w => w.1 = sid) (wal db).

(** The row an execution of [input] records with membership [reg]. *)
Definition recorded (input : ExecuteSlashingInput) (reg : gmap string bool) (row : SlashingRow)
    (c : PenaltyCalculation) : Prop :=
  calculatePenalty (JInt (active_count reg)) (i_totalValidators input) BASE_SLASHING_PENALTY = inr c /\
  row = eventRow input c (active_count reg) (event_id row).

(** Every event fits the membership at its commit, under a new number. *)
Inductive consistent : list (nat * Commit) -> Prop :=
  | consistent_nil : consistent []
  | consistent_member l sid id active : consistent l -> consistent (l ++ [(sid, Membership id active)])
  | consistent_slashed l sid row input c :
      consistent l -> recorded input (replay l) row c -> Forall (fun i => i < event_id row) (eventIds l) ->
      consistent (l ++ [(sid, Slashed row)]).

Record Inv (db : Db) : Prop := {
  inv_registry : registry db = replay (wal db);
  inv_consistent : consistent (wal db);
  inv_ids : Forall (fun i => i < nextEventId db) (eventIds (wal db));
  inv_inserted sid row : inserted db !! sid = Some row ->
    holder db = Some sid /\ event_id row < nextEventId db /\
    Forall (fun i => i < event_id row) (eventIds (wal db)) /\
    exists input c, recorded input (registry db) row c
}.

Record Rely (sid : nat) (db db' : Db) : Prop := {
  rely_inserted : inserted db' !! sid = inserted db !! sid;
  rely_held : holder db = Some sid -> holder db' = Some sid /\ registry db' = registry db;
  rely_wal : exists ext, wal db' = wal db ++ ext /\ Forall (fun w => w.1 <> sid) ext
}.

Abbreviation Guar := (guar Rely).
Abbreviation Safe := (safe ConnectionLost rollback_ Inv Rely).

Lemma slash_Rely_refl sid db : Rely sid db db.
Proof. split; [done..|]. exists []. by rewrite app_nil_r. Qed.

Lemma slash_Rely_trans sid db1 db2 db3 : Rely sid db1 db2 -> Rely sid db2 db3 -> Rely sid db1 db3.
Proof.
  intros [I1 H1 (e1 & E1 & F1)] [I2 H2 (e2 & E2 & F2)]. split; [congruence|..].
  - intros Hh. destruct (H1 Hh) as [Hh1 R1]. destruct (H2 Hh1). split; congruence.
  - exists (e1 ++ e2). rewrite E2, E1, <- app_assoc. split; [done|]. by apply Forall_app.
Qed.

Lemma slash_filter_foreign sid (ext : list (nat * Commit)) :
  Forall (fun w => w.1 <> sid) ext -> filter (fun w => w.1 = sid) ext = [].
Proof. induction 1; [done|]. by rewrite filter_cons, decide_False. Qed.

Lemma rely_mine sid db db' : Rely sid db db' -> mine sid db' = mine sid db.
Proof.
  intros [_ _ (ext & E & F)]. unfold mine. rewrite E, filter_app.
  by rewrite (slash_filter_foreign _ _ F), app_nil_r.
Qed.

(** Changes that the others do not notice. *)
Lemma guar_intro sid db db' ext :
  registry db' = registry db -> wal db' = wal db ++ ext -> Forall (fun w => w.1 = sid) ext ->
  (forall o, o <> sid -> inserted db' !! o = inserted db !! o) ->
  (forall o, o <> sid -> holder db = Some o -> holder db' = Some o) ->
  Guar sid db db'.
Proof.
  intros Hr Hw Hx Hi Hh o Ho. split; [by apply Hi|intros; split; [by apply Hh|done]|].
  exists ext. split; [done|]. eapply Forall_impl; [exact Hx|]. cbn. congruence.
Qed.

Lemma lockedByOther_false sid db :
  lockedByOther sid db = false -> forall o, holder db = Some o -> o = sid.
Proof. unfold lockedByOther. intros H o Ho. rewrite Ho in H. by bool_props. Qed.

Lemma release_other sid db o : o <> sid -> holder db = Some o -> release sid db = Some o.
Proof.
  intros Ho Hh. unfold release, lockedByOther. rewrite Hh. by rewrite bool_decide_false.
Qed.

(** ** What a call is to do *)

Definition effect (c : Call) (l1 : list (nat * Commit)) (k : Commit) : Prop :=
  match c, k with
  | RegisterValidator id active, Membership id' active'
  | SetActive id active, Membership id' active' => id' = id /\ active' = active
  | Execute input, Slashed row => exists calc, recorded input (replay l1) row calc
  | _, _ => False
  end.

Definition reported (c : Call) (l1 : list (nat * Commit)) (k : Commit) (res : Result) : Prop :=
  match c, k, res with
  | RegisterValidator _ _, Membership id active, Member id' active'
  | SetActive _ _, Membership id active, Member id' active' => id' = id /\ active' = active
  | Execute input, Slashed row, Event e =>
      exists calc, recorded input (replay l1) row calc /\ e = mapEvent row calc
  | _, _, _ => False
  end.

(** Session [sid] has committed one change, that of [c]. *)
Definition committed (sid : nat) (c : Call) (P : list (nat * Commit) -> Commit -> Prop) (db : Db) : Prop :=
  exists l1 k l2, wal db = l1 ++ (sid, k) :: l2 /\ mine sid db = [(sid, k)] /\ effect c l1 k /\ P l1 k.

Definition quiet (sid : nat) (db : Db) : Prop := mine sid db = [].

Definition readOnly (c : Call) (res : Result) : Prop :=
  match c, res with
  | GetActiveValidatorIds, Ids _ | GetActiveValidatorCount, Count _ => True
  | _, _ => False
  end.

Definition Post (sid : nat) (c : Call) (r : SlashError + Result) (db : Db) : Prop :=
  match r with
  | inl e => quiet sid db \/ (e = ConnectionLost /\ committed sid c (fun _ _ => True) db)
  | inr res => committed sid c (fun l1 k => reported c l1 k res) db \/ (quiet sid db /\ readOnly c res)
  end.

Definition unknown (sid : nat) (c : Call) (db : Db) : Prop :=
  quiet sid db \/ committed sid c (fun _ _ => True) db.

Lemma quiet_stable sid db db' : Rely sid db db' -> quiet sid db -> quiet sid db'.
Proof. intros HR. unfold quiet. by rewrite (rely_mine _ _ _ HR). Qed.

Lemma slash_committed_stable sid c P db db' : Rely sid db db' -> committed sid c P db -> committed sid c P db'.
Proof.
  intros HR (l1 & k & l2 & E & Hm & Hrest). pose proof (rely_mine _ _ _ HR) as HM.
  destruct (rely_wal _ _ _ HR) as (ext & E' & _). exists l1, k, (l2 ++ ext).
  split_and!; [|congruence|apply Hrest..]. by rewrite E', E, <- app_assoc.
Qed.

Lemma slash_Post_stable sid c r db db' : Rely sid db db' -> Post sid c r db -> Post sid c r db'.
Proof.
  intros HR. destruct r as [e|res]; cbn.
  - intros [H|[? H]]; [left; by eapply quiet_stable|right; split; [done|by eapply slash_committed_stable]].
  - intros [H|[H ?]]; [left; by eapply slash_committed_stable|right; split; [by eapply quiet_stable|done]].
Qed.

(** ** Each statement verified once *)

Definition idle (sid : nat) (db : Db) : Prop := quiet sid db /\ inserted db !! sid = None.

(** The registry is locked, with membership [reg]. *)
Definition locked (sid : nat) (reg : gmap string bool) (db : Db) : Prop :=
  idle sid db /\ holder db = Some sid /\ registry db = reg.
Definition pending (sid : nat) (reg : gmap string bool) (row : SlashingRow) (db : Db) : Prop :=
  quiet sid db /\ inserted db !! sid = Some row /\ holder db = Some sid /\ registry db = reg.

Lemma slash_idle_stable sid db db' : Rely sid db db' -> idle sid db -> idle sid db'.
Proof. intros HR [Hq Hi]. split; [by eapply quiet_stable|]. by rewrite (rely_inserted _ _ _ HR). Qed.

Lemma locked_stable sid reg db db' : Rely sid db db' -> locked sid reg db -> locked sid reg db'.
Proof.
  intros HR (Hi & Hh & Hr). destruct (rely_held _ _ _ HR Hh).
  split; [by eapply slash_idle_stable|]. split; congruence.
Qed.

Lemma pending_stable sid reg row db db' :
  Rely sid db db' -> pending sid reg row db -> pending sid reg row db'.
Proof.
  intros HR (Hq & Hi & Hh & Hr). destruct (rely_held _ _ _ HR Hh). split_and!; [|..].
  - by eapply quiet_stable.
  - by rewrite (rely_inserted _ _ _ HR).
  - done.
  - congruence.
Qed.

Lemma replay_snoc l w :
  replay (l ++ [w]) =
  match w.2 with Membership id active => <[id := active]> (replay l) | Slashed _ => replay l end.
Proof. unfold replay. by rewrite foldl_app. Qed.

Lemma eventIds_app l l' : eventIds (l ++ l') = eventIds l ++ eventIds l'.
Proof. unfold eventIds. apply omap_app. Qed.

Lemma mine_snoc sid reg h i n l k :
  mine sid (mkDb reg h i n (l ++ [(sid, k)])) = filter (fun w => w.1 = sid) l ++ [(sid, k)].
Proof. unfold mine. cbn. by rewrite filter_app, filter_cons, decide_True. Qed.

Lemma slash_rollback_spec sid db :
  Inv db -> Inv (rollback_ sid db) /\ Guar sid db (rollback_ sid db).
Proof.
  intros [Hr Hc Hn Hi]. split.
  - split; cbn; [done..|]. intros o row [Hne Ho]%lookup_delete_Some.
    destruct (Hi o row Ho) as (Hh & Hrest). split; [by apply release_other|done].
  - apply guar_intro with []; cbn; [done|by rewrite app_nil_r|done|..].
    + intros o Ho. by rewrite lookup_delete_ne.
    + intros o Ho. by apply release_other.
Qed.

Lemma slash_commit_spec sid db :
  Inv db -> Inv (commit_ sid db) /\ Guar sid db (commit_ sid db).
Proof.
  intros HI. destruct (inserted db !! sid) as [row|] eqn:Es.
  2:{ replace (commit_ sid db) with (rollback_ sid db); [by apply slash_rollback_spec|].
      unfold commit_, rollback_. by rewrite Es, app_nil_r. }
  destruct HI as [Hr Hc Hn Hi]. destruct (Hi sid row Es) as (Hh & Hlt & Hids & input & c & Hrec).
  unfold commit_. rewrite Es. split.
  - split; cbn.
    + by rewrite replay_snoc.
    + apply consistent_slashed with input c; [done| |done]. by rewrite <- Hr.
    + rewrite eventIds_app. apply Forall_app. split; [done|]. by apply Forall_singleton.
    + intros o row' [Hne Ho]%lookup_delete_Some. destruct (Hi o row' Ho) as (Hh' & _). congruence.
  - apply guar_intro with [(sid, Slashed row)]; cbn; [done|done|by apply Forall_singleton|..].
    + intros o Ho. by rewrite lookup_delete_ne.
    + intros o Ho. by apply release_other.
Qed.

Lemma writeRegistry_spec sid db id active :
  Inv db -> lockedByOther sid db = false -> inserted db !! sid = None ->
  Inv (writeRegistry sid db id active) /\ Guar sid db (writeRegistry sid db id active).
Proof.
  intros [Hr Hc Hn Hi] Hl Hnone. pose proof (lockedByOther_false _ _ Hl) as Ho. split.
  - split; cbn.
    + by rewrite replay_snoc, <- Hr.
    + by apply consistent_member.
    + rewrite eventIds_app. cbn. by rewrite app_nil_r.
    + intros o row Hrow. destruct (Hi o row Hrow) as (Hh & _). rewrite (Ho o Hh) in Hrow. congruence.
  - intros o Hne. split; cbn; [done|intros Hh; by destruct Hne, (Ho o Hh)|].
    exists [(sid, Membership id active)]. split; [done|]. apply Forall_singleton. cbn. congruence.
Qed.

Lemma abandon_idle sid db : idle sid db -> idle sid (rollback_ sid db).
Proof. intros [Hq Hi]. split; [done|]. cbn. by apply lookup_delete_None; left. Qed.

(** The change a commit appends. *)
Lemma appended_committed sid c k (P : list (nat * Commit) -> Commit -> Prop) db db' :
  quiet sid db -> wal db' = wal db ++ [(sid, k)] -> effect c (wal db) k -> P (wal db) k ->
  committed sid c P db'.
Proof.
  intros Hq Hw He HP. exists (wal db), k, []. split_and!; [done| |done..].
  unfold mine, quiet in *. unfold mine in Hq. rewrite Hw, filter_app, Hq.
  by rewrite filter_cons, decide_True.
Qed.

(** A statement without effect on the tables. *)
Lemma read_safe {B} sid c (v : Db -> B) (K : Db -> Prop) db :
  (forall db db', Rely sid db db' -> K db -> K db') -> (forall db, K db -> quiet sid db) -> K db ->
  Safe sid (unknown sid c) (upto (quiet sid) (fun b db => K db /\ b = v db))
    (query (fun _ db => Some (db, inr (v db)))) db.
Proof.
  intros Hs Hq HK. apply statement_safe; [by left|done|]. intros db1 HR HI.
  pose proof (Hs _ _ HR HK) as HK1. split; [by apply Hq|]. intros db2 r [= <- <-].
  split_and!; [done|intros o _; apply slash_Rely_refl|done..|]. left. by apply Hq.
Qed.

Lemma slash_noop_safe sid c db :
  idle sid db -> Safe sid (unknown sid c) (upto (quiet sid) (fun _ => idle sid)) (query noop) db.
Proof.
  intros Hi. eapply safe_mono; [| |apply (read_safe sid c (fun _ => tt) (idle sid) db)];
    [|done|apply slash_idle_stable|by intros ? []|done].
  intros [e|[]] db'; cbn; [done|]. by intros [? _].
Qed.

Lemma lockTable_safe sid c db :
  idle sid db ->
  Safe sid (unknown sid c) (upto (quiet sid) (fun _ db => locked sid (registry db) db)) (query lockTable) db.
Proof.
  intros Hidle. apply statement_safe; [by left|done|]. intros db1 HR HI.
  pose proof (slash_idle_stable _ _ _ HR Hidle) as H1. split; [apply H1|].
  intros db2 r Hr. unfold lockTable in Hr. destruct (lockedByOther sid db1) eqn:El; [done|].
  injection Hr as <- <-. pose proof (lockedByOther_false _ _ El) as Ho.
  destruct HI as [Ir Ic In Ii]. split_and!; [split; cbn; [done..|]|..].
  - intros o row Hrow. destruct (Ii o row Hrow) as (Hh & Hrest). split; [|done]. f_equal. symmetry. by apply Ho.
  - apply guar_intro with []; cbn; [done|by rewrite app_nil_r|done|done|].
    intros o Hne Hh. by destruct Hne, (Ho o Hh).
  - by repeat split; try apply H1.
  - left. apply H1.
Qed.

Lemma countActive_safe sid c reg db :
  locked sid reg db ->
  Safe sid (unknown sid c) (upto (quiet sid) (fun n db => locked sid reg db /\ n = active_count reg))
    (query countActive) db.
Proof.
  intros Hl. eapply safe_mono;
    [| |apply (read_safe sid c (fun db => active_count (registry db)) (locked sid reg) db)];
    [|done|apply locked_stable|by intros ? [[? ?] ?]|done].
  intros [e|n] db'; cbn; [done|]. intros [HL ->]. split; [done|]. by destruct HL as (_ & _ & ->).
Qed.

Lemma insertEvent_safe sid c input reg calc db :
  locked sid reg db ->
  calculatePenalty (JInt (active_count reg)) (i_totalValidators input) BASE_SLASHING_PENALTY = inr calc ->
  Safe sid (unknown sid c)
    (upto (quiet sid) (fun r db => exists row, r = Some row /\ pending sid reg row db /\ recorded input reg row calc))
    (query (insertEvent (eventRow input calc (active_count reg)))) db.
Proof.
  intros Hlock Hcalc. apply statement_safe; [by left|done|]. intros db1 HR HI.
  destruct (locked_stable _ _ _ _ HR Hlock) as ([Hq Hno] & Hh & Hreg). split; [done|].
  intros db2 r Hr. unfold insertEvent in Hr. destruct HI as [Ir Ic In Ii].
  assert (Hmore : Forall (fun i => i < nextEventId db1 + 1) (eventIds (wal db1))).
  { eapply Forall_impl; [exact In|]. cbn. lia. }
  assert (Hrec : recorded input reg (eventRow input calc (active_count reg) (nextEventId db1)) calc) by done.
  set (row := eventRow input calc (active_count reg) (nextEventId db1)) in *.
  destruct (row_ok row); injection Hr as <- <-.
  - split_and!; [split; cbn; [done..|]|..].
    + intros o row'. rewrite lookup_insert_Some. intros [[<- <-]|[Hne Ho]].
      * split_and!; [done|cbn; lia|done|]. exists input, calc. by rewrite Hreg.
      * destruct (Ii o row' Ho) as (? & ? & ? & ?). split_and!; [done|lia|done..].
    + apply guar_intro with []; cbn; [done|by rewrite app_nil_r|done| |done].
      intros o Ho. by rewrite lookup_insert_ne.
    + exists row. split; [done|]. split; [|done]. repeat split; try done. apply lookup_insert_eq.
    + by left.
  - split_and!; [split; cbn; [done..|]| |done|by left].
    + intros o row' Ho. destruct (Ii o row' Ho) as (? & ? & ? & ?). split_and!; [done|lia|done..].
    + apply guar_intro with []; cbn; [done|by rewrite app_nil_r|done..].
Qed.

Lemma slash_commit_safe sid input reg row calc db :
  pending sid reg row db -> recorded input reg row calc ->
  Safe sid (unknown sid (Execute input))
    (upto (quiet sid) (fun _ => committed sid (Execute input)
       (fun l1 k => reported (Execute input) l1 k (Event (mapEvent row calc)))))
    (query commit) db.
Proof.
  intros Hp Hrec. apply statement_safe.
  - by left.
  - intros db' [H|(l1 & k & l2 & H)]; [by left|right]. by exists l1, k, l2.
  - intros db1 HR HI. destruct (pending_stable _ _ _ _ _ HR Hp) as (Hq & Hi & Hh & Hreg).
    split; [done|]. intros db2 r [= <- <-]. destruct (slash_commit_spec sid db1 HI) as [HI' HG].
    rewrite <- Hreg, (inv_registry _ HI) in Hrec.
    assert (Hc : forall P : list (nat * Commit) -> Commit -> Prop, P (wal db1) (Slashed row) ->
              committed sid (Execute input) P (commit_ sid db1)).
    { intros P HP. apply (appended_committed _ _ (Slashed row) _ db1); [done| | |done].
      - unfold commit_. by rewrite Hi.
      - by exists calc. }
    split_and!; [done|done| |right; by apply Hc]. apply Hc. by exists calc.
Qed.

Lemma slashingTransaction_safe sid input db :
  idle sid db ->
  Safe sid (unknown sid (Execute input))
    (upto (quiet sid) (fun e => committed sid (Execute input)
       (fun l1 k => reported (Execute input) l1 k (Event e))))
    (slashingTransaction input) db.
Proof.
  intros Hi. unfold slashingTransaction.
  eapply safe_then; [by apply lockTable_safe| |done]. intros [] db1 Hl.
  eapply safe_then; [by apply countActive_safe| |done]. intros n db2 [HL En]. rewrite En. unfold parseCount.
  destruct (_ && _); [|apply HL].
  destruct (calculatePenalty _ _ _) as [e|calc] eqn:Ec; [cbn; apply HL|].
  eapply safe_then; [by apply insertEvent_safe| |done]. intros r db3 (row & -> & Hp & Hrec).
  eapply safe_then; [by eapply slash_commit_safe| |done]. intros [] db4 Hc. exact Hc.
Qed.

(** When the errors may be others than the lost connection. *)
Abbreviation Safely := (safely ConnectionLost rollback_ Inv Rely).

Lemma safe_post {B} sid c Q (p : Prog B) db :
  Safe sid (unknown sid c) Q p db -> Safely sid (fun e => Post sid c (inl e)) Q p db.
Proof. apply safely_mono; [done|]. intros e db' [-> [?|?]]; [by left|by right]. Qed.

Lemma abort_safe {A} sid err db :
  quiet sid db -> Safely sid (fun _ => quiet sid) (upto (quiet sid) (fun (_ : A) _ => False)) (abort err) db.
Proof.
  intros Hq db1 HR HI. pose proof (quiet_stable _ _ _ HR Hq) as Hq1.
  destruct (slash_rollback_spec sid db1 HI) as [HI' HG].
  split_and!; [|intros e; exact Hq1|by exists err]. intros db2 r [= <- <-].
  split_and!; [done|done|exact Hq1|by exists err].
Qed.

Lemma execute_safe sid input db :
  idle sid db ->
  Safely sid (fun e => Post sid (Execute input) (inl e))
    (upto (quiet sid) (fun e => committed sid (Execute input)
       (fun l1 k => reported (Execute input) l1 k (Event e))))
    (execute input) db.
Proof.
  intros Hi. unfold execute, require, requireText.
  destruct (blank (i_validatorId input)); [cbn; apply Hi|].
  destruct (blank (i_misbehaviorType input)); [cbn; apply Hi|].
  eapply safely_then; [by apply safe_post, slash_noop_safe| |done]. intros [] db1 H1.
  eapply safely_then; [by apply safe_post, slash_noop_safe| |done]. intros [] db2 H2.
  eapply safely_try; [by apply slashingTransaction_safe|done|..].
  - intros e db3 Hq. eapply safely_mono; [| |by apply abort_safe]; [by intros [|] db'|by left].
  - intros e db3 [-> Hu]. exists ConnectionLost. split; [done|]. destruct Hu; [by left|by right].
Qed.

(** A statement that writes the registry and reports the row. *)
Lemma write_safe {B} sid c (q : Stmt B) (K : B -> Db -> Prop) db :
  idle sid db ->
  (forall db1, Rely sid db db1 -> Inv db1 -> idle sid db1 -> forall db2 r, q sid db1 = Some (db2, r) ->
     (db2 = db1 /\ upto (quiet sid) K r db1) \/
     exists id active b, lockedByOther sid db1 = false /\ db2 = writeRegistry sid db1 id active /\
       r = inr b /\ effect c (wal db1) (Membership id active) /\ K b db2) ->
  Safe sid (unknown sid c) (upto (quiet sid) K) (query q) db.
Proof.
  intros Hi H. apply statement_safe.
  - by left.
  - intros db' [Hq|(l1 & k & l2 & Hc)]; [by left|right]. by exists l1, k, l2.
  - intros db1 HR HI. pose proof (slash_idle_stable _ _ _ HR Hi) as [Hq Hn]. split; [done|].
    intros db2 r Hr. destruct (H db1 HR HI (conj Hq Hn) db2 r Hr) as [[-> HK]|(id & active & b & Hl & -> & -> & He & HK)].
    + split_and!; [done|intros o _; apply slash_Rely_refl|done|by left].
    + destruct (writeRegistry_spec sid db1 id active HI Hl Hn) as [HI' HG].
      split_and!; [done|done|done|right].
      by apply (appended_committed _ _ (Membership id active) _ db1).
Qed.

Lemma written_reported sid c id active db (res : Result) :
  idle sid db -> effect c (wal db) (Membership id active) ->
  (match c with RegisterValidator _ _ | SetActive _ _ => res = Member id active | _ => False end) ->
  committed sid c (fun l1 k => reported c l1 k res) (writeRegistry sid db id active).
Proof.
  intros [Hq _] He Hres. apply (appended_committed _ _ (Membership id active) _ db); [done..|].
  destruct c; try done; by subst res.
Qed.

Abbreviation Settles := (settles ConnectionLost rollback_ Inv Rely Post).

Lemma slash_settles_intro sid c K p db :
  Safe sid (unknown sid c) (upto (quiet sid) K) p db ->
  (forall res db', K res db' -> Post sid c (inr res) db') -> Settles sid c p db.
Proof.
  intros Hp HK. eapply safely_mono; [|intros e db' H; exact H|by apply safe_post].
  intros [e|res] db' H; [by left|by apply HK].
Qed.

Lemma registerValidator_settles sid id active db :
  idle sid db -> Settles sid (RegisterValidator id active) (body (RegisterValidator id active)) db.
Proof.
  intros Hi. apply (slash_settles_intro _ _ (fun res => committed sid (RegisterValidator id active)
    (fun l1 k => reported (RegisterValidator id active) l1 k res))); [|by left].
  cbn [body]. unfold registerValidator, require, requireValidatorId.
  destruct (blank id); [cbn; apply Hi|].
  eapply safe_then with (Q1 := upto (quiet sid) (fun m => committed sid _ (fun l1 k => reported _ l1 k (Member m.1 m.2))));
    [|intros m db1 H1; exact H1|done].
  apply write_safe; [done|]. intros db1 HR HI Hi1 db2 r Hr. right. unfold upsertValidator in Hr.
  destruct (lockedByOther sid db1); [done|]. injection Hr as <- <-. exists id, active, (id, active).
  split_and!; [done..|]. by apply written_reported.
Qed.

Lemma setActive_settles sid id active db :
  idle sid db -> Settles sid (SetActive id active) (body (SetActive id active)) db.
Proof.
  intros Hi. apply (slash_settles_intro _ _ (fun res => committed sid (SetActive id active)
    (fun l1 k => reported (SetActive id active) l1 k res))); [|by left].
  cbn [body]. unfold setActive, require, requireValidatorId.
  destruct (blank id); [cbn; apply Hi|].
  eapply safe_then with (Q1 := upto (quiet sid) (fun m => committed sid _ (fun l1 k => reported _ l1 k (Member m.1 m.2))));
    [|intros m db1 H1; exact H1|done].
  eapply safe_then with (Q1 := upto (quiet sid) (fun r db => match r with
    | None => quiet sid db
    | Some m => committed sid (SetActive id active) (fun l1 k => reported _ l1 k (Member m.1 m.2)) db
    end)); [|by intros [m|] db1 H1|done].
  apply write_safe; [done|]. intros db1 HR HI Hi1 db2 r Hr. unfold updateValidator in Hr.
  destruct (lockedByOther sid db1); [done|]. destruct (registry db1 !! id); injection Hr as <- <-.
  - right. exists id, active, (Some (id, active)). split_and!; [done..|]. by apply written_reported.
  - left. split; [done|]. apply Hi1.
Qed.

Lemma reads_settle sid c db :
  match c with GetActiveValidatorIds | GetActiveValidatorCount => True | _ => False end ->
  idle sid db -> Settles sid c (body c) db.
Proof.
  intros Hc Hi. apply (slash_settles_intro _ _ (fun res db' => quiet sid db' /\ readOnly c res)); [|by right].
  assert (Hread : forall B (v : Db -> B), Safe sid (unknown sid c) (upto (quiet sid) (fun _ => quiet sid))
                    (query (fun _ db => Some (db, inr (v db)))) db).
  { intros B v. eapply safe_mono; [|done|apply (read_safe sid c v (quiet sid) db); [|done|apply Hi]].
    - intros [e|b] db'; [done|]. by intros [? _].
    - intros d d'. apply quiet_stable. }
  destruct c; try done; cbn [body].
  - eapply safe_then; [apply Hread| |done]. by intros l db1 H1.
  - unfold getActiveValidatorCount.
    eapply safe_then with (Q1 := upto (quiet sid) (fun _ => quiet sid)); [|by intros n db1 H1|done].
    eapply safe_then; [apply Hread| |done]. intros n db1 H1. unfold parseCount. by destruct (_ && _).
Qed.

Lemma execute_settles sid input db : idle sid db -> Settles sid (Execute input) (body (Execute input)) db.
Proof.
  intros Hi. eapply safely_then; [by apply execute_safe|intros e db1 H1; by left|].
  intros e db1 H1. by left.
Qed.

#[export] Instance slashing_protocol :
  SessionProtocol body ConnectionLost rollback_ Inv Rely Post (fun sid => idle sid).
Proof.
  split.
  - apply slash_Rely_refl.
  - apply slash_Rely_trans.
  - apply slash_Post_stable.
  - apply slash_idle_stable.
  - intros sid db HI. by apply slash_rollback_spec.
  - intros sid db HI. by apply slash_rollback_spec.
  - intros sid [id active|id active| | |input] db _ Hi.
    + by apply registerValidator_settles.
    + by apply setActive_settles.
    + by apply reads_settle.
    + by apply reads_settle.
    + by apply execute_settles.
Qed.

Lemma slash_Inv_empty : Inv empty_db.
Proof. split; cbn; [done|constructor|done|]. intros sid row H. by rewrite lookup_empty in H. Qed.

Lemma consistent_split l : consistent l -> forall l1 sid row l2, l = l1 ++ (sid, Slashed row) :: l2 ->
  (exists input c, recorded input (replay l1) row c) /\ Forall (fun i => i < event_id row) (eventIds l1).
Proof.
  induction 1 as [|l s id active Hl IH|l s row' input c Hl IH Hrec Hids]; intros l1 sid row l2 E.
  - by destruct l1.
  - destruct l2 as [|w l2 _] using rev_ind.
    + apply app_inj_tail in E as [_ E]. done.
    + rewrite app_comm_cons, app_assoc in E. apply app_inj_tail in E as [E _]. by eapply IH.
  - destruct l2 as [|w l2 _] using rev_ind.
    + apply app_inj_tail in E as [-> E]. injection E as -> ->. eauto.
    + rewrite app_comm_cons, app_assoc in E. apply app_inj_tail in E as [E _]. by eapply IH.
Qed.

Lemma calculate_total active total base c :
  calculatePenalty active total base = inr c -> total = JInt (totalValidators c).
Proof.
  unfold calculatePenalty, assertValidatorCount, isSafeInteger. intros H.
  destruct total as [t|]; [|done]. repeat (case_match; try done). by simplify_eq.
Qed.


(** ** Concrete runs *)

Module Examples.
Local Open Scope string_scope.
Local Open Scope list_scope.

Definition half : ExecuteSlashingInput := mkInput "v1" "double-sign" (JInt 3).

(** Two of three validators are active; a third is registered while the executor
    holds the lock, and has to wait for its turn. *)
Definition schedule : list (Sessions.Event (E := SlashError) (Call := Call)) :=
  [Start 1 (RegisterValidator "v1" true); Exec 1;
   Start 2 (RegisterValidator "v2" true); Exec 2;
   Start 3 (Execute half); Exec 3; Exec 3; Exec 3; Exec 3;
   Start 4 (RegisterValidator "v3" true); Exec 4;
   Exec 3; Exec 3; Exec 4].

Lemma slashed_with_two_active :
  exists e, outcome (service schedule) 3 = Some (Execute half, inr (Event e)) /\
    e_activeValidators e = 2 /\ num_ge (e_penalty e) (int 666) = true /\ num_lt (e_penalty e) (int 667) = true /\
    outcome (service schedule) 4 = Some (RegisterValidator "v3" true, inr (Member "v3" true)) /\
    active_count (registry (w_db (service schedule))) = 3.
Proof. eexists. split; [vm_compute; reflexivity|]. vm_compute. repeat split. Qed.

(** Half of the set inactive: one and a half times the base, exactly. *)
Lemma penalty_bounds_witness :
  exists c, calculatePenalty (JInt 1) (JInt 2) BASE_SLASHING_PENALTY = inr c /\
    num_eqb (penalty c) (int 750) = true /\
    exists a t m p, JInt 1 = JInt a /\ JInt 2 = JInt t /\ c = mkPenalty (Finite p) (Finite m) a t BASE_SLASHING_PENALTY /\
      (inject_Z 500 <= p <= 2 * inject_Z 500)%Q.
Proof.
  eexists. split; [vm_compute; reflexivity|]. split; [vm_compute; reflexivity|].
  pose proof (penalty_bounds (JInt 1) (JInt 2) (inject_Z 500) ltac:(reflexivity)
    ltac:(apply is_double_Z; reflexivity) ltac:(apply (is_double_Z 1000); reflexivity)) as H.
  destruct (calculatePenalty (JInt 1) (JInt 2) (Finite (inject_Z 500))) as [e|c] eqn:E;
    [vm_compute in E; discriminate E|].
  destruct H as (a & t & m & p & Ha & Ht & _ & _ & Hc & _ & Hp & _). vm_compute in E. injection E as <-.
  by exists a, t, m, p.
Defined.
End Examples.
