(* ===== verification/Notifications.v ===== *)
(** * Slashing notifications
    ([src/src/notifications/slashingNotifier.ts], [deliveryStore.ts],
    [emailService.ts], [webhookService.ts],
    [database/migrations/007_notification_delivery.sql])

    One row per slashing event and channel records how far its notification got;
    a delivery claims the row, sends, and marks the row.  Deliveries run over the
    sessions of [Sessions], two for each [notifySlashing]; a call to the database
    or to a sender is two steps, its effect and its reply, so that either can be
    lost.  Texts of e-mails, payloads, timestamps and durations are left out; the
    hash of [notificationIdFor] is an argument.

    [notifications_sent_once]: whatever is lost and however deliveries interleave,
    no sender is called again for a notification it has acknowledged, every
    attempt calls it at most once, and what is reported as delivered was
    acknowledged.  [delivery_stores_agree]: the table and the map in memory. *)

From Stdlib Require Import ZArith Lia Ascii String.
From stdpp Require Import base list strings gmap.
From S2P Require Import Prelude Js Text Sessions.
#[local] Open Scope Z_scope.

(** ** Records *)

Inductive NotificationChannel := email | webhook.
#[export] Instance channel_eq_dec : EqDecision NotificationChannel.
Proof. solve_decision. Defined.
#[export] Instance channel_countable : Countable NotificationChannel.
Proof.
  apply (inj_countable' (fun c => match c with email => true | webhook => false end)
           (fun b : bool => if b then email else webhook)). by intros [].
Defined.

Inductive NotificationDeliveryStatus := pending | delivering | delivered | failed.
#[export] Instance delivery_status_eq_dec : EqDecision NotificationDeliveryStatus.
Proof. solve_decision. Defined.

Record NotificationDeliveryRecord := mkDelivery {
  notificationId : string;
  status : NotificationDeliveryStatus;
  attempts : Z;
  lastError : option string
}.

Abbreviation Key := (string * NotificationChannel)%type.

Definition channelName (c : NotificationChannel) : string :=
  match c with email => "email" | webhook => "webhook" end.

Inductive NotificationError :=
  | DatabaseError (message : string)
  | SendError (message : string)
  | UniqueViolation
  | ChannelDeliveryError (channel : NotificationChannel) (cause : option string)
  | ConnectionLost.

(** [errorMessage] *)
Definition errorMessage (e : NotificationError) : string :=
  match e with
  | DatabaseError m | SendError m => m
  | UniqueViolation => "duplicate key value violates unique constraint"
  | ChannelDeliveryError _ (Some m) => m
  | ChannelDeliveryError _ None => "null"
  | ConnectionLost => "Connection terminated unexpectedly"
  end.

(** ** The store as operations on records *)

Definition claimable (r : NotificationDeliveryRecord) : bool :=
  match status r with pending | failed => true | delivering | delivered => false end.

Definition reclaimed (r : NotificationDeliveryRecord) : NotificationDeliveryRecord :=
  mkDelivery (notificationId r) delivering (attempts r + 1) None.
Definition setDelivered (r : NotificationDeliveryRecord) : NotificationDeliveryRecord :=
  mkDelivery (notificationId r) delivered (attempts r) None.
Definition setFailed (m : string) (r : NotificationDeliveryRecord) : NotificationDeliveryRecord :=
  mkDelivery (notificationId r) failed (attempts r) (Some m).

(** *** [InMemoryNotificationDeliveryStore] *)

Module InMemory.
Definition key (k : Key) : string := k.1 +:+ ":" +:+ channelName k.2.

Definition claimDelivery (k : Key) (nid : string) (records : jsmap string NotificationDeliveryRecord) :
    jsmap string NotificationDeliveryRecord * option NotificationDeliveryRecord :=
  let existing := records !! key k in
  match existing with
  | Some r =>
      if bool_decide (status r = delivered) || bool_decide (status r = delivering) then (records, None)
      else let record := mkDelivery (notificationId r) delivering (attempts r + 1) None in
           (<[key k := record]> records, Some record)
  | None =>
      let record := mkDelivery nid delivering (0 + 1) None in
      (<[key k := record]> records, Some record)
  end.

Definition markDelivered (k : Key) (records : jsmap string NotificationDeliveryRecord) :
    jsmap string NotificationDeliveryRecord :=
  match records !! key k with Some r => <[key k := setDelivered r]> records | None => records end.
Definition markFailed (k : Key) (m : string) (records : jsmap string NotificationDeliveryRecord) :
    jsmap string NotificationDeliveryRecord :=
  match records !! key k with Some r => <[key k := setFailed m r]> records | None => records end.
Definition getDelivery (k : Key) (records : jsmap string NotificationDeliveryRecord) :
    option NotificationDeliveryRecord := records !! key k.
End InMemory.

(** *** [PgNotificationDeliveryStore]: the statements on the rows *)

Module Pg.
Abbreviation Table := (gmap Key NotificationDeliveryRecord).

(** [UNIQUE (notification_id)] *)
Definition taken (nid : string) (t : Table) : bool :=
  existsb (fun kr => String.eqb (notificationId kr.2) nid) (map_to_list t).

(** [INSERT ... ON CONFLICT (slashing_event_id, channel) DO UPDATE ... WHERE status
    IN ('pending', 'failed') RETURNING *] *)
Definition claimDelivery (k : Key) (nid : string) (t : Table) :
    Table * (NotificationError + option NotificationDeliveryRecord) :=
  match t !! k with
  | None =>
      if taken nid t then (t, inl UniqueViolation)
      else let r := mkDelivery nid delivering 1 None in (<[k := r]> t, inr (Some r))
  | Some r =>
      if claimable r then (<[k := reclaimed r]> t, inr (Some (reclaimed r))) else (t, inr None)
  end.

Definition markDelivered (k : Key) (t : Table) : Table := alter setDelivered k t.
Definition markFailed (k : Key) (m : string) (t : Table) : Table := alter (setFailed m) k t.
Definition getDelivery (k : Key) (t : Table) : option NotificationDeliveryRecord := t !! k.
End Pg.

(** ** The world of deliveries *)

(** What happened at the senders: session [by_] had a request for notification
    [about] arrive, or acknowledged. *)
Record Contact := mkContact { by_ : nat; about : string; ack : bool }.

(** The table; the ids the two senders' wrappers have processed; what happened at
    the senders, oldest first; and who claimed a row last. *)
Record Db := mkDb {
  table : Pg.Table;
  processed : gset string;
  contacts : list Contact;
  claimants : gmap Key nat
}.

Abbreviation Prog := (prog Db NotificationError).
Abbreviation Stmt := (stmt Db NotificationError).

Definition set_table (t : Pg.Table) (db : Db) : Db :=
  mkDb t (processed db) (contacts db) (claimants db).

Definition heard (c : Contact) (db : Db) : Db :=
  mkDb (table db) (processed db) (contacts db ++ [c]) (claimants db).
Definition note (nid : string) (db : Db) : Db :=
  mkDb (table db) ({[nid]} ∪ processed db) (contacts db) (claimants db).

(** A call to something outside takes effect and then replies. *)
Definition call {B} (q : Stmt B) : Prog B := await b := q in await _ := noop in Return b.

Definition claimStmt (k : Key) (nid : string) : Stmt (option NotificationDeliveryRecord) := fun sid db =>
  match Pg.claimDelivery k nid (table db) with
  | (t, inr (Some r)) =>
      Some (mkDb t (processed db) (contacts db) (<[k := sid]> (claimants db)), inr (Some r))
  | (t, r) => Some (db, r)
  end.
Definition awaitClaim (k : Key) (nid : string) : Prog (option NotificationDeliveryRecord) :=
  call (claimStmt k nid).

Definition awaitMarkDelivered (k : Key) : Prog unit :=
  call (fun _ db => Some (set_table (Pg.markDelivered k (table db)) db, inr tt)).
Definition awaitMarkFailed (k : Key) (e : NotificationError) : Prog unit :=
  call (fun _ db => Some (set_table (Pg.markFailed k (errorMessage e) (table db)) db, inr tt)).
Definition awaitGetDelivery (k : Key) : Prog (option NotificationDeliveryRecord) :=
  call (fun _ db => Some (db, inr (Pg.getDelivery k (table db)))).

(** [await this.sender(notification)]: the request arrives, then its answer. *)
Definition request (nid : string) : Stmt unit := fun sid db =>
  Some (heard (mkContact sid nid false) db, inr tt).
Definition acknowledge (nid : string) : Stmt unit := fun sid db =>
  Some (heard (mkContact sid nid true) db, inr tt).
Definition sender (nid : string) : Prog unit := await _ := request nid in await _ := acknowledge nid in Return tt.

(** [IdempotentEmailService.sendEmail], [IdempotentWebhookService.postWebhook] *)
Definition send (nid : string) : Prog unit :=
  Local (fun db => (db, bool_decide (nid ∈ processed db))) (fun has =>
  if has : bool then Return tt
  else then_ (sender nid) (fun _ =>
       local (note nid))).

(** [await this.sleep(ms)] *)
Definition sleep (ms : Z) : Prog unit := local (fun db => db).

(** ** [SlashingNotifier] *)

Section notifier.
Context (digest : string -> string).      (* the first 32 digits of the SHA-256 *)

Definition notificationIdFor (k : Key) : string :=
  k.1 +:+ ":" +:+ channelName k.2 +:+ ":" +:+ digest (k.1 +:+ ":" +:+ channelName k.2).

Inductive DeliveryResult := Delivered | Skipped.

Context (maxRetries : nat) (backoffMs : list Z).

(** [this.backoffMs[attempt] ?? this.backoffMs[this.backoffMs.length - 1] ?? 0] *)
Definition backoff (attempt : nat) : Z :=
  match backoffMs !! attempt with Some ms => ms | None => default 0 (last backoffMs) end.

(** The rounds from [attempt] on, [left] of them after this one. *)
Fixpoint deliverLoop (k : Key) (nid : string) (left attempt : nat) : Prog DeliveryResult :=
  then_ (awaitClaim k nid) (fun claimed =>
  match claimed with
  | None => Return Skipped
  | Some r =>
      try_ (then_ (send (notificationId r)) (fun _ =>
            then_ (awaitMarkDelivered k) (fun _ => Return Delivered)))
           (fun errorValue =>
            then_ (awaitMarkFailed k errorValue) (fun _ =>
            match left with
            | O => Raise (ChannelDeliveryError k.2 (Some (errorMessage errorValue)))
            | S left' => then_ (sleep (backoff attempt)) (fun _ => deliverLoop k nid left' (S attempt))
            end))
  end).

Definition deliverChannel (k : Key) : Prog DeliveryResult :=
  let nid := notificationIdFor k in
  then_ (awaitGetDelivery k) (fun existing =>
  match existing with
  | Some r => if bool_decide (status r = delivered) then Return Skipped else deliverLoop k nid maxRetries 0
  | None => deliverLoop k nid maxRetries 0
  end).

(** [notifySlashing]: the outcomes of the two channels. *)
Record SlashingNotificationResult := mkNotified { r_email : DeliveryResult; r_webhook : DeliveryResult }.
Record Failures := mkFailures { f_email : option (option string); f_webhook : option (option string) }.

Definition noteResult (channel : NotificationChannel) (d : DeliveryResult) (r : SlashingNotificationResult) :
    SlashingNotificationResult :=
  match channel with email => mkNotified d (r_webhook r) | webhook => mkNotified (r_email r) d end.
Definition noteFailure (e : NotificationError) (f : Failures) : Failures :=
  match e with
  | ChannelDeliveryError email cause => mkFailures (Some cause) (f_webhook f)
  | ChannelDeliveryError webhook cause => mkFailures (f_email f) (Some cause)
  | _ => mkFailures (Some (Some (errorMessage e))) (Some (Some (errorMessage e)))
  end.

Definition settleChannels (channelResults : list (NotificationChannel * (NotificationError + DeliveryResult))) :
    Failures + SlashingNotificationResult :=
  let '(f, r) := foldl (fun (acc : Failures * SlashingNotificationResult) settled =>
      match settled.2 with
      | inr d => (acc.1, noteResult settled.1 d acc.2)
      | inl e => (noteFailure e acc.1, acc.2)
      end) (mkFailures None None, mkNotified Skipped Skipped) channelResults in
  match f with
  | mkFailures None None => inr r
  | _ => inl f
  end.

Definition notifySlashing (emailOutcome webhookOutcome : NotificationError + DeliveryResult) :
    Failures + SlashingNotificationResult :=
  settleChannels [(email, emailOutcome); (webhook, webhookOutcome)].
End notifier.

(** ** The two stores agree *)

Lemma channelName_lacks c : lacks ":"%char (channelName c) = true.
Proof. by destruct c. Qed.

Lemma key_inj (k1 k2 : Key) : InMemory.key k1 = InMemory.key k2 -> k1 = k2.
Proof.
  destruct k1 as [e1 c1], k2 as [e2 c2]. unfold InMemory.key. cbn [fst snd].
  intros H. destruct (last_separator_inj ":"%char e1 (channelName c1) e2 (channelName c2)) as [-> Hc];
    [apply channelName_lacks..|done|].
  by destruct c1, c2.
Qed.

Lemma notificationIdFor_inj digest (k1 k2 : Key) :
  (forall s, lacks ":"%char (digest s) = true) ->
  notificationIdFor digest k1 = notificationIdFor digest k2 -> k1 = k2.
Proof.
  intros Hd. unfold notificationIdFor. rewrite <- !(app_assoc_s _ ":" (_ +:+ _)), <- !(app_assoc_s _ (channelName _)).
  intros H. apply key_inj. unfold InMemory.key.
  apply (last_separator_inj ":"%char) in H as [H _]; [|apply Hd..]. by rewrite <- !app_assoc_s in *.
Qed.

(** ** Runs *)

Section runs.
Context (digest : string -> string) (digest_hex : forall s, lacks ":"%char (digest s) = true).
Context (maxRetries : nat) (backoffMs : list Z).

#[local] Notation nidOf := (notificationIdFor digest).

Definition body (k : Key) : Prog DeliveryResult := deliverChannel digest maxRetries backoffMs k.
Definition empty_db : Db := mkDb ∅ ∅ [] ∅.

(** Any deliveries, interleaved in any way; a lost session leaves all as it is. *)
Definition deliveries (evs : list (Event (E := NotificationError) (Call := Key))) :=
  run body ConnectionLost (fun _ db => db) empty_db evs.

Definition sends (nid : string) (db : Db) : Z :=
  Z.of_nat (length (filter (fun c => ack c = false /\ about c = nid) (contacts db))).
Definition isAcked (nid : string) (db : Db) : Prop :=
  exists c, c ∈ contacts db /\ ack c = true /\ about c = nid.

(** Once a sender has acknowledged a notification it hears of it no more. *)
Definition final (l : list Contact) : Prop :=
  forall l1 c l2, l = l1 ++ c :: l2 -> ack c = true -> Forall (fun c' => about c' <> about c) l2.

Lemma final_snoc l c :
  final l -> (forall c', c' ∈ l -> ack c' = true -> about c <> about c') -> final (l ++ [c]).
Proof.
  intros Hf Hc l1 c' l2 E Hack. destruct l2 as [|x l2 _] using rev_ind; [constructor|].
  rewrite app_comm_cons, app_assoc in E. apply app_inj_tail in E as [-> <-].
  apply Forall_app. split; [by apply (Hf l1)|]. constructor; [|done].
  apply Hc; [|done]. set_solver.
Qed.

(** Session [sid] was the last to claim the row of [k] and has not marked it as
    failed. *)
Definition mine (sid : nat) (k : Key) (r : NotificationDeliveryRecord) (db : Db) : Prop :=
  table db !! k = Some r /\ claimants db !! k = Some sid /\ claimable r = false.

Record Inv (db : Db) : Prop := {
  inv_ids k r : table db !! k = Some r -> notificationId r = nidOf k;
  inv_final : final (contacts db);
  inv_processed nid : nid ∈ processed db -> isAcked nid db;
  inv_unprocessed nid : isAcked nid db -> nid ∉ processed db ->
    exists k r, nid = nidOf k /\ table db !! k = Some r /\ claimable r = false;
  inv_delivered k r : table db !! k = Some r -> status r = delivered -> nidOf k ∈ processed db;
  inv_sends k r : table db !! k = Some r -> sends (nidOf k) db <= attempts r;
  inv_unsent k : table db !! k = None -> sends (nidOf k) db = 0
}.

(** What the others leave alone: a row that is mine and what belongs to it. *)
Record Rely (sid : nat) (db db' : Db) : Prop := {
  rely_mine k r : mine sid k r db ->
    mine sid k r db' /\ sends (nidOf k) db' = sends (nidOf k) db /\
    (isAcked (nidOf k) db' <-> isAcked (nidOf k) db) /\ (nidOf k ∈ processed db' <-> nidOf k ∈ processed db);
  rely_rows k : is_Some (table db !! k) -> is_Some (table db' !! k);
  rely_acked nid : isAcked nid db -> isAcked nid db'
}.

Abbreviation Guar := (guar Rely).
Abbreviation Safely := (safely ConnectionLost (fun _ db => db) Inv Rely).

Lemma notify_Rely_refl sid db : Rely sid db db.
Proof. by split. Qed.

Lemma notify_Rely_trans sid db1 db2 db3 : Rely sid db1 db2 -> Rely sid db2 db3 -> Rely sid db1 db3.
Proof.
  intros [M1 R1 A1] [M2 R2 A2]. split; [|auto..]. intros k r Hm.
  destruct (M1 k r Hm) as (Hm1 & E1 & Ea1 & Ep1). destruct (M2 k r Hm1) as (Hm2 & E2 & Ea2 & Ep2).
  split_and!; [done|congruence|by rewrite Ea2|by rewrite Ep2].
Qed.

Lemma mine_unique sid o k r r' db : mine sid k r db -> mine o k r' db -> o = sid.
Proof. intros (_ & H & _) (_ & H' & _). congruence. Qed.

(** A step of the claimant of [k] that concerns only what belongs to [k]. *)
Lemma guar_own sid k db db' :
  (forall o r, o <> sid -> mine o k r db -> False) ->
  (forall k', k' <> k -> table db' !! k' = table db !! k' /\ claimants db' !! k' = claimants db !! k') ->
  (forall k', k' <> k -> sends (nidOf k') db' = sends (nidOf k') db /\
     (isAcked (nidOf k') db' <-> isAcked (nidOf k') db) /\
     (nidOf k' ∈ processed db' <-> nidOf k' ∈ processed db)) ->
  (is_Some (table db !! k) -> is_Some (table db' !! k)) ->
  (forall nid, isAcked nid db -> isAcked nid db') ->
  Guar sid db db'.
Proof.
  intros Hk Ht Hrest Hrow Hack o Ho. split.
  - intros k' r Hm. assert (Hne : k' <> k) by (intros ->; by eapply Hk).
    destruct (Ht k' Hne) as [E1 E2]. destruct (Hrest k' Hne) as (? & ? & ?).
    split; [|done]. destruct Hm as (? & ? & ?). split_and!; [by rewrite E1|by rewrite E2|done].
  - intros k'. destruct (decide (k' = k)) as [->|Hne]; [done|]. by destruct (Ht k' Hne) as [-> _].
  - done.
Qed.

(** ** What the claimant knows *)

(** Nothing has been sent for this claim yet, or it is known whether it was
    acknowledged. *)
Definition claimed (sid : nat) (k : Key) (r : NotificationDeliveryRecord) (db : Db) : Prop :=
  mine sid k r db /\ sends (nidOf k) db < attempts r /\
  (isAcked (nidOf k) db -> nidOf k ∈ processed db).
Definition unsent (sid : nat) (k : Key) (r : NotificationDeliveryRecord) (db : Db) : Prop :=
  mine sid k r db /\ sends (nidOf k) db < attempts r /\ ~ isAcked (nidOf k) db.
Definition requested (sid : nat) (k : Key) (r : NotificationDeliveryRecord) (db : Db) : Prop :=
  mine sid k r db /\ ~ isAcked (nidOf k) db.
Definition answered (sid : nat) (k : Key) (r : NotificationDeliveryRecord) (db : Db) : Prop :=
  mine sid k r db /\ isAcked (nidOf k) db.
Definition finished (sid : nat) (k : Key) (r : NotificationDeliveryRecord) (db : Db) : Prop :=
  mine sid k r db /\ nidOf k ∈ processed db.
(** What a handler of an error finds. *)
Definition caught (sid : nat) (k : Key) (db : Db) : Prop :=
  exists r, mine sid k r db /\ (isAcked (nidOf k) db -> nidOf k ∈ processed db).
(** The end of a delivery. *)
Definition done_ (sid : nat) (k : Key) (db : Db) : Prop :=
  exists r, mine sid k r db /\ status r = delivered /\ nidOf k ∈ processed db.

Ltac stable HR Hm :=
  destruct (rely_mine _ _ _ HR _ _ Hm) as (Hm' & Es & Ea & Ep).

Lemma claimed_stable sid k r db db' : Rely sid db db' -> claimed sid k r db -> claimed sid k r db'.
Proof. intros HR (Hm & Hs & Hp). stable HR Hm. split_and!; [done|lia|]. by rewrite Ea, Ep. Qed.
Lemma unsent_stable sid k r db db' : Rely sid db db' -> unsent sid k r db -> unsent sid k r db'.
Proof. intros HR (Hm & Hs & Hp). stable HR Hm. split_and!; [done|lia|]. by rewrite Ea. Qed.
Lemma requested_stable sid k r db db' : Rely sid db db' -> requested sid k r db -> requested sid k r db'.
Proof. intros HR (Hm & Hp). stable HR Hm. split; [done|]. by rewrite Ea. Qed.
Lemma answered_stable sid k r db db' : Rely sid db db' -> answered sid k r db -> answered sid k r db'.
Proof. intros HR (Hm & Hp). stable HR Hm. split; [done|]. by rewrite Ea. Qed.
Lemma finished_stable sid k r db db' : Rely sid db db' -> finished sid k r db -> finished sid k r db'.
Proof. intros HR (Hm & Hp). stable HR Hm. split; [done|]. by rewrite Ep. Qed.
Lemma caught_stable sid k db db' : Rely sid db db' -> caught sid k db -> caught sid k db'.
Proof. intros HR (r & Hm & Hp). stable HR Hm. exists r. split; [done|]. by rewrite Ea, Ep. Qed.
Lemma done_stable sid k db db' : Rely sid db db' -> done_ sid k db -> done_ sid k db'.
Proof. intros HR (r & Hm & Hs & Hp). stable HR Hm. exists r. split_and!; [done|done|]. by rewrite Ep. Qed.

(** ** Each step verified once *)

Definition anyway (_ : NotificationError) (_ : Db) : Prop := True.
Definition always (_ : Db) : Prop := True.

Lemma query_safe {B} sid (q : Stmt B) (K Qerr : Db -> Prop) (Qok : B -> Db -> Prop) db :
  (forall db db', Rely sid db db' -> K db -> K db') -> K db ->
  (forall db1, K db1 -> Inv db1 -> Qerr db1 /\
     forall db2 r, q sid db1 = Some (db2, r) -> Inv db2 /\ Guar sid db1 db2 /\ upto Qerr Qok r db2) ->
  Safely sid anyway (upto Qerr Qok) (query q) db.
Proof.
  intros Hst HK H. apply safely_query. intros db1 HR HI. destruct (H db1) as [He Hs]; [by eapply Hst|done|].
  split_and!; [|done|done]. intros db2 r Hr. destruct (Hs db2 r Hr) as (? & ? & ?). by split_and!.
Qed.

Lemma notify_noop_safe sid (K : Db -> Prop) db :
  (forall db db', Rely sid db db' -> K db -> K db') -> K db ->
  Safely sid anyway (upto K (fun _ => K)) (query noop) db.
Proof.
  intros Hst HK. apply (query_safe sid noop K); [done..|]. intros db1 H1 HI. split; [done|].
  intros db2 r [= <- <-]. split_and!; [done| |done]. intros o _. apply notify_Rely_refl.
Qed.

(** A call whose reply may get lost. *)
Lemma call_safe {B} sid (q : Stmt B) (K Qerr : Db -> Prop) (Qok : B -> Db -> Prop) db :
  (forall db db', Rely sid db db' -> K db -> K db') ->
  (forall b db db', Rely sid db db' -> Qok b db -> Qok b db') ->
  (forall b db, Qok b db -> Qerr db) -> K db ->
  (forall db1, K db1 -> Inv db1 -> Qerr db1 /\
     forall db2 r, q sid db1 = Some (db2, r) -> Inv db2 /\ Guar sid db1 db2 /\ upto Qerr Qok r db2) ->
  Safely sid anyway (upto Qerr Qok) (call q) db.
Proof.
  intros Hst Hst' Herr HK H. unfold call.
  eapply safely_then; [by apply (query_safe sid q K Qerr Qok)| |done]. intros b db1 H1.
  eapply safely_then; [apply (notify_noop_safe sid (Qok b)); [by apply Hst'|exact H1]|by intros [] db2 H2|].
  intros e db2 H2. by eapply Herr.
Qed.

(** *** Steps that change only what belongs to the claimed row *)

Lemma sends_heard nid c db :
  sends nid (heard c db) = sends nid db + (if decide (ack c = false /\ about c = nid) then 1 else 0).
Proof.
  unfold sends, heard. cbn [contacts]. rewrite filter_app, length_app, Nat2Z.inj_add, filter_cons.
  by case_decide.
Qed.

Lemma isAcked_heard nid c db :
  isAcked nid (heard c db) <-> isAcked nid db \/ (ack c = true /\ about c = nid).
Proof. unfold isAcked, heard. cbn [contacts]. set_solver. Qed.

Lemma mine_excludes sid k r db : mine sid k r db -> forall o r', o <> sid -> mine o k r' db -> False.
Proof. intros Hm o r' Ho Hm'. by apply Ho, (mine_unique sid o k r r' db). Qed.

Lemma nidOf_ne k k' : k' <> k -> nidOf k' <> nidOf k.
Proof. intros Hne E. by apply Hne, (notificationIdFor_inj digest). Qed.

Lemma final_heard (sid : nat) (b : bool) nid db :
  Inv db -> ~ isAcked nid db -> final (contacts (heard (mkContact sid nid b) db)).
Proof.
  intros HI Ha. apply final_snoc; [apply HI|]. cbn. intros c Hc Hack E. apply Ha. by exists c.
Qed.

Lemma request_spec sid k r db :
  Inv db -> unsent sid k r db ->
  let db' := heard (mkContact sid (nidOf k) false) db in
  Inv db' /\ Guar sid db db' /\ requested sid k r db'.
Proof.
  intros HI (Hm & Hs & Ha). cbn zeta. pose proof (final_heard sid false (nidOf k) db HI Ha) as Hfin.
  assert (Hack : forall nid, isAcked nid (heard (mkContact sid (nidOf k) false) db) <-> isAcked nid db)
    by (intros nid; rewrite isAcked_heard; cbn; naive_solver).
  destruct HI as [I1 I2 I3 I4 I5 I6 I7]. pose proof Hm as (Ht & Hc & Hcl). split_and!.
  - split; cbn [table processed heard]; [done|done| |by setoid_rewrite Hack|done|..].
    + intros nid. rewrite Hack. apply I3.
    + intros k' r' Hr'. rewrite sends_heard. case_decide as E; [|specialize (I6 k' r' Hr'); lia].
      destruct E as [_ E%notificationIdFor_inj]; [|done]. cbn in *. subst k'. simplify_eq. lia.
    + intros k' Hr'. rewrite sends_heard, decide_False; [by rewrite I7|].
      intros [_ E%notificationIdFor_inj]; [|done]. cbn in *. subst k'. simplify_eq.
  - apply (guar_own sid k); cbn [table heard claimants]; [by apply mine_excludes with r|done| |done|].
    + intros k' Hne. split_and!; [|done|done]. rewrite sends_heard, decide_False; [lia|].
      cbn. intros [_ E]. by apply (nidOf_ne k k').
    + intros nid. by rewrite Hack.
  - split; [done|]. by rewrite Hack.
Qed.

Lemma acknowledge_spec sid k r db :
  Inv db -> requested sid k r db ->
  let db' := heard (mkContact sid (nidOf k) true) db in
  Inv db' /\ Guar sid db db' /\ answered sid k r db'.
Proof.
  intros HI (Hm & Ha). cbn zeta. pose proof (final_heard sid true (nidOf k) db HI Ha) as Hfin.
  assert (Hs : forall nid, sends nid (heard (mkContact sid (nidOf k) true) db) = sends nid db)
    by (intros nid; rewrite sends_heard, decide_False; [lia|cbn; naive_solver]).
  destruct HI as [I1 I2 I3 I4 I5 I6 I7]. pose proof Hm as (Ht & Hc & Hcl). split_and!.
  - split; cbn [table processed heard]; [done|done|..|done| |].
    + intros nid Hn. apply isAcked_heard. left. by apply I3.
    + intros nid [Hn|[_ <-]]%isAcked_heard Hp; [by apply I4|]. by exists k, r.
    + intros k' r'. rewrite Hs. apply I6.
    + intros k'. rewrite Hs. apply I7.
  - apply (guar_own sid k); cbn [table processed heard claimants]; [by apply mine_excludes with r|done| |done|].
    + intros k' Hne. split; [apply Hs|]. split; [|done]. rewrite isAcked_heard.
      pose proof (nidOf_ne k k' Hne). cbn. naive_solver.
    + intros nid Hn. apply isAcked_heard. by left.
  - split; [done|]. apply isAcked_heard. by right.
Qed.

Lemma process_spec sid k r db :
  Inv db -> answered sid k r db ->
  let db' := note (nidOf k) db in
  Inv db' /\ Guar sid db db' /\ finished sid k r db'.
Proof.
  intros [I1 I2 I3 I4 I5 I6 I7] (Hm & Ha). cbn zeta. split_and!.
  - split; cbn; try done.
    + intros nid [->%elem_of_singleton|Hn]%elem_of_union; [done|by apply I3].
    + intros nid Hn Hp. apply I4; [done|]. set_solver.
    + intros k' r' Hr' Hs. apply elem_of_union_r. by apply (I5 k' r').
  - apply (guar_own sid k); cbn; [by apply mine_excludes with r|done| |done|done].
    intros k' Hne. split; [done|]. split; [done|]. pose proof (nidOf_ne k k' Hne). set_solver.
  - split; [done|]. cbn. set_solver.
Qed.

Lemma send_safe sid k r db :
  claimed sid k r db ->
  Safely sid anyway (upto (caught sid k) (fun _ => finished sid k r)) (send (nidOf k)) db.
Proof.
  intros Hc. intros db1 HR HI db2 has [= <- <-]. split; [done|]. split; [intros o _; apply notify_Rely_refl|].
  destruct (claimed_stable _ _ _ _ _ HR Hc) as (Hm & Hs & Hp). clear db Hc HR.
  case_bool_decide as Hin; [by split|]. assert (Hu : unsent sid k r db1) by (split_and!; auto).
  unfold sender. eapply safely_then with (Q1 := upto (caught sid k) (fun _ => answered sid k r)); [| |done].
  - eapply safely_then with (Q1 := upto (caught sid k) (fun _ => requested sid k r)); [| |done].
    + apply (query_safe sid _ (unsent sid k r)); [apply unsent_stable|done|]. intros db3 (H1 & H2 & H3) HI3.
      split; [by exists r; split|]. intros db4 ret [= <- <-]. by apply request_spec; [|split_and!].
    + intros [] db3 H3. eapply safely_then with (Q1 := upto (caught sid k) (fun _ => answered sid k r)); [|by intros []|done].
      apply (query_safe sid _ (requested sid k r)); [apply requested_stable|done|]. intros db4 (H4 & H5) HI4.
      split; [by exists r; split|]. intros db5 ret [= <- <-]. by apply acknowledge_spec.
  - intros [] db3 H3 db4 HR4 HI4 db5 b [= <- <-].
    apply process_spec; [done|]. by eapply answered_stable.
Qed.

(** Marking the claimed row. *)
Lemma mark_spec sid k r f db :
  Inv db -> mine sid k r db ->
  notificationId (f r) = notificationId r -> attempts (f r) = attempts r ->
  (claimable (f r) = true -> isAcked (nidOf k) db -> nidOf k ∈ processed db) ->
  (status (f r) = delivered -> nidOf k ∈ processed db) ->
  let db' := set_table (alter f k (table db)) db in
  Inv db' /\ Guar sid db db' /\ table db' !! k = Some (f r).
Proof.
  intros [I1 I2 I3 I4 I5 I6 I7] Hm Hid Hat Hcl Hdel. cbn zeta. destruct db as [t p l c].
  unfold set_table. cbn [table processed contacts claimants] in *. pose proof Hm as (Ht & Hc & Hncl).
  cbn [table claimants] in Ht, Hc.
  assert (Hk : forall k' r', alter f k t !! k' = Some r' -> (k' = k /\ r' = f r) \/ (k' <> k /\ t !! k' = Some r')).
  { intros k' r'. rewrite lookup_alter. case_decide as E; [subst k'|by right]. rewrite Ht. cbn. intros [= <-]. by left. }
  split_and!.
  - split; try done; cbn [table processed contacts claimants].
    + intros k' r' [[-> ->]|[Hne Hr']]%Hk; [|by apply I1]. by rewrite Hid, (I1 k r).
    + intros nid Ha Hp. destruct (I4 nid Ha Hp) as (k' & r' & -> & Hr' & Hn). exists k'.
      destruct (decide (k = k')) as [<-|Hne].
      * exists (f r). rewrite lookup_alter_eq, Ht. split_and!; [done..|].
        destruct (claimable (f r)) eqn:E; [|done]. exfalso. by apply Hp, Hcl.
      * exists r'. by rewrite lookup_alter_ne.
    + intros k' r' [[-> ->]|[Hne Hr']]%Hk Hs; [by apply Hdel|by apply (I5 k' r')].
    + intros k' r' [[-> ->]|[Hne Hr']]%Hk; [|by apply (I6 k')]. rewrite Hat. by apply (I6 k r).
    + intros k'. rewrite lookup_alter. case_decide as E; [subst k'; by rewrite Ht|by apply I7].
  - apply (guar_own sid k); cbn [table processed contacts claimants];
      [by apply mine_excludes with r| |done| |done].
    + intros k' Hne. by rewrite lookup_alter_ne.
    + intros _. rewrite lookup_alter_eq, Ht. by eexists.
  - cbn [table]. by rewrite lookup_alter, decide_True, Ht.
Qed.

Lemma markDelivered_safe sid k r db :
  finished sid k r db -> Safely sid anyway (upto (caught sid k) (fun _ => done_ sid k)) (awaitMarkDelivered k) db.
Proof.
  intros Hf. apply (call_safe sid _ (finished sid k r)); [apply finished_stable|intros _; apply done_stable| |done|].
  - intros _ db' (r' & Hm & _ & Hp). by exists r'.
  - intros db1 (Hm & Hp) HI. split; [by exists r|]. intros db2 ret [= <- <-].
    destruct (mark_spec sid k r setDelivered db1 HI Hm) as (HI' & HG & Hrow); [done..|].
    split_and!; [done..|]. exists (setDelivered r). split_and!; [|done|done].
    split_and!; [done|by apply Hm|done].
Qed.

Lemma markFailed_safe sid k e db :
  caught sid k db -> Safely sid anyway (upto always (fun _ => always)) (awaitMarkFailed k e) db.
Proof.
  intros Hf. apply (call_safe sid _ (caught sid k)); [apply caught_stable|done..|].
  intros db1 (r & Hm & Hp) HI. split; [done|]. intros db2 ret [= <- <-].
  destruct (mark_spec sid k r (setFailed (errorMessage e)) db1 HI Hm) as (HI' & HG & _); [done..|].
  by split_and!.
Qed.

(** A row that has just been claimed. *)
Lemma claim_spec sid k r' db :
  Inv db -> claimable r' = false -> status r' <> delivered -> notificationId r' = nidOf k ->
  match table db !! k with
  | Some r => claimable r = true /\ attempts r' = attempts r + 1
  | None => attempts r' = 1
  end ->
  let db' := mkDb (<[k := r']> (table db)) (processed db) (contacts db) (<[k := sid]> (claimants db)) in
  Inv db' /\ Guar sid db db' /\ claimed sid k r' db'.
Proof.
  intros [I1 I2 I3 I4 I5 I6 I7] Hcl Hst Hid Hold. cbn zeta. destruct db as [t p l c].
  cbn [table processed contacts claimants] in *.
  assert (Hfree : forall r, t !! k = Some r -> claimable r = true) by (intros r Hr; rewrite Hr in Hold; apply Hold).
  assert (Hless : sends (nidOf k) (mkDb t p l c) < attempts r').
  { destruct (t !! k) as [r|] eqn:Hr; [|rewrite I7 by done; lia]. pose proof (I6 k r Hr). lia. }
  split_and!.
  - split; try done; cbn [table processed contacts claimants].
    + intros k' r. rewrite lookup_insert_Some. intros [[<- <-]|[Hne Hr]]; [done|by apply I1].
    + intros nid Ha Hp. destruct (I4 nid Ha Hp) as (k' & r & -> & Hr & Hn). exists k', r. split_and!; [done| |done].
      rewrite lookup_insert_ne; [done|]. intros <-. rewrite (Hfree r Hr) in Hn. done.
    + intros k' r. rewrite lookup_insert_Some. intros [[<- <-]|[Hne Hr]]; [done|by apply I5].
    + intros k' r. rewrite lookup_insert_Some. intros [[<- <-]|[Hne Hr]]; [by apply Z.lt_le_incl|by apply I6].
    + intros k'. rewrite lookup_insert_None. intros [Hr _]. by apply I7.
  - apply (guar_own sid k); cbn [table processed contacts claimants]; [| |done| |done].
    + intros o r _ (Hr & _ & Hn). cbn in Hr. rewrite (Hfree r Hr) in Hn. done.
    + intros k' Hne. by rewrite !lookup_insert_ne.
    + intros _. rewrite lookup_insert_eq. by eexists.
  - split_and!; [split_and!; [apply lookup_insert_eq|apply lookup_insert_eq|done]|done|].
    cbn [processed]. intros Ha. destruct (decide (nidOf k ∈ p)) as [|Hp]; [done|exfalso].
    destruct (I4 _ Ha Hp) as (k' & r & E & Hr & Hn). apply notificationIdFor_inj in E as <-; [|done].
    rewrite (Hfree r Hr) in Hn. done.
Qed.

Lemma claimDelivery_safe sid k db :
  Safely sid anyway (upto always (fun x db => match x with
    | Some r => notificationId r = nidOf k /\ claimed sid k r db
    | None => is_Some (table db !! k)
    end)) (awaitClaim k (nidOf k)) db.
Proof.
  apply (call_safe sid _ always); [done| |done|done|].
  - intros [r|] db1 db2 HR; [|by apply (rely_rows _ _ _ HR)]. intros [? Hc]. split; [done|].
    by eapply claimed_stable.
  - intros db1 _ HI. split; [done|]. intros db2 ret Hr. unfold claimStmt, Pg.claimDelivery in Hr.
    destruct (table db1 !! k) as [r|] eqn:Ht; [destruct (claimable r) eqn:Hcl|destruct (Pg.taken _ _)];
      injection Hr as <- <-.
    + destruct (claim_spec sid k (reclaimed r) db1 HI) as (HI' & HG & Hc); [done|done| |by rewrite Ht|].
      * cbn. by apply (inv_ids _ HI k r).
      * split_and!; [done..|]. split; [|done]. cbn. by apply (inv_ids _ HI k r).
    + split_and!; [done|intros o _; apply notify_Rely_refl|]. cbn. by rewrite Ht.
    + split_and!; [done|intros o _; apply notify_Rely_refl|done].
    + destruct (claim_spec sid k (mkDelivery (nidOf k) delivering 1 None) db1 HI) as (HI' & HG & Hc);
        [done..|by rewrite Ht|]. by split_and!.
Qed.

(** ** Whole deliveries *)

Definition Post (sid : nat) (k : Key) (r : NotificationError + DeliveryResult) (db : Db) : Prop :=
  match r with
  | inr Delivered => done_ sid k db
  | inr Skipped => is_Some (table db !! k)
  | inl _ => True
  end.

Lemma round_safe sid k r db :
  claimed sid k r db ->
  Safely sid anyway (upto (caught sid k) (fun d => Post sid k (inr d)))
    (then_ (send (nidOf k)) (fun _ => then_ (awaitMarkDelivered k) (fun _ => Return Delivered))) db.
Proof.
  intros Hc. eapply safely_then; [by apply send_safe| |done]. intros [] db1 H1.
  eapply safely_then; [by apply (markDelivered_safe sid k r)| |done]. by intros [] db2 H2.
Qed.

Lemma sleep_safe sid ms (Q : NotificationError + unit -> Db -> Prop) db :
  (forall db', Q (inr tt) db') -> Safely sid anyway Q (sleep ms) db.
Proof. intros HQ db1 HR HI db2 b [= <- <-]. split_and!; [done|intros o _; apply notify_Rely_refl|apply HQ]. Qed.

Lemma deliverLoop_safe sid k left attempt db :
  Safely sid anyway (Post sid k) (deliverLoop backoffMs k (nidOf k) left attempt) db.
Proof.
  revert attempt db. induction left as [|left IH]; intros attempt db; cbn [deliverLoop];
    (eapply safely_then; [apply claimDelivery_safe| |done]; intros [r|] db1 Hr; [destruct Hr as [Hid Hc]|done]);
    (eapply safely_try; [rewrite Hid; by apply (round_safe sid k r)|done
     |intros e db2 H2; eapply safely_then; [by apply markFailed_safe|intros [] db3 _|done]
     |by intros e db2 _; eexists]); [done|].
  eapply safely_then with (Q1 := fun _ _ => True); [by apply sleep_safe| |done]. intros [] db4 _. apply IH.
Qed.

Lemma getDelivery_safe sid k db :
  Safely sid anyway (upto always (fun x db =>
    match x with Some r => is_Some (table db !! k) | None => True end)) (awaitGetDelivery k) db.
Proof.
  apply (call_safe sid _ always); [done| |done|done|].
  - intros [r|] db1 db2 HR; [|done]. apply (rely_rows _ _ _ HR).
  - intros db1 _ HI. split; [done|]. intros db2 ret [= <- <-].
    split_and!; [done|intros o _; apply notify_Rely_refl|]. cbn. unfold Pg.getDelivery.
    by destruct (table db1 !! k).
Qed.

#[local] Instance deliveries_protocol :
  SessionProtocol body ConnectionLost (fun _ db => db) Inv Rely Post (fun _ _ => True).
Proof.
  split.
  - apply notify_Rely_refl.
  - apply notify_Rely_trans.
  - intros sid k [e|[]] db db' HR; cbn; [done|by apply done_stable|apply (rely_rows _ _ _ HR)].
  - done.
  - done.
  - intros sid db _ o _. apply notify_Rely_refl.
  - intros sid k db _ _. unfold settles, body, deliverChannel.
    eapply safely_mono with (L1 := anyway); [by intros r db'; apply id|done|].
    eapply safely_then; [apply getDelivery_safe| |done]. intros [r|] db1 H1; [|apply deliverLoop_safe].
    case_bool_decide; [done|apply deliverLoop_safe].
Qed.

Lemma notify_Inv_empty : Inv empty_db.
Proof.
  split; cbn; try done.
  - intros l1 c l2 E. by destruct l1.
  - intros nid (c & Hc & _). by apply elem_of_nil in Hc.
Qed.

(** C29: whatever fails or gets lost, and however deliveries interleave: once a
    sender has acknowledged a notification no request for it arrives again; each
    notification was requested at most as often as its row counts attempts; a row
    marked as delivered, and a delivery that reports so, was acknowledged; and a
    delivery reported as skipped has a row. *)
Theorem notifications_sent_once evs :
  let w := deliveries evs in let db := w_db w in
  (forall l1 c l2, contacts db = l1 ++ c :: l2 -> ack c = true ->
     Forall (fun c' => about c' <> about c) l2) /\
  (forall k r, table db !! k = Some r ->
     notificationId r = nidOf k /\ sends (nidOf k) db <= attempts r /\
     (status r = delivered -> isAcked (nidOf k) db)) /\
  (forall k, table db !! k = None -> sends (nidOf k) db = 0) /\
  (forall sid k r, outcome w sid = Some (k, r) ->
     match r with
     | inr Delivered => isAcked (nidOf k) db /\ status <$> table db !! k = Some delivered
     | inr Skipped => is_Some (table db !! k)
     | inl _ => True
     end).
Proof.
  cbn zeta.
  destruct (run_safe _ _ _ Inv Rely Post (fun _ _ => True) empty_db evs notify_Inv_empty (fun _ => I)) as (HI & _ & _).
  split_and!; [apply HI| |apply HI|].
  - intros k r Hr. split_and!; [by apply (inv_ids _ HI)|by apply (inv_sends _ HI)|].
    intros Hs. by apply (inv_processed _ HI), (inv_delivered _ HI k r).
  - intros sid k r Ho.
    pose proof (run_outcome _ _ _ Inv Rely Post (fun _ _ => True) empty_db evs sid _ _ notify_Inv_empty (fun _ => I) Ho) as HP.
    destruct r as [e|[]]; cbn in HP; [done| |done].
    destruct HP as (r & (Ht & _) & Hs & Hp). split; [by apply (inv_processed _ HI)|]. unfold deliveries. by rewrite Ht; cbn; rewrite Hs.
Qed.
End runs.

(** ** The stores from outside *)

Lemma alter_insert_lookup `{Countable K} {V} (f : V -> V) (m : gmap K V) k v :
  m !! k = Some v -> alter f k m = <[k := f v]> m.
Proof.
  intros Hk. apply map_eq. intros k'. destruct (decide (k = k')) as [<-|].
  - by rewrite lookup_alter_eq, lookup_insert_eq, Hk.
  - by rewrite lookup_alter_ne, lookup_insert_ne.
Qed.

Lemma alter_id_None `{Countable K} {V} (f : V -> V) (m : gmap K V) k : m !! k = None -> alter f k m = m.
Proof.
  intros Hk. apply map_eq. intros k'. destruct (decide (k = k')) as [<-|].
  - by rewrite lookup_alter_eq, Hk.
  - by rewrite lookup_alter_ne.
Qed.

Section stores.
Context (digest : string -> string).
#[local] Notation nidOf := (notificationIdFor digest).

(** A call of the notifier: it claims with [notificationIdFor]. *)
Inductive StoreCall :=
  | ClaimDelivery (k : Key)
  | MarkDelivered (k : Key)
  | MarkFailed (k : Key) (e : NotificationError)
  | GetDelivery (k : Key).

Abbreviation Answer := (NotificationError + option NotificationDeliveryRecord)%type.

Definition inMemory (c : StoreCall) (records : jsmap string NotificationDeliveryRecord) :
    jsmap string NotificationDeliveryRecord * Answer :=
  match c with
  | ClaimDelivery k => let '(m, r) := InMemory.claimDelivery k (nidOf k) records in (m, inr r)
  | MarkDelivered k => (InMemory.markDelivered k records, inr None)
  | MarkFailed k e => (InMemory.markFailed k (errorMessage e) records, inr None)
  | GetDelivery k => (records, inr (InMemory.getDelivery k records))
  end.

Definition postgres (c : StoreCall) (t : Pg.Table) : Pg.Table * Answer :=
  match c with
  | ClaimDelivery k => Pg.claimDelivery k (nidOf k) t
  | MarkDelivered k => (Pg.markDelivered k t, inr None)
  | MarkFailed k e => (Pg.markFailed k (errorMessage e) t, inr None)
  | GetDelivery k => (t, inr (Pg.getDelivery k t))
  end.

Fixpoint answers {S} (store : StoreCall -> S -> S * Answer) (cs : list StoreCall) (s : S) : list Answer :=
  match cs with
  | [] => []
  | c :: cs' => let '(s', a) := store c s in a :: answers store cs' s'
  end.

Record agree (records : jsmap string NotificationDeliveryRecord) (t : Pg.Table) : Prop := {
  agree_rows k : records !! InMemory.key k = t !! k;
  agree_ids k r : t !! k = Some r -> notificationId r = nidOf k
}.

Lemma agree_insert records t k r :
  agree records t -> notificationId r = nidOf k ->
  agree (<[InMemory.key k := r]> records) (<[k := r]> t).
Proof.
  intros [Hr Hi] Hid. split.
  - intros k'. rewrite jsmap_lookup_insert, lookup_insert, Hr. repeat case_decide; try done.
    + by exfalso; eauto using key_inj.
    + by subst.
  - intros k' r'. rewrite lookup_insert_Some. naive_solver.
Qed.

Lemma taken_fresh (t : Pg.Table) k :
  (forall k' r, t !! k' = Some r -> notificationId r = nidOf k') -> t !! k = None ->
  (forall s, lacks ":"%char (digest s) = true) -> Pg.taken (nidOf k) t = false.
Proof.
  intros Hi Hk Hd. apply Bool.not_true_is_false. unfold Pg.taken. rewrite existsb_exists.
  intros ([k' r] & Hin & E%String.eqb_eq). apply list_elem_of_In, elem_of_map_to_list in Hin.
  cbn in E. rewrite (Hi k' r Hin) in E. apply notificationIdFor_inj in E as ->; [|done]. congruence.
Qed.

Lemma stores_step records t c :
  (forall s, lacks ":"%char (digest s) = true) -> agree records t ->
  agree (inMemory c records).1 (postgres c t).1 /\ (inMemory c records).2 = (postgres c t).2.
Proof.
  intros Hd HA. pose proof HA as [Hr Hi]. destruct c as [k|k|k e|k]; cbn [inMemory postgres].
  - unfold InMemory.claimDelivery, Pg.claimDelivery. rewrite Hr.
    destruct (t !! k) as [r|] eqn:Ht; [|rewrite taken_fresh by done; by split; [apply agree_insert|]].
    unfold claimable, reclaimed. pose proof (Hi k r Ht).
    destruct (status r); cbn; (split; [|done]); try done; by apply agree_insert.
  - unfold InMemory.markDelivered, Pg.markDelivered. rewrite Hr. destruct (t !! k) as [r|] eqn:Ht; cbn.
    + rewrite (alter_insert_lookup _ t k r Ht). split; [|done]. apply agree_insert; [done|]. exact (Hi k r Ht).
    + by rewrite alter_id_None.
  - unfold InMemory.markFailed, Pg.markFailed. rewrite Hr. destruct (t !! k) as [r|] eqn:Ht; cbn.
    + rewrite (alter_insert_lookup _ t k r Ht). split; [|done]. apply agree_insert; [done|]. exact (Hi k r Ht).
    + by rewrite alter_id_None.
  - split; [done|]. by unfold InMemory.getDelivery, Pg.getDelivery; cbn; rewrite Hr.
Qed.

(** the map in memory and the table answer every sequence of the notifier's
    calls alike, as long as the digest prints no colon: the keys they file records
    under, the conflict target of the INSERT and the status guards agree. *)
Theorem delivery_stores_agree cs :
  (forall s, lacks ":"%char (digest s) = true) ->
  answers inMemory cs ∅ = answers postgres cs ∅.
Proof.
  intros Hd. assert (H0 : agree ∅ ∅) by (split; intros *; [by rewrite jsmap_lookup_empty, lookup_empty|done]).
  revert H0. generalize (∅ : Pg.Table). generalize (∅ : jsmap string NotificationDeliveryRecord).
  induction cs as [|c cs IH]; intros records t HA; [done|]. cbn.
  pose proof (stores_step records t c Hd HA) as [HA' E]. destruct (inMemory c records), (postgres c t). cbn in *.
  by rewrite E, (IH _ _ HA').
Qed.
End stores.

(** ** Concrete runs *)

Module Examples.
Local Open Scope string_scope.
Local Open Scope list_scope.

Definition digest (s : string) : string := "0f".
Definition mail : Key := ("s1", email).

Lemma digest_hex s : lacks ":"%char (digest s) = true.
Proof. done. Qed.

Definition backoffs : list Z := [1000; 2000; 4000].
Definition execs (sid n : nat) : list (Sessions.Event (E := NotificationError) (Call := Key)) := replicate n (Exec sid).

(** The sender fails once, then acknowledges. *)
Definition retried : list (Sessions.Event (E := NotificationError) (Call := Key)) :=
  [Start 1 mail] ++ execs 1 5 ++ [Refuse 1 (SendError "timeout")] ++ execs 1 11.

Lemma retried_delivers :
  outcome (deliveries digest 3 backoffs retried) 1 = Some (mail, inr Delivered) /\
  (attempts <$> table (w_db (deliveries digest 3 backoffs retried)) !! mail) = Some 2.
Proof. vm_compute. by split. Qed.

(** The reply to the claim is lost: the row stays 'delivering', nothing is sent and
    every later delivery reports that it was skipped. *)
Definition stuck : list (Sessions.Event (E := NotificationError) (Call := Key)) :=
  [Start 1 mail] ++ execs 1 3 ++ [Refuse 1 (DatabaseError "timeout")] ++ [Start 2 mail] ++ execs 2 4.

Lemma stuck_skips_forever :
  outcome (deliveries digest 3 backoffs stuck) 1 = Some (mail, inl (DatabaseError "timeout")) /\
  outcome (deliveries digest 3 backoffs stuck) 2 = Some (mail, inr Skipped) /\
  contacts (w_db (deliveries digest 3 backoffs stuck)) = [].
Proof. vm_compute. by split_and!. Qed.

(** The reply to [markDelivered] is lost: an acknowledged notification is marked as
    failed and, without retries, reported as failed. *)
Definition unmarked : list (Sessions.Event (E := NotificationError) (Call := Key)) :=
  [Start 1 mail] ++ execs 1 9 ++ [Refuse 1 (DatabaseError "timeout")] ++ execs 1 2.

Lemma unmarked_fails :
  outcome (deliveries digest 0 backoffs unmarked) 1 =
    Some (mail, inl (ChannelDeliveryError email (Some "timeout"))) /\
  (status <$> table (w_db (deliveries digest 0 backoffs unmarked)) !! mail) = Some failed /\
  last (contacts (w_db (deliveries digest 0 backoffs unmarked))) =
    Some (mkContact 1 (notificationIdFor digest mail) true).
Proof. vm_compute. by split_and!. Qed.

Lemma notifications_sent_once_witness :
  outcome (deliveries digest 3 backoffs retried) 1 = Some (mail, inr Delivered) /\
  isAcked (notificationIdFor digest mail) (w_db (deliveries digest 3 backoffs retried)).
Proof.
  assert (Ho : outcome (deliveries digest 3 backoffs retried) 1 = Some (mail, inr Delivered)) by (vm_compute; done).
  split; [exact Ho|].
  destruct (notifications_sent_once digest digest_hex 3 backoffs retried) as (_ & _ & _ & H).
  apply (H 1%nat mail (inr Delivered) Ho).
Defined.

Lemma delivery_stores_agree_witness :
  answers (inMemory digest) [ClaimDelivery mail; ClaimDelivery mail; MarkDelivered mail; GetDelivery mail] ∅ =
  answers (postgres digest) [ClaimDelivery mail; ClaimDelivery mail; MarkDelivered mail; GetDelivery mail] ∅.
Proof. apply (delivery_stores_agree digest). exact digest_hex. Defined.
End Examples.
