(* ===== verification/AtomicFiles.v ===== *)
(** * Files replaced atomically ([atomicWriteFile] in [src/src/tls/acme_rotation.ts])

    A file system of names and inodes, and any number of [atomicWriteFile] calls
    stepping through their awaits, each of which can be refused.  A step that
    writes puts its bytes at the start of the file the handle is open on; a power
    loss leaves arbitrary contents in every file that was not synced, and ends the
    process with all its writers.  The code syncs files but no directory, so a power
    loss also keeps only some of the creations and renames since the last one, any of
    them, each wholly or not at all ([journal], [kept]).  Directories always exist;
    paths are in normal form.

    [writes_replace_atomically]: as long as no two writers have the same temporary
    name open at once, a file is never seen with anything but its initial contents
    or the whole contents of the write whose rename onto it took effect last.  A write
    that has returned can still be undone ([returned_writes_lost]). *)

From Stdlib Require Import ZArith Lia Ascii String.
From stdpp Require Import base list strings gmap.
From S2P Require Import Prelude Js Text.
#[local] Open Scope Z_scope.

(** ** Names *)

(** The part of a path up to its last slash, the slash included, and the rest. *)
Fixpoint cutLastSlash (s : string) : string * string :=
  match s with
  | EmptyString => ("", "")
  | String c s' =>
      let '(d, b) := cutLastSlash s' in
      if String.eqb d "" && negb (Ascii.eqb c "/") then ("", String c b) else (String c d, b)
  end.

Definition basename (p : string) : string := (cutLastSlash p).2.
(** [path.join(path.dirname(p), name)] *)
Definition sibling (p name : string) : string := (cutLastSlash p).1 +:+ name.

Definition tmpName (pid now : Z) (target : string) : string :=
  sibling target ("." +:+ basename target +:+ "." +:+ print_Z pid +:+ "." +:+ print_Z now +:+ ".tmp").

Definition temporary (p : string) : bool := endsWith ".tmp" p.

Lemma tmpName_temporary pid now target : temporary (tmpName pid now target) = true.
Proof. unfold tmpName, sibling, temporary. rewrite <- !app_assoc_s. apply endsWith_app. Qed.

(** ** The file system *)

Record Inode := mkInode { data : string; mode : Z; synced : bool }.

Record Files := mkFiles {
  names : gmap string nat;
  inodes : gmap nat Inode;
  nextInode : nat
}.

Definition lookupFile (p : string) (fs : Files) : option Inode :=
  match names fs !! p with Some i => inodes fs !! i | None => None end.

(** [fsp.readFile(p)], [None] for ENOENT *)
Definition readFile (p : string) (fs : Files) : option string := data <$> lookupFile p fs.

(** [fileExists(p)] *)
Definition fileExists (p : string) (fs : Files) : bool := bool_decide (is_Some (names fs !! p)).

Definition putInode (i : nat) (n : Inode) (fs : Files) : Files :=
  mkFiles (names fs) (<[i := n]> (inodes fs)) (nextInode fs).

(** [fsp.open(p, 'w', mode)] *)
Definition openForWriting (umask : Z) (p : string) (md : Z) (fs : Files) : Files * nat :=
  match names fs !! p with
  | Some i =>
      let md' := match inodes fs !! i with Some n => mode n | None => md end in
      (putInode i (mkInode "" md' false) fs, i)
  | None =>
      let i := nextInode fs in
      (mkFiles (<[p := i]> (names fs)) (<[i := mkInode "" (Z.land md (Z.lnot umask)) false]> (inodes fs)) (S i), i)
  end.

(** Bytes written from the start of what is there. *)
Definition overlay (new old : string) : string :=
  new +:+ substring (String.length new) (String.length old - String.length new) old.

Lemma overlay_empty new : overlay new "" = new.
Proof. unfold overlay. cbn. destruct (String.length new); by rewrite app_nil_s. Qed.

Definition writeAt (h : nat) (new : string) (fs : Files) : Files :=
  match inodes fs !! h with
  | Some n => putInode h (mkInode (overlay new (data n)) (mode n) false) fs
  | None => fs
  end.

Definition sync (h : nat) (fs : Files) : Files :=
  match inodes fs !! h with
  | Some n => putInode h (mkInode (data n) (mode n) true) fs
  | None => fs
  end.

(** [fsp.rename(a, b)] *)
Definition rename (a b : string) (fs : Files) : option Files :=
  match names fs !! a with
  | Some i => Some (mkFiles (<[b := i]> (delete a (names fs))) (inodes fs) (nextInode fs))
  | None => None
  end.

(** [fsp.chmod(p, mode)] *)
Definition chmod (p : string) (md : Z) (fs : Files) : option Files :=
  match names fs !! p with
  | Some i =>
      match inodes fs !! i with
      | Some n => Some (putInode i (mkInode (data n) md (synced n)) fs)
      | None => None
      end
  | None => None
  end.

Definition loseUnsynced (torn : nat -> string) (fs : Files) : Files :=
  mkFiles (names fs)
    (map_imap (fun i n => Some (if synced n then n else mkInode (torn i) (mode n) true)) (inodes fs))
    (nextInode fs).

(** ** [atomicWriteFile] *)

Record Job := mkJob { target : string; body : string; jmode : Z }.

(** Where a call is: the await it is at, with its handle, and the error of the
    [try] that its [finally] will throw again. *)
Inductive Stage :=
  | Mkdir
  | Open
  | Write (tmp : string) (h : nat)
  | Sync (tmp : string) (h : nat)
  | Close (tmp : string) (h : nat) (failure : option string)
  | Rename (tmp : string)
  | Chmod
  | Settled (failure : option string).

Record Writer := mkWriter { job : Job; stage : Stage }.

Definition ENOENT : string := "ENOENT: no such file or directory".

(** The next step of a call; [refused] is the error of the system call and how
    many bytes it wrote before. *)
Definition advance (umask pid now : Z) (refused : option (string * nat)) (w : Writer) (fs : Files) :
    Files * Stage :=
  let j := job w in
  match stage w, refused with
  | (Mkdir | Open | Rename _ | Chmod), Some (e, _) => (fs, Settled (Some e))
  | Mkdir, None => (fs, Open)
  | Open, None =>
      let tmp := tmpName pid now (target j) in
      let '(fs', h) := openForWriting umask tmp (jmode j) fs in (fs', Write tmp h)
  | Write tmp h, Some (e, n) => (writeAt h (substring 0 n (body j)) fs, Close tmp h (Some e))
  | Write tmp h, None => (writeAt h (body j) fs, Sync tmp h)
  | Sync tmp h, Some (e, _) => (fs, Close tmp h (Some e))
  | Sync tmp h, None => (sync h fs, Close tmp h None)
  | Close tmp h _, Some (e, _) => (fs, Settled (Some e))
  | Close tmp h (Some e), None => (fs, Settled (Some e))
  | Close tmp h None, None => (fs, Rename tmp)
  | Rename tmp, None =>
      match rename tmp (target j) fs with
      | Some fs' => (fs', Chmod)
      | None => (fs, Settled (Some ENOENT))
      end
  | Chmod, None =>
      match chmod (target j) (jmode j) fs with
      | Some fs' => (fs', Settled None)
      | None => (fs, Settled (Some ENOENT))
      end
  | Settled r, _ => (fs, Settled r)
  end.

(** ** Runs *)

(** A change of names: a temporary file made, or that of call [n] moved. *)
Inductive NameChange :=
  | Created (tmp : string) (i : nat)
  | Moved (n : nat) (tmp target : string) (i : nat).

Definition applyChange (o : NameChange) (m : gmap string nat) : gmap string nat :=
  match o with
  | Created t i => <[t := i]> m
  | Moved _ t b i => <[b := i]> (delete t m)
  end.
Definition replay (l : list NameChange) (m : gmap string nat) : gmap string nat :=
  foldl (fun m o => applyChange o m) m l.

(** The calls these changes moved the files of *)
Definition movers (l : list NameChange) : list nat :=
  omap (fun o => match o with Moved n _ _ _ => Some n | Created _ _ => None end) l.

(** [onDisk]: the names on disk when the system started, and [saved] the calls whose
    renames are among them; the changes since are in [journal], and nothing waits for
    them to reach the disk.  [lost]: the calls whose rename a power loss undid. *)
Record Disk := mkDisk {
  files : Files;
  writers : list Writer;
  onDisk : gmap string nat;
  saved : list nat;
  journal : list NameChange;
  lost : list nat
}.

(** The calls whose rename is in effect, in that order *)
Definition installed (d : Disk) : list nat := saved d ++ movers (journal d).

Definition initialDisk (fs : Files) : Disk := mkDisk fs [] (names fs) [] [] [].

Definition begin_ (j : Job) (d : Disk) : Disk :=
  mkDisk (files d) (writers d ++ [mkWriter j Mkdir]) (onDisk d) (saved d) (journal d) (lost d).

(** What a step of call [n] does to the names *)
Definition changes (n : nat) (w : Writer) (s : Stage) (fs : Files) : list NameChange :=
  match stage w, s with
  | Open, Write tmp h => if fileExists tmp fs then [] else [Created tmp h]
  | Rename tmp, Chmod => match names fs !! tmp with Some i => [Moved n tmp (target (job w)) i] | None => [] end
  | _, _ => []
  end.

(** The disk after a step that made these changes *)
Definition change (d : Disk) (fs : Files) (ws : list Writer) (l : list NameChange) : Disk :=
  mkDisk fs ws (onDisk d) (saved d) (journal d ++ l) (lost d).

Definition stepWriter (umask pid now : Z) (n : nat) (refused : option (string * nat)) (d : Disk) : Disk :=
  match writers d !! n with
  | Some w =>
      let '(fs, s) := advance umask pid now refused w (files d) in
      change d fs (<[n := mkWriter (job w) s]> (writers d)) (changes n w s (files d))
  | None => d
  end.

Definition killed (w : Writer) : Writer :=
  match stage w with
  | Settled _ => w
  | _ => mkWriter (job w) (Settled (Some "the process ended"))
  end.

(** The changes that reached the disk *)
Fixpoint kept (keep : list bool) (l : list NameChange) : list NameChange :=
  match keep, l with
  | true :: keep', o :: l' => o :: kept keep' l'
  | false :: keep', _ :: l' => kept keep' l'
  | _, _ => []
  end.

Definition powerLoss (torn : nat -> string) (keep : list bool) (d : Disk) : Disk :=
  let l := kept keep (journal d) in
  let found := replay l (onDisk d) in
  mkDisk (loseUnsynced torn (mkFiles found (inodes (files d)) (nextInode (files d)))) (killed <$> writers d)
    found (saved d ++ movers l) [] (lost d ++ filter (fun n => n ∉ movers l) (movers (journal d))).

Inductive DiskEvent :=
  | Begin (j : Job)
  | StepWriter (n : nat) (pid now : Z) (refused : option (string * nat))
  | PowerLoss (torn : nat -> string) (keep : list bool).

Definition diskStep (umask : Z) (d : Disk) (ev : DiskEvent) : Disk :=
  match ev with
  | Begin j => begin_ j d
  | StepWriter n pid now refused => stepWriter umask pid now n refused d
  | PowerLoss torn keep => powerLoss torn keep d
  end.

(** The temporary name a call has in use. *)
Definition inUse (w : Writer) : option string :=
  match stage w with
  | Write tmp _ | Sync tmp _ | Close tmp _ _ | Rename tmp => Some tmp
  | _ => None
  end.

(** No call is asked to replace a [.tmp] file, and none opens a temporary name
    another one has in use. *)
Definition orderlyEvent (d : Disk) (ev : DiskEvent) : bool :=
  match ev with
  | Begin j => negb (temporary (target j))
  | StepWriter n pid now None =>
      match writers d !! n with
      | Some (mkWriter j Open) =>
          forallb (fun w => negb (bool_decide (inUse w = Some (tmpName pid now (target j))))) (writers d)
      | _ => true
      end
  | _ => true
  end.

Fixpoint orderly (umask : Z) (d : Disk) (evs : list DiskEvent) : bool :=
  match evs with
  | [] => true
  | ev :: evs' => orderlyEvent d ev && orderly umask (diskStep umask d ev) evs'
  end.

(** What the renames so far put under [p]. *)
Definition contents (jobs : list Job) (done : list nat) (p : string) (initial : option string) : option string :=
  foldl (fun found n =>
    match jobs !! n with
    | Some j => if String.eqb (target j) p then Some (body j) else found
    | None => found
    end) initial done.

(** ** The invariant *)

Definition wellFormed (fs : Files) : Prop :=
  (forall p i, names fs !! p = Some i -> is_Some (inodes fs !! i)) /\
  (forall p q i, names fs !! p = Some i -> names fs !! q = Some i -> p = q) /\
  (forall i, is_Some (inodes fs !! i) -> (i < nextInode fs)%nat).

(** All files but temporary ones are on disk. *)
Definition durable (fs : Files) : Prop :=
  forall p n, temporary p = false -> lookupFile p fs = Some n -> synced n = true.

(** What a call knows of its temporary file at each await. *)
Definition stageOk (fs : Files) (renamed : Prop) (w : Writer) : Prop :=
  match stage w with
  | Mkdir | Open => ~ renamed
  | Write tmp h => temporary tmp = true /\ names fs !! tmp = Some h /\ readFile tmp fs = Some "" /\ ~ renamed
  | Close tmp h (Some _) => temporary tmp = true /\ names fs !! tmp = Some h /\ ~ renamed
  | Sync tmp h => temporary tmp = true /\ names fs !! tmp = Some h /\ readFile tmp fs = Some (body (job w)) /\ ~ renamed
  | Close tmp h None =>
      temporary tmp = true /\ names fs !! tmp = Some h /\
      (exists md, lookupFile tmp fs = Some (mkInode (body (job w)) md true)) /\ ~ renamed
  | Rename tmp =>
      temporary tmp = true /\ (exists md, lookupFile tmp fs = Some (mkInode (body (job w)) md true)) /\ ~ renamed
  | Chmod | Settled None => renamed
  | Settled (Some _) => True
  end.

Section invariant.
Context (fs0 : Files).

Definition jobs (d : Disk) : list Job := job <$> writers d.

(** The calls that have renamed *)
Definition renamed (d : Disk) : list nat := installed d ++ lost d.

(** What the running process sees *)
Record LiveInv (d : Disk) : Prop := {
  disk_wf : wellFormed (files d);
  disk_durable : durable (files d);
  disk_stages n w : writers d !! n = Some w -> stageOk (files d) (n ∈ renamed d) w;
  disk_apart n m w w' t : writers d !! n = Some w -> writers d !! m = Some w' ->
    inUse w = Some t -> inUse w' = Some t -> n = m;
  disk_targets n w : writers d !! n = Some w -> temporary (target (job w)) = false;
  disk_installed : NoDup (renamed d) /\ (forall n, n ∈ renamed d -> is_Some (writers d !! n));
  disk_contents p : temporary p = false ->
    readFile p (files d) = contents (jobs d) (installed d) p (readFile p fs0)
}.

(** *** Looking through changes of the file system *)

Lemma lookupFile_names p q fs i j :
  wellFormed fs -> names fs !! p = Some i -> names fs !! q = Some j -> p <> q -> i <> j.
Proof. intros (_ & Hinj & _) Hp Hq Hne ->. by apply Hne, (Hinj p q j). Qed.

Lemma lookupFile_putInode p q i n fs :
  wellFormed fs -> names fs !! q = Some i ->
  lookupFile p (putInode i n fs) = if decide (p = q) then Some n else lookupFile p fs.
Proof.
  intros Hwf Hq. unfold lookupFile. cbn. case_decide as E.
  - subst q. by rewrite Hq, lookup_insert_eq.
  - destruct (names fs !! p) as [j|] eqn:Hp; [|done]. rewrite lookup_insert_ne; [done|].
    by apply not_eq_sym, (lookupFile_names p q fs).
Qed.

Lemma wellFormed_putInode i n fs :
  wellFormed fs -> is_Some (inodes fs !! i) -> wellFormed (putInode i n fs).
Proof.
  intros (H1 & H2 & H3) Hi. split_and!; cbn.
  - intros p j Hp. rewrite lookup_insert_is_Some. destruct (decide (i = j)); [by left|right]. eauto.
  - done.
  - intros j. rewrite lookup_insert_is_Some. intros [<-|[_ Hj]]; auto.
Qed.

Lemma wellFormed_named fs p i : wellFormed fs -> names fs !! p = Some i -> is_Some (inodes fs !! i).
Proof. intros (H & _) Hp. by apply (H p). Qed.

(** A change of one temporary file. *)
Record onlyAt (t : string) (fs fs' : Files) : Prop := {
  only_wf : wellFormed fs';
  only_names p : p <> t -> names fs' !! p = names fs !! p;
  only_files p : p <> t -> lookupFile p fs' = lookupFile p fs
}.

Lemma onlyAt_putInode t i n fs :
  wellFormed fs -> names fs !! t = Some i -> onlyAt t fs (putInode i n fs).
Proof.
  intros Hwf Ht. split; [|done|].
  - apply wellFormed_putInode; [done|]. by apply (wellFormed_named _ t).
  - intros p Hp. by rewrite (lookupFile_putInode p t), decide_False.
Qed.

Lemma onlyAt_refl t fs : wellFormed fs -> onlyAt t fs fs.
Proof. by split. Qed.

Lemma open_spec umask t md fs :
  wellFormed fs ->
  let '(fs', h) := openForWriting umask t md fs in
  onlyAt t fs fs' /\ names fs' !! t = Some h /\ readFile t fs' = Some "".
Proof.
  intros Hwf. unfold openForWriting. destruct (names fs !! t) as [i|] eqn:Ht.
  - split_and!; [by apply onlyAt_putInode|done|].
    unfold readFile. by rewrite (lookupFile_putInode t t), decide_True.
  - cbn. split; [|unfold readFile, lookupFile; cbn; by rewrite !lookup_insert_eq]. pose proof Hwf as (H1 & H2 & H3). split.
    + split_and!; cbn.
      * intros p j. rewrite lookup_insert_Some. intros [[<- <-]|[Hne Hp]]; rewrite lookup_insert_is_Some; [by left|].
        destruct (decide (nextInode fs = j)); [by left|right]. split; [done|]. by apply (H1 p).
      * assert (Hf : forall p, names fs !! p <> Some (nextInode fs)).
        { intros p Hp. specialize (H3 _ (H1 _ _ Hp)). lia. }
        intros p q j. rewrite !lookup_insert_Some. naive_solver.
      * intros j. rewrite lookup_insert_is_Some. intros [<-|[_ Hj]]; [lia|]. specialize (H3 j Hj). lia.
    + intros p Hp. cbn. by rewrite lookup_insert_ne.
    + intros p Hp. unfold lookupFile. cbn. rewrite lookup_insert_ne by done.
      destruct (names fs !! p) as [j|] eqn:E; [|done]. rewrite lookup_insert_ne; [done|].
      intros <-. specialize (H3 _ (H1 _ _ E)). lia.
Qed.

Lemma writeAt_spec t h s fs :
  wellFormed fs -> names fs !! t = Some h ->
  onlyAt t fs (writeAt h s fs) /\ names (writeAt h s fs) !! t = Some h /\
  (readFile t fs = Some "" -> readFile t (writeAt h s fs) = Some s).
Proof.
  intros Hwf Ht. unfold writeAt.
  destruct (wellFormed_named fs t h Hwf Ht) as [n Hn]. rewrite Hn.
  split_and!; [by apply onlyAt_putInode|done|]. unfold readFile.
  rewrite (lookupFile_putInode t t), decide_True by done. unfold lookupFile. rewrite Ht, Hn. cbn.
  intros [= ->]. by rewrite overlay_empty.
Qed.

Lemma sync_spec t h fs b :
  wellFormed fs -> names fs !! t = Some h -> readFile t fs = Some b ->
  onlyAt t fs (sync h fs) /\ names (sync h fs) !! t = Some h /\
  exists md, lookupFile t (sync h fs) = Some (mkInode b md true).
Proof.
  intros Hwf Ht Hr. unfold readFile, lookupFile in Hr. rewrite Ht in Hr. unfold sync.
  destruct (inodes fs !! h) as [n|] eqn:Hn; [|done]. injection Hr as <-.
  split_and!; [by apply onlyAt_putInode|done|]. exists (mode n).
  by rewrite (lookupFile_putInode t t), decide_True.
Qed.

(** *** One call moves *)

Lemma jobs_stage d n w fs s l :
  writers d !! n = Some w ->
  jobs (change d fs (<[n := mkWriter (job w) s]> (writers d)) l) = jobs d.
Proof.
  intros Hn. unfold jobs. cbn. rewrite list_fmap_insert. cbn. apply list_insert_id.
  by rewrite list_lookup_fmap, Hn.
Qed.

Lemma movers_app l l' : movers (l ++ l') = movers l ++ movers l'.
Proof. apply omap_app. Qed.

Lemma installed_change d fs ws l : installed (change d fs ws l) = installed d ++ movers l.
Proof. unfold installed. cbn. by rewrite movers_app, app_assoc. Qed.

Lemma renamed_change d fs ws l m : m ∈ renamed (change d fs ws l) <-> m ∈ renamed d \/ m ∈ movers l.
Proof. unfold renamed. rewrite installed_change. cbn. rewrite !elem_of_app. tauto. Qed.

Lemma change_still d fs ws m : m ∈ renamed (change d fs ws []) <-> m ∈ renamed d.
Proof. rewrite renamed_change. cbn. set_solver. Qed.

Lemma stageOk_iff fs (R R' : Prop) w : (R <-> R') -> stageOk fs R w -> stageOk fs R' w.
Proof. unfold stageOk. intros HR. destruct (stage w) as [| | | |? ? []| | |[]]; naive_solver. Qed.

Lemma disk_update d n w fs s l :
  LiveInv d -> writers d !! n = Some w ->
  wellFormed fs -> durable fs ->
  (forall m w', m <> n -> writers d !! m = Some w' -> stageOk fs (m ∈ renamed d) w') ->
  stageOk fs (n ∈ renamed d \/ n ∈ movers l) (mkWriter (job w) s) ->
  (forall t m w', inUse (mkWriter (job w) s) = Some t -> m <> n -> writers d !! m = Some w' -> inUse w' <> Some t) ->
  (movers l = [] \/ movers l = [n] /\ n ∉ renamed d) ->
  (forall p, temporary p = false -> readFile p fs = contents (jobs d) (installed d ++ movers l) p (readFile p fs0)) ->
  LiveInv (change d fs (<[n := mkWriter (job w) s]> (writers d)) l).
Proof.
  intros HI Hn Hwf Hdur Hoth Hown Hap Hl Hcont.
  assert (Hw : forall m w', <[n := mkWriter (job w) s]> (writers d) !! m = Some w' ->
                 (m = n /\ w' = mkWriter (job w) s) \/ (m <> n /\ writers d !! m = Some w')).
  { intros m w' Hm. apply list_lookup_insert_Some in Hm as [(-> & <- & _)|[Hne Hm]]; [by left|right]. by split. }
  pose proof (disk_installed _ HI) as [Hnd Hsome].
  split; cbn [files writers change]; [done|done| | | |split|].
  - intros m w' [[-> ->]|[Hne Hm]]%Hw; [by apply (stageOk_iff _ _ _ _ (iff_sym (renamed_change d fs _ l n)))|].
    apply (stageOk_iff _ (m ∈ renamed d)); [|by apply Hoth]. rewrite renamed_change. destruct Hl as [->|[-> _]]; set_solver.
  - intros a b wa wb t [[-> ->]|[Hna Ha]]%Hw [[-> ->]|[Hnb Hb]]%Hw Ua Ub; [done|..].
    + by destruct (Hap t b wb).
    + by destruct (Hap t a wa).
    + by apply (disk_apart _ HI a b wa wb t).
  - intros m w' [[-> ->]|[Hne Hm]]%Hw; [by apply (disk_targets _ HI n w)|by apply (disk_targets _ HI m w')].
  - unfold renamed. rewrite installed_change. cbn. unfold renamed in Hnd, Hl.
    destruct Hl as [->|[-> Hnew]]; [by rewrite app_nil_r|]. rewrite <- app_assoc.
    apply (NoDup_Permutation_proper _ (n :: installed d ++ lost d)); [symmetry; apply Permutation_middle|].
    by constructor.
  - intros m Hm%renamed_change. rewrite list_lookup_insert_is_Some. destruct Hl as [E|[E _]]; rewrite E in Hm; [by destruct Hm as [Hm|Hm%not_elem_of_nil]; [apply Hsome|]|].
    destruct Hm as [Hm| ->%list_elem_of_singleton]; [by apply Hsome|by rewrite Hn].
  - intros p Hp. rewrite jobs_stage, installed_change by done. by apply Hcont.
Qed.

(** Another call's temporary file is untouched. *)
Lemma stageOk_only t fs fs' R w :
  (forall p, temporary p = true -> p <> t -> names fs' !! p = names fs !! p /\ lookupFile p fs' = lookupFile p fs) ->
  inUse w <> Some t -> stageOk fs R w -> stageOk fs' R w.
Proof.
  intros Hf Hu. unfold stageOk, readFile. unfold inUse in Hu.
  destruct (stage w) as [| |tmp h|tmp h|tmp h [e|]|tmp| |]; try done;
    intros [Ht H]; (assert (tmp <> t) by congruence);
    destruct (Hf tmp Ht) as [E1 E2]; rewrite ?E1, ?E2; done.
Qed.

Lemma disk_only d n w t fs s l :
  LiveInv d -> writers d !! n = Some w ->
  temporary t = true -> onlyAt t (files d) fs ->
  (forall m w', m <> n -> writers d !! m = Some w' -> inUse w' <> Some t) ->
  stageOk fs (n ∈ renamed d) (mkWriter (job w) s) ->
  (inUse (mkWriter (job w) s) = Some t \/ inUse (mkWriter (job w) s) = None) -> movers l = [] ->
  LiveInv (change d fs (<[n := mkWriter (job w) s]> (writers d)) l).
Proof.
  intros HI Hn Ht Ho Hfree Hown Huse El. assert (Hne : forall p, temporary p = false -> p <> t) by (intros p Hp ->; congruence).
  apply disk_update; [done|done|by apply Ho| | |rewrite El; apply (stageOk_iff _ (n ∈ renamed d)); [set_solver|done]| |by left|].
  - intros p i Hp Hi. rewrite (only_files _ _ _ Ho) in Hi by auto. by apply (disk_durable _ HI p).
  - intros m w' Hm Hw. apply (stageOk_only t (files d)); [|by eapply Hfree|by apply (disk_stages _ HI)].
    intros p _ Hp. by rewrite (only_names _ _ _ Ho), (only_files _ _ _ Ho).
  - intros t' m w' Hu Hm Hw. destruct Huse as [Hu'|Hu']; [|congruence].
    assert (t' = t) as -> by congruence. by eapply Hfree.
  - intros p Hp. unfold readFile at 1. rewrite (only_files _ _ _ Ho), El, app_nil_r by auto. by apply (disk_contents _ HI).
Qed.

Lemma disk_still d n w s :
  LiveInv d -> writers d !! n = Some w ->
  stageOk (files d) (n ∈ renamed d) (mkWriter (job w) s) ->
  (inUse (mkWriter (job w) s) = inUse w \/ inUse (mkWriter (job w) s) = None) ->
  LiveInv (change d (files d) (<[n := mkWriter (job w) s]> (writers d)) []).
Proof.
  intros HI Hn Hown Huse.
  apply disk_update; [done|done|apply HI|apply HI| |apply (stageOk_iff _ (n ∈ renamed d)); [set_solver|done]| |by left|].
  - intros m w' _ Hw. by apply (disk_stages _ HI).
  - intros t m w' Hu Hm Hw Hu'. destruct Huse as [E|E]; [|congruence].
    apply Hm. apply (disk_apart _ HI m n w' w t); [done|done|done|congruence].
  - intros p Hp. rewrite app_nil_r. by apply HI.
Qed.

Lemma disk_free d n w t :
  LiveInv d -> writers d !! n = Some w -> inUse w = Some t ->
  forall m w', m <> n -> writers d !! m = Some w' -> inUse w' <> Some t.
Proof. intros HI Hn Hu m w' Hm Hw Hu'. by apply Hm, (disk_apart _ HI m n w' w t). Qed.

(** *** Rename and chmod *)

Lemma rename_spec t b fs n :
  wellFormed fs -> t <> b -> lookupFile t fs = Some n ->
  exists fs', rename t b fs = Some fs' /\ wellFormed fs' /\ lookupFile b fs' = Some n /\
    forall p, p <> t -> p <> b -> names fs' !! p = names fs !! p /\ lookupFile p fs' = lookupFile p fs.
Proof.
  intros (H1 & H2 & H3) Htb Hn. unfold lookupFile in Hn. unfold rename.
  destruct (names fs !! t) as [i|] eqn:Ht; [|done]. eexists. split; [done|]. split_and!.
  - split_and!; cbn.
    + intros p j. rewrite lookup_insert_Some, lookup_delete_Some. intros [[<- <-]|(_ & _ & Hp)]; eauto.
    + intros p q j. rewrite !lookup_insert_Some, !lookup_delete_Some.
      intros [[<- <-]|(Hp & Hp' & Hpj)] [[<- E]|(Hq & Hq' & Hqj)]; try done.
      * by destruct Hq'; apply (H2 t q i).
      * subst j. by destruct Hp'; apply (H2 t p i).
      * by apply (H2 p q j).
    + done.
  - unfold lookupFile. cbn. by rewrite lookup_insert_eq.
  - intros p Hpt Hpb. unfold lookupFile. cbn. by rewrite lookup_insert_ne, lookup_delete_ne.
Qed.

Lemma chmod_spec b md fs fs' :
  wellFormed fs -> chmod b md fs = Some fs' ->
  wellFormed fs' /\
  (forall p, p <> b -> names fs' !! p = names fs !! p /\ lookupFile p fs' = lookupFile p fs) /\
  exists n, lookupFile b fs = Some n /\ lookupFile b fs' = Some (mkInode (data n) md (synced n)).
Proof.
  intros Hwf. unfold chmod. destruct (names fs !! b) as [i|] eqn:Hb; [|done].
  destruct (inodes fs !! i) as [n|] eqn:Hi; [|done]. intros [= <-]. split_and!.
  - apply wellFormed_putInode; [done|by eexists].
  - intros p Hp. by rewrite (lookupFile_putInode p b), decide_False.
  - exists n. rewrite (lookupFile_putInode b b), decide_True by done. split; [|done].
    unfold lookupFile. by rewrite Hb.
Qed.

Lemma contents_snoc js inst n p init :
  contents js (inst ++ [n]) p init =
  match js !! n with
  | Some j => if String.eqb (target j) p then Some (body j) else contents js inst p init
  | None => contents js inst p init
  end.
Proof. unfold contents. by rewrite foldl_app. Qed.

Lemma contents_app js js' inst p init :
  (forall n, n ∈ inst -> is_Some (js !! n)) -> contents (js ++ js') inst p init = contents js inst p init.
Proof.
  intros H. unfold contents. revert init H. induction inst as [|n inst IH]; intros init H; [done|].
  cbn. destruct (H n ltac:(set_solver)) as [j Hj]. rewrite (lookup_app_l_Some _ _ _ _ Hj), Hj. apply IH. set_solver.
Qed.

Lemma disk_rename d n w t fs i :
  LiveInv d -> writers d !! n = Some w -> stage w = Rename t ->
  rename t (target (job w)) (files d) = Some fs ->
  LiveInv (change d fs (<[n := mkWriter (job w) Chmod]> (writers d)) [Moved n t (target (job w)) i]).
Proof.
  intros HI Hn Hst Hr. pose proof (disk_stages _ HI n w Hn) as Hok. unfold stageOk in Hok. rewrite Hst in Hok.
  assert (Huse : inUse w = Some t) by (unfold inUse; by rewrite Hst).
  destruct Hok as (Ht & [md Hino] & Hnot). pose proof (disk_targets _ HI n w Hn) as Htgt.
  destruct (rename_spec t (target (job w)) _ _ (disk_wf _ HI) ltac:(congruence) Hino)
    as (fs' & E & Hwf & Hb & Hoth). rewrite Hr in E. injection E as <-.
  assert (Hj : jobs d !! n = Some (job w)) by (unfold jobs; by rewrite list_lookup_fmap, Hn).
  apply disk_update; [done|done|done| | | | |by right|].
  - intros p k Hp Hi. destruct (decide (p = target (job w))) as [->|Hne].
    + rewrite Hb in Hi. by injection Hi as <-.
    + rewrite (proj2 (Hoth p ltac:(congruence) Hne)) in Hi. by apply (disk_durable _ HI p).
  - intros m w' Hm Hw.
    apply (stageOk_only t (files d)); [|apply (disk_free d n w t HI Hn Huse m w' Hm Hw)|by apply (disk_stages _ HI)].
    intros p Hp Hpt. apply Hoth; [done|congruence].
  - unfold stageOk. cbn. set_solver.
  - done.
  - intros p Hp. cbn. rewrite contents_snoc, Hj. destruct (String.eqb_spec (target (job w)) p) as [E|Hne]; [subst p|].
    + unfold readFile at 1. by rewrite Hb.
    + unfold readFile at 1. rewrite (proj2 (Hoth p ltac:(congruence) ltac:(congruence))). by apply (disk_contents _ HI).
Qed.

Lemma disk_chmod d n w fs :
  LiveInv d -> writers d !! n = Some w -> stage w = Chmod ->
  chmod (target (job w)) (jmode (job w)) (files d) = Some fs ->
  LiveInv (change d fs (<[n := mkWriter (job w) (Settled None)]> (writers d)) []).
Proof.
  intros HI Hn Hst Hr. pose proof (disk_stages _ HI n w Hn) as Hok. unfold stageOk in Hok. rewrite Hst in Hok.
  pose proof (disk_targets _ HI n w Hn) as Htgt.
  destruct (chmod_spec _ _ _ _ (disk_wf _ HI) Hr) as (Hwf & Hoth & i & Hi & Hi').
  apply disk_update; [done|done|done| | |by left|done|by left|].
  - intros p j Hp Hj. destruct (decide (p = target (job w))) as [->|Hne].
    + rewrite Hi' in Hj. injection Hj as <-. by apply (disk_durable _ HI (target (job w)) i).
    + rewrite (proj2 (Hoth p Hne)) in Hj. by apply (disk_durable _ HI p).
  - intros m w' Hm Hw. apply (stageOk_only "" (files d)); [|..|by apply (disk_stages _ HI)].
    + intros p Hp _. apply Hoth. congruence.
    + pose proof (disk_stages _ HI m w' Hw) as Hs. unfold stageOk, inUse in *.
      destruct (stage w') as [| | | |? ? []| | |]; try done; intros [= ->]; by destruct Hs.
  - intros p Hp. cbn. rewrite app_nil_r, <- (disk_contents _ HI p Hp). unfold readFile.
    destruct (decide (p = target (job w))) as [->|Hne]; [by rewrite Hi, Hi'|]. by rewrite (proj2 (Hoth p Hne)).
Qed.

(** *** Every event *)

Lemma begin_live j d : LiveInv d -> temporary (target j) = false -> LiveInv (begin_ j d).
Proof.
  intros HI Hj.
  assert (Hw : forall n w, (writers d ++ [mkWriter j Mkdir]) !! n = Some w ->
    writers d !! n = Some w \/ (n = length (writers d) /\ w = mkWriter j Mkdir)).
  { intros n w [?|[? Hn]]%lookup_app_Some; [by left|right]. apply list_lookup_singleton_Some in Hn as [? <-].
    split; [lia|done]. }
  assert (Hin : forall n, n ∈ renamed d -> is_Some (writers d !! n)) by apply (disk_installed _ HI).
  split; cbn [begin_ files writers]; [apply HI|apply HI| | | |split; [apply (disk_installed _ HI)|]|].
  - intros n w [Hn|[-> ->]]%Hw; [by apply (disk_stages _ HI)|]. cbn. intros Hn%Hin.
    by rewrite lookup_ge_None_2 in Hn by lia; destruct Hn.
  - intros n m w w' t [Hn|[-> ->]]%Hw [Hm|[-> ->]]%Hw Hu Hu'; try done. by apply (disk_apart _ HI n m w w' t).
  - intros n w [Hn|[-> ->]]%Hw; [by apply (disk_targets _ HI n w)|done].
  - intros n Hn. destruct (Hin n Hn) as [w Hw']. exists w. by apply lookup_app_l_Some.
  - intros p Hp. unfold jobs. cbn [writers begin_ files]. rewrite fmap_app, contents_app; [by apply (disk_contents _ HI)|].
    intros n Hn. rewrite list_lookup_fmap. destruct (Hin n) as [w ->]; [|done]. unfold renamed. set_solver.
Qed.

Lemma disk_edit d n w t h fs s :
  LiveInv d -> writers d !! n = Some w -> inUse w = Some t -> temporary t = true ->
  onlyAt t (files d) fs -> stageOk fs (n ∈ renamed d) (mkWriter (job w) s) ->
  inUse (mkWriter (job w) s) = Some t -> names fs !! t = Some h ->
  LiveInv (change d fs (<[n := mkWriter (job w) s]> (writers d)) []).
Proof. intros HI Hn Hu Ht Ho Hs Hu' _. apply (disk_only d n w t); auto. by apply (disk_free d n w t). Qed.

Lemma stepWriter_live umask pid now n refused d :
  LiveInv d -> orderlyEvent d (StepWriter n pid now refused) = true ->
  LiveInv (stepWriter umask pid now n refused d).
Proof.
  intros HI Hord. unfold stepWriter. destruct (writers d !! n) as [w|] eqn:Hn; [|done].
  pose proof (disk_stages _ HI n w Hn) as Hok. pose proof (disk_wf _ HI) as Hwf. cbn [orderlyEvent] in Hord.
  rewrite Hn in Hord. unfold advance, changes. unfold stageOk in Hok.
  destruct (stage w) as [| |t h|t h|t h f|t| |f] eqn:Hst.
  - destruct refused as [[e k]|]; apply (disk_still d n w); try done; by right.
  - destruct refused as [[e k]|]; [apply (disk_still d n w); try done; by right|].
    destruct w as [j st]. cbn in Hst. subst st. cbn [job] in *. rewrite forallb_forall in Hord.
    pose proof (open_spec umask (tmpName pid now (target j)) (jmode j) (files d) Hwf) as Ho.
    destruct (openForWriting _ _ _ _) as [fs h]. destruct Ho as (Ho & Hnm & Hrd).
    apply (disk_only d n (mkWriter j Open) (tmpName pid now (target j))); try done.
    + apply tmpName_temporary.
    + intros m w' _ Hw'. assert (Hin : w' ∈ writers d) by by eapply list_elem_of_lookup_2.
      apply list_elem_of_In, Hord in Hin. bool_props. done.
    + unfold stageOk. cbn. split_and!; try done. apply tmpName_temporary.
    + by left.
    + by destruct (fileExists _ _).
  - destruct Hok as (Ht & Hnm & Hrd & Hnot). assert (Hu : inUse w = Some t) by (unfold inUse; by rewrite Hst).
    destruct refused as [[e k]|].
    + destruct (writeAt_spec t h (substring 0 k (body (job w))) (files d) Hwf Hnm) as (Ho & Hnm' & _).
      by apply (disk_edit d n w t h).
    + destruct (writeAt_spec t h (body (job w)) (files d) Hwf Hnm) as (Ho & Hnm' & Hrd').
      apply (disk_edit d n w t h); try done. unfold stageOk; cbn. auto.
  - destruct Hok as (Ht & Hnm & Hrd & Hnot). assert (Hu : inUse w = Some t) by (unfold inUse; by rewrite Hst).
    destruct refused as [[e k]|].
    + apply (disk_still d n w); try done. by left.
    + destruct (sync_spec t h (files d) _ Hwf Hnm Hrd) as (Ho & Hnm' & Hino).
      by apply (disk_edit d n w t h).
  - destruct refused as [[e k]|]; [by destruct f; apply (disk_still d n w); try done; right|].
    destruct f as [e|]; apply (disk_still d n w); try done; [by right| |left; unfold inUse; by rewrite Hst].
    unfold stageOk. cbn. naive_solver.
  - destruct refused as [[e k]|]; [apply (disk_still d n w); try done; by right|].
    destruct (rename t (target (job w)) (files d)) as [fs|] eqn:Hr.
    + destruct (names (files d) !! t) as [i|] eqn:Hi; [by apply disk_rename|]. unfold rename in Hr. by rewrite Hi in Hr.
    + apply (disk_still d n w); try done. by right.
  - destruct refused as [[e k]|]; [apply (disk_still d n w); try done; by right|].
    destruct (chmod (target (job w)) (jmode (job w)) (files d)) as [fs|] eqn:Hr; [by apply (disk_chmod d n w)|].
    apply (disk_still d n w); try done. by right.
  - apply (disk_still d n w); [done|done| |by right]. by destruct f.
Qed.

(** *** What the disk may hold after a power loss *)

(** The files when these changes have reached the disk *)
Definition view (d : Disk) (l : list NameChange) : Files :=
  mkFiles (replay l (onDisk d)) (inodes (files d)) (nextInode (files d)).

Record viewOk (d : Disk) (l : list NameChange) : Prop := {
  view_wf : wellFormed (view d l);
  view_durable : durable (view d l);
  view_contents p : temporary p = false ->
    readFile p (view d l) = contents (jobs d) (saved d ++ movers l) p (readFile p fs0)
}.

(** Any of the changes may reach the disk, in order; what has a temporary name now
    has no other one there. *)
Record Journaled (d : Disk) : Prop := {
  journal_names : names (files d) = replay (journal d) (onDisk d);
  journal_views l : sublist l (journal d) -> viewOk d l;
  journal_home t i l x : temporary t = true -> names (files d) !! t = Some i -> sublist l (journal d) ->
    replay l (onDisk d) !! x = Some i -> x = t
}.

Lemma changes_snoc l o m : replay (l ++ [o]) m = applyChange o (replay l m).
Proof. unfold replay. by rewrite foldl_app. Qed.

Lemma sublist_snoc {A} (l k : list A) o :
  sublist l (k ++ [o]) -> sublist l k \/ exists l', l = l' ++ [o] /\ sublist l' k.
Proof.
  intros H. apply sublist_app_r in H as (l1 & l2 & -> & H1 & H2). apply sublist_cons_r in H2 as [H2|(l3 & -> & H2)].
  - apply sublist_nil_r in H2 as ->. rewrite app_nil_r. by left.
  - apply sublist_nil_r in H2 as ->. right. by exists l1.
Qed.

(** A step that changes no name writes only to temporary files, or no data at all. *)
Lemma journal_touch d n w s fs :
  Journaled d -> writers d !! n = Some w -> names fs = names (files d) -> nextInode fs = nextInode (files d) ->
  (forall i, is_Some (inodes fs !! i) <-> is_Some (inodes (files d) !! i)) ->
  (forall i a b, inodes (files d) !! i = Some a -> inodes fs !! i = Some b ->
     (data a = data b /\ synced a = synced b) \/ exists t, temporary t = true /\ names (files d) !! t = Some i) ->
  Journaled (change d fs (<[n := mkWriter (job w) s]> (writers d)) []).
Proof.
  intros [Jn Jv Jh] Hn Hnames Hnext Hdom Hino. split; cbn [change files onDisk journal]; rewrite ?app_nil_r, ?Hnames; [done| |done].
  intros l Hl. destruct (Jv l Hl) as [(W1 & W2 & W3) Hd Hc].
  assert (Hsame : forall p i b, temporary p = false -> replay l (onDisk d) !! p = Some i -> inodes fs !! i = Some b ->
    exists a, inodes (files d) !! i = Some a /\ data a = data b /\ synced a = synced b).
  { intros p i b Hp Hi Hb. destruct (proj1 (Hdom i) ltac:(by eexists)) as [a Ha]. exists a. split; [done|].
    destruct (Hino i a b Ha Hb) as [?|(t & Ht & Hti)]; [done|]. rewrite (Jh t i l p Ht Hti Hl Hi) in Hp. congruence. }
  split.
  - unfold view. cbn. rewrite Hnext. split_and!; cbn; [|done|].
    + intros p i Hp. apply Hdom. by apply (W1 p).
    + intros i Hi. apply W3. cbn. by apply Hdom.
  - intros p b Hp. unfold lookupFile. cbn. destruct (replay l (onDisk d) !! p) as [i|] eqn:Hi; [|done]. intros Hb.
    destruct (Hsame p i b Hp Hi Hb) as (a & Ha & _ & <-). apply (Hd p); [done|]. unfold lookupFile. cbn. by rewrite Hi.
  - intros p Hp. rewrite jobs_stage by done. cbn [saved change]. rewrite <- Hc by done. unfold readFile, lookupFile. cbn.
    destruct (replay l (onDisk d) !! p) as [i|] eqn:Hi; [|done]. destruct (inodes fs !! i) as [b|] eqn:Hb.
    + destruct (Hsame p i b Hp Hi Hb) as (a & -> & E & _). cbn. by rewrite E.
    + destruct (inodes (files d) !! i) as [a|] eqn:Ha; [|done]. destruct (proj2 (Hdom i) ltac:(by eexists)) as [b Hb']. congruence.
Qed.

(** A new temporary file has an inode no view names. *)
Lemma journal_created d n w s t md :
  Journaled d -> LiveInv d -> writers d !! n = Some w -> temporary t = true -> names (files d) !! t = None ->
  let i := nextInode (files d) in
  Journaled (change d (mkFiles (<[t := i]> (names (files d))) (<[i := mkInode "" md false]> (inodes (files d))) (S i))
               (<[n := mkWriter (job w) s]> (writers d)) [Created t i]).
Proof.
  intros [Jn Jv Jh] HI Hn Ht Hnone i.
  assert (Hfresh : forall l x, sublist l (journal d) -> replay l (onDisk d) !! x <> Some i).
  { intros l x Hl Hx. destruct (view_wf _ _ (Jv l Hl)) as (W1 & _ & W3). specialize (W3 _ (W1 x i Hx)). cbn in W3. lia. }
  assert (Hlook : forall l p, sublist l (journal d) ->
    (replay l (onDisk d) !! p ≫= fun j => <[i := mkInode "" md false]> (inodes (files d)) !! j) = lookupFile p (view d l)).
  { intros l p Hl. unfold lookupFile. cbn. destruct (replay l (onDisk d) !! p) as [j|] eqn:Hj; cbn; [|done].
    rewrite lookup_insert_ne; [done|]. intros <-. by apply (Hfresh l p). }
  split; cbn [change files onDisk journal names inodes nextInode].
  - by rewrite changes_snoc, <- Jn.
  - intros l [Hl|(l' & -> & Hl)]%sublist_snoc.
    + destruct (Jv l Hl) as [(W1 & W2 & W3) Hd Hc]. split.
      * split_and!; cbn; [|done|].
        -- intros p j Hp. rewrite lookup_insert_is_Some. destruct (decide (i = j)); [by left|right]. split; [done|]. by apply (W1 p).
        -- intros j. rewrite lookup_insert_is_Some. intros [<-|[_ Hj]]; [lia|]. specialize (W3 j Hj). cbn in W3. lia.
      * intros p b Hp Hb. apply (Hd p); [done|]. rewrite <- Hlook by done. exact Hb.
      * intros p Hp. rewrite jobs_stage by done. cbn [saved change]. rewrite <- Hc by done. unfold readFile. rewrite <- (Hlook l p Hl). done.
    + destruct (Jv l' Hl) as [(W1 & W2 & W3) Hd Hc].
      assert (Hp' : forall p, temporary p = false -> lookupFile p (view (change d (mkFiles (<[t := i]> (names (files d)))
        (<[i := mkInode "" md false]> (inodes (files d))) (S i)) (<[n := mkWriter (job w) s]> (writers d)) [Created t i]) (l' ++ [Created t i])) =
        lookupFile p (view d l')).
      { intros p Hp. rewrite <- (Hlook l' p Hl). unfold lookupFile at 1, view at 1. cbn [change onDisk names inodes files].
        rewrite changes_snoc. cbn. rewrite lookup_insert_ne by congruence. by destruct (replay l' (onDisk d) !! p). }
      split.
      * unfold view. cbn [change onDisk files inodes nextInode]. rewrite changes_snoc. split_and!; cbn.
        -- intros p j. rewrite lookup_insert_Some. intros [[<- <-]|[_ Hp]]; rewrite lookup_insert_is_Some; [by left|].
           destruct (decide (i = j)); [by left|right]. split; [done|]. by apply (W1 p).
        -- intros p q j. rewrite !lookup_insert_Some. intros [[<- <-]|[Hp1 Hp2]] [[<- E]|[Hq1 Hq2]]; try done.
           ++ by destruct (Hfresh l' q Hl).
           ++ subst j. by destruct (Hfresh l' p Hl).
           ++ by apply (W2 p q j).
        -- intros j. rewrite lookup_insert_is_Some. intros [<-|[_ Hj]]; [lia|]. specialize (W3 j Hj). cbn in W3. lia.
      * intros p b Hp. rewrite Hp' by done. by apply Hd.
      * intros p Hp. rewrite jobs_stage by done. unfold readFile at 1. rewrite Hp' by done. cbn [saved change].
        rewrite movers_app, app_nil_r. by apply Hc.
  - intros t' j l x Ht'. rewrite lookup_insert_Some.
    intros [[<- <-]|[Hne Hj]] [Hl|(l' & -> & Hl)]%sublist_snoc Hx.
    + by destruct (Hfresh l x Hl).
    + rewrite changes_snoc in Hx. cbn in Hx. apply lookup_insert_Some in Hx as [[<- _]|[_ Hx]]; [done|]. by destruct (Hfresh l' x Hl).
    + by apply (Jh t' j l x).
    + rewrite changes_snoc in Hx. cbn in Hx. apply lookup_insert_Some in Hx as [[_ E]|[_ Hx]]; [|by apply (Jh t' j l' x)].
      subst j. destruct (Hfresh (journal d) t'); [done|]. by rewrite <- Jn.
Qed.

(** A rename takes a name from a file that has no other in any view. *)
Lemma journal_moved d n w t i b md :
  Journaled d -> LiveInv d -> writers d !! n = Some w -> temporary t = true -> temporary (target (job w)) = false ->
  names (files d) !! t = Some i -> inodes (files d) !! i = Some (mkInode b md true) -> b = body (job w) ->
  Journaled (change d (mkFiles (<[target (job w) := i]> (delete t (names (files d)))) (inodes (files d)) (nextInode (files d)))
               (<[n := mkWriter (job w) Chmod]> (writers d)) [Moved n t (target (job w)) i]).
Proof.
  intros [Jn Jv Jh] HI Hn Ht Htgt Hti Hi ->. set (q := target (job w)) in *.
  assert (Hj : jobs d !! n = Some (job w)) by (unfold jobs; by rewrite list_lookup_fmap, Hn).
  split; cbn [change files onDisk journal names inodes nextInode].
  - by rewrite changes_snoc, <- Jn.
  - intros l [Hl|(l' & -> & Hl)]%sublist_snoc.
    + destruct (Jv l Hl) as [W Hd Hc]. split; [done|done|]. intros p Hp. rewrite jobs_stage by done. by apply Hc.
    + destruct (Jv l' Hl) as [(W1 & W2 & W3) Hd Hc]. split.
      * unfold view. cbn [change onDisk files inodes nextInode]. rewrite changes_snoc. split_and!; cbn; [| |done].
        -- intros p j. rewrite lookup_insert_Some, lookup_delete_Some. intros [[<- <-]|(_ & _ & Hp)]; [by eexists|]. by apply (W1 p).
        -- intros p p' j. rewrite !lookup_insert_Some, !lookup_delete_Some.
           intros [[<- <-]|(Hp1 & Hp2 & Hp3)] [[<- E]|(Hq1 & Hq2 & Hq3)]; try done.
           ++ by destruct Hq2; rewrite (Jh t i l' p' Ht Hti Hl Hq3).
           ++ subst j. by destruct Hp2; rewrite (Jh t i l' p Ht Hti Hl Hp3).
           ++ by apply (W2 p p' j).
      * intros p a Hp. unfold lookupFile. cbn [view change onDisk names inodes files]. rewrite changes_snoc. cbn.
        destruct (decide (q = p)) as [<-|Hne]; [rewrite lookup_insert_eq, Hi; by intros [= <-]|].
        rewrite lookup_insert_ne, lookup_delete_ne by congruence. intros Ha. by apply (Hd p).
      * intros p Hp. rewrite jobs_stage by done. cbn [saved change]. rewrite (movers_app l').
        change (movers [Moved n t q i]) with [n]. rewrite (app_assoc (saved d)), contents_snoc, Hj. fold q. unfold readFile at 1, lookupFile at 1. cbn [view change onDisk names inodes files]. rewrite changes_snoc. cbn.
        destruct (String.eqb_spec q p) as [<-|Hne]; [by rewrite lookup_insert_eq, Hi|].
        rewrite lookup_insert_ne, lookup_delete_ne by congruence. by apply Hc.
  - intros t' j l x Ht'. rewrite lookup_insert_Some, lookup_delete_Some. intros [[<- _]|(_ & Hne & Hj')]; [congruence|].
    intros [Hl|(l' & -> & Hl)]%sublist_snoc Hx; [by apply (Jh t' j l x)|].
    rewrite changes_snoc in Hx. cbn in Hx. apply lookup_insert_Some in Hx as [[<- <-]|[_ Hx]].
    + by destruct Hne; apply (proj1 (proj2 (disk_wf _ HI)) t t' i).
    + apply lookup_delete_Some in Hx as [_ Hx]. by apply (Jh t' j l' x).
Qed.

(** *** Power losses *)

Lemma kept_sublist keep l : sublist (kept keep l) l.
Proof.
  revert l. induction keep as [|[] keep IH]; intros [|o l]; cbn; try apply sublist_nil_l; [by apply sublist_skip|by apply sublist_cons].
Qed.

Lemma movers_sublist l k : sublist l k -> sublist (movers l) (movers k).
Proof.
  induction 1 as [|[t i|n t b i] l k H IH|[t i|n t b i] l k H IH]; cbn; [done|done|by apply sublist_skip|done|by apply sublist_cons].
Qed.

Lemma lookupFile_lose torn fs p :
  durable fs -> temporary p = false -> lookupFile p (loseUnsynced torn fs) = lookupFile p fs.
Proof.
  intros Hd Hp. unfold lookupFile. cbn [loseUnsynced names inodes]. destruct (names fs !! p) as [i|] eqn:Hi; [|done].
  rewrite map_lookup_imap. destruct (inodes fs !! i) as [n|] eqn:Hn; cbn; [|done].
  assert (synced n = true) as ->; [|done]. apply (Hd p n Hp). unfold lookupFile. by rewrite Hi.
Qed.

Lemma lose_inode torn fs i : is_Some (inodes (loseUnsynced torn fs) !! i) <-> is_Some (inodes fs !! i).
Proof. cbn. rewrite map_lookup_imap. destruct (inodes fs !! i) as [n|]; cbn; [|done]. by destruct (synced n). Qed.

Lemma lose_wf torn fs : wellFormed fs -> wellFormed (loseUnsynced torn fs).
Proof.
  intros (H1 & H2 & H3). split_and!; [|done|].
  - intros p i Hp. apply lose_inode. by apply (H1 p).
  - intros i Hi. by apply H3, (lose_inode torn).
Qed.

Lemma lose_durable torn fs : durable (loseUnsynced torn fs).
Proof.
  intros p n _. unfold lookupFile. cbn. destruct (names fs !! p) as [i|]; [|done].
  rewrite map_lookup_imap. destruct (inodes fs !! i) as [n'|]; cbn; [|done].
  destruct (synced n') eqn:E; by intros [= <-].
Qed.

(** The calls that had renamed, in effect or not, are the same. *)
Lemma powerLoss_renamed torn keep d :
  NoDup (renamed d) -> NoDup (renamed (powerLoss torn keep d)) /\ forall n, n ∈ renamed (powerLoss torn keep d) <-> n ∈ renamed d.
Proof.
  unfold renamed, installed, powerLoss. cbn [saved journal lost]. change (movers []) with (@nil nat). rewrite app_nil_r.
  pose proof (movers_sublist _ _ (kept_sublist keep (journal d))) as Hs.
  set (k := movers (kept keep (journal d))) in *. set (m := movers (journal d)) in *.
  assert (Hin : forall n, n ∈ k -> n ∈ m) by (intros n Hn; by eapply elem_of_sublist).
  intros Hnd. apply NoDup_app in Hnd as (Hnd & Hx & Hl). apply NoDup_app in Hnd as (Hb & Hbm & Hm).
  assert (Hf : forall n, n ∈ filter (fun n => n ∉ k) m <-> n ∉ k /\ n ∈ m) by (intros n; by rewrite list_elem_of_filter).
  split.
  - apply NoDup_app. split_and!.
    + apply NoDup_app. split_and!; [done|by intros n ? ?%Hin; apply (Hbm n)|by apply (sublist_NoDup _ m)].
    + intros n [Hn|Hn]%elem_of_app [Hn'|[Hn1 Hn2]%Hf]%elem_of_app.
      * apply (Hx n); [|done]. apply elem_of_app. by left.
      * by apply (Hbm n).
      * apply (Hx n); [|done]. apply elem_of_app. right. by apply Hin.
      * done.
    + apply NoDup_app. split_and!; [done| |by apply NoDup_filter].
      intros n Hn [_ Hn']%Hf. apply (Hx n); [|done]. apply elem_of_app. by right.
  - intros n. rewrite !elem_of_app, Hf. destruct (decide (n ∈ k)); naive_solver.
Qed.

Lemma killed_settled w : exists r, stage (killed w) = Settled r.
Proof. unfold killed. destruct (stage w) eqn:E; cbn; eauto. Qed.

Lemma killed_job w : job (killed w) = job w.
Proof. unfold killed. by destruct (stage w). Qed.

Lemma powerLoss_jobs torn keep d : jobs (powerLoss torn keep d) = jobs d.
Proof. unfold jobs, powerLoss. cbn. rewrite <- list_fmap_compose. apply list_fmap_ext. intros ? w _. by rewrite <- killed_job. Qed.

Lemma powerLoss_live torn keep d : LiveInv d -> viewOk d (kept keep (journal d)) -> LiveInv (powerLoss torn keep d).
Proof.
  intros HI [Hwf Hd Hc]. pose proof (disk_installed _ HI) as [Hnd Hsome].
  destruct (powerLoss_renamed torn keep d Hnd) as [Hnd' Hin].
  assert (Hw : forall n w, (killed <$> writers d) !! n = Some w -> exists w0, writers d !! n = Some w0 /\ w = killed w0).
  { intros n w. rewrite list_lookup_fmap. intros (w0 & Hn & ->)%fmap_Some. eauto. }
  split; [by apply lose_wf|apply lose_durable| | | |split; [done|]|].
  - intros n w (w0 & Hn & ->)%Hw. pose proof (disk_stages _ HI n w0 Hn) as Hok.
    apply (stageOk_iff _ _ _ _ (iff_sym (Hin n))). unfold stageOk, killed in *.
    destruct (stage w0) as [| |? ?|? ?|? ? []|?| |[]] eqn:E; cbn; rewrite ?E; done.
  - intros n m w w' t (w0 & _ & ->)%Hw _ Hu. unfold inUse in Hu. by destruct (killed_settled w0) as [r Hr]; rewrite Hr in Hu.
  - intros n w (w0 & Hn & ->)%Hw. rewrite killed_job. by apply (disk_targets _ HI n w0).
  - intros n Hn%Hin. cbn. rewrite list_lookup_fmap. destruct (Hsome n Hn) as [w ->]. by eexists.
  - intros p Hp. rewrite powerLoss_jobs. unfold readFile at 1. cbn [powerLoss files].
    rewrite lookupFile_lose by done. unfold installed. cbn [powerLoss saved journal]. change (movers []) with (@nil nat).
    rewrite app_nil_r. by apply Hc.
Qed.

Lemma powerLoss_journal torn keep d : LiveInv (powerLoss torn keep d) -> Journaled (powerLoss torn keep d).
Proof.
  intros HI. assert (E : forall l, sublist l (journal (powerLoss torn keep d)) -> l = []) by (intros l; apply sublist_nil_r).
  assert (Ev : view (powerLoss torn keep d) [] = files (powerLoss torn keep d)) by done.
  split; [done| |].
  - intros l ->%E. split; rewrite ?Ev; [apply HI|apply HI|].
    intros p Hp. pose proof (disk_contents _ HI p Hp) as H. unfold installed in H. exact H.
  - intros t i l x Ht Hi ->%E Hx. by apply (proj1 (proj2 (disk_wf _ HI)) x t i).
Qed.

(** ** All of it *)

Record DiskInv (d : Disk) : Prop := {
  disk_live :> LiveInv d;
  disk_journal :> Journaled d
}.

Lemma begin_inv j d : DiskInv d -> temporary (target j) = false -> DiskInv (begin_ j d).
Proof.
  intros [HI [Jn Jv Jh]] Hj. split; [by apply begin_live|]. split; [done| |done].
  intros l Hl. destruct (Jv l Hl) as [W Hd Hc]. split; [done|done|]. intros p Hp.
  unfold jobs. cbn [writers begin_ saved]. rewrite fmap_app, contents_app; [by apply Hc|].
  intros n Hn. rewrite list_lookup_fmap. destruct (proj2 (disk_installed _ HI) n) as [w ->]; [|done].
  unfold renamed, installed. apply elem_of_app. left. apply elem_of_app in Hn as [Hn|Hn]; apply elem_of_app; [by left|right].
  eapply elem_of_sublist; [exact Hn|by apply movers_sublist].
Qed.

Lemma touch_putInode d n w s t i a b :
  Journaled d -> writers d !! n = Some w -> temporary t = true -> names (files d) !! t = Some i -> inodes (files d) !! i = Some a ->
  Journaled (change d (putInode i b (files d)) (<[n := mkWriter (job w) s]> (writers d)) []).
Proof.
  intros J Hn Ht Hi Ha. apply journal_touch; try done; cbn.
  - intros k. rewrite lookup_insert_is_Some. destruct (decide (i = k)) as [<-|]; rewrite ?Ha; naive_solver.
  - intros k x y Hx. rewrite lookup_insert_Some. intros [[<- <-]|[_ Hy]]; [right; eauto|left]. by simplify_eq.
Qed.

Lemma touch_nothing d n w s :
  Journaled d -> writers d !! n = Some w -> Journaled (change d (files d) (<[n := mkWriter (job w) s]> (writers d)) []).
Proof. intros J Hn. apply journal_touch; try done. intros k x y Hx Hy. left. by simplify_eq. Qed.

#[local] Hint Resolve touch_nothing : core.

Lemma stepWriter_journal umask pid now n refused d :
  DiskInv d -> orderlyEvent d (StepWriter n pid now refused) = true -> Journaled (stepWriter umask pid now n refused d).
Proof.
  intros [HI J] _. unfold stepWriter. destruct (writers d !! n) as [w|] eqn:Hn; [|done].
  pose proof (disk_stages _ HI n w Hn) as Hok. pose proof (disk_wf _ HI) as Hwf.
  unfold advance, changes. unfold stageOk in Hok.
  assert (Hat : forall t h s x, temporary t = true -> names (files d) !! t = Some h ->
    Journaled (change d (writeAt h x (files d)) (<[n := mkWriter (job w) s]> (writers d)) [])).
  { intros t h s x Ht Hh. unfold writeAt. destruct (inodes (files d) !! h) as [a|] eqn:Ha; [by eapply touch_putInode|by apply touch_nothing]. }
  destruct (stage w) as [| |t h|t h|t h f|t| |f] eqn:Hst.
  - destruct refused as [[e k]|]; auto.
  - destruct refused as [[e k]|]; [auto|]. set (t := tmpName pid now (target (job w))).
    assert (Ht : temporary t = true) by apply tmpName_temporary. unfold openForWriting.
    destruct (names (files d) !! t) as [i|] eqn:Hi; cbn.
    + assert (fileExists t (files d) = true) as -> by (unfold fileExists; by rewrite Hi).
      destruct (wellFormed_named _ t i Hwf Hi) as [a Ha]. by eapply touch_putInode.
    + assert (fileExists t (files d) = false) as -> by (unfold fileExists; by rewrite Hi). by apply journal_created.
  - destruct Hok as (Ht & Hnm & _). destruct refused as [[e k]|]; by eapply Hat.
  - destruct Hok as (Ht & Hnm & _). destruct refused as [[e k]|]; [auto|]. unfold sync.
    destruct (inodes (files d) !! h) as [a|] eqn:Ha; [by eapply touch_putInode|auto].
  - by destruct refused as [[e k]|], f as [e'|]; auto.
  - destruct refused as [[e k]|]; [auto|]. destruct Hok as (Ht & [md Hino] & _).
    unfold rename. unfold lookupFile in Hino. destruct (names (files d) !! t) as [i|] eqn:Hi; [|done].
    eapply journal_moved; try done. by apply (disk_targets _ HI n w).
  - destruct refused as [[e k]|]; [auto|]. unfold chmod.
    destruct (names (files d) !! target (job w)) as [i|] eqn:Hi; [|auto].
    destruct (inodes (files d) !! i) as [a|] eqn:Ha; [|auto]. apply journal_touch; try done; cbn.
    + intros k. rewrite lookup_insert_is_Some. destruct (decide (i = k)) as [<-|]; rewrite ?Ha; naive_solver.
    + intros k x y Hx. rewrite lookup_insert_Some. intros [[<- <-]|[_ Hy]]; left; by simplify_eq.
  - auto.
Qed.

Lemma diskStep_inv umask d ev : DiskInv d -> orderlyEvent d ev = true -> DiskInv (diskStep umask d ev).
Proof.
  intros HI. destruct ev as [j|n pid now refused|torn keep]; cbn [diskStep]; intros Hord.
  - apply begin_inv; [done|]. cbn in Hord. bool_props. done.
  - split; [apply stepWriter_live|apply stepWriter_journal]; (done || apply HI).
  - assert (LiveInv (powerLoss torn keep d)).
    { apply powerLoss_live; [apply HI|]. apply (journal_views _ HI), kept_sublist. }
    split; [done|by apply powerLoss_journal].
Qed.

Lemma DiskInv_initial : wellFormed fs0 -> durable fs0 -> DiskInv (initialDisk fs0).
Proof.
  intros Hwf Hd. split; [split; cbn; try done; split; [constructor|]; intros n Hn; by apply elem_of_nil in Hn|].
  split; [done| |].
  - intros l ->%sublist_nil_r. by split.
  - intros t i l x _ Hi ->%sublist_nil_r Hx. by apply (proj1 (proj2 Hwf) x t i).
Qed.

Lemma disk_run umask evs d :
  DiskInv d -> orderly umask d evs = true -> DiskInv (foldl (diskStep umask) d evs).
Proof.
  revert d. induction evs as [|ev evs IH]; intros d HI; cbn; [done|]. rewrite andb_true_iff.
  intros [Ho Hr]. apply IH; [by apply diskStep_inv|done].
Qed.
End invariant.

Definition isPowerLoss (ev : DiskEvent) : bool := match ev with PowerLoss _ _ => true | _ => false end.

Lemma lost_run umask evs : forall d,
  forallb (fun ev => negb (isPowerLoss ev)) evs = true -> lost (foldl (diskStep umask) d evs) = lost d.
Proof.
  induction evs as [|ev evs IH]; intros d; [done|]. cbn [foldl forallb]. rewrite andb_true_iff. intros [H1 H2]. rewrite IH by done.
  destruct ev as [j|n pid now refused|]; [done| |done]. cbn. unfold stepWriter. destruct (writers d !! n); [|done].
  by destruct (advance _ _ _ _ _ _).
Qed.

(** C31: take any run of concurrent [atomicWriteFile] calls on other than [.tmp] files,
    with refused system calls and power losses, in which no temporary name is opened
    twice at once, from files that are on disk.  Directories are never synced, so that
    a power loss keeps any of the creations and renames since the last one, in their
    order.  At every moment a file that is not a temporary one holds exactly what the
    last call whose rename onto it is in effect was given, or what it held at first,
    and all of it is on disk; a call renames at most once; the rename of one that has
    returned is in effect, or a power loss undid it; and without power losses none is
    undone. *)
Theorem writes_replace_atomically umask fs0 evs :
  wellFormed fs0 -> durable fs0 -> orderly umask (initialDisk fs0) evs = true ->
  let d := foldl (diskStep umask) (initialDisk fs0) evs in
  (forall p, temporary p = false ->
     readFile p (files d) = contents (jobs d) (installed d) p (readFile p fs0)) /\
  (forall p n, temporary p = false -> lookupFile p (files d) = Some n -> synced n = true) /\
  NoDup (installed d ++ lost d) /\
  (forall n j, writers d !! n = Some (mkWriter j (Settled None)) -> n ∈ installed d \/ n ∈ lost d) /\
  (forallb (fun ev => negb (isPowerLoss ev)) evs = true -> lost d = []).
Proof.
  intros Hwf Hd Ho. pose proof (disk_run fs0 umask evs _ (DiskInv_initial fs0 Hwf Hd) Ho) as HI. cbn zeta.
  split_and!; [apply HI|apply HI|apply HI| |].
  - intros n j Hn. pose proof (disk_stages _ _ HI n _ Hn) as H. unfold stageOk, renamed in H. cbn in H. by apply elem_of_app.
  - intros Hp. by rewrite lost_run.
Qed.

Module Examples.
Local Open Scope string_scope.
Local Open Scope list_scope.

Definition empty_fs : Files := mkFiles ∅ ∅ 0.
Definition certJob (b : string) : Job := mkJob "/certs/cert.pem" b 420.
Definition steps (n : nat) (now : Z) (k : nat) : list DiskEvent := replicate k (StepWriter n 7 now None).

(** A complete write, one that runs out of space, and a power loss in the middle of
    a third. *)
Definition trouble : list DiskEvent :=
  [Begin (certJob "one")] ++ steps 0 1 7 ++
  [Begin (certJob "second")] ++ steps 1 2 2 ++ [StepWriter 1 7 2 (Some ("ENOSPC", 3%nat))] ++ steps 1 2 1 ++
  [Begin (certJob "third")] ++ steps 2 3 3 ++ [PowerLoss (fun _ => "garbage") (repeat true 4)].

Lemma writes_replace_atomically_witness :
  let d := foldl (diskStep 18) (initialDisk empty_fs) trouble in
  readFile "/certs/cert.pem" (files d) = Some "one" /\
  readFile "/certs/.cert.pem.7.2.tmp" (files d) = Some "garbage" /\
  (stage <$> writers d) = [Settled None; Settled (Some "ENOSPC"); Settled (Some "the process ended")].
Proof.
  cbn zeta. split; [|vm_compute; by split].
  destruct (writes_replace_atomically 18 empty_fs trouble) as (H & _).
  - split_and!; cbn; [intros p i|intros p q i|intros i]; rewrite lookup_empty; [done|done|by intros []].
  - intros p n _. unfold lookupFile. cbn. by rewrite lookup_empty.
  - vm_compute. reflexivity.
  - rewrite (H "/certs/cert.pem" ltac:(reflexivity)). vm_compute. reflexivity.
Defined.

(** A write that has returned is undone by a power loss: nothing made its rename
    durable.  Of two files replaced one after the other the second may survive alone. *)
Definition both (keep : list bool) : Disk :=
  foldl (diskStep 18) (initialDisk empty_fs)
    ([Begin (certJob "certificate")] ++ steps 0 1 7 ++ [Begin (mkJob "/certs/key.pem" "key" 384)] ++ steps 1 2 7 ++
     [PowerLoss (fun _ => "") keep]).

Lemma returned_writes_lost :
  let none := both [] in
  let second := both [false; false; true; true] in
  (readFile "/certs/cert.pem" (files none), readFile "/certs/key.pem" (files none), lost none) = (None, None, [0; 1]%nat) /\
  (readFile "/certs/cert.pem" (files second), readFile "/certs/key.pem" (files second), lost second) = (None, Some "key", [0]%nat) /\
  (stage <$> writers none) = [Settled None; Settled None].
Proof. vm_compute. by repeat split. Qed.

(** Two calls that open the same temporary name in the same millisecond: the longer
    text shows behind the shorter one. *)
Definition clash : list DiskEvent :=
  [Begin (certJob "longer text"); Begin (certJob "short")] ++ steps 0 1 2 ++ steps 1 1 2 ++
  steps 0 1 1 ++ steps 1 1 5.

Lemma same_millisecond_tears :
  let d := foldl (diskStep 18) (initialDisk empty_fs) clash in
  readFile "/certs/cert.pem" (files d) = Some "shortr text" /\
  orderly 18 (initialDisk empty_fs) clash = false.
Proof. vm_compute. by split. Qed.
End Examples.
