(* ===== verification/Certificates.v ===== *)
(** * Renewal of TLS certificates ([src/src/tls/acme_rotation.ts])

    A method with awaits is a [proc]: a tree of requests to the file system, the
    certificate authority and the alert callback.  A [World] holds the disk of
    [AtomicFiles], the clock and the checks in progress with their traces; an event
    starts a check, answers or refuses its request, moves one writer, or cuts the
    power.  [Promise.all] over two writes rejects as soon as one of them has failed
    and leaves the other one running.

    The authority and the parser of certificates are arguments; the callbacks for
    metrics and listeners do not throw, the one for alerts may reject.

    [renewal_outcomes]: what a check did, by how it ended, and what is in the
    files.  [days_exact]: the days left are the whole days, doubles
    notwithstanding.  The reloader, the lifecycle manager with its metrics, the
    challenge files and the settings of the bootstrap follow. *)

From Stdlib Require Import ZArith Lia Ascii String QArith Qround.
From stdpp Require Import base list strings gmap.
From S2P Require Import Prelude Js Text Number AtomicFiles.
#[local] Open Scope Z_scope.

Definition DAY_MS : Z := 24 * 60 * 60 * 1000.
Definition DEFAULT_RENEW_BEFORE_DAYS : Z := 30.
Definition DEFAULT_EMERGENCY_NOTIFY_DAYS : Z := 7.
Definition DEFAULT_CHECK_INTERVAL_MS : Z := DAY_MS.
Definition CERT_ALERT_DAYS : Z := 14.
Definition DEFAULT_CERTS_ROOT : string := "/etc/verinode/certs".

(** ** Records *)

Record StoredCertificate := mkCertificate {
  certificate : string;
  privateKey : string;
  chain : option string
}.

Record CertificateStatus := mkStatus {
  s_exists : bool;
  expiresAt : option Z;
  daysRemaining : option number;
  shouldRenew : bool;
  emergency : bool
}.

Record RenewalResult := mkResult {
  attempted : bool;
  renewed : bool;
  r_expiresAt : option Z;
  r_error : option string
}.

Inductive Severity := warning | critical | info.
#[export] Instance severity_eq_dec : EqDecision Severity.
Proof. solve_decision. Defined.

Record RenewalAlert := mkAlert {
  severity : Severity;
  message : string;
  a_error : option string;
  a_status : CertificateStatus
}.

Record CertificateStore := mkStore {
  certPath : string;
  keyPath : string;
  chainPath : option string;
  fileMode : Z
}.

(** [new CertificateStore(options)], with [options.fileMode ?? 0o600] *)
Definition new_CertificateStore (cert key : string) (chain : option string) (md : option Z) : CertificateStore :=
  mkStore cert key chain (default 384 md).

Record RenewalManager := mkManager {
  store : CertificateStore;
  renewBeforeDays : number;
  emergencyNotifyDays : number
}.

Definition new_RenewalManager (st : CertificateStore) (renewBefore emergencyDays : option number) : RenewalManager :=
  mkManager st (default (int DEFAULT_RENEW_BEFORE_DAYS) renewBefore)
    (default (int DEFAULT_EMERGENCY_NOTIFY_DAYS) emergencyDays).

(** ** Methods *)

(** What a method tells without waiting: gauges and emitted events. *)
Inductive Output :=
  | Metric (name : string) (value : number)
  | EmitAlert (a : RenewalAlert)
  | EmitRenewed (st : CertificateStatus)
  | EmitRenewalFailed (e : string) (st : CertificateStatus).

Inductive proc (A : Type) : Type :=
  | Ret (a : A)
  | Throw (e : string)
  | Access (p : string) (k : bool -> proc A)
  | Read (p : string) (k : string + string -> proc A)
  | Issue (k : string + StoredCertificate -> proc A)
  | WriteAll (l : list Job) (k : string + unit -> proc A)
  | OnAlert (a : RenewalAlert) (k : string + unit -> proc A)
  | Tell (o : Output) (k : proc A)
  | Now (k : Z -> proc A).
Arguments Ret {A} _.
Arguments Throw {A} _.
Arguments Access {A} _ _.
Arguments Read {A} _ _.
Arguments Issue {A} _.
Arguments WriteAll {A} _ _.
Arguments OnAlert {A} _ _.
Arguments Tell {A} _ _.
Arguments Now {A} _.

Fixpoint andThen {A B} (p : proc A) (f : A -> proc B) : proc B :=
  match p with
  | Ret a => f a
  | Throw e => Throw e
  | Access x k => Access x (fun r => andThen (k r) f)
  | Read x k => Read x (fun r => andThen (k r) f)
  | Issue k => Issue (fun r => andThen (k r) f)
  | WriteAll l k => WriteAll l (fun r => andThen (k r) f)
  | OnAlert a k => OnAlert a (fun r => andThen (k r) f)
  | Tell o k => Tell o (andThen k f)
  | Now k => Now (fun r => andThen (k r) f)
  end.

(** [try { p } catch (e) { h(e) }] *)
Fixpoint catching {A} (p : proc A) (h : string -> proc A) : proc A :=
  match p with
  | Ret a => Ret a
  | Throw e => h e
  | Access x k => Access x (fun r => catching (k r) h)
  | Read x k => Read x (fun r => catching (k r) h)
  | Issue k => Issue (fun r => catching (k r) h)
  | WriteAll l k => WriteAll l (fun r => catching (k r) h)
  | OnAlert a k => OnAlert a (fun r => catching (k r) h)
  | Tell o k => Tell o (catching k h)
  | Now k => Now (fun r => catching (k r) h)
  end.

Definition returning {A} (r : string + A) : proc A :=
  match r with inl e => Throw e | inr a => Ret a end.

(** ** The store *)

Definition ensureTrailingNewline (value : string) : string :=
  if endsWith (String NEWLINE "") value then value else value +:+ String NEWLINE "".

(** The chain, when the code takes it for one. *)
Definition chainOf (c : StoredCertificate) : option string :=
  match chain c with Some s => if falsy s then None else Some s | None => None end.

Definition certBody (next : StoredCertificate) : string :=
  match chainOf next with
  | Some ch => trim (certificate next) +:+ String NEWLINE "" +:+ trim ch +:+ String NEWLINE ""
  | None => ensureTrailingNewline (certificate next)
  end.

Definition pairJobs (st : CertificateStore) (next : StoredCertificate) : list Job :=
  [mkJob (certPath st) (certBody next) 420;
   mkJob (keyPath st) (ensureTrailingNewline (privateKey next)) (fileMode st)].

(** [this.chainPath && next.chain] *)
Definition chainJobs (st : CertificateStore) (next : StoredCertificate) : list Job :=
  match chainPath st, chainOf next with
  | Some path, Some ch => if falsy path then [] else [mkJob path (ensureTrailingNewline ch) 420]
  | _, _ => []
  end.

Definition writeAtomic (st : CertificateStore) (next : StoredCertificate) : proc unit :=
  WriteAll (pairJobs st next) (fun r =>
  andThen (returning r) (fun _ =>
  match chainJobs st next with
  | [] => Ret tt
  | l => WriteAll l returning
  end)).

Section renewal.
Context (validTo : string -> option Z).     (* of new X509Certificate(pem) *)

Definition certificateExpiry (pem : string) : string + Z :=
  match validTo pem with Some t => inr t | None => inl "invalid certificate" end.

Definition daysUntil (expires now : Z) : number :=
  floor (num_div (num_sub (int expires) (int now)) (int DAY_MS)).

(** [exists()] *)
Definition store_exists (st : CertificateStore) : proc bool :=
  Access (certPath st) (fun certExists => Access (keyPath st) (fun keyExists => Ret (certExists && keyExists))).

Definition missing : CertificateStatus := mkStatus false None None true true.

Definition statusAt (expires now : Z) (renewBefore emergencyDays : number) : CertificateStatus :=
  let days := daysUntil expires now in
  mkStatus true (Some expires) (Some days) (num_lt days renewBefore) (num_lt days emergencyDays).

Definition readStatus (st : CertificateStore) (now : Z) (renewBefore emergencyDays : number) : proc CertificateStatus :=
  andThen (store_exists st) (fun there =>
  if negb there then Ret missing else
  Read (certPath st) (fun r =>
  andThen (returning r) (fun cert =>
  andThen (returning (certificateExpiry cert)) (fun expires =>
  Ret (statusAt expires now renewBefore emergencyDays))))).

(** ** [AcmeRenewalManager] *)

Definition status (m : RenewalManager) : proc CertificateStatus :=
  Now (fun now => readStatus (store m) now (renewBeforeDays m) (emergencyNotifyDays m)).

Definition emitMetrics (st : CertificateStatus) : proc unit :=
  let due := Tell (Metric "tls_certificate_renewal_due" (int (if shouldRenew st then 1 else 0))) (Ret tt) in
  match daysRemaining st with
  | Some days => Tell (Metric "tls_certificate_days_remaining" days) due
  | None => due
  end.

Definition alert (a : RenewalAlert) : proc unit :=
  OnAlert a (fun r => andThen (returning r) (fun _ => Tell (EmitAlert a) (Ret tt))).

Definition renewedAlert (after : CertificateStatus) : RenewalAlert :=
  mkAlert info "TLS certificate renewed successfully" None after.

Definition failedAlert (e : string) (current : CertificateStatus) : RenewalAlert :=
  mkAlert (if emergency current then critical else warning)
    (if emergency current
     then "TLS certificate renewal failed and certificate is inside the 7-day emergency window"
     else "TLS certificate renewal failed; keeping existing certificate") (Some e) current.

Definition renew (m : RenewalManager) : proc RenewalResult :=
  Issue (fun r =>
  andThen (returning r) (fun issued =>
  andThen (writeAtomic (store m) issued) (fun _ =>
  andThen (status m) (fun after =>
  andThen (emitMetrics after) (fun _ =>
  andThen (alert (renewedAlert after)) (fun _ =>
  Tell (EmitRenewed after) (Ret (mkResult true true (expiresAt after) None)))))))).

Definition renewalFailed (m : RenewalManager) (before : CertificateStatus) (err : string) : proc RenewalResult :=
  andThen (catching (status m) (fun _ => Ret before)) (fun current =>
  andThen (alert (failedAlert err current)) (fun _ =>
  Tell (EmitRenewalFailed err current) (Ret (mkResult true false (expiresAt current) (Some err))))).

Definition checkOnce (m : RenewalManager) : proc RenewalResult :=
  andThen (status m) (fun before =>
  andThen (emitMetrics before) (fun _ =>
  if negb (shouldRenew before) then Ret (mkResult false false (expiresAt before) None)
  else catching (renew m) (renewalFailed m before))).
End renewal.

(** ** The world *)

(** What a check has seen and done; a write with the numbers of its writers. *)
Inductive Entry :=
  | Clocked (now : Z)
  | Accessed (p : string) (there : bool)
  | HasRead (p : string) (r : string + string)
  | Issued (r : string + StoredCertificate)
  | Wrote (l : list Job) (ids : list nat) (r : string + unit)
  | Alerted (a : RenewalAlert) (r : string + unit)
  | Told (o : Output).

Record Check := mkCheck {
  manager : RenewalManager;
  trace : list Entry;
  rest : proc RenewalResult;
  waiting : option (list nat)             (* the writers its [Promise.all] is for *)
}.

Record World := mkWorld {
  disk : Disk;
  clock : Z;
  checks : gmap nat Check
}.

Inductive Reply := Ok | Fails (e : string) | Grants (c : StoredCertificate).

Inductive WorldEvent :=
  | StartCheck (sid : nat) (m : RenewalManager)
  | Answer (sid : nat) (r : Reply)
  | OnDisk (n : nat) (pid : Z) (refused : option (string * nat))
  | Tick (now : Z)
  | PowerCut (torn : nat -> string) (keep : list bool).

(** A method runs on until it has to wait. *)
Fixpoint runOn {A} (now : Z) (tr : list Entry) (p : proc A) : list Entry * proc A :=
  match p with
  | Tell o k => runOn now (tr ++ [Told o]) k
  | Now k => runOn now (tr ++ [Clocked now]) (k now)
  | _ => (tr, p)
  end.

Definition resume (w : World) (sid : nat) (c : Check) (e : Entry) (p : proc RenewalResult) : World :=
  let '(tr, p') := runOn (clock w) (trace c ++ [e]) p in
  mkWorld (disk w) (clock w) (<[sid := mkCheck (manager c) tr p' None]> (checks w)).

Definition refusedBy (r : Reply) : option string := match r with Fails e => Some e | _ => None end.

Definition unitReply (r : Reply) : string + unit := match r with Fails e => inl e | _ => inr tt end.

(** [Promise.all]: rejected when one has failed, fulfilled when all have ended.
    Of two failures the first in the list is reported. *)
Fixpoint joined (ws : list Writer) (ids : list nat) : option (string + unit) :=
  match ids with
  | [] => Some (inr tt)
  | n :: ids' =>
      match stage <$> ws !! n, joined ws ids' with
      | Some (Settled (Some e)), _ => Some (inl e)
      | _, Some (inl e) => Some (inl e)
      | Some (Settled None), r => r
      | _, _ => None
      end
  end.

Definition spawn (d : Disk) (l : list Job) : Disk * list nat :=
  (foldl (fun d j => begin_ j d) d l, seq (length (writers d)) (length l)).

Definition answer (w : World) (sid : nat) (c : Check) (r : Reply) : World :=
  match rest c with
  | Access p k => let b := fileExists p (files (disk w)) in resume w sid c (Accessed p b) (k b)
  | Read p k =>
      let x := match refusedBy r with
               | Some e => inl e
               | None => match readFile p (files (disk w)) with Some s => inr s | None => inl ENOENT end
               end in
      resume w sid c (HasRead p x) (k x)
  | Issue k =>
      match r with
      | Grants cert => resume w sid c (Issued (inr cert)) (k (inr cert))
      | Fails e => resume w sid c (Issued (inl e)) (k (inl e))
      | Ok => w
      end
  | WriteAll l k =>
      match waiting c with
      | None =>
          let '(d, ids) := spawn (disk w) l in
          mkWorld d (clock w) (<[sid := mkCheck (manager c) (trace c) (rest c) (Some ids)]> (checks w))
      | Some ids =>
          match joined (writers (disk w)) ids with
          | Some x => resume w sid c (Wrote l ids x) (k x)
          | None => w
          end
      end
  | OnAlert a k => let x := unitReply r in resume w sid c (Alerted a x) (k x)
  | _ => w
  end.

Section world.
Context (validTo : string -> option Z) (umask : Z).

Definition worldStep (w : World) (ev : WorldEvent) : World :=
  match ev with
  | StartCheck sid m =>
      match checks w !! sid with
      | None =>
          let '(tr, p) := runOn (clock w) [] (checkOnce validTo m) in
          mkWorld (disk w) (clock w) (<[sid := mkCheck m tr p None]> (checks w))
      | Some _ => w
      end
  | Answer sid r => match checks w !! sid with Some c => answer w sid c r | None => w end
  | OnDisk n pid refused =>
      mkWorld (stepWriter umask pid (clock w) n refused (disk w)) (clock w) (checks w)
  | Tick now => mkWorld (disk w) now (checks w)
  | PowerCut torn keep => mkWorld (powerLoss torn keep (disk w)) (clock w) ∅
  end.

(** The paths of a store are not temporary names, and no temporary name is opened
    twice at once. *)
Definition storeOk (st : CertificateStore) : bool :=
  negb (temporary (certPath st)) && negb (temporary (keyPath st)) &&
  match chainPath st with Some p => negb (temporary p) | None => true end.

Definition orderlyStep (w : World) (ev : WorldEvent) : bool :=
  match ev with
  | StartCheck _ m => storeOk (store m)
  | OnDisk n pid refused => orderlyEvent (disk w) (StepWriter n pid (clock w) refused)
  | _ => true
  end.

Fixpoint orderlyRun (w : World) (evs : list WorldEvent) : bool :=
  match evs with
  | [] => true
  | ev :: evs' => orderlyStep w ev && orderlyRun (worldStep w ev) evs'
  end.

(** ** What a method may do, whatever it is answered *)

Definition jobsOk (l : list Job) : Prop := Forall (fun j => temporary (target j) = false) l.

Fixpoint always {A} (Q : list Entry -> string + A -> Prop) (tr : list Entry) (p : proc A) : Prop :=
  match p with
  | Ret a => Q tr (inr a)
  | Throw e => Q tr (inl e)
  | Access x k => forall b, always Q (tr ++ [Accessed x b]) (k b)
  | Read x k => forall r, always Q (tr ++ [HasRead x r]) (k r)
  | Issue k => forall r, always Q (tr ++ [Issued r]) (k r)
  | WriteAll l k => jobsOk l /\ forall ids r, always Q (tr ++ [Wrote l ids r]) (k r)
  | OnAlert a k => forall r, always Q (tr ++ [Alerted a r]) (k r)
  | Tell o k => always Q (tr ++ [Told o]) k
  | Now k => forall now, always Q (tr ++ [Clocked now]) (k now)
  end.

Lemma always_mono {A} (Q Q' : list Entry -> string + A -> Prop) p tr :
  (forall tr' r, Q tr' r -> Q' tr' r) -> always Q tr p -> always Q' tr p.
Proof. intros HQ. revert tr. induction p; cbn; intros tr H'; naive_solver. Qed.

Lemma always_andThen {A B} (Q : list Entry -> string + A -> Prop) (Q' : list Entry -> string + B -> Prop) p f tr :
  always Q tr p ->
  (forall tr' a, Q tr' (inr a) -> always Q' tr' (f a)) ->
  (forall tr' e, Q tr' (inl e) -> Q' tr' (inl e)) ->
  always Q' tr (andThen p f).
Proof. intros Hp Hf He. revert tr Hp. induction p; cbn; intros tr Hp; naive_solver. Qed.

Lemma always_catching {A} (Q Q' : list Entry -> string + A -> Prop) p h tr :
  always Q tr p ->
  (forall tr' e, Q tr' (inl e) -> always Q' tr' (h e)) ->
  (forall tr' a, Q tr' (inr a) -> Q' tr' (inr a)) ->
  always Q' tr (catching p h).
Proof. intros Hp Hh Ha. revert tr Hp. induction p; cbn; intros tr Hp; naive_solver. Qed.

Lemma always_prefix {A} (Q : list Entry -> string + A -> Prop) p tr :
  always Q tr p -> always (fun tr' r => tr `prefix_of` tr' /\ Q tr' r) tr p.
Proof.
  assert (H : forall tr0, tr `prefix_of` tr0 -> always Q tr0 p -> always (fun tr' r => tr `prefix_of` tr' /\ Q tr' r) tr0 p);
    [|by apply H].
  induction p; cbn; intros tr0 Hpre Hp; try by split.
  all: try (intros x; match goal with IH : _ |- _ => apply IH; [by apply prefix_app_r|apply Hp] end).
  - destruct Hp as [Hj Hp]. split; [done|]. intros ids r. apply H; [by apply prefix_app_r|apply Hp].
  - apply IHp; [by apply prefix_app_r|done].
Qed.

Lemma always_runOn {A} Q now tr (p : proc A) :
  always Q tr p -> let '(tr', p') := runOn now tr p in always Q tr' p'.
Proof.
  revert tr. induction p as [| | | | | | |o k IH|k IH]; cbn; intros tr Hp; try done; [by apply IH|by apply IH, Hp].
Qed.

(** ** How a check ends *)

Definition isAct (e : Entry) : bool :=
  match e with Issued _ | Wrote _ _ _ | Alerted _ _ => true | _ => false end.

(** What it asked the outside to do, and the answers. *)
Definition acts (tr : list Entry) : list Entry := filter (fun e => isAct e = true) tr.

Section outcomes.
Context (m : RenewalManager).

(** A status computed from something the check saw. *)
Definition statusSeen (tr : list Entry) (s : CertificateStatus) : Prop :=
  (s = missing /\ (Accessed (certPath (store m)) false ∈ tr \/ Accessed (keyPath (store m)) false ∈ tr)) \/
  exists now pem expires,
    Clocked now ∈ tr /\ HasRead (certPath (store m)) (inr pem) ∈ tr /\ validTo pem = Some expires /\
    s = statusAt expires now (renewBeforeDays m) (emergencyNotifyDays m).

(** All files of an issued certificate were written. *)
Inductive written (c : StoredCertificate) : list Entry -> Prop :=
  | written_pair ids :
      chainJobs (store m) c = [] ->
      written c [Issued (inr c); Wrote (pairJobs (store m) c) ids (inr tt)]
  | written_chain ids ids' :
      chainJobs (store m) c <> [] ->
      written c [Issued (inr c); Wrote (pairJobs (store m) c) ids (inr tt);
                 Wrote (chainJobs (store m) c) ids' (inr tt)].

(** A renewal that fails with [e]. *)
Inductive failure (e : string) : list Entry -> Prop :=
  | issue_failed : failure e [Issued (inl e)]
  | pair_failed c ids : failure e [Issued (inr c); Wrote (pairJobs (store m) c) ids (inl e)]
  | chain_failed c ids ids' :
      chainJobs (store m) c <> [] ->
      failure e [Issued (inr c); Wrote (pairJobs (store m) c) ids (inr tt);
                 Wrote (chainJobs (store m) c) ids' (inl e)]
  | status_failed c l : written c l -> failure e l
  | alert_failed c l after : written c l -> failure e (l ++ [Alerted (renewedAlert after) (inl e)]).

Definition outcomeOk (tr : list Entry) (r : string + RenewalResult) : Prop :=
  match r with
  | inr res =>
      (exists s, acts tr = [] /\ statusSeen tr s /\ shouldRenew s = false /\
         res = mkResult false false (expiresAt s) None) \/
      (exists c l after, written c l /\ acts tr = l ++ [Alerted (renewedAlert after) (inr tt)] /\
         statusSeen tr after /\ res = mkResult true true (expiresAt after) None) \/
      (exists e l current, failure e l /\ acts tr = l ++ [Alerted (failedAlert e current) (inr tt)] /\
         statusSeen tr current /\ res = mkResult true false (expiresAt current) (Some e))
  | inl e =>
      acts tr = [] \/
      exists e' l current, failure e' l /\ acts tr = l ++ [Alerted (failedAlert e' current) (inl e)] /\
        statusSeen tr current
  end.

(** The trace grew, by nothing but looking. *)
Definition quietly (tr tr' : list Entry) : Prop := tr `prefix_of` tr' /\ acts tr' = acts tr.

Lemma quietly_refl tr : quietly tr tr.
Proof. by split. Qed.

Lemma quietly_trans tr1 tr2 tr3 : quietly tr1 tr2 -> quietly tr2 tr3 -> quietly tr1 tr3.
Proof. intros [H1 E1] [H2 E2]. split; [by etrans|congruence]. Qed.

Lemma quietly_snoc tr e : isAct e = false -> quietly tr (tr ++ [e]).
Proof.
  intros He. split; [by apply prefix_app_r|]. unfold acts. rewrite filter_app, filter_cons, He. cbn.
  by rewrite app_nil_r.
Qed.

Lemma acts_snoc tr e : isAct e = true -> acts (tr ++ [e]) = acts tr ++ [e].
Proof. intros He. unfold acts. by rewrite filter_app, filter_cons, He. Qed.

Lemma acts_told tr e : isAct e = false -> acts (tr ++ [e]) = acts tr.
Proof. intros He. by apply quietly_snoc. Qed.

Lemma statusSeen_mono tr tr' s : tr `prefix_of` tr' -> statusSeen tr s -> statusSeen tr' s.
Proof.
  intros [l ->]. unfold statusSeen. intros [[? [?|?]]|(now & pem & x & ? & ? & ?)].
  - left. split; [done|]. left. set_solver.
  - left. split; [done|]. right. set_solver.
  - right. exists now, pem, x. set_solver.
Qed.

Lemma status_spec tr :
  always (fun tr' r => quietly tr tr' /\ forall s, r = inr s -> statusSeen tr' s) tr (status validTo m).
Proof.
  cbn. intros now b1 b2. set (tr1 := ((tr ++ [_]) ++ _) ++ _).
  assert (H1 : quietly tr tr1) by (repeat (eapply quietly_trans; [|by apply quietly_snoc]); apply quietly_refl).
  assert (Hb : forall b, b1 = b -> Accessed (certPath (store m)) b ∈ tr1) by (intros b <-; set_solver).
  assert (Hb' : forall b, b2 = b -> Accessed (keyPath (store m)) b ∈ tr1) by (intros b <-; set_solver).
  assert (Hn : Clocked now ∈ tr1) by set_solver. clearbody tr1.
  destruct (b1 && b2) eqn:Hbb; cbn.
  - intros r. assert (H2 : quietly tr (tr1 ++ [HasRead (certPath (store m)) r]))
      by (eapply quietly_trans; [done|by apply quietly_snoc]).
    destruct r as [e|pem]; cbn; [by split|]. unfold certificateExpiry. destruct (validTo pem) as [x|] eqn:Hx; cbn; [|by split].
    split; [done|]. intros s [= <-]. right. exists now, pem, x. set_solver.
  - split; [done|]. intros s [= <-]. left. split; [done|]. destruct b1, b2; [done|by right; apply Hb'|by left; apply Hb..].
Qed.

Lemma emitMetrics_spec tr s :
  always (fun tr' r => quietly tr tr' /\ r = inr tt) tr (emitMetrics s).
Proof.
  unfold emitMetrics. destruct (daysRemaining s); cbn; (split; [|done]);
    repeat (eapply quietly_trans; [|by apply quietly_snoc]); apply quietly_refl.
Qed.

Hypothesis store_ok : storeOk (store m) = true.

Lemma pairJobs_ok c : jobsOk (pairJobs (store m) c).
Proof. unfold storeOk in store_ok. bool_props. repeat constructor; cbn; done. Qed.

Lemma chainJobs_ok c : jobsOk (chainJobs (store m) c).
Proof.
  unfold storeOk in store_ok. unfold chainJobs. bool_props.
  destruct (chainPath (store m)) as [p|]; [|constructor]. destruct (chainOf c); [|constructor].
  destruct (falsy p); [constructor|]. bool_props. by repeat constructor.
Qed.

Lemma acts_quietly tr tr' l : quietly tr tr' -> acts tr = l -> acts tr' = l.
Proof. by intros [_ ->]. Qed.

Lemma writeAtomic_spec tr c :
  acts tr = [Issued (inr c)] ->
  always (fun tr' r => match r with
    | inr _ => written c (acts tr')
    | inl e => failure e (acts tr')
    end) tr (writeAtomic (store m) c).
Proof.
  intros Ha. cbn [always writeAtomic]. split; [apply pairJobs_ok|]. intros ids r.
  assert (Hp : acts (tr ++ [Wrote (pairJobs (store m) c) ids r]) =
                [Issued (inr c); Wrote (pairJobs (store m) c) ids r]) by (by rewrite acts_snoc, Ha).
  destruct r as [e|[]]; cbn; [rewrite Hp; constructor|].
  destruct (chainJobs (store m) c) as [|j l] eqn:Hc; cbn; [rewrite Hp; by constructor|].
  split; [rewrite <- Hc; apply chainJobs_ok|]. intros ids' [e|[]]; cbn; rewrite acts_snoc, Hp, <- Hc by done;
    constructor; by rewrite Hc.
Qed.

Lemma alert_spec tr a :
  always (fun tr' r => tr `prefix_of` tr' /\ acts tr' = acts tr ++ [Alerted a r]) tr (alert a).
Proof.
  cbn. intros [e|[]]; cbn.
  - split; [by apply prefix_app_r|by apply acts_snoc].
  - rewrite <- app_assoc. split; [by apply prefix_app_r|]. unfold acts. by rewrite filter_app.
Qed.

Lemma renew_spec tr :
  acts tr = [] ->
  always (fun tr' r => match r with
    | inl e => failure e (acts tr')
    | inr res => exists c l after, written c l /\ acts tr' = l ++ [Alerted (renewedAlert after) (inr tt)] /\
        statusSeen tr' after /\ res = mkResult true true (expiresAt after) None
    end) tr (renew validTo m).
Proof.
  intros Ha. cbn [always renew]. intros r.
  assert (Hi : acts (tr ++ [Issued r]) = [Issued r]) by (by rewrite acts_snoc, Ha).
  destruct r as [e|c]; cbn [returning andThen always]; [rewrite Hi; constructor|].
  eapply always_andThen; [by apply writeAtomic_spec| |done]. intros tr1 [] Hw.
  eapply always_andThen; [apply status_spec| |].
  2:{ intros tr2 e [Hq _]. rewrite (acts_quietly _ _ _ Hq eq_refl). by eapply status_failed. }
  intros tr2 after [Hq Hs]. specialize (Hs after eq_refl).
  eapply always_andThen; [apply emitMetrics_spec| |by intros ?? [? ?]].
  intros tr3 [] [Hq3 _]. assert (Ha3 : acts tr3 = acts tr1) by (rewrite (proj2 Hq3); apply Hq).
  assert (Hs3 : statusSeen tr3 after) by (eapply statusSeen_mono; [apply Hq3|done]).
  eapply always_andThen; [apply alert_spec| |].
  - intros tr4 [] [Hp4 Ha4]. cbn. exists c, (acts tr1), after. rewrite acts_told by done.
    rewrite Ha4, Ha3. split_and!; [done..| |done]. eapply statusSeen_mono; [|done]. etrans; [done|by apply prefix_app_r].
  - intros tr4 e [Hp4 Ha4]. rewrite Ha4, Ha3. by eapply alert_failed.
Qed.

Lemma renewalFailed_spec tr before err :
  failure err (acts tr) -> statusSeen tr before -> always outcomeOk tr (renewalFailed validTo m before err).
Proof.
  intros Hf Hb. eapply always_andThen with (Q := fun tr' r => quietly tr tr' /\
      match r with inr s => statusSeen tr' s | inl _ => False end).
  - eapply always_catching; [apply status_spec| |].
    + intros tr1 e [Hq _]. cbn. split; [done|]. eapply statusSeen_mono; [apply Hq|done].
    + intros tr1 s [Hq Hs]. split; [done|]. by apply Hs.
  - intros tr1 current [Hq Hs]. eapply always_andThen; [apply alert_spec| |].
    + intros tr2 [] [Hp Ha]. cbn. right. right. exists err, (acts tr), current. rewrite acts_told by done.
      rewrite Ha, (proj2 Hq). split_and!; [done..| |done]. eapply statusSeen_mono; [|done].
      etrans; [done|by apply prefix_app_r].
    + intros tr2 e [Hp Ha]. right. exists err, (acts tr), current. rewrite Ha, (proj2 Hq).
      split_and!; [done..|]. by eapply statusSeen_mono.
  - by intros tr1 e [_ []].
Qed.

Lemma checkOnce_spec : always outcomeOk [] (checkOnce validTo m).
Proof.
  eapply always_andThen; [apply status_spec| |].
  2:{ intros tr e [Hq _]. left. by rewrite (proj2 Hq). }
  intros tr before [Hq Hs]. specialize (Hs before eq_refl).
  eapply always_andThen; [apply emitMetrics_spec| |by intros ?? [? ?]].
  intros tr2 [] [Hq2 _]. assert (Ha2 : acts tr2 = []) by (rewrite (proj2 Hq2), (proj2 Hq); done).
  assert (Hs2 : statusSeen tr2 before) by (eapply statusSeen_mono; [apply Hq2|done]).
  destruct (shouldRenew before) eqn:Hdue; cbn [negb]; [|left; by exists before].
  eapply always_catching; [apply always_prefix, (renew_spec _ Ha2)| |].
  - intros tr3 e [Hp Hf]. apply renewalFailed_spec; [done|]. by eapply statusSeen_mono.
  - intros tr3 res [_ Hr]. cbn. right. by left.
Qed.
End outcomes.

(** ** Runs *)

(** While the process runs the writers of the past go on as they were asked to, and
    what has settled stays. *)
Definition later (d d' : Disk) : Prop :=
  lost d' = lost d /\
  forall n w, writers d !! n = Some w ->
    exists w', writers d' !! n = Some w' /\ job w' = job w /\ (stage w = Settled None -> stage w' = Settled None).

Lemma later_refl d : later d d.
Proof. split; [done|]. intros n w Hn. by exists w. Qed.

Lemma later_trans d1 d2 d3 : later d1 d2 -> later d2 d3 -> later d1 d3.
Proof.
  intros [L1 H1] [L2 H2]. split; [congruence|].
  intros n w Hn. destruct (H1 n w Hn) as (w2 & Hn2 & Ej & Es). destruct (H2 n w2 Hn2) as (w3 & ? & ? & ?).
  exists w3. split_and!; [done|congruence|auto].
Qed.

Lemma later_begin j d : later d (begin_ j d).
Proof. split; [done|]. intros n w Hn. exists w. split; [by apply lookup_app_l_Some|done]. Qed.

Lemma later_step pid now n refused d : later d (stepWriter umask pid now n refused d).
Proof.
  unfold stepWriter. destruct (writers d !! n) as [w0|] eqn:Hn; [|apply later_refl].
  destruct (advance _ _ _ _ _ _) as [fs st] eqn:Ha. split; [done|]. intros k w Hk. cbn. destruct (decide (n = k)) as [<-|Hne].
  - rewrite list_lookup_insert_eq by (by eapply lookup_lt_Some). simplify_eq. eexists. split; [done|]. cbn. split; [done|].
    intros Hs. unfold advance in Ha. rewrite Hs in Ha. by destruct refused as [[]|]; injection Ha as <- <-.
  - rewrite list_lookup_insert_ne by done. by exists w.
Qed.

(** A call of the running process *)
Definition asked (d : Disk) (j : Job) (n : nat) : Prop := n ∉ lost d /\ exists w, writers d !! n = Some w /\ job w = j.
Definition settled (d : Disk) (j : Job) (n : nat) : Prop := n ∉ lost d /\ writers d !! n = Some (mkWriter j (Settled None)).

Lemma asked_later d d' j n : later d d' -> asked d j n -> asked d' j n.
Proof. intros [EL HL] (Hn & w & Hw & <-). destruct (HL n w Hw) as (w' & ? & ? & _). split; [by rewrite EL|]. by exists w'. Qed.

Lemma settled_later d d' j n : later d d' -> settled d j n -> settled d' j n.
Proof.
  intros [EL HL] [Hn Hw]. destruct (HL n _ Hw) as ([j' st] & ? & Ej & Es). cbn in *. rewrite Es in * by done. subst.
  split; [by rewrite EL|done].
Qed.

Lemma joined_settled d l ids :
  Forall2 (asked d) l ids -> joined (writers d) ids = Some (inr tt) -> Forall2 (settled d) l ids.
Proof.
  induction 1 as [|j n l ids (Hnl & w & Hw & Hj) Hl IH]; [constructor|]. cbn. rewrite Hw. cbn.
  destruct (stage w) as [| | | | | | |[e|]] eqn:Hs; destruct (joined (writers d) ids) as [[e'|[]]|] eqn:Hi; try done.
  intros _. constructor; [|by apply IH]. split; [done|]. rewrite Hw. destruct w. cbn in *. by subst.
Qed.

Lemma spawn_spec fs0 l : forall d,
  DiskInv fs0 d -> jobsOk l ->
  let '(d', ids) := spawn d l in DiskInv fs0 d' /\ later d d' /\ Forall2 (asked d') l ids.
Proof.
  induction l as [|j l IH]; intros d HI Hl; cbn; [split_and!; [done|apply later_refl|constructor]|].
  apply Forall_cons in Hl as [Hj Hl].
  destruct (IH (begin_ j d)) as (HI' & HL & HF); [by apply begin_inv|done|].
  split_and!; [done|eapply later_trans; [apply later_begin|done]|]. constructor.
  - apply (asked_later (begin_ j d)); [done|]. split.
    + intros Hin. destruct (proj2 (disk_installed _ _ HI) (length (writers d))) as [w Hw]; [by apply elem_of_app; right|].
      by rewrite lookup_ge_None_2 in Hw.
    + exists (mkWriter j Mkdir). cbn. split; [|done]. by rewrite lookup_app_r, Nat.sub_diag by lia.
  - cbn in HF. by rewrite length_app, Nat.add_1_r in HF.
Qed.

Section safety.
Context (fs0 : Files).

Definition checkOk (d : Disk) (c : Check) : Prop :=
  storeOk (store (manager c)) = true /\
  always (outcomeOk (manager c)) (trace c) (rest c) /\
  (forall l ids, Wrote l ids (inr tt) ∈ trace c -> Forall2 (settled d) l ids) /\
  (forall l k ids, rest c = WriteAll l k -> waiting c = Some ids -> Forall2 (asked d) l ids).

Record WorldInv (w : World) : Prop := {
  world_disk : DiskInv fs0 (disk w);
  world_checks sid c : checks w !! sid = Some c -> checkOk (disk w) c
}.

Lemma checkOk_later d d' c : later d d' -> checkOk d c -> checkOk d' c.
Proof.
  intros HL (H1 & H2 & H3 & H4). split_and!; [done|done| |].
  - intros l ids Hin. eapply Forall2_impl; [by apply H3|]. intros. by eapply settled_later.
  - intros l k ids Hr Hw. eapply Forall2_impl; [by eapply H4|]. intros. by eapply asked_later.
Qed.

Lemma worldInv_update w d t sid c :
  WorldInv w -> DiskInv fs0 d -> later (disk w) d -> checkOk d c ->
  WorldInv (mkWorld d t (<[sid := c]> (checks w))).
Proof.
  intros HI Hd HL Hc. split; cbn; [done|]. intros o c'. rewrite lookup_insert_Some.
  intros [[<- <-]|[_ Ho]]; [done|]. eapply checkOk_later; [done|]. by apply (world_checks _ HI o).
Qed.

Lemma runOn_wrote {A} now tr (p : proc A) l ids r :
  Wrote l ids r ∈ (runOn now tr p).1 -> Wrote l ids r ∈ tr.
Proof. revert tr. induction p as [| | | | | | |o k IH|k IH]; cbn; intros tr Hin; try done; apply IH in Hin; set_solver. Qed.

Lemma resume_inv w sid c e p :
  WorldInv w -> checks w !! sid = Some c ->
  always (outcomeOk (manager c)) (trace c ++ [e]) p ->
  (forall l ids, e = Wrote l ids (inr tt) -> Forall2 (settled (disk w)) l ids) ->
  WorldInv (resume w sid c e p).
Proof.
  intros HI Hc Hp He. destruct (world_checks _ HI sid c Hc) as (H1 & _ & H3 & _).
  unfold resume. pose proof (always_runOn _ (clock w) _ _ Hp) as Hr.
  pose proof (runOn_wrote (clock w) (trace c ++ [e]) p) as Hw. destruct (runOn _ _ _) as [tr p']. cbn in Hw.
  apply worldInv_update; [done|apply HI|apply later_refl|]. split_and!; cbn; [done|done| |done].
  intros l ids Hin. apply Hw in Hin. apply elem_of_app in Hin as [Hin|Hin%list_elem_of_singleton]; [by apply H3|by apply He].
Qed.

Lemma answer_inv w sid c r : WorldInv w -> checks w !! sid = Some c -> WorldInv (answer w sid c r).
Proof.
  intros HI Hc. pose proof (world_checks _ HI sid c Hc) as (H1 & H2 & H3 & H4). unfold answer.
  destruct (rest c) as [a|e|p k|p k|k|l k|a k|o k|k] eqn:Hr; try done; cbn in H2.
  - by apply resume_inv.
  - by apply resume_inv.
  - destruct r; [done|by apply resume_inv..].
  - destruct H2 as [Hl Hk]. destruct (waiting c) as [ids|] eqn:Hw.
    + destruct (joined _ _) as [x|] eqn:Hj; [|done]. apply resume_inv; [done..|].
      intros l' ids' [= -> -> ->]. apply joined_settled; [|done]. by eapply H4.
    + pose proof (spawn_spec fs0 l (disk w) (world_disk _ HI) Hl) as Hs. destruct (spawn _ _) as [d ids].
      destruct Hs as (Hd & HL & HF). apply worldInv_update; [done..|]. split_and!; cbn; [done| | |].
      * by split.
      * intros l' ids' Hin. eapply Forall2_impl; [by apply H3|]. intros. by eapply settled_later.
      * by intros l' k' ids' [= <- <-] [= <-].
  - by apply resume_inv.
Qed.

Lemma certWorldStep_inv w ev : WorldInv w -> orderlyStep w ev = true -> WorldInv (worldStep w ev).
Proof.
  intros HI. destruct ev as [sid m|sid r|n pid refused|now|torn keep]; cbn [worldStep orderlyStep]; intros Ho.
  - destruct (checks w !! sid); [done|].
    pose proof (always_runOn _ (clock w) _ _ (checkOnce_spec m Ho)) as Hr.
    pose proof (fun l ids r => runOn_wrote (clock w) [] (checkOnce validTo m) l ids r) as Hw.
    destruct (runOn _ _ _) as [tr p]. cbn in Hw.
    apply worldInv_update; [done|apply HI|apply later_refl|]. split_and!; cbn; [done|done| |done].
    intros l ids Hin%Hw. by apply elem_of_nil in Hin.
  - destruct (checks w !! sid) as [c|] eqn:Hc; [by apply answer_inv|done].
  - split; cbn; [by apply (diskStep_inv fs0 umask _ (StepWriter n pid (clock w) refused)); [apply HI|]|]. intros sid c Hc.
    eapply checkOk_later; [apply later_step|]. by apply (world_checks _ HI sid).
  - split; [apply HI|apply HI].
  - split; cbn; [by apply (diskStep_inv fs0 umask _ (PowerLoss torn keep)); [apply HI|]|]. intros sid c. by rewrite lookup_empty.
Qed.

Lemma world_run evs w :
  WorldInv w -> orderlyRun w evs = true -> WorldInv (foldl worldStep w evs).
Proof.
  revert w. induction evs as [|ev evs IH]; intros w HI; cbn; [done|]. rewrite andb_true_iff.
  intros [Ho Hr]. apply IH; [by apply certWorldStep_inv|done].
Qed.
End safety.

Definition boot (fs0 : Files) (now : Z) : World := mkWorld (initialDisk fs0) now ∅.

(** The outcome of a check that has ended. *)
Definition result (w : World) (sid : nat) : option (Check * (string + RenewalResult)) :=
  match checks w !! sid with
  | Some c => match rest c with Ret a => Some (c, inr a) | Throw e => Some (c, inl e) | _ => None end
  | None => None
  end.

(** C30: in every run of overlapping checks, refused or failing requests and power
    losses in which no temporary name is opened twice at once (two writers of one file
    in the same millisecond would tear it), on files that are on disk, a check that
    has ended (1) found the certificate not due and asked the outside for nothing; or
    (2) was issued a certificate whose files were all written, announced it and found
    its status again; or (3) failed somewhere, announced that as critical exactly in
    the emergency window and returned the error; it throws only before it has asked
    the outside for anything, or with the error of its rejected alert.  Whatever such a check counts as written
    is in effect under its name, as long as the process lives; a power loss may undo
    it.  Every file holds all of what the last write in effect was given. *)
Theorem renewal_outcomes fs0 now evs :
  wellFormed fs0 -> durable fs0 -> orderlyRun (boot fs0 now) evs = true ->
  let w := foldl worldStep (boot fs0 now) evs in
  (forall sid c r, result w sid = Some (c, r) ->
     outcomeOk (manager c) (trace c) r /\
     forall l ids, Wrote l ids (inr tt) ∈ trace c ->
       Forall2 (fun j n => jobs (disk w) !! n = Some j /\ n ∈ installed (disk w)) l ids) /\
  (forall p, temporary p = false ->
     readFile p (files (disk w)) = contents (jobs (disk w)) (installed (disk w)) p (readFile p fs0)).
Proof.
  intros Hwf Hd Ho. cbn zeta. assert (HI0 : WorldInv fs0 (boot fs0 now)).
  { split; cbn; [by apply DiskInv_initial|]. intros sid c. by rewrite lookup_empty. }
  pose proof (world_run fs0 evs _ HI0 Ho) as HI. set (w := foldl worldStep _ evs) in *. clearbody w.
  split; [|apply (disk_contents _ _ (world_disk _ _ HI))]. intros sid c r Hr. unfold result in Hr.
  destruct (checks w !! sid) as [c'|] eqn:Hc; [|done].
  destruct (world_checks _ _ HI sid c' Hc) as (_ & H2 & H3 & _). split.
  - destruct (rest c'); try done; by injection Hr as <- <-.
  - assert (c' = c) as -> by (destruct (rest c'); try done; by injection Hr). intros l ids Hin.
    eapply Forall2_impl; [by apply H3|]. intros j n [Hn Hs]. unfold jobs. rewrite list_lookup_fmap, Hs. split; [done|].
    pose proof (disk_stages _ _ (world_disk _ _ HI) n _ Hs) as Hi. apply elem_of_app in Hi as [Hi|Hi]; [done|by destruct Hn].
Qed.
End world.

(** ** Days *)

(** up to 150,000 years away the days left are the whole days, rounded down:
    the doubles of the code make no difference. *)
Theorem days_exact expires now :
  Z.abs (expires - now) < 5 * 10 ^ 15 -> Z.abs expires < 2 ^ 53 -> Z.abs now < 2 ^ 53 ->
  daysUntil expires now = int ((expires - now) / DAY_MS).
Proof.
  intros Hd He Hn. unfold daysUntil, num_sub, num_add, num_neg. cbn [int].
  destruct (to_double_exact (inject_Z expires + - inject_Z now)) as (r & -> & Hr).
  { assert (E : (inject_Z expires + - inject_Z now == inject_Z (expires - now))%Q) by (unfold Qeq; cbn; lia).
    rewrite E. apply is_double_Z. lia. }
  unfold num_div, int. change (is_zero (inject_Z DAY_MS)) with false. cbn iota.
  set (k := (expires - now) / DAY_MS). set (d := expires - now) in *.
  assert (Hk : DAY_MS * k <= d < DAY_MS * k + DAY_MS).
  { pose proof (Z.mul_div_le d DAY_MS ltac:(done)). pose proof (Z.mod_pos_bound d DAY_MS ltac:(done)).
    pose proof (Z.div_mod d DAY_MS ltac:(done)). unfold k. lia. }
  change DAY_MS with 86400000 in Hk.
  assert (Hq : (r / inject_Z DAY_MS == d # 86400000)%Q).
  { rewrite Hr. unfold Qdiv, Qeq, d.
    change (/ inject_Z DAY_MS)%Q with (1 # 86400000)%Q. cbn. lia. }
  destruct (to_double_between (inject_Z k) (((k + 1) * 134217728 - 1) # 134217728) (r / inject_Z DAY_MS))
    as (x & -> & Hlo & Hhi).
  - apply is_double_Z. lia.
  - exists ((k + 1) * 134217728 - 1), (-27). split_and!; [lia..|]. change (pow2 (- -27)) with 134217728. change (pow2 (-27)) with 1. cbn [Qnum Qden]. lia.
  - rewrite Hq. unfold Qle. cbn. lia.
  - rewrite Hq. unfold Qle. cbn [Qnum Qden]. lia.
  - unfold floor, int. do 2 f_equal. apply Qfloor_resp_le in Hlo, Hhi. rewrite Qfloor_Z in Hlo.
    unfold Qfloor at 2 in Hhi. rewrite <- (Z.div_unique_pos _ _ k 134217727) in Hhi by lia. lia.
Qed.

(** ** Concrete runs *)

Module Examples.
Local Open Scope string_scope.
Local Open Scope list_scope.

Definition st : CertificateStore := new_CertificateStore "/c/cert.pem" "/c/key.pem" None None.
Definition m : RenewalManager := new_RenewalManager st None None.

(** The old certificate ends in ten days, the new one in ninety. *)
Definition validTo (pem : string) : option Z :=
  if String.eqb pem (String "o" (String NEWLINE "")) then Some (10 * DAY_MS)
  else if String.eqb pem (String "n" (String NEWLINE "")) then Some (90 * DAY_MS) else None.

Definition oldFiles : Files :=
  mkFiles {["/c/cert.pem" := 0%nat; "/c/key.pem" := 1%nat]}
    {[0%nat := mkInode (String "o" (String NEWLINE "")) 420 true;
      1%nat := mkInode (String "k" (String NEWLINE "")) 384 true]} 2.

Definition issued : StoredCertificate := mkCertificate "n" "l" None.

Definition oks (k : nat) : list WorldEvent := replicate k (Answer 1 Ok).
Definition disks (n k : nat) : list WorldEvent := replicate k (OnDisk n 7 None).

(** Status, issue, both writes, status, alert. *)
Definition renewal : list WorldEvent :=
  [StartCheck 1 m] ++ oks 3 ++ [Answer 1 (Grants issued)] ++ oks 1 ++ disks 0 7 ++ disks 1 7 ++ oks 1 ++ oks 4.

(** The certificate is replaced, its key is not. *)
Definition halfRenewal : list WorldEvent :=
  [StartCheck 1 m] ++ oks 3 ++ [Answer 1 (Grants issued)] ++ oks 1 ++ disks 0 7 ++
  disks 1 2 ++ [OnDisk 1 7 (Some ("ENOSPC", 0%nat))] ++ disks 1 1 ++ oks 1 ++ oks 4.

Lemma half_renewal_keeps_nothing :
  let w := foldl (worldStep validTo 18) (boot oldFiles 0) halfRenewal in
  (option_map snd (result w 1) = Some (inr (mkResult true false (Some (90 * DAY_MS)) (Some "ENOSPC")))) /\
  readFile "/c/cert.pem" (files (disk w)) = Some (String "n" (String NEWLINE "")) /\
  readFile "/c/key.pem" (files (disk w)) = Some (String "k" (String NEWLINE "")).
Proof. vm_compute. by split_and!. Qed.

(** Everything is renewed, but the alert that says so is not delivered. *)
Definition unannounced : list WorldEvent :=
  [StartCheck 1 m] ++ oks 3 ++ [Answer 1 (Grants issued)] ++ oks 1 ++ disks 0 7 ++ disks 1 7 ++ oks 1 ++
  oks 3 ++ [Answer 1 (Fails "pager")] ++ oks 4.

Lemma renewed_but_reported_as_failed :
  let w := foldl (worldStep validTo 18) (boot oldFiles 0) unannounced in
  (option_map snd (result w 1) = Some (inr (mkResult true false (Some (90 * DAY_MS)) (Some "pager")))) /\
  readFile "/c/key.pem" (files (disk w)) = Some (String "l" (String NEWLINE "")).
Proof. vm_compute. by split_and!. Qed.

Lemma oldFiles_ok : wellFormed oldFiles /\ durable oldFiles.
Proof.
  split; [split_and!|].
  - intros p i. unfold oldFiles. cbn. rewrite lookup_insert_Some, lookup_singleton_Some. intros [[<- <-]|[_ [<- <-]]]; by eexists.
  - intros p q i. unfold oldFiles. cbn. rewrite !lookup_insert_Some, !lookup_singleton_Some. naive_solver.
  - intros i. unfold oldFiles. cbn. rewrite lookup_insert_is_Some, lookup_singleton_is_Some. lia.
  - intros p n _. unfold lookupFile, oldFiles. cbn. destruct (_ !! p) as [i|]; [|done].
    rewrite lookup_insert_Some, lookup_singleton_Some. intros [[<- <-]|[_ [<- <-]]]; done.
Qed.

Lemma renewal_outcomes_witness :
  let w := foldl (worldStep validTo 18) (boot oldFiles 0) renewal in
  (option_map snd (result w 1) = Some (inr (mkResult true true (Some (90 * DAY_MS)) None))) /\
  readFile "/c/key.pem" (files (disk w)) = Some (String "l" (String NEWLINE "")).
Proof.
  cbn zeta. split; [vm_compute; reflexivity|].
  destruct (renewal_outcomes validTo 18 oldFiles 0 renewal (proj1 oldFiles_ok) (proj2 oldFiles_ok)
    ltac:(vm_compute; reflexivity)) as [_ H].
  rewrite (H "/c/key.pem" ltac:(reflexivity)). vm_compute. reflexivity.
Defined.

Lemma days_exact_witness : daysUntil (10 * DAY_MS - 1) 0 = int 9.
Proof. rewrite (days_exact (10 * DAY_MS - 1) 0); [reflexivity|vm_compute; reflexivity..]. Defined.
End Examples.
