(* ===== verification/CertificateService.v ===== *)
(** * Around the renewal of certificates ([src/src/tls/acme_rotation.ts])

    [Reloader]: the TLS context in use and its debounced reload; the files are read
    one after another while writers may run, so that the outcome of a load is an
    argument.  [Lifecycle]: the manager of several services and its metrics, over
    the traces of their checks.  [Challenge]: the files that answer HTTP-01
    challenges.  [Bootstrap]: the settings read from the environment or the
    configuration.

    [reloader_keeps_good_context], [lifecycle_metrics_account],
    [challenges_confined], [bootstrap_settings]. *)

From Stdlib Require Import ZArith Lia Ascii String QArith.
From stdpp Require Import base list strings gmap.
From S2P Require Import Prelude Js Text Number AtomicFiles Certificates.
#[local] Open Scope Z_scope.

(** ** [TlsCertificateReloader] *)

Module Reloader.

(** A secure context: certificate, key and chain that OpenSSL took together. *)
Record Context := mkContext { x_cert : string; x_key : string; x_ca : option string }.

(** [tls.createSecureContext]: the error it throws, if any. *)
Definition Checker : Type := string -> string -> option string -> option string.

(** [loadSecureContext()]: one read after another, each of the disk as it is then. *)
Definition loadSecureContext (rejects : Checker) (st : CertificateStore) (fsCert fsKey fsChain : Files) :
    string + Context :=
  match readFile (certPath st) fsCert, readFile (keyPath st) fsKey with
  | Some cert, Some key =>
      let ca := match chainPath st with
                | Some p => if falsy p then None else readFile p fsChain
                | None => None
                end in
      match rejects cert key ca with
      | Some e => inl e
      | None => inr (mkContext cert key ca)
      end
  | _, _ => inl ENOENT
  end.

Record State := mkState {
  currentContext : option Context;
  watchers : list string;                  (* the directories watched *)
  timer : bool;                            (* a reload is due *)
  reloads : list Context                   (* onReload, newest first *)
}.

Definition new_Reloader : State := mkState None [] false [].

Definition loadInitial (load : string + Context) (s : State) : State * (string + Context) :=
  match load with
  | inl e => (s, inl e)
  | inr c => (mkState (Some c) (watchers s) (timer s) (reloads s), inr c)
  end.

Definition getContext (load : string + Context) (s : State) : State * (string + Context) :=
  match currentContext s with
  | None => loadInitial load s
  | Some c => (s, inr c)
  end.

(** [SNICallback(name, callback)]: what the callback gets. *)
Definition SNICallback (load : string + Context) (s : State) : State * (string + Context) := getContext load s.

Definition start (st : CertificateStore) (dirname : string -> string) (s : State) : State :=
  match watchers s with
  | _ :: _ => s
  | [] =>
      let dirs := new_Set [dirname (certPath st); dirname (keyPath st)] in
      let dirs := match chainPath st with
                  | Some p => if falsy p then dirs else set_add (dirname p) dirs
                  | None => dirs
                  end in
      mkState (currentContext s) dirs (timer s) (reloads s)
  end.

Definition stop (s : State) : State := mkState (currentContext s) [] false (reloads s).

(** A watcher calls [scheduleReload]: the timer before is replaced. *)
Definition scheduleReload (s : State) : State :=
  mkState (currentContext s) (watchers s) true (reloads s).

(** What the timer's callback does with an error: [onError], then [emit('error')],
    which throws out of the callback, and ends the process, if nobody listens. *)
Inductive Fired := Reloaded (c : Context) | Reported (e : string) | ProcessEnds (e : string) | NotDue.

Definition fireTimer (errorListeners : nat) (load : string + Context) (s : State) : State * Fired :=
  if timer s then
    match load with
    | inr c => (mkState (Some c) (watchers s) false (c :: reloads s), Reloaded c)
    | inl e =>
        (mkState (currentContext s) (watchers s) false (reloads s),
         match errorListeners with O => ProcessEnds e | S _ => Reported e end)
    end
  else (s, NotDue).

Inductive Event :=
  | LoadInitial (load : string + Context)
  | GetContext (load : string + Context)
  | Start (st : CertificateStore) (dirname : string -> string)
  | Stop
  | Changed                                 (* in a watched directory *)
  | Fire (errorListeners : nat) (load : string + Context).

Definition step (s : State) (ev : Event) : State :=
  match ev with
  | LoadInitial load => (loadInitial load s).1
  | GetContext load => (getContext load s).1
  | Start st dirname => start st dirname s
  | Stop => stop s
  | Changed => match watchers s with [] => s | _ => scheduleReload s end
  | Fire n load => (fireTimer n load s).1
  end.

Definition run (evs : list Event) : State := foldl step new_Reloader evs.

(** The load of an event, when it takes place and succeeds. *)
Definition loaded (s : State) (ev : Event) : option Context :=
  match ev with
  | LoadInitial (inr c) => Some c
  | GetContext (inr c) => match currentContext s with None => Some c | Some _ => None end
  | Fire _ (inr c) => if timer s then Some c else None
  | _ => None
  end.

(** The last of them. *)
Fixpoint lastLoaded (s : State) (evs : list Event) (found : option Context) : option Context :=
  match evs with
  | [] => found
  | ev :: evs' => lastLoaded (step s ev) evs' (match loaded s ev with Some c => Some c | None => found end)
  end.

Lemma step_current s ev :
  currentContext (step s ev) = match loaded s ev with Some c => Some c | None => currentContext s end.
Proof.
  destruct s as [cur ws t rs], ev as [[e|c]|[e|c]|st dirname| | |n [e|c]]; cbn; try done.
  - unfold getContext. by destruct cur.
  - unfold getContext. by destruct cur.
  - by destruct ws.
  - by destruct ws.
  - unfold fireTimer. cbn. by destruct t.
  - unfold fireTimer. cbn. by destruct t.
Qed.

(** in every run the context handed out is that of the last load that took
    place and succeeded; a load that fails changes nothing; once there is a context
    there always is one, and then [getContext] and [SNICallback] answer it without
    reading a file; and a stopped reloader reloads no more. *)
Theorem reloader_keeps_good_context evs :
  currentContext (run evs) = lastLoaded new_Reloader evs None /\
  (forall c, currentContext (run evs) = Some c ->
     (forall load, SNICallback load (run evs) = (run evs, inr c)) /\
     (forall evs', is_Some (currentContext (run (evs ++ evs'))))) /\
  (forall evs' : list Event, Forall (fun ev => match ev with Changed | Fire _ _ => True | _ => False end) evs' ->
     run (evs ++ Stop :: evs') = stop (run evs)).
Proof.
  assert (Hrun : forall evs s found, currentContext s = found ->
    currentContext (foldl step s evs) = lastLoaded s evs found).
  { clear evs. induction evs as [|ev evs IH]; intros s found Hs; cbn; [done|]. apply IH.
    rewrite step_current, Hs. done. }
  split_and!; [by apply Hrun| |].
  - intros c Hc. split.
    + intros load. unfold SNICallback, getContext. by rewrite Hc.
    + intros evs'. unfold run in *. rewrite foldl_app. revert c Hc. generalize (foldl step new_Reloader evs).
      induction evs' as [|ev evs' IH]; intros s c Hc; [by exists c|]. cbn.
      destruct (loaded s ev) as [c'|] eqn:E; [apply (IH _ c')|apply (IH _ c)]; by rewrite step_current, E.
  - intros evs' HF. unfold run. rewrite foldl_app. cbn.
    induction HF as [|ev evs' Hev HF IH]; [done|]. cbn. by destruct ev.
Qed.

End Reloader.

(** ** [CertLifecycleMetrics], [CertLifecycleManager] *)

Module Lifecycle.

Record CertLifecycleMetrics := mkMetrics {
  expiryDaysGauge : jsmap string number;
  renewalAttempts : jsmap string Z;
  renewalSuccesses : jsmap string Z;
  renewalFailures : jsmap string Z
}.

Definition new_CertLifecycleMetrics : CertLifecycleMetrics := mkMetrics ∅ ∅ ∅ ∅.

Definition increment (service : string) (counter : jsmap string Z) : jsmap string Z :=
  <[service := default 0 (counter !! service) + 1]> counter.

Definition setExpiryDays (service : string) (days : number) (x : CertLifecycleMetrics) : CertLifecycleMetrics :=
  mkMetrics (<[service := days]> (expiryDaysGauge x)) (renewalAttempts x) (renewalSuccesses x) (renewalFailures x).
Definition recordRenewalAttempt (service : string) (x : CertLifecycleMetrics) : CertLifecycleMetrics :=
  mkMetrics (expiryDaysGauge x) (increment service (renewalAttempts x)) (renewalSuccesses x) (renewalFailures x).
Definition recordRenewalSuccess (service : string) (x : CertLifecycleMetrics) : CertLifecycleMetrics :=
  mkMetrics (expiryDaysGauge x) (renewalAttempts x) (increment service (renewalSuccesses x)) (renewalFailures x).
Definition recordRenewalFailure (service : string) (x : CertLifecycleMetrics) : CertLifecycleMetrics :=
  mkMetrics (expiryDaysGauge x) (renewalAttempts x) (renewalSuccesses x) (increment service (renewalFailures x)).

Definition getExpiryDays (service : string) (x : CertLifecycleMetrics) : option number := expiryDaysGauge x !! service.
Definition isAlertingForService (service : string) (x : CertLifecycleMetrics) : bool :=
  match getExpiryDays service x with Some days => num_lt days (int CERT_ALERT_DAYS) | None => false end.

(** The store of a service under its root. *)
Definition serviceStore (root service : string) : CertificateStore :=
  let dir := root +:+ "/" +:+ service +:+ "/" in
  new_CertificateStore (dir +:+ "cert.pem") (dir +:+ "key.pem") (Some (dir +:+ "chain.pem")) None.

Record ManagedService := mkService {
  service : string;
  svc_certsRoot : option string;
  svc_renewBeforeDays : option number;
  svc_emergencyNotifyDays : option number
}.

(** The constructor: a service named twice has the last of its managers, in the
    place of the first. *)
Definition new_managers (certsRoot : option string) (services : list ManagedService) : jsmap string RenewalManager :=
  foldl (fun ms svc =>
    let root := default (default DEFAULT_CERTS_ROOT certsRoot) (svc_certsRoot svc) in
    <[service svc := new_RenewalManager (serviceStore root (service svc)) (svc_renewBeforeDays svc)
                       (svc_emergencyNotifyDays svc)]> ms) ∅ services.

(** The alert of the metrics callback. *)
Definition expiryAlert (emergencyNotifyDays value : number) : option Severity :=
  if num_lt value (int CERT_ALERT_DAYS)
  then Some (if num_lt value emergencyNotifyDays then critical else warning) else None.

Definition onMetric (svc : string) (o : Output) (x : CertLifecycleMetrics) : CertLifecycleMetrics :=
  match o with
  | Metric name value => if String.eqb name "tls_certificate_days_remaining" then setExpiryDays svc value x else x
  | _ => x
  end.

(** What a check told its manager, in order. *)
Definition told (tr : list Entry) : list Output :=
  omap (fun e => match e with Told o => Some o | _ => None end) tr.

(** A check of one service, from the trace and the outcome of its manager's
    [checkOnce]. *)
Definition checkServiceOnce (svc : string) (tr : list Entry) (r : string + RenewalResult) (x : CertLifecycleMetrics) :
    CertLifecycleMetrics * RenewalResult :=
  let x := foldl (fun x o => onMetric svc o x) (recordRenewalAttempt svc x) (told tr) in
  match r with
  | inr res =>
      (if attempted res && renewed res then recordRenewalSuccess svc x
       else if attempted res && negb (renewed res) then recordRenewalFailure svc x else x, res)
  | inl e => (recordRenewalFailure svc x, mkResult true false None (Some e))
  end.

(** [checkAllOnce]: the services in turn. *)
Definition checkAllOnce (runs : list (string * list Entry * (string + RenewalResult))) (x : CertLifecycleMetrics) :
    CertLifecycleMetrics * list (string * RenewalResult) :=
  foldl (fun acc run =>
    let '(svc, tr, r) := run in
    let '(x', res) := checkServiceOnce svc tr r acc.1 in (x', acc.2 ++ [(svc, res)])) (x, []) runs.

(** [getServiceStatus] over [manager.status()] *)
Record ServiceCertStatus := mkServiceStatus {
  v_service : string;
  v_store : CertificateStore;
  v_status : CertificateStatus;
  alerting : bool
}.

Definition serviceStatus (svc : string) (m : RenewalManager) (st : CertificateStatus) : ServiceCertStatus :=
  mkServiceStatus svc (store m) st
    (match daysRemaining st with Some days => num_lt days (int CERT_ALERT_DAYS) | None => false end).

Definition getServiceStatus (managers : jsmap string RenewalManager) (svc : string)
    (status : RenewalManager -> string + CertificateStatus) : string + ServiceCertStatus :=
  match managers !! svc with
  | None => inl ("Unknown service: " +:+ svc)
  | Some m => match status m with inl e => inl e | inr st => inr (serviceStatus svc m st) end
  end.

(** *** What the counters say *)

Definition Run : Type := string * list Entry * (string + RenewalResult).

Definition countRuns (svc : string) (P : string + RenewalResult -> bool) (runs : list Run) : Z :=
  Z.of_nat (length (filter (fun run : Run => run.1.1 = svc /\ P run.2 = true) runs)).

Definition succeeded (r : string + RenewalResult) : bool :=
  match r with inr res => attempted res && renewed res | inl _ => false end.
Definition failedRun (r : string + RenewalResult) : bool :=
  match r with inr res => attempted res && negb (renewed res) | inl _ => true end.

(** The days a service's checks reported last. *)
Definition lastDays (svc : string) (runs : list Run) : option number :=
  last (omap (fun o => match o with
                       | Metric name value => if String.eqb name "tls_certificate_days_remaining" then Some value else None
                       | _ => None
                       end)
         (mjoin ((fun run : Run => if String.eqb run.1.1 svc then told run.1.2 else []) <$> runs))).

Lemma increment_lookup svc s counter :
  default 0 (increment svc counter !! s) = default 0 (counter !! s) + (if decide (svc = s) then 1 else 0).
Proof.
  unfold increment. rewrite jsmap_lookup_insert. case_decide as E; [subst s; cbn; lia|lia].
Qed.

Lemma onMetric_counters svc o x :
  renewalAttempts (onMetric svc o x) = renewalAttempts x /\
  renewalSuccesses (onMetric svc o x) = renewalSuccesses x /\
  renewalFailures (onMetric svc o x) = renewalFailures x.
Proof. unfold onMetric. destruct o; try done. by destruct (String.eqb _ _). Qed.

Lemma onMetrics_counters svc l x :
  let x' := foldl (fun x o => onMetric svc o x) x l in
  renewalAttempts x' = renewalAttempts x /\ renewalSuccesses x' = renewalSuccesses x /\
  renewalFailures x' = renewalFailures x.
Proof.
  revert x. induction l as [|o l IH]; intros x; [done|]. cbn.
  destruct (IH (onMetric svc o x)) as (-> & -> & ->). apply onMetric_counters.
Qed.

Definition daysOf (o : Output) : option number :=
  match o with
  | Metric name value => if String.eqb name "tls_certificate_days_remaining" then Some value else None
  | _ => None
  end.

Lemma onMetrics_gauge svc s l x :
  expiryDaysGauge (foldl (fun x o => onMetric svc o x) x l) !! s =
  if String.eqb svc s then match last (omap daysOf l) with Some v => Some v | None => expiryDaysGauge x !! s end
  else expiryDaysGauge x !! s.
Proof.
  induction l as [|o l IH] using rev_ind; [by destruct (String.eqb svc s)|].
  rewrite foldl_app, omap_app, last_app. cbn [foldl]. set (x' := foldl _ x l) in *.
  assert (H : expiryDaysGauge (onMetric svc o x') !! s =
    match daysOf o with Some v => if String.eqb svc s then Some v else expiryDaysGauge x' !! s
                      | None => expiryDaysGauge x' !! s end).
  { unfold onMetric, daysOf. destruct o; try done. destruct (String.eqb name _); [|done]. cbn.
    rewrite jsmap_lookup_insert. destruct (String.eqb_spec svc s); by case_decide. }
  rewrite H. cbn. destruct (daysOf o) as [v|]; cbn; [|done]. by destruct (String.eqb svc s).
Qed.

Definition tally (runs : list Run) (x : CertLifecycleMetrics) : CertLifecycleMetrics :=
  foldl (fun x (run : Run) => (checkServiceOnce run.1.1 run.1.2 run.2 x).1) x runs.

Lemma checkServiceOnce_counts svc tr r x s :
  let x' := (checkServiceOnce svc tr r x).1 in
  let one (b : bool) := if decide (svc = s) then (if b then 1 else 0) else 0 in
  default 0 (renewalAttempts x' !! s) = default 0 (renewalAttempts x !! s) + one true /\
  default 0 (renewalSuccesses x' !! s) = default 0 (renewalSuccesses x !! s) + one (succeeded r) /\
  default 0 (renewalFailures x' !! s) = default 0 (renewalFailures x !! s) + one (failedRun r) /\
  expiryDaysGauge x' !! s =
    if String.eqb svc s then match last (omap daysOf (told tr)) with Some v => Some v | None => expiryDaysGauge x !! s end
    else expiryDaysGauge x !! s.
Proof.
  cbn zeta. unfold checkServiceOnce.
  destruct (onMetrics_counters svc (told tr) (recordRenewalAttempt svc x)) as (Ea & Es & Ef).
  pose proof (onMetrics_gauge svc s (told tr) (recordRenewalAttempt svc x)) as Hg.
  set (x1 := foldl _ _ _) in *. cbn in Ea, Es, Ef, Hg.
  destruct r as [e|[[] [] ex er]]; cbn; rewrite ?Ea, ?Es, ?Ef, ?increment_lookup;
    (split_and!; [..|exact Hg]); case_decide; lia.
Qed.

Lemma countRuns_snoc s P runs (run : Run) :
  countRuns s P (runs ++ [run]) =
  countRuns s P runs + (if decide (run.1.1 = s) then (if P run.2 then 1 else 0) else 0).
Proof.
  unfold countRuns. rewrite filter_app, length_app, Nat2Z.inj_add, filter_cons. f_equal.
  repeat case_decide; destruct (P run.2); naive_solver.
Qed.

Lemma checkAllOnce_tally runs x : (checkAllOnce runs x).1 = tally runs x.
Proof.
  unfold checkAllOnce, tally. induction runs as [|run runs IH] using rev_ind; [done|].
  rewrite !foldl_app. cbn. rewrite <- IH. destruct (foldl _ _ runs) as [y l]. cbn.
  destruct run as [[svc tr] r]. cbn. by destruct (checkServiceOnce svc tr r y).
Qed.

(** after any checks, in one [checkAllOnce] or several, of any services: each
    service's attempts count its checks, its successes those that renewed, its
    failures those that threw or tried and failed, so that successes and failures
    together never exceed attempts; its gauge holds the days it reported last and
    it alerts exactly while they are fewer than fourteen. *)
Theorem lifecycle_metrics_account (batches : list (list Run)) s :
  let x := foldl (fun x runs => (checkAllOnce runs x).1) new_CertLifecycleMetrics batches in
  let runs := mjoin batches in
  default 0 (renewalAttempts x !! s) = countRuns s (fun _ => true) runs /\
  default 0 (renewalSuccesses x !! s) = countRuns s succeeded runs /\
  default 0 (renewalFailures x !! s) = countRuns s failedRun runs /\
  default 0 (renewalSuccesses x !! s) + default 0 (renewalFailures x !! s) <= default 0 (renewalAttempts x !! s) /\
  getExpiryDays s x = lastDays s runs /\
  isAlertingForService s x = match lastDays s runs with Some d => num_lt d (int CERT_ALERT_DAYS) | None => false end.
Proof.
  assert (E : foldl (fun x runs => (checkAllOnce runs x).1) new_CertLifecycleMetrics batches =
              tally (mjoin batches) new_CertLifecycleMetrics).
  { induction batches as [|b bs IH] using rev_ind; [done|].
    rewrite foldl_app. cbn [foldl]. rewrite IH, checkAllOnce_tally, join_app. cbn. rewrite app_nil_r.
    unfold tally. by rewrite foldl_app. }
  cbn zeta. rewrite E. generalize (mjoin batches). clear batches E. intros runs.
  induction runs as [|run runs (IHa & IHs & IHf & IHle & IHg & _)] using rev_ind;
    [by unfold getExpiryDays, isAlertingForService, getExpiryDays, lastDays; cbn; rewrite !jsmap_lookup_empty|].
  unfold tally. rewrite foldl_app. cbn [foldl]. fold (tally runs new_CertLifecycleMetrics).
  destruct (checkServiceOnce_counts run.1.1 run.1.2 run.2 (tally runs new_CertLifecycleMetrics) s) as (Ha & Hs & Hf & Hg).
  set (x := tally runs _) in *. set (x' := (checkServiceOnce _ _ _ x).1) in *.
  assert (Hd : getExpiryDays s x' = lastDays s (runs ++ [run])).
  { unfold getExpiryDays in *. rewrite Hg, IHg. unfold lastDays. rewrite fmap_app, join_app, omap_app, last_app. cbn.
    rewrite app_nil_r. fold daysOf. by destruct (String.eqb run.1.1 s). }
  rewrite !countRuns_snoc. split_and!; [lia..| |done|].
  - rewrite Ha, Hs, Hf. assert (Hx : succeeded run.2 && failedRun run.2 = false) by (by destruct run.2 as [|[[] [] ? ?]]).
    destruct (succeeded run.2), (failedRun run.2); try done; case_decide; lia.
  - unfold isAlertingForService. by rewrite Hd.
Qed.
End Lifecycle.

(** ** [FileChallengeStore], [createAcmeChallengeHandler] *)

Module Challenge.

(** A character of [/^[A-Za-z0-9_-]+$/]. *)
Definition tokenChar (c : ascii) : bool :=
  let n := code c in
  ((65 <=? n)%nat && (n <=? 90)%nat) || ((97 <=? n)%nat && (n <=? 122)%nat) || is_digit c ||
  bool_decide (c = "_"%char) || bool_decide (c = "-"%char).

Definition validToken (token : string) : bool := negb (falsy token) && all_chars tokenChar token.

Definition validateChallengeToken (token : string) : string + unit :=
  if validToken token then inr tt else inl "invalid ACME challenge token".

Definition challengeDir (webroot : string) : string := webroot +:+ "/.well-known/acme-challenge".
Definition challengePath (webroot token : string) : string := challengeDir webroot +:+ "/" +:+ token.

(** [set]: the write it asks for. *)
Definition set (webroot token keyAuthorization : string) : string + Job :=
  match validateChallengeToken token with
  | inl e => inl e
  | inr _ => inr (mkJob (challengePath webroot token) keyAuthorization 420)
  end.

(** [remove] *)
Definition remove (webroot token : string) (fs : Files) : Files * (string + unit) :=
  match validateChallengeToken token with
  | inl e => (fs, inl e)
  | inr _ => (mkFiles (delete (challengePath webroot token) (names fs)) (inodes fs) (nextInode fs), inr tt)
  end.

(** [get], with the error of the read, if it is not ENOENT. *)
Definition get (webroot token : string) (failure : option string) (fs : Files) : string + option string :=
  match validateChallengeToken token with
  | inl e => inl e
  | inr _ => match failure with Some e => inl e | None => inr (readFile (challengePath webroot token) fs) end
  end.

(** The answer of the route: status code and body. *)
Definition challengeHandler (webroot token : string) (failure : option string) (fs : Files) : Z * string :=
  if falsy token then (400, "invalid challenge") else
  match get webroot token failure fs with
  | inl e => (400, e)
  | inr None => (404, "challenge not found")
  | inr (Some value) => (200, value)
  end.

Lemma tokenChar_plain c : tokenChar c = true -> c <> "/"%char /\ c <> "."%char.
Proof. intros H. split; intros ->; vm_compute in H; discriminate H. Qed.

Lemma cutLastSlash_lacks t : lacks "/" t = true -> cutLastSlash t = ("", t).
Proof.
  induction t as [|c t IH]; [done|]. rewrite lacks_String. intros [Hc Ht]. cbn. rewrite (IH Ht). cbn.
  by destruct (Ascii.eqb_spec c "/").
Qed.

Lemma cutLastSlash_app d t : lacks "/" t = true -> cutLastSlash (d +:+ String "/" t) = (d +:+ "/", t).
Proof.
  intros Ht. induction d as [|c d IH].
  - rewrite !app_Empty. cbn. by rewrite cutLastSlash_lacks.
  - rewrite !app_String. cbn. rewrite IH. by destruct d.
Qed.

Lemma token_lacks c t : c = "/"%char \/ c = "."%char -> all_chars tokenChar t = true -> lacks c t = true.
Proof.
  intros Hc. induction t as [|x t IH]; [done|]. rewrite all_chars_String, andb_true_iff, lacks_String.
  intros [Hx Ht]. destruct (tokenChar_plain x Hx). split; [|by apply IH]. destruct Hc; congruence.
Qed.

Lemma endsWith_tmp_lacks t : t <> "" -> lacks "." t = true -> forall d, temporary (d +:+ "/" +:+ t) = false.
Proof.
  assert (H0 : forall s, lacks "." s = true -> temporary s = false).
  { induction s as [|c s IH]; [done|]. rewrite lacks_String. intros [Hc Hs]. unfold temporary in *. cbn [endsWith].
    rewrite (IH Hs), orb_false_r. apply String.eqb_neq. intros [= -> _]. done. }
  intros Hne Ht d. induction d as [|c d IH].
  - rewrite app_Empty. apply H0. change ("/" +:+ t) with (String "/" t). by rewrite lacks_String.
  - rewrite app_String. unfold temporary in *. cbn [endsWith]. rewrite IH, orb_false_r. apply String.eqb_neq.
    intros [= -> E]. destruct d as [|c1 d]; [rewrite app_Empty in E; by injection E|].
    rewrite app_String in E. injection E as -> E. destruct d as [|c2 d]; [rewrite app_Empty in E; by injection E|].
    rewrite app_String in E. injection E as -> E. destruct d as [|c3 d]; [rewrite app_Empty in E; by injection E|].
    rewrite app_String in E. injection E as -> E. destruct d as [|c4 d]; [by rewrite app_Empty in E|done].
Qed.

(** a token that is accepted names one file, directly in the challenge
    directory, different from every other token's and never a temporary one; in any
    run of writes, what the route answers to it is the whole of what was stored
    for it last, with status 200, or 404; every other token gets 400 and touches no
    file. *)
Theorem challenges_confined umask webroot fs0 evs token :
  wellFormed fs0 -> durable fs0 -> orderly umask (initialDisk fs0) evs = true ->
  let d := foldl (diskStep umask) (initialDisk fs0) evs in
  let path := challengePath webroot token in
  if validToken token then
    cutLastSlash path = (challengeDir webroot +:+ "/", token) /\
    (forall token', challengePath webroot token' = path -> token' = token) /\
    (forall ka, set webroot token ka = inr (mkJob path ka 420) /\ orderlyEvent d (Begin (mkJob path ka 420)) = true) /\
    challengeHandler webroot token None (files d) =
      match contents (jobs d) (installed d) path (readFile path fs0) with
      | Some value => (200, value)
      | None => (404, "challenge not found")
      end
  else
    (forall failure fs, (challengeHandler webroot token failure fs).1 = 400) /\
    (forall ka, exists e, set webroot token ka = inl e) /\
    (forall fs, (remove webroot token fs).1 = fs).
Proof.
  intros Hwf Hd Ho. cbn zeta. set (d := foldl _ _ _).
  unfold set, remove, challengeHandler, get, validateChallengeToken.
  destruct (validToken token) eqn:Hv.
  - unfold validToken in Hv. rewrite andb_true_iff, negb_true_iff in Hv. destruct Hv as [Hne Hc].
    assert (Htmp : temporary (challengePath webroot token) = false).
    { apply endsWith_tmp_lacks; [by intros ->|]. apply token_lacks; [by right|done]. }
    split_and!.
    + apply cutLastSlash_app, token_lacks; [by left|done].
    + intros token' E. unfold challengePath in E. by do 2 apply app_inv_head_s in E.
    + intros ka. split; [done|]. unfold orderlyEvent. cbn [target]. by rewrite Htmp.
    + rewrite Hne. pose proof (disk_run fs0 umask evs _ (DiskInv_initial fs0 Hwf Hd) Ho) as HI.
      fold d in HI. rewrite (disk_contents _ _ HI _ Htmp). by destruct (contents _ _ _ _).
  - split_and!; [|by eexists|done]. intros failure fs. by destruct (falsy token).
Qed.
End Challenge.

(** ** [bootstrapTlsFromEnv], [bootstrapTlsFromConfig]: the settings *)

Module Bootstrap.

(** [Number.parseInt(raw, 10)] *)
Definition parseInt (raw : string) : number :=
  let s := trimStart raw in
  let '(negative, rest) :=
    match s with
    | String c s' => if bool_decide (c = "-"%char) then (true, s')
                     else if bool_decide (c = "+"%char) then (false, s') else (false, s)
    | EmptyString => (false, s)
    end in
  let digits := (span_digits rest).1 in
  if falsy digits then NaN
  else match radix_digits 10 0 digits with
       | Some z => to_double (inject_Z (if negative : bool then - z else z))
       | None => NaN
       end.

Definition intEnv (raw : option string) (fallback : Z) : number :=
  match raw with
  | None => int fallback
  | Some s =>
      if falsy s then int fallback
      else let parsed := parseInt s in
           if negb (isFinite parsed) || num_ge (int 0) parsed then int fallback else parsed
  end.

Definition readCsvEnv (raw : option string) : list string :=
  filter (fun s => falsy s = false) (trim <$> split "," (default "" raw)).

Record TlsSettings := mkSettings {
  domains : list string;
  email : string;
  t_store : CertificateStore;
  webroot : string;
  directoryUrl : string;
  accountKeyPath : string;
  termsOfServiceAgreed : bool;
  t_renewBeforeDays : number;
  t_emergencyNotifyDays : number;
  checkIntervalMs : number
}.

Definition present (o : option string) : option string :=
  match o with Some s => if falsy s then None else Some s | None => None end.

Definition DIRECTORY : string := "https://acme-v02.api.letsencrypt.org/directory".

(** What precedes the first check: [None] when TLS is not enabled. *)
Definition settingsFromEnv (env : string -> option string) (tmpdir : string) : option (string + TlsSettings) :=
  if negb (bool_decide (env "TLS_ACME_ENABLED" = Some "true")) then None else Some (
  let doms := readCsvEnv (env "TLS_DOMAINS") in
  match doms, present (env "TLS_ACME_EMAIL"), present (env "TLS_CERT_PATH"), present (env "TLS_KEY_PATH") with
  | _ :: _, Some email, Some certPath, Some keyPath =>
      inr (mkSettings doms email
        (new_CertificateStore certPath keyPath (env "TLS_CHAIN_PATH") None)
        (default (tmpdir +:+ "/verinode-acme") (env "TLS_ACME_WEBROOT"))
        (default DIRECTORY (env "TLS_ACME_DIRECTORY_URL"))
        (default (sibling keyPath "acme-account.key") (env "TLS_ACME_ACCOUNT_KEY_PATH"))
        (bool_decide (env "TLS_ACME_TERMS_AGREED" = Some "true"))
        (intEnv (env "TLS_RENEW_BEFORE_DAYS") DEFAULT_RENEW_BEFORE_DAYS)
        (intEnv (env "TLS_EMERGENCY_NOTIFY_DAYS") DEFAULT_EMERGENCY_NOTIFY_DAYS)
        (intEnv (env "TLS_RENEW_CHECK_INTERVAL_MS") DEFAULT_CHECK_INTERVAL_MS))
  | _, _, _, _ =>
      inl "TLS_ACME_ENABLED requires TLS_DOMAINS, TLS_ACME_EMAIL, TLS_CERT_PATH, and TLS_KEY_PATH"
  end).

(** The [tls] part of a configuration. *)
Record TlsConfig := mkTlsConfig {
  c_enabled : bool;                         (* acme.enabled === true *)
  c_domains : option (list string);
  c_email : option string;
  c_certPath : option string;
  c_keyPath : option string;
  c_chainPath : option string;
  c_webroot : option string;
  c_directoryUrl : option string;
  c_termsOfServiceAgreed : bool;
  c_renewBeforeDays : option number;
  c_emergencyNotifyDays : option number;
  c_checkIntervalMs : option number
}.

(** [manager]: the configuration, when its manager has been initialized. *)
Definition settingsFromConfig (manager : option TlsConfig) (env : string -> option string) (tmpdir : string) :
    option (string + TlsSettings) :=
  match manager with
  | None => settingsFromEnv env tmpdir
  | Some c =>
      if negb (c_enabled c) then None else Some (
      match default [] (c_domains c), present (c_email c), present (c_certPath c), present (c_keyPath c) with
      | (_ :: _) as doms, Some email, Some certPath, Some keyPath =>
          inr (mkSettings doms email
            (new_CertificateStore certPath keyPath (c_chainPath c) None)
            (default (tmpdir +:+ "/verinode-acme") (c_webroot c))
            (default DIRECTORY (c_directoryUrl c))
            (default (sibling keyPath "acme-account.key") (env "TLS_ACME_ACCOUNT_KEY_PATH"))
            (c_termsOfServiceAgreed c)
            (default (int 30) (c_renewBeforeDays c))
            (default (int 7) (c_emergencyNotifyDays c))
            (default (int 86400000) (c_checkIntervalMs c)))
      | _, _, _, _ => inl "ACME TLS requires domains, email, certPath, and keyPath"
      end)
  end.

(** The manager the bootstrap runs. *)
Definition bootstrapManager (s : TlsSettings) : RenewalManager :=
  new_RenewalManager (t_store s) (Some (t_renewBeforeDays s)) (Some (t_emergencyNotifyDays s)).

Definition positive (n : number) : Prop := isFinite n = true /\ num_lt (int 0) n = true.

Lemma intEnv_positive raw fallback : 0 < fallback -> positive (intEnv raw fallback).
Proof.
  intros Hf. assert (H0 : positive (int fallback)).
  { split; [done|]. unfold num_lt. cbn. unfold Qle_bool. cbn. apply negb_true_iff, Z.leb_gt. lia. }
  unfold intEnv. destruct raw as [s|]; [|done]. destruct (falsy s); [done|].
  destruct (negb _ || _) eqn:E; [done|]. rewrite orb_false_iff, negb_false_iff in E. destruct E as [E1 E2].
  split; [done|]. unfold num_lt. by destruct (parseInt s); cbn in *; rewrite ?E2.
Qed.

(** the bootstrap does nothing unless TLS is enabled; otherwise it goes on
    exactly when domains, address, certificate and key paths are all given, and
    then with those, and its thresholds and interval are positive numbers whatever
    the variables hold; otherwise it throws. *)
Theorem bootstrap_settings env tmpdir :
  let required := [env "TLS_ACME_EMAIL"; env "TLS_CERT_PATH"; env "TLS_KEY_PATH"] in
  let complete := readCsvEnv (env "TLS_DOMAINS") <> [] /\ Forall (fun o => is_Some (present o)) required in
  settingsFromConfig None env tmpdir = settingsFromEnv env tmpdir /\
  match settingsFromEnv env tmpdir with
  | None => env "TLS_ACME_ENABLED" <> Some "true"
  | Some (inl _) => env "TLS_ACME_ENABLED" = Some "true" /\ ~ complete
  | Some (inr s) =>
      env "TLS_ACME_ENABLED" = Some "true" /\ complete /\
      domains s = readCsvEnv (env "TLS_DOMAINS") /\
      [Some (email s); Some (certPath (t_store s)); Some (keyPath (t_store s))] = required /\
      positive (t_renewBeforeDays s) /\ positive (t_emergencyNotifyDays s) /\ positive (checkIntervalMs s)
  end.
Proof.
  cbn zeta. split; [done|]. unfold settingsFromEnv.
  destruct (decide (env "TLS_ACME_ENABLED" = Some "true")) as [He|He];
    [rewrite (bool_decide_true _ He)|by rewrite (bool_decide_false _ He)]. cbn [negb].
  assert (Hp : forall o, match present o with Some x => o = Some x | None => True end).
  { intros [x|]; [|done]. cbn. by destruct (falsy x). }
  pose proof (Hp (env "TLS_ACME_EMAIL")) as H1. pose proof (Hp (env "TLS_CERT_PATH")) as H2.
  pose proof (Hp (env "TLS_KEY_PATH")) as H3.
  destruct (readCsvEnv (env "TLS_DOMAINS")) as [|dom doms] eqn:Hdoms; [by split; [|intros [[] _]]|].
  assert (Hno : forall a b c, present a = None \/ present b = None \/ present c = None ->
    ~ Forall (fun o => is_Some (present o)) [a; b; c]).
  { intros a b c H. rewrite !Forall_cons. intros ([? Ha] & [? Hb] & [? Hc] & _). naive_solver congruence. }
  destruct (present (env "TLS_ACME_EMAIL")) as [em|] eqn:E1; [|by split; [|intros [_ HF]; eapply Hno; [|exact HF]; auto]].
  destruct (present (env "TLS_CERT_PATH")) as [cp|] eqn:E2; [|by split; [|intros [_ HF]; eapply Hno; [|exact HF]; auto]].
  destruct (present (env "TLS_KEY_PATH")) as [kp|] eqn:E3; [|by split; [|intros [_ HF]; eapply Hno; [|exact HF]; auto]].
  cbn [domains email t_store new_CertificateStore certPath keyPath t_renewBeforeDays t_emergencyNotifyDays checkIntervalMs].
  split_and!; [done|done| |done|by rewrite H1, H2, H3|by apply intEnv_positive..].
  repeat (apply Forall_cons; split); rewrite ?E1, ?E2, ?E3; eauto.
Qed.
End Bootstrap.

(** ** Concrete runs *)

Module Examples.
Import Reloader.
Local Open Scope string_scope.
Local Open Scope list_scope.
Import Certificates.Examples.

(** A key that does not belong to the certificate. *)
Definition rejects (cert key : string) (ca : option string) : option string :=
  if (String.eqb (substring 0 1 cert) "n" && String.eqb (substring 0 1 key) "k") then Some "key values mismatch" else None.

(** The watcher fires between the renames of certificate and key; the bootstrap
    listens to no 'error'. *)
Lemma reload_between_renames_ends_process :
  let fs := files (disk (foldl (worldStep validTo 18) (boot oldFiles 0) halfRenewal)) in
  let s := run [LoadInitial (loadSecureContext rejects st oldFiles oldFiles oldFiles);
                Start st (fun _ => "/c"); Changed] in
  (fireTimer 0 (loadSecureContext rejects st fs fs fs) s).2 = ProcessEnds "key values mismatch".
Proof. vm_compute. reflexivity. Qed.

Lemma reloader_keeps_good_context_witness :
  let c := mkContext "old" "k" None in
  run ([LoadInitial (inr c); Start st (fun _ => "/c"); Changed] ++ Stop :: [Fire 1 (inr (mkContext "n" "l" None))]) =
  stop (run [LoadInitial (inr c); Start st (fun _ => "/c"); Changed]).
Proof.
  apply (proj2 (proj2 (reloader_keeps_good_context
    [LoadInitial (inr (mkContext "old" "k" None)); Start st (fun _ => "/c"); Changed]))).
  repeat constructor.
Defined.

(** A check that finds nothing to renew counts as an attempt. *)
Lemma idle_check_is_an_attempt :
  let x := (Lifecycle.checkAllOnce [("api", [Told (Metric "tls_certificate_days_remaining" (int 60))],
              inr (mkResult false false None None))] Lifecycle.new_CertLifecycleMetrics).1 in
  Lifecycle.renewalAttempts x !! "api" = Some 1 /\ Lifecycle.renewalSuccesses x !! "api" = None /\
  Lifecycle.renewalFailures x !! "api" = None.
Proof. vm_compute. by split_and!. Qed.

Definition stored : list DiskEvent :=
  [Begin (mkJob "/srv/.well-known/acme-challenge/tok-1" "tok-1.key" 420)] ++
  replicate 7 (StepWriter 0 7 1 None).

Lemma challenges_confined_witness :
  let d := foldl (diskStep 18) (initialDisk AtomicFiles.Examples.empty_fs) stored in
  Challenge.challengeHandler "/srv" "tok-1" None (files d) = (200, "tok-1.key") /\
  (Challenge.challengeHandler "/srv" "../../etc/passwd" None (files d)).1 = 400.
Proof.
  assert (Hwf : wellFormed AtomicFiles.Examples.empty_fs).
  { split_and!; cbn; [intros p i|intros p q i|intros i]; rewrite lookup_empty; [done|done|by intros []]. }
  assert (Hd : durable AtomicFiles.Examples.empty_fs).
  { intros p n _. unfold lookupFile. cbn. by rewrite lookup_empty. }
  pose proof (Challenge.challenges_confined 18 "/srv" AtomicFiles.Examples.empty_fs stored "tok-1" Hwf Hd
    ltac:(vm_compute; reflexivity)) as H1.
  pose proof (Challenge.challenges_confined 18 "/srv" AtomicFiles.Examples.empty_fs stored "../../etc/passwd" Hwf Hd
    ltac:(vm_compute; reflexivity)) as H2.
  cbn zeta in *. split.
  - replace (Challenge.validToken "tok-1") with true in H1 by (vm_compute; reflexivity).
    destruct H1 as (_ & _ & _ & ->). vm_compute. reflexivity.
  - replace (Challenge.validToken "../../etc/passwd") with false in H2 by (vm_compute; reflexivity).
    apply H2.
Defined.
End Examples.
