(* ===== verification/KafkaScaling.v ===== *)
(** * Consumer lag monitoring and autoscaling
    ([src/src/queue/kafka_consumer_monitor.ts], [kafka_auto_scaler.ts])

    The monitor condenses the partitions of a consumer group into a summary and
    calls its listeners when the summary changed enough; the autoscaler is one of
    them and asks an external scaler for more or fewer consumers.  Every [await]
    splits a method: an evaluation in progress is a [Pending], and the answers of
    the admin client and of the scaler are events.  Offsets, hosts and log lines
    are left out; counts and lags are integers.

    A summary does not depend on how partitions are grouped
    ([summary_of_partitions]); targets stay within the configured bounds
    ([consumer_counts_bounded]); without overlapping requests the cooldown holds
    ([cooldown_between_scalings]); a lag that stands still wakes the autoscaler
    only once ([steady_lag_notifies_once]). *)

From Stdlib Require Import ZArith Lia Ascii String Sorted.
From stdpp Require Import base list strings gmap.
From S2P Require Import Prelude Js Text.

(** ** The monitor *)

Module Monitor.

Inductive ConsumerGroupStatus := healthy | warning | critical.
#[export] Instance ConsumerGroupStatus_eq_dec : EqDecision ConsumerGroupStatus.
Proof. solve_decision. Defined.

Record ConsumerGroupMetrics := mkMetrics { m_topic : string; m_lag : Z }.

Record ConsumerGroupSummary := mkSummary {
  groupId : string;
  topic : string;
  totalLag : Z;
  maxLag : Z;
  avgLag : Z;
  partitionCount : Z;
  laggingPartitions : Z;
  status : ConsumerGroupStatus;
  members : Z;
  timestamp : Z
}.
#[export] Instance ConsumerGroupSummary_eq_dec : EqDecision ConsumerGroupSummary.
Proof. solve_decision. Defined.

Record MonitorConfig := mkMonitorConfig {
  lagWarningThreshold : Z;
  lagCriticalThreshold : Z;
  checkIntervalMs : Z;
  partitionLagWarningThreshold : Z;
  partitionLagCriticalThreshold : Z
}.

Definition DEFAULT_CONFIG : MonitorConfig := mkMonitorConfig 1000 10000 15000 500 5000.

(** The fields of the monitor that checks use. *)
Abbreviation Summaries := (jsmap string ConsumerGroupSummary).

(** The answers of the admin client to one [checkAllGroups]: [None] when a call
    fails, for the list of groups or for one of them. *)
Abbreviation GroupAnswer := (string * option (list ConsumerGroupMetrics * Z * Z))%type.

Section monitor.
Context (config : MonitorConfig).

(** The partitions by topic, in order of first occurrence. *)
Definition topicMap (metrics : list ConsumerGroupMetrics) :
    jsmap string (list ConsumerGroupMetrics) :=
  foldl (fun topics m =>
           <[m_topic m := default [] (topics !! m_topic m) ++ [m]]> topics) ∅ metrics.

Record Totals := mkTotals { t_total : Z; t_max : Z; t_lagging : Z; t_count : Z }.

Definition countPartition (t : Totals) (p : ConsumerGroupMetrics) : Totals :=
  mkTotals (t_total t + m_lag p) (Z.max (t_max t) (m_lag p))
    (if partitionLagWarningThreshold config <? m_lag p then t_lagging t + 1 else t_lagging t)
    (t_count t + 1).

Definition countTopics (topics : jsmap string (list ConsumerGroupMetrics)) : Totals :=
  foldl (fun t partitions => foldl countPartition t partitions) (mkTotals 0 0 0 0)
    (map_values topics).

(** [Math.round(a / b)] for [b > 0] *)
Definition round_div (a b : Z) : Z := (2 * a + b) / (2 * b).

Definition determineStatus (total max lagging count : Z) : ConsumerGroupStatus :=
  if (lagCriticalThreshold config <=? total) || (partitionLagCriticalThreshold config <=? max)
  then critical
  else if (lagWarningThreshold config <=? total) || (partitionLagWarningThreshold config <=? max)
          || ((0 <? count) && (count <? 2 * lagging))
  then warning
  else healthy.

Definition summarize (g : string) (metrics : list ConsumerGroupMetrics) (memberCount now : Z) :
    ConsumerGroupSummary :=
  let topics := topicMap metrics in
  let t := countTopics topics in
  mkSummary g (join "," (map_keys topics)) (t_total t) (t_max t)
    (if 0 <? t_count t then round_div (t_total t) (t_count t) else 0)
    (t_count t) (t_lagging t)
    (determineStatus (t_total t) (t_max t) (t_lagging t) (t_count t)) memberCount now.

Definition changed (previous : option ConsumerGroupSummary) (summary : ConsumerGroupSummary) : bool :=
  match previous with
  | None => true
  | Some p => negb (bool_decide (status p = status summary))
              || (lagWarningThreshold config <? Z.abs (totalLag p - totalLag summary))
  end.

(** [checkGroup] after its two awaits: the summaries, and what listeners are
    called with. *)
Definition checkGroup (summaries : Summaries) (g : string) (metrics : list ConsumerGroupMetrics)
    (memberCount now : Z) :
    Summaries * option (ConsumerGroupSummary * option ConsumerGroupSummary) :=
  let summary := summarize g metrics memberCount now in
  let previous := summaries !! g in
  (<[g := summary]> summaries,
   if changed previous summary then Some (summary, previous) else None).

Fixpoint checkGroups (summaries : Summaries) (answers : list GroupAnswer) :
    Summaries * list ConsumerGroupSummary *
    list (ConsumerGroupSummary * option ConsumerGroupSummary) :=
  match answers with
  | [] => (summaries, [], [])
  | (g, None) :: rest => checkGroups summaries rest
  | (g, Some (metrics, memberCount, now)) :: rest =>
      let '(summaries', call) := checkGroup summaries g metrics memberCount now in
      let '(final, results, calls) := checkGroups summaries' rest in
      (final, summarize g metrics memberCount now :: results,
       match call with Some c => c :: calls | None => calls end)
  end.

Definition checkAllGroups (summaries : Summaries) (answers : option (list GroupAnswer)) :
    Summaries * list ConsumerGroupSummary *
    list (ConsumerGroupSummary * option ConsumerGroupSummary) :=
  match answers with
  | None => (summaries, [], [])
  | Some l => checkGroups summaries l
  end.

(** ** Summaries do not depend on the grouping *)

Lemma countPartition_comm t p q :
  countPartition (countPartition t p) q = countPartition (countPartition t q) p.
Proof.
  unfold countPartition. cbn. f_equal; [lia|lia| ].
  destruct (_ <? m_lag p), (_ <? m_lag q); lia.
Qed.

Lemma fold_countPartition_app t l p :
  foldl countPartition t (l ++ [p]) = countPartition (foldl countPartition t l) p.
Proof. by rewrite foldl_app. Qed.

Lemma fold_countPartition_first t l p :
  foldl countPartition (countPartition t p) l = countPartition (foldl countPartition t l) p.
Proof.
  revert t. induction l as [|q l IH]; intros t; [done|]. cbn. by rewrite countPartition_comm, IH.
Qed.

(** Adding a partition to its topic counts it once, wherever the topic stands. *)
Lemma countTopics_add (l : list (string * list ConsumerGroupMetrics)) k p t :
  foldl (foldl countPartition) t (assoc_set k (default [] (assoc_get k l) ++ [p]) l).*2 =
  countPartition (foldl (foldl countPartition) t l.*2) p.
Proof.
  revert t. induction l as [|[k' v] l IH]; intros t; [done|]. cbn [assoc_set assoc_get].
  destruct (decide (k = k')) as [->|Hne]; cbn.
  - rewrite fold_countPartition_app. generalize (foldl countPartition t v). clear.
    induction l as [|[k v'] l IH]; intros t; [done|]. cbn. rewrite <- IH. f_equal.
    apply fold_countPartition_first.
  - apply IH.
Qed.

Lemma countTopics_insert topics p :
  countTopics (<[m_topic p := default [] (topics !! m_topic p) ++ [p]]> topics) =
  countPartition (countTopics topics) p.
Proof. apply countTopics_add. Qed.

Lemma countTopics_topicMap metrics :
  countTopics (topicMap metrics) = foldl countPartition (mkTotals 0 0 0 0) metrics.
Proof.
  unfold topicMap.
  assert (H : forall topics t, countTopics topics = t ->
    countTopics (foldl (fun topics m =>
      <[m_topic m := default [] (topics !! m_topic m) ++ [m]]> topics) topics metrics) =
    foldl countPartition t metrics).
  { induction metrics as [|m metrics IH]; intros topics t Ht; [done|]. cbn.
    apply IH. by rewrite countTopics_insert, Ht. }
  by apply H.
Qed.

Lemma fold_countPartition_spec t l :
  foldl countPartition t l =
  mkTotals (t_total t + foldr Z.add 0 (m_lag <$> l)) (foldr Z.max (t_max t) (m_lag <$> l))
    (t_lagging t + Z.of_nat (length (filter (fun p => partitionLagWarningThreshold config < m_lag p) l)))
    (t_count t + Z.of_nat (length l)).
Proof.
  revert t. induction l as [|p l IH]; intros t; [destruct t; cbn; f_equal; lia|].
  cbn [foldl]. rewrite IH, filter_cons. unfold countPartition. cbn. f_equal; [lia| | |lia].
  - clear. generalize (m_lag <$> l). intros ls. induction ls as [|x ls IH]; cbn; lia.
  - destruct (Z.ltb_spec (partitionLagWarningThreshold config) (m_lag p));
      case_decide; cbn; lia.
Qed.

Lemma map_keys_topicMap metrics : map_keys (topicMap metrics) = new_Set (m_topic <$> metrics).
Proof.
  unfold topicMap, new_Set.
  assert (H : forall (topics : jsmap string (list ConsumerGroupMetrics)) acc, map_keys topics = acc ->
    map_keys (foldl (fun topics m =>
      <[m_topic m := default [] (topics !! m_topic m) ++ [m]]> topics) topics metrics) =
    foldl (fun acc x => set_add x acc) acc (m_topic <$> metrics)).
  { induction metrics as [|m metrics IH]; intros topics acc Ht; [done|]. cbn. apply IH.
    rewrite map_keys_insert, Ht. unfold set_add, set_has. by case_decide; case_bool_decide. }
  by apply H.
Qed.

Lemma round_div_spec a b : 0 < b -> 2 * Z.abs (b * round_div a b - a) <= b.
Proof.
  intros Hb. unfold round_div. pose proof (Z.div_mod (2 * a + b) (2 * b) ltac:(lia)).
  pose proof (Z.mod_pos_bound (2 * a + b) (2 * b) ltac:(lia)). nia.
Qed.

(** the summary of a group is that of its partitions taken one by one,
    whatever their topics: the sum and the maximum of their lags, their number,
    the number above the partition threshold, each topic once; the average is
    within one half; and the status is critical, warning or healthy by these
    numbers alone. *)
Theorem summary_of_partitions g metrics memberCount now :
  let lags := m_lag <$> metrics in
  let s := summarize g metrics memberCount now in
  totalLag s = foldr Z.add 0 lags /\
  maxLag s = foldr Z.max 0 lags /\
  partitionCount s = Z.of_nat (length metrics) /\
  laggingPartitions s =
    Z.of_nat (length (filter (fun p => partitionLagWarningThreshold config < m_lag p) metrics)) /\
  topic s = join "," (new_Set (m_topic <$> metrics)) /\
  2 * Z.abs (partitionCount s * avgLag s - (if bool_decide (metrics = []) then 0 else totalLag s))
    <= partitionCount s /\
  status s = determineStatus (totalLag s) (maxLag s) (laggingPartitions s) (partitionCount s).
Proof.
  intros lags s. unfold s, summarize. cbn zeta.
  rewrite countTopics_topicMap, map_keys_topicMap, fold_countPartition_spec.
  cbn [totalLag maxLag partitionCount laggingPartitions topic avgLag status t_total t_max t_lagging t_count].
  rewrite !Z.add_0_l. split_and!; try done.
  destruct metrics as [|m metrics]; [done|]. rewrite bool_decide_false by done.
  rewrite (proj2 (Z.ltb_lt _ _)) by (cbn [length]; lia). apply round_div_spec. cbn [length]. lia.
Qed.

(** *** When listeners are called *)

Lemma checkGroup_lookup summaries g metrics k now g' :
  (checkGroup summaries g metrics k now).1 !! g' =
  if decide (g = g') then Some (summarize g metrics k now) else summaries !! g'.
Proof. apply jsmap_lookup_insert. Qed.

(** The answers about [g] all give this status and total lag. *)
Definition steady (g : string) (st : ConsumerGroupStatus) (lag : Z) (answers : list GroupAnswer) : Prop :=
  forall metrics k now, (g, Some (metrics, k, now)) ∈ answers ->
    status (summarize g metrics k now) = st /\ totalLag (summarize g metrics k now) = lag.

Definition known (summaries : Summaries) (g : string) (st : ConsumerGroupStatus) (lag : Z) : Prop :=
  exists s, summaries !! g = Some s /\ status s = st /\ totalLag s = lag.

Lemma checkGroup_steady summaries g st lag g' metrics k now :
  0 <= lagWarningThreshold config -> known summaries g st lag ->
  steady g st lag [(g', Some (metrics, k, now))] ->
  known (checkGroup summaries g' metrics k now).1 g st lag /\
  (forall call, (checkGroup summaries g' metrics k now).2 = Some call -> groupId call.1 <> g).
Proof.
  intros Hth (s & Hs & Hst & Hl) Hsteady. unfold known. rewrite checkGroup_lookup. case_decide as Hg.
  - subst g'. destruct (Hsteady metrics k now) as [Hst' Hl']; [left|]. split; [by eexists|].
    unfold checkGroup. cbn [snd]. rewrite Hs. cbn [changed].
    rewrite bool_decide_true, Hl, Hl', Z.sub_diag by congruence. cbn.
    rewrite (proj2 (Z.ltb_ge _ _)) by (cbn; lia). done.
  - split; [by exists s|]. unfold checkGroup. cbn [snd]. case_match; [|done].
    by intros call [= <-].
Qed.

Lemma checkGroups_steady g st lag answers : forall summaries,
  0 <= lagWarningThreshold config -> known summaries g st lag -> steady g st lag answers ->
  let '(final, _, calls) := checkGroups summaries answers in
  known final g st lag /\ Forall (fun call => groupId call.1 <> g) calls.
Proof.
  induction answers as [|[g' [[[metrics k] now]|]] rest IH]; intros summaries Hth Hk Hsteady;
    cbn [checkGroups]; [done| |].
  - destruct (checkGroup_steady summaries g st lag g' metrics k now) as [Hk' Hcall]; [done..| |].
    { intros m' k' n' Hin. apply Hsteady. apply list_elem_of_singleton in Hin as ->. left. }
    destruct (checkGroup summaries g' metrics k now) as [sm call]. cbn [fst snd] in *.
    specialize (IH sm Hth Hk'). destruct (checkGroups sm rest) as [[final results] calls].
    destruct IH as [IH1 IH2]; [intros m' k' n' Hin; apply Hsteady; by right|]. split; [done|].
    destruct call as [c|]; [|done]. constructor; [by apply Hcall|done].
  - apply IH; [done..|]. intros m' k' n' Hin. apply Hsteady. by right.
Qed.
End monitor.
End Monitor.

(** ** The autoscaler *)

Module Scaler.
Import Monitor.

Record ScalerConfig := mkScalerConfig {
  minConsumers : Z;
  maxConsumers : Z;
  scaleUpThreshold : Z;
  scaleDownThreshold : Z;
  scaleUpBy : Z;
  scaleDownBy : Z;
  cooldownPeriodMs : Z;
  maxConsecutiveScaleDowns : Z
}.

Definition DEFAULT_CONFIG : ScalerConfig := mkScalerConfig 1 20 1000 100 2 1 60000 3.

Inductive Direction := up | down.

Record ScaleEvent := mkScaleEvent {
  e_groupId : string; e_direction : Direction; e_from : Z; e_to : Z;
  e_reason : string; e_timestamp : Z
}.

(** An evaluation at one of its awaits: for the number of consumers, known or
    asked for, and for the scaler. *)
Inductive Pending :=
  | AwaitCount (g : string) (lag : Z)
  | HaveCount (g : string) (lag count : Z)
  | AwaitScale (event : ScaleEvent).

Record AutoScaler := mkScaler {
  lastScaleTimes : jsmap string Z;
  consecutiveScaleDowns : jsmap string Z;
  currentConsumerCounts : jsmap string Z;
  isRunning : bool;
  scaleHistory : list ScaleEvent;
  pending : gmap nat Pending;
  nextId : nat;
  listening : nat;            (* registrations made by start *)
  scaleCallbacks : list nat;
  delivered : list (nat * ScaleEvent)   (* calls of scale listeners *)
}.

Definition new_AutoScaler : AutoScaler := mkScaler ∅ ∅ ∅ false [] ∅ 0 0 [] [].

Definition set_pending (s : AutoScaler) (p : gmap nat Pending) : AutoScaler :=
  mkScaler (lastScaleTimes s) (consecutiveScaleDowns s) (currentConsumerCounts s) (isRunning s)
    (scaleHistory s) p (nextId s) (listening s) (scaleCallbacks s) (delivered s).
Definition set_count (s : AutoScaler) (g : string) (n : Z) : AutoScaler :=
  mkScaler (lastScaleTimes s) (consecutiveScaleDowns s) (<[g := n]> (currentConsumerCounts s))
    (isRunning s) (scaleHistory s) (pending s) (nextId s) (listening s) (scaleCallbacks s) (delivered s).
Definition set_consecutive (s : AutoScaler) (g : string) (n : Z) : AutoScaler :=
  mkScaler (lastScaleTimes s) (<[g := n]> (consecutiveScaleDowns s)) (currentConsumerCounts s)
    (isRunning s) (scaleHistory s) (pending s) (nextId s) (listening s) (scaleCallbacks s) (delivered s).

Section scaler.
Context (config : ScalerConfig).

Definition start (s : AutoScaler) : AutoScaler :=
  if isRunning s then s else
  mkScaler (lastScaleTimes s) (consecutiveScaleDowns s) (currentConsumerCounts s) true
    (scaleHistory s) (pending s) (nextId s) (S (listening s)) (scaleCallbacks s) (delivered s).

Definition stop (s : AutoScaler) : AutoScaler :=
  mkScaler (lastScaleTimes s) (consecutiveScaleDowns s) (currentConsumerCounts s) false
    (scaleHistory s) (pending s) (nextId s) (listening s) (scaleCallbacks s) (delivered s).

Definition resetScaleHistory (s : AutoScaler) : AutoScaler :=
  mkScaler (lastScaleTimes s) (consecutiveScaleDowns s) (currentConsumerCounts s) (isRunning s)
    [] (pending s) (nextId s) (listening s) (scaleCallbacks s) (delivered s).

Definition set_callbacks (s : AutoScaler) (l : list nat) : AutoScaler :=
  mkScaler (lastScaleTimes s) (consecutiveScaleDowns s) (currentConsumerCounts s) (isRunning s)
    (scaleHistory s) (pending s) (nextId s) (listening s) l (delivered s).

(** [onScale(callback)] and the function it returns *)
Definition onScale (callback : nat) (s : AutoScaler) : AutoScaler :=
  set_callbacks s (scaleCallbacks s ++ [callback]).

Fixpoint remove_first (x : nat) (l : list nat) : list nat :=
  match l with
  | [] => []
  | y :: l' => if bool_decide (x = y) then l' else y :: remove_first x l'
  end.
Definition offScale (callback : nat) (s : AutoScaler) : AutoScaler :=
  set_callbacks s (remove_first callback (scaleCallbacks s)).

Definition getCurrentConsumerCount (s : AutoScaler) (g : string) : Z :=
  default 0 (currentConsumerCounts s !! g).

(** [evaluate(summary, previous)] up to its first await *)
Definition beginEvaluate (summary : ConsumerGroupSummary) (s : AutoScaler) : AutoScaler :=
  if negb (isRunning s) then s else
  let g := groupId summary in
  let p := match currentConsumerCounts s !! g with
           | Some cached => HaveCount g (totalLag summary) cached
           | None => AwaitCount g (totalLag summary)
           end in
  mkScaler (lastScaleTimes s) (consecutiveScaleDowns s) (currentConsumerCounts s) (isRunning s)
    (scaleHistory s) (<[nextId s := p]> (pending s)) (S (nextId s)) (listening s) (scaleCallbacks s) (delivered s).

(** [getConsumerCount] when the scaler answers; [None] is a rejection. *)
Definition countReply (id : nat) (answer : option Z) (s : AutoScaler) : AutoScaler :=
  match pending s !! id with
  | Some (AwaitCount g lag) =>
      match answer with
      | Some count => set_pending (set_count s g count) (<[id := HaveCount g lag count]> (pending s))
      | None => set_pending s (<[id := HaveCount g lag 0]> (pending s))
      end
  | _ => s
  end.

Definition upReason (lag : Z) : string :=
  "totalLag " +:+ print_Z lag +:+ " >= scaleUpThreshold " +:+ print_Z (scaleUpThreshold config).
Definition downReason (lag : Z) : string :=
  "totalLag " +:+ print_Z lag +:+ " <= scaleDownThreshold " +:+ print_Z (scaleDownThreshold config).

(** The direction, and the new number of consecutive scale-downs if it is set. *)
Definition direction_of (lag count consecutiveDown : Z) : option (Direction * string) * option Z :=
  if (scaleUpThreshold config <=? lag) && (count <? maxConsumers config)
  then (Some (up, upReason lag), None)
  else if (lag <=? scaleDownThreshold config) && (minConsumers config <? count) then
    if consecutiveDown <? maxConsecutiveScaleDowns config
    then (Some (down, downReason lag), Some (consecutiveDown + 1))
    else (None, None)
  else (None, Some 0).

Definition target (direction : Direction) (from : Z) : Z :=
  match direction with
  | up => Z.min (from + scaleUpBy config) (maxConsumers config)
  | down => Z.max (from - scaleDownBy config) (minConsumers config)
  end.

(** [evaluate] from the consumer count to the call of the scaler *)
Definition decideScaling (id : nat) (now : Z) (s : AutoScaler) : AutoScaler :=
  match pending s !! id with
  | Some (HaveCount g lag count) =>
      let done_ s := set_pending s (delete id (pending s)) in
      if count =? 0 then done_ s else
      if now - default 0 (lastScaleTimes s !! g) <? cooldownPeriodMs config then done_ s else
      let '(direction, consecutive) :=
        direction_of lag count (default 0 (consecutiveScaleDowns s !! g)) in
      let s := match consecutive with Some n => set_consecutive s g n | None => s end in
      match direction with
      | None => done_ s
      | Some (d, reason) =>
          let to := target d count in
          if to =? count then done_ s
          else set_pending s (<[id := AwaitScale (mkScaleEvent g d count to reason now)]> (pending s))
      end
  | _ => s
  end.

(** The last hundred events. *)
Definition pushHistory (event : ScaleEvent) (h : list ScaleEvent) : list ScaleEvent :=
  let h' := h ++ [event] in
  if (100 <? Z.of_nat (length h')) then tail h' else h'.

(** [evaluate] after [scaleConsumerGroup] *)
Definition scaleReply (id : nat) (accepted : bool) (s : AutoScaler) : AutoScaler :=
  match pending s !! id with
  | Some (AwaitScale e) =>
      if accepted then
        mkScaler (<[e_groupId e := e_timestamp e]> (lastScaleTimes s)) (consecutiveScaleDowns s)
          (<[e_groupId e := e_to e]> (currentConsumerCounts s)) (isRunning s)
          (pushHistory e (scaleHistory s)) (delete id (pending s)) (nextId s) (listening s)
          (scaleCallbacks s) (delivered s ++ ((fun cb => (cb, e)) <$> scaleCallbacks s))
      else set_pending s (delete id (pending s))
  | _ => s
  end.

(** ** The event loop *)

Inductive Event :=
  | Start | Stop | Reset
  | OnScale (callback : nat) | OffScale (callback : nat)
  | Lag (summary : ConsumerGroupSummary)
  | CountReply (id : nat) (answer : option Z)
  | Decide (id : nat) (now : Z)
  | ScaleReply (id : nat) (accepted : bool).

Definition step (s : AutoScaler) (ev : Event) : AutoScaler :=
  match ev with
  | Start => start s
  | Stop => stop s
  | Reset => resetScaleHistory s
  | OnScale cb => onScale cb s
  | OffScale cb => offScale cb s
  | Lag summary => beginEvaluate summary s
  | CountReply id answer => countReply id answer s
  | Decide id now => decideScaling id now s
  | ScaleReply id accepted => scaleReply id accepted s
  end.

Definition run (evs : list Event) : AutoScaler := foldl step new_AutoScaler evs.

(** *** Bounds *)

Definition in_range (n : Z) : Prop := minConsumers config <= n <= maxConsumers config.

(** The counts the scaler reports: within the bounds, or no consumers at all. *)
Definition count_in_range (n : Z) : Prop := n = 0 \/ in_range n.

Definition reported_in_range (ev : Event) : Prop :=
  match ev with CountReply _ (Some n) => count_in_range n | _ => True end.

(** A request moves the count in its direction, by at most one step and within
    the bounds. *)
Definition event_ok (e : ScaleEvent) : Prop :=
  in_range (e_from e) /\ in_range (e_to e) /\
  match e_direction e with
  | up => e_from e < e_to e <= e_from e + scaleUpBy config
  | down => e_from e - scaleDownBy config <= e_to e < e_from e
  end.

Definition pending_ok (p : Pending) : Prop :=
  match p with
  | AwaitCount _ _ => True
  | HaveCount _ _ count => count_in_range count
  | AwaitScale e => event_ok e
  end.

Record bounded (s : AutoScaler) : Prop := {
  bounded_counts g n : currentConsumerCounts s !! g = Some n -> count_in_range n;
  bounded_pending id p : pending s !! id = Some p -> pending_ok p;
  bounded_history : Forall event_ok (scaleHistory s);
  bounded_length : (length (scaleHistory s) <= 100)%nat
}.

Lemma target_ok lag count consecutive d reason o :
  0 <= scaleUpBy config -> 0 <= scaleDownBy config -> in_range count ->
  direction_of lag count consecutive = (Some (d, reason), o) -> target d count <> count ->
  in_range (target d count) /\
  match d with
  | up => count < target d count <= count + scaleUpBy config
  | down => count - scaleDownBy config <= target d count < count
  end.
Proof.
  unfold direction_of, in_range, target. intros Hu Hd Hr Heq Hne.
  repeat case_match; simplify_eq/=; bool_props; lia.
Qed.

Lemma bounded_set_pending s p :
  bounded s -> (forall id x, p !! id = Some x -> pending_ok x) -> bounded (set_pending s p).
Proof. intros [] Hp. by split. Qed.

Lemma bounded_delete s id : bounded s -> bounded (set_pending s (delete id (pending s))).
Proof.
  intros Hb. apply bounded_set_pending; [done|]. intros i x [_ Hx]%lookup_delete_Some.
  by eapply bounded_pending.
Qed.

Lemma bounded_insert s id x :
  bounded s -> pending_ok x -> bounded (set_pending s (<[id := x]> (pending s))).
Proof.
  intros Hb Hx. apply bounded_set_pending; [done|]. intros i y.
  rewrite lookup_insert_Some. intros [[_ <-]|[_ Hy]]; [done|]. by eapply bounded_pending.
Qed.

Lemma pushHistory_ok (P : ScaleEvent -> Prop) e h :
  P e -> Forall P h -> (length h <= 100)%nat ->
  Forall P (pushHistory e h) /\ (length (pushHistory e h) <= 100)%nat.
Proof.
  intros He Hh Hl. unfold pushHistory.
  assert (Hf : Forall P (h ++ [e])) by (apply Forall_app; auto).
  destruct (Z.ltb_spec 100 (Z.of_nat (length (h ++ [e])))) as [Hlt|Hge].
  - destruct (h ++ [e]) as [|x l] eqn:E; [done|]. cbn. apply Forall_cons in Hf as [_ Hf].
    split; [done|]. apply (f_equal length) in E. rewrite length_app in E. cbn in E. lia.
  - split; [done|lia].
Qed.

Hypothesis HupBy : 0 <= scaleUpBy config.
Hypothesis HdownBy : 0 <= scaleDownBy config.

Lemma decideScaling_bounded id now s : bounded s -> bounded (decideScaling id now s).
Proof.
  intros Hb. unfold decideScaling. destruct (pending s !! id) as [[| g lag count |]|] eqn:Hp; try done.
  cbn zeta. destruct (Z.eqb_spec count 0) as [Hc0|Hc0]; [by apply bounded_delete|].
  destruct (_ <? _); [by apply bounded_delete|].
  destruct (direction_of lag count _) as [d o] eqn:Hd.
  set (s' := match o with Some n => set_consecutive s g n | None => s end).
  assert (Hb' : bounded s') by (unfold s'; destruct o; [by destruct Hb|done]).
  assert (Hp' : pending s' = pending s) by (unfold s'; by destruct o).
  destruct d as [[d reason]|]; [|by apply bounded_delete].
  destruct (Z.eqb_spec (target d count) count) as [He|He]; [by apply bounded_delete|].
  apply bounded_insert; [done|]. destruct (bounded_pending _ Hb _ _ Hp) as [?|Hr]; [done|].
  destruct (target_ok _ _ _ _ _ _ HupBy HdownBy Hr Hd He) as [Ht Hdir]. by split_and!.
Qed.

Lemma step_bounded s ev : reported_in_range ev -> bounded s -> bounded (step s ev).
Proof.
  intros Hr Hb. destruct ev as [| | |cb|cb|summary|id answer|id now|id accepted]; cbn.
  - unfold start. destruct (isRunning s); [done|]. by destruct Hb.
  - by destruct Hb.
  - destruct Hb. split; [done|done|constructor|cbn; lia].
  - by destruct Hb.
  - unfold offScale. by destruct Hb.
  - unfold beginEvaluate. destruct (isRunning s); [|done]. cbn. split; cbn; [by apply Hb| |by apply Hb..].
    intros i p. rewrite lookup_insert_Some. intros [[_ <-]|[_ Hp]]; [|by eapply bounded_pending].
    destruct (currentConsumerCounts s !! _) eqn:Hc; [|done]. by eapply (bounded_counts s).
  - unfold countReply. destruct (pending s !! id) as [[g lag| |]|] eqn:Hp; try done.
    destruct answer as [n|]; [|by apply bounded_insert; [|left]].
    assert (Hb' : bounded (set_count s g n)).
    { destruct Hb as [Hc ? ? ?]. split; [|done..]. intros g' n'. cbn.
      rewrite jsmap_lookup_insert. case_decide; [intros [= <-]; exact Hr|apply Hc]. }
    by apply (bounded_insert (set_count s g n)).
  - by apply decideScaling_bounded.
  - unfold scaleReply. destruct (pending s !! id) as [[| |e]|] eqn:Hp; try done.
    destruct accepted; [|by apply bounded_delete].
    pose proof (bounded_pending _ Hb _ _ Hp) as He. destruct Hb as [Hc HP Hh Hl].
    destruct (pushHistory_ok event_ok e (scaleHistory s)) as [? ?]; [done..|].
    split; cbn; [| |done|done].
    + intros g n. rewrite jsmap_lookup_insert. case_decide; [|apply Hc].
      intros [= <-]. right. apply He.
    + intros i p [_ Hx]%lookup_delete_Some. by eapply HP.
Qed.

(** if the scaler only reports counts within the configured bounds (or no
    consumers at all), then in every run of the event loop every count the
    autoscaler holds, every request in flight and every recorded event stays within
    them; a request moves the count in its direction by at most one step; and the
    history keeps at most a hundred events. *)
Theorem consumer_counts_bounded evs :
  Forall reported_in_range evs -> bounded (run evs).
Proof.
  unfold run. assert (H0 : bounded new_AutoScaler) by (split; cbn; [done|done|constructor|lia]).
  revert H0. generalize new_AutoScaler. induction evs as [|ev evs IH]; [done|].
  intros s Hs [Hev Hevs]%Forall_cons. apply IH; [by apply step_bounded|done].
Qed.

(** *** Cooldown *)

Definition scaling (s : AutoScaler) (g : string) : Prop :=
  exists id e, pending s !! id = Some (AwaitScale e) /\ e_groupId e = g.

Lemma not_scaling s g :
  Forall (fun kv => match kv.2 with AwaitScale e => e_groupId e <> g | _ => True end)
    (map_to_list (pending s)) -> ~ scaling s g.
Proof.
  intros Hf (id & e & He & Hg). apply elem_of_map_to_list in He.
  rewrite Forall_forall in Hf. by apply (Hf _ He).
Qed.

(** An evaluation is not decided while a request of its group is in flight. *)
Definition not_overlapping (s : AutoScaler) (ev : Event) : Prop :=
  match ev with
  | Decide id _ => forall g lag count, pending s !! id = Some (HaveCount g lag count) -> ~ scaling s g
  | _ => True
  end.

Fixpoint exclusive (s : AutoScaler) (evs : list Event) : Prop :=
  match evs with
  | [] => True
  | ev :: evs' => not_overlapping s ev /\ exclusive (step s ev) evs'
  end.

Definition apart (e e' : ScaleEvent) : Prop :=
  e_groupId e = e_groupId e' -> cooldownPeriodMs config <= e_timestamp e' - e_timestamp e.

Definition lastScale (s : AutoScaler) (g : string) : Z := default 0 (lastScaleTimes s !! g).

Record cooled (s : AutoScaler) : Prop := {
  cooled_history : StronglySorted apart (scaleHistory s);
  cooled_last e : e ∈ scaleHistory s -> e_timestamp e <= lastScale s (e_groupId e);
  cooled_pending id e : pending s !! id = Some (AwaitScale e) ->
    cooldownPeriodMs config <= e_timestamp e - lastScale s (e_groupId e);
  cooled_single id id' e e' : pending s !! id = Some (AwaitScale e) ->
    pending s !! id' = Some (AwaitScale e') -> e_groupId e = e_groupId e' -> id = id'
}.

Hypothesis Hcooldown : 0 <= cooldownPeriodMs config.

(** Changing fields the invariant does not read, and pendings that are not
    requests. *)
Lemma cooled_other s s' :
  scaleHistory s' = scaleHistory s -> lastScaleTimes s' = lastScaleTimes s ->
  (forall id e, pending s' !! id = Some (AwaitScale e) -> pending s !! id = Some (AwaitScale e)) ->
  cooled s -> cooled s'.
Proof.
  intros Hh Hl Hp [H1 H2 H3 H4]. unfold lastScale in *. split; unfold lastScale; rewrite ?Hh, ?Hl; eauto.
Qed.

Lemma cooled_insert s id g d from to reason now :
  cooled s -> ~ scaling s g -> cooldownPeriodMs config <= now - lastScale s g ->
  cooled (set_pending s (<[id := AwaitScale (mkScaleEvent g d from to reason now)]> (pending s))).
Proof.
  intros [H1 H2 H3 H4] Hs Hn. split; [done|done| |]; cbn.
  - intros i e. rewrite lookup_insert_Some. intros [[_ [= <-]]|[_ Hi]]; [done|by apply (H3 i)].
  - intros i j e e'. rewrite !lookup_insert_Some.
    intros [[<- [= <-]]|[? Hi]] [[<- [= <-]]|[? Hj]] Hg; [done| | |by eapply H4].
    + destruct Hs. by exists j, e'.
    + destruct Hs. by exists i, e.
Qed.

Lemma StronglySorted_tail {A} (R : A -> A -> Prop) l : StronglySorted R l -> StronglySorted R (tail l).
Proof. destruct 1; [constructor|done]. Qed.

Lemma StronglySorted_snoc {A} (R : A -> A -> Prop) l x :
  StronglySorted R l -> Forall (fun y => R y x) l -> StronglySorted R (l ++ [x]).
Proof.
  induction 1 as [|y l Hl IH Hy]; intros Hx; [by repeat constructor|].
  apply Forall_cons in Hx as [? ?]. cbn. constructor; [auto|]. apply Forall_app. auto.
Qed.

Lemma pushHistory_elem e e' h : e' ∈ pushHistory e h -> e' ∈ h \/ e' = e.
Proof.
  assert (Happ : e' ∈ h ++ [e] -> e' ∈ h \/ e' = e)
    by (rewrite elem_of_app, list_elem_of_singleton; done).
  unfold pushHistory. destruct (_ <? _); [|done]. intros Hin. apply Happ.
  destruct (h ++ [e]) as [|x l]; [done|]. by right.
Qed.

Lemma pushHistory_sorted e h :
  StronglySorted apart h -> Forall (fun y => apart y e) h -> StronglySorted apart (pushHistory e h).
Proof.
  intros Hs Hf. pose proof (StronglySorted_snoc _ _ _ Hs Hf). unfold pushHistory.
  destruct (_ <? _); [by apply StronglySorted_tail|done].
Qed.

Lemma scaleReply_cooled id accepted s : cooled s -> cooled (scaleReply id accepted s).
Proof.
  intros Hc. unfold scaleReply. destruct (pending s !! id) as [[| |e]|] eqn:Hp; try done.
  assert (Hdel : forall i x, delete id (pending s) !! i = Some (AwaitScale x) ->
            pending s !! i = Some (AwaitScale x)) by (by intros i x [_ ?]%lookup_delete_Some).
  destruct accepted; [|by apply (cooled_other s)].
  destruct Hc as [H1 H2 H3 H4].
  assert (Hlast : forall g, default 0 (<[e_groupId e := e_timestamp e]> (lastScaleTimes s) !! g) =
            if decide (e_groupId e = g) then e_timestamp e else lastScale s g).
  { intros g. rewrite jsmap_lookup_insert. by case_decide. }
  pose proof (H3 _ _ Hp) as He.
  split; unfold lastScale; cbn.
  - apply pushHistory_sorted; [done|]. apply Forall_forall. intros x Hx Hg.
    specialize (H2 x Hx). rewrite Hg in H2. lia.
  - intros x Hx. rewrite Hlast. apply pushHistory_elem in Hx as [Hx| ->].
    + specialize (H2 x Hx). case_decide as Hg; [rewrite <- Hg in H2; lia|done].
    + by rewrite decide_True.
  - intros i x Hi. rewrite Hlast. case_decide as Hg; [|by apply (H3 i), Hdel].
    exfalso. apply lookup_delete_Some in Hi as [Hne Hi]. apply Hne. by eapply H4.
  - intros i j x y Hi Hj. apply H4; by apply Hdel.
Qed.

Lemma step_cooled s ev : not_overlapping s ev -> cooled s -> cooled (step s ev).
Proof.
  intros Hno Hc. destruct ev as [| | |cb|cb|summary|id answer|id now|id accepted]; cbn;
    try (by apply (cooled_other s)).
  - unfold start. destruct (isRunning s); [done|]. by apply (cooled_other s).
  - destruct Hc as [H1 H2 H3 H4]. split; [constructor|by intros e ?%not_elem_of_nil|done|done].
  - unfold beginEvaluate. destruct (isRunning s); [|done]. apply (cooled_other s); [done|done| |done].
    intros i e. cbn. rewrite lookup_insert_Some. intros [[_ Hp]|[_ ?]]; [|done]. by case_match.
  - unfold countReply. destruct (pending s !! id) as [[g lag| |]|] eqn:Hp; try done.
    destruct answer as [n|]; (apply (cooled_other s); [done|done| |done]); intros i e; cbn;
      rewrite lookup_insert_Some; by intros [[_ ?]|[_ ?]].
  - unfold decideScaling. destruct (pending s !! id) as [[|g lag count|]|] eqn:Hp; try done.
    assert (Hdel : forall s', pending s' = pending s -> cooled s' ->
              cooled (set_pending s' (delete id (pending s')))).
    { intros s' Hs' Hc'. apply (cooled_other s'); [done|done| |done]. cbn.
      by intros i e [_ ?]%lookup_delete_Some. }
    cbn zeta. destruct (count =? 0); [by apply Hdel|].
    destruct (Z.ltb_spec (now - default 0 (lastScaleTimes s !! g)) (cooldownPeriodMs config))
      as [_|Hnow]; [by apply Hdel|].
    destruct (direction_of lag count _) as [d o].
    set (s' := match o with Some n => set_consecutive s g n | None => s end).
    assert (Hs' : pending s' = pending s) by (unfold s'; by destruct o).
    assert (Hc' : cooled s') by (unfold s'; destruct o; [by apply (cooled_other s)|done]).
    destruct d as [[d reason]|]; [|by apply Hdel].
    destruct (target d count =? count); [by apply Hdel|].
    apply cooled_insert; [done| |].
    + unfold scaling. rewrite Hs'. by eapply Hno.
    + unfold s'. by destruct o.
  - by apply scaleReply_cooled.
Qed.

(** as long as no evaluation is decided while a request of its group is in
    flight, any two recorded scalings of a group are at least the cooldown period
    apart, whatever the clock, the lags and the failures of the scaler. *)
Theorem cooldown_between_scalings evs :
  exclusive new_AutoScaler evs -> StronglySorted apart (scaleHistory (run evs)).
Proof.
  intros He. enough (cooled (run evs)) as [? _ _ _] by done. unfold run.
  assert (H0 : cooled new_AutoScaler).
  { split; cbn; [constructor|by intros e ?%not_elem_of_nil|done|done]. }
  revert H0 He. generalize new_AutoScaler. induction evs as [|ev evs IH]; [done|].
  intros s Hs [Hev Hevs]. by apply IH; [apply step_cooled|].
Qed.

End scaler.
End Scaler.

(** ** Monitor and autoscaler together

    A check calls the listeners of the monitor as it goes; the autoscaler has
    registered one per [start] that found it stopped. *)

Module Loop.
Import Monitor.
Import Scaler.

Record World := mkWorld { summaries : Summaries; scaler : AutoScaler }.

Inductive Event :=
  | Check (answers : option (list GroupAnswer))
  | Scale (ev : Scaler.Event).

Section loop.
Context (mc : MonitorConfig) (sc : ScalerConfig).

(** [notifyChange] for the listeners of the autoscaler *)
Definition notify (call : ConsumerGroupSummary * option ConsumerGroupSummary) (s : AutoScaler) :
    AutoScaler :=
  Nat.iter (listening s) (beginEvaluate call.1) s.

Definition notifyAll (calls : list (ConsumerGroupSummary * option ConsumerGroupSummary))
    (s : AutoScaler) : AutoScaler :=
  foldl (fun s call => notify call s) s calls.

Definition step (w : World) (ev : Event) : World :=
  match ev with
  | Check answers =>
      let '(sm, _, calls) := checkAllGroups mc (summaries w) answers in
      mkWorld sm (notifyAll calls (scaler w))
  | Scale (Lag _) => w                        (* only the monitor calls evaluate *)
  | Scale ev => mkWorld (summaries w) (Scaler.step sc (scaler w) ev)
  end.

Definition run (w : World) (evs : list Event) : World := foldl step w evs.

Definition pending_group (p : Pending) : string :=
  match p with
  | AwaitCount g _ | HaveCount g _ _ => g
  | AwaitScale e => e_groupId e
  end.

(** Nothing is in progress for [g], and its count and last scaling are these. *)
Definition quiet (g : string) (count last : option Z) (s : AutoScaler) : Prop :=
  (forall id p, pending s !! id = Some p -> pending_group p <> g) /\
  currentConsumerCounts s !! g = count /\ lastScaleTimes s !! g = last.

Lemma quiet_delete g c l s id :
  quiet g c l s -> quiet g c l (set_pending s (delete id (pending s))).
Proof.
  intros (H1 & H2 & H3). split; [|done]. cbn. intros i p [_ ?]%lookup_delete_Some. eauto.
Qed.

Lemma quiet_insert g c l s id p :
  quiet g c l s -> pending_group p <> g -> quiet g c l (set_pending s (<[id := p]> (pending s))).
Proof.
  intros (H1 & H2 & H3) Hp. split; [|done]. cbn. intros i x.
  rewrite lookup_insert_Some. intros [[_ <-]|[_ ?]]; eauto.
Qed.

Lemma scaler_step_quiet g c l s ev :
  (forall summary, ev <> Lag summary) -> quiet g c l s -> quiet g c l (Scaler.step sc s ev).
Proof.
  intros Hev Hq. pose proof Hq as (H1 & H2 & H3).
  destruct ev as [| | |cb|cb|summary|id answer|id now|id accepted]; cbn; try done.
  - unfold start. by destruct (isRunning s).
  - by destruct (Hev summary).
  - unfold countReply. destruct (pending s !! id) as [[g' lag| |]|] eqn:Hp; try done.
    pose proof (H1 _ _ Hp) as Hg. cbn in Hg.
    destruct answer as [n|]; [|by apply quiet_insert].
    apply (quiet_insert g c l (set_count s g' n)); [|done]. split; [done|]. cbn.
    by rewrite jsmap_lookup_insert_ne.
  - unfold decideScaling. destruct (pending s !! id) as [[|g' lag count|]|] eqn:Hp; try done.
    pose proof (H1 _ _ Hp) as Hg. cbn in Hg. cbn zeta.
    destruct (count =? 0); [by apply quiet_delete|]. destruct (_ <? _); [by apply quiet_delete|].
    destruct (direction_of sc lag count _) as [d o].
    set (s' := match o with Some n => set_consecutive s g' n | None => s end).
    assert (Hs' : quiet g c l s') by (unfold s'; by destruct o).
    destruct d as [[d reason]|]; [|by apply quiet_delete].
    destruct (_ =? count); [by apply quiet_delete|]. by apply quiet_insert.
  - unfold scaleReply. destruct (pending s !! id) as [[| |e]|] eqn:Hp; try done.
    pose proof (H1 _ _ Hp) as Hg. cbn in Hg. destruct accepted; [|by apply quiet_delete].
    split_and!; cbn; [|by rewrite jsmap_lookup_insert_ne..].
    intros i p [_ ?]%lookup_delete_Some. eauto.
Qed.

Lemma beginEvaluate_quiet g c l summary s :
  groupId summary <> g -> quiet g c l s -> quiet g c l (beginEvaluate summary s).
Proof.
  intros Hg (H1 & H2 & H3). unfold beginEvaluate. destruct (isRunning s); [|done]. cbn.
  split; [|done]. cbn. intros i p. rewrite lookup_insert_Some. intros [[_ <-]|[_ ?]]; [|eauto].
  by case_match.
Qed.

Lemma notifyAll_quiet g c l calls s :
  Forall (fun call => groupId call.1 <> g) calls -> quiet g c l s -> quiet g c l (notifyAll calls s).
Proof.
  unfold notifyAll. intros Hc. revert s. induction Hc as [|call calls Hg Hc IH]; intros s Hq; [done|].
  cbn. apply IH. unfold notify. generalize (listening s). intros n.
  induction n as [|n IHn]; [done|]. cbn. by apply beginEvaluate_quiet.
Qed.

Definition steady_event (g : string) (st : ConsumerGroupStatus) (lag : Z) (ev : Event) : Prop :=
  match ev with
  | Check (Some answers) => steady mc g st lag answers
  | _ => True
  end.

(** once the monitor knows a group's lag and no evaluation of the group is in
    progress, the autoscaler leaves the group alone for as long as the lag stands
    still, however high it is and whatever else happens: nothing is begun, asked or
    recorded for it, and its number of consumers stays. *)
Theorem steady_lag_notifies_once w evs g st lag count last :
  0 <= lagWarningThreshold mc ->
  known (summaries w) g st lag -> quiet g count last (scaler w) ->
  Forall (steady_event g st lag) evs ->
  known (summaries (run w evs)) g st lag /\ quiet g count last (scaler (run w evs)).
Proof.
  intros Hth. unfold run. revert w. induction evs as [|ev evs IH]; intros w Hk Hq Hf; [done|].
  apply Forall_cons in Hf as [Hev Hevs]. cbn. apply IH; [| |done].
  - destruct ev as [[answers|]|ev]; cbn; [| done|by destruct ev].
    pose proof (checkGroups_steady mc g st lag answers _ Hth Hk Hev) as H.
    by destruct (checkGroups mc (summaries w) answers) as [[final results] calls]; destruct H.
  - destruct ev as [[answers|]|ev]; cbn; [|done|].
    + pose proof (checkGroups_steady mc g st lag answers _ Hth Hk Hev) as H.
      destruct (checkGroups mc (summaries w) answers) as [[final results] calls]; destruct H.
      by apply notifyAll_quiet.
    + pose proof (fun H => scaler_step_quiet g count last (scaler w) ev H Hq) as Hs.
      destruct ev; try exact Hq; by apply Hs.
Qed.
End loop.
End Loop.

(** ** Runs *)

Module Examples.
Import Monitor.
Import Scaler.
Local Open Scope string_scope.
Local Open Scope list_scope.

Definition parts : list ConsumerGroupMetrics :=
  [mkMetrics "a" 700; mkMetrics "b" 20; mkMetrics "a" 30].

Example summary_sample :
  summarize Monitor.DEFAULT_CONFIG "g" parts 2 5 =
  mkSummary "g" "a,b" 750 700 250 3 1 warning 2 5.
Proof. vm_compute. reflexivity. Qed.

Definition lagging (lag now : Z) : ConsumerGroupSummary :=
  summarize Monitor.DEFAULT_CONFIG "g" [mkMetrics "a" lag] 1 now.

Definition scale_up : list Event :=
  [Start; Lag (lagging 5000 1); CountReply 0 (Some 3); Decide 0 100000; ScaleReply 0 true].

Example scale_up_outcome :
  let s := run DEFAULT_CONFIG scale_up in
  (getCurrentConsumerCount s "g", e_to <$> scaleHistory s, lastScaleTimes s !! "g") =
  (5, [5], Some 100000).
Proof. vm_compute. reflexivity. Qed.

Lemma consumer_counts_bounded_witness : bounded DEFAULT_CONFIG (run DEFAULT_CONFIG scale_up).
Proof.
  apply (consumer_counts_bounded DEFAULT_CONFIG ltac:(cbn; lia) ltac:(cbn; lia)).
  repeat first [apply Forall_nil_2|apply Forall_cons_2; [try done|]].
  right. unfold in_range. cbn. lia.
Defined.

Lemma cooldown_between_scalings_witness :
  StronglySorted (apart DEFAULT_CONFIG) (scaleHistory (run DEFAULT_CONFIG
    (scale_up ++ [Lag (lagging 9000 2); Decide 1 150000; Lag (lagging 9900 3); Decide 2 160000;
                  ScaleReply 2 true]))).
Proof.
  apply (cooldown_between_scalings DEFAULT_CONFIG); [cbn; lia|].
  cbn [exclusive app scale_up]. split_and!; try done; intros g lag count _; apply not_scaling;
    vm_compute; repeat constructor.
Defined.

(** Two evaluations that overlap in the call of the scaler scale twice from the
    same count within the cooldown. *)
Lemma overlapping_evaluations_ignore_cooldown :
  let s := run DEFAULT_CONFIG
    [Start; Lag (lagging 5000 1); CountReply 0 (Some 3); Lag (lagging 20000 2);
     Decide 0 100000; Decide 1 100001; ScaleReply 0 true; ScaleReply 1 true] in
  (fun e => (e_from e, e_to e, e_timestamp e)) <$> scaleHistory s = [(3, 5, 100000); (3, 5, 100001)].
Proof. vm_compute. reflexivity. Qed.

(** A group first seen without consumers is never looked at again. *)
Lemma empty_group_stays_ignored :
  let s := run DEFAULT_CONFIG
    [Start; Lag (lagging 5000 1); CountReply 0 (Some 0); Decide 0 100000;
     Lag (lagging 50000 2); Decide 1 900000] in
  (scaleHistory s, pending s !! 1%nat, currentConsumerCounts s !! "g") = ([], None, Some 0).
Proof. vm_compute. reflexivity. Qed.

(** A lag of 9900 that stays: one scaling, and the group keeps its consumers. *)
Lemma steady_lag_notifies_once_witness :
  let answer := Some [("g", Some ([mkMetrics "a" 4950; mkMetrics "b" 4950], 1, 7))] in
  let step_ := Loop.step Monitor.DEFAULT_CONFIG DEFAULT_CONFIG in
  let w := foldl step_ (Loop.mkWorld ∅ new_AutoScaler)
    [Loop.Scale Start; Loop.Check answer; Loop.Scale (CountReply 0 (Some 3));
     Loop.Scale (Decide 0 100000); Loop.Scale (ScaleReply 0 true)] in
  let evs := [Loop.Check answer; Loop.Check answer; Loop.Scale (Decide 1 900000); Loop.Check answer] in
  currentConsumerCounts (Loop.scaler w) !! "g" = Some 5 /\
  Loop.quiet "g" (Some 5) (Some 100000)
    (Loop.scaler (Loop.run Monitor.DEFAULT_CONFIG DEFAULT_CONFIG w evs)).
Proof.
  cbn zeta. split; [vm_compute; reflexivity|].
  refine (proj2 (Loop.steady_lag_notifies_once _ _ _ _ "g" warning 9900 _ _ _ _ _ _)).
  - cbn. lia.
  - eexists. split; [vm_compute; reflexivity|]. vm_compute. done.
  - split; [|vm_compute; done]. intros id p Hp. vm_compute in Hp. by destruct id.
  - repeat first [apply Forall_nil_2|apply Forall_cons_2]; try done;
      intros metrics k now Hin; apply list_elem_of_singleton in Hin;
      injection Hin as -> -> ->; vm_compute; done.
Defined.
End Examples.
