(* ===== verification/MultiRegion.v ===== *)
(** * Multi-region failover ([src/src/replication/multi_region.ts])

    Which region writes go to: the coordinator looks at the status of all regions
    and either leaves the primary, promotes the best healthy standby, or halts
    writes.  Latencies, lags, clocks and priorities are integers; the metrics text
    is left out.  [failover_decision] describes every outcome of [evaluate];
    [replication_plan] every plan. *)

From Stdlib Require Import ZArith Lia Ascii String Sorted.
From stdpp Require Import base list strings.
From S2P Require Import Prelude Js Text.

Inductive RegionRole := primary | standby.
#[export] Instance RegionRole_eq_dec : EqDecision RegionRole.
Proof. solve_decision. Defined.
Inductive RegionHealth := healthy | degraded | unhealthy.
#[export] Instance RegionHealth_eq_dec : EqDecision RegionHealth.
Proof. solve_decision. Defined.

Record RegionStatus := mkRegion {
  name : string;
  role : RegionRole;
  health : RegionHealth;
  replicationLagMs : Z;
  p99LatencyMs : Z;
  lastHeartbeatAt : Z;
  priority : Z
}.

Record DisasterRecoveryPolicy := mkPolicy {
  maxReplicationLagMs : Z;
  maxCriticalPathP99Ms : Z;
  heartbeatTimeoutMs : Z;
  minHealthyStandbyRegions : Z
}.

Definition DEFAULT_DR_POLICY : DisasterRecoveryPolicy := mkPolicy 5000 100 15000 1.

Inductive FailoverDecision :=
  | NoAction
  | PromoteStandby (fromRegion toRegion : string) (reasons : list string)
  | HaltWrites (fromRegion : string) (reasons : list string).

Definition writeSafe (d : FailoverDecision) : bool :=
  match d with HaltWrites _ _ => false | _ => true end.

Record ReplicationPlan := mkPlan {
  sourceRegion : string;
  targetRegions : list string;
  quorumRegions : Z;
  maxCommitLatencyMs : Z
}.

Inductive RegionError := PrimaryCount (found : nat) | TypeError.

Section coordinator.
Context (policy : DisasterRecoveryPolicy) (now : Z).
Implicit Types (region : RegionStatus) (regions : list RegionStatus).

Definition requireSinglePrimary regions : RegionError + RegionStatus :=
  match filter (fun region => role region = primary) regions with
  | [region] => inr region
  | primaries => inl (PrimaryCount (length primaries))
  end.

Definition healthName (h : RegionHealth) : string :=
  match h with healthy => "healthy" | degraded => "degraded" | unhealthy => "unhealthy" end.

Definition findRegionRisks region : list string :=
  (if bool_decide (health region = healthy) then []
   else ["primary health is " +:+ healthName (health region)]) ++
  (if maxReplicationLagMs policy <? replicationLagMs region
   then ["replication lag " +:+ print_Z (replicationLagMs region) +:+ "ms exceeds " +:+
         print_Z (maxReplicationLagMs policy) +:+ "ms"] else []) ++
  (if maxCriticalPathP99Ms policy <? p99LatencyMs region
   then ["p99 latency " +:+ print_Z (p99LatencyMs region) +:+ "ms exceeds " +:+
         print_Z (maxCriticalPathP99Ms policy) +:+ "ms"] else []) ++
  (if heartbeatTimeoutMs policy <? now - lastHeartbeatAt region
   then ["primary heartbeat timed out"] else []).

Definition isPromotionCandidate region : bool :=
  bool_decide (health region = healthy) &&
  (replicationLagMs region <=? maxReplicationLagMs policy) &&
  (p99LatencyMs region <=? maxCriticalPathP99Ms policy) &&
  (now - lastHeartbeatAt region <=? heartbeatTimeoutMs policy).

(** [a.priority - b.priority || a.replicationLagMs - b.replicationLagMs] *)
Definition promotionOrder (a b : RegionStatus) : bool :=
  if priority a =? priority b then replicationLagMs a <=? replicationLagMs b
  else priority a <=? priority b.

Definition healthyStandbys regions : list RegionStatus :=
  sort_by promotionOrder
    (filter (fun region => isPromotionCandidate region = true)
       (filter (fun region => role region = standby) regions)).

Definition evaluate regions : RegionError + FailoverDecision :=
  match requireSinglePrimary regions with
  | inl e => inl e
  | inr p =>
      let unhealthyReasons := findRegionRisks p in
      let healthyStandbyRegions := healthyStandbys regions in
      let count := Z.of_nat (length healthyStandbyRegions) in
      if count <? minHealthyStandbyRegions policy then
        inr (HaltWrites (name p)
          (("healthy standby count " +:+ print_Z count +:+ " below required " +:+
            print_Z (minHealthyStandbyRegions policy)) :: unhealthyReasons))
      else match unhealthyReasons with
           | _ :: _ => match healthyStandbyRegions with
                       | best :: _ => inr (PromoteStandby (name p) (name best) unhealthyReasons)
                       | [] => inl TypeError
                       end
           | [] => inr NoAction
           end
  end.

Definition buildReplicationPlan regions : RegionError + ReplicationPlan :=
  match requireSinglePrimary regions with
  | inl e => inl e
  | inr p =>
      let targets := name <$> sort_by (fun a b => priority a <=? priority b)
                                (filter (fun region => name region <> name p) regions) in
      inr (mkPlan (name p) targets
             (Z.min (Z.of_nat (length targets)) (minHealthyStandbyRegions policy))
             (maxCriticalPathP99Ms policy))
  end.

(** *** What the tests mean *)

Definition within_policy region : Prop :=
  health region = healthy /\ replicationLagMs region <= maxReplicationLagMs policy /\
  p99LatencyMs region <= maxCriticalPathP99Ms policy /\
  now - lastHeartbeatAt region <= heartbeatTimeoutMs policy.

Lemma isPromotionCandidate_spec region : isPromotionCandidate region = true <-> within_policy region.
Proof.
  unfold isPromotionCandidate, within_policy.
  rewrite !andb_true_iff, bool_decide_eq_true, !Z.leb_le. tauto.
Qed.

Lemma findRegionRisks_spec region : findRegionRisks region = [] <-> within_policy region.
Proof.
  unfold findRegionRisks, within_policy. rewrite !app_nil.
  case_bool_decide; repeat match goal with
    |- context [?a <? ?b] => destruct (Z.ltb_spec a b) end; naive_solver lia.
Qed.

Lemma elem_of_healthyStandbys region regions :
  region ∈ healthyStandbys regions <-> region ∈ regions /\ role region = standby /\ within_policy region.
Proof.
  unfold healthyStandbys. rewrite elem_of_sort_by, !list_elem_of_filter, isPromotionCandidate_spec. tauto.
Qed.

Lemma promotionOrder_total a b : promotionOrder a b = true \/ promotionOrder b a = true.
Proof.
  unfold promotionOrder. rewrite (Z.eqb_sym (priority b)).
  destruct (Z.eqb_spec (priority a) (priority b)); rewrite !Z.leb_le; lia.
Qed.

Lemma promotionOrder_trans a b c :
  promotionOrder a b = true -> promotionOrder b c = true -> promotionOrder a c = true.
Proof.
  unfold promotionOrder.
  destruct (Z.eqb_spec (priority a) (priority b)), (Z.eqb_spec (priority b) (priority c)),
    (Z.eqb_spec (priority a) (priority c)); rewrite !Z.leb_le; lia.
Qed.

Lemma requireSinglePrimary_spec regions p :
  requireSinglePrimary regions = inr p <->
  filter (fun region => role region = primary) regions = [p].
Proof.
  unfold requireSinglePrimary. split.
  - destruct (filter _ regions) as [|x [|y l]]; [done|by intros [= ->]|done].
  - by intros ->.
Qed.

(** with exactly one primary, writes are halted exactly when fewer standbys
    than required are within the policy; otherwise the primary stays if it is
    within the policy, and if not the first standby within it by priority and
    then by lag is promoted, with every risk as a reason.  Only a policy that
    requires no standby can leave nothing to promote, and then [evaluate]
    throws. *)
Theorem failover_decision regions p :
  filter (fun region => role region = primary) regions = [p] ->
  let standbys := filter (fun r => role r = standby /\ isPromotionCandidate r = true) regions in
  let enough := minHealthyStandbyRegions policy <= Z.of_nat (length standbys) in
  match evaluate regions with
  | inr (HaltWrites from reasons) => from = name p /\ ~ enough /\ (length reasons >= 1)%nat
  | inr NoAction => enough /\ within_policy p
  | inr (PromoteStandby from to reasons) =>
      from = name p /\ enough /\ ~ within_policy p /\ reasons = findRegionRisks p /\
      exists best, to = name best /\ best ∈ standbys /\ within_policy best /\
        forall r, r ∈ standbys -> r = best \/ promotionOrder best r = true
  | inl e => e = TypeError /\ standbys = [] /\ minHealthyStandbyRegions policy <= 0 /\
             ~ within_policy p
  end.
Proof.
  intros Hp standbys enough. unfold evaluate. rewrite (proj2 (requireSinglePrimary_spec _ _) Hp).
  assert (Hst : healthyStandbys regions = sort_by promotionOrder standbys).
  { unfold healthyStandbys, standbys. rewrite list_filter_filter. f_equal.
    apply list_filter_iff. tauto. }
  cbn zeta. rewrite Hst, length_sort_by. fold enough.
  destruct (Z.ltb_spec (Z.of_nat (length standbys)) (minHealthyStandbyRegions policy)) as [Hlt|Hge].
  { split_and!; [done|unfold enough; lia|cbn; lia]. }
  pose proof (findRegionRisks_spec p) as Hrisk.
  destruct (findRegionRisks p) as [|risk risks]; [split; [exact Hge|by apply Hrisk]|].
  assert (Hnot : ~ within_policy p) by (intros H%Hrisk; done).
  destruct (sort_by promotionOrder standbys) as [|best rest] eqn:Hs.
  - apply (f_equal length) in Hs. rewrite length_sort_by in Hs. cbn in Hs.
    apply length_zero_iff_nil in Hs. rewrite Hs in *. by split_and!.
  - assert (Hin : best ∈ standbys) by (rewrite <- (elem_of_sort_by promotionOrder), Hs; left).
    split_and!; [done|exact Hge|done|done|]. exists best. split_and!; [done|done| |].
    + apply list_elem_of_filter in Hin as [[_ Hc] _]. by apply isPromotionCandidate_spec.
    + intros r Hr.
      exact (sort_by_head promotionOrder promotionOrder_total promotionOrder_trans _ _ _ _ Hs Hr).
Qed.

(** A plan replicates from the primary to every other region, by priority. *)
Lemma replication_plan regions p :
  filter (fun region => role region = primary) regions = [p] ->
  exists plan, buildReplicationPlan regions = inr plan /\
    sourceRegion plan = name p /\ name p ∉ targetRegions plan /\
    (forall n, n ∈ targetRegions plan <-> n <> name p /\ n ∈ (name <$> regions)) /\
    quorumRegions plan <= Z.of_nat (length (targetRegions plan)).
Proof.
  intros Hp. unfold buildReplicationPlan. rewrite (proj2 (requireSinglePrimary_spec _ _) Hp).
  eexists. split; [done|]. cbn [sourceRegion targetRegions quorumRegions].
  assert (H : forall n, n ∈ (name <$> sort_by (fun a b => priority a <=? priority b)
                               (filter (fun region => name region <> name p) regions)) <->
              n <> name p /\ n ∈ (name <$> regions)).
  { intros n. rewrite !list_elem_of_fmap. split.
    - intros (r & -> & Hr). rewrite elem_of_sort_by, list_elem_of_filter in Hr. naive_solver.
    - intros [Hn (r & -> & Hr)]. exists r. split; [done|].
      by rewrite elem_of_sort_by, list_elem_of_filter. }
  split_and!; [done| |exact H|lia]. rewrite H. naive_solver.
Qed.
End coordinator.

Module Examples.
Local Open Scope string_scope.
Local Open Scope list_scope.

Definition region_a := mkRegion "a" primary unhealthy 0 50 1000 1.
Definition region_b := mkRegion "b" standby healthy 20 50 1000 2.
Definition region_c := mkRegion "c" standby healthy 10 50 1000 2.
Definition regions0 := [region_a; region_b; region_c].

Example promotes_least_lag :
  evaluate DEFAULT_DR_POLICY 2000 regions0 =
  inr (PromoteStandby "a" "c" ["primary health is unhealthy"]).
Proof. vm_compute. reflexivity. Qed.

Lemma failover_decision_witness :
  exists best, "c" = name best /\ within_policy DEFAULT_DR_POLICY 2000 best.
Proof.
  pose proof (failover_decision DEFAULT_DR_POLICY 2000 regions0 region_a ltac:(vm_compute; reflexivity)) as H.
  cbn zeta in H. rewrite promotes_least_lag in H.
  destruct H as (_ & _ & _ & _ & best & E & _ & Hw & _). by exists best.
Defined.

(** A policy without required standbys throws instead of halting writes. *)
Example nothing_to_promote :
  evaluate (mkPolicy 5000 100 15000 0) 2000 [region_a] = inl TypeError.
Proof. vm_compute. reflexivity. Qed.
End Examples.
