(* ===== verification/ConfigDrift.v ===== *)
(** * Configuration drift
    ([src/src/config-drift/flatten.ts], [diff.ts], [types.ts], [storage.ts],
    [auditor.ts], [pagerduty.ts])

    The running configuration is flattened to dotted keys, hashed, and compared
    key by key with a committed baseline.  Configurations are the trees of
    [Config]; flattened ones are maps from keys to texts.  What the host supplies
    is an argument: the text of a number, the collation of [localeCompare], the
    digest of alert ids and the clock.  Sending the alert is left out.

    The comparison reports exactly the differences ([diff_reports_differences]);
    the hash is djb2 on 32 bits and depends on the entries alone
    ([hash_is_djb2]); but two configurations that differ can flatten to the same
    map ([flatten_merges_dotted_keys]). *)

From Stdlib Require Import ZArith Lia Ascii String Sorted.
From stdpp Require Import base list strings sorting.
From S2P Require Import Prelude Js Text Number Config.
#[local] Open Scope Z_scope.

(** ** Flattening ([flatten.ts]) *)

Abbreviation flat := (jsmap string string).

Section flatten.
Context (String_of_number JSON_of_number : number -> string).

Definition String_of_bool (b : bool) : string := if b then "true" else "false".

Definition sort_members {A} (l : list (string * A)) : list (string * A) :=
  sort_by (fun a b => String.leb a.1 b.1) l.

(** [stableStringify]; [JSON.stringify(undefined)] is [undefined], which
    [Array.prototype.join] prints as the empty string and a template as
    "undefined". *)
Fixpoint stableStringify (v : value) : option string :=
  match v with
  | VUndefined => None
  | VNull => Some "null"
  | VBool b => Some (String_of_bool b)
  | VNumber n => Some (JSON_of_number n)
  | VString s => Some (quoted s)
  | VArray l => Some ("[" +:+ join "," (default "" ∘ stableStringify <$> l) +:+ "]")
  | VObject l =>
      let texts := (fix go (l : list (string * value)) :=
                      match l with
                      | [] => []
                      | (k, x) :: l' => (k, default "undefined" (stableStringify x)) :: go l'
                      end) l in
      Some ("{" +:+ join "," ((fun kt => quoted kt.1 +:+ ":" +:+ kt.2) <$> sort_members texts) +:+ "}")
  end.

Definition normalizeValue (v : value) : string :=
  match v with
  | VString s => s
  | VNumber n => String_of_number n
  | VBool b => String_of_bool b
  | VNull => "null"
  | VUndefined => "undefined"
  | v => default "undefined" (stableStringify v)
  end.

Definition nextPrefix (prefix k : string) : string :=
  if falsy prefix then k else prefix +:+ "." +:+ k.

(** [visit(node, prefix, depth)]: the assignments to [out], in order. *)
Fixpoint visit (maxDepth : Z) (node : value) (prefix : string) (depth : Z) :
    list (string * string) :=
  if maxDepth <? depth then [(prefix, normalizeValue node)] else
  match node with
  | VArray [] => [(prefix, "[]")]
  | VArray l =>
      (fix elements (i : Z) (l : list value) :=
         match l with
         | [] => []
         | x :: l' => visit maxDepth x (nextPrefix prefix (print_Z i)) (depth + 1)
                      ++ elements (i + 1) l'
         end) 0 l
  | VObject [] => [(prefix, "{}")]
  | VObject l =>
      let visits := (fix members (l : list (string * value)) :=
                       match l with
                       | [] => []
                       | (k, x) :: l' => (k, visit maxDepth x) :: members l'
                       end) l in
      concat ((fun kv => kv.2 (nextPrefix prefix kv.1) (depth + 1)) <$> sort_members visits)
  | _ => [(prefix, normalizeValue node)]
  end.

Definition assign_all (l : list (string * string)) : flat :=
  foldl (fun out kv => <[kv.1 := kv.2]> out) ∅ l.

(** The members of the root, under the keys [Object.keys] gives. *)
Fixpoint indexed (i : Z) (l : list value) : list (string * value) :=
  match l with
  | [] => []
  | x :: l' => (print_Z i, x) :: indexed (i + 1) l'
  end.

Definition flattenConfig (maxDepth currentDepth : Z) (obj : value) : flat :=
  let root l := assign_all (concat ((fun kv => visit maxDepth kv.2 kv.1 currentDepth)
                                      <$> sort_members l)) in
  match obj with
  | VObject l => root l
  | VArray l => root (indexed 0 l)
  | _ => <["" := normalizeValue obj]> ∅
  end.

(** The default options. *)
Definition flatten (obj : value) : flat := flattenConfig 64 0 obj.

(** ** The hash *)

(** [hash = (hash << 5) + hash + c; hash = hash >>> 0] *)
Definition hash_char (hash : Z) (c : ascii) : Z :=
  (to_int32 (Z.shiftl (to_int32 hash) 5) + hash + Z.of_nat (code c)) mod 2 ^ 32.

Fixpoint hash_string (hash : Z) (s : string) : Z :=
  match s with
  | EmptyString => hash
  | String c s' => hash_string (hash_char hash c) s'
  end.

Definition entry_text (f : flat) (k : string) : string :=
  k +:+ "=" +:+ default "undefined" (f !! k) +:+ ";".

Definition hash_value (f : flat) : Z :=
  foldl (fun hash k => hash_string hash (entry_text f k)) 5381 (js_sort (map_keys f)).

Definition computeHashFromFlattened (f : flat) : string := toString16 (hash_value f).

(** [keyMatchesPrefix] *)
Definition keyMatchesPrefix (flatKey prefix : string) : bool :=
  negb (falsy prefix) &&
  (bool_decide (flatKey = prefix) || String.prefix (prefix +:+ ".") flatKey).

Definition getFlattenedPrefixValues (f : flat) (prefix : string) : flat :=
  assign_all ((fun k => (k, default "undefined" (f !! k)))
                <$> filter (fun k => keyMatchesPrefix k prefix = true) (map_keys f)).

(** ** The comparison ([diff.ts]) *)

Inductive DriftFinding :=
  | KeyAdded (key runtimeValue : string)
  | KeyRemoved (key baselineValue : string)
  | ValueChange (key baselineValue runtimeValue : string).
#[export] Instance DriftFinding_eq_dec : EqDecision DriftFinding.
Proof. solve_decision. Defined.

Definition f_key (f : DriftFinding) : string :=
  match f with KeyAdded k _ | KeyRemoved k _ | ValueChange k _ _ => k end.

Definition added (runtime baseline : flat) (k : string) : list DriftFinding :=
  if map_has k baseline then [] else [KeyAdded k (default "undefined" (runtime !! k))].
Definition removed (runtime baseline : flat) (k : string) : list DriftFinding :=
  if map_has k runtime then [] else [KeyRemoved k (default "undefined" (baseline !! k))].
Definition changed (runtime baseline : flat) (k : string) : list DriftFinding :=
  if negb (map_has k baseline) then [] else
  let b := default "undefined" (baseline !! k) in
  let r := default "undefined" (runtime !! k) in
  if bool_decide (b = r) then [] else [ValueChange k b r].

Definition diffFlattenedConfigs (runtime baseline : flat) : list DriftFinding :=
  concat (added runtime baseline <$> map_keys runtime) ++
  concat (removed runtime baseline <$> map_keys baseline) ++
  concat (changed runtime baseline <$> map_keys runtime).

End flatten.

(** ** The report *)

Record Summary := mkSummary { total : nat; valueChanges : nat; keyAdded : nat; keyRemoved : nat }.

Record DriftReport := mkReport {
  snapshotId : string;
  startedAt : Z;
  endedAt : Z;
  runtimeHash : string;
  baselineHash : string;
  findings : list DriftFinding;
  summary : Summary
}.

Definition isValueChange (f : DriftFinding) : bool := match f with ValueChange _ _ _ => true | _ => false end.
Definition isKeyAdded (f : DriftFinding) : bool := match f with KeyAdded _ _ => true | _ => false end.
Definition isKeyRemoved (f : DriftFinding) : bool := match f with KeyRemoved _ _ => true | _ => false end.

Definition category_order (f : DriftFinding) : Z :=
  match f with ValueChange _ _ _ => 1 | KeyAdded _ _ => 2 | KeyRemoved _ _ => 3 end.

Section report.
Context (String_of_number JSON_of_number : number -> string).
Context (localeCompare : string -> string -> comparison) (sha256hex : string -> string).

Definition finding_le (a b : DriftFinding) : bool :=
  if category_order a =? category_order b
  then match localeCompare (f_key a) (f_key b) with Gt => false | _ => true end
  else category_order a <? category_order b.

Definition summarize (l : list DriftFinding) : Summary :=
  mkSummary (length l) (length (filter (fun f => isValueChange f = true) l))
    (length (filter (fun f => isKeyAdded f = true) l))
    (length (filter (fun f => isKeyRemoved f = true) l)).

Definition computeDriftReport (started ended : Z) (id : string) (runtimeConfig : value)
    (runtimeFlattened : option flat) (baselineFlattened : flat) (baseline_hash : string) : DriftReport :=
  let runtime := match runtimeFlattened with
                 | Some f => f
                 | None => flatten String_of_number JSON_of_number runtimeConfig
                 end in
  let l := diffFlattenedConfigs runtime baselineFlattened in
  mkReport id started ended (computeHashFromFlattened runtime) baseline_hash
    (sort_by finding_le l) (summarize l).

Definition pickPrefix (policyPrefixes : list string) (f : DriftFinding) : option string :=
  head (filter (fun prefix => keyMatchesPrefix (f_key f) prefix = true) policyPrefixes).

Fixpoint pickCriticalPrefix (policyPrefixes : list string) (l : list DriftFinding) : option string :=
  match l with
  | [] => None
  | f :: l' => match pickPrefix policyPrefixes f with
               | Some prefix => Some prefix
               | None => pickCriticalPrefix policyPrefixes l'
               end
  end.

(** ** Alerts, storage, the auditor *)

Record CriticalDriftPolicy := mkPolicy { enabled : bool; criticalKeyPrefixes : list string }.
Record ConfigDriftAlert := mkAlert {
  alertId : string; policyMatchedPrefix : string; driftReport : DriftReport
}.

Definition alertIdFor (r : DriftReport) : string :=
  "config-drift:" +:+ String.substring 0 32
    (sha256hex (snapshotId r +:+ "|" +:+ runtimeHash r +:+ "|" +:+ baselineHash r +:+ "|"
                +:+ print_Z (Z.of_nat (total (summary r))))).

Definition buildAlertIfCritical (r : DriftReport) (policy : CriticalDriftPolicy)
    (prefix : option string) : option ConfigDriftAlert :=
  if negb (enabled policy) then None
  else match findings r with
       | [] => None
       | _ :: _ => match prefix with
                   | Some p => if falsy p then None else Some (mkAlert (alertIdFor r) p r)
                   | None => None
                   end
       end.

(** [DriftStorage] without its file *)
Definition storage_add (maxInMemory : nat) (r : Z * DriftReport) (l : list (Z * DriftReport)) :
    list (Z * DriftReport) :=
  let l' := l ++ [r] in drop (length l' - maxInMemory) l'.

(** [inMemory.slice(-limit)] *)
Definition storage_history (limit : Z) (l : list (Z * DriftReport)) : list (Z * DriftReport) :=
  if 0 <? limit then drop (length l - Z.to_nat limit) l else drop (Z.to_nat (- limit)) l.

Definition storage_latest (l : list (Z * DriftReport)) : option (Z * DriftReport) := last l.

Record Baseline := mkBaseline { flattened : flat; b_hash : string }.
Definition loadBaseline (config : value) : Baseline :=
  let f := flatten String_of_number JSON_of_number config in
  mkBaseline f (computeHashFromFlattened f).

Record Auditor := mkAuditor {
  baseline : option Baseline;
  running : bool;
  storage : list (Z * DriftReport);
  alerts : list ConfigDriftAlert       (* calls of triggerAlert *)
}.

Section auditor.
Context (policy : CriticalDriftPolicy) (hasClient : bool) (maxInMemory : nat).

(** [runOnce] up to the call of the PagerDuty client; [runtimeConfig] is absent
    when [getConfig] throws. *)
Definition runOnce (now : Z) (runtimeConfig : option value) (a : Auditor) : Auditor :=
  if running a then a else
  match baseline a, runtimeConfig with
  | Some b, Some config =>
      let r := computeDriftReport now now ("cfgdrift:" +:+ print_Z now) config None (flattened b) (b_hash b) in
      let stored := storage_add maxInMemory (now, r) (storage a) in
      match buildAlertIfCritical r policy (pickCriticalPrefix (criticalKeyPrefixes policy) (findings r)) with
      | Some alert => if hasClient
                      then mkAuditor (baseline a) true stored (alerts a ++ [alert])
                      else mkAuditor (baseline a) false stored (alerts a)
      | None => mkAuditor (baseline a) false stored (alerts a)
      end
  | _, _ => a
  end.

(** and when the client has answered, whatever it answered *)
Definition alertAnswered (a : Auditor) : Auditor :=
  mkAuditor (baseline a) false (storage a) (alerts a).
End auditor.
End report.

(** ** Exactly the differences *)

Lemma elem_of_concat_fmap {A B} (f : A -> list B) l (x : B) :
  x ∈ concat (f <$> l) <-> exists a, a ∈ l /\ x ∈ f a.
Proof.
  induction l as [|a l IH]; cbn; [split; [by intros ?%not_elem_of_nil|by intros (? & ?%not_elem_of_nil & _)]|].
  rewrite elem_of_app, IH. setoid_rewrite elem_of_cons. naive_solver.
Qed.

Lemma elem_of_keys (f : flat) k : k ∈ map_keys f <-> is_Some (f !! k).
Proof. rewrite <- not_eq_None_Some, jsmap_lookup_None. destruct (decide (k ∈ map_keys f)); naive_solver. Qed.

(** A finding is the difference of the two maps at its key. *)
Definition difference (runtime baseline : flat) (f : DriftFinding) : Prop :=
  match f with
  | KeyAdded k r => runtime !! k = Some r /\ baseline !! k = None
  | KeyRemoved k b => runtime !! k = None /\ baseline !! k = Some b
  | ValueChange k b r => runtime !! k = Some r /\ baseline !! k = Some b /\ b <> r
  end.

Lemma elem_of_added runtime baseline k f :
  is_Some (runtime !! k) ->
  f ∈ added runtime baseline k <-> exists r, f = KeyAdded k r /\ difference runtime baseline f.
Proof.
  intros [r Hr]. unfold added. rewrite Hr. destruct (map_has k baseline) eqn:Hb.
  - apply map_has_true in Hb as [b Hb]. split; [by intros ?%not_elem_of_nil|].
    intros (r' & -> & _ & Hn). cbn in Hn. congruence.
  - apply map_has_false in Hb. rewrite list_elem_of_singleton. cbn. split.
    + intros ->. by exists r.
    + intros (r' & -> & Hr' & _). cbn in Hr'. congruence.
Qed.

Lemma elem_of_removed runtime baseline k f :
  is_Some (baseline !! k) ->
  f ∈ removed runtime baseline k <-> exists b, f = KeyRemoved k b /\ difference runtime baseline f.
Proof.
  intros [b Hb]. unfold removed. rewrite Hb. destruct (map_has k runtime) eqn:Hr.
  - apply map_has_true in Hr as [r Hr]. split; [by intros ?%not_elem_of_nil|].
    intros (b' & -> & Hn & _). congruence.
  - apply map_has_false in Hr. rewrite list_elem_of_singleton. cbn. split.
    + intros ->. by exists b.
    + intros (b' & -> & _ & Hb'). cbn in Hb'. congruence.
Qed.

Lemma elem_of_changed runtime baseline k f :
  is_Some (runtime !! k) ->
  f ∈ changed runtime baseline k <-> exists b r, f = ValueChange k b r /\ difference runtime baseline f.
Proof.
  intros [r Hr]. unfold changed. rewrite Hr. destruct (map_has k baseline) eqn:Hb; cbn [negb].
  - apply map_has_true in Hb as [b Hb]. rewrite Hb. cbn [default from_option id]. case_bool_decide as He.
    + split; [by intros ?%not_elem_of_nil|]. intros (b' & r' & -> & ? & ? & ?). cbn in *. congruence.
    + rewrite list_elem_of_singleton. split.
      * intros ->. by exists b, r.
      * intros (b' & r' & -> & ? & ? & _). cbn in *. congruence.
  - apply map_has_false in Hb. split; [by intros ?%not_elem_of_nil|].
    intros (b' & r' & -> & _ & ? & _). cbn in *. congruence.
Qed.

Lemma elem_of_diff runtime baseline f :
  f ∈ diffFlattenedConfigs runtime baseline <-> difference runtime baseline f.
Proof.
  unfold diffFlattenedConfigs. rewrite !elem_of_app, !elem_of_concat_fmap. split.
  - intros [(k & Hk%elem_of_keys & Hf)|[(k & Hk%elem_of_keys & Hf)|(k & Hk%elem_of_keys & Hf)]].
    + by apply elem_of_added in Hf as (? & _ & ?).
    + by apply elem_of_removed in Hf as (? & _ & ?).
    + by apply elem_of_changed in Hf as (? & ? & _ & ?).
  - intros Hd. pose proof Hd as Hd'. destruct f as [k r|k b|k b r]; cbn in Hd'.
    + left. exists k. assert (is_Some (runtime !! k)) by naive_solver.
      rewrite elem_of_keys, elem_of_added by done. eauto.
    + right. left. exists k. assert (is_Some (baseline !! k)) by naive_solver.
      rewrite elem_of_keys, elem_of_removed by done. eauto.
    + right. right. exists k. assert (is_Some (runtime !! k)) by naive_solver.
      rewrite elem_of_keys, elem_of_changed by done. eauto.
Qed.

(** Each key is reported at most once. *)
Lemma NoDup_concat_keys (g : string -> list DriftFinding) l :
  NoDup l -> (forall k f, f ∈ g k -> f_key f = k) -> (forall k, (length (g k) <= 1)%nat) ->
  NoDup (f_key <$> concat (g <$> l)).
Proof.
  intros Hl Hk H1. induction Hl as [|k l Hn Hl IH]; [constructor|]. cbn.
  rewrite fmap_app. apply NoDup_app. split_and!; [|  |done].
  - pose proof (H1 k) as Hlen. destruct (g k) as [|f [|]]; cbn in *; [constructor|apply NoDup_singleton|lia].
  - intros x (f & -> & Hf)%list_elem_of_fmap (f' & E & Hf')%list_elem_of_fmap.
    apply elem_of_concat_fmap in Hf' as (k' & Hk' & Hf'). apply Hk in Hf, Hf'. congruence.
Qed.

Lemma diff_NoDup runtime baseline :
  map_wf runtime -> map_wf baseline -> NoDup (f_key <$> diffFlattenedConfigs runtime baseline).
Proof.
  intros Hr Hb. unfold diffFlattenedConfigs.
  assert (Hkey : forall g, (g = added \/ g = removed \/ g = changed) ->
            forall k f, f ∈ g runtime baseline k -> f_key f = k).
  { intros g [->|[->| ->]] k f; unfold added, removed, changed; repeat case_match;
      rewrite ?list_elem_of_singleton; intros Hin; try (by apply not_elem_of_nil in Hin);
      by rewrite Hin. }
  assert (Hlen : forall g, (g = added \/ g = removed \/ g = changed) ->
            forall k, (length (g runtime baseline k) <= 1)%nat).
  { intros g [->|[->| ->]] k; unfold added, removed, changed; repeat case_match; cbn; lia. }
  rewrite !fmap_app. apply NoDup_app. split; [apply NoDup_concat_keys; eauto|]. split.
  - intros k (f & -> & Hf)%list_elem_of_fmap.
    assert (Hd : difference runtime baseline f)
      by (apply elem_of_diff; unfold diffFlattenedConfigs; rewrite !elem_of_app; tauto).
    apply elem_of_concat_fmap in Hf as (k & Hk%elem_of_keys & Hf).
    apply elem_of_added in Hf as (r & -> & _); [|done]. cbn in Hd.
    rewrite <- fmap_app. intros (f' & E & Hf')%list_elem_of_fmap. cbn in E.
    apply elem_of_app in Hf' as [Hf'|Hf']; apply elem_of_concat_fmap in Hf' as (k' & Hk'%elem_of_keys & Hf').
    + apply elem_of_removed in Hf' as (b & -> & [? ?]); [|done]. cbn in E. naive_solver.
    + apply elem_of_changed in Hf' as (b & r' & -> & (? & ? & _)); [|done]. cbn in E. naive_solver.
  - apply NoDup_app. split; [apply NoDup_concat_keys; eauto|]. split; [|apply NoDup_concat_keys; eauto].
    intros k (f & -> & Hf)%list_elem_of_fmap (f' & E & Hf')%list_elem_of_fmap.
    apply elem_of_concat_fmap in Hf as (k & Hk%elem_of_keys & Hf).
    apply elem_of_concat_fmap in Hf' as (k' & Hk'%elem_of_keys & Hf').
    apply elem_of_removed in Hf as (b & -> & [? ?]); [|done].
    apply elem_of_changed in Hf' as (b' & r' & -> & (? & ? & _)); [|done]. cbn in E. naive_solver.
Qed.

Lemma summarize_total l :
  let s := summarize l in total s = (valueChanges s + keyAdded s + keyRemoved s)%nat.
Proof.
  cbn. induction l as [|f l IH]; [done|]. rewrite !filter_cons.
  destruct f; cbn; repeat case_decide; try done; cbn; lia.
Qed.

(** the comparison of two flattened configurations reports a key as added,
    removed or changed exactly when the two maps differ there in that way, with the
    values they hold, and no key twice; it reports nothing exactly when the maps
    agree everywhere; and a drift report lists these findings by category with
    counts that add up. *)
Theorem diff_reports_differences String_of_number JSON_of_number localeCompare
    (runtime baseline : flat) :
  map_wf runtime -> map_wf baseline ->
  let l := diffFlattenedConfigs runtime baseline in
  let report := computeDriftReport String_of_number JSON_of_number localeCompare 0 0 ""
                  VNull (Some runtime) baseline "" in
  (forall f, f ∈ l <-> difference runtime baseline f) /\
  NoDup (f_key <$> l) /\
  (l = [] <-> forall k, runtime !! k = baseline !! k) /\
  findings report ≡ₚ l /\
  total (summary report) = length l /\
  total (summary report) = (valueChanges (summary report) + keyAdded (summary report)
                            + keyRemoved (summary report))%nat.
Proof.
  intros Hr Hb l report. split_and!.
  - apply elem_of_diff.
  - by apply diff_NoDup.
  - split.
    + intros Hl k. assert (Hno : forall f, ~ difference runtime baseline f).
      { intros f Hf. apply elem_of_diff in Hf. fold l in Hf. rewrite Hl in Hf.
        by apply not_elem_of_nil in Hf. }
      destruct (runtime !! k) as [r|] eqn:Er, (baseline !! k) as [b|] eqn:Eb.
      * destruct (decide (b = r)) as [->|Hne]; [done|]. by destruct (Hno (ValueChange k b r)).
      * by destruct (Hno (KeyAdded k r)).
      * by destruct (Hno (KeyRemoved k b)).
      * done.
    + intros Heq. destruct l as [|f l'] eqn:El; [done|]. exfalso.
      assert (Hf : difference runtime baseline f)
        by (apply elem_of_diff; fold l; rewrite El; left).
      destruct f; cbn in Hf; rewrite Heq in Hf; naive_solver.
  - apply sort_by_Permutation.
  - done.
  - apply summarize_total.
Qed.

(** ** The hash is djb2 *)

Definition djb2_char (h : Z) (c : ascii) : Z := (33 * h + Z.of_nat (code c)) mod 2 ^ 32.
Definition djb2 (h : Z) (s : string) : Z := foldl djb2_char h (list_ascii_of_string s).

Lemma hash_char_djb2 h c : hash_char h c = djb2_char h c.
Proof.
  unfold hash_char, djb2_char. rewrite Z.shiftl_mul_pow2 by lia.
  destruct (to_int32_mod h) as [k1 E1]. destruct (to_int32_mod (to_int32 h * 2 ^ 5)) as [k2 E2].
  rewrite E2, E1. 
  replace ((h + k1 * 2 ^ 32) * 2 ^ 5 + k2 * 2 ^ 32 + h + Z.of_nat (code c))
    with (33 * h + Z.of_nat (code c) + (k1 * 2 ^ 5 + k2) * 2 ^ 32) by lia.
  apply Z.mod_add. lia.
Qed.

Lemma hash_string_djb2 h s : hash_string h s = djb2 h s.
Proof.
  revert h. induction s as [|c s IH]; intros h; [done|]. cbn. by rewrite IH, hash_char_djb2.
Qed.

Lemma hash_string_app h s t : hash_string h (s +:+ t) = hash_string (hash_string h s) t.
Proof. revert h. induction s as [|c s IH]; intros h; [done|]. cbn. apply IH. Qed.

Lemma hash_string_range h s : 0 <= h < 2 ^ 32 -> 0 <= hash_string h s < 2 ^ 32.
Proof.
  revert h. induction s as [|c s IH]; intros h Hh; [done|]. cbn. apply IH.
  unfold hash_char. apply Z.mod_pos_bound. lia.
Qed.

(** The text that is hashed: the entries in the order of their keys. *)
Definition hashed_text (f : flat) : string :=
  foldr (fun k t => entry_text f k +:+ t) "" (js_sort (map_keys f)).

Lemma hash_value_text f : hash_value f = hash_string 5381 (hashed_text f).
Proof.
  unfold hash_value, hashed_text. generalize 5381. generalize (js_sort (map_keys f)).
  induction l as [|k l IH]; intros h; [done|]. cbn. by rewrite hash_string_app, IH.
Qed.

(** the 32-bit shifts and additions compute djb2 of the entries in the order
    of their keys; the result is an unsigned 32-bit number; and it depends only on
    the entries, not on the order in which they were inserted. *)
Theorem hash_is_djb2 (f g : flat) :
  map_wf f -> map_wf g -> (forall k, f !! k = g !! k) ->
  hash_value f = djb2 5381 (hashed_text f) /\
  0 <= hash_value f < 2 ^ 32 /\
  computeHashFromFlattened f = computeHashFromFlattened g.
Proof.
  intros Hf Hg Heq. split_and!.
  - by rewrite hash_value_text, hash_string_djb2.
  - rewrite hash_value_text. by apply hash_string_range.
  - rewrite hash_value_text. by apply hash_string_range.
  - unfold computeHashFromFlattened. rewrite !hash_value_text. do 2 f_equal. unfold hashed_text.
    rewrite (js_sort_unique (map_keys f) (map_keys g)).
    + induction (js_sort (map_keys g)) as [|k l IH]; [done|]. cbn. unfold entry_text at 1 3.
      by rewrite Heq, IH.
    + apply NoDup_Permutation; [done|done|]. intros k. by rewrite !elem_of_keys, Heq.
Qed.

(** ** When the auditor raises an alert *)

Lemma pickCriticalPrefix_spec prefixes l :
  match pickCriticalPrefix prefixes l with
  | Some p => exists f, f ∈ l /\ p ∈ prefixes /\ keyMatchesPrefix (f_key f) p = true
  | None => forall f p, f ∈ l -> p ∈ prefixes -> keyMatchesPrefix (f_key f) p = false
  end.
Proof.
  induction l as [|f l IH]; cbn [pickCriticalPrefix]; [by intros f p ?%not_elem_of_nil|].
  unfold pickPrefix. destruct (filter _ prefixes) as [|p ps] eqn:Hp; cbn [head].
  - destruct (pickCriticalPrefix prefixes l) as [p|].
    + destruct IH as (f' & Hf & ?). exists f'. split; [by right|done].
    + intros f' p [->|Hf]%elem_of_cons Hin; [|by apply IH].
      apply not_true_iff_false. intros Hm.
      assert (Hin' : p ∈ filter (fun prefix => keyMatchesPrefix (f_key f) prefix = true) prefixes)
        by (by apply list_elem_of_filter).
      rewrite Hp in Hin'. by apply not_elem_of_nil in Hin'.
  - assert (Hin : p ∈ filter (fun prefix => keyMatchesPrefix (f_key f) prefix = true) prefixes)
      by (rewrite Hp; left).
    apply list_elem_of_filter in Hin as [Hm Hin]. exists f. split; [left|done].
Qed.

Lemma keyMatchesPrefix_nonempty k p : keyMatchesPrefix k p = true -> falsy p = false.
Proof. unfold keyMatchesPrefix. intros H. by bool_props. Qed.

(** The running configuration differs from the baseline under a critical prefix. *)
Definition critical_drift (prefixes : list string) (runtime b : flat) : Prop :=
  exists f p, difference runtime b f /\ p ∈ prefixes /\ keyMatchesPrefix (f_key f) p = true.

Lemma storage_add_spec max r l :
  (length (storage_add max r l) <= max)%nat /\
  ((0 < max)%nat -> storage_latest (storage_add max r l) = Some r).
Proof.
  unfold storage_add, storage_latest. split.
  - rewrite length_drop. lia.
  - intros Hm. rewrite length_app. cbn. rewrite drop_app_le by (rewrite ?length_app; lia).
    apply last_snoc.
Qed.

Section audit.
Context (SN JN : number -> string) (localeCompare : string -> string -> comparison).
Context (sha256hex : string -> string).

(** an audit that is not already in progress and has a baseline stores its
    report as the latest of at most [maxInMemory], and calls the PagerDuty client
    exactly when alerts are enabled, a client is configured, and the running
    configuration differs from the baseline at some key under a critical prefix;
    the next audits are skipped only until that call is answered. *)
Theorem audit_alerts_critical_drift policy hasClient maxInMemory now config a b :
  running a = false -> baseline a = Some b -> (0 < maxInMemory)%nat ->
  let runtime := flatten SN JN config in
  let report := computeDriftReport SN JN localeCompare now now ("cfgdrift:" +:+ print_Z now)
                  config None (flattened b) (b_hash b) in
  let a' := runOnce SN JN localeCompare sha256hex policy hasClient maxInMemory now (Some config) a in
  storage_latest (storage a') = Some (now, report) /\
  (length (storage a') <= maxInMemory)%nat /\
  (running a' = true <-> enabled policy = true /\ hasClient = true /\
     critical_drift (criticalKeyPrefixes policy) runtime (flattened b)) /\
  (if running a'
   then exists p, alerts a' = alerts a ++ [mkAlert (alertIdFor sha256hex report) p report]
   else alerts a' = alerts a) /\
  running (alertAnswered a') = false.
Proof.
  intros Hrun Hbase Hmax runtime report a'.
  destruct (storage_add_spec maxInMemory (now, report) (storage a)) as [Hlen Hlast].
  assert (Hfind : forall f, f ∈ findings report <-> difference runtime (flattened b) f).
  { intros f. unfold report, computeDriftReport. cbn [findings].
    rewrite elem_of_sort_by. apply elem_of_diff. }
  unfold a', runOnce. rewrite Hrun, Hbase. cbn zeta. fold report.
  unfold buildAlertIfCritical. pose proof (pickCriticalPrefix_spec (criticalKeyPrefixes policy) (findings report)) as Hpick.
  destruct (enabled policy); cbn [negb].
  2:{ cbn. split_and!; try done; [by apply Hlast|]. naive_solver. }
  destruct (pickCriticalPrefix _ _) as [p|].
  - destruct Hpick as (f & Hf & Hp & Hm). rewrite (keyMatchesPrefix_nonempty _ _ Hm).
    assert (Hcrit : critical_drift (criticalKeyPrefixes policy) runtime (flattened b))
      by (exists f, p; by rewrite <- Hfind).
    destruct (findings report) as [|f0 l]; [by apply not_elem_of_nil in Hf|].
    destruct hasClient; cbn; split_and!; try done; try (by apply Hlast); naive_solver.
  - assert (Hno : ~ critical_drift (criticalKeyPrefixes policy) runtime (flattened b)).
    { intros (f & p & Hf%Hfind & Hp & Hm). rewrite (Hpick f p Hf Hp) in Hm. done. }
    destruct (findings report); cbn; split_and!; try done; try (by apply Hlast); naive_solver.
Qed.
End audit.

Module Examples.
Local Open Scope string_scope.
Local Open Scope list_scope.

Definition SN (n : number) : string := "n".
Definition leb_compare (a b : string) : comparison := String.compare a b.

Definition config0 : value :=
  VObject [("db", VObject [("host", VString "x"); ("ports", VArray [VString "1"; VBool true])]);
           ("app", VObject [])].

Example flatten_sample :
  entries (flatten SN SN config0) =
  [("app", "{}"); ("db.host", "x"); ("db.ports.0", "1"); ("db.ports.1", "true")].
Proof. vm_compute. reflexivity. Qed.

Example hash_sample : computeHashFromFlattened (flatten SN SN config0) = "3196f7ee".
Proof. vm_compute. reflexivity. Qed.

Definition baseline0 : flat := flatten SN SN (VObject [("db", VObject [("host", VString "y")])]).
Definition runtime0 : flat := flatten SN SN config0.

Lemma diff_reports_differences_witness :
  diffFlattenedConfigs runtime0 baseline0 =
    [KeyAdded "app" "{}"; KeyAdded "db.ports.0" "1"; KeyAdded "db.ports.1" "true";
     ValueChange "db.host" "y" "x"] /\
  NoDup (f_key <$> diffFlattenedConfigs runtime0 baseline0).
Proof.
  split; [vm_compute; reflexivity|].
  refine (proj1 (proj2 (diff_reports_differences SN SN leb_compare runtime0 baseline0 _ _)));
    apply (bool_decide_eq_true_1 (NoDup _)); vm_compute; reflexivity.
Defined.

(** The same entries inserted in another order. *)
Lemma hash_is_djb2_witness :
  computeHashFromFlattened (JsMap [("a", "1"); ("b", "2")]) =
  computeHashFromFlattened (JsMap [("b", "2"); ("a", "1")]).
Proof.
  refine (proj2 (proj2 (hash_is_djb2 (JsMap [("a", "1"); ("b", "2")]) (JsMap [("b", "2"); ("a", "1")]) _ _ _))).
  - apply (bool_decide_eq_true_1 (NoDup _)). vm_compute. reflexivity.
  - apply (bool_decide_eq_true_1 (NoDup _)). vm_compute. reflexivity.
  - intros k. unfold lookup, jsmap_lookup. cbn. by repeat case_decide; simplify_eq.
Defined.

Definition auditor0 : Auditor := mkAuditor (Some (mkBaseline baseline0 "h")) false [] [].

Lemma audit_alerts_critical_drift_witness :
  let policy := mkPolicy true ["tls"; "db"] in
  let a := runOnce SN SN leb_compare (fun s => s) policy true 240 7 (Some config0) auditor0 in
  running a = true /\ critical_drift ["tls"; "db"] runtime0 baseline0.
Proof.
  cbn zeta. split; [vm_compute; reflexivity|].
  destruct (audit_alerts_critical_drift SN SN leb_compare (fun s => s) (mkPolicy true ["tls"; "db"])
    true 240 7 config0 auditor0 (mkBaseline baseline0 "h") eq_refl eq_refl ltac:(lia))
    as (_ & _ & H & _). apply H. vm_compute. reflexivity.
Defined.

(** A dotted key and a nested member flatten to the same entry. *)
Lemma flatten_merges_dotted_keys :
  flatten SN SN (VObject [("a.b", VString "1")]) =
  flatten SN SN (VObject [("a", VObject [("b", VString "1")])]).
Proof. vm_compute. reflexivity. Qed.
End Examples.
