(* ===== verification/Tasks.v ===== *)
(** * Tasks: asynchronous methods over a shared object

    A method of an object is an [io]: it returns, throws, changes the object
    without waiting ([Sync]) or awaits an answer ([Await]), which is either that of
    a function of the state or a rejection.  A [World] holds the object and the
    calls in progress; a call runs without interruption from one [Await] to the
    next.  Between them anything else may happen: other calls, rejections, and
    [Outside] events.

    [tasks_run_safe] is the proof rule: an invariant that holds at every await and
    an order in which the state grows; each method is verified on its own ([ok]). *)

From stdpp Require Import base list gmap.
From S2P Require Import Prelude.

Section io.
Context {S E : Type}.

Inductive io (A : Type) : Type :=
  | Done (a : A)
  | Fails (e : E)
  | Sync {B : Type} (f : S -> S * B) (k : B -> io A)
  | Await {B : Type} (q : S -> S * (E + B)) (k : E + B -> io A).
Arguments Done {A} _.
Arguments Fails {A} _.
Arguments Sync {A B} _ _.
Arguments Await {A B} _ _.

Definition io_of {A} (r : E + A) : io A := match r with inl e => Fails e | inr a => Done a end.

(** [await q], whose rejection is thrown. *)
Definition awaiting {B} (q : S -> S * (E + B)) : io B := Await q io_of.

Fixpoint io_bind {A B} (p : io A) (f : A -> io B) : io B :=
  match p with
  | Done a => f a
  | Fails e => Fails e
  | Sync g k => Sync g (fun b => io_bind (k b) f)
  | Await q k => Await q (fun r => io_bind (k r) f)
  end.

(** [try { p } catch (e) { h(e) }] *)
Fixpoint io_catch {A} (p : io A) (h : E -> io A) : io A :=
  match p with
  | Done a => Done a
  | Fails e => h e
  | Sync g k => Sync g (fun b => io_catch (k b) h)
  | Await q k => Await q (fun r => io_catch (k r) h)
  end.

(** A call runs to its next await. *)
Fixpoint proceed {A} (p : io A) (s : S) : S * io A :=
  match p with
  | Sync f k => let '(s', b) := f s in proceed (k b) s'
  | _ => (s, p)
  end.

(** A call that nothing disturbs: every answer comes at once. *)
Fixpoint solo {A} (p : io A) (s : S) : S * (E + A) :=
  match p with
  | Done a => (s, inr a)
  | Fails e => (s, inl e)
  | Sync f k => let '(s', b) := f s in solo (k b) s'
  | Await q k => let '(s', r) := q s in solo (k r) s'
  end.

Lemma solo_bind {A B} (p : io A) (f : A -> io B) s s' a :
  solo p s = (s', inr a) -> solo (io_bind p f) s = solo (f a) s'.
Proof.
  revert s. induction p as [b|e|C g k IH|C q k IH]; cbn; intros s.
  - by intros [= <- <-].
  - done.
  - destruct (g s). apply IH.
  - destruct (q s). apply IH.
Qed.

Lemma solo_catch {A} (p : io A) h s s' a : solo p s = (s', inr a) -> solo (io_catch p h) s = (s', inr a).
Proof.
  revert s. induction p as [b|e|C g k IH|C q k IH]; cbn; intros s; try done.
  - destruct (g s). apply IH.
  - destruct (q s). apply IH.
Qed.
End io.

Arguments io : clear implicits.
Arguments Done {S E A} _.
Arguments Fails {S E A} _.
Arguments Sync {S E A B} _ _.
Arguments Await {S E A B} _ _.

Section tasks.
Context {S E A Call Ext : Type}.
Context (method : Call -> io S E A) (outside : Ext -> S -> S).

Record World := mkWorld { state : S; tasks : gmap nat (Call * io S E A) }.

Inductive Event :=
  | Launch (id : nat) (c : Call)
  | Answered (id : nat)
  | Rejected (id : nat) (e : E)
  | Outside (x : Ext).

Definition go (w : World) (id : nat) (c : Call) (p : io S E A) (s : S) : World :=
  let '(s', p') := proceed p s in mkWorld s' (<[id := (c, p')]> (tasks w)).

Definition step (w : World) (ev : Event) : World :=
  match ev with
  | Launch id c =>
      match tasks w !! id with None => go w id c (method c) (state w) | Some _ => w end
  | Answered id =>
      match tasks w !! id with
      | Some (c, Await q k) => let '(s, r) := q (state w) in go w id c (k r) s
      | _ => w
      end
  | Rejected id e =>
      match tasks w !! id with
      | Some (c, Await q k) => go w id c (k (inl e)) (state w)
      | _ => w
      end
  | Outside x => mkWorld (outside x (state w)) (tasks w)
  end.

Definition run (s : S) (evs : list Event) : World := foldl step (mkWorld s ∅) evs.

(** The outcome of a call that has ended. *)
Definition outcome (w : World) (id : nat) : option (Call * (E + A)) :=
  match tasks w !! id with
  | Some (c, Done a) => Some (c, inr a)
  | Some (c, Fails e) => Some (c, inl e)
  | _ => None
  end.

(** ** The proof rule *)

Context (Inv : S -> Prop) (le : S -> S -> Prop) (Post : Call -> E + A -> S -> Prop).

(** From a state where a call has just got the turn: the invariant holds when it
    waits or ends, [Q] when it ends, and the state grows. *)
Fixpoint ok {B} (Q : E + B -> S -> Prop) (p : io S E B) (s : S) : Prop :=
  match p with
  | Done a => Q (inr a) s
  | Fails e => Q (inl e) s
  | Sync f k => let '(s', b) := f s in le s s' /\ ok Q (k b) s'
  | Await q k =>
      Inv s /\ forall s1, le s s1 -> Inv s1 ->
        (let '(s2, r) := q s1 in le s1 s2 /\ ok Q (k r) s2) /\ (forall e, ok Q (k (inl e)) s1)
  end.

Class TaskProtocol : Prop := {
  le_refl s : le s s;
  le_trans s1 s2 s3 : le s1 s2 -> le s2 s3 -> le s1 s3;
  outside_le x s : Inv s -> Inv (outside x s) /\ le s (outside x s);
  result_stable c r s s' : le s s' -> Post c r s -> Post c r s';
  method_ok c s : Inv s -> ok (fun r s' => Inv s' /\ Post c r s') (method c) s
}.

Lemma ok_mono {B} (Q Q' : E + B -> S -> Prop) p s :
  (forall r s', Q r s' -> Q' r s') -> ok Q p s -> ok Q' p s.
Proof.
  intros HQ. revert s. induction p as [a|e|C f k IH|C q k IH]; cbn; intros s; [apply HQ..| |].
  - destruct (f s) as [s' b]. intros [? ?]. auto.
  - intros [HI H]. split; [done|]. intros s1 Hle H1. destruct (H s1 Hle H1) as [Ha He]. split; [|auto].
    destruct (q s1) as [s2 r]. destruct Ha. auto.
Qed.

Lemma ok_bind {B C} (Q1 : E + B -> S -> Prop) (Q2 : E + C -> S -> Prop) p f s :
  ok Q1 p s ->
  (forall a s', Q1 (inr a) s' -> ok Q2 (f a) s') ->
  (forall e s', Q1 (inl e) s' -> Q2 (inl e) s') ->
  ok Q2 (io_bind p f) s.
Proof.
  intros Hp Hf He. revert s Hp. induction p as [a|e|D g k IH|D q k IH]; cbn; intros s; [apply Hf|apply He| |].
  - destruct (g s) as [s' b]. intros [? ?]. auto.
  - intros [HI H]. split; [done|]. intros s1 Hle H1. destruct (H s1 Hle H1) as [Ha Hr]. split; [|auto].
    destruct (q s1) as [s2 r]. destruct Ha. auto.
Qed.

Lemma ok_catch {B} (Q1 Q2 : E + B -> S -> Prop) p h s :
  ok Q1 p s ->
  (forall e s', Q1 (inl e) s' -> ok Q2 (h e) s') ->
  (forall a s', Q1 (inr a) s' -> Q2 (inr a) s') ->
  ok Q2 (io_catch p h) s.
Proof.
  intros Hp Hh Ha. revert s Hp. induction p as [a|e|D g k IH|D q k IH]; cbn; intros s; [apply Ha|apply Hh| |].
  - destruct (g s) as [s' b]. intros [? ?]. auto.
  - intros [HI H]. split; [done|]. intros s1 Hle H1. destruct (H s1 Hle H1) as [Hq Hr]. split; [|auto].
    destruct (q s1) as [s2 r]. destruct Hq. auto.
Qed.

Lemma ok_awaiting {B} (q : S -> S * (E + B)) (Q : E + B -> S -> Prop) s :
  Inv s ->
  (forall s1, le s s1 -> Inv s1 ->
     (let '(s2, r) := q s1 in le s1 s2 /\ Q r s2) /\ (forall e, Q (inl e) s1)) ->
  ok Q (awaiting q) s.
Proof.
  intros HI H. split; [done|]. intros s1 Hle H1. destruct (H s1 Hle H1) as [Ha He]. split; [|done].
  destruct (q s1) as [s2 [e|b]]; done.
Qed.

(** The state at the end of a call has grown. *)
Section growing.
Hypothesis grow_refl : forall s, le s s.
Hypothesis grow_trans : forall s1 s2 s3, le s1 s2 -> le s2 s3 -> le s1 s3.

Lemma ok_grows {B} (Q : E + B -> S -> Prop) p s : ok Q p s -> ok (fun r s' => le s s' /\ Q r s') p s.
Proof.
  revert s. induction p as [a|e|C f k IH|C q k IH]; cbn; intros s.
  - by split.
  - by split.
  - destruct (f s) as [s' b]. intros [Hle Hk]. split; [done|]. eapply ok_mono; [|by apply IH].
    intros r s2 [? ?]. split; [by eapply grow_trans|done].
  - intros [HI H]. split; [done|]. intros s1 Hle H1. destruct (H s1 Hle H1) as [Ha He]. split.
    + destruct (q s1) as [s2 r]. destruct Ha as [Hle' Hk]. split; [done|]. eapply ok_mono; [|by apply IH].
      intros r' s3 [? ?]. split; [|done]. eapply grow_trans; [done|]. by eapply grow_trans.
    + intros e. eapply ok_mono; [|by apply IH]. intros r' s3 [? ?]. split; [by eapply grow_trans|done].
Qed.

Lemma ok_then {B C} (Q1 : E + B -> S -> Prop) (Q2 : E + C -> S -> Prop) p f s :
  ok Q1 p s ->
  (forall a s', le s s' -> Q1 (inr a) s' -> ok Q2 (f a) s') ->
  (forall e s', le s s' -> Q1 (inl e) s' -> Q2 (inl e) s') ->
  ok Q2 (io_bind p f) s.
Proof.
  intros Hp Hf He. eapply ok_bind; [by apply ok_grows| |]; cbn.
  - intros a s' [? ?]. by apply Hf.
  - intros e s' [? ?]. by apply He.
Qed.
End growing.

Context {protocol : TaskProtocol}.

Lemma proceed_ok {B} (Q : E + B -> S -> Prop) p s :
  ok (fun r s' => Inv s' /\ Q r s') p s ->
  let '(s', p') := proceed p s in le s s' /\ Inv s' /\ ok (fun r s' => Inv s' /\ Q r s') p' s'.
Proof.
  revert s. induction p as [a|e|C f k IH|C q k IH]; cbn; intros s.
  - intros [? ?]. split; [apply le_refl|]. auto.
  - intros [? ?]. split; [apply le_refl|]. auto.
  - destruct (f s) as [s' b]. intros [Hle Hk]. specialize (IH b s' Hk). destruct (proceed (k b) s') as [s2 p2].
    destruct IH as (? & ? & ?). split; [by eapply le_trans|done].
  - intros [? ?]. split; [apply le_refl|]. auto.
Qed.

(** A call that waits or has ended stays fine while the state grows. *)
Definition waitsFor (P : E + A -> S -> Prop) (p : io S E A) (s : S) : Prop :=
  match p with
  | Sync _ _ => False
  | _ => ok (fun r s' => Inv s' /\ P r s') p s
  end.
Definition waits (c : Call) : io S E A -> S -> Prop := waitsFor (Post c).

Definition tasks_ok (w : World) : Prop :=
  Inv (state w) /\ forall id c p, tasks w !! id = Some (c, p) -> waits c p (state w).

Lemma proceed_waits {B} (p : io S E B) s : match (proceed p s).2 with Sync _ _ => False | _ => True end.
Proof. revert s. induction p as [a|e|C f k IH|C q k IH]; cbn; intros s; try done. destruct (f s). apply IH. Qed.

Lemma waitsFor_le (P : E + A -> S -> Prop) p s s' :
  (forall r s s', le s s' -> P r s -> P r s') -> le s s' -> Inv s' -> waitsFor P p s -> waitsFor P p s'.
Proof.
  intros HP Hle HI. destruct p as [a|e|B f k|B q k]; cbn; [| |by intros []|].
  - intros [_ H]. split; [done|]. by eapply HP.
  - intros [_ H]. split; [done|]. by eapply HP.
  - intros [_ H]. split; [done|]. intros s1 H1. apply H. by eapply le_trans.
Qed.

Lemma waits_le c p s s' : le s s' -> Inv s' -> waits c p s -> waits c p s'.
Proof. apply waitsFor_le. intros r s1 s2. apply result_stable. Qed.

Lemma go_waits (P : E + A -> S -> Prop) w id c p s :
  ok (fun r s' => Inv s' /\ P r s') p s ->
  le s (state (go w id c p s)) /\ exists p', tasks (go w id c p s) !! id = Some (c, p') /\ waitsFor P p' (state (go w id c p s)).
Proof.
  intros Hp. unfold go. pose proof (proceed_ok _ p s Hp) as Hgo. pose proof (proceed_waits p s) as Hw.
  destruct (proceed p s) as [s' p']. cbn in Hw. destruct Hgo as (Hle' & HI' & Hp'). split; cbn; [done|].
  exists p'. rewrite lookup_insert_eq. split; [done|]. by destruct p'.
Qed.

Lemma go_ok w id c p s :
  tasks_ok w -> le (state w) s -> ok (fun r s' => Inv s' /\ Post c r s') p s -> tasks_ok (go w id c p s).
Proof.
  intros [_ Ht] Hle Hp. unfold go. pose proof (proceed_ok _ p s Hp) as Hgo. pose proof (proceed_waits p s) as Hw.
  destruct (proceed p s) as [s' p']. cbn in Hw. destruct Hgo as (Hle' & HI' & Hp'). split; cbn; [done|].
  intros id' c' q. rewrite lookup_insert_Some. intros [[_ [= <- <-]]|[_ Hq]].
  - by destruct p'.
  - apply (waits_le c' q (state w)); [by apply (le_trans _ s)|done|by apply (Ht id')].
Qed.

Lemma step_ok w ev : tasks_ok w -> tasks_ok (step w ev).
Proof.
  intros Hw. pose proof Hw as [HI Ht].
  destruct ev as [id c|id|id e|x]; cbn [step].
  - destruct (tasks w !! id); [done|]. apply go_ok; [done|apply le_refl|by apply method_ok].
  - destruct (tasks w !! id) as [[c [a|e|B f k|B q k]]|] eqn:Hid; try done.
    destruct (Ht id c _ Hid) as [_ H]. destruct (H (state w) (le_refl _) HI) as [Ha _].
    destruct (q (state w)) as [s r]. destruct Ha. by apply go_ok.
  - destruct (tasks w !! id) as [[c [a|e'|B f k|B q k]]|] eqn:Hid; try done.
    destruct (Ht id c _ Hid) as [_ H]. destruct (H (state w) (le_refl _) HI) as [_ He].
    apply go_ok; [done|apply le_refl|apply He].
  - destruct (outside_le x (state w) HI) as [HI' Hle]. split; cbn; [done|]. intros id c p Hp.
    eapply waits_le; [done|done|by eapply Ht].
Qed.

(** What is proved of a call from the state it is launched in holds of its outcome. *)
Section launched.
Context (P : E + A -> S -> Prop) (id : nat) (c : Call).
Hypothesis P_stable : forall r s s', le s s' -> P r s -> P r s'.

Definition underWay (w : World) : Prop :=
  tasks_ok w /\ exists p, tasks w !! id = Some (c, p) /\ waitsFor P p (state w).

Lemma underWay_go w id' c' p s :
  underWay w -> le (state w) s -> ok (fun r s' => Inv s' /\ Post c' r s') p s ->
  (id' = id -> c' = c /\ ok (fun r s' => Inv s' /\ P r s') p s) -> underWay (go w id' c' p s).
Proof.
  intros [Hw (p0 & Hid & Hp0)] Hle Hp Hown. pose proof (go_ok w id' c' p s Hw Hle Hp) as Hok. split; [done|].
  destruct (decide (id' = id)) as [->|Hne].
  - destruct (Hown eq_refl) as [-> HP]. by apply go_waits.
  - exists p0. pose proof (proj1 (go_waits (Post c') w id' c' p s Hp)) as Hs. split.
    + unfold go. destruct (proceed p s). cbn. by rewrite lookup_insert_ne.
    + apply (waitsFor_le P _ (state w)); [done|by apply (le_trans _ s)|by apply Hok|done].
Qed.

Lemma underWay_step w ev : underWay w -> underWay (step w ev).
Proof.
  intros Hu. pose proof Hu as [Hw (p0 & Hid0 & Hp0)]. pose proof Hw as [HI Ht].
  destruct ev as [id' c'|id'|id' e|x]; cbn [step].
  - destruct (tasks w !! id') eqn:E'; [done|]. apply underWay_go; [done|apply le_refl|by apply method_ok|]. intros ->. congruence.
  - destruct (tasks w !! id') as [[c' [a|e|B f k|B q k]]|] eqn:Hid; try done.
    destruct (Ht id' c' _ Hid) as [_ H]. destruct (H (state w) (le_refl _) HI) as [Ha _].
    assert (Hown : id' = id -> c' = c /\ let '(s, r) := q (state w) in ok (fun r s' => Inv s' /\ P r s') (k r) s).
    { intros ->. rewrite Hid0 in Hid. injection Hid as -> ->. split; [done|]. destruct Hp0 as [_ Hown].
      destruct (Hown (state w) (le_refl _) HI) as [H1 _]. destruct (q (state w)). apply H1. }
    destruct (q (state w)) as [s r]. destruct Ha. by apply underWay_go.
  - destruct (tasks w !! id') as [[c' [a|e'|B f k|B q k]]|] eqn:Hid; try done.
    destruct (Ht id' c' _ Hid) as [_ H]. destruct (H (state w) (le_refl _) HI) as [_ He].
    apply underWay_go; [done|apply le_refl|apply He|]. intros ->. rewrite Hid0 in Hid. injection Hid as -> ->.
    split; [done|]. destruct Hp0 as [_ Hown]. by apply (Hown (state w) (le_refl _) HI).
  - split; [by apply (step_ok w (Outside x))|]. exists p0. split; [done|]. destruct (outside_le x (state w) HI) as [HI' Hle].
    by eapply waitsFor_le.
Qed.

Lemma launched_safe w evs c' r :
  tasks_ok w -> tasks w !! id = None -> ok (fun r s' => Inv s' /\ P r s') (method c) (state w) ->
  outcome (foldl step (step w (Launch id c)) evs) id = Some (c', r) ->
  c' = c /\ P r (state (foldl step (step w (Launch id c)) evs)).
Proof.
  intros Hw Hid Hok. assert (Hu : underWay (step w (Launch id c))).
  { split; [by apply step_ok|]. cbn. rewrite Hid. by apply go_waits. }
  revert Hu. generalize (step w (Launch id c)). clear Hok Hid Hw w. induction evs as [|ev evs IH]; intros w Hu.
  - destruct Hu as [_ (p & Hp & Hwait)]. cbn. unfold outcome. rewrite Hp.
    destruct p as [a|e|B f k|B q k]; try done; intros [= <- <-]; split; try done; apply Hwait.
  - cbn. apply IH. by apply underWay_step.
Qed.
End launched.

Lemma run_ok s evs : Inv s -> tasks_ok (run s evs).
Proof.
  intros HI. unfold run. assert (H0 : tasks_ok (mkWorld s ∅)) by (split; cbn; [done|]; intros ? ? ?; by rewrite lookup_empty).
  revert H0. generalize (mkWorld s ∅). induction evs as [|ev evs IH]; [done|]. intros w Hw. apply IH, step_ok, Hw.
Qed.

Lemma tasks_run_safe s evs :
  Inv s ->
  Inv (state (run s evs)) /\
  forall id c r, outcome (run s evs) id = Some (c, r) -> Post c r (state (run s evs)).
Proof.
  intros HI. pose proof (run_ok s evs HI) as H.
  destruct H as [HI' Ht]. split; [done|]. intros id c r. unfold outcome.
  destruct (tasks (run s evs) !! id) as [[c' [a|e|B f k|B q k]]|] eqn:Hid; try done; intros [= -> <-];
    apply (Ht id c _ Hid).
Qed.
End tasks.

(** A stronger invariant that the growth of the state keeps is as good. *)
Lemma ok_weaken {S E B} (I I' : S -> Prop) (le : S -> S -> Prop) (Q : E + B -> S -> Prop) (p : io S E B) s :
  (forall s, I' s -> I s) -> (forall s s1, I' s -> le s s1 -> I s1 -> I' s1) -> ok I' le Q p s -> ok I le Q p s.
Proof.
  intros H1 H2. revert s. induction p as [a|e|C f k IH|C q k IH]; cbn; intros s; [done..| |].
  - destruct (f s) as [s' b]. intros [? ?]. auto.
  - intros [HI H]. split; [auto|]. intros s1 Hle Hs1. destruct (H s1 Hle (H2 s s1 HI Hle Hs1)) as [Ha He]. split; [|auto].
    destruct (q s1) as [s2 r]. destruct Ha. auto.
Qed.

Arguments Launch {E Call Ext} _ _.
Arguments Answered {E Call Ext} _.
Arguments Rejected {E Call Ext} _ _.
Arguments Outside {E Call Ext} _.
