(* ===== verification/Cache.v ===== *)
(** * The cache ([src/src/cache/cache_layer.ts])

    The map in memory with its eviction and the Redis behind it, as calls over the
    tasks of [Tasks]: connecting, a command to Redis and the loader are awaits.
    Redis keeps a value until its time to live is over; a command can fail instead,
    and then has no effect.
    Values are encoded by an argument of the model; [null] is [None].  Counters and
    the metrics text are left out; the clock does not go back.

    [cached_values_fresh]: what a call finds in the cache was stored under its key
    and had not expired at some moment after the call was launched, and the map never
    outgrows its bound. *)

From Stdlib Require Import ZArith Lia Ascii String QArith Qround.
From stdpp Require Import base list strings gmap.
From S2P Require Import Prelude Js Text Number Tasks.
#[local] Open Scope Z_scope.

Definition DEFAULT_TTL_SECONDS : Z := 300.
Definition DEFAULT_NAMESPACE : string := "verinode".
Definition DEFAULT_MAX_ENTRIES : Z := 10000.

Record MemoryEntry := mkEntry { value : string; expiresAtMs : number }.

Inductive CacheError := BadTtl | BadJson | RedisError (message : string) | LoaderError (message : string).

(** [Math.ceil], [Math.max(1, n)] *)
Definition ceiling (n : number) : number := match n with Finite q => int (Qceiling q) | _ => n end.
Definition atLeastOne (n : number) : number := match n with NaN => NaN | _ => if num_ge n (int 1) then n else int 1 end.

Definition normalizeTtlSeconds (ttlSeconds : option number) (fallback : number) : CacheError + number :=
  let ttl := default fallback ttlSeconds in
  if negb (isFinite ttl) || num_ge (int 0) ttl then inl BadTtl else inr (ceiling ttl).

(** A character of the class [a-zA-Z0-9:_-] *)
Definition nameChar (c : ascii) : bool :=
  let n := code c in
  ((65 <=? n)%nat && (n <=? 90)%nat) || ((97 <=? n)%nat && (n <=? 122)%nat) || is_digit c ||
  bool_decide (c = ":"%char) || bool_decide (c = "_"%char) || bool_decide (c = "-"%char).

Fixpoint safeNamespace (s : string) : string :=
  match s with
  | EmptyString => EmptyString
  | String c s' => String (if nameChar c then c else "_"%char) (safeNamespace s')
  end.

Record CacheLayer := mkCache {
  redisUrl : bool;                         (* given and not empty *)
  defaultTtlSeconds : number;
  namespace : string;
  maxEntries : number
}.

Definition new_CacheLayer (url : option string) (ttl : option number) (ns : option string) (max : option number) :
    CacheError + CacheLayer :=
  match normalizeTtlSeconds ttl (int DEFAULT_TTL_SECONDS) with
  | inl e => inl e
  | inr d =>
      inr (mkCache (match url with Some u => negb (falsy u) | None => false end) d
             (safeNamespace (default DEFAULT_NAMESPACE ns))
             (atLeastOne (floor (default (int DEFAULT_MAX_ENTRIES) max))))
  end.

(** When a value stored at [t] for [ttl] seconds expires. *)
Definition deadline (t : Z) (ttl : number) : number := num_add (int t) (num_mul ttl (int 1000)).

(** A value that was stored: under which key, when and for how long. *)
Record Stored := mkStored { st_key : string; st_value : string; st_at : Z; st_ttl : number }.

Record State := mkState {
  memory : jsmap string MemoryEntry;
  redisClient : bool;
  redisUnavailable : bool;
  redis : gmap string (string * number);   (* the server: values and their expiry *)
  clock : Z;
  history : list Stored
}.

Definition new_State (now : Z) : State := mkState ∅ false false ∅ now [].

Section cache.
Context {V : Type}.                         (* values other than null *)
Context (stringify : option V -> string) (parse : string -> option (option V)).
Context (c : CacheLayer).

Abbreviation IO := (io State CacheError).

Definition cacheKey (key : string) : string := namespace c +:+ ":" +:+ key.

Definition set_memory (m : jsmap string MemoryEntry) (s : State) : State :=
  mkState m (redisClient s) (redisUnavailable s) (redis s) (clock s) (history s).
Definition set_unavailable (b : bool) (s : State) : State :=
  mkState (memory s) (redisClient s) b (redis s) (clock s) (history s).
Definition set_redis (r : gmap string (string * number)) (s : State) : State :=
  mkState (memory s) (redisClient s) (redisUnavailable s) r (clock s) (history s).
Definition store_note (key v : string) (ttl : number) (s : State) : State :=
  mkState (memory s) (redisClient s) (redisUnavailable s) (redis s) (clock s)
    (mkStored key v (clock s) ttl :: history s).

(** [this.redisUrl && !this.redisUnavailable] *)
Definition usesRedis (s : State) : bool := redisUrl c && negb (redisUnavailable s).

(** *** Memory *)

Definition memoryGet (key : string) (s : State) : State * option string :=
  let namespaced := cacheKey key in
  match memory s !! namespaced with
  | None => (s, None)
  | Some entry =>
      if num_ge (int (clock s)) (expiresAtMs entry) then (set_memory (delete namespaced (memory s)) s, None)
      else (s, Some (value entry))
  end.

(** The map after the eviction of its oldest key, if it is full. *)
Definition evicted (m : jsmap string MemoryEntry) : jsmap string MemoryEntry :=
  if num_ge (int (Z.of_nat (map_size m))) (maxEntries c) then
    match map_keys m with
    | oldest :: _ => if falsy oldest then m else delete oldest m
    | [] => m
    end
  else m.

Definition memorySet (key v : string) (ttl : number) (s : State) : State :=
  let s := store_note key v ttl s in
  set_memory (<[cacheKey key := mkEntry v (deadline (clock s) ttl)]> (evicted (memory s))) s.

(** *** Redis *)

Definition connect : IO unit :=
  io_bind (awaiting (fun s => (s, inr tt))) (fun _ =>
  Sync (fun s => (mkState (memory s) true false (redis s) (clock s) (history s), tt)) Done).

Definition getRedisClient : IO unit :=
  Sync (fun s => (s, redisClient s)) (fun connected => if connected : bool then Done tt else connect).

Definition redisGet (key : string) : IO (option string) :=
  io_bind getRedisClient (fun _ =>
  awaiting (fun s => (s, inr match redis s !! cacheKey key with
                           | Some (v, expiry) => if num_ge (int (clock s)) expiry then None else Some v
                           | None => None
                           end))).

Definition redisSet (key v : string) (ttl : number) : IO unit :=
  io_bind getRedisClient (fun _ =>
  awaiting (fun s => let s := store_note key v ttl s in
                     (set_redis (<[cacheKey key := (v, deadline (clock s) ttl)]> (redis s)) s, inr tt))).

Definition redisDel (key : string) : IO unit :=
  io_bind getRedisClient (fun _ =>
  awaiting (fun s => (set_redis (delete (cacheKey key) (redis s)) s, inr tt))).

(** *** Calls *)

Definition decode (encoded : option string) : IO (option V) :=
  match encoded with
  | None => Done None
  | Some t => match parse t with Some v => Done v | None => Fails BadJson end
  end.

(** [get] when Redis is not in use. *)
Definition getMemory (key : string) : IO (option V) := Sync (memoryGet key) decode.

(** The catch of [get] and [set]: whether to go on without Redis. *)
Definition giveUpRedis {A} (e : CacheError) (fallback : IO A) : IO A :=
  Sync (fun s => if usesRedis s then (set_unavailable true s, true) else (s, false))
    (fun again => if again : bool then fallback else Fails e).

Definition get (key : string) : IO (option V) :=
  Sync (fun s => (s, usesRedis s)) (fun useRedis =>
  if useRedis : bool
  then io_catch (io_bind (redisGet key) decode) (fun e => giveUpRedis e (getMemory key))
  else getMemory key).

Definition setMemory (key v : string) (ttl : number) : IO unit :=
  Sync (fun s => (memorySet key v ttl s, tt)) Done.

Definition set (key : string) (v : option V) (ttlSeconds : option number) : IO unit :=
  match normalizeTtlSeconds ttlSeconds (defaultTtlSeconds c) with
  | inl e => Fails e
  | inr ttl =>
      Sync (fun s => (s, usesRedis s)) (fun useRedis =>
      if useRedis : bool
      then io_catch (redisSet key (stringify v) ttl) (fun e => giveUpRedis e (setMemory key (stringify v) ttl))
      else setMemory key (stringify v) ttl)
  end.

Definition delete_ (key : string) : IO unit :=
  Sync (fun s => let s := set_memory (delete (cacheKey key) (memory s)) s in (s, usesRedis s)) (fun useRedis =>
  if useRedis : bool
  then io_catch (redisDel key) (fun _ => Sync (fun s => (set_unavailable true s, tt)) Done)
  else Done tt).

(** [loaded]: what the loader returns, unless it throws. *)
Definition getOrSet (key : string) (loaded : option V) (ttlSeconds : option number) : IO (option V) :=
  io_bind (get key) (fun cached =>
  match cached with
  | Some v => Done (Some v)
  | None =>
      io_bind (awaiting (fun s => (s, inr loaded))) (fun value =>
      io_bind (set key value ttlSeconds) (fun _ => Done value))
  end).

Inductive Call :=
  | Get (key : string)
  | Set_ (key : string) (v : option V) (ttlSeconds : option number)
  | Delete (key : string)
  | GetOrSet (key : string) (loaded : option V) (ttlSeconds : option number).

Definition method (call : Call) : IO (option V) :=
  match call with
  | Get key => get key
  | Set_ key v ttl => io_bind (set key v ttl) (fun _ => Done None)
  | Delete key => io_bind (delete_ key) (fun _ => Done None)
  | GetOrSet key loaded ttl => getOrSet key loaded ttl
  end.

(** Time passes; the client emits 'error'. *)
Inductive Ext := Tick (ms : Z) | ClientError.

Definition outside (x : Ext) (s : State) : State :=
  match x with
  | Tick ms => mkState (memory s) (redisClient s) (redisUnavailable s) (redis s) (clock s + Z.max 0 ms) (history s)
  | ClientError => set_unavailable true s
  end.

Definition calls (now : Z) (evs : list (Event (E := CacheError) (Call := Call) (Ext := Ext))) :=
  run method outside (new_State now) evs.

(** ** Freshness *)

(** [v] was stored under [key], to expire at [expiry]. *)
Definition storedAs (s : State) (key v : string) (expiry : number) : Prop :=
  exists h, h ∈ history s /\ st_key h = key /\ st_value h = v /\ expiry = deadline (st_at h) (st_ttl h) /\
    st_at h <= clock s.

(** The invariant of a run since some moment *)
Context (since : Z).

(** [v] was stored under [key], and at some moment from [since] on had been and was not
    expired. *)
Definition fresh (key : string) (v : V) (s : State) : Prop :=
  exists h t, h ∈ history s /\ st_key h = key /\ parse (st_value h) = Some (Some v) /\
    st_at h <= t /\ since <= t <= clock s /\ num_ge (int t) (deadline (st_at h) (st_ttl h)) = false.

Record Inv (s : State) : Prop := {
  inv_since : since <= clock s;
  inv_memory key e : memory s !! cacheKey key = Some e -> storedAs s key (value e) (expiresAtMs e);
  inv_redis key v expiry : redis s !! cacheKey key = Some (v, expiry) -> storedAs s key v expiry;
  inv_keys k : k ∈ map_keys (memory s) -> exists key, k = cacheKey key;
  inv_size : num_ge (maxEntries c) (int (Z.of_nat (map_size (memory s)))) = true \/ maxEntries c = NaN
}.

(** What has been stored stays on record, and the clock goes on. *)
Definition grows (s s' : State) : Prop := history s ⊆ history s' /\ clock s <= clock s'.

Lemma grows_refl s : grows s s.
Proof. split; [done|lia]. Qed.

Lemma grows_trans s1 s2 s3 : grows s1 s2 -> grows s2 s3 -> grows s1 s3.
Proof. intros [? ?] [? ?]. split; [set_solver|lia]. Qed.

Lemma storedAs_grows s s' key v x : grows s s' -> storedAs s key v x -> storedAs s' key v x.
Proof. intros [H1 H2] (h & Hh & ? & ? & ? & ?). exists h. split; [by apply H1|]. split_and!; auto. lia. Qed.

Lemma fresh_grows s s' key v : grows s s' -> fresh key v s -> fresh key v s'.
Proof. intros [H1 H2] (h & t & Hh & ? & ? & ? & ? & ?). exists h, t. split; [by apply H1|]. split_and!; auto; lia. Qed.

Lemma fresh_now s key t v x :
  since <= clock s -> storedAs s key t x -> num_ge (int (clock s)) x = false -> parse t = Some (Some v) -> fresh key v s.
Proof. intros Hs (h & Hh & Hk & <- & -> & Hat) Hx Hp. exists h, (clock s). by split_and!; [..|lia|lia|lia|]. Qed.

Lemma cacheKey_inj k k' : cacheKey k = cacheKey k' -> k = k'.
Proof.
  unfold cacheKey. intros E. by do 2 apply app_inv_head_s in E.
Qed.

Lemma cacheKey_truthy k : falsy (cacheKey k) = false.
Proof. unfold cacheKey. by destruct (namespace c). Qed.

(** A bound that [new_CacheLayer] makes. *)
Hypothesis bound_ok : maxEntries c = NaN \/ maxEntries c = Infinite false \/ exists n, 1 <= n /\ maxEntries c = int n.

Lemma num_ge_int a b : num_ge (int a) (int b) = (b <=? a).
Proof. cbn. unfold Qle_bool. cbn. by rewrite !Z.mul_1_r. Qed.

Lemma evicted_lookup m k e : evicted m !! k = Some e -> m !! k = Some e.
Proof.
  unfold evicted. destruct (num_ge _ _); [|done]. destruct (map_keys m) as [|o ks]; [done|]. destruct (falsy o); [done|].
  rewrite jsmap_lookup_delete. by case_decide.
Qed.

Lemma evicted_keys m k : k ∈ map_keys (evicted m) -> k ∈ map_keys m.
Proof.
  unfold evicted. destruct (num_ge _ _); [|done]. destruct (map_keys m) as [|o ks] eqn:E; [by rewrite E|].
  destruct (falsy o); [by rewrite E|]. rewrite map_keys_delete, E, list_elem_of_filter. by intros [_ ?].
Qed.

(** The map has room after an eviction. *)
Lemma evicted_room m k e :
  (forall x, x ∈ map_keys m -> falsy x = false) ->
  num_ge (maxEntries c) (int (Z.of_nat (map_size m))) = true \/ maxEntries c = NaN ->
  num_ge (maxEntries c) (int (Z.of_nat (map_size (<[k := e]> (evicted m))))) = true \/ maxEntries c = NaN.
Proof.
  intros Hk Hs. destruct bound_ok as [Hb|[Hb|(n & Hn & Hb)]]; [by right|by left; rewrite Hb|]. left. rewrite Hb in *.
  destruct Hs as [Hs|Hs]; [|done]. rewrite num_ge_int in Hs |- *. apply Z.leb_le in Hs. apply Z.leb_le.
  rewrite map_size_insert. unfold evicted. rewrite Hb, num_ge_int.
  destruct (Z.leb_spec n (Z.of_nat (map_size m))) as [Hfull|Hfree]; [|case_decide; lia].
  destruct (map_keys m) as [|o ks] eqn:E.
  { rewrite map_size_keys, E in *. cbn in *. lia. }
  rewrite (Hk o ltac:(left)).
  assert (Hd : (map_size (delete o m) < map_size m)%nat).
  { rewrite !map_size_keys, map_keys_delete, E, filter_cons, decide_False by (by intros []). cbn.
    pose proof (length_filter (fun x => x <> o) ks). lia. }
  case_decide; lia.
Qed.

Lemma inv_state s s' :
  Inv s -> memory s' = memory s -> redis s' = redis s -> grows s s' -> Inv s'.
Proof.
  intros [H0 H1 H2 H3 H4] Em Er Hg. split; rewrite ?Em, ?Er; [destruct Hg; lia| | |done..].
  - intros key e He. eapply storedAs_grows; [done|by apply H1].
  - intros key v x Hx. eapply storedAs_grows; [done|by apply H2].
Qed.

Lemma inv_delete k s : Inv s -> Inv (set_memory (delete k (memory s)) s).
Proof.
  intros [H0 H1 H2 H3 H4]. split; cbn; [done| |done| |].
  - intros key e. rewrite jsmap_lookup_delete. case_decide; [done|]. apply H1.
  - intros x. rewrite map_keys_delete, list_elem_of_filter. intros [_ ?]. by apply H3.
  - destruct H4 as [H4|]; [|by right]. left. eapply num_ge_trans; [done|].
    rewrite num_ge_int. apply Z.leb_le. rewrite !map_size_keys, map_keys_delete.
    pose proof (length_filter (fun x => x <> k) (map_keys (memory s))). lia.
Qed.

Lemma noted_grows key v ttl s : grows s (store_note key v ttl s).
Proof. split; [cbn; set_solver|cbn; lia]. Qed.

Lemma memorySet_inv key v ttl s : Inv s -> Inv (memorySet key v ttl s) /\ grows s (memorySet key v ttl s).
Proof.
  intros HI. pose proof (noted_grows key v ttl s) as Hg. split; [|done].
  pose proof (inv_state s (store_note key v ttl s) HI eq_refl eq_refl Hg) as [H0 H1 H2 H3 H4].
  unfold memorySet. set (s1 := store_note key v ttl s) in *. split; cbn; [done|..].
  - intros key' e. rewrite jsmap_lookup_insert. case_decide as E.
    + apply cacheKey_inj in E as <-. intros [= <-]. exists (mkStored key v (clock s) ttl).
      split_and!; first [done|by left|cbn; lia].
    + intros He%evicted_lookup. by apply H1.
  - done.
  - intros k. rewrite map_keys_insert. case_decide; [intros Hk%evicted_keys; by apply H3|].
    intros [Hk%evicted_keys|Hk%list_elem_of_singleton]%elem_of_app; [by apply H3|]. by exists key.
  - apply evicted_room; [|done]. intros x Hx. destruct (H3 x Hx) as [key' ->]. apply cacheKey_truthy.
Qed.

Lemma redisSet_inv key v ttl s :
  Inv s ->
  let s1 := store_note key v ttl s in
  let s2 := set_redis (<[cacheKey key := (v, deadline (clock s1) ttl)]> (redis s1)) s1 in
  Inv s2 /\ grows s s2.
Proof.
  intros HI. cbn zeta. pose proof (noted_grows key v ttl s) as Hg. split; [|done].
  pose proof (inv_state s (store_note key v ttl s) HI eq_refl eq_refl Hg) as [H0 H1 H2 H3 H4].
  split; cbn; [done|done| |done|done].
  intros key' v' x. rewrite lookup_insert_Some. intros [[E [= <- <-]]|[_ Hx]].
  - apply cacheKey_inj in E as <-. exists (mkStored key v (clock s) ttl).
    split_and!; first [done|by left|cbn; lia].
  - by apply H2.
Qed.

(** *** Each method once *)

Abbreviation Ok := (ok Inv grows).

Definition keeps {A} (_ : CacheError + A) (s : State) : Prop := Inv s.
Definition answers (key : string) (r : CacheError + option V) (s : State) : Prop :=
  Inv s /\ forall v, r = inr (Some v) -> fresh key v s.
Definition reads (key : string) (r : CacheError + option string) (s : State) : Prop :=
  Inv s /\ forall t v, r = inr (Some t) -> parse t = Some (Some v) -> fresh key v s.

Lemma flag_ok {A} (Q : CacheError + A -> State -> Prop) (k : bool -> IO A) (f : State -> bool) s :
  (forall b, Ok Q (k b) s) -> Ok Q (Sync (fun s => (s, f s)) k) s.
Proof. intros Hk. cbn. split; [apply grows_refl|apply Hk]. Qed.

Lemma getRedisClient_ok s : Inv s -> Ok keeps getRedisClient s.
Proof.
  intros HI. apply flag_ok. intros [|]; [done|]. eapply ok_bind with (Q1 := keeps); [|intros [] s1 H1|done].
  - apply ok_awaiting; [done|]. intros s1 _ H1. split; [|done]. split; [apply grows_refl|done].
  - cbn. split; [by split; [|cbn; lia]|]. by eapply inv_state; [exact H1|..|split; [|cbn; lia]].
Qed.

Lemma redisGet_ok key s : Inv s -> Ok (reads key) (redisGet key) s.
Proof.
  intros HI. eapply ok_bind; [by apply getRedisClient_ok|intros [] s1 H1|intros e s1 H1; by split].
  apply ok_awaiting; [done|]. intros s2 _ H2. split; [split; [apply grows_refl|]|by split]. split; [done|].
  intros t v. destruct (redis s2 !! cacheKey key) as [[t' x]|] eqn:E; [|done].
  destruct (num_ge _ _) eqn:Hx; [done|]. intros [= <-]. by apply (fresh_now s2 key t' v x); [apply H2|apply (inv_redis _ H2)|..].
Qed.

Lemma decode_ok key t s :
  Inv s -> (forall x v, t = Some x -> parse x = Some (Some v) -> fresh key v s) -> Ok (answers key) (decode t) s.
Proof.
  intros HI Ht. unfold decode. destruct t as [x|]; [|by split].
  destruct (parse x) as [v|] eqn:Hp; [|by split]. split; [done|]. intros w [= ->]. by apply (Ht x).
Qed.

Lemma getMemory_ok key s : Inv s -> Ok (answers key) (getMemory key) s.
Proof.
  intros HI. unfold getMemory. cbn [ok]. unfold memoryGet.
  destruct (memory s !! cacheKey key) as [e|] eqn:He; [|by split; [apply grows_refl|apply decode_ok]].
  destruct (num_ge _ _) eqn:Hx.
  - split; [by split; [|cbn; lia]|]. apply decode_ok; [by apply inv_delete|done].
  - split; [apply grows_refl|]. apply decode_ok; [done|]. intros x v [= <-] Hp.
    by apply (fresh_now s key (value e) v (expiresAtMs e)); [apply HI|apply (inv_memory _ HI)|..].
Qed.

Lemma unavailable_inv b s : Inv s -> Inv (set_unavailable b s) /\ grows s (set_unavailable b s).
Proof.
  intros HI. assert (Hg : grows s (set_unavailable b s)) by (split; [done|cbn; lia]).
  split; [|done]. by apply (inv_state s).
Qed.

Lemma giveUpRedis_ok {A} (Q : CacheError + A -> State -> Prop) e p s :
  Inv s -> (forall s', Inv s' -> Ok Q p s') -> Q (inl e) s -> Ok Q (giveUpRedis e p) s.
Proof.
  intros HI Hp He. unfold giveUpRedis. cbn [ok]. destruct (usesRedis s).
  - destruct (unavailable_inv true s HI). by split; [|apply Hp].
  - split; [apply grows_refl|done].
Qed.

Lemma get_ok key s : Inv s -> Ok (answers key) (get key) s.
Proof.
  intros HI. apply flag_ok. intros [|]; [|by apply getMemory_ok].
  eapply ok_catch with (Q1 := answers key); [|intros e s1 [H1 _]|done].
  - eapply ok_bind; [by apply redisGet_ok|intros t s1 [H1 Ht]|intros e s1 [H1 _]; by split].
    apply decode_ok; [done|]. intros x v [= ->]. by apply Ht.
  - apply giveUpRedis_ok; [done|intros; by apply getMemory_ok|by split].
Qed.

Lemma setMemory_ok key v ttl s : Inv s -> Ok keeps (setMemory key v ttl) s.
Proof. intros HI. destruct (memorySet_inv key v ttl s HI). by split. Qed.

Lemma set_ok key v ttl s : Inv s -> Ok keeps (set key v ttl) s.
Proof.
  intros HI. unfold set. destruct (normalizeTtlSeconds _ _) as [e|t]; [done|]. apply flag_ok.
  intros [|]; [|by apply setMemory_ok].
  eapply ok_catch with (Q1 := keeps); [|intros e s1 H1|done].
  - eapply ok_bind; [by apply getRedisClient_ok|intros [] s1 H1|done].
    apply ok_awaiting; [done|]. intros s2 _ H2. split; [|done].
    destruct (redisSet_inv key (stringify v) t s2 H2) as [? ?]. by split.
  - by apply giveUpRedis_ok; [|intros; by apply setMemory_ok|].
Qed.

Lemma delete_ok key s :
  Inv s -> Ok (fun r s' => Inv s' /\ r = inr tt) (delete_ key) s.
Proof.
  intros HI. unfold delete_. cbn [ok]. split; [by split; [|cbn; lia]|].
  pose proof (inv_delete (cacheKey key) s HI) as HI'. destruct (usesRedis _); [|done].
  eapply ok_catch with (Q1 := fun r s' => Inv s' /\ forall a, r = inr a -> r = inr tt).
  - eapply ok_bind; [by apply getRedisClient_ok|intros [] s1 H1|intros e s1 H1; by split].
    apply ok_awaiting; [done|]. intros s2 _ H2. split; [|by split]. split; [by split; [|cbn; lia]|].
    split; [|by intros []]. split; cbn; [apply H2|apply H2| |apply H2|apply H2].
    intros k v x. rewrite lookup_delete_Some. intros [_ Hx]. by apply (inv_redis _ H2).
  - intros e s1 [H1 _]. cbn. by destruct (unavailable_inv true s1 H1).
  - intros a s1 [H1 Ha]. split; [done|]. by apply (Ha a).
Qed.

Definition Post (call : Call) (r : CacheError + option V) (s : State) : Prop :=
  match call, r with
  | Get key, inr (Some v) => fresh key v s
  | GetOrSet key loaded _, inr (Some v) => fresh key v s \/ loaded = Some v
  | GetOrSet key loaded _, inr None => loaded = None
  | Delete _, inl _ => False
  | _, _ => True
  end.

#[local] Instance cache_protocol : TaskProtocol method outside Inv grows Post.
Proof.
  split.
  - apply grows_refl.
  - apply grows_trans.
  - intros [ms|] s HI; [|by apply unavailable_inv]. assert (Hg : grows s (outside (Tick ms) s)) by (split; [done|cbn; lia]).
    split; [|done]. by apply (inv_state s).
  - intros call r s s' Hg. destruct call as [k|k v t|k|k v t], r as [e|[w|]]; cbn; try done.
    + by apply fresh_grows.
    + intros [H|H]; [left; by eapply fresh_grows|by right].
  - intros call s HI. destruct call as [k|k v t|k|k v t]; cbn [method].
    + eapply ok_mono; [|by apply get_ok]. intros r s' [H1 H2]. split; [done|]. destruct r as [e|[v|]]; [done|by apply H2|done].
    + eapply ok_bind; [by apply set_ok|by intros [] s1 H1|by intros e s1 H1].
    + eapply ok_bind; [by apply delete_ok|by intros [] s1 [H1 _]|by intros e s1 [H1 ?]].
    + eapply ok_bind; [by apply get_ok| |by intros e s1 [H1 _]]. intros [w|] s1 [H1 H2]; [split; [done|left; by apply H2]|].
      eapply ok_bind with (Q1 := fun r s' => Inv s' /\ forall a, r = inr a -> a = v).
      * apply ok_awaiting; [done|]. intros s2 _ H3. split; [|by split]. split; [apply grows_refl|]. split; [done|]. by intros a [= <-].
      * intros a s2 [H3 Ha]. rewrite (Ha a eq_refl). eapply ok_bind; [by apply set_ok|intros [] s3 H4|by intros e s3 H4].
        split; [done|]. destruct v; cbn; auto.
      * by intros e s2 [H3 _].
Qed.

Lemma Inv_new : Inv (new_State since).
Proof.
  split; cbn; [lia|..].
  - intros k e. by rewrite jsmap_lookup_empty.
  - intros k v x. by rewrite lookup_empty.
  - intros k Hk. by apply elem_of_nil in Hk.
  - destruct bound_ok as [->|[->|(n & Hn & ->)]]; [by right|by left|left]. rewrite num_ge_int. apply Z.leb_le. cbn. lia.
Qed.
End cache.

Lemma new_CacheLayer_bound url ttl ns max c :
  new_CacheLayer url ttl ns max = inr c ->
  maxEntries c = NaN \/ maxEntries c = Infinite false \/ exists n, 1 <= n /\ maxEntries c = int n.
Proof.
  unfold new_CacheLayer. destruct (normalizeTtlSeconds _ _); [done|]. intros [= <-]. cbn [maxEntries].
  destruct (floor (default (int DEFAULT_MAX_ENTRIES) max)) as [q|[]|] eqn:E.
  - right. right. unfold floor in E. destruct (default _ max); [|done..]. injection E as <-. unfold atLeastOne.
    change (Finite (inject_Z (Qfloor q0))) with (int (Qfloor q0)). cbn [int]. rewrite num_ge_int.
    destruct (Z.leb_spec 1 (Qfloor q0)); [by exists (Qfloor q0)|]. by exists 1.
  - right. right. by exists 1.
  - right. by left.
  - by left.
Qed.

Lemma Inv_earlier c since since' s : since <= since' -> Inv c since' s -> Inv c since s.
Proof. intros Hle [H0 H1 H2 H3 H4]. split; [lia|done..]. Qed.

(** C33: in every run of calls that overlap, wait for Redis and fail, on a cache
    that could be constructed: a value that [get] returns was stored under that key
    and, at some moment between the launch of this call and now, had been stored and
    had not expired; a value that [getOrSet] returns is such a one or the loader's,
    [delete] never throws; and unless its bound is NaN the map in memory never holds
    more entries than the bound. *)
Theorem cached_values_fresh {V} (stringify : option V -> string) (parse : string -> option (option V))
    url ttl ns max c now :
  new_CacheLayer url ttl ns max = inr c ->
  (forall before id call after call' r,
     let launched := calls stringify parse c now before in
     let w := calls stringify parse c now (before ++ Launch id call :: after) in
     tasks launched !! id = None -> outcome w id = Some (call', r) ->
     call' = call /\
     match call, r with
     | Get key, inr (Some v) => fresh parse (clock (state launched)) key v (state w)
     | GetOrSet key loaded _, inr (Some v) => fresh parse (clock (state launched)) key v (state w) \/ loaded = Some v
     | GetOrSet key loaded _, inr None => loaded = None
     | Delete _, inl _ => False
     | _, _ => True
     end) /\
  (forall evs, maxEntries c = NaN \/
     num_ge (maxEntries c) (int (Z.of_nat (map_size (memory (state (calls stringify parse c now evs)))))) = true).
Proof.
  intros Hc. pose proof (new_CacheLayer_bound _ _ _ _ _ Hc) as Hb. split.
  - intros before id call after call' r. cbn zeta. set (w := calls stringify parse c now before).
    assert (E : calls stringify parse c now (before ++ Launch id call :: after) =
                foldl (step (method stringify parse c) outside) (step (method stringify parse c) outside w (Launch id call)) after)
      by (unfold w, calls, run; by rewrite foldl_app).
    rewrite E. intros Hid Ho.
    pose proof (cache_protocol stringify parse c now Hb) as Hp.
    pose proof (cache_protocol stringify parse c (clock (state w)) Hb) as Hp'.
    assert (Hw : tasks_ok (Inv c now) grows (Post parse now) w) by (by apply run_ok, Inv_new).
    assert (Hnow : now <= clock (state w)) by apply Hw.
    refine (launched_safe _ _ (Inv c now) grows (Post parse now) (Post parse (clock (state w)) call) id call _ w after call' r Hw Hid _ Ho).
    + exact (@result_stable _ _ _ _ _ _ _ _ _ _ Hp' call).
    + apply (ok_weaken _ (Inv c (clock (state w)))); [by intros s; apply Inv_earlier| |].
      * intros s s1 [H0 _ _ _ _] [_ Hg] [_ H1 H2 H3 H4]. split; [lia|done..].
      * eapply ok_mono; [|apply (@method_ok _ _ _ _ _ _ _ _ _ _ Hp')].
        -- intros r' s [Hs HP]. split; [by eapply Inv_earlier|done].
        -- destruct (proj1 Hw) as [_ H1 H2 H3 H4]. split; [lia|done..].
  - intros evs. pose proof (cache_protocol stringify parse c now Hb) as Hp.
    destruct (run_ok (method stringify parse c) outside (Inv c now) grows (Post parse now) (new_State now) evs (Inv_new c now Hb)) as [HI _].
    destruct (inv_size _ _ _ HI); auto.
Qed.

(** ** Concrete runs *)

Module Examples.
Local Open Scope string_scope.
Local Open Scope list_scope.

(** Texts as values; the empty one stands for null. *)
Definition stringify (v : option string) : string := default "" v.
Definition parse (t : string) : option (option string) := Some (if falsy t then None else Some t).

Definition tiny : CacheLayer := mkCache false (int 300) "n" (int 2).
Definition shared : CacheLayer := mkCache true (int 300) "n" (int 2).

Abbreviation Events := (list (Event (E := CacheError) (Call := Call (V := string)) (Ext := Ext))).

(** Storing a key again throws another one out, though the map need not grow. *)
Definition overwriting : Events :=
  [Launch 1 (Set_ "a" (Some "1") None); Launch 2 (Set_ "b" (Some "2") None);
   Launch 3 (Set_ "b" (Some "3") None); Launch 4 (Get "a")].

Lemma overwriting_evicts_another_key :
  outcome (calls stringify parse tiny 0 overwriting) 4 = Some (Get "a", inr None) /\
  map_keys (memory (state (calls stringify parse tiny 0 overwriting))) = ["n:b"].
Proof. vm_compute. by split. Qed.

(** Two reads are under way when Redis fails: the first one goes on without it, the
    second one throws. *)
Definition failing : Events :=
  [Launch 1 (Get "a"); Launch 2 (Get "a"); Rejected 1 (RedisError "down"); Rejected 2 (RedisError "down")].

Lemma second_failure_is_thrown :
  outcome (calls stringify parse shared 0 failing) 1 = Some (Get "a", inr None) /\
  outcome (calls stringify parse shared 0 failing) 2 = Some (Get "a", inl (RedisError "down")).
Proof. vm_compute. by split. Qed.

(** One lost answer, and Redis is not asked again. *)
Definition abandoned : Events :=
  [Launch 1 (Set_ "a" (Some "1") None); Answered 1; Answered 1; Launch 2 (Get "b");
   Rejected 2 (RedisError "timeout"); Outside (Tick 1000); Launch 3 (Get "a")].

Lemma redis_is_abandoned :
  outcome (calls stringify parse shared 0 abandoned) 3 = Some (Get "a", inr None) /\
  match redis (state (calls stringify parse shared 0 abandoned)) !! "n:a" with
  | Some (v, expiry) => v = "1" /\ num_ge (int 1000) expiry = false
  | None => False
  end.
Proof. vm_compute. auto. Qed.

Definition reading : Events :=
  [Launch 1 (Set_ "a" (Some "1") (Some (int 2))); Outside (Tick 1999); Launch 2 (Get "a");
   Outside (Tick 1); Launch 3 (Get "a")].

Lemma cached_values_fresh_witness :
  outcome (calls stringify parse tiny 0 reading) 2 = Some (Get "a", inr (Some "1")) /\
  outcome (calls stringify parse tiny 0 reading) 3 = Some (Get "a", inr None) /\
  fresh parse 1999 "a" "1" (state (calls stringify parse tiny 0 reading)).
Proof.
  assert (H2 : outcome (calls stringify parse tiny 0 reading) 2 = Some (Get "a", inr (Some "1"))) by (vm_compute; reflexivity).
  split; [exact H2|]. split; [vm_compute; reflexivity|].
  destruct (cached_values_fresh stringify parse None None (Some "n") (Some (int 2)) tiny 0 ltac:(vm_compute; reflexivity)) as [H _].
  exact (proj2 (H (take 2 reading) 2%nat (Get "a") (drop 3 reading) _ _ ltac:(vm_compute; reflexivity) H2)).
Defined.
End Examples.
