(* ===== verification/MigrationFiles.v ===== *)
(** * Migration files ([src/src/database/migration_manager.ts])

    Which files of the directory are migrations and in which order, the sections of
    a file, and its checksum.  A match of one of the file's regular expressions is
    computed position by position; [$] matches at the end of a line, and the
    greedy [\s*] before it takes in the blank lines that follow.

    [sections_round_trip]: a file written as two sections reads back as these.
    [load_order]: the migrations come in the order of their file names, each once.
    [checksum_is_fnv1a]: the checksum is 32-bit FNV-1a. *)

From Stdlib Require Import ZArith Lia Ascii String.
From stdpp Require Import base numbers list strings gmap sorting.
From S2P Require Import Prelude Js Text.
#[local] Open Scope Z_scope.

Record MigrationDefinition := mkMigration {
  version : string;
  name : string;
  up : string;
  down : string;
  checksum_ : string
}.

Inductive MigrationError :=
  | MissingSections (file : string)
  | MissingFile (version : string)
  | SqlError (message : string)
  | ConnectionLost.

(** ** The checksum *)

Definition imul (a b : Z) : Z := to_int32 (a * b).

Definition fnv_char (hash : Z) (c : ascii) : Z :=
  imul (Z.lxor (to_int32 hash) (Z.of_nat (code c))) 0x01000193.

Fixpoint fnv_string (hash : Z) (s : string) : Z :=
  match s with
  | EmptyString => hash
  | String c s' => fnv_string (fnv_char hash c) s'
  end.

Definition checksum (input : string) : string :=
  padStart 8 (toString16 (fnv_string 0x811c9dc5 input mod 2 ^ 32)).

(** ** Sections *)

Definition lineTerminator (c : ascii) : bool := (code c =? 10)%nat || (code c =? 13)%nat.

(** What follows the longest match of [\s*$]. *)
Fixpoint lineEnd (s : string) : option string :=
  match s with
  | EmptyString => Some EmptyString
  | String c s' =>
      if is_ws c
      then match lineEnd s' with
           | Some rest => Some rest
           | None => if lineTerminator c then Some s else None
           end
      else None
  end.

(** What follows a word, whatever its case. *)
Fixpoint stripWord (word s : string) : option string :=
  match word, s with
  | EmptyString, _ => Some s
  | String a w, String b s' => if Ascii.eqb a (lower1 b) then stripWord w s' else None
  | _, EmptyString => None
  end.

(** What follows a match of [^--\s*@word\s*$] at the start of a line. *)
Definition marker (word s : string) : option string :=
  s ← stripPrefix "--" s;
  s ← stripPrefix "@" (trimStart s);
  s ← stripWord word s;
  lineEnd s.

(** The first match at the start of a line: what comes before it and after it. *)
Fixpoint findLine (P : string -> option string) (atStart : bool) (s : string) : option (string * string) :=
  match (if atStart then P s else None) with
  | Some rest => Some (EmptyString, rest)
  | None =>
      match s with
      | EmptyString => None
      | String c s' =>
          match findLine P (lineTerminator c) s' with
          | Some (before, rest) => Some (String c before, rest)
          | None => None
          end
      end
  end.

(** [content.match(HEADER_PATTERN)] *)
Definition hasMarker (content : string) : bool :=
  match findLine (fun s => match marker "up" s with Some r => Some r | None => marker "down" s end) true content with
  | Some _ => true
  | None => false
  end.

(** [upMatch[1]]; the text after a marker begins with the end of its line. *)
Definition upSection (content : string) : option string :=
  '(_, rest) ← findLine (marker "up") true content;
  '(section, _) ← findLine (marker "down") false rest;
  Some section.

(** [downMatch[1]] *)
Definition downSection (content : string) : option string :=
  '(_, rest) ← findLine (marker "down") true content;
  Some rest.

(** [file.split('_')[0]], [basename(file, '.sql')] *)
Definition versionOf (file : string) : string := default "" (head (split "_" file)).
Definition nameOf (file : string) : string := substring 0 (String.length file - 4) file.

Definition parseMigration (file content : string) : MigrationError + MigrationDefinition :=
  if negb (hasMarker content)
  then inr (mkMigration (versionOf file) (nameOf file) content
              ("-- no-op rollback for " +:+ file) (checksum content))
  else
    match upSection content, downSection content with
    | Some u, Some d =>
        if falsy (trim d) then inl (MissingSections file)
        else inr (mkMigration (versionOf file) (nameOf file) (trim u) (trim d) (checksum content))
    | _, _ => inl (MissingSections file)
    end.

(** ** The directory *)

(** [/^\d+_.+\.sql$/] *)
Definition migrationFile (file : string) : bool :=
  match span_digits file with
  | (String _ _, String "_" t) =>
      endsWith ".sql" t && (5 <=? String.length t)%nat && all_chars (fun c => negb (lineTerminator c)) t
  | _ => false
  end.

(** The files of the directory by name. *)
Abbreviation directory := (gmap string string).

Definition migrationNames (dir : directory) : list string :=
  js_sort (filter (fun f => migrationFile f = true) (map_to_list dir).*1).

Fixpoint parseAll (dir : directory) (files : list string) : MigrationError + list MigrationDefinition :=
  match files with
  | [] => inr []
  | f :: files' =>
      match parseMigration f (default "" (dir !! f)) with
      | inl e => inl e
      | inr m => match parseAll dir files' with inl e => inl e | inr ms => inr (m :: ms) end
      end
  end.

Definition loadMigrations (dir : directory) : MigrationError + list MigrationDefinition :=
  parseAll dir (migrationNames dir).


(** ** The checksum is FNV-1a *)

Definition fnv1a_char (h : Z) (c : ascii) : Z := (Z.lxor h (Z.of_nat (code c)) * 16777619) mod 2 ^ 32.
Definition fnv1a (s : string) : Z := foldl fnv1a_char 2166136261 (list_ascii_of_string s).

Lemma to_int32_congr z : to_int32 z mod 2 ^ 32 = z mod 2 ^ 32.
Proof. destruct (to_int32_mod z) as [k ->]. apply Z.mod_add. lia. Qed.

Lemma lxor_mod a b : 0 <= b < 2 ^ 32 -> Z.lxor a b mod 2 ^ 32 = Z.lxor (a mod 2 ^ 32) b.
Proof.
  intros Hb. rewrite <- (Z.mod_small b (2 ^ 32)) at 2 by done. rewrite <- !Z.land_ones by lia.
  apply Z.bits_inj'. intros n _. rewrite ?Z.land_spec, ?Z.lxor_spec, ?Z.land_spec.
  destruct (Z.testbit _ _), (Z.testbit _ _), (Z.testbit _ _); done.
Qed.

Lemma code_range c : 0 <= Z.of_nat (code c) < 2 ^ 32.
Proof. unfold code. pose proof (nat_ascii_bounded c). lia. Qed.

Lemma fnv_char_mod h c : fnv_char h c mod 2 ^ 32 = fnv1a_char (h mod 2 ^ 32) c.
Proof.
  unfold fnv_char, fnv1a_char, imul. rewrite to_int32_congr, <- Z.mul_mod_idemp_l by lia.
  by rewrite lxor_mod, to_int32_congr by apply code_range.
Qed.

Lemma fnv_string_mod s h : fnv_string h s mod 2 ^ 32 = foldl fnv1a_char (h mod 2 ^ 32) (list_ascii_of_string s).
Proof. revert h. induction s as [|c s IH]; intros h; [done|]. cbn. by rewrite IH, fnv_char_mod. Qed.

(** The checksum of a file is the 32-bit FNV-1a hash of its text, in eight
    hexadecimal digits. *)
Theorem checksum_is_fnv1a s : checksum s = padStart 8 (toString16 (fnv1a s)).
Proof. unfold checksum. by rewrite fnv_string_mod. Qed.

(** ** Reading the sections back *)

Lemma lineEnd_stop t c r :
  is_ws c = false -> is_Some (lineEnd (t +:+ String NEWLINE (String c r))) -> is_Some (lineEnd (t +:+ String NEWLINE "")).
Proof.
  intros Hc. induction t as [|x t IH]; rewrite ?app_Empty, ?app_String; cbn [lineEnd].
  - done.
  - destruct (is_ws x); [|done].
    destruct (lineEnd (t +:+ String NEWLINE (String c r))); [intros _|];
      destruct (lineEnd (t +:+ String NEWLINE "")) eqn:E; try done.
    + by destruct IH.
    + by destruct (lineTerminator x).
Qed.

Definition oneLine (w : string) : Prop := forall c, c ∈ list_ascii_of_string w -> c <> NEWLINE.

Lemma oneLine_lacks w : lacks NEWLINE w = true -> oneLine w.
Proof.
  induction w as [|c w IH]; [by intros _ c []%elem_of_nil|]. rewrite lacks_String. intros [Hc Hw] x.
  cbn. rewrite elem_of_cons. intros [->|Hx]; [done|]. by apply IH.
Qed.

Lemma stripWord_stop w t r rest :
  oneLine w ->
  stripWord w (t +:+ String NEWLINE r) = Some rest ->
  exists t', stripWord w t = Some t' /\ rest = t' +:+ String NEWLINE r.
Proof.
  revert t. induction w as [|a w IH]; intros t Hw; cbn.
  - intros [= <-]. by exists t.
  - destruct t as [|x t]; rewrite ?app_Empty, ?app_String; cbn.
    + destruct (Ascii.eqb_spec a (lower1 NEWLINE)) as [->|]; [|done]. exfalso. by apply (Hw NEWLINE); [left|].
    + destruct (Ascii.eqb a (lower1 x)); [|done]. apply IH. intros c Hc. apply Hw. by right.
Qed.

Lemma stripPrefix_stop w t r rest :
  oneLine w ->
  stripPrefix w (t +:+ String NEWLINE r) = Some rest ->
  exists t', stripPrefix w t = Some t' /\ rest = t' +:+ String NEWLINE r.
Proof.
  revert t. induction w as [|a w IH]; intros t Hw; cbn.
  - intros [= <-]. by exists t.
  - destruct t as [|x t]; rewrite ?app_Empty, ?app_String; cbn.
    + destruct (Ascii.eqb_spec a NEWLINE) as [->|]; [|done]. exfalso. by apply (Hw NEWLINE); [left|].
    + destruct (Ascii.eqb a x); [|done]. apply IH. intros c Hc. apply Hw. by right.
Qed.

Lemma stripPrefix_app w t u t' : stripPrefix w t = Some t' -> stripPrefix w (t +:+ u) = Some (t' +:+ u).
Proof.
  revert t. induction w as [|a w IH]; intros t; cbn; [by intros [= ->]|].
  destruct t as [|x t]; [done|]. rewrite app_String. cbn. destruct (Ascii.eqb a x); [apply IH|done].
Qed.

Lemma stripWord_app w t u t' : stripWord w t = Some t' -> stripWord w (t +:+ u) = Some (t' +:+ u).
Proof.
  revert t. induction w as [|a w IH]; intros t; cbn; [by intros [= ->]|].
  destruct t as [|x t]; [done|]. rewrite app_String. cbn. destruct (Ascii.eqb a (lower1 x)); [apply IH|done].
Qed.

Lemma trimStart_app s u : blank s = false -> trimStart (s +:+ u) = trimStart s +:+ u.
Proof. induction s as [|c s IH]; [done|]. rewrite app_String. cbn. by destruct (is_ws c). Qed.

Lemma trimStart_blank_app s u : blank s = true -> trimStart (s +:+ u) = trimStart u.
Proof. induction s as [|c s IH]; [done|]. rewrite app_String. cbn. by destruct (is_ws c). Qed.

(** Whether a marker begins in a text does not depend on what comes after the next
    dashes. *)
Lemma marker_stop w t r :
  oneLine w -> is_Some (marker w (t +:+ String NEWLINE (String "-" r))) -> is_Some (marker w (t +:+ String NEWLINE "")).
Proof.
  intros Hw [rest H]. unfold marker in *.
  apply bind_Some in H as (t1 & (s1 & E1 & ->)%stripPrefix_stop & H); [|by apply oneLine_lacks].
  rewrite (stripPrefix_app _ _ _ _ E1). cbn [mbind option_bind].
  apply bind_Some in H as (t2 & H2 & H). destruct (blank s1) eqn:Hb.
  { rewrite trimStart_blank_app in H2 by done. done. }
  rewrite trimStart_app in H2 by done. rewrite trimStart_app by done.
  apply stripPrefix_stop in H2 as (s2 & E2 & ->); [|by apply oneLine_lacks].
  rewrite (stripPrefix_app _ _ _ _ E2). cbn [mbind option_bind].
  apply bind_Some in H as (t3 & (s3 & E3 & ->)%stripWord_stop & H); [|done].
  rewrite (stripWord_app _ _ _ _ E3). cbn [mbind option_bind].
  apply (lineEnd_stop s3 "-" r); [done|by eexists].
Qed.

Lemma findLine_before w b t r rest :
  oneLine w -> findLine (marker w) b (t +:+ String NEWLINE "") = None ->
  marker w (String "-" r) = Some rest ->
  findLine (marker w) b (t +:+ String NEWLINE (String "-" r)) = Some (t +:+ String NEWLINE "", rest).
Proof.
  intros Hw. revert b. induction t as [|x t IH]; intros b Hn Hr; rewrite ?app_Empty, ?app_String in *.
  - cbn [findLine]. rewrite Hr. by destruct b.
  - cbn [findLine] in *.
    assert (Hx : (if b then marker w (String x (t +:+ String NEWLINE (String "-" r))) else None) = None).
    { destruct b; [|done]. apply eq_None_not_Some. intros Hs. rewrite <- app_String in Hs. apply marker_stop in Hs as [? E]; [|done].
      rewrite app_String in E. by rewrite E in Hn. }
    rewrite Hx. destruct (if b then marker w _ else None); [done|].
    destruct (findLine (marker w) (lineTerminator x) (t +:+ String NEWLINE "")) as [[]|] eqn:E; [done|]. by rewrite IH.
Qed.

Lemma findLine_here P s rest : P s = Some rest -> findLine P true s = Some ("", rest).
Proof. intros H. destruct s; cbn [findLine]; by rewrite H. Qed.

Lemma findLine_skip (P : string -> option string) (b : bool) x s :
  (if b then P (String x s) else None) = None ->
  findLine P b (String x s) =
    match findLine P (lineTerminator x) s with Some (before, rest) => Some (String x before, rest) | None => None end.
Proof. intros H. cbn [findLine]. by rewrite H. Qed.

Lemma findLine_suffix P b p s : findLine P b (p +:+ s) = None -> findLine P false s = None.
Proof.
  revert b. induction p as [|x p IH]; intros b; rewrite ?app_Empty, ?app_String.
  - destruct s as [|c s]; cbn; repeat case_match; done.
  - cbn [findLine]. repeat case_match; try done; intros _; by eapply IH.
Qed.

Lemma lineEnd_cut t c r rest :
  is_ws c = false -> lineEnd (t +:+ String NEWLINE (String c r)) = Some rest ->
  exists p u, t = p +:+ u /\ rest = u +:+ String NEWLINE (String c r) /\ blank p = true.
Proof.
  intros Hc. revert rest. induction t as [|x t IH]; intros rest; rewrite ?app_Empty, ?app_String; cbn [lineEnd].
  - rewrite Hc. cbn. intros [= <-]. by exists "", "".
  - destruct (is_ws x) eqn:Hx; [|done]. destruct (lineEnd _) as [r'|] eqn:E.
    + intros [= <-]. destruct (IH _ eq_refl) as (p & u & -> & -> & Hp). exists (String x p), u.
      split_and!; [done..|]. cbn. by rewrite Hx.
    + destruct (lineTerminator x); [|done]. intros [= <-]. by exists "", (String x t).
Qed.

Lemma lineEnd_trim s r : lineEnd s = Some r -> trimStart r = trimStart s.
Proof.
  revert r. induction s as [|c s IH]; intros r; cbn [lineEnd]; [by intros [= <-]|].
  destruct (is_ws c) eqn:Hc; [|done]. destruct (lineEnd s) as [r'|].
  - intros [= <-]. cbn. rewrite Hc. by apply IH.
  - destruct (lineTerminator c); [|done]. by intros [= <-].
Qed.

Lemma lineEnd_newline s : is_Some (lineEnd (String NEWLINE s)).
Proof. cbn. destruct (lineEnd s); eauto. Qed.

Lemma trimEnd_blank_app s u : blank u = true -> trimEnd (s +:+ u) = trimEnd s.
Proof.
  intros Hu. induction s as [|c s IH]; rewrite ?app_Empty, ?app_String.
  - induction u as [|x u IH]; [done|]. cbn in Hu |- *. apply andb_true_iff in Hu as [Hx Hu]. by rewrite IH, Hx.
  - by rewrite !trimEnd_String, IH.
Qed.

Lemma trimStart_blank s : blank s = true -> trimStart s = "".
Proof. induction s as [|c s IH]; [done|]. cbn. by destruct (is_ws c). Qed.

Lemma trim_blank_app s u : blank u = true -> trim (s +:+ u) = trim s.
Proof.
  intros Hu. unfold trim. destruct (blank s) eqn:Hs.
  - by rewrite trimStart_blank_app, !trimStart_blank.
  - by rewrite trimStart_app, trimEnd_blank_app.
Qed.

Lemma trim_skip p s : blank p = true -> trim (p +:+ s) = trim s.
Proof. intros Hp. unfold trim. by rewrite trimStart_blank_app. Qed.

(** A file of two sections. *)
Definition sections (u d : string) : string :=
  "-- @up" +:+ String NEWLINE (u +:+ String NEWLINE ("-- @down" +:+ String NEWLINE d)).

Lemma downMarker d : exists rest,
  marker "down" ("-- @down" +:+ String NEWLINE d) = Some rest /\ trim rest = trim d.
Proof.
  destruct (lineEnd_newline d) as [rest H]. exists rest. split; [by cbn|].
  apply lineEnd_trim in H. unfold trim. by rewrite H.
Qed.

Lemma upSection_sections u d :
  findLine (marker "down") true (u +:+ String NEWLINE "") = None ->
  exists section, upSection (sections u d) = Some section /\ trim section = trim u.
Proof.
  intros Hu. destruct (downMarker d) as (rest & Hr & _).
  set (r := " @down" +:+ String NEWLINE d).
  destruct (lineEnd_newline (u +:+ String NEWLINE (String "-" (String "-" r)))) as [after Ha].
  assert (Hup : findLine (marker "up") true (sections u d) = Some ("", after)).
  { apply findLine_here. exact Ha. }
  destruct (lineEnd_cut (String NEWLINE u) "-" (String "-" r) after) as (p & u' & E & -> & Hp); [done|done|].
  exists (u' +:+ String NEWLINE ""). split.
  - unfold upSection. rewrite Hup. cbn [mbind option_bind].
    erewrite findLine_before; [done|by apply oneLine_lacks| |exact Hr].
    apply (findLine_suffix _ false p). rewrite <- app_assoc_s, <- E, app_String. cbn [findLine].
    change (lineTerminator NEWLINE) with true. by rewrite Hu.
  - rewrite trim_blank_app by done. rewrite <- (trim_skip p u'), <- E by done. by apply (trim_skip (String NEWLINE "") u).
Qed.

Lemma downSection_sections u d :
  findLine (marker "down") true (u +:+ String NEWLINE "") = None ->
  exists section, downSection (sections u d) = Some section /\ trim section = trim d.
Proof.
  intros Hu. destruct (downMarker d) as (rest & Hr & Ht). exists rest. split; [|done].
  assert (E : sections u d = ("-- @up" +:+ String NEWLINE u) +:+ String NEWLINE (String "-" ("- @down" +:+ String NEWLINE d))) by done.
  unfold downSection. rewrite E, (findLine_before "down" true _ _ rest); [done|by apply oneLine_lacks| |exact Hr].
  change (findLine (marker "down") true (String "-" (String "-" (String " " (String "@" (String "u" (String "p"
    (String NEWLINE (u +:+ String NEWLINE ""))))))) ) = None).
  rewrite !findLine_skip by done. change (lineTerminator NEWLINE) with true. by rewrite Hu.
Qed.

Lemma sections_marked u d : hasMarker (sections u d) = true.
Proof.
  destruct (lineEnd_newline (u +:+ String NEWLINE ("-- @down" +:+ String NEWLINE d))) as [after Ha].
  unfold hasMarker. erewrite findLine_here; [done|].
  change (marker "up" (sections u d)) with (lineEnd (String NEWLINE (u +:+ String NEWLINE ("-- @down" +:+ String NEWLINE d)))).
  by rewrite Ha.
Qed.

(** a migration written as an up and a down section is read back as these two
    sections, trimmed, if no line of the first is itself a down marker and the second
    is not blank. *)
Theorem sections_round_trip file u d :
  findLine (marker "down") true (u +:+ String NEWLINE "") = None -> trim d <> "" ->
  parseMigration file (sections u d) =
  inr (mkMigration (versionOf file) (nameOf file) (trim u) (trim d) (checksum (sections u d))).
Proof.
  intros Hu Hd. unfold parseMigration. rewrite sections_marked. cbn [negb].
  destruct (upSection_sections u d Hu) as (su & -> & Hsu). destruct (downSection_sections u d Hu) as (sd & -> & Hsd).
  unfold falsy. by rewrite Hsu, Hsd, bool_decide_false.
Qed.

(** ** The order of the migrations *)

Lemma parseAll_spec dir files ms :
  parseAll dir files = inr ms -> (forall f, f ∈ files -> is_Some (dir !! f)) ->
  Forall2 (fun f m => exists content, dir !! f = Some content /\ parseMigration f content = inr m) files ms.
Proof.
  revert ms. induction files as [|f files IH]; intros ms; cbn; [intros [= <-] _; constructor|].
  destruct (parseMigration f _) as [e|m] eqn:E; [done|]. destruct (parseAll dir files) as [e|ms'] eqn:E'; [done|].
  intros [= <-] Hin. constructor; [|apply IH; [done|intros g Hg; apply Hin; by right]].
  destruct (Hin f) as [content Hc]; [by left|]. exists content. split; [done|]. by rewrite Hc in E.
Qed.

(** The migrations are the files of the directory that are named like one, each once
    and in the order of their names. *)
Theorem load_order dir ms :
  loadMigrations dir = inr ms ->
  exists files, Forall2 (fun f m => exists content, dir !! f = Some content /\ parseMigration f content = inr m) files ms /\
    Sorted.StronglySorted str_le files /\ NoDup files /\
    forall f, f ∈ files <-> is_Some (dir !! f) /\ migrationFile f = true.
Proof.
  intros H. exists (migrationNames dir).
  assert (Hin : forall f, f ∈ migrationNames dir <-> is_Some (dir !! f) /\ migrationFile f = true).
  { intros f. unfold migrationNames. rewrite js_sort_Permutation, list_elem_of_filter, list_elem_of_fmap.
    split; [intros [Hf ([k v] & -> & Hk%elem_of_map_to_list)]; by split; [eexists|]|].
    intros [[v Hv] Hf]. split; [done|]. exists (f, v). split; [done|]. by apply elem_of_map_to_list. }
  split_and!; [|apply Sorted.Sorted_StronglySorted; [exact str_le_trans|apply Sorted_merge_sort, _]| |done].
  - eapply parseAll_spec; [exact H|]. intros f Hf. by apply Hin.
  - unfold migrationNames. rewrite js_sort_Permutation. apply NoDup_filter, NoDup_fst_map_to_list.
Qed.

(** ** Concrete files *)

Module Examples.
Local Open Scope string_scope.

Definition createUsers : string :=
  sections "CREATE TABLE users(id INT);" ("DROP TABLE users;" +:+ String NEWLINE "").

Lemma sections_round_trip_witness :
  parseMigration "001_create_users.sql" createUsers =
  inr (mkMigration "001" "001_create_users" "CREATE TABLE users(id INT);" "DROP TABLE users;" (checksum createUsers)).
Proof.
  apply (sections_round_trip "001_create_users.sql" "CREATE TABLE users(id INT);" ("DROP TABLE users;" +:+ String NEWLINE ""));
    vm_compute; congruence.
Defined.

(** The empty text, "a" and "foobar" hash to the published values of FNV-1a. *)
Lemma fnv_vectors :
  checksum "" = "811c9dc5" /\ checksum "a" = "e40c292c" /\ checksum "foobar" = "bf9cf968".
Proof. by vm_compute. Qed.
End Examples.
