(* ===== verification/Migrations.v ===== *)
(** * Running migrations ([src/src/database/migration_manager.ts])

    Any number of managers over one database, each call a program of statements of
    [Sessions].  A transaction runs one script and writes one row of
    [schema_migrations]; [journal] is the sequence of the scripts committed.  What
    a script does to the rest of the database is left open: it succeeds, or the
    server refuses it.  Times are left out; versions are compared by code units,
    as the digits they are made of compare in any collation.

    [migrations_recorded]: in every interleaving, with refused statements and lost
    connections, the table is what the committed scripts make of it, a call that
    returns committed exactly the scripts it selected, in order, and one that fails
    a first part of them. *)

From Stdlib Require Import ZArith Lia Ascii String.
From stdpp Require Import base numbers list strings gmap sorting.
From S2P Require Import Prelude Js Text Sessions MigrationFiles.
#[local] Open Scope Z_scope.

(** A row of [schema_migrations]; [r_active]: [rolled_back_at IS NULL]. *)
Record Row := mkRow { r_name : string; r_checksum : string; r_active : bool }.

Inductive Script := ScriptUp (m : MigrationDefinition) | ScriptDown (m : MigrationDefinition).

Inductive EventType :=
  | migration_started | migration_completed | migration_failed
  | rollback_started | rollback_completed | rollback_failed.

Record MigrationEvent := mkMigrationEvent { e_type : EventType; e_version : string; e_name : string }.

Record MigrationRecord := mkRecord { rec_version : string; rec_name : string; rec_checksum : string; rec_rolledBack : bool }.

Record Db := mkDb {
  rows : gmap string Row;
  locks : gmap string (nat * Row);         (* written by transactions not yet committed *)
  executed : gmap nat Script;              (* run by transactions not yet committed *)
  journal : list (nat * Script);
  emitted : list MigrationEvent
}.

Abbreviation Stmt := (stmt Db MigrationError).
Abbreviation Prog := (prog Db MigrationError).

Definition versionOfScript (s : Script) : string :=
  match s with ScriptUp m | ScriptDown m => version m end.

(** The row a script's transaction writes, from the one that is there. *)
Definition rowAfter (s : Script) (old : option Row) : option Row :=
  match s with
  | ScriptUp m => Some (mkRow (match old with Some r => r_name r | None => name m end) (checksum_ m) true)
  | ScriptDown m => (fun r => mkRow (r_name r) (r_checksum r) false) <$> old
  end.

(** ** Statements *)

Definition active (t : gmap string Row) (v : string) : bool :=
  match t !! v with Some r => r_active r | None => false end.
Definition activeVersions (t : gmap string Row) : list string :=
  filter (fun v => active t v = true) (map_to_list t).*1.

(** [SELECT version FROM schema_migrations WHERE rolled_back_at IS NULL] *)
Definition selectApplied : Stmt (list string) := fun sid db => Some (db, inr (activeVersions (rows db))).

Definition str_lt (a b : string) : bool := negb (String.leb b a).

(** [... AND version > $1 ORDER BY version DESC] *)
Definition activeAbove (target : string) (t : gmap string Row) : list string :=
  rev (js_sort (filter (fun v => str_lt target v = true) (activeVersions t))).
Definition selectAbove (target : string) : Stmt (list string) :=
  fun sid db => Some (db, inr (activeAbove target (rows db))).

(** The script of a migration. *)
Definition runScript (s : Script) : Stmt unit := fun sid db =>
  Some (mkDb (rows db) (locks db) (<[sid := s]> (executed db)) (journal db) (emitted db), inr tt).

(** The INSERT ... ON CONFLICT of [applyMigration] and the UPDATE of
    [rollbackMigration]; they wait while another transaction has written the row. *)
Definition writeRow (s : Script) : Stmt unit := fun sid db =>
  let v := versionOfScript s in
  if locked_by_other sid v (locks db) then None
  else
    let old := visible sid v (locks db) (rows db) in
    let locks' := match rowAfter s old with Some r => <[v := (sid, r)]> (locks db) | None => locks db end in
    Some (mkDb (rows db) locks' (executed db) (journal db) (emitted db), inr tt).

Definition commit : Stmt unit := fun sid db =>
  Some (mkDb (owned sid (locks db) ∪ rows db) (unlock sid (locks db)) (delete sid (executed db))
          (journal db ++ match executed db !! sid with Some s => [(sid, s)] | None => [] end) (emitted db), inr tt).

Definition abandon (sid : nat) (db : Db) : Db :=
  mkDb (rows db) (unlock sid (locks db)) (delete sid (executed db)) (journal db) (emitted db).
Definition rollbackTx : Stmt unit := fun sid db => Some (abandon sid db, inr tt).

(** ** The manager *)

Definition emit (t : EventType) (m : MigrationDefinition) : Prog unit :=
  local (fun db => mkDb (rows db) (locks db) (executed db) (journal db)
                     (emitted db ++ [mkMigrationEvent t (version m) (name m)])).

(** The two statements before every call: the table and its index. *)
Definition ensureSchema : Prog unit := await _ := noop in query noop.

(** BEGIN, the script, its row, COMMIT; on an error ROLLBACK. *)
Definition inTransaction (s : Script) (done failed : Prog unit) (r : MigrationRecord) : Prog MigrationRecord :=
  try_ (await _ := noop in
        await _ := runScript s in
        await _ := writeRow s in
        await _ := commit in
        then_ done (fun _ => Return r))
       (fun err => await _ := rollbackTx in then_ failed (fun _ => Raise err)).

Definition applied_record (m : MigrationDefinition) : MigrationRecord := mkRecord (version m) (name m) (checksum_ m) false.
Definition rolledBack_record (m : MigrationDefinition) : MigrationRecord := mkRecord (version m) (name m) (checksum_ m) true.

Definition applyMigration (m : MigrationDefinition) : Prog MigrationRecord :=
  then_ (emit migration_started m) (fun _ =>
  inTransaction (ScriptUp m) (emit migration_completed m) (emit migration_failed m) (applied_record m)).

Definition rollbackMigration (m : MigrationDefinition) : Prog MigrationRecord :=
  then_ (emit rollback_started m) (fun _ =>
  inTransaction (ScriptDown m) (emit rollback_completed m) (emit rollback_failed m) (rolledBack_record m)).

Fixpoint applyAll (ms : list MigrationDefinition) : Prog (list MigrationRecord) :=
  match ms with
  | [] => Return []
  | m :: ms' => then_ (applyMigration m) (fun r => then_ (applyAll ms') (fun rs => Return (r :: rs)))
  end.

(** [new Map(migrations.map((m) => [m.version, m]))] *)
Definition byVersion (ms : list MigrationDefinition) : gmap string MigrationDefinition :=
  foldl (fun acc m => <[version m := m]> acc) ∅ ms.

Fixpoint rollbackAll (migrations : gmap string MigrationDefinition) (vs : list string) : Prog (list MigrationRecord) :=
  match vs with
  | [] => Return []
  | v :: vs' =>
      match migrations !! v with
      | None => Raise (MissingFile v)
      | Some m =>
          then_ (rollbackMigration m) (fun r => then_ (rollbackAll migrations vs') (fun rs => Return (r :: rs)))
      end
  end.

Definition candidates (applied : list string) (ms : list MigrationDefinition) : list MigrationDefinition :=
  filter (fun m => version m ∉ applied) ms.

(** [targetVersion ? candidates.filter((m) => m.version <= targetVersion) : candidates] *)
Definition upTo (target : option string) (ms : list MigrationDefinition) : list MigrationDefinition :=
  match target with
  | Some t => if falsy t then ms else filter (fun m => String.leb (version m) t = true) ms
  | None => ms
  end.

Definition orRaise {A} (r : MigrationError + A) : Prog A := match r with inl e => Raise e | inr a => Return a end.

Definition pending (dir : directory) : Prog (list MigrationDefinition) :=
  then_ ensureSchema (fun _ =>
  await applied := selectApplied in
  then_ (orRaise (loadMigrations dir)) (fun ms => Return (candidates applied ms))).

Definition migrate (dir : directory) (target : option string) : Prog (list MigrationRecord) :=
  then_ ensureSchema (fun _ =>
  await applied := selectApplied in
  then_ (orRaise (loadMigrations dir)) (fun ms => applyAll (upTo target (candidates applied ms)))).

Definition rollback (dir : directory) (target : string) : Prog (list MigrationRecord) :=
  then_ ensureSchema (fun _ =>
  then_ (orRaise (loadMigrations dir)) (fun ms =>
  await vs := selectAbove target in
  rollbackAll (byVersion ms) vs)).

Inductive Call :=
  | Pending (dir : directory)
  | Migrate (dir : directory) (target : option string)
  | Rollback (dir : directory) (target : string).

Inductive Result := Definitions (ms : list MigrationDefinition) | Records (rs : list MigrationRecord).

Definition body (c : Call) : Prog Result :=
  match c with
  | Pending dir => then_ (pending dir) (fun ms => Return (Definitions ms))
  | Migrate dir target => then_ (migrate dir target) (fun rs => Return (Records rs))
  | Rollback dir target => then_ (rollback dir target) (fun rs => Return (Records rs))
  end.

Definition start (t : gmap string Row) : Db := mkDb t ∅ ∅ [] [].
Definition managers (t : gmap string Row) (evs : list (Event (E := MigrationError) (Call := Call))) :=
  run body ConnectionLost abandon (start t) evs.

(** ** What the journal says *)

Definition scripts (db : Db) : list Script := (journal db).*2.

Definition record (t : gmap string Row) (s : Script) : gmap string Row :=
  match rowAfter s (t !! versionOfScript s) with Some r => <[versionOfScript s := r]> t | None => t end.

(** The table after the scripts. *)
Definition replay (t : gmap string Row) (l : list Script) : gmap string Row := foldl record t l.

(** What a session committed. *)
Definition mine (sid : nat) (db : Db) : list Script := (filter (fun e => e.1 = sid) (journal db)).*2.

Section proofs.
#[local] Arguments owned : simpl never.
#[local] Arguments unlock : simpl never.
#[local] Arguments mine : simpl never.
Context (initial : gmap string Row).

Definition Inv (db : Db) : Prop := rows db = replay initial (scripts db).

(** Scripts are only added, and rows never removed. *)
Definition grows (db db' : Db) : Prop :=
  journal db `prefix_of` journal db' /\ (forall v, is_Some (rows db !! v) -> is_Some (rows db' !! v)).

Definition Rely (sid : nat) (db db' : Db) : Prop :=
  grows db db' /\ mine sid db' = mine sid db /\
  executed db' !! sid = executed db !! sid /\ owned sid (locks db') = owned sid (locks db) /\
  (forall v r, owned sid (locks db) !! v = Some r -> rows db' !! v = rows db !! v).

Lemma mig_grows_refl db : grows db db.
Proof. by split. Qed.

Lemma mig_grows_trans db1 db2 db3 : grows db1 db2 -> grows db2 db3 -> grows db1 db3.
Proof. intros [? ?] [? ?]. split; [by etrans|auto]. Qed.

Lemma mig_Rely_refl sid db : Rely sid db db.
Proof. split_and!; try done; apply mig_grows_refl. Qed.

Lemma mig_Rely_trans sid db1 db2 db3 : Rely sid db1 db2 -> Rely sid db2 db3 -> Rely sid db1 db3.
Proof.
  intros (G1 & M1 & E1 & O1 & R1) (G2 & M2 & E2 & O2 & R2). split_and!; [by eapply mig_grows_trans|congruence..|].
  intros v r Hv. rewrite <- (R1 v r Hv). apply (R2 v r). by rewrite O1.
Qed.

Lemma mig_replay_snoc t l s : replay t (l ++ [s]) = record (replay t l) s.
Proof. unfold replay. by rewrite foldl_app. Qed.

(** An update that keeps the journal and the rows. *)
Lemma quiet_step sid db lks ex ev :
  Inv db -> (forall o, o <> sid -> owned o lks = owned o (locks db)) ->
  (forall o, o <> sid -> ex !! o = executed db !! o) ->
  let db' := mkDb (rows db) lks ex (journal db) ev in
  Inv db' /\ guar Rely sid db db' /\ grows db db'.
Proof. intros HI Hl He. split_and!; [done| |by split]. intros o Ho. split_and!; cbn; auto; by split. Qed.

Lemma mig_mine_snoc sid o s db db' :
  journal db' = journal db ++ [(o, s)] ->
  mine sid db' = mine sid db ++ (if decide (o = sid) then [s] else []).
Proof. intros Hj. unfold mine. rewrite Hj, filter_app, fmap_app, filter_cons. cbn. by case_decide. Qed.

(** ** What a session knows

    [F] is any fact about what the database has come to contain. *)

Section session.
Context (F : Db -> Prop) (F_grows : forall db db', grows db db' -> F db -> F db').

(** The session has committed [l]. *)
Definition at_ (sid : nat) (l : list Script) (db : Db) : Prop := mine sid db = l /\ F db.

(** A row that is there stays there. *)
Definition writable (s : Script) (t : gmap string Row) : Prop := is_Some (rowAfter s (t !! versionOfScript s)).

(** No transaction is open; one is about to run a script, has run it, and has written
    its row. *)
Definition idle (sid : nat) (l : list Script) (db : Db) : Prop :=
  at_ sid l db /\ executed db !! sid = None /\ owned sid (locks db) = ∅.
Definition ready (sid : nat) (l : list Script) (s : Script) (db : Db) : Prop :=
  idle sid l db /\ writable s (rows db).
Definition ran (sid : nat) (l : list Script) (s : Script) (db : Db) : Prop :=
  at_ sid l db /\ executed db !! sid = Some s /\ owned sid (locks db) = ∅ /\ writable s (rows db).
Definition written (sid : nat) (l : list Script) (s : Script) (db : Db) : Prop :=
  at_ sid l db /\ executed db !! sid = Some s /\
  exists r, rowAfter s (rows db !! versionOfScript s) = Some r /\ owned sid (locks db) = {[versionOfScript s := r]}.

(** The outcome of a transaction whose connection is lost. *)
Definition near (sid : nat) (l : list Script) (s : Script) (db : Db) : Prop :=
  at_ sid l db \/ at_ sid (l ++ [s]) db.

Lemma at_rely sid l db db' : Rely sid db db' -> at_ sid l db -> at_ sid l db'.
Proof. intros (G & M & _) [<- ?]. split; [done|]. by eapply F_grows. Qed.

Lemma writable_grows s db db' : grows db db' -> writable s (rows db) -> writable s (rows db').
Proof.
  intros [_ D]. unfold writable. destruct s as [m|m]; cbn; [by eexists|]. rewrite !fmap_is_Some. apply D.
Qed.

Lemma idle_rely sid l db db' : Rely sid db db' -> idle sid l db -> idle sid l db'.
Proof.
  intros HR (H1 & H2 & H3). split; [by eapply at_rely|]. destruct HR as (_ & M & E & O & _). split; congruence.
Qed.

Lemma ready_rely sid l s db db' : Rely sid db db' -> ready sid l s db -> ready sid l s db'.
Proof. intros HR [? ?]. split; [by eapply idle_rely|]. eapply writable_grows; [apply HR|done]. Qed.

Lemma ran_rely sid l s db db' : Rely sid db db' -> ran sid l s db -> ran sid l s db'.
Proof.
  intros HR (H1 & H2 & H3 & H4). split; [by eapply at_rely|]. pose proof HR as (G & M & E & O & _).
  split_and!; [congruence..|]. by eapply writable_grows.
Qed.

Lemma written_rely sid l s db db' : Rely sid db db' -> written sid l s db -> written sid l s db'.
Proof.
  intros HR (H1 & H2 & r & Hr & Ho). split; [by eapply at_rely|]. destruct HR as (_ & M & E & O & R).
  split; [congruence|].
  exists r. rewrite O, (R (versionOfScript s) r) by (by rewrite Ho, lookup_singleton_eq). done.
Qed.

(** ** Each statement once *)

Lemma commit_step sid l s db :
  Inv db -> written sid l s db ->
  exists db', commit sid db = Some (db', inr tt) /\ Inv db' /\ guar Rely sid db db' /\ idle sid (l ++ [s]) db'.
Proof.
  intros HI ((Hm & HF) & He & r & Hr & Ho). eexists. split; [done|]. rewrite He.
  assert (Hrows : owned sid (locks db) ∪ rows db = record (rows db) s).
  { unfold record. rewrite Hr, Ho. by rewrite <- insert_union_singleton_l. }
  assert (HG : forall lks ex ev, grows db (mkDb (owned sid (locks db) ∪ rows db) lks ex (journal db ++ [(sid, s)]) ev)).
  { intros lks ex ev. split; cbn; [by apply prefix_app_r|]. intros v Hv.
    rewrite (committed_lookup _ _ _ _ _ _ Ho). case_decide; [by eexists|done]. }
  split_and!.
  - unfold Inv, scripts. cbn [rows journal]. rewrite fmap_app, Hrows, HI. symmetry. apply mig_replay_snoc.
  - intros o Hne. split_and!; cbn; [apply HG|..].
    + rewrite (mig_mine_snoc o sid s db) by done. rewrite decide_False by congruence. apply app_nil_r.
    + by rewrite lookup_delete_ne.
    + rewrite owned_unlock, bool_decide_false by done. done.
    + intros v x Hv. rewrite (committed_lookup _ _ _ _ _ _ Ho), decide_False; [done|]. intros <-.
      apply owned_lookup in Hv. assert (Hs : owned sid (locks db) !! versionOfScript s = Some r)
        by (by rewrite Ho, lookup_singleton_eq).
      apply owned_lookup in Hs. naive_solver.
  - split_and!; cbn; [split| |].
    + rewrite (mig_mine_snoc sid sid s db) by done. by rewrite decide_True, Hm.
    + eapply F_grows; [apply HG|done].
    + apply lookup_delete_eq.
    + by rewrite owned_unlock, bool_decide_true.
Qed.

Lemma write_step sid l s db db' r :
  Inv db -> ran sid l s db -> writeRow s sid db = Some (db', r) ->
  Inv db' /\ guar Rely sid db db' /\ r = inr tt /\ written sid l s db'.
Proof.
  intros HI ((Hm & HF) & He & Ho & [x Hx]). unfold writeRow. destruct (locked_by_other _ _ _) eqn:Hl; [done|].
  rewrite visible_unowned, Hx by done. intros [= <- <-].
  destruct (quiet_step sid db (<[versionOfScript s := (sid, x)]> (locks db)) (executed db) (emitted db) HI) as (? & ? & G);
    [intros o Hne; by apply owned_insert_other|done|].
  split_and!; [done..|]. split_and!; [split; [done|by eapply F_grows]|done|]. exists x. split; [done|].
  cbn. by rewrite owned_insert, Ho.
Qed.

Lemma abandon_step sid db : Inv db -> Inv (abandon sid db) /\ guar Rely sid db (abandon sid db) /\ grows db (abandon sid db).
Proof.
  intros HI. apply quiet_step; [done| |].
  - intros o Ho. by rewrite owned_unlock, bool_decide_false.
  - intros o Ho. by rewrite lookup_delete_ne.
Qed.

(** ** One transaction *)

Abbreviation Safe := (safe ConnectionLost abandon Inv Rely).

Lemma at_abandon sid l db : at_ sid l db -> at_ sid l (abandon sid db).
Proof. intros [? ?]. split; [done|]. by eapply F_grows; [|done]; split. Qed.

Lemma stage_safe sid l s (K1 K2 : Db -> Prop) (q : Stmt unit) db :
  (forall db db', Rely sid db db' -> K1 db -> K1 db') ->
  (forall db, K1 db -> at_ sid l db) -> (forall db, K2 db -> near sid l s db) ->
  (forall db db' r, Inv db -> K1 db -> q sid db = Some (db', r) ->
     Inv db' /\ guar Rely sid db db' /\ r = inr tt /\ K2 db') ->
  K1 db ->
  Safe sid (near sid l s) (upto (at_ sid l) (fun _ => K2)) (query q) db.
Proof.
  intros Hs H1 H2 Hq HK. apply statement_safe.
  { by left. }
  { intros db' [H|H]; [left|right]; by apply at_abandon. }
  intros db1 HR HI. pose proof (Hs _ _ HR HK) as HK1. split; [by apply H1|]. intros db2 r Hr.
  destruct (Hq _ _ _ HI HK1 Hr) as (? & ? & -> & ?). auto.
Qed.

Lemma begin_safe sid l s db :
  ready sid l s db ->
  Safe sid (near sid l s) (upto (at_ sid l) (fun _ => ready sid l s)) (query noop) db.
Proof.
  apply (stage_safe sid l s (ready sid l s) (ready sid l s));
    [by apply ready_rely|by intros ? [[] _]|by intros ? [[? _] _]; left|].
  intros db1 db' r HI Hi [= <- <-]. split_and!; [done|intros o _; apply mig_Rely_refl|done|done].
Qed.

Lemma runScript_safe sid l s db :
  ready sid l s db ->
  Safe sid (near sid l s) (upto (at_ sid l) (fun _ => ran sid l s)) (query (runScript s)) db.
Proof.
  apply (stage_safe sid l s (ready sid l s) (ran sid l s));
    [by apply ready_rely|by intros ? [[] _]|by intros ? [? _]; left|].
  intros db1 db' r HI [((H0 & HF) & H2 & H3) H4] [= <- <-].
  destruct (quiet_step sid db1 (locks db1) (<[sid := s]> (executed db1)) (emitted db1) HI) as (? & ? & G);
    [done|intros o Ho; by rewrite lookup_insert_ne|].
  split_and!; [done..|]. split_and!; [split; [done|by eapply F_grows]| |done..]. cbn. by rewrite lookup_insert_eq.
Qed.

Lemma writeRow_safe sid l s db :
  ran sid l s db ->
  Safe sid (near sid l s) (upto (at_ sid l) (fun _ => written sid l s)) (query (writeRow s)) db.
Proof.
  apply (stage_safe sid l s (ran sid l s) (written sid l s));
    [by apply ran_rely|by intros ? []|by intros ? [? _]; left|].
  intros db1 db' r. apply write_step.
Qed.

Lemma mig_commit_safe sid l s db :
  written sid l s db ->
  Safe sid (near sid l s) (upto (at_ sid l) (fun _ => idle sid (l ++ [s]))) (query commit) db.
Proof.
  apply (stage_safe sid l s (written sid l s) (idle sid (l ++ [s])));
    [by apply written_rely|by intros ? []|by intros ? [? _]; right|].
  intros db1 db' r HI Hw E. destruct (commit_step sid l s db1 HI Hw) as (db2 & E2 & ? & ? & ?).
  rewrite E in E2. injection E2 as -> ->. auto.
Qed.

Lemma emit_safe sid t m (quiet unknown K : Db -> Prop) db :
  (forall db db', Rely sid db db' -> K db -> K db') ->
  (forall db ev, K db -> K (mkDb (rows db) (locks db) (executed db) (journal db) ev)) -> K db ->
  Safe sid unknown (upto quiet (fun _ => K)) (emit t m) db.
Proof.
  intros Hs He HK. apply local_safe. intros db1 HR HI.
  destruct (quiet_step sid db1 (locks db1) (executed db1) (emitted db1 ++ [mkMigrationEvent t (version m) (name m)]) HI)
    as (? & ? & _); [done..|]. split_and!; [done..|]. apply He. by eapply Hs.
Qed.

Lemma at_emit sid l db ev : at_ sid l db -> at_ sid l (mkDb (rows db) (locks db) (executed db) (journal db) ev).
Proof. intros [? ?]. split; [done|]. by eapply F_grows; [|done]; split. Qed.
Lemma idle_emit sid l db ev : idle sid l db -> idle sid l (mkDb (rows db) (locks db) (executed db) (journal db) ev).
Proof. intros (? & ? & ?). split; [by apply at_emit|done]. Qed.

(** The failing transaction is rolled back and the error thrown. *)
Lemma failed_safe sid l s t m err (r : MigrationRecord) db :
  at_ sid l db ->
  Safe sid (near sid l s) (upto (at_ sid l) (fun x db => x = r /\ idle sid (l ++ [s]) db))
    (await _ := rollbackTx in then_ (emit t m) (fun _ => Raise err)) db.
Proof.
  intros Hl. eapply (safe_then _ _ _ _ _ _ (upto (at_ sid l) (fun _ => at_ sid l))).
  - apply (stage_safe sid l s (at_ sid l) (at_ sid l)); [apply at_rely|done|by left| |done].
    intros db1 db2 r' HI Hm [= <- <-]. destruct (abandon_step sid db1 HI) as (? & ? & ?).
    split_and!; [done..|by apply at_abandon].
  - intros ? db1 H1. eapply (safe_then _ _ _ _ _ _ (upto (at_ sid l) (fun _ => at_ sid l))); [|done|done].
    apply (emit_safe sid t m _ _ (at_ sid l)); [apply at_rely|apply at_emit|done].
  - done.
Qed.

Lemma inTransaction_safe sid l s t1 t2 m r db :
  ready sid l s db ->
  Safe sid (near sid l s) (upto (at_ sid l) (fun x db => x = r /\ idle sid (l ++ [s]) db))
    (inTransaction s (emit t1 m) (emit t2 m) r) db.
Proof.
  intros Hr. unfold inTransaction. eapply safe_try; [|by intros x db1 H1; exact H1|intros e db1 H1; by apply failed_safe|done].
  eapply safe_then; [by apply begin_safe|intros ? db1 H1|by intros e db1 H1].
  eapply safe_then; [by apply runScript_safe|intros ? db2 H2|by intros e db2 H2].
  eapply safe_then; [by apply writeRow_safe|intros ? db3 H3|by intros e db3 H3].
  eapply safe_then; [by apply mig_commit_safe|intros ? db4 H4|by intros e db4 H4].
  eapply safe_then; [apply (emit_safe sid t1 m (at_ sid l) _ (idle sid (l ++ [s])))|..];
    [apply idle_rely|apply idle_emit|done| |by intros e db5 H5].
  intros [] db5 H5. by split.
Qed.

(** ** The loops *)

(** Of the scripts [ls] the first few are committed after [l]. *)
Definition partly (sid : nat) (l ls : list Script) (db : Db) : Prop := exists k, at_ sid (l ++ take k ls) db.

Lemma partly_none sid l ls db : at_ sid l db -> partly sid l ls db.
Proof. intros H. exists 0%nat. by rewrite take_0, app_nil_r. Qed.

Lemma partly_next sid l s ls db : partly sid (l ++ [s]) ls db -> partly sid l (s :: ls) db.
Proof. intros [k H]. exists (S k). by rewrite <- app_assoc in H. Qed.

Lemma near_partly sid l s ls db : near sid l s db -> partly sid l (s :: ls) db.
Proof. intros [H|H]; [by apply partly_none|]. by apply partly_next, partly_none. Qed.

Lemma loop_step {C} sid l s ls p (f : MigrationRecord -> Prog C) K r db :
  Safe sid (near sid l s) (upto (at_ sid l) (fun x db => x = r /\ idle sid (l ++ [s]) db)) p db ->
  (forall db', idle sid (l ++ [s]) db' ->
     Safe sid (partly sid (l ++ [s]) ls) (upto (partly sid (l ++ [s]) ls) K) (f r) db') ->
  Safe sid (partly sid l (s :: ls)) (upto (partly sid l (s :: ls)) K) (then_ p f) db.
Proof.
  intros Hp Hf. eapply safe_then.
  - eapply safe_mono; [..|exact Hp]; [done|]. intros db'. apply near_partly.
  - intros x db' [-> Hi]. eapply safe_mono; [..|by apply Hf].
    + intros [e|y] db2; cbn; [apply partly_next|done].
    + intros db2. apply partly_next.
  - intros e db' H. by apply partly_none.
Qed.

Lemma started_safe sid l s t t1 t2 m r db :
  idle sid l db -> (forall db, idle sid l db -> writable s (rows db)) ->
  Safe sid (near sid l s) (upto (at_ sid l) (fun x db => x = r /\ idle sid (l ++ [s]) db))
    (then_ (emit t m) (fun _ => inTransaction s (emit t1 m) (emit t2 m) r)) db.
Proof.
  intros Hi Hw. eapply (safe_then _ _ _ _ _ _ (upto (at_ sid l) (fun _ => idle sid l))); [|intros ? db1 H1|done].
  - apply emit_safe; [apply idle_rely|apply idle_emit|done].
  - apply inTransaction_safe. split; [done|by apply Hw].
Qed.

Lemma applyAll_safe sid ms l db :
  idle sid l db ->
  Safe sid (partly sid l (ScriptUp <$> ms))
    (upto (partly sid l (ScriptUp <$> ms)) (fun rs db => rs = applied_record <$> ms /\ at_ sid (l ++ (ScriptUp <$> ms)) db))
    (applyAll ms) db.
Proof.
  revert l db. induction ms as [|m ms IH]; intros l db Hi; cbn [applyAll].
  - split; [done|]. cbn. rewrite app_nil_r. apply Hi.
  - rewrite fmap_cons. apply loop_step with (applied_record m).
    { apply started_safe; [done|]. intros db' _. by eexists. }
    intros db' Hi'. eapply safe_then; [by apply IH| |by intros e db2 H2].
    intros rs db2 [-> H2]. split; [done|]. by rewrite <- app_assoc in H2.
Qed.

(** The migrations that the versions name, up to one that no file has. *)
Fixpoint named (migrations : gmap string MigrationDefinition) (vs : list string) : list MigrationDefinition :=
  match vs with
  | [] => []
  | v :: vs' => match migrations !! v with Some m => m :: named migrations vs' | None => [] end
  end.

Lemma rollbackAll_safe sid migrations vs l db :
  (forall v m, migrations !! v = Some m -> version m = v) ->
  (forall db v, F db -> v ∈ vs -> is_Some (rows db !! v)) ->
  idle sid l db ->
  let ms := named migrations vs in
  Safe sid (partly sid l (ScriptDown <$> ms))
    (upto (partly sid l (ScriptDown <$> ms))
       (fun rs db => version <$> ms = vs /\ rs = rolledBack_record <$> ms /\ at_ sid (l ++ (ScriptDown <$> ms)) db))
    (rollbackAll migrations vs) db.
Proof.
  intros Hmig. cbn zeta. revert l db. induction vs as [|v vs IH]; intros l db Hvs Hi; cbn [rollbackAll named].
  - split_and!; [done..|]. cbn. rewrite app_nil_r. apply Hi.
  - destruct (migrations !! v) as [m|] eqn:Hm; [|by apply partly_none, Hi].
    rewrite !fmap_cons. apply Hmig in Hm as Hv. apply loop_step with (rolledBack_record m).
    { apply started_safe; [done|]. intros db' ((_ & HF) & _). unfold writable. cbn. rewrite fmap_is_Some.
      apply Hvs; [done|]. rewrite Hv. by left. }
    intros db' Hi'. eapply safe_then; [apply IH; [|done]| |by intros e db2 H2].
    { intros db2 v' HF Hin. apply Hvs; [done|by right]. }
    intros rs db2 (Hvv & -> & H2). split_and!; [by rewrite Hv, Hvv|done|]. by rewrite <- app_assoc in H2.
Qed.
End session.

(** ** The calls *)

(** The scripts a call runs when it reads the table [t]. *)
Definition plan (c : Call) (t : gmap string Row) (ms : list MigrationDefinition) : list Script :=
  match c with
  | Pending _ => []
  | Migrate _ target => ScriptUp <$> upTo target (candidates (activeVersions t) ms)
  | Rollback _ target => ScriptDown <$> named (byVersion ms) (activeAbove target t)
  end.

Definition directoryOf (c : Call) : directory :=
  match c with Pending dir | Migrate dir _ | Rollback dir _ => dir end.

(** What a call that succeeds reports. *)
Definition reports (c : Call) (t : gmap string Row) (ms : list MigrationDefinition) (res : Result) : Prop :=
  match c, res with
  | Pending _, Definitions ds => ds = candidates (activeVersions t) ms
  | Migrate _ target, Records rs => rs = applied_record <$> upTo target (candidates (activeVersions t) ms)
  | Rollback _ target, Records rs =>
      rec_version <$> rs = activeAbove target t /\
      rs = rolledBack_record <$> named (byVersion ms) (activeAbove target t)
  | _, _ => False
  end.

(** The table as it was at some moment of the run. *)
Definition seen (t : gmap string Row) (db : Db) : Prop :=
  exists l, l `prefix_of` scripts db /\ t = replay initial l.

Definition Post (sid : nat) (c : Call) (r : MigrationError + Result) (db : Db) : Prop :=
  match r with
  | inl e =>
      mine sid db = [] \/
      exists t ms k, seen t db /\ loadMigrations (directoryOf c) = inr ms /\ mine sid db = take k (plan c t ms)
  | inr res =>
      exists t ms, seen t db /\ loadMigrations (directoryOf c) = inr ms /\
        mine sid db = plan c t ms /\ reports c t ms res
  end.

Lemma seen_grows t db db' : grows db db' -> seen t db -> seen t db'.
Proof.
  intros [[l' E] _] (l & Hl & ->). exists l. split; [|done]. unfold scripts. rewrite E, fmap_app.
  by apply prefix_app_r.
Qed.

Lemma seen_now db : Inv db -> seen (rows db) db.
Proof. intros HI. exists (scripts db). by split. Qed.

Lemma mig_Post_stable sid c r db db' : Rely sid db db' -> Post sid c r db -> Post sid c r db'.
Proof.
  intros (G & M & _). destruct r as [e|res]; cbn; rewrite M.
  - intros [?|(t & ms & k & H & ?)]; [by left|right]. exists t, ms, k. split; [by eapply seen_grows|done].
  - intros (t & ms & H & ?). exists t, ms. split; [by eapply seen_grows|done].
Qed.

Definition True_ (db : Db) : Prop := True.
Definition Fresh (sid : nat) : Db -> Prop := idle True_ sid [].

Abbreviation Safe := (safe ConnectionLost abandon Inv Rely).
Definition none (sid : nat) (db : Db) : Prop := mine sid db = [].

(** A statement before the first transaction, that only reads. *)
Lemma reading_safe {B} sid (F : Db -> Prop) (f : Db -> B) (K : B -> Db -> Prop) db :
  (forall db db', grows db db' -> F db -> F db') ->
  (forall db, Inv db -> idle F sid [] db -> K (f db) db) ->
  idle F sid [] db ->
  Safe sid (none sid) (upto (none sid) K) (query (fun _ db => Some (db, inr (f db)))) db.
Proof.
  intros HF HK Hi. apply statement_safe; [done|done|]. intros db1 HR HI.
  assert (H1 : idle F sid [] db1) by (by eapply idle_rely). split; [apply H1|]. intros db2 r [= <- <-].
  split_and!; [done|intros o _; apply mig_Rely_refl|by apply HK|apply H1].
Qed.

Lemma ensureSchema_safe sid db :
  Fresh sid db -> Safe sid (none sid) (upto (none sid) (fun _ => Fresh sid)) ensureSchema db.
Proof.
  intros Hf. eapply safe_then; [by apply (reading_safe sid True_ (fun _ => tt) (fun _ => Fresh sid))| |done].
  intros [] db1 H1. by apply (reading_safe sid True_ (fun _ => tt) (fun _ => Fresh sid)).
Qed.

(** The table a call reads stays known. *)
Lemma selecting_safe {B} sid (f : gmap string Row -> B) db :
  Fresh sid db ->
  Safe sid (none sid) (upto (none sid) (fun b db => exists t, b = f t /\ idle (fun db => seen t db /\
      forall v, is_Some (t !! v) -> is_Some (rows db !! v)) sid [] db))
    (query (fun _ db => Some (db, inr (f (rows db))))) db.
Proof.
  intros Hf. apply (reading_safe sid True_ (fun db => f (rows db))); [done| |done].
  intros db1 HI ((Hm & _) & He & Ho). exists (rows db1). split; [done|].
  split_and!; [split; [done|]|done..]. split; [by apply seen_now|done].
Qed.

Lemma kept_grows t db db' :
  grows db db' -> seen t db /\ (forall v, is_Some (t !! v) -> is_Some (rows db !! v)) ->
  seen t db' /\ forall v, is_Some (t !! v) -> is_Some (rows db' !! v).
Proof. intros G [H1 H2]. split; [by eapply seen_grows|]. intros v Hv. by apply G, H2. Qed.

Lemma activeAbove_present target t v : v ∈ activeAbove target t -> is_Some (t !! v).
Proof.
  unfold activeAbove. rewrite <- Permutation_rev, js_sort_Permutation, list_elem_of_filter. intros [_ H].
  unfold activeVersions in H. apply list_elem_of_filter in H as [H _]. unfold active in H.
  by destruct (t !! v).
Qed.

Lemma byVersion_version ms v m : byVersion ms !! v = Some m -> version m = v.
Proof.
  unfold byVersion. assert (H : forall (acc : gmap string MigrationDefinition),
    (forall v m, acc !! v = Some m -> version m = v) ->
    forall v m, foldl (fun acc m => <[version m := m]> acc) acc ms !! v = Some m -> version m = v).
  { induction ms as [|x ms IH]; [done|]. intros acc Hacc. apply IH. intros v' m'.
    rewrite lookup_insert_Some. intros [[? ?]|[_ ?]]; [congruence|by apply Hacc]. }
  apply H. intros v' m'. by rewrite lookup_empty.
Qed.

(** The loops start from what the table read says. *)
Lemma upAll_safe sid dir target ms t db :
  loadMigrations dir = inr ms ->
  idle (fun db => seen t db /\ forall v, is_Some (t !! v) -> is_Some (rows db !! v)) sid [] db ->
  Safe sid (Post sid (Migrate dir target) (inl ConnectionLost)) (Post sid (Migrate dir target))
    (then_ (applyAll (upTo target (candidates (activeVersions t) ms))) (fun rs => Return (Records rs))) db.
Proof.
  intros Hms Hi. set (sel := upTo target _).
  pose proof (applyAll_safe _ (kept_grows t) sid sel [] db Hi) as H.
  eapply safe_then.
  - eapply safe_mono; [|intros db'|exact H]; [by intros r db' Hr; exact Hr|].
    intros (k & Hm & Hs & _). right. by exists t, ms, k.
  - intros rs db' (-> & Hm & Hs & _). exists t, ms. by split_and!.
  - intros e db' (k & Hm & Hs & _). right. by exists t, ms, k.
Qed.

Lemma downAll_safe sid dir target ms t db :
  loadMigrations dir = inr ms ->
  idle (fun db => seen t db /\ forall v, is_Some (t !! v) -> is_Some (rows db !! v)) sid [] db ->
  Safe sid (Post sid (Rollback dir target) (inl ConnectionLost)) (Post sid (Rollback dir target))
    (then_ (rollbackAll (byVersion ms) (activeAbove target t)) (fun rs => Return (Records rs))) db.
Proof.
  intros Hms Hi.
  pose proof (rollbackAll_safe _ (kept_grows t) sid (byVersion ms) (activeAbove target t) [] db (byVersion_version ms)) as H.
  specialize (H ltac:(intros db' v [_ Ht] Hv; by apply Ht, (activeAbove_present target)) Hi). cbn zeta in H.
  eapply safe_then.
  - eapply safe_mono; [|intros db'|exact H]; [by intros r db' Hr; exact Hr|].
    intros (k & Hm & Hs & _). right. by exists t, ms, k.
  - intros rs db' (Hv & -> & Hm & Hs & _). exists t, ms. split_and!; [done..|]. split; [|done].
    rewrite <- Hv at 2. rewrite <- list_fmap_compose. done.
  - intros e db' (k & Hm & Hs & _). right. by exists t, ms, k.
Qed.

Lemma quits_assoc {A B C} (p : Prog A) (f : A -> Prog B) (g : B -> Prog C) :
  quits ConnectionLost (then_ (then_ p f) g) = quits ConnectionLost (then_ p (fun a => then_ (f a) g)).
Proof. induction p; cbn; auto. Qed.

Lemma gives_up_assoc {A B C} L (p : Prog A) (f : A -> Prog B) (g : B -> Prog C) db :
  gives_up ConnectionLost L (then_ p (fun a => then_ (f a) g)) db -> gives_up ConnectionLost L (then_ (then_ p f) g) db.
Proof. unfold gives_up. by rewrite quits_assoc. Qed.

Lemma then_assoc {A B C} (p : Prog A) (f : A -> Prog B) (g : B -> Prog C) sid L Q db :
  Safe sid L Q (then_ p (fun a => then_ (f a) g)) db -> Safe sid L Q (then_ (then_ p f) g) db.
Proof.
  revert db. induction p as [a|e|D q k IH|D h k IH]; cbn; [done..| |].
  - intros db H db1 HR HI. destruct (H db1 HR HI) as (H1 & H2 & H3). split_and!; [|auto|].
    + intros db2 r Hr. destruct (H1 db2 r Hr) as (? & ? & ? & G). split_and!; [done|done|auto|].
      by apply gives_up_assoc.
    + by apply gives_up_assoc.
  - intros db H db1 HR HI db2 b Hb. destruct (H db1 HR HI db2 b Hb) as (? & ? & ?). auto.
Qed.

(** A call begins with the table, its index and perhaps the files. *)
Lemma mig_call_safe {B} sid c (p : unit -> Prog B) (f : B -> Result) db :
  Fresh sid db ->
  (forall db, Fresh sid db ->
     Safe sid (Post sid c (inl ConnectionLost)) (Post sid c) (then_ (p tt) (fun x => Return (f x))) db) ->
  Safe sid (Post sid c (inl ConnectionLost)) (Post sid c)
    (then_ (then_ ensureSchema p) (fun x => Return (f x))) db.
Proof.
  intros Hf Hp. apply then_assoc. eapply safe_then.
  - eapply safe_mono; [|intros db'|by apply ensureSchema_safe]; [by intros r db' Hr; exact Hr|by left].
  - intros [] db' H. by apply Hp.
  - intros e db' H. by left.
Qed.

Lemma mig_select_safe {B C} sid c (f : gmap string Row -> B) (p : B -> Prog C) (g : C -> Result) db :
  Fresh sid db ->
  (forall t db, idle (fun db => seen t db /\ forall v, is_Some (t !! v) -> is_Some (rows db !! v)) sid [] db ->
     Safe sid (Post sid c (inl ConnectionLost)) (Post sid c) (then_ (p (f t)) (fun x => Return (g x))) db) ->
  Safe sid (Post sid c (inl ConnectionLost)) (Post sid c)
    (then_ (then_ (query (fun _ db => Some (db, inr (f (rows db))))) p) (fun x => Return (g x))) db.
Proof.
  intros Hf Hp. apply then_assoc. eapply safe_then.
  - eapply safe_mono; [|intros db'|by apply selecting_safe]; [by intros r db' Hr; exact Hr|by left].
  - intros b db' (t & -> & Hi). by apply Hp.
  - intros e db' H. by left.
Qed.

Lemma body_safe sid c db : Fresh sid db -> Safe sid (Post sid c (inl ConnectionLost)) (Post sid c) (body c) db.
Proof.
  intros Hf. destruct c as [dir|dir target|dir target]; cbn [body].
  - apply mig_call_safe; [done|]. intros db1 H1. apply (mig_select_safe sid _ activeVersions); [done|]. intros t db2 H2.
    destruct (loadMigrations dir) as [e|ms] eqn:Hms; cbn; [left; apply H2|].
    exists t, ms. split_and!; [apply H2|done|apply H2|done].
  - apply mig_call_safe; [done|]. intros db1 H1. apply (mig_select_safe sid _ activeVersions); [done|]. intros t db2 H2.
    destruct (loadMigrations dir) as [e|ms] eqn:Hms; [left; apply H2|]. by apply upAll_safe.
  - apply mig_call_safe; [done|]. intros db1 H1.
    destruct (loadMigrations dir) as [e|ms] eqn:Hms; [left; apply H1|].
    apply (mig_select_safe sid _ (activeAbove target)); [done|]. intros t db2 H2. by apply downAll_safe.
Qed.

#[export] Instance migration_protocol :
  SessionProtocol body ConnectionLost abandon Inv Rely Post Fresh.
Proof.
  split.
  - apply mig_Rely_refl.
  - apply mig_Rely_trans.
  - apply mig_Post_stable.
  - intros sid db db' HR. by apply idle_rely.
  - intros sid db HI. by apply abandon_step.
  - intros sid db HI. by apply abandon_step.
  - intros sid c db HI Hf. by apply safe_settles, body_safe.
Qed.

Lemma start_fresh sid : Fresh sid (start initial).
Proof. by split_and!. Qed.
End proofs.

(** C34: in every interleaving of managers, with statements refused and connections
    lost at any point, the table [schema_migrations] is what the committed scripts make
    of it; a call that returns committed exactly the scripts it selected from the table
    as it once was, in order, and reports them; one that fails committed the first few
    of them. *)
Theorem migrations_recorded t evs :
  let w := managers t evs in
  rows (w_db w) = replay t (scripts (w_db w)) /\
  forall sid c r, outcome w sid = Some (c, r) -> Post t sid c r (w_db w).
Proof.
  cbn zeta. split.
  - destruct (run_safe body ConnectionLost abandon (Inv t) Rely (Post t) Fresh (start t) evs) as [H _]; [done|apply start_fresh|].
    exact H.
  - intros sid c r. apply (run_outcome body ConnectionLost abandon (Inv t) Rely (Post t) Fresh); [done|apply start_fresh].
Qed.

(** ** Concrete runs *)

Module Examples.
Local Open Scope string_scope.
Local Open Scope list_scope.

Abbreviation Events := (list (Event (E := MigrationError) (Call := Call))).

Definition files (l : list (string * string)) : directory := list_to_map l.

Definition users : directory :=
  files [("001_users.sql", sections "CREATE TABLE users();" "DROP TABLE users;");
         ("002_email.sql", sections "ALTER TABLE users ADD email TEXT;" "ALTER TABLE users DROP email;")].

Definition exec (n : nat) (sid : nat) : Events := repeat (Exec sid) n.

Definition texts (l : list Script) : list string :=
  (fun s => match s with ScriptUp m => up m | ScriptDown m => down m end) <$> l.

(** Applied and taken back, the second script refused once. *)
Definition upAndDown : Events :=
  [Start 1 (Migrate users None)] ++ exec 10 1 ++ [Refuse 1 (SqlError "timeout")] ++ exec 3 1 ++
  [Start 2 (Migrate users None)] ++ exec 10 2 ++ [Start 3 (Rollback users "001")] ++ exec 10 3.

Lemma up_and_down :
  texts (scripts (w_db (managers ∅ upAndDown))) =
    ["CREATE TABLE users();"; "ALTER TABLE users ADD email TEXT;"; "ALTER TABLE users DROP email;"] /\
  activeVersions (rows (w_db (managers ∅ upAndDown))) = ["001"].
Proof. by vm_compute. Qed.

Lemma migrations_recorded_witness :
  let w := managers ∅ upAndDown in
  exists r, outcome w 3 = Some (Rollback users "001", inr r) /\ Post ∅ 3 (Rollback users "001") (inr r) (w_db w).
Proof.
  cbn zeta.
  assert (H : exists r, outcome (managers ∅ upAndDown) 3 = Some (Rollback users "001", inr r)) by (eexists; vm_compute; reflexivity).
  destruct H as [r Hr]. exists r. split; [exact Hr|].
  exact (proj2 (migrations_recorded ∅ upAndDown) 3%nat _ _ Hr).
Defined.

(** Two managers that start together run the same script twice: nothing keeps the
    second from using the versions it read before the first committed. *)
Definition together : Events :=
  [Start 1 (Migrate users (Some "001")); Start 2 (Migrate users (Some "001"))] ++
  exec 3 1 ++ exec 3 2 ++ exec 9 1 ++ exec 9 2.

Lemma concurrent_managers_run_twice :
  texts (scripts (w_db (managers ∅ together))) = ["CREATE TABLE users();"; "CREATE TABLE users();"].
Proof. by vm_compute. Qed.

(** The repository has two files of version 011. *)
Definition backup : directory := files [("011_backup_verification.sql", "CREATE TABLE backups();")].
Definition both : directory :=
  files [("011_backup_verification.sql", "CREATE TABLE backups();"); ("011_distributed_jobs.sql", "CREATE TABLE jobs();")].

(** A database that has the first file never gets the second one. *)
Lemma second_file_of_version_skipped :
  texts (scripts (w_db (managers ∅
    ([Start 1 (Migrate backup None)] ++ exec 12 1 ++ [Start 2 (Migrate both None)] ++ exec 20 2)))) =
  ["CREATE TABLE backups();"].
Proof. by vm_compute. Qed.

(** Where both ran, a rollback takes back only the last one and forgets both. *)
Lemma rollback_forgets_first_file :
  let w := managers ∅ ([Start 1 (Migrate both None)] ++ exec 20 1 ++ [Start 2 (Rollback both "010")] ++ exec 12 2) in
  texts (scripts (w_db w)) =
    ["CREATE TABLE backups();"; "CREATE TABLE jobs();"; "-- no-op rollback for 011_distributed_jobs.sql"] /\
  activeVersions (rows (w_db w)) = [].
Proof. by vm_compute. Qed.

(** If ROLLBACK fails too, its error replaces the script's. *)
Lemma failing_rollback_hides_error :
  outcome (managers ∅ ([Start 1 (Migrate users None)] ++ exec 6 1 ++
     [Refuse 1 (SqlError "syntax error"); Refuse 1 (SqlError "timeout")])) 1 =
  Some (Migrate users None, inl (SqlError "timeout")).
Proof. by vm_compute. Qed.
End Examples.
