(* ===== verification/Baselines.v ===== *)
(** * Configuration baselines and drift ([src/src/audit/baseline_manager.ts],
    [drift_detector.ts], [alert_dispatcher.ts])

    The snapshot of a configuration with its keys sorted, the difference between a
    baseline and the live configuration, and the alerts about it.  [JSON.stringify]
    and [JSON.parse] are arguments, and so are hashes and the answers of the senders.
    The baselines as rows are in [BaselineStore].

    [snapshot_canonical]: configurations that differ only in the order of their members
    have one snapshot, and a snapshot says nothing else.
    [diff_exact]: the difference lists exactly the places where the two differ.
    [fresh_baseline_no_drift]: a configuration shows no drift from its own snapshot,
    if no array of it holds an object with unsorted keys. *)

From Stdlib Require Import ZArith Lia Ascii String Sorted.
From stdpp Require Import base numbers list strings sorting.
From S2P Require Import Prelude Js Text Number Config.
#[local] Open Scope Z_scope.

(** ** Snapshots *)

Definition sortMembers {A} (l : list (string * A)) : list (string * A) := sort_by (fun a b => String.leb a.1 b.1) l.

Fixpoint sortedKeys (v : value) : value :=
  match v with
  | VArray l => VArray (sortedKeys <$> l)
  | VObject l =>
      VObject (sortMembers ((fix members (l : list (string * value)) :=
                               match l with [] => [] | (k, x) :: l' => (k, sortedKeys x) :: members l' end) l))
  | _ => v
  end.

Inductive BaselineError := BaselineSerializationError | BaselineDeserializationError.

Section baselines.
Context (JSON : value -> option string).    (* [undefined] for [undefined] *)
Context (parseJSON : string -> option value).

Definition serializeBaseline (config : value) : BaselineError + string :=
  if isObject config then inr (default "" (JSON (sortedKeys config))) else inl BaselineSerializationError.

Definition deserializeBaseline (json : string) : BaselineError + value :=
  match parseJSON json with Some v => inr v | None => inl BaselineDeserializationError end.

(** ** The difference *)

Record DriftedKey := mkDriftedKey { d_path : string; baselineValue : value; liveValue : value }.

Definition fullPath (prefix key : string) : string := if falsy prefix then key else prefix +:+ "." +:+ key.

(** [deepDiff] of two objects; the members of the baseline come with the difference
    below them. *)
Fixpoint deepDiff (baseline live : value) (prefix : string) : list DriftedKey :=
  match baseline, live with
  | VObject lb, VObject ll =>
      let below := (fix members (l : list (string * value)) :=
                      match l with [] => [] | (k, x) :: l' => (k, (x, deepDiff x)) :: members l' end) lb in
      concat ((fun key =>
        let path := fullPath prefix key in
        match assoc_get key below, assoc_get key ll with
        | None, lVal => [mkDriftedKey path VUndefined (default VUndefined lVal)]
        | Some (bVal, _), None => [mkDriftedKey path bVal VUndefined]
        | Some (bVal, diff), Some lVal =>
            if isObject bVal && isObject lVal then diff lVal path
            else if bool_decide (JSON bVal = JSON lVal) then []
            else [mkDriftedKey path bVal lVal]
        end) <$> new_Set (lb.*1 ++ ll.*1))
  | _, _ => []
  end.

Definition CRITICAL_SECTIONS : list string := ["db"; "mtls"; "tls"; "staking"].
Definition critical (path : string) : bool :=
  bool_decide (default "" (head (split "." path)) ∈ CRITICAL_SECTIONS).

Record Baseline := mkBaseline { id : string; snapshotJson : string; sha256Hash : string; b_actor : string; createdAt : Z }.

Record DriftReport := mkReport { baselineId : string; detectedAt : Z; driftedKeys : list DriftedKey }.

Inductive Alert := PartialAlert | FullAlert (r : DriftReport).

(** What [_detectInternal] does once the active baseline is known: the severity it
    counts, the alert it dispatches. *)
Inductive Detection :=
  | Skipped                                 (* no baseline, or it could not be loaded *)
  | NoDrift
  | Drift (isCritical : bool) (report : DriftReport)
  | DiffFailed.

Definition detect (active : option (option Baseline)) (live : value) (now : Z) : Detection * list Alert :=
  match active with
  | None | Some None => (Skipped, [])
  | Some (Some b) =>
      match deserializeBaseline (snapshotJson b) with
      | inl _ => (DiffFailed, [PartialAlert])
      | inr baselineObj =>
          let diffs := deepDiff baselineObj live "" in
          if bool_decide (diffs = []) then (NoDrift, [])
          else
            let report := mkReport (id b) now diffs in
            let hasCritical := existsb (fun d => critical (d_path d)) diffs in
            (Drift hasCritical report, if hasCritical then [FullAlert report] else [])
      end
  end.

(** ** Alerts *)

(** [/password|secret|key|token/i.test(s)] *)
Fixpoint containsText (word s : string) : bool :=
  String.prefix word s || match s with String _ s' => containsText word s' | EmptyString => false end.
Definition sensitive (segment : string) : bool :=
  existsb (fun w => containsText w (toLowerCase segment)) ["password"; "secret"; "key"; "token"].

Definition redact (path : string) (v : value) : value :=
  if existsb sensitive (split "." path) then VString "[REDACTED]" else v.

Record AlertPayload := mkPayload {
  alertId : string;
  p_critical : bool;
  p_driftedKeys : list string;
  p_baselineId : string;
  p_detectedAt : Z;
  currentValues : jsmap string value
}.

Record AlertConfig := mkAlertConfig {
  webhookUrls : list string; emailAddresses : list string; emailEnabled : bool; canaryMode : bool
}.

Context (sha256 uuidOf : string -> string).

Definition alertIdOf (baseline : string) (detected : Z) : string :=
  uuidOf (sha256 (baseline +:+ ":" +:+ print_Z (detected / 1000))).

Definition buildPayload (alert : Alert) (now : Z) : AlertPayload :=
  match alert with
  | PartialAlert => mkPayload (alertIdOf "unknown" now) true [] "unknown" now ∅
  | FullAlert r =>
      mkPayload (alertIdOf (baselineId r) (detectedAt r))
        (existsb (fun d => critical (d_path d)) (driftedKeys r)) (d_path <$> driftedKeys r) (baselineId r) (detectedAt r)
        (foldl (fun acc d => <[d_path d := redact (d_path d) (liveValue d)]> acc) ∅ (driftedKeys r))
  end.

Inductive Channel := Webhook (url : string) | Email (address : string).

(** The calls to the senders, with their notification ids. *)
Definition deliveries (c : AlertConfig) (p : AlertPayload) : list (Channel * string) :=
  ((fun url => (Webhook url, alertId p +:+ ":" +:+ url)) <$> webhookUrls c) ++
  (if emailEnabled c then (fun a => (Email a, alertId p +:+ ":" +:+ a)) <$> emailAddresses c else []).

(** [dispatch]: the calls made, and whether the alert is kept as failed; [ok] says
    which calls are fulfilled. *)
Definition dispatch (c : AlertConfig) (ok : Channel -> bool) (alert : Alert) (now : Z) :
    list (Channel * string) * option AlertPayload :=
  let go :=
    let p := buildPayload alert now in
    if canaryMode c then ([], None)
    else
      let calls := deliveries c p in
      (calls, if forallb (fun call => negb (ok call.1)) calls then Some p else None) in
  match alert with
  | PartialAlert => go
  | FullAlert r => if existsb (fun d => critical (d_path d)) (driftedKeys r) then go else ([], None)
  end.

(** ** Snapshots are canonical *)

(** The same tree, up to the order of members. *)
Inductive same_tree : value -> value -> Prop :=
  | same_leaf v : hasMembers v = false -> same_tree v v
  | same_array l l' : Forall2 same_tree l l' -> same_tree (VArray l) (VArray l')
  | same_object l m l' :
      l ≡ₚ m -> Forall2 (fun x y => x.1 = y.1 /\ same_tree x.2 y.2) m l' -> same_tree (VObject l) (VObject l').

Definition sortMember (kv : string * value) : string * value := (kv.1, sortedKeys kv.2).

Lemma sortedKeys_object l : sortedKeys (VObject l) = VObject (sortMembers (sortMember <$> l)).
Proof.
  cbn [sortedKeys]. do 2 f_equal. induction l as [|[k x] l IH]; [done|]. cbn. by rewrite IH.
Qed.

Lemma sortMembers_Permutation {A} (l : list (string * A)) : sortMembers l ≡ₚ l.
Proof. apply sort_by_Permutation. Qed.

Lemma sortMembers_unique {A} (l l' : list (string * A)) : l ≡ₚ l' -> NoDup l.*1 -> sortMembers l = sortMembers l'.
Proof.
  intros Hp Hnd. set (R := fun a b : string * A => String.leb a.1 b.1 = true).
  assert (Hs : forall m : list (string * A), StronglySorted R (sortMembers m)).
  { intros m. apply sort_by_sorted.
    - intros a b. apply String.leb_total.
    - intros a b c. apply str_le_trans. }
  apply (StronglySorted_unique_strong R); [|apply Hs|apply Hs|by rewrite !sortMembers_Permutation].
  intros [k1 x1] [k2 x2] H1 H2 H3 H4. rewrite sortMembers_Permutation in H1. rewrite sortMembers_Permutation, <- Hp in H2.
  assert (k1 = k2) as -> by by apply String.leb_antisym. f_equal.
  apply (elem_of_jsmap_lookup (JsMap l)) in H1, H2; [|done..]. congruence.
Qed.

Lemma sortMember_keys l : (sortMember <$> l).*1 = l.*1.
Proof. rewrite <- list_fmap_compose. by apply list_fmap_ext. Qed.

Lemma wf_members l : wf (VObject l) = true -> NoDup l.*1 /\ Forall (fun kv => wf kv.2 = true) l.
Proof.
  cbn. rewrite andb_true_iff, bool_decide_eq_true, forallb_forall, Forall_forall. intros [? H].
  split; [done|]. intros kv Hkv. by apply H, list_elem_of_In.
Qed.

Lemma wf_elements l : wf (VArray l) = true -> Forall (fun v => wf v = true) l.
Proof. cbn. rewrite forallb_forall, Forall_forall. intros H v Hv. by apply H, list_elem_of_In. Qed.

Lemma same_tree_sorted v w : wf v = true -> same_tree v w -> sortedKeys v = sortedKeys w.
Proof.
  revert w. induction v as [| |b|n|s|l IH|l IH] using value_ind'; intros w Hw Hs; try by inversion Hs.
  - inversion Hs as [? Hm|? l' Hl|]; subst; [done|]. cbn. f_equal. apply wf_elements in Hw. clear Hs. induction Hl as [|x y l l' Hxy Hl IHl]; [done|]. inversion IH; inversion Hw; subst.
    rewrite !fmap_cons. f_equal; auto.
  - inversion Hs as [? Hm| |? m l' Hp Hl]; subst; [done|]. rewrite !sortedKeys_object. f_equal. apply wf_members in Hw as [Hnd Hw].
    assert (E : sortMember <$> m = sortMember <$> l').
    { rewrite Hp in IH, Hw. clear -IH Hw Hl. induction Hl as [|[k x] [k' y] m l' [Hk Hxy] Hl IHl]; [done|].
      inversion IH; inversion Hw; subst. rewrite !fmap_cons. cbn in Hk, Hxy. subst k'. f_equal; [|auto].
      unfold sortMember. cbn. f_equal. auto. }
    rewrite <- E. apply sortMembers_unique; [by rewrite Hp|by rewrite sortMember_keys].
Qed.

Lemma sorted_same_tree v w : sortedKeys v = sortedKeys w -> same_tree v w.
Proof.
  revert w. induction v as [| |b|n|s|l IH|l IH] using value_ind'; intros w; destruct w as [| |b'|n'|s'|l'|l'];
    rewrite ?sortedKeys_object; cbn; try done; try (intros [= <-]; by constructor); try (intros _; by constructor).
  - intros [= E]. constructor. revert l' E. induction l as [|x l IHl]; intros [|y l'] E; try done.
    rewrite !fmap_cons in E. injection E as Ex El. inversion IH; subst. constructor; auto.
  - intros [= E]. assert (Hp : sortMember <$> l' ≡ₚ sortMember <$> l)
      by (rewrite <- (sortMembers_Permutation (sortMember <$> l)), E; symmetry; apply sortMembers_Permutation).
    apply Permutation_map_inv in Hp as (m & Em & Hm). apply (same_object l m l'); [done|].
    rewrite Hm in IH. clear -Em IH. revert l' Em. induction m as [|[k x] m IHm]; intros [|[k' y] l'] Em; try done.
    rewrite !fmap_cons in Em. injection Em as Ek Ex Em. inversion IH; subst. constructor; [split; cbn; auto|]. by apply IHm.
Qed.

(** ** The difference is exact *)

(** The keys that lead to a place where two trees differ, and what is there. *)
Inductive differs : value -> value -> list string -> value -> value -> Prop :=
  | differs_added lb ll k y :
      assoc_get k lb = None -> assoc_get k ll = Some y -> differs (VObject lb) (VObject ll) [k] VUndefined y
  | differs_removed lb ll k x :
      assoc_get k lb = Some x -> assoc_get k ll = None -> differs (VObject lb) (VObject ll) [k] x VUndefined
  | differs_changed lb ll k x y :
      assoc_get k lb = Some x -> assoc_get k ll = Some y -> isObject x && isObject y = false -> JSON x <> JSON y ->
      differs (VObject lb) (VObject ll) [k] x y
  | differs_below lb ll k x y ks u v :
      assoc_get k lb = Some x -> assoc_get k ll = Some y -> isObject x && isObject y = true ->
      differs x y ks u v -> differs (VObject lb) (VObject ll) (k :: ks) u v.

Definition dotted (prefix : string) (ks : list string) : string := foldl fullPath prefix ks.

Lemma deepDiff_object lb ll p :
  deepDiff (VObject lb) (VObject ll) p =
  concat ((fun key =>
    match assoc_get key lb, assoc_get key ll with
    | None, lVal => [mkDriftedKey (fullPath p key) VUndefined (default VUndefined lVal)]
    | Some bVal, None => [mkDriftedKey (fullPath p key) bVal VUndefined]
    | Some bVal, Some lVal =>
        if isObject bVal && isObject lVal then deepDiff bVal lVal (fullPath p key)
        else if bool_decide (JSON bVal = JSON lVal) then []
        else [mkDriftedKey (fullPath p key) bVal lVal]
    end) <$> new_Set (lb.*1 ++ ll.*1)).
Proof.
  cbn [deepDiff]. f_equal. apply list_fmap_ext. intros _ key _. cbn.
  assert (E : forall l : list (string * value),
    assoc_get key ((fix members (l : list (string * value)) :=
       match l with [] => [] | (k, x) :: l' => (k, (x, deepDiff x)) :: members l' end) l) =
    (fun x => (x, deepDiff x)) <$> assoc_get key l).
  { induction l as [|[k x] l IH]; [done|]. cbn. by case_decide. }
  rewrite E. by destruct (assoc_get key lb).
Qed.

Lemma elem_of_assoc_keys {A} k (l : list (string * A)) : k ∈ l.*1 <-> is_Some (assoc_get k l).
Proof.
  rewrite <- not_eq_None_Some, assoc_get_None. split; [by intros ? ?|]. intros Hn. by apply dec_stable.
Qed.

Lemma elem_of_concat {A} (x : A) ls : x ∈ concat ls <-> exists l, x ∈ l /\ l ∈ ls.
Proof. rewrite list_elem_of_In, in_concat. split; intros (l & H1 & H2); exists l; by rewrite ?list_elem_of_In in *. Qed.

Lemma deepDiff_differs b l p d :
  d ∈ deepDiff b l p <-> exists ks u v, differs b l ks u v /\ d = mkDriftedKey (dotted p ks) u v.
Proof.
  revert l p. induction b as [| |b|n|s|lb _|lb IH] using value_ind'; intros l p;
    try (split; [by intros ?%elem_of_nil|intros (ks & u & v & H & _); by inversion H]).
  destruct l as [| |b|n|s|ll|ll]; try (split; [by intros ?%elem_of_nil|intros (ks & u & v & H & _); by inversion H]).
  rewrite deepDiff_object, elem_of_concat. setoid_rewrite list_elem_of_fmap.
  rewrite Forall_forall in IH.
  assert (IHk : forall k x, assoc_get k lb = Some x -> forall l p, d ∈ deepDiff x l p <->
    exists ks u v, differs x l ks u v /\ d = mkDriftedKey (dotted p ks) u v).
  { intros k x Hx. apply (IH (k, x)). by apply assoc_get_elem_of. }
  split.
  - intros (ds & Hd & key & -> & Hkey).
    destruct (assoc_get key lb) as [x|] eqn:Ex; [destruct (assoc_get key ll) as [y|] eqn:Ey|].
    + destruct (isObject x && isObject y) eqn:Eo.
      * apply (IHk _ _ Ex) in Hd as (ks & u & v & Hdiff & ->). exists (key :: ks), u, v. split; [|done].
        by eapply differs_below.
      * case_bool_decide as EJ; [by apply elem_of_nil in Hd|]. apply list_elem_of_singleton in Hd as ->.
        exists [key], x, y. split; [by apply differs_changed|done].
    + apply list_elem_of_singleton in Hd as ->. exists [key], x, VUndefined. split; [by apply differs_removed|done].
    + apply list_elem_of_singleton in Hd as ->. exists [key], VUndefined, (default VUndefined (assoc_get key ll)).
      split; [|done]. rewrite elem_of_new_Set, elem_of_app, !elem_of_assoc_keys, Ex in Hkey.
      destruct Hkey as [[? [=]]|[y Ey]]. rewrite Ey. by apply differs_added.
  - intros (ks & u & v & Hdiff & ->).
    assert (Hkeys : forall k, is_Some (assoc_get k lb) \/ is_Some (assoc_get k ll) -> k ∈ new_Set (lb.*1 ++ ll.*1)).
    { intros k. rewrite elem_of_new_Set, elem_of_app, !elem_of_assoc_keys. done. }
    inversion Hdiff as [? ? k y Ex Ey|? ? k x Ex Ey|? ? k x y Ex Ey Eo EJ|? ? k x y ks' ? ? Ex Ey Eo Hd]; subst;
      eexists; (split; [|exists k; (split; [reflexivity|apply Hkeys; rewrite ?Ex, ?Ey; eauto])]); rewrite Ex, Ey.
    + by left.
    + by left.
    + rewrite Eo, bool_decide_false by done. by left.
    + rewrite Eo. apply (IHk _ _ Ex). by exists ks', u, v.
Qed.

(** ** A configuration and its own snapshot *)

(** No array holds an object whose keys are not sorted. *)
Fixpoint arraysSorted (v : value) : Prop :=
  match v with
  | VArray l => sortedKeys (VArray l) = VArray l
  | VObject l => (fix members (l : list (string * value)) :=
                    match l with [] => True | (_, x) :: l' => arraysSorted x /\ members l' end) l
  | _ => True
  end.

Lemma arraysSorted_member l k x : arraysSorted (VObject l) -> assoc_get k l = Some x -> arraysSorted x.
Proof.
  cbn. induction l as [|[k' y] l IH]; [done|]. intros [Hy Hl]. cbn. case_decide; [by intros [= <-]|by apply IH].
Qed.

Lemma assoc_get_sorted k l :
  NoDup l.*1 -> assoc_get k (sortMembers (sortMember <$> l)) = sortedKeys <$> assoc_get k l.
Proof.
  intros Hnd.
  assert (Hs : forall m : list (string * value), NoDup m.*1 -> assoc_get k (sortMembers m) = assoc_get k m).
  { intros m Hm. assert (Hm' : NoDup (sortMembers m).*1) by (by rewrite sortMembers_Permutation).
    apply option_eq. intros x. split; intros H%assoc_get_elem_of.
    - apply (elem_of_jsmap_lookup (JsMap m)); [done|]. by rewrite sortMembers_Permutation in H.
    - apply (elem_of_jsmap_lookup (JsMap (sortMembers m))); [done|]. cbn. by rewrite sortMembers_Permutation. }
  rewrite Hs by (by rewrite sortMember_keys). clear. induction l as [|[k' x] l IH]; [done|]. cbn. by case_decide.
Qed.

Lemma sorted_isObject v : isObject (sortedKeys v) = isObject v.
Proof. by destruct v. Qed.

Lemma snapshot_agrees c ks u v : wf c = true -> arraysSorted c -> ~ differs (sortedKeys c) c ks u v.
Proof.
  revert ks u v. induction c as [| |b|n|s|l _|l IH] using value_ind'; intros ks u v Hw Ha Hd; try by inversion Hd.
  rewrite sortedKeys_object in Hd. apply wf_object in Hw as [Hnd Hw].
  assert (Hg := fun k => assoc_get_sorted k l Hnd).
  inversion Hd as [? ? k y Ex Ey|? ? k x Ex Ey|? ? k x y Ex Ey Eo EJ|? ? k x y ks' ? ? Ex Ey Eo Hb]; subst;
    rewrite Hg, Ey in Ex; try done; injection Ex as <-.
  - rewrite sorted_isObject, andb_diag in Eo. apply EJ. f_equal.
    apply (arraysSorted_member _ _ _ Ha) in Ey. by destruct v.
  - rewrite Forall_forall in IH. apply (IH (k, y) ltac:(by apply assoc_get_elem_of) ks' u v); [by apply (Hw k)| |done].
    by apply (arraysSorted_member l k).
Qed.
End baselines.

(** two configurations have one snapshot exactly if they differ in nothing but the
    order of their members. *)
Theorem snapshot_canonical v w :
  wf v = true -> sortedKeys v = sortedKeys w <-> same_tree v w.
Proof. intros Hw. split; [apply sorted_same_tree|by apply same_tree_sorted]. Qed.

(** the difference of two configurations lists exactly the places where they differ:
    a key one of them lacks, or a leaf or array whose text is another. *)
Theorem diff_exact JSON baseline live prefix d :
  d ∈ deepDiff JSON baseline live prefix <->
  exists ks u v, differs JSON baseline live ks u v /\ d = mkDriftedKey (dotted prefix ks) u v.
Proof. apply deepDiff_differs. Qed.

(** an alert is sent for a drift exactly if one of the places where the live
    configuration differs is in a critical section. *)
Theorem critical_drift_alerted JSON parseJSON b base live now :
  parseJSON (snapshotJson b) = Some base ->
  let alerts := (detect JSON parseJSON (Some (Some b)) live now).2 in
  (alerts <> [] <-> exists ks u v, differs JSON base live ks u v /\ critical (dotted "" ks) = true) /\
  forall a, a ∈ alerts -> a = FullAlert (mkReport (id b) now (deepDiff JSON base live "")).
Proof.
  intros Hp. cbn zeta. unfold detect, deserializeBaseline. rewrite Hp.
  assert (Hc : existsb (fun d => critical (d_path d)) (deepDiff JSON base live "") = true <->
    exists ks u v, differs JSON base live ks u v /\ critical (dotted "" ks) = true).
  { rewrite existsb_exists. split.
    - intros (d & (ks & u & v & Hd & ->)%list_elem_of_In%deepDiff_differs & Hcr). by exists ks, u, v.
    - intros (ks & u & v & Hd & Hcr). exists (mkDriftedKey (dotted "" ks) u v). split; [|done].
      apply list_elem_of_In, deepDiff_differs. by exists ks, u, v. }
  case_bool_decide as Hn.
  - rewrite Hn in Hc. cbn in *. split; [|by intros a ?%elem_of_nil]. split; [done|]. intros H%Hc. done.
  - cbn [snd]. destruct (existsb _ _); split.
    + split; [intros _; by apply Hc|done].
    + intros a ->%list_elem_of_singleton. done.
    + split; [done|]. intros H%Hc. done.
    + by intros a ?%elem_of_nil.
Qed.

(** right after a configuration was captured it shows no drift, if its arrays hold no
    objects with unsorted keys and its snapshot parses to what was printed. *)
Theorem fresh_baseline_no_drift JSON parseJSON b c now :
  wf c = true -> isObject c = true -> arraysSorted c ->
  serializeBaseline JSON c = inr (snapshotJson b) -> parseJSON (snapshotJson b) = Some (sortedKeys c) ->
  detect JSON parseJSON (Some (Some b)) c now = (NoDrift, []).
Proof.
  intros Hw Ho Ha Hs Hp. unfold detect, deserializeBaseline. rewrite Hp.
  rewrite bool_decide_true; [done|]. destruct (deepDiff JSON (sortedKeys c) c "") as [|d l] eqn:E; [done|].
  exfalso. assert (Hd : d ∈ deepDiff JSON (sortedKeys c) c "") by (rewrite E; by left).
  apply deepDiff_differs in Hd as (ks & u & v & Hd & _). by apply (snapshot_agrees JSON c ks u v).
Qed.

(** What an alert says of a key with a sensitive name. *)
Lemma redact_sensitive path v : existsb sensitive (split "." path) = true -> redact path v = VString "[REDACTED]".
Proof. unfold redact. by intros ->. Qed.

(** ** Concrete configurations *)

Module Examples.
Local Open Scope string_scope.
Local Open Scope list_scope.

(** A printer and parser that tell the trees of the examples apart. *)
Fixpoint print (v : value) : string :=
  match v with
  | VString s => quoted s
  | VArray l => "[" +:+ join "," (print <$> l) +:+ "]"
  | VObject l =>
      "{" +:+ join "," ((fix members (l : list (string * value)) :=
                           match l with [] => [] | (k, x) :: l' => (quoted k +:+ ":" +:+ print x) :: members l' end) l) +:+ "}"
  | _ => "null"
  end.
Definition text (v : value) : option string := match v with VUndefined => None | _ => Some (print v) end.

Definition config : value :=
  VObject [("tls", VObject [("keyFile", VString "k"); ("certFile", VString "c")]); ("db", VObject [("host", VString "h")])].

(** The parser knows the text of the snapshot. *)
Definition parse (s : string) : option value :=
  if String.eqb s (print (sortedKeys config)) then Some (sortedKeys config) else None.

Definition captured : Baseline := mkBaseline "b" (print (sortedKeys config)) "hash" "ops" 0.

Lemma fresh_baseline_no_drift_witness :
  serializeBaseline text config = inr (snapshotJson captured) /\
  detect text parse (Some (Some captured)) config 5 = (NoDrift, []).
Proof.
  split; [reflexivity|]. apply (fresh_baseline_no_drift text parse captured config 5).
  - vm_compute. reflexivity.
  - reflexivity.
  - cbn. repeat split.
  - reflexivity.
  - vm_compute. reflexivity.
Defined.

Definition moved : value :=
  VObject [("tls", VObject [("keyFile", VString "k2"); ("certFile", VString "c")]); ("db", VObject [("host", VString "h")])].

Lemma critical_drift_alerted_witness :
  (detect text parse (Some (Some captured)) moved 5).2 <> [].
Proof.
  apply (critical_drift_alerted text parse captured (sortedKeys config) moved 5 ltac:(vm_compute; reflexivity)).
  exists ["tls"; "keyFile"], (VString "k"), (VString "k2"). split; [|vm_compute; reflexivity].
  eapply differs_below; [vm_compute; reflexivity|vm_compute; reflexivity|reflexivity|].
  apply differs_changed; [vm_compute; reflexivity..|]. vm_compute. congruence.
Defined.

Lemma snapshot_canonical_witness :
  wf config = true /\
  sortedKeys config = sortedKeys (VObject [("db", VObject [("host", VString "h")]);
                                           ("tls", VObject [("certFile", VString "c"); ("keyFile", VString "k")])]).
Proof.
  split; [vm_compute; reflexivity|]. apply snapshot_canonical; [vm_compute; reflexivity|].
  eapply same_object; [apply Permutation_swap|].
  constructor; [split; [reflexivity|]|constructor; [split; [reflexivity|]|constructor]].
  - eapply same_object; [reflexivity|]. constructor; [split; [reflexivity|by constructor]|constructor].
  - eapply same_object; [apply Permutation_swap|].
    constructor; [split; [reflexivity|by constructor]|constructor; [split; [reflexivity|by constructor]|constructor]].
Defined.

(** An array of objects is compared by its text: a configuration drifts from its own
    snapshot, which sorted the keys inside. *)
Definition peers : value := VObject [("peers", VArray [VObject [("port", VString "1"); ("host", VString "h")]])].

Lemma unsorted_array_drifts :
  d_path <$> deepDiff text (sortedKeys peers) peers "" = ["peers"].
Proof. by vm_compute. Qed.

(** Rolling back a key the baseline does not have sets it to undefined, which is a drift
    as before. *)
Lemma undefined_member_drifts :
  d_path <$> deepDiff text (VObject []) (VObject [("extra", VUndefined)]) "" = ["extra"].
Proof. by vm_compute. Qed.

(** Only the path is searched for sensitive names, not what is below it. *)
Lemma nested_password_sent :
  redact "replica" (VObject [("password", VString "hunter2")]) = VObject [("password", VString "hunter2")].
Proof. by vm_compute. Qed.

(** With no channel configured every alert counts as failed. *)
Lemma no_channels_all_failed :
  (dispatch (fun s => s) (fun s => s) (mkAlertConfig [] [] false false) (fun _ => true) PartialAlert 0).2 <> None.
Proof. by vm_compute. Qed.
End Examples.
