(* ===== verification/BaselineStore.v ===== *)
(** * The baselines in the database ([src/src/audit/baseline_manager.ts],
    [database/migrations/009_config_baselines.sql])

    Captures, reads and expiry as programs of statements of [Sessions].  The UPDATE of
    a capture works on the rows its snapshot saw ([snapshot]), waits for their locks
    and skips those no longer active; the INSERT waits for an insertion or update in
    progress and fails if another row is active, by the partial unique index.

    [single_active_baseline]: in every interleaving at most one baseline is active, the
    one captured last; a capture that returns committed exactly its own row. *)

From Stdlib Require Import ZArith Lia Ascii String.
From stdpp Require Import base numbers list strings gmap.
From S2P Require Import Prelude Js Text Config Sessions Baselines.
#[local] Open Scope Z_scope.

Inductive BaselineStatus := Active | Superseded | Expired.
#[export] Instance BaselineStatus_eq_dec : EqDecision BaselineStatus.
Proof. solve_decision. Defined.

Inductive StoreError := Forbidden | SerializationError | UniqueViolation | SqlError | Lost.

Record Db := mkDb {
  rows : gmap string (Baseline * BaselineStatus);
  locks : gmap string nat;                  (* active rows superseded by an open transaction *)
  seen : gmap nat (list string);            (* what the snapshot of an UPDATE saw *)
  inserting : option (nat * Baseline);      (* inserted by an open transaction *)
  captures : list (nat * string);           (* committed *)
  denials : list string                     (* 'access_denied' entries *)
}.

Abbreviation Stmt := (stmt Db StoreError).
Abbreviation Prog := (prog Db StoreError).

Definition isActive (t : gmap string (Baseline * BaselineStatus)) (i : string) : bool :=
  match t !! i with Some (_, Active) => true | _ => false end.
Definition activeIds (t : gmap string (Baseline * BaselineStatus)) : list string :=
  filter (fun i => isActive t i = true) (map_to_list t).*1.

(** ** Statements *)

Definition set_locks (l : gmap string nat) (db : Db) : Db :=
  mkDb (rows db) l (seen db) (inserting db) (captures db) (denials db).

(** The UPDATE begins ... *)
Definition snapshot : Stmt unit := fun sid db =>
  Some (mkDb (rows db) (locks db) (<[sid := activeIds (rows db)]> (seen db)) (inserting db) (captures db) (denials db), inr tt).

Definition heldByOther (sid : nat) (l : gmap string nat) (i : string) : bool :=
  match l !! i with Some o => negb (bool_decide (o = sid)) | None => false end.

(** ... and updates: [SET status = 'superseded' WHERE status = 'active'] *)
Definition supersede : Stmt unit := fun sid db =>
  let ids := default [] (seen db !! sid) in
  if existsb (heldByOther sid (locks db)) ids then None
  else Some (set_locks (foldr (fun i l => if isActive (rows db) i then <[i := sid]> l else l) (locks db) ids) db, inr tt).

(** [INSERT ... 'active'] *)
Definition insertActive (b : Baseline) : Stmt unit := fun sid db =>
  let others := match inserting db with Some (o, _) => negb (bool_decide (o = sid)) | None => false end in
  let active := activeIds (rows db) in
  if others || existsb (heldByOther sid (locks db)) active then None
  else if existsb (fun i => negb (bool_decide (locks db !! i = Some sid))) active ||
          bool_decide (is_Some (rows db !! id b)) || bool_decide (is_Some (inserting db))
  then Some (db, inl UniqueViolation)
  else Some (mkDb (rows db) (locks db) (seen db) (Some (sid, b)) (captures db) (denials db), inr tt).

Definition ofSession (sid : nat) (o : option (nat * Baseline)) : option Baseline :=
  match o with Some (o, b) => if bool_decide (o = sid) then Some b else None | None => None end.

Definition release (sid : nat) (l : gmap string nat) : gmap string nat := filter (fun kv => kv.2 <> sid) l.

Definition supersedeRows (sid : nat) (l : gmap string nat) (t : gmap string (Baseline * BaselineStatus)) :
    gmap string (Baseline * BaselineStatus) :=
  map_imap (fun i row => Some (if bool_decide (l !! i = Some sid) then (row.1, Superseded) else row)) t.

Definition commit : Stmt unit := fun sid db =>
  let t := supersedeRows sid (locks db) (rows db) in
  Some (match ofSession sid (inserting db) with
        | Some b => mkDb (<[id b := (b, Active)]> t) (release sid (locks db)) (delete sid (seen db)) None
                      (captures db ++ [(sid, id b)]) (denials db)
        | None => mkDb t (release sid (locks db)) (delete sid (seen db)) (inserting db) (captures db) (denials db)
        end, inr tt).

Definition abandon (sid : nat) (db : Db) : Db :=
  mkDb (rows db) (release sid (locks db)) (delete sid (seen db))
    (match ofSession sid (inserting db) with Some _ => None | None => inserting db end) (captures db) (denials db).
Definition rollbackTx : Stmt unit := fun sid db => Some (abandon sid db, inr tt).

(** [SELECT ... WHERE status = 'active' LIMIT 1] *)
Definition selectActive : Stmt (option Baseline) := fun sid db =>
  Some (db, inr (i ← head (activeIds (rows db)); fst <$> rows db !! i)).

Definition NINETY_DAYS : Z := 90 * 24 * 3600 * 1000.
Definition old (now : Z) (row : Baseline * BaselineStatus) : bool :=
  bool_decide (row.2 = Superseded) && (createdAt row.1 <? now - NINETY_DAYS).

(** The UPDATE of [expireOldBaselines]. *)
Definition expireOld (now : Z) : Stmt Z := fun sid db =>
  Some (mkDb ((fun row => if old now row then (row.1, Expired) else row) <$> rows db)
          (locks db) (seen db) (inserting db) (captures db) (denials db),
        inr (Z.of_nat (size (filter (fun kv => old now kv.2 = true) (rows db))))).

Definition recordDenial (who : string) : Stmt unit := fun sid db =>
  Some (mkDb (rows db) (locks db) (seen db) (inserting db) (captures db) (denials db ++ [who]), inr tt).

(** ** Operations *)

Record ActorContext := mkActor { actorId : string; permissions : list string }.

(** [requirePermission] *)
Definition permitted (actor : ActorContext) (permission : string) : bool := bool_decide (permission ∈ permissions actor).

Section manager.
Context (JSON : value -> option string) (sha256 : string -> string).

(** [newId] and [now]: [randomUUID()] and [new Date()] *)
Definition capture (config : value) (actor : ActorContext) (newId : string) (now : Z) : Prog Baseline :=
  if negb (permitted actor "config:baseline:write")
  then then_ (try_ (query (recordDenial (actorId actor))) (fun _ => Return tt)) (fun _ => Raise Forbidden)
  else
    match serializeBaseline JSON config with
    | inl _ => Raise SerializationError
    | inr snapshotJson =>
        let b := mkBaseline newId snapshotJson (sha256 snapshotJson) (actorId actor) now in
        transaction commit rollbackTx
          (await _ := snapshot in
           await _ := supersede in
           await _ := insertActive b in
           Return b)
    end.

Inductive Call :=
  | Capture (config : value) (actor : ActorContext) (newId : string) (now : Z)
  | GetActive
  | ExpireOldBaselines (now : Z).

Inductive Result := Captured (b : Baseline) | Found (b : option Baseline) | Count (n : Z).

Definition body (c : Call) : Prog Result :=
  match c with
  | Capture config actor newId now => then_ (capture config actor newId now) (fun b => Return (Captured b))
  | GetActive => then_ (query selectActive) (fun b => Return (Found b))
  | ExpireOldBaselines now => then_ (query (expireOld now)) (fun n => Return (Count n))
  end.

Definition start (t : gmap string (Baseline * BaselineStatus)) : Db := mkDb t ∅ ∅ None [] [].
Definition managers (t : gmap string (Baseline * BaselineStatus)) (evs : list (Event (E := StoreError) (Call := Call))) :=
  run body Lost abandon (start t) evs.

(** ** The protocol *)

Record Inv (db : Db) : Prop := {
  inv_single i j : isActive (rows db) i = true -> isActive (rows db) j = true -> i = j;
  inv_locks i sid : locks db !! i = Some sid -> isActive (rows db) i = true;
  inv_inserting sid b : inserting db = Some (sid, b) ->
    rows db !! id b = None /\ forall i, isActive (rows db) i = true -> locks db !! i = Some sid;
  inv_last sid i : last (captures db) = Some (sid, i) -> isActive (rows db) i = true
}.

Definition mine (sid : nat) (db : Db) : list string := (filter (fun e => e.1 = sid) (captures db)).*2.

Definition same_baseline (x y : option (Baseline * BaselineStatus)) : Prop := fst <$> x = fst <$> y.

Record Rely (sid : nat) (db db' : Db) : Prop := {
  rely_locks i : locks db !! i = Some sid <-> locks db' !! i = Some sid;
  rely_seen : seen db' !! sid = seen db !! sid;
  rely_inserting : ofSession sid (inserting db') = ofSession sid (inserting db);
  rely_mine : mine sid db' = mine sid db;
  rely_rows i b : fst <$> rows db !! i = Some b -> fst <$> rows db' !! i = Some b
}.

Lemma base_Rely_refl sid db : Rely sid db db.
Proof. by split. Qed.

Lemma base_Rely_trans sid db1 db2 db3 : Rely sid db1 db2 -> Rely sid db2 db3 -> Rely sid db1 db3.
Proof.
  intros [L1 S1 I1 M1 R1] [L2 S2 I2 M2 R2]. split; [|congruence..|auto].
  intros i. by rewrite L1.
Qed.

(** What a session knows: it has committed [l] and has no transaction in progress, has
    one, or is about to commit [b]. *)
Definition idle (sid : nat) (l : list string) (db : Db) : Prop :=
  mine sid db = l /\ (forall i, locks db !! i <> Some sid) /\ ofSession sid (inserting db) = None.
Definition open_ (sid : nat) (l : list string) (db : Db) : Prop :=
  mine sid db = l /\ ofSession sid (inserting db) = None.
Definition written (sid : nat) (l : list string) (b : Baseline) (db : Db) : Prop :=
  mine sid db = l /\ ofSession sid (inserting db) = Some b.

(** ** Each statement once *)

Lemma elem_of_activeIds t i : i ∈ activeIds t <-> isActive t i = true.
Proof.
  unfold activeIds. rewrite list_elem_of_filter. split; [by intros [? _]|]. intros H. split; [done|].
  unfold isActive in H. destruct (t !! i) as [row|] eqn:E; [|done].
  apply list_elem_of_fmap. exists (i, row). split; [done|]. by apply elem_of_map_to_list.
Qed.

Lemma release_lookup sid l i o : release sid l !! i = Some o <-> l !! i = Some o /\ o <> sid.
Proof. unfold release. rewrite map_lookup_filter_Some. done. Qed.

Lemma superseded_lookup sid l t i :
  supersedeRows sid l t !! i =
  (fun row => if bool_decide (l !! i = Some sid) then (row.1, Superseded) else row) <$> t !! i.
Proof. unfold supersedeRows. rewrite map_lookup_imap. by destruct (t !! i). Qed.

Lemma superseded_active sid l t i :
  isActive (supersedeRows sid l t) i = isActive t i && negb (bool_decide (l !! i = Some sid)).
Proof.
  unfold isActive. rewrite superseded_lookup. destruct (t !! i) as [[b s]|]; [|done]. cbn.
  case_bool_decide; cbn; by destruct s.
Qed.

Lemma superseded_fst sid l t i : fst <$> supersedeRows sid l t !! i = fst <$> t !! i.
Proof. rewrite superseded_lookup. destruct (t !! i) as [[b s]|]; [|done]. cbn. by case_bool_decide. Qed.

Lemma ofSession_other sid o b : o <> sid -> ofSession o (Some (sid, b)) = None.
Proof. intros H. cbn. by rewrite bool_decide_false by congruence. Qed.

Lemma ofSession_Some sid x b : ofSession sid x = Some b -> x = Some (sid, b).
Proof. destruct x as [[o b']|]; [|done]. cbn. case_bool_decide as E; [|done]. intros [= ->]. by rewrite E. Qed.

Lemma seen_step sid (s : gmap nat (list string)) d db :
  Inv db -> (forall o, o <> sid -> s !! o = seen db !! o) ->
  let db' := mkDb (rows db) (locks db) s (inserting db) (captures db) d in Inv db' /\ guar Rely sid db db'.
Proof. intros [] Hs. split; [done|]. intros o Ho. split; cbn; auto. Qed.

Lemma locked_lookup sid t l ids i :
  existsb (heldByOther sid l) ids = false ->
  let l' := foldr (fun i l => if isActive t i then <[i := sid]> l else l) l ids in
  l' !! i = (if isActive t i && bool_decide (i ∈ ids) then Some sid else l !! i) /\
  (i ∈ ids -> forall o, l !! i = Some o -> o = sid).
Proof.
  intros He. cbn zeta. split.
  - clear He. induction ids as [|j ids IH]; cbn [foldr].
    { rewrite bool_decide_false by (by intros ?%elem_of_nil). by rewrite andb_false_r. }
    destruct (isActive t j) eqn:Ej.
    + rewrite lookup_insert. destruct (decide (j = i)) as [<-|Hne].
      * rewrite Ej, bool_decide_true by (by left). done.
      * rewrite IH. assert (bool_decide (i ∈ j :: ids) = bool_decide (i ∈ ids)) as ->; [|done].
        apply bool_decide_ext. rewrite elem_of_cons. naive_solver.
    + rewrite IH. destruct (isActive t i) eqn:Ei; [|done]. cbn.
      assert (bool_decide (i ∈ j :: ids) = bool_decide (i ∈ ids)) as ->; [|done].
      apply bool_decide_ext. rewrite elem_of_cons. split; [|by right]. intros [->|?]; [congruence|done].
  - intros Hi o Ho. destruct (decide (o = sid)) as [|Hne]; [done|]. exfalso.
    assert (existsb (heldByOther sid l) ids = true); [|congruence].
    apply existsb_exists. exists i. split; [by apply list_elem_of_In|]. unfold heldByOther. by rewrite Ho, bool_decide_false.
Qed.

Lemma supersede_step sid l db db' r :
  Inv db -> open_ sid l db -> supersede sid db = Some (db', r) ->
  Inv db' /\ guar Rely sid db db' /\ r = inr tt /\ open_ sid l db'.
Proof.
  intros [I1 I2 I3 I4] Hop. unfold supersede. set (ids := default [] _). destruct (existsb _ ids) eqn:He; [done|].
  intros [= <- <-]. assert (HL := fun i => locked_lookup sid (rows db) (locks db) ids i He). cbn zeta in HL.
  split_and!; [split; cbn; [done| | |done]| |done|done].
  - intros i o Ho. destruct (HL i) as [E _]. rewrite E in Ho. destruct (isActive (rows db) i) eqn:Ea; [done|]. by rewrite (I2 i o Ho) in Ea.
  - intros o b Hb. destruct (I3 o b Hb) as [Hn Ha]. split; [done|]. intros i Hi. destruct (HL i) as [E Hown].
    rewrite E, Hi. cbn. case_bool_decide as Hin; [|by apply Ha]. f_equal. symmetry. apply (Hown Hin). by apply Ha.
  - intros o Ho. split; cbn; try done. intros i. destruct (HL i) as [E Hown]. rewrite E.
    destruct (isActive (rows db) i) eqn:Ea; [|done]. cbn. case_bool_decide as Hin; [|done].
    split; [intros H; by rewrite (Hown Hin _ H) in Ho|]. intros [= ->]. done.
Qed.

Lemma existsb_false {A} (P : A -> bool) l x : existsb P l = false -> x ∈ l -> P x = false.
Proof.
  intros H Hx. apply not_true_iff_false. intros HP. enough (existsb P l = true) by congruence.
  apply existsb_exists. exists x. split; [by apply list_elem_of_In|done].
Qed.

Lemma insert_step sid l b db db' r :
  Inv db -> open_ sid l db -> insertActive b sid db = Some (db', r) ->
  Inv db' /\ guar Rely sid db db' /\ upto (fun db => mine sid db = l) (fun _ => written sid l b) r db'.
Proof.
  intros HI [Hm Ho]. unfold insertActive. destruct (_ || existsb _ _) eqn:Ew; [done|].
  destruct (_ || bool_decide (is_Some (inserting db))) eqn:Ec; intros [= <- <-].
  { split_and!; [done|intros o _; apply base_Rely_refl|done]. }
  apply orb_false_iff in Ec as [[Ec Hid]%orb_false_iff Hin].
  rewrite bool_decide_eq_false in Hid. rewrite bool_decide_eq_false in Hin.
  apply eq_None_not_Some in Hid. apply eq_None_not_Some in Hin.
  destruct HI as [I1 I2 I3 I4]. split_and!; [split; cbn; try done| |].
  - intros o b' [= <- <-]. split; [done|]. intros i Hi%elem_of_activeIds.
    pose proof (existsb_false _ _ _ Ec Hi) as H. cbn in H. by rewrite negb_false_iff, bool_decide_eq_true in H.
  - intros o Hne. split; cbn; try done. by rewrite Hin, bool_decide_false by congruence.
  - split; cbn; [done|]. by rewrite bool_decide_true.
Qed.

Lemma base_mine_snoc sid o i c :
  (filter (fun e : nat * string => e.1 = sid) (c ++ [(o, i)])).*2 =
  (filter (fun e : nat * string => e.1 = sid) c).*2 ++ (if decide (o = sid) then [i] else []).
Proof. rewrite filter_app, fmap_app, filter_cons. cbn. by case_decide. Qed.

Lemma base_commit_step sid l b db :
  Inv db -> written sid l b db ->
  exists db', commit sid db = Some (db', inr tt) /\ Inv db' /\ guar Rely sid db db' /\
    idle sid (l ++ [id b]) db' /\ fst <$> rows db' !! id b = Some b.
Proof.
  intros HI [Hm Hi]. unfold commit. rewrite Hi. eexists. split; [done|]. apply ofSession_Some in Hi.
  destruct HI as [I1 I2 I3 I4]. destruct (I3 _ _ Hi) as [Hn Hall].
  assert (Hact : forall i, isActive (<[id b := (b, Active)]> (supersedeRows sid (locks db) (rows db))) i = true <-> i = id b).
  { intros i. unfold isActive at 1. rewrite lookup_insert. case_decide as E; [by subst|]. split; [|congruence].
    change (isActive (supersedeRows sid (locks db) (rows db)) i = true -> i = id b).
    rewrite superseded_active. intros [Ha Hb]%andb_true_iff. rewrite (Hall _ Ha), bool_decide_true in Hb by done. done. }
  split_and!; [split; cbn| | |].
  - intros i j Hi1%Hact Hj1%Hact. congruence.
  - intros i o [Ho Hne]%release_lookup. exfalso. specialize (I2 _ _ Ho). rewrite (Hall _ I2) in Ho. congruence.
  - done.
  - intros o i. rewrite last_snoc. intros [= <- <-]. by apply Hact.
  - intros o Hne. split; cbn.
    + intros i. rewrite release_lookup. naive_solver.
    + by rewrite lookup_delete_ne.
    + by rewrite Hi, ofSession_other.
    + unfold mine. cbn. rewrite base_mine_snoc, decide_False, app_nil_r by congruence. done.
    + intros i x Hx. rewrite lookup_insert. case_decide as E; [subst; by rewrite Hn in Hx|]. by rewrite superseded_fst.
  - split_and!; cbn; [|intros i Hr%release_lookup; naive_solver|done].
    unfold mine. cbn. rewrite base_mine_snoc, decide_True by done. by rewrite <- Hm.
  - cbn. by rewrite lookup_insert_eq.
Qed.

Lemma base_abandon_step sid db :
  Inv db -> Inv (abandon sid db) /\ guar Rely sid db (abandon sid db).
Proof.
  intros [I1 I2 I3 I4]. unfold abandon. split; [split; cbn; [done| | |done]|].
  - intros i o [Ho _]%release_lookup. by apply (I2 i o).
  - intros o b. destruct (ofSession sid (inserting db)) as [x|] eqn:E; [done|]. intros Hb. destruct (I3 _ _ Hb) as [Hn Ha].
    split; [done|]. intros i Hi. apply release_lookup. split; [by apply Ha|]. intros ->.
    rewrite Hb in E. cbn in E. by rewrite bool_decide_true in E.
  - intros o Hne. split; cbn; try done.
    + intros i. rewrite release_lookup. naive_solver.
    + by rewrite lookup_delete_ne.
    + destruct (ofSession sid (inserting db)) as [x|] eqn:E; [|done]. apply ofSession_Some in E as ->. symmetry. by apply ofSession_other.
Qed.

Lemma expire_lookup now t i :
  fst <$> ((fun row : Baseline * BaselineStatus => if old now row then (row.1, Expired) else row) <$> t) !! i =
    fst <$> (t : gmap string (Baseline * BaselineStatus)) !! i /\
  isActive ((fun row : Baseline * BaselineStatus => if old now row then (row.1, Expired) else row) <$> t) i = isActive t i.
Proof.
  unfold isActive. rewrite lookup_fmap. destruct (t !! i) as [[b s]|]; [|done]. cbn.
  unfold old. cbn. destruct s; cbn; try done. by destruct (_ <? _).
Qed.

Lemma expire_step now sid db db' r :
  Inv db -> expireOld now sid db = Some (db', r) -> Inv db' /\ guar Rely sid db db' /\ captures db' = captures db.
Proof.
  intros [I1 I2 I3 I4] [= <- <-]. split_and!; [split; cbn| |done].
  - intros i j. rewrite !(proj2 (expire_lookup now (rows db) _)). apply I1.
  - intros i o Ho. rewrite (proj2 (expire_lookup now (rows db) _)). by apply (I2 i o).
  - intros o b Hb. destruct (I3 _ _ Hb) as [Hn Ha]. split; [by rewrite lookup_fmap, Hn|].
    intros i. rewrite (proj2 (expire_lookup now (rows db) _)). apply Ha.
  - intros o i Ho. rewrite (proj2 (expire_lookup now (rows db) _)). by apply (I4 o).
  - intros o Ho. split; cbn; try done. intros i b. by rewrite (proj1 (expire_lookup now (rows db) _)).
Qed.

(** ** The calls *)

Definition Post (sid : nat) (c : Call) (r : StoreError + Result) (db : Db) : Prop :=
  match c, r with
  | Capture config actor newId now, inr (Captured b) =>
      permitted actor "config:baseline:write" = true /\ serializeBaseline JSON config = inr (snapshotJson b) /\
      id b = newId /\ mine sid db = [newId] /\ fst <$> rows db !! newId = Some b
  | Capture config actor newId now, inl e => mine sid db = [] \/ (e = Lost /\ mine sid db = [newId])
  | GetActive, inr (Found b) =>
      mine sid db = [] /\ forall x, b = Some x -> exists i, fst <$> rows db !! i = Some x
  | ExpireOldBaselines _, inr (Count n) => mine sid db = [] /\ 0 <= n
  | _, inl _ => mine sid db = []
  | _, _ => False
  end.

Lemma base_Post_stable sid c r db db' : Rely sid db db' -> Post sid c r db -> Post sid c r db'.
Proof.
  intros HR. pose proof (rely_mine _ _ _ HR) as M. pose proof (rely_rows _ _ _ HR) as R.
  destruct c, r as [e|[]]; cbn; rewrite ?M; naive_solver.
Qed.

Abbreviation Safe := (safe Lost abandon Inv Rely).
Definition near (sid : nat) (b : Baseline) (db : Db) : Prop := mine sid db = [] \/ mine sid db = [id b].

Lemma base_stage sid b (K1 K2 : Db -> Prop) (q : Stmt unit) db :
  (forall db db', Rely sid db db' -> K1 db -> K1 db') ->
  (forall db, K1 db -> mine sid db = []) -> (forall db, K2 db -> near sid b db) ->
  (forall db db' r, Inv db -> K1 db -> q sid db = Some (db', r) ->
     Inv db' /\ guar Rely sid db db' /\ upto (fun db => mine sid db = []) (fun _ => K2) r db') ->
  K1 db ->
  Safe sid (near sid b) (upto (fun db => mine sid db = []) (fun _ => K2)) (query q) db.
Proof.
  intros Hs H1 H2 Hq HK. apply statement_safe; [by left|done|]. intros db1 HR HI.
  pose proof (Hs _ _ HR HK) as HK1. split; [by apply H1|]. intros db2 r Hr.
  destruct (Hq _ _ _ HI HK1 Hr) as (? & ? & Hu). split_and!; [done..|]. destruct r as [e|[]]; [by left|by apply H2].
Qed.

Lemma open_rely sid l db db' : Rely sid db db' -> open_ sid l db -> open_ sid l db'.
Proof. intros HR [H1 H2]. split; [by rewrite (rely_mine _ _ _ HR)|by rewrite (rely_inserting _ _ _ HR)]. Qed.
Lemma base_written_rely sid l b db db' : Rely sid db db' -> written sid l b db -> written sid l b db'.
Proof. intros HR [H1 H2]. split; [by rewrite (rely_mine _ _ _ HR)|by rewrite (rely_inserting _ _ _ HR)]. Qed.

(** A statement of the transaction before the insertion. *)
Lemma open_stage sid b (q : Stmt unit) db :
  (forall db db' r, Inv db -> open_ sid [] db -> q sid db = Some (db', r) ->
     Inv db' /\ guar Rely sid db db' /\ r = inr tt /\ open_ sid [] db') ->
  open_ sid [] db ->
  Safe sid (near sid b) (upto (fun db => mine sid db = []) (fun _ => open_ sid [])) (query q) db.
Proof.
  intros Hq. apply base_stage; [apply open_rely|by intros ? []|by intros ? [? _]; left|].
  intros db1 db' r HI Ho E. destruct (Hq _ _ _ HI Ho E) as (? & ? & -> & ?). auto.
Qed.

Lemma noop_open sid db db' (r : StoreError + unit) :
  Inv db -> open_ sid [] db -> noop sid db = Some (db', r) ->
  Inv db' /\ guar Rely sid db db' /\ r = inr tt /\ open_ sid [] db'.
Proof. intros HI Ho [= <- <-]. split_and!; [done|intros o _; apply base_Rely_refl|done|done]. Qed.

Lemma snapshot_open sid db db' r :
  Inv db -> open_ sid [] db -> snapshot sid db = Some (db', r) ->
  Inv db' /\ guar Rely sid db db' /\ r = inr tt /\ open_ sid [] db'.
Proof.
  intros HI Ho [= <- <-].
  destruct (seen_step sid (<[sid := activeIds (rows db)]> (seen db)) (denials db) db HI) as [? ?];
    [intros o Hne; by rewrite lookup_insert_ne|]. split_and!; [done..|exact Ho].
Qed.

Lemma capture_settles sid b db :
  open_ sid [] db ->
  Safe sid (near sid b)
    (upto (fun db => mine sid db = []) (fun x db => x = b /\ mine sid db = [id b] /\ fst <$> rows db !! id b = Some b))
    (transaction commit rollbackTx
       (await _ := snapshot in await _ := supersede in await _ := insertActive b in Return b)) db.
Proof.
  intros Ho. unfold transaction.
  eapply safe_then; [by apply (open_stage sid b noop), Ho; apply noop_open|intros ? db1 H1|by intros e db1 H1].
  eapply safe_try; [|by intros x db2 H2; exact H2| |done].
  - eapply safe_then; [by apply (open_stage sid b noop), H1; apply noop_open|intros ? db2 H2|by intros e db2 H2].
    cbn [then_]. eapply safe_then with (Q1 := upto (fun db => mine sid db = []) (fun x db => x = b /\ written sid [] b db)).
    + eapply safe_then; [by apply (open_stage sid b snapshot), H2; apply snapshot_open|intros ? db3 H3|by intros e db3 H3].
      eapply safe_then; [by apply (open_stage sid b supersede), H3; apply supersede_step|intros ? db4 H4|by intros e db4 H4].
      eapply safe_then with (Q1 := upto (fun db => mine sid db = []) (fun _ => written sid [] b));
        [|intros ? db5 H5|by intros e db5 H5].
      * apply (base_stage sid b (open_ sid []) (written sid [] b)); [apply open_rely|by intros ? []|by intros ? [? _]; left| |exact H4].
        intros db5 db6 r. apply insert_step.
      * by split.
    + intros x db3 [-> H3].
      eapply safe_then with (Q1 := upto (fun db => mine sid db = [])
          (fun _ db => mine sid db = [id b] /\ fst <$> rows db !! id b = Some b)); [|intros ? db4 H4|by intros e db4 H4].
      * apply (base_stage sid b (written sid [] b)
                 (fun db => mine sid db = [id b] /\ fst <$> rows db !! id b = Some b));
          [apply base_written_rely|by intros ? []|by intros ? [? _]; right| |exact H3].
        intros db4 db5 r HI Hw E. destruct (base_commit_step sid [] b db4 HI Hw) as (db6 & E6 & ? & ? & [Hm _] & ?).
        rewrite E in E6. injection E6 as -> ->. by split_and!.
      * by split.
    + by intros e db3 H3.
  - intros e db2 H2. eapply safe_then with (Q1 := upto (fun db => mine sid db = []) (fun _ db => mine sid db = []));
      [|intros ? db3 H3; exact H3|intros e' db3 H3; exact H3].
    apply (base_stage sid b (fun db => mine sid db = []) (fun db => mine sid db = [])); [|done|by left| |exact H2].
    + intros db3 db4 HR. by rewrite (rely_mine _ _ _ HR).
    + intros db3 db4 r HI Hm [= <- <-]. destruct (base_abandon_step sid db3 HI). by split_and!.
Qed.

Definition Fresh (sid : nat) (db : Db) : Prop := open_ sid [] db.

(** A statement of a call that is no transaction. *)
Lemma single_settles {B} sid c (q : Stmt B) (f : B -> Result) db :
  (forall e db, mine sid db = [] -> Post sid c (inl e) db) ->
  (forall db db' r, Inv db -> mine sid db = [] -> q sid db = Some (db', r) ->
     Inv db' /\ guar Rely sid db db' /\ mine sid db' = [] /\ forall x, r = inr x -> Post sid c (inr (f x)) db') ->
  mine sid db = [] ->
  Safe sid (Post sid c (inl Lost)) (Post sid c) (then_ (query q) (fun x => Return (f x))) db.
Proof.
  intros He Hq Hm. eapply safe_then with
    (Q1 := fun r db => match r with inl e => mine sid db = [] | inr x => Post sid c (inr (f x)) db end);
    [|by intros x db1 H1|intros e db1 H1; by apply He].
  apply safe_query. intros db1 HR HI. assert (Hm1 : mine sid db1 = []) by (by rewrite (rely_mine _ _ _ HR)).
  split_and!; [|done|by apply He]. intros db2 r Hr. destruct (Hq _ _ _ HI Hm1 Hr) as (? & ? & Hm2 & HP).
  split_and!; [done|done| |by apply He]. destruct r as [e|x]; [done|by apply HP].
Qed.

Lemma denied_settles sid config actor newId now db :
  mine sid db = [] ->
  settles Lost abandon Inv Rely Post sid (Capture config actor newId now)
    (then_ (then_ (try_ (query (recordDenial (actorId actor))) (fun _ => Return tt)) (fun _ => Raise Forbidden))
       (fun b => Return (Captured b))) db.
Proof.
  intros Hm db1 HR HI. assert (Hm1 : mine sid db1 = []) by (by rewrite (rely_mine _ _ _ HR)).
  split_and!.
  - intros db2 r [= <- <-]. split_and!; [by destruct HI|intros o _; by split|by left|].
    exists Forbidden. split; [done|by left].
  - intros e. by left.
  - exists Forbidden. split; [done|by left].
Qed.

Lemma base_body_settles sid c db : Fresh sid db -> settles Lost abandon Inv Rely Post sid c (body c) db.
Proof.
  intros [Hm Ho]. destruct c as [config actor newId now| |now]; cbn [body].
  - unfold capture. destruct (permitted actor _) eqn:Ep; cbn [negb]; [|by apply denied_settles].
    destruct (serializeBaseline JSON config) as [e|text] eqn:Es; [by left|].
    set (b := mkBaseline newId text (sha256 text) (actorId actor) now). apply safe_settles.
    eapply safe_then.
    + eapply safe_mono; [| |by apply (capture_settles sid b)]; [by intros r db' Hr; exact Hr|].
      intros db' [H|H]; [by left|by right].
    + intros x db' (-> & H1 & H2). by split_and!.
    + intros e db' H. by left.
  - apply safe_settles, single_settles; [done| |done]. intros db1 db' r HI Hm1 [= <- <-].
    split_and!; [done|intros o _; apply base_Rely_refl|done|]. intros b [= <-]. split; [done|]. intros x.
    destruct (head (activeIds (rows db1))) as [i|]; [|done]. cbn. intros Hx. by exists i.
  - apply safe_settles, single_settles; [done| |done]. intros db1 db' r HI Hm1 E.
    destruct (expire_step _ _ _ _ _ HI E) as (? & ? & Hc). split_and!; [done|done|by unfold mine; rewrite Hc|].
    intros n ->. injection E as <- <-. split; [done|lia].
Qed.

#[export] Instance baseline_protocol : SessionProtocol body Lost abandon Inv Rely Post Fresh.
Proof.
  split.
  - apply base_Rely_refl.
  - apply base_Rely_trans.
  - apply base_Post_stable.
  - intros sid db db'. apply open_rely.
  - intros sid db HI. by apply base_abandon_step.
  - intros sid db HI. by apply base_abandon_step.
  - intros sid c db HI Hf. by apply base_body_settles.
Qed.
End manager.

(** C39: from a table with at most one active baseline, in every interleaving of captures,
    reads and expiries, with statements refused and connections lost, at most one
    baseline is active and the one captured last is; a capture that returns committed
    exactly its own row, one that fails none (one whose connection broke at most its
    own). *)
Theorem single_active_baseline JSON sha256 t evs :
  (forall i j, isActive t i = true -> isActive t j = true -> i = j) ->
  let w := managers JSON sha256 t evs in
  (forall i j, isActive (rows (w_db w)) i = true -> isActive (rows (w_db w)) j = true -> i = j) /\
  (forall sid i, last (captures (w_db w)) = Some (sid, i) -> isActive (rows (w_db w)) i = true) /\
  forall sid c r, outcome w sid = Some (c, r) -> Post JSON sid c r (w_db w).
Proof.
  intros Ht. cbn zeta. assert (H0 : Inv (start t)) by (by split).
  assert (HF : forall sid, Fresh sid (start t)) by (by intros sid).
  pose proof (run_safe (body JSON sha256) Lost abandon Inv Rely (Post JSON) Fresh (start t) evs H0 HF) as (HI & _).
  split_and!; [apply HI|apply HI|].
  intros sid c r. by apply (run_outcome (body JSON sha256) Lost abandon Inv Rely (Post JSON) Fresh).
Qed.

(** ** Concrete runs *)

Module Examples.
Local Open Scope string_scope.
Local Open Scope list_scope.

Definition text (v : value) : option string := match v with VObject _ => Some "{}" | _ => None end.
Definition admin : ActorContext := mkActor "ops" ["config:baseline:write"].
Definition guest : ActorContext := mkActor "eve" [].

Abbreviation Events := (list (Event (E := StoreError) (Call := Call))).
Abbreviation go := (managers text (fun s => s) ∅).

Definition exec (n sid : nat) : Events := repeat (Exec sid) n.

(** Two captures one after the other, and one without the permission. *)
Definition captures_ : Events :=
  [Start 1 (Capture (VObject []) admin "a" 1)] ++ exec 6 1 ++
  [Start 2 (Capture (VObject []) admin "b" 2)] ++ exec 6 2 ++
  [Start 3 (Capture (VObject []) guest "c" 3)] ++ exec 1 3.

Lemma captured_in_turn :
  activeIds (rows (w_db (go captures_))) = ["b"] /\ denials (w_db (go captures_)) = ["eve"] /\
  outcome (go captures_) 3 = Some (Capture (VObject []) guest "c" 3, inl Forbidden).
Proof. by vm_compute. Qed.

Lemma single_active_baseline_witness :
  last (captures (w_db (go captures_))) = Some (2%nat, "b") /\ isActive (rows (w_db (go captures_))) "b" = true.
Proof.
  assert (H : last (captures (w_db (go captures_))) = Some (2%nat, "b")) by (vm_compute; reflexivity).
  split; [exact H|].
  refine (proj1 (proj2 (single_active_baseline text (fun s => s) ∅ captures_ _)) 2%nat "b" H).
  intros i j Hi. vm_compute in Hi. discriminate Hi.
Defined.

(** Of two captures that overlap the second one fails: its UPDATE waits for a row that
    is no longer active then, and does not see the new one. *)
Definition overlapping : Events :=
  [Start 0 (Capture (VObject []) admin "z" 0)] ++ exec 6 0 ++
  [Start 1 (Capture (VObject []) admin "a" 1); Start 2 (Capture (VObject []) admin "b" 2)] ++
  exec 4 1 ++ exec 4 2 ++ exec 2 1 ++ exec 3 2.

Lemma overlapping_capture_fails :
  activeIds (rows (w_db (go overlapping))) = ["a"] /\
  outcome (go overlapping) 2 = Some (Capture (VObject []) admin "b" 2, inl UniqueViolation).
Proof. by vm_compute. Qed.
End Examples.
