(* ===== verification/AuditLog.v ===== *)
(** * The configuration audit log ([src/src/audit/audit_logger.ts], [hmac.ts],
    [config_audit_service.ts], [api/auth/token_validator.ts])

    The logger as an event system: calls of [write], the background probe and the
    drains they start, each waiting for an insertion, for the delay before the next
    attempt or for the probe's query.  An insertion races a deadline: one that lost
    the race can still reach the table ([Landed]).  The table has its primary key.
    SHA-256, the ISO dates, [JSON.stringify] and what PostgreSQL makes of a stored
    row ([readBack]: [jsonb], [inet]) are arguments of the model.

    [entries_never_lost]: as long as the queue has not overflowed, every entry given
    to [write] is in the table, in the queue, or in the hands of its own call.
    [landed_head_blocks_queue]: an entry that reached the table after its deadline
    stays at the head of the queue for good, with everything behind it.
    [chain_reports]: which rows a chain verification reports.
    [pages_partition_log]: the pages of a query are the matching rows, in order. *)

From Stdlib Require Import ZArith Lia Ascii String.
From stdpp Require Import base numbers list strings gmap sorting.
From S2P Require Import Prelude Js Text Number Config Baselines.
#[local] Open Scope Z_scope.

Inductive ChangeSource :=
  | FromFile | FromEnv | FromEtcd | FromConsul | HotUpdate | FromRollback | RollbackSkip | AccessDenied.

Definition changeSourceText (c : ChangeSource) : string :=
  match c with
  | FromFile => "file" | FromEnv => "env" | FromEtcd => "remote_etcd" | FromConsul => "remote_consul"
  | HotUpdate => "hot_update" | FromRollback => "rollback" | RollbackSkip => "rollback_skip"
  | AccessDenied => "access_denied"
  end.
#[export] Instance ChangeSource_eq_dec : EqDecision ChangeSource.
Proof. solve_decision. Defined.

Record AuditEntryInput := mkInput {
  configPath : string;
  previousValue : value;
  newValue : value;
  actor : string;
  sourceIp : option string;
  changedAt : Z;
  changeSource : ChangeSource
}.

Record AuditEntry := mkEntry { entryId : string; input : AuditEntryInput; hmacDigest : string }.

Definition QUEUE_CAPACITY : nat := 1000.
(** The first attempt and one after each delay. *)
Definition RETRY_DELAYS_MS : list Z := [50; 100; 200].
Definition attempts : nat := S (length RETRY_DELAYS_MS).

(** [v ?? null] *)
Definition orNull (v : value) : value := match v with VUndefined => VNull | _ => v end.

Section audit.
Context (hmac : string -> string).          (* under the secret, in hexadecimal *)
Context (toISOString : Z -> string) (JSON : value -> string).
Context (capacity : nat).                   (* [QUEUE_CAPACITY] *)
Context (listening : bool).                 (* whether the bus has a listener of 'error' *)

Definition payload (id : string) (i : AuditEntryInput) : string :=
  join "|" [id; configPath i; JSON (orNull (previousValue i)); JSON (orNull (newValue i)); actor i;
            default "" (sourceIp i); toISOString (changedAt i); changeSourceText (changeSource i)].

Definition computeHmac (id : string) (i : AuditEntryInput) : string := hmac (payload id i).

Definition newEntry (id : string) (i : AuditEntryInput) : AuditEntry := mkEntry id i (computeHmac id i).

(** ** The logger *)

(** Who waits for [_insertWithRetry]. *)
Inductive Origin := ByWrite | ByDrain.

Inductive Task :=
  | Inserting (o : Origin) (e : AuditEntry) (attempt : nat)
  | Sleeping (o : Origin) (e : AuditEntry) (attempt : nat)   (* before this attempt *)
  | Probing
  | Returned
  | Threw.

Record State := mkState {
  queue : list AuditEntry;
  dbAvailable : bool;
  lastSuccessfulWrite : option Z;
  probing : bool;                          (* the timer of the probe *)
  changesTotal : Z;
  queueDroppedTotal : Z;
  table : list AuditEntry;                 (* config_audit_log *)
  outstanding : list AuditEntry;           (* insertions whose deadline has passed *)
  tasks : gmap nat Task;
  written : list AuditEntry                (* given to [write] *)
}.

Definition new_AuditLogger : State := mkState [] true None true 0 0 [] [] ∅ [].

Definition set_queue (q : list AuditEntry) (s : State) : State :=
  mkState q (dbAvailable s) (lastSuccessfulWrite s) (probing s) (changesTotal s) (queueDroppedTotal s)
    (table s) (outstanding s) (tasks s) (written s).
Definition set_available (b : bool) (s : State) : State :=
  mkState (queue s) b (lastSuccessfulWrite s) (probing s) (changesTotal s) (queueDroppedTotal s)
    (table s) (outstanding s) (tasks s) (written s).
Definition set_lastWrite (now : Z) (s : State) : State :=
  mkState (queue s) (dbAvailable s) (Some now) (probing s) (changesTotal s) (queueDroppedTotal s)
    (table s) (outstanding s) (tasks s) (written s).
Definition set_task (tid : nat) (t : Task) (s : State) : State :=
  mkState (queue s) (dbAvailable s) (lastSuccessfulWrite s) (probing s) (changesTotal s) (queueDroppedTotal s)
    (table s) (outstanding s) (<[tid := t]> (tasks s)) (written s).
Definition set_table (l : list AuditEntry) (s : State) : State :=
  mkState (queue s) (dbAvailable s) (lastSuccessfulWrite s) (probing s) (changesTotal s) (queueDroppedTotal s)
    l (outstanding s) (tasks s) (written s).
Definition set_outstanding (l : list AuditEntry) (s : State) : State :=
  mkState (queue s) (dbAvailable s) (lastSuccessfulWrite s) (probing s) (changesTotal s) (queueDroppedTotal s)
    (table s) l (tasks s) (written s).
Definition count_change (s : State) : State :=
  mkState (queue s) (dbAvailable s) (lastSuccessfulWrite s) (probing s) (changesTotal s + 1) (queueDroppedTotal s)
    (table s) (outstanding s) (tasks s) (written s).
Definition note_written (e : AuditEntry) (s : State) : State :=
  mkState (queue s) (dbAvailable s) (lastSuccessfulWrite s) (probing s) (changesTotal s) (queueDroppedTotal s)
    (table s) (outstanding s) (tasks s) (written s ++ [e]).

(** [this.queue.shift()] *)
Definition shift (s : State) : State := set_queue (tail (queue s)) s.

Definition enqueue (e : AuditEntry) (s : State) : State :=
  if (capacity <=? length (queue s))%nat
  then mkState (tail (queue s) ++ [e]) (dbAvailable s) (lastSuccessfulWrite s) (probing s) (changesTotal s)
         (queueDroppedTotal s + 1) (table s) (outstanding s) (tasks s) (written s)
  else set_queue (queue s ++ [e]) s.

(** The condition of [_drainQueue]'s loop, and its next insertion. *)
Definition drainQueue (tid : nat) (s : State) : State :=
  match queue s with
  | e :: _ => if dbAvailable s then set_task tid (Inserting ByDrain e 0) s else set_task tid Returned s
  | [] => set_task tid Returned s
  end.

(** After [_insertWithRetry] has returned, or thrown. *)
Definition inserted (tid : nat) (o : Origin) (now : Z) (s : State) : State :=
  match o with
  | ByWrite => drainQueue tid (set_lastWrite now s)
  | ByDrain => drainQueue tid (set_lastWrite now (shift s))
  end.

Definition exhausted (tid : nat) (o : Origin) (e : AuditEntry) (s : State) : State :=
  match o with
  | ByWrite =>
      (* [emit('error')] throws when nobody listens *)
      set_task tid (if listening then Returned else Threw) (enqueue e (set_available false s))
  | ByDrain => set_task tid Returned (set_available false s)
  end.

(** An attempt has failed. *)
Definition attemptFailed (tid : nat) (o : Origin) (e : AuditEntry) (attempt : nat) (s : State) : State :=
  if (S attempt <? attempts)%nat then set_task tid (Sleeping o e (S attempt)) s else exhausted tid o e s.

Definition known (id : string) (l : list AuditEntry) : bool := existsb (fun e => String.eqb (entryId e) id) l.

Definition write (tid : nat) (i : AuditEntryInput) (id : string) (s : State) : State :=
  let entry := newEntry id i in
  let s := note_written entry s in
  if negb (dbAvailable s) then set_task tid Returned (enqueue entry s)
  else set_task tid (Inserting ByWrite entry 0) s.

Inductive Event :=
  | Write (tid : nat) (i : AuditEntryInput) (id : string)
  | Executed (tid : nat) (now : Z)          (* the server executes the INSERT and answers in time *)
  | Failed (tid : nat)                      (* the query fails without effect *)
  | Deadline (tid : nat)                    (* 500 ms have passed *)
  | Landed (e : AuditEntry)                 (* the server executes an INSERT nobody waits for *)
  | Woken (tid : nat)
  | ProbeFires (tid : nat)
  | ProbeAnswer (tid : nat) (ok : bool)
  | Stop.

Definition step (s : State) (ev : Event) : State :=
  match ev with
  | Write tid i id => match tasks s !! tid with None => write tid i id s | Some _ => s end
  | Executed tid now =>
      match tasks s !! tid with
      | Some (Inserting o e n) =>
          if known (entryId e) (table s) then attemptFailed tid o e n s
          else inserted tid o now (count_change (set_table (table s ++ [e]) s))
      | _ => s
      end
  | Failed tid =>
      match tasks s !! tid with Some (Inserting o e n) => attemptFailed tid o e n s | _ => s end
  | Deadline tid =>
      match tasks s !! tid with
      | Some (Inserting o e n) => attemptFailed tid o e n (set_outstanding (e :: outstanding s) s)
      | _ => s
      end
  | Landed e =>
      if known (entryId e) (outstanding s) && negb (known (entryId e) (table s))
      then match filter (fun x => entryId x = entryId e) (outstanding s) with
           | x :: _ => set_table (table s ++ [x]) s
           | [] => s
           end
      else s
  | Woken tid =>
      match tasks s !! tid with Some (Sleeping o e n) => set_task tid (Inserting o e n) s | _ => s end
  | ProbeFires tid =>
      match tasks s !! tid with None => if probing s then set_task tid Probing s else s | Some _ => s end
  | ProbeAnswer tid ok =>
      match tasks s !! tid with
      | Some Probing => if ok then drainQueue tid (set_available true s) else set_task tid Returned s
      | _ => s
      end
  | Stop =>
      mkState (queue s) (dbAvailable s) (lastSuccessfulWrite s) false (changesTotal s) (queueDroppedTotal s)
        (table s) (outstanding s) (tasks s) (written s)
  end.

Definition run (evs : list Event) : State := foldl step new_AuditLogger evs.

(** The ids given by [randomUUID]. *)
Definition ids (evs : list Event) : list string :=
  omap (fun ev => match ev with Write _ _ id => Some id | _ => None end) evs.

(** ** Verification *)

Context (readBack : AuditEntry -> AuditEntry).

(** Whether the digest recomputed from a stored row is the stored one. *)
Definition verifyRow (row : AuditEntry) : bool :=
  let entry := readBack row in String.eqb (computeHmac (entryId entry) (input entry)) (hmacDigest entry).

(** [None]: NotFoundError *)
Definition verifyIntegrity (id : string) (rows : list AuditEntry) : option bool :=
  verifyRow <$> head (filter (fun r => entryId r = id) rows).

Record ChainVerificationResult := mkChainResult {
  totalChecked : nat;
  validCount : Z;
  invalidCount : nat;
  invalidEntryIds : list string
}.

(** [WHERE changed_at >= from AND changed_at <= to ORDER BY changed_at ASC] *)
Definition inRange (from to : Z) (r : AuditEntry) : bool := (from <=? changedAt (input r)) && (changedAt (input r) <=? to).
Definition oldestFirst (a b : AuditEntry) : bool := changedAt (input a) <=? changedAt (input b).

(** The result, and whether an integrity violation is announced. *)
Definition verifyChain (from to : Z) (rows : list AuditEntry) : ChainVerificationResult * bool :=
  let checked := sort_by oldestFirst (filter (fun r => inRange from to r = true) rows) in
  let invalid := entryId <$> filter (fun r => verifyRow r = false) checked in
  (mkChainResult (length checked) (Z.of_nat (length checked) - Z.of_nat (length invalid)) (length invalid) invalid,
   negb (bool_decide (invalid = []))).

(** The row [BaselineManager] writes about a caller without the permission. *)
Definition ZEROS : string := zeros 64.
Definition deniedEntry (id operation who : string) (ip : option string) (now : Z) : AuditEntry :=
  mkEntry id (mkInput ("baseline." +:+ operation) VNull VNull who ip now AccessDenied) ZEROS.

(** ** Queries *)

Record AuditQueryFilters := mkFilters {
  f_configPath : option string;
  f_actor : option string;
  f_changeSource : option ChangeSource;
  f_from : option Z;
  f_to : option Z;
  f_page : Z;
  f_pageSize : Z
}.

Definition given (o : option string) (s : string) : bool :=
  match o with Some t => falsy t || String.eqb t s | None => true end.

Definition matches (f : AuditQueryFilters) (r : AuditEntry) : bool :=
  given (f_configPath f) (configPath (input r)) && given (f_actor f) (actor (input r)) &&
  match f_changeSource f with Some c => bool_decide (c = changeSource (input r)) | None => true end &&
  match f_from f with Some t => t <=? changedAt (input r) | None => true end &&
  match f_to f with Some t => changedAt (input r) <=? t | None => true end.

Definition newestFirst (a b : AuditEntry) : bool := changedAt (input b) <=? changedAt (input a).
Definition clampedSize (f : AuditQueryFilters) : Z := Z.min 200 (Z.max 1 (f_pageSize f)).
Definition clampedPage (f : AuditQueryFilters) : Z := Z.max 1 (f_page f).

Record AuditQueryResult := mkQueryResult {
  q_entries : list AuditEntry; q_totalCount : nat; q_page : Z; q_pageSize : Z
}.

Definition queryAuditLog (f : AuditQueryFilters) (rows : list AuditEntry) : AuditQueryResult :=
  let size := clampedSize f in
  let page := clampedPage f in
  let matching := filter (fun r => matches f r = true) rows in
  mkQueryResult
    (readBack <$> take (Z.to_nat size) (drop (Z.to_nat ((page - 1) * size)) (sort_by newestFirst matching)))
    (length matching) page size.

(** ** The service *)

Definition orDefault (d v : value) : value := match v with VUndefined => d | _ => v end.

(** [payload?.data ?? {}] taken apart by the listener of 'updated', with its defaults:
    the members of the entry it writes. *)
Record UpdateFields := mkUpdateFields {
  u_configPath : value; u_previousValue : value; u_newValue : value; u_actor : value; u_sourceIp : value; u_changeSource : value
}.
Definition updatedListener (data : value) : UpdateFields :=
  let data := match data with VNull | VUndefined => VObject [] | _ => data end in
  mkUpdateFields (orDefault (VString "") (member data "configPath")) (member data "previousValue") (member data "newValue")
    (orDefault (VString "system") (member data "actor")) (orDefault VNull (member data "sourceIp"))
    (orDefault (VString "hot_update") (member data "changeSource")).

Record RollbackResult := mkRollbackResult { restored : list string; skipped : list string; dryRun : bool }.

(** One key: whether [configManager.update] throws, and the [write] after it; the
    configuration changes made, the entries given to [write]. *)
Definition rollbackEntry (who : string) (ip : option string) (now : Z) (c : ChangeSource) (dk : DriftedKey) : AuditEntryInput :=
  mkInput (d_path dk) (liveValue dk) (baselineValue dk) who ip now c.

Definition rollbackKey (who : string) (ip : option string) (now : Z) (updateThrows writeThrows : bool) (dk : DriftedKey) :
    bool * list (string * value) * list AuditEntryInput :=
  let denied := rollbackEntry who ip now RollbackSkip dk in
  if updateThrows then (false, [], [denied])
  else
    let entry := rollbackEntry who ip now FromRollback dk in
    if writeThrows then (false, [(d_path dk, baselineValue dk)], [entry; denied])
    else (true, [(d_path dk, baselineValue dk)], [entry]).

Fixpoint rollbackKeys (who : string) (ip : option string) (now : Z) (l : list (DriftedKey * bool * bool)) :
    RollbackResult * list (string * value) * list AuditEntryInput :=
  match l with
  | [] => (mkRollbackResult [] [] false, [], [])
  | (dk, updateThrows, writeThrows) :: l' =>
      let '(ok, updates, entries) := rollbackKey who ip now updateThrows writeThrows dk in
      let '(res, updates', entries') := rollbackKeys who ip now l' in
      (if ok : bool then mkRollbackResult (d_path dk :: restored res) (skipped res) false
       else mkRollbackResult (restored res) (d_path dk :: skipped res) false,
       updates ++ updates', entries ++ entries')
  end.

(** [inl]: ForbiddenError, with the event 'baseline_access_denied' *)
Definition serviceRollback (permissions : list string) (who : string) (ip : option string) (now : Z) (dry : bool)
    (l : list (DriftedKey * bool * bool)) : unit + (RollbackResult * list (string * value) * list AuditEntryInput) :=
  if negb (bool_decide ("config:rollback:write" ∈ permissions)) then inl tt
  else if dry then inr (mkRollbackResult ((fun x => d_path x.1.1) <$> l) [] true, [], [])
  else inr (rollbackKeys who ip now l).

Inductive HealthStatus := Healthy | Degraded | Unhealthy.

Definition healthStatus (dbOk : bool) (now : Z) (s : State) : HealthStatus :=
  let depth := length (queue s) in
  let stale := match lastSuccessfulWrite s with Some t => 60000 <? now - t | None => true end in
  if (1000 <=? depth)%nat || (negb dbOk && stale) then Unhealthy
  else if (0 <? depth)%nat || negb dbOk then Degraded
  else Healthy.

(** ** No entry is lost *)

(** The entry a task is about to insert, and who waits for it. *)
Definition holds (t : Task) : option (Origin * AuditEntry) :=
  match t with Inserting o e _ | Sleeping o e _ => Some (o, e) | _ => None end.

Definition held (s : State) (tid : nat) : option (Origin * AuditEntry) := tasks s !! tid ≫= holds.

Record Inv (s : State) : Prop := {
  inv_length : (length (queue s) <= capacity)%nat;
  inv_ids : NoDup (entryId <$> written s);
  inv_queue e : e ∈ queue s -> e ∈ written s;
  inv_table e : e ∈ table s -> e ∈ written s;
  inv_outstanding e : e ∈ outstanding s -> e ∈ written s;
  inv_held tid o e : held s tid = Some (o, e) -> e ∈ written s;
  inv_dropped : 0 <= queueDroppedTotal s;
  (** A drain inserts the head of the queue, or what is in the table already. *)
  inv_drain : queueDroppedTotal s = 0 -> forall tid e,
    held s tid = Some (ByDrain, e) -> head (queue s) = Some e \/ e ∈ table s;
  inv_account : queueDroppedTotal s = 0 -> forall e, e ∈ written s ->
    e ∈ table s \/ e ∈ queue s \/ exists tid, held s tid = Some (ByWrite, e)
}.

Hypothesis capacity_pos : (0 < capacity)%nat.

Lemma held_set tid t s tid' :
  held (set_task tid t s) tid' = if decide (tid = tid') then holds t else held s tid'.
Proof. unfold held. cbn. rewrite lookup_insert. by case_decide. Qed.

(** A task goes on. *)
Lemma set_task_inv tid t s :
  Inv s ->
  (forall o e, holds t = Some (o, e) -> e ∈ written s) ->
  (queueDroppedTotal s = 0 -> forall e, holds t = Some (ByDrain, e) -> head (queue s) = Some e \/ e ∈ table s) ->
  (queueDroppedTotal s = 0 -> forall e, held s tid = Some (ByWrite, e) ->
     holds t = Some (ByWrite, e) \/ e ∈ table s \/ e ∈ queue s) ->
  Inv (set_task tid t s).
Proof.
  intros [H1 H2 H3 H4 H5 H6 H7 H8 H9] Hw Hd Hold. split; try done.
  - intros tid' o e. rewrite held_set. case_decide; [apply Hw|apply H6].
  - intros H0 tid' e. rewrite held_set. case_decide; [by apply Hd|by apply H8].
  - intros H0 e He. cbn. destruct (H9 H0 e He) as [?|[?|[tid' Ht]]]; [by left|by right; left|].
    destruct (decide (tid = tid')) as [<-|Hne].
    + destruct (Hold H0 e Ht) as [Hn|[?|?]]; [|by left|by right; left].
      right. right. exists tid. by rewrite held_set, decide_True.
    + right. right. exists tid'. by rewrite held_set, decide_False.
Qed.

Lemma available_inv b s : Inv s -> Inv (set_available b s).
Proof. by intros []. Qed.
Lemma lastWrite_inv now s : Inv s -> Inv (set_lastWrite now s).
Proof. by intros []. Qed.
Lemma count_inv s : Inv s -> Inv (count_change s).
Proof. by intros []. Qed.

Lemma outstanding_inv e s : Inv s -> e ∈ written s -> Inv (set_outstanding (e :: outstanding s) s).
Proof. intros [] He. split; try done. intros x. cbn. rewrite elem_of_cons. intros [->|?]; auto. Qed.

Lemma table_inv e s : Inv s -> e ∈ written s -> Inv (set_table (table s ++ [e]) s).
Proof.
  intros [H1 H2 H3 H4 H5 H6 H7 H8 H9] He. split; try done; cbn.
  - intros x. rewrite elem_of_app, list_elem_of_singleton. intros [?| ->]; auto.
  - intros H0 tid x Hx. destruct (H8 H0 tid x Hx); [by left|]. right. rewrite elem_of_app. by left.
  - intros H0 x Hx. destruct (H9 H0 x Hx) as [?|?]; [|by right]. left. rewrite elem_of_app. by left.
Qed.

Lemma enqueue_inv e s : Inv s -> e ∈ written s -> Inv (enqueue e s).
Proof.
  intros [H1 H2 H3 H4 H5 H6 H7 H8 H9] He. unfold enqueue.
  destruct (Nat.leb_spec capacity (length (queue s))) as [Hfull|Hroom]; split; try done; cbn; try lia.
  - rewrite length_app. destruct (queue s); cbn in *; lia.
  - intros x. rewrite elem_of_app, list_elem_of_singleton. intros [Hx| ->]; [|done]. apply H3.
    destruct (queue s); [done|by right].
  - rewrite length_app. cbn. lia.
  - intros x. rewrite elem_of_app, list_elem_of_singleton. intros [?| ->]; auto.
  - intros H0 tid x Hx. destruct (H8 H0 tid x Hx) as [Hh|?]; [|by right]. left. by destruct (queue s).
  - intros H0 x Hx. rewrite elem_of_app. destruct (H9 H0 x Hx) as [?|[?|?]]; auto.
Qed.

Lemma enqueued_or_dropped e s : queueDroppedTotal (enqueue e s) = 0 -> e ∈ queue (enqueue e s).
Proof. unfold enqueue. destruct (_ <=? _)%nat; cbn; rewrite elem_of_app, list_elem_of_singleton; auto. Qed.

Lemma enqueue_held e s tid : held (enqueue e s) tid = held s tid.
Proof. unfold enqueue. by destruct (_ <=? _)%nat. Qed.
Lemma enqueue_written e s : written (enqueue e s) = written s.
Proof. unfold enqueue. by destruct (_ <=? _)%nat. Qed.

Lemma drainQueue_inv tid s :
  Inv s ->
  (queueDroppedTotal s = 0 -> forall e, held s tid = Some (ByWrite, e) -> e ∈ table s \/ e ∈ queue s) ->
  Inv (drainQueue tid s).
Proof.
  intros HI Hold. unfold drainQueue.
  assert (Hret : Inv (set_task tid Returned s)) by (apply set_task_inv; [done..|]; intros H0 e He; right; by apply Hold).
  destruct (queue s) as [|x q] eqn:Eq; [done|]. destruct (dbAvailable s); [|done].
  apply set_task_inv; [done|..].
  - intros o e [= <- <-]. apply (inv_queue _ HI). rewrite Eq. by left.
  - intros _ e [= <-]. left. by rewrite Eq.
  - intros H0 e He. right. rewrite Eq. by apply Hold.
Qed.

Lemma exhausted_inv tid o e s : Inv s -> held s tid = Some (o, e) -> Inv (exhausted tid o e s).
Proof.
  intros HI Hh. pose proof (inv_held _ HI _ _ _ Hh) as Hw. unfold exhausted. destruct o.
  - apply set_task_inv.
    + apply enqueue_inv; [by apply available_inv|done].
    + by destruct listening.
    + by destruct listening.
    + intros H0 x. rewrite enqueue_held. unfold held in Hh |- *. cbn. rewrite Hh. intros [= <-].
      right. right. by apply enqueued_or_dropped.
  - apply set_task_inv; [by apply available_inv|done..|].
    intros H0 x. unfold held in Hh |- *. cbn. by rewrite Hh.
Qed.

Lemma attemptFailed_inv tid o e n s : Inv s -> held s tid = Some (o, e) -> Inv (attemptFailed tid o e n s).
Proof.
  intros HI Hh. unfold attemptFailed. destruct (_ <? _)%nat; [|by apply exhausted_inv].
  apply set_task_inv; [done|..].
  - intros o' e' [= <- <-]. by apply (inv_held _ HI tid o).
  - intros H0 e' [= -> <-]. by apply (inv_drain _ HI H0 tid).
  - intros H0 e'. rewrite Hh. intros [= -> ->]. by left.
Qed.

Lemma same_id (l : list AuditEntry) x y : NoDup (entryId <$> l) -> x ∈ l -> y ∈ l -> entryId x = entryId y -> x = y.
Proof.
  intros Hnd Hx Hy E. apply list_elem_of_lookup in Hx as [i Hi], Hy as [j Hj].
  assert (i = j) as ->; [|congruence]. eapply (NoDup_lookup _ _ _ (entryId x) Hnd).
  - by rewrite list_lookup_fmap, Hi.
  - by rewrite list_lookup_fmap, Hj, E.
Qed.

Lemma known_elem s e : Inv s -> e ∈ written s -> known (entryId e) (table s) = true -> e ∈ table s.
Proof.
  intros HI He Hk. apply existsb_exists in Hk as (x & Hx%list_elem_of_In & E%String.eqb_eq).
  assert (x = e) as ->; [|done]. eapply same_id; [apply (inv_ids _ HI)|by apply (inv_table _ HI)|done|done].
Qed.

Lemma shift_inv s :
  Inv s -> (queueDroppedTotal s = 0 -> forall x, head (queue s) = Some x -> x ∈ table s) -> Inv (shift s).
Proof.
  intros [H1 H2 H3 H4 H5 H6 H7 H8 H9] Hh. unfold shift. destruct (queue s) as [|x q] eqn:Eq.
  { split; cbn; try done; intros; rewrite ?Eq in *; auto. }
  split; cbn; try done.
  - cbn in H1. lia.
  - intros e He. apply H3. by right.
  - intros H0 tid e He. right. destruct (H8 H0 tid e He) as [[= ->]|?]; [|done]. by apply Hh.
  - intros H0 e He. destruct (H9 H0 e He) as [?|[Hq|?]]; [by left| |by right; right].
    apply elem_of_cons in Hq as [->|Hq]; [left; by apply Hh|right; by left].
Qed.

Lemma known_false s e : known (entryId e) (table s) = false -> e ∉ table s.
Proof.
  intros Hk He. enough (known (entryId e) (table s) = true) by congruence.
  apply existsb_exists. exists e. split; [by apply list_elem_of_In|apply String.eqb_refl].
Qed.

(** The server executes the INSERT of [e]. *)
Lemma executed_inv tid o e now s :
  Inv s -> held s tid = Some (o, e) -> known (entryId e) (table s) = false ->
  Inv (inserted tid o now (count_change (set_table (table s ++ [e]) s))).
Proof.
  intros HI Hh Hk. pose proof (inv_held _ HI _ _ _ Hh) as Hw.
  assert (HI' : Inv (count_change (set_table (table s ++ [e]) s))) by (by apply count_inv, table_inv).
  assert (He : e ∈ table s ++ [e]) by (rewrite elem_of_app; right; by left).
  assert (Hheld : forall s', tasks s' = tasks s -> held s' tid = Some (o, e)) by (intros s' E; unfold held; by rewrite E).
  unfold inserted. destruct o.
  - apply drainQueue_inv; [by apply lastWrite_inv|]. intros H0 x. rewrite Hheld by done. intros [= <-]. by left.
  - apply drainQueue_inv; [|intros H0 x; by rewrite Hheld].
    apply lastWrite_inv, shift_inv; [done|]. intros H0 x Hx. cbn in *.
    destruct (inv_drain _ HI H0 tid e Hh) as [E|E]; [|by apply known_false in Hk]. rewrite E in Hx. by injection Hx as ->.
Qed.

Lemma write_inv tid i id s :
  Inv s -> tasks s !! tid = None -> id ∉ entryId <$> written s -> Inv (write tid i id s).
Proof.
  intros HI Ht Hid. unfold write. set (e := newEntry id i).
  assert (Hh : forall s', tasks s' = tasks s -> held s' tid = None) by (intros s' E; unfold held; by rewrite E, Ht).
  assert (Hids : NoDup (entryId <$> written s ++ [e])).
  { rewrite fmap_app. apply NoDup_app. split_and!; [apply HI| |apply NoDup_singleton].
    intros x Hx Hin. apply list_elem_of_singleton in Hin as ->. done. }
  assert (Hmono : forall x, x ∈ written s -> x ∈ written s ++ [e]) by (intros x; rewrite elem_of_app; auto).
  assert (Hin : e ∈ written s ++ [e]) by (rewrite elem_of_app; right; by left).
  (* everything but the accounting of the new entry *)
  destruct HI as [H1 H2 H3 H4 H5 H6 H7 H8 H9]. destruct (dbAvailable s) eqn:Ea.
  - replace (negb (dbAvailable (note_written e s))) with false by (cbn; by rewrite Ea).
    split; cbn; try done; auto.
    + intros tid' o x. rewrite held_set. case_decide; [by intros [= _ <-]|]. intros Hx. by eapply Hmono, (H6 tid' o).
    + intros H0 tid' x. rewrite held_set. case_decide; [done|]. by apply H8.
    + intros H0 x. rewrite elem_of_app, list_elem_of_singleton. intros [Hx| ->].
      * destruct (H9 H0 x Hx) as [?|[?|[tid' Htid]]]; [by left|by right; left|]. right. right. exists tid'.
        rewrite held_set. case_decide as E; [|done]. subst. by rewrite Hh in Htid.
      * right. right. exists tid. by rewrite held_set, decide_True.
  - replace (negb (dbAvailable (note_written e s))) with true by (cbn; by rewrite Ea).
    unfold enqueue, set_task. cbn. destruct (Nat.leb_spec capacity (length (queue s))) as [Hfull|Hroom].
    + split; cbn; try done; auto; try lia.
      * rewrite length_app. destruct (queue s); cbn in *; lia.
      * intros x. rewrite elem_of_app, list_elem_of_singleton. intros [Hx| ->]; [|done]. apply Hmono, H3.
        destruct (queue s); [done|by right].
      * intros tid' o x Hx. apply Hmono. unfold held in Hx. cbn in Hx. rewrite lookup_insert in Hx.
        case_decide; [done|]. by apply (H6 tid' o).
    + split; cbn; try done; auto; try lia.
      * rewrite length_app. cbn. lia.
      * intros x. rewrite elem_of_app, list_elem_of_singleton. intros [?| ->]; auto.
      * intros tid' o x Hx. apply Hmono. unfold held in Hx. cbn in Hx. rewrite lookup_insert in Hx.
        case_decide; [done|]. by apply (H6 tid' o).
      * intros H0 tid' x Hx. unfold held in Hx. cbn in Hx. rewrite lookup_insert in Hx.
        case_decide; [done|]. destruct (H8 H0 tid' x Hx) as [Hq|?]; [left; by destruct (queue s)|by right].
      * intros H0 x. rewrite !elem_of_app, list_elem_of_singleton. intros [Hx| ->]; [|right; left; by right].
        destruct (H9 H0 x Hx) as [?|[?|[tid' Htid]]]; [by left|right; left; by left|]. right. right. exists tid'.
        unfold held. cbn. rewrite lookup_insert. case_decide as E; [|done]. subst. by rewrite Hh in Htid.
Qed.

Lemma held_task s tid t : tasks s !! tid = Some t -> held s tid = holds t.
Proof. unfold held. by intros ->. Qed.

Lemma landed_inv e s : Inv s -> Inv (step s (Landed e)).
Proof.
  intros HI. cbn. destruct (_ && _); [|done]. destruct (filter _ _) as [|x l] eqn:E; [done|].
  apply table_inv; [done|]. apply (inv_outstanding _ HI).
  assert (Hx : x ∈ filter (fun x => entryId x = entryId e) (outstanding s)) by (rewrite E; by left).
  by apply list_elem_of_filter in Hx as [_ ?].
Qed.

Lemma step_inv s ev :
  Inv s -> (forall id, id ∈ ids [ev] -> id ∉ entryId <$> written s) -> Inv (step s ev).
Proof.
  intros HI Hid. destruct ev as [tid i id|tid now|tid|tid|e|tid|tid|tid ok|]; [..|cbn; by destruct HI];
    try (apply landed_inv, HI); cbn; destruct (tasks s !! tid) as [t|] eqn:Ht; try done.
  - apply write_inv; [done..|]. apply Hid. by left.
  - destruct t as [o e n|o e n| | |]; try done. pose proof (held_task _ _ _ Ht) as Hh.
    destruct (known _ _) eqn:Hk; [by apply attemptFailed_inv|by apply executed_inv].
  - destruct t as [o e n|o e n| | |]; try done. apply attemptFailed_inv; [done|by apply (held_task _ _ _ Ht)].
  - destruct t as [o e n|o e n| | |]; try done. pose proof (held_task _ _ _ Ht) as Hh.
    apply attemptFailed_inv; [|done]. apply outstanding_inv; [done|by apply (inv_held _ HI tid o)].
  - destruct t as [o e n|o e n| | |]; try done. pose proof (held_task _ _ _ Ht) as Hh. apply set_task_inv; [done|..].
    + intros o' e' [= <- <-]. by apply (inv_held _ HI tid o).
    + intros H0 e' [= -> <-]. by apply (inv_drain _ HI H0 tid).
    + intros H0 e'. rewrite Hh. intros [= -> ->]. by left.
  - destruct (probing s); [|done]. apply set_task_inv; [done..|]. intros _ e. unfold held. by rewrite Ht.
  - destruct t as [o e n|o e n| | |]; try done. pose proof (held_task _ _ _ Ht) as Hh. destruct ok.
    + apply drainQueue_inv; [by apply available_inv|]. intros _ e He. unfold held in He. cbn in He. by rewrite Ht in He.
    + apply set_task_inv; [done..|]. intros _ e. by rewrite Hh.
Qed.

Lemma step_written s ev :
  written (step s ev) = written s \/
  exists tid i id, ev = Write tid i id /\ written (step s ev) = written s ++ [newEntry id i].
Proof.
  assert (Hd : forall tid s, written (drainQueue tid s) = written s)
    by (intros tid s'; unfold drainQueue; destruct (queue s'); [done|by destruct (dbAvailable s')]).
  assert (Hx : forall tid o e s, written (exhausted tid o e s) = written s)
    by (intros tid o e s'; unfold exhausted; destruct o; [apply (enqueue_written e (set_available false s'))|done]).
  assert (Ha : forall tid o e n s, written (attemptFailed tid o e n s) = written s)
    by (intros tid o e n s'; unfold attemptFailed; destruct (_ <? _)%nat; [done|apply Hx]).
  destruct ev as [tid i id|tid now|tid|tid|e|tid|tid|tid ok|]; cbn; try (by left);
    try (destruct (tasks s !! tid) as [[o e n|o e n| | |]|]; try (by left); rewrite ?Ha, ?Hd; try (by left)).
  - right. exists tid, i, id. split; [done|]. unfold write. destruct (negb _); [|done]. apply (enqueue_written _ (note_written _ s)).
  - destruct (known _ _); [rewrite Ha; by left|]. left. unfold inserted. destruct o; by rewrite Hd.
  - destruct (_ && _); [|by left]. destruct (filter _ _); by left.
  - destruct (probing s); by left.
  - destruct ok; rewrite ?Hd; by left.
Qed.

Lemma step_ids s ev rest :
  NoDup ((entryId <$> written s) ++ ids (ev :: rest)) ->
  (forall id, id ∈ ids [ev] -> id ∉ entryId <$> written s) /\
  NoDup ((entryId <$> written (step s ev)) ++ ids rest).
Proof.
  intros Hnd. assert (E : ids (ev :: rest) = ids [ev] ++ ids rest) by (unfold ids; cbn; by destruct ev).
  rewrite E, app_assoc in Hnd. apply NoDup_app in Hnd as (H1 & H2 & H3).
  apply NoDup_app in H1 as (H4 & H5 & H6). split; [by intros id Hid Hin; apply (H5 id)|].
  destruct (step_written s ev) as [->|(tid & i & id & -> & ->)].
  - apply NoDup_app. split_and!; [done| |done]. intros x Hx. apply H2. rewrite elem_of_app. by left.
  - rewrite fmap_app. apply NoDup_app. split_and!; [|done|done]. apply NoDup_app. by split_and!.
Qed.

Lemma steps_inv s evs :
  Inv s -> NoDup ((entryId <$> written s) ++ ids evs) -> Inv (foldl step s evs).
Proof.
  revert s. induction evs as [|ev evs IH]; intros s HI Hnd; [done|]. cbn.
  destruct (step_ids _ _ _ Hnd) as [Hid Hnd']. apply IH; [by apply step_inv|done].
Qed.

Lemma NoDup_written s evs rest :
  NoDup ((entryId <$> written s) ++ ids evs ++ rest) ->
  NoDup ((entryId <$> written (foldl step s evs)) ++ rest).
Proof.
  revert s. induction evs as [|ev evs IH]; intros s Hnd; [done|]. cbn. apply IH.
  assert (E : ids (ev :: evs) = ids [ev] ++ ids evs) by (unfold ids; cbn; by destruct ev).
  rewrite E in Hnd. destruct (step_written s ev) as [->|(tid & i & id & -> & ->)].
  - rewrite <- app_assoc in Hnd. apply NoDup_app in Hnd as (H1 & H2 & H3). apply NoDup_app in H3 as (H4 & H5 & H6).
    apply NoDup_app. split_and!; [done| |done]. intros x Hx Hin. apply (H2 x Hx). rewrite elem_of_app. by right.
  - rewrite fmap_app, <- !app_assoc. by rewrite <- app_assoc in Hnd.
Qed.

Lemma new_inv : Inv new_AuditLogger.
Proof.
  split; cbn; try done; try lia; try (by intros e ?%elem_of_nil).
  - constructor.
  - intros _ e He. by apply elem_of_nil in He.
Qed.

Lemma run_inv evs : NoDup (ids evs) -> Inv (run evs).
Proof. intros H. by apply steps_inv; [apply new_inv|]. Qed.

Lemma written_from evs s e :
  e ∈ written (foldl step s evs) -> e ∈ written s \/ exists tid i id, Write tid i id ∈ evs /\ e = newEntry id i.
Proof.
  revert s. induction evs as [|ev evs IH]; intros s; [by left|]. cbn. intros He.
  destruct (IH _ He) as [Hw|(tid & i & id & Hin & ->)]; [|right; exists tid, i, id; split; [by right|done]].
  destruct (step_written s ev) as [E|(tid & i & id & -> & E)]; rewrite E in Hw; [by left|].
  apply elem_of_app in Hw as [?| ->%list_elem_of_singleton]; [by left|]. right. exists tid, i, id. split; [by left|done].
Qed.

(** *** The primary key *)

Lemma known_notin e (l : list AuditEntry) : known (entryId e) l = false -> NoDup (entryId <$> l) -> NoDup (entryId <$> l ++ [e]).
Proof.
  intros Hk Hnd. rewrite fmap_app. apply NoDup_app. split_and!; [done| |apply NoDup_singleton].
  intros x Hx Hin. apply list_elem_of_singleton in Hin as ->. apply list_elem_of_fmap in Hx as (y & Ey & Hy).
  enough (known (entryId e) l = true) by congruence. apply existsb_exists. exists y.
  split; [by apply list_elem_of_In|]. rewrite Ey. apply String.eqb_refl.
Qed.

Lemma step_table s ev :
  table (step s ev) = table s \/ exists e, known (entryId e) (table s) = false /\ table (step s ev) = table s ++ [e].
Proof.
  assert (Hd : forall tid s, table (drainQueue tid s) = table s)
    by (intros tid s'; unfold drainQueue; destruct (queue s'); [done|by destruct (dbAvailable s')]).
  assert (Hq : forall e s, table (enqueue e s) = table s) by (intros e s'; unfold enqueue; by destruct (_ <=? _)%nat).
  assert (Ha : forall tid o e n s, table (attemptFailed tid o e n s) = table s).
  { intros tid o e n s'. unfold attemptFailed. destruct (_ <? _)%nat; [done|]. unfold exhausted. destruct o; [|done].
    apply (Hq e (set_available false s')). }
  destruct ev as [tid i id|tid now|tid|tid|e|tid|tid|tid ok|]; cbn; try (by left);
    try (destruct (tasks s !! tid) as [[o e n|o e n| | |]|]; try (by left); rewrite ?Ha, ?Hd; try (by left)).
  - left. unfold write. destruct (negb _); [|done]. apply (Hq _ (note_written _ s)).
  - destruct (known _ _) eqn:Hk; [rewrite Ha; by left|]. right. exists e. split; [done|].
    unfold inserted. destruct o; by rewrite Hd.
  - destruct (known (entryId e) (table s)) eqn:Hk; rewrite ?andb_false_r; [by left|].
    destruct (_ && _); [|by left]. destruct (filter _ _) as [|x l] eqn:E; [by left|]. right. exists x. split; [|done].
    assert (Hx : x ∈ filter (fun x => entryId x = entryId e) (outstanding s)) by (rewrite E; by left).
    apply list_elem_of_filter in Hx as [-> _]. done.
  - destruct (probing s); by left.
  - destruct ok; rewrite ?Hd; by left.
Qed.

Lemma table_nodup s evs : NoDup (entryId <$> table s) -> NoDup (entryId <$> table (foldl step s evs)).
Proof.
  revert s. induction evs as [|ev evs IH]; intros s H; [done|]. cbn. apply IH.
  destruct (step_table s ev) as [->|(e & Hk & ->)]; [done|by apply known_notin].
Qed.

(** *** What blocks the queue *)

(** The head of the queue is in the table already. *)
Definition stuck (e : AuditEntry) (s : State) : Prop := head (queue s) = Some e /\ e ∈ table s.

(** The queue only grows, unless it overflows. *)
Definition grown (s s' : State) : Prop :=
  queueDroppedTotal s <= queueDroppedTotal s' /\
  (queueDroppedTotal s' = queueDroppedTotal s -> queue s `prefix_of` queue s').

Lemma grown_refl s : grown s s.
Proof. by split. Qed.

Lemma enqueue_grown e s : grown s (enqueue e s).
Proof.
  unfold grown, enqueue. destruct (_ <=? _)%nat; cbn; split; try lia. intros _. by apply prefix_app_r.
Qed.

Lemma drainQueue_grown tid s : grown s (drainQueue tid s).
Proof. unfold drainQueue. destruct (queue s) eqn:E; [exact (grown_refl s)|]. destruct (dbAvailable s); exact (grown_refl s). Qed.

Lemma attemptFailed_grown tid o e n s : grown s (attemptFailed tid o e n s).
Proof.
  unfold attemptFailed. destruct (_ <? _)%nat; [exact (grown_refl s)|]. unfold exhausted. destruct o; [|exact (grown_refl s)].
  exact (enqueue_grown e (set_available false s)).
Qed.

Lemma step_grown s ev e :
  Inv s -> queueDroppedTotal s = 0 -> stuck e s -> grown s (step s ev).
Proof.
  intros HI H0 [Hh He].
  destruct ev as [tid i id|tid now|tid|tid|x|tid|tid|tid ok|]; cbn; try apply grown_refl;
    try (destruct (tasks s !! tid) as [[o x n|o x n| | |]|] eqn:Ht; try apply grown_refl; try apply attemptFailed_grown).
  - unfold write. destruct (negb _); [|exact (grown_refl s)]. exact (enqueue_grown _ (note_written _ s)).
  - destruct (known _ _) eqn:Hk; [apply attemptFailed_grown|].
    destruct o; cbn [inserted].
    + exact (drainQueue_grown tid (set_lastWrite now (count_change (set_table (table s ++ [x]) s)))).
    + exfalso. apply known_false in Hk. destruct (inv_drain _ HI H0 tid x) as [E|E]; [by apply (held_task _ _ _ Ht)| |done].
      rewrite Hh in E. by injection E as ->.
  - exact (attemptFailed_grown tid o x n (set_outstanding (x :: outstanding s) s)).
  - destruct (_ && _); [|apply grown_refl]. destruct (filter _ _); exact (grown_refl s).
  - exact (grown_refl s).
  - destruct (probing s); [exact (grown_refl s)|apply grown_refl].
  - destruct ok; [|exact (grown_refl s)]. exact (drainQueue_grown tid (set_available true s)).
  - exact (grown_refl s).
Qed.

Lemma step_table_grows s ev e : e ∈ table s -> e ∈ table (step s ev).
Proof. intros He. destruct (step_table s ev) as [->|(x & _ & ->)]; [done|]. rewrite elem_of_app. by left. Qed.

Lemma dropped_mono s ev : queueDroppedTotal s <= queueDroppedTotal (step s ev).
Proof.
  assert (Hd : forall tid s, queueDroppedTotal (drainQueue tid s) = queueDroppedTotal s)
    by (intros tid s'; unfold drainQueue; destruct (queue s'); [done|by destruct (dbAvailable s')]).
  destruct ev as [tid i id|tid now|tid|tid|x|tid|tid|tid ok|]; cbn; try lia;
    try (destruct (tasks s !! tid) as [[o x n|o x n| | |]|]; try lia).
  - unfold write. destruct (negb _); [|cbn; lia]. apply (proj1 (enqueue_grown _ (note_written _ s))).
  - destruct (known _ _); [apply attemptFailed_grown|]. destruct o; cbn [inserted]; rewrite Hd; cbn; lia.
  - apply attemptFailed_grown.
  - exact (proj1 (attemptFailed_grown tid o x n (set_outstanding (x :: outstanding s) s))).
  - destruct (_ && _); [|lia]. destruct (filter _ _); cbn; lia.
  - cbn. lia.
  - destruct (probing s); cbn; lia.
  - destruct ok; rewrite ?Hd; cbn; lia.
Qed.

Lemma stuck_run s evs e :
  Inv s -> NoDup ((entryId <$> written s) ++ ids evs) -> stuck e s -> queueDroppedTotal (foldl step s evs) = 0 ->
  queue s `prefix_of` queue (foldl step s evs).
Proof.
  revert s. induction evs as [|ev evs IH]; intros s HI Hnd [Hh He] H0; [done|]. cbn in *.
  assert (Hm : queueDroppedTotal (step s ev) <= queueDroppedTotal (foldl step (step s ev) evs)).
  { clear -capacity_pos. generalize (step s ev). induction evs as [|ev' evs IH]; intros s'; cbn; [lia|].
    etrans; [apply (dropped_mono s' ev')|apply IH]. }
  pose proof (dropped_mono s ev) as Hm1. pose proof (inv_dropped _ HI) as Hp.
  assert (Hs0 : queueDroppedTotal s = 0) by lia.
  destruct (step_grown s ev e HI Hs0 (conj Hh He)) as [_ Hq]. specialize (Hq ltac:(lia)).
  destruct (step_ids _ _ _ Hnd) as [Hid Hnd'].
  etrans; [exact Hq|]. apply IH; [by apply step_inv|done| |done]. split; [|by apply step_table_grows].
  destruct Hq as [l ->]. by destruct (queue s).
Qed.

(** ** Verification and queries *)

Lemma verify_new id i : readBack (newEntry id i) = newEntry id i -> verifyRow (newEntry id i) = true.
Proof. intros E. unfold verifyRow. rewrite E. apply String.eqb_refl. Qed.

Lemma verify_denied id op who ip now :
  let e := deniedEntry id op who ip now in
  readBack e = e -> computeHmac id (input e) <> ZEROS -> verifyRow e = false.
Proof. cbn zeta. intros E Hne. unfold verifyRow. rewrite E. by apply String.eqb_neq. Qed.
End audit.

(** C38: in every run with ids that do not repeat, the table holds only entries given to
    [write], each at most once and with its digest; the queue stays within its capacity;
    and as long as it has not overflowed, every entry given to [write] is in the table,
    in the queue, or still in the hands of the call that was given it. *)
Theorem entries_never_lost hmac toISOString JSON capacity listening evs :
  (0 < capacity)%nat -> NoDup (ids evs) ->
  let s := run hmac toISOString JSON capacity listening evs in
  (length (queue s) <= capacity)%nat /\ NoDup (entryId <$> table s) /\
  (forall e, e ∈ table s -> exists tid i id, Write tid i id ∈ evs /\ e = newEntry hmac toISOString JSON id i) /\
  (queueDroppedTotal s = 0 -> forall e, e ∈ written s ->
     e ∈ table s \/ e ∈ queue s \/ exists tid, held s tid = Some (ByWrite, e)).
Proof.
  intros Hc Hnd. cbn zeta. pose proof (run_inv hmac toISOString JSON capacity listening Hc evs Hnd) as HI.
  split_and!; [apply HI|apply table_nodup; constructor| |apply HI].
  intros e He%(inv_table _ _ HI). apply written_from in He as [He|He]; [by apply elem_of_nil in He|done].
Qed.

(** an entry that reached the table after its deadline and is at the head of the
    queue stays there whatever happens, and nothing behind it is ever taken out, until
    the queue overflows. *)
Theorem landed_head_blocks_queue hmac toISOString JSON capacity listening evs evs' e :
  (0 < capacity)%nat -> NoDup (ids (evs ++ evs')) ->
  let s := run hmac toISOString JSON capacity listening evs in
  let s' := run hmac toISOString JSON capacity listening (evs ++ evs') in
  head (queue s) = Some e -> e ∈ table s -> queueDroppedTotal s' = 0 ->
  queue s `prefix_of` queue s'.
Proof.
  intros Hc Hnd. cbn zeta. unfold run. rewrite foldl_app. intros Hh He H0.
  assert (Eids : ids (evs ++ evs') = ids evs ++ ids evs') by apply omap_app.
  rewrite Eids in Hnd. pose proof Hnd as (Hnd1 & _ & _)%NoDup_app.
  eapply stuck_run; [exact Hc|by apply run_inv| |by split|exact H0].
  apply (NoDup_written hmac toISOString JSON capacity listening new_AuditLogger evs (ids evs')). exact Hnd.
Qed.

(** a chain verification counts the rows of its range and reports exactly those whose
    digest does not recompute; an entry of the logger that reads back as it was stored is
    not among them, a row about a denied access always is. *)
Theorem chain_reports hmac toISOString JSON readBack from to rows :
  let '(r, violation) := verifyChain hmac toISOString JSON readBack from to rows in
  let bad row := row ∈ rows /\ inRange from to row = true /\ verifyRow hmac toISOString JSON readBack row = false in
  totalChecked r = length (filter (fun row => inRange from to row = true) rows) /\
  Z.of_nat (totalChecked r) = validCount r + Z.of_nat (invalidCount r) /\ invalidCount r = length (invalidEntryIds r) /\
  (forall id, id ∈ invalidEntryIds r <-> exists row, bad row /\ entryId row = id) /\
  (violation = true <-> exists row, bad row) /\
  (forall id i, readBack (newEntry hmac toISOString JSON id i) = newEntry hmac toISOString JSON id i ->
     ~ bad (newEntry hmac toISOString JSON id i)) /\
  (forall id op who ip now,
     let e := deniedEntry id op who ip now in
     e ∈ rows -> inRange from to e = true -> readBack e = e ->
     computeHmac hmac toISOString JSON id (input e) <> ZEROS -> bad e).
Proof.
  unfold verifyChain. cbn zeta. set (checked := sort_by oldestFirst _).
  assert (Hin : forall row, row ∈ filter (fun r => verifyRow hmac toISOString JSON readBack r = false) checked <->
    row ∈ rows /\ inRange from to row = true /\ verifyRow hmac toISOString JSON readBack row = false).
  { intros row. unfold checked. rewrite list_elem_of_filter, elem_of_sort_by, list_elem_of_filter. naive_solver. }
  split_and!; cbn.
  - apply length_sort_by.
  - rewrite length_fmap. lia.
  - by rewrite length_fmap.
  - intros id. rewrite list_elem_of_fmap. split.
    + intros (row & -> & Hr%Hin). by exists row.
    + intros (row & Hr%Hin & <-). by exists row.
  - rewrite negb_true_iff, bool_decide_eq_false. split.
    + intros Hne. destruct (filter _ checked) as [|row l] eqn:E; [done|]. exists row. apply Hin. by left.
    + intros [row Hrow%Hin] E. apply fmap_nil_inv in E. rewrite E in Hrow. by apply elem_of_nil in Hrow.
  - intros id i E (_ & _ & Hf). by rewrite (verify_new _ _ _ _ _ _ E) in Hf.
  - intros id op who ip now He Hr E Hne. split_and!; [done..|]. by apply verify_denied.
Qed.

(** the pages of a query hold at most 200 entries each and, put together, are the
    matching rows, the newest first. *)
Theorem pages_partition_log readBack f rows n :
  let page k := q_entries (queryAuditLog readBack (mkFilters (f_configPath f) (f_actor f) (f_changeSource f)
                   (f_from f) (f_to f) (Z.of_nat k) (f_pageSize f)) rows) in
  let matching := sort_by newestFirst (filter (fun r => matches f r = true) rows) in
  let size := Z.to_nat (clampedSize f) in
  (1 <= size <= 200)%nat /\ (forall k, (length (page k) <= size)%nat) /\
  concat (page <$> seq 1 n) = readBack <$> take (n * size) matching /\
  ((length matching <= n * size)%nat -> concat (page <$> seq 1 n) = readBack <$> matching).
Proof.
  intros page matching size.
  assert (Hs : (1 <= size <= 200)%nat) by (unfold size, clampedSize; lia).
  assert (Hp : forall k, (1 <= k)%nat -> page k = readBack <$> take size (drop ((k - 1) * size) matching)).
  { intros k Hk. unfold page, queryAuditLog. cbn. unfold clampedPage. cbn. f_equal. unfold size, matching.
    f_equal. f_equal. rewrite Z.max_r by lia. unfold clampedSize at 1. cbn. fold (clampedSize f).
    rewrite Z2Nat.inj_mul by (unfold clampedSize; lia). f_equal. lia. }
  assert (Hc : concat (page <$> seq 1 n) = readBack <$> take (n * size) matching).
  { induction n as [|n IH]; [done|]. rewrite seq_S, fmap_app, concat_app, IH. cbn [fmap list_fmap concat].
    rewrite Hp, app_nil_r, <- fmap_app by lia. f_equal.
    replace (1 + n - 1)%nat with n by lia. replace (S n * size)%nat with (n * size + size)%nat by lia.
    by rewrite take_take_drop. }
  split_and!; [lia|lia| |done|].
  - intros k. unfold page, queryAuditLog. cbn. rewrite length_fmap, length_take. unfold clampedSize at 1. cbn. fold (clampedSize f). unfold size. lia.
  - intros Hl. rewrite Hc. by rewrite take_ge.
Qed.

(** A rollback needs the permission, changes nothing when dry, and otherwise sorts the
    keys into restored and skipped; a key whose update went through but whose audit
    entry was refused is among the skipped. *)
Theorem rollback_accounts permissions who ip now dry l :
  match serviceRollback permissions who ip now dry l with
  | inl _ => "config:rollback:write" ∉ permissions
  | inr (res, updates, entries) =>
      "config:rollback:write" ∈ permissions /\
      if dry : bool then updates = [] /\ entries = [] /\ restored res = (fun x => d_path x.1.1) <$> l
      else
        restored res = (fun x => d_path x.1.1) <$> filter (fun x => x.1.2 || x.2 = false) l /\
        skipped res = (fun x => d_path x.1.1) <$> filter (fun x => x.1.2 || x.2 = true) l /\
        updates = (fun x => (d_path x.1.1, baselineValue x.1.1)) <$> filter (fun x => x.1.2 = false) l /\
        forall x, x ∈ l -> exists e, e ∈ entries /\ configPath e = d_path x.1.1 /\
          changeSource e = if x.1.2 || x.2 then RollbackSkip else FromRollback
  end.
Proof.
  unfold serviceRollback. case_bool_decide as Hp; [|done]. destruct dry; [done|]. cbn [negb].
  destruct (rollbackKeys who ip now l) as [[res updates] entries] eqn:E. split; [done|].
  revert res updates entries E. induction l as [|[[dk u] w] l IH]; intros res updates entries; cbn [rollbackKeys].
  { intros [= <- <- <-]. split_and!; try done. by intros x ?%elem_of_nil. }
  destruct (rollbackKey who ip now u w dk) as [[ok up] en] eqn:Ek.
  destruct (rollbackKeys who ip now l) as [[res' up'] en'] eqn:El. specialize (IH _ _ _ eq_refl).
  destruct IH as (Hr & Hs & Hu & He). intros [= <- <- <-].
  assert (Hen : exists e, e ∈ en /\ configPath e = d_path dk /\ changeSource e = if u || w then RollbackSkip else FromRollback).
  { unfold rollbackKey in Ek. destruct u; [|destruct w]; injection Ek as <- <- <-;
      first [by eexists; split; [left|]|by eexists; split; [right; left|]]. }
  rewrite !filter_cons. cbn.
  unfold rollbackKey in Ek. destruct u; [|destruct w]; injection Ek as <- <- <-; cbn;
    (split_and!; [by rewrite Hr|by rewrite Hs|by rewrite Hu|]);
    (intros x Hx; apply elem_of_cons in Hx as [->|Hx];
      [destruct Hen as (e & ? & ? & ?); exists e; cbn; split_and!; [set_solver|done..]
      |destruct (He x Hx) as (e & ? & ? & ?); exists e; split_and!; [set_solver|done..]]).
Qed.

(** The bus sends the whole configuration with 'updated', and the listener looks in it
    for the fields of a change: it writes entries that say nothing. *)
Lemma updates_audited_blank l :
  (forall k, k ∈ ["configPath"; "previousValue"; "newValue"; "actor"; "sourceIp"; "changeSource"] -> assoc_get k l = None) ->
  updatedListener (VObject l) =
    mkUpdateFields (VString "") VUndefined VUndefined (VString "system") VNull (VString "hot_update").
Proof. intros H. unfold updatedListener, member. by rewrite !H by set_solver. Qed.

(** ** Concrete runs *)

Module Examples.
Local Open Scope string_scope.
Local Open Scope list_scope.

(** Hosts: the digest is the text itself. *)
Definition digest (s : string) : string := s.
Definition text (v : value) : string :=
  match v with
  | VString s => quoted s
  | VObject [] => "{}"
  | VObject ((k, _) :: _) => "{" +:+ quoted k +:+ "}"
  | _ => "null"
  end.

Definition change (path : string) (t : Z) : AuditEntryInput :=
  mkInput path VNull (VString "x") "ops" None t HotUpdate.
Definition entry (id path : string) (t : Z) : AuditEntry := newEntry digest print_Z text id (change path t).

Abbreviation go := (run digest print_Z text).

(** The first attempt is cut off at its deadline but reaches the table; the others
    fail. *)
Definition late : list Event :=
  [Write 1 (change "db.host" 1) "a"; Deadline 1; Landed (entry "a" "db.host" 1);
   Woken 1; Failed 1; Woken 1; Failed 1; Woken 1; Failed 1].
(** The database is back: a probe drains, another entry is written. *)
Definition back : list Event :=
  [ProbeFires 2; ProbeAnswer 2 true; Executed 2 0; Woken 2; Executed 2 0; Woken 2; Executed 2 0; Woken 2; Executed 2 0;
   Write 3 (change "db.port" 2) "b"; ProbeFires 4; ProbeAnswer 4 true; Executed 4 0].

Lemma late_entry_blocks :
  entryId <$> queue (go 1000 true late) = ["a"] /\ entryId <$> table (go 1000 true late) = ["a"] /\
  entryId <$> queue (go 1000 true (late ++ back)) = ["a"; "b"] /\
  entryId <$> table (go 1000 true (late ++ back)) = ["a"].
Proof. by vm_compute. Qed.

Lemma landed_head_blocks_queue_witness :
  head (queue (go 1000 true late)) = Some (entry "a" "db.host" 1) /\
  queue (go 1000 true late) `prefix_of` queue (go 1000 true (late ++ back)).
Proof.
  split; [vm_compute; reflexivity|].
  apply (landed_head_blocks_queue digest print_Z text 1000 true late back (entry "a" "db.host" 1)).
  - lia.
  - apply (bool_decide_unpack _). vm_compute. exact I.
  - vm_compute. reflexivity.
  - vm_compute. left.
  - vm_compute. reflexivity.
Defined.

Lemma entries_never_lost_witness :
  NoDup (ids (late ++ back)) /\ (length (queue (go 1000 true (late ++ back))) <= 1000)%nat.
Proof.
  assert (H : NoDup (ids (late ++ back))) by (apply (bool_decide_unpack _); vm_compute; exact I).
  split; [exact H|].
  exact (proj1 (entries_never_lost digest print_Z text 1000 true (late ++ back) ltac:(lia) H)).
Defined.

(** Without a listener of 'error' the call throws instead of returning. *)
Lemma unheard_error_throws : tasks (go 1000 false late) !! 1%nat = Some Threw.
Proof. by vm_compute. Qed.

(** A denied access is reported as tampering. *)
Lemma denial_reported_as_violation :
  let rows := [entry "a" "db.host" 1; deniedEntry "d" "baseline:capture" "eve" None 2] in
  verifyChain digest print_Z text (fun e => e) 0 10 rows = (mkChainResult 2 1 1 ["d"], true).
Proof. by vm_compute. Qed.

(** [jsonb] keeps the members of an object in an order of its own: an intact row whose
    value was written in another order does not verify. *)
Definition reordered (e : AuditEntry) : AuditEntry :=
  let i := input e in
  let turn v := match v with VObject [x; y] => VObject [y; x] | _ => v end in
  mkEntry (entryId e)
    (mkInput (configPath i) (turn (previousValue i)) (turn (newValue i)) (actor i) (sourceIp i) (changedAt i) (changeSource i))
    (hmacDigest e).

Lemma stored_order_breaks_digest :
  verifyRow digest print_Z text reordered
    (newEntry digest print_Z text "a"
       (mkInput "db" VNull (VObject [("port", VNull); ("host", VNull)]) "ops" None 1 HotUpdate)) = false.
Proof. by vm_compute. Qed.

(** Two different entries with one digest: the fields are joined by a character they
    may contain. *)
Lemma payload_ambiguous :
  payload print_Z text "a" (mkInput "db" VNull VNull "null|ops" None 1 HotUpdate) =
  payload print_Z text "a" (mkInput "db|null" VNull VNull "ops" None 1 HotUpdate).
Proof. by vm_compute. Qed.

(** An update that went through is reported as skipped when its audit entry throws. *)
Lemma applied_update_reported_skipped :
  serviceRollback ["config:rollback:write"] "ops" None 1 false
    [(mkDriftedKey "db.host" (VString "old") (VString "new"), false, true)] =
  inr (mkRollbackResult [] ["db.host"] false, [("db.host", VString "old")],
       [mkInput "db.host" (VString "new") (VString "old") "ops" None 1 FromRollback;
        mkInput "db.host" (VString "new") (VString "old") "ops" None 1 RollbackSkip]).
Proof. done. Qed.
End Examples.
