(* ===== verification/PoolProbe.v ===== *)
(** * Query classification and the size of a pool ([src/src/database/pool_isolation.ts])

    The patterns of the classifier with the matcher they need, and the probe that
    sizes a pool from samples of its queries.  Durations, waits and the controller are
    JavaScript numbers ([Number]); the clock of the adjustments is in milliseconds.
    The pool is the [max] of its options: [pg] pools have no [setMaxConnections].

    [search_finds]: the matcher finds exactly the texts the pattern describes.
    [pool_size_adjustments]: whatever is sampled, windows stay bounded, every
    adjustment is one step clamped to the limits, and two in one direction are apart by
    the cooldown; a pool shrinks only if it is fast and not busy. *)

From Stdlib Require Import ZArith Lia Ascii String QArith Qround.
From stdpp Require Import base numbers list strings.
From S2P Require Import Prelude Js Text Number.
#[local] Open Scope Z_scope.

Inductive PoolTier := Oltp | Olap.
#[export] Instance PoolTier_eq_dec : EqDecision PoolTier.
Proof. solve_decision. Defined.

(** ** Patterns *)

(** A character, whatever its case; [\s*] or [\s+]; [\b] *)
Inductive Piece := Lit (c : ascii) | Spaces (some : bool) | Bound.
Abbreviation Pattern := (list Piece).

(** A character of [\w] *)
Definition wordChar (c : ascii) : bool :=
  let n := code c in
  ((65 <=? n)%nat && (n <=? 90)%nat) || ((97 <=? n)%nat && (n <=? 122)%nat) || is_digit c || bool_decide (c = "_"%char).
Definition wordAt (o : option ascii) : bool := match o with Some c => wordChar c | None => false end.
Definition firstChar (s : string) : option ascii := match s with String c _ => Some c | EmptyString => None end.

(** [\b] between what precedes and the text [s]. *)
Definition boundary (prev : option ascii) (s : string) : bool := xorb (wordAt prev) (wordAt (firstChar s)).

(** Whether the pattern matches a beginning of [s], after the character [prev]. *)
Fixpoint matchHere (re : Pattern) : option ascii -> string -> bool :=
  match re with
  | [] => fun _ _ => true
  | Lit c :: re' => fun _ s =>
      match s with
      | String d s' => if bool_decide (lower1 c = lower1 d) then matchHere re' (Some d) s' else false
      | EmptyString => false
      end
  | Bound :: re' => fun prev s => if boundary prev s then matchHere re' prev s else false
  | Spaces some :: re' =>
      (fix spaces (some : bool) (prev : option ascii) (s : string) {struct s} : bool :=
         if (if some then false else matchHere re' prev s) then true
         else match s with String d s' => if is_ws d then spaces false (Some d) s' else false | EmptyString => false end) some
  end.

(** [pattern.test(s)] *)
Fixpoint search (re : Pattern) (prev : option ascii) (s : string) : bool :=
  if matchHere re prev s then true else match s with String c s' => search re (Some c) s' | EmptyString => false end.
Definition test (re : Pattern) (s : string) : bool := search re None s.

Definition text (s : string) : Pattern := Lit <$> String.list_ascii_of_string s.
Definition sp : Pattern := [Spaces false].
Definition sp1 : Pattern := [Spaces true].

Record RouteRule := mkRouteRule { r_prefix : string; r_tier : PoolTier }.
Definition ROUTE_RULES : list RouteRule :=
  [mkRouteRule "/api/v1/attestation" Oltp; mkRouteRule "/api/v1/analytics" Olap].

Record QueryRule := mkQueryRule { q_pattern : Pattern; q_tier : PoolTier }.
Definition QUERY_RULES : list QueryRule :=
  [mkQueryRule (text "FROM" ++ sp1 ++ text "uptime_heartbeat" ++ sp1 ++ text "WHERE" ++ sp1 ++ text "time" ++ sp ++
                text ">" ++ sp ++ text "NOW" ++ sp ++ text "(" ++ sp ++ text ")" ++ sp ++ text "-" ++ sp ++
                text "INTERVAL" ++ sp ++ text "'1" ++ sp1 ++ text "hour'") Oltp;
   mkQueryRule (text "GROUP" ++ sp1 ++ text "BY" ++ sp1 ++ text "node_id" ++ sp ++ text "," ++ sp ++ text "date_trunc" ++ sp ++
                text "(" ++ sp ++ text "'day'") Olap].

Definition OLAP_HEURISTICS : list Pattern :=
  [[Bound] ++ text "uptime_hourly_agg" ++ [Bound];
   [Bound] ++ text "GROUP" ++ sp1 ++ text "BY" ++ [Bound];
   [Bound] ++ text "date_trunc" ++ sp ++ text "("].

Definition classifyQuery (route queryText : string) : PoolTier :=
  match head (filter (fun r => String.prefix (r_prefix r) route = true) ROUTE_RULES) with
  | Some r => r_tier r
  | None =>
      match head (filter (fun r => test (q_pattern r) queryText = true) QUERY_RULES) with
      | Some r => q_tier r
      | None => if existsb (fun p => test p queryText) OLAP_HEURISTICS then Olap else Oltp
      end
  end.

(** What a pattern describes: the texts that begin with a match, after [prev]. *)
Inductive described : Pattern -> option ascii -> string -> Prop :=
  | described_nil prev s : described [] prev s
  | described_lit c d re prev s : lower1 c = lower1 d -> described re (Some d) s -> described (Lit c :: re) prev (String d s)
  | described_bound re prev s : boundary prev s = true -> described re prev s -> described (Bound :: re) prev s
  | described_space d some re prev s :
      is_ws d = true -> described (Spaces false :: re) (Some d) s -> described (Spaces some :: re) prev (String d s)
  | described_spaces re prev s : described re prev s -> described (Spaces false :: re) prev s.

Lemma lazy_and (b b' : bool) : (if b then b' else false) = true <-> b = true /\ b' = true.
Proof. by destruct b, b'; naive_solver. Qed.

Lemma lazy_or (b b' : bool) : (if b then true else b') = true <-> b = true \/ b' = true.
Proof. by destruct b, b'; naive_solver. Qed.

Lemma matchHere_spaces some re prev s :
  matchHere (Spaces some :: re) prev s =
  (negb some && matchHere re prev s) ||
  match s with String d s' => is_ws d && matchHere (Spaces false :: re) (Some d) s' | EmptyString => false end.
Proof. by destruct some, s. Qed.

Lemma matchHere_described re prev s : matchHere re prev s = true <-> described re prev s.
Proof.
  revert prev s. induction re as [|[c|some|] re IH]; intros prev s.
  - split; [constructor|done].
  - cbn. destruct s as [|d s]; [split; [done|by inversion 1]|]. rewrite lazy_and, bool_decide_eq_true, IH. split.
    + intros []. by constructor.
    + by inversion 1.
  - revert some prev. induction s as [|d s IHs]; intros some prev; rewrite matchHere_spaces, orb_true_iff, andb_true_iff, IH, negb_true_iff.
    + split; [|inversion 1; subst; by left]. intros [[-> ?]|?]; [by constructor|done].
    + rewrite andb_true_iff, IHs. split.
      * intros [[-> ?]|[? ?]]; by constructor.
      * inversion 1; subst; [by right|by left].
  - cbn. rewrite lazy_and, IH. split.
    + intros []. by constructor.
    + by inversion 1.
Qed.

(** The character before what is left of a text once [before] is read. *)
Fixpoint lastChar (prev : option ascii) (before : string) : option ascii :=
  match before with EmptyString => prev | String c s => lastChar (Some c) s end.

Lemma search_described re prev s :
  search re prev s = true <-> exists before rest, s = before +:+ rest /\ described re (lastChar prev before) rest.
Proof.
  revert prev. induction s as [|c s IH]; intros prev; cbn [search]; rewrite lazy_or, matchHere_described.
  - split.
    + intros [H|H]; [|done]. by exists "", "".
    + intros (b & r & E & H). left. by destruct b, r.
  - rewrite IH. split.
    + intros [H|(b & r & -> & H)]; [by exists "", (String c s)|by exists (String c b), r].
    + intros ([|c' b] & r & E & H); [left; by rewrite E|]. injection E as <- ->. right. by exists b, r.
Qed.

(** ** The probe *)

Definition SAMPLE_WINDOW : nat := 200.

(** The index is at least 0 for the arguments the probe gives. *)
Definition percentile (sorted : list number) (p : number) : number :=
  match sorted with
  | [] => int 0
  | _ =>
      let n := Z.of_nat (length sorted) in
      let idx := match num_mul (int n) p with Finite q => Z.min (Qfloor q) (n - 1) | _ => n - 1 end in
      nth (Z.to_nat idx) sorted NaN
  end.

Definition average (values : list number) : number :=
  match values with
  | [] => int 0
  | _ => num_div (foldl num_add (int 0) values) (int (Z.of_nat (length values)))
  end.

(** [sort((a, b) => a - b)] of numbers other than NaN *)
Definition sortNumbers (l : list number) : list number := sort_by (fun a b => num_ge b a) l.

(** [push], and [shift] beyond the window *)
Definition pushSample (x : number) (l : list number) : list number :=
  let l := l ++ [x] in if (SAMPLE_WINDOW <? length l)%nat then tail l else l.

Record AdaptivePoolConfig := mkPoolConfig {
  enabled : bool;
  probeIntervalMs : number;
  minConnections : number;
  maxConnections : number;
  adjustmentStep : number;
  latencyThresholdMs : number;
  waitThresholdMs : number;
  cooldownMs : number;
  kp : number;
  ki : number;
  kd : number
}.

Definition defaultPoolConfig : AdaptivePoolConfig :=
  mkPoolConfig true (int 10000) (int 5) (int 200) (int 5) (int 100) (int 50) (int 60000)
    (int 1) (to_double (1 # 10)) (to_double (5 # 100)).

(** [options.max] of a pool, if it is a number. *)
Definition getPoolMax (max : option number) : number :=
  match max with Some NaN | None => int 1 | Some n => n end.

Record AdaptivePoolProbe := mkProbe {
  poolMax : option number;                 (* [options.max] of its pool *)
  durationSamplesMs : list number;
  waitSamplesMs : list number;
  utilizationSamples : list number;
  interval : bool;                         (* the timer *)
  lastAdjustmentDirection : option Z;
  lastAdjustmentAt : Z;
  integral : number;
  previousError : number;
  targetConnections : number
}.

Section probe.
Context (c : AdaptivePoolConfig).

Definition clamp (n : number) : number := num_min (maxConnections c) (num_max (minConnections c) n).

Definition new_AdaptivePoolProbe (max : option number) : AdaptivePoolProbe :=
  mkProbe max [] [] [] false None 0 (int 0) (int 0) (clamp (getPoolMax max)).

Definition set_interval (b : bool) (p : AdaptivePoolProbe) : AdaptivePoolProbe :=
  mkProbe (poolMax p) (durationSamplesMs p) (waitSamplesMs p) (utilizationSamples p) b (lastAdjustmentDirection p)
    (lastAdjustmentAt p) (integral p) (previousError p) (targetConnections p).

Definition start (p : AdaptivePoolProbe) : AdaptivePoolProbe := if enabled c then set_interval true p else p.
Definition stop (p : AdaptivePoolProbe) : AdaptivePoolProbe := set_interval false p.

Definition recordSample (durationMs waitMs utilization : number) (p : AdaptivePoolProbe) : AdaptivePoolProbe :=
  mkProbe (poolMax p) (pushSample durationMs (durationSamplesMs p)) (pushSample waitMs (waitSamplesMs p))
    (pushSample utilization (utilizationSamples p)) (interval p) (lastAdjustmentDirection p) (lastAdjustmentAt p)
    (integral p) (previousError p) (targetConnections p).

Definition canAdjust (direction now : Z) (p : AdaptivePoolProbe) : bool :=
  if bool_decide (lastAdjustmentDirection p = Some direction) then num_ge (int (now - lastAdjustmentAt p)) (cooldownMs c) else true.

Definition durationP95 (p : AdaptivePoolProbe) : number := percentile (sortNumbers (durationSamplesMs p)) (to_double (95 # 100)).
Definition waitP90 (p : AdaptivePoolProbe) : number := percentile (sortNumbers (waitSamplesMs p)) (to_double (9 # 10)).

(** The distance from a threshold, relative to it. *)
Definition overshoot (n threshold : number) : number := num_div (num_sub n threshold) threshold.

Definition errorOf (p : AdaptivePoolProbe) : number :=
  num_max (overshoot (durationP95 p) (latencyThresholdMs c)) (overshoot (waitP90 p) (waitThresholdMs c)).

(** The controller: its output, with the new integral and error kept. *)
Definition control (p : AdaptivePoolProbe) : number * AdaptivePoolProbe :=
  let error := errorOf p in
  let dt := num_div (probeIntervalMs c) (int 1000) in
  let sum := num_add (integral p) (num_mul error dt) in
  let derivative := num_div (num_sub error (previousError p)) dt in
  (num_add (num_add (num_mul (kp c) error) (num_mul (ki c) sum)) (num_mul (kd c) derivative),
   mkProbe (poolMax p) (durationSamplesMs p) (waitSamplesMs p) (utilizationSamples p) (interval p)
     (lastAdjustmentDirection p) (lastAdjustmentAt p) sum error (targetConnections p)).

(** Whether the pool is fast and not busy. *)
Definition quiet (p : AdaptivePoolProbe) : bool :=
  num_lt (durationP95 p) (latencyThresholdMs c) && num_lt (waitP90 p) (waitThresholdMs c) &&
  num_lt (average (utilizationSamples p)) (to_double (6 # 10)).

(** The direction the output asks for, if any. *)
Definition nextDirection (pid : number) (p : AdaptivePoolProbe) : Z :=
  if num_lt (to_double (2 # 10)) pid then 1
  else if num_lt pid (num_neg (to_double (2 # 10))) && quiet p then -1 else 0.

Definition moved (direction : Z) (n : number) : number :=
  clamp (if direction =? 1 then num_add n (adjustmentStep c) else num_sub n (adjustmentStep c)).

(** The next size of the pool, if it is another one, and the direction. *)
Definition decision (now : Z) (pid : number) (p : AdaptivePoolProbe) : option (Z * number) :=
  let currentMax := getPoolMax (poolMax p) in
  let d := nextDirection pid p in
  let nextMax := if negb (d =? 0) && canAdjust d now p then moved d currentMax else currentMax in
  if num_eqb nextMax currentMax then None else Some (d, nextMax).

(** The size of the pool and its target are set. *)
Definition setPoolMax (now d : Z) (nextMax : number) (p : AdaptivePoolProbe) : AdaptivePoolProbe :=
  mkProbe (Some nextMax) (durationSamplesMs p) (waitSamplesMs p) (utilizationSamples p) (interval p) (Some d) now
    (integral p) (previousError p) nextMax.

(** The probe after an evaluation, with the direction of the adjustment made. *)
Definition evaluate (now : Z) (p : AdaptivePoolProbe) : AdaptivePoolProbe * option Z :=
  if bool_decide (durationSamplesMs p = []) || bool_decide (utilizationSamples p = []) then (p, None)
  else
    let '(pid, p) := control p in
    match decision now pid p with
    | Some (d, nextMax) => (setPoolMax now d nextMax p, Some d)
    | None => (p, None)
    end.

Inductive ProbeEvent :=
  | Start
  | StopProbe
  | Sample (durationMs waitMs utilization : number)
  | TimerFires (now : Z).

(** A probe and the times and directions of its adjustments, the last first. *)
Definition probeStep (w : AdaptivePoolProbe * list (Z * Z)) (ev : ProbeEvent) : AdaptivePoolProbe * list (Z * Z) :=
  let '(p, log) := w in
  match ev with
  | Start => (start p, log)
  | StopProbe => (stop p, log)
  | Sample d w u => (recordSample d w u p, log)
  | TimerFires now =>
      if interval p
      then let '(p', o) := evaluate now p in (p', match o with Some d => (now, d) :: log | None => log end)
      else (p, log)
  end.

Definition runProbe (max : option number) (evs : list ProbeEvent) : AdaptivePoolProbe * list (Z * Z) :=
  foldl probeStep (new_AdaptivePoolProbe max, []) evs.

(** ** Bounds *)

Definition within (n : number) : Prop := num_ge n (minConnections c) = true /\ num_ge (maxConnections c) n = true.

(** Two adjustments in one direction, one after the other, are apart by the cooldown. *)
Fixpoint spaced (log : list (Z * Z)) : Prop :=
  match log with
  | (t, d) :: (((t', d') :: _) as log') => (d = d' -> num_ge (int (t - t')) (cooldownMs c) = true) /\ spaced log'
  | _ => True
  end.

Hypothesis limits : num_ge (maxConnections c) (minConnections c) = true.
Hypothesis step_finite : isFinite (adjustmentStep c) = true.

Lemma num_ge_refl n : n <> NaN -> num_ge n n = true.
Proof. destruct n as [q|[]|]; cbn; try done. intros _. apply Qle_bool_iff, Qle_refl. Qed.

Lemma num_ge_total a b : a <> NaN -> b <> NaN -> num_ge a b = false -> num_ge b a = true.
Proof.
  destruct a as [x|[]|], b as [y|[]|]; cbn; try done. intros _ _ H. apply Qle_bool_iff.
  destruct (Qlt_le_dec y x) as [Hl|]; [|done]. apply Qlt_le_weak, Qle_bool_iff in Hl. congruence.
Qed.

Lemma num_max_unfold a b : a <> NaN -> b <> NaN -> num_max a b = if num_ge a b then a else b.
Proof. by destruct a, b. Qed.

Lemma num_min_unfold a b : a <> NaN -> b <> NaN -> num_min a b = if num_ge a b then b else a.
Proof. by destruct a, b. Qed.

Lemma num_ge_numbers a b : num_ge a b = true -> a <> NaN /\ b <> NaN.
Proof. by destruct a, b. Qed.

Lemma clamp_within n : n <> NaN -> within (clamp n).
Proof.
  intros Hn. destruct (num_ge_numbers _ _ limits) as [Hhi Hlo]. unfold within, clamp.
  rewrite num_max_unfold by done. destruct (num_ge (minConnections c) n) eqn:E1.
  - rewrite num_min_unfold, limits by done. split; [by apply num_ge_refl|done].
  - apply num_ge_total in E1; [|done..]. rewrite num_min_unfold by done.
    destruct (num_ge (maxConnections c) n) eqn:E2; [done|]. split; [done|by apply num_ge_refl].
Qed.

Lemma to_double_number q : to_double q <> NaN.
Proof. unfold to_double. by repeat case_match. Qed.

Lemma moved_within d n : n <> NaN -> within (moved d n).
Proof.
  intros Hn. unfold moved. apply clamp_within. unfold num_sub.
  destruct (adjustmentStep c) as [q|ng|] eqn:E; [|done..].
  destruct (d =? 1); destruct n as [x|nx|]; cbn; try done; apply to_double_number.
Qed.

Lemma getPoolMax_number max : getPoolMax max <> NaN.
Proof. by destruct max as [[]|]. Qed.

(** What the probe keeps between events. *)
Record Kept (max : option number) (w : AdaptivePoolProbe * list (Z * Z)) : Prop := {
  kept_windows : Forall (fun l : list number => (length l <= SAMPLE_WINDOW)%nat)
                   [durationSamplesMs w.1; waitSamplesMs w.1; utilizationSamples w.1];
  kept_size : match poolMax w.1 with Some n => poolMax w.1 = max \/ within n | None => poolMax w.1 = max end;
  kept_first : w.2 = [] -> poolMax w.1 = max;
  kept_last : match w.2 with
              | (t, d) :: _ => lastAdjustmentAt w.1 = t /\ lastAdjustmentDirection w.1 = Some d
              | [] => lastAdjustmentDirection w.1 = None
              end;
  kept_spaced : spaced w.2;
  kept_directions : Forall (fun x => x.2 = 1 \/ x.2 = -1) w.2
}.

Lemma pushSample_length x l : (length l <= SAMPLE_WINDOW)%nat -> (length (pushSample x l) <= SAMPLE_WINDOW)%nat.
Proof.
  intros H. unfold pushSample. destruct (Nat.ltb_spec SAMPLE_WINDOW (length (l ++ [x]))); [|done].
  destruct l; cbn in *; [lia|]. rewrite length_app. cbn. lia.
Qed.

Lemma nextDirection_cases pid p :
  nextDirection pid p = 1 \/ (nextDirection pid p = -1 /\ quiet p = true) \/ nextDirection pid p = 0.
Proof. unfold nextDirection. case_match; [by left|]. case_match; [|by right; right]. right; left. split; [done|]. by apply andb_true_iff in H0 as [_ ?]. Qed.

Lemma num_eqb_refl n : n <> NaN -> num_eqb n n = true.
Proof. destruct n as [q|b|]; cbn; [|by destruct b|done]. intros _. apply Qeq_bool_iff. reflexivity. Qed.

(** An adjustment is one step, in a direction that may be taken. *)
Lemma decision_spec now pid p d n :
  decision now pid p = Some (d, n) ->
  n = moved d (getPoolMax (poolMax p)) /\ canAdjust d now p = true /\ (d = 1 \/ d = -1 /\ quiet p = true).
Proof.
  unfold decision. pose proof (num_eqb_refl _ (getPoolMax_number (poolMax p))) as Hr.
  destruct (nextDirection_cases pid p) as [E|[[E Hq]|E]]; rewrite E; cbn [Z.eqb negb andb].
  - destruct (canAdjust 1 now p) eqn:Hc; [|by rewrite Hr]. destruct (num_eqb (moved _ _) _); [done|]. intros [= <- <-]. auto.
  - destruct (canAdjust (-1) now p) eqn:Hc; [|by rewrite Hr]. destruct (num_eqb (moved _ _) _); [done|]. intros [= <- <-]. auto.
  - by rewrite Hr.
Qed.

Lemma kept_control max p log : Kept max (p, log) -> Kept max ((control p).2, log).
Proof. by intros []. Qed.

Lemma kept_adjusted max p log now d n pid :
  Kept max (p, log) -> decision now pid p = Some (d, n) -> Kept max (setPoolMax now d n p, (now, d) :: log).
Proof.
  intros [H1 H2 H3 H4 H5 H6] (-> & Hc & Hd)%decision_spec. split; cbn in *; [done| |done|done| |].
  - right. apply moved_within, getPoolMax_number.
  - destruct log as [|[t' d'] log]; [done|]. split; [|done]. destruct H4 as [Ht Hl]. intros <-. unfold canAdjust in Hc.
    by rewrite Hl, bool_decide_true, Ht in Hc.
  - constructor; [|done]. cbn. destruct Hd as [->|[-> _]]; auto.
Qed.

Lemma probeStep_kept max w ev : Kept max w -> Kept max (probeStep w ev).
Proof.
  destruct w as [p log]. intros H. destruct ev as [| |d w u|now]; cbn [probeStep].
  - unfold start. destruct (enabled c); by destruct H.
  - by destruct H.
  - destruct H as [H1 H2 H3 H4 H5 H6]. split; cbn in *; [|done..]. inversion_clear H1 as [|? ? Ha Hb].
    inversion_clear Hb as [|? ? Hc Hd]. inversion_clear Hd as [|? ? He _]. repeat (apply Forall_cons; split; [by apply pushSample_length|]). constructor.
  - destruct (interval p); [|done]. unfold evaluate. destruct (_ || _); [done|].
    apply kept_control in H. destruct (control p) as [pid p'] eqn:E. cbn in H.
    destruct (decision now pid p') as [[d n]|] eqn:Ed; [by eapply kept_adjusted|done].
Qed.

Lemma runProbe_kept max evs : Kept max (runProbe max evs).
Proof.
  unfold runProbe. assert (H : Kept max (new_AdaptivePoolProbe max, [])).
  { split; cbn; [repeat constructor; cbn; lia| |done..]. destruct max; auto. }
  revert H. generalize (new_AdaptivePoolProbe max, @nil (Z * Z)). induction evs as [|ev evs IH]; intros w H; [done|].
  by apply IH, probeStep_kept.
Qed.
End probe.

(** the matcher answers true exactly if the text has a place from which the pattern
    describes it. *)
Theorem search_finds re s :
  test re s = true <-> exists before rest, s = before +:+ rest /\ described re (lastChar None before) rest.
Proof. apply search_described. Qed.

(** whatever is sampled and whenever the timer fires, the windows hold at most 200
    samples, the size of the pool is the one it was made with or within the limits,
    adjustments go up or down and two of one direction that follow each other are apart
    by the cooldown; an adjustment is one step, clamped, and a pool shrinks only while
    it is fast and not busy. *)
Theorem pool_size_adjustments c max evs :
  num_ge (maxConnections c) (minConnections c) = true -> isFinite (adjustmentStep c) = true ->
  let '(p, log) := runProbe c max evs in
  Forall (fun l : list number => (length l <= 200)%nat) [durationSamplesMs p; waitSamplesMs p; utilizationSamples p] /\
  (poolMax p = max \/ exists n, poolMax p = Some n /\ within c n) /\
  (log = [] -> poolMax p = max) /\ spaced c log /\ Forall (fun x => x.2 = 1 \/ x.2 = -1) log /\
  forall now d, (evaluate c now p).2 = Some d ->
    let p' := (control c p).2 in
    poolMax (evaluate c now p).1 = Some (moved c d (getPoolMax (poolMax p))) /\ (d = 1 \/ d = -1 /\ quiet c p' = true).
Proof.
  intros Hl Hs. pose proof (runProbe_kept c Hl Hs max evs) as H. destruct (runProbe c max evs) as [p log].
  destruct H as [H1 H2 H3 H4 H5 H6]. cbn [fst snd] in *. split_and!; try done.
  { destruct (poolMax p) as [n|]; [destruct H2 as [?|?]; [by left|right; by exists n]|by left]. }
  intros now d. cbv zeta. unfold evaluate. destruct (_ || _); [done|]. destruct (control c p) as [pid p'] eqn:E.
  assert (Ep : poolMax p' = poolMax p) by (unfold control in E; by injection E as <- <-).
  destruct (decision c now pid p') as [[d' n]|] eqn:Ed; [|done]. intros [= ->].
  apply decision_spec in Ed as (-> & _ & Hd). cbn. split; [by rewrite Ep|done].
Qed.

(** ** Concrete pools *)

Module Examples.
Local Open Scope string_scope.
Local Open Scope list_scope.

Definition dflt : AdaptivePoolConfig := defaultPoolConfig.
Abbreviation go := (runProbe dflt).

Definition slow : ProbeEvent := Sample (int 400) (int 10) (int 1).
Definition fast : ProbeEvent := Sample (int 10) (int 1) (to_double (1 # 10)).

(** A slow pool grows once in the cooldown. *)
Definition overload : list ProbeEvent := [Start; slow; TimerFires 10000; TimerFires 20000; TimerFires 70000].

Definition size (w : AdaptivePoolProbe * list (Z * Z)) : number := getPoolMax (poolMax w.1).

Lemma overload_grows : num_eqb (size (go (Some (int 70)) overload)) (int 80) = true.
Proof. by vm_compute. Qed.

Lemma pool_size_adjustments_witness :
  (go (Some (int 70)) overload).2 = [(70000, 1); (10000, 1)] /\
  (poolMax (go (Some (int 70)) overload).1 = Some (int 70) \/
   exists n, poolMax (go (Some (int 70)) overload).1 = Some n /\ within dflt n).
Proof.
  split; [vm_compute; reflexivity|].
  pose proof (pool_size_adjustments dflt (Some (int 70)) overload eq_refl eq_refl) as H.
  destruct (go (Some (int 70)) overload). exact (proj1 (proj2 H)).
Defined.

(** The integral of the error is never bounded: after ten quiet minutes the pool stays
    at its minimum through the first minutes of a load. *)
Definition quietMinutes : list ProbeEvent := Start :: fast :: ((fun i => TimerFires (10000 * Z.of_nat i)) <$> seq 1 60).
Definition loadedMinutes : list ProbeEvent :=
  repeat slow 200 ++ ((fun i => TimerFires (600000 + 10000 * Z.of_nat i)) <$> seq 1 12).

Lemma integral_winds_up : num_eqb (size (go (Some (int 30)) (quietMinutes ++ loadedMinutes))) (int 5) = true.
Proof. by vm_compute. Qed.

(** A change of direction does not wait for the cooldown. *)
Definition flapping : list ProbeEvent :=
  [Start; slow; TimerFires 10000] ++ repeat fast 200 ++ ((fun i => TimerFires (10000 + 10000 * Z.of_nat i)) <$> seq 1 5).

Lemma reversal_ignores_cooldown : (go (Some (int 70)) flapping).2 = [(40000, -1); (10000, 1)].
Proof. by vm_compute. Qed.

(** A pool made larger than the limit keeps its size, while the target says the limit;
    growing it makes it smaller. *)
Definition small : AdaptivePoolConfig :=
  mkPoolConfig true (int 10000) (int 5) (int 50) (int 5) (int 100) (int 50) (int 60000)
    (int 1) (to_double (1 # 10)) (to_double (5 # 100)).

Lemma target_is_not_the_size :
  targetConnections (new_AdaptivePoolProbe small (Some (int 70))) = int 50 /\
  poolMax (new_AdaptivePoolProbe small (Some (int 70))) = Some (int 70) /\
  num_eqb (size (runProbe small (Some (int 70)) overload)) (int 50) = true.
Proof. by vm_compute. Qed.

(** Each of the two pools may grow to the same limit. *)
Lemma pools_share_limit :
  let busy := Start :: repeat slow 1 ++ ((fun i => TimerFires (60000 * Z.of_nat i)) <$> seq 1 40) in
  num_eqb (size (go (Some (int 70)) busy)) (int 200) = true /\ num_eqb (size (go (Some (int 30)) busy)) (int 200) = true.
Proof. by vm_compute. Qed.

(** The classification of some queries. *)
Lemma classified :
  classifyQuery "" "SELECT * FROM uptime_heartbeat WHERE time > NOW() - INTERVAL '1 hour'" = Oltp /\
  classifyQuery "" "select node_id, date_trunc('day', time) from t group by node_id, date_trunc('day', time)" = Olap /\
  classifyQuery "" "SELECT 1 FROM uptime_hourly_agg_old" = Oltp /\
  classifyQuery "/api/v1/attestations/report" "SELECT count(*) FROM t GROUP BY x" = Oltp /\
  classifyQuery "" "SELECT 'a string that says group by' FROM t" = Olap.
Proof. by vm_compute. Qed.
End Examples.
