(* ===== verification/PoolRouter.v ===== *)
(** * The two pools of the database ([src/src/database/pool_isolation.ts])

    [PriorityRouter] as an event system: queries and transactions wait for a
    connection of a pool, for the timer that spills them over, or for the answer of the
    database.  The pools are [pg]'s: a connection they hand out is not handed out again
    before it is released; their counters and the clock are read in the events.

    [connections_returned_once]: in every run the connections out of the pools are
    exactly those in the hands of the calls in progress, each with one call; none is
    released twice, and a transaction has one of the OLTP pool.
    [router_counts]: the counters are the spillovers and the timeouts of the calls. *)

From Stdlib Require Import ZArith Lia Ascii String.
From stdpp Require Import base numbers list strings gmap.
From S2P Require Import Prelude Js Text Number PoolProbe.
#[local] Open Scope Z_scope.

(** ** State *)

(** What the router keeps of a tier. *)
Record Side := mkSide {
  queryTimeoutTotal : Z;
  durations : list number;                 (* [durationSamplesMs] of the metrics *)
  probe : AdaptivePoolProbe
}.

Inductive Result :=
  | Rows                                   (* the query's answer *)
  | QueryFailed (message : string)
  | NoConnection                           (* [connect] was rejected *)
  | Committed
  | TxFailed (e : string).

(** [spilled]: the call was an OLTP query and goes to the other pool. *)
Inductive Task :=
  | Connecting (t : PoolTier) (spilled : bool) (waitStart : number)
  | Racing (waitStart : number)
  | Querying (t : PoolTier) (spilled : bool) (client : nat) (waitMs execStart : number)
  | TxConnecting
  | Beginning (client : nat)
  | InBody (client : nat)
  | Committing (client : nat)
  | RollingBack (client : nat) (e : string)
  | Ended (t : PoolTier) (spilled : bool) (r : Result).

Record PriorityRouter := mkRouter {
  oltpSide : Side;
  olapSide : Side;
  spilloverTotal : Z;
  out : list (PoolTier * nat);             (* connections handed out *)
  late : nat;                              (* OLTP connections no call waits for any more *)
  releasedTwice : bool;
  tasks : gmap nat Task
}.

Section router.
Context (c : AdaptivePoolConfig).           (* defaults and [config.adaptiveScaling] *)

Definition new_PriorityRouter (oltpMaxConnections olapMaxConnections : option number) : PriorityRouter :=
  let side max := mkSide 0 [] (start c (new_AdaptivePoolProbe c (Some max))) in
  mkRouter (side (default (int 70) oltpMaxConnections)) (side (default (int 30) olapMaxConnections)) 0 [] 0 false ∅.

Definition sideOf (t : PoolTier) (s : PriorityRouter) : Side := match t with Oltp => oltpSide s | Olap => olapSide s end.

Definition set_side (t : PoolTier) (x : Side) (s : PriorityRouter) : PriorityRouter :=
  match t with
  | Oltp => mkRouter x (olapSide s) (spilloverTotal s) (out s) (late s) (releasedTwice s) (tasks s)
  | Olap => mkRouter (oltpSide s) x (spilloverTotal s) (out s) (late s) (releasedTwice s) (tasks s)
  end.
Definition set_task (tid : nat) (t : Task) (s : PriorityRouter) : PriorityRouter :=
  mkRouter (oltpSide s) (olapSide s) (spilloverTotal s) (out s) (late s) (releasedTwice s) (<[tid := t]> (tasks s)).
Definition set_late (n : nat) (s : PriorityRouter) : PriorityRouter :=
  mkRouter (oltpSide s) (olapSide s) (spilloverTotal s) (out s) n (releasedTwice s) (tasks s).

(** ** The pools *)

Definition takeClient (x : PoolTier * nat) (s : PriorityRouter) : PriorityRouter :=
  mkRouter (oltpSide s) (olapSide s) (spilloverTotal s) (x :: out s) (late s) (releasedTwice s) (tasks s).

(** [client.release()], which [pg] refuses the second time *)
Definition release (x : PoolTier * nat) (s : PriorityRouter) : PriorityRouter :=
  mkRouter (oltpSide s) (olapSide s) (spilloverTotal s) (filter (fun y => y <> x) (out s)) (late s)
    (releasedTwice s || negb (bool_decide (x ∈ out s))) (tasks s).

(** ** Queries *)

(** [/statement timeout|canceling statement due to statement timeout|query_timeout/i] *)
Definition isTimeoutError (message : string) : bool :=
  existsb (fun w => test (text w) message) ["statement timeout"; "canceling statement due to statement timeout"; "query_timeout"].

Definition calculateUtilization (t : PoolTier) (totalCount idleCount : Z) (s : PriorityRouter) : number :=
  let max := getPoolMax (poolMax (probe (sideOf t s))) in
  if num_eqb max (int 0) then int 0 else num_div (int (totalCount - idleCount)) max.

Definition recordQuery (t : PoolTier) (ms waitMs utilization : number) (s : PriorityRouter) : PriorityRouter :=
  let x := sideOf t s in
  set_side t (mkSide (queryTimeoutTotal x) (pushSample ms (durations x)) (recordSample ms waitMs utilization (probe x))) s.

Definition countTimeout (t : PoolTier) (s : PriorityRouter) : PriorityRouter :=
  let x := sideOf t s in set_side t (mkSide (queryTimeoutTotal x + 1) (durations x) (probe x)) s.

(** [_exec], to its first await *)
Definition exec (tid : nat) (t : PoolTier) (spilled : bool) (now : number) (s : PriorityRouter) : PriorityRouter :=
  set_task tid (Connecting t spilled now) s.

(** The answer of a query: [catch] and [finally] of [_exec] and of the OLTP path. *)
Definition queryAnswered (tid : nat) (t : PoolTier) (spilled : bool) (client : nat) (waitMs execStart now : number)
    (totalCount idleCount : Z) (answer : string + unit) (s : PriorityRouter) : PriorityRouter :=
  let s := match answer with inl m => if isTimeoutError m then countTimeout t s else s | inr _ => s end in
  let s := recordQuery t (num_sub now execStart) waitMs (calculateUtilization t totalCount idleCount s) s in
  set_task tid (Ended t spilled match answer with inl m => QueryFailed m | inr _ => Rows end) (release (t, client) s).

Definition query (tid : nat) (tier : option PoolTier) (route queryText : string) (idleCount : Z) (now : number)
    (s : PriorityRouter) : PriorityRouter :=
  match default (classifyQuery route queryText) tier with
  | Olap => exec tid Olap false now s
  | Oltp => if 0 <? idleCount then exec tid Oltp false now s else set_task tid (Racing now) s
  end.

(** The timer of [_execOltpWithSpillover] wins the race. *)
Definition spillOver (tid : nat) (now : number) (s : PriorityRouter) : PriorityRouter :=
  exec tid Olap true now
    (mkRouter (oltpSide s) (olapSide s) (spilloverTotal s + 1) (out s) (S (late s)) (releasedTwice s) (tasks s)).

(** ** Transactions *)

Definition txEnds (tid client : nat) (r : Result) (s : PriorityRouter) : PriorityRouter :=
  set_task tid (Ended Oltp false r) (release (Oltp, client) s).

(** The answer to BEGIN, to the function given, to COMMIT or to ROLLBACK. *)
Definition txAnswered (tid : nat) (task : Task) (answer : string + unit) (s : PriorityRouter) : PriorityRouter :=
  match task, answer with
  | Beginning client, inr _ => set_task tid (InBody client) s
  | InBody client, inr _ => set_task tid (Committing client) s
  | Committing client, inr _ => txEnds tid client Committed s
  | (Beginning client | InBody client | Committing client), inl e => set_task tid (RollingBack client e) s
  | RollingBack client e, inr _ => txEnds tid client (TxFailed e) s
  | RollingBack client _, inl e' => txEnds tid client (TxFailed e') s
  | _, _ => s
  end.

(** ** Runs *)

Inductive RouterEvent :=
  | Query (tid : nat) (tier : option PoolTier) (route queryText : string) (idleCount : Z) (now : number)
  | Transaction (tid : nat)
  | Connected (tid client : nat) (now : number)
  | ConnectRejected (tid : nat) (e : string)
  | SpillTimer (tid : nat) (now : number)
  | LateConnected (client : nat)
  | LateRejected
  | QueryAnswer (tid : nat) (now : number) (totalCount idleCount : Z) (answer : string + unit)
  | TxAnswer (tid : nat) (answer : string + unit)
  | ProbeTimer (t : PoolTier) (now : Z)
  | Close.

Definition fresh (x : PoolTier * nat) (s : PriorityRouter) : bool := negb (bool_decide (x ∈ out s)).

Definition onProbe (t : PoolTier) (f : AdaptivePoolProbe -> AdaptivePoolProbe) (s : PriorityRouter) : PriorityRouter :=
  let x := sideOf t s in set_side t (mkSide (queryTimeoutTotal x) (durations x) (f (probe x))) s.

(** A pool answers [connect]. *)
Definition connected (tid client : nat) (now : number) (task : Task) (s : PriorityRouter) : PriorityRouter :=
  match task with
  | Connecting t spilled waitStart =>
      if fresh (t, client) s
      then set_task tid (Querying t spilled client (num_sub now waitStart) now) (takeClient (t, client) s) else s
  | Racing waitStart =>
      if fresh (Oltp, client) s
      then set_task tid (Querying Oltp false client (num_sub now waitStart) now) (takeClient (Oltp, client) s) else s
  | TxConnecting =>
      if fresh (Oltp, client) s then set_task tid (Beginning client) (takeClient (Oltp, client) s) else s
  | _ => s
  end.

Definition connectRejected (tid : nat) (task : Task) (s : PriorityRouter) : PriorityRouter :=
  match task with
  | Connecting t spilled _ => set_task tid (Ended t spilled NoConnection) s
  | Racing _ | TxConnecting => set_task tid (Ended Oltp false NoConnection) s
  | _ => s
  end.

Definition routerStep (s : PriorityRouter) (ev : RouterEvent) : PriorityRouter :=
  match ev with
  | Query tid tier route queryText idleCount now =>
      match tasks s !! tid with None => query tid tier route queryText idleCount now s | Some _ => s end
  | Transaction tid => match tasks s !! tid with None => set_task tid TxConnecting s | Some _ => s end
  | Connected tid client now => match tasks s !! tid with Some task => connected tid client now task s | None => s end
  | ConnectRejected tid _ => match tasks s !! tid with Some task => connectRejected tid task s | None => s end
  | SpillTimer tid now => match tasks s !! tid with Some (Racing _) => spillOver tid now s | _ => s end
  | LateConnected client =>
      (* released as soon as it arrives *)
      if (0 <? late s)%nat && fresh (Oltp, client) s
      then release (Oltp, client) (takeClient (Oltp, client) (set_late (pred (late s)) s)) else s
  | LateRejected => set_late (pred (late s)) s
  | QueryAnswer tid now total idle answer =>
      match tasks s !! tid with
      | Some (Querying t spilled client waitMs execStart) =>
          queryAnswered tid t spilled client waitMs execStart now total idle answer s
      | _ => s
      end
  | TxAnswer tid answer => match tasks s !! tid with Some task => txAnswered tid task answer s | None => s end
  | ProbeTimer t now => onProbe t (fun p => if interval p then (evaluate c now p).1 else p) s
  | Close => onProbe Olap stop (onProbe Oltp stop s)
  end.

Definition runRouter (s : PriorityRouter) (evs : list RouterEvent) : PriorityRouter := foldl routerStep s evs.

(** The rolling average of [pool_wait_duration_seconds]; [None]: ['0'] *)
Definition avgWaitSec (t : PoolTier) (s : PriorityRouter) : option number :=
  match durations (sideOf t s) with
  | [] => None
  | l => Some (num_div (num_div (foldl num_add (int 0) l) (int (Z.of_nat (length l)))) (int 1000))
  end.

(** ** Connections *)

Definition held (t : Task) : option (PoolTier * nat) :=
  match t with
  | Querying t _ client _ _ => Some (t, client)
  | Beginning client | InBody client | Committing client | RollingBack client _ => Some (Oltp, client)
  | _ => None
  end.
Definition heldBy (s : PriorityRouter) (tid : nat) : option (PoolTier * nat) := tasks s !! tid ≫= held.

Record Held (s : PriorityRouter) : Prop := {
  held_nodup : NoDup (out s);
  held_out x : x ∈ out s <-> exists tid, heldBy s tid = Some x;
  held_once tid tid' x : heldBy s tid = Some x -> heldBy s tid' = Some x -> tid = tid';
  held_never_twice : releasedTwice s = false
}.

Lemma held_same s s' :
  Held s -> out s' = out s -> releasedTwice s' = releasedTwice s -> tasks s' = tasks s -> Held s'.
Proof. intros [H0 H1 H2 H3] Eo Er Et. unfold heldBy in *. split; unfold heldBy; by rewrite ?Eo, ?Er, ?Et. Qed.

Lemma heldBy_set tid t s tid' : heldBy (set_task tid t s) tid' = if decide (tid = tid') then held t else heldBy s tid'.
Proof. unfold heldBy. cbn. rewrite lookup_insert. by case_decide. Qed.

(** A task goes on with the connection it has, or without one. *)
Lemma held_goes_on tid t s : Held s -> held t = heldBy s tid -> Held (set_task tid t s).
Proof.
  intros [H0 H1 H2 H3] E. assert (Eq : forall tid', heldBy (set_task tid t s) tid' = heldBy s tid').
  { intros tid'. rewrite heldBy_set. case_decide; [by subst|done]. }
  split; cbn.
  - done.
  - intros x. rewrite H1. by setoid_rewrite Eq.
  - intros tid1 tid2 x. rewrite !Eq. apply H2.
  - done.
Qed.

Lemma held_takes tid t x s :
  Held s -> heldBy s tid = None -> held t = Some x -> fresh x s = true -> Held (set_task tid t (takeClient x s)).
Proof.
  intros [H0 H1 H2 H3] Hn Ht Hf. unfold fresh in Hf. apply negb_true_iff, bool_decide_eq_false in Hf.
  assert (Eq : forall tid', heldBy (set_task tid t (takeClient x s)) tid' = if decide (tid = tid') then Some x else heldBy s tid').
  { intros tid'. rewrite heldBy_set. by case_decide. }
  split; cbn; [by constructor| | |done].
  - intros y. rewrite elem_of_cons, H1. split.
    + intros [->|[tid' E]]; [exists tid|exists tid']; rewrite Eq; case_decide; congruence.
    + intros [tid' E]. rewrite Eq in E. case_decide; [left; congruence|right; by exists tid'].
  - intros t1 t2 y. rewrite !Eq. intros E1 E2. repeat case_decide; simplify_eq; try done; try (by eapply H2);
      exfalso; apply Hf, H1; eauto.
Qed.

Lemma held_releases tid t x s :
  Held s -> heldBy s tid = Some x -> held t = None -> Held (set_task tid t (release x s)).
Proof.
  intros [H0 H1 H2 H3] Hx Ht.
  assert (Eq : forall tid', heldBy (set_task tid t (release x s)) tid' = if decide (tid = tid') then None else heldBy s tid').
  { intros tid'. rewrite heldBy_set. by case_decide. }
  split; cbn.
  - by apply NoDup_filter.
  - intros y. rewrite list_elem_of_filter, H1. split.
    + intros [Hne [tid' E]]. exists tid'. rewrite Eq. case_decide; [congruence|done].
    + intros [tid' E]. rewrite Eq in E. case_decide; [done|]. split; [|by exists tid'].
      intros ->. apply H. by eapply H2.
  - intros t1 t2 y. rewrite !Eq. repeat case_decide; try done. apply H2.
  - rewrite H3, bool_decide_true; [done|]. apply H1. by exists tid.
Qed.

(** A connection that nobody waits for is handed out and released. *)
Lemma held_passes_through x s : Held s -> fresh x s = true -> Held (release x (takeClient x s)).
Proof.
  intros [H0 H1 H2 H3] Hf. unfold fresh in Hf. apply negb_true_iff, bool_decide_eq_false in Hf. split; cbn; [|  |done|].
  - rewrite decide_False by (intros H; by apply H). by apply NoDup_filter.
  - intros y. rewrite decide_False by (intros H; by apply H). rewrite list_elem_of_filter, H1. split; [by intros []|].
    intros Hy. split; [|done]. intros ->. by apply Hf, H1.
  - rewrite H3, bool_decide_true; [done|]. by left.
Qed.

Lemma txAnswered_held tid task answer s : Held s -> tasks s !! tid = Some task -> Held (txAnswered tid task answer s).
Proof.
  intros H E. assert (Eh : heldBy s tid = held task) by (unfold heldBy; by rewrite E).
  destruct task, answer; cbn; try done; first [by apply held_goes_on|by apply held_releases].
Qed.

Lemma connected_held tid client now task s : Held s -> tasks s !! tid = Some task -> Held (connected tid client now task s).
Proof.
  intros H E. assert (Eh : heldBy s tid = held task) by (unfold heldBy; by rewrite E).
  destruct task; cbn; try done; destruct (fresh _ s) eqn:Ef; try done; by apply held_takes.
Qed.

Lemma queryAnswered_out tid t sp client w e now tot idl a s :
  exists s', queryAnswered tid t sp client w e now tot idl a s =
    set_task tid (Ended t sp match a with inl m => QueryFailed m | inr _ => Rows end) (release (t, client) s') /\
    out s' = out s /\ releasedTwice s' = releasedTwice s /\ tasks s' = tasks s.
Proof. eexists. split; [reflexivity|]. unfold recordQuery, countTimeout, set_side. by destruct a as [m|], t; try destruct (isTimeoutError m). Qed.

Lemma routerStep_held s ev : Held s -> Held (routerStep s ev).
Proof.
  intros H. destruct ev as [tid tier route qt idle now|tid|tid client now|tid e|tid now|client| |tid now tot idl a|tid a|t now|];
    cbn [routerStep].
  - destruct (tasks s !! tid) eqn:E; [done|]. assert (Eh : heldBy s tid = None) by (unfold heldBy; by rewrite E).
    unfold query, exec. destruct (default _ tier); [destruct (0 <? idle)|]; by apply held_goes_on.
  - destruct (tasks s !! tid) eqn:E; [done|]. apply held_goes_on; [done|]. unfold heldBy. by rewrite E.
  - destruct (tasks s !! tid) eqn:E; [|done]. by apply connected_held.
  - destruct (tasks s !! tid) as [task|] eqn:E; [|done]. assert (Eh : heldBy s tid = held task) by (unfold heldBy; by rewrite E).
    destruct task; cbn; try done; by apply held_goes_on.
  - destruct (tasks s !! tid) as [[]|] eqn:E; try done. unfold spillOver, exec. apply held_goes_on; [by apply (held_same s)|].
    unfold heldBy. cbn. by rewrite E.
  - destruct (_ && _) eqn:E; [|done]. apply andb_true_iff in E as [_ E]. by apply held_passes_through; [apply (held_same s)|].
  - by apply (held_same s).
  - destruct (tasks s !! tid) as [[]|] eqn:E; try done.
    destruct (queryAnswered_out tid t spilled client waitMs execStart now tot idl a s) as (s' & -> & Eo & Er & Et).
    apply held_releases; [by apply (held_same s)| |done]. unfold heldBy. by rewrite Et, E.
  - destruct (tasks s !! tid) as [task|] eqn:E; [|done]. by apply txAnswered_held.
  - apply (held_same s); by destruct t.
  - by apply (held_same s).
Qed.

(** ** Counters *)

Definition count {A} (P : A -> bool) (m : gmap nat A) : nat := size (filter (fun kv => P kv.2 = true) m).
Definition marked {A} (P : A -> bool) (o : option A) : nat := match o with Some x => if P x then 1%nat else 0%nat | None => 0%nat end.

Lemma count_insert {A} (P : A -> bool) (m : gmap nat A) k x :
  (count P (<[k := x]> m) + marked P (m !! k) = count P m + marked P (Some x))%nat.
Proof.
  assert (Hnew : forall (m' : gmap nat A) y, m' !! k = None -> count P (<[k := y]> m') = (count P m' + marked P (Some y))%nat).
  { intros m' y Hn. unfold count. cbn. destruct (P y) eqn:E.
    - rewrite map_filter_insert_True by done. rewrite map_size_insert_None; [lia|]. apply map_lookup_filter_None. by left.
    - rewrite map_filter_insert_False by (cbn; congruence). rewrite delete_id by done. lia. }
  destruct (m !! k) as [y|] eqn:E; [|rewrite Hnew by done; cbn; lia].
  rewrite <- (insert_delete_id m k y E) at 2. rewrite <- insert_delete_eq, !Hnew by apply lookup_delete_eq. lia.
Qed.

Definition isSpilled (t : Task) : bool :=
  match t with Connecting _ sp _ | Querying _ sp _ _ _ | Ended _ sp _ => sp | _ => false end.
Definition timedOut (tier : PoolTier) (t : Task) : bool :=
  match t with Ended t' _ (QueryFailed m) => bool_decide (t' = tier) && isTimeoutError m | _ => false end.
Definition answered (tier : PoolTier) (t : Task) : bool :=
  match t with Ended t' _ (Rows | QueryFailed _) => bool_decide (t' = tier) | _ => false end.

Record Counted (s : PriorityRouter) : Prop := {
  counted_spills : spilloverTotal s = Z.of_nat (count isSpilled (tasks s));
  counted_timeouts t : queryTimeoutTotal (sideOf t s) = Z.of_nat (count (timedOut t) (tasks s));
  counted_samples t : length (durations (sideOf t s)) = Nat.min SAMPLE_WINDOW (count (answered t) (tasks s))
}.

Lemma counted_same s s' :
  Counted s -> tasks s' = tasks s -> spilloverTotal s' = spilloverTotal s ->
  (forall t, queryTimeoutTotal (sideOf t s') = queryTimeoutTotal (sideOf t s) /\ durations (sideOf t s') = durations (sideOf t s)) ->
  Counted s'.
Proof.
  intros [H1 H2 H3] Et Es Ed. split; rewrite ?Et, ?Es; [done| |]; intros t; destruct (Ed t) as [E1 E2]; rewrite ?E1, ?E2; auto.
Qed.

(** A task goes on, or ends without a query having been answered. *)
Lemma counted_goes_on tid t s :
  Counted s -> marked isSpilled (tasks s !! tid) = marked isSpilled (Some t) ->
  (forall tier, marked (timedOut tier) (tasks s !! tid) = marked (timedOut tier) (Some t)) ->
  (forall tier, marked (answered tier) (tasks s !! tid) = marked (answered tier) (Some t)) -> Counted (set_task tid t s).
Proof.
  intros [H1 H2 H3] Es Et Ea. split; cbn [set_task tasks spilloverTotal].
  - rewrite H1. pose proof (count_insert isSpilled (tasks s) tid t). lia.
  - intros tier. specialize (H2 tier). specialize (Et tier). pose proof (count_insert (timedOut tier) (tasks s) tid t).
    destruct tier; cbn in *; lia.
  - intros tier. specialize (H3 tier). specialize (Ea tier). pose proof (count_insert (answered tier) (tasks s) tid t).
    destruct tier; cbn [sideOf set_task oltpSide olapSide] in *; lia.
Qed.

Lemma pushSample_window x l n :
  length l = Nat.min SAMPLE_WINDOW n -> length (pushSample x l) = Nat.min SAMPLE_WINDOW (S n).
Proof.
  intros H. unfold pushSample. assert (Ht : forall l' : list number, length (tail l') = pred (length l')) by (by intros []).
  rewrite length_app. change (length [x]) with 1%nat.
  destruct (Nat.ltb_spec SAMPLE_WINDOW (length l + 1)); rewrite ?Ht, length_app; change (length [x]) with 1%nat; lia.
Qed.

Lemma counted_answer tid t sp client w e now tot idl a s :
  Counted s -> tasks s !! tid = Some (Querying t sp client w e) ->
  Counted (queryAnswered tid t sp client w e now tot idl a s).
Proof.
  intros [H1 H2 H3] E.
  set (s' := queryAnswered tid t sp client w e now tot idl a s).
  set (x := Ended t sp match a with inl m => QueryFailed m | inr _ => Rows end).
  set (b := match a with inl m => isTimeoutError m | inr _ => false end).
  assert (Et : tasks s' = <[tid := x]> (tasks s)).
  { unfold s', queryAnswered, recordQuery, countTimeout, set_side. by destruct a as [m|], t; try destruct (isTimeoutError m). }
  assert (Es : spilloverTotal s' = spilloverTotal s).
  { unfold s', queryAnswered, recordQuery, countTimeout, set_side. by destruct a as [m|], t; try destruct (isTimeoutError m). }
  assert (Eq : forall tier, queryTimeoutTotal (sideOf tier s') =
    queryTimeoutTotal (sideOf tier s) + if bool_decide (t = tier) && b then 1 else 0).
  { intros tier. unfold s', b, queryAnswered, recordQuery, countTimeout, set_side.
    destruct a as [m|], t, tier; try destruct (isTimeoutError m);
      first [rewrite bool_decide_true by done|rewrite bool_decide_false by done]; cbn; lia. }
  assert (Ed : forall tier, durations (sideOf tier s') =
    if bool_decide (t = tier) then pushSample (num_sub now e) (durations (sideOf tier s)) else durations (sideOf tier s)).
  { intros tier. unfold s', queryAnswered, recordQuery, countTimeout, set_side.
    destruct a as [m|], t, tier; try destruct (isTimeoutError m);
      by first [rewrite bool_decide_true by done|rewrite bool_decide_false by done]. }
  split.
  - rewrite Es, Et, H1. pose proof (count_insert isSpilled (tasks s) tid x) as Hc. rewrite E in Hc. cbn in Hc. lia.
  - intros tier. rewrite Eq, Et, H2. pose proof (count_insert (timedOut tier) (tasks s) tid x) as Hc. rewrite E in Hc.
    unfold x, b in *. destruct a as [m|]; cbn in *; [|rewrite andb_false_r]; [destruct (bool_decide _ && _)|]; lia.
  - intros tier. rewrite Ed, Et. pose proof (count_insert (answered tier) (tasks s) tid x) as Hc. rewrite E in Hc.
    assert (Hm : marked (answered tier) (Some x) = if bool_decide (t = tier) then 1%nat else 0%nat)
      by (unfold x; by destruct a; cbn; destruct (bool_decide _)).
    rewrite Hm in Hc. cbn [marked answered] in Hc. destruct (bool_decide (t = tier)).
    + replace (count _ _) with (S (count (answered tier) (tasks s))) by lia. by apply pushSample_window.
    + replace (count _ _) with (count (answered tier) (tasks s)) by lia. apply H3.
Qed.

Lemma counted_spill tid start now s :
  Counted s -> tasks s !! tid = Some (Racing start) -> Counted (spillOver tid now s).
Proof.
  intros [H1 H2 H3] E. unfold spillOver, exec. split; cbn [set_task tasks spilloverTotal].
  - pose proof (count_insert isSpilled (tasks s) tid (Connecting Olap true now)) as Hc. rewrite E in Hc. cbn in Hc. lia.
  - intros tier. pose proof (count_insert (timedOut tier) (tasks s) tid (Connecting Olap true now)) as Hc.
    rewrite E in Hc. cbn in Hc. specialize (H2 tier). destruct tier; cbn in *; lia.
  - intros tier. pose proof (count_insert (answered tier) (tasks s) tid (Connecting Olap true now)) as Hc.
    rewrite E in Hc. cbn in Hc. specialize (H3 tier). destruct tier; cbn [sideOf set_task oltpSide olapSide] in *; lia.
Qed.

Ltac goes_on s E := apply counted_goes_on; [by apply (counted_same s); [..|intros []]|by cbn; rewrite ?E..].

Lemma routerStep_counted s ev : Counted s -> Counted (routerStep s ev).
Proof.
  intros H. destruct ev as [tid tier route qt idle now|tid|tid client now|tid e|tid now|client| |tid now tot idl a|tid a|t now|];
    cbn [routerStep].
  - destruct (tasks s !! tid) eqn:E; [done|].
    unfold query, exec. destruct (default _ tier); [destruct (0 <? idle)|]; goes_on s E.
  - destruct (tasks s !! tid) eqn:E; [done|]. goes_on s E.
  - destruct (tasks s !! tid) as [[]|] eqn:E; try done; cbn; destruct (fresh _ s); try done; goes_on s E.
  - destruct (tasks s !! tid) as [[]|] eqn:E; try done; cbn; goes_on s E.
  - destruct (tasks s !! tid) as [[]|] eqn:E; try done. by eapply counted_spill.
  - destruct (_ && _); [|done]. by apply (counted_same s).
  - by apply (counted_same s).
  - destruct (tasks s !! tid) as [[]|] eqn:E; try done. by apply counted_answer.
  - destruct (tasks s !! tid) as [[]|] eqn:E; try done; destruct a; cbn; try done; goes_on s E.
  - apply (counted_same s); [done|by destruct t..|]. by destruct t; intros [].
  - by apply (counted_same s); [..|intros []].
Qed.

Lemma new_held a b : Held (new_PriorityRouter a b).
Proof.
  split; cbn; [constructor| |by intros ? ? ?; unfold heldBy; cbn; rewrite lookup_empty|done].
  intros x. split; [by intros ?%elem_of_nil|]. intros [tid E]. unfold heldBy in E. cbn in E. by rewrite lookup_empty in E.
Qed.

Lemma new_counted a b : Counted (new_PriorityRouter a b).
Proof. split; cbn; [done|by intros []..]. Qed.

Lemma run_kept (P : PriorityRouter -> Prop) s evs :
  (forall s ev, P s -> P (routerStep s ev)) -> P s -> P (runRouter s evs).
Proof. intros Hs. unfold runRouter. revert s. induction evs as [|ev evs IH]; intros s H; [done|]. by apply IH, Hs. Qed.
End router.

(** C17: in every run the connections out of the pools are exactly those in the hands of
    the calls in progress, each in the hands of one call; none is released twice, and
    when all calls have ended every connection has been given back. *)
Theorem connections_returned_once c oltpMax olapMax evs :
  let s := runRouter c (new_PriorityRouter c oltpMax olapMax) evs in
  NoDup (out s) /\ (forall x, x ∈ out s <-> exists tid, heldBy s tid = Some x) /\
  (forall tid tid' x, heldBy s tid = Some x -> heldBy s tid' = Some x -> tid = tid') /\
  releasedTwice s = false /\
  ((forall tid task, tasks s !! tid = Some task -> exists t spilled r, task = Ended t spilled r) -> out s = []).
Proof.
  cbn zeta. pose proof (run_kept c Held (new_PriorityRouter c oltpMax olapMax) evs (routerStep_held c) (new_held c _ _)) as H.
  revert H. generalize (runRouter c (new_PriorityRouter c oltpMax olapMax) evs). intros s [H0 H1 H2 H3].
  split_and!; try done. intros Hall. destruct (out s) as [|x l] eqn:E; [done|]. exfalso.
  destruct (proj1 (H1 x) ltac:(left)) as [tid Hx]. unfold heldBy in Hx.
  destruct (tasks s !! tid) as [task|] eqn:Et; [|done]. by destruct (Hall _ _ Et) as (t & sp & r & ->).
Qed.

(** the counters are the spillovers and, of each tier, the queries that ended with a
    timeout; the samples are one for each query answered, up to 200. *)
Theorem router_counts c oltpMax olapMax evs :
  let s := runRouter c (new_PriorityRouter c oltpMax olapMax) evs in
  spilloverTotal s = Z.of_nat (count isSpilled (tasks s)) /\
  forall t, queryTimeoutTotal (sideOf t s) = Z.of_nat (count (timedOut t) (tasks s)) /\
            length (durations (sideOf t s)) = Nat.min 200 (count (answered t) (tasks s)).
Proof.
  cbn zeta.
  pose proof (run_kept c Counted (new_PriorityRouter c oltpMax olapMax) evs (routerStep_counted c) (new_counted c _ _)) as H.
  split; [apply H|]. intros t. split; [apply H|]. apply (counted_samples _ H).
Qed.

(** ** Concrete runs *)

Module Examples.
Local Open Scope string_scope.
Local Open Scope list_scope.

Abbreviation go := (fun evs => runRouter defaultPoolConfig (new_PriorityRouter defaultPoolConfig None None) evs).
Definition at_ (n : Z) : number := int n.

(** A query whose connection takes too long runs on the other pool; the connection it
    asked for first goes back as it comes. *)
Definition spilled : list RouterEvent :=
  [Query 1 None "" "SELECT 1" 0 (at_ 0); SpillTimer 1 (at_ 100); LateConnected 4; Connected 1 9 (at_ 120);
   QueryAnswer 1 (at_ 500) 30 29 (inl "ERROR: canceling statement due to Statement Timeout")].

Lemma spilled_times_out :
  spilloverTotal (go spilled) = 1 /\ queryTimeoutTotal (olapSide (go spilled)) = 1 /\
  queryTimeoutTotal (oltpSide (go spilled)) = 0 /\ out (go spilled) = [] /\
  tasks (go spilled) !! 1%nat = Some (Ended Olap true (QueryFailed "ERROR: canceling statement due to Statement Timeout")).
Proof. by vm_compute. Qed.

(** What a transaction failed with is not told if ROLLBACK fails too. *)
Lemma rollback_error_hides_cause :
  tasks (go [Transaction 1; Connected 1 7 (at_ 0); TxAnswer 1 (inr tt); TxAnswer 1 (inl "duplicate key");
             TxAnswer 1 (inl "connection terminated")]) !! 1%nat =
  Some (Ended Oltp false (TxFailed "connection terminated")).
Proof. by vm_compute. Qed.

(** The duration of a sample begins when the connection is there: the wait is not in the
    average that is named after it. *)
Lemma wait_not_averaged :
  durations (oltpSide (go [Query 1 None "" "SELECT 1" 1 (at_ 0); Connected 1 7 (at_ 400); QueryAnswer 1 (at_ 401) 1 0 (inr tt)])) =
  [num_sub (at_ 401) (at_ 400)].
Proof. by vm_compute. Qed.
End Examples.
