(* ===== verification/SecretRotation.v ===== *)
(** * Rotation of secrets ([src/src/security/secret_rotation.ts])

    The service over a store of secrets and versions, as calls over the tasks of
    [Tasks]: every operation of the store, the generator and the hooks is an await,
    and can be rejected.  The store takes effect when it answers; ids of versions do
    not repeat, hashes are an argument of the model, and what the hooks do elsewhere
    is left out.

    [secrets_keep_their_versions]: however calls overlap and fail, the current version
    of every secret is stored, versions keep their values, and a rotation that reports
    success introduced a new one.
    [rotation_alone]: what a rotation that nothing disturbs leaves in the store. *)

From Stdlib Require Import ZArith Lia Ascii String.
From stdpp Require Import base numbers list strings gmap.
From S2P Require Import Prelude Js Text Tasks.
#[local] Open Scope Z_scope.

Inductive SecretKind := DatabaseSecret | ApiKey.
Inductive RotationPhase := Idle | Preparing | Canary | Promoting | Complete | PhaseFailed | RolledBack.
#[export] Instance RotationPhase_eq_dec : EqDecision RotationPhase.
Proof. solve_decision. Defined.

Record SecretVersion := mkVersion {
  v_id : string;
  v_value : string;
  v_createdAt : Z;
  activatedAt : option Z;
  retiredAt : option Z;
  labels : gmap string string
}.

Record SecretDescriptor := mkSecret {
  s_name : string;
  kind : SecretKind;
  currentVersionId : string;
  previousVersionId : option string;
  rotateAfter : Z;
  s_canaryPercent : Z;
  phase : RotationPhase;
  lastRotatedAt : option Z;
  lastError : option string
}.

Record Metrics := mkMetrics {
  rotationsStarted : Z;
  rotationsSucceeded : Z;
  rotationsFailed : Z;
  rollbacks : Z;
  activeCanaries : Z;
  lastDurationMs : Z
}.

Record RotationResult := mkResult {
  r_name : string;
  r_phase : RotationPhase;
  oldVersionId : string;
  newVersionId : option string;
  durationMs : Z;
  r_canaryPercent : Z;
  r_error : option string
}.

Definition DEFAULT_ROTATION_INTERVAL_MS : Z := 30 * 24 * 60 * 60 * 1000.
Definition DEFAULT_CANARY_PERCENT : Z := 5.

(** A character of the class [a-zA-Z0-9_.:/-] *)
Definition secretChar (c : ascii) : bool :=
  let n := code c in
  ((65 <=? n)%nat && (n <=? 90)%nat) || ((97 <=? n)%nat && (n <=? 122)%nat) || is_digit c ||
  bool_decide (c ∈ ["_"; "."; ":"; "/"; "-"]%char).

Definition validName (name : string) : bool :=
  (3 <=? String.length name)%nat && (String.length name <=? 128)%nat && all_chars secretChar name.

(** The store, the clock, and the service; [born]: the value each id was issued for. *)
Record State := mkState {
  secrets : jsmap string SecretDescriptor;
  versions : gmap (string * string) SecretVersion;
  metrics : Metrics;
  clock : Z;
  issued : nat;
  born : gmap string string
}.

Definition set_secrets (x : jsmap string SecretDescriptor) (s : State) : State :=
  mkState x (versions s) (metrics s) (clock s) (issued s) (born s).
Definition set_versions (x : gmap (string * string) SecretVersion) (s : State) : State :=
  mkState (secrets s) x (metrics s) (clock s) (issued s) (born s).
Definition set_metrics (f : Metrics -> Metrics) (s : State) : State :=
  mkState (secrets s) (versions s) (f (metrics s)) (clock s) (issued s) (born s).

Definition started (m : Metrics) : Metrics :=
  mkMetrics (rotationsStarted m + 1) (rotationsSucceeded m) (rotationsFailed m) (rollbacks m) (activeCanaries m) (lastDurationMs m).
Definition succeeded (ms : Z) (m : Metrics) : Metrics :=
  mkMetrics (rotationsStarted m) (rotationsSucceeded m + 1) (rotationsFailed m) (rollbacks m) (activeCanaries m) ms.
Definition failed (ms : Z) (m : Metrics) : Metrics :=
  mkMetrics (rotationsStarted m) (rotationsSucceeded m) (rotationsFailed m + 1) (rollbacks m) (activeCanaries m) ms.
Definition canaryBegins (m : Metrics) : Metrics :=
  mkMetrics (rotationsStarted m) (rotationsSucceeded m) (rotationsFailed m) (rollbacks m) (activeCanaries m + 1) (lastDurationMs m).
Definition canaryEnds (m : Metrics) : Metrics :=
  mkMetrics (rotationsStarted m) (rotationsSucceeded m) (rotationsFailed m) (rollbacks m)
    (Z.max 0 (activeCanaries m - 1)) (lastDurationMs m).
Definition rolledBack (m : Metrics) : Metrics :=
  canaryEnds (mkMetrics (rotationsStarted m) (rotationsSucceeded m) (rotationsFailed m) (rollbacks m + 1)
                (activeCanaries m) (lastDurationMs m)).

Definition new_State (now : Z) : State := mkState ∅ ∅ (mkMetrics 0 0 0 0 0 0) now 0 ∅.

Section service.
Context (sha256 : string -> string).        (* hexadecimal *)
Context (versionIdFactory : nat -> string).
Context (canaryPercent rotationIntervalMs : Z).

Abbreviation IO := (io State string).
#[local] Notation "'wait' x := p 'in' q" := (io_bind p (fun x => q))
  (at level 200, x name, p at level 100, q at level 200, right associativity).

Definition fingerprint (v : string) : string := String.substring 0 16 (sha256 v).
Definition newLabels (state v : string) : gmap string string := {["state" := state; "fingerprint" := fingerprint v]}.

(** *** The store *)

Definition getSecret (name : string) : IO (option SecretDescriptor) := awaiting (fun s => (s, inr (secrets s !! name))).
Definition listSecrets : IO (list SecretDescriptor) := awaiting (fun s => (s, inr (map_values (secrets s)))).

Definition invalidName : string :=
  "Secret name must be 3-128 chars and contain only letters, numbers, _, ., :, /, or -".

Definition putSecret (d : SecretDescriptor) : IO unit :=
  awaiting (fun s =>
    if validName (s_name d) then (set_secrets (<[s_name d := d]> (secrets s)) s, inr tt) else (s, inl invalidName)).
Definition getVersion (name id : string) : IO (option SecretVersion) :=
  awaiting (fun s => (s, inr (versions s !! (name, id)))).
Definition putVersion (name : string) (v : SecretVersion) : IO unit :=
  awaiting (fun s =>
    if validName name then (set_versions (<[(name, v_id v) := v]> (versions s)) s, inr tt) else (s, inl invalidName)).

Definition requiredSecret (name : string) : IO SecretDescriptor :=
  wait o := getSecret name in match o with Some d => Done d | None => Fails ("Secret not found: " +:+ name) end.
Definition requiredVersion (name id : string) : IO SecretVersion :=
  wait o := getVersion name id in
  match o with Some v => Done v | None => Fails ("Secret version not found: " +:+ name +:+ "@" +:+ id) end.

(** *** The service *)

Definition now : IO Z := Sync (fun s => (s, clock s)) Done.
Definition count (f : Metrics -> Metrics) : IO unit := Sync (fun s => (set_metrics f s, tt)) Done.

(** A version with a new id, labelled as it is. *)
Definition newVersion (state value : string) (createdAt : Z) (activated : option Z) (s : State) : State * SecretVersion :=
  let id := versionIdFactory (issued s) in
  (mkState (secrets s) (versions s) (metrics s) (clock s) (S (issued s)) (<[id := value]> (born s)),
   mkVersion id value createdAt activated None (newLabels state value)).

Definition registerSecret (name : string) (k : SecretKind) (initialValue : string) (after : option Z) : IO SecretDescriptor :=
  if negb (validName name) then Fails invalidName
  else if falsy initialValue then Fails "Initial secret value must not be empty"
  else
    wait t := now in
    Sync (newVersion "current" initialValue t (Some t)) (fun version =>
    let descriptor :=
      mkSecret name k (v_id version) None (default (t + rotationIntervalMs) after) 0 Idle (Some t) None in
    wait _u := putVersion name version in
    wait _v := putSecret descriptor in
    Done descriptor).

Definition due (t : Z) (d : SecretDescriptor) : bool := negb (bool_decide (phase d = Canary)) && (rotateAfter d <=? t).

Definition dueForRotation (at_ : option Z) : IO (list SecretDescriptor) :=
  wait t := now in
  wait l := listSecrets in
  Done (filter (fun d => due (default t at_) d = true) l).

Definition with_phase (p : RotationPhase) (percent : Z) (d : SecretDescriptor) : SecretDescriptor :=
  mkSecret (s_name d) (kind d) (currentVersionId d) (previousVersionId d) (rotateAfter d) percent p (lastRotatedAt d) (lastError d).

Definition updatePhase (d : SecretDescriptor) (p : RotationPhase) (percent : Z) : IO unit := putSecret (with_phase p percent d).

Definition relabelled (state : string) (v : SecretVersion) : SecretVersion :=
  mkVersion (v_id v) (v_value v) (v_createdAt v) (activatedAt v) (retiredAt v) (<["state" := state]> (labels v)).
Definition retired (t : Z) (v : SecretVersion) : SecretVersion :=
  mkVersion (v_id v) (v_value v) (v_createdAt v) (activatedAt v) (Some t) (<["state" := "previous"]> (labels v)).
Definition activated (t : Z) (v : SecretVersion) : SecretVersion :=
  mkVersion (v_id v) (v_value v) (v_createdAt v) (Some t) (retiredAt v) (<["state" := "current"]> (labels v)).

Definition promoted (current previous : string) (t : Z) (d : SecretDescriptor) : SecretDescriptor :=
  mkSecret (s_name d) (kind d) current (Some previous) (t + rotationIntervalMs) 0 Complete (Some t) None.
Definition restored (previous reason : string) (d : SecretDescriptor) : SecretDescriptor :=
  mkSecret (s_name d) (kind d) previous (previousVersionId d) (rotateAfter d) 0 RolledBack (lastRotatedAt d) (Some reason).

Definition promote (name candidateVersionId : string) : IO unit :=
  wait secret := requiredSecret name in
  wait previous := requiredVersion name (currentVersionId secret) in
  wait candidate := requiredVersion name candidateVersionId in
  wait t := now in
  wait _u := putVersion name (retired t previous) in
  wait _v := putVersion name (activated t candidate) in
  wait _w := putSecret (promoted (v_id candidate) (v_id previous) t secret) in
  count canaryEnds.

(** A hook: its answer, or its rejection. *)
Definition hook : IO unit := awaiting (fun s => (s, inr tt)).

Definition rollback (name versionId reason : string) : IO unit :=
  wait secret := requiredSecret name in
  wait previous := requiredVersion name versionId in
  wait _u := hook in
  wait _v := putVersion name (relabelled "current" previous) in
  wait _w := putSecret (restored (v_id previous) reason secret) in
  count rolledBack.

Definition badValue : string := "Generated secret must be non-empty and different from the current version".

(** The body of [rotate]'s [try]; [generated] is what the generator answers. *)
Definition attempt (name : string) (startedAt : Z) (secret : SecretDescriptor) (old : SecretVersion) (generated : string) :
    IO RotationResult :=
  wait _a := updatePhase secret Preparing 0 in
  wait value := awaiting (fun s => (s, inr generated)) in
  if falsy value || String.eqb value (v_value old) then Fails badValue
  else
    wait t := now in
    Sync (newVersion "candidate" value t None) (fun candidate =>
    wait _b := putVersion (s_name secret) candidate in
    wait _c := hook in
    wait _d := updatePhase secret Canary canaryPercent in
    wait _e := count canaryBegins in
    wait _f := hook in
    wait _g := promote (s_name secret) (v_id candidate) in
    wait t' := now in
    wait _h := count (succeeded (t' - startedAt)) in
    Done (mkResult name Complete (v_id old) (Some (v_id candidate)) (t' - startedAt) canaryPercent None)).

Definition rotate (name generated : string) : IO RotationResult :=
  wait startedAt := now in
  wait secret := requiredSecret name in
  wait old := requiredVersion (s_name secret) (currentVersionId secret) in
  wait _a := count started in
  io_catch (attempt name startedAt secret old generated) (fun message =>
    wait _b := rollback (s_name secret) (v_id old) message in
    wait t := now in
    wait _c := count (failed (t - startedAt)) in
    Done (mkResult name RolledBack (v_id old) None (t - startedAt) 0 (Some message))).

Inductive Call :=
  | RegisterSecret (name : string) (k : SecretKind) (initialValue : string) (after : option Z)
  | DueForRotation (at_ : option Z)
  | Rotate (name generated : string)
  | Promote (name candidateVersionId : string)
  | Rollback (name previousVersionId reason : string).

Inductive Answer :=
  | Registered (d : SecretDescriptor)
  | DueSecrets (l : list SecretDescriptor)
  | Rotated (r : RotationResult)
  | Nothing.

Definition method (c : Call) : IO Answer :=
  match c with
  | RegisterSecret name k v after => wait d := registerSecret name k v after in Done (Registered d)
  | DueForRotation t => wait l := dueForRotation t in Done (DueSecrets l)
  | Rotate name g => wait r := rotate name g in Done (Rotated r)
  | Promote name id => wait _u := promote name id in Done Nothing
  | Rollback name id reason => wait _u := rollback name id reason in Done Nothing
  end.

(** Time passes. *)
Definition outside (ms : Z) (s : State) : State :=
  mkState (secrets s) (versions s) (metrics s) (clock s + Z.max 0 ms) (issued s) (born s).

Definition calls (t : Z) (evs : list (Event (E := string) (Call := Call) (Ext := Z))) := run method outside (new_State t) evs.

(** ** What is kept *)

Context (factory_inj : Inj (=) (=) versionIdFactory).

Definition stored (s : State) (name id : string) : Prop := is_Some (versions s !! (name, id)).

(** The version [id] of [name] is stored and was issued with the value [x]. *)
Definition valued (s : State) (name id x : string) : Prop := stored s name id /\ born s !! id = Some x.

Definition secret_ok (name : string) (d : SecretDescriptor) (s : State) : Prop :=
  s_name d = name /\ stored s name (currentVersionId d) /\ forall p, previousVersionId d = Some p -> stored s name p.

Record Inv (s : State) : Prop := {
  inv_secrets name d : secrets s !! name = Some d -> secret_ok name d s;
  inv_versions name id v : versions s !! (name, id) = Some v -> v_id v = id /\ born s !! id = Some (v_value v);
  inv_born id x : born s !! id = Some x -> exists n, (n < issued s)%nat /\ id = versionIdFactory n
}.

Definition grows (s s' : State) : Prop :=
  born s ⊆ born s' /\ forall name id, stored s name id -> stored s' name id.

Lemma sgrows_refl s : grows s s.
Proof. by split. Qed.
Lemma sgrows_trans s1 s2 s3 : grows s1 s2 -> grows s2 s3 -> grows s1 s3.
Proof. intros [? ?] [? ?]. split; [by etrans|auto]. Qed.

Lemma valued_grows s s' name id x : grows s s' -> valued s name id x -> valued s' name id x.
Proof. intros [Hb Hs] [? ?]. split; [by apply Hs|]. by eapply lookup_weaken. Qed.

Lemma secret_ok_grows s s' name d : grows s s' -> secret_ok name d s -> secret_ok name d s'.
Proof. intros [Hb Hs] (? & ? & ?). split_and!; auto. Qed.

Lemma born_grows s s' id x : grows s s' -> born s !! id = Some x -> born s' !! id = Some x.
Proof. intros [Hb Hs] ?. by eapply lookup_weaken. Qed.

(** A state that differs in the metrics and the clock only. *)
Lemma inv_same s s' :
  Inv s -> secrets s' = secrets s -> versions s' = versions s -> born s' = born s -> issued s' = issued s ->
  Inv s' /\ grows s s'.
Proof.
  intros [H1 H2 H3] Es Ev Eb Ei. unfold grows, secret_ok, stored in *.
  split; [split; unfold secret_ok, stored; rewrite ?Es, ?Ev, ?Eb, ?Ei; done|]. by rewrite Ev, Eb.
Qed.

Abbreviation Ok := (ok Inv grows).
Abbreviation then_ok := (ok_then Inv grows sgrows_refl sgrows_trans).

Definition keeps {A} (_ : string + A) (s : State) : Prop := Inv s.
Definition yields {A} (P : A -> State -> Prop) (r : string + A) (s : State) : Prop := Inv s /\ forall a, r = inr a -> P a s.

Lemma sync_ok {A B} (Q : string + A -> State -> Prop) (f : State -> State * B) (k : B -> IO A) s s' b :
  f s = (s', b) -> grows s s' -> Ok Q (k b) s' -> Ok Q (Sync f k) s.
Proof. cbn. intros -> ? ?. by split. Qed.

Lemma now_ok s : Inv s -> Ok (yields (fun _ _ => True)) now s.
Proof. intros HI. eapply sync_ok; [done|apply sgrows_refl|]. by split. Qed.

Lemma count_ok f s : Inv s -> Ok keeps (count f) s.
Proof. intros HI. destruct (inv_same s (set_metrics f s) HI) as [? ?]; [done..|]. by eapply sync_ok. Qed.

Lemma read_ok {A} (g : State -> A) (P : A -> State -> Prop) s :
  Inv s -> (forall s', Inv s' -> P (g s') s') -> Ok (yields P) (awaiting (fun s => (s, inr (g s)))) s.
Proof.
  intros HI HP. apply ok_awaiting; [done|]. intros s1 _ H1. split; [|by split].
  split; [apply sgrows_refl|]. split; [done|]. intros a [= <-]. by apply HP.
Qed.

Lemma requiredSecret_ok name s : Inv s -> Ok (yields (fun d s' => secret_ok name d s')) (requiredSecret name) s.
Proof.
  intros HI. eapply then_ok with (Q1 := yields (fun o s' => forall d, o = Some d -> secret_ok name d s')).
  - apply (read_ok (fun s => secrets s !! name)); [done|]. intros s' H'. apply (inv_secrets _ H').
  - intros [d|] s' _ [H' Hd]; [|by split]. split; [done|]. intros a [= <-]. by apply (Hd (Some d)).
  - intros e s' _ [H' _]. by split.
Qed.

(** A version read from the store. *)
Definition version_ok (name id : string) (v : SecretVersion) (s : State) : Prop := v_id v = id /\ valued s name id (v_value v).

Lemma requiredVersion_ok name id s : Inv s -> Ok (yields (version_ok name id)) (requiredVersion name id) s.
Proof.
  intros HI. eapply then_ok with (Q1 := yields (fun o s' => forall v, o = Some v -> version_ok name id v s')).
  - apply (read_ok (fun s => versions s !! (name, id))); [done|]. intros s' H' v Hv.
    destruct (inv_versions _ H' _ _ _ Hv) as [<- Hb]. split; [done|]. split; [by eexists|done].
  - intros [v|] s' _ [H' Hv]; [|by split]. split; [done|]. intros a [= <-]. by apply (Hv (Some v)).
  - intros e s' _ [H' _]. by split.
Qed.

Lemma putSecret_ok d s : Inv s -> secret_ok (s_name d) d s -> Ok keeps (putSecret d) s.
Proof.
  intros HI Hd. apply ok_awaiting; [done|]. intros s1 Hg H1. split; [|done]. destruct (validName _); [|by split; [apply sgrows_refl|]].
  split; [by split|]. destruct H1 as [Ha Hb Hc]. split; [|done..]. cbn. intros name d'. rewrite jsmap_lookup_insert.
  case_decide as E; [|apply Ha]. intros [= <-]. subst name. by apply (secret_ok_grows s s1).
Qed.

Lemma putVersion_ok name v s :
  Inv s -> born s !! v_id v = Some (v_value v) -> Ok (yields (fun _ s' => stored s' name (v_id v))) (putVersion name v) s.
Proof.
  intros HI Hv. apply ok_awaiting; [done|]. intros s1 Hg H1. split; [|by split].
  destruct (validName _); [|split; [apply sgrows_refl|by split]]. apply (born_grows s s1) in Hv; [|done].
  set (s2 := set_versions _ _).
  assert (Hg2 : grows s1 s2).
  { split; [done|]. intros n i Hi. unfold stored, s2. cbn. destruct (decide ((name, v_id v) = (n, i))) as [->|];
      [by rewrite lookup_insert_eq|by rewrite lookup_insert_ne]. }
  split; [done|]. assert (Hst : stored s2 name (v_id v)) by (unfold stored, s2; cbn; by rewrite lookup_insert_eq).
  split; [|done]. destruct H1 as [Ha Hb Hc]. split; [| |done].
  - intros n d Hd. eapply secret_ok_grows; [done|by apply Ha].
  - intros n i w. unfold s2. cbn. rewrite lookup_insert_Some. intros [[[= <- <-] <-]|[_ Hw]]; [done|by apply (Hb n)].
Qed.

Lemma newVersion_ok label value t act s s' v :
  Inv s -> newVersion label value t act s = (s', v) ->
  Inv s' /\ grows s s' /\ v_value v = value /\ born s' !! v_id v = Some value.
Proof.
  intros [H1 H2 H3] [= <- <-]. cbn. set (id := versionIdFactory (issued s)).
  assert (Hn : born s !! id = None).
  { destruct (born s !! id) eqn:E; [|done]. apply H3 in E as (n & Hn & E). apply factory_inj in E. lia. }
  split_and!; [|split; [by apply insert_subseteq|done]|done|by rewrite lookup_insert_eq]. split; cbn.
  - done.
  - intros name i w Hw. destruct (H2 _ _ _ Hw) as [<- Hb]. split; [done|]. rewrite lookup_insert_ne; [done|]. congruence.
  - intros i x. rewrite lookup_insert_Some. intros [[<- _]|[_ Hx]]; [exists (issued s); split; [lia|done]|].
    apply H3 in Hx as (n & ? & ->). exists n. split; [lia|done].
Qed.

(** A call goes on after an await that may have failed. *)
Lemma part_ok {A B} (P : A -> State -> Prop) (Q : string + B -> State -> Prop) p f s :
  Ok (yields P) p s -> (forall e s', Inv s' -> Q (inl e) s') ->
  (forall a s', grows s s' -> Inv s' -> P a s' -> Ok Q (f a) s') -> Ok Q (io_bind p f) s.
Proof.
  intros Hp He Hf. eapply then_ok; [exact Hp| |].
  - intros a s' Hg [H' Ha]. apply Hf; auto.
  - intros e s' _ [H' _]. auto.
Qed.

Lemma part_keeps {A B} (Q : string + B -> State -> Prop) (p : IO A) f s :
  Ok keeps p s -> (forall e s', Inv s' -> Q (inl e) s') ->
  (forall a s', grows s s' -> Inv s' -> Ok Q (f a) s') -> Ok Q (io_bind p f) s.
Proof. intros Hp He Hf. eapply then_ok; [exact Hp| |]; auto. Qed.

Lemma hook_ok s : Inv s -> Ok keeps hook s.
Proof. intros HI. apply ok_awaiting; [done|]. intros s1 _ H1. split; [|done]. by split; [apply sgrows_refl|]. Qed.

Lemma promote_ok name id s : Inv s -> Ok keeps (promote name id) s.
Proof.
  intros HI. eapply part_ok; [by apply requiredSecret_ok|done|]. intros secret s1 _ H1 Hd.
  eapply part_ok; [by apply requiredVersion_ok|done|]. intros previous s2 G2 H2 [Ep [Sp Bp]].
  eapply part_ok; [by apply requiredVersion_ok|done|]. intros candidate s3 G3 H3 [Ec [Sc Bc]].
  eapply part_ok; [by apply now_ok|done|]. intros t s4 G4 H4 ?.
  pose proof (sgrows_trans _ _ _ G3 G4) as G34.
  eapply part_ok; [apply putVersion_ok; [done|]; cbn; rewrite Ep; by apply (born_grows s2)|done|]. intros ? s5 G5 H5 St5.
  pose proof (sgrows_trans _ _ _ G4 G5) as G45.
  eapply part_ok; [apply putVersion_ok; [done|]; cbn; rewrite Ec; by apply (born_grows s3)|done|]. intros ? s6 G6 H6 St6.
  cbn in St5, St6. eapply part_keeps; [apply putSecret_ok; [done|]|done|intros; by apply count_ok].
  destruct Hd as [En _]. unfold secret_ok. cbn. rewrite En. split_and!; [done|done|].
  intros p [= <-]. by apply G6.
Qed.

Lemma rollback_ok name id reason s : Inv s -> Ok keeps (rollback name id reason) s.
Proof.
  intros HI. eapply part_ok; [by apply requiredSecret_ok|done|]. intros secret s1 _ H1 Hd.
  eapply part_ok; [by apply requiredVersion_ok|done|]. intros previous s2 G2 H2 [Ep [Sp Bp]].
  eapply part_keeps; [by apply hook_ok|done|]. intros _ s3 G3 H3.
  eapply part_ok; [apply putVersion_ok; [done|]; cbn; rewrite Ep; by apply (born_grows s2)|done|]. intros ? s4 G4 H4 St.
  cbn in St. eapply part_keeps; [apply putSecret_ok; [done|]|done|intros; by apply count_ok].
  pose proof (secret_ok_grows _ _ _ _ (sgrows_trans _ _ _ G2 (sgrows_trans _ _ _ G3 G4)) Hd) as (En & _ & Hp).
  unfold secret_ok. cbn. rewrite En. by split_and!.
Qed.

Lemma registerSecret_ok name k v after s : Inv s -> Ok keeps (registerSecret name k v after) s.
Proof.
  intros HI. unfold registerSecret. destruct (negb _); [done|]. destruct (falsy v); [done|].
  eapply part_ok; [by apply now_ok|done|]. intros t s1 _ H1 ?.
  destruct (newVersion "current" v t (Some t) s1) as [s2 version] eqn:E.
  destruct (newVersion_ok _ _ _ _ _ _ _ H1 E) as (H2 & G2 & Ev & Hb).
  eapply sync_ok; [exact E|done|].
  eapply part_ok; [apply putVersion_ok; [done|]; by rewrite Ev|done|]. intros ? s3 G3 H3 St.
  eapply part_keeps; [apply putSecret_ok; [done|]|done|by intros]. unfold secret_ok. by split_and!.
Qed.

Lemma dueForRotation_ok at_ s : Inv s -> Ok keeps (dueForRotation at_) s.
Proof.
  intros HI. eapply part_ok; [by apply now_ok|done|]. intros t s1 _ H1 ?.
  eapply part_ok; [apply (read_ok (fun s => map_values (secrets s)) (fun _ _ => True)); [done|by intros]|done|by intros].
Qed.

(** What a rotation that reports success has done. *)
Definition rotated_ok (name : string) (r : RotationResult) (s : State) : Prop :=
  match newVersionId r with
  | Some id => r_phase r = Complete /\ exists x y, valued s name id x /\ valued s name (oldVersionId r) y /\ x <> y /\ x <> ""
  | None => r_phase r = RolledBack
  end.

Lemma attempt_ok name startedAt secret old g s :
  Inv s -> secret_ok name secret s -> version_ok name (currentVersionId secret) old s ->
  Ok (yields (fun r s' => rotated_ok name r s')) (attempt name startedAt secret old g) s.
Proof.
  intros HI Hd [Eo Ho]. assert (En : s_name secret = name) by apply Hd. rewrite <- Eo in Ho.
  assert (Hphase : forall p n s', grows s s' -> secret_ok (s_name (with_phase p n secret)) (with_phase p n secret) s').
  { intros p n s' G. cbn. rewrite En. exact (secret_ok_grows _ _ _ _ G Hd). }
  assert (He : forall e s', Inv s' -> yields (fun r s' => rotated_ok name r s') (inl e) s') by (by split).
  unfold attempt. eapply part_keeps; [apply putSecret_ok; [done|apply Hphase, sgrows_refl]|done|]. intros _ s1 G1 H1.
  eapply part_ok with (P := fun v _ => v = g).
  { apply ok_awaiting; [done|]. intros s' _ H'. split; [|by split]. split; [apply sgrows_refl|]. split; [done|]. by intros a [= <-]. }
  { done. }
  intros v s2 G2 H2 ->. destruct (falsy g || String.eqb g (v_value old)) eqn:Eg; [by split|].
  apply orb_false_iff in Eg as [Eg1 Eg2]. apply bool_decide_eq_false in Eg1. apply String.eqb_neq in Eg2.
  eapply part_ok; [by apply now_ok|done|]. intros t s3 G3 H3 ?.
  destruct (newVersion "candidate" g t None s3) as [s4 candidate] eqn:E.
  destruct (newVersion_ok _ _ _ _ _ _ _ H3 E) as (H4 & G4 & Ev & Hb).
  assert (G : grows s s4) by (do 3 (eapply sgrows_trans; [eassumption|]); done).
  eapply sync_ok; [exact E|done|]. rewrite En.
  eapply part_ok; [apply putVersion_ok; [done|]; by rewrite Ev|done|]. intros ? s5 G5 H5 St.
  assert (Hc : valued s5 name (v_id candidate) g) by (split; [done|by apply (born_grows s4)]).
  assert (G05 : grows s s5) by (by eapply sgrows_trans).
  eapply part_keeps; [by apply hook_ok|done|]. intros _ s6 G6 H6.
  eapply part_keeps; [apply putSecret_ok; [done|apply Hphase; by eapply sgrows_trans]|done|]. intros _ s7 G7 H7.
  eapply part_keeps; [by apply count_ok|done|]. intros _ s8 G8 H8.
  eapply part_keeps; [by apply hook_ok|done|]. intros _ s9 G9 H9.
  eapply part_keeps; [by apply promote_ok|done|]. intros _ s10 G10 H10.
  eapply part_ok; [by apply now_ok|done|]. intros t' s11 G11 H11 ?.
  eapply part_keeps; [by apply count_ok|done|]. intros _ s12 G12 H12.
  split; [done|]. intros r [= <-]. unfold rotated_ok. cbn. split; [done|]. exists g, (v_value old).
  assert (G512 : grows s5 s12) by (do 6 (eapply sgrows_trans; [eassumption|]); done).
  split_and!; [by apply (valued_grows s5)|by apply (valued_grows s); [eapply sgrows_trans|]|done|done].
Qed.

Lemma rotate_ok name g s : Inv s -> Ok (yields (fun r s' => rotated_ok name r s')) (rotate name g) s.
Proof.
  assert (He : forall e s', Inv s' -> yields (fun r s' => rotated_ok name r s') (inl e) s') by (by split).
  intros HI. eapply part_ok; [by apply now_ok|done|]. intros t s1 _ H1 ?.
  eapply part_ok; [by apply requiredSecret_ok|done|]. intros secret s2 _ H2 Hd. assert (En : s_name secret = name) by apply Hd.
  rewrite En. eapply part_ok; [by apply requiredVersion_ok|done|]. intros old s3 G3 H3 Ho.
  eapply part_keeps; [by apply count_ok|done|]. intros _ s4 G4 H4.
  eapply ok_catch; [apply attempt_ok; [done|exact (secret_ok_grows _ _ _ _ (sgrows_trans _ _ _ G3 G4) Hd)|]|..].
  - destruct Ho as [Ei Hv]. split; [done|by eapply valued_grows].
  - intros e s5 [H5 _]. eapply part_keeps; [by apply rollback_ok|done|]. intros _ s6 _ H6.
    eapply part_ok; [by apply now_ok|done|]. intros t' s7 _ H7 ?.
    eapply part_keeps; [by apply count_ok|done|]. intros _ s8 _ H8. split; [done|]. by intros r [= <-].
  - by intros r s5 [H5 Hr].
Qed.

Definition Post (c : Call) (r : string + Answer) (s : State) : Prop :=
  match c, r with
  | Rotate name _, inr (Rotated res) => rotated_ok name res s
  | _, _ => True
  end.

#[local] Instance rotation_protocol : TaskProtocol method outside Inv grows Post.
Proof.
  split.
  - apply sgrows_refl.
  - apply sgrows_trans.
  - intros ms s HI. by apply (inv_same s).
  - intros c r s s' Hg. destruct c, r as [e|[d|l|res|]]; cbn; try done. unfold rotated_ok.
    destruct (newVersionId res); [|done]. intros (? & x & y & Hx & Hy & ?). split; [done|]. exists x, y.
    split_and!; [by apply (valued_grows s)..|by destruct_and?|by destruct_and?].
  - assert (He : forall c e s', Inv s' -> (fun r s' => Inv s' /\ Post c r s') (inl e : string + Answer) s') by (by intros [] ? ? ?).
    intros c s HI. destruct c; cbn [method].
    + eapply part_keeps; [by apply registerSecret_ok|apply He|by intros].
    + eapply part_keeps; [by apply dueForRotation_ok|apply He|by intros].
    + eapply part_ok; [by apply rotate_ok|apply He|]. by intros r s' _ H' Hr.
    + eapply part_keeps; [by apply promote_ok|apply He|by intros].
    + eapply part_keeps; [by apply rollback_ok|apply He|by intros].
Qed.

Lemma secrets_new t : Inv (new_State t).
Proof. split; cbn; intros *; [by rewrite jsmap_lookup_empty|by rewrite lookup_empty..]. Qed.

(** ** A call that nothing disturbs *)

Lemma solo_secret name d s : secrets s !! name = Some d -> solo (requiredSecret name) s = (s, inr d).
Proof. intros H. unfold requiredSecret. erewrite solo_bind by done. by rewrite H. Qed.

Lemma solo_version name id v s : versions s !! (name, id) = Some v -> solo (requiredVersion name id) s = (s, inr v).
Proof. intros H. unfold requiredVersion. erewrite solo_bind by done. by rewrite H. Qed.

Lemma solo_putSecret d s :
  validName (s_name d) = true -> solo (putSecret d) s = (set_secrets (<[s_name d := d]> (secrets s)) s, inr tt).
Proof. intros H. unfold putSecret, awaiting. cbn [solo]. by rewrite H. Qed.

Lemma solo_putVersion name v s :
  validName name = true -> solo (putVersion name v) s = (set_versions (<[(name, v_id v) := v]> (versions s)) s, inr tt).
Proof. intros H. unfold putVersion, awaiting. cbn [solo]. by rewrite H. Qed.

Lemma solo_promote name id d previous candidate s :
  validName name = true -> secrets s !! name = Some d -> s_name d = name ->
  versions s !! (name, currentVersionId d) = Some previous -> v_id previous = currentVersionId d ->
  versions s !! (name, id) = Some candidate -> v_id candidate = id ->
  solo (promote name id) s =
    (set_metrics canaryEnds
       (set_secrets (<[name := promoted id (currentVersionId d) (clock s) d]> (secrets s))
          (set_versions (<[(name, id) := activated (clock s) candidate]>
                           (<[(name, currentVersionId d) := retired (clock s) previous]> (versions s))) s)), inr tt).
Proof.
  intros Hn Hd En Hp Ep Hc Ec. unfold promote.
  erewrite solo_bind by (by apply solo_secret). erewrite solo_bind by (by apply solo_version).
  erewrite solo_bind by (by apply solo_version). erewrite solo_bind by done.
  erewrite solo_bind by (by apply solo_putVersion). erewrite solo_bind by (by apply solo_putVersion).
  erewrite solo_bind by (apply solo_putSecret; cbn; by rewrite En). cbn. by rewrite En, Ep, Ec.
Qed.

Lemma rotate_alone name g d old s :
  Inv s -> validName name = true -> secrets s !! name = Some d -> versions s !! (name, currentVersionId d) = Some old ->
  g <> "" -> g <> v_value old ->
  let id := versionIdFactory (issued s) in
  let '(s', r) := solo (rotate name g) s in
  r = inr (mkResult name Complete (currentVersionId d) (Some id) 0 canaryPercent None) /\
  (forall n, secrets s' !! n =
     if decide (n = name) then Some (promoted id (currentVersionId d) (clock s) d) else secrets s !! n) /\
  (forall k, versions s' !! k =
     if decide (k = (name, id))
     then Some (activated (clock s) (mkVersion id g (clock s) None None (newLabels "candidate" g)))
     else if decide (k = (name, currentVersionId d)) then Some (retired (clock s) old) else versions s !! k).
Proof.
  intros HI Hn Hd Ho Hg Hne. cbn zeta. set (id := versionIdFactory (issued s)).
  destruct (inv_secrets _ HI _ _ Hd) as [En _]. destruct (inv_versions _ HI _ _ _ Ho) as [Eo Hb].
  assert (Hid : id <> currentVersionId d).
  { intros E. rewrite <- E in Hb. apply (inv_born _ HI) in Hb as (n & Hlt & Eid). apply factory_inj in Eid. lia. }
  unfold rotate. erewrite solo_bind by done. erewrite solo_bind by (by apply solo_secret). rewrite En.
  erewrite solo_bind by (by apply solo_version). erewrite solo_bind by done.
  erewrite (solo_catch (attempt _ _ _ _ _)).
  2: { unfold attempt. erewrite solo_bind by (apply solo_putSecret; cbn; by rewrite En). erewrite solo_bind by done.
       assert (Ef : falsy g || String.eqb g (v_value old) = false).
       { apply orb_false_iff. split; [by apply bool_decide_eq_false|by apply String.eqb_neq]. }
       rewrite Ef. erewrite solo_bind by done. cbn [solo newVersion]. rewrite En.
       erewrite solo_bind by (by apply solo_putVersion). erewrite solo_bind by done.
       erewrite solo_bind by (apply solo_putSecret; cbn; by rewrite En). erewrite solo_bind by done. erewrite solo_bind by done.
       erewrite solo_bind.
       2: { eapply (solo_promote name _ (with_phase Canary canaryPercent d)); cbn.
            - done.
            - rewrite En. by rewrite jsmap_lookup_insert, decide_True.
            - done.
            - rewrite lookup_insert_ne; [done|]. intros [= E]. by apply Hid.
            - done.
            - by rewrite lookup_insert_eq.
            - done. }
       erewrite solo_bind by done. erewrite solo_bind by done. reflexivity. }
  cbn. rewrite En, Eo, Z.sub_diag. split_and!; [done| |].
  - intros n. rewrite !jsmap_lookup_insert. repeat case_decide; congruence || done.
  - intros k. rewrite !lookup_insert. repeat case_decide; congruence || done.
Qed.
End service.

(** C32: however calls of the service overlap and whatever is rejected, if ids do not
    repeat then the current version of every secret, and the previous one if it has one,
    is stored; a version has the value its id was issued for; and a rotation that reports
    success stored a version with a value that is not empty and not the old one's. *)
Theorem secrets_keep_their_versions sha256 versionIdFactory canaryPercent rotationIntervalMs t evs :
  Inj (=) (=) versionIdFactory ->
  let w := calls sha256 versionIdFactory canaryPercent rotationIntervalMs t evs in
  (forall name d, secrets (state w) !! name = Some d -> secret_ok name d (state w)) /\
  (forall name id v, versions (state w) !! (name, id) = Some v -> v_id v = id /\ born (state w) !! id = Some (v_value v)) /\
  forall tid name g r, outcome w tid = Some (Rotate name g, inr (Rotated r)) -> rotated_ok name r (state w).
Proof.
  intros Hf. cbn zeta.
  destruct (tasks_run_safe (protocol := rotation_protocol sha256 versionIdFactory canaryPercent rotationIntervalMs Hf)
    _ _ (Inv versionIdFactory) grows Post (new_State t) evs (secrets_new versionIdFactory t)) as [HI HP].
  split_and!; [apply HI|apply HI|]. intros tid name g r H. exact (HP _ _ _ H).
Qed.

(** in any state reached, a rotation that nothing disturbs, with a value that is not
    empty and not the current one, makes a new version the current one, retires the old
    one and leaves every other secret and version as it is. *)
Theorem rotation_alone sha256 versionIdFactory canaryPercent rotationIntervalMs t evs name g d old :
  Inj (=) (=) versionIdFactory ->
  let s := state (calls sha256 versionIdFactory canaryPercent rotationIntervalMs t evs) in
  validName name = true -> secrets s !! name = Some d -> versions s !! (name, currentVersionId d) = Some old ->
  g <> "" -> g <> v_value old ->
  let id := versionIdFactory (issued s) in
  let '(s', r) := solo (rotate sha256 versionIdFactory canaryPercent rotationIntervalMs name g) s in
  r = inr (mkResult name Complete (currentVersionId d) (Some id) 0 canaryPercent None) /\
  (forall n, secrets s' !! n =
     if decide (n = name) then Some (promoted rotationIntervalMs id (currentVersionId d) (clock s) d) else secrets s !! n) /\
  (forall k, versions s' !! k =
     if decide (k = (name, id))
     then Some (activated (clock s) (mkVersion id g (clock s) None None (newLabels sha256 "candidate" g)))
     else if decide (k = (name, currentVersionId d)) then Some (retired (clock s) old) else versions s !! k).
Proof.
  intros Hf. cbn zeta. intros Hn Hd Ho Hg Hne. apply rotate_alone; try done.
  destruct (tasks_run_safe (protocol := rotation_protocol sha256 versionIdFactory canaryPercent rotationIntervalMs Hf)
    _ _ (Inv versionIdFactory) grows Post (new_State t) evs (secrets_new versionIdFactory t)) as [HI _]. exact HI.
Qed.

(** ** Concrete runs *)

Module Examples.
Local Open Scope string_scope.
Local Open Scope list_scope.

Definition version (n : nat) : string := "v" +:+ zeros n.
#[local] Instance version_inj : Inj (=) (=) version.
Proof.
  assert (H : forall n m, zeros n = zeros m -> n = m).
  { induction n as [|n IH]; intros [|m]; cbn; try done. intros [= E]. f_equal. by apply IH. }
  intros n m [= E]. by apply H.
Qed.

Abbreviation Events := (list (Event (E := string) (Call := Call) (Ext := Z))).
Abbreviation go := (calls (fun s => s) version 5 1000 0).
Definition answers (n id : nat) : Events := repeat (Answered id) n.

Definition registered : Events := Launch 0 (RegisterSecret "db/main" DatabaseSecret "a" None) :: answers 2 0.
Definition current (s : State) : option string := currentVersionId <$> secrets s !! "db/main".
Definition stateOf (s : State) (id : string) : option string := versions s !! ("db/main", id) ≫= fun v => labels v !! "state".

Definition rotatedOnce : Events := registered ++ [Launch 1 (Rotate "db/main" "b")] ++ answers 14 1.

Lemma rotated_once :
  current (state (go rotatedOnce)) = Some (version 1) /\
  outcome (go rotatedOnce) 1 =
    Some (Rotate "db/main" "b", inr (Rotated (mkResult "db/main" Complete (version 0) (Some (version 1)) 0 5 None))).
Proof. by vm_compute. Qed.

Lemma secrets_keep_their_versions_witness :
  exists d, secrets (state (go rotatedOnce)) !! "db/main" = Some d /\ secret_ok "db/main" d (state (go rotatedOnce)).
Proof.
  destruct (secrets (state (go rotatedOnce)) !! "db/main") as [d|] eqn:E.
  - exists d. split; [reflexivity|].
    apply (proj1 (secrets_keep_their_versions (fun s => s) version 5 1000 0 rotatedOnce _)). exact E.
  - exfalso. vm_compute in E. discriminate E.
Defined.

Lemma rotation_alone_witness :
  exists s', solo (rotate (fun s => s) version 5 1000 "db/main" "b") (state (go registered)) =
    (s', inr (mkResult "db/main" Complete (version 0) (Some (version 1)) 0 5 None)).
Proof.
  destruct (solo (rotate (fun s => s) version 5 1000 "db/main" "b") (state (go registered))) as [s' r] eqn:E.
  exists s'. f_equal. pose proof (rotation_alone (fun s => s) version 5 1000 0 registered "db/main" "b"
    (mkSecret "db/main" DatabaseSecret (version 0) None 1000 0 Idle (Some 0) None)
    (mkVersion (version 0) "a" 0 (Some 0) None (newLabels (fun s => s) "current" "a")) _) as H.
  cbn zeta in H. rewrite E in H.
  exact (proj1 (H ltac:(vm_compute; reflexivity) ltac:(vm_compute; reflexivity) ltac:(vm_compute; reflexivity)
    ltac:(discriminate) ltac:(discriminate))).
Defined.

(** A rotation that fails takes back the one that has succeeded since: the retired
    version is current again. *)
Definition overlapping : Events :=
  registered ++ [Launch 1 (Rotate "db/main" "b"); Launch 2 (Rotate "db/main" "c")] ++ answers 6 2 ++ answers 14 1 ++
  [Rejected 2 "down"] ++ answers 5 2.

Lemma failure_undoes_other_rotation :
  current (state (go overlapping)) = Some (version 0) /\
  (retiredAt <$> versions (state (go overlapping)) !! ("db/main", version 0)) = Some (Some 0) /\
  (exists r, outcome (go overlapping) 1 = Some (Rotate "db/main" "b", inr (Rotated r)) /\ r_phase r = Complete).
Proof. vm_compute. split_and!; [done|done|]. eexists. by split. Qed.

(** A rollback hook that fails leaves the secret in its canary phase, which is never due
    again; the failure is not counted and the gauge keeps the canary. *)
Definition stuck : Events :=
  registered ++ [Launch 1 (Rotate "db/main" "b")] ++ answers 7 1 ++ [Rejected 1 "apply failed"] ++ answers 2 1 ++
  [Rejected 1 "rollback failed"; Outside 1000000; Launch 2 (DueForRotation None); Answered 2].

Lemma failed_rollback_is_never_due :
  outcome (go stuck) 1 = Some (Rotate "db/main" "b", inl "rollback failed") /\
  phase <$> secrets (state (go stuck)) !! "db/main" = Some Canary /\
  outcome (go stuck) 2 = Some (DueForRotation None, inr (DueSecrets [])) /\
  rotationsFailed (metrics (state (go stuck))) = 0 /\ activeCanaries (metrics (state (go stuck))) = 1.
Proof. by vm_compute. Qed.

(** A promotion that fails at its last step leaves two versions labelled current. *)
Definition halfPromoted : Events :=
  registered ++ [Launch 1 (Rotate "db/main" "b")] ++ answers 13 1 ++ [Rejected 1 "down"] ++ answers 5 1.

Lemma two_current_versions :
  stateOf (state (go halfPromoted)) (version 0) = Some "current" /\
  stateOf (state (go halfPromoted)) (version 1) = Some "current" /\ current (state (go halfPromoted)) = Some (version 0).
Proof. by vm_compute. Qed.

(** A rotation that fails before its canary takes another one's canary off the gauge. *)
Definition twoSecrets : Events :=
  registered ++ [Launch 1 (RegisterSecret "api/key" ApiKey "k" None)] ++ answers 2 1 ++
  [Launch 2 (Rotate "db/main" "b")] ++ answers 7 2 ++ [Launch 3 (Rotate "api/key" "")] ++ answers 9 3.

Lemma canary_lost_from_gauge :
  phase <$> secrets (state (go twoSecrets)) !! "db/main" = Some Canary /\
  activeCanaries (metrics (state (go twoSecrets))) = 0.
Proof. by vm_compute. Qed.
End Examples.
