(* ===== verification/PayloadEncryption.v ===== *)
(** * Encryption of sensitive fields ([src/src/security/payload_encryption.ts])

    The service over JSON trees: the sensitive paths, the walk that replaces the values
    at their ends, the envelopes.  AES-GCM, hashes, base64 and [JSON.stringify]/[parse] are
    arguments of the model; the nonces are numbered in the order of the walk.  Members
    that every object inherits ([toString]) are outside the model, and so are the
    latency instruments.

    [payload_round_trip]: what is encrypted with sensitive paths none of which is a
    beginning of another has an envelope at the end of each, and decrypts to what it was. *)

From Stdlib Require Import ZArith Lia Ascii String.
From stdpp Require Import base numbers list strings.
From S2P Require Import Prelude Js Text Number Config.
#[local] Open Scope Z_scope.

Definition KEY_BYTES : nat := 32.
Definition MARKER : string := "__verinode_e2ee".
Definition ALG : string := "AES-256-GCM".

(** A buffer of bytes, or a text in base64 *)
Inductive KeyMaterial := KeyBuffer (bytes : string) | KeyText (base64 : string).
Record PayloadEncryptionKey := mkKey { keyId : string; key : KeyMaterial }.

Inductive CryptoError := EmptyPath | UnknownKey (id : string) | NotAuthentic | BadPlaintext.

(** ** Paths and envelopes *)

Definition parsePath (path : string) : CryptoError + list string :=
  match filter (fun p => falsy p = false) (trim <$> split "." path) with
  | [] => inl EmptyPath
  | parts => inr parts
  end.

(** [this.sensitivePaths], made by the constructor *)
Fixpoint parsePaths (l : list string) : CryptoError + list (list string) :=
  match l with
  | [] => inr []
  | p :: l' =>
      match parsePath p with
      | inl e => inl e
      | inr parts => match parsePaths l' with inl e => inl e | inr ps => inr (parts :: ps) end
      end
  end.

Definition isText (v : value) : bool := match v with VString _ => true | _ => false end.
Definition textOf (v : value) : string := match v with VString s => s | _ => "" end.

Definition isEncryptedEnvelope (v : value) : bool :=
  isObject v && match member v MARKER with VBool b => b | _ => false end &&
  match member v "version" with VNumber n => num_eqb n (int 1) | _ => false end &&
  match member v "alg" with VString s => String.eqb s ALG | _ => false end &&
  isText (member v "keyId") && isText (member v "nonce") && isText (member v "ciphertext") && isText (member v "tag").

Definition envelope (id nonce ciphertext tag : string) : value :=
  VObject [(MARKER, VBool true); ("version", VNumber (int 1)); ("alg", VString ALG); ("keyId", VString id);
           ("nonce", VString nonce); ("ciphertext", VString ciphertext); ("tag", VString tag)].

(** [JSON.parse(JSON.stringify(v))]: no member is undefined, no number infinite or NaN *)
Definition jsonNumber (n : number) : value := match n with Finite _ => VNumber n | _ => VNull end.
Definition isUndefined (v : value) : bool := match v with VUndefined => true | _ => false end.

Fixpoint jsonClone (v : value) : value :=
  match v with
  | VNumber n => jsonNumber n
  | VArray l => VArray ((fun x => if isUndefined x then VNull else jsonClone x) <$> l)
  | VObject l =>
      VObject ((fix members (l : list (string * value)) :=
                  match l with
                  | [] => []
                  | (k, x) :: l' => if isUndefined x then members l' else (k, jsonClone x) :: members l'
                  end) l)
  | _ => v
  end.

Inductive Operation := Encrypt | Decrypt.

Section encryption.
Context (sealing : string -> string -> string -> string -> string * string).          (* key, nonce, data: ciphertext, tag *)
Context (opening : string -> string -> string -> string -> string -> option string).
Context (sha256 fromBase64 base64url fromBase64url : string -> string).
Context (JSON : value -> string) (parseJSON : string -> option value).
Context (randomBytes : nat -> string).      (* the nonces *)
Context (getActiveKey : PayloadEncryptionKey) (getKey : string -> option PayloadEncryptionKey).
Context (aadContext : option string).

Definition normalizeKey (k : KeyMaterial) : string :=
  let raw := match k with KeyBuffer b => b | KeyText t => fromBase64 t end in
  if (String.length raw =? KEY_BYTES)%nat then raw else sha256 raw.

Definition aad (id fieldPath : string) : string :=
  default "verinode" aadContext +:+ ":" +:+ fieldPath +:+ ":" +:+ id.

(** [n] nonces have been used. *)
Definition encryptValue (v : value) (fieldPath : string) (n : nat) : value * nat :=
  if isUndefined v || isEncryptedEnvelope v then (v, n)
  else
    let id := keyId getActiveKey in
    let nonce := randomBytes n in
    let '(ciphertext, tag) := sealing (normalizeKey (key getActiveKey)) nonce (aad id fieldPath) (JSON v) in
    (envelope id (base64url nonce) (base64url ciphertext) (base64url tag), S n).

Definition decryptValue (v : value) (fieldPath : string) : CryptoError + value :=
  if negb (isEncryptedEnvelope v) then inr v
  else
    let id := textOf (member v "keyId") in
    match getKey id with
    | None => inl (UnknownKey id)
    | Some k =>
        match opening (normalizeKey (key k)) (fromBase64url (textOf (member v "nonce"))) (aad id fieldPath)
                (fromBase64url (textOf (member v "ciphertext"))) (fromBase64url (textOf (member v "tag"))) with
        | None => inl NotAuthentic
        | Some plaintext => match parseJSON plaintext with Some x => inr x | None => inl BadPlaintext end
        end
    end.

Definition transformValue (op : Operation) (v : value) (fieldPath : string) (n : nat) : CryptoError + (value * nat) :=
  match op with
  | Encrypt => inr (encryptValue v fieldPath n)
  | Decrypt => match decryptValue v fieldPath with inl e => inl e | inr x => inr (x, n) end
  end.

Definition on_value (f : value -> value) (r : CryptoError + (value * nat)) : CryptoError + (value * nat) :=
  match r with inl e => inl e | inr (v, n) => inr (f v, n) end.

(** The walk leaves the node with the values at the end of the path transformed. *)
Fixpoint visitPath (op : Operation) (node : value) (path : list string) (n : nat) : CryptoError + (value * nat) :=
  match node with
  | VArray l =>
      match (fix elements (l : list value) (n : nat) : CryptoError + (list value * nat) :=
               match l with
               | [] => inr ([], n)
               | x :: l' =>
                   match visitPath op x path n with
                   | inl e => inl e
                   | inr (y, n) => match elements l' n with inl e => inl e | inr (ys, n) => inr (y :: ys, n) end
                   end
               end) l n with
      | inl e => inl e
      | inr (l', n) => inr (VArray l', n)
      end
  | VObject l =>
      match path with
      | [] => inr (node, n)
      | head :: rest =>
          match (fix members (l : list (string * value)) : CryptoError + (list (string * value) * nat) :=
                   match l with
                   | [] => inr ([], n)
                   | (k, x) :: l' =>
                       if String.eqb k head then
                         match (match rest with
                                | [] => transformValue op x (join "." path) n
                                | _ => visitPath op x rest n
                                end) with
                         | inl e => inl e
                         | inr (y, n) => inr ((k, y) :: l', n)
                         end
                       else match members l' with inl e => inl e | inr (ys, n) => inr ((k, x) :: ys, n) end
                   end) l with
          | inl e => inl e
          | inr (l', n) => inr (VObject l', n)
          end
      end
  | _ => inr (node, n)
  end.

Fixpoint visitAll (op : Operation) (node : value) (paths : list (list string)) (n : nat) : CryptoError + (value * nat) :=
  match paths with
  | [] => inr (node, n)
  | p :: ps => match visitPath op node p n with inl e => inl e | inr (node, n) => visitAll op node ps n end
  end.

Definition transform (op : Operation) (paths : list (list string)) (payload : value) (n : nat) : CryptoError + (value * nat) :=
  visitAll op (jsonClone payload) paths n.

Definition encryptPayload := transform Encrypt.
Definition decryptPayload := transform Decrypt.
(** ** The walk by itself *)

Fixpoint visitElements (op : Operation) (l : list value) (path : list string) (n : nat) : CryptoError + (list value * nat) :=
  match l with
  | [] => inr ([], n)
  | x :: l' =>
      match visitPath op x path n with
      | inl e => inl e
      | inr (y, n) => match visitElements op l' path n with inl e => inl e | inr (ys, n) => inr (y :: ys, n) end
      end
  end.

(** What is done with the value of the first key of a path. *)
Definition below (op : Operation) (head : string) (rest : list string) (x : value) (n : nat) : CryptoError + (value * nat) :=
  match rest with
  | [] => transformValue op x head n
  | _ => visitPath op x rest n
  end.

Fixpoint visitMembers (op : Operation) (l : list (string * value)) (head : string) (rest : list string) (n : nat) :
    CryptoError + (list (string * value) * nat) :=
  match l with
  | [] => inr ([], n)
  | (k, x) :: l' =>
      if String.eqb k head
      then match below op head rest x n with inl e => inl e | inr (y, n) => inr ((k, y) :: l', n) end
      else match visitMembers op l' head rest n with inl e => inl e | inr (ys, n) => inr ((k, x) :: ys, n) end
  end.

Lemma visitPath_array op l path n :
  visitPath op (VArray l) path n =
  match visitElements op l path n with inl e => inl e | inr (l', n) => inr (VArray l', n) end.
Proof.
  cbn [visitPath]. assert (E : forall n, (fix elements (l : list value) (n : nat) {struct l} : CryptoError + (list value * nat) :=
               match l with
               | [] => inr ([], n)
               | x :: l' =>
                   match visitPath op x path n with
                   | inl e => inl e
                   | inr (y, n) => match elements l' n with inl e => inl e | inr (ys, n) => inr (y :: ys, n) end
                   end
               end) l n = visitElements op l path n).
  { induction l as [|x l IH]; [done|]. intros m. cbn [visitElements]. destruct (visitPath op x path m) as [|[y m']]; [done|]. by rewrite IH. }
  by rewrite E.
Qed.

Lemma visitPath_object op l head rest n :
  visitPath op (VObject l) (head :: rest) n =
  match visitMembers op l head rest n with inl e => inl e | inr (l', n) => inr (VObject l', n) end.
Proof.
  cbn [visitPath]. set (f := fix members (l : list (string * value)) := _). assert (E : f l = visitMembers op l head rest n).
  { induction l as [|[k x] l IH]; [done|]. cbn. unfold below. destruct (String.eqb k head); [by destruct rest|]. by rewrite IH. }
  by rewrite E.
Qed.

(** ** Sealed trees *)

(** A tree with everything below it. *)
Fixpoint parts (v : value) : list value :=
  v :: match v with
       | VArray l => flat_map parts l
       | VObject l => flat_map (fun kv => parts kv.2) l
       | _ => []
       end.

Lemma parts_self v : v ∈ parts v.
Proof. destruct v; left. Qed.
Lemma parts_element l x v : x ∈ l -> v ∈ parts x -> v ∈ parts (VArray l).
Proof. intros Hx Hv. right. apply list_elem_of_In, in_flat_map. exists x. by rewrite <- !list_elem_of_In. Qed.
Lemma parts_member l k x v : (k, x) ∈ l -> v ∈ parts x -> v ∈ parts (VObject l).
Proof. intros Hx Hv. right. apply list_elem_of_In, in_flat_map. exists (k, x). by rewrite <- !list_elem_of_In. Qed.

Context (open_sealed : forall k nonce d plain,
  let '(ciphertext, tag) := sealing k nonce d plain in opening k nonce d ciphertext tag = Some plain).
Context (base64_inverse : forall s, fromBase64url (base64url s) = s).
(** The payload; each of its parts is printed and parsed back. *)
Context (payload : value).
Context (json_inverse : forall v, v ∈ parts payload -> parseJSON (JSON v) = Some v).
Context (active_found : getKey (keyId getActiveKey) = Some getActiveKey).

(** [y] is an envelope that decrypts to [x] as the field [name]. *)
Definition sealedAs (name : string) (x y : value) : Prop :=
  isEncryptedEnvelope y = true /\ decryptValue y name = inr x /\ jsonClone y = y.

(** The tree [w] is [v] with the values at the ends of the paths of [S] sealed. *)
Inductive enc : (list string -> Prop) -> value -> value -> Prop :=
  | enc_leaf (S : list string -> Prop) v : hasMembers v = false -> enc S v v
  | enc_array (S : list string -> Prop) l l' : Forall2 (enc S) l l' -> enc S (VArray l) (VArray l')
  | enc_object (S : list string -> Prop) l l' :
      Forall2 (fun x y : string * value => x.1 = y.1 /\
        (S [x.1] /\ sealedAs x.1 x.2 y.2 \/ ~ S [x.1] /\ enc (fun p => S (x.1 :: p)) x.2 y.2)) l l' ->
      enc S (VObject l) (VObject l').

(** No part of the tree looks like an envelope. *)
Fixpoint noEnvelope (v : value) : bool :=
  negb (isEncryptedEnvelope v) &&
  match v with
  | VArray l => forallb noEnvelope l
  | VObject l => forallb (fun kv => noEnvelope kv.2) l
  | _ => true
  end.

Definition unrelated (p q : list string) : Prop := ~ p `prefix_of` q /\ ~ q `prefix_of` p.

Lemma enc_iff S S' v w : (forall q, S q <-> S' q) -> enc S v w -> enc S' v w.
Proof.
  revert S S' w. induction v as [| |b|n|s|l IH|l IH] using value_ind'; intros S S' w HS H; try (inversion H; subst; by constructor).
  - inversion H as [? ? Hm|? ? l' Hl|]; subst; [done|]. apply enc_array. clear H. induction Hl; [constructor|].
    inversion IH; subst. constructor; eauto.
  - inversion H as [? ? Hm| |? ? l' Hl]; subst; [done|]. apply enc_object. clear H. induction Hl as [|x y l l' [E Hxy] Hl IHl]; [constructor|].
    inversion IH as [|? ? Hx IH']; subst. constructor; [|by apply IHl]. split; [done|].
    destruct Hxy as [[? ?]|[Hn He]]; [left; split; [by apply HS|done]|right]. split; [by rewrite <- HS|].
    eapply Hx; [|done]. intros q. apply HS.
Qed.

Lemma enc_none S v : (forall q, ~ S q) -> enc S v v.
Proof.
  revert S. induction v as [| |b|n|s|l IH|l IH] using value_ind'; intros S HS; try by constructor.
  - apply enc_array. induction IH; constructor; auto.
  - apply enc_object. induction IH as [|x l Hx IH IHl]; constructor; [|done]. split; [done|]. right. split; [apply HS|].
    apply Hx. intros q. apply HS.
Qed.

Lemma enc_none_inv S v w : (forall q, ~ S q) -> enc S v w -> w = v.
Proof.
  revert S w. induction v as [| |b|n|s|l IH|l IH] using value_ind'; intros S w HS H; try by inversion H.
  - inversion H as [? ? Hm|? ? l' Hl|]; subst; [done|]. f_equal. clear H. induction Hl; [done|].
    inversion IH; subst. f_equal; eauto.
  - inversion H as [? ? Hm| |? ? l' Hl]; subst; [done|]. f_equal. clear H. induction Hl as [|[k x] [k' y] l l' [E Hxy] Hl IHl]; [done|].
    inversion IH as [|? ? Hx IH']; subst. cbn in *. subst k'. f_equal; [|by apply IHl]. f_equal.
    destruct Hxy as [[Hs ?]|[Hn He]]; [by apply HS in Hs|]. eapply Hx; [|done]. intros q. apply HS.
Qed.

(** *** JSON trees *)

Lemma jsonClone_array l : jsonClone (VArray l) = VArray l -> Forall (fun v => jsonClone v = v /\ isUndefined v = false) l.
Proof.
  cbn. intros [= E]. induction l as [|x l IH]; [constructor|]. rewrite fmap_cons in E. injection E as Ex El.
  constructor; [|by apply IH]. by destruct x.
Qed.

Lemma jsonClone_members l :
  jsonClone (VObject l) = VObject l -> Forall (fun kv : string * value => jsonClone kv.2 = kv.2 /\ isUndefined kv.2 = false) l.
Proof.
  cbn. set (f := fix members (l : list (string * value)) := _). intros [= E].
  assert (Hlen : forall l, (length (f l) <= length l)%nat).
  { induction l0 as [|[k x] l0 IH]; [done|]. cbn. destruct (isUndefined x); cbn; lia. }
  induction l as [|[k x] l IH]; [constructor|]. cbn in E. destruct (isUndefined x) eqn:Hu.
  - exfalso. specialize (Hlen l). rewrite E in Hlen. cbn in Hlen. lia.
  - injection E as Ex El. constructor; [done|by apply IH].
Qed.

Lemma jsonClone_elements l : Forall (fun v => jsonClone v = v /\ isUndefined v = false) l -> jsonClone (VArray l) = VArray l.
Proof.
  cbn. intros H. f_equal. induction H as [|x l [Hx Hu] H IH]; [done|]. by rewrite fmap_cons, IH, Hu, Hx.
Qed.

Lemma jsonClone_object l :
  Forall (fun kv : string * value => jsonClone kv.2 = kv.2 /\ isUndefined kv.2 = false) l -> jsonClone (VObject l) = VObject l.
Proof.
  cbn. intros H. f_equal. induction H as [|[k x] l [Hx Hu] H IH]; [done|]. cbn in *. by rewrite Hu, IH, Hx.
Qed.

Lemma enc_defined S v w : enc S v w -> isUndefined v = false -> isUndefined w = false.
Proof. inversion 1; by subst. Qed.

Lemma sealed_defined name x y : sealedAs name x y -> isUndefined y = false.
Proof. intros [H _]. by destruct y. Qed.

(** A sealed tree is still a JSON tree. *)
Lemma enc_json S v w : enc S v w -> jsonClone v = v -> jsonClone w = w.
Proof.
  revert S w. induction v as [| |b|n|s|l IH|l IH] using value_ind'; intros S w H Hj; try (by inversion H).
  - inversion H as [? ? Hm|? ? l' Hl|]; subst; [done|]. apply jsonClone_elements. apply jsonClone_array in Hj. clear H.
    induction Hl as [|x y l l' Hxy Hl IHl]; [constructor|]. inversion IH as [|? ? Hx IH']; inversion Hj as [|? ? [Hc Hu] Hj']; subst.
    constructor; [|by apply IHl]. split; [by eapply Hx|by eapply enc_defined].
  - inversion H as [? ? Hm| |? ? l' Hl]; subst; [done|]. apply jsonClone_object. apply jsonClone_members in Hj. clear H.
    induction Hl as [|x y l l' [E Hxy] Hl IHl]; [constructor|].
    inversion IH as [|? ? Hx IH']; inversion Hj as [|? ? [Hc Hu] Hj']; subst. constructor; [|by apply IHl].
    destruct Hxy as [[_ Hs]|[_ He]].
    + split; [apply Hs|by eapply sealed_defined].
    + split; [by eapply Hx|by eapply enc_defined].
Qed.

Lemma envelope_json id nonce c t : jsonClone (envelope id nonce c t) = envelope id nonce c t.
Proof. done. Qed.

Lemma encryptValue_seals v name n :
  v ∈ parts payload -> isUndefined v = false -> isEncryptedEnvelope v = false ->
  sealedAs name v (encryptValue v name n).1.
Proof.
  intros Hj Hu He. unfold encryptValue. rewrite Hu, He. cbn [orb].
  pose proof (open_sealed (normalizeKey (key getActiveKey)) (randomBytes n) (aad (keyId getActiveKey) name) (JSON v)) as Ho.
  destruct (sealing _ _ _ _) as [c t]. split; [done|]. split; [|apply envelope_json].
  unfold decryptValue. change (isEncryptedEnvelope _) with true. cbn [negb fst]. change (textOf (member _ "keyId")) with (keyId getActiveKey).
  rewrite active_found. unfold textOf, member, envelope. cbn [assoc_get].
  change (fromBase64url _) with (fromBase64url (base64url (randomBytes n))) at 1.
  change (opening _ _ _ _ _) with
    (opening (normalizeKey (key getActiveKey)) (fromBase64url (base64url (randomBytes n))) (aad (keyId getActiveKey) name)
       (fromBase64url (base64url c)) (fromBase64url (base64url t))).
  by rewrite !base64_inverse, Ho, json_inverse.
Qed.

Lemma unrelated_tail k p q : unrelated (k :: p) (k :: q) -> unrelated p q.
Proof. intros [H1 H2]. split; intros [r ->]; [apply H1|apply H2]; by exists r. Qed.

Lemma noEnvelope_self v : noEnvelope v = true -> isEncryptedEnvelope v = false.
Proof. destruct v; cbn [noEnvelope]; intros H; apply andb_true_iff in H as [H _]; by apply negb_true_iff in H. Qed.

Lemma noEnvelope_elements l : noEnvelope (VArray l) = true -> Forall (fun v => noEnvelope v = true) l.
Proof. cbn [noEnvelope]. intros [_ H]%andb_true_iff. rewrite forallb_forall in H. apply Forall_forall. intros x Hx. by apply H, list_elem_of_In. Qed.

Lemma noEnvelope_members l : noEnvelope (VObject l) = true -> Forall (fun kv : string * value => noEnvelope kv.2 = true) l.
Proof. cbn [noEnvelope]. intros [_ H]%andb_true_iff. rewrite forallb_forall in H. apply Forall_forall. intros x Hx. by apply H, list_elem_of_In. Qed.

(** Parts of the payload that are JSON, without envelopes and with keys of their own. *)
Definition plain (v : value) : Prop :=
  parts v ⊆ parts payload /\ jsonClone v = v /\ noEnvelope v = true /\ wf v = true.

(** What the members around a path see of a set of paths when [S] becomes [S']. *)
Definition changes_at (p : list string) (S S' : list string -> Prop) : Prop :=
  forall k q, (forall rest, p <> k :: rest) -> S' (k :: q) <-> S (k :: q).

Definition member_enc (S : list string -> Prop) (x y : string * value) : Prop :=
  x.1 = y.1 /\ (S [x.1] /\ sealedAs x.1 x.2 y.2 \/ ~ S [x.1] /\ enc (fun p => S (x.1 :: p)) x.2 y.2).

Lemma member_enc_elsewhere h rest S S' x y :
  changes_at (h :: rest) S S' -> x.1 <> h -> member_enc S x y -> member_enc S' x y.
Proof.
  intros Hc Hne [E H]. assert (Hk : forall q, S' (x.1 :: q) <-> S (x.1 :: q)) by (intros q; apply Hc; congruence).
  split; [done|]. destruct H as [[? ?]|[? ?]]; [left|right]; (split; [by rewrite Hk|]); [done|].
  eapply enc_iff; [|done]. intros q. by rewrite Hk.
Qed.

Lemma members_enc_elsewhere h rest S S' l l' :
  changes_at (h :: rest) S S' -> h ∉ l.*1 -> Forall2 (member_enc S) l l' -> Forall2 (member_enc S') l l'.
Proof.
  intros Hc Hn H. induction H as [|x y l l' Hxy H IH]; [constructor|]. cbn in Hn. apply not_elem_of_cons in Hn as [? ?].
  constructor; [|by apply IH]. eapply member_enc_elsewhere; [done| |done]. congruence.
Qed.

(** A walk through the members: one of them is taken on, the others stay as they are. *)
Lemma visitMembers_step op h rest S S' l l' n :
  changes_at (h :: rest) S S' -> NoDup l.*1 -> Forall2 (member_enc S) l l' ->
  (forall x y n, (h, x) ∈ l -> member_enc S (h, x) (h, y) ->
     exists z m, below op h rest y n = inr (z, m) /\ member_enc S' (h, x) (h, z)) ->
  exists m l2, visitMembers op l' h rest n = inr (l2, m) /\ Forall2 (member_enc S') l l2.
Proof.
  intros Hc Hnd H Hat. induction H as [|[k x] [k' y] l l' Hxy H IH]; [by exists n, []|].
  pose proof Hxy as [E _]. cbn in E. subst k'. cbn in Hnd. apply NoDup_cons in Hnd as [Hk Hnd]. cbn [visitMembers].
  destruct (String.eqb_spec k h) as [->|Hne].
  - destruct (Hat x y n ltac:(left) Hxy) as (z & m & -> & Hz). exists m, ((h, z) :: l'). split; [done|].
    constructor; [done|]. by eapply members_enc_elsewhere.
  - destruct IH as (m & l2 & -> & Hl2); [done| |].
    { intros x' y' n' Hin. apply Hat. by right. }
    exists m, ((k, y) :: l2). split; [done|]. constructor; [|done]. by eapply member_enc_elsewhere.
Qed.

Lemma visitElements_step op p S S' l l' n :
  Forall2 (enc S) l l' ->
  Forall (fun x => forall y n, enc S x y -> exists z m, visitPath op y p n = inr (z, m) /\ enc S' x z) l ->
  exists m l2, visitElements op l' p n = inr (l2, m) /\ Forall2 (enc S') l l2.
Proof.
  intros H. revert n. induction H as [|x y l l' Hxy H IH]; intros n Hat; [by exists n, []|].
  inversion Hat as [|? ? Hx Hat']; subst. cbn [visitElements]. destruct (Hx y n Hxy) as (z & m & -> & Hz).
  destruct (IH m Hat') as (m2 & l2 & -> & Hl2). exists m2, (z :: l2). split; [done|]. by constructor.
Qed.

Lemma plain_elements l x : plain (VArray l) -> x ∈ l -> plain x.
Proof.
  intros (Hp & Hj & He & Hw) Hx. apply jsonClone_array in Hj. apply noEnvelope_elements in He. cbn in Hw.
  rewrite forallb_forall in Hw. rewrite Forall_forall in Hj, He.
  split; [intros y Hy; by apply Hp, (parts_element l x)|]. split; [apply (Hj x Hx)|]. split; [auto|]. by apply Hw, list_elem_of_In.
Qed.

Lemma plain_members l k x : plain (VObject l) -> (k, x) ∈ l -> plain x /\ isUndefined x = false.
Proof.
  intros (Hp & Hj & He & Hw) Hx. apply jsonClone_members in Hj. apply noEnvelope_members in He. cbn in Hw.
  apply andb_true_iff in Hw as [_ Hw]. rewrite forallb_forall in Hw. rewrite Forall_forall in Hj, He.
  split; [|apply (Hj _ Hx)].
  split; [intros y Hy; by apply Hp, (parts_member l k x)|]. split; [apply (Hj _ Hx)|]. split; [apply (He _ Hx)|]. by apply (Hw (k, x)), list_elem_of_In.
Qed.

Lemma plain_keys l : plain (VObject l) -> NoDup l.*1.
Proof. intros (_ & _ & _ & Hw). cbn in Hw. apply andb_true_iff in Hw as [Hw _]. by apply bool_decide_eq_true in Hw. Qed.

(** A leaf has nothing to visit. *)
Lemma visit_leaf op S S' v w p n :
  hasMembers v = false -> enc S v w -> visitPath op w p n = inr (w, n) /\ enc S' v w.
Proof. intros Hm H. inversion H; subst; [|done..]. split; [by destruct w|by apply enc_leaf]. Qed.

Lemma encrypt_step v S w p n :
  plain v -> enc S v w -> (forall q, S q -> unrelated q p) -> p <> [] ->
  exists w' m, visitPath Encrypt w p n = inr (w', m) /\ enc (fun q => q = p \/ S q) v w'.
Proof.
  revert S w p n. induction v as [| |b|x|s|l IH|l IH] using value_ind'; intros S w p n Hv H Hu Hp;
    try (edestruct (visit_leaf Encrypt S (fun q => q = p \/ S q)); [|exact H|by eauto]; done).
  - inversion H as [? ? Hm|? ? l' Hl|]; subst; [done|]. rewrite visitPath_array.
    destruct (visitElements_step Encrypt p S (fun q => q = p \/ S q) l l' n Hl) as (m & l2 & -> & Hl2).
    { rewrite Forall_forall in IH |- *. intros x Hx y k Hy. eapply IH; try done. by eapply plain_elements. }
    exists (VArray l2), m. split; [done|]. by apply enc_array.
  - inversion H as [? ? Hm| |? ? l' Hl]; subst; [done|]. destruct p as [|h rest]; [done|]. rewrite visitPath_object.
    destruct (visitMembers_step Encrypt h rest S (fun q => q = h :: rest \/ S q) l l' n) as (m & l2 & -> & Hl2).
    + intros k q Hk. split; [|by right]. intros [E|?]; [by destruct (Hk q)|done].
    + by apply plain_keys.
    + exact Hl.
    + intros x y k Hx [_ Hxy]. cbn in Hxy. destruct (plain_members _ _ _ Hv Hx) as [Hpx Hux]. destruct rest as [|r rs].
      * destruct Hxy as [[Hs _]|[_ He]]; [destruct (Hu _ Hs) as [Hn _]; by destruct Hn|].
        apply enc_none_inv in He as ->; [|intros q [_ Hn]%Hu; apply Hn; by exists q]. cbn [below transformValue].
        destruct (encryptValue x h k) as [z m] eqn:E. exists z, m. split; [done|]. split; [done|]. left. split; [by left|].
        cbn. replace z with (encryptValue x h k).1 by (by rewrite E). destruct Hpx as (Hin & ? & ? & ?).
        apply encryptValue_seals; [apply Hin, parts_self|done|by apply noEnvelope_self].
      * destruct Hxy as [[Hs _]|[_ He]]; [destruct (Hu _ Hs) as [Hn _]; destruct Hn; by exists (r :: rs)|].
        rewrite Forall_forall in IH. destruct (IH _ Hx (fun q => S (h :: q)) y (r :: rs) k) as (z & m & E & Hz); try done.
        { intros q Hq. apply (unrelated_tail h). by apply Hu. }
        exists z, m. split; [done|]. split; [done|]. right. cbn. split.
        -- intros [E'|Hs]; [done|]. destruct (Hu _ Hs) as [Hn _]. destruct Hn. by exists (r :: rs).
        -- eapply enc_iff; [|exact Hz]. intros q. cbn. split; [intros [->|?]; auto|intros [[= ->]|?]; auto].
    + exists (VObject l2), m. split; [done|]. by apply enc_object.
Qed.

Lemma decrypt_step v S w p n :
  plain v -> enc S v w -> S p -> (forall q, S q -> q <> p -> unrelated q p) -> p <> [] ->
  exists w' m, visitPath Decrypt w p n = inr (w', m) /\ enc (fun q => S q /\ q <> p) v w'.
Proof.
  revert S w p n. induction v as [| |b|x|s|l IH|l IH] using value_ind'; intros S w p n Hv H Hs Hu Hp;
    try (edestruct (visit_leaf Decrypt S (fun q => S q /\ q <> p)); [|exact H|by eauto]; done).
  - inversion H as [? ? Hm|? ? l' Hl|]; subst; [done|]. rewrite visitPath_array.
    destruct (visitElements_step Decrypt p S (fun q => S q /\ q <> p) l l' n Hl) as (m & l2 & -> & Hl2).
    { rewrite Forall_forall in IH |- *. intros x Hx y k Hy. eapply IH; try done. by eapply plain_elements. }
    exists (VArray l2), m. split; [done|]. by apply enc_array.
  - inversion H as [? ? Hm| |? ? l' Hl]; subst; [done|]. destruct p as [|h rest]; [done|]. rewrite visitPath_object.
    destruct (visitMembers_step Decrypt h rest S (fun q => S q /\ q <> h :: rest) l l' n) as (m & l2 & -> & Hl2).
    + intros k q Hk. split; [by intros []|]. intros ?. split; [done|]. intros E. by destruct (Hk q).
    + by apply plain_keys.
    + exact Hl.
    + intros x y k Hx [_ Hxy]. cbn in Hxy. destruct (plain_members _ _ _ Hv Hx) as [Hpx Hux]. destruct rest as [|r rs].
      * destruct Hxy as [[_ (Hy & Hd & _)]|[Hn _]]; [|done]. cbn [below transformValue]. rewrite Hd. exists x, k.
        split; [done|]. split; [done|]. right. cbn. split; [by intros []|]. apply enc_none. intros q [Hq Hne].
        destruct (Hu _ Hq Hne) as [_ Hn]. apply Hn. by exists q.
      * destruct Hxy as [[Hh _]|[Hn He]]; [destruct (Hu _ Hh) as [Hn _]; [done|]; destruct Hn; by exists (r :: rs)|].
        rewrite Forall_forall in IH. destruct (IH _ Hx (fun q => S (h :: q)) y (r :: rs) k) as (z & m & E & Hz); try done.
        { intros q Hq Hne. apply (unrelated_tail h). apply Hu; [done|]. congruence. }
        exists z, m. split; [done|]. split; [done|]. right. cbn. split; [by intros []|].
        eapply enc_iff; [|exact Hz]. intros q. cbn. split; (intros []; split; [done|congruence]).
    + exists (VObject l2), m. split; [done|]. by apply enc_object.
Qed.

Lemma encrypt_all ps v S w n :
  plain v -> enc S v w -> Forall (fun p => p <> []) ps -> NoDup ps ->
  (forall p q, p ∈ ps -> S q -> unrelated q p) -> (forall p q, p ∈ ps -> q ∈ ps -> p <> q -> unrelated q p) ->
  exists w' m, visitAll Encrypt w ps n = inr (w', m) /\ enc (fun q => q ∈ ps \/ S q) v w'.
Proof.
  intros Hv. revert S w n. induction ps as [|p ps IH]; intros S w n H Hne Hnd HS Hps.
  { exists w, n. split; [done|]. eapply enc_iff; [|done]. intros q. split; [by right|]. by intros [?%elem_of_nil|]. }
  apply Forall_cons in Hne as [Hp0 Hne]. apply NoDup_cons in Hnd as [Hp Hnd]. cbn [visitAll].
  destruct (encrypt_step v S w p n Hv H) as (w1 & m1 & -> & H1); [intros q Hq; apply HS; [left|done]|done|].
  destruct (IH (fun q => q = p \/ S q) w1 m1 H1) as (w2 & m2 & E & H2); try done.
  { intros p' q Hp' [->|Hq]; [|apply HS; [by right|done]]. apply Hps; [by right|left|]. by intros ->. }
  { intros p' q Hp' Hq. apply Hps; by right. }
  exists w2, m2. split; [done|]. eapply enc_iff; [|exact H2]. intros q. rewrite elem_of_cons. tauto.
Qed.

Lemma decrypt_all ps v S w n :
  plain v -> enc S v w -> Forall (fun p => p <> []) ps -> NoDup ps ->
  (forall p, p ∈ ps -> S p) -> (forall p q, S p -> S q -> p <> q -> unrelated q p) ->
  exists w' m, visitAll Decrypt w ps n = inr (w', m) /\ enc (fun q => S q /\ q ∉ ps) v w'.
Proof.
  intros Hv. revert S w n. induction ps as [|p ps IH]; intros S w n H Hne Hnd Hin Hu.
  { exists w, n. split; [done|]. eapply enc_iff; [|done]. intros q. split; [|by intros []]. intros ?. split; [done|]. by intros ?%elem_of_nil. }
  apply Forall_cons in Hne as [Hp0 Hne]. apply NoDup_cons in Hnd as [Hp Hnd]. cbn [visitAll]. pose proof (Hin p ltac:(left)) as Hpin.
  destruct (decrypt_step v S w p n Hv H) as (w1 & m1 & -> & H1); [done|intros q Hq Hqp; apply Hu; [done|done|congruence]|done|].
  destruct (IH (fun q => S q /\ q <> p) w1 m1 H1) as (w2 & m2 & E & H2); try done.
  { intros q Hq. split; [apply Hin; by right|]. by intros ->. }
  { intros q r [Hq _] [Hr _]. by apply Hu. }
  exists w2, m2. split; [done|]. eapply enc_iff; [|exact H2]. intros q. cbn. rewrite not_elem_of_cons. tauto.
Qed.

(** The places a path leads to. *)
Inductive leadsTo : value -> list string -> value -> Prop :=
  | leads_array l x p y : x ∈ l -> leadsTo x p y -> leadsTo (VArray l) p y
  | leads_here l k x : (k, x) ∈ l -> leadsTo (VObject l) [k] x
  | leads_below l k x p y : (k, x) ∈ l -> p <> [] -> leadsTo x p y -> leadsTo (VObject l) (k :: p) y.

Lemma enc_covers S v w p y :
  enc S v w -> S p -> (forall q, S q -> q <> p -> unrelated q p) -> leadsTo w p y -> isEncryptedEnvelope y = true.
Proof.
  intros H Hs Hu Hl. revert S v H Hs Hu. induction Hl as [l x p y Hx Hl IH|l k x Hx|l k x p y Hx Hne Hl IH]; intros S v H Hs Hu.
  - inversion H as [? ? Hm|? l0 ? Hf|]; subst; [done|]. apply list_elem_of_lookup in Hx as [i Hi].
    destruct (Forall2_lookup_r _ _ _ _ _ Hf Hi) as (x0 & _ & Hx0). by eapply IH.
  - inversion H as [? ? Hm| |? l0 ? Hf]; subst; [done|]. apply list_elem_of_lookup in Hx as [i Hi].
    destruct (Forall2_lookup_r _ _ _ _ _ Hf Hi) as ([k0 x0] & _ & E & Hx0). cbn in E. subst k0.
    destruct Hx0 as [[_ (? & _)]|[Hn _]]; done.
  - inversion H as [? ? Hm| |? l0 ? Hf]; subst; [done|]. apply list_elem_of_lookup in Hx as [i Hi].
    destruct (Forall2_lookup_r _ _ _ _ _ Hf Hi) as ([k0 x0] & _ & E & Hx0). cbn in E. subst k0.
    destruct Hx0 as [[Hk _]|[_ He]].
    + destruct (Hu _ Hk) as [Hn _]; [congruence|]. destruct Hn. by exists p.
    + eapply IH; [exact He|done|]. intros q Hq Hqp. apply (unrelated_tail k). apply Hu; [done|congruence].
Qed.

Lemma round_trip ps n m :
  plain payload -> Forall (fun p => p <> []) ps -> NoDup ps -> (forall p q, p ∈ ps -> q ∈ ps -> p <> q -> unrelated q p) ->
  exists w k k', visitAll Encrypt payload ps n = inr (w, k) /\ jsonClone w = w /\
    (forall p y, p ∈ ps -> leadsTo w p y -> isEncryptedEnvelope y = true) /\
    visitAll Decrypt w ps m = inr (payload, k').
Proof.
  intros Hv Hne Hnd Hu.
  destruct (encrypt_all ps payload (fun _ => False) payload n Hv) as (w & k & E & Hw); try done; [apply enc_none; by intros q []|].
  destruct (decrypt_all ps payload _ w m Hv Hw Hne Hnd) as (w' & k' & E' & Hw').
  { by left. }
  { intros p q [Hp|[]] [Hq|[]]. by apply Hu. }
  apply enc_none_inv in Hw' as ->; [|intros q [[?|[]] ?]; done]. exists w, k, k'. split_and!; [done| | |done].
  - eapply enc_json; [exact Hw|]. by destruct Hv as (_ & ? & _).
  - intros p y Hp. eapply enc_covers; [exact Hw|by left|]. intros q [Hq|[]] Hne'. by apply Hu.
Qed.
End encryption.

Lemma jsonClone_defined v : isUndefined v = false -> isUndefined (jsonClone v) = false.
Proof. destruct v as [| |b|n|s|l|l]; try done. by destruct n. Qed.

Lemma jsonClone_idem v : jsonClone (jsonClone v) = jsonClone v.
Proof.
  induction v as [| |b|x|s|l IH|l IH] using value_ind'; try done.
  - by destruct x.
  - cbn. f_equal. rewrite <- list_fmap_compose. apply list_fmap_ext. intros i x Hx. cbn.
    rewrite Forall_forall in IH. destruct (isUndefined x) eqn:E; [done|].
    pose proof (jsonClone_defined x E) as Hu.
    rewrite Hu. apply IH. by eapply list_elem_of_lookup_2.
  - cbn. f_equal. induction IH as [|[k x] l Hx IH IHl]; [done|]. cbn in *. destruct (isUndefined x) eqn:E; [done|]. cbn.
    pose proof (jsonClone_defined x E) as Hu.
    by rewrite Hu, Hx, IHl.
Qed.

Lemma parsePaths_nonempty l ps : parsePaths l = inr ps -> Forall (fun p => p <> []) ps.
Proof.
  revert ps. induction l as [|x l IH]; intros ps; cbn; [by intros [= <-]|].
  destruct (parsePath x) as [|parts] eqn:E; [done|]. destruct (parsePaths l) as [|ps']; [done|]. intros [= <-].
  constructor; [|by apply IH]. unfold parsePath in E. by destruct (filter _ _); [|injection E as <-].
Qed.

(** [StaticKeyProvider] *)
Definition staticGetKey (activeKey : PayloadEncryptionKey) (keys : list PayloadEncryptionKey) (id : string) :
    option PayloadEncryptionKey :=
  head (filter (fun k => keyId k = id) (activeKey :: keys)).

Lemma staticGetKey_active a keys : staticGetKey a keys (keyId a) = Some a.
Proof. unfold staticGetKey. by rewrite filter_cons, decide_True. Qed.

(** C35: with sensitive paths none of which is a beginning of another, and a payload no
    part of which looks like an envelope, encryption succeeds, leaves an envelope at the
    end of every sensitive path, and decryption gives back the payload as JSON. *)
Theorem payload_round_trip sealing opening sha256 fromBase64 base64url fromBase64url JSON parseJSON randomBytes
    activeKey getKey aadContext fields ps payload n m :
  (forall k nonce d plain, let '(c, t) := sealing k nonce d plain in opening k nonce d c t = Some plain) ->
  (forall s, fromBase64url (base64url s) = s) ->
  (forall v, v ∈ parts (jsonClone payload) -> parseJSON (JSON v) = Some v) ->
  getKey (keyId activeKey) = Some activeKey ->
  parsePaths fields = inr ps -> NoDup ps -> (forall p q, p ∈ ps -> q ∈ ps -> p <> q -> ~ p `prefix_of` q) ->
  noEnvelope (jsonClone payload) = true -> wf (jsonClone payload) = true ->
  exists w k k',
    encryptPayload sealing opening sha256 fromBase64 base64url fromBase64url JSON parseJSON randomBytes
      activeKey getKey aadContext ps payload n = inr (w, k) /\
    (forall p y, p ∈ ps -> leadsTo w p y -> isEncryptedEnvelope y = true) /\
    decryptPayload sealing opening sha256 fromBase64 base64url fromBase64url JSON parseJSON randomBytes
      activeKey getKey aadContext ps w m = inr (jsonClone payload, k').
Proof.
  intros Hs Hb Hj Hk Hps Hnd Hu He Hw.
  apply parsePaths_nonempty in Hps. set (v := jsonClone payload) in *.
  assert (Hv : plain v v) by (split_and!; [done|by apply jsonClone_idem|done|done]).
  assert (Hun : forall p q, p ∈ ps -> q ∈ ps -> p <> q -> unrelated q p) by (intros; split; apply Hu; congruence).
  destruct (round_trip sealing opening sha256 fromBase64 base64url fromBase64url JSON parseJSON randomBytes activeKey getKey
    aadContext Hs Hb v Hj Hk ps n m Hv Hps Hnd Hun) as (w & k & k' & E & Hc & Hl & E').
  exists w, k, k'. unfold encryptPayload, decryptPayload, transform. split_and!; [done|done|]. by rewrite Hc.
Qed.

(** ** Concrete payloads *)

Module Examples.
Local Open Scope string_scope.
Local Open Scope list_scope.

(** Sealing keeps the text and uses the data as tag; the parser knows some texts. *)
Definition sealing (k nonce d plain : string) : string * string := (plain, d).
Definition opening (k nonce d c t : string) : option string := if String.eqb t d then Some c else None.
Fixpoint print (v : value) : string :=
  match v with
  | VString s => quoted s
  | VArray l => "[" +:+ join "," (print <$> l) +:+ "]"
  | VObject l =>
      "{" +:+ join "," ((fix members (l : list (string * value)) :=
                           match l with [] => [] | (k, x) :: l' => (quoted k +:+ ":" +:+ print x) :: members l' end) l) +:+ "}"
  | _ => "null"
  end.
Definition person (s : string) : value := VObject [("ssn", VString s)].
Definition couple : value := VObject [("a", person "1"); ("b", VArray [person "2"; VNull])].
Definition sealedPerson : value := VObject [("ssn", envelope "k1" "" (quoted "1") "verinode:ssn:k1")].
Definition parse (t : string) : option value :=
  head (filter (fun v => print v = t) (parts couple ++ [sealedPerson])).

Definition active : PayloadEncryptionKey := mkKey "k1" (KeyBuffer "0123456789abcdef0123456789abcdef").
Abbreviation enc_ := (encryptPayload sealing opening (fun s => s) (fun s => s) (fun s => s) (fun s => s) print parse
  (fun n => zeros n) active (staticGetKey active []) None).
Abbreviation dec_ := (decryptPayload sealing opening (fun s => s) (fun s => s) (fun s => s) (fun s => s) print parse
  (fun n => zeros n) active (staticGetKey active []) None).

Definition paths : list (list string) := [["a"; "ssn"]; ["b"; "ssn"]].

Lemma payload_round_trip_witness :
  parsePaths ["a. ssn"; "b.ssn"] = inr paths /\
  exists w k k', enc_ paths couple 0 = inr (w, k) /\
    (forall p y, p ∈ paths -> leadsTo w p y -> isEncryptedEnvelope y = true) /\ dec_ paths w 0 = inr (couple, k').
Proof.
  split; [vm_compute; reflexivity|].
  apply (payload_round_trip sealing opening (fun s => s) (fun s => s) (fun s => s) (fun s => s) print parse
    (fun n => zeros n) active (staticGetKey active []) None ["a. ssn"; "b.ssn"] paths couple 0 0).
  - intros k nonce d plain. cbn. unfold opening. by rewrite String.eqb_refl.
  - reflexivity.
  - apply Forall_forall. let l := eval vm_compute in (parts (jsonClone couple)) in change (parts (jsonClone couple)) with l.
    repeat (apply Forall_cons; split; [vm_compute; reflexivity|]). apply Forall_nil. exact I.
  - apply staticGetKey_active.
  - vm_compute. reflexivity.
  - apply (bool_decide_unpack _). vm_compute. exact I.
  - intros p q Hp Hq Hne [r E]. apply elem_of_cons in Hp as [->|Hp%list_elem_of_singleton]; apply elem_of_cons in Hq as [->|Hq%list_elem_of_singleton];
      subst; discriminate || (by apply Hne).
  - vm_compute. reflexivity.
  - vm_compute. reflexivity.
Defined.

(** A path that comes before a beginning of it stays encrypted: the outer envelope is
    opened after the inner path has been visited. *)
Lemma nested_path_stays_encrypted :
  match enc_ [["a"; "ssn"]; ["a"]] couple 0 with
  | inr (w, _) => match dec_ [["a"; "ssn"]; ["a"]] w 0 with
                  | inr (v, _) => isEncryptedEnvelope (member (member v "a") "ssn")
                  | inl _ => false
                  end
  | inl _ => false
  end = true.
Proof. by vm_compute. Qed.

(** The data bound to a value are its last key and the key id, not its path: an envelope
    moved to another place decrypts there. *)
Definition swapped (w : value) : value :=
  VObject [("a", VObject [("ssn", member (index_member "0" 0 match member w "b" with VArray l => l | _ => [] end) "ssn")])].

Lemma moved_envelope_decrypts :
  match enc_ paths couple 0 with
  | inr (w, _) => dec_ paths (swapped w) 0
  | inl e => inl e
  end = inr (VObject [("a", person "2")], 0%nat).
Proof. by vm_compute. Qed.

(** What looks like an envelope is not encrypted. *)
Definition forged : value := VObject [("a", VObject [("ssn", envelope "k1" "" "in the clear" "")])].
Lemma forged_envelope_stays_clear : enc_ paths forged 0 = inr (forged, 0%nat).
Proof. by vm_compute. Qed.

(** A key that is gone. *)
Lemma unknown_key_fails :
  dec_ paths (VObject [("a", VObject [("ssn", envelope "k0" "" "" "")])]) 0 = inl (UnknownKey "k0").
Proof. by vm_compute. Qed.
End Examples.
