(* ===== verification/Mtls.v ===== *)
(** * Identities and certificates of the service mesh ([src/src/security/mtls.ts])

    SPIFFE ids, the checks of a peer's certificate, the settings from the environment and
    the manager that loads and reloads its own certificate.  Parsing a certificate,
    making a context of it and the hash of the files are arguments of the model; what the
    files hold is in the events.  The metrics text is left out.

    [spiffe_round_trip]: exactly the ids of a service and a pod without slashes are read
    back.  [peer_accepted]: which peers are let in.
    [served_certificate_kept]: the certificate in use is the last that loaded, it met
    the policy, and failing reloads change nothing but their count.
    [latency_histogram]: the buckets count the observations up to their bounds. *)

From Stdlib Require Import ZArith Lia Ascii String QArith Qround.
From stdpp Require Import base numbers list strings sets.
From S2P Require Import Prelude Js Text Number Config.
#[local] Open Scope Z_scope.

(** ** Identities *)

Record VeriNodeSpiffeIdentity := mkIdentity { trustDomain : string; serviceName : string; podId : string }.

(** The text before the first separator, and after it. *)
Fixpoint cutFirst (sep : ascii) (s : string) : option (string * string) :=
  match s with
  | EmptyString => None
  | String c s' => if Ascii.eqb c sep then Some ("", s') else match cutFirst sep s' with Some (a, b) => Some (String c a, b) | None => None end
  end.

Definition parseVeriNodeSpiffeId (spiffeId : string) : option VeriNodeSpiffeIdentity :=
  match stripPrefix "spiffe://" spiffeId with
  | None => None
  | Some rest =>
      match cutFirst "/" rest with
      | None => None
      | Some (domain, path) =>
          match split "/" path with
          | [service; pod] => if falsy service || falsy pod then None else Some (mkIdentity domain service pod)
          | _ => None
          end
      end
  end.

Definition buildVeriNodeSpiffeId (service pod : string) : string :=
  "spiffe://verinode.labs/" +:+ service +:+ "/" +:+ pod.

(** [subjectAltName.split(/,\s*/)], each part trimmed, and the URIs among them *)
Definition extractSpiffeIds (subjectAltName : option string) : list string :=
  match subjectAltName with
  | None => []
  | Some s => if falsy s then []
              else omap (fun entry => match stripPrefix "URI:" entry with
                                      | Some id => if String.prefix "spiffe://" id then Some id else None
                                      | None => None
                                      end) (trim <$> split "," s)
  end.

Definition validateSpiffeIdentity (spiffeIds : list string) (domain : string) (allowedSpiffeIds : list string) : bool :=
  existsb (fun id => String.prefix ("spiffe://" +:+ domain +:+ "/") id &&
                     (bool_decide (allowedSpiffeIds = []) || bool_decide (id ∈ allowedSpiffeIds))) spiffeIds.

Definition validatePeerCertificate (subjectaltname : option string) (domain : string) (allowedSpiffeIds : list string) : bool :=
  validateSpiffeIdentity (extractSpiffeIds subjectaltname) domain allowedSpiffeIds.

Definition ofVeriNode (id : string) : option string :=
  match parseVeriNodeSpiffeId id with
  | Some i => if String.eqb (trustDomain i) "verinode.labs" then Some (serviceName i) else None
  | None => None
  end.

Definition extractVeriNodeServiceName (subjectaltname : option string) : option string :=
  head (omap ofVeriNode (extractSpiffeIds subjectaltname)).

Definition verifyPeerServiceIdentity (subjectaltname : option string) (allowedServiceNames : list string) : bool :=
  match extractVeriNodeServiceName subjectaltname with
  | None => false
  | Some service => bool_decide (allowedServiceNames = []) || bool_decide (service ∈ allowedServiceNames)
  end.

(** ** Settings *)

Definition DEFAULT_CERT_MAX_VALIDITY_MS : Z := 24 * 60 * 60 * 1000.
Definition DEFAULT_MIN_SECONDS_UNTIL_EXPIRY : Z := 60 * 60.
Definition DEFAULT_RELOAD_POLL_MS : Z := 30000.

Record MtlsConfig := mkMtlsConfig {
  enabled : bool;
  certFile : option string;
  keyFile : option string;
  caFile : option string;
  c_trustDomain : string;
  allowedSpiffeIds : list string;
  certMaxValidityMs : number;
  minSecondsUntilExpiry : number;
  reloadPollMs : number
}.

(** [!value] of an optional text *)
Definition missing (o : option string) : bool := match o with Some s => falsy s | None => true end.

Definition splitCsv (o : option string) : list string :=
  match o with
  | None => []
  | Some s => if falsy s then [] else filter (fun v => falsy v = false) (trim <$> split "," s)
  end.

Definition positiveInt (o : option string) (fallback : Z) : number :=
  match o with
  | None => int fallback
  | Some s =>
      if falsy s then int fallback
      else match Number_ s with
           | Finite q => if num_lt (int 0) (Finite q) then int (Qfloor q) else int fallback
           | _ => int fallback
           end
  end.

Definition mtlsConfigFromEnv (env : string -> option string) : MtlsConfig :=
  let on := env "VERINODE_MTLS_ENABLED" in
  mkMtlsConfig (bool_decide (on = Some "true") || bool_decide (on = Some "1"))
    (env "VERINODE_MTLS_CERT_FILE") (env "VERINODE_MTLS_KEY_FILE") (env "VERINODE_MTLS_CA_FILE")
    (match env "SPIFFE_TRUST_DOMAIN" with Some d => if falsy d then "cluster.local" else d | None => "cluster.local" end)
    (splitCsv (env "SPIFFE_ALLOWED_IDS"))
    (positiveInt (env "VERINODE_MTLS_CERT_MAX_VALIDITY_MS") DEFAULT_CERT_MAX_VALIDITY_MS)
    (positiveInt (env "VERINODE_MTLS_MIN_SECONDS_UNTIL_EXPIRY") DEFAULT_MIN_SECONDS_UNTIL_EXPIRY)
    (positiveInt (env "VERINODE_MTLS_RELOAD_POLL_MS") DEFAULT_RELOAD_POLL_MS).

Inductive MeshIssue := NoTrustDomain | NoAllowedIds | ValidityTooLong | ExpiryWarningTooShort | PollsTooOften.

Definition validateServiceMeshConfig (c : MtlsConfig) : list MeshIssue :=
  if negb (enabled c) then []
  else
    (if falsy (trim (c_trustDomain c)) then [NoTrustDomain] else []) ++
    (if bool_decide (allowedSpiffeIds c = []) then [NoAllowedIds] else []) ++
    (if num_lt (int DEFAULT_CERT_MAX_VALIDITY_MS) (certMaxValidityMs c) then [ValidityTooLong] else []) ++
    (if num_lt (minSecondsUntilExpiry c) (int 300) then [ExpiryWarningTooShort] else []) ++
    (if num_lt (reloadPollMs c) (int 10000) then [PollsTooOften] else []).

(** The settings that are missing. *)
Definition assertConfigured (c : MtlsConfig) : list string :=
  (if missing (certFile c) then ["VERINODE_MTLS_CERT_FILE"] else []) ++
  (if missing (keyFile c) then ["VERINODE_MTLS_KEY_FILE"] else []) ++
  (if missing (caFile c) then ["VERINODE_MTLS_CA_FILE"] else []).

(** ** The certificate manager *)

(** What [X509Certificate] says of a certificate. *)
Record Certificate := mkCertificate { subjectAltName : option string; validFrom : Z; validTo : Z }.

(** The contents of the three files, if they can be read. *)
Record Files := mkFiles { certPem : option string; keyPem : option string; caPem : option string }.

Record LoadedCertificate := mkLoaded { l_cert : string; l_key : string; l_ca : string; spiffeIds : list string; l_validTo : Z }.

Inductive LoadError := NotConfigured (names : list string) | CannotRead | BadCertificate | ValidityExceeded | NoIdentity | BadContext.

Definition LATENCY_BOUNDARIES : list Z := [1; 5; 10; 25; 50; 100; 250; 500; 1000].

Record Manager := mkManager {
  loaded : option LoadedCertificate;
  contentHash : string;
  watching : bool;                          (* the watcher and the timer *)
  reloadFailuresTotal : Z;
  certificateReloadsTotal : Z;
  handshakeFailuresTotal : Z;
  invalidPeerIdentityFailuresTotal : Z;
  latencyCounts : list Z;
  latencySum : number;
  latencyTotal : Z
}.

Section manager.
Context (parseCertificate : string -> option Certificate).
Context (contextFails : string -> string -> string -> bool).      (* [tls.createSecureContext] throws *)
Context (sha256 : string -> string).
Context (c : MtlsConfig).

(** [None]: the constructor throws *)
Definition new_Manager : option Manager :=
  if enabled c && negb (bool_decide (assertConfigured c = [])) then None
  else Some (mkManager None "" false 0 0 0 0 ((fun _ => 0) <$> LATENCY_BOUNDARIES) (int 0) 0).

Definition set_loaded (l : LoadedCertificate) (hash : string) (m : Manager) : Manager :=
  mkManager (Some l) hash (watching m) (reloadFailuresTotal m) (certificateReloadsTotal m) (handshakeFailuresTotal m)
    (invalidPeerIdentityFailuresTotal m) (latencyCounts m) (latencySum m) (latencyTotal m).

(** The checks of a certificate before it is put to use. *)
Definition accept (cert key ca : string) : LoadError + LoadedCertificate :=
  match parseCertificate cert with
  | None => inl BadCertificate
  | Some x =>
      if num_lt (num_add (certMaxValidityMs c) (int 1000)) (int (validTo x - validFrom x)) then inl ValidityExceeded
      else if negb (validateSpiffeIdentity (extractSpiffeIds (subjectAltName x)) (c_trustDomain c) []) then inl NoIdentity
      else if contextFails cert key ca then inl BadContext
      else inr (mkLoaded cert key ca (extractSpiffeIds (subjectAltName x)) (validTo x))
  end.

(** The hash is of the three files one after the other. *)
Definition hashInputs (cert key ca : string) : string := sha256 (cert +:+ key +:+ ca).

Definition load (f : Files) (m : Manager) : Manager * (LoadError + LoadedCertificate) :=
  match assertConfigured c with
  | [] =>
      match certPem f, keyPem f, caPem f with
      | Some cert, Some key, Some ca =>
          let hash := hashInputs cert key ca in
          match (if String.eqb hash (contentHash m) then loaded m else None), accept cert key ca with
          | Some l, _ => (m, inr l)             (* nothing has changed *)
          | None, inl e => (m, inl e)
          | None, inr l => (set_loaded l hash m, inr l)
          end
      | _, _, _ => (m, inl CannotRead)
      end
  | names => (m, inl (NotConfigured names))
  end.

Definition count_reload (m : Manager) : Manager :=
  mkManager (loaded m) (contentHash m) (watching m) (reloadFailuresTotal m) (certificateReloadsTotal m + 1)
    (handshakeFailuresTotal m) (invalidPeerIdentityFailuresTotal m) (latencyCounts m) (latencySum m) (latencyTotal m).
Definition count_failure (m : Manager) : Manager :=
  mkManager (loaded m) (contentHash m) (watching m) (reloadFailuresTotal m + 1) (certificateReloadsTotal m)
    (handshakeFailuresTotal m) (invalidPeerIdentityFailuresTotal m) (latencyCounts m) (latencySum m) (latencyTotal m).
Definition set_watching (b : bool) (m : Manager) : Manager :=
  mkManager (loaded m) (contentHash m) b (reloadFailuresTotal m) (certificateReloadsTotal m)
    (handshakeFailuresTotal m) (invalidPeerIdentityFailuresTotal m) (latencyCounts m) (latencySum m) (latencyTotal m).

Definition reloadIfChanged (f : Files) (m : Manager) : Manager * (LoadError + bool) :=
  match load f m with
  | (m', inl e) => (count_failure m', inl e)
  | (m', inr _) =>
      let changed := negb (String.eqb (contentHash m) (contentHash m')) in
      (if changed then count_reload m' else m', inr changed)
  end.

Definition startRotationWatch (f : Files) (m : Manager) : Manager * (LoadError + unit) :=
  if negb (enabled c) || watching m then (m, inr tt)
  else match load f m with
       | (m', inl e) => (m', inl e)
       | (m', inr _) => (set_watching true m', inr tt)
       end.

(** [serverOptions], and the context its SNI callback serves. *)
Definition serverOptions (f : Files) (m : Manager) : Manager * (LoadError + LoadedCertificate) := load f m.
Definition SNICallback (at_start : LoadedCertificate) (m : Manager) : LoadedCertificate := default at_start (loaded m).

Definition recordHandshakeFailure (m : Manager) : Manager :=
  mkManager (loaded m) (contentHash m) (watching m) (reloadFailuresTotal m) (certificateReloadsTotal m)
    (handshakeFailuresTotal m + 1) (invalidPeerIdentityFailuresTotal m) (latencyCounts m) (latencySum m) (latencyTotal m).
Definition recordInvalidPeerIdentity (m : Manager) : Manager :=
  mkManager (loaded m) (contentHash m) (watching m) (reloadFailuresTotal m) (certificateReloadsTotal m)
    (handshakeFailuresTotal m) (invalidPeerIdentityFailuresTotal m + 1) (latencyCounts m) (latencySum m) (latencyTotal m).

Definition recordHandshakeLatency (latencyMs : number) (m : Manager) : Manager :=
  mkManager (loaded m) (contentHash m) (watching m) (reloadFailuresTotal m) (certificateReloadsTotal m)
    (handshakeFailuresTotal m) (invalidPeerIdentityFailuresTotal m)
    (zip_with (fun bound n => if num_ge (int bound) latencyMs then n + 1 else n) LATENCY_BOUNDARIES (latencyCounts m))
    (num_add (latencySum m) latencyMs) (latencyTotal m + 1).

Record MtlsMetricsSnapshot := mkSnapshot {
  certificateLoaded : bool; certificateExpiresAtUnix : Z; certificateSecondsUntilExpiry : Z
}.

(** The members of the snapshot that are computed; the others are the counters. *)
Definition metricsSnapshot (now : Z) (m : Manager) : MtlsMetricsSnapshot :=
  let expiresAt := match loaded m with Some l => l_validTo l | None => 0 end in
  mkSnapshot (match loaded m with Some _ => true | None => false end)
    (if expiresAt =? 0 then 0 else expiresAt / 1000)
    (if expiresAt =? 0 then 0 else Z.max 0 ((expiresAt - now) / 1000)).

Inductive ManagerEvent :=
  | Load (f : Files)                       (* [load], [serverOptions] *)
  | StartRotationWatch (f : Files)
  | Change (f : Files)                     (* the watcher or the timer *)
  | Reload (f : Files)                     (* [reloadIfChanged] by a caller *)
  | StopRotationWatch
  | HandshakeFailure
  | InvalidPeerIdentity
  | HandshakeLatency (ms : number).

Definition managerStep (m : Manager) (ev : ManagerEvent) : Manager :=
  match ev with
  | Load f => (load f m).1
  | StartRotationWatch f => (startRotationWatch f m).1
  | Change f => if watching m then (reloadIfChanged f m).1 else m
  | Reload f => (reloadIfChanged f m).1
  | StopRotationWatch => set_watching false m
  | HandshakeFailure => recordHandshakeFailure m
  | InvalidPeerIdentity => recordInvalidPeerIdentity m
  | HandshakeLatency ms => recordHandshakeLatency ms m
  end.

Definition runManager (m : Manager) (evs : list ManagerEvent) : Manager := foldl managerStep m evs.

(** ** The certificate in use *)

Definition filesOf (ev : ManagerEvent) : option Files :=
  match ev with Load f | StartRotationWatch f | Change f | Reload f => Some f | _ => None end.

(** The certificate [l] was read from [f] and met the policy. *)
Definition loadedFrom (f : Files) (l : LoadedCertificate) (hash : string) : Prop :=
  certPem f = Some (l_cert l) /\ keyPem f = Some (l_key l) /\ caPem f = Some (l_ca l) /\
  hash = hashInputs (l_cert l) (l_key l) (l_ca l) /\
  exists x, parseCertificate (l_cert l) = Some x /\ l_validTo l = validTo x /\
    num_lt (num_add (certMaxValidityMs c) (int 1000)) (int (validTo x - validFrom x)) = false /\
    validateSpiffeIdentity (spiffeIds l) (c_trustDomain c) [] = true.

Lemma accept_spec cert key ca l :
  accept cert key ca = inr l ->
  l_cert l = cert /\ l_key l = key /\ l_ca l = ca /\
  exists x, parseCertificate cert = Some x /\ l_validTo l = validTo x /\
    num_lt (num_add (certMaxValidityMs c) (int 1000)) (int (validTo x - validFrom x)) = false /\
    validateSpiffeIdentity (spiffeIds l) (c_trustDomain c) [] = true.
Proof.
  unfold accept. destruct (parseCertificate cert) as [x|]; [|done]. destruct (num_lt _ _) eqn:E1; [done|].
  destruct (negb _) eqn:E2; [done|]. destruct (contextFails _ _ _); [done|]. intros [= <-].
  apply negb_false_iff in E2. split_and!; [done..|]. by exists x.
Qed.

(** What an event may do to the certificate: nothing, or replace it by the one of its files. *)
Inductive moves (f : option Files) (m m' : Manager) : Prop :=
  | moves_not : loaded m' = loaded m -> contentHash m' = contentHash m -> moves f m m'
  | moves_to x l : f = Some x -> loaded m' = Some l -> loadedFrom x l (contentHash m') -> moves f m m'.

Lemma load_moves f m : moves (Some f) m (load f m).1.
Proof.
  unfold load. destruct (assertConfigured c); [|by apply moves_not].
  destruct (certPem f) as [cert|] eqn:Ec; [|by apply moves_not]. destruct (keyPem f) as [key|] eqn:Ek; [|by apply moves_not].
  destruct (caPem f) as [ca|] eqn:Ea; [|by apply moves_not].
  destruct (if String.eqb _ _ then loaded m else None); [by apply moves_not|].
  destruct (accept cert key ca) as [e|l] eqn:E; [by apply moves_not|].
  apply accept_spec in E as (E1 & E2 & E3 & Hx). subst. by apply (moves_to _ _ _ f l).
Qed.

Lemma moves_counted f m m' m'' :
  moves f m m' -> loaded m'' = loaded m' -> contentHash m'' = contentHash m' -> moves f m m''.
Proof.
  intros [E1 E2|x l Ef El Hl] H1 H2; [apply moves_not; congruence|]. apply (moves_to _ _ _ x l); [done|congruence|by rewrite H2].
Qed.

Lemma reload_moves f m : moves (Some f) m (reloadIfChanged f m).1.
Proof.
  unfold reloadIfChanged. pose proof (load_moves f m) as H. destruct (load f m) as [m' [e|l]]; cbn in *.
  - by eapply moves_counted.
  - eapply moves_counted; [done|by destruct (negb _)..].
Qed.

Lemma managerStep_moves m ev : moves (filesOf ev) m (managerStep m ev).
Proof.
  destruct ev as [f|f|f|f| | | |ms]; cbn [managerStep filesOf]; try by apply moves_not.
  - apply load_moves.
  - unfold startRotationWatch. destruct (_ || _); [by apply moves_not|]. pose proof (load_moves f m) as H.
    destruct (load f m) as [m' [e|l]]; cbn in *; [done|by eapply moves_counted].
  - destruct (watching m); [apply reload_moves|by apply moves_not].
  - apply reload_moves.
Qed.

Definition served (evs : list ManagerEvent) (m : Manager) : Prop :=
  forall l, loaded m = Some l -> exists ev f, ev ∈ evs /\ filesOf ev = Some f /\ loadedFrom f l (contentHash m).

Lemma run_served m evs done_ : served done_ m -> served (done_ ++ evs) (runManager m evs).
Proof.
  unfold runManager. revert m done_. induction evs as [|ev evs IH]; intros m done_ H; [by rewrite app_nil_r|].
  cbn. replace (done_ ++ ev :: evs) with ((done_ ++ [ev]) ++ evs) by (by rewrite <- app_assoc). apply IH.
  intros l Hl. destruct (managerStep_moves m ev) as [E1 E2|x l' Ef El Hx].
  - rewrite E1 in Hl. destruct (H l Hl) as (ev' & f & Hin & Hf & Hfrom). exists ev', f. rewrite E2. split_and!; [set_solver|done|done].
  - rewrite El in Hl. injection Hl as <-. exists ev, x. split_and!; [set_solver|done|done].
Qed.

Lemma run_keeps m evs : is_Some (loaded m) -> is_Some (loaded (runManager m evs)).
Proof.
  unfold runManager. revert m. induction evs as [|ev evs IH]; intros m H; [done|]. apply IH.
  destruct (managerStep_moves m ev) as [E _|x l _ El _]; [by rewrite E|by rewrite El].
Qed.

(** ** The histogram *)

Definition observed (evs : list ManagerEvent) : list number :=
  omap (fun ev => match ev with HandshakeLatency ms => Some ms | _ => None end) evs.

(** How many observations do not exceed a bound. *)
Definition upTo (l : list number) (bound : Z) : Z := Z.of_nat (length (filter (fun x => num_ge (int bound) x = true) l)).

Definition histogram (l : list number) (m : Manager) : Prop :=
  latencyCounts m = upTo l <$> LATENCY_BOUNDARIES /\ latencySum m = foldl num_add (int 0) l /\ latencyTotal m = Z.of_nat (length l).

Lemma upTo_snoc l x bound : upTo (l ++ [x]) bound = if num_ge (int bound) x then upTo l bound + 1 else upTo l bound.
Proof.
  unfold upTo. rewrite filter_app, length_app, filter_cons.
  destruct (num_ge (int bound) x); [rewrite decide_True by done|rewrite decide_False by done]; cbn [length filter list_filter]; lia.
Qed.

Lemma counts_snoc l x bounds :
  zip_with (fun bound n => if num_ge (int bound) x then n + 1 else n) bounds (upTo l <$> bounds) = upTo (l ++ [x]) <$> bounds.
Proof. induction bounds as [|b bounds IH]; [done|]. cbn. by rewrite upTo_snoc, <- IH. Qed.

Lemma histogram_same l m m' :
  histogram l m -> latencyCounts m' = latencyCounts m -> latencySum m' = latencySum m -> latencyTotal m' = latencyTotal m ->
  histogram l m'.
Proof. unfold histogram. by intros ? -> -> ->. Qed.

Lemma load_latencies f m :
  latencyCounts (load f m).1 = latencyCounts m /\ latencySum (load f m).1 = latencySum m /\ latencyTotal (load f m).1 = latencyTotal m.
Proof. unfold load. by repeat case_match. Qed.

Lemma managerStep_histogram l m ev : histogram l m -> histogram (l ++ observed [ev]) (managerStep m ev).
Proof.
  assert (Hr : forall f, histogram l m -> histogram l (reloadIfChanged f m).1).
  { intros f H. unfold reloadIfChanged. pose proof (load_latencies f m) as (E1 & E2 & E3).
    destruct (load f m) as [m' [e|x]]; cbn in *; [by apply (histogram_same l m)|]. destruct (negb _); by apply (histogram_same l m). }
  intros H. destruct ev as [f|f|f|f| | | |ms]; cbn [managerStep observed omap list_omap]; rewrite ?app_nil_r; try by apply (histogram_same l m).
  - pose proof (load_latencies f m) as (E1 & E2 & E3). by apply (histogram_same l m).
  - unfold startRotationWatch. destruct (_ || _); [done|]. pose proof (load_latencies f m) as (E1 & E2 & E3).
    destruct (load f m) as [m' [e|x]]; cbn in *; by apply (histogram_same l m).
  - destruct (watching m); [by apply Hr|done].
  - by apply Hr.
  - destruct H as (H1 & H2 & H3). unfold histogram, recordHandshakeLatency. cbn [latencyCounts latencySum latencyTotal].
    rewrite H1, H2, H3, counts_snoc, foldl_app, length_app. split_and!; [done|done|cbn; lia].
Qed.

Lemma run_histogram l m evs : histogram l m -> histogram (l ++ observed evs) (runManager m evs).
Proof.
  unfold runManager. revert l m. induction evs as [|ev evs IH]; intros l m H; [by rewrite app_nil_r|].
  cbn [foldl]. replace (l ++ observed (ev :: evs)) with ((l ++ observed [ev]) ++ observed evs).
  - by apply IH, managerStep_histogram.
  - rewrite <- app_assoc. f_equal. symmetry. change (ev :: evs) with ([ev] ++ evs). apply omap_app.
Qed.
End manager.

(** ** Ids *)

Lemma cutFirst_String sep c s :
  cutFirst sep (String c s) =
  if bool_decide (c = sep) then Some ("", s) else match cutFirst sep s with Some (a, b) => Some (String c a, b) | None => None end.
Proof. cbn. destruct (Ascii.eqb_spec c sep); [by rewrite bool_decide_true|by rewrite bool_decide_false]. Qed.

Lemma split_cut sep s : split sep s = match cutFirst sep s with Some (a, b) => a :: split sep b | None => [s] end.
Proof.
  induction s as [|c s IH]; [done|]. rewrite split_String, cutFirst_String. case_bool_decide; [done|].
  rewrite IH. by destruct (cutFirst sep s) as [[a b]|].
Qed.

Lemma cutFirst_spec sep s a b : cutFirst sep s = Some (a, b) <-> s = a +:+ String sep b /\ lacks sep a = true.
Proof.
  revert a. induction s as [|c s IH]; intros a.
  - split; [done|]. intros [E _]. by destruct a.
  - rewrite cutFirst_String. case_bool_decide as Hc.
    + subst. split; [by intros [= <- <-]|]. intros [E Ha]. destruct a as [|x a]; [by injection E as <-|].
      injection E as <- E. by apply lacks_String in Ha as [? _].
    + destruct (cutFirst sep s) as [[a' b']|] eqn:Ecut.
      * split.
        -- intros [= <- <-]. destruct (proj1 (IH a') eq_refl) as [-> Ha]. rewrite app_String. by rewrite lacks_String.
        -- intros [E Ha]. destruct a as [|x a]; [by injection E as ->|]. rewrite app_String in E. injection E as <- E.
           apply lacks_String in Ha as [_ Ha].
           pose proof (proj2 (IH a) (conj E Ha)) as H. by injection H as -> ->.
      * split; [done|]. intros [E Ha]. destruct a as [|x a]; [by injection E as ->|]. rewrite app_String in E. injection E as <- E.
        apply lacks_String in Ha as [_ Ha].
        by pose proof (proj2 (IH a) (conj E Ha)).
Qed.

Lemma cutFirst_None sep s : cutFirst sep s = None -> lacks sep s = true.
Proof.
  induction s as [|c s IH]; [done|]. rewrite cutFirst_String, lacks_String. case_bool_decide; [done|].
  destruct (cutFirst sep s) as [[]|]; [done|]. auto.
Qed.

Lemma split_two sep s a b : split sep s = [a; b] <-> s = a +:+ String sep b /\ lacks sep a = true /\ lacks sep b = true.
Proof.
  split.
  - rewrite split_cut. destruct (cutFirst sep s) as [[x y]|] eqn:E; [|done]. intros [= <- Hy].
    apply cutFirst_spec in E as [-> Hx]. rewrite split_cut in Hy. destruct (cutFirst sep y) as [[u v]|] eqn:E.
    + injection Hy as _ Hv. rewrite split_cut in Hv. by destruct (cutFirst sep v) as [[]|].
    + injection Hy as <-. by apply cutFirst_None in E.
  - intros (-> & Ha & Hb). by rewrite split_app, split_lacks.
Qed.

Lemma stripPrefix_spec p s r : stripPrefix p s = Some r <-> s = p +:+ r.
Proof.
  revert s. induction p as [|a p IH]; intros s; cbn [stripPrefix].
  - rewrite app_Empty. split; [by intros [= ->]|by intros ->].
  - rewrite app_String. destruct s as [|b s]; [done|]. destruct (Ascii.eqb_spec a b) as [->|Hne].
    + rewrite IH. split; [by intros ->|by intros [= ->]].
    + split; [done|]. by intros [= ->].
Qed.

(** the ids that are read are exactly those of a domain, a service and a pod without
    slashes, the last two not empty; what is read says which. *)
Theorem spiffe_ids id i :
  parseVeriNodeSpiffeId id = Some i <->
  id = "spiffe://" +:+ trustDomain i +:+ "/" +:+ serviceName i +:+ "/" +:+ podId i /\
  lacks "/" (trustDomain i) = true /\ lacks "/" (serviceName i) = true /\ lacks "/" (podId i) = true /\
  serviceName i <> "" /\ podId i <> "".
Proof.
  unfold parseVeriNodeSpiffeId. split.
  - destruct (stripPrefix "spiffe://" id) as [rest|] eqn:E1; [|done]. apply stripPrefix_spec in E1 as ->.
    destruct (cutFirst "/" rest) as [[d path]|] eqn:E2; [|done]. apply cutFirst_spec in E2 as [-> Hd].
    destruct (split "/" path) as [|s [|p [|]]] eqn:E3; try done. apply split_two in E3 as (-> & Hs & Hp).
    destruct (falsy s || falsy p) eqn:Ef; [done|]. intros [= <-]. apply orb_false_iff in Ef as [F1 F2].
    apply bool_decide_eq_false in F1, F2. cbn. by split_and!.
  - intros (-> & Hd & Hs & Hp & Hns & Hnp). rewrite (proj2 (stripPrefix_spec _ _ _) eq_refl).
    rewrite (proj2 (cutFirst_spec "/" _ (trustDomain i) (serviceName i +:+ "/" +:+ podId i))) by done.
    rewrite (proj2 (split_two "/" _ (serviceName i) (podId i))) by done.
    unfold falsy. rewrite !bool_decide_false by done. by destruct i.
Qed.

(** a peer is let in as a service of verinode.labs exactly if the first id of its
    certificate that is one of that domain names a service that is allowed, or any is. *)
Theorem peer_accepted san allowed :
  verifyPeerServiceIdentity san allowed = true <->
  exists before id after i, extractSpiffeIds san = before ++ id :: after /\
    (forall x, x ∈ before -> ofVeriNode x = None) /\
    parseVeriNodeSpiffeId id = Some i /\ trustDomain i = "verinode.labs" /\ (allowed = [] \/ serviceName i ∈ allowed).
Proof.
  unfold verifyPeerServiceIdentity, extractVeriNodeServiceName. induction (extractSpiffeIds san) as [|id l IH].
  - split; [done|]. intros (b & id & a & i & E & _). by destruct b.
  - cbn [omap list_omap]. destruct (ofVeriNode id) as [s|] eqn:E; cbn [head].
    + unfold ofVeriNode in E. destruct (parseVeriNodeSpiffeId id) as [i|] eqn:Ei; [|done].
      destruct (String.eqb_spec (trustDomain i) "verinode.labs") as [Hd|]; [|done]. injection E as <-.
      rewrite orb_true_iff, !bool_decide_eq_true. split.
      * intros Ha. exists [], id, l, i. split_and!; try done. by intros x ?%elem_of_nil.
      * intros (b & id' & a & i' & El & Hb & Hi' & Hd' & Ha). destruct b as [|x b].
        -- injection El as <- _. congruence.
        -- injection El as <- _. specialize (Hb id ltac:(left)). unfold ofVeriNode in Hb. by rewrite Ei, Hd in Hb.
    + rewrite IH. split.
      * intros (b & id' & a & i & -> & Hb & Hi). exists (id :: b), id', a, i. split_and!; [done| |by destruct_and?..].
        intros x [->|Hx]%elem_of_cons; [done|by apply Hb].
      * intros (b & id' & a & i & El & Hb & Hi & Hd & Ha). destruct b as [|x b].
        -- injection El as <- _. unfold ofVeriNode in E. by rewrite Hi, Hd in E.
        -- injection El as <- ->. exists b, id', a, i. split_and!; try done. intros y Hy. apply Hb. by right.
Qed.

(** in every run of loads, reloads, watches and files the certificate in use, if any,
    is one that was read from its files, does not outlive the policy and has an id of the
    trust domain; once there is one there always is; and an event that does not bring
    another changes neither it nor its hash. *)
Theorem served_certificate_kept parseCertificate contextFails sha256 c m0 evs :
  new_Manager c = Some m0 ->
  let m := runManager parseCertificate contextFails sha256 c m0 evs in
  (forall l, loaded m = Some l -> exists ev f, ev ∈ evs /\ filesOf ev = Some f /\
     loadedFrom parseCertificate sha256 c f l (contentHash m)) /\
  (forall evs', is_Some (loaded m) -> is_Some (loaded (runManager parseCertificate contextFails sha256 c m0 (evs ++ evs')))) /\
  forall ev, moves parseCertificate sha256 c (filesOf ev) m (managerStep parseCertificate contextFails sha256 c m ev).
Proof.
  intros H0. cbn zeta. split_and!.
  - intros l. apply (run_served parseCertificate contextFails sha256 c m0 evs []). intros l'.
    unfold new_Manager in H0. destruct (_ && _); [done|]. injection H0 as <-. done.
  - intros evs' H. unfold runManager. rewrite foldl_app. by apply run_keeps.
  - intros ev. apply managerStep_moves.
Qed.

(** after any run each bucket counts the observed latencies up to its bound, and the sum
    and the total are those of the observations. *)
Theorem latency_histogram parseCertificate contextFails sha256 c m0 evs :
  new_Manager c = Some m0 ->
  let m := runManager parseCertificate contextFails sha256 c m0 evs in
  latencyCounts m = upTo (observed evs) <$> LATENCY_BOUNDARIES /\ latencyTotal m = Z.of_nat (length (observed evs)) /\
  latencySum m = foldl num_add (int 0) (observed evs).
Proof.
  intros H0. cbn zeta. pose proof (run_histogram parseCertificate contextFails sha256 c [] m0 evs) as H.
  unfold new_Manager in H0. destruct (_ && _); [done|]. injection H0 as <-. destruct H as (? & ? & ?); done.
Qed.

(** ** Concrete runs *)

Module Examples.
Local Open Scope string_scope.
Local Open Scope list_scope.

Definition env (k : string) : option string :=
  assoc_get k [("VERINODE_MTLS_ENABLED", "1"); ("VERINODE_MTLS_CERT_FILE", "c"); ("VERINODE_MTLS_KEY_FILE", "k");
               ("VERINODE_MTLS_CA_FILE", "a"); ("SPIFFE_TRUST_DOMAIN", "verinode.labs"); ("VERINODE_MTLS_RELOAD_POLL_MS", "0.5")].
Definition cfg : MtlsConfig := mtlsConfigFromEnv env.

Lemma spiffe_ids_witness :
  parseVeriNodeSpiffeId (buildVeriNodeSpiffeId "staking" "pod-1") = Some (mkIdentity "verinode.labs" "staking" "pod-1").
Proof.
  apply (spiffe_ids (buildVeriNodeSpiffeId "staking" "pod-1") (mkIdentity "verinode.labs" "staking" "pod-1")).
  split_and!; [reflexivity..|discriminate|discriminate].
Defined.

(** A certificate that expired at 1000. *)
Definition parse (pem : string) : option Certificate :=
  if String.prefix "CERT" pem then Some (mkCertificate (Some "DNS:x, URI:spiffe://verinode.labs/staking/p") 0 1000) else None.
Abbreviation go := (runManager parse (fun _ _ _ => false) (fun s => s) cfg).
Definition fresh : Manager := mkManager None "" false 0 0 0 0 ((fun _ => 0) <$> LATENCY_BOUNDARIES) (int 0) 0.

Definition files (cert key : string) : Files := mkFiles (Some cert) (Some key) (Some "CA").
Definition rotation : list ManagerEvent :=
  [StartRotationWatch (files "CERT1" "KEY"); Change (files "broken" "KEY"); HandshakeLatency (int 7); Change (files "CERT2" "KEY")].

Lemma served_certificate_kept_witness :
  new_Manager cfg = Some fresh /\ (l_cert <$> loaded (go fresh rotation)) = Some "CERT2" /\
  exists ev f, ev ∈ rotation /\ filesOf ev = Some f /\
    loadedFrom parse (fun s => s) cfg f (mkLoaded "CERT2" "KEY" "CA" ["spiffe://verinode.labs/staking/p"] 1000)
      (contentHash (go fresh rotation)).
Proof.
  split; [vm_compute; reflexivity|]. split; [vm_compute; reflexivity|].
  apply (proj1 (served_certificate_kept parse (fun _ _ _ => false) (fun s => s) cfg fresh rotation ltac:(vm_compute; reflexivity))).
  vm_compute. reflexivity.
Defined.

Lemma latency_histogram_witness :
  latencyCounts (go fresh rotation) = [0; 0; 1; 1; 1; 1; 1; 1; 1] /\ latencyTotal (go fresh rotation) = 1.
Proof.
  destruct (latency_histogram parse (fun _ _ _ => false) (fun s => s) cfg fresh rotation ltac:(vm_compute; reflexivity)) as (H1 & H2 & _).
  split; [exact H1|exact H2].
Defined.

(** An expired certificate is put to use; only the metrics tell. *)
Lemma expired_certificate_served :
  is_Some (loaded (go fresh rotation)) /\ certificateSecondsUntilExpiry (metricsSnapshot 5000000 (go fresh rotation)) = 0.
Proof. split; [vm_compute; eauto|by vm_compute]. Qed.

(** The hash does not tell where a file ends: a byte moved from one file to the next is
    not noticed. *)
Lemma moved_byte_unnoticed :
  (l_key <$> loaded (go fresh [Load (files "CERT1" "KEY"); Reload (files "CERT1K" "EY")])) = Some "KEY".
Proof. by vm_compute. Qed.

(** Half a millisecond is positive, and rounds down to none. *)
Lemma positive_setting_becomes_zero : num_eqb (reloadPollMs cfg) (int 0) = true.
Proof. by vm_compute. Qed.

(** Only the first id counts, though a later one names an allowed service. *)
Lemma second_id_ignored :
  verifyPeerServiceIdentity (Some "URI:spiffe://verinode.labs/a/1, URI:spiffe://verinode.labs/b/1") ["b"] = false.
Proof. by vm_compute. Qed.
End Examples.
