(* ===== verification/BurnRate.v ===== *)
(** * Error budgets ([src/src/slo/burn_rate_monitor.ts])

    The evaluation of an objective over its windows: error and burn rates in JavaScript
    numbers, the thresholds they reach, the status and what is left of the budget.  Of the
    alert sink only matters whether it throws; the log is left out.

    [evaluation_sound]: rates and budgets stay between none and all, a window has the
    highest severity of the thresholds it reaches, the status is the highest of the
    windows', and an alert is sent exactly if it is not healthy. *)

From Stdlib Require Import ZArith Lia Lqa Ascii String QArith.
From stdpp Require Import base numbers list strings.
From S2P Require Import Prelude Js Text Number Doubles.
#[local] Open Scope Z_scope.

Inductive SloStatus := Healthy | Warning | Critical.
#[export] Instance SloStatus_eq_dec : EqDecision SloStatus.
Proof. solve_decision. Defined.

Record SloObjective := mkObjective { o_id : string; service : string; target : number; windowDays : number }.
Record SloWindowSample := mkSample { window : string; goodEvents : number; totalEvents : number }.
Record BurnRateThreshold := mkThreshold { t_window : string; t_burnRate : number; t_severity : SloStatus }.

Definition DEFAULT_THRESHOLDS : list BurnRateThreshold :=
  [mkThreshold "5m" (to_double (144 # 10)) Critical; mkThreshold "1h" (int 6) Critical;
   mkThreshold "6h" (int 3) Warning; mkThreshold "3d" (int 1) Warning].

Inductive SloError := NoId | NoService | BadTarget | BadWindowDays | NoSamples | NoWindow | NotFinite | NegativeEvents | TooManyGood | SinkThrew.

Definition assertObjective (o : SloObjective) : option SloError :=
  if falsy (trim (o_id o)) then Some NoId
  else if falsy (trim (service o)) then Some NoService
  else if num_ge (int 0) (target o) || num_ge (target o) (int 1) then Some BadTarget
  else if num_ge (int 0) (windowDays o) then Some BadWindowDays
  else None.

Definition assertSample (x : SloWindowSample) : option SloError :=
  if falsy (trim (window x)) then Some NoWindow
  else if negb (isFinite (goodEvents x)) || negb (isFinite (totalEvents x)) then Some NotFinite
  else if num_lt (goodEvents x) (int 0) || num_lt (totalEvents x) (int 0) then Some NegativeEvents
  else if num_lt (totalEvents x) (goodEvents x) then Some TooManyGood
  else None.

Record WindowEvaluation := mkWindow {
  w_sample : SloWindowSample;
  errorRate : number;
  burnRate : number;
  exhaustedInHours : option number;
  severity : SloStatus
}.

Record SloEvaluation := mkEvaluation {
  objective : SloObjective;
  status : SloStatus;
  errorBudgetRemaining : number;
  errorBudgetSpent : number;
  windows : list WindowEvaluation;
  violatedThresholds : list BurnRateThreshold
}.

Definition rankSeverity (s : SloStatus) : Z := match s with Critical => 2 | Warning => 1 | Healthy => 0 end.

(** [a / b], but 0 if [b] is 0 *)
Definition ratio (a b : number) : number := if num_eqb b (int 0) then int 0 else num_div a b.

(** [Math.max(0, n)] *)
Definition notNegative (n : number) : number := match n with NaN => NaN | _ => if num_ge n (int 0) then n else int 0 end.

Section monitor.
Context (thresholds : list BurnRateThreshold).

Definition reached (w : string) (rate : number) : list BurnRateThreshold :=
  filter (fun t => String.eqb (t_window t) w && num_ge rate (t_burnRate t) = true) thresholds.

(** The severity of the first of the reached thresholds once sorted, the gravest first. *)
Definition severityOf (w : string) (rate : number) : SloStatus :=
  match sort_by (fun a b => rankSeverity (t_severity b) <=? rankSeverity (t_severity a)) (reached w rate) with
  | t :: _ => t_severity t
  | [] => Healthy
  end.

Definition errorRateOf (x : SloWindowSample) : number := ratio (num_sub (totalEvents x) (goodEvents x)) (totalEvents x).
Definition allowedErrorRate (o : SloObjective) : number := num_sub (int 1) (target o).

Definition evaluateWindow (o : SloObjective) (x : SloWindowSample) : WindowEvaluation :=
  let rate := ratio (errorRateOf x) (allowedErrorRate o) in
  mkWindow x (errorRateOf x) rate
    (if num_lt (int 0) rate then Some (num_div (num_mul (windowDays o) (int 24)) rate) else None)
    (severityOf (window x) rate).

(** The windows, up to the first sample that is refused. *)
Fixpoint evaluateWindows (o : SloObjective) (samples : list SloWindowSample) : SloError + list WindowEvaluation :=
  match samples with
  | [] => inr []
  | x :: samples' =>
      match assertSample x with
      | Some e => inl e
      | None => match evaluateWindows o samples' with inl e => inl e | inr ws => inr (evaluateWindow o x :: ws) end
      end
  end.

Definition sum (l : list number) : number := foldl num_add (int 0) l.

Definition highest (l : list SloStatus) : SloStatus :=
  foldl (fun acc s => if rankSeverity acc <? rankSeverity s then s else acc) Healthy l.

Definition violated (w : WindowEvaluation) : bool := negb (bool_decide (severity w = Healthy)).

(** The evaluation, and whether an alert is due. *)
Definition evaluation (o : SloObjective) (samples : list SloWindowSample) : SloError + (SloEvaluation * bool) :=
  match assertObjective o with
  | Some e => inl e
  | None =>
      if bool_decide (samples = []) then inl NoSamples
      else
        match evaluateWindows o samples with
        | inl e => inl e
        | inr ws =>
            let total := sum (totalEvents <$> samples) in
            let good := sum (goodEvents <$> samples) in
            let spent := ratio (ratio (num_sub total good) total) (allowedErrorRate o) in
            let st := highest (severity <$> ws) in
            inr (mkEvaluation o st (notNegative (num_sub (int 1) spent)) spent ws
                   ((fun w => mkThreshold (window (w_sample w)) (burnRate w) (severity w)) <$> filter (fun w => violated w = true) ws),
                 negb (bool_decide (st = Healthy)))
        end
  end.

(** [throws] tells whether [notify] throws before it returns a promise; a rejected promise
    is only logged. *)
Definition evaluate (throws : SloEvaluation -> bool) (o : SloObjective) (samples : list SloWindowSample) :
    SloError + (SloEvaluation * bool) :=
  match evaluation o samples with
  | inl e => inl e
  | inr (e, alert) => if alert && throws e then inl SinkThrew else inr (e, alert)
  end.
End monitor.

(** Numbers from 0 to 1 *)
Definition unit_ (n : number) : Prop := num_ge n (int 0) = true /\ num_ge (int 1) n = true.

Lemma unit_intro q : (0 <= q)%Q -> (q <= 1)%Q -> unit_ (Finite q).
Proof. intros. split; apply num_ge_Finite; done. Qed.

(** The share of what is missing, of a double [t]. *)
Lemma missing_share t g :
  is_double t -> (0 <= g)%Q -> (g <= t)%Q -> unit_ (ratio (num_sub (Finite t) (Finite g)) (Finite t)).
Proof.
  intros Dt Hg Ht. unfold ratio. destruct (num_eqb (Finite t) (int 0)) eqn:Ez; [by apply unit_intro|].
  assert (Hpos : (0 < t)%Q).
  { assert (0 <= t)%Q as [H|H]%Qle_lt_or_eq by lra; [done|]. cbn in Ez. apply Qeq_bool_neq in Ez. exfalso. apply Ez. by symmetry. }
  destruct (to_double_between 0 t (t + - g)) as (d & Ed & D1 & D2); [by apply is_double_Z|done|lra|lra|].
  assert (Es : num_sub (Finite t) (Finite g) = Finite d) by exact Ed. rewrite Es. cbn [num_div].
  assert (Hz : is_zero t = false) by (unfold is_zero; apply Z.eqb_neq; unfold Qlt in Hpos; cbn in Hpos; lia).
  rewrite Hz. destruct (to_double_between 0 1 (d / t)) as (r & -> & R1 & R2); [by apply is_double_Z|by apply (is_double_Z 1)| | |by apply unit_intro].
  - apply Qle_shift_div_l; [done|]. lra.
  - apply Qle_shift_div_r; [done|]. lra.
Qed.

Lemma ratio_nonneg a b : num_ge a (int 0) = true -> isFinite a = true -> unit_ b -> num_ge (ratio a b) (int 0) = true.
Proof.
  intros Ha Fa [Hb Hb1]. unfold ratio. destruct (num_eqb b (int 0)) eqn:Ez; [done|].
  destruct a as [p|[]|]; try done. destruct b as [q|[]|]; try done. cbn [num_div].
  cbn in Ha, Hb, Ez. rewrite Qle_bool_iff in Ha, Hb. apply Qeq_bool_neq in Ez.
  assert (Hpos : (0 < q)%Q). { apply Qle_lt_or_eq in Hb as [?|E]; [done|]. by destruct Ez. }
  assert (Hz : is_zero q = false) by (unfold is_zero; apply Z.eqb_neq; unfold Qlt in Hpos; cbn in Hpos; lia).
  rewrite Hz. apply to_double_nonneg. assert (0 <= p / q)%Q as H by (apply Qle_shift_div_l; [done|unfold inject_Z in *; lra]).
  unfold Qle in H. cbn [Qnum Qden] in H. rewrite !Z.mul_1_r in H. exact H.
Qed.

Lemma unit_finite n : unit_ n -> isFinite n = true.
Proof. by destruct n as [|[]|]; intros []. Qed.

Lemma allowed_unit o : isFinite (target o) = true -> assertObjective o = None -> unit_ (allowedErrorRate o).
Proof.
  unfold assertObjective, allowedErrorRate. destruct (target o) as [q| |]; [intros _|done..].
  repeat (case_match; try done). intros _. rename H1 into Hb.
  apply orb_false_iff in Hb as [H1 H3]. cbn in H1, H3.
  assert ((0 < q)%Q /\ (q < 1)%Q) as [].
  { split; apply Qnot_le_lt; rewrite <- Qle_bool_iff; by apply not_true_iff_false. }
  destruct (to_double_between 0 1 (1 + - q)) as (r & Er & R1 & R2); [by apply is_double_Z|by apply (is_double_Z 1)|lra|lra|].
  assert (Es : num_sub (int 1) (Finite q) = Finite r) by exact Er. rewrite Es. by apply unit_intro.
Qed.

Lemma remaining_unit n : num_ge n (int 0) = true -> unit_ (notNegative (num_sub (int 1) n)).
Proof.
  destruct n as [q|[]|]; try done; intros Hq.
  assert (H1 : num_ge (int 1) (num_sub (int 1) (Finite q)) = true).
  { destruct (to_double_exact 1) as (o & Eo & Qo); [by apply (is_double_Z 1)|].
    apply num_ge_trans with (to_double 1); [rewrite Eo; apply num_ge_Finite; by rewrite Qo|].
    apply (to_double_mono (1 + - q) 1). cbn in Hq. rewrite Qle_bool_iff in Hq. unfold int, inject_Z in Hq. lra. }
  unfold notNegative. destruct (num_sub (int 1) (Finite q)) eqn:E; [|by destruct negative|done].
  case_match; [split; done|by apply unit_intro].
Qed.

(** Event counts whose sums a number holds *)
Definition total_of (l : list (string * Z * Z)) : Z := Z.of_nat (sum_list_with (fun x => Z.to_nat x.2) l).
Definition sampleOf (x : string * Z * Z) : SloWindowSample := mkSample x.1.1 (int x.1.2) (int x.2).
Definition well_counted (l : list (string * Z * Z)) : Prop :=
  Forall (fun x => falsy (trim x.1.1) = false /\ 0 <= x.1.2 <= x.2) l /\ total_of l < 2 ^ 53.

Lemma counts_sum (f : string * Z * Z -> Z) l acc a :
  (forall x, x ∈ l -> 0 <= f x) -> counts acc a -> 0 <= a -> a + Z.of_nat (sum_list_with (fun x => Z.to_nat (f x)) l) < 2 ^ 53 ->
  counts (foldl num_add acc ((fun x => int (f x)) <$> l)) (a + Z.of_nat (sum_list_with (fun x => Z.to_nat (f x)) l)).
Proof.
  revert acc a. induction l as [|x l IH]; intros acc a Hf Hc Ha Hb; [by rewrite Z.add_0_r|].
  assert (0 <= f x) by (apply Hf; by left). cbn [fmap list_fmap foldl].
  change (sum_list_with _ (x :: l)) with (Z.to_nat (f x) + sum_list_with (fun x => Z.to_nat (f x)) l)%nat in *.
  rewrite Nat2Z.inj_add, Z2Nat.id, Z.add_assoc in * by done.
  apply IH; [intros; apply Hf; by right| |lia|lia].
  apply counts_add; [done|by exists (inject_Z (f x))|lia].
Qed.

Lemma counts_le a b x y : counts a x -> counts b y -> 0 <= x <= y -> y < 2 ^ 53 -> unit_ (ratio (num_sub b a) b).
Proof.
  intros (p & -> & Hp) (q & -> & Hq) Hx Hy. apply missing_share.
  - rewrite Hq. apply is_double_Z. lia.
  - rewrite Hp. change 0%Q with (inject_Z 0). rewrite <- Zle_Qle. lia.
  - rewrite Hp, Hq, <- Zle_Qle. lia.
Qed.

Lemma total_of_elem x l : x ∈ l -> x.2 <= total_of l.
Proof.
  induction 1 as [|y x l _ IH]; unfold total_of in *; cbn [sum_list_with]; lia.
Qed.

Lemma good_le_total l : Forall (fun x : string * Z * Z => falsy (trim x.1.1) = false /\ 0 <= x.1.2 <= x.2) l ->
  Z.of_nat (sum_list_with (fun x => Z.to_nat x.1.2) l) <= total_of l.
Proof.
  unfold total_of. induction 1 as [|x l [_ Hx] _ IH]; cbn [sum_list_with]; lia.
Qed.

(** The gravest of some severities, none of them being as healthy as [Healthy] *)
Definition gravest (s : SloStatus) (l : list SloStatus) : Prop :=
  (s ∈ l \/ s = Healthy) /\ forall s', s' ∈ l -> rankSeverity s' <= rankSeverity s.

Lemma severityOf_gravest ts w r : gravest (severityOf ts w r) (t_severity <$> reached ts w r).
Proof.
  unfold severityOf. case_match eqn:E.
  - apply (f_equal length) in E. rewrite length_sort_by in E. apply nil_length_inv in E. rewrite E.
    split; [by right|]. by intros s' ?%elem_of_nil.
  - split.
    + left. apply list_elem_of_fmap. exists b. split; [done|]. rewrite <- elem_of_sort_by, E. by left.
    + intros s' (t & -> & Ht)%list_elem_of_fmap.
      destruct (fun total trans => sort_by_head _ total trans _ _ _ t E Ht) as [->|Hle]; [..|done|by apply Z.leb_le].
      * intros u v. rewrite !Z.leb_le. lia.
      * intros u v x. rewrite !Z.leb_le. lia.
Qed.

Lemma highest_gravest l : gravest (highest l) l.
Proof.
  unfold highest.
  cut (forall acc, let s := foldl (fun acc s => if rankSeverity acc <? rankSeverity s then s else acc) acc l in
    (s ∈ l \/ s = acc) /\ rankSeverity acc <= rankSeverity s /\ forall s', s' ∈ l -> rankSeverity s' <= rankSeverity s).
  { intros H. destruct (H Healthy) as (? & _ & ?). done. }
  induction l as [|x l IH]; intros acc; cbn.
  - split; [by right|]. split; [done|]. by intros s' ?%elem_of_nil.
  - destruct (IH (if rankSeverity acc <? rankSeverity x then x else acc)) as (H1 & H2 & H3).
    assert (rankSeverity acc <= rankSeverity (if rankSeverity acc <? rankSeverity x then x else acc) /\
            rankSeverity x <= rankSeverity (if rankSeverity acc <? rankSeverity x then x else acc)) as [].
    { destruct (Z.ltb_spec (rankSeverity acc) (rankSeverity x)); lia. }
    split; [|split; [lia|]].
    + destruct H1 as [H1| ->]; [left; by right|]. case_match; [left; by left|by right].
    + intros s' [->|Hs]%elem_of_cons; [lia|by apply H3].
Qed.

Lemma windows_evaluated ts o l : Forall (fun x : string * Z * Z => falsy (trim x.1.1) = false /\ 0 <= x.1.2 <= x.2) l ->
  evaluateWindows ts o (sampleOf <$> l) = inr (evaluateWindow ts o <$> (sampleOf <$> l)).
Proof.
  induction 1 as [|x l [Hn Hx] _ IH]; [done|]. cbn [fmap list_fmap evaluateWindows].
  assert (Ha : assertSample (sampleOf x) = None).
  { unfold assertSample, sampleOf. cbn [window goodEvents totalEvents]. rewrite Hn.
    assert (forall a b, b <= a -> num_lt (int a) (int b) = false) as Hlt.
    { intros a b Hab. unfold num_lt, int. rewrite num_ge_Finite; [done|]. by rewrite <- Zle_Qle. }
    cbn [isFinite int negb orb]. by rewrite !Hlt by lia. }
  by rewrite Ha, IH.
Qed.

Lemma aggregate_unit l : well_counted l ->
  let samples := sampleOf <$> l in
  unit_ (ratio (num_sub (sum (totalEvents <$> samples)) (sum (goodEvents <$> samples))) (sum (totalEvents <$> samples))).
Proof.
  intros [Hw Ht] samples. pose proof (good_le_total l Hw) as Hg. rewrite Forall_forall in Hw.
  unfold samples. rewrite <- !list_fmap_compose. unfold sum, compose. cbn [sampleOf totalEvents goodEvents].
  apply counts_le with (x := 0 + Z.of_nat (sum_list_with (fun x => Z.to_nat x.1.2) l)) (y := 0 + total_of l).
  - apply (counts_sum (fun x => x.1.2)); [intros x Hx; by apply Hw|by exists 0%Q|done|lia].
  - apply (counts_sum snd); [intros x Hx; specialize (Hw x Hx); lia|by exists 0%Q|done|exact Ht].
  - lia.
  - done.
Qed.

(** Event counts that are at most 2^53 together are evaluated if the objective is
    accepted and its target is a number.  The error rate of each window and the
    remaining budget lie between none and all, burn rates and the spent budget are not
    negative; a window has the highest severity of the thresholds of its name that its
    burn rate reaches, the status is the highest of the windows', the violated
    windows are listed in their order, and an alert is sent exactly if the status is not
    healthy; the call fails only if the sink throws. *)
Theorem evaluation_sound ts throws o (l : list (string * Z * Z)) :
  assertObjective o = None -> isFinite (target o) = true -> l <> [] -> well_counted l ->
  exists e, let alert := negb (bool_decide (status e = Healthy)) in
    evaluate ts throws o (sampleOf <$> l) = (if alert && throws e then inl SinkThrew else inr (e, alert)) /\
    unit_ (errorBudgetRemaining e) /\ num_ge (errorBudgetSpent e) (int 0) = true /\
    w_sample <$> windows e = sampleOf <$> l /\
    (forall w, w ∈ windows e -> unit_ (errorRate w) /\ num_ge (burnRate w) (int 0) = true /\
      gravest (severity w) (t_severity <$> reached ts (window (w_sample w)) (burnRate w))) /\
    gravest (status e) (severity <$> windows e) /\
    t_window <$> violatedThresholds e = (fun w => window (w_sample w)) <$> filter (fun w => violated w = true) (windows e).
Proof.
  intros Ho Hf Hl [Hw Ht]. unfold evaluate, evaluation. rewrite Ho, bool_decide_eq_false_2 by (by intros E%fmap_nil_inv).
  rewrite windows_evaluated by done.
  match goal with |- context [inr (?x, negb _)] => exists x end. split; [reflexivity|].
  cbn [errorBudgetRemaining errorBudgetSpent windows status violatedThresholds].
  pose proof (allowed_unit o Hf Ho) as Hu. pose proof (aggregate_unit l (conj Hw Ht)) as Ha.
  assert (Hs := ratio_nonneg _ _ (proj1 Ha) (unit_finite _ Ha) Hu).
  split; [by apply remaining_unit|]. split; [done|]. split; [|split; [|split]].
  - rewrite <- !list_fmap_compose. by apply list_fmap_ext.
  - intros w (x & -> & (y & -> & Hy)%list_elem_of_fmap)%list_elem_of_fmap.
    assert (unit_ (errorRateOf (sampleOf y))) as Hr.
    { rewrite Forall_forall in Hw. pose proof (Hw y Hy). pose proof (total_of_elem y l Hy).
      apply counts_le with (x := y.1.2) (y := y.2); [by exists (inject_Z y.1.2)|by exists (inject_Z y.2)|lia|lia]. }
    split; [done|]. split; [|apply severityOf_gravest].
    apply ratio_nonneg; [apply Hr|by apply unit_finite|done].
  - apply highest_gravest.
  - by rewrite <- list_fmap_compose.
Qed.

Module Examples.

Definition objective : SloObjective := mkObjective "verinode-availability-99-99" "verinode-backend" (to_double (9999 # 10000)) (int 30).
Definition quiet (_ : SloEvaluation) : bool := false.

(** 200 errors of 100000 burn the budget 20 times too fast: critical in five minutes,
    only a warning over six hours. *)
Definition fast : list (string * Z * Z) := [("5m", 99800, 100000); ("6h", 1999600, 2000000)].

Example fast_severities :
  (fun r : SloError + (SloEvaluation * bool) => match r with inr (e, a) => (severity <$> windows e, status e, a) | inl _ => ([], Healthy, false) end)
    (evaluate DEFAULT_THRESHOLDS quiet objective (sampleOf <$> fast))
  = ([Critical; Healthy], Critical, true).
Proof. vm_compute. reflexivity. Qed.

Lemma evaluation_sound_witness : exists e,
  evaluate DEFAULT_THRESHOLDS quiet objective (sampleOf <$> fast) = inr (e, negb (bool_decide (status e = Healthy))) /\
  unit_ (errorBudgetRemaining e).
Proof.
  destruct (evaluation_sound DEFAULT_THRESHOLDS quiet objective fast) as (e & He & Hr & _); [vm_compute; reflexivity|vm_compute; reflexivity|done| |].
  - split; [|vm_compute; reflexivity]. repeat constructor; cbn; done.
  - exists e. split; [|exact Hr]. unfold quiet in He at 2. by rewrite andb_false_r in He.
Defined.

(** A target that is not a number is accepted, and nothing is ever burnt. *)
Example nan_target_never_alerts :
  let o := mkObjective "id" "service" NaN (int 30) in
  assertObjective o = None /\
  (fun r : SloError + (SloEvaluation * bool) => match r with inr (e, a) => Some (status e, a) | inl _ => None end)
    (evaluate DEFAULT_THRESHOLDS quiet o [mkSample "5m" (int 0) (int 100)]) = Some (Healthy, false).
Proof. split; vm_compute; reflexivity. Qed.

(** The ten errors of the last five minutes are counted again in the hour: three
    quarters of the budget of 2 % are spent, and all of it is reported as spent. *)
Example windows_counted_twice :
  let o := mkObjective "id" "service" (to_double (98 # 100)) (int 30) in
  let spent samples := match evaluate DEFAULT_THRESHOLDS quiet o samples with inr (e, _) => errorBudgetSpent e | inl _ => NaN end in
  num_lt (spent [mkSample "1h" (int 985) (int 1000)]) (to_double (76 # 100)) = true /\
  num_lt (to_double (113 # 100)) (spent [mkSample "5m" (int 90) (int 100); mkSample "1h" (int 985) (int 1000)]) = true.
Proof. split; vm_compute; reflexivity. Qed.

(** A sink that throws takes the evaluation with it. *)
Example throwing_sink_loses_evaluation :
  evaluate DEFAULT_THRESHOLDS (fun _ => true) objective (sampleOf <$> fast) = inl SinkThrew.
Proof. vm_compute. reflexivity. Qed.
End Examples.
