(* ===== verification/StateArchival.v ===== *)
(** * State archival ([blockchain/state_archival.ts], [transaction_builder.ts],
      [rpc_client.ts], [contracts/verification_contract.ts], [003_state_archival_watchlist.sql])

    The watchlist of ledger entries, one row for each critical key of a contract, and the
    listener that renews the entries whose time to live runs out: batches of at most
    twenty pointers, retries, and the transaction that records a renewal.  Every
    [await] is a point where other ticks, renewals and registrations, refused queries
    and lost replies may come in ([Tasks]).  The answers of the node are read from the
    state and may change at any time; [answered] is the log of the transactions it
    answered.

    [renewals_acknowledged]: a row says that it was renewed only if a transaction with
    its pointer was accepted, no transaction is empty or too large, and a manual renewal
    that returns had all critical keys accepted.  [tick_renews_due]: a tick that nothing
    disturbs renews exactly the entries that are due.  [batch_attempts]: the retries of a
    batch. *)

From Stdlib Require Import ZArith Lia QArith.
From stdpp Require Import base numbers list strings gmap.
From S2P Require Import Prelude Js Number Tasks.
#[local] Open Scope Z_scope.

(** ** Pointers *)

Inductive CriticalDataKey := AttestationRoot | NodeRegistryHash | RewardCycleCounter | MetadataHash | GovernanceWeight.
#[export] Instance CriticalDataKey_eq_dec : EqDecision CriticalDataKey.
Proof. solve_decision. Defined.

Definition CRITICAL_DATA_KEYS : list CriticalDataKey :=
  [AttestationRoot; NodeRegistryHash; RewardCycleCounter; MetadataHash; GovernanceWeight].

Definition key_index (k : CriticalDataKey) : nat :=
  match k with AttestationRoot => 0 | NodeRegistryHash => 1 | RewardCycleCounter => 2 | MetadataHash => 3 | GovernanceWeight => 4 end.
#[export] Instance CriticalDataKey_countable : Countable CriticalDataKey.
Proof. apply (inj_countable key_index (fun n => CRITICAL_DATA_KEYS !! n)). by intros []. Defined.

Definition DEFAULT_TTL_LEDGERS : Z := 10000.
Definition MAX_BATCH_TTL_ENTRIES : nat := 20.
Definition RENEWAL_THRESHOLD_LEDGERS : Z := 2000.

Definition ContractDataPointer : Type := string * CriticalDataKey.
Definition buildWatchedPointers (contractId : string) : list ContractDataPointer := pair contractId <$> CRITICAL_DATA_KEYS.

(** ** Answers of the node *)

(** The body of an answer, or the error it carries.  [Number] of the fields is applied. *)
Inductive SendResponse := SendError (message : string) | SendResult (hash : option string).
Inductive LedgerResponse := LedgerError (message : string) | NoEntry | Entry (liveUntilLedgerSeq latestLedger : number).

Record TransactionResult := mkResult { hash : string; success : bool }.

Definition accepted (r : SendResponse) : bool := match r with SendError _ => false | SendResult _ => true end.
Definition resultOf (r : SendResponse) : TransactionResult :=
  match r with SendError _ => mkResult "" false | SendResult h => mkResult (default ""%string h) true end.
Definition ttlOf (r : LedgerResponse) : option number :=
  match r with Entry until latest => Some (num_sub until latest) | _ => None end.

(** ** The state *)

(** A row of the table; times in milliseconds. *)
Record WatchlistRow := mkRow { currentTtlLedgers : Z; lastRenewedAt : option Z }.

Record State := mkState {
  table : gmap ContractDataPointer WatchlistRow;
  running : bool;
  clock : Z;                                               (* [Date.now()] *)
  dbClock : Z;                                             (* [NOW()] *)
  onSend : nat -> list ContractDataPointer -> SendResponse;  (* to the n-th transaction *)
  onLedger : ContractDataPointer -> LedgerResponse;
  commitLost : bool;                                       (* the reply to a COMMIT gets lost *)
  answered : list (list ContractDataPointer * SendResponse);
  metricsSent : list (ContractDataPointer * number);
  slept : list Z
}.

Definition set_table (x : gmap ContractDataPointer WatchlistRow) (s : State) : State :=
  mkState x (running s) (clock s) (dbClock s) (onSend s) (onLedger s) (commitLost s) (answered s) (metricsSent s) (slept s).
Definition set_running (x : bool) (s : State) : State :=
  mkState (table s) x (clock s) (dbClock s) (onSend s) (onLedger s) (commitLost s) (answered s) (metricsSent s) (slept s).
Definition add_answered (x : list ContractDataPointer * SendResponse) (s : State) : State :=
  mkState (table s) (running s) (clock s) (dbClock s) (onSend s) (onLedger s) (commitLost s) (answered s ++ [x]) (metricsSent s) (slept s).
Definition add_metric (x : ContractDataPointer * number) (s : State) : State :=
  mkState (table s) (running s) (clock s) (dbClock s) (onSend s) (onLedger s) (commitLost s) (answered s) (metricsSent s ++ [x]) (slept s).
Definition add_slept (x : Z) (s : State) : State :=
  mkState (table s) (running s) (clock s) (dbClock s) (onSend s) (onLedger s) (commitLost s) (answered s) (metricsSent s) (slept s ++ [x]).

Notation IO := (io State string).

(** ** [TransactionBuilder] *)

Definition DEFAULT_RETRY_DELAYS_MS : list Z := [10000; 30000; 90000].

Definition sleep (ms : Z) : IO unit := Await (fun s => (add_slept ms s, inr tt)) (fun _ => Done tt).

(** [RpcClient.sendTransaction]: whatever [fetch] rejects with becomes a result. *)
Definition sendTransaction (pointers : list ContractDataPointer) : IO TransactionResult :=
  Await (fun s => let response := onSend s (length (answered s)) pointers in (add_answered (pointers, response) s, inr response))
    (fun r => Done (match r with inl message => resultOf (SendError message) | inr response => resultOf response end)).

(** [RpcClient.getLedgerEntry]: the time to live, or nothing for an error. *)
Definition getLedgerEntry (p : ContractDataPointer) : IO (option number) :=
  Await (fun s => (s, inr (onLedger s p))) (fun r => Done (match r with inl _ => None | inr response => ttlOf response end)).

Record BatchRenewalResult := mkBatch { txResult : TransactionResult; renewedPointers : list ContractDataPointer; attempts : nat }.

Fixpoint attemptsLoop (pointers : list ContractDataPointer) (n : nat) (delays : list Z) : IO BatchRenewalResult :=
  io_bind (sendTransaction pointers) (fun r =>
  if success r then Done (mkBatch r pointers (S n))
  else match delays with
       | [] => Done (mkBatch r [] (S n))
       | ms :: delays' => io_bind (sleep ms) (fun _ => attemptsLoop pointers (S n) delays')
       end).

Definition batchTooLarge : string := "Batch size exceeds maximum".

Definition submitBatchRenewal (retryDelays : list Z) (pointers : list ContractDataPointer) : IO BatchRenewalResult :=
  if bool_decide (pointers = []) then Done (mkBatch (mkResult "" true) [] 0)
  else if bool_decide (MAX_BATCH_TTL_ENTRIES < length pointers)%nat then Fails batchTooLarge
  else attemptsLoop pointers 0 retryDelays.

(** [TransactionBuilder.chunk], whose loop runs at most once for each pointer *)
Fixpoint chunks (fuel : nat) (pointers : list ContractDataPointer) : list (list ContractDataPointer) :=
  match fuel, pointers with
  | _, [] => []
  | O, _ => []
  | S fuel', _ => take MAX_BATCH_TTL_ENTRIES pointers :: chunks fuel' (drop MAX_BATCH_TTL_ENTRIES pointers)
  end.
Definition chunk (pointers : list ContractDataPointer) : list (list ContractDataPointer) := chunks (length pointers) pointers.

(** ** [Database.transaction] over the watchlist *)

(** A statement: the insertion of a pointer unless it is there, or the renewal of one
    that the statement finds. *)
Inductive Write := Inserts (p : ContractDataPointer) | Renews (p : ContractDataPointer) (found : bool).

Definition write (now : Z) (m : gmap ContractDataPointer WatchlistRow) (w : Write) : gmap ContractDataPointer WatchlistRow :=
  match w with
  | Inserts p => match m !! p with None => <[p := mkRow DEFAULT_TTL_LEDGERS None]> m | Some _ => m end
  | Renews p found => if found then <[p := mkRow DEFAULT_TTL_LEDGERS (Some now)]> m else m
  end.

Definition insertRow (p : ContractDataPointer) (s : State) : Write := Inserts p.
Definition updateRow (p : ContractDataPointer) (s : State) : Write := Renews p (bool_decide (is_Some (table s !! p))).

Definition lostReply : string := "Connection terminated unexpectedly".

Fixpoint statements (l : list (State -> Write)) : IO (list Write) :=
  match l with
  | [] => Done []
  | q :: l' => io_bind (awaiting (fun s => (s, inr (q s)))) (fun w => io_bind (statements l') (fun ws => Done (w :: ws)))
  end.

(** Locks and constraints make the writes of a transaction take effect together at
    COMMIT: no row is ever deleted, and an updated row stays locked until then.
    [NOW()] is the time of BEGIN. *)
Definition commit (now : Z) (ws : list Write) : IO unit :=
  awaiting (fun s => (set_table (foldl (write now) (table s) ws) s, if commitLost s then inl lostReply else inr tt)).

Definition transaction (l : list (State -> Write)) : IO unit :=
  io_bind (awaiting (fun s => (s, inr tt))) (fun _ =>                                          (* pool.connect() *)
  io_catch (io_bind (awaiting (fun s => (s, inr (dbClock s)))) (fun now =>                     (* BEGIN *)
            io_bind (statements l) (commit now)))
           (fun err => io_bind (awaiting (fun s => (s, inr tt))) (fun _ => Fails err))).       (* ROLLBACK *)

(** ** [StateArchivalListener] *)

Section listener.
Context (scan : gmap ContractDataPointer WatchlistRow -> list (ContractDataPointer * WatchlistRow)).   (* the order of SELECT *)
Context (retryDelays : list Z) (minRenewalGapMs : Z).

Definition DEFAULT_POLL_INTERVAL_MS : Z := 60000.
Definition DEFAULT_MIN_RENEWAL_GAP_MS : Z := 5 * 60000.

Definition loadWatchlist : IO (list (ContractDataPointer * WatchlistRow)) := awaiting (fun s => (s, inr (scan (table s)))).

Definition registerNode (contractId : string) : IO unit := transaction (insertRow <$> buildWatchedPointers contractId).

Definition applyRenewalResult (result : BatchRenewalResult) : IO unit :=
  if negb (success (txResult result)) || bool_decide (renewedPointers result = []) then Done tt
  else transaction (updateRow <$> renewedPointers result).

Definition pastMinGap (now : Z) (row : WatchlistRow) : bool := minRenewalGapMs <? now - default 0 (lastRenewedAt row).
Definition isDue (now : Z) (row : WatchlistRow) (ttl : number) : bool :=
  num_lt ttl (int RENEWAL_THRESHOLD_LEDGERS) && pastMinGap now row.

(** The rows that are due, in the order of the watchlist. *)
Fixpoint findDue (now : Z) (rows : list (ContractDataPointer * WatchlistRow)) : IO (list ContractDataPointer) :=
  match rows with
  | [] => Done []
  | (p, row) :: rows' =>
      io_bind (getLedgerEntry p) (fun entry =>
      match entry with
      | None => findDue now rows'
      | Some ttl =>
          Sync (fun s => (add_metric (p, ttl) s, tt)) (fun _ =>
          io_bind (findDue now rows') (fun due => Done (if isDue now row ttl then p :: due else due)))
      end)
  end.

Definition byContract (due : list ContractDataPointer) : jsmap string (list ContractDataPointer) :=
  foldl (fun m p => <[p.1 := default [] (m !! p.1) ++ [p]]> m) ∅ due.

Definition renewBatch (pointers : list ContractDataPointer) : IO unit :=
  io_bind (submitBatchRenewal retryDelays pointers) applyRenewalResult.

Fixpoint renewAll (batches : list (list ContractDataPointer)) : IO unit :=
  match batches with
  | [] => Done tt
  | pointers :: batches' => io_bind (renewBatch pointers) (fun _ => renewAll batches')
  end.

Definition batchesOf (due : list ContractDataPointer) : list (list ContractDataPointer) := map_values (byContract due) ≫= chunk.

Definition tick : IO unit :=
  io_bind loadWatchlist (fun watchlist =>
  if bool_decide (watchlist = []) then Done tt
  else Sync (fun s => (s, clock s)) (fun now =>
       io_bind (findDue now watchlist) (fun due => renewAll (batchesOf due)))).

Definition renewalFailed : string := "manual renewal failed".

Definition renewNow (contractId : string) : IO (Z * string) :=
  io_bind (submitBatchRenewal retryDelays (buildWatchedPointers contractId)) (fun result =>
  io_bind (applyRenewalResult result) (fun _ =>
  if success (txResult result) then Done (DEFAULT_TTL_LEDGERS, hash (txResult result)) else Fails renewalFailed)).

(** The calls: a tick of the timer, [start] with its first tick, [stop], and the
    others.  A tick that throws is only logged. *)
Inductive Call := Timer | Start | Stop | LoadWatchlist | RegisterNode (contractId : string) | RenewNow (contractId : string).
Inductive Answer := Nothing | Rows (rows : list (ContractDataPointer * WatchlistRow)) | Renewed (ttl : Z) (hash : string).

Definition logged (p : IO unit) : IO Answer := io_catch (io_bind p (fun _ => Done Nothing)) (fun _ => Done Nothing).

Definition method (c : Call) : IO Answer :=
  match c with
  | Timer => Sync (fun s => (s, running s)) (fun b => if b then logged tick else Done Nothing)
  | Start => Sync (fun s => (set_running true s, running s)) (fun b => if b then Done Nothing else logged tick)
  | Stop => Sync (fun s => (set_running false s, tt)) (fun _ => Done Nothing)
  | LoadWatchlist => io_bind loadWatchlist (fun rows => Done (Rows rows))
  | RegisterNode c => io_bind (registerNode c) (fun _ => Done Nothing)
  | RenewNow c => io_bind (renewNow c) (fun r => Done (Renewed r.1 r.2))
  end.
End listener.

(** What may change without the listener: the clocks, the answers of the node and the
    fate of the next COMMIT. *)
Record Elsewhere := mkElsewhere {
  e_clock : Z; e_dbClock : Z; e_onSend : nat -> list ContractDataPointer -> SendResponse;
  e_onLedger : ContractDataPointer -> LedgerResponse; e_commitLost : bool
}.
Definition outside (x : Elsewhere) (s : State) : State :=
  mkState (table s) (running s) (e_clock x) (e_dbClock x) (e_onSend x) (e_onLedger x) (e_commitLost x) (answered s) (metricsSent s) (slept s).

(** ** What every await keeps *)

(** An accepted transaction had the pointer. *)
Definition backed (p : ContractDataPointer) (s : State) : Prop :=
  exists ps r, (ps, r) ∈ answered s /\ accepted r = true /\ p ∈ ps.

(** The pointers of one contract, each once. *)
Definition proper (ps : list ContractDataPointer) : Prop := ps <> [] /\ NoDup ps /\ exists c, forall p, p ∈ ps -> p.1 = c.

Record Inv (s : State) : Prop := {
  inv_ttl p row : table s !! p = Some row -> currentTtlLedgers row = DEFAULT_TTL_LEDGERS;
  inv_backed p row t : table s !! p = Some row -> lastRenewedAt row = Some t -> backed p s;
  inv_proper ps r : (ps, r) ∈ answered s -> proper ps
}.

Definition later (s s' : State) : Prop :=
  (forall p, is_Some (table s !! p) -> is_Some (table s' !! p)) /\ answered s ⊆ answered s'.

Lemma watch_later_refl s : later s s.
Proof. by split. Qed.
Lemma watch_later_trans s1 s2 s3 : later s1 s2 -> later s2 s3 -> later s1 s3.
Proof. intros [A1 B1] [A2 B2]. split; [auto|by etrans]. Qed.

Lemma backed_later p s s' : later s s' -> backed p s -> backed p s'.
Proof. intros [_ Hs] (ps & r & Hin & ?). exists ps, r. split; [by apply Hs|done]. Qed.

(** The rest of the state does not matter. *)
Lemma Inv_same s s' : table s' = table s -> answered s' = answered s -> Inv s -> Inv s' /\ later s s'.
Proof.
  intros Et Ea [I1 I2 I3]. assert (later s s') by (split; [by rewrite Et|by rewrite Ea]). split; [|done]. split.
  - intros p row. rewrite Et. apply I1.
  - intros p row t. rewrite Et. intros. by eapply backed_later, I2.
  - intros ps r. rewrite Ea. apply I3.
Qed.

Abbreviation ok := (ok Inv later).
Abbreviation ok_then := (ok_then Inv later watch_later_refl watch_later_trans).

(** A part [p] that keeps the invariant, and what it makes true of its result. *)
Definition gives {A} (P : A -> State -> Prop) (r : string + A) (s : State) : Prop :=
  Inv s /\ forall a, r = inr a -> P a s.

Lemma gives_then {A B} (P : A -> State -> Prop) (Q : string + B -> State -> Prop) p f s :
  ok (gives P) p s ->
  (forall a s', later s s' -> Inv s' -> P a s' -> ok Q (f a) s') ->
  (forall e s', Inv s' -> Q (inl e) s') -> ok Q (io_bind p f) s.
Proof.
  intros Hp Hf He. eapply ok_then; [exact Hp| |].
  - intros a s' Hl [HI HP]. by apply Hf, HP.
  - intros e s' _ [HI _]. by apply He.
Qed.

Lemma failed_gives {A} (P : A -> State -> Prop) e s : Inv s -> gives P (inl e) s.
Proof. by split. Qed.

Lemma await_gives {A} (f : State -> A) (P : A -> State -> Prop) s :
  Inv s -> (forall s', later s s' -> Inv s' -> P (f s') s') -> ok (gives P) (awaiting (fun s => (s, inr (f s)))) s.
Proof.
  intros HI HP. apply ok_awaiting; [done|]. intros s1 Hl H1. split; [|by intros; apply failed_gives].
  split; [apply watch_later_refl|]. split; [done|]. intros a [= <-]. by apply HP.
Qed.

Lemma sleep_gives ms s : Inv s -> ok (gives (fun _ _ => True)) (sleep ms) s.
Proof.
  intros HI. split; [done|]. intros s1 Hl H1. destruct (Inv_same s1 (add_slept ms s1)) as [H2 Hl2]; [done..|]. split; [|by split]. split; [done|]. by split.
Qed.

Definition sentWith (ps : list ContractDataPointer) (r : TransactionResult) (s : State) : Prop :=
  success r = true -> exists x, (ps, x) ∈ answered s /\ accepted x = true /\ resultOf x = r.

Lemma send_gives ps s : Inv s -> proper ps -> ok (gives (sentWith ps)) (sendTransaction ps) s.
Proof.
  intros HI Hp. split; [done|]. intros s1 Hl [I1 I2 I3]. split; [|by intros e; split; [split|intros a [= <-]]].
  assert (Ha : answered s1 ⊆ answered s1 ++ [(ps, onSend s1 (length (answered s1)) ps)]) by set_solver.
  split; [by split|]. split.
  - split; cbn; [done| |].
    + intros p row t H1 H2. apply (backed_later _ s1); [by split|by eapply I2].
    + intros ps' r [?|[= -> ->]%list_elem_of_singleton]%elem_of_app; [by eapply I3|done].
  - intros r [= <-] Hs. exists (onSend s1 (length (answered s1)) ps). cbn. split; [set_solver|]. by destruct (onSend s1 _ ps).
Qed.

Definition renewedWith (ps : list ContractDataPointer) (b : BatchRenewalResult) (s : State) : Prop :=
  (success (txResult b) = true -> renewedPointers b = ps /\ sentWith ps (txResult b) s) /\
  (success (txResult b) = false -> renewedPointers b = []).

Lemma attempts_gives ps n delays s : Inv s -> proper ps -> ok (gives (renewedWith ps)) (attemptsLoop ps n delays) s.
Proof.
  intros HI Hp. revert n s HI. induction delays as [|d delays IH]; intros n s HI; cbn [attemptsLoop];
    (eapply gives_then; [by apply send_gives| |by intros; apply failed_gives]); intros r s1 _ H1 Hr;
    destruct (success r) eqn:Es; try (cbn; split; [done|]; intros b [= <-]; by split; cbn; rewrite Es).
  eapply gives_then; [by apply sleep_gives| |by intros; apply failed_gives]. auto.
Qed.

Lemma submit_gives delays ps s : Inv s -> proper ps -> ok (gives (renewedWith ps)) (submitBatchRenewal delays ps) s.
Proof.
  intros HI Hp. unfold submitBatchRenewal. rewrite bool_decide_eq_false_2 by apply Hp.
  case_bool_decide; [by apply failed_gives|by apply attempts_gives].
Qed.

(** *** Transactions *)

Definition justified (w : Write) (s : State) : Prop := match w with Renews p true => backed p s | _ => True end.

Lemma justified_later w s s' : later s s' -> justified w s -> justified w s'.
Proof. destruct w as [p|p []]; [done| |done]. apply backed_later. Qed.

Definition issued (s : State) (q : State -> Write) (w : Write) : Prop := justified w s /\ exists s0, w = q s0.

Lemma statements_gives l s :
  Inv s -> (forall q s', q ∈ l -> later s s' -> Inv s' -> justified (q s') s') ->
  ok (gives (fun ws s' => Forall2 (issued s') l ws)) (statements l) s.
Proof.
  revert s. induction l as [|q l IH]; intros s HI Hq; cbn [statements].
  - split; [done|]. intros ws [= <-]. constructor.
  - eapply gives_then; [apply (await_gives q (fun w s' => issued s' q w)); [done|]| |by intros; apply failed_gives].
    { intros s' Hl H'. split; [apply Hq; [left|..]; done|by exists s']. }
    intros w s1 Hl1 H1 [Hw Ew]. eapply gives_then; [apply IH; [done|]| |by intros; apply failed_gives].
    { intros q' s' Hin Hl H'. apply Hq; [by right|by eapply watch_later_trans|done]. }
    intros ws s2 Hl2 H2 Hws. split; [done|]. intros a [= <-]. constructor; [|done]. split; [by eapply justified_later|done].
Qed.

Lemma write_keeps now w s :
  Inv s -> justified w s -> let s' := set_table (write now (table s) w) s in Inv s' /\ later s s'.
Proof.
  intros [I1 I2 I3] Hw s'. assert (Hl : later s s').
  { split; [|done]. intros p Hp. destruct w as [q|q []]; cbn; [destruct (table s !! q) eqn:E| |done]; try done;
      rewrite lookup_insert; case_decide; by eauto. }
  split; [|done]. split; [| |exact I3].
  - intros p row. destruct w as [q|q []]; cbn; [destruct (table s !! q) eqn:E| |apply I1]; try apply I1;
      rewrite lookup_insert; case_decide; try apply I1; by intros [= <-].
  - intros p row t Hp Ht. apply (backed_later _ s); [done|]. revert Hp. destruct w as [q|q []]; cbn.
    + destruct (table s !! q) eqn:E; [intros; by eapply I2|]. rewrite lookup_insert. case_decide; [|intros; by eapply I2].
      intros [= <-]. done.
    + rewrite lookup_insert. case_decide as Eq; [|intros; by eapply I2]. intros [= <-]. by rewrite <- Eq.
    + intros. by eapply I2.
Qed.

Lemma writes_keep now ws s : Inv s -> Forall (fun w => justified w s) ws ->
  let s' := set_table (foldl (write now) (table s) ws) s in
  Inv s' /\ later s s' /\ forall p, Inserts p ∈ ws -> is_Some (table s' !! p).
Proof.
  revert s. induction ws as [|w ws IH]; intros s HI Hws; cbn [foldl].
  - split; [by destruct s|]. split; [by split|]. by intros p ?%elem_of_nil.
  - apply Forall_cons in Hws as [Hw Hws]. destruct (write_keeps now w s HI Hw) as [H1 Hl1].
    destruct (IH _ H1) as (H2 & Hl2 & H3); [eapply Forall_impl; [exact Hws|]; intros w'; by apply justified_later|].
    split; [exact H2|]. split; [by eapply watch_later_trans|].
    intros p [<-|Hp]%elem_of_cons; [|by apply H3]. apply Hl2. cbn. destruct (table s !! p) eqn:E; [by rewrite E|].
    by rewrite lookup_insert_eq.
Qed.

(** The writes the statements issued took effect. *)
Definition committed (l : list (State -> Write)) (s : State) : Prop :=
  exists ws, Forall2 (fun q w => exists s0, w = q s0) l ws /\ forall p, Inserts p ∈ ws -> is_Some (table s !! p).

Lemma transaction_gives l s :
  Inv s -> (forall q s', q ∈ l -> later s s' -> Inv s' -> justified (q s') s') ->
  ok (gives (fun _ => committed l)) (transaction l) s.
Proof.
  intros HI Hq. eapply gives_then; [by apply (await_gives (fun _ => tt) (fun _ _ => True))| |by intros; apply failed_gives].
  intros _ s1 Hl1 H1 _. eapply (ok_catch Inv later (gives (fun _ => committed l))).
  - eapply gives_then; [by apply (await_gives dbClock (fun _ _ => True))| |by intros; apply failed_gives].
    intros now s2 Hl2 H2 _. eapply gives_then; [apply statements_gives; [done|]| |by intros; apply failed_gives].
    { intros q s' Hin Hl H'. apply Hq; [done| |done]. do 2 (eapply watch_later_trans; [done|]). done. }
    intros ws s3 Hl3 H3 Hws. apply ok_awaiting; [done|]. intros s4 Hl4 H4. split; [|by intros; apply failed_gives].
    destruct (writes_keep now ws s4 H4) as (H5 & Hl5 & Hp).
    { eapply Forall2_Forall_r; [exact Hws|]. apply Forall_forall. intros q _ w [Hw _]. by eapply justified_later. }
    split; [done|]. destruct (commitLost s4); [by apply failed_gives|]. split; [done|]. intros a _. exists ws. split; [|done].
    eapply Forall2_impl; [exact Hws|]. by intros q w [_ ?].
  - intros e s2 [H2 _]. eapply gives_then; [by apply (await_gives (fun _ => tt) (fun _ _ => True))| |by intros; apply failed_gives].
    intros _ s3 _ H3 _. by apply failed_gives.
  - done.
Qed.

(** ** Batches *)

Lemma chunks_spec fuel ps : (length ps <= fuel)%nat ->
  concat (chunks fuel ps) = ps /\ Forall (fun c => c <> [] /\ (length c <= MAX_BATCH_TTL_ENTRIES)%nat) (chunks fuel ps).
Proof.
  revert ps. induction fuel as [|fuel IH]; intros [|p ps] Hl; cbn in Hl; try lia; [by split..|].
  cbn [chunks]. destruct (IH (drop MAX_BATCH_TTL_ENTRIES (p :: ps))) as [Ec Hc]; [rewrite length_drop; unfold MAX_BATCH_TTL_ENTRIES; cbn; lia|].
  split.
  - cbn [concat]. by rewrite Ec, take_drop.
  - constructor; [|done]. split; [done|]. rewrite length_take. lia.
Qed.

Lemma concat_chunk ps : concat (chunk ps) = ps.
Proof. by apply chunks_spec. Qed.

Lemma chunk_sizes ps c : c ∈ chunk ps -> c <> [] /\ (length c <= MAX_BATCH_TTL_ENTRIES)%nat.
Proof. destruct (chunks_spec (length ps) ps) as [_ H]; [done|]. rewrite Forall_forall in H. apply H. Qed.

Lemma concat_assoc_set {A} (c : string) (p : A) (l : list (string * list A)) :
  concat (assoc_set c (default [] (assoc_get c l) ++ [p]) l).*2 ≡ₚ p :: concat l.*2.
Proof.
  induction l as [|[c' ps] l IH]; [done|]. cbn. case_decide.
  - cbn. rewrite <- app_assoc. cbn. by rewrite Permutation_middle.
  - cbn. rewrite IH. by rewrite Permutation_middle.
Qed.

Definition one_contract (m : jsmap string (list ContractDataPointer)) : Prop :=
  map_wf m /\ forall c ps, m !! c = Some ps -> ps <> [] /\ forall p, p ∈ ps -> p.1 = c.

Lemma byContract_spec due : one_contract (byContract due) /\ concat (map_values (byContract due)) ≡ₚ due.
Proof.
  induction due as [|p due [[Hw Hm] Hc]] using rev_ind.
  - split; [|done]. split; [apply map_wf_empty|done].
  - unfold byContract. rewrite foldl_app. cbn [foldl]. fold (byContract due). split; [split|].
    + by apply map_wf_insert.
    + intros c ps. rewrite jsmap_lookup_insert. case_decide as E; [|apply Hm]. intros [= <-]. subst c.
      split; [by destruct (default [] _)|]. intros q [Hq|Hq]%elem_of_app; [|by apply list_elem_of_singleton in Hq as ->].
      destruct (byContract due !! p.1) as [l|] eqn:E; [|by apply elem_of_nil in Hq]. by apply (Hm _ l).
    + etransitivity; [apply concat_assoc_set|]. etransitivity; [apply perm_skip, Hc|]. apply Permutation_cons_append.
Qed.

Lemma concat_bind_chunk (l : list (list ContractDataPointer)) : concat (l ≫= chunk) = concat l.
Proof. induction l as [|ps l IH]; [done|]. cbn. by rewrite concat_app, concat_chunk, IH. Qed.

Lemma batches_cover due : concat (batchesOf due) ≡ₚ due.
Proof. unfold batchesOf. rewrite concat_bind_chunk. apply byContract_spec. Qed.

Lemma sublist_of_concat {A} (x : list A) l : x ∈ l -> x `sublist_of` concat l.
Proof.
  induction 1 as [x l|x y l _ IH]; cbn; [by apply sublist_inserts_r|by apply sublist_inserts_l].
Qed.

Lemma batches_proper due ps : NoDup due -> ps ∈ batchesOf due -> proper ps /\ (length ps <= MAX_BATCH_TTL_ENTRIES)%nat.
Proof.
  intros Hn Hps. assert (NoDup ps) as Hd.
  { eapply sublist_NoDup; [|by apply sublist_of_concat]. by rewrite batches_cover. }
  unfold batchesOf in Hps. apply list_elem_of_bind in Hps as (group & Hc & Hg).
  destruct (chunk_sizes _ _ Hc) as [Hne Hl]. split; [|done]. split; [done|]. split; [done|].
  destruct (byContract_spec due) as [[Hw Hm] _]. unfold map_values in Hg.
  apply list_elem_of_fmap in Hg as ([c l] & -> & Hg). apply elem_of_jsmap_lookup in Hg; [|done].
  exists c. intros p Hp. apply (Hm c l Hg). apply sublist_of_concat in Hc. rewrite concat_chunk in Hc. eapply elem_of_submseteq; [done|by apply sublist_submseteq].
Qed.

Lemma watched_proper c : proper (buildWatchedPointers c).
Proof.
  split; [done|]. split; [|exists c; by intros p (k & -> & _)%list_elem_of_fmap].
  apply NoDup_fmap_2; [by intros ?? [=]|]. by apply (bool_decide_unpack _); vm_compute.
Qed.

(** ** The calls *)

Section calls.
Context (scan : gmap ContractDataPointer WatchlistRow -> list (ContractDataPointer * WatchlistRow)).
Context (retryDelays : list Z) (minRenewalGapMs : Z).
Hypothesis scan_rows : forall m, scan m ≡ₚ map_to_list m.

Lemma scan_NoDup m : NoDup (scan m).*1.
Proof. rewrite scan_rows. apply NoDup_fst_map_to_list. Qed.

Lemma scan_elem m p row : (p, row) ∈ scan m <-> m !! p = Some row.
Proof. by rewrite scan_rows, elem_of_map_to_list. Qed.

Lemma register_gives c s : Inv s ->
  ok (gives (fun _ s' => forall k, is_Some (table s' !! (c, k)))) (registerNode c) s.
Proof.
  intros HI. eapply ok_mono; [|apply transaction_gives; [done|]].
  - intros r s' [H' Hr]. split; [done|]. intros a E k. destruct (Hr a E) as (ws & H2 & Hp). apply Hp.
    assert (insertRow (c, k) ∈ insertRow <$> buildWatchedPointers c) as Hin.
    { apply list_elem_of_fmap. exists (c, k). split; [done|]. apply list_elem_of_fmap. exists k. split; [done|]. destruct k; set_solver. }
    apply list_elem_of_lookup_1 in Hin as (i & Hi). destruct (Forall2_lookup_l _ _ _ _ _ H2 Hi) as (w & Hw & s0 & ->).
    by eapply list_elem_of_lookup_2.
  - intros q s' (p & -> & _)%list_elem_of_fmap _ _. done.
Qed.

Lemma apply_gives ps b s : Inv s -> renewedWith ps b s -> ok (gives (fun _ _ => True)) (applyRenewalResult b) s.
Proof.
  intros HI [Hs _]. unfold applyRenewalResult. destruct (success (txResult b)) eqn:Es; [|by split].
  destruct (Hs eq_refl) as [-> Hw]. destruct (Hw Es) as (x & Hx & Ha & _). cbn. case_bool_decide; [by split|].
  eapply ok_mono; [|apply transaction_gives; [done|]].
  - intros r s' [H' _]. by split.
  - intros q s' (p & -> & Hp)%list_elem_of_fmap Hl _. unfold updateRow, justified. case_bool_decide; [|done].
    apply (backed_later _ s); [done|]. by exists ps, x.
Qed.

Lemma findDue_gives now rows s : Inv s -> ok (gives (fun due _ => due `sublist_of` rows.*1)) (findDue minRenewalGapMs now rows) s.
Proof.
  revert s. induction rows as [|[p row] rows IH]; intros s HI; cbn [findDue].
  - split; [done|]. by intros a [= <-].
  - eapply gives_then with (P := fun _ _ => True).
    + split; [done|]. intros s1 Hl H1. split; [split; [apply watch_later_refl|]|]; by split.
    + intros [ttl|] s1 _ H1 _.
      * destruct (Inv_same s1 (add_metric (p, ttl) s1)) as [H2 Hl2]; [done..|]. split; [done|].
        eapply gives_then; [by apply IH| |by intros; apply failed_gives]. intros due s3 _ H3 Hd. split; [done|].
        intros a [= <-]. cbn. case_match; [by apply sublist_skip|by apply sublist_cons].
      * eapply ok_mono; [|by apply IH]. intros r s2 [H2 Hd]. split; [done|]. intros a E. cbn. apply sublist_cons. by apply Hd.
    + intros. by apply failed_gives.
Qed.

Lemma renewAll_gives batches s : Inv s -> (forall ps, ps ∈ batches -> proper ps) ->
  ok (gives (fun _ _ => True)) (renewAll retryDelays batches) s.
Proof.
  revert s. induction batches as [|ps batches IH]; intros s HI Hp; cbn [renewAll]; [by split|].
  eapply gives_then with (P := fun _ _ => True); [|intros _ s1 _ H1 _; apply IH; [done|]; intros; apply Hp; by right|by intros; apply failed_gives].
  eapply gives_then; [apply (submit_gives _ ps); [done|]; apply Hp; by left| |by intros; apply failed_gives].
  intros b s1 _ H1 Hb. by eapply apply_gives.
Qed.

Lemma tick_gives s : Inv s -> ok (gives (fun _ _ => True)) (tick scan retryDelays minRenewalGapMs) s.
Proof.
  intros HI. eapply gives_then; [apply (await_gives (fun s => scan (table s)) (fun rows _ => NoDup rows.*1)); [done|]| |by intros; apply failed_gives].
  { intros. apply scan_NoDup. }
  intros rows s1 _ H1 Hn. case_bool_decide; [by split|]. split; [apply watch_later_refl|].
  eapply gives_then; [by apply findDue_gives| |by intros; apply failed_gives].
  intros due s2 _ H2 Hd. apply renewAll_gives; [done|]. intros ps Hps.
  eapply batches_proper; [|done]. exact (sublist_NoDup _ _ Hn Hd).
Qed.

Lemma renewNow_gives c s : Inv s ->
  ok (gives (fun r s' => r.1 = DEFAULT_TTL_LEDGERS /\
    exists x, (buildWatchedPointers c, x) ∈ answered s' /\ accepted x = true /\ hash (resultOf x) = r.2)) (renewNow retryDelays c) s.
Proof.
  intros HI. eapply gives_then; [apply submit_gives; [done|apply watched_proper]| |by intros; apply failed_gives].
  intros b s1 _ H1 Hb. eapply gives_then; [by eapply apply_gives| |by intros; apply failed_gives].
  intros _ s2 Hl2 H2 _. destruct (success (txResult b)) eqn:Es; [|by apply failed_gives]. split; [done|].
  intros a [= <-]. split; [done|]. destruct Hb as [Hb _]. destruct (Hb Es) as [_ Hw]. destruct (Hw Es) as (x & Hx & Ha & E).
  exists x. split; [by apply Hl2|]. by rewrite E.
Qed.

(** What a call that returns says. *)
Definition Post (c : Call) (r : string + Answer) (s : State) : Prop :=
  match c, r with
  | RegisterNode c, inr _ => forall k, is_Some (table s !! (c, k))
  | RenewNow c, inr (Renewed ttl h) =>
      ttl = DEFAULT_TTL_LEDGERS /\ exists x, (buildWatchedPointers c, x) ∈ answered s /\ accepted x = true /\ hash (resultOf x) = h
  | LoadWatchlist, inr (Rows rows) => forall p row, (p, row) ∈ rows -> currentTtlLedgers row = DEFAULT_TTL_LEDGERS /\ is_Some (table s !! p)
  | _, _ => True
  end.

Lemma logged_gives (p : IO unit) s : ok (gives (fun _ _ => True)) p s -> ok (gives (fun _ _ => True)) (logged p) s.
Proof.
  intros Hp. eapply (ok_catch Inv later (gives (fun _ _ => True))).
  - eapply gives_then; [done|intros a s' _ H' _; by split|by intros; apply failed_gives].
  - by intros e s' [H' _].
  - done.
Qed.

#[local] Instance archival_protocol : TaskProtocol (method scan retryDelays minRenewalGapMs) outside Inv later Post.
Proof.
  split; [apply watch_later_refl|apply watch_later_trans| | |].
  - intros x s HI. by apply Inv_same.
  - intros c r s s' [Hl Ha] H. destruct c, r as [|[]]; cbn in *; try done; try (intros k; by apply Hl).
    + intros p row Hin. destruct (H p row Hin). split; [done|by apply Hl].
    + destruct H as (? & x & ? & ?). split; [done|]. exists x. split; [by apply Ha|done].
  - intros c s HI. eapply ok_mono with (Q := match c with LoadWatchlist | RegisterNode _ | RenewNow _ => fun r s' => Inv s' /\ Post c r s' | _ => gives (fun _ _ => True) end).
    { intros r s'. destruct c; try done; intros [? _]; (split; [done|]); by destruct r as [|[]]. }
    destruct c as [| | | |c|c]; cbn [method].
    + split; [apply watch_later_refl|]. destruct (running s); [|by split]. by apply logged_gives, tick_gives.
    + destruct (Inv_same s (set_running true s)) as [H1 Hl1]; [done..|]. split; [done|].
      destruct (running s); [by split|]. by apply logged_gives, tick_gives.
    + destruct (Inv_same s (set_running false s)) as [H1 Hl1]; [done..|]. by split; [|split].
    + eapply gives_then; [apply (await_gives (fun s => scan (table s))
        (fun rows s' => forall p row, (p, row) ∈ rows -> currentTtlLedgers row = DEFAULT_TTL_LEDGERS /\ is_Some (table s' !! p))); [done|]| |done].
      * intros s' _ H' p row ?%scan_elem. split; [by eapply inv_ttl|by exists row].
      * by intros rows s1 _ H1 Hr.
    + eapply gives_then; [by apply register_gives| |done]. by intros [] s1 _ H1 Hr.
    + eapply gives_then; [by apply renewNow_gives| |done]. intros [] s1 _ H1 Hr. by split.
Qed.

Definition new_State (x : Elsewhere) : State :=
  mkState ∅ false (e_clock x) (e_dbClock x) (e_onSend x) (e_onLedger x) (e_commitLost x) [] [] [].

Lemma archival_new x : Inv (new_State x).
Proof. split; cbn; intros *; rewrite ?lookup_empty; try done. by intros ?%elem_of_nil. Qed.

Lemma archival_run x evs : let w := run (method scan retryDelays minRenewalGapMs) outside (new_State x) evs in
  Inv (state w) /\ forall tid c r, outcome w tid = Some (c, r) -> Post c r (state w).
Proof. apply (tasks_run_safe _ _ Inv later Post), archival_new. Qed.
End calls.

Lemma proper_length ps : proper ps -> (length ps <= length CRITICAL_DATA_KEYS)%nat.
Proof.
  intros (_ & Hn & c & Hc). replace (length ps) with (length (ps.*2)) by apply length_fmap. apply submseteq_length, NoDup_submseteq.
  - apply NoDup_fmap_2_strong; [|done]. intros [c1 k1] [c2 k2] H1 H2 E. cbn in E.
    rewrite E. f_equal. pose proof (Hc _ H1) as E1. pose proof (Hc _ H2) as E2. cbn in E1, E2. congruence.
  - intros k _. destruct k; set_solver.
Qed.

(** C36: however ticks, registrations and manual renewals overlap, whatever is refused and
    whichever replies are lost: a row says that it was renewed only if a transaction with
    its pointer was accepted; every transaction has pointers of one contract, each once,
    hence at most five; a manual renewal that returns had all critical keys of its
    contract accepted in one transaction, whose hash it returns; a registration that
    returns left a row for each of them.  (A transaction is accepted when the node
    answers without a JSON-RPC error.)  The time to live in a row is always the
    default. *)
Theorem renewals_acknowledged scan retryDelays minRenewalGapMs x evs :
  (forall m, scan m ≡ₚ map_to_list m) ->
  let w := run (method scan retryDelays minRenewalGapMs) outside (new_State x) evs in
  (forall p row t, table (state w) !! p = Some row -> lastRenewedAt row = Some t -> backed p (state w)) /\
  (forall ps r, (ps, r) ∈ answered (state w) -> proper ps /\ (length ps <= 5)%nat) /\
  (forall tid c ttl h, outcome w tid = Some (RenewNow c, inr (Renewed ttl h)) ->
     exists x, (buildWatchedPointers c, x) ∈ answered (state w) /\ accepted x = true /\ hash (resultOf x) = h) /\
  (forall tid c a, outcome w tid = Some (RegisterNode c, inr a) -> forall k, is_Some (table (state w) !! (c, k))) /\
  (forall p row, table (state w) !! p = Some row -> currentTtlLedgers row = DEFAULT_TTL_LEDGERS).
Proof.
  intros Hscan. cbn zeta. destruct (archival_run scan retryDelays minRenewalGapMs Hscan x evs) as [HI HP].
  split_and!.
  - apply HI.
  - intros ps r H. split; [|apply proper_length]; by eapply inv_proper.
  - intros tid c ttl h H. apply (HP _ _ _ H).
  - intros tid c a H. apply (HP _ _ _ H).
  - apply HI.
Qed.

(** ** A call that nothing disturbs *)

Definition answer (s : State) (ps : list ContractDataPointer) (i : nat) : SendResponse := onSend s (length (answered s) + i) ps.

(** The state after [k] further transactions with these pointers, and some sleeps. *)
Definition sentMore (ps : list ContractDataPointer) (k : nat) (delays : list Z) (s : State) : State :=
  mkState (table s) (running s) (clock s) (dbClock s) (onSend s) (onLedger s) (commitLost s)
    (answered s ++ ((fun i => (ps, answer s ps i)) <$> seq 0 k)) (metricsSent s) (slept s ++ delays).

Lemma sentMore_step ps k d delays s :
  sentMore ps k delays (add_slept d (add_answered (ps, answer s ps 0) s)) = sentMore ps (S k) (d :: delays) s.
Proof.
  unfold sentMore. cbn. f_equal; [|by rewrite <- app_assoc]. rewrite <- app_assoc. f_equal. cbn. f_equal.
  rewrite <- fmap_S_seq, <- list_fmap_compose. apply list_fmap_ext. intros i j _. unfold answer, compose. cbn.
  rewrite length_app. cbn. do 2 f_equal. lia.
Qed.

Lemma sentMore_1 ps s : add_answered (ps, answer s ps 0) s = sentMore ps 1 [] s.
Proof. unfold sentMore, add_answered. cbn. by rewrite app_nil_r. Qed.

(** The loop stops at the first accepted attempt, or after the last delay. *)
Lemma solo_attempts ps n delays s :
  exists k, (k <= length delays)%nat /\ (forall i, (i < k)%nat -> accepted (answer s ps i) = false) /\
    (accepted (answer s ps k) = true \/ k = length delays) /\
    solo (attemptsLoop ps n delays) s =
      (sentMore ps (S k) (take k delays) s,
       inr (mkBatch (resultOf (answer s ps k)) (if accepted (answer s ps k) then ps else []) (S (n + k)))).
Proof.
  assert (Hs : forall r, success (resultOf r) = accepted r) by by intros [].
  revert n s. induction delays as [|d delays IH]; intros n s; cbn [attemptsLoop];
    (erewrite solo_bind by reflexivity); cbn zeta beta; rewrite Hs, <- (Nat.add_0_r (length (answered s)));
    fold (answer s ps 0); destruct (accepted (answer s ps 0)) eqn:E.
  1, 2: exists 0%nat; split; [done|]; split; [lia|]; split; [by auto|]; cbn [take]; by rewrite E, Nat.add_0_r, sentMore_1.
  - exists 0%nat. split; [lia|]. split; [lia|]. split; [by auto|]. cbn [take]. by rewrite E, Nat.add_0_r, sentMore_1.
  - erewrite solo_bind by reflexivity. set (s1 := add_slept d _).
    destruct (IH (S n) s1) as (k & Hk & Hf & He & Hr).
    assert (Ha : forall i, answer s1 ps i = answer s ps (S i)).
    { intros i. unfold answer, s1. cbn. rewrite length_app. cbn. f_equal. lia. }
    exists (S k). split; [cbn; lia|]. split.
    { intros [|i] Hi; [done|]. rewrite <- Ha. apply Hf. lia. }
    rewrite <- Ha. split; [cbn; destruct He; by auto|]. rewrite Hr. cbn [take]. f_equal.
    + apply sentMore_step.
    + do 2 f_equal. lia.
Qed.

(** *** The transaction that records a renewal *)

Definition renewing (t : Z) (ps : list ContractDataPointer) (m : gmap ContractDataPointer WatchlistRow) : gmap ContractDataPointer WatchlistRow :=
  foldl (write t) m ((fun p => Renews p (bool_decide (is_Some (m !! p)))) <$> ps).

Lemma writes_lookup (t : Z) (ps : list ContractDataPointer) (m0 m : gmap ContractDataPointer WatchlistRow) (q : ContractDataPointer) :
  foldl (write t) m ((fun p => Renews p (bool_decide (is_Some (m0 !! p)))) <$> ps) !! q =
    if decide (q ∈ ps /\ is_Some (m0 !! q)) then Some (mkRow DEFAULT_TTL_LEDGERS (Some t)) else m !! q.
Proof.
  revert m. induction ps as [|p ps IH]; intros m; cbn [fmap list_fmap foldl].
  - rewrite decide_False; [done|]. by intros [?%elem_of_nil _].
  - rewrite IH. unfold write at 1. destruct (decide (q ∈ ps /\ is_Some (m0 !! q))) as [[]|Hn].
    { rewrite decide_True; [done|]. split; [by right|done]. }
    case_bool_decide as Hp; [rewrite lookup_insert; case_decide as E|].
    + rewrite decide_True; [done|]. subst. split; [by left|done].
    + rewrite decide_False; [done|]. intros [[->|?]%elem_of_cons ?]; [done|]. by apply Hn.
    + rewrite decide_False; [done|]. intros [[->|?]%elem_of_cons ?]; [done|]. by apply Hn.
Qed.

Lemma renewing_lookup t ps m (q : ContractDataPointer) :
  renewing t ps m !! q = if decide (q ∈ ps) then (fun _ => mkRow DEFAULT_TTL_LEDGERS (Some t)) <$> (m !! q) else m !! q.
Proof.
  unfold renewing. rewrite writes_lookup. destruct (m !! q) eqn:E; repeat case_decide; naive_solver.
Qed.

Lemma solo_statements l s : solo (statements l) s = (s, inr ((fun q => q s) <$> l)).
Proof.
  induction l as [|q l IH]; [done|]. cbn [statements]. erewrite solo_bind by reflexivity. by erewrite solo_bind by apply IH.
Qed.

Lemma solo_transaction ps s : commitLost s = false ->
  solo (transaction (updateRow <$> ps)) s = (set_table (renewing (dbClock s) ps (table s)) s, inr tt).
Proof.
  intros Hc. unfold transaction. erewrite solo_bind by reflexivity. apply solo_catch.
  erewrite solo_bind by reflexivity. erewrite solo_bind by apply solo_statements. unfold commit, awaiting. cbn [solo].
  rewrite Hc. cbn. unfold renewing. by rewrite <- list_fmap_compose.
Qed.

Definition accepts (s : State) : Prop := forall n ps, accepted (onSend s n ps) = true.

Lemma solo_renewBatch delays ps s :
  accepts s -> commitLost s = false -> ps <> [] -> (length ps <= MAX_BATCH_TTL_ENTRIES)%nat ->
  solo (renewBatch delays ps) s =
    (set_table (renewing (dbClock s) ps (table s)) (add_answered (ps, onSend s (length (answered s)) ps) s), inr tt).
Proof.
  intros Ha Hc Hne Hl. unfold renewBatch, submitBatchRenewal.
  rewrite bool_decide_eq_false_2 by done. rewrite bool_decide_eq_false_2 by lia.
  destruct (solo_attempts ps 0 delays s) as (k & _ & Hf & _ & Hr).
  assert (k = 0%nat) as -> by (destruct k as [|k]; [done|]; specialize (Hf 0%nat ltac:(lia)); unfold answer in Hf; by rewrite Ha in Hf).
  erewrite solo_bind by exact Hr. unfold applyRenewalResult. cbn [txResult renewedPointers].
  assert (Ea : accepted (answer s ps 0) = true) by apply Ha. rewrite Ea.
  assert (Es : success (resultOf (answer s ps 0)) = true) by by destruct (answer s ps 0). rewrite Es.
  rewrite bool_decide_eq_false_2 by done. cbn [negb orb].
  rewrite solo_transaction by done. f_equal. unfold sentMore, set_table, add_answered, answer. cbn. by rewrite app_nil_r, Nat.add_0_r.
Qed.

Lemma solo_renewAll delays batches s :
  accepts s -> commitLost s = false -> (forall ps, ps ∈ batches -> ps <> [] /\ (length ps <= MAX_BATCH_TTL_ENTRIES)%nat) ->
  exists s', solo (renewAll delays batches) s = (s', inr tt) /\
    (answered s').*1 = (answered s).*1 ++ batches /\ metricsSent s' = metricsSent s /\ slept s' = slept s /\
    forall q, table s' !! q = if decide (q ∈ concat batches) then (fun _ => mkRow DEFAULT_TTL_LEDGERS (Some (dbClock s))) <$> (table s !! q)
                              else table s !! q.
Proof.
  revert s. induction batches as [|ps batches IH]; intros s Ha Hc Hb; cbn [renewAll].
  - exists s. split; [done|]. rewrite app_nil_r. do 3 (split; [done|]). intros q. rewrite decide_False; [done|]. by intros ?%elem_of_nil.
  - destruct (Hb ps) as [Hne Hl]; [by left|]. erewrite solo_bind by (by apply solo_renewBatch). set (s1 := set_table _ _).
    destruct (IH s1) as (s' & E & H1 & H2 & H3 & H4); [done..|by intros; apply Hb; right|].
    exists s'. split; [done|]. split; [|split; [done|split; [done|]]].
    + rewrite H1. unfold s1. cbn. by rewrite fmap_app, <- app_assoc.
    + intros q. rewrite H4. unfold s1. cbn [table dbClock set_table add_answered]. rewrite renewing_lookup. cbn [concat].
      destruct (table s !! q); repeat case_decide; set_solver.
Qed.

(** The entries that a scan finds due *)
Definition dueRow (s : State) (gap now : Z) (x : ContractDataPointer * WatchlistRow) : bool :=
  match ttlOf (onLedger s x.1) with Some ttl => isDue gap now x.2 ttl | None => false end.

(** What is due, spelled out *)
Lemma dueRow_spec s gap now p row : dueRow s gap now (p, row) = true <->
  exists until latest, onLedger s p = Entry until latest /\ num_lt (num_sub until latest) (int 2000) = true /\
    match lastRenewedAt row with Some t => gap < now - t | None => gap < now end.
Proof.
  unfold dueRow, isDue, pastMinGap, RENEWAL_THRESHOLD_LEDGERS. cbn [fst snd].
  assert (Hgap : gap <? now - default 0 (lastRenewedAt row) = true <-> match lastRenewedAt row with Some t => gap < now - t | None => gap < now end)
    by (destruct (lastRenewedAt row); cbn; rewrite Z.ltb_lt; lia).
  destruct (onLedger s p) as [m| |until latest]; cbn [ttlOf].
  - split; [done|]. by intros (? & ? & ? & _).
  - split; [done|]. by intros (? & ? & ? & _).
  - rewrite andb_true_iff, Hgap. split; [intros []; by exists until, latest|]. by intros (? & ? & [= <- <-] & ?).
Qed.

Definition withMetrics (l : list (ContractDataPointer * number)) (s : State) : State :=
  mkState (table s) (running s) (clock s) (dbClock s) (onSend s) (onLedger s) (commitLost s) (answered s) l (slept s).

Lemma solo_findDue gap now rows s :
  exists l, solo (findDue gap now rows) s = (withMetrics l s, inr (filter (fun x => dueRow s gap now x = true) rows).*1).
Proof.
  revert s. induction rows as [|[p row] rows IH]; intros s; cbn [findDue].
  - exists (metricsSent s). by destruct s.
  - erewrite solo_bind by reflexivity. rewrite filter_cons.
    assert (Ed : dueRow s gap now (p, row) = match ttlOf (onLedger s p) with Some ttl => isDue gap now row ttl | None => false end) by done.
    destruct (ttlOf (onLedger s p)) as [ttl|]; [|rewrite decide_False; [apply IH|by rewrite Ed]].
    cbn [solo]. destruct (IH (add_metric (p, ttl) s)) as [l E]. exists l. erewrite solo_bind by exact E.
    destruct (isDue gap now row ttl); [rewrite decide_True by done|rewrite decide_False by (by rewrite Ed)]; done.
Qed.

(** C37: a tick that nothing disturbs, with a node that accepts every transaction and a
    database that commits, renews exactly the entries of the watchlist whose time to
    live is known and below 2000 ledgers and that were not renewed within the gap, each
    in one transaction; it sets the time of their rows and changes nothing else. *)
Theorem tick_renews_due scan retryDelays minRenewalGapMs s :
  (forall m, scan m ≡ₚ map_to_list m) -> accepts s -> commitLost s = false ->
  exists s' batches, solo (tick scan retryDelays minRenewalGapMs) s = (s', inr tt) /\
    (answered s').*1 = (answered s).*1 ++ batches /\ NoDup (concat batches) /\
    (forall p, p ∈ concat batches <-> exists row until latest, table s !! p = Some row /\
       onLedger s p = Entry until latest /\ num_lt (num_sub until latest) (int 2000) = true /\
       match lastRenewedAt row with Some t => minRenewalGapMs < clock s - t | None => minRenewalGapMs < clock s end) /\
    (forall p, table s' !! p =
       if decide (p ∈ concat batches) then Some (mkRow DEFAULT_TTL_LEDGERS (Some (dbClock s))) else table s !! p) /\
    slept s' = slept s.
Proof.
  intros Hscan Ha Hc. unfold tick. erewrite solo_bind by reflexivity. case_bool_decide as He.
  - exists s, []. rewrite app_nil_r. split; [done|]. split; [done|]. split; [constructor|]. split; [|by split].
    intros p. split; [by intros ?%elem_of_nil|]. intros (row & ? & ? & H & _). apply (scan_elem scan Hscan) in H. rewrite He in H. by apply elem_of_nil in H.
  - cbn [solo]. destruct (solo_findDue minRenewalGapMs (clock s) (scan (table s)) s) as [l E].
    erewrite solo_bind by exact E. set (due := (filter _ _).*1).
    assert (Hd : NoDup due).
    { apply NoDup_fmap_fst.
      - intros p r1 r2 [_ H1]%list_elem_of_filter [_ H2]%list_elem_of_filter. apply (scan_elem scan Hscan) in H1, H2. congruence.
      - apply NoDup_filter. rewrite Hscan. apply NoDup_map_to_list. }
    destruct (solo_renewAll retryDelays (batchesOf due) (withMetrics l s)) as (s' & Er & H1 & _ & H3 & H4); [done..| |].
    { intros ps Hps. destruct (batches_proper due ps Hd Hps) as [[] ?]. done. }
    exists s', (batchesOf due). assert (Hin : forall p, p ∈ concat (batchesOf due) <->
      exists row, table s !! p = Some row /\ dueRow s minRenewalGapMs (clock s) (p, row) = true).
    { intros p. rewrite batches_cover. unfold due. rewrite list_elem_of_fmap. split.
      - intros ([p' row] & -> & [Hr Hp]%list_elem_of_filter). exists row. split; [by apply (scan_elem scan Hscan)|done].
      - intros (row & Hp & Hr). exists (p, row). split; [done|]. apply list_elem_of_filter. split; [done|]. by apply (scan_elem scan Hscan). }
    split_and!; [done|done|by rewrite batches_cover| | |done].
    { intros p. rewrite Hin. setoid_rewrite dueRow_spec. naive_solver. }
    intros p. rewrite H4. case_decide as Hp; [|done]. apply Hin in Hp as (row & Hp & _). cbn. by rewrite Hp.
Qed.

(** a batch is sent until it is accepted, at most once more than there are delays,
    with one delay before each further attempt; the result is that of the last attempt,
    and all its pointers are renewed or none. *)
Theorem batch_attempts retryDelays ps s : ps <> [] -> (length ps <= MAX_BATCH_TTL_ENTRIES)%nat ->
  exists k, (k <= length retryDelays)%nat /\ (forall i, (i < k)%nat -> accepted (answer s ps i) = false) /\
    (accepted (answer s ps k) = true \/ k = length retryDelays) /\
    solo (submitBatchRenewal retryDelays ps) s =
      (sentMore ps (S k) (take k retryDelays) s,
       inr (mkBatch (resultOf (answer s ps k)) (if accepted (answer s ps k) then ps else []) (S k))).
Proof.
  intros Hne Hl. unfold submitBatchRenewal. rewrite bool_decide_eq_false_2 by done. rewrite bool_decide_eq_false_2 by lia.
  apply (solo_attempts ps 0).
Qed.

Module Examples.

Definition scan (m : gmap ContractDataPointer WatchlistRow) : list (ContractDataPointer * WatchlistRow) := map_to_list m.
Definition Events := list (Event (E:=string) (Call:=Call) (Ext:=Elsewhere)).
Definition start : Elsewhere := mkElsewhere 0 0 (fun _ _ => SendResult (Some "tx")) (fun _ => NoEntry) false.
Definition archival (evs : Events) : World :=
  run (method scan DEFAULT_RETRY_DELAYS_MS DEFAULT_MIN_RENEWAL_GAP_MS) outside (new_State start) evs.
Definition answers (id n : nat) : Events := replicate n (Answered id).

(** A registration awaits the connection, BEGIN, five rows and COMMIT. *)
Definition registered : Events := Launch 0 (RegisterNode "C") :: answers 0 8.

(** Later the entries are about to expire, and the node accepts transactions or not. *)
Definition expiring (accepts : bool) (t : Z) : Elsewhere :=
  mkElsewhere t t (fun _ _ => if accepts then SendResult (Some "tx") else SendError "HostError") (fun _ => Entry (int 1500) (int 0)) false.

(** The tick awaits the watchlist, five entries, the transaction of the node, and that of
    the database with its eight statements. *)
Definition renewal : Events := registered ++ [Outside (expiring true 1000000); Launch 1 Start] ++ answers 1 15.

Definition rowOf (w : World (S:=State) (E:=string) (Call:=Call) (A:=Answer)) (k : CriticalDataKey) : option WatchlistRow := table (state w) !! ("C", k).

Lemma renewals_acknowledged_witness : backed ("C", MetadataHash) (state (archival renewal)).
Proof.
  destruct (renewals_acknowledged scan DEFAULT_RETRY_DELAYS_MS DEFAULT_MIN_RENEWAL_GAP_MS start renewal (fun m => reflexivity _)) as [Hb _].
  apply (Hb ("C", MetadataHash) (mkRow 10000 (Some 1000000)) 1000000); vm_compute; reflexivity.
Defined.

Definition soon : State := state (archival (registered ++ [Outside (expiring true 1000000)])).

Lemma tick_renews_due_witness : exists s' batches,
  solo (tick scan DEFAULT_RETRY_DELAYS_MS DEFAULT_MIN_RENEWAL_GAP_MS) soon = (s', inr tt) /\ NoDup (concat batches) /\
  ("C", MetadataHash) ∈ concat batches.
Proof.
  destruct (tick_renews_due scan DEFAULT_RETRY_DELAYS_MS DEFAULT_MIN_RENEWAL_GAP_MS soon) as (s' & batches & E & _ & Hn & Hd & _);
    [intros m; reflexivity|intros n ps; reflexivity|reflexivity|].
  exists s', batches. split; [exact E|]. split; [exact Hn|]. apply Hd.
  exists (mkRow 10000 None), (int 1500), (int 0). split_and!; [reflexivity..|]. by vm_compute.
Defined.

Lemma batch_attempts_witness : exists k, (k <= 3)%nat /\
  (solo (submitBatchRenewal DEFAULT_RETRY_DELAYS_MS [("C", MetadataHash)]) soon).2 = inr (mkBatch (mkResult "tx" true) [("C", MetadataHash)] (S k)).
Proof.
  destruct (batch_attempts DEFAULT_RETRY_DELAYS_MS [("C", MetadataHash)] soon) as (k & Hk & _ & _ & E); [discriminate|apply Nat.leb_le; reflexivity|].
  exists k. split; [exact Hk|]. rewrite E. reflexivity.
Defined.

(** A failing batch waits up to 130 seconds, the next tick comes after 60: the same
    entries are sent by both. *)
Example overlapping_ticks_send_twice :
  let w := archival (registered ++ [Outside (expiring false 1000000); Launch 1 Start] ++ answers 1 7 ++ [Launch 2 Timer] ++ answers 2 7) in
  length <$> (answered (state w)).*1 = [5; 5]%nat /\ slept (state w) = [].
Proof. split; vm_compute; reflexivity. Qed.

(** The database refuses a connection when the renewal of one contract is recorded, and
    the entries of the other are not renewed. *)
Example refused_update_stops_tick :
  let w := archival (registered ++ Launch 1 (RegisterNode "D") :: answers 1 8 ++ [Outside (expiring true 1000000); Launch 2 Start] ++
     answers 2 12 ++ [Rejected 2 "pool is full"] ++ answers 2 20) in
  length (answered (state w)) = 1%nat /\ outcome w 2 = Some (Start, inr Nothing).
Proof. split; vm_compute; reflexivity. Qed.

(** A manual renewal that was accepted throws because it could not be recorded. *)
Example accepted_renewal_reported_as_failed :
  let w := archival (registered ++ [Launch 1 (RenewNow "C"); Answered 1; Rejected 1 "pool is full"]) in
  (answered (state w)) = [(buildWatchedPointers "C", SendResult (Some "tx"))] /\ outcome w 1 = Some (RenewNow "C", inl "pool is full").
Proof. split; vm_compute; reflexivity. Qed.

(** The entries live for 1500 more ledgers; the rows say 10000. *)
Example stored_ttl_is_the_default :
  let w := archival (registered ++ [Outside (expiring false 1000000); Launch 1 Start] ++ answers 1 7) in
  (fun x : ContractDataPointer * number => num_eqb x.2 (int 1500)) <$> metricsSent (state w) = replicate 5 true /\
  currentTtlLedgers <$> rowOf w MetadataHash = Some 10000.
Proof. split; vm_compute; reflexivity. Qed.
End Examples.
