(* ===== verification/Preflight.v ===== *)
(** * Preflight analysis ([blockchain/preflight_analyzer.ts], [rpc_client.ts])

    The estimate of the gas of a contract call from a simulation, and the cache of the
    reports.  Calls overlap at the [await] of the simulation ([Tasks]); what the node
    answers is read from the state and may change at any time, [simulated] is the log of
    its answers.

    [reports_justified]: a report that is returned is that of a simulation of the same
    contract and arguments, at most a minute old if it comes from the cache.
    [estimate_exact]: the estimate of a simulation. *)

From Stdlib Require Import ZArith Lia Lqa Ascii String QArith Qround.
From stdpp Require Import base numbers list strings sets.
From S2P Require Import Prelude Js Text Number Tasks StateArchival.
#[local] Open Scope Z_scope.

Definition SOROBAN_INSTRUCTIONS_LIMIT : Z := 100000000.
Definition CACHE_TTL_MS : Z := 60000.
Definition TTL_EXTENSION_INSTRUCTIONS : Z := 5000.

(** [args] is the JSON text of the arguments. *)
Record ContractOperation := mkOperation { contractId : string; functionName : string; args : string; xdr : option string }.

Record PreflightReport := mkReport {
  instructions : number;
  writeBytes : number;
  estimatedGas : number;
  simulationDurationMs : Z;
  storageKeysAccessed : list CriticalDataKey
}.

(** [data.result] may be missing, and so may its cost and the fields of it. *)
Inductive SimulateTransactionResponse :=
  | NoResult
  | SimulationError (message : string)
  | Simulation (cost : option (option string * option string)).

(** *** [parseInt(s, 10)] *)

Fixpoint digits_value (acc : Z) (s : string) : Z :=
  match s with String c s' => digits_value (10 * acc + (Z.of_nat (code c) - 48)) s' | EmptyString => acc end.

Definition unsigned (s : string) : option Z :=
  let '(ds, _) := span_digits s in if falsy ds then None else Some (digits_value 0 ds).

Definition parseInt (s : string) : number :=
  let t := trimStart s in
  let z := match t with
           | String c t' => if bool_decide (c = "-"%char) then Z.opp <$> unsigned t'
                            else if bool_decide (c = "+"%char) then unsigned t' else unsigned t
           | EmptyString => None
           end in
  match z with Some z => to_double (inject_Z z) | None => NaN end.

(** [parseInt(field || '0', 10)] *)
Definition field (o : option string) : number :=
  parseInt (match o with Some s => if falsy s then "0" else s | None => "0" end).

(** *** Keys *)

(** [Buffer.from(text).toString('hex')] *)
Fixpoint toHex (s : string) : string :=
  match s with
  | String c s' => String (hex_digit (code c / 16)) (String (hex_digit (code c mod 16)) (toHex s'))
  | EmptyString => ""
  end.

Definition hashArgs (op : ContractOperation) : string := toHex (args op).
Definition cacheKeyOf (op : ContractOperation) : string := "preflight:" +:+ contractId op +:+ ":" +:+ hashArgs op.

Definition getStorageAccessPattern : list CriticalDataKey := CRITICAL_DATA_KEYS.

(** *** The estimate *)

Definition estimate (instructions : number) (storageKeys : nat) : number :=
  num_min
    (num_add (num_add (floor (num_mul instructions (to_double (3 # 2)))) (int 50000))
       (num_mul (int (Z.of_nat storageKeys)) (int TTL_EXTENSION_INSTRUCTIONS)))
    (int SOROBAN_INSTRUCTIONS_LIMIT).

(** ** The analyzer *)

Record CacheEntry := mkEntry { report : PreflightReport; timestamp : Z }.

Record State := mkState {
  cache : jsmap string CacheEntry;
  clock : Z;
  onSimulate : ContractOperation -> SimulateTransactionResponse;
  simulated : list (ContractOperation * SimulateTransactionResponse)
}.

Definition set_cache (x : jsmap string CacheEntry) (s : State) : State := mkState x (clock s) (onSimulate s) (simulated s).
Definition add_simulated (x : ContractOperation * SimulateTransactionResponse) (s : State) : State :=
  mkState (cache s) (clock s) (onSimulate s) (simulated s ++ [x]).

Notation IO := (io State string).

Definition simulationFailed (message : string) : string := "Simulation failed: " +:+ message.
Definition typeError : string := "Cannot read properties of undefined".

(** [RpcClient.simulateTransaction]: a rejected [fetch] becomes an answer with an error. *)
Definition simulateTransaction (op : ContractOperation) : IO SimulateTransactionResponse :=
  Await (fun s => (add_simulated (op, onSimulate s op) s, inr (onSimulate s op)))
    (fun r => Done (match r with inl message => SimulationError message | inr response => response end)).

Definition reportOf (cost : option (option string * option string)) (durationMs : Z) : PreflightReport :=
  let instructions := field (cost ≫= fst) in
  mkReport instructions (field (cost ≫= snd)) (estimate instructions (length getStorageAccessPattern)) durationMs getStorageAccessPattern.

(** The cached entry of an operation, if it is not too old. *)
Definition cached (op : ContractOperation) (s : State) : option PreflightReport :=
  match cache s !! cacheKeyOf op with
  | Some e => if clock s - timestamp e <? CACHE_TTL_MS then Some (report e) else None
  | None => None
  end.

(** The clock is read three times without waiting: once. *)
Definition finish (op : ContractOperation) (cost : option (option string * option string)) (startTime : Z) (s : State) :
    State * PreflightReport :=
  let r := reportOf cost (clock s - startTime) in (set_cache (<[cacheKeyOf op := mkEntry r (clock s)]> (cache s)) s, r).

Definition analyze (op : ContractOperation) : IO PreflightReport :=
  Sync (fun s => (s, (clock s, cached op s))) (fun '(startTime, hit) =>
  match hit with
  | Some r => Done r
  | None =>
      io_bind (simulateTransaction op) (fun simulation =>
      match simulation with
      | NoResult => Fails typeError
      | SimulationError message => Fails (simulationFailed message)
      | Simulation cost =>
          Await (fun s => (s, inr tt)) (fun _ =>      (* getStorageAccessPattern, which does not fail *)
          Sync (finish op cost startTime) Done)
      end)
  end).

(** The clock and the answers of the node may change. *)
Definition outside (x : Z * (ContractOperation -> SimulateTransactionResponse)) (s : State) : State :=
  mkState (cache s) x.1 x.2 (simulated s).

(** ** Keys and estimates *)

Lemma toHex_lacks s : lacks ":"%char (toHex s) = true.
Proof.
  induction s as [|c s IH]; [done|]. assert (H : forall n, (n < 16)%nat -> hex_digit n <> ":"%char).
  { intros n Hn. do 16 (destruct n as [|n]; [vm_compute; discriminate|]). lia. }
  cbn [toHex]. rewrite !lacks_String. split; [apply H|split; [apply H|done]].
  - unfold code. pose proof (nat_ascii_bounded c). apply Nat.Div0.div_lt_upper_bound. lia.
  - apply Nat.mod_upper_bound. lia.
Qed.

Lemma hex_digit_inj m n : (m < 16)%nat -> (n < 16)%nat -> hex_digit m = hex_digit n -> m = n.
Proof.
  intros Hm Hn. do 16 (destruct m as [|m]; [do 16 (destruct n as [|n]; [vm_compute; (reflexivity || discriminate)|]); lia|]). lia.
Qed.

#[local] Opaque Nat.div Nat.modulo.
Lemma toHex_inj s t : toHex s = toHex t -> s = t.
Proof.
  revert t. induction s as [|c s IH]; intros [|d t]; [done..|]. cbn [toHex]. intros [= H1 H2 E].
  assert (forall c, code c / 16 < 16)%nat as Hd by (intros x; pose proof (nat_ascii_bounded x); apply Nat.Div0.div_lt_upper_bound; unfold code; lia).
  assert (forall c, code c mod 16 < 16)%nat as Hm by (intros x; apply Nat.mod_upper_bound; lia).
  apply hex_digit_inj in H1, H2; [|done..]. f_equal; [|by apply IH].
  rewrite <- (ascii_nat_embedding c), <- (ascii_nat_embedding d). f_equal. fold (code c) (code d).
  rewrite (Nat.div_mod_eq (code c) 16), (Nat.div_mod_eq (code d) 16). congruence.
Qed.

(** The function that is called is not part of the key. *)
Lemma cacheKeyOf_eq op op' : cacheKeyOf op = cacheKeyOf op' <-> contractId op = contractId op' /\ args op = args op'.
Proof.
  unfold cacheKeyOf, hashArgs. split; [|by intros [-> ->]]. cbn. intros [= E].
  apply last_separator_inj in E as [-> E]; [|apply toHex_lacks..]. by apply toHex_inj in E.
Qed.

(** ** What every await keeps *)

(** The report is that of a simulation of the contract and the arguments. *)
Definition justified (op : ContractOperation) (r : PreflightReport) (s : State) : Prop :=
  exists op' cost ms, contractId op' = contractId op /\ args op' = args op /\ (op', Simulation cost) ∈ simulated s /\ r = reportOf cost ms.

Definition Inv (s : State) : Prop := forall op e, cache s !! cacheKeyOf op = Some e -> justified op (report e) s.
Definition later (s s' : State) : Prop := simulated s ⊆ simulated s'.

Lemma report_justified_later op r s s' : later s s' -> justified op r s -> justified op r s'.
Proof. intros Hl (op' & cost & ms & ? & ? & ? & ?). exists op', cost, ms. split_and!; [done..|by apply Hl|done]. Qed.

Lemma finish_keeps op cost t s : Inv s -> (op, Simulation cost) ∈ simulated s ->
  let '(s', r) := finish op cost t s in Inv s' /\ later s s' /\ justified op r s'.
Proof.
  intros HI Hs. unfold finish. assert (Hj : justified op (reportOf cost (clock s - t)) s) by (exists op, cost, (clock s - t); done).
  split_and!; [|by unfold later|exact Hj]. intros op' e. cbn. rewrite jsmap_lookup_insert. case_decide as E; [|by apply HI].
  intros [= <-]. apply cacheKeyOf_eq in E as [E1 E2]. destruct Hj as (op2 & c2 & ms & ? & ? & ? & ?). exists op2, c2, ms. by split_and!; try congruence.
Qed.

Definition Post (op : ContractOperation) (r : string + PreflightReport) (s : State) : Prop :=
  match r with inr r => justified op r s | inl _ => True end.

#[local] Instance preflight_protocol : TaskProtocol analyze outside Inv later Post.
Proof.
  split; [by unfold later|by intros *; unfold later; etrans| | |].
  - intros x s HI. split; [exact HI|by unfold later].
  - intros op [e|r] s s' Hl; [done|]. by apply report_justified_later.
  - intros op s HI. cbn [analyze ok]. split; [by unfold later|]. destruct (cached op s) as [r|] eqn:Ec.
    { split; [done|]. unfold cached in Ec. destruct (cache s !! cacheKeyOf op) eqn:El; [|done]. case_match; [|done].
      injection Ec as <-. by apply HI. }
    cbn [io_bind ok simulateTransaction]. split; [done|]. intros s1 _ H1.
    assert (Hadd : forall x, later s1 (add_simulated x s1)) by (intros x; unfold later; cbn; set_solver).
    assert (Hfail : forall e s', Inv s' -> Inv s' /\ Post op (inl e) s') by done.
    split; [split; [apply Hadd|]|by intros e; apply Hfail].
    assert (H2 : Inv (add_simulated (op, onSimulate s1 op) s1)) by (intros op' e He; eapply report_justified_later; [apply Hadd|by apply HI || by apply H1]).
    destruct (onSimulate s1 op) as [|m|cost] eqn:Eo; [by apply Hfail|by apply Hfail|].
    cbn [ok]. split; [done|]. intros s3 Hl3 H3.
    assert (Hin : (op, Simulation cost) ∈ simulated s3) by (apply Hl3; cbn; set_solver).
    pose proof (finish_keeps op cost (clock s) s3 H3 Hin) as Hf. destruct (finish op cost (clock s) s3) as [s4 r].
    destruct Hf as (H4 & Hl4 & Hj). split; [split; [by unfold later|]|intros _]; done.
Qed.

Definition new_State (t : Z) (f : ContractOperation -> SimulateTransactionResponse) : State := mkState ∅ t f [].

(** however calls overlap, whatever the node answers and whichever requests fail, a
    report that is returned or cached was computed from an answer of the node to a
    simulation of a call with the same contract and arguments. *)
Theorem reports_justified t f evs :
  let w := run analyze outside (new_State t f) evs in
  (forall op e, cache (state w) !! cacheKeyOf op = Some e -> justified op (report e) (state w)) /\
  (forall tid op r, outcome w tid = Some (op, inr r) -> justified op r (state w)).
Proof.
  cbn zeta. destruct (tasks_run_safe (protocol := preflight_protocol) _ _ Inv later Post (new_State t f) evs) as [HI HP]; [by intros op e|].
  split; [exact HI|]. intros tid op r H. exact (HP _ _ _ H).
Qed.

(** a call that nothing disturbs and that finds no report, or only one that is a
    minute old, returns that of a new simulation and caches it for a minute, for every
    call of the contract with these arguments. *)
Theorem report_cached_for_a_minute op cost s t f :
  cached op s = None -> onSimulate s op = Simulation cost ->
  exists s', solo (analyze op) s = (s', inr (reportOf cost 0)) /\ simulated s' = simulated s ++ [(op, Simulation cost)] /\
    forall op', contractId op' = contractId op -> args op' = args op ->
      cached op' (outside (t, f) s') = if t - clock s <? CACHE_TTL_MS then Some (reportOf cost 0) else None.
Proof.
  intros Hc Ho. unfold analyze. cbn [solo]. rewrite Hc. cbn [io_bind simulateTransaction solo]. rewrite Ho. cbn [solo finish clock add_simulated].
  rewrite Z.sub_diag. eexists. split; [reflexivity|]. split; [done|]. intros op' Hi Ha. unfold cached.
  assert (cacheKeyOf op' = cacheKeyOf op) as -> by by apply cacheKeyOf_eq. cbn. by rewrite jsmap_lookup_insert_eq.
Qed.

(** the estimate of a simulation of up to 2^50 instructions is half as much again and
    75000 more, but at most the limit; so it covers what was simulated unless that is
    beyond the limit. *)
Theorem estimate_exact n : 0 <= n <= 2 ^ 50 ->
  exists q, estimate (int n) (length getStorageAccessPattern) = Finite q /\
    (q == inject_Z (Z.min (3 * n / 2 + 75000) SOROBAN_INSTRUCTIONS_LIMIT))%Q /\
    (n <= SOROBAN_INSTRUCTIONS_LIMIT -> (inject_Z n <= q)%Q).
Proof.
  intros Hn.
  assert (Hadd : forall x y a b, (x == inject_Z a)%Q -> (y == inject_Z b)%Q -> Z.abs (a + b) < 2 ^ 53 ->
    exists r, num_add (Finite x) (Finite y) = Finite r /\ (r == inject_Z (a + b))%Q).
  { intros x y a b Hx Hy Hb. destruct (to_double_exact (x + y)) as (r & Er & Hr).
    { rewrite Hx, Hy, <- inject_Z_plus. by apply is_double_Z. }
    exists r. split; [exact Er|]. by rewrite Hr, Hx, Hy, <- inject_Z_plus. }
  assert (Hhalf : exists h, num_mul (int n) (to_double (3 # 2)) = Finite h /\ (h == 3 * n # 2)%Q).
  { destruct (to_double_exact (3 * n # 2)) as (h & Eh & Hh).
    { exists (3 * n), (-1). cbn [Qnum Qden]. split; [lia|]. split; [lia|]. change (pow2 (- -1)) with 2. change (pow2 (-1)) with 1. lia. }
    change (to_double (3 # 2)) with (Finite (6755399441055744 # 4503599627370496)).
    destruct (to_double_exact (inject_Z n * (6755399441055744 # 4503599627370496))) as (r & Er & Hr).
    { assert (inject_Z n * (6755399441055744 # 4503599627370496) == 3 * n # 2)%Q as -> by (unfold Qeq; cbn; lia).
      exists (3 * n), (-1). cbn [Qnum Qden]. split; [lia|]. split; [lia|]. change (pow2 (- -1)) with 2. change (pow2 (-1)) with 1. lia. }
    exists r. split; [exact Er|]. rewrite Hr. unfold Qeq. cbn. lia. }
  destruct Hhalf as (h & Eh & Hh). unfold estimate. rewrite Eh.
  assert (Ef : floor (Finite h) = int (3 * n / 2)) by (unfold floor, int; do 2 f_equal; rewrite Hh; reflexivity).
  rewrite Ef. assert (Hd : 0 <= 3 * n / 2 <= 2 ^ 51) by (split; [apply Z.div_pos; lia|apply Z.div_le_upper_bound; lia]).
  destruct (Hadd (inject_Z (3 * n / 2)) (inject_Z 50000) (3 * n / 2) 50000) as (r1 & E1 & H1); [reflexivity..|lia|].
  unfold int at 1 2. rewrite E1.
  assert (Em : num_mul (int (Z.of_nat (length getStorageAccessPattern))) (int TTL_EXTENSION_INSTRUCTIONS) = to_double 25000) by reflexivity.
  rewrite Em. destruct (to_double_exact 25000) as (k & Ek & Hk); [by apply (is_double_Z 25000)|]. rewrite Ek.
  destruct (Hadd r1 k (3 * n / 2 + 50000) 25000 H1 Hk) as (r & Er & Hr); [lia|]. rewrite Er.
  assert (Hn' : (inject_Z n <= inject_Z (3 * n / 2 + 75000))%Q) by (rewrite <- Zle_Qle; pose proof (Z.div_le_lower_bound (3 * n) 2 n); lia).
  replace (3 * n / 2 + 50000 + 25000) with (3 * n / 2 + 75000) in Hr by lia.
  unfold num_min, int. cbn [num_ge]. destruct (Qle_bool (inject_Z SOROBAN_INSTRUCTIONS_LIMIT) r) eqn:El; eexists; (split; [reflexivity|]).
  - apply Qle_bool_iff in El. rewrite Hr, <- Zle_Qle in El. split; [by rewrite Z.min_r|]. intros. by rewrite <- Zle_Qle.
  - assert (~ (inject_Z SOROBAN_INSTRUCTIONS_LIMIT <= r)%Q) as Hl by (rewrite <- Qle_bool_iff; by rewrite El).
    rewrite Hr, <- Zle_Qle in Hl. split; [rewrite Z.min_l by lia; exact Hr|]. intros _. by rewrite Hr.
Qed.

Module Examples.

Definition deposit : ContractOperation := mkOperation "C" "deposit" "[7]" None.
Definition withdraw : ContractOperation := mkOperation "C" "withdraw" "[7]" None.

(** A deposit takes a million instructions, a withdrawal forty million. *)
Definition node (op : ContractOperation) : SimulateTransactionResponse :=
  Simulation (Some (Some (if String.eqb (functionName op) "deposit" then "1000000" else "40000000"), Some "128")).

Definition idle : State := new_State 0 node.

Lemma report_cached_for_a_minute_witness :
  exists s', solo (analyze deposit) idle = (s', inr (reportOf (Some (Some "1000000", Some "128")) 0)) /\
    cached withdraw (outside (59999, node) s') = Some (reportOf (Some (Some "1000000", Some "128")) 0).
Proof.
  destruct (report_cached_for_a_minute deposit (Some (Some "1000000", Some "128")) idle 59999 node) as (s' & E & _ & H); [reflexivity..|].
  exists s'. split; [exact E|]. exact (H withdraw eq_refl eq_refl).
Defined.

Lemma estimate_exact_witness : exists q, estimate (int 1000000) 5 = Finite q /\ (q == inject_Z 1575000)%Q.
Proof. destruct (estimate_exact 1000000) as (q & E & H & _); [lia|]. exists q. split; [exact E|exact H]. Defined.

(** The report of another function of the contract is taken for this one's: the estimate
    of the withdrawal is far below what it takes. *)
Example other_function_answers :
  let w := run analyze outside idle [Launch 0 deposit; Answered 0; Answered 0; Launch 1 withdraw] in
  (fun r : PreflightReport => num_eqb (estimatedGas r) (int 1575000)) <$> (match outcome w 1 with Some (_, inr r) => Some r | _ => None end) = Some true /\
  length (simulated (state w)) = 1%nat.
Proof. split; vm_compute; reflexivity. Qed.

(** A cost that is not a number is not noticed. *)
Example nan_estimate : estimate (field (Some "n/a")) 5 = NaN.
Proof. reflexivity. Qed.

(** Reports are never removed: one for each contract and arguments. *)
Example old_reports_stay :
  let w := run analyze outside idle [Launch 0 deposit; Answered 0; Answered 0; Outside (100000000, node)] in
  length (entries (cache (state w))) = 1%nat /\ cached deposit (state w) = None.
Proof. split; vm_compute; reflexivity. Qed.
End Examples.
