(* ===== verification/ConsensusSim.v ===== *)
(** * The consensus simulation ([consensus-sim/faults.ts], [simulation.ts])

    Rounds of proposals among validators, with partitions, timeouts, equivocation and
    delays injected, and a decision where a validator sees one value from more than two
    thirds.  A delayed message only lets the round wait, for it waits for all of them:
    delays are part of the specification of the faults and of no result.

    [simulation_never_recovers]: every proposal carries the name of its proposer and
    the faults only take messages away or tell them apart, so that with distinct
    validators no value is ever seen often enough.  [delivery_exact]: which messages get
    through. *)

From Stdlib Require Import ZArith Lia Ascii String.
From stdpp Require Import base numbers list strings gmap sets.
From S2P Require Import Prelude Js Text Number.
#[local] Open Scope Z_scope.

Notation ValidatorId := string.

(** ** Faults *)

Record Partition := mkPartition { groups : list (list ValidatorId); p_durationRounds : option number }.
Record Delay := mkDelay { ms : number; jitter : option number; probability : option number }.
Record Equivocation := mkEquivocation { e_by : list ValidatorId; roundSpan : option number }.
Record TimeoutFault := mkTimeout { t_by : list ValidatorId; t_durationRounds : option number }.
Record FaultSpec := mkFaults {
  partition : option Partition; delay : option Delay; equivocation : option Equivocation; timeout : option TimeoutFault
}.
Definition noFaults : FaultSpec := mkFaults None None None None.

Record SimulationConfig := mkConfig { c_validators : list ValidatorId; c_maxRounds : option Z; c_faultSpec : option FaultSpec }.

Record Message := mkMessage { from : ValidatorId; to : ValidatorId; m_round : Z; payload : string }.

Record ValidatorState := mkValidator { v_id : ValidatorId; active : bool; decided : jsmap Z string }.

Record Simulation := mkSimulation { validators : list ValidatorState; maxRounds : Z; faultSpec : FaultSpec }.

Definition new_Simulation (c : SimulationConfig) : Simulation :=
  mkSimulation ((fun i => mkValidator i true ∅) <$> c_validators c) (default 20 (c_maxRounds c)) (default noFaults (c_faultSpec c)).

(** [!d || round <= d] *)
Definition lasts (d : option number) (round : Z) : bool :=
  match d with
  | None | Some NaN => true
  | Some n => num_eqb n (int 0) || num_ge n (int round)
  end.

(** [findIndex]: -1 if no group has the validator. *)
Fixpoint findGroup (i : Z) (l : list (list ValidatorId)) (v : ValidatorId) : Z :=
  match l with
  | [] => -1
  | g :: l' => if bool_decide (v ∈ g) then i else findGroup (i + 1) l' v
  end.

Definition timedOut (f : FaultSpec) (v : ValidatorId) (round : Z) : bool :=
  match timeout f with Some t => bool_decide (v ∈ t_by t) && lasts (t_durationRounds t) round | None => false end.

Definition separated (f : FaultSpec) (a b : ValidatorId) (round : Z) : bool :=
  match partition f with
  | Some p =>
      (1 <? Z.of_nat (length (groups p))) &&
      (let gi := findGroup 0 (groups p) a in
       let gj := findGroup 0 (groups p) b in
       negb (gi =? gj) && (0 <=? gi) && (0 <=? gj) && lasts (p_durationRounds p) round)
  | None => false
  end.

Definition shouldDeliver (f : FaultSpec) (a b : ValidatorId) (round : Z) : bool :=
  if separated f a b round then false else negb (timedOut f a round).

(** ** A round *)

Section round.
Context (f : FaultSpec) (ids : list ValidatorId) (round : Z).

Definition proposal (v : ValidatorId) : string := v +:+ "-v" +:+ print_Z round.

Definition proposals : jsmap ValidatorId string :=
  foldl (fun m v => if timedOut f v round then m else <[v := proposal v]> m) ∅ ids.

Definition equivocates (v : ValidatorId) : bool :=
  match equivocation f with Some e => bool_decide (v ∈ e_by e) | None => false end.

(** What a proposer sends to another validator, if it gets through *)
Definition sentTo (a : ValidatorId) (p : string) (b : ValidatorId) : list Message :=
  if bool_decide (b = a) then []
  else if negb (shouldDeliver f a b round) then []
  else [mkMessage a b round (if equivocates a then p +:+ "-alt-" +:+ b else p)].

Definition msgs : list Message := entries proposals ≫= (fun '(a, p) => ids ≫= sentTo a p).

Definition count (perRecipient : jsmap ValidatorId (jsmap string Z)) (m : Message) : jsmap ValidatorId (jsmap string Z) :=
  let tally := default ∅ (perRecipient !! to m) in
  <[to m := <[payload m := default 0 (tally !! payload m) + 1]> tally]> perRecipient.

Definition perRecipient : jsmap ValidatorId (jsmap string Z) :=
  foldl count (foldl (fun m v => <[v := ∅]> m) ∅ ids) msgs.

Definition threshold : Z := 2 * Z.of_nat (length ids) / 3 + 1.

(** The first value that reaches the threshold *)
Definition majority (tally : jsmap string Z) : option string :=
  head (filter (fun x : string * Z => threshold <= x.2) (entries tally)).*1.

Definition decisions : list (ValidatorId * string) :=
  entries perRecipient ≫= (fun '(v, tally) => match majority tally with Some x => [(v, x)] | None => [] end).

(** [getValidator(vid).decided.set(round, val)], on the first of that name *)
Fixpoint decide_at (v : ValidatorId) (x : string) (l : list ValidatorState) : list ValidatorState :=
  match l with
  | [] => []
  | s :: l' => if String.eqb (v_id s) v then mkValidator (v_id s) (active s) (<[round := x]> (decided s)) :: l'
               else s :: decide_at v x l'
  end.
End round.

Definition runRound (round : Z) (s : Simulation) : Simulation * bool :=
  let ids := v_id <$> validators s in
  let ds := decisions (faultSpec s) ids round in
  (mkSimulation (foldl (fun l d => decide_at round d.1 d.2 l) (validators s) ds) (maxRounds s) (faultSpec s),
   negb (bool_decide (ds = []))).

Record Outcome := mkOutcome { rounds : Z; recovered : bool }.

(** [n] more rounds, from round [r] *)
Fixpoint runFrom (n : nat) (r : Z) (s : Simulation) : Simulation * Outcome :=
  match n with
  | O => (s, mkOutcome (maxRounds s) false)
  | S n' => let '(s', ok) := runRound r s in if ok then (s', mkOutcome r true) else runFrom n' (r + 1) s'
  end.

Definition run (s : Simulation) : Simulation * Outcome := runFrom (Z.to_nat (maxRounds s)) 1 s.

(** ** How often a value is seen *)

Section counting.
Context (f : FaultSpec) (ids : list ValidatorId) (round : Z).

(** The messages to [d] with value [x] *)
Definition carrying (d : ValidatorId) (x : string) (l : list Message) : list Message := filter (fun m => to m = d /\ payload m = x) l.

Definition seen (m : jsmap ValidatorId (jsmap string Z)) (d : ValidatorId) (x : string) : Z := default 0 (default ∅ (m !! d) !! x).

Lemma seen_count m a d x : seen (count m a) d x = seen m d x + Z.of_nat (length (carrying d x [a])).
Proof.
  unfold seen, count, carrying. rewrite jsmap_lookup_insert, filter_cons. case_decide as Ed.
  - subst d. cbn [from_option id]. rewrite jsmap_lookup_insert. case_decide as Ex.
    + subst x. rewrite decide_True by done. cbn. lia.
    + rewrite decide_False by naive_solver. cbn. lia.
  - rewrite decide_False by naive_solver. cbn. lia.
Qed.

Lemma seen_counts l m d x : seen (foldl count m l) d x = seen m d x + Z.of_nat (length (carrying d x l)).
Proof.
  revert m. induction l as [|a l IH]; intros m; cbn [foldl]; [cbn; lia|].
  rewrite IH, seen_count. change (a :: l) with ([a] ++ l). unfold carrying. rewrite filter_app, length_app. lia.
Qed.

Lemma seen_empty d x : seen (foldl (fun m v => <[v := ∅]> m) ∅ ids) d x = 0.
Proof.
  assert (H : forall m, (forall d, default ∅ (m !! d) = (∅ : jsmap string Z)) -> seen (foldl (fun m v => <[v := ∅]> m) m ids) d x = 0).
  { induction ids as [|v l IH]; intros m Hm; cbn [foldl]; [unfold seen; by rewrite Hm|]. apply IH. intros d'.
    rewrite jsmap_lookup_insert. by case_decide. }
  apply H. done.
Qed.

Lemma perRecipient_seen d x : seen (perRecipient f ids round) d x = Z.of_nat (length (carrying d x (msgs f ids round))).
Proof. unfold perRecipient. rewrite seen_counts, seen_empty. lia. Qed.

(** The value that [a] sends to [d] *)
Definition valueFor (d a : ValidatorId) : string :=
  if equivocates f a then proposal round a +:+ "-alt-" +:+ d else proposal round a.

Lemma append_inj_l (s1 s2 t : string) : s1 +:+ t = s2 +:+ t -> s1 = s2.
Proof.
  revert s2. induction s1 as [|c s1 IH]; intros [|c' s2]; rewrite ?app_Empty, ?app_String; try done.
  - intros E. apply (f_equal String.length) in E. cbn [String.length] in E. rewrite length_app_s in E. lia.
  - intros E. apply (f_equal String.length) in E. cbn [String.length] in E. rewrite length_app_s in E. lia.
  - intros [= -> E]. f_equal. by apply IH.
Qed.

Lemma valueFor_inj d a b : equivocates f a = equivocates f b -> valueFor d a = valueFor d b -> a = b.
Proof.
  unfold valueFor, proposal. intros ->. case_match; intros E; [apply append_inj_l in E|]; by apply append_inj_l in E.
Qed.

Lemma proposals_spec : map_wf (proposals f ids round) /\
  forall a p, proposals f ids round !! a = Some p -> a ∈ ids /\ p = proposal round a.
Proof.
  unfold proposals. assert (H : forall m l, map_wf m -> (forall a p, m !! a = Some p -> a ∈ ids /\ p = proposal round a) -> l ⊆ ids ->
    map_wf (foldl (fun m v => if timedOut f v round then m else <[v := proposal round v]> m) m l) /\
    forall a p, foldl (fun m v => if timedOut f v round then m else <[v := proposal round v]> m) m l !! a = Some p -> a ∈ ids /\ p = proposal round a).
  { intros m l. revert m. induction l as [|v l IH]; intros m Hw Hm Hl; cbn [foldl]; [done|].
    apply IH; [| |set_solver]; destruct (timedOut f v round); [done|by apply map_wf_insert|done|].
    intros a p. rewrite jsmap_lookup_insert. case_decide as E; [|apply Hm]. intros [= <-]. subst. split; [set_solver|done]. }
  apply H; [apply map_wf_empty|done|done].
Qed.

Lemma carrying_app d x l1 l2 : carrying d x (l1 ++ l2) = carrying d x l1 ++ carrying d x l2.
Proof. apply filter_app. Qed.

(** A proposer sends [d] at most one message, not to itself, with its value. *)
Lemma carrying_sentTo d x a l : NoDup l ->
  (length (carrying d x (l ≫= sentTo f round a (proposal round a))) <= (if bool_decide (d ∈ l /\ a <> d /\ valueFor d a = x) then 1 else 0))%nat.
Proof.
  induction 1 as [|b l Hb _ IH]; [done|]. cbn [mbind list_bind]. rewrite carrying_app, length_app.
  assert (Hs : carrying d x (sentTo f round a (proposal round a) b) =
    if bool_decide (b = d /\ a <> d /\ shouldDeliver f a b round = true /\ valueFor d a = x)
    then [mkMessage a b round (valueFor d a)] else []).
  { unfold sentTo, carrying. destruct (decide (b = a)) as [->|Eb].
    { rewrite (bool_decide_eq_true_2 (a = a)) by done. by rewrite bool_decide_eq_false_2 by naive_solver. }
    rewrite (bool_decide_eq_false_2 (b = a)) by done. destruct (shouldDeliver f a b round); cbn [negb]; [|by rewrite bool_decide_eq_false_2 by naive_solver].
    rewrite filter_cons. cbn [to payload].
    destruct (decide (b = d)) as [->|]; [|rewrite decide_False, bool_decide_eq_false_2 by naive_solver; done].
    fold (valueFor d a). destruct (decide (valueFor d a = x)).
    - rewrite decide_True, bool_decide_eq_true_2 by naive_solver. done.
    - rewrite decide_False, bool_decide_eq_false_2 by naive_solver. done. }
  rewrite Hs. repeat case_bool_decide; cbn [length]; set_solver by lia.
Qed.

Definition senders (d : ValidatorId) (x : string) : list ValidatorId :=
  filter (fun a => a <> d /\ valueFor d a = x) (map_keys (proposals f ids round)).

Lemma carrying_senders d x : NoDup ids -> d ∈ ids -> (length (carrying d x (msgs f ids round)) <= length (senders d x))%nat.
Proof.
  intros Hn Hd. destruct proposals_spec as [Hw Hp]. unfold msgs, senders, map_keys.
  assert (Hp' : forall a p, (a, p) ∈ entries (proposals f ids round) -> p = proposal round a).
  { intros a p Hin. apply elem_of_jsmap_lookup in Hin; [|done]. by apply Hp. }
  clear Hp Hw. induction (entries (proposals f ids round)) as [|[a p] l IH]; [done|].
  cbn [mbind list_bind fmap list_fmap fst]. rewrite carrying_app, length_app, filter_cons.
  rewrite (Hp' a p) by left. pose proof (carrying_sentTo d x a ids Hn) as Ha.
  specialize (IH (fun a p H => Hp' a p (list_elem_of_further _ _ _ H))).
  destruct (decide (a <> d /\ valueFor d a = x)) as [E|E];
    [rewrite bool_decide_eq_true_2 in Ha by done|rewrite bool_decide_eq_false_2 in Ha by (by intros [_ ?])]; cbn [length]; lia.
Qed.

Lemma NoDup_at_most_one {A} (l : list A) : NoDup l -> (forall a b, a ∈ l -> b ∈ l -> a = b) -> (length l <= 1)%nat.
Proof.
  destruct l as [|a [|b l]]; cbn; try lia. intros [Hn _]%NoDup_cons H. exfalso. apply Hn. rewrite (H a b); set_solver.
Qed.

(** At most one proposer that equivocates and one that does not, and not [d] itself *)
Lemma senders_bound d x : NoDup ids -> d ∈ ids -> Z.of_nat (length (senders d x)) <= Z.min 2 (Z.of_nat (length ids) - 1).
Proof.
  intros Hn Hd. destruct proposals_spec as [Hw Hp]. assert (Hs : NoDup (senders d x)) by (by apply NoDup_filter).
  apply Z.min_glb.
  - rewrite <- (filter_app_complement (fun a => equivocates f a = true) (senders d x)), length_app.
    assert (H : forall P `{forall a, Decision (P a)}, (forall a b, P a -> P b -> equivocates f a = equivocates f b) ->
      (length (filter P (senders d x)) <= 1)%nat).
    { intros P ? HP. apply NoDup_at_most_one; [by apply NoDup_filter|].
      intros a b [Pa [[_ Ea] _]%list_elem_of_filter]%list_elem_of_filter [Pb [[_ Eb] _]%list_elem_of_filter]%list_elem_of_filter.
      apply (valueFor_inj d); [by apply HP|congruence]. }
    pose proof (H (fun a => equivocates f a = true) _ ltac:(intros; congruence)).
    pose proof (H (fun a => ~ equivocates f a = true) _ ltac:(intros a b H1%not_true_iff_false H2%not_true_iff_false; congruence)). lia.
  - assert (length (d :: senders d x) <= length ids)%nat; [|cbn in *; lia].
    apply submseteq_length, NoDup_submseteq.
    + constructor; [|done]. by intros [[] _]%list_elem_of_filter.
    + intros a [->|Ha]%elem_of_cons; [done|]. apply list_elem_of_filter in Ha as [_ Ha].
      apply list_elem_of_fmap in Ha as ([a' p] & -> & Ha). apply elem_of_jsmap_lookup in Ha; [|done]. by apply Hp in Ha as [? _].
Qed.

Lemma below_threshold d x : NoDup ids -> d ∈ ids -> seen (perRecipient f ids round) d x < threshold ids.
Proof.
  intros Hn Hd. rewrite perRecipient_seen. pose proof (carrying_senders d x Hn Hd). pose proof (senders_bound d x Hn Hd).
  unfold threshold. set (n := Z.of_nat (length ids)) in *. assert (0 <= n) by lia.
  assert (Z.min 2 (n - 1) < 2 * n / 3 + 1); [|lia].
  destruct (Z.le_gt_cases n 2).
  - assert (n = 0 \/ n = 1 \/ n = 2) as [->|[->| ->]] by lia; done.
  - assert (2 <= 2 * n / 3) by (apply Z.div_le_lower_bound; lia). lia.
Qed.

(** *** The maps are maps *)

Definition tallies_wf (m : jsmap ValidatorId (jsmap string Z)) : Prop :=
  map_wf m /\ forall v t, m !! v = Some t -> v ∈ ids /\ map_wf t.

Lemma perRecipient_wf : tallies_wf (perRecipient f ids round).
Proof.
  unfold perRecipient.
  assert (Hcount : forall l m, (forall a, a ∈ l -> to a ∈ ids) -> tallies_wf m -> tallies_wf (foldl count m l)).
  { induction l as [|a l IH]; intros m Hl [Hw Ht]; cbn [foldl]; [done|]. apply IH; [intros; apply Hl; by right|].
    unfold count. cbn zeta. split; [by apply map_wf_insert|]. intros v t. rewrite jsmap_lookup_insert.
    case_decide as E; [|apply Ht]. intros [= <-]. split; [subst v; apply Hl; by left|]. apply map_wf_insert.
    destruct (m !! to a) eqn:Em; [by eapply Ht|apply map_wf_empty]. }
  apply Hcount.
  - intros a Ha. unfold msgs in Ha. apply list_elem_of_bind in Ha as ([b p] & Ha & _).
    apply list_elem_of_bind in Ha as (v & Ha & Hv). unfold sentTo in Ha. case_bool_decide; [by apply elem_of_nil in Ha|].
    destruct (shouldDeliver f b v round); cbn in Ha; [|by apply elem_of_nil in Ha]. by apply list_elem_of_singleton in Ha as ->.
  - assert (H : forall l m, l ⊆ ids -> tallies_wf m -> tallies_wf (foldl (fun m v => <[v := ∅]> m) m l)).
    { induction l as [|v l IH]; intros m Hl [Hw Ht]; cbn [foldl]; [done|]. apply IH; [set_solver|]. split; [by apply map_wf_insert|].
      intros v' t. rewrite jsmap_lookup_insert. case_decide as E; [|apply Ht]. intros [= <-]. subst. split; [set_solver|apply map_wf_empty]. }
    apply H; [done|]. split; [apply map_wf_empty|done].
Qed.

Lemma no_decisions : NoDup ids -> decisions f ids round = [].
Proof.
  intros Hn. destruct perRecipient_wf as [Hw Ht]. unfold decisions.
  assert (H : forall v t, (v, t) ∈ entries (perRecipient f ids round) -> majority ids t = None).
  { intros v t Hin. apply elem_of_jsmap_lookup in Hin; [|done]. destruct (Ht _ _ Hin) as [Hv Hwt]. unfold majority.
    destruct (filter _ (entries t)) as [|[x c] l] eqn:E; [done|]. exfalso.
    assert ((x, c) ∈ filter (fun x : string * Z => threshold ids <= x.2) (entries t)) as Hx by (rewrite E; left).
    apply list_elem_of_filter in Hx as [Hc Hx]. apply elem_of_jsmap_lookup in Hx; [|done].
    pose proof (below_threshold v x Hn Hv) as Hb. unfold seen in Hb. rewrite Hin in Hb. cbn in Hb. rewrite Hx in Hb. cbn in Hb, Hc. lia. }
  induction (entries (perRecipient f ids round)) as [|[v t] l IH]; [done|]. cbn [mbind list_bind].
  rewrite (H v t) by left. apply IH. intros; eapply H. by right.
Qed.
End counting.

Lemma proposals_lookup f ids round a :
  proposals f ids round !! a = if bool_decide (a ∈ ids) && negb (timedOut f a round) then Some (proposal round a) else None.
Proof.
  unfold proposals. assert (H : forall l (m : jsmap ValidatorId string), foldl (fun m v => if timedOut f v round then m else <[v := proposal round v]> m) m l !! a =
    if bool_decide (a ∈ l) && negb (timedOut f a round) then Some (proposal round a) else m !! a).
  { induction l as [|v l IH]; intros m; cbn [foldl]; [done|]. rewrite IH. destruct (decide (a ∈ l)) as [Hl|Hl].
    - rewrite !bool_decide_eq_true_2 by set_solver. cbn. destruct (timedOut f a round) eqn:E; cbn; [|done].
      destruct (timedOut f v round) eqn:Ev; [done|]. rewrite jsmap_lookup_insert. destruct (decide (v = a)); [congruence|done].
    - rewrite (bool_decide_eq_false_2 (a ∈ l)) by done. cbn [andb]. destruct (decide (a = v)) as [->|Hv].
      + rewrite bool_decide_eq_true_2 by set_solver. destruct (timedOut f v round); cbn; [done|]. by rewrite jsmap_lookup_insert, decide_True.
      + rewrite bool_decide_eq_false_2 by set_solver. cbn. destruct (timedOut f v round); [done|]. by rewrite jsmap_lookup_insert, decide_False by congruence. }
  apply H.
Qed.

(** the messages of a round are those from a validator that is not timed out to
    another one of the same side of the partition, or of no side, each with the value of
    its proposer, told apart by recipient if it equivocates. *)
Theorem messages_of_round f ids round m :
  m ∈ msgs f ids round <->
  from m ∈ ids /\ to m ∈ ids /\ from m <> to m /\ timedOut f (from m) round = false /\ separated f (from m) (to m) round = false /\
  m = mkMessage (from m) (to m) round (valueFor f round (to m) (from m)).
Proof.
  destruct (proposals_spec f ids round) as [Hw _]. unfold msgs. rewrite list_elem_of_bind. split.
  - intros ([a p] & Hm & Ha). apply elem_of_jsmap_lookup in Ha; [|done]. rewrite proposals_lookup in Ha.
    destruct (bool_decide (a ∈ ids)) eqn:Ei, (timedOut f a round) eqn:Et; cbn in Ha; try done. injection Ha as <-.
    apply bool_decide_eq_true in Ei. apply list_elem_of_bind in Hm as (b & Hm & Hb). unfold sentTo, shouldDeliver in Hm.
    case_bool_decide; [by apply elem_of_nil in Hm|]. destruct (separated f a b round) eqn:Es; [by apply elem_of_nil in Hm|].
    rewrite Et in Hm. cbn in Hm. apply list_elem_of_singleton in Hm as ->. cbn. by split_and!.
  - intros (Ha & Hb & Hne & Ht & Hs & E). exists (from m, proposal round (from m)). split.
    + apply list_elem_of_bind. exists (to m). split; [|done]. unfold sentTo, shouldDeliver. rewrite bool_decide_eq_false_2 by congruence.
      rewrite Hs, Ht. cbn. apply list_elem_of_singleton. exact E.
    + apply jsmap_lookup_elem_of. rewrite proposals_lookup, Ht. by rewrite bool_decide_eq_true_2.
Qed.

Lemma runRound_stays s r : NoDup (v_id <$> validators s) -> runRound r s = (s, false).
Proof. intros Hn. unfold runRound. rewrite no_decisions by done. by destruct s. Qed.

(** with distinct validators no round ever decides anything, whatever the faults,
    even without any: the simulation runs through all its rounds, reports that it did not
    recover and leaves every validator as it was. *)
Theorem simulation_never_recovers c : NoDup (c_validators c) ->
  run (new_Simulation c) = (new_Simulation c, mkOutcome (default 20 (c_maxRounds c)) false).
Proof.
  intros Hn. unfold run. assert (Hv : NoDup (v_id <$> validators (new_Simulation c))).
  { unfold new_Simulation. cbn. rewrite <- list_fmap_compose. by rewrite list_fmap_id. }
  change (default 20 (c_maxRounds c)) with (maxRounds (new_Simulation c)).
  generalize 1. induction (Z.to_nat (maxRounds (new_Simulation c))) as [|n IH]; intros r; [done|].
  cbn [runFrom]. by rewrite runRound_stays.
Qed.

Module Examples.

Definition four : SimulationConfig := mkConfig ["a"; "b"; "c"; "d"] None None.

Lemma simulation_never_recovers_witness : (run (new_Simulation four)).2 = mkOutcome 20 false.
Proof. rewrite (simulation_never_recovers four); [reflexivity|]. apply (bool_decide_unpack _). vm_compute. reflexivity. Defined.

(** Each of them sees three values once. *)
Example values_seen_once :
  (fun t => entries t) <$> map_values (perRecipient noFaults ["a"; "b"; "c"; "d"] 1) =
  [[("b-v1", 1); ("c-v1", 1); ("d-v1", 1)]; [("a-v1", 1); ("c-v1", 1); ("d-v1", 1)];
   [("a-v1", 1); ("b-v1", 1); ("d-v1", 1)]; [("a-v1", 1); ("b-v1", 1); ("c-v1", 1)]].
Proof. vm_compute. reflexivity. Qed.

(** A validator listed three times gets each message three times, and decides. *)
Example repeated_validator_decides :
  (run (new_Simulation (mkConfig ["b"; "a"; "a"; "a"] None None))).2 = mkOutcome 1 true.
Proof. vm_compute. reflexivity. Qed.

(** A duration of 0 rounds is a duration without end. *)
Example zero_rounds_last_forever :
  timedOut (mkFaults None None None (Some (mkTimeout ["a"] (Some (int 0))))) "a" 20 = true.
Proof. reflexivity. Qed.
End Examples.
