(* ===== verification/CapacityPlanner.v ===== *)
(** * Capacity forecasts ([src/src/capacity/planner.ts])

    Samples of use by service and resource, kept in order of time for the retention
    period; the trend by least squares, and the forecast with its level and
    recommendation, in JavaScript numbers.  The clock of [record] is an argument; the
    texts of recommendations and metrics are left out.  An option that is given as
    undefined behaves as NaN.

    [history_recorded]: what a call of [record] does to every series.
    [linear_growth_forecast]: growth by a whole amount a day is forecast exactly.
    [forecasts_ranked]: [forecastAll] has one forecast for each series, the gravest
    levels first, if no service has a bar in its name. *)

From Stdlib Require Import ZArith Lia Lqa Ascii String QArith Sorted.
From stdpp Require Import base numbers list strings.
From S2P Require Import Prelude Js Text Number Doubles.
#[local] Open Scope Z_scope.

Inductive CapacityResource := Cpu | Memory | Storage | Requests | Latency.
#[export] Instance CapacityResource_eq_dec : EqDecision CapacityResource.
Proof. solve_decision. Defined.

Definition resourceName (r : CapacityResource) : string :=
  match r with Cpu => "cpu" | Memory => "memory" | Storage => "storage" | Requests => "requests" | Latency => "latency" end.

Record UsageSample := mkSample {
  service : string; resource : CapacityResource; value : number; capacity : number; timestamp : number }.

Inductive Level := Healthy | Watch | Scale | Critical.
#[export] Instance Level_eq_dec : EqDecision Level.
Proof. solve_decision. Defined.

Inductive Recommendation := AddCapacity (resource : string) (days : option number) | Expand (resource : string) | Monitor (resource : string) | Within (resource : string).

Record CapacityForecast := mkForecast {
  f_service : string;
  f_resource : string;
  currentUtilizationPercent : number;
  projectedUtilizationPercent : number;
  projectedValue : number;
  daysToExhaustion : option number;
  growthPerDay : number;
  confidence : number;
  level : Level;
  recommendation : Recommendation
}.

Record CapacityPlannerOptions := mkOptions {
  retentionDays : number;
  forecastDays : number;
  watchUtilizationPercent : number;
  scaleUtilizationPercent : number;
  criticalUtilizationPercent : number;
  minSamplesForTrend : number
}.

Definition DAY_MS : Z := 24 * 60 * 60 * 1000.
Definition DEFAULTS : CapacityPlannerOptions := mkOptions (int 90) (int 30) (int 70) (int 85) (int 95) (int 3).

(** A planner; the options do not change. *)
Notation CapacityPlanner := (jsmap string (list UsageSample)).

Inductive PlannerError := NoService | BadValue | BadCapacity | BadTimestamp.

Definition validateSample (x : UsageSample) : option PlannerError :=
  if falsy (trim (service x)) then Some NoService
  else if negb (isFinite (value x)) || num_lt (value x) (int 0) then Some BadValue
  else if negb (isFinite (capacity x)) || num_ge (int 0) (capacity x) then Some BadCapacity
  else if negb (isFinite (timestamp x)) then Some BadTimestamp
  else None.

Definition BAR : ascii := "|"%char.
Definition key (s : string) (r : string) : string := s +:+ String BAR r.

Definition historyOf (p : CapacityPlanner) (s : string) (r : string) : list UsageSample := default [] (p !! key s r).

(** ** The trend *)

Definition square (x : number) : number := num_mul x x.
Definition lengthOf {A} (l : list A) : number := int (Z.of_nat (length l)).
Definition mean (l : list number) : number := num_div (sumOf id (int 0) l) (lengthOf l).

Record Trend := mkTrend { slopePerDay : number; t_confidence : number }.

Definition residualAt (xMean yMean slope : number) (xy : number * number) : number :=
  square (num_sub xy.2 (num_add yMean (num_mul slope (num_sub xy.1 xMean)))).

Definition calculateTrend (history : list UsageSample) : Trend :=
  match history with
  | [] | [_] => mkTrend (int 0) (int 0)
  | first :: _ =>
      let xs := (fun x => num_div (num_sub (timestamp x) (timestamp first)) (int DAY_MS)) <$> history in
      let ys := value <$> history in
      let xMean := mean xs in
      let yMean := mean ys in
      let variance := sumOf (fun x => square (num_sub x xMean)) (int 0) xs in
      if num_eqb variance (int 0) then mkTrend (int 0) (int 0) else
      let covariance := sumOf (fun xy => num_mul (num_sub xy.1 xMean) (num_sub xy.2 yMean)) (int 0) (zip xs ys) in
      let slope := num_div covariance variance in
      let total := sumOf (fun y => square (num_sub y yMean)) (int 0) ys in
      let residual := sumOf (residualAt xMean yMean slope) (int 0) (zip xs ys) in
      mkTrend slope
        (if num_eqb total (int 0) then int 1
         else num_max (int 0) (num_min (int 1) (num_sub (int 1) (num_div residual total))))
  end.

(** ** Forecasts *)

Definition utilization (v c : number) : number := num_mul (num_div v c) (int 100).

Definition recommend (l : Level) (r : string) (days : option number) : Recommendation :=
  match l with Critical => AddCapacity r days | Scale => Expand r | Watch => Monitor r | Healthy => Within r end.

Definition levelRank (l : Level) : Z := match l with Healthy => 0 | Watch => 1 | Scale => 2 | Critical => 3 end.
Definition rank (f : CapacityForecast) : number :=
  num_add (num_mul (int (levelRank (level f))) (int 1000)) (projectedUtilizationPercent f).

Section planner.
Context (options : CapacityPlannerOptions).

Definition cutoffAt (now : number) : number := num_sub now (num_mul (retentionDays options) (int DAY_MS)).

Definition record (now : number) (x : UsageSample) (p : CapacityPlanner) : CapacityPlanner * option PlannerError :=
  match validateSample x with
  | Some e => (p, Some e)
  | None =>
      let retained := filter (fun e => num_ge (timestamp e) (cutoffAt now) = true) (historyOf p (service x) (resourceName (resource x))) in
      (<[key (service x) (resourceName (resource x)) :=
           sort_by (fun a b => diff_le (timestamp a) (timestamp b)) (retained ++ [x])]> p, None)
  end.

(** The calls of [now] come in the order of the samples. *)
Fixpoint recordBatch (xs : list (number * UsageSample)) (p : CapacityPlanner) : CapacityPlanner * option PlannerError :=
  match xs with
  | [] => (p, None)
  | (now, x) :: xs' =>
      match record now x p with
      | (p', None) => recordBatch xs' p'
      | (p', Some e) => (p', Some e)
      end
  end.

Definition enoughSamples (history : list UsageSample) : bool := num_ge (lengthOf history) (minSamplesForTrend options).

(** [bound] compared with the days, if there are any *)
Definition within (bound : Z) (days : option number) : bool :=
  match days with Some d => num_ge (int bound) d | None => false end.

Definition levelFor (percent : number) (days : option number) : Level :=
  if num_ge percent (criticalUtilizationPercent options) || within 7 days then Critical
  else if num_ge percent (scaleUtilizationPercent options) || within 30 days then Scale
  else if num_ge percent (watchUtilizationPercent options) then Watch
  else Healthy.

Definition growthOf (history : list UsageSample) : number :=
  if enoughSamples history then slopePerDay (calculateTrend history) else int 0.

Definition projected (latest : UsageSample) (growth days : number) : number :=
  num_max (int 0) (num_add (value latest) (num_mul growth days)).

Definition exhaustion (latest : UsageSample) (growth : number) : option number :=
  if num_lt (int 0) growth then Some (num_max (int 0) (num_div (num_sub (capacity latest) (value latest)) growth)) else None.

Definition forecastOf (s r : string) (history : list UsageSample) (latest : UsageSample) (days : number) : CapacityForecast :=
  let growth := growthOf history in
  let pv := projected latest growth days in
  let current := utilization (value latest) (capacity latest) in
  let future := utilization pv (capacity latest) in
  let left := exhaustion latest growth in
  let l := levelFor (num_max current future) left in
  mkForecast s r current future pv left growth
    (if enoughSamples history then t_confidence (calculateTrend history) else int 0) l (recommend l r left).

Definition forecast (p : CapacityPlanner) (s r : string) (days : number) : option CapacityForecast :=
  let history := historyOf p s r in
  latest ← last history; Some (forecastOf s r history latest days).

(** The forecast of a key of the map: its first two parts between bars. *)
Definition forecastKey (p : CapacityPlanner) (days : number) (k : string) : option CapacityForecast :=
  match split BAR k with
  | s :: r :: _ => forecast p s r days
  | _ => None
  end.

Definition forecastAll (p : CapacityPlanner) (days : number) : list CapacityForecast :=
  sort_by (fun a b => diff_le (rank b) (rank a)) (omap (forecastKey p days) (map_keys p)).
End planner.

(** ** Series *)

Lemma resource_lacks r : lacks BAR (resourceName r) = true.
Proof. by destruct r. Qed.

Lemma resourceName_inj r1 r2 : resourceName r1 = resourceName r2 -> r1 = r2.
Proof. by destruct r1, r2. Qed.

Lemma series_key_inj s1 r1 s2 r2 : key s1 (resourceName r1) = key s2 (resourceName r2) -> s1 = s2 /\ r1 = r2.
Proof.
  intros E. apply last_separator_inj in E as [E1 E2]; [|apply resource_lacks..]. split; [done|by apply resourceName_inj].
Qed.

Definition accepted (x : UsageSample) : Prop := validateSample x = None /\ genuine (timestamp x).

Definition byTime (a b : UsageSample) : Prop := num_ge (timestamp b) (timestamp a) = true.

(** Every key is that of a series, with its samples in order of time. *)
Record Inv (p : CapacityPlanner) : Prop := {
  inv_keys : map_wf p;
  inv_series : forall k h, p !! k = Some h -> exists s r, k = key s (resourceName r) /\ h <> [] /\
    Forall (fun x => accepted x /\ service x = s /\ resource x = r) h /\ StronglySorted byTime h
}.

Lemma accepted_finite x : accepted x -> isFinite (timestamp x) = true.
Proof. intros [H _]. unfold validateSample in H. repeat (case_match; try done). by destruct (isFinite (timestamp x)). Qed.

Lemma sorted_byTime l : Forall accepted l -> StronglySorted byTime (sort_by (fun a b => diff_le (timestamp a) (timestamp b)) l).
Proof.
  rewrite Forall_forall. intros H. apply (sort_by_diff timestamp). intros x Hx%H. split; [by apply accepted_finite|apply Hx].
Qed.

Section calls.
Context (options : CapacityPlannerOptions).

Lemma record_inv now x p : genuine (timestamp x) -> Inv p -> Inv (record options now x p).1.
Proof.
  intros Hg [Hw Hs]. unfold record. destruct (validateSample x) eqn:Ev; [done|]. cbn [fst]. split; [by apply map_wf_insert|].
  intros k h. rewrite jsmap_lookup_insert. case_decide as Hk; [|by apply Hs]. intros [= <-].
  exists (service x), (resource x). split; [done|].
  assert (Hf : Forall (fun y => accepted y /\ service y = service x /\ resource y = resource x)
    (filter (fun e => num_ge (timestamp e) (cutoffAt options now) = true) (historyOf p (service x) (resourceName (resource x))) ++ [x])).
  { apply Forall_app. split; [|by repeat constructor]. apply Forall_forall. intros y [_ Hy]%list_elem_of_filter. revert y Hy. apply Forall_forall. unfold historyOf.
    destruct (p !! _) as [h|] eqn:E; cbn; [|constructor]. apply Hs in E as (s & r & E & _ & H & _). apply series_key_inj in E as [-> ->]. exact H. }
  split; [|split].
  - intros E. apply (f_equal length) in E. rewrite length_sort_by, length_app in E. cbn in E. lia.
  - by rewrite sort_by_Permutation.
  - apply sorted_byTime. eapply Forall_impl; [exact Hf|]. by intros y [].
Qed.

Lemma new_planner_inv : Inv ∅.
Proof. by split. Qed.

(** Calls of [record], failing ones included. *)
Definition recordCalls (calls : list (number * UsageSample)) (p : CapacityPlanner) : CapacityPlanner :=
  foldl (fun p '(now, x) => (record options now x p).1) p calls.

Definition genuineCalls (calls : list (number * UsageSample)) : Prop := Forall (fun '(_, x) => genuine (timestamp x)) calls.

Lemma recordCalls_inv calls p : genuineCalls calls -> Inv p -> Inv (recordCalls calls p).
Proof.
  intros H. revert p. induction H as [|[now x] calls Hx _ IH]; intros p Hp; [done|]. cbn. by apply IH, record_inv.
Qed.
End calls.

(** after any calls a series is in order of time; a further call with a sample that is
    refused changes nothing; an accepted one leaves in its series those of the retention
    period and itself, and every other series as it was. *)
Theorem history_recorded options calls now x :
  genuineCalls (calls ++ [(now, x)]) ->
  let p := recordCalls options calls ∅ in
  let '(p', error) := record options now x p in
  (forall s r, StronglySorted byTime (historyOf p' s (resourceName r))) /\
  match validateSample x with
  | Some e => p' = p /\ error = Some e
  | None =>
      error = None /\
      historyOf p' (service x) (resourceName (resource x)) ≡ₚ
        filter (fun y => num_ge (timestamp y) (cutoffAt options now) = true) (historyOf p (service x) (resourceName (resource x))) ++ [x] /\
      forall s r, (s, r) <> (service x, resource x) -> historyOf p' s (resourceName r) = historyOf p s (resourceName r)
  end.
Proof.
  intros [Hc Hx]%Forall_app p. rewrite Forall_singleton in Hx. assert (Hp : Inv p) by (apply recordCalls_inv; [done|apply new_planner_inv]).
  pose proof (record_inv options now x p Hx Hp) as Hi. destruct (record options now x p) as [p' error] eqn:E. cbn in Hi. split.
  - intros s r. unfold historyOf. destruct (p' !! _) as [h|] eqn:El; cbn; [|constructor]. by apply (inv_series _ Hi) in El as (? & ? & _ & _ & _ & ?).
  - unfold record in E. destruct (validateSample x); [by injection E as <- <-|]. injection E as <- <-. split; [done|]. split.
    + unfold historyOf at 1. rewrite jsmap_lookup_insert_eq. cbn [default from_option id]. apply sort_by_Permutation.
    + intros s r Hne. unfold historyOf at 1. rewrite jsmap_lookup_insert_ne; [done|]. intros [<- <-]%series_key_inj. done.
Qed.

(** ** Growth by a whole amount a day *)

(** Samples of an amount [a] that grows by [b] a day, one for each of the days [xs] *)
Definition linear (s : string) (r : CapacityResource) (cap : number) (t0 a b : Z) (xs : list Z) : list UsageSample :=
  (fun x => mkSample s r (int (a + b * x)) cap (int (t0 + DAY_MS * x))) <$> xs.

(** Days with a whole mean, small enough for sums that a double holds *)
Record small_days (a b mu : Z) (xs : list Z) : Prop := {
  days_first : head xs = Some 0;
  days_mean : zsum id xs = mu * Z.of_nat (length xs);
  days_sum : DAY_MS * zsum Z.abs xs < 2 ^ 53;
  values_sum : zsum (fun x => Z.abs (a + b * x)) xs < 2 ^ 53;
  squares_sum : zsum (fun x => (x - mu) * (x - mu)) xs * (1 + Z.abs b + b * b) < 2 ^ 53
}.

Lemma zsum_ge {A} (g : A -> Z) l x : (forall y, y ∈ l -> 0 <= g y) -> x ∈ l -> g x <= zsum g l.
Proof.
  induction l as [|y l IH]; intros H Hx; [by apply elem_of_nil in Hx|]. cbn. pose proof (H y ltac:(by left)) as Hy.
  assert (0 <= zsum g l) by (apply zsum_nonneg; intros; apply H; by right). unfold zsum in *.
  apply elem_of_cons in Hx as [->|Hx]; [lia|]. enough (g x <= foldr (fun x s => g x + s) 0 l) by lia. apply IH; [|done]. intros; apply H; by right.
Qed.

Lemma counts_mean (f : Z -> number) (g : Z -> Z) m xs : xs <> [] -> (forall x, x ∈ xs -> counts (f x) (g x)) ->
  zsum (fun x => Z.abs (g x)) xs < 2 ^ 53 -> zsum g xs = m * Z.of_nat (length xs) -> counts (mean (f <$> xs)) m.
Proof.
  intros Hne Hf Hb Hm. unfold mean. rewrite sumOf_fmap. unfold id, lengthOf. rewrite length_fmap.
  assert (Hl : Z.of_nat (length xs) <> 0) by (destruct xs; cbn; [done|lia]).
  assert (Hs : counts (sumOf f (int 0) xs) (0 + zsum g xs)) by (apply counts_sumOf; [done|apply counts_int|cbn; lia]).
  rewrite Z.add_0_l, Hm in Hs. apply (counts_div _ _ _ _ Hs (counts_int _) Hl).
  assert (Hab : Z.abs (zsum g xs) <= zsum (fun x => Z.abs (g x)) xs).
  { clear. unfold zsum. induction xs as [|x xs IH]; cbn; lia. }
  rewrite Hm, Z.abs_mul in Hab. nia.
Qed.

Section linear.
Context (s : string) (r : CapacityResource) (cap : number) (t0 a b mu : Z) (xs : list Z).
Hypothesis Hd : small_days a b mu xs.
Let S := zsum (fun x => (x - mu) * (x - mu)) xs.

Let dayOf (x : Z) : number := num_div (num_sub (int (t0 + DAY_MS * x)) (int (t0 + DAY_MS * 0))) (int DAY_MS).

Lemma day_abs x : x ∈ xs -> DAY_MS * Z.abs x < 2 ^ 53.
Proof.
  intros Hx. pose proof (days_sum _ _ _ _ Hd). pose proof (zsum_ge Z.abs xs x ltac:(lia) Hx).
  assert (0 < DAY_MS) by done. nia.
Qed.

Lemma dayOf_counts x : x ∈ xs -> counts (dayOf x) x.
Proof.
  intros Hx%day_abs. assert (DAY_MS = 86400000) as Ed by done. unfold dayOf. apply (counts_div _ _ x DAY_MS); [|apply counts_int|done|lia].
  replace (x * DAY_MS) with (t0 + DAY_MS * x - (t0 + DAY_MS * 0)) by ring. apply counts_sub; [apply counts_int..|lia].
Qed.

Lemma value_abs x : x ∈ xs -> Z.abs (a + b * x) < 2 ^ 53.
Proof.
  intros Hx. pose proof (values_sum _ _ _ _ Hd). pose proof (zsum_ge (fun x => Z.abs (a + b * x)) xs x ltac:(lia) Hx) as H1. cbn in H1. lia.
Qed.

Lemma square_le x : x ∈ xs -> (x - mu) * (x - mu) <= S.
Proof. intros Hx. apply (zsum_ge (fun x => (x - mu) * (x - mu)) xs x); [intros; apply Z.square_nonneg|done]. Qed.

Lemma deviation_small x : x ∈ xs -> Z.abs (x - mu) < 2 ^ 53 /\ Z.abs (b * (x - mu)) < 2 ^ 53 /\ 0 <= S /\
  S * (1 + Z.abs b + b * b) < 2 ^ 53.
Proof.
  intros Hx. pose proof (square_le x Hx) as H2. pose proof (squares_sum _ _ _ _ Hd) as H1. fold S in H1.
  generalize dependent S. generalize dependent (x - mu). intros d q H2 H1. pose proof (Z.square_nonneg d).
  assert (Z.abs d <= d * d) by nia. rewrite Z.abs_mul. assert (Z.abs b * Z.abs d <= Z.abs b * q) by nia. split_and!; nia.
Qed.

Lemma days_nonempty : xs <> [].
Proof. pose proof (days_first _ _ _ _ Hd). by destruct xs. Qed.

Lemma xMean_counts : counts (mean (dayOf <$> xs)) mu.
Proof.
  apply (counts_mean dayOf id); [apply days_nonempty|apply dayOf_counts| |apply Hd].
  pose proof (days_sum _ _ _ _ Hd) as H. change DAY_MS with 86400000 in H. assert (0 <= zsum Z.abs xs) by (apply zsum_nonneg; lia).
  change (zsum Z.abs xs < 2 ^ 53). lia.
Qed.

Lemma yMean_counts : counts (mean ((fun x => int (a + b * x)) <$> xs)) (a + b * mu).
Proof.
  apply (counts_mean _ (fun x => a + b * x)); [apply days_nonempty|intros; apply counts_int|apply Hd|].
  rewrite (zsum_ext _ (fun x => a * 1 + b * id x)) by (intros; unfold id; ring). rewrite zsum_linear, zsum_const, (days_mean _ _ _ _ Hd). ring.
Qed.

Lemma deviation_counts u x n : counts n x -> counts u mu -> x ∈ xs -> counts (num_sub n u) (x - mu).
Proof. intros Hn Hu Hx. apply counts_sub; [done..|]. by apply deviation_small. Qed.

Lemma linear_trend : S <> 0 -> (1 < length xs)%nat ->
  counts (slopePerDay (calculateTrend (linear s r cap t0 a b xs))) b /\
  counts (t_confidence (calculateTrend (linear s r cap t0 a b xs))) 1.
Proof.
  intros HS Hl. assert (E : exists x1 l, xs = 0 :: x1 :: l).
  { pose proof (days_first _ _ _ _ Hd). destruct xs as [|x0 [|x1 l]]; cbn in *; [done|lia|]. exists x1, l. congruence. }
  assert (Ec : calculateTrend (linear s r cap t0 a b xs) =
    let days := dayOf <$> xs in
    let vals := (fun x => int (a + b * x)) <$> xs in
    let xMean := mean days in
    let yMean := mean vals in
    let variance := sumOf (fun x => square (num_sub x xMean)) (int 0) days in
    if num_eqb variance (int 0) then mkTrend (int 0) (int 0) else
    let covariance := sumOf (fun xy => num_mul (num_sub xy.1 xMean) (num_sub xy.2 yMean)) (int 0) (zip days vals) in
    let slope := num_div covariance variance in
    let total := sumOf (fun y => square (num_sub y yMean)) (int 0) vals in
    let residual := sumOf (residualAt xMean yMean slope) (int 0) (zip days vals) in
    mkTrend slope
      (if num_eqb total (int 0) then int 1
       else num_max (int 0) (num_min (int 1) (num_sub (int 1) (num_div residual total))))).
  { destruct E as (x1 & l & ->). unfold linear, calculateTrend. cbn [fmap list_fmap timestamp value].
    unfold dayOf. rewrite <- !list_fmap_compose. done. }
  rewrite Ec. cbn zeta. pose proof xMean_counts as Hx. pose proof yMean_counts as Hy.
  set (xMean := mean (dayOf <$> xs)) in *. set (yMean := mean ((fun x => int (a + b * x)) <$> xs)) in *. clearbody xMean yMean. clear Ec. rewrite zip_fmap_both, !sumOf_fmap. cbn [fst snd].
  assert (Hdev : forall x, x ∈ xs -> counts (num_sub (dayOf x) xMean) (x - mu) /\ counts (num_sub (int (a + b * x)) yMean) (b * (x - mu))).
  { intros x Hin. pose proof (deviation_small x Hin). split; [apply counts_sub; [by apply dayOf_counts|done|lia]|].
    replace (b * (x - mu)) with (a + b * x - (a + b * mu)) by ring. apply counts_sub; [apply counts_int|done|].
    replace (a + b * x - (a + b * mu)) with (b * (x - mu)) by ring. lia. }
  assert (Hin0 : 0 ∈ xs) by (destruct E as (x1 & l & E'); rewrite E'; left).
  assert (Hsum : forall (f : Z -> number) c, Z.abs c <= 1 + Z.abs b + b * b -> (forall x, x ∈ xs -> counts (f x) (c * ((x - mu) * (x - mu)))) ->
    counts (sumOf f (int 0) xs) (c * S)).
  { intros f c Hc Hf. replace (c * S) with (0 + zsum (fun x => c * ((x - mu) * (x - mu))) xs).
    - apply counts_sumOf; [done|apply counts_int|]. rewrite (zsum_ext _ (fun x => Z.abs c * ((x - mu) * (x - mu)) + 0 * 1)).
      + rewrite zsum_linear. fold S. destruct (deviation_small 0 Hin0) as (_ & _ & H0 & H1). nia.
      + intros x _. rewrite Z.abs_mul, (Z.abs_eq ((x - mu) * (x - mu))) by apply Z.square_nonneg. ring.
    - rewrite (zsum_ext _ (fun x => c * ((x - mu) * (x - mu)) + 0 * 1)) by (intros; ring). rewrite zsum_linear. fold S. ring. }
  assert (HS0 : 0 <= S /\ S * (1 + Z.abs b + b * b) < 2 ^ 53) by (by apply (deviation_small 0)).
  assert (Hv : counts (sumOf (fun x => square (num_sub (dayOf x) xMean)) (int 0) xs) S).
  { rewrite <- (Z.mul_1_l S). apply Hsum; [lia|]. intros x Hin. rewrite Z.mul_1_l. pose proof (square_le x Hin).
    destruct (Hdev x Hin) as [H1 _]. apply counts_mul; [done..|]. rewrite Z.abs_eq by apply Z.square_nonneg. nia. }
  rewrite (counts_eqb _ _ _ _ Hv (counts_int 0)), (proj2 (Z.eqb_neq _ _) HS).
  assert (Hc : counts (sumOf (fun x => num_mul (num_sub (dayOf x) xMean) (num_sub (int (a + b * x)) yMean)) (int 0) xs) (b * S)).
  { apply Hsum; [nia|]. intros x Hin. destruct (Hdev x Hin) as [H1 H2]. pose proof (square_le x Hin).
    replace (b * ((x - mu) * (x - mu))) with ((x - mu) * (b * (x - mu))) by ring. apply counts_mul; [done..|].
    replace ((x - mu) * (b * (x - mu))) with (b * ((x - mu) * (x - mu))) by ring.
    rewrite Z.abs_mul, (Z.abs_eq (_ * _)) by apply Z.square_nonneg. nia. }
  assert (Ht : counts (sumOf (fun x => square (num_sub (int (a + b * x)) yMean)) (int 0) xs) (b * b * S)).
  { apply Hsum; [nia|]. intros x Hin. destruct (Hdev x Hin) as [_ H2]. pose proof (square_le x Hin).
    replace (b * b * ((x - mu) * (x - mu))) with (b * (x - mu) * (b * (x - mu))) by ring. apply counts_mul; [done..|].
    rewrite Z.abs_eq by apply Z.square_nonneg. replace (b * (x - mu) * (b * (x - mu))) with (b * b * ((x - mu) * (x - mu))) by ring.
    pose proof (Z.square_nonneg b). nia. }
  assert (Hslope := counts_div _ _ _ _ Hc Hv HS ltac:(nia)). set (slope := num_div _ _) in *. cbn [slopePerDay t_confidence]. split; [done|].
  assert (Hr : counts (sumOf (fun x => residualAt xMean yMean slope (dayOf x, int (a + b * x))) (int 0) xs) 0).
  { change 0 with (0 * S). apply Hsum; [lia|]. intros x Hin. destruct (Hdev x Hin) as [H1 _]. pose proof (deviation_small x Hin) as (_ & H3 & _).
    pose proof (value_abs x Hin). unfold residualAt. cbn [fst snd]. rewrite Z.mul_0_l. change 0 with (0 * 0) at 1.
    assert (counts (num_sub (int (a + b * x)) (num_add yMean (num_mul slope (num_sub (dayOf x) xMean)))) 0) as H4; [|by apply counts_mul].
    replace 0 with (a + b * x - (a + b * mu + b * (x - mu))) by ring. apply counts_sub; [apply counts_int| |lia].
    apply counts_add; [done| |replace (a + b * mu + b * (x - mu)) with (a + b * x) by ring; lia]. by apply counts_mul. }
  rewrite (counts_eqb _ _ _ _ Ht (counts_int 0)). destruct (Z.eqb_spec (b * b * S) 0) as [|Hne]; [apply counts_int|].
  match goal with |- counts ?n 1 => change (counts n (Z.max 0 (Z.min 1 (1 - 0)))) end. apply counts_max; [apply counts_int|]. apply counts_min; [apply counts_int|].
  apply counts_sub; [apply counts_int| |done]. by apply (counts_div _ _ 0 (b * b * S)).
Qed.
End linear.

(** of a series whose use is [a] and grows by [b] a day, sampled on at least two
    days, the forecast finds exactly [b], with confidence 1, and projects the use of
    that many days later, but not below none; it predicts an exhaustion exactly if the
    use grows. *)
Theorem linear_growth_forecast options p s r cap t0 a b mu xs y d :
  historyOf p s (resourceName r) = linear s r cap t0 a b (xs ++ [y]) ->
  small_days a b mu (xs ++ [y]) -> xs <> [] -> y <> 0 ->
  enoughSamples options (linear s r cap t0 a b (xs ++ [y])) = true ->
  Z.abs (b * d) < 2 ^ 53 -> Z.abs (a + b * (y + d)) < 2 ^ 53 ->
  exists f, forecast options p s (resourceName r) (int d) = Some f /\
    counts (growthPerDay f) b /\ counts (confidence f) 1 /\
    counts (projectedValue f) (Z.max 0 (a + b * (y + d))) /\
    (is_Some (daysToExhaustion f) <-> 0 < b).
Proof.
  intros Hh Hd Hx Hy He Hbd Hp. unfold forecast. rewrite Hh.
  replace (last _) with (Some (mkSample s r (int (a + b * y)) cap (int (t0 + DAY_MS * y)))) by
    (unfold linear; rewrite fmap_app; symmetry; apply last_snoc).
  cbn [mbind option_bind]. eexists. split; [reflexivity|].
  assert (HS : zsum (fun x => (x - mu) * (x - mu)) (xs ++ [y]) <> 0).
  { intros E. assert (H0 : 0 ∈ xs ++ [y]) by (pose proof (days_first _ _ _ _ Hd); destruct xs; [done|]; cbn in *; simplify_eq; left).
    assert (Hz : forall x, x ∈ xs ++ [y] -> x = mu).
    { intros x Hin. pose proof (zsum_ge (fun x => (x - mu) * (x - mu)) _ x ltac:(intros; apply Z.square_nonneg) Hin) as H1. cbn in H1. nia. }
    pose proof (Hz 0 H0). pose proof (Hz y ltac:(apply elem_of_app; right; by left)). congruence. }
  destruct (linear_trend s r cap t0 a b mu (xs ++ [y]) Hd HS) as [Hs Hc]; [rewrite length_app; cbn; destruct xs; cbn; [done|lia]|].
  unfold forecastOf. cbn [growthPerDay confidence projectedValue daysToExhaustion]. unfold growthOf. rewrite He.
  split; [done|]. split; [done|]. split.
  - unfold projected. apply counts_max; [apply counts_int|]. cbn [value].
    replace (a + b * (y + d)) with (a + b * y + b * d) by ring. apply counts_add; [apply counts_int| |lia].
    apply counts_mul; [done|apply counts_int|done].
  - unfold exhaustion. rewrite (counts_lt _ _ _ _ (counts_int 0) Hs). destruct (Z.ltb_spec 0 b); split; try done; lia.
Qed.

(** ** All forecasts *)

(** No service has a bar in its name. *)
Definition plain_services (p : CapacityPlanner) : Prop :=
  forall s r, is_Some (p !! key s (resourceName r)) -> lacks BAR s = true.

Lemma split_key s r : lacks BAR s = true -> split BAR (key s (resourceName r)) = [s; resourceName r].
Proof.
  intros H. unfold key. rewrite split_app by done. f_equal. apply split_lacks, resource_lacks.
Qed.

Lemma forecast_Some options p s r days f : forecast options p s r days = Some f ->
  f_service f = s /\ f_resource f = r /\ exists latest, latest ∈ historyOf p s r /\ f = forecastOf options s r (historyOf p s r) latest days.
Proof.
  unfold forecast. destruct (last (historyOf p s r)) as [x|] eqn:E; [|done]. cbn. intros [= <-]. split_and!; [done..|].
  exists x. split; [|done]. by apply last_Some_elem_of.
Qed.

Lemma forecast_is_Some options p s r days : is_Some (forecast options p s r days) <-> historyOf p s r <> [].
Proof.
  unfold forecast. destruct (last (historyOf p s r)) as [x|] eqn:E; cbn.
  - split; [|by eexists]. intros _ H. by rewrite H in E.
  - split; [by intros []|]. intros H. by apply last_None in E.
Qed.

Section ranked.
Context (options : CapacityPlannerOptions) (p : CapacityPlanner) (days : number).
Hypothesis Hp : Inv p.
Hypothesis Hplain : plain_services p.

Lemma key_of_map k : k ∈ map_keys p -> exists s r, k = key s (resourceName r) /\ lacks BAR s = true /\ historyOf p s (resourceName r) <> [] /\
  Forall accepted (historyOf p s (resourceName r)).
Proof.
  intros Hk. destruct (p !! k) as [h|] eqn:E; [|by apply jsmap_lookup_None in E]. pose proof E as E'.
  apply (inv_series _ Hp) in E as (s & r & -> & Hh & Hf & _). exists s, r. split; [done|]. split; [by eapply Hplain|].
  unfold historyOf. rewrite E'. cbn. split; [done|]. eapply Forall_impl; [exact Hf|]. by intros x [].
Qed.

Lemma forecastAll_elem f : f ∈ forecastAll options p days <->
  exists s r, forecast options p s (resourceName r) days = Some f.
Proof.
  unfold forecastAll. rewrite elem_of_sort_by, list_elem_of_omap. split.
  - intros (k & Hk & E). destruct (key_of_map k Hk) as (s & r & -> & Hl & _). unfold forecastKey in E. rewrite split_key in E by done. by exists s, r.
  - intros (s & r & E). exists (key s (resourceName r)).
    assert (Hs : is_Some (p !! key s (resourceName r))).
    { pose proof (forecast_is_Some options p s (resourceName r) days) as [H _]. specialize (H ltac:(by eexists)). unfold historyOf in H. by destruct (p !! _). }
    split.
    + destruct (decide (key s (resourceName r) ∈ map_keys p)) as [|Hn]; [done|]. apply jsmap_lookup_None in Hn. rewrite Hn in Hs. by destruct Hs.
    + unfold forecastKey. by rewrite split_key by (by eapply Hplain).
Qed.

Lemma forecastAll_distinct : NoDup ((fun f => (f_service f, f_resource f)) <$> forecastAll options p days).
Proof.
  unfold forecastAll. rewrite sort_by_Permutation. pose proof (inv_keys _ Hp) as Hn. unfold map_wf in Hn.
  assert (H := key_of_map). induction (map_keys p) as [|k ks IH]; cbn; [constructor|]. apply NoDup_cons in Hn as [Hk Hn].
  assert (IH' := IH Hn ltac:(intros k' Hk'; apply H; by right)). destruct (forecastKey options p days k) as [f|] eqn:E; [|done]. cbn. constructor; [|done].
  intros (g & Eg & Hg)%list_elem_of_fmap. apply list_elem_of_omap in Hg as (k' & Hk' & E').
  destruct (H k ltac:(by left)) as (s & r & -> & Hl & _), (H k' ltac:(by right)) as (s' & r' & -> & Hl' & _).
  unfold forecastKey in E, E'. rewrite split_key in E, E' by done. apply forecast_Some in E as (F1 & F2 & _), E' as (F3 & F4 & _).
  injection Eg as E1 E2. rewrite F1, F3 in E1. rewrite F2, F4 in E2. apply Hk. by rewrite E1, E2.
Qed.
End ranked.

Lemma to_double_ge0 q : (0 <= q)%Q -> num_ge (to_double q) (int 0) = true.
Proof. intros H. apply (to_double_mono 0 q) in H. exact H. Qed.

(** What is projected is not negative, if it is a number. *)
Lemma utilization_nonneg v c : num_ge v (int 0) = true -> (0 < c)%Q ->
  num_ge (utilization v (Finite c)) (int 0) = true.
Proof.
  intros Hv Hc. unfold utilization. assert (Hz : is_zero c = false /\ is_negative c = false).
  { unfold Qlt in Hc. cbn in Hc. unfold is_zero, is_negative. split; [apply Z.eqb_neq|apply Z.ltb_ge]; lia. }
  assert (H : num_ge (num_div v (Finite c)) (int 0) = true).
  { destruct v as [x|[]|]; try done; cbn [num_div]; rewrite (proj1 Hz) || rewrite (proj2 Hz); [|done]. cbn in Hv. rewrite Qle_bool_iff in Hv.
    apply to_double_ge0. apply Qle_shift_div_l; [done|]. rewrite Qmult_0_l. exact Hv. }
  destruct (num_div v (Finite c)) as [y|[]|]; try done. cbn [num_mul int]. apply to_double_ge0. cbn in H. rewrite Qle_bool_iff in H.
  apply Qmult_le_0_compat; [exact H|]. done.
Qed.

Lemma projected_nonneg latest growth d : num_ge (projected latest growth d) (int 0) = true \/ projected latest growth d = NaN.
Proof.
  unfold projected. destruct (num_add _ _) as [x|[]|]; cbn; try (by left); [|by right].
  destruct (Qle_bool x (inject_Z 0)) eqn:E; [by left|]. left. apply num_ge_Finite. apply not_true_iff_false in E. rewrite Qle_bool_iff in E.
  apply Qnot_le_lt in E. by apply Qlt_le_weak.
Qed.

Section levels.
Context (options : CapacityPlannerOptions) (c : Q).
Hypothesis Hcrit : criticalUtilizationPercent options = Finite c.
Hypothesis Hc : (c <= 999)%Q.

(** The rank of a level that is not critical ends before that of the next one. *)
Lemma rank_of_level s r h x days : accepted x ->
  let f := forecastOf options s r h x days in
  isFinite (currentUtilizationPercent f) = true -> isFinite (rank f) = true ->
  num_ge (rank f) (int (1000 * levelRank (level f))) = true /\
  (level f <> Critical -> num_ge (int (1000 * levelRank (level f) + 999)) (rank f) = true).
Proof.
  intros [Hx _] f Fc Fr. assert (Hcap : exists k, capacity x = Finite k /\ (0 < k)%Q).
  { unfold validateSample in Hx. destruct (capacity x) as [k| |]; repeat (case_match; try done). exists k. split; [done|].
    apply Qnot_le_lt. rewrite <- Qle_bool_iff. apply not_true_iff_false. bool_props. done. }
  destruct Hcap as (k & Ek & Hk). unfold rank in *. assert (Hl : counts (num_mul (int (levelRank (level f))) (int 1000)) (1000 * levelRank (level f))).
  { rewrite Z.mul_comm. apply counts_mul; [apply counts_int..|]. destruct (level f); done. }
  destruct Hl as (q & Eq & Hq). rewrite Eq in *. destruct (projectedUtilizationPercent f) as [u| |] eqn:Eu; [|done..].
  assert (Hu : (0 <= u)%Q).
  { assert (H : num_ge (projectedUtilizationPercent f) (int 0) = true \/ projectedUtilizationPercent f = NaN).
    { unfold f, forecastOf. cbn [projectedUtilizationPercent]. rewrite Ek.
      destruct (projected_nonneg x (growthOf options h) days) as [H| ->]; [left; by apply utilization_nonneg|by right]. }
    rewrite Eu in H. destruct H as [H|]; [|done]. cbn in H. by rewrite Qle_bool_iff in H. }
  cbn [num_add]. destruct (to_double_exact (inject_Z (1000 * levelRank (level f)))) as (lo & El & Ql); [apply is_double_Z; destruct (level f); done|].
  split.
  - apply num_ge_trans with (to_double (inject_Z (1000 * levelRank (level f)))); [apply to_double_mono; rewrite Hq; lra|].
    rewrite El. apply num_ge_Finite. rewrite Ql. apply Qle_refl.
  - intros Hn. assert (Hu9 : (u <= 999)%Q).
    { unfold f, forecastOf in Hn, Fc, Eu. cbn [level currentUtilizationPercent projectedUtilizationPercent] in Hn, Fc, Eu. rewrite Eu in Hn.
      destruct (utilization (value x) (capacity x)) as [v| |]; [|done..]. unfold levelFor in Hn. rewrite Hcrit in Hn.
      destruct (num_ge (num_max (Finite v) (Finite u)) (Finite c)) eqn:Ege; [done|]. cbn in Ege. apply Qlt_le_weak, Qlt_le_trans with c; [|done].
      destruct (Qle_bool u v) eqn:Euv; cbn in Ege; apply not_true_iff_false in Ege; rewrite Qle_bool_iff in Ege; apply Qnot_le_lt in Ege; [|done].
      rewrite Qle_bool_iff in Euv. by apply Qle_lt_trans with v. }
    destruct (to_double_exact (inject_Z (1000 * levelRank (level f) + 999))) as (hi & Eh & Qh); [apply is_double_Z; destruct (level f); done|].
    apply num_ge_trans with (to_double (inject_Z (1000 * levelRank (level f) + 999))); [rewrite Eh; apply num_ge_Finite; rewrite Qh; apply Qle_refl|].
    apply to_double_mono. rewrite Hq, inject_Z_plus. unfold inject_Z in *. lra.
Qed.

Lemma level_of_rank s r h x days s' r' h' x' : accepted x -> accepted x' ->
  let f := forecastOf options s r h x days in
  let g := forecastOf options s' r' h' x' days in
  isFinite (currentUtilizationPercent f) = true -> isFinite (rank f) = true ->
  isFinite (currentUtilizationPercent g) = true -> isFinite (rank g) = true ->
  num_ge (rank f) (rank g) = true -> levelRank (level g) <= levelRank (level f).
Proof.
  intros Hx Hx' f g Ff Rf Fg Rg Hfg. apply Z.nlt_ge. intros Hlt.
  destruct (rank_of_level s r h x days Hx Ff Rf) as [_ Hhi]. destruct (rank_of_level s' r' h' x' days Hx' Fg Rg) as [Hlo _]. fold f in Hhi. fold g in Hlo.
  assert (Hne : level f <> Critical) by (intros E; rewrite E in Hlt; destruct (level g); cbn in Hlt; lia).
  pose proof (num_ge_trans _ _ _ (Hhi Hne) (num_ge_trans _ _ _ Hfg Hlo)) as H. rewrite (counts_ge _ _ _ _ (counts_int _) (counts_int _)) in H. bool_props. lia.
Qed.
End levels.

Lemma historyOf_accepted p s r x : Inv p -> x ∈ historyOf p s r -> accepted x.
Proof.
  intros Hp. unfold historyOf. destruct (p !! _) as [h|] eqn:E; cbn; [|by intros ?%elem_of_nil].
  apply (inv_series _ Hp) in E as (? & ? & _ & _ & Hf & _). rewrite Forall_forall in Hf. intros Hx. by apply Hf.
Qed.

(** when no service has a bar in its name, [forecastAll] has exactly the forecasts of
    the recorded series, one of each, and, while the numbers are finite and the critical
    level is at most 999 percent, none before one of a graver level. *)
Theorem forecasts_ranked options calls days c :
  genuineCalls calls -> let p := recordCalls options calls ∅ in let fs := forecastAll options p days in
  plain_services p -> criticalUtilizationPercent options = Finite c -> (c <= 999)%Q ->
  (forall f, f ∈ fs -> isFinite (currentUtilizationPercent f) = true /\ isFinite (rank f) = true) ->
  NoDup ((fun f => (f_service f, f_resource f)) <$> fs) /\
  (forall f, f ∈ fs <-> exists s r, forecast options p s (resourceName r) days = Some f) /\
  (forall s r, (exists f, f ∈ fs /\ f_service f = s /\ f_resource f = resourceName r) <-> historyOf p s (resourceName r) <> []) /\
  StronglySorted (fun f g => levelRank (level g) <= levelRank (level f)) fs.
Proof.
  intros Hg p fs Hplain Hcrit Hc Hfin. assert (Hp : Inv p) by (apply recordCalls_inv; [done|apply new_planner_inv]).
  assert (Hin : forall f, f ∈ fs <-> exists s r, forecast options p s (resourceName r) days = Some f) by (intros; by apply forecastAll_elem).
  split; [by apply forecastAll_distinct|]. split; [done|]. split.
  - intros s r. rewrite <- (forecast_is_Some options p s (resourceName r) days). split.
    + intros (f & (s' & r' & E)%Hin & Es & Er). apply forecast_Some in E as E'. destruct E' as (Es' & Er' & _). exists f. congruence.
    + intros [f E]. exists f. split; [apply Hin; by exists s, r|]. by apply forecast_Some in E as (? & ? & _).
  - apply (StronglySorted_impl_in (fun a b => num_ge (rank a) (rank b) = true)).
    + intros f g Hf Hf' Hfg. destruct (Hfin f Hf) as [Ff Rf], (Hfin g Hf') as [Fg Rg].
      apply Hin in Hf as (s & r & E), Hf' as (s' & r' & E'). apply forecast_Some in E as (_ & _ & x & Hx & ->), E' as (_ & _ & x' & Hx' & ->).
      apply (level_of_rank options c Hcrit Hc); try done; by eapply historyOf_accepted.
    + apply (sort_by_diff rank). intros f Hf. split; [apply Hfin; unfold fs, forecastAll; by rewrite elem_of_sort_by|apply genuine_add].
Qed.

Module Examples.

Definition at_day (s : string) (r : CapacityResource) (v day : Z) : number * UsageSample :=
  (int (DAY_MS * day), mkSample s r (int v) (int 100) (int (DAY_MS * day))).

(** Memory grows by five a day, the processor is nearly exhausted. *)
Definition calls : list (number * UsageSample) :=
  [at_day "api" Memory 10 0; at_day "api" Cpu 96 0; at_day "api" Memory 15 1; at_day "api" Memory 20 2].

Lemma calls_genuine l : Forall (fun c => exists s r v d, c = at_day s r v d /\ 0 <= d <= 1000) l -> genuineCalls l.
Proof.
  intros H. eapply Forall_impl; [exact H|]. intros [now x] (s & r & v & d & [= -> ->] & Hd). cbn.
  apply is_double_Z. rewrite Z.abs_eq; change DAY_MS with 86400000; lia.
Qed.

Ltac at_days := apply calls_genuine; repeat (constructor; [do 4 eexists; split; [reflexivity|lia]|]); constructor.

Lemma history_recorded_witness :
  length (historyOf (record DEFAULTS (int (DAY_MS * 91)) (at_day "api" Memory 30 91).2 (recordCalls DEFAULTS calls ∅)).1 "api" "memory") = 3%nat.
Proof.
  pose proof (history_recorded DEFAULTS calls (int (DAY_MS * 91)) (at_day "api" Memory 30 91).2) as H. cbv zeta in H.
  destruct (record DEFAULTS _ _ _) as [p' error]. destruct H as [_ H]; [at_days|].
  change (validateSample _) with (@None PlannerError) in H. destruct H as (_ & H & _). cbn [fst].
  apply Permutation_length in H. transitivity (length (historyOf p' "api" "memory")); [reflexivity|].
  etransitivity; [exact H|]. vm_compute. reflexivity.
Defined.

Lemma linear_growth_forecast_witness :
  exists f, forecast DEFAULTS (recordCalls DEFAULTS calls ∅) "api" "memory" (int 30) = Some f /\ counts (projectedValue f) 170.
Proof.
  destruct (linear_growth_forecast DEFAULTS (recordCalls DEFAULTS calls ∅) "api" Memory (int 100) 0 10 5 1 [0; 1] 2 30) as (f & E & _ & _ & H & _);
    [vm_compute; reflexivity|split; reflexivity|done|done|reflexivity|reflexivity|reflexivity|].
  exists f. split; [exact E|exact H].
Defined.

Lemma forecasts_ranked_witness :
  (fun f => (f_resource f, level f)) <$> forecastAll DEFAULTS (recordCalls DEFAULTS calls ∅) (int 0) = [("cpu", Critical); ("memory", Scale)].
Proof.
  destruct (forecasts_ranked DEFAULTS calls (int 0) (inject_Z 95)) as (_ & _ & _ & H); [at_days| |reflexivity| | |].
  - intros s r [h H]. apply jsmap_lookup_elem_of in H. vm_compute in H.
    repeat (apply elem_of_cons in H as [H|H]; [injection H as H _; by apply (series_key_inj s r "api" Memory) in H as [-> _] || by apply (series_key_inj s r "api" Cpu) in H as [-> _]|]).
    by apply elem_of_nil in H.
  - apply Qle_bool_iff; reflexivity.
  - intros f Hf. apply list_elem_of_In in Hf. vm_compute in Hf. destruct Hf as [<-|[<-|[]]]; done.
  - vm_compute. reflexivity.
Defined.

Definition names (p : CapacityPlanner) : list (string * string) :=
  (fun f => (f_service f, f_resource f)) <$> forecastAll DEFAULTS p (int 30).

(** The forecast of a service with a bar in its name is lost. *)
Example barred_service_lost : names (recordCalls DEFAULTS [at_day "eu|api" Memory 10 0] ∅) = [].
Proof. vm_compute. reflexivity. Qed.

(** Or that of another service is repeated in its place. *)
Example other_forecast_repeated :
  names (recordCalls DEFAULTS [at_day "api" Cpu 10 0; at_day "api|cpu" Memory 95 0] ∅) = [("api", "cpu"); ("api", "cpu")].
Proof. vm_compute. reflexivity. Qed.

(** A sample that is older than the retention period when it comes is kept, and those of a
    series that gets no more samples stay. *)
Example outdated_sample_kept :
  length (historyOf (recordCalls DEFAULTS [(int (DAY_MS * 500), (at_day "api" Cpu 10 0).2); at_day "db" Cpu 10 900] ∅) "api" "cpu") = 1%nat.
Proof. vm_compute. reflexivity. Qed.

(** A use that is nearly full and shrinks is critical all the same. *)
Example shrinking_use_critical :
  level <$> forecast DEFAULTS (recordCalls DEFAULTS [at_day "api" Cpu 99 0; at_day "api" Cpu 98 1; at_day "api" Cpu 97 2] ∅) "api" "cpu" (int 30) = Some Critical.
Proof. vm_compute. reflexivity. Qed.
End Examples.
