(* ===== verification/ChangePoints.v ===== *)
(** * Change points of a series ([src/src/performance/edm.ts])

    The bisection of a series at the splits of greatest energy, in JavaScript numbers.
    Positions and the minimum size of a segment are natural numbers.  The recursion has a
    fuel, the depth of the call stack; without it the call throws.

    [change_points_bisect]: with a positive minimum size as much depth as the series is
    long suffices, and the result is the bisection of the series, in order.
    [unit_series_unchanged]: a series of numbers from 0 to 1, such as error rates, has no
    change point, whatever happens in it. *)

From Stdlib Require Import ZArith Lia Lqa QArith Sorted.
From stdpp Require Import base numbers list sorting.
From S2P Require Import Prelude Js Number Doubles.
#[local] Open Scope Z_scope.

(** [None] is the error for an empty array. *)
Definition median (arr : list number) : option number :=
  match arr with
  | [] => None
  | _ =>
      let sorted := sort_by diff_le arr in
      let mid := (length sorted / 2)%nat in
      if bool_decide (length sorted mod 2 = 0)%nat
      then Some (num_div (num_add (nth (mid - 1) sorted NaN) (nth mid sorted NaN)) (int 2))
      else Some (nth mid sorted NaN)
  end.

Definition count {A} (l : list A) : Z := Z.of_nat (length l).

(** [|x - y|] *)
Definition distance (xy : number * number) : number := num_abs (num_sub xy.1 xy.2).

(** The pairs of the loops, in their order *)
Definition cross (x y : list number) : list (number * number) := x ≫= (fun a => pair a <$> y).
Fixpoint inner (l : list number) : list (number * number) :=
  match l with [] => [] | a :: l' => (pair a <$> l') ++ inner l' end.

(** The arrays of the following functions are not empty where [median] is called. *)
Definition medianOf (arr : list number) : number := default NaN (median arr).

Definition withinDispersion (arr : list number) : number :=
  if (count arr <=? 1) then int 0
  else if (count arr <=? 200) then
    num_div (num_mul (int 2) (sumOf distance (int 0) (inner arr))) (int (count arr * count arr))
  else medianOf ((fun v => num_abs (num_sub v (medianOf arr))) <$> arr).

Definition crossDist (x y : list number) : number :=
  if (count x * count y <=? 10000) then num_div (sumOf distance (int 0) (cross x y)) (int (count x * count y))
  else num_abs (num_sub (medianOf x) (medianOf y)).

Definition energyStatistic (x y : list number) : number :=
  if (count x =? 0) || (count y =? 0) then int 0
  else num_sub (num_sub (num_mul (int 2) (crossDist x y)) (withinDispersion x)) (withinDispersion y).

(** ** The search *)

Section search.
Context (series : list number) (minSize : nat) (alpha : number).

(** [series.slice(a, b)] *)
Definition slice (a b : nat) : list number := take (b - a) (drop a series).
Definition energyAt (a b split : nat) : number := energyStatistic (slice a split) (slice split b).

(** The splits that leave segments of the minimum size *)
Definition splits (a b : nat) : list nat := seq (a + minSize) (S (b - a) - 2 * minSize).

Definition better (e : nat -> number) (best : option nat * number) (split : nat) : option nat * number :=
  if num_lt best.2 (e split) then (Some split, e split) else best.
Definition bestOf (a b : nat) : option nat * number := foldl (better (energyAt a b)) (None, Infinite true) (splits a b).

Definition threshold (a b : nat) : number := num_mul alpha (num_sqrt (Z.of_nat (b - a))).

(** The positions that are pushed; [None] is a call stack that overflows. *)
Fixpoint searchSegment (fuel : nat) (a b : nat) : option (list nat) :=
  match fuel with
  | O => None
  | S fuel' =>
      if bool_decide (b - a < 2 * minSize)%nat then Some []
      else
        match bestOf a b with
        | (None, _) => Some []
        | (Some split, e) =>
            if num_lt e (threshold a b) then Some []
            else
              l ← searchSegment fuel' a split;
              r ← searchSegment fuel' split b;
              Some (split :: l ++ r)
        end
  end.

Definition findChangePoints (fuel : nat) : option (list nat) :=
  sort_by (fun a b => bool_decide (a <= b)%nat) <$> searchSegment fuel 0 (length series).
End search.

Definition DEFAULT_MIN_SIZE : nat := 5.
Definition DEFAULT_ALPHA : number := int 1.

(** ** Bisections *)

Section bisection.
Context (series : list number) (minSize : nat) (alpha : number).
Notation energyAt := (energyAt series).
Notation splits := (splits minSize).

(** A first split of greatest energy; energies that are NaN or -Infinity do not count. *)
Definition best_split (a b k : nat) : Prop :=
  k ∈ splits a b /\ num_lt (Infinite true) (energyAt a b k) = true /\
  (forall j, j ∈ splits a b -> num_lt (energyAt a b k) (energyAt a b j) = false) /\
  (forall j, j ∈ splits a b -> (j < k)%nat -> num_lt (energyAt a b j) (energyAt a b k) = true \/ energyAt a b j = NaN).

(** The change points between [a] and [b], in order *)
Inductive bisection : nat -> nat -> list nat -> Prop :=
| Whole a b : (forall k, best_split a b k -> num_lt (energyAt a b k) (threshold alpha a b) = true) -> bisection a b []
| Split a b k l r : best_split a b k -> num_lt (energyAt a b k) (threshold alpha a b) = false ->
    bisection a k l -> bisection k b r -> bisection a b (l ++ k :: r).
End bisection.

(** ** The best split *)

Lemma num_lt_between v x y : num_lt v x = false -> num_lt v y = true -> num_lt x y = true \/ x = NaN.
Proof.
  intros H1 H2. destruct x as [p|[]|]; [..|by right]; left; destruct v as [q|[]|], y as [r|[]|]; try done.
  cbn in *. apply negb_false_iff in H1. apply negb_true_iff, not_true_iff_false. apply negb_true_iff, not_true_iff_false in H2.
  rewrite !Qle_bool_iff in *. intros H. apply H2. by eapply Qle_trans.
Qed.

Lemma num_lt_trans x y z : num_lt x y = true -> num_lt y z = true -> num_lt x z = true.
Proof.
  destruct x as [p|[]|], y as [q|[]|], z as [r|[]|]; try done. cbn. rewrite !negb_true_iff, <- !not_true_iff_false, !Qle_bool_iff.
  intros H1 H2 H. apply H1. apply Qnot_le_lt, Qlt_le_weak in H2. by eapply Qle_trans.
Qed.

Lemma num_lt_asym x y : num_lt x y = true -> num_lt y x = false.
Proof.
  destruct x as [p|[]|], y as [q|[]|]; try done. cbn. rewrite negb_true_iff, negb_false_iff, <- not_true_iff_false, !Qle_bool_iff.
  intros H. by apply Qlt_le_weak, Qnot_le_lt.
Qed.

(** What the loop over some splits has found *)
Definition found (e : nat -> number) (l : list nat) (best : option nat * number) : Prop :=
  match best with
  | (None, v) => v = Infinite true /\ forall j, j ∈ l -> num_lt (Infinite true) (e j) = false
  | (Some k, v) => v = e k /\ k ∈ l /\ num_lt (Infinite true) v = true /\ (forall j, j ∈ l -> num_lt v (e j) = false) /\
      forall j, j ∈ l -> (j < k)%nat -> num_lt (e j) v = true \/ e j = NaN
  end.

Lemma num_lt_irrefl x : num_lt x x = false.
Proof. destruct (num_lt x x) eqn:E; [|done]. by rewrite <- E, (num_lt_asym x x E). Qed.

#[local] Arguments num_lt : simpl never.

Lemma elem_of_snoc {A} (j x : A) l : j ∈ l ++ [x] <-> j ∈ l \/ j = x.
Proof. by rewrite elem_of_app, list_elem_of_singleton. Qed.

Lemma better_found e l best x : (forall j, j ∈ l -> (j < x)%nat) -> found e l best -> found e (l ++ [x]) (better e best x).
Proof.
  intros Hx Hb. unfold better. destruct (num_lt best.2 (e x)) eqn:E.
  - assert (Hl : forall j, j ∈ l -> num_lt best.2 (e j) = false) by (destruct best as [[k|] v]; destruct Hb as [? Hb]; subst; cbn; [apply Hb|apply Hb]).
    assert (Hbefore : forall j, j ∈ l -> num_lt (e j) (e x) = true \/ e j = NaN) by (intros j Hj; by apply (num_lt_between best.2), E; apply Hl).
    cbn. split; [done|]. split; [apply elem_of_app; right; by left|]. split; [|split].
    + destruct best as [[k|] v]; cbn in *; [by eapply num_lt_trans; [apply Hb|]|by destruct Hb as [-> _]].
    + intros j [Hj| ->]%elem_of_snoc; [|apply num_lt_irrefl].
      destruct (Hbefore j Hj) as [H| ->]; [by apply num_lt_asym|by destruct (e x) as [|[]|]].
    + intros j [Hj| ->]%elem_of_snoc Hlt; [by apply Hbefore|lia].
  - destruct best as [[k|] v]; cbn in *.
    + destruct Hb as (-> & Hk & Hv & Hl & Hbefore). split; [done|]. split; [apply elem_of_app; by left|]. split; [done|]. split.
      * intros j [Hj| ->]%elem_of_snoc; [by apply Hl|done].
      * intros j [Hj| ->]%elem_of_snoc Hlt; [by apply Hbefore|]. specialize (Hx k Hk). lia.
    + destruct Hb as [-> Hl]. split; [done|]. intros j [Hj| ->]%elem_of_snoc; [by apply Hl|done].
Qed.

Lemma bestOf_found e a n : found e (seq a n) (foldl (better e) (None, Infinite true) (seq a n)).
Proof.
  induction n as [|n IH]; [split; [done|]; by intros j ?%elem_of_nil|]. rewrite seq_S, foldl_app. cbn [foldl].
  apply better_found; [|done]. intros j Hj%elem_of_seq. lia.
Qed.

(** ** The search bisects *)

Section bisects.
Context (series : list number) (minSize : nat) (alpha : number).
Hypothesis Hmin : (0 < minSize)%nat.

Lemma best_split_range a b k : best_split series minSize a b k -> (a + minSize <= k /\ k + minSize <= b)%nat.
Proof. intros [Hk _]. apply elem_of_seq in Hk. lia. Qed.

Lemma bestOf_spec a b :
  match bestOf series minSize a b with
  | (Some k, v) => v = energyAt series a b k /\ best_split series minSize a b k /\ forall j, best_split series minSize a b j -> j = k
  | (None, _) => forall j, ~ best_split series minSize a b j
  end.
Proof.
  unfold bestOf. pose proof (bestOf_found (energyAt series a b) (a + minSize) (S (b - a) - 2 * minSize)) as H.
  change (seq _ _) with (splits minSize a b) in H. destruct (foldl _ _ _) as [[k|] v]; cbn in H.
  - destruct H as (-> & Hk & Hv & Hl & Hb). split; [done|]. split; [done|]. intros j (Hj & Hvj & Hlj & Hbj).
    destruct (lt_eq_lt_dec j k) as [[Hlt|?]|Hlt]; [|done|].
    + destruct (Hb j Hj Hlt) as [H|H]; [by rewrite Hlj in H|by rewrite H in Hvj].
    + destruct (Hbj k Hk Hlt) as [H|H]; [by rewrite Hl in H|by rewrite H in Hv].
  - destruct H as [_ H]. intros j (Hj & Hv & _). by rewrite H in Hv.
Qed.

Definition apart (i j : nat) : Prop := (i + minSize <= j)%nat.

Lemma search_bisects fuel a b : (b - a < fuel)%nat -> exists l l',
  searchSegment series minSize alpha fuel a b = Some l' /\ l' ≡ₚ l /\ bisection series minSize alpha a b l /\
  StronglySorted apart l /\ Forall (fun k => a + minSize <= k /\ k + minSize <= b)%nat l.
Proof.
  revert a b. induction fuel as [|fuel IH]; intros a b Hf; [lia|]. cbn [searchSegment].
  assert (Hstop : bisection series minSize alpha a b [] -> exists l l', Some [] = Some l' /\ l' ≡ₚ l /\ bisection series minSize alpha a b l /\
    StronglySorted apart l /\ Forall (fun k => a + minSize <= k /\ k + minSize <= b)%nat l).
  { intros H. exists [], []. split_and!; [done|done|done|constructor|constructor]. }
  case_bool_decide as Hs; [apply Hstop; constructor; intros k Hk%best_split_range; lia|].
  pose proof (bestOf_spec a b) as Hb. destruct (bestOf series minSize a b) as [[k|] v].
  - destruct Hb as (-> & Hk & Hu). destruct (num_lt _ (threshold _ _ _)) eqn:Et; [apply Hstop; constructor; by intros j ->%Hu|].
    destruct (best_split_range a b k Hk) as [H1 H2].
    destruct (IH a k ltac:(lia)) as (l & l' & -> & Pl & Bl & Sl & Fl), (IH k b ltac:(lia)) as (r & r' & -> & Pr & Br & Sr & Fr).
    cbn [mbind option_bind]. exists (l ++ k :: r), (k :: l' ++ r'). split; [done|]. split; [rewrite Pl, Pr; apply Permutation_middle|].
    split; [by apply Split|]. rewrite Forall_forall in Fl, Fr. split.
    + apply StronglySorted_app. split; [|split; [done|constructor; [done|]]].
      * intros i j Hi [->|Hj]%elem_of_cons; unfold apart; [by apply Fl|]. specialize (Fl i Hi). specialize (Fr j Hj). lia.
      * apply Forall_forall. intros j Hj. apply Fr, Hj.
    + apply Forall_app. split; [|constructor; [lia|]]; apply Forall_forall; intros j Hj; [specialize (Fl j Hj)|specialize (Fr j Hj)]; lia.
  - apply Hstop. constructor. intros k Hk. by apply Hb in Hk.
Qed.
End bisects.


(** ** Series of numbers from 0 to 1 *)

Definition unit_series (l : list number) : Prop := Forall (in_range 0 1) l.

Lemma median_unit l : unit_series l -> l <> [] -> in_range 0 1 (medianOf l).
Proof.
  intros Hl Hne. unfold medianOf, median. destruct l as [|x l]; [done|]. set (s := sort_by diff_le (x :: l)).
  assert (Hs : forall i, (i < length s)%nat -> in_range 0 1 (nth i s NaN)).
  { intros i Hi. assert (Hin : nth i s NaN ∈ s) by (apply list_elem_of_In, nth_In; done).
    unfold s in Hin. rewrite elem_of_sort_by in Hin. unfold unit_series in Hl. rewrite Forall_forall in Hl. by apply Hl. }
  assert (Hlen : (0 < length s)%nat) by (unfold s; rewrite length_sort_by; cbn; lia).
  pose proof (Nat.div_mod_eq (length s) 2) as Hd. pose proof (Nat.mod_upper_bound (length s) 2).
  case_bool_decide as Hm; cbn [default from_option id]; [|apply Hs; apply Nat.div_lt; lia].
  apply in_range_div with 2; [|apply counts_int|lia|lia]. change (1 * 2) with (1 + 1). change 0 with (0 + 0) at 1.
  apply in_range_add; [apply Hs; lia|apply Hs; lia|lia|lia].
Qed.

Lemma distance_unit a b : in_range 0 1 a -> in_range 0 1 b -> in_range 0 1 (distance (a, b)).
Proof. intros Ha Hb. apply in_range_abs. exact (in_range_sub 0 1 0 1 a b Ha Hb eq_refl eq_refl). Qed.

Lemma cross_elem x y p : p ∈ cross x y -> p.1 ∈ x /\ p.2 ∈ y.
Proof. unfold cross. intros (a & (b & -> & Hb)%list_elem_of_fmap & Ha)%list_elem_of_bind. done. Qed.

Lemma length_cross x y : count (cross x y) = count x * count y.
Proof.
  unfold count, cross. induction x as [|a x IH]; [done|]. rewrite bind_cons, length_app, length_fmap. cbn [length]. lia.
Qed.

Lemma inner_elem l p : p ∈ inner l -> p.1 ∈ l /\ p.2 ∈ l.
Proof.
  induction l as [|a l IH]; cbn; [by intros ?%elem_of_nil|]. intros [(b & -> & Hb)%list_elem_of_fmap|H]%elem_of_app.
  - split; [by left|by right].
  - destruct (IH H). split; by right.
Qed.

Lemma length_inner l : 2 * count (inner l) = count l * (count l - 1).
Proof. unfold count in *. induction l as [|a l IH]; cbn [inner length]; [done|]. rewrite length_app, length_fmap. lia. Qed.

Lemma dispersion_unit l : unit_series l -> in_range 0 1 (withinDispersion l).
Proof.
  intros Hl. assert (Hin := Hl). unfold unit_series in Hin. rewrite Forall_forall in Hin. unfold withinDispersion.
  destruct (Z.leb_spec (count l) 1) as [H1|H1]; [by apply in_range_int|].
  assert (Hne : l <> []) by (intros ->; done). destruct (Z.leb_spec (count l) 200) as [H2|H2].
  - apply in_range_div with (count l * count l); [|apply counts_int|nia|lia].
    pose proof (length_inner l) as Hi. assert (Hs : in_range 0 (0 + count (inner l)) (sumOf distance (int 0) (inner l))).
    { apply in_range_sum; [|by apply in_range_int|lia|unfold count in *; nia].
      intros [a b] [Ha Hb]%inner_elem. apply distance_unit; by apply Hin. }
    eapply in_range_le; [apply (in_range_mul _ 2 _ (int 2) Hs); [apply counts_int|lia|unfold count; lia|nia]|lia|nia].
  - apply median_unit; [|by intros E%fmap_nil_inv]. apply Forall_fmap, Forall_forall. intros v Hv. cbn.
    apply (distance_unit v (medianOf l)); [by apply Hin|by apply median_unit].
Qed.

Lemma energy_unit x y : unit_series x -> unit_series y -> in_range (-2) 2 (energyStatistic x y).
Proof.
  intros Hx Hy. unfold energyStatistic. destruct (_ || _) eqn:E; [by apply in_range_int|]. apply orb_false_iff in E as [E1 E2]. bool_props.
  assert (Hc : in_range 0 1 (crossDist x y)).
  { assert (Nx : x <> []) by (intros ->; done). assert (Ny : y <> []) by (intros ->; done).
    unfold unit_series in *. unfold crossDist. destruct (Z.leb_spec (count x * count y) 10000) as [H|H].
    - rewrite Forall_forall in Hx, Hy. apply in_range_div with (count x * count y); [|apply counts_int|unfold count in *; nia|lia].
      rewrite Z.mul_1_l, <- length_cross. change (count (cross x y)) with (0 + count (cross x y)).
      apply in_range_sum; [|by apply in_range_int|lia|fold (count (cross x y)); rewrite length_cross; lia].
      intros [a b] [Ha Hb]%cross_elem. apply distance_unit; [by apply Hx|by apply Hy].
    - apply (distance_unit (medianOf x) (medianOf y)); by apply median_unit. }
  apply (in_range_le (0 - 1 - 1) (2 - 0 - 0)); [|done..].
  apply in_range_sub; [apply in_range_sub|by apply dispersion_unit|done|done]; [|by apply dispersion_unit|done|done].
  by apply (in_range_mul 1 2 _ (int 2) Hc (counts_int 2)).
Qed.

Lemma unit_stable series fuel : unit_series series ->
  findChangePoints series DEFAULT_MIN_SIZE DEFAULT_ALPHA (S fuel) = Some [].
Proof.
  intros Hs. unfold findChangePoints. cbn [searchSegment]. case_bool_decide as Hl; [done|].
  pose proof (bestOf_spec series DEFAULT_MIN_SIZE 0 (length series)) as H. destruct (bestOf _ _ _ _) as [[k|] v]; [|done].
  destruct H as (-> & _ & _). destruct (energy_unit (slice series 0 k) (slice series k (length series))) as (q & Eq & _ & Hq).
  { by apply Forall_take, Forall_drop. }
  { by apply Forall_take, Forall_drop. }
  unfold energyAt. rewrite Eq. assert (Ht : num_lt (Finite q) (threshold DEFAULT_ALPHA 0 (length series)) = true); [|by rewrite Ht].
  unfold threshold, DEFAULT_ALPHA. unfold DEFAULT_MIN_SIZE in Hl. set (n := Z.of_nat (length series - 0)).
  assert (Hn : num_ge (num_sqrt n) (int 3) = true) by (apply num_sqrt_ge; [done|unfold n; lia|by apply is_double_Z]).
  destruct (num_sqrt n) as [r|[]|]; [|done..]. cbn in Hn. rewrite Qle_bool_iff in Hn.
  assert (H3 : num_ge (num_mul (int 1) (Finite r)) (to_double 3) = true) by (apply (to_double_mono 3 (inject_Z 1 * r)); unfold inject_Z in *; lra).
  destruct (num_mul (int 1) (Finite r)) as [t|[]|]; [|done..]. unfold num_lt. cbn. apply negb_true_iff, not_true_iff_false. rewrite Qle_bool_iff.
  destruct (to_double_exact 3) as (d & Ed & Qd); [by apply (is_double_Z 3)|]. rewrite Ed in H3. cbn in H3. rewrite Qle_bool_iff in H3.
  intros H. unfold inject_Z in *. lra.
Qed.

(** a series of numbers from 0 to 1, such as the error rates of a benchmark, never has
    a change point with the minimum size and significance of the code: the energies of its
    splits are at most 2, and the threshold is at least 3. *)
Theorem unit_series_unchanged series fuel : unit_series series ->
  findChangePoints series DEFAULT_MIN_SIZE DEFAULT_ALPHA (S fuel) = Some [].
Proof. apply unit_stable. Qed.

Module Examples.

Definition step (n : nat) (v : Z) : list number := replicate n (int 0) ++ replicate n (int v).


Lemma unit_series_unchanged_witness : findChangePoints (step 6 1) DEFAULT_MIN_SIZE DEFAULT_ALPHA 1 = Some [].
Proof. apply unit_series_unchanged. repeat (constructor; [apply in_range_int; lia|]). constructor. Defined.

(** The same change in other units *)
Example units_matter :
  findChangePoints (step 5 1) 5 (int 1) 11 = Some [] /\ findChangePoints (step 5 1000) 5 (int 1) 11 = Some [5%nat].
Proof. split; vm_compute; reflexivity. Qed.

(** With a minimum size of 0 the search of an empty segment never ends. *)
Lemma empty_segment_overflows fuel a : searchSegment [] 0 (int 1) fuel a a = None.
Proof.
  induction fuel as [|fuel IH]; [done|]. cbn [searchSegment]. rewrite bool_decide_eq_false_2 by lia.
  assert (Hb : bestOf [] 0 a a = (Some a, int 0)).
  { unfold bestOf, splits. rewrite Nat.sub_diag, Nat.add_0_r. cbn. unfold better, energyAt, slice. rewrite Nat.sub_diag. done. }
  rewrite Hb. unfold threshold. rewrite Nat.sub_diag. change (num_lt (int 0) _) with false. cbv iota. by rewrite IH.
Qed.

Theorem zero_size_overflows fuel : findChangePoints [] 0 (int 1) fuel = None.
Proof. unfold findChangePoints. by rewrite empty_segment_overflows. Qed.
End Examples.
