(* ===== verification/Performance.v ===== *)
(** * Performance regressions ([src/src/performance/])

    [detector.ts]: comparison of two runs of a benchmark, change points of a series of
    runs, the report and its table; [benchmark.ts]: percentiles and the metrics of a
    scenario; [baseline.ts] in the module [Store]: baselines as files.  A metric that is
    undefined or null is [None]; numbers in texts are left out, lines of the table are
    constructors.

    [comparison_sound]: what is flagged is worse than the baseline, and so is everything
    worse than it.
    [error_rate_never_changes]: error rates have no change points.
    [odd_p50_is_median]: the middle of an odd number of samples.
    [Store.store_refines_map]: files of plain branches are a map from branch and scenario. *)

From Stdlib Require Import ZArith Lia Lqa Ascii String QArith Qround.
From stdpp Require Import base numbers list strings gmap.
From S2P Require Import Prelude Js Text Number Doubles ChangePoints.
#[local] Open Scope Z_scope.

Record BenchmarkMetrics := mkMetrics {
  scenario : string;
  timestamp : Z;
  p50LatencyMs : option number;
  p95LatencyMs : option number;
  p99LatencyMs : option number;
  throughputRps : option number;
  errorRate : option number;
  gcPauseDurationMs : option number
}.

Inductive Metric := P50 | P95 | P99 | Throughput | ErrorRate | GcPause.
#[export] Instance Metric_eq_dec : EqDecision Metric.
Proof. solve_decision. Defined.

Definition metricOf (m : Metric) (x : BenchmarkMetrics) : option number :=
  match m with
  | P50 => p50LatencyMs x | P95 => p95LatencyMs x | P99 => p99LatencyMs x
  | Throughput => throughputRps x | ErrorRate => errorRate x | GcPause => gcPauseDurationMs x
  end.

Definition HIGHER_IS_WORSE : list Metric := [P50; P95; P99; ErrorRate; GcPause].
Definition LOWER_IS_WORSE : list Metric := [Throughput].
Definition TRACKED_METRICS : list Metric := [P50; P95; P99; Throughput; ErrorRate; GcPause].

Record BaselineComparison := mkComparison {
  c_scenario : string;
  metric : Metric;
  baselineValue : number;
  currentValue : number;
  regressionPercent : number;
  isRegression : bool
}.

Record ChangePoint := mkChangePoint { index : nat; significance : number; cp_metric : Metric }.

Inductive Summary := NoRegressions (compared : nat) | Detected (worse : list (Metric * number)).
Record RegressionReport := mkReport {
  hasRegression : bool;
  regressions : list BaselineComparison;
  summary : Summary;
  changePoints : list ChangePoint
}.

Definition computeRegressionPercent (m : Metric) (baseline current : number) : number :=
  if num_eqb baseline (int 0) then int 0
  else if set_has m HIGHER_IS_WORSE then num_mul (num_div (num_sub current baseline) baseline) (int 100)
  else if set_has m LOWER_IS_WORSE then num_mul (num_div (num_sub baseline current) baseline) (int 100)
  else int 0.

Definition meanOf (l : list number) : number := num_div (sumOf id (int 0) l) (int (count l)).

Definition computeSignificance (series : list number) (splitIndex : nat) : number :=
  let left := take splitIndex series in
  let right := drop splitIndex series in
  if (count left =? 0) || (count right =? 0) then int 0 else num_abs (num_sub (meanOf left) (meanOf right)).

Section detector.
Context (regressionThresholdPercent : number) (minSamples : Z).

Definition compareMetric (current baseline : BenchmarkMetrics) (m : Metric) : option BaselineComparison :=
  b ← metricOf m baseline;
  c ← metricOf m current;
  let percent := computeRegressionPercent m b c in
  Some (mkComparison (scenario current) m b c percent (num_lt regressionThresholdPercent percent)).

Definition compare (current baseline : BenchmarkMetrics) : list BaselineComparison :=
  omap (compareMetric current baseline) TRACKED_METRICS.

(** [None] is a call stack that overflows. *)
Definition analyzeTimeSeries (fuel : nat) (series : list BenchmarkMetrics) (m : Metric) : option (list ChangePoint) :=
  if (count series <? minSamples) then Some []
  else
    let values := (fun x => default (int 0) (metricOf m x)) <$> series in
    fmap (M:=list) (fun i => mkChangePoint i (computeSignificance values i) m) <$> findChangePoints values DEFAULT_MIN_SIZE DEFAULT_ALPHA fuel.

Definition generateReport (comparisons : list BaselineComparison) (cps : list ChangePoint) : RegressionReport :=
  let worse := filter (fun c => isRegression c = true) comparisons in
  mkReport (negb (bool_decide (worse = []))) worse
    (if bool_decide (worse = []) then NoRegressions (length comparisons)
     else Detected ((fun c => (metric c, regressionPercent c)) <$> worse))
    cps.

Inductive Line :=
| Title | Blank | NoneDetected | Blocked | TableHeader | TableRule | Row (c : BaselineComparison) | AllWithin
| PointsTitle | PointsHeader | PointsRule | PointRow (p : ChangePoint) | Threshold (percent : number).

(** [lines.pop()] *)
Definition pop (l : list Line) : list Line := take (length l - 1) l.

Definition formatMarkdownTable (r : RegressionReport) : list Line :=
  let head := [Title; Blank; if hasRegression r then Blocked else NoneDetected; Blank; TableHeader; TableRule] in
  let rows := head ++ (Row <$> regressions r) in
  let body := if bool_decide (regressions r = []) then pop (pop (pop (pop (pop rows)))) ++ [AllWithin] else rows in
  let points :=
    if bool_decide (changePoints r = []) then []
    else [Blank; PointsTitle; Blank; PointsHeader; PointsRule] ++ (PointRow <$> changePoints r) in
  body ++ points ++ [Blank; Threshold regressionThresholdPercent].
End detector.

(** ** Benchmarks *)

Definition ceil (n : number) : number := num_neg (floor (num_neg n)).
Definition at_index (l : list number) (i : number) : number :=
  match i with Finite q => nth (Z.to_nat (Qfloor q)) l NaN | _ => NaN end.

Definition computePercentile (sorted : list number) (p : number) : number :=
  if bool_decide (sorted = []) then int 0
  else if num_ge (int 0) p then nth 0 sorted NaN
  else if num_ge p (int 100) then nth (length sorted - 1) sorted NaN
  else
    let rank := num_mul (num_div p (int 100)) (int (count sorted - 1)) in
    let lower := floor rank in
    let upper := ceil rank in
    let frac := num_sub rank lower in
    num_add (num_mul (at_index sorted lower) (num_sub (int 1) frac)) (num_mul (at_index sorted upper) frac).

(** The metrics of a run of a scenario, from its iterations in the order in which they
    ended: their nanoseconds, and whether they failed *)
Definition metricsOf (name : string) (durationMs now : Z) (iterations : list (Z * bool)) : BenchmarkMetrics :=
  let sorted := sort_by diff_le ((fun i => num_div (int i.1) (int 1000000)) <$> iterations) in
  let n := count iterations in
  let errors := count (filter (fun i => i.2 = true) iterations) in
  mkMetrics name now (Some (computePercentile sorted (int 50))) (Some (computePercentile sorted (int 95)))
    (Some (computePercentile sorted (int 99))) (Some (num_div (int n) (num_div (int durationMs) (int 1000))))
    (Some (if (0 <? n) then num_div (int errors) (int n) else int 0)) None.

(** ** Comparisons *)

Lemma positive_signs q : (0 < q)%Q -> is_zero q = false /\ is_negative q = false.
Proof. unfold Qlt, is_zero, is_negative. cbn. intros H. split; [apply Z.eqb_neq|apply Z.ltb_ge]; lia. Qed.

Lemma to_double_extremes q : num_ge (to_double q) (Infinite true) = true /\ num_ge (Infinite false) (to_double q) = true.
Proof. unfold to_double. repeat case_match; try done; by destruct (_ <? 0). Qed.

(** Dividing and multiplying by something positive keeps the order. *)
Lemma num_div_mono x y q : (0 < q)%Q -> num_ge x y = true -> num_ge (num_div x (Finite q)) (num_div y (Finite q)) = true.
Proof.
  intros Hq H. destruct (positive_signs q Hq) as [Z1 Z2]. destruct x as [a|[]|], y as [b|[]|]; try done; cbn [num_div];
    rewrite ?Z1, ?Z2; cbn [xorb]; try done; try apply to_double_extremes.
  cbn in H. rewrite Qle_bool_iff in H. apply to_double_mono. unfold Qdiv. apply Qmult_le_compat_r; [done|]. by apply Qlt_le_weak, Qinv_lt_0_compat.
Qed.

Lemma num_mul_mono x y q : (0 < q)%Q -> num_ge x y = true -> num_ge (num_mul x (Finite q)) (num_mul y (Finite q)) = true.
Proof.
  intros Hq H. destruct (positive_signs q Hq) as [Z1 Z2]. destruct x as [a|[]|], y as [b|[]|]; try done; cbn [num_mul];
    rewrite ?Z1, ?Z2; cbn [xorb]; try done; try apply to_double_extremes.
  cbn in H. rewrite Qle_bool_iff in H. apply to_double_mono. apply Qmult_le_compat_r; [done|]. by apply Qlt_le_weak.
Qed.

Lemma num_lt_ge_trans t x y : num_lt t x = true -> num_ge y x = true -> num_lt t y = true.
Proof.
  destruct t as [p|[]|], x as [q|[]|], y as [r|[]|]; try done. cbn. rewrite !negb_true_iff, <- !not_true_iff_false, !Qle_bool_iff.
  intros H1 H2 H. apply H1. by eapply Qle_trans.
Qed.

(** The percentage grows with what is worse than the baseline [q], and is 0 at the baseline. *)
Definition percentOf (q : Q) (n : number) : number := num_mul (num_div n (Finite q)) (int 100).

Lemma percentOf_mono q x y : (0 < q)%Q -> num_ge x y = true -> num_ge (percentOf q x) (percentOf q y) = true.
Proof. intros Hq H. apply num_mul_mono; [done|]. by apply num_div_mono. Qed.

Lemma percentOf_le q d : (0 < q)%Q -> (d <= 0)%Q -> num_ge (int 0) (percentOf q (to_double d)) = true.
Proof.
  intros Hq Hd. assert (E : num_ge (percentOf q (int 0)) (percentOf q (to_double d)) = true) by (apply percentOf_mono; [done|by apply (to_double_mono d 0)]).
  assert (E0 : num_ge (int 0) (percentOf q (int 0)) = true); [|by eapply num_ge_trans].
  unfold percentOf, int. cbn [num_div]. rewrite (proj1 (positive_signs q Hq)).
  assert (Hz : forall r, (r == 0)%Q -> to_double r = Finite 0).
  { intros r Hr. unfold Qeq in Hr. cbn in Hr. unfold to_double. by replace (Z.abs (Qnum r)) with 0 by lia. }
  rewrite Hz by (unfold Qdiv; change (inject_Z 0) with 0%Q; by rewrite Qmult_0_l). reflexivity.
Qed.

Definition higher (m : Metric) : Prop := m ∈ HIGHER_IS_WORSE.

Lemma percent_cases m b c : (0 < b)%Q ->
  computeRegressionPercent m (Finite b) (Finite c) = percentOf b (to_double (if decide (m = Throughput) then b - c else c - b)).
Proof.
  intros Hb. unfold computeRegressionPercent, percentOf.
  assert (Ez : num_eqb (Finite b) (int 0) = false).
  { cbn. apply not_true_iff_false. rewrite Qeq_bool_iff. intros E. rewrite E in Hb. by apply Qlt_irrefl in Hb. }
  rewrite Ez. by destruct m.
Qed.

Lemma compare_elem thr current baseline x : x ∈ compare thr current baseline <->
  exists m b c, metricOf m baseline = Some b /\ metricOf m current = Some c /\
    x = mkComparison (scenario current) m b c (computeRegressionPercent m b c) (num_lt thr (computeRegressionPercent m b c)).
Proof.
  unfold compare. rewrite list_elem_of_omap. split.
  - intros (m & _ & H). unfold compareMetric in H. destruct (metricOf m baseline) as [b|] eqn:Eb, (metricOf m current) as [c|] eqn:Ec; try done.
    cbn in H. injection H as <-. by exists m, b, c.
  - intros (m & b & c & Eb & Ec & ->). exists m. unfold compareMetric. rewrite Eb, Ec. split; [|done]. destruct m; set_solver.
Qed.

(** What is worse than the baseline *)
Definition worse (m : Metric) (a b : Q) : Prop := if decide (m = Throughput) then (a < b)%Q else (b < a)%Q.

(** with a threshold that is not negative and positive baselines, a comparison that is
    flagged is of a value worse than the baseline; and whatever is at least as bad as a
    flagged value is flagged. *)
Theorem comparison_sound t current current' baseline m b c c' x :
  (0 <= t)%Q -> (0 < b)%Q -> metricOf m baseline = Some (Finite b) -> metricOf m current = Some (Finite c) ->
  metricOf m current' = Some (Finite c') -> x ∈ compare (Finite t) current baseline -> metric x = m -> isRegression x = true ->
  worse m c b /\
  (~ worse m c c' -> exists x', x' ∈ compare (Finite t) current' baseline /\ metric x' = m /\ isRegression x' = true).
Proof.
  intros Ht Hb Eb Ec Ec' (m' & b' & c'' & Eb' & Ec'' & ->)%compare_elem E Hr. cbn in E, Hr. subst m'. simplify_eq.
  rewrite percent_cases in Hr by done. split.
  - unfold worse. assert (Hn : forall d, num_lt (Finite t) (percentOf b (to_double d)) = true -> ~ (d <= 0)%Q).
    { intros d Hd Hle. pose proof (num_lt_ge_trans _ _ _ Hd (percentOf_le b d Hb Hle)) as H. cbn in H.
      apply negb_true_iff, not_true_iff_false in H. rewrite Qle_bool_iff in H. by apply H. }
    apply Hn in Hr. apply Qnot_le_lt in Hr. case_decide; unfold Qminus in Hr; lra.
  - intros Hw. eexists. split; [apply compare_elem; exists m, (Finite b), (Finite c'); split; [done|split; [done|reflexivity]]|]. split; [done|].
    cbn [isRegression]. rewrite percent_cases by done. eapply num_lt_ge_trans; [exact Hr|]. apply percentOf_mono; [done|]. apply to_double_mono.
    unfold worse in Hw. case_decide; apply Qnot_lt_le in Hw; unfold Qminus; lra.
Qed.

(** The error rate of a run *)
Lemma measured_error_rate name durationMs now iterations : exists e, errorRate (metricsOf name durationMs now iterations) = Some e /\ in_range 0 1 e.
Proof.
  eexists. split; [reflexivity|]. destruct (Z.ltb_spec 0 (count iterations)) as [H|H]; [|by apply in_range_int].
  apply in_range_div with (count iterations); [|apply counts_int|done|done]. apply in_range_int. unfold count.
  pose proof (length_filter (fun i : Z * bool => i.2 = true) iterations). lia.
Qed.

(** the error rates of a series of runs never have a change point. *)
Theorem error_rate_never_changes minSamples series fuel :
  Forall (fun x => exists e, errorRate x = Some e /\ in_range 0 1 e) series ->
  analyzeTimeSeries minSamples (S fuel) series ErrorRate = Some [].
Proof.
  intros H. unfold analyzeTimeSeries. destruct (_ <? _); [done|]. rewrite unit_stable; [done|].
  apply Forall_fmap. eapply Forall_impl; [exact H|]. intros x (e & E & He). cbn. by rewrite E.
Qed.

(** ** Percentiles *)

Lemma half_exact : exists q, num_div (int 50) (int 100) = Finite q /\ (q == 1 # 2)%Q.
Proof. eexists. split; [vm_compute; reflexivity|reflexivity]. Qed.

Lemma to_double_genuine q r : is_double q -> (r == q)%Q -> exists s, to_double r = Finite s /\ (s == q)%Q.
Proof. intros Hd E. destruct (to_double_exact r) as (s & Es & Hs); [by rewrite E|]. exists s. split; [done|]. by rewrite Hs. Qed.

(** the 50th percentile of an odd number of sorted samples is the one in the middle. *)
Theorem odd_p50_is_median sorted (m : nat) q : (length sorted = 2 * m + 1)%nat -> Z.of_nat m < 2 ^ 52 -> nth m sorted NaN = Finite q -> is_double q ->
  exists r, computePercentile sorted (int 50) = Finite r /\ (r == q)%Q.
Proof.
  intros Hl Hm Hn Hd. unfold computePercentile. rewrite bool_decide_eq_false_2 by (intros ->; cbn in Hl; lia).
  change (num_ge (int 0) (int 50)) with false. change (num_ge (int 50) (int 100)) with false. cbv iota.
  destruct half_exact as (h & -> & Hh). assert (Hr : counts (num_mul (Finite h) (int (count sorted - 1))) (Z.of_nat m)).
  { apply counts_to_double; [|lia]. rewrite Hh. unfold count. rewrite Hl. replace (Z.of_nat (2 * m + 1) - 1) with (2 * Z.of_nat m) by lia.
    rewrite inject_Z_mult. change (inject_Z 2) with 2%Q. field. }
  destruct Hr as (k & -> & Hk). assert (Hf : Qfloor k = Z.of_nat m) by (rewrite Hk; apply Qfloor_Z).
  assert (Hc : ceil (Finite k) = int (Z.of_nat m)).
  { unfold ceil. cbn [num_neg floor]. rewrite (Qfloor_comp _ (inject_Z (- Z.of_nat m))), Qfloor_Z by (rewrite Hk; by rewrite inject_Z_opp).
    unfold int, num_neg. f_equal. unfold Qopp, inject_Z. cbn. by rewrite Z.opp_involutive. }
  cbn [floor]. rewrite Hf, Hc. assert (Ei : at_index sorted (int (Z.of_nat m)) = Finite q).
  { unfold at_index, int. by rewrite Qfloor_Z, Nat2Z.id. }
  rewrite Ei. assert (H0 : counts (num_sub (Finite k) (int (Z.of_nat m))) 0).
  { replace 0 with (Z.of_nat m - Z.of_nat m) by lia. apply counts_sub; [by exists k|apply counts_int|lia]. }
  assert (H1 := counts_sub _ _ 1 0 (counts_int 1) H0 ltac:(done)). destruct H1 as (o & -> & Ho), H0 as (z & -> & Hz). cbn [num_mul].
  change (inject_Z (1 - 0)) with 1%Q in Ho. change (inject_Z 0) with 0%Q in Hz.
  destruct (to_double_genuine q (q * o) Hd) as (r1 & -> & Hr1); [rewrite Ho; ring|].
  destruct (to_double_genuine 0 (q * z) is_double_0) as (r2 & -> & Hr2); [rewrite Hz; ring|]. cbn [num_add].
  apply to_double_genuine; [done|]. rewrite Hr1, Hr2. ring.
Qed.

(** ** Stored baselines *)

Module Store.

Record PerformanceBaseline := mkBaseline { branch : string; b_scenario : string; storedAt : Z; metrics : list BenchmarkMetrics }.

Definition is_safe (c : ascii) : bool :=
  let n := code c in
  ((97 <=? n) && (n <=? 122) || (65 <=? n) && (n <=? 90) || (48 <=? n) && (n <=? 57) || (n =? 95) || (n =? 46) || (n =? 45))%nat.
Definition UNDERSCORE : ascii := "_"%char.

Fixpoint sanitize (s : string) : string :=
  match s with EmptyString => "" | String c s' => String (if is_safe c then c else UNDERSCORE) (sanitize s') end.

Definition key (b s : string) : string := sanitize b +:+ String UNDERSCORE (sanitize s) +:+ ".json".

(** What [JSON.parse] makes of the text: numbers that are not finite become null. *)
Definition through_json (n : option number) : option number := match n with Some (Finite q) => Some (Finite q) | _ => None end.
Definition reparsed (x : BenchmarkMetrics) : BenchmarkMetrics :=
  mkMetrics (scenario x) (timestamp x) (through_json (p50LatencyMs x)) (through_json (p95LatencyMs x)) (through_json (p99LatencyMs x))
    (through_json (throughputRps x)) (through_json (errorRate x)) (through_json (gcPauseDurationMs x)).
Definition readBack (b : PerformanceBaseline) : PerformanceBaseline := mkBaseline (branch b) (b_scenario b) (storedAt b) (reparsed <$> metrics b).

(** The files of the directory; [None] is a text that is not JSON. *)
Notation Files := (gmap string (option PerformanceBaseline)).

Inductive StoreError := SyntaxError | SystemError (code : string).

(** [fault] is the error of the system call, if it fails otherwise than for a missing
    file. *)
Definition save (fault : option string) (b : PerformanceBaseline) (fs : Files) : Files * (StoreError + unit) :=
  match fault with
  | Some e => (fs, inl (SystemError e))
  | None => (<[key (branch b) (b_scenario b) := Some (readBack b)]> fs, inr tt)
  end.

Definition load (fault : option string) (b s : string) (fs : Files) : StoreError + option PerformanceBaseline :=
  match fault with
  | Some e => inl (SystemError e)
  | None =>
      match fs !! key b s with
      | None => inr None
      | Some None => inl SyntaxError
      | Some (Some x) => inr (Some x)
      end
  end.

Definition exists_ (b s : string) (fs : Files) : bool := bool_decide (is_Some (fs !! key b s)).

Definition delete_ (fault : option string) (b s : string) (fs : Files) : Files * (StoreError + unit) :=
  match fault with
  | Some e => (fs, inl (SystemError e))
  | None => (delete (key b s) fs, inr tt)
  end.

(** [s.slice(0, -5)] of a name that ends with [.json] *)
Definition stripJson (s : string) : string := substring 0 (String.length s - 5) s.

(** The parts before and after the first underscore *)
Fixpoint cut (s : string) : option (string * string) :=
  match s with
  | EmptyString => None
  | String c s' =>
      if bool_decide (c = UNDERSCORE) then Some ("", s') else '(a, b) ← cut s'; Some (String c a, b)
  end.

(** [entries] is the answer of [readdir], if it succeeds. *)
Definition list_ (entries : option (list string)) : list (string * string) :=
  match entries with
  | None => []
  | Some names => omap (fun e => cut (stripJson e)) (filter (fun e => endsWith ".json" e = true) names)
  end.

(** ** Plain branches *)

(** A branch of safe characters other than the underscore, and a scenario of safe ones *)
Definition plain_branch (s : string) : Prop := all_chars is_safe s = true /\ lacks UNDERSCORE s = true.
Definition plain (b s : string) : Prop := plain_branch b /\ all_chars is_safe s = true.

Lemma sanitize_safe s : all_chars is_safe s = true -> sanitize s = s.
Proof.
  induction s as [|c s IH]; [done|]. rewrite all_chars_String, andb_true_iff. intros [Hc Hs]. cbn. by rewrite Hc, IH.
Qed.

Lemma cut_app b s : lacks UNDERSCORE b = true -> cut (b +:+ String UNDERSCORE s) = Some (b, s).
Proof.
  induction b as [|c b IH]; [done|]. rewrite lacks_String. intros [Hc Hb]. rewrite app_String. cbn [cut].
  by rewrite bool_decide_eq_false_2, (IH Hb).
Qed.

Lemma substring_app a b : substring 0 (String.length a) (a +:+ b) = a.
Proof. induction a as [|c a IH]; [by destruct b|]. rewrite app_String. cbn. by rewrite IH. Qed.

Lemma stripJson_app s : stripJson (s +:+ ".json") = s.
Proof. unfold stripJson. rewrite length_app_s. replace (_ - 5)%nat with (String.length s) by (cbn; lia). apply substring_app. Qed.

Lemma key_plain b s : plain b s -> key b s = (b +:+ String UNDERSCORE s) +:+ ".json".
Proof. intros [[Hb _] Hs]. unfold key. rewrite !sanitize_safe by done. by autorewrite with text. Qed.

Lemma listed_key b s : plain b s -> cut (stripJson (key b s)) = Some (b, s).
Proof. intros H. rewrite key_plain, stripJson_app by done. apply cut_app, H. Qed.

Lemma key_plain_inj b s b' s' : plain b s -> plain b' s' -> key b s = key b' s' -> b = b' /\ s = s'.
Proof. intros H H' E. apply listed_key in H, H'. rewrite E in H. split; congruence. Qed.

Lemma key_json b s : endsWith ".json" (key b s) = true.
Proof.
  unfold key. change (String UNDERSCORE (sanitize s) +:+ ".json") with (String UNDERSCORE (sanitize s +:+ ".json")).
  replace (sanitize b +:+ String UNDERSCORE (sanitize s +:+ ".json")) with ((sanitize b +:+ String UNDERSCORE (sanitize s)) +:+ ".json") by (by autorewrite with text).
  apply endsWith_app.
Qed.

(** ** The files as a map from branch and scenario *)

Inductive Op := Save (b : PerformanceBaseline) | Delete (b s : string).
Definition plain_op (o : Op) : Prop := match o with Save b => plain (branch b) (b_scenario b) | Delete b s => plain b s end.

(** A call, with the error of its system call, if any *)
Definition perform (c : Op * option string) (fs : Files) : Files :=
  match c.1 with Save b => (save c.2 b fs).1 | Delete b s => (delete_ c.2 b s fs).1 end.
Definition abstract (c : Op * option string) (m : gmap (string * string) PerformanceBaseline) : gmap (string * string) PerformanceBaseline :=
  match c with
  | (_, Some _) => m
  | (Save b, None) => <[(branch b, b_scenario b) := readBack b]> m
  | (Delete b s, None) => delete (b, s) m
  end.

Record represents (fs : Files) (m : gmap (string * string) PerformanceBaseline) : Prop := {
  rep_plain : forall b s, is_Some (m !! (b, s)) -> plain b s;
  rep_lookup : forall b s, plain b s -> fs !! key b s = Some <$> m !! (b, s);
  rep_names : forall k, is_Some (fs !! k) -> exists b s, k = key b s /\ is_Some (m !! (b, s))
}.

Lemma represents_insert fs m b s x : plain b s -> represents fs m -> represents (<[key b s := Some x]> fs) (<[(b, s) := x]> m).
Proof.
  intros H [R1 R2 R3]. split.
  - intros b' s'. rewrite lookup_insert. case_decide; [by simplify_eq|apply R1].
  - intros b' s' H'. destruct (decide ((b, s) = (b', s'))) as [[= <- <-]|Hne]; [by rewrite !lookup_insert_eq|].
    rewrite !lookup_insert_ne; [by apply R2|by intros E|]. intros E%key_plain_inj; [destruct E; congruence|done..].
  - intros k. rewrite lookup_insert. case_decide as E.
    + intros _. exists b, s. split; [done|]. rewrite lookup_insert_eq. by eexists.
    + intros (b' & s' & -> & Hm)%R3. exists b', s'. split; [done|]. rewrite lookup_insert_ne; [done|]. by intros [= -> ->].
Qed.

Lemma represents_delete fs m b s : plain b s -> represents fs m -> represents (delete (key b s) fs) (delete (b, s) m).
Proof.
  intros H [R1 R2 R3]. split.
  - intros b' s'. rewrite lookup_delete. case_decide; [by intros []|apply R1].
  - intros b' s' H'. destruct (decide ((b, s) = (b', s'))) as [[= <- <-]|Hne]; [by rewrite !lookup_delete_eq|].
    rewrite !lookup_delete_ne; [by apply R2|by intros E|]. intros E%key_plain_inj; [destruct E; congruence|done..].
  - intros k. rewrite lookup_delete. case_decide as E; [by intros []|].
    intros (b' & s' & -> & Hm)%R3. exists b', s'. split; [done|]. rewrite lookup_delete_ne; [done|]. by intros [= -> ->].
Qed.

Lemma perform_represents c fs m : plain_op c.1 -> represents fs m -> represents (perform c fs) (abstract c m).
Proof.
  destruct c as [[b|b s] [e|]]; cbn; intros H R; [done|by apply represents_insert|done|by apply represents_delete].
Qed.

Lemma elem_of_pairs (m : gmap (string * string) PerformanceBaseline) p : p ∈ (map_to_list m).*1 <-> is_Some (m !! p).
Proof.
  rewrite list_elem_of_fmap. split.
  - intros ([p' x] & -> & H%elem_of_map_to_list). by exists x.
  - intros [x H]. exists (p, x). split; [done|]. by apply elem_of_map_to_list.
Qed.

Lemma list_of_plain (l : list (string * string)) : (forall p, p ∈ l -> plain p.1 p.2) ->
  omap (fun e => cut (stripJson e)) (filter (fun e => endsWith ".json" e = true) ((fun p => key p.1 p.2) <$> l)) = l.
Proof.
  induction l as [|[b s] l IH]; intros H; [done|]. cbn [fmap list_fmap fst snd]. rewrite filter_cons_True by apply key_json.
  cbn [omap list_omap]. rewrite listed_key by (apply (H (b, s)); left). f_equal. apply IH. intros p Hp. apply H. by right.
Qed.

(** with branches of plain names, whatever calls are made and fail, the files are a map
    from branch and scenario: [load] and [exists] look it up, where a saved baseline is
    as JSON gives it back, and [list] has exactly its keys. *)
Theorem store_refines_map calls entries :
  Forall (fun c => plain_op c.1) calls ->
  let fs := foldl (fun fs c => perform c fs) ∅ calls in
  let m := foldl (fun m c => abstract c m) ∅ calls in
  entries ≡ₚ (map_to_list fs).*1 ->
  (forall b s, plain b s -> load None b s fs = inr (m !! (b, s)) /\ exists_ b s fs = bool_decide (is_Some (m !! (b, s)))) /\
  list_ (Some entries) ≡ₚ (map_to_list m).*1.
Proof.
  intros Hc fs m He. assert (R : represents fs m).
  { unfold fs, m. assert (H0 : represents ∅ ∅).
    { split; [intros b s []; set_solver| |intros k []; set_solver]. intros b s _. by rewrite !lookup_empty. }
    revert H0. generalize (∅ : Files) (∅ : gmap (string * string) PerformanceBaseline).
    clear - Hc. induction Hc as [|c calls Hp _ IH]; intros f g R; [done|]. cbn [foldl]. by apply IH, perform_represents. }
  destruct R as [R1 R2 R3]. split.
  - intros b s H. unfold load, exists_. rewrite R2 by done. destruct (m !! (b, s)); split; try done; apply bool_decide_ext; rewrite fmap_is_Some; done.
  - assert (Hl : forall k, k ∈ entries <-> exists b s, k = key b s /\ is_Some (m !! (b, s))).
    { intros k. rewrite He, list_elem_of_fmap. split.
      - intros ([k' x] & -> & Hk%elem_of_map_to_list). apply R3. by exists x.
      - intros (b & s & -> & [x Hx]). exists (key b s, Some x). split; [done|]. apply elem_of_map_to_list. rewrite R2 by (apply R1; by exists x). by rewrite Hx. }
    assert (Hk : entries ≡ₚ (fun p => key p.1 p.2) <$> (map_to_list m).*1).
    { apply NoDup_Permutation.
      - rewrite He. apply NoDup_fst_map_to_list.
      - apply NoDup_fmap_2_strong; [|apply NoDup_fst_map_to_list].
        intros [b s] [b' s'] H%elem_of_pairs H'%elem_of_pairs E. apply R1 in H, H'. by destruct (key_plain_inj _ _ _ _ H H' E) as [-> ->].
      - intros k. rewrite Hl, list_elem_of_fmap. split.
        + intros (b & s & -> & H). exists (b, s). split; [done|]. by apply elem_of_pairs.
        + intros ([b s] & -> & H%elem_of_pairs). by exists b, s. }
    cbn [list_]. rewrite Hk. rewrite list_of_plain; [done|]. intros [b s] H%elem_of_pairs. by apply R1.
Qed.

End Store.

Module Examples.
Import Store.

Definition run_of (p50 rps errors : Z) : BenchmarkMetrics :=
  mkMetrics "api" 0 (Some (int p50)) None None (Some (int rps)) (Some (int errors)) None.

Lemma comparison_sound_witness : isRegression <$> compare (int 10) (run_of 120 100 0) (run_of 100 100 0) = [true; false; false].
Proof.
  destruct (comparison_sound 10 (run_of 120 100 0) (run_of 130 100 0) (run_of 100 100 0) P50 100 120 130
    (mkComparison "api" P50 (int 100) (int 120) (computeRegressionPercent P50 (int 100) (int 120)) true)) as [_ H];
    [by apply Qle_bool_iff|done|done|done|done| |done|done|].
  - apply compare_elem. exists P50, (int 100), (int 120). split; [done|]. split; [done|]. vm_compute. reflexivity.
  - vm_compute. reflexivity.
Defined.

Lemma error_rate_never_changes_witness :
  analyzeTimeSeries 10 1 (metricsOf "api" 1000 0 <$> replicate 10 [(5, false)] ++ replicate 10 [(5, true)]) ErrorRate = Some [].
Proof.
  apply (error_rate_never_changes 10 _ 0). apply Forall_fmap, Forall_forall. intros r _. apply measured_error_rate.
Defined.

Lemma odd_p50_is_median_witness : exists r, computePercentile [int 1; int 4; int 9] (int 50) = Finite r /\ (r == 4)%Q.
Proof. by apply (odd_p50_is_median [int 1; int 4; int 9] 1); [..|apply (is_double_Z 4)]. Defined.

Definition baseline (b s : string) : PerformanceBaseline := mkBaseline b s 7 [].
Definition after (calls : list (Op * option string)) : Files := foldl (fun fs c => perform c fs) ∅ calls.

Lemma store_refines_map_witness :
  load None "main" "api" (after [(Save (baseline "main" "api"), None); (Delete "main" "api", Some "EACCES")]) = inr (Some (baseline "main" "api")).
Proof.
  destruct (store_refines_map [(Save (baseline "main" "api"), None); (Delete "main" "api", Some "EACCES")] ["main_api.json"]) as [H _].
  - repeat (constructor; [by split|]). constructor.
  - vm_compute. reflexivity.
  - destruct (H "main" "api" ltac:(by split)) as [E _]. exact E.
Defined.

(** The first error is not a regression, whatever the threshold: nothing is, against 0. *)
Example first_errors_pass :
  metric <$> filter (fun c => isRegression c = true) (compare (int 10) (run_of 100 100 1) (run_of 100 100 0)) = [].
Proof. vm_compute. reflexivity. Qed.

(** Without regressions the line that says so is taken away with the table. *)
Example good_news_removed :
  formatMarkdownTable (int 10) (generateReport (compare (int 10) (run_of 100 100 0) (run_of 100 100 0)) []) = [Title; AllWithin; Blank; Threshold (int 10)].
Proof. vm_compute. reflexivity. Qed.

(** Two pairs of names, one file *)
Example baselines_overwritten :
  load None "a" "b_c" (after [(Save (baseline "a" "b_c"), None); (Save (baseline "a_b" "c"), None)]) = inr (Some (baseline "a_b" "c")).
Proof. vm_compute. reflexivity. Qed.

(** A branch with a slash is listed under other names. *)
Example slash_listed_wrong :
  list_ (Some (map_to_list (after [(Save (baseline "feature/x" "api"), None)])).*1) = [("feature", "x_api")].
Proof. vm_compute. reflexivity. Qed.
End Examples.
