(* ===== verification/BackupVerification.v ===== *)
(** * Verification of restored backups ([src/src/database/backup_verification.ts])

    The checks of a manifest, the queries on the restored database, the result with its
    alert and its row.  Dates and counts of a manifest are JavaScript numbers, NaN for an
    invalid date; digests and the text of a date are parameters; the answer to a check is
    what [withTimeout] makes of it.  Instruments and the metrics text are left out.

    [verification_sound]: a verification passes exactly if the manifest is within the
    policy and every check is answered as expected, and alerts exactly if it does not.
    [first_result_kept]: the row of a verification is that of its first result. *)

From Stdlib Require Import ZArith Lia Ascii String QArith.
From stdpp Require Import base numbers list strings gmap.
From S2P Require Import Prelude Js Text Number Doubles.
#[local] Open Scope Z_scope.

Record BackupManifest := mkManifest {
  backupId : string;
  completedAt : number;
  schemaVersion : string;
  objectCount : number;
  sizeBytes : number;
  checksum : string
}.

Record RestoreValidationCheck := mkCheck { c_name : string; sql : string; expectedRows : option Z; timeoutMs : option Z }.

Record BackupVerificationPolicy := mkPolicy {
  maxBackupAgeMs : number;
  minObjectCount : number;
  minSizeBytes : number;
  requiredSchemaVersion : string;
  restoreChecks : list RestoreValidationCheck
}.

Definition DEFAULT_BACKUP_VERIFICATION_POLICY : BackupVerificationPolicy :=
  mkPolicy (int (26 * 60 * 60 * 1000)) (int 1) (int 1) "latest"
    [mkCheck "database accepts reads" "SELECT 1 AS ok" (Some 1) (Some 5000);
     mkCheck "core reputation table restored"
       "SELECT 1 FROM information_schema.tables WHERE table_schema = 'public' AND table_name = 'reputations'" (Some 1) (Some 5000)].

Inductive Finding :=
| EmptyId | InFuture | TooOld | FewObjects | SmallSize | WrongSchema | BadChecksum
| WrongRows (check : string) (expected : Z) | CheckFailed (check : string) (message : string).

Inductive Status := Passed | Failed.
#[export] Instance Status_eq_dec : EqDecision Status.
Proof. solve_decision. Defined.
Inductive Severity := Info | Critical.

Record BackupVerificationResult := mkResult {
  verificationId : string;
  r_backupId : string;
  status : Status;
  severity : Severity;
  durationMs : number;
  findings : list Finding;
  checkedAt : number
}.

(** The alert that goes to the sink; its summary is a text about the backup. *)
Record BackupVerificationAlert := mkAlert { a_verificationId : string; a_backupId : string; a_severity : Severity; a_findings : list Finding }.

(** [/^[a-f0-9]{32,128}$/i] *)
Definition is_hex (c : ascii) : bool :=
  let n := code c in ((48 <=? n) && (n <=? 57) || (97 <=? n) && (n <=? 102) || (65 <=? n) && (n <=? 70))%nat.
Definition valid_checksum (s : string) : bool := all_chars is_hex s && (32 <=? String.length s)%nat && (String.length s <=? 128)%nat.

(** What becomes of the query of a check: its [rowCount] and rows, an error, or the timeout
    after [timeoutMs ?? 10000]. *)
Inductive Answer := Rows (rowCount : option Z) (rows : Z) | Rejected (message : string) | TimedOut.

Section service.
Context (digest : string -> string) (toISOString : number -> string) (policy : BackupVerificationPolicy).

Definition createVerificationId (m : BackupManifest) (at_ : number) : string :=
  substring 0 32 (digest (backupId m +:+ ":" +:+ checksum m +:+ ":" +:+ toISOString at_)).

(** [if (condition) findings.push(finding)] *)
Definition note (condition : bool) (f : Finding) : list Finding := if condition then [f] else [].

Definition validateManifest (m : BackupManifest) (at_ : number) : list Finding :=
  note (falsy (trim (backupId m))) EmptyId ++
  note (num_lt at_ (completedAt m)) InFuture ++
  note (num_lt (maxBackupAgeMs policy) (num_sub at_ (completedAt m))) TooOld ++
  note (num_lt (objectCount m) (minObjectCount policy)) FewObjects ++
  note (num_lt (sizeBytes m) (minSizeBytes policy)) SmallSize ++
  note (negb (String.eqb (requiredSchemaVersion policy) "latest") && negb (String.eqb (schemaVersion m) (requiredSchemaVersion policy))) WrongSchema ++
  note (negb (valid_checksum (checksum m))) BadChecksum.

Definition restoreCheck (c : RestoreValidationCheck) (a : Answer) : list Finding :=
  match a with
  | Rows n rows =>
      match expectedRows c with
      | Some e => note (negb (default rows n =? e)) (WrongRows (c_name c) e)
      | None => []
      end
  | Rejected message => [CheckFailed (c_name c) message]
  | TimedOut => [CheckFailed (c_name c) ("restore check timed out: " +:+ c_name c)]
  end.

Definition runRestoreChecks (db : RestoreValidationCheck -> Answer) : list Finding :=
  restoreChecks policy ≫= (fun c => restoreCheck c (db c)).

(** The outcome, and the alert that was given to the sink; [sink] tells whether there is one
    and whether it fails. *)
Definition verify (sink : option (BackupVerificationAlert -> option string)) (at_ duration : number)
    (m : BackupManifest) (db : RestoreValidationCheck -> Answer) : (string + BackupVerificationResult) * option BackupVerificationAlert :=
  let found := validateManifest m at_ ++ runRestoreChecks db in
  let passed := bool_decide (found = []) in
  let r := mkResult (createVerificationId m at_) (backupId m) (if passed then Passed else Failed) (if passed then Info else Critical) duration found at_ in
  if passed then (inr r, None)
  else
    match sink with
    | None => (inr r, None)
    | Some notify =>
        let alert := mkAlert (verificationId r) (backupId m) Critical found in
        (match notify alert with Some e => inl e | None => inr r end, Some alert)
    end.
End service.

(** The table of results by their ids *)
Definition persistBackupVerificationResult (r : BackupVerificationResult) (t : gmap string BackupVerificationResult) :
    gmap string BackupVerificationResult :=
  match t !! verificationId r with Some _ => t | None => <[verificationId r := r]> t end.

#[export] Instance Finding_eq_dec : EqDecision Finding.
Proof. solve_decision. Defined.

(** ** What passes *)

(** A manifest within the policy *)
Definition sound_manifest (p : BackupVerificationPolicy) (m : BackupManifest) (at_ : number) : Prop :=
  trim (backupId m) <> "" /\
  ~ num_lt at_ (completedAt m) = true /\ ~ num_lt (maxBackupAgeMs p) (num_sub at_ (completedAt m)) = true /\
  ~ num_lt (objectCount m) (minObjectCount p) = true /\ ~ num_lt (sizeBytes m) (minSizeBytes p) = true /\
  (requiredSchemaVersion p = "latest" \/ schemaVersion m = requiredSchemaVersion p) /\
  valid_checksum (checksum m) = true.

(** An answer with the expected rows *)
Definition as_expected (c : RestoreValidationCheck) (a : Answer) : Prop :=
  exists n rows, a = Rows n rows /\ forall e, expectedRows c = Some e -> default rows n = e.

Lemma note_nil b f : note b f = [] <-> b = false.
Proof. by destruct b. Qed.

Lemma manifest_sound p m at_ : validateManifest p m at_ = [] <-> sound_manifest p m at_.
Proof.
  unfold validateManifest, sound_manifest. rewrite !app_nil, !note_nil, negb_false_iff, <- !not_true_iff_false, andb_true_iff, !negb_true_iff, <- !not_true_iff_false.
  unfold falsy. rewrite bool_decide_eq_true, !String.eqb_eq. destruct (decide (requiredSchemaVersion p = "latest")), (decide (schemaVersion m = requiredSchemaVersion p)); naive_solver.
Qed.

Lemma check_sound c a : restoreCheck c a = [] <-> as_expected c a.
Proof.
  unfold as_expected. destruct a as [n rows|e|]; cbn; [|by split; [|intros (? & ? & ? & _)]..].
  destruct (expectedRows c) as [e|]; [rewrite note_nil, negb_false_iff, Z.eqb_eq|]; split.
  - intros E. exists n, rows. split; [done|]. by intros ? [= <-].
  - intros (? & ? & [= <- <-] & H). by apply H.
  - intros _. by exists n, rows.
  - done.
Qed.

Lemma checks_sound p db : runRestoreChecks p db = [] <-> Forall (fun c => as_expected c (db c)) (restoreChecks p).
Proof.
  unfold runRestoreChecks. induction (restoreChecks p) as [|c l IH]; [by split|].
  rewrite bind_cons, app_nil, check_sound, IH. by rewrite Forall_cons.
Qed.

(** a verification passes exactly if the manifest is within the policy and every check
    is answered as expected; the sink gets an alert with the findings exactly if it does
    not pass, and the call fails only if the sink does. *)
Theorem verification_sound digest iso p sink at_ duration m db :
  let '(outcome, alert) := verify digest iso p sink at_ duration m db in
  let passes := sound_manifest p m at_ /\ Forall (fun c => as_expected c (db c)) (restoreChecks p) in
  let found := validateManifest p m at_ ++ runRestoreChecks p db in
  (forall r, outcome = inr r -> (status r = Passed <-> passes) /\ findings r = found /\ r_backupId r = backupId m) /\
  (is_Some alert <-> is_Some sink /\ ~ passes) /\
  (forall a, alert = Some a -> a_findings a = found /\ a_backupId a = backupId m) /\
  (forall e, outcome = inl e -> exists notify a, sink = Some notify /\ alert = Some a /\ notify a = Some e).
Proof.
  assert (Hp : (sound_manifest p m at_ /\ Forall (fun c => as_expected c (db c)) (restoreChecks p)) <-> validateManifest p m at_ ++ runRestoreChecks p db = []).
  { by rewrite app_nil, manifest_sound, checks_sound. }
  unfold verify. set (found := validateManifest p m at_ ++ runRestoreChecks p db) in *. cbv zeta.
  generalize dependent (sound_manifest p m at_ /\ Forall (fun c => as_expected c (db c)) (restoreChecks p)). intros passes Hp. case_bool_decide as Hf.
  - assert passes by (by apply Hp). split_and!.
    + by intros r [= <-].
    + split; [by intros []|]. by intros [_ []].
    + done.
    + done.
  - assert (~ passes) by (by rewrite Hp). destruct sink as [notify|]; cbn.
    + split_and!.
      * intros r Hr. destruct (notify _); [done|]. by injection Hr as <-.
      * split; [done|]. by eexists.
      * by intros a [= <-].
      * intros e He. destruct (notify _) as [e'|] eqn:E; [|done]. injection He as <-. by do 2 eexists.
    + split_and!.
      * by intros r [= <-].
      * split; [by intros []|]. by intros [[] _].
      * done.
      * done.
Qed.

(** results are stored once: whatever is persisted after it, the row of a verification
    is its first result, and other rows stay. *)
Theorem first_result_kept (rs : list BackupVerificationResult) r t :
  t !! verificationId r = None ->
  foldl (fun t r => persistBackupVerificationResult r t) t (r :: rs) !! verificationId r = Some r /\
  forall id x, t !! id = Some x -> foldl (fun t r => persistBackupVerificationResult r t) t (r :: rs) !! id = Some x.
Proof.
  assert (Hk : forall l t id x, t !! id = Some x -> foldl (fun t r => persistBackupVerificationResult r t) t l !! id = Some x).
  { induction l as [|r' l IH]; intros t' id x H; [done|]. cbn. apply IH. unfold persistBackupVerificationResult.
    destruct (t' !! verificationId r') eqn:E; [done|]. rewrite lookup_insert_ne; [done|]. congruence. }
  intros Ht. split; [|intros id x H; by apply Hk]. cbn. apply Hk. unfold persistBackupVerificationResult. by rewrite Ht, lookup_insert_eq.
Qed.

Module Examples.

Definition manifest (completed : number) : BackupManifest := mkManifest "b1" completed "v7" (int 5) (int 1000) "0123456789abcdef0123456789abcdef".
Definition healthy (c : RestoreValidationCheck) : Answer := Rows (Some 1) 1.
Definition run (m : BackupManifest) (db : RestoreValidationCheck -> Answer) :=
  verify (fun s => s) (fun _ => "now") DEFAULT_BACKUP_VERIFICATION_POLICY (Some (fun _ => Some "sink down")) (int 100000000) (int 3) m db.

Lemma first_result_kept_witness :
  let r := mkResult "v" "b" Passed Info (int 1) [] (int 0) in
  let r' := mkResult "v" "b" Failed Critical (int 1) [TooOld] (int 0) in
  persistBackupVerificationResult r' (persistBackupVerificationResult r ∅) !! "v" = Some r.
Proof. intros r r'. destruct (first_result_kept [r'] r ∅) as [H _]; [reflexivity|exact H]. Defined.

(** A backup whose completion is not a date passes. *)
Example invalid_date_passes : status <$> (match (run (manifest NaN) healthy).1 with inr r => Some r | inl _ => None end) = Some Passed.
Proof. vm_compute. reflexivity. Qed.

(** If the sink fails the findings are lost with the result. *)
Example failing_sink_loses_result : (run (manifest (int 0)) healthy).1 = inl "sink down".
Proof. vm_compute. reflexivity. Qed.
End Examples.
