(* ===== verification/Incidents.v ===== *)
(** * Incidents and chaos experiments ([src/src/incident/runbook_automation.ts],
      [src/src/chaos/blueprint.ts])

    The plan for a signal: the first runbook that matches, the id of the incident and the
    event for the pager; and the validation of a chaos blueprint.  Patterns are functions;
    the digest and the text of a date are parameters; the HTTP request of the pager client
    is the client's answer.

    [plan_first_match]: the plan is made from the first runbook that matches both patterns.
    [incident_ids_exact]: without bars in the fields, the text under the digest determines
    service, metric, severity, runbook and region.
    [Chaos.blueprint_validated]: a blueprint is valid exactly within the guardrails. *)

From Stdlib Require Import ZArith Lia Lqa Ascii String QArith.
From stdpp Require Import base numbers list strings.
From S2P Require Import Prelude Js Text Number Doubles.
#[local] Open Scope Z_scope.

Inductive IncidentSeverity := Critical | Error | Warning | Info.
Definition severityName (s : IncidentSeverity) : string :=
  match s with Critical => "critical" | Error => "error" | Warning => "warning" | Info => "info" end.

Record IncidentSignal := mkSignal {
  service : string;
  i_summary : string;
  severity : IncidentSeverity;
  metric : string;
  value : number;
  threshold : number;
  observedAt : option Z;
  labels : option (jsmap string string)
}.

Record RunbookStep := mkStep {
  s_id : string; description : string; command : option string; expectedOutcome : string; timeoutMs : Z; rollbackCommand : option string }.

Record RunbookDefinition := mkRunbook {
  id : string;
  title : string;
  servicePattern : string -> bool;
  metricPattern : string -> bool;
  dashboardUrl : string;
  escalationPolicy : string;
  steps : list RunbookStep
}.

(** The members of the event that depend on its arguments *)
Record PagerDutyIncidentEvent := mkEvent {
  routing_key : string;
  dedup_key : string;
  e_summary : string;
  e_severity : IncidentSeverity;
  component : string;
  group : string;
  class : string;
  timestamp : string;
  runbookId : string;
  runbookTitle : string;
  e_value : number;
  e_threshold : number;
  e_labels : jsmap string string;
  automationStepCount : nat;
  link : string * string
}.

Record Canary := mkCanary { analysisWindowMinutes : Z; successCriteria : list string; rollbackCriteria : list string }.

Definition canary : Canary :=
  mkCanary 15
    ["critical path P99 latency remains below 100ms";
     "error rate does not increase above the pre-incident baseline";
     "automated remediation completes every runbook step or halts safely"]
    ["P99 latency exceeds 100ms for two consecutive analysis windows";
     "PagerDuty deduplication key receives a second critical trigger";
     "any runbook rollback command reports failure"].

Record AutomationPlan := mkPlan { incidentId : string; runbook : RunbookDefinition; pagerDutyEvent : PagerDutyIncidentEvent; p_canary : Canary }.

Inductive IncidentError := NoRunbook (service metric : string) | PagerFailed (message : string).

Definition matches (x : IncidentSignal) (r : RunbookDefinition) : bool := servicePattern r (service x) && metricPattern r (metric x).

Definition regionOf (x : IncidentSignal) : string := default "global" (labels x ≫= fun l => l !! "region").

Definition BAR : ascii := "|"%char.

(** The text under the digest *)
Definition incidentKey (x : IncidentSignal) (runbook : string) : string :=
  join (String BAR "") [service x; metric x; severityName (severity x); runbook; regionOf x].

Section automation.
Context (digest : string -> string) (toISOString : Z -> string) (routingKey : string) (runbooks : list RunbookDefinition).

Definition incidentIdFor (x : IncidentSignal) (runbook : string) : string :=
  "incident:" +:+ substring 0 32 (digest (incidentKey x runbook)).

Definition buildPagerDutyEvent (iid : string) (r : RunbookDefinition) (x : IncidentSignal) (at_ : Z) : PagerDutyIncidentEvent :=
  mkEvent routingKey iid (service x +:+ ": " +:+ i_summary x) (severity x) (service x) (escalationPolicy r) (metric x) (toISOString at_)
    (id r) (title r) (value x) (threshold x) (default ∅ (labels x)) (length (steps r)) (dashboardUrl r, title r +:+ " dashboard").

Definition matchRunbook (x : IncidentSignal) : IncidentError + RunbookDefinition :=
  match filter (fun r => matches x r = true) runbooks with
  | r :: _ => inr r
  | [] => inl (NoRunbook (service x) (metric x))
  end.

Definition plan (now : Z) (x : IncidentSignal) : IncidentError + AutomationPlan :=
  match matchRunbook x with
  | inl e => inl e
  | inr r =>
      let iid := incidentIdFor x (id r) in
      inr (mkPlan iid r (buildPagerDutyEvent iid r x (default now (observedAt x))) canary)
  end.

(** The outcome and the events given to the client, which may refuse them *)
Definition trigger (client : PagerDutyIncidentEvent -> option string) (now : Z) (x : IncidentSignal) :
    (IncidentError + AutomationPlan) * list PagerDutyIncidentEvent :=
  match plan now x with
  | inl e => (inl e, [])
  | inr p => (match client (pagerDutyEvent p) with Some e => inl (PagerFailed e) | None => inr p end, [pagerDutyEvent p])
  end.
End automation.

(*CNI*)
(** [/latency|duration|p99/i] *)
Definition latencyPattern (s : string) : bool :=
  let l := toLowerCase s in includes "latency" l || includes "duration" l || includes "p99" l.

Definition defaultIncidentRunbooks : list RunbookDefinition :=
  [mkRunbook "critical-path-latency" "Critical path latency remediation" (fun _ => true) latencyPattern
     "https://grafana.example.com/d/verinode-critical-paths" "platform-primary"
     [mkStep "confirm-slo-breach" "Confirm the P99 latency breach across the active and canary stacks."
        (Some "verinodectl slo latency --window=5m --percentile=99")
        "The alert is confirmed or marked as a false positive before remediation begins." 30000 None;
      mkStep "shift-traffic-blue-green" "Shift traffic away from the degraded color using the blue-green controller."
        (Some "verinodectl deploy traffic-shift --from=degraded --to=healthy --step=25")
        "Traffic moves in bounded increments while canary analysis remains healthy." 60000
        (Some "verinodectl deploy traffic-shift --rollback")]].

(** if no runbook matches, the call fails and nothing is sent; otherwise the plan is that
    of the first runbook that matches, its event carries the incident's id as the key of
    deduplication and is sent once, and the call fails only if the client refuses it. *)
Theorem plan_first_match digest iso key runbooks client now x :
  let '(outcome, sent) := trigger digest iso key runbooks client now x in
  (Forall (fun r => matches x r = false) runbooks /\ outcome = inl (NoRunbook (service x) (metric x)) /\ sent = []) \/
  exists before r after p, runbooks = before ++ r :: after /\ Forall (fun r => matches x r = false) before /\ matches x r = true /\
    plan digest iso key runbooks now x = inr p /\ runbook p = r /\ incidentId p = incidentIdFor digest x (id r) /\
    sent = [pagerDutyEvent p] /\ dedup_key (pagerDutyEvent p) = incidentId p /\ group (pagerDutyEvent p) = escalationPolicy r /\
    outcome = match client (pagerDutyEvent p) with Some e => inl (PagerFailed e) | None => inr p end.
Proof.
  unfold trigger. assert (Hm : (Forall (fun r => matches x r = false) runbooks /\ matchRunbook runbooks x = inl (NoRunbook (service x) (metric x))) \/
    exists before r after, runbooks = before ++ r :: after /\ Forall (fun r => matches x r = false) before /\ matches x r = true /\ matchRunbook runbooks x = inr r).
  { unfold matchRunbook. induction runbooks as [|r l IH]; [by left|]. rewrite filter_cons. destruct (matches x r) eqn:E; cbn [decide].
    - right. exists [], r, l. rewrite decide_True by done. split_and!; done.
    - rewrite decide_False by done. destruct IH as [[H1 H2]|(b & r' & a & -> & H1 & H2 & H3)].
      + left. split; [by constructor|done].
      + right. exists (r :: b), r', a. split_and!; [done|by constructor|done|done]. }
  unfold plan. destruct Hm as [[H1 ->]|(b & r & a & E & H1 & H2 & ->)]; [by left|]. right. exists b, r, a. eexists. split_and!; done.
Qed.

(** The fields of a signal and a runbook that have no bar *)
Definition barless (x : IncidentSignal) (r : string) : Prop :=
  lacks BAR (service x) = true /\ lacks BAR (metric x) = true /\ lacks BAR r = true /\ lacks BAR (regionOf x) = true.

Lemma severity_lacks s : lacks BAR (severityName s) = true.
Proof. by destruct s. Qed.

Lemma severityName_inj s1 s2 : severityName s1 = severityName s2 -> s1 = s2.
Proof. by destruct s1, s2. Qed.

Lemma split_incidentKey x r : barless x r -> split BAR (incidentKey x r) = [service x; metric x; severityName (severity x); r; regionOf x].
Proof.
  intros (H1 & H2 & H3 & H4). unfold incidentKey. cbn [join]. autorewrite with text. rewrite !split_app by (done || apply severity_lacks).
  by rewrite split_lacks.
Qed.

(** for fields without bars the digested text determines the service, the metric, the
    severity, the runbook and the region, and nothing else of the signal goes into it. *)
Theorem incident_ids_exact x1 r1 x2 r2 : barless x1 r1 -> barless x2 r2 ->
  incidentKey x1 r1 = incidentKey x2 r2 <->
  service x1 = service x2 /\ metric x1 = metric x2 /\ severity x1 = severity x2 /\ r1 = r2 /\ regionOf x1 = regionOf x2.
Proof.
  intros H1 H2. split.
  - intros E. pose proof (split_incidentKey x1 r1 H1) as E1. rewrite E, (split_incidentKey x2 r2 H2) in E1.
    injection E1 as -> -> Es -> ->. apply severityName_inj in Es. by rewrite Es.
  - intros (E1 & E2 & E3 & -> & E5). unfold incidentKey. by rewrite E1, E2, E3, E5.
Qed.

(** ** Chaos experiments *)

Module Chaos.

Inductive ChaosFaultType := Latency | PacketLoss | PodKill | DependencyError | CpuPressure | ClockSkew.

Record ChaosScenario := mkScenario {
  name : string;
  c_service : string;
  fault : ChaosFaultType;
  blastRadiusPercent : number;
  durationSeconds : number;
  steadyStateProbe : string;
  rollbackTrigger : string
}.

Record ChaosBlueprint := mkBlueprint {
  environment : string;
  availabilityTargetPercent : number;
  criticalPathP99LatencyMs : number;
  maxBlastRadiusPercent : number;
  scenarios : list ChaosScenario
}.

Inductive Message := NotStaging | LowAvailability | HighLatency | BlastRadius | Duration | NoProbe | NoTrigger.
Record ValidationFinding := mkFinding { f_scenario : string; message : Message }.
Record ValidationResult := mkValidation { valid : bool; findings : list ValidationFinding }.

Definition target9999 : number := to_double (9999 # 100).

Definition DEFAULT_STAGING_CHAOS_BLUEPRINT : ChaosBlueprint :=
  mkBlueprint "staging" target9999 (int 100) (int 10)
    [mkScenario "gateway-critical-path-latency" "api-gateway" Latency (int 5) (int 300)
       "p99 latency remains below 100ms and HTTP 5xx rate stays below 0.1%" "p99 latency breaches 100ms for 3 consecutive minutes";
     mkScenario "kafka-consumer-pod-kill" "queue-workers" PodKill (int 10) (int 180)
       "consumer lag recovers without lost messages" "critical consumer lag alert fires or DLQ growth exceeds baseline";
     mkScenario "postgres-dependency-errors" "database-clients" DependencyError (int 5) (int 120)
       "readiness gates reject failed dependencies and retries stay bounded" "availability drops below 99.99% or error budget burn exceeds 2x"].

(** [if (condition) findings.push(finding)] *)
Definition note (condition : bool) (s : string) (m : Message) : list ValidationFinding := if condition then [mkFinding s m] else [].

Definition validateScenario (b : ChaosBlueprint) (s : ChaosScenario) : list ValidationFinding :=
  note (num_ge (int 0) (blastRadiusPercent s) || num_lt (maxBlastRadiusPercent b) (blastRadiusPercent s)) (name s) BlastRadius ++
  note (num_ge (int 0) (durationSeconds s) || num_lt (int 900) (durationSeconds s)) (name s) Duration ++
  note (falsy (trim (steadyStateProbe s))) (name s) NoProbe ++
  note (falsy (trim (rollbackTrigger s))) (name s) NoTrigger.

Definition validateChaosBlueprint (b : ChaosBlueprint) : ValidationResult :=
  let found :=
    note (negb (String.eqb (environment b) "staging")) "blueprint" NotStaging ++
    note (num_lt (availabilityTargetPercent b) target9999) "blueprint" LowAvailability ++
    note (num_lt (int 100) (criticalPathP99LatencyMs b)) "blueprint" HighLatency ++
    (scenarios b ≫= validateScenario b) in
  mkValidation (bool_decide (length found = 0)%nat) found.

(** A line of the summary *)
Inductive SummaryLine := Problem (f : ValidationFinding) | Ready (s : ChaosScenario).
Definition summarizeChaosReadiness (b : ChaosBlueprint) : list SummaryLine :=
  let v := validateChaosBlueprint b in
  if valid v then Ready <$> scenarios b else Problem <$> findings v.

(** A scenario of numbers within the guardrails, with its probe and its trigger *)
Definition guarded (b : ChaosBlueprint) (s : ChaosScenario) : Prop :=
  num_ge (int 0) (blastRadiusPercent s) = false /\ num_lt (maxBlastRadiusPercent b) (blastRadiusPercent s) = false /\
  num_ge (int 0) (durationSeconds s) = false /\ num_lt (int 900) (durationSeconds s) = false /\
  trim (steadyStateProbe s) <> "" /\ trim (rollbackTrigger s) <> "".

Lemma finding_none b s m : note b s m = [] <-> b = false.
Proof. by destruct b. Qed.

Lemma scenario_guarded b s : validateScenario b s = [] <-> guarded b s.
Proof.
  unfold validateScenario, guarded. rewrite !app_nil, !finding_none, !orb_false_iff. unfold falsy. rewrite !bool_decide_eq_false. tauto.
Qed.

(** a blueprint is valid exactly if it targets staging with the required availability
    and latency and all its scenarios are within the guardrails; only then does the
    summary list the scenarios. *)
Theorem blueprint_validated b :
  (valid (validateChaosBlueprint b) = true <->
    environment b = "staging" /\ num_lt (availabilityTargetPercent b) target9999 = false /\
    num_lt (int 100) (criticalPathP99LatencyMs b) = false /\ Forall (guarded b) (scenarios b)) /\
  summarizeChaosReadiness b =
    (if valid (validateChaosBlueprint b) then Ready <$> scenarios b else Problem <$> findings (validateChaosBlueprint b)).
Proof.
  split; [|done]. cbn [valid validateChaosBlueprint]. rewrite bool_decide_eq_true, length_zero_iff_nil, !app_nil, !finding_none, negb_false_iff, String.eqb_eq.
  assert (H : (scenarios b ≫= validateScenario b) = [] <-> Forall (guarded b) (scenarios b)).
  { induction (scenarios b) as [|s l IH]; [by split|]. rewrite bind_cons, app_nil, IH, Forall_cons. by rewrite scenario_guarded. }
  by rewrite H.
Qed.
End Chaos.

Module Examples.
Import Chaos.

Definition signal (s : string) (m : string) : IncidentSignal := mkSignal s "slow" Warning m (int 250) (int 100) None None.

Lemma incident_ids_exact_witness : incidentKey (signal "api" "p99") "r1" <> incidentKey (signal "api" "p50") "r1".
Proof.
  intros E. destruct (incident_ids_exact (signal "api" "p99") "r1" (signal "api" "p50") "r1") as [H _]; [by split_and!..|].
  destruct (H E) as (_ & Hm & _). discriminate Hm.
Defined.

(** Two incidents with one id *)
Example bars_confuse_incidents : incidentKey (signal "api|p99" "x") "r" = incidentKey (signal "api" "p99|x") "r".
Proof. reflexivity. Qed.

(** The default runbook answers every service, for the metrics of latencies. *)
Example default_runbook_matches :
  (fun m => length (filter (fun r => matches (signal "db" m) r = true) defaultIncidentRunbooks)) <$> ["HTTP_Duration"; "errors"] = [1; 0]%nat.
Proof. vm_compute. reflexivity. Qed.

Example default_blueprint_valid : valid (validateChaosBlueprint DEFAULT_STAGING_CHAOS_BLUEPRINT) = true.
Proof. vm_compute. reflexivity. Qed.

(** Guardrails that are not numbers hold nothing back. *)
Example nan_guardrail_passes :
  valid (validateChaosBlueprint (mkBlueprint "staging" target9999 (int 100) NaN
    [mkScenario "all" "api" PodKill (int 100) (int 900) "probe" "trigger"])) = true.
Proof. vm_compute. reflexivity. Qed.
End Examples.
