(* ===== verification/UptimeStore.v ===== *)
(** * Uptime statements ([src/src/database/uptime_queries.ts])

    The statements of the store and the values bound to their parameters.  A statement is
    a list of pieces of text and numbered parameters, as the code puts it together; what
    reaches the database is the statement with each parameter replaced by its value.  The
    text of a date or an object is a parameter.  What the database answers is given back
    as it is.

    [batch_binds_rows]: a batch inserts exactly the rows of its heartbeats, in order.
    [selection_binds]: a selection asks for exactly the nodes, the limit and the offset it
    was given. *)

From Stdlib Require Import ZArith Lia Ascii String.
From stdpp Require Import base numbers list strings.
From S2P Require Import Prelude Js Text Number.
#[local] Open Scope Z_scope.

Inductive HeartbeatStatus := Up | Degraded | Down.
Definition statusName (s : HeartbeatStatus) : string := match s with Up => "up" | Degraded => "degraded" | Down => "down" end.

Record UpsertHeartbeatParams := mkHeartbeat {
  time : Z;
  nodeId : string;
  sourceIp : option string;
  latencyMs : number;
  status : HeartbeatStatus;
  uptimePct : number;
  blockHeight : option number;
  extra : option string
}.

(** A value of a parameter *)
Inductive Value := VNull | VText (s : string) | VNumber (n : number) | VInteger (z : Z).

(** A piece of a statement *)
Inductive Piece := Lit (s : string) | Param (n : Z).
Inductive Bound := BText (s : string) | BValue (v : Value).

Definition Statement : Type := list Piece * list Value.

(** The statement with its values in place; [None] is the refusal of a parameter without a
    value. *)
Definition bindPiece (values : list Value) (p : Piece) : option Bound :=
  match p with
  | Lit s => Some (BText s)
  | Param n => if (0 <? n) then BValue <$> values !! Z.to_nat (n - 1) else None
  end.
Definition bindAll (s : Statement) : option (list Bound) := mapM (bindPiece s.2) s.1.

(** [l.join(sep)] *)
Fixpoint joinPieces (sep : string) (l : list (list Piece)) : list Piece :=
  match l with [] => [] | [x] => x | x :: l' => x ++ Lit sep :: joinPieces sep l' end.
Fixpoint joinBound (sep : string) (l : list (list Bound)) : list Bound :=
  match l with [] => [] | [x] => x | x :: l' => x ++ BText sep :: joinBound sep l' end.

Section store.
Context (toISOString : Z -> string).

Definition valuesOf (hb : UpsertHeartbeatParams) : list Value :=
  [VText (toISOString (time hb)); VText (nodeId hb); match sourceIp hb with Some ip => VText ip | None => VNull end;
   VNumber (latencyMs hb); VText (statusName (status hb)); VNumber (uptimePct hb);
   match blockHeight hb with Some b => VNumber b | None => VNull end;
   match extra hb with Some e => VText e | None => VNull end].

Definition INSERT_HEAD : string :=
  "INSERT INTO uptime_heartbeat (time, node_id, source_ip, latency_ms, status, uptime_pct, block_height, extra) VALUES ".

(** [($1, $2, $3::inet, ...)] *)
Definition placeholders (idx : Z) : list Piece :=
  [Lit "("; Param idx; Lit ", "; Param (idx + 1); Lit ", "; Param (idx + 2); Lit "::inet, "; Param (idx + 3); Lit ", "; Param (idx + 4);
   Lit ", "; Param (idx + 5); Lit ", "; Param (idx + 6); Lit ", "; Param (idx + 7); Lit "::jsonb)"].

Definition insertHeartbeat (hb : UpsertHeartbeatParams) : Statement := (Lit INSERT_HEAD :: placeholders 1, valuesOf hb).

(** The placeholders and values that the loop collects, from index [idx] on *)
Fixpoint collect (idx : Z) (hbs : list UpsertHeartbeatParams) : list (list Piece) * list Value :=
  match hbs with
  | [] => ([], [])
  | hb :: hbs' => let '(ps, vs) := collect (idx + 8) hbs' in (placeholders idx :: ps, valuesOf hb ++ vs)
  end.

(** The statement of the batch, in a transaction of its own; none for an empty batch *)
Definition insertHeartbeatBatch (hbs : list UpsertHeartbeatParams) : option Statement :=
  match hbs with
  | [] => None
  | _ => let '(ps, vs) := collect 1 hbs in Some (Lit INSERT_HEAD :: joinPieces ", " ps, vs)
  end.

(** ** Selections *)

Record QueryParams := mkQuery { nodeIds : option (list string); startTime : Z; endTime : Z; limit : option Z; offset : option Z }.

(** [nodeIds.map(() => `$${paramIdx++}`)] *)
Fixpoint nodeParams (idx : Z) (ids : list string) : list (list Piece) :=
  match ids with [] => [] | _ :: ids' => [Param idx] :: nodeParams (idx + 1) ids' end.

(** The condition on the nodes, its values, and the next free index *)
Definition nodeCondition (o : option (list string)) : list Piece * list Value * Z :=
  match o with
  | Some (n :: ids) =>
      (Lit " AND node_id IN (" :: joinPieces ", " (nodeParams 3 (n :: ids)) ++ [Lit ")"], VText <$> n :: ids, 3 + Z.of_nat (length (n :: ids)))
  | _ => ([], [], 3)
  end.

Definition RAW_HEAD : string :=
  "SELECT time, node_id, source_ip, latency_ms, status, uptime_pct, block_height, extra FROM uptime_heartbeat WHERE time >= ".
Definition HOURLY_HEAD : string :=
  "SELECT bucket, node_id, avg_latency_ms, p50_latency_ms, p95_latency_ms, p99_latency_ms, avg_uptime_pct, heartbeat_count, up_count, degraded_count, down_count FROM uptime_hourly_agg WHERE bucket >= ".
Definition DASHBOARD_HEAD : string :=
  "SELECT node_id, AVG(avg_latency_ms) AS avg_latency_ms, AVG(p50_latency_ms) AS p50_latency_ms, AVG(p95_latency_ms) AS p95_latency_ms, AVG(p99_latency_ms) AS p99_latency_ms, AVG(avg_uptime_pct) AS avg_uptime_pct, SUM(heartbeat_count) AS heartbeat_count, SUM(up_count) AS up_count, SUM(degraded_count) AS degraded_count, SUM(down_count) AS down_count FROM uptime_hourly_agg WHERE bucket >= ".
Definition COUNT_HEAD : string :=
  "SELECT COUNT(DISTINCT node_id)::int AS node_count, MAX(time) AS last_heartbeat, AVG(CASE WHEN status = 'up' THEN 1.0 ELSE 0.0 END) AS up_rate FROM uptime_heartbeat WHERE time >= ".

Definition window (head column : string) : list Piece := [Lit head; Param 1; Lit (" AND " +:+ column +:+ " <= "); Param 2].
Definition times (q : QueryParams) : list Value := [VText (toISOString (startTime q)); VText (toISOString (endTime q))].

(** The statement of a page of rows *)
Definition pageQuery (head column : string) (q : QueryParams) : Statement :=
  let '(cond, ids, idx) := nodeCondition (nodeIds q) in
  (window head column ++ cond ++ [Lit (" ORDER BY " +:+ column +:+ " DESC LIMIT "); Param idx; Lit " OFFSET "; Param (idx + 1)],
   times q ++ ids ++ [VInteger (default 500 (limit q)); VInteger (default 0 (offset q))]).

Definition queryRawHeartbeats (q : QueryParams) : Statement := pageQuery RAW_HEAD "time" q.
Definition queryHourlyAggregates (q : QueryParams) : Statement := pageQuery HOURLY_HEAD "bucket" q.
Definition queryDashboardMetrics (q : QueryParams) : Statement :=
  let '(cond, ids, _) := nodeCondition (nodeIds q) in
  (window DASHBOARD_HEAD "bucket" ++ cond ++ [Lit " GROUP BY node_id ORDER BY avg_latency_ms DESC"], times q ++ ids).
Definition queryNodeConnectionCount (since : Z) : Statement := ([Lit COUNT_HEAD; Param 1], [VText (toISOString since)]).

(** ** What reaches the database *)

(** The row of a heartbeat *)
Definition boundRow (hb : UpsertHeartbeatParams) : list Bound :=
  match valuesOf hb with
  | [t; n; ip; l; s; u; b; e] =>
      [BText "("; BValue t; BText ", "; BValue n; BText ", "; BValue ip; BText "::inet, "; BValue l; BText ", "; BValue s;
       BText ", "; BValue u; BText ", "; BValue b; BText ", "; BValue e; BText "::jsonb)"]
  | _ => []
  end.

Definition binds (vs : list Value) : list Piece -> list Bound -> Prop := Forall2 (fun p b => bindPiece vs p = Some b).

Lemma binds_bindAll st bs : binds st.2 st.1 bs -> bindAll st = Some bs.
Proof. apply mapM_Some_2. Qed.

Lemma binds_join vs sep ps bs : Forall2 (binds vs) ps bs -> binds vs (joinPieces sep ps) (joinBound sep bs).
Proof.
  induction 1 as [|p b ps bs Hp Hs IH]; [constructor|]. destruct Hs as [|p' b' ps bs Hp' Hs]; [done|].
  apply Forall2_app; [done|]. by constructor.
Qed.

(** The parameter of a value, behind others *)
Lemma bind_at pre l i v n : l !! i = Some v -> n = Z.of_nat (length pre) + 1 + Z.of_nat i -> bindPiece (pre ++ l) (Param n) = Some (BValue v).
Proof.
  intros H ->. cbn [bindPiece]. rewrite (proj2 (Z.ltb_lt _ _)) by lia.
  replace (Z.to_nat _) with (length pre + i)%nat by lia. rewrite lookup_app_r by lia. replace (length pre + i - length pre)%nat with i by lia. by rewrite H.
Qed.

Lemma placeholders_bind pre hb post idx : idx = Z.of_nat (length pre) + 1 -> binds (pre ++ valuesOf hb ++ post) (placeholders idx) (boundRow hb).
Proof.
  intros ->. unfold placeholders, boundRow, valuesOf. cbn [app].
  repeat (constructor; [first [reflexivity | (apply (bind_at _ _ 0); [reflexivity|lia]) | (apply (bind_at _ _ 1); [reflexivity|lia])
    | (apply (bind_at _ _ 2); [reflexivity|lia]) | (apply (bind_at _ _ 3); [reflexivity|lia]) | (apply (bind_at _ _ 4); [reflexivity|lia])
    | (apply (bind_at _ _ 5); [reflexivity|lia]) | (apply (bind_at _ _ 6); [reflexivity|lia]) | (apply (bind_at _ _ 7); [reflexivity|lia])]|]).
  constructor.
Qed.

Lemma collect_binds pre hbs idx : idx = Z.of_nat (length pre) + 1 ->
  Forall2 (binds (pre ++ (collect idx hbs).2)) (collect idx hbs).1 (boundRow <$> hbs).
Proof.
  revert pre idx. induction hbs as [|hb hbs IH]; intros pre idx Hi; [constructor|]. cbn [collect].
  specialize (IH (pre ++ valuesOf hb) (idx + 8) ltac:(rewrite length_app; cbn; lia)).
  destruct (collect (idx + 8) hbs) as [ps vs]. cbn in *. constructor; [by apply placeholders_bind|]. by rewrite <- app_assoc in IH.
Qed.

Lemma collect_values idx hbs : (collect idx hbs).2 = hbs ≫= valuesOf.
Proof.
  revert idx. induction hbs as [|hb hbs IH]; intros idx; [done|]. cbn [collect]. specialize (IH (idx + 8)). destruct (collect _ hbs). cbn in *. by rewrite IH.
Qed.

Lemma nodeParams_bind pre ids post idx : idx = Z.of_nat (length pre) + 1 ->
  Forall2 (binds (pre ++ (VText <$> ids) ++ post)) (nodeParams idx ids) ((fun n => [BValue (VText n)]) <$> ids).
Proof.
  revert pre idx. induction ids as [|n ids IH]; intros pre idx Hi; [constructor|]. cbn [nodeParams fmap list_fmap]. constructor.
  - constructor; [|constructor]. apply (bind_at _ _ 0); [reflexivity|lia].
  - specialize (IH (pre ++ [VText n]) (idx + 1) ltac:(rewrite length_app; cbn; lia)). by rewrite <- app_assoc in IH.
Qed.
End store.

Lemma batch_values iso hbs :
  match insertHeartbeatBatch iso hbs with None => hbs = [] | Some st => length st.2 = (8 * length hbs)%nat end.
Proof.
  unfold insertHeartbeatBatch. destruct hbs as [|hb hbs]; [done|]. pose proof (collect_values iso 1 (hb :: hbs)) as Hv.
  destruct (collect iso 1 (hb :: hbs)) as [ps vs]. cbn [snd] in *. rewrite Hv. generalize (hb :: hbs). clear. intros l.
  induction l as [|x l IH]; [done|]. rewrite bind_cons, length_app, IH. cbn [length valuesOf]. lia.
Qed.

(** an empty batch is no statement; the statement of another one inserts exactly the rows
    of its heartbeats, in their order, and has eight values for each. *)
Theorem batch_binds_rows iso hbs :
  match insertHeartbeatBatch iso hbs with
  | None => hbs = []
  | Some st =>
      bindAll st = Some (BText INSERT_HEAD :: joinBound ", " (boundRow iso <$> hbs)) /\
      st.2 = hbs ≫= valuesOf iso /\ length st.2 = (8 * length hbs)%nat
  end.
Proof.
  pose proof (batch_values iso hbs) as Hn. unfold insertHeartbeatBatch in *. destruct hbs as [|hb hbs]; [done|]. set (l := hb :: hbs) in *.
  pose proof (collect_binds iso [] l 1 eq_refl) as H. pose proof (collect_values iso 1 l) as Hv. destruct (collect iso 1 l) as [ps vs]. cbn in H, Hv.
  split; [|by split]. apply binds_bindAll. constructor; [done|]. by apply binds_join.
Qed.

(** The condition on the nodes as the database gets it *)
Definition boundNodes (o : option (list string)) : list Bound :=
  match o with
  | Some (n :: ids) => BText " AND node_id IN (" :: joinBound ", " ((fun n => [BValue (VText n)]) <$> n :: ids) ++ [BText ")"]
  | _ => []
  end.

Lemma nodeCondition_binds iso q post : let '(cond, ids, idx) := nodeCondition (nodeIds q) in
  binds (times iso q ++ ids ++ post) cond (boundNodes (nodeIds q)) /\ idx = 3 + Z.of_nat (length ids).
Proof.
  unfold nodeCondition, boundNodes. destruct (nodeIds q) as [[|n ids]|]; [by split; [constructor|]| |by split; [constructor|]]. split; [|by rewrite length_fmap].
  constructor; [done|]. apply Forall2_app; [|by repeat constructor]. apply binds_join. by apply (nodeParams_bind (times iso q) (n :: ids) post 3).
Qed.

Lemma window_binds iso q head column rest :
  binds (times iso q ++ rest) (window head column)
    [BText head; BValue (VText (iso (startTime q))); BText (" AND " +:+ column +:+ " <= "); BValue (VText (iso (endTime q)))].
Proof. repeat constructor. Qed.

Definition boundWindow iso head column (q : QueryParams) : list Bound :=
  [BText head; BValue (VText (iso (startTime q))); BText (" AND " +:+ column +:+ " <= "); BValue (VText (iso (endTime q)))].

(** a page is asked for with the window, the nodes (all of them if none are given), the
    limit and the offset of the call, 500 and 0 if they are left out; the dashboard with the
    same window and nodes. *)
Theorem selection_binds iso head column q :
  bindAll (pageQuery iso head column q) =
    Some (boundWindow iso head column q ++ boundNodes (nodeIds q) ++
      [BText (" ORDER BY " +:+ column +:+ " DESC LIMIT "); BValue (VInteger (default 500 (limit q)));
       BText " OFFSET "; BValue (VInteger (default 0 (offset q)))]) /\
  bindAll (queryDashboardMetrics iso q) =
    Some (boundWindow iso DASHBOARD_HEAD "bucket" q ++ boundNodes (nodeIds q) ++ [BText " GROUP BY node_id ORDER BY avg_latency_ms DESC"]).
Proof.
  unfold pageQuery, queryDashboardMetrics. pose proof (nodeCondition_binds iso q) as H. destruct (nodeCondition (nodeIds q)) as [[cond ids] idx]. split; apply binds_bindAll; cbn [fst snd].
  - destruct (H [VInteger (default 500 (limit q)); VInteger (default 0 (offset q))]) as [Hc Hi].
    apply Forall2_app; [apply window_binds|]. apply Forall2_app; [done|]. rewrite app_assoc.
    constructor; [done|]. constructor; [apply (bind_at _ _ 0); [done|rewrite length_app; cbn; lia]|].
    constructor; [done|]. constructor; [apply (bind_at _ _ 1); [done|rewrite length_app; cbn; lia]|constructor].
  - destruct (H []) as [Hc Hi]. rewrite app_nil_r in Hc. apply Forall2_app; [apply window_binds|]. apply Forall2_app; [done|]. by repeat constructor.
Qed.

Module Examples.

Definition beat (n : string) : UpsertHeartbeatParams := mkHeartbeat 0 n None (int 5) Up (int 100) None None.

(** No node at all is every node. *)
Example no_nodes_is_all_nodes :
  bindAll (queryRawHeartbeats print_Z (mkQuery (Some []) 0 9 None None)) = bindAll (queryRawHeartbeats print_Z (mkQuery None 0 9 None None)).
Proof. reflexivity. Qed.

(** A batch of 8192 heartbeats has more values than the 65535 that a message to PostgreSQL
    can count. *)
Example large_batch_overflows :
  exists st, insertHeartbeatBatch print_Z (replicate (Z.to_nat 8192) (beat "n")) = Some st /\ 65535 < Z.of_nat (length st.2).
Proof.
  pose proof (batch_values print_Z (replicate (Z.to_nat 8192) (beat "n"))) as H. destruct (insertHeartbeatBatch _ _) as [st|].
  - exists st. split; [done|]. rewrite H, length_replicate. lia.
  - apply (f_equal length) in H. rewrite length_replicate in H. cbn [length] in H. lia.
Qed.
End Examples.
