(* ===== verification/Logger.v ===== *)
(** * Structured logging ([src/src/diagnostics/logger.ts])

    The entries that the methods of a logger write, and where.  The state of the module is
    the name of the service and the cached version; the environment, the active span, the
    clock, the version of the package and the text of a number are arguments.  Objects are insertion-ordered
    maps; the JSON text of an entry is left out, and a stream that throws is ignored by the
    code.

    [entries_carry_attributes]: every attribute of an entry is the one of the call, or
    else that of the logger.
    [children_inherit]: a child has the attributes of its parent under its own module. *)

From Stdlib Require Import ZArith Lia Ascii String.
From stdpp Require Import base numbers list strings.
From S2P Require Import Prelude Js Text Number.
#[local] Open Scope Z_scope.

Inductive SeverityNumber := DEBUG | INFO | WARN | ERROR.
#[export] Instance SeverityNumber_eq_dec : EqDecision SeverityNumber.
Proof. solve_decision. Defined.
Definition severityNumber (s : SeverityNumber) : Z := match s with DEBUG => 5 | INFO => 9 | WARN => 13 | ERROR => 17 end.
Definition SEVERITY_TEXT (s : SeverityNumber) : string :=
  match s with DEBUG => "DEBUG" | INFO => "INFO" | WARN => "WARN" | ERROR => "ERROR" end.

Inductive AttrValue := AText (s : string) | ANumber (n : number) | ABool (b : bool) | AUndefined.
Notation Attributes := (jsmap string AttrValue).

Record SpanContext := mkSpan { traceId : string; spanId : string; traceFlags : Z }.

Record LogEntry := mkEntry {
  timestamp : Z;
  severity : SeverityNumber;
  body : string;
  serviceName : string;
  serviceVersion : string;
  attributes : Attributes;
  span : option SpanContext
}.

(** The state of the module *)
Record Module_ := mkModule { _serviceName : option string; _serviceVersion : option string }.

(** What surrounds a call *)
Record Host := mkHost {
  env : string -> option string;
  activeSpan : option SpanContext;
  now : Z;
  packageVersion : option string;
  numberText : number -> string
}.

Definition DUAL_WRITE_ENABLED (h : Host) : bool :=
  match env h "VERINODE_LOG_DUAL_WRITE" with Some v => String.eqb v "true" || String.eqb v "1" | None => false end.

(** [o || d], also for an absent [o] *)
Definition or_else (o : option string) (d : string) : string := match o with Some s => if falsy s then d else s | None => d end.

Definition resolveServiceName (h : Host) (m : Module_) : string :=
  match _serviceName m with
  | Some s => if falsy s then or_else (trim <$> env h "OTEL_SERVICE_NAME") "verinode-backend" else s
  | None => or_else (trim <$> env h "OTEL_SERVICE_NAME") "verinode-backend"
  end.

(** The version, which is cached; [packageVersion] is [None] if the package has none or
    cannot be read. *)
Definition resolveServiceVersion (h : Host) (m : Module_) : string * Module_ :=
  match _serviceVersion m with
  | Some v => if falsy v then let v := default "unknown" (packageVersion h) in (v, mkModule (_serviceName m) (Some v)) else (v, m)
  | None => let v := default "unknown" (packageVersion h) in (v, mkModule (_serviceName m) (Some v))
  end.

Definition setLoggerServiceName (name : string) (m : Module_) : Module_ := mkModule (Some name) (_serviceVersion m).

(** [{ ...a, ...b }] *)
Definition spread (a b : Attributes) : Attributes := foldl (fun m kv => <[kv.1 := kv.2]> m) a (entries b).

Definition buildEntry (h : Host) (s : SeverityNumber) (text : string) (attrs : Attributes) (m : Module_) : LogEntry * Module_ :=
  let name := resolveServiceName h m in
  let '(version, m') := resolveServiceVersion h m in
  (mkEntry (now h) s text name version attrs (activeSpan h), m').

(** A line of a stream: the entry as JSON, or its legacy text *)
Inductive Output := Structured (e : LogEntry) | Legacy (line : string).

Definition legacyLine (h : Host) (e : LogEntry) : string :=
  "[" +:+ match attributes e !! "module" with Some (AText s) => s | Some (ANumber n) => numberText h n | Some (ABool b) => if b then "true" else "false" | _ => "app" end
    +:+ "] " +:+ body e
    +:+ match span e with
        | Some sp => if falsy (traceId sp) || falsy (spanId sp) then "" else " (trace=" +:+ traceId sp +:+ " span=" +:+ spanId sp +:+ ")"
        | None => ""
        end.

Definition emit (h : Host) (e : LogEntry) : list Output := Structured e :: (if DUAL_WRITE_ENABLED h then [Legacy (legacyLine h e)] else []).

(** ** Loggers *)

Record StructuredLogger := mkLogger { _module : string; _baseAttrs : Attributes }.

Definition new_StructuredLogger (module_ : option string) (attrs : Attributes) : StructuredLogger :=
  let m := default "app" module_ in mkLogger m (<["module" := AText m]> (spread ∅ attrs)).

Definition child (l : StructuredLogger) (module_ : string) (attrs : Attributes) : StructuredLogger :=
  new_StructuredLogger (Some module_) (spread (_baseAttrs l) attrs).

Definition createLogger (module_ : string) (attrs : Attributes) : StructuredLogger := new_StructuredLogger (Some module_) attrs.
Definition defaultLogger : StructuredLogger := new_StructuredLogger (Some "app") ∅.

(** An argument after the message *)
Inductive Arg := AnError (message name : string) (stack : option string) | AnObject (o : Attributes) | Another.

Definition errorAttrs (attrs : Attributes) (a : Arg) : Attributes :=
  match a with
  | AnError m n s => <["error.stack" := AText (default "" s)]> (<["error.type" := AText n]> (<["error.message" := AText m]> attrs))
  | _ => attrs
  end.

(** The attributes of the arguments; the body is the text of the message. *)
Definition resolveArgs (args : list Arg) : Attributes :=
  match args with
  | [AnObject o] => o
  | _ => foldl errorAttrs ∅ args
  end.

(** Every method, by its severity *)
Definition _emit (h : Host) (l : StructuredLogger) (s : SeverityNumber) (text : string) (extra : Attributes) (m : Module_) : list Output * Module_ :=
  let '(e, m') := buildEntry h s text (spread (_baseAttrs l) extra) m in (emit h e, m').

Inductive LogCall := Log (message : string) (args : list Arg) | Warn (message : string) (args : list Arg) | Error_ (message : string) (args : list Arg)
  | Debug_ (message : string) (attrs : Attributes) | Info_ (message : string) (attrs : Attributes).

Definition severityOf (c : LogCall) : SeverityNumber :=
  match c with Log _ _ | Info_ _ _ => INFO | Warn _ _ => WARN | Error_ _ _ => ERROR | Debug_ _ _ => DEBUG end.
Definition messageOf (c : LogCall) : string :=
  match c with Log m _ | Warn m _ | Error_ m _ | Debug_ m _ | Info_ m _ => m end.
Definition attrsOf (c : LogCall) : Attributes :=
  match c with Log _ args | Warn _ args | Error_ _ args => resolveArgs args | Debug_ _ a | Info_ _ a => a end.

Definition log (h : Host) (l : StructuredLogger) (c : LogCall) (m : Module_) : list Output * Module_ :=
  _emit h l (severityOf c) (messageOf c) (attrsOf c) m.

(** ** Attributes *)

Lemma spread_lookup a b k : map_wf b -> spread a b !! k = match b !! k with Some v => Some v | None => a !! k end.
Proof.
  destruct b as [l]. unfold map_wf, map_keys, spread. cbn [entries]. revert a. induction l as [|[k' v] l IH]; intros a Hn; [done|].
  apply NoDup_cons in Hn as [Hk Hn]. cbn [foldl fst snd]. rewrite IH by done. change (JsMap ((k', v) :: l) !! k) with (assoc_get k ((k', v) :: l)).
  change (JsMap l !! k) with (assoc_get k l). cbn [assoc_get]. rewrite jsmap_lookup_insert.
  destruct (decide (k' = k)) as [->|Hne].
  - rewrite (proj2 (assoc_get_None l k)) by done. case_decide; [done|congruence].
  - destruct (assoc_get k l) eqn:E; case_decide; try congruence; done.
Qed.

Lemma spread_wf a b : map_wf a -> map_wf (spread a b).
Proof. unfold spread. generalize (entries b). intros l. revert a. induction l as [|[k v] l IH]; intros a H; [done|]. cbn. apply IH. by apply map_wf_insert. Qed.

Lemma new_logger_lookup m attrs k : map_wf attrs ->
  _baseAttrs (new_StructuredLogger m attrs) !! k = if decide (k = "module") then Some (AText (default "app" m)) else attrs !! k.
Proof.
  intros Hw. unfold new_StructuredLogger. cbn [_baseAttrs]. rewrite jsmap_lookup_insert. destruct (decide (k = "module")) as [->|Hne].
  - by rewrite decide_True.
  - rewrite decide_False by congruence. rewrite spread_lookup by done. by destruct (attrs !! k).
Qed.

(** a call writes one entry of its severity and message, with the span that is active;
    an attribute is that of the call, or else that of the logger.  With dual writing a
    line of text follows. *)
Theorem entries_carry_attributes h l c m : map_wf (attrsOf c) ->
  exists e, (log h l c m).1 = Structured e :: (if DUAL_WRITE_ENABLED h then [Legacy (legacyLine h e)] else []) /\
    severity e = severityOf c /\ body e = messageOf c /\ span e = activeSpan h /\ serviceName e = resolveServiceName h m /\
    forall k, attributes e !! k = match attrsOf c !! k with Some v => Some v | None => _baseAttrs l !! k end.
Proof.
  intros Hw. unfold log, _emit, buildEntry. destruct (resolveServiceVersion h m) as [v m'] eqn:E. eexists. split; [reflexivity|].
  cbn [severity body span serviceName attributes]. split_and!; [done..|]. intros k. by apply spread_lookup.
Qed.

(** a child has its own module and, under every other name, the attribute it is given or
    else that of its parent. *)
Theorem children_inherit l module_ attrs k : map_wf (_baseAttrs l) -> map_wf attrs ->
  _baseAttrs (child l module_ attrs) !! k =
    if decide (k = "module") then Some (AText module_)
    else match attrs !! k with Some v => Some v | None => _baseAttrs l !! k end.
Proof.
  intros Hl Ha. unfold child. rewrite new_logger_lookup by (by apply spread_wf). by rewrite spread_lookup.
Qed.

(** The version is read once. *)
Lemma version_cached h h' m : let '(v, m') := resolveServiceVersion h m in v <> "" -> (resolveServiceVersion h' m').1 = v.
Proof.
  unfold resolveServiceVersion. destruct (_serviceVersion m) as [v|] eqn:E.
  - destruct (falsy v) eqn:F; cbn; unfold falsy in *.
    + intros H. by rewrite bool_decide_eq_false_2.
    + intros H. by rewrite E, bool_decide_eq_false_2.
  - cbn. intros H. unfold falsy. by rewrite bool_decide_eq_false_2.
Qed.

Module Examples.

Definition host (name : string) : Host := mkHost (fun k => if String.eqb k "OTEL_SERVICE_NAME" then Some name else None) None 0 (Some "1.0.0") (fun _ => "7").
Definition fresh : Module_ := mkModule None None.
Definition obj (l : list (string * AttrValue)) : Attributes := JsMap l.

Definition written (o : list Output * Module_) : option LogEntry := match o.1 with Structured e :: _ => Some e | _ => None end.

Lemma entries_carry_attributes_witness :
  (fun e => attributes e !! "k") <$> written (log (host "svc") (createLogger "db" (obj [("k", ABool true)])) (Info_ "hi" (obj [("k", ABool false)])) fresh)
  = Some (Some (ABool false)).
Proof.
  destruct (entries_carry_attributes (host "svc") (createLogger "db" (obj [("k", ABool true)])) (Info_ "hi" (obj [("k", ABool false)])) fresh) as (e & E & _ & _ & _ & _ & H).
  - apply (bool_decide_unpack _). vm_compute. reflexivity.
  - unfold written. rewrite E. cbn [fmap option_fmap option_map]. rewrite (H "k"). reflexivity.
Defined.

Lemma children_inherit_witness : _baseAttrs (child defaultLogger "tls" (obj [("k", ABool true)])) !! "module" = Some (AText "tls").
Proof. rewrite (children_inherit defaultLogger "tls" (obj [("k", ABool true)]) "module"); [reflexivity|apply (bool_decide_unpack _); vm_compute; reflexivity..]. Defined.

(** An attribute of the call can take the place of the module. *)
Example module_can_be_replaced :
  (fun e => attributes e !! "module") <$> written (log (host "svc") (createLogger "db" ∅) (Info_ "hi" (obj [("module", AText "tls")])) fresh) = Some (Some (AText "tls")).
Proof. vm_compute. reflexivity. Qed.

(** Of an error and its context only the error is written. *)
Example context_of_error_dropped :
  (fun e => map_keys (attributes e)) <$> written (log (host "svc") (createLogger "db" ∅) (Error_ "failed" [AnError "boom" "Error" None; AnObject (obj [("node.id", AText "n1")])]) fresh)
  = Some ["module"; "error.message"; "error.type"; "error.stack"].
Proof. vm_compute. reflexivity. Qed.

(** The name of the service is not cached. *)
Example name_follows_environment :
  serviceName <$> written (log (host "b") (createLogger "db" ∅) (Info_ "2" ∅) (log (host "a") (createLogger "db" ∅) (Info_ "1" ∅) fresh).2) = Some "b".
Proof. vm_compute. reflexivity. Qed.
End Examples.
