(* ===== verification/Tracing.v ===== *)
(** * Tracing ([src/src/diagnostics/tracer.ts])

    The module of the tracer: its settings from the environment or the configuration, one
    initialisation, the shutdown with its await, and the processor that counts spans.  The
    SDK is its identity: whether it starts is an argument, [asked] lists those that were
    asked to shut down.  Environments and package versions are those of the [Host] of a
    call; the log of errors of spans is left out.

    [configuration_kept]: between an initialisation and the next shutdown the reported
    settings stay those resolved first, whatever is called and however the environment
    changes.
    [no_sdk_left_running]: unless shutdowns overlap, every SDK that was started is the
    current one or was asked to shut down.
    [environment_ratio_bounded]: a ratio from the environment is from 0 to 1. *)

From Stdlib Require Import ZArith Lia Lqa Ascii String QArith.
From stdpp Require Import base numbers list strings.
From S2P Require Import Prelude Js Text Number Doubles Config Logger.
#[local] Open Scope Z_scope.

(** ** [parseFloat(s)] *)

(** The exponent that may follow a mantissa *)
Definition exponentPrefix (s : string) : Z :=
  match s with
  | String c s' =>
      if bool_decide (c = "e"%char) || bool_decide (c = "E"%char) then
        let '(negative, t) := match s' with String "-" t => (true, t) | String "+" t => (false, t) | _ => (false, s') end in
        let '(ds, _) := span_digits t in
        if falsy ds then 0 else if negative then - digits_value ds else digits_value ds
      else 0
  | EmptyString => 0
  end.

Definition unsignedFloat (s : string) : number :=
  match stripPrefix "Infinity" s with
  | Some _ => Infinite false
  | None =>
      let '(whole, r1) := span_digits s in
      let '(frac, r2) := match r1 with String "." r => span_digits r | _ => ("", r1) end in
      if falsy whole && falsy frac then NaN
      else
        let k := exponentPrefix r2 - Z.of_nat (String.length frac) in
        to_double (Qmake (digits_value (whole +:+ frac) * 10 ^ Z.max 0 k) (Z.to_pos (10 ^ Z.max 0 (- k))))
  end.

Definition parseFloat (s : string) : number :=
  match trimStart s with
  | String "-" t => num_neg (unsignedFloat t)
  | String "+" t => unsignedFloat t
  | t => unsignedFloat t
  end.

(** ** Settings *)

Definition DEFAULT_SERVICE_NAME : string := "verinode-backend".
Definition DEFAULT_EXPORTER_ENDPOINT : string := "http://otel-collector:4317".
Definition DEFAULT_SAMPLER_RATIO : number := to_double (1 # 100).
Definition DEPLOYMENT_ENV_FALLBACK : string := "development".

(** [process.env.X?.trim()] *)
Definition envTrim (h : Host) (k : string) : option string := trim <$> env h k.

Definition readPackageVersion (h : Host) : string := default "unknown" (packageVersion h).
Definition resolveEndpoint (h : Host) : string :=
  or_else (envTrim h "OTEL_EXPORTER_OTLP_ENDPOINT") (or_else (envTrim h "OTEL_EXPORTER_OTLP_TRACES_ENDPOINT") DEFAULT_EXPORTER_ENDPOINT).
Definition resolveName (h : Host) : string := or_else (envTrim h "OTEL_SERVICE_NAME") DEFAULT_SERVICE_NAME.
Definition resolveVersion (h : Host) : string := or_else (envTrim h "OTEL_SERVICE_VERSION") (readPackageVersion h).
Definition resolveSamplerRatio (h : Host) : number :=
  let raw := or_else (envTrim h "OTEL_TRACES_SAMPLER_ARG") (default "" (envTrim h "OTEL_SAMPLING_RATIO")) in
  if falsy raw then DEFAULT_SAMPLER_RATIO
  else let f := parseFloat raw in
       if isFinite f then num_min (int 1) (num_max (int 0) f) else DEFAULT_SAMPLER_RATIO.
Definition resolveDeploymentEnv (h : Host) : string :=
  or_else (envTrim h "DEPLOYMENT_ENVIRONMENT")
    (or_else (envTrim h "OTEL_DEPLOYMENT_ENVIRONMENT") (or_else (envTrim h "NODE_ENV") DEPLOYMENT_ENV_FALLBACK)).

Record OtelConfig := mkOtel {
  enabled : option bool;
  endpoint : option string;
  o_serviceName : option string;
  o_serviceVersion : option string;
  samplingRatio : option number;
  deploymentEnvironment : option string
}.

Record Settings := mkSettings { s_name : string; s_version : string; s_ratio : number; s_endpoint : string; s_environment : string }.

Definition settingsOfEnv (h : Host) : Settings :=
  mkSettings (resolveName h) (resolveVersion h) (resolveSamplerRatio h) (resolveEndpoint h) (resolveDeploymentEnv h).
Definition settingsOfConfig (c : OtelConfig) (h : Host) : Settings :=
  mkSettings (or_else (trim <$> o_serviceName c) (resolveName h)) (or_else (trim <$> o_serviceVersion c) (resolveVersion h))
    (default (resolveSamplerRatio h) (samplingRatio c)) (or_else (trim <$> endpoint c) (resolveEndpoint h))
    (or_else (deploymentEnvironment c) (resolveDeploymentEnv h)).

(** ** The module *)

(** The resource of an SDK: service, version and environment *)
Record Resource := mkResource { r_name : string; r_version : string; r_environment : string }.

Record Tracer := mkTracer {
  sdk : option nat;
  queueProcessor : option Z;
  initialized : bool;
  configured : option Settings;
  loggerModule : Module_;
  started : list (nat * Resource * number);
  asked : list nat;
  closing : list nat
}.

Definition new_Tracer (m : Module_) : Tracer := mkTracer None None false None m [] [] [].

(** The five variables [configuredX] are set and cleared together. *)
Definition configure (s : option Settings) (t : Tracer) : Tracer :=
  mkTracer (sdk t) (queueProcessor t) (initialized t) s (loggerModule t) (started t) (asked t) (closing t).
Definition stopped_ (b : bool) (t : Tracer) : Tracer := mkTracer None None b (configured t) (loggerModule t) (started t) (asked t) (closing t).

Record TraceConfig := mkTraceConfig { t_settings : Settings; queueDepth : Z; t_initialized : bool }.

Definition getTraceConfig (h : Host) (t : Tracer) : TraceConfig :=
  let o (f : Settings -> string) := f <$> configured t in
  mkTraceConfig
    (mkSettings (or_else (o s_name) (resolveName h)) (or_else (o s_version) (resolveVersion h))
       (default (resolveSamplerRatio h) (s_ratio <$> configured t)) (or_else (o s_endpoint) (resolveEndpoint h))
       (or_else (o s_environment) (resolveDeploymentEnv h)))
    (default 0 (queueProcessor t)) (initialized t).

Definition sdkDisabled (h : Host) (disabled : bool) : bool := bool_decide (env h "OTEL_SDK_DISABLED" = Some "true") || disabled.

(** The common part of both initialisations: [starts] tells whether the SDK can be built and
    started. *)
Definition initWith (h : Host) (disabled starts : bool) (s : Settings) (r : Resource) (t : Tracer) : Tracer * option TraceConfig :=
  if initialized t then (t, Some (getTraceConfig h t))
  else
    let t1 := configure (Some s) t in
    if sdkDisabled h disabled then
      let t2 := mkTracer (sdk t1) (queueProcessor t1) true (configured t1) (loggerModule t1) (started t1) (asked t1) (closing t1) in
      (t2, Some (getTraceConfig h t2))
    else if starts then
      let id := length (started t1) in
      let t2 := mkTracer (Some id) (Some 0) true (configured t1) (setLoggerServiceName (s_name s) (loggerModule t1))
                  (started t1 ++ [(id, r, s_ratio s)]) (asked t1) (closing t1) in
      (t2, Some (getTraceConfig h t2))
    else (stopped_ false t1, None).

Definition initTracing (h : Host) (disabled starts : bool) (t : Tracer) : Tracer * option TraceConfig :=
  initWith h disabled starts (settingsOfEnv h) (mkResource (resolveName h) (resolveVersion h) (resolveDeploymentEnv h)) t.

(** The environment of the resource is [deploymentEnvironment ?? resolveDeploymentEnv()]. *)
Definition initTracingFromConfig (c : OtelConfig) (h : Host) (disabled starts : bool) (t : Tracer) : Tracer * option TraceConfig :=
  let s := settingsOfConfig c h in
  initWith h disabled starts s (mkResource (s_name s) (s_version s) (default (resolveDeploymentEnv h) (deploymentEnvironment c))) t.

(** [shutdownTracing] up to its await *)
Definition shutdownTracing (t : Tracer) : Tracer :=
  match sdk t with
  | None => stopped_ false (configure None t)
  | Some id => mkTracer (Some id) (queueProcessor t) (initialized t) None (loggerModule t) (started t) (asked t ++ [id]) (closing t ++ [id])
  end.

(** And from there, when the shutdown of the SDK [id] has ended, well or not *)
Definition shutdownEnded (id : nat) (t : Tracer) : Tracer :=
  if bool_decide (id ∈ closing t) then
    mkTracer None None false (configured t) (loggerModule t) (started t) (asked t) (filter (fun i => i <> id) (closing t))
  else t.

(** [QueueDepthSpanProcessor] *)
Definition onStart (depth : Z) : Z := depth + 1.
Definition onEnd (depth : Z) : Z := Z.max 0 (depth - 1).
Definition onQueue (f : Z -> Z) (t : Tracer) : Tracer :=
  mkTracer (sdk t) (f <$> queueProcessor t) (initialized t) (configured t) (loggerModule t) (started t) (asked t) (closing t).

Inductive Event :=
| Init (h : Host) (disabled starts : bool)
| InitFromConfig (c : OtelConfig) (h : Host) (disabled starts : bool)
| Shutdown | ShutdownEnded (id : nat)
| SpanStarted | SpanEnded | ProcessorShutdown.

Definition tracerStep (t : Tracer) (e : Event) : Tracer :=
  match e with
  | Init h d s => (initTracing h d s t).1
  | InitFromConfig c h d s => (initTracingFromConfig c h d s t).1
  | Shutdown => shutdownTracing t
  | ShutdownEnded id => shutdownEnded id t
  | SpanStarted => onQueue onStart t
  | SpanEnded => onQueue onEnd t
  | ProcessorShutdown => onQueue (fun _ => 0) t
  end.
Definition tracerRun (t : Tracer) (es : list Event) : Tracer := foldl tracerStep t es.

(** ** The configuration is kept *)

(** Settings whose texts are not empty *)
Definition complete (s : Settings) : Prop := s_name s <> "" /\ s_version s <> "" /\ s_endpoint s <> "" /\ s_environment s <> "".

Lemma or_else_nonempty o d : d <> "" -> or_else o d <> "".
Proof. destruct o as [s|]; [|done]. unfold or_else, falsy. by case_bool_decide. Qed.

Lemma or_else_set s d : s <> "" -> or_else (Some s) d = s.
Proof. intros H. unfold or_else, falsy. by rewrite bool_decide_eq_false_2. Qed.

Lemma settingsOfEnv_complete h : packageVersion h <> Some "" -> complete (settingsOfEnv h).
Proof.
  intros H. unfold complete, settingsOfEnv, resolveName, resolveVersion, resolveEndpoint, resolveDeploymentEnv. cbn [s_name s_version s_endpoint s_environment].
  split_and!; repeat apply or_else_nonempty; try done. unfold readPackageVersion. destruct (packageVersion h) as [v|]; [|done]. cbn. congruence.
Qed.

Lemma settingsOfConfig_complete c h : packageVersion h <> Some "" -> complete (settingsOfConfig c h).
Proof.
  intros H. destruct (settingsOfEnv_complete h H) as (H1 & H2 & H3 & H4). unfold complete, settingsOfConfig. cbn [s_name s_version s_endpoint s_environment].
  split_and!; by apply or_else_nonempty.
Qed.

Lemma reported_settings h t s : configured t = Some s -> complete s -> t_settings (getTraceConfig h t) = s.
Proof. intros E (H1 & H2 & H3 & H4). unfold getTraceConfig. rewrite E. cbn [t_settings default from_option fmap option_fmap option_map]. rewrite !or_else_set by done. by destruct s. Qed.

(** Initialised with the settings, and no shutdown under way *)
Definition up (s : Settings) (t : Tracer) : Prop := initialized t = true /\ configured t = Some s /\ closing t = [].

Lemma initWith_up h d b s r s0 t : up s0 t -> (initWith h d b s r t).1 = t.
Proof. intros (H & _). unfold initWith. by rewrite H. Qed.

Lemma step_up s t e : e <> Shutdown -> up s t -> up s (tracerStep t e).
Proof.
  intros He Hu. destruct e as [h d b|c h d b| |id| | |]; cbn [tracerStep]; try done.
  - unfold initTracing. by erewrite initWith_up.
  - unfold initTracingFromConfig. by erewrite initWith_up.
  - unfold shutdownEnded. destruct Hu as (H1 & H2 & H3). rewrite H3. case_bool_decide as H; [by apply elem_of_nil in H|]. by split_and!.
Qed.

Lemma initWith_makes_up h d b s r t t' c : initialized t = false -> closing t = [] -> initWith h d b s r t = (t', Some c) -> up s t'.
Proof.
  intros Hi Hc E. unfold initWith in E. rewrite Hi in E. destruct (sdkDisabled h d); [injection E as <- _; by split_and!|].
  destruct b; [injection E as <- _; by split_and!|done].
Qed.

(** an initialisation of an idle tracer that returns a configuration returns the
    settings resolved from its environment, or from the configuration it is given before
    that; and until the next shutdown these are reported in every environment. *)
Theorem configuration_kept h d b (o : option OtelConfig) t t' c es h' :
  initialized t = false -> closing t = [] -> packageVersion h <> Some "" ->
  (match o with Some cfg => initTracingFromConfig cfg h d b t | None => initTracing h d b t end) = (t', Some c) ->
  Forall (fun e => e <> Shutdown) es ->
  let s := match o with Some cfg => settingsOfConfig cfg h | None => settingsOfEnv h end in
  t_settings c = s /\ t_settings (getTraceConfig h' (tracerRun t' es)) = s /\ initialized (tracerRun t' es) = true.
Proof.
  intros Hi Hc Hv E Hes s. assert (Hs : complete s) by (destruct o; [by apply settingsOfConfig_complete|by apply settingsOfEnv_complete]).
  assert (Hu : up s t' /\ c = getTraceConfig h t').
  { destruct o as [cfg|]; unfold initTracingFromConfig, initTracing in E; (split; [by eapply initWith_makes_up|]);
      unfold initWith in E; rewrite Hi in E; (destruct (sdkDisabled h d); [by injection E as <- <-|]); (destruct b; [by injection E as <- <-|done]). }
  destruct Hu as [Hu ->]. split; [apply reported_settings; [apply Hu|done]|].
  assert (Hr : up s (tracerRun t' es)).
  { clear - Hes Hu. revert t' Hu. induction Hes as [|e es He _ IH]; intros t Hu; [done|]. cbn. by apply IH, step_up. }
  split; [apply reported_settings; [apply Hr|done]|apply Hr].
Qed.

(** ** No SDK is left running *)

(** Shutdowns that do not overlap: none begins while one is under way. *)
Fixpoint apart (t : Tracer) (es : list Event) : Prop :=
  match es with
  | [] => True
  | e :: es' => (e = Shutdown -> closing t = []) /\ apart (tracerStep t e) es'
  end.

Record Inv (t : Tracer) : Prop := {
  inv_started : forall id, id ∈ (started t).*1.*1 -> id ∈ asked t \/ sdk t = Some id;
  inv_closing : forall id, id ∈ closing t -> sdk t = Some id /\ id ∈ asked t;
  inv_down : initialized t = false -> sdk t = None
}.

Lemma initWith_inv h d b s r t : Inv t -> Inv (initWith h d b s r t).1.
Proof.
  intros Hi. pose proof Hi as [H1 H2 H3]. unfold initWith. destruct (initialized t) eqn:Ei; [done|]. specialize (H3 eq_refl).
  destruct (sdkDisabled h d); [by split|]. destruct b.
  - split; cbn; [|intros id Hid; apply H2 in Hid; destruct Hid as [Hid _]; congruence|done].
    intros id. rewrite !fmap_app. cbn. rewrite elem_of_app, list_elem_of_singleton. intros [Hid| ->]; [|by right].
    apply H1 in Hid as [|Hid]; [by left|congruence].
  - split; cbn; [|intros id Hid; apply H2 in Hid; destruct Hid; congruence|done].
    intros id Hid. apply H1 in Hid as [|Hid]; [by left|congruence].
Qed.

Lemma tracer_step_inv t e : (e = Shutdown -> closing t = []) -> Inv t -> Inv (tracerStep t e).
Proof.
  intros He Hi. destruct e as [h d b|c h d b| |id| | |]; cbn [tracerStep]; try (destruct Hi as [H1 H2 H3]; by split).
  - by apply initWith_inv.
  - by apply initWith_inv.
  - destruct Hi as [H1 H2 H3]. specialize (He eq_refl). unfold shutdownTracing. destruct (sdk t) as [i|] eqn:Es.
    + split; cbn.
      * intros id Hid. destruct (H1 id Hid) as [?|[= <-]]; [left|]; [|by right]. apply elem_of_app. by left.
      * intros id. rewrite He. cbn. rewrite list_elem_of_singleton. intros ->. split; [done|]. apply elem_of_app. right. by left.
      * intros Hn. by apply H3 in Hn.
    + split; cbn; [|intros id Hid; by apply H2 in Hid as [? _]|done]. intros id Hid. by destruct (H1 id Hid); [left|].
  - destruct Hi as [H1 H2 H3]. unfold shutdownEnded. case_bool_decide as Hc; [|by split]. destruct (H2 id Hc) as [Es Ha]. split; cbn; [| |done].
    + intros i Hid. destruct (H1 i Hid) as [?|E]; [by left|]. left. congruence.
    + intros i [Hne Hin]%list_elem_of_filter. apply H2 in Hin as [E _]. congruence.
Qed.

(** unless a shutdown begins while another one is under way, every SDK that was started is
    the current one or was asked to shut down; after a last shutdown none is left. *)
Theorem no_sdk_left_running m es : let t := tracerRun (new_Tracer m) es in
  apart (new_Tracer m) es ->
  (forall id, id ∈ (started t).*1.*1 -> id ∈ asked t \/ sdk t = Some id) /\
  (initialized t = false -> forall id, id ∈ (started t).*1.*1 -> id ∈ asked t).
Proof.
  intros t Ha. assert (Hi : Inv t).
  { unfold t. assert (H0 : Inv (new_Tracer m)) by (split; cbn; [by intros id ?%elem_of_nil|by intros id ?%elem_of_nil|done]).
    revert Ha H0. generalize (new_Tracer m). induction es as [|e es IH]; intros t0 Ha H0; [done|]. cbn. destruct Ha as [He Ha]. by apply IH, tracer_step_inv. }
  split; [apply Hi|]. intros Hn id Hid. destruct (inv_started _ Hi id Hid) as [|E]; [done|]. by rewrite (inv_down _ Hi Hn) in E.
Qed.

(** ** Ratios and spans *)

Lemma default_ratio_unit : in_range 0 1 DEFAULT_SAMPLER_RATIO.
Proof. apply in_range_to_double; [done|done| |]; by apply Qle_bool_iff. Qed.

(** the ratio of samples from the environment is from 0 to 1, whatever is set there. *)
Theorem environment_ratio_bounded h : in_range 0 1 (s_ratio (settingsOfEnv h)).
Proof.
  cbn. unfold resolveSamplerRatio. destruct (falsy _); [apply default_ratio_unit|]. destruct (parseFloat _) as [q| |]; [|apply default_ratio_unit..].
  cbn [isFinite num_max num_ge int]. destruct (Qle_bool q (inject_Z 0)) eqn:E0; cbn [num_min num_ge].
  - cbn. exists (inject_Z 0). split; [done|]. split; [apply Qle_refl|]. by apply Qle_bool_iff.
  - apply not_true_iff_false in E0. rewrite Qle_bool_iff in E0. apply Qnot_le_lt, Qlt_le_weak in E0.
    change (num_min (int 1) (Finite q)) with (if Qle_bool q (inject_Z 1) then Finite q else int 1).
    destruct (Qle_bool q (inject_Z 1)) eqn:E1.
    + rewrite Qle_bool_iff in E1. by exists q.
    + exists (inject_Z 1). split; [done|]. split; [by apply Qle_bool_iff|apply Qle_refl].
Qed.

(** The queue counts the open spans. *)
Lemma queue_counts_spans (l : list bool) : (forall k, (Z.of_nat (length (filter (fun b => b = false) (take k l))) <= Z.of_nat (length (filter (fun b => b = true) (take k l))))) ->
  foldl (fun d (b : bool) => if b then onStart d else onEnd d) 0 l =
    Z.of_nat (length (filter (fun b => b = true) l)) - Z.of_nat (length (filter (fun b => b = false) l)).
Proof.
  induction l as [|b l IH] using rev_ind; intros H; [done|]. rewrite foldl_app, !filter_app, !length_app. cbn [foldl].
  pose proof (H (length (l ++ [b]))) as Hl. rewrite take_ge, !filter_app, !length_app in Hl by lia.
  rewrite IH; [|intros k; destruct (decide (k <= length l)%nat); [specialize (H k); rewrite take_app_le in H by done; done|
    specialize (H (length l)); rewrite take_app_le, take_ge in H by lia; rewrite take_ge by lia; done]].
  unfold onStart, onEnd. destruct b; cbn in *; repeat case_decide; try done; cbn in *; lia.
Qed.

Module Examples.

Definition host (l : list (string * string)) : Host := mkHost (fun k => assoc_get k l) None 0 (Some "1.0.0") (fun _ => "").
Definition fresh : Tracer := new_Tracer (mkModule None None).
Definition cfg (on : option bool) (ratio : option number) : OtelConfig := mkOtel on (Some "http://c:1") (Some "svc") None ratio None.

Lemma configuration_kept_witness :
  s_name (t_settings (getTraceConfig (host [("OTEL_SERVICE_NAME", "other")])
    (tracerRun (initTracingFromConfig (cfg None None) (host []) false true fresh).1 [Init (host []) false true; SpanStarted]))) = "svc".
Proof.
  destruct (configuration_kept (host []) false true (Some (cfg None None)) fresh (initTracingFromConfig (cfg None None) (host []) false true fresh).1
    (default (getTraceConfig (host []) fresh) (initTracingFromConfig (cfg None None) (host []) false true fresh).2)
    [Init (host []) false true; SpanStarted] (host [("OTEL_SERVICE_NAME", "other")])) as (_ & E & _);
    [reflexivity|reflexivity|discriminate|reflexivity|repeat constructor; discriminate|].
  rewrite E. reflexivity.
Defined.

Lemma no_sdk_left_running_witness :
  asked (tracerRun fresh [Init (host []) false true; Shutdown; ShutdownEnded 0; Init (host []) false true; Shutdown; ShutdownEnded 1]) = [0; 1]%nat.
Proof.
  destruct (no_sdk_left_running (mkModule None None) [Init (host []) false true; Shutdown; ShutdownEnded 0; Init (host []) false true; Shutdown; ShutdownEnded 1]) as [_ H].
  - vm_compute. by repeat split.
  - pose proof (H eq_refl 0%nat) as _. reflexivity.
Defined.

(** Two shutdowns that overlap: the second ends after a new start, and the new SDK is
    forgotten while it runs. *)
Example forgotten_sdk :
  let t := tracerRun fresh [Init (host []) false true; Shutdown; Shutdown; ShutdownEnded 0; Init (host []) false true] in
  (sdk t, asked t) = (Some 1, [0; 0])%nat.
Proof. vm_compute. reflexivity. Qed.

(** A configuration that is not enabled is initialised all the same. *)
Example not_enabled_starts : sdk (initTracingFromConfig (cfg (Some false) None) (host []) false true fresh).1 = Some 0%nat.
Proof. vm_compute. reflexivity. Qed.

(** A ratio of the configuration is not bounded. *)
Example ratio_out_of_range : (s_ratio ∘ t_settings <$> (initTracingFromConfig (cfg None (Some (int 5))) (host []) false true fresh).2) = Some (int 5).
Proof. vm_compute. reflexivity. Qed.

(** After a failed start its settings go on being reported. *)
Example failed_settings_reported :
  let t := (initTracingFromConfig (cfg None None) (host []) false false fresh).1 in
  (initialized t, s_endpoint (t_settings (getTraceConfig (host []) t))) = (false, "http://c:1").
Proof. vm_compute. reflexivity. Qed.

(** A shutdown that is under way already reports other settings, and an initialisation then
    does nothing. *)
Example shutdown_forgets_early :
  let t := tracerRun (initTracingFromConfig (cfg None None) (host []) false true fresh).1 [Shutdown; Init (host []) false true] in
  (initialized t, s_name (t_settings (getTraceConfig (host []) t))) = (true, "verinode-backend").
Proof. vm_compute. reflexivity. Qed.

Example floats : parseFloat <$> ["abc"; "."; "-"] = [NaN; NaN; NaN] /\
  (fun p => num_eqb (parseFloat p.1) p.2) <$> [("0.5x", Finite (1 # 2)); (" 1e1", int 10); ("-.25e", Finite (-1 # 4)); ("Infinityx", Infinite false)] = [true; true; true; true].
Proof. vm_compute. split; reflexivity. Qed.
End Examples.
