(* ===== verification/ScrapeMetrics.v ===== *)
(** * Scraped metrics ([src/src/api/metrics/prometheus.ts])

    The collectors of request durations and sizes, of threads and of pools, and what they
    render, as lines of labels and numbers; the text of a line is left out.  The entries of
    [/proc] and the numbers of the runtime are arguments.

    [records_kept]: the collector keeps the last 10000 records.
    [histograms_exact]: every combination of labels that was recorded has one block of
    lines, whose buckets count exactly the records within them. *)

From Stdlib Require Import ZArith Lia Ascii String QArith Sorted.
From stdpp Require Import base numbers list strings.
From S2P Require Import Prelude Js Text Number Doubles.
#[local] Open Scope Z_scope.

Record Exemplar := mkExemplar { traceId : string; e_value : number }.

Record HttpRecord := mkRecord {
  route : string;
  method : string;
  statusCode : string;
  durationS : number;
  responseSizeBytes : number;
  exemplar : option Exemplar
}.

Definition tenths (n : Z) (d : positive) : number := to_double (n # d).
Definition HTTP_DURATION_BUCKETS : list number :=
  [tenths 1 1000; tenths 5 1000; tenths 1 100; tenths 25 1000; tenths 5 100; tenths 1 10; tenths 25 100; tenths 5 10; int 1; tenths 25 10; int 5].
Definition SIZE_BUCKETS : list number := int <$> [64; 256; 1024; 4096; 16384; 65536; 262144; 1048576].

Definition MAX_RECORDS : nat := Z.to_nat 10000.

(** [push], and [shift] if there are too many *)
Definition record (rec : HttpRecord) (records : list HttpRecord) : list HttpRecord :=
  let l := records ++ [rec] in if bool_decide (MAX_RECORDS < length l)%nat then drop 1 l else l.

(** ** Rendering *)

Definition BAR : ascii := "|"%char.
Definition keyOf (r : HttpRecord) : string := route r +:+ String BAR (method r +:+ String BAR (statusCode r)).

(** [{ records, responseSizeSum }] for each key *)
Record Group := mkGroup { g_records : list HttpRecord; responseSizeSum : number }.
Definition addTo (grouped : jsmap string Group) (r : HttpRecord) : jsmap string Group :=
  match grouped !! keyOf r with
  | Some g => <[keyOf r := mkGroup (g_records g ++ [r]) (num_add (responseSizeSum g) (responseSizeBytes r))]> grouped
  | None => <[keyOf r := mkGroup [r] (responseSizeBytes r)]> grouped
  end.
Definition grouped (records : list HttpRecord) : jsmap string Group := foldl addTo ∅ records.

Record Labels := mkLabels { l_route : string; l_method : string; l_status : string }.

Inductive Metric := Duration | Size.
Inductive Line :=
| Header (m : Metric)
| Bucket (m : Metric) (l : Labels) (le : number) (count : nat) (e : option Exemplar)
| Infinity (m : Metric) (l : Labels) (count : nat)
| Sum (m : Metric) (l : Labels) (sum : number)
| Count (m : Metric) (l : Labels) (count : nat).

(** The first three parts of a key; a part that is missing is the text undefined. *)
Definition labelsOf (k : string) : Labels :=
  let part i := nth i (split BAR k) "undefined" in mkLabels (part 0%nat) (part 1%nat) (part 2%nat).

(** [buildExemplar]: one without a trace is none *)
Definition buildExemplar (o : option Exemplar) : option Exemplar :=
  match o with Some e => if falsy (traceId e) then None else Some e | None => None end.

(** The blocks of lines of a group *)
Definition durationBlock (buckets : list number) (k : string) (rs : list HttpRecord) : list Line :=
  let sorted := sort_by diff_le (durationS <$> rs) in
  ((fun le => Bucket Duration (labelsOf k) le (length (filter (fun d => num_ge le d = true) sorted))
     (buildExemplar (last (filter (fun r => num_ge le (durationS r) = true) rs) ≫= exemplar))) <$> buckets) ++
  [Infinity Duration (labelsOf k) (length sorted); Sum Duration (labelsOf k) (sumOf id (int 0) sorted); Count Duration (labelsOf k) (length sorted)].

Definition sizeBlock (k : string) (rs : list HttpRecord) : list Line :=
  let sizes := sort_by diff_le (responseSizeBytes <$> rs) in
  ((fun le => Bucket Size (labelsOf k) le (length (filter (fun s => num_ge le s = true) sizes)) None) <$> SIZE_BUCKETS) ++
  [Infinity Size (labelsOf k) (length sizes); Sum Size (labelsOf k) (sumOf id (int 0) sizes); Count Size (labelsOf k) (length sizes)].

Definition render (buckets : list number) (records : list HttpRecord) : list Line :=
  let g := entries (grouped records) in
  Header Duration :: (g ≫= fun kg => durationBlock buckets kg.1 (g_records kg.2)) ++
  Header Size :: (g ≫= fun kg => sizeBlock kg.1 (g_records kg.2)).

(** ** Threads and pools *)

Inductive ThreadState := Running | Sleeping | Blocked | Deadlocked | Zombie.
Definition mapProcState (s : string) : ThreadState :=
  if String.eqb s "R" then Running else if String.eqb s "S" then Sleeping else if String.eqb s "D" then Blocked
  else if String.eqb s "Z" then Zombie else if String.eqb s "T" then Blocked else Sleeping.

(** The name and the state letter of a task, where they are found; a task whose file cannot
    be read is [None]. *)
Definition Task : Type := string * option (option string * option string).
Definition updateThreads (tasks : list Task) : list (string * ThreadState) :=
  omap (fun t : Task =>
    match t.2 with
    | Some (name, state) => Some (match name with Some n => trim n | None => "thread-" +:+ t.1 end, mapProcState (default "S" state))
    | None => None
    end) tasks.

Definition is_label (c : ascii) : bool :=
  let n := code c in ((97 <=? n) && (n <=? 122) || (65 <=? n) && (n <=? 90) || (48 <=? n) && (n <=? 57) || (n =? 95) || (n =? 45))%nat.
Fixpoint safeName (s : string) : string :=
  match s with EmptyString => "" | String c s' => String (if is_label c then c else "_"%char) (safeName s') end.

(** A series of the gauge, whose value is 1 *)
Definition renderThreads (threads : list (string * ThreadState)) : list (string * ThreadState) :=
  match threads with [] => [("main", Running)] | _ => (fun t => (safeName t.1, t.2)) <$> threads end.

Record PoolStats := mkPool { active : number; idle : number }.
Definition new_pools : jsmap string PoolStats := <["olap" := mkPool (int 0) (int 0)]> (<["oltp" := mkPool (int 0) (int 0)]> ∅).
Definition updatePool (pool : string) (a i : number) (m : jsmap string PoolStats) : jsmap string PoolStats := <[pool := mkPool a i]> m.
Definition renderPools (m : jsmap string PoolStats) : list (string * number) * list (string * number) :=
  ((fun kv => (kv.1, active kv.2)) <$> entries m, (fun kv => (kv.1, idle kv.2)) <$> entries m).

(** ** What is kept *)

(** the collector keeps the last 10000 records, in order. *)
Theorem records_kept (l : list HttpRecord) : foldl (fun rs r => record r rs) [] l = drop (length l - MAX_RECORDS) l.
Proof.
  assert (H1 : (0 < MAX_RECORDS)%nat) by (unfold MAX_RECORDS; lia). induction l as [|r l IH] using rev_ind; [done|].
  rewrite foldl_app. cbn [foldl]. rewrite IH. unfold record. rewrite length_app, !length_drop, length_app. cbn [length]. case_bool_decide as H.
  - rewrite <- (drop_app_le l [r]) by lia. rewrite drop_drop. f_equal. lia.
  - rewrite <- (drop_app_le l [r]) by lia. f_equal. lia.
Qed.

(** ** Groups *)

Definition withKey (k : string) (rs : list HttpRecord) : list HttpRecord := filter (fun r => keyOf r = k) rs.

Lemma grouped_snoc rs r : grouped (rs ++ [r]) = addTo (grouped rs) r.
Proof. unfold grouped. by rewrite foldl_app. Qed.

Lemma withKey_snoc k rs r : withKey k (rs ++ [r]) = withKey k rs ++ (if decide (keyOf r = k) then [r] else []).
Proof. unfold withKey. rewrite filter_app. f_equal. Qed.

(** Each key with exactly its records *)
Lemma grouped_records rs k : map_wf (grouped rs) /\
  g_records <$> grouped rs !! k = match withKey k rs with [] => None | l => Some l end.
Proof.
  induction rs as [|r rs [IHw IH]] using rev_ind; [done|]. rewrite grouped_snoc, withKey_snoc. unfold addTo.
  destruct (decide (keyOf r = k)) as [<-|Hne].
  - destruct (grouped rs !! keyOf r) as [g|] eqn:E; (split; [by apply map_wf_insert|]); rewrite jsmap_lookup_insert_eq; cbn in *.
    + destruct (withKey (keyOf r) rs); [done|]. by injection IH as ->.
    + by destruct (withKey (keyOf r) rs).
  - rewrite app_nil_r. destruct (grouped rs !! keyOf r); (split; [by apply map_wf_insert|]); by rewrite jsmap_lookup_insert_ne.
Qed.

Lemma grouped_entry rs k g : (k, g) ∈ entries (grouped rs) <-> grouped rs !! k = Some g.
Proof. split; [apply elem_of_jsmap_lookup, (grouped_records rs k)|apply jsmap_lookup_elem_of]. Qed.

(** ** Counting *)

Definition barless (r : HttpRecord) : Prop := lacks BAR (route r) = true /\ lacks BAR (method r) = true /\ lacks BAR (statusCode r) = true.

Lemma labelsOf_key r : barless r -> labelsOf (keyOf r) = mkLabels (route r) (method r) (statusCode r).
Proof.
  intros (H1 & H2 & H3). unfold labelsOf, keyOf. rewrite split_app, split_app by done. by rewrite split_lacks.
Qed.

Lemma keyOf_eq r1 r2 : barless r1 -> barless r2 ->
  keyOf r1 = keyOf r2 <-> route r1 = route r2 /\ method r1 = method r2 /\ statusCode r1 = statusCode r2.
Proof.
  intros H1 H2. split.
  - intros E. apply (f_equal labelsOf) in E. rewrite !labelsOf_key in E by done. by injection E as -> -> ->.
  - intros (E1 & E2 & E3). unfold keyOf. by rewrite E1, E2, E3.
Qed.

(** The records with given labels *)
Definition labelled (l : Labels) (r : HttpRecord) : Prop := route r = l_route l /\ method r = l_method l /\ statusCode r = l_status l.
#[export] Instance labelled_dec l r : Decision (labelled l r).
Proof. unfold labelled. apply _. Defined.

(** What a metric measures *)
Definition measured (m : Metric) (r : HttpRecord) : number := match m with Duration => durationS r | Size => responseSizeBytes r end.
Definition bucketsOf (buckets : list number) (m : Metric) : list number := match m with Duration => buckets | Size => SIZE_BUCKETS end.

Definition of_labels (l : Labels) (rs : list HttpRecord) : list HttpRecord := filter (labelled l) rs.

(** A line that counts exactly the records of its labels *)
Definition exact (rs : list HttpRecord) (line : Line) : Prop :=
  match line with
  | Header _ => True
  | Bucket m l le n _ => of_labels l rs <> [] /\ n = length (filter (fun r => num_ge le (measured m r) = true) (of_labels l rs))
  | Infinity m l n | Count m l n => of_labels l rs <> [] /\ n = length (of_labels l rs)
  | Sum m l s => of_labels l rs <> [] /\ s = sumOf id (int 0) (sort_by diff_le (measured m <$> of_labels l rs))
  end.

Lemma count_sorted (f : HttpRecord -> number) le rs :
  length (filter (fun d => num_ge le d = true) (sort_by diff_le (f <$> rs))) = length (filter (fun r => num_ge le (f r) = true) rs).
Proof.
  rewrite sort_by_Permutation. induction rs as [|r rs IH]; [done|]. cbn [fmap list_fmap]. rewrite !filter_cons. case_decide; cbn [length]; by rewrite IH.
Qed.

Lemma list_filter_iff_elem {A} (P Q : A -> Prop) `{!forall x, Decision (P x), !forall x, Decision (Q x)} (l : list A) :
  (forall x, x ∈ l -> P x <-> Q x) -> filter P l = filter Q l.
Proof.
  induction l as [|x l IH]; [done|]. intros Hpq. rewrite !filter_cons. rewrite IH by (intros y Hy; apply Hpq; by right).
  destruct (Hpq x ltac:(left)). repeat case_decide; tauto.
Qed.

Section exact.
Context (buckets : list number) (rs : list HttpRecord).
Hypothesis Hb : Forall barless rs.

Lemma withKey_labels r : r ∈ rs -> withKey (keyOf r) rs = of_labels (labelsOf (keyOf r)) rs.
Proof.
  intros Hr. pose proof Hb as H. rewrite Forall_forall in H. rewrite labelsOf_key by (by apply H).
  unfold withKey, of_labels. apply list_filter_iff_elem. intros r' Hr'. rewrite keyOf_eq by (by apply H). done.
Qed.

(** A group is that of the labels of a record. *)
Lemma group_of k g : (k, g) ∈ entries (grouped rs) <-> exists r, r ∈ rs /\ k = keyOf r /\ grouped rs !! k = Some g /\ g_records g = of_labels (labelsOf k) rs.
Proof.
  rewrite grouped_entry. destruct (grouped_records rs k) as [_ H]. split; [|by intros (? & _ & _ & E & _)].
  intros E. rewrite E in H. cbn in H. destruct (withKey k rs) as [|r l] eqn:Ek; [done|]. injection H as Hg.
  assert (Hr : r ∈ withKey k rs) by (rewrite Ek; left). apply list_elem_of_filter in Hr as [<- Hr]. exists r. split; [done|]. split; [done|]. split; [done|].
  by rewrite Hg, <- Ek, withKey_labels.
Qed.

(** The block of a metric *)
Definition block (m : Metric) (k : string) (g : list HttpRecord) : list Line :=
  match m with Duration => durationBlock buckets k g | Size => sizeBlock k g end.

Lemma block_exact m k g line : g_records g = of_labels (labelsOf k) rs -> g_records g <> [] -> line ∈ block m k (g_records g) -> exact rs line.
Proof.
  intros E Hne. assert (Hn : of_labels (labelsOf k) rs <> []) by (by rewrite <- E). destruct m; cbn [block]; unfold durationBlock, sizeBlock;
    (intros [(le & -> & _)%list_elem_of_fmap|H]%elem_of_app; [cbn [exact measured]; split; [done|]; by rewrite count_sorted, E|]);
    (apply elem_of_cons in H as [->|H]; [cbn; split; [done|]; by rewrite length_sort_by, length_fmap, E|]);
    (apply elem_of_cons in H as [->|H]; [cbn; split; [done|]; by rewrite E|]);
    (apply elem_of_cons in H as [->|H]; [cbn; split; [done|]; by rewrite length_sort_by, length_fmap, E|by apply elem_of_nil in H]).
Qed.

Lemma block_elem m k g le : le ∈ bucketsOf buckets m -> (exists n e, Bucket m (labelsOf k) le n e ∈ block m k g) /\
  exists n, Infinity m (labelsOf k) n ∈ block m k g /\ Count m (labelsOf k) n ∈ block m k g.
Proof.
  destruct m; cbn [block bucketsOf]; unfold durationBlock, sizeBlock; intros H; (split; [do 2 eexists; apply elem_of_app; left; apply list_elem_of_fmap; exists le; by split|]);
    eexists; (split; apply elem_of_app; right; [by left|by right; right; left]).
Qed.

Lemma render_elem line : line ∈ render buckets rs <->
  (exists m, line = Header m) \/ exists m k g, (k, g) ∈ entries (grouped rs) /\ line ∈ block m k (g_records g).
Proof.
  unfold render. rewrite elem_of_cons, elem_of_app, elem_of_cons, !list_elem_of_bind. split.
  - intros [->|[([k g] & H & Hg)|[->|([k g] & H & Hg)]]]; [left; by eexists|right; by exists Duration, k, g|left; by eexists|right; by exists Size, k, g].
  - intros [[[] ->]|([] & k & g & Hg & H)]; [by left|by right; right; left|right; left; by exists (k, g)|right; right; right; by exists (k, g)].
Qed.
End exact.

Lemma elem_of_map_keys (m : jsmap string Group) k : k ∈ map_keys m <-> exists g, (k, g) ∈ entries m.
Proof.
  unfold map_keys. rewrite list_elem_of_fmap. split; [intros ([k' g] & -> & H); by exists g|intros [g H]; by exists (k, g)].
Qed.

(** for records without bars in their labels, every line counts exactly the records of its
    labels; the labels of every record have their buckets, and the count of the last one is
    that of all its records; and no labels have two blocks. *)
Theorem histograms_exact buckets rs : Forall barless rs ->
  Forall (exact rs) (render buckets rs) /\
  (forall r m le, r ∈ rs -> le ∈ bucketsOf buckets m -> let l := mkLabels (route r) (method r) (statusCode r) in
     (exists e, Bucket m l le (length (filter (fun r => num_ge le (measured m r) = true) (of_labels l rs))) e ∈ render buckets rs) /\
     Infinity m l (length (of_labels l rs)) ∈ render buckets rs /\ Count m l (length (of_labels l rs)) ∈ render buckets rs) /\
  NoDup (labelsOf <$> map_keys (grouped rs)).
Proof.
  intros Hb. assert (Hall : Forall (exact rs) (render buckets rs)).
  { apply Forall_forall. intros line. rewrite render_elem. intros [[m ->]|(m & k & g & Hg & H)]; [done|].
    pose proof Hg as (r & Hr & -> & E & Eg)%group_of; [|done]. apply (block_exact buckets rs m (keyOf r) g); [done| |done].
    destruct (grouped_records rs (keyOf r)) as [_ H1]. rewrite E in H1. cbn in H1. destruct (withKey _ _); [done|]. by injection H1 as ->. }
  split; [done|]. split.
  - intros r m le Hr Hle l. pose proof Hall as Hx. rewrite Forall_forall in Hx. assert (Hl : labelsOf (keyOf r) = l) by (apply labelsOf_key; rewrite Forall_forall in Hb; by apply Hb).
    assert (Hg : exists g, (keyOf r, g) ∈ entries (grouped rs)).
    { destruct (grouped_records rs (keyOf r)) as [_ H1]. destruct (withKey (keyOf r) rs) eqn:E.
      - exfalso. assert (Hin : r ∈ withKey (keyOf r) rs) by (by apply list_elem_of_filter). rewrite E in Hin. by apply elem_of_nil in Hin.
      - destruct (grouped rs !! keyOf r) as [g|] eqn:Eg; [|done]. exists g. by apply grouped_entry. }
    destruct Hg as [g Hg]. destruct (block_elem buckets m (keyOf r) (g_records g) le Hle) as [(n & e & H1) (n' & H2 & H3)]. rewrite Hl in H1, H2, H3.
    assert (Hin : forall line, line ∈ block buckets m (keyOf r) (g_records g) -> line ∈ render buckets rs) by (intros line H; apply render_elem; right; by do 3 eexists).
    apply Hin in H1, H2, H3. pose proof (Hx _ H1) as [_ ->]. pose proof (Hx _ H2) as [_ E2]. subst n'. split; [by exists e|done].
  - destruct (grouped_records rs "") as [Hw _]. unfold map_wf in Hw. apply NoDup_fmap_2_strong; [|done].
    intros k1 k2 (g1 & H1) % elem_of_map_keys (g2 & H2) % elem_of_map_keys E.
    apply group_of in H1 as (r1 & Hr1 & -> & _), H2 as (r2 & Hr2 & -> & _); [|done..]. rewrite Forall_forall in Hb.
    rewrite !labelsOf_key in E by (by apply Hb). apply keyOf_eq; [by apply Hb|by apply Hb|]. by injection E as -> -> ->.
Qed.

Module Examples.

Definition ok (d : Z) : HttpRecord := mkRecord "/nodes" "GET" "200" (int d) (int 512) None.
Definition failed : HttpRecord := mkRecord "/nodes" "GET" "500" (int 9) (int 64) (Some (mkExemplar "4bf9" (int 9))).

Lemma histograms_exact_witness : Forall barless [ok 1; failed; ok 4] /\
  exists e, Bucket Duration (mkLabels "/nodes" "GET" "200") (int 1)
    (length (filter (fun r => num_ge (int 1) (durationS r) = true) (of_labels (mkLabels "/nodes" "GET" "200") [ok 1; failed; ok 4]))) e
    ∈ render HTTP_DURATION_BUCKETS [ok 1; failed; ok 4].
Proof.
  assert (H : Forall barless [ok 1; failed; ok 4]) by (by repeat constructor). split; [exact H|].
  destruct (histograms_exact HTTP_DURATION_BUCKETS _ H) as (_ & Hall & _).
  exact (proj1 (Hall (ok 1) Duration (int 1) ltac:(by left) ltac:(do 8 right; by left))).
Defined.

(** A request over all the buckets is counted by the last line only. *)
Example over_all_buckets : of_labels (mkLabels "/nodes" "GET" "500") [failed] = [failed] /\
  filter (fun r => num_ge (tenths 5 1) (durationS r) = true) [failed] = [].
Proof. by vm_compute. Qed.

(** Threads of one name and state are the same series twice. *)
Example series_twice : renderThreads [("libuv-worker", Sleeping); ("libuv-worker", Sleeping)] = [("libuv-worker", Sleeping); ("libuv-worker", Sleeping)].
Proof. reflexivity. Qed.

(** A counter falls when a record is shifted out for one of other labels. *)
Example counts_fall : let full := repeat (ok 1) 10000 in
  (length (of_labels (mkLabels "/nodes" "GET" "200") full), length (of_labels (mkLabels "/nodes" "GET" "200") (record failed full))) = (10000%nat, 9999%nat).
Proof. vm_compute. reflexivity. Qed.

(** A bar in a route moves the labels, and requests of two routes are counted as one. *)
Example bar_moves_labels : let r1 := mkRecord "/a|b" "GET" "200" (int 1) (int 1) None in let r2 := mkRecord "/a" "b|GET" "200" (int 1) (int 1) None in
  labelsOf (keyOf r1) = mkLabels "/a" "b" "GET" /\ keyOf r1 = keyOf r2.
Proof. by vm_compute. Qed.
End Examples.
