(* ===== verification/Attestation.v ===== *)
(** * Attestations ([src/src/core/attestation/engine.js], [core/crypto/aggregate_sig.js],
      [core/crypto/signature.js])

    Signatures, proofs of possession, aggregates, and the validator that checks batches of
    attestations.  The curves are arguments; [None] is a throw of the library, which may be
    given what JavaScript finds at an index out of range ([None] of an [option string]).
    Bytes are strings; [Buffer.from] of a text is the text.  The checks of a batch share no
    state, so the order in which they end does not matter.

    [validation_partitions]: a batch that is too large is checked as consecutive batches
    within the limit, and the validation ends.
    [ed25519_batch_exact]: with Ed25519 the verdict does not depend on how the batch is cut.
    [later_messages_unchecked], [one_worker_never_ends]: what goes wrong. *)

From Stdlib Require Import ZArith Lia Ascii String.
From stdpp Require Import base numbers list strings.
From S2P Require Import Prelude Js Text.
#[local] Open Scope Z_scope.

(** ** Errors and results *)

Inductive VerificationError :=
| Verification (message : string)
| PublicKeyValidationError (message : string)
| SignatureValidationError (message : string)
| ProofOfPossessionError (index : nat)
| LibraryError.

(** [error.code] *)
Definition codeOf (e : VerificationError) : option string :=
  match e with
  | Verification _ => Some "VERIFICATION_FAILED"
  | PublicKeyValidationError _ => Some "INVALID_PUBLIC_KEY"
  | SignatureValidationError _ => Some "INVALID_SIGNATURE"
  | ProofOfPossessionError _ => Some "POP_FAILED"
  | LibraryError => None
  end.

Definition Result (A : Type) : Type := VerificationError + A.
Definition and_then {A B} (r : Result A) (k : A -> Result B) : Result B := match r with inl e => inl e | inr a => k a end.
Definition called {A} (o : option A) : Result A := match o with Some a => inr a | None => inl LibraryError end.
(** [try { r } catch { d }] *)
Definition or_value {A} (d : A) (r : Result A) : A := match r with inr a => a | inl _ => d end.

(** ** Attestations *)

Inductive Message := AText (s : string) | ABytes (s : string).
Definition bufferOf (m : Message) : string := match m with AText s => s | ABytes s => s end.

Record Signed := mkSigned { message : Message; signature : string; publicKey : string; proof : option string }.

Record BatchResult := mkResult { valid : bool; verified : Z; failed : Z; error : option nat }.

(** A member of the options that is there has its value, which may be [undefined]. *)
Record BatchValidatorOptions := mkGiven { g_max : option (option Z); g_parallelism : option (option Z); g_requirePoP : option (option bool) }.
Record Options := mkOptions { maxBatchSize : option Z; parallelism : option Z; requirePoP : option bool }.

(** The options are spread over their defaults. *)
Definition new_BatchValidator (cpus : Z) (o : BatchValidatorOptions) : Options :=
  mkOptions (default (Some 512) (g_max o)) (default (Some cpus) (g_parallelism o)) (default (Some true) (g_requirePoP o)).

Inductive Curve := BLS12_381 | Ed25519 | OtherCurve (name : string).

(** ** Partitions *)

(** [a.slice(i, j)] *)
Definition position (n i : Z) : Z := if i <? 0 then Z.max (n + i) 0 else Z.min i n.
Definition slice {A} (l : list A) (i j : Z) : list A :=
  let n := Z.of_nat (length l) in take (Z.to_nat (position n j - position n i)) (drop (Z.to_nat (position n i)) l).

(** [Math.ceil(n / p)]: sizes are below [2^53], where the quotient that is rounded to a double
    has the same ceiling. *)
Inductive Chunk := Size (z : Z) | Unbounded | NotANumber.
Definition chunkSize (n : Z) (p : option Z) : Chunk :=
  match p with
  | None => NotANumber
  | Some p => if p =? 0 then if n =? 0 then NotANumber else Unbounded else Size (- ((- n) / p))
  end.

(** The loop over [i]; [None] when the fuel does not suffice *)
Fixpoint slices {A} (fuel : nat) (l : list A) (c i : Z) : option (list (list A)) :=
  if i <? Z.of_nat (length l) then
    match fuel with O => None | S f => cons (slice l i (i + c)) <$> slices f l c (i + c) end
  else Some [].

Definition partitionBatch {A} (fuel : nat) (l : list A) (p : option Z) : option (list (list A)) :=
  match chunkSize (Z.of_nat (length l)) p with
  | Size c => slices fuel l c 0
  | Unbounded => Some [l]
  | NotANumber => Some (match l with [] => [] | _ => [[]] end)
  end.

Definition combine_ (rs : list BatchResult) : BatchResult :=
  mkResult (forallb valid rs) (foldr Z.add 0 (verified <$> rs)) (foldr Z.add 0 (failed <$> rs)) None.

Section crypto.
Context (verify : option string -> string -> string -> option bool).
Context (sign : string -> string -> option string).
Context (add : string -> string -> option string).
Context (verifyShort : string -> string -> option string -> option bool).

(** ** Signatures *)

Definition verifyEd25519 (msg sig key : string) : Result bool :=
  if negb (String.length sig =? 64)%nat then inl (SignatureValidationError "Invalid signature length: expected 64 bytes")
  else if negb (String.length key =? 32)%nat then inl (PublicKeyValidationError "Invalid public key length: expected 32 bytes")
  else called (verify (Some sig) msg key).

Definition mismatched (messages signatures publicKeys : list string) : bool :=
  negb (length messages =? length signatures)%nat || negb (length messages =? length publicKeys)%nat.

(** Every message with its signature and key *)
Definition everyOne (check : string -> string -> string -> bool) (messages signatures publicKeys : list string) : bool :=
  forallb (fun x => check x.1 x.2.1 x.2.2) (zip messages (zip signatures publicKeys)).

Definition verifyBatchEd25519 (messages signatures publicKeys : list string) : Result bool :=
  if mismatched messages signatures publicKeys then inl (Verification "Mismatched input lengths")
  else inr (everyOne (fun m s k => or_value false (verifyEd25519 m s k)) messages signatures publicKeys).

(** ** Aggregates *)

Definition POP_DOMAIN : string := "VERINODE_POP_V1".
Definition generateProofOfPossession (secretKey key : string) : Result string := called (sign (POP_DOMAIN +:+ key) secretKey).
Definition verifyProofOfPossession (key : string) (pf : option string) : bool := default false (verify pf (POP_DOMAIN +:+ key) key).

(** The sum of points, from the first one on *)
Definition sumFrom (x : string) (l : list string) : option string := foldl (fun a y => a ≫= fun a => add a y) (Some x) l.

Definition aggregateBLSSignatures (signatures : list string) : Result string :=
  match signatures with [] => inl (Verification "Cannot aggregate empty signature set") | x :: l => called (sumFrom x l) end.

(** The keys from index [i] on, with the proofs of all *)
Fixpoint checkProofs (i : nat) (keys : list string) (proofs : list string) : Result () :=
  match keys with
  | [] => inr ()
  | k :: ks => if verifyProofOfPossession k (proofs !! i) then checkProofs (S i) ks proofs else inl (ProofOfPossessionError i)
  end.

Definition aggregateBLSPublicKeys (keys : list string) (proofs : option (list string)) : Result string :=
  match keys with
  | [] => inl (Verification "Cannot aggregate empty public key set")
  | x :: l => and_then (match proofs with Some ps => checkProofs 0 keys ps | None => inr () end) (fun _ => called (sumFrom x l))
  end.

Definition verifyBLSAggregate (msg : option string) (sig key : string) : Result bool := called (verifyShort sig key msg).

Definition verifyEd25519Batch (messages signatures publicKeys : list string) : Result bool :=
  if mismatched messages signatures publicKeys then inl (Verification "Mismatched input lengths")
  else inr (everyOne (fun m s k => default false (verify (Some s) m k)) messages signatures publicKeys).

Definition verifyAggregate (messages signatures publicKeys : list string) (c : Curve) : Result bool :=
  match c with
  | BLS12_381 =>
      and_then (aggregateBLSSignatures signatures) (fun s =>
      and_then (aggregateBLSPublicKeys publicKeys None) (fun k => verifyBLSAggregate (messages !! 0%nat) s k))
  | Ed25519 => verifyEd25519Batch messages signatures publicKeys
  | OtherCurve c => inl (Verification ("Unsupported curve: " +:+ c))
  end.

(** ** The validator *)

Section validator.
Context (o : Options).

(** The batch as one *)
Definition checkBatch (l : list Signed) (c : Curve) : BatchResult :=
  let ok := or_value false (verifyAggregate ((fun a => bufferOf (message a)) <$> l) (signature <$> l) (publicKey <$> l) c) in
  let n := Z.of_nat (length l) in mkResult ok (if ok then n else 0) (if ok then 0 else n) None.

Definition exceeds (n : Z) : bool := match maxBatchSize o with Some m => m <? n | None => false end.

(** The fuel is the depth of the call stack; [None] is its overflow or a loop without end. *)
Fixpoint validateBatch (fuel : nat) (l : list Signed) (c : Curve) : option BatchResult :=
  match fuel with
  | O => None
  | S f =>
      match l with
      | [] => Some (mkResult true 0 0 None)
      | _ =>
          if exceeds (Z.of_nat (length l)) then
            partitionBatch f l (parallelism o) ≫= fun parts => combine_ <$> mapM (fun p => validateBatch f p c) parts
          else Some (checkBatch l c)
      end
  end.

(** The index of the first proof that fails *)
Fixpoint failingProof (i : nat) (l : list Signed) : option nat :=
  match l with
  | [] => None
  | a :: l' => if verifyProofOfPossession (publicKey a) (proof a) then failingProof (S i) l' else Some i
  end.

Definition validateWithPop (fuel : nat) (l : list Signed) (c : Curve) : option BatchResult :=
  match (if default false (requirePoP o) then failingProof 0 l else None) with
  | Some i => Some (mkResult false 0 (Z.of_nat (length l)) (Some i))
  | None => validateBatch fuel l c
  end.
End validator.

Definition verifySingle (a : Signed) (c : Curve) : Result bool :=
  let msg := bufferOf (message a) in
  match c with
  | Ed25519 => verifyEd25519 msg (signature a) (publicKey a)
  | BLS12_381 => verifyAggregate [msg] [signature a] [publicKey a] BLS12_381
  | OtherCurve c => inl (Verification ("Unsupported curve: " +:+ c))
  end.
End crypto.

(** ** Partitions cover the batch *)

Section partitions.
Context {A : Type}.
Implicit Types (l : list A) (ls : list (list A)).

Lemma slice_take l i c : 0 <= i < Z.of_nat (length l) -> 0 < c -> slice l i (i + c) = take (Z.to_nat c) (drop (Z.to_nat i) l).
Proof.
  intros Hi Hc. unfold slice, position. rewrite (proj2 (Z.ltb_ge i 0)), (proj2 (Z.ltb_ge (i + c) 0)) by lia.
  rewrite (Z.min_l i) by lia. apply Z.min_case_strong; intros H; [f_equal; lia|].
  rewrite !take_ge; [done|rewrite length_drop; lia..].
Qed.

Lemma slices_cover l c : 0 < c -> forall fuel i, 0 <= i -> Z.of_nat (length l) - i <= Z.of_nat fuel ->
  exists ls, slices fuel l c i = Some ls /\ concat ls = drop (Z.to_nat i) l /\ Forall (fun p => p <> [] /\ Z.of_nat (length p) <= c) ls.
Proof.
  intros Hc fuel. induction fuel as [|f IH]; intros i Hi Hf; cbn [slices]; destruct (Z.ltb_spec i (Z.of_nat (length l))) as [H|H]; try lia.
  1,3: exists []; split; [done|]; split; [|done]; symmetry; apply drop_ge; lia.
  destruct (IH (i + c)) as (ls & -> & E & Hls); [lia..|]. eexists. split; [done|]. rewrite slice_take by lia. split.
  - cbn [concat]. rewrite E. rewrite Z2Nat.inj_add by lia. rewrite <- drop_drop. apply take_drop.
  - constructor; [|done]. rewrite length_take, length_drop. split; [|lia].
    intros E0. apply (f_equal length) in E0. rewrite length_take, length_drop in E0. cbn in E0. lia.
Qed.

(** A step of zero or less never ends the loop. *)
Lemma slices_endless l c : c <= 0 -> forall fuel i, i < Z.of_nat (length l) -> slices fuel l c i = None.
Proof.
  intros Hc fuel. induction fuel as [|f IH]; intros i Hi; cbn [slices]; rewrite (proj2 (Z.ltb_lt _ _) Hi); [done|]. by rewrite IH by lia.
Qed.

(** At least two workers get less than the whole each. *)
Lemma partition_covers l p fuel : 2 <= p -> (2 <= length l <= fuel)%nat ->
  exists ls, partitionBatch fuel l (Some p) = Some ls /\ concat ls = l /\ Forall (fun q => q <> [] /\ (length q < length l)%nat) ls.
Proof.
  intros Hp Hl. unfold partitionBatch, chunkSize. rewrite (proj2 (Z.eqb_neq p 0)) by lia.
  set (n := Z.of_nat (length l)). assert (H1 : - (n - 1) <= - n / p) by (apply Z.div_le_lower_bound; nia). assert (H2 : - n / p < 0) by (apply Z.div_lt_upper_bound; lia).
  destruct (slices_cover l (- (- n / p)) ltac:(lia) fuel 0) as (ls & E & Hc & Hls); [lia..|]. exists ls. split; [done|]. split; [done|].
  eapply Forall_impl; [exact Hls|]. intros q [Hq Hle]. split; [done|]. lia.
Qed.

(** One worker or none gets the whole again, or the loop never ends. *)
Lemma partition_stuck l p fuel : p < 2 -> l <> [] -> partitionBatch fuel l (Some p) = None \/ partitionBatch fuel l (Some p) = Some [l].
Proof.
  intros Hp Hl. assert (Hn : 0 < Z.of_nat (length l)) by (destruct l; [done|cbn; lia]). unfold partitionBatch, chunkSize. destruct (Z.eqb_spec p 0) as [->|Hp0].
  { rewrite (proj2 (Z.eqb_neq _ 0)) by lia. by right. }
  destruct (decide (p = 1)) as [->|]; [|left; apply slices_endless; [|lia]; assert (0 <= - Z.of_nat (length l) / p); [|lia]].
  - rewrite Z.div_1_r, Z.opp_involutive. destruct fuel as [|f]; cbn [slices]; rewrite (proj2 (Z.ltb_lt _ _) Hn); [by left|]. right.
    rewrite slice_take by lia. rewrite Nat2Z.id. cbn [Z.to_nat drop]. rewrite firstn_all. destruct f; cbn [slices]; by rewrite (proj2 (Z.ltb_ge _ _)) by lia.
  - rewrite <- Z.div_opp_opp by lia. apply Z.div_pos; lia.
Qed.
End partitions.

(** ** Results of parts *)

Lemma combine_concat (rss : list (list BatchResult)) : combine_ (combine_ <$> rss) = combine_ (concat rss).
Proof.
  unfold combine_. induction rss as [|rs rss IH]; [done|]. injection IH as IH1 IH2 IH3. cbn [fmap list_fmap concat forallb foldr valid verified failed].
  rewrite forallb_app, !fmap_app. cbn in *. rewrite IH1, IH2, IH3. clear. f_equal; generalize rs as l; induction l as [|r l IH]; cbn; lia.
Qed.

Lemma combine_one r : error r = None -> combine_ [r] = r.
Proof. destruct r as [v n f e]; cbn. intros ->. unfold combine_. cbn. rewrite andb_true_r. f_equal; lia. Qed.

Lemma mapM_parts {A B} (f : A -> option B) (g : A -> B -> Prop) (l : list A) :
  Forall (fun a => exists b, f a = Some b /\ g a b) l -> exists bs, mapM f l = Some bs /\ Forall2 g l bs.
Proof.
  induction 1 as [|a l (b & E & Hg) _ (bs & Es & Hgs)]; [by exists []|]. exists (b :: bs). cbn. rewrite E. cbn. rewrite Es. split; [done|by constructor].
Qed.

(** ** The validator *)

Section validation.
Context (verify : option string -> string -> string -> option bool) (add : string -> string -> option string).
Context (verifyShort : string -> string -> option string -> option bool).
Context (o : Options).
Notation check := (checkBatch verify add verifyShort).
Notation validate := (validateBatch verify add verifyShort o).

Definition small (l : list Signed) : Prop := exceeds o (Z.of_nat (length l)) = false.

Lemma validate_small fuel l c : l <> [] -> small l -> validate (S fuel) l c = Some (check l c).
Proof. intros Hl Hs. destruct l; [done|]. cbn [validateBatch]. by rewrite Hs. Qed.

Lemma validate_large fuel l c : l <> [] -> exceeds o (Z.of_nat (length l)) = true ->
  validate (S fuel) l c = partitionBatch fuel l (parallelism o) ≫= fun parts => combine_ <$> mapM (fun p => validate fuel p c) parts.
Proof. intros Hl Hs. destruct l; [done|]. cbn [validateBatch]. by rewrite Hs. Qed.

(** The answer for a batch that was cut into parts *)
Definition answered (c : Curve) (l : list Signed) (r : BatchResult) (parts : list (list Signed)) : Prop :=
  concat parts = l /\ Forall (fun p => p <> [] /\ small p) parts /\ r = combine_ ((fun p => check p c) <$> parts).

Lemma answered_concat c ls rs : Forall2 (fun p r => exists parts, answered c p r parts) ls rs ->
  exists parts, answered c (concat ls) (combine_ rs) parts.
Proof.
  intros H. cut (exists partss, concat (concat partss) = concat ls /\ Forall (fun p => p <> [] /\ small p) (concat partss) /\
    rs = (fun ps => combine_ ((fun p => check p c) <$> ps)) <$> partss).
  { intros (pss & E & Hs & ->). exists (concat pss). split; [done|]. split; [done|]. 
    replace ((fun p => check p c) <$> concat pss) with (concat ((fun ps : list (list Signed) => (fun p => check p c) <$> ps) <$> pss)).
    - rewrite <- combine_concat. f_equal. apply (list_fmap_compose (fun ps : list (list Signed) => (fun p => check p c) <$> ps) combine_).
    - clear. induction pss as [|ps pss IH]; [done|]. cbn. by rewrite fmap_app, IH. }
  induction H as [|l r ls rs (ps & E & Hs & ->) _ (pss & Es & Hss & ->)]; [by exists []|]. exists (ps :: pss). cbn [concat]. rewrite concat_app, E, Es.
  split; [done|]. split; [by apply Forall_app|done].
Qed.
End validation.

Lemma validation_parts verify add verifyShort o p c : parallelism o = Some p -> 2 <= p ->
  match maxBatchSize o with Some m => 1 <= m | None => True end -> forall fuel l, (length l < fuel)%nat ->
  exists parts r, validateBatch verify add verifyShort o fuel l c = Some r /\ answered verify add verifyShort o c l r parts.
Proof.
  intros Ep Hp Hm fuel. induction fuel as [|f IH]; [lia|]. intros l Hl. destruct (decide (l = [])) as [->|Hne].
  { exists [], (mkResult true 0 0 None). done. }
  destruct (exceeds o (Z.of_nat (length l))) eqn:Ex.
  - rewrite validate_large by done. rewrite Ep. assert (H2 : (2 <= length l)%nat) by (unfold exceeds in Ex; destruct (maxBatchSize o); [apply Z.ltb_lt in Ex; lia|done]).
    destruct (partition_covers l p f Hp ltac:(lia)) as (ls & -> & El & Hls). cbn [mbind option_bind].
    destruct (mapM_parts (fun q => validateBatch verify add verifyShort o f q c) (fun q r => exists parts, answered verify add verifyShort o c q r parts) ls) as (rs & -> & Hrs).
    { eapply Forall_impl; [exact Hls|]. intros q [_ Hq]. destruct (IH q ltac:(lia)) as (parts & r & E & Ha). exists r. split; [done|by exists parts]. }
    apply answered_concat in Hrs as [parts Ha]. rewrite El in Ha. by exists parts, (combine_ rs).
  - rewrite validate_small by done. exists [l]. eexists. split; [done|]. split; [by rewrite <- (app_nil_r l) at 2|]. split; [by constructor|].
    cbn. by rewrite combine_one.
Qed.

(** with at least two workers and a limit of at least one, a validation ends, within a
    call stack as deep as the batch is long, and its answer is that of consecutive parts of
    the batch, each within the limit and checked as one: it is valid if they all are, and
    counts the attestations of the valid parts as verified. *)
Theorem validation_partitions verify add verifyShort o p c : parallelism o = Some p -> 2 <= p ->
  match maxBatchSize o with Some m => 1 <= m | None => True end -> forall fuel l, (length l < fuel)%nat ->
  exists parts r, validateBatch verify add verifyShort o fuel l c = Some r /\ answered verify add verifyShort o c l r parts.
Proof. apply validation_parts. Qed.

(** ** Ed25519 *)

Definition genuine (verify : option string -> string -> string -> option bool) (a : Signed) : bool :=
  default false (verify (Some (signature a)) (bufferOf (message a)) (publicKey a)).

Lemma everyOne_map {X} check (f g h : X -> string) (l : list X) : everyOne check (f <$> l) (g <$> l) (h <$> l) = forallb (fun x => check (f x) (g x) (h x)) l.
Proof. unfold everyOne. induction l as [|x l IH]; [done|]. cbn. f_equal. exact IH. Qed.

Lemma mismatched_map {X} (f g h : X -> string) (l : list X) : mismatched (f <$> l) (g <$> l) (h <$> l) = false.
Proof. unfold mismatched. rewrite !length_fmap, Nat.eqb_refl. done. Qed.

Lemma check_ed25519 verify add verifyShort l : checkBatch verify add verifyShort l Ed25519 =
  let ok := forallb (genuine verify) l in let n := Z.of_nat (length l) in mkResult ok (if ok then n else 0) (if ok then 0 else n) None.
Proof. unfold checkBatch. cbn [verifyAggregate]. unfold verifyEd25519Batch. rewrite mismatched_map, everyOne_map. done. Qed.

Definition genuineCount (verify : option string -> string -> string -> option bool) (l : list Signed) : Z := Z.of_nat (length (filter (fun a => genuine verify a = true) l)).

Lemma genuineCount_bounds verify l : (forallb (genuine verify) l = true -> genuineCount verify l = Z.of_nat (length l)) /\ 0 <= genuineCount verify l.
Proof.
  split; [|unfold genuineCount; lia]. unfold genuineCount. induction l as [|a l IH]; [done|]. cbn [forallb]. intros [Ha Hl]%andb_true_iff.
  rewrite filter_cons_True by done. cbn [length]. specialize (IH Hl). lia.
Qed.

(** C40: with Ed25519 a validation of at least two workers, whose [maxBatchSize] is at
    least 1 if it is given at all, ends with the verdict that every
    signature is genuine, however the batch is cut; everything is counted once, as
    verified or failed, and no more is counted as verified than is genuine. *)
Theorem ed25519_batch_exact verify add verifyShort o p l fuel : parallelism o = Some p -> 2 <= p ->
  match maxBatchSize o with Some m => 1 <= m | None => True end -> (length l < fuel)%nat ->
  exists r, validateBatch verify add verifyShort o fuel l Ed25519 = Some r /\ valid r = forallb (genuine verify) l /\
    verified r + failed r = Z.of_nat (length l) /\ (valid r = true -> failed r = 0) /\ 0 <= verified r <= genuineCount verify l.
Proof.
  intros Ep Hp Hm Hl. destruct (validation_parts verify add verifyShort o p Ed25519 Ep Hp Hm fuel l Hl) as (parts & r & E & <- & _ & ->).
  eexists. split; [exact E|]. clear. induction parts as [|q parts IH]; [done|]. destruct IH as (H1 & H2 & H3 & H4).
  unfold combine_ in *. cbn [concat fmap list_fmap forallb foldr valid verified failed] in *. rewrite check_ed25519, forallb_app, length_app.
  unfold genuineCount in *. rewrite filter_app, length_app. cbn [valid verified failed] in *.
  destruct (genuineCount_bounds verify q) as [H5 H6]. unfold genuineCount in *. split; [by rewrite <- H1|].
  destruct (forallb (genuine verify) q); [specialize (H5 eq_refl)|]; cbn [andb]; (split; [lia|]); (split; [|lia]); [intros Hv; rewrite H3 by done; lia|done].
Qed.

(** with one worker, none, or fewer, a batch over the limit is given to itself: no
    call stack suffices. *)
Theorem one_worker_never_ends verify add verifyShort o p l c : parallelism o = Some p -> p < 2 -> l <> [] ->
  exceeds o (Z.of_nat (length l)) = true -> forall fuel, validateBatch verify add verifyShort o fuel l c = None.
Proof.
  intros Ep Hp Hl Hx fuel. induction fuel as [|f IH]; [done|]. rewrite validate_large by done. rewrite Ep.
  destruct (partition_stuck l p f Hp Hl) as [->| ->]; [done|]. cbn. by rewrite IH.
Qed.

(** ** BLS *)

(** of a batch within the limit only the first message is looked at: two batches with the
    same signatures and keys and the same first message have the same answer, whatever
    the other messages are. *)
Theorem later_messages_unchecked verify add verifyShort o fuel a1 a2 l1 l2 : bufferOf (message a1) = bufferOf (message a2) ->
  signature <$> (a1 :: l1) = signature <$> (a2 :: l2) -> publicKey <$> (a1 :: l1) = publicKey <$> (a2 :: l2) ->
  small o (a1 :: l1) ->
  validateBatch verify add verifyShort o fuel (a1 :: l1) BLS12_381 = validateBatch verify add verifyShort o fuel (a2 :: l2) BLS12_381.
Proof.
  intros Em Es Ek Hs. assert (El : length (a1 :: l1) = length (a2 :: l2)) by (apply (f_equal length) in Es; by rewrite !length_fmap in Es).
  destruct fuel as [|f]; [done|]. rewrite !validate_small by (done || by unfold small; rewrite <- El). unfold checkBatch. rewrite <- El, <- Es, <- Ek.
  cbn [fmap list_fmap verifyAggregate]. cbn [lookup list_lookup]. by rewrite Em.
Qed.

Lemma sumFrom_perm (add : string -> string -> option string) (H : forall x y z, add x y ≫= (fun a => add a z) = add x z ≫= (fun a => add a y)) l l' :
  Permutation l l' -> forall a : option string, foldl (fun a y => a ≫= fun a => add a y) a l = foldl (fun a y => a ≫= fun a => add a y) a l'.
Proof.
  induction 1 as [|x l l' _ IH|x y l|l1 l2 l3 _ IH1 _ IH2]; intros a; cbn [foldl]; [done|by rewrite IH| |by rewrite IH1].
  f_equal. destruct a as [a|]; [|done]. apply H.
Qed.

(** where addition is commutative and associative, the aggregate of signatures does not
    depend on their order; there is none of no signatures. *)
Theorem aggregate_unordered (add : string -> string -> option string) l l' : (forall x y, add x y = add y x) ->
  (forall x y z, add x y ≫= (fun a => add a z) = add y z ≫= (fun b => add x b)) ->
  Permutation l l' -> aggregateBLSSignatures add l = aggregateBLSSignatures add l'.
Proof.
  intros Hc Ha. assert (H : forall x y z, add x y ≫= (fun a => add a z) = add x z ≫= (fun a => add a y)).
  { intros x y z. rewrite !Ha. by rewrite (Hc y z). }
  induction 1 as [|x l l' Hl _|x y l|l1 l2 l3 _ IH1 _ IH2]; [done| | |by rewrite IH1]; unfold aggregateBLSSignatures, sumFrom.
  - f_equal. by apply sumFrom_perm.
  - cbn [foldl mbind option_bind]. by rewrite Hc.
Qed.

(** ** Proofs of possession *)

(** The checks of a list of keys stop at the first proof that fails. *)
Lemma checkProofs_spec verify keys proofs i :
  match checkProofs verify i keys proofs with
  | inr _ => forall j k, keys !! j = Some k -> verifyProofOfPossession verify k (proofs !! (i + j)%nat) = true
  | inl e => exists j k, e = ProofOfPossessionError (i + j) /\ keys !! j = Some k /\ verifyProofOfPossession verify k (proofs !! (i + j)%nat) = false /\
      forall j' k', (j' < j)%nat -> keys !! j' = Some k' -> verifyProofOfPossession verify k' (proofs !! (i + j')%nat) = true
  end.
Proof.
  revert i. induction keys as [|k keys IH]; intros i; cbn [checkProofs]; [done|]. destruct (verifyProofOfPossession verify k (proofs !! i)) eqn:E.
  - specialize (IH (S i)). assert (Hs : forall j, (i + S j = S i + j)%nat) by lia. destruct (checkProofs verify (S i) keys proofs) as [e|].
    + destruct IH as (j & k' & -> & Hj & Hv & Hb). exists (S j), k'. rewrite Hs. split; [done|]. split; [done|]. split; [done|].
      intros [|j'] k'' Hlt Hk; [injection Hk as <-; by rewrite Nat.add_0_r|]. rewrite Hs. apply Hb; [lia|done].
    + intros [|j] k' Hk; [injection Hk as <-; by rewrite Nat.add_0_r|]. rewrite Hs. by apply IH.
  - exists 0%nat, k. rewrite Nat.add_0_r. split; [done|]. split; [done|]. split; [done|]. intros; lia.
Qed.

(** keys given with proofs are aggregated only if every key has a proof at its index that
    verifies; otherwise the error names the first one that does not.  Keys given without
    proofs are aggregated alike. *)
Theorem aggregate_keys_proved verify add keys proofs :
  match aggregateBLSPublicKeys verify add keys (Some proofs) with
  | inr a => (forall j k, keys !! j = Some k -> verifyProofOfPossession verify k (proofs !! j) = true) /\ aggregateBLSPublicKeys verify add keys None = inr a
  | inl (ProofOfPossessionError j) => exists k, keys !! j = Some k /\ verifyProofOfPossession verify k (proofs !! j) = false /\
      forall j' k', (j' < j)%nat -> keys !! j' = Some k' -> verifyProofOfPossession verify k' (proofs !! j') = true
  | inl e => aggregateBLSPublicKeys verify add keys None = inl e
  end.
Proof.
  destruct keys as [|x l]; [done|]. unfold aggregateBLSPublicKeys. pose proof (checkProofs_spec verify (x :: l) proofs 0) as H.
  destruct (checkProofs verify 0 (x :: l) proofs) as [e|[]].
  - destruct H as (j & k & -> & Hk & Hv & Hb). cbn. by exists k.
  - cbn [and_then]. destruct (sumFrom add x l) as [a|]; cbn; [|done]. by split.
Qed.

Lemma failingProof_spec verify l i :
  match failingProof verify i l with
  | None => Forall (fun a => verifyProofOfPossession verify (publicKey a) (proof a) = true) l
  | Some n => exists l1 a l2, l = l1 ++ a :: l2 /\ n = (i + length l1)%nat /\ verifyProofOfPossession verify (publicKey a) (proof a) = false /\
      Forall (fun b => verifyProofOfPossession verify (publicKey b) (proof b) = true) l1
  end.
Proof.
  revert i. induction l as [|a l IH]; intros i; cbn [failingProof]; [constructor|]. destruct (verifyProofOfPossession verify (publicKey a) (proof a)) eqn:E.
  - specialize (IH (S i)). destruct (failingProof verify (S i) l) as [n|]; [|by constructor].
    destruct IH as (l1 & b & l2 & -> & -> & Hb & H1). exists (a :: l1), b, l2. cbn. split; [done|]. split; [lia|]. split; [done|by constructor].
  - exists [], a, l. cbn. split; [done|]. split; [lia|]. by split.
Qed.

(** where proofs are required, a batch is validated only if all its proofs verify; or it
    fails as a whole, naming the first proof that does not. *)
Theorem proofs_required verify add verifyShort o fuel l c : requirePoP o = Some true ->
  (Forall (fun a => verifyProofOfPossession verify (publicKey a) (proof a) = true) l /\
   validateWithPop verify add verifyShort o fuel l c = validateBatch verify add verifyShort o fuel l c) \/
  exists l1 a l2, l = l1 ++ a :: l2 /\ verifyProofOfPossession verify (publicKey a) (proof a) = false /\
    Forall (fun b => verifyProofOfPossession verify (publicKey b) (proof b) = true) l1 /\
    validateWithPop verify add verifyShort o fuel l c = Some (mkResult false 0 (Z.of_nat (length l)) (Some (length l1))).
Proof.
  intros Ho. unfold validateWithPop. rewrite Ho. cbn [default]. pose proof (failingProof_spec verify l 0) as H.
  destruct (failingProof verify 0 l) as [n|]; [|by left]. right. destruct H as (l1 & a & l2 & E & -> & Ha & Hl). by exists l1, a, l2.
Qed.

(** for a scheme whose valid signatures are those made with the secret of the key and
    determine their message, a proof is accepted for the key it was made for and for no
    other. *)
Theorem proof_binds_key verify sign pub sk k pf : (forall s m key, verify (Some s) m key = Some true <-> exists x, pub x = key /\ sign m x = Some s) ->
  (forall m1 m2 x1 x2 s, sign m1 x1 = Some s -> sign m2 x2 = Some s -> m1 = m2) ->
  generateProofOfPossession sign sk (pub sk) = inr pf -> verifyProofOfPossession verify k (Some pf) = true <-> k = pub sk.
Proof.
  intros Hv Hi Hg. unfold generateProofOfPossession in Hg. destruct (sign (POP_DOMAIN +:+ pub sk) sk) as [s|] eqn:Es; [|done]. injection Hg as ->.
  unfold verifyProofOfPossession. split.
  - intros H. destruct (verify (Some pf) (POP_DOMAIN +:+ k) k) as [[]|] eqn:E; [|done..]. apply Hv in E as (x & _ & Ex).
    pose proof (Hi _ _ _ _ _ Ex Es) as Hm. by injection Hm.
  - intros ->. by rewrite (proj2 (Hv pf (POP_DOMAIN +:+ pub sk) (pub sk))) by by exists sk.
Qed.

(** ** The two batch verifications *)

(** the batch verification that checks lengths accepts only what the other one accepts;
    they agree if the library refuses signatures and keys of other lengths. *)
Theorem batch_verifications_agree verify ms ss ks :
  (verifyBatchEd25519 verify ms ss ks = inr true -> verifyEd25519Batch verify ms ss ks = inr true) /\
  ((forall s m k, verify (Some s) m k = Some true -> String.length s = 64%nat /\ String.length k = 32%nat) ->
   verifyBatchEd25519 verify ms ss ks = verifyEd25519Batch verify ms ss ks).
Proof.
  unfold verifyBatchEd25519, verifyEd25519Batch. destruct (mismatched ms ss ks); [done|].
  assert (Hle : forall m s k, or_value false (verifyEd25519 verify m s k) = true -> default false (verify (Some s) m k) = true).
  { intros m s k. unfold verifyEd25519. destruct (negb _); [done|]. destruct (negb _); [done|]. by destruct (verify (Some s) m k). }
  split.
  - intros [= H]. f_equal. unfold everyOne in *. rewrite forallb_forall in *. intros x Hx. apply Hle, H, Hx.
  - intros Hlen. f_equal. unfold everyOne. induction (zip ms (zip ss ks)) as [|[m [s k]] l IH]; [done|]. cbn [forallb fst snd]. rewrite IH. f_equal.
    specialize (Hlen s m k). unfold verifyEd25519. destruct (verify (Some s) m k) as [[]|] eqn:E; [by destruct (Hlen eq_refl) as [-> ->]| |];
      by destruct (negb (String.length s =? 64)%nat), (negb (String.length k =? 32)%nat).
Qed.

Module Examples.

(** A signature is the one-letter key before the message; the sum of points is as long as
    its terms. *)
Definition sign (m x : string) : option string := if (String.length x =? 1)%nat then Some (x +:+ m) else None.
Definition verify (s : option string) (m k : string) : option bool :=
  match s with Some s => Some ((String.length k =? 1)%nat && String.eqb s (k +:+ m)) | None => None end.
Fixpoint dots (n : nat) : string := match n with O => "" | S n' => String "."%char (dots n') end.
Definition add (x y : string) : option string := Some (dots (String.length x + String.length y)).
Definition verifyShort (s k : string) (m : option string) : option bool :=
  match m with Some m => Some ((String.length s =? String.length k + String.length m)%nat) | None => None end.

Definition options (p : Z) : Options := new_BatchValidator 8 (mkGiven (Some (Some 2)) (Some (Some p)) None).
Definition attest (k m : string) : Signed := mkSigned (AText m) (k +:+ m) k (sign (POP_DOMAIN +:+ k) k).
Definition forged (k m : string) : Signed := mkSigned (AText m) "?" k None.
Definition batch : list Signed := [attest "a" "m1"; attest "b" "m2"; forged "c" "m3"; attest "d" "m4"; attest "e" "m5"].

Lemma validation_partitions_witness : (2 <= 3 /\ 1 <= 2 /\ (length batch < 6)%nat) /\
  exists parts r, validateBatch verify add verifyShort (options 3) 6 batch BLS12_381 = Some r /\
    answered verify add verifyShort (options 3) BLS12_381 batch r parts.
Proof. split; [cbn; lia|]. apply (validation_partitions verify add verifyShort (options 3) 3); [reflexivity|lia|cbn; lia|cbn; lia]. Defined.

Lemma ed25519_batch_exact_witness : (2 <= 3 /\ 1 <= 2 /\ (length batch < 6)%nat) /\
  exists r, validateBatch verify add verifyShort (options 3) 6 batch Ed25519 = Some r /\ valid r = forallb (genuine verify) batch /\
    verified r + failed r = 5 /\ (valid r = true -> failed r = 0) /\ 0 <= verified r <= genuineCount verify batch.
Proof. split; [cbn; lia|]. apply (ed25519_batch_exact verify add verifyShort (options 3) 3 batch 6); [reflexivity|lia|cbn; lia|cbn; lia]. Defined.

(** On a machine with one processor, the batch over the default limit *)
Lemma one_worker_never_ends_witness : let o := new_BatchValidator 1 (mkGiven None None None) in
  (parallelism o = Some 1 /\ 1 < 2 /\ exceeds o (Z.of_nat (length (repeat (attest "a" "m") 513))) = true) /\
  forall fuel, validateBatch verify add verifyShort o fuel (repeat (attest "a" "m") 513) Ed25519 = None.
Proof.
  intros o. split; [by vm_compute|].
  apply (one_worker_never_ends verify add verifyShort o 1 (repeat (attest "a" "m") 513) Ed25519); [reflexivity|lia|done|by vm_compute].
Defined.

Definition told (k m : string) (other : string) : Signed := mkSigned (AText other) (k +:+ m) k None.
Lemma later_messages_unchecked_witness : small (options 3) [attest "a" "m"; attest "b" "m"] /\
  validateBatch verify add verifyShort (options 3) 1 [attest "a" "m"; attest "b" "m"] BLS12_381 =
  validateBatch verify add verifyShort (options 3) 1 [attest "a" "m"; told "b" "m" "never signed"] BLS12_381.
Proof.
  split; [reflexivity|].
  apply (later_messages_unchecked verify add verifyShort (options 3) 1 (attest "a" "m") (attest "a" "m") [attest "b" "m"] [told "b" "m" "never signed"]); reflexivity.
Defined.

Lemma length_dots n : String.length (dots n) = n.
Proof. induction n; cbn; by f_equal. Qed.

Lemma aggregate_unordered_witness : Permutation ["a"; "bb"] ["bb"; "a"] /\ aggregateBLSSignatures add ["a"; "bb"] = aggregateBLSSignatures add ["bb"; "a"].
Proof.
  split; [constructor|]. apply (aggregate_unordered add ["a"; "bb"] ["bb"; "a"]); [| |constructor].
  - intros x y. unfold add. by rewrite Nat.add_comm.
  - intros x y z. cbn. unfold add. rewrite !length_dots. do 2 f_equal. lia.
Defined.

Lemma proof_binds_key_witness : generateProofOfPossession sign "a" "a" = inr ("a" +:+ POP_DOMAIN +:+ "a") /\
  (verifyProofOfPossession verify "b" (Some ("a" +:+ POP_DOMAIN +:+ "a")) = true <-> "b" = "a").
Proof.
  split; [reflexivity|]. apply (proof_binds_key verify sign id "a" "b"); [| |reflexivity].
  - intros s m key. unfold verify, sign. split.
    + intros [= H]. apply andb_true_iff in H as [H1 ->%String.eqb_eq]. exists key. by rewrite H1.
    + intros (x & <- & H). cbn [id]. destruct (String.length x =? 1)%nat; [|done]. injection H as <-. by rewrite String.eqb_refl.
  - intros m1 m2 x1 x2 s. unfold sign. destruct x1 as [|c1 [|? ?]]; [done| |done]. destruct x2 as [|c2 [|? ?]]; [done| |done].
    intros H1 H2. cbn in H1, H2. injection H1 as <-. by injection H2.
Defined.

(** One forged signature fails the attestations of its part with it. *)
Example part_fails : validateBatch verify add verifyShort (options 3) 6 batch Ed25519 = Some (mkResult false 3 2 None).
Proof. reflexivity. Qed.

(** A number of workers that is given as [undefined] validates nothing and accepts it. *)
Example undefined_workers_accept : let o := new_BatchValidator 8 (mkGiven (Some (Some 2)) (Some None) None) in
  validateBatch verify add verifyShort o 6 [forged "a" "x"; forged "b" "y"; forged "c" "z"] Ed25519 = Some (mkResult true 0 0 None).
Proof. reflexivity. Qed.

(** A requirement that is given as [undefined] is dropped, although the default is true. *)
Example undefined_requirement_dropped : let o := new_BatchValidator 8 (mkGiven None None (Some None)) in let a := told "a" "m" "m" in
  verifyProofOfPossession verify "a" (proof a) = false /\ validateWithPop verify add verifyShort o 6 [a] Ed25519 = Some (mkResult true 1 0 None).
Proof. split; reflexivity. Qed.

(** A limit of zero is not replaced by the default: no call stack suffices. *)
Example zero_limit_overflows : let o := new_BatchValidator 8 (mkGiven (Some (Some 0)) None None) in
  validateBatch verify add verifyShort o 100 [attest "a" "m"] Ed25519 = None.
Proof. reflexivity. Qed.
End Examples.
