(* ===== verification/Server.v ===== *)
(** * The server ([src/index.js], [src/shutdown.js], [src/src/api/admin_routes.ts],
      [config-drift/routes.ts])

    What a request meets: the JSON parser, the rate limiter of [RateLimiter], the peer check
    of [Mtls], and a route; how tracing is started; the administration of [TwoPhaseController]
    over HTTP; and the shutdown as an event system.  Which route a path matches is Express's
    affair: a request carries it.

    [peers_gated]: once a certificate is loaded, only allowed peers are answered by a route, and
    every refusal is counted once.
    [admin_resolution]: the answer of the administration route tells what became of the row.
    [exit_zero_persisted], [open_connection_blocks]: how a shutdown can end. *)

From Stdlib Require Import ZArith Lia Ascii String.
From stdpp Require Import base numbers list strings gmap.
From S2P Require Import Prelude Js Text Number Config NodeTables RollbackHandler TwoPhaseController Mtls RateLimiter Logger Tracing.
#[local] Open Scope Z_scope.

(** ** Requests *)

Inductive Route :=
| Root
| TracesConfig
| HealthPools
| MetricsRoute
| Renew (contractId : string)
| DriftLatest
| DriftHistory (limit : option string)
| DriftUi
| NoRoute.

Record Request := mkRequest {
  well_formed : bool;                        (* its body is JSON, or there is none *)
  path : string;
  client : string;
  authorized : bool;
  peerAltName : option string;
  route : Route
}.

Inductive Chunk := PoolsText (s : string) | QueueText (s : string) | MtlsText (m : MtlsMetricsSnapshot) (failures invalid : Z) | CacheText (s : string).

Inductive Body :=
| Running
| Traces (c : TraceConfig)
| Pools (health : string)
| Scrape (chunks : list Chunk)
| Renewed (ttl : Z) (txHash : string)
| Drift (latest : option string) (history : list string)
| DriftList (history : list string)
| Page
| Failure (message : string).

Record Response := mkResponse { status : Z; body : Body; retryAfter : option string }.
Definition answer (status : Z) (b : Body) : Response := mkResponse status b None.

(** The parts that the routes ask, where they are there *)
Record Services := mkServices {
  traceConfig : option TraceConfig;
  pools : option (string * string);                     (* health and metrics *)
  deadLetters : option (option string);                 (* metrics; [Some None] is a rejection *)
  cache : option string;
  archival : option (string -> string + Z * string);    (* [renewNow] *)
  latest : option string;
  history : number -> list string
}.

Definition TIERS : list (string * RateLimitTier) :=
  [("/", free); ("/debug/traces/config", pro); ("/health/pools", enterprise); ("/metrics", free); ("/debug/config-drift", pro);
   ("/debug/config-drift/history", pro); ("/debug/config-drift/ui", pro); ("/internal/archival/renew/:contractId", enterprise)].

Record Server := mkServer { manager : option Manager; buckets : jsmap string BucketState }.

(** The check of the peer; [None] goes on *)
Definition peerCheck (c : MtlsConfig) (mgr : option Manager) (r : Request) : option Manager * option Response :=
  match mgr with
  | Some m =>
      match loaded m with
      | None => (Some m, None)
      | Some _ =>
          if negb (authorized r) then (Some (recordHandshakeFailure m), Some (answer 401 (Failure "mTLS client certificate required")))
          else if validatePeerCertificate (peerAltName r) (or_else (Some (c_trustDomain c)) "cluster.local") (allowedSpiffeIds c) then (Some m, None)
          else (Some (recordInvalidPeerIdentity m), Some (answer 403 (Failure "mTLS peer SPIFFE identity is not allowed")))
      end
  | None => (None, None)
  end.

(** [Math.min(Number(limit ?? 100), 1000)] *)
Definition historyLimit (o : option string) : number :=
  let n := match o with Some s => Number_ s | None => int 100 end in num_min n (int 1000).

(** The chunks of a scrape; [None] where a source fails *)
Definition scrapeChunks (now : Z) (mgr : option Manager) (sv : Services) : option (list Chunk) :=
  let opt {A} (o : option A) (f : A -> Chunk) := match o with Some a => [f a] | None => [] end in
  match deadLetters sv with
  | Some None => None
  | dl =>
      Some (opt (pools sv) (fun p => PoolsText p.2) ++ opt (dl ≫= id) QueueText ++
            opt mgr (fun m => MtlsText (metricsSnapshot now m) (handshakeFailuresTotal m) (invalidPeerIdentityFailuresTotal m)) ++
            opt (cache sv) CacheText)
  end.

Definition dispatch (now : Z) (mgr : option Manager) (sv : Services) (r : Route) : Response :=
  match r with
  | Root => answer 200 Running
  | TracesConfig => match traceConfig sv with Some c => answer 200 (Traces c) | None => answer 503 (Failure "tracing not initialised") end
  | HealthPools => match pools sv with Some p => answer 200 (Pools p.1) | None => answer 503 (Failure "pool router not initialised") end
  | MetricsRoute =>
      match scrapeChunks now mgr sv with
      | None => answer 500 (Failure "rejected")
      | Some [] => answer 503 (Failure "# metrics sources not initialised")
      | Some l => answer 200 (Scrape l)
      end
  | Renew c =>
      match archival sv with
      | None => answer 503 (Failure "archival listener not initialised")
      | Some renewNow => match renewNow c with inr (ttl, hash) => answer 200 (Renewed ttl hash) | inl e => answer 500 (Failure e) end
      end
  | DriftLatest => answer 200 (Drift (latest sv) (history sv (int 100)))
  | DriftHistory l => answer 200 (DriftList (history sv (historyLimit l)))
  | DriftUi => answer 200 Page
  | NoRoute => answer 404 (Failure "not found")
  end.

Section requests.
Context (patternMatches : string -> string -> bool) (c : MtlsConfig).

(** [express.json()], the rate limiter, the peer check, the routes *)
Definition handleRequest (now : Z) (sv : Services) (r : Request) (s : Server) : Server * Response :=
  if negb (well_formed r) then (s, answer 400 (Failure "malformed body"))
  else
    let '(b, limited) := handle patternMatches TIERS free (buckets s) (path r) (client r) now in
    match limited with
    | TooManyRequests after => (mkServer (manager s) b, mkResponse 429 (Failure "Rate limit exceeded") (Some after))
    | NextError => (mkServer (manager s) b, answer 500 (Failure "rate limiter"))
    | Next =>
        let '(mgr, refused) := peerCheck c (manager s) r in
        (mkServer mgr b, match refused with Some x => x | None => dispatch now mgr sv (route r) end)
    end.

Fixpoint serve (l : list (Z * Services * Request)) (s : Server) : Server * list Response :=
  match l with
  | [] => (s, [])
  | (now, sv, r) :: l' => let '(s1, x) := handleRequest now sv r s in let '(s2, xs) := serve l' s1 in (s2, x :: xs)
  end.
End requests.

(** ** Start *)

(** Which of the two initialisations of tracing runs *)
Definition startTracing (o : option OtelConfig) (h : Host) (disabled starts : bool) (t : Tracer) : Tracer * option TraceConfig :=
  match o with
  | Some c => if bool_decide (enabled c = Some false) then initTracing h disabled starts t else initTracingFromConfig c h disabled starts t
  | None => initTracing h disabled starts t
  end.

(** [getConfigValue('app.port') || 3000] with a configuration, [process.env.PORT || 3000] without:
    a number or a text *)
Definition portOf (config : option (option Z)) (PORT : option string) : Z + string :=
  match config with
  | Some o => inl (match o with Some p => if p =? 0 then 3000 else p | None => 3000 end)
  | None => match PORT with Some s => if falsy s then inl 3000 else inr s | None => inl 3000 end
  end.

(** ** Administration *)

Module Admin.
Inductive Outcome :=
| NodeRequired
| BadAction
| NoPendingRow (node : string)
| Resolved (action : Resolution) (node : string) (outcome : ResolveOutcome)
| Failed (e : ControllerError).

Definition statusOf (o : Outcome) : Z :=
  match o with NodeRequired | BadAction => 400 | NoPendingRow _ => 404 | Resolved _ _ _ => 200 | Failed _ => 500 end.

Definition resolutionOf (action : option string) : option Resolution :=
  match action with
  | Some a => if String.eqb a "commit" then Some ResolveCommit else if String.eqb a "rollback" then Some ResolveRollback else None
  | None => None
  end.

(** [controller.resolveTentative], with the faults of its two awaits *)
Definition resolveCall (now : Z) (fault1 fault2 : bool) (node : string) (res : Resolution) : M NodeDb ControllerError (bool * ResolveOutcome) :=
  let! row := resolveBegin fault1 node in
  match row with
  | None => ret (false, OutNoPendingRow)
  | Some row => let! o := resolveFinish now fault2 node row res in ret (true, o)
  end.

Definition resolveTentativeState (now : Z) (fault1 fault2 : bool) (nodeId : string) (action : option string) (d : NodeDb) : NodeDb * Outcome :=
  if falsy nodeId then (d, NodeRequired)
  else match resolutionOf action with
       | None => (d, BadAction)
       | Some res =>
           match resolveCall now fault1 fault2 nodeId res d with
           | (d', inr (true, o)) => (d', Resolved res nodeId o)
           | (d', inr (false, _)) => (d', NoPendingRow nodeId)
           | (d', inl e) => (d', Failed e)
           end
       end.
End Admin.

(** ** Shutdown *)

Module Shutdown.
Inductive Phase := Serving | Closing | Draining | Persisting.

Record State := mkState { phase : Phase; isShuttingDown : bool; activeConnections : list nat; persistCalls : nat; persisted : bool; exited : option Z }.
Definition initial : State := mkState Serving false [] 0 false None.

(** The sockets, the signals, the callback of [server.close], which comes when no connection is
    left, the timers, and the answer of [onPersist] *)
Inductive Event :=
| Connected (s : nat)
| Disconnected (s : nat)
| Signal
| ServerClosed
| DrainTick
| DrainTimeout
| Persisted (ok : bool)
| PersistTimeout
| ForceTimeout.

Definition exit_ (code : Z) (s : State) : State :=
  mkState (phase s) (isShuttingDown s) (activeConnections s) (persistCalls s) (persisted s) (Some code).
Definition in_phase (p : Phase) (s : State) : State :=
  mkState p (isShuttingDown s) (activeConnections s) (persistCalls s) (persisted s) (exited s).
Definition set_connections (f : list nat -> list nat) (s : State) : State :=
  mkState (phase s) (isShuttingDown s) (f (activeConnections s)) (persistCalls s) (persisted s) (exited s).

Section shutdown.
Context (onPersist : bool).                              (* given in the options *)

(** The third promise: [onPersist] is called, or there is nothing to wait for. *)
Definition persistStep (s : State) : State :=
  if onPersist then mkState Persisting (isShuttingDown s) (activeConnections s) (S (persistCalls s)) (persisted s) (exited s)
  else exit_ 0 (in_phase Persisting s).

Definition step (s : State) (e : Event) : State :=
  match exited s with
  | Some _ => s
  | None =>
      match e, phase s with
      | Connected c, Serving => set_connections (fun l => l ++ [c]) s
      | Disconnected c, _ => set_connections (fun l => filter (fun x => x <> c) l) s
      | Signal, Serving => mkState Closing true (activeConnections s) (persistCalls s) (persisted s) None
      | ServerClosed, Closing => match activeConnections s with [] => in_phase Draining s | _ => s end
      | DrainTick, Draining => match activeConnections s with [] => persistStep s | _ => s end
      | DrainTimeout, Draining => persistStep s
      | Persisted true, Persisting => exit_ 0 (mkState Persisting (isShuttingDown s) (activeConnections s) (persistCalls s) true None)
      | Persisted false, Persisting => exit_ 1 s
      | PersistTimeout, Persisting => exit_ 1 s
      | ForceTimeout, (Closing | Draining | Persisting) => exit_ 1 s
      | _, _ => s
      end
  end.
Definition run (es : list Event) (s : State) : State := foldl step s es.
End shutdown.
End Shutdown.

(** ** Peers *)

Definition allowedPeer (c : MtlsConfig) (r : Request) : Prop :=
  authorized r = true /\ validatePeerCertificate (peerAltName r) (or_else (Some (c_trustDomain c)) "cluster.local") (allowedSpiffeIds c) = true.

Definition answers (code : Z) (xs : list Response) : Z := Z.of_nat (length (filter (fun x => status x = code) xs)).

(** The statuses that a route answers *)
Lemma dispatch_status now mgr sv r : status (dispatch now mgr sv r) ∈ [200; 404; 500; 503].
Proof.
  destruct r; cbn; repeat case_match; cbn; set_solver.
Qed.

(** One request to a server with a certificate *)
Definition gated (c : MtlsConfig) (m m' : Manager) (r : Request) (x : Response) : Prop :=
  loaded m' = loaded m /\
  handshakeFailuresTotal m' = handshakeFailuresTotal m + answers 401 [x] /\
  invalidPeerIdentityFailuresTotal m' = invalidPeerIdentityFailuresTotal m + answers 403 [x] /\
  (allowedPeer c r /\ status x ∉ [401; 403] \/ ~ allowedPeer c r /\ status x ∈ [400; 401; 403; 429]).

Lemma answers_one code x : answers code [x] = if decide (status x = code) then 1 else 0.
Proof. unfold answers. rewrite filter_cons. by case_decide. Qed.

Ltac by_status := rewrite ?answers_one in *; rewrite ?elem_of_cons, ?elem_of_nil in *; repeat case_decide; cbn [status answer] in *; lia.

Lemma allowedPeer_dec c r : allowedPeer c r \/ ~ allowedPeer c r.
Proof. unfold allowedPeer. destruct (authorized r), (validatePeerCertificate _ _ _); intuition congruence. Qed.

Lemma gated_other c m r x : status x ∈ [400; 429] -> gated c m m r x.
Proof.
  intros H. unfold gated. split; [done|]. split; [by_status|]. split; [by_status|].
  destruct (allowedPeer_dec c r); [left|right]; (split; [done|by_status]).
Qed.

Lemma handleRequest_gated pm c now sv r s m : manager s = Some m -> is_Some (loaded m) ->
  let '(s', x) := handleRequest pm c now sv r s in exists m', manager s' = Some m' /\ gated c m m' r x.
Proof.
  intros Hm [cert Hl]. unfold handleRequest. destruct (well_formed r); cbn [negb]; [|exists m; split; [done|apply gated_other; by_status]].
  unfold handle. destruct (consume _ _ _ _ _) as [b [[] ?]]; cbn [respond allowed]; [|exists m; split; [done|apply gated_other; by_status]].
  unfold peerCheck. rewrite Hm, Hl. destruct (authorized r) eqn:Ha; cbn [negb]; [destruct (validatePeerCertificate _ _ _) eqn:Ev; cbn [manager]|];
    (eexists; split; [done|]); unfold gated; cbn [loaded recordHandshakeFailure recordInvalidPeerIdentity handshakeFailuresTotal invalidPeerIdentityFailuresTotal].
  - pose proof (dispatch_status now (Some m) sv (route r)) as H. split_and!; [done|by_status|by_status|]. left. split; [done|by_status].
  - split_and!; [done|by_status|by_status|]. right. split; [by intros [_ H]; rewrite Ev in H|by_status].
  - split_and!; [done|by_status|by_status|]. right. split; [by intros [H _]; rewrite Ha in H|by_status].
Qed.

Lemma answers_cons code x xs : answers code (x :: xs) = answers code [x] + answers code xs.
Proof. rewrite answers_one. unfold answers. rewrite filter_cons. case_decide; cbn [length]; lia. Qed.

(** once a certificate is loaded, a request is answered by a route only if its peer was
    verified and carries an allowed identity; every request that is refused for its peer is
    counted once, under its reason, and nothing else is. *)
Theorem peers_gated pm c l s m : manager s = Some m -> is_Some (loaded m) ->
  let '(s', xs) := serve pm c l s in
  Forall2 (fun q x => allowedPeer c q.2 /\ status x ∉ [401; 403] \/ ~ allowedPeer c q.2 /\ status x ∈ [400; 401; 403; 429]) l xs /\
  exists m', manager s' = Some m' /\ loaded m' = loaded m /\
    handshakeFailuresTotal m' = handshakeFailuresTotal m + answers 401 xs /\
    invalidPeerIdentityFailuresTotal m' = invalidPeerIdentityFailuresTotal m + answers 403 xs.
Proof.
  revert s m. induction l as [|[[now sv] r] l IH]; intros s m Hm Hl; cbn [serve].
  { split; [constructor|]. exists m. unfold answers. cbn. split_and!; [done|done|lia|lia]. }
  pose proof (handleRequest_gated pm c now sv r s m Hm Hl) as H1. destruct (handleRequest pm c now sv r s) as [s1 x].
  destruct H1 as (m1 & Hm1 & Hl1 & Hh & Hi & Hx). rewrite <- Hl1 in Hl. specialize (IH s1 m1 Hm1 Hl). destruct (serve pm c l s1) as [s' xs].
  destruct IH as (HF & m' & Hm' & Hl' & Hh' & Hi'). split; [by constructor|]. exists m'. rewrite (answers_cons 401), (answers_cons 403), Hl'. split_and!; [done|done|lia|lia].
Qed.

(** ** Administration *)

Module AdminFacts.
Import Admin.

(** the answer of the administration route tells what became of the row: it is resolved
    exactly if the answer is 200, committed or rolled back with everything speculative as was
    asked; 404 comes only where no row is pending; every other answer leaves the database
    as it was. *)
Theorem admin_resolution now fault1 fault2 node action d :
  let '(d', o) := resolveTentativeState now fault1 fault2 node action d in
  match o with
  | Resolved res n out => n = node /\ resolutionOf action = Some res /\ exists row, tentativeOf node d = Some row /\ t_state row = PENDING /\
      match res with
      | ResolveCommit => out = OutCommitted /\ d' = fst (commitTx now false node (target_status row) (Some "Admin force-commit") d)
      | ResolveRollback => out = OutRolledBack /\
          d' = cascaded now node (idempotency_key row) (target_status row) "Admin force-rollback via /internal/state/resolve-tentative" row d
      end
  | NoPendingRow n => d' = d /\ n = node /\ hasPending node d = false
  | NodeRequired => d' = d /\ node = ""
  | BadAction => d' = d /\ resolutionOf action = None
  | Failed _ => d' = d /\ (fault1 = true \/ fault2 = true)
  end.
Proof.
  unfold resolveTentativeState. destruct (falsy node) eqn:En; [split; [done|]; unfold falsy in En; by apply bool_decide_eq_true in En|].
  destruct (resolutionOf action) as [res|] eqn:Er; [|done]. unfold resolveCall, resolveBegin, onDb, zoom, fetchTentativeRow, may_fail, guard, bind, gets, ret, throw.
  destruct fault1; cbn; [by split; [|left]|]. destruct (tentativeOf node d) as [row|] eqn:Et; [|cbn; split_and!; [done|done|unfold hasPending; by rewrite Et]].
  destruct (isPending row) eqn:Ep; [|cbn; split_and!; [done|done|unfold hasPending; by rewrite Et]].
  assert (Hs : t_state row = PENDING) by (unfold isPending in Ep; by apply bool_decide_eq_true in Ep).
  unfold resolveFinish, onDb, zoom, bind, ret. destruct res.
  - destruct fault2; cbn; [by split; [|right]|]. split_and!; [done|done|]. exists row. done.
  - destruct fault2.
    + rewrite (rollback_fails now node (idempotency_key row) (target_status row) _ d). by split; [|right].
    + rewrite (rollback_claims now node (idempotency_key row) (target_status row) _ d row Et Hs). split_and!; [done|done|]. exists row. done.
Qed.
End AdminFacts.

(** ** Shutdown *)

Module ShutdownFacts.
Import Shutdown.

Section shutdown.
Context (onPersist : bool).

(** What holds in every state *)
Record Inv (s : State) : Prop := {
  inv_drained : phase s = Draining \/ phase s = Persisting -> activeConnections s = [];
  inv_persist : persistCalls s = (if onPersist then match phase s with Persisting => 1 | _ => 0 end else 0)%nat;
  inv_shutting : isShuttingDown s = true <-> phase s <> Serving;
  inv_persisted : persisted s = true -> exited s = Some 0 /\ onPersist = true;
  inv_zero : exited s = Some 0 -> phase s = Persisting /\ persisted s = onPersist;
  inv_waits : phase s = Persisting -> exited s = None -> onPersist = true;
  inv_exit : is_Some (exited s) -> phase s <> Serving /\ (exited s = Some 0 \/ exited s = Some 1)
}.

(** A state of a process that has not exited *)
Lemma inv_running p sh cs pc : (p = Draining \/ p = Persisting -> cs = []) ->
  pc = (if onPersist then match p with Persisting => 1 | _ => 0 end else 0)%nat -> (sh = true <-> p <> Serving) ->
  (p = Persisting -> onPersist = true) -> Inv (mkState p sh cs pc false None).
Proof. intros H1 H2 H3 H4. split; cbn; try done; auto. Qed.

(** and of one that has *)
Lemma inv_exited cs pc b code : cs = [] -> pc = (if onPersist then 1 else 0)%nat -> code = 0 /\ b = onPersist \/ code = 1 /\ b = false ->
  Inv (mkState Persisting true cs pc b (Some code)).
Proof.
  intros H1 H2 H3. split; cbn; [done|done|done| | |done|].
  - intros ->. by destruct H3 as [[-> <-]|[_ ?]].
  - intros [= ->]. by destruct H3 as [[_ ->]|[? _]].
  - intros _. split; [done|]. destruct H3 as [[-> _]|[-> _]]; [by left|by right].
Qed.

Lemma inv_forced p sh cs pc : Inv (mkState p sh cs pc false None) -> p <> Serving -> Inv (mkState p sh cs pc false (Some 1)).
Proof. intros [H1 H2 H3 _ _ _ _] Hp. split; cbn in *; try done. intros _. split; [done|by right]. Qed.

Lemma inv_initial : Inv initial.
Proof. apply inv_running; [by intros [?|?]|by destruct onPersist|done|done]. Qed.

Lemma inv_step s e : Inv s -> Inv (step onPersist s e).
Proof.
  intros H. destruct s as [p sh cs pc b [code|]]; [done|]. assert (b = false) as -> by (destruct b; [by destruct (inv_persisted _ H eq_refl)|done]).
  pose proof H as [H1 H2 H3 _ _ H4 _]. cbn in H1, H2, H3, H4. destruct e as [c|c| | | | |[]| |], p; try exact H; cbn; try (by apply (inv_forced _ _ _ _ H)).
  all: try (assert (sh = true) as -> by (apply H3; done)); try (rewrite H1 by (first [by left|by right])).
  all: unfold persistStep, exit_, in_phase, set_connections; cbn; repeat case_match; subst; try exact H; try (discriminate (H4 eq_refl eq_refl));
    try (apply inv_exited; [done|by destruct onPersist|by destruct onPersist; auto]); try (by apply inv_running; destruct onPersist).
  all: apply inv_running; [naive_solver|by destruct onPersist|done|done].
Qed.

Lemma inv_run es s : Inv s -> Inv (run onPersist es s).
Proof. revert s. induction es as [|e es IH]; intros s H; [done|]. by apply IH, inv_step. Qed.
Lemma run_app es1 es2 s : run onPersist (es1 ++ es2) s = run onPersist es2 (run onPersist es1 s).
Proof. apply foldl_app. Qed.

Lemma step_exited s e : is_Some (exited s) -> step onPersist s e = s.
Proof. intros [code H]. unfold step. by rewrite H. Qed.

Lemma run_exited es s : is_Some (exited s) -> run onPersist es s = s.
Proof. intros H. induction es as [|e es IH]; [done|]. cbn. by rewrite step_exited. Qed.
End shutdown.

(** a process exits with 0 only when it was told to shut down, no connection is open, and
    [onPersist], if there is one, was called once and has succeeded; and then it does not go on. *)
Theorem exit_zero_persisted onPersist es es' : let s := run onPersist es initial in exited s = Some 0 ->
  isShuttingDown s = true /\ activeConnections s = [] /\ persistCalls s = (if onPersist then 1 else 0)%nat /\ persisted s = onPersist /\
  run onPersist (es ++ es') initial = s.
Proof.
  intros s H. pose proof (inv_run onPersist es initial (inv_initial onPersist)) as HI. fold s in HI. destruct (inv_zero _ _ HI H) as [Hp Hq].
  split_and!; [apply (inv_shutting _ _ HI); by rewrite Hp|apply (inv_drained _ _ HI); by right|by rewrite (inv_persist _ _ HI), Hp|done|].
  rewrite run_app. fold s. apply run_exited. by exists 0.
Qed.

(** after a signal the process exits at the latest when the force timer ends. *)
Theorem shutdown_ends onPersist es1 es2 : ForceTimeout ∈ es2 -> isShuttingDown (run onPersist es1 initial) = true ->
  exists code, exited (run onPersist (es1 ++ es2) initial) = Some code /\ (code = 0 \/ code = 1).
Proof.
  intros (l1 & l2 & ->)%list_elem_of_split Hs. pose proof (inv_run onPersist es1 initial (inv_initial onPersist)) as H1. rewrite app_assoc, run_app.
  assert (Hs2 : isShuttingDown (run onPersist (es1 ++ l1) initial) = true).
  { rewrite run_app. clear H1. revert Hs. generalize (run onPersist es1 initial). induction l1 as [|e l1 IH]; intros s Hs; [done|]. cbn. apply IH.
    unfold step. destruct (exited s); [done|]. destruct e as [| | | | | |[]| |], (phase s); try done; repeat case_match; try done; unfold persistStep; by destruct onPersist. }
  pose proof (inv_run onPersist (es1 ++ l1) initial (inv_initial onPersist)) as H2. set (s := run onPersist (es1 ++ l1) initial) in *.
  assert (He : is_Some (exited (step onPersist s ForceTimeout))).
  { unfold step. destruct (exited s) as [code|] eqn:E; [rewrite E; by exists code|]. destruct (phase s) eqn:Ep; [|by exists 1..]. by apply (inv_shutting _ _ H2) in Hs2. }
  pose proof (inv_exit _ _ (inv_step _ s ForceTimeout H2) He) as [_ Hc]. cbn [run foldl]. rewrite (run_exited onPersist l2 _ He : foldl _ _ _ = _).
  destruct Hc as [->| ->]; eexists; (split; [done|auto]).
Qed.

Lemma step_keeps onPersist s e c : c ∈ activeConnections s -> Disconnected c <> e -> c ∈ activeConnections (step onPersist s e).
Proof.
  intros Hc Hne. unfold step. destruct (exited s); [done|]. destruct e as [x|x| | | | |[]| |], (phase s); try done; cbn.
  all: try (apply elem_of_app; by left). all: try (apply list_elem_of_filter; split; [congruence|done]).
  all: unfold persistStep; destruct (activeConnections s) eqn:E, onPersist; cbn; by rewrite ?E.
Qed.

(** a connection that stays open keeps the server from closing: nothing is persisted, however
    long the drain timeout is, and the process does not exit with 0. *)
Theorem open_connection_blocks onPersist es1 es2 c : c ∈ activeConnections (run onPersist es1 initial) -> Disconnected c ∉ es2 ->
  let s := run onPersist (es1 ++ es2) initial in c ∈ activeConnections s /\ persistCalls s = 0%nat /\ exited s <> Some 0.
Proof.
  intros Hc He s. assert (Hcs : c ∈ activeConnections s).
  { unfold s. rewrite run_app. revert Hc He. generalize (run onPersist es1 initial). induction es2 as [|e es IH]; intros s0 Hc He; [done|]. cbn.
    apply not_elem_of_cons in He as [Hne He]. apply IH; [|done]. by apply step_keeps. }
  pose proof (inv_run onPersist (es1 ++ es2) initial (inv_initial onPersist)) as HI. fold s in HI.
  assert (Hp : phase s <> Persisting) by (intros Hp; rewrite (inv_drained _ _ HI) in Hcs by (by right); by apply elem_of_nil in Hcs).
  split_and!; [done| |intros H; by destruct (inv_zero _ _ HI H)]. rewrite (inv_persist _ _ HI). destruct onPersist; [|done]. by destruct (phase s).
Qed.
End ShutdownFacts.

Module Examples.

Import Shutdown ShutdownFacts.

Definition conf : MtlsConfig := mtlsConfigFromEnv (fun k => if String.eqb k "MTLS_TRUST_DOMAIN" then Some "cluster.local" else None).
Definition cert : LoadedCertificate := mkLoaded "C" "K" "CA" [] 0.
Definition mgr : Manager := mkManager (Some cert) "h" true 0 0 0 0 [] (int 0) 0.
Definition server : Server := mkServer (Some mgr) ∅.
Definition services : Services := mkServices None None (Some (Some "dlq")) None None None (fun _ => []).
Definition req (ok : bool) (san : option string) (r : Route) : Request := mkRequest true "/metrics" "10.0.0.1" ok san r.
Definition noPattern (p s : string) : bool := false.
Definition traffic : list (Z * Services * Request) :=
  [(0, services, req false None Root); (10000, services, req true (Some "URI:spiffe://elsewhere/ns/x") MetricsRoute);
   (20000, services, req true (Some "URI:spiffe://cluster.local/ns/verinode/sa/api") Root)].

Lemma peers_gated_witness : (manager server = Some mgr /\ is_Some (loaded mgr)) /\
  let '(s', xs) := serve noPattern conf traffic server in
  Forall2 (fun q x => allowedPeer conf q.2 /\ status x ∉ [401; 403] \/ ~ allowedPeer conf q.2 /\ status x ∈ [400; 401; 403; 429]) traffic xs /\
  exists m', manager s' = Some m' /\ loaded m' = loaded mgr /\
    handshakeFailuresTotal m' = handshakeFailuresTotal mgr + answers 401 xs /\
    invalidPeerIdentityFailuresTotal m' = invalidPeerIdentityFailuresTotal mgr + answers 403 xs.
Proof. split; [split; [reflexivity|by exists cert]|]. apply (peers_gated noPattern conf traffic server mgr); [reflexivity|by exists cert]. Defined.

Example statuses : status <$> (serve noPattern conf traffic server).2 = [401; 403; 200].
Proof. vm_compute. reflexivity. Qed.

(** A body that is not JSON is answered before the limiter and the peer check. *)
Example malformed_bodies_unlimited now sv s : let r := mkRequest false "/" "10.0.0.1" false None Root in
  handleRequest noPattern conf now sv r s = (s, answer 400 (Failure "malformed body")).
Proof. reflexivity. Qed.

(** A limit of zero is the whole history. *)
Example zero_limit_is_all : historyLimit (Some "0") = int 0 /\ historyLimit (Some "x") = NaN.
Proof. by vm_compute. Qed.

(** Tracing that the configuration disables is started from the environment. *)
Example disabled_tracing_starts : let h := Tracing.Examples.host [("OTEL_SERVICE_NAME", "node")] in
  initialized (startTracing (Some (mkOtel (Some false) None None None None None)) h false true Tracing.Examples.fresh).1 = true.
Proof. by vm_compute. Qed.

Definition orderly : list Event := [Connected 1; Signal; Disconnected 1; ServerClosed; DrainTick; Persisted true].

Lemma exit_zero_persisted_witness : exited (run true orderly initial) = Some 0 /\
  isShuttingDown (run true orderly initial) = true /\ activeConnections (run true orderly initial) = [] /\
  persistCalls (run true orderly initial) = 1%nat /\ persisted (run true orderly initial) = true /\
  run true (orderly ++ [ForceTimeout]) initial = run true orderly initial.
Proof. split; [reflexivity|]. exact (exit_zero_persisted true orderly [ForceTimeout] eq_refl). Defined.

Lemma shutdown_ends_witness : ForceTimeout ∈ [DrainTimeout; ForceTimeout] /\
  exists code, exited (run true ([Connected 1; Signal] ++ [DrainTimeout; ForceTimeout]) initial) = Some code /\ (code = 0 \/ code = 1).
Proof. split; [by right; left|]. apply (shutdown_ends true [Connected 1; Signal]); [by right; left|reflexivity]. Defined.

(** A connection that stays open *)
Lemma open_connection_blocks_witness : (1%nat ∈ activeConnections (run true [Connected 1; Signal] initial) /\ Disconnected 1 ∉ [DrainTimeout; DrainTick; ForceTimeout]) /\
  let s := run true ([Connected 1; Signal] ++ [DrainTimeout; DrainTick; ForceTimeout]) initial in
  1%nat ∈ activeConnections s /\ persistCalls s = 0%nat /\ exited s <> Some 0.
Proof.
  assert (H1 : 1%nat ∈ activeConnections (run true [Connected 1; Signal] initial)) by by left.
  assert (H2 : Disconnected 1 ∉ [DrainTimeout; DrainTick; ForceTimeout]) by (rewrite !not_elem_of_cons; split_and!; try done; apply not_elem_of_nil).
  split; [done|]. exact (open_connection_blocks true [Connected 1; Signal] [DrainTimeout; DrainTick; ForceTimeout] 1 H1 H2).
Defined.

(** The force timer ends a shutdown that has persisted nothing. *)
Example forced_without_persisting : let s := run true [Connected 1; Signal; DrainTimeout; ForceTimeout] initial in
  (exited s, persistCalls s) = (Some 1, 0%nat).
Proof. reflexivity. Qed.
End Examples.
