(* ===== verification/Gates.v ===== *)
(** * Gates of the build ([src/scripts/dependency-vulnerability-gate.js],
      [scripts/coverage-enforce.js])

    What decides whether a change passes: the counts of an audit report against thresholds, and
    the coverage of statements by module.  Parsed JSON is a [value] of [Config]; how the
    runtime converts an object to a number is an argument.

    [vulnerability_gate_exact]: a report without totals passes exactly if no severity with a
    threshold has more advisories than it allows.
    [coverage_gate_exact]: the doubles of the coverage gate decide as the fractions do. *)

From Stdlib Require Import ZArith Lia Ascii String QArith.
From stdpp Require Import base numbers list strings.
From S2P Require Import Prelude Js Text Number Doubles Config.
#[local] Open Scope Z_scope.

Lemma list_filter_nil_iff {A} (P : A -> Prop) `{!forall x, Decision (P x)} (l : list A) : filter P l = [] <-> forall x, x ∈ l -> ~ P x.
Proof.
  induction l as [|x l IH]; [split; [by intros _ x ?%elem_of_nil|done]|]. rewrite filter_cons. split.
  - case_decide as Hx; [done|]. intros Hl y [->|Hy]%elem_of_cons; [done|by apply IH].
  - intros Hl. rewrite decide_False by (apply Hl; left). apply IH. intros y Hy. apply Hl. by right.
Qed.

Lemma fmap_nil_iff_ {A B} (f : A -> B) l : f <$> l = [] <-> l = [].
Proof. by destruct l. Qed.

(** * Vulnerabilities *)

Module Vulnerabilities.

Definition SEVERITIES : list string := ["info"; "low"; "moderate"; "high"; "critical"].

(** What is thrown *)
Inductive GateError := NotAReport | ScannerError | UnsupportedSeverity (severity : string) | BadThreshold (severity : string).

Definition normalizeSeverity (v : value) : string :=
  match v with VString s => if bool_decide (s ∈ SEVERITIES) then s else "info" | _ => "info" end.

Record Failure := mkFailure { severity : string; allowed : number; found : number }.

Section gate.
Context (objectNumber : value -> number).

(** [Number(v)] *)
Definition toNumber (v : value) : number :=
  match v with
  | VUndefined => NaN
  | VNull => int 0
  | VBool b => if b then int 1 else int 0
  | VNumber n => n
  | VString s => Number_ s
  | VArray _ | VObject _ => objectNumber v
  end.

Definition scannerError (r : value) : bool :=
  truthy (member r "error") || num_ge (toNumber (member r "statusCode")) (int 400) ||
  (truthy (member r "message") && negb (truthy (member r "metadata")) && negb (truthy (member r "vulnerabilities"))).

Definition validateAuditReport (r : value) : option GateError :=
  if negb (hasMembers r) then Some NotAReport else if scannerError r then Some ScannerError else None.

(** [Object.values(v || {})] *)
Definition valuesOf (v : value) : list value :=
  match v with
  | VObject l => l.*2
  | VArray l => l
  | VString s => (fun c => VString (String c "")) <$> list_ascii_of_string s
  | _ => []
  end.

(** [advisory && advisory.severity] *)
Definition severityOf (advisory : value) : string :=
  normalizeSeverity (if truthy advisory then member advisory "severity" else advisory).

Definition zeroCounts : jsmap string number := foldl (fun m s => <[s := int 0]> m) ∅ SEVERITIES.
Definition countOf (m : jsmap string number) (s : string) : number := default (int 0) (m !! s).
(** [n || 0] *)
Definition or_zero (n : number) : number := match n with NaN => int 0 | _ => n end.

Definition advisories (r : value) : list value := valuesOf (member r "vulnerabilities").
(** [report.metadata && report.metadata.vulnerabilities] *)
Definition totals (r : value) : value := member (member r "metadata") "vulnerabilities".

Definition summarizeAuditReport (r : value) : GateError + jsmap string number :=
  match validateAuditReport r with
  | Some e => inl e
  | None =>
      inr (if truthy (member r "metadata") && truthy (totals r) then
             foldl (fun m s => <[s := let v := member (totals r) s in if truthy v then toNumber v else int 0]> m) zeroCounts SEVERITIES
           else
             foldl (fun m a => let s := severityOf a in <[s := num_add (countOf m s) (int 1)]> m) zeroCounts (advisories r))
  end.

Definition defaults : jsmap string number := <["high" := int 0]> (<["critical" := int 0]> ∅).

Definition parseEntry (t : jsmap string number) (entry : string) : GateError + jsmap string number :=
  let parts := trim <$> split "="%char entry in
  let s := default "" (parts !! 0%nat) in
  if negb (bool_decide (s ∈ SEVERITIES)) then inl (UnsupportedSeverity s)
  else
    let parsed := match parts !! 1%nat with Some v => Number_ v | None => NaN end in
    if negb (isInteger parsed) || num_lt parsed (int 0) then inl (BadThreshold s) else inr (<[s := parsed]> t).

Fixpoint parseEntries (t : jsmap string number) (l : list string) : GateError + jsmap string number :=
  match l with
  | [] => inr t
  | e :: l' => match parseEntry t e with inl x => inl x | inr t' => parseEntries t' l' end
  end.

Definition parseThresholds (raw : option string) : GateError + jsmap string number :=
  match raw with
  | None => inr defaults
  | Some r => if falsy r then inr defaults else parseEntries defaults (split ","%char r)
  end.

Definition evaluateThresholds (counts t : jsmap string number) : list Failure :=
  (fun e => mkFailure e.1 e.2 (or_zero (countOf counts e.1))) <$>
  filter (fun e => num_lt e.2 (or_zero (countOf counts e.1)) = true) (entries t).

(** The exit code; [None] is a report that cannot be read. *)
Definition main (raw : option string) (report : option value) : Z :=
  match report with
  | None => 2
  | Some r =>
      match summarizeAuditReport r with
      | inl _ => 2
      | inr counts =>
          match parseThresholds raw with
          | inl _ => 2
          | inr t => match evaluateThresholds counts t with [] => 0 | _ => 1 end
          end
      end
  end.
(** ** What is counted *)

(** The advisories of a severity *)
Definition severityCount (s : string) (l : list value) : Z := Z.of_nat (length (filter (fun a => severityOf a = s) l)).

Lemma severityCount_cons s a l : severityCount s (a :: l) = (if decide (severityOf a = s) then 1 else 0) + severityCount s l.
Proof. unfold severityCount. rewrite filter_cons. case_decide; cbn [length]; lia. Qed.

Lemma severityCount_bound s l : 0 <= severityCount s l <= Z.of_nat (length l).
Proof. induction l as [|a l IH]; [done|]. rewrite severityCount_cons. cbn [length]. case_decide; lia. Qed.

Lemma countOf_insert m s s' n : countOf (<[s := n]> m) s' = if decide (s = s') then n else countOf m s'.
Proof. unfold countOf. rewrite jsmap_lookup_insert. by case_decide. Qed.

Lemma countOf_zero s : countOf zeroCounts s = int 0.
Proof. unfold zeroCounts. cbn [foldl SEVERITIES]. rewrite !countOf_insert. by repeat case_decide. Qed.

Lemma counting l : forall (m : jsmap string number) (k : string -> Z), (forall s, counts (countOf m s) (k s) /\ 0 <= k s /\ k s + Z.of_nat (length l) < 2 ^ 53) ->
  forall s, counts (countOf (foldl (fun m a => let s := severityOf a in <[s := num_add (countOf m s) (int 1)]> m) m l) s) (k s + severityCount s l).
Proof.
  induction l as [|a l IH]; intros m k Hk s; [cbn; rewrite Z.add_0_r; apply Hk|]. cbn [foldl]. rewrite severityCount_cons, Z.add_assoc.
  refine (IH _ (fun s0 => k s0 + (if decide (severityOf a = s0) then 1 else 0)) _ s). clear s. intros s. destruct (Hk s) as (H1 & H2 & H3). cbn [length] in H3.
  rewrite countOf_insert. destruct (decide (severityOf a = s)) as [<-|]; [|rewrite Z.add_0_r; split; [done|lia]].
  split; [|lia]. apply counts_add; [done|apply counts_int|lia].
Qed.

(** ** Thresholds *)

Record good (t : jsmap string number) : Prop := { good_wf : map_wf t; good_finite : forall s a, t !! s = Some a -> isFinite a = true }.

Lemma good_insert t s a : good t -> isFinite a = true -> good (<[s := a]> t).
Proof. intros [H1 H2] Ha. split; [by apply map_wf_insert|]. intros s' a'. rewrite jsmap_lookup_insert. case_decide; [by intros [= <-]|apply H2]. Qed.

Lemma parseEntries_good l : forall t t', good t -> parseEntries t l = inr t' -> good t'.
Proof.
  induction l as [|e l IH]; cbn [parseEntries]; intros t t' Ht E; [by injection E as <-|]. destruct (parseEntry t e) as [|t1] eqn:Ee; [done|].
  apply (IH t1); [|done]. unfold parseEntry in Ee. destruct (negb (bool_decide _)); [done|]. destruct (negb (isInteger _)) eqn:Hi; [done|]. cbn [orb] in Ee.
  destruct (num_lt _ _); [done|]. injection Ee as <-. apply good_insert; [done|]. apply negb_false_iff in Hi. by destruct (match _ with Some v => Number_ v | None => NaN end).
Qed.

Lemma parseThresholds_good raw t : parseThresholds raw = inr t -> good t.
Proof.
  assert (Hd : good defaults) by (repeat (apply good_insert; [|done]); by split). unfold parseThresholds. destruct raw as [r|]; [destruct (falsy r)|]; intros E; [by injection E as <-| |by injection E as <-].
  by apply (parseEntries_good _ _ _ Hd) in E.
Qed.

Lemma evaluate_nil c t (k : string -> Z) : good t -> (forall s, counts (countOf c s) (k s)) ->
  evaluateThresholds c t = [] <-> forall s a, t !! s = Some a -> num_ge a (int (k s)) = true.
Proof.
  intros [Hw Hf] Hc. assert (Hx : forall s a, isFinite a = true -> num_lt a (or_zero (countOf c s)) = negb (num_ge a (int (k s)))).
  { intros s a Ha. destruct (Hc s) as (q & -> & Hq). destruct a as [x| |]; [|done..]. cbn. f_equal. apply eq_true_iff_eq. rewrite !Qle_bool_iff. by rewrite Hq. }
  unfold evaluateThresholds. rewrite fmap_nil_iff_. rewrite list_filter_nil_iff. split.
  - intros H s a E. specialize (H (s, a) (jsmap_lookup_elem_of _ _ _ E)). cbn in H. rewrite Hx in H by (by eapply Hf). by destruct (num_ge a (int (k s))).
  - intros H [s a] Hin%elem_of_jsmap_lookup; [|done]. cbn. rewrite Hx by (by eapply Hf). by rewrite (H s a Hin).
Qed.
End gate.

(** an audit report without totals passes exactly if no severity with a threshold has more
    advisories than it allows; otherwise the exit code is 1. *)
Theorem vulnerability_gate_exact objectNumber raw r t : hasMembers r = true -> scannerError objectNumber r = false -> truthy (member r "metadata") = false ->
  Z.of_nat (length (advisories r)) < 2 ^ 53 -> parseThresholds raw = inr t ->
  let allows := forall s a, t !! s = Some a -> num_ge a (int (severityCount s (advisories r))) = true in
  main objectNumber raw (Some r) = 0 /\ allows \/ main objectNumber raw (Some r) = 1 /\ ~ allows.
Proof.
  intros Hr Hs Hm Hlen Ht allows. unfold main, summarizeAuditReport, validateAuditReport. rewrite Hr, Hs, Hm, Ht. cbn [negb andb].
  set (c := foldl _ _ _). assert (Hc : forall s, counts (countOf c s) (severityCount s (advisories r))).
  { intros s. apply (counting (advisories r) zeroCounts (fun _ => 0)). intros s'. rewrite countOf_zero. split; [apply counts_int|lia]. }
  pose proof (evaluate_nil c t _ (parseThresholds_good raw t Ht) Hc) as H. destruct (evaluateThresholds c t); [left|right]; (split; [done|]); [exact (proj1 H eq_refl)|].
  intros Ha. discriminate (proj2 H Ha).
Qed.
End Vulnerabilities.

(** * Coverage *)

Module Coverage.

Record Totals := mkTotals { total : Z; covered : Z }.
(** The path of a file and how often its statements were run *)
Record FileData := mkFile { path : string; s_ : list number }.

(** [readNumericEnv]; [None] ends the process with 1. *)
Definition readNumericEnv (raw : option string) (fallback : number) : option number :=
  match raw with
  | None => Some fallback
  | Some s =>
      if falsy s then Some fallback
      else let v := Number_ s in if negb (isFinite v) || num_lt v (int 0) || num_lt (int 100) v then None else Some v
  end.

Definition MODULE_THRESHOLDS : list (string * Z) :=
  [("blockchain", 70); ("config", 70); ("contracts", 70); ("core", 70); ("database", 70); ("diagnostics", 70); ("queue", 55);
   ("reputation", 50); ("security", 70); ("staking", 70); ("tls", 50)].
Definition INTERFACE_ONLY_FILES : list string := ["src/staking/slashing_agent.ts"].
Definition EXEMPTED_MODULES : list string := ["reputation"].

Definition percent (covered total : Z) : number :=
  if 0 <? total then num_mul (num_div (int covered) (int total)) (int 100) else int 100.

Definition computeFileCoverage (f : FileData) : Totals :=
  mkTotals (Z.of_nat (length (s_ f))) (Z.of_nat (length (filter (fun c => num_lt (int 0) c = true) (s_ f)))).

Definition BACKSLASH : ascii := "092"%char.
Fixpoint normalized (s : string) : string :=
  match s with EmptyString => "" | String c s' => String (if bool_decide (c = BACKSLASH) then "/"%char else c) (normalized s') end.

(** The part after the first one that is src *)
Fixpoint afterSrc (parts : list string) : option string :=
  match parts with
  | [] => None
  | p :: l => if bool_decide (p = "src") then head l else afterSrc l
  end.
Definition getModuleName (filePath : string) : option string := afterSrc (split "/"%char (normalized filePath)).

Definition shouldInclude (filePath : string) : bool :=
  let n := normalized filePath in
  negb (includes "node_modules" n) && includes "/src/" n && negb (existsb (fun f => endsWith f n) INTERFACE_ONLY_FILES).

(** The module under which a file is counted *)
Definition countedIn (f : FileData) : option string :=
  if shouldInclude (path f) then match getModuleName (path f) with Some m => if falsy m then None else Some m | None => None end else None.

Definition addTo (t u : Totals) : Totals := mkTotals (total t + total u) (covered t + covered u).

(** One round of the loop over the files *)
Definition countFile (acc : jsmap string Totals * Totals) (f : FileData) : jsmap string Totals * Totals :=
  match countedIn f with
  | Some m => (<[m := addTo (default (mkTotals 0 0) (acc.1 !! m)) (computeFileCoverage f)]> acc.1, addTo acc.2 (computeFileCoverage f))
  | None => acc
  end.
Definition countFiles (fs : list FileData) : jsmap string Totals * Totals := foldl countFile (∅, mkTotals 0 0) fs.

Definition threshold (m : string) : option Z := assoc_get m MODULE_THRESHOLDS.
Definition exempted (m : string) : bool := bool_decide (m ∈ EXEMPTED_MODULES).

Definition passes (m : string) (t : Totals) : bool :=
  if exempted m then true else match threshold m with Some k => num_ge (percent (covered t) (total t)) (int k) | None => true end.

Inductive FailedCheck := ModuleBelow (m : string) (k : Z) | OverallBelow | Regressed.

Record Settings := mkSettings { OVERALL_MIN : number; REGRESSION_MAX_DROP_PCT : number; baselinePct : option number }.
Record Verdict := mkVerdict { modulePass : bool; overallPass : bool; regressionPass : bool; pass : bool; failedChecks : list FailedCheck }.

Definition gates (m : string) : option Z := if exempted m then None else threshold m.

Definition verdict (c : Settings) (fs : list FileData) : Verdict :=
  let '(modules, all) := countFiles fs in
  let pct := percent (covered all) (total all) in
  let ok := forallb (fun e => passes e.1 e.2) (filter (fun e => is_Some (gates e.1)) (entries modules)) in
  let overall := num_ge pct (OVERALL_MIN c) in
  let regression := match baselinePct c with Some b => num_ge (REGRESSION_MAX_DROP_PCT c) (num_sub b pct) | None => true end in
  mkVerdict ok overall regression (ok && overall && regression)
    (omap (fun e => match gates e.1 with Some k => if passes e.1 e.2 then None else Some (ModuleBelow e.1 k) | None => None end) (entries modules) ++
     (if overall then [] else [OverallBelow]) ++ (if regression then [] else [Regressed])).

(** The exit code: of unreadable coverage, of bad settings, of a verdict *)
Definition main (minimum drop : option string) (baseline : option number) (coverage : option (list FileData)) : Z :=
  match readNumericEnv minimum (int 71), readNumericEnv drop (int 1), coverage with
  | Some lo, Some d, Some fs => if pass (verdict (mkSettings lo d baseline) fs) then 0 else 1
  | _, _, _ => 1
  end.
(** ** The doubles decide as the fractions do *)

(** The percentage just below [k], for a denominator up to [2^40] *)
Definition below (k : Z) : Q := (k * 2 ^ 40 - 1) # Z.to_pos (100 * 2 ^ 40).

(** A bound that the arithmetic respects: checked for each threshold *)
Definition respected (k : Z) : bool :=
  num_ge (num_mul (to_double (k # 100)) (int 100)) (int k) &&
  num_lt (num_mul (to_double (below k)) (int 100)) (int k).

Lemma times100_mono a b : num_ge a b = true -> isFinite a = true -> isFinite b = true -> num_ge (num_mul a (int 100)) (num_mul b (int 100)) = true.
Proof.
  destruct a as [x| |], b as [y| |]; try done. cbn [num_ge num_mul int]. rewrite Qle_bool_iff. intros H _ _. apply to_double_mono.
  apply Qmult_le_compat_r; [done|]. by compute.
Qed.

Lemma num_lt_ge a b : isFinite a = true -> isFinite b = true -> num_lt a b = negb (num_ge a b).
Proof. by destruct a, b. Qed.

(** A double that is at most 1 is finite. *)
Lemma to_double_unit q : (0 <= q)%Q -> (q <= 1)%Q -> isFinite (to_double q) = true.
Proof.
  intros H0 H1. destruct (in_range_to_double 0 1 q) as (r & Er & _); [lia|lia|exact H0|exact H1|]. by rewrite Er.
Qed.

Lemma percent_exact k c t : respected k = true -> 0 <= c <= t -> 0 < t <= 2 ^ 40 -> 0 < k <= 100 ->
  num_ge (percent c t) (int k) = (k * t <=? 100 * c).
Proof.
  unfold respected. intros [Hu Hl]%andb_true_iff Hc Ht Hk. unfold percent. rewrite (proj2 (Z.ltb_lt 0 t)) by lia. unfold num_div. cbn [int].
  assert (Hz : is_zero (inject_Z t) = false) by (unfold is_zero; cbn; apply Z.eqb_neq; lia). rewrite Hz.
  set (q := (inject_Z c / inject_Z t)%Q). assert (Eq : (q == c # Z.to_pos t)%Q) by (unfold q; rewrite Qmake_Qdiv, Z2Pos.id by lia; done).
  assert (Hq : isFinite (to_double q) = true) by (apply to_double_unit; rewrite Eq; unfold Qle; cbn; rewrite ?Z2Pos.id by lia; lia).
  destruct (Z.leb_spec (k * t) (100 * c)) as [H|H].
  - eapply num_ge_trans; [|exact Hu]. apply times100_mono; [|done|].
    + apply to_double_mono. rewrite Eq. unfold Qle. cbn. rewrite Z2Pos.id by lia. lia.
    + apply to_double_unit; unfold Qle; cbn; lia.
  - assert (Hb : (q <= below k)%Q).
    { rewrite Eq. unfold below, Qle. cbn [Qnum Qden]. rewrite !Z2Pos.id by lia. nia. }
    assert (Hfb : isFinite (to_double (below k)) = true) by (apply to_double_unit; unfold below, Qle; cbn [Qnum Qden]; rewrite ?Z2Pos.id by lia; cbn; lia).
    pose proof (times100_mono _ _ (to_double_mono _ _ Hb) Hfb Hq) as Hm. apply not_true_is_false. intros Hg.
    pose proof (num_ge_trans _ _ _ Hm Hg) as Hx. unfold num_lt in Hl. rewrite Hx in Hl. by destruct (num_mul (to_double (below k)) (int 100)).
Qed.

Lemma thresholds_respected k : k ∈ 71 :: MODULE_THRESHOLDS.*2 -> respected k = true /\ 0 < k <= 100.
Proof. intros H. cbn in H. repeat (apply elem_of_cons in H as [->|H]; [split; [by vm_compute|lia]|]). by apply elem_of_nil in H. Qed.

(** ** What is counted *)

(** The files of a module *)
Definition filesOf (m : string) (fs : list FileData) : list FileData := filter (fun f => countedIn f = Some m) fs.
Definition counted (fs : list FileData) : list FileData := filter (fun f => is_Some (countedIn f)) fs.
Definition tot (f : FileData) : Z := total (computeFileCoverage f).
Definition cov (f : FileData) : Z := covered (computeFileCoverage f).

(** The sums over files *)
Definition sums (fs : list FileData) : Totals := mkTotals (zsum tot fs) (zsum cov fs).

Lemma cov_bounds f : 0 <= cov f <= tot f.
Proof. unfold cov, tot, computeFileCoverage. cbn [covered total]. pose proof (length_filter (fun c => num_lt (int 0) c = true) (s_ f)). lia. Qed.

Lemma sums_bounds fs : 0 <= covered (sums fs) <= total (sums fs).
Proof. unfold sums, zsum. cbn [covered total]. induction fs as [|f fs IH]; [done|]. cbn [foldr]. pose proof (cov_bounds f). lia. Qed.

Lemma sums_snoc fs f : sums (fs ++ [f]) = addTo (sums fs) (computeFileCoverage f).
Proof. unfold sums, addTo. f_equal; unfold zsum; rewrite foldr_app; cbn; fold (tot f) (cov f); induction fs as [|g fs IH]; cbn; lia. Qed.

Lemma filesOf_snoc m fs f : filesOf m (fs ++ [f]) = filesOf m fs ++ (if decide (countedIn f = Some m) then [f] else []).
Proof. unfold filesOf. rewrite filter_app. f_equal. Qed.
Lemma counted_snoc fs f : counted (fs ++ [f]) = counted fs ++ (if decide (is_Some (countedIn f)) then [f] else []).
Proof. unfold counted. rewrite filter_app. f_equal. Qed.

(** Every module with a counted file has the sums of its files, and all of them together
    have those of all counted files. *)
Lemma countFiles_spec fs : let '(ms, all) := countFiles fs in map_wf ms /\ all = sums (counted fs) /\
  forall m, ms !! m = match filesOf m fs with [] => None | l => Some (sums l) end.
Proof.
  unfold countFiles. induction fs as [|f fs IH] using rev_ind; [done|]. rewrite foldl_app. cbn [foldl]. destruct (foldl _ _ fs) as [ms all].
  destruct IH as (Hw & -> & Hm). unfold countFile. rewrite counted_snoc. cbn [fst snd]. destruct (countedIn f) as [m|] eqn:E.
  - rewrite decide_True by (by exists m). split; [by apply map_wf_insert|]. split; [by rewrite sums_snoc|]. intros m'. rewrite jsmap_lookup_insert, filesOf_snoc, E.
    destruct (decide (m = m')) as [<-|Hne].
    + rewrite decide_True by done. rewrite Hm. destruct (filesOf m fs) as [|g l].
      * cbn [app default]. change [f] with ([] ++ [f]). by rewrite sums_snoc.
      * cbn [app default]. change (g :: l ++ [f]) with ((g :: l) ++ [f]). by rewrite sums_snoc.
    + rewrite decide_False by congruence. rewrite app_nil_r. apply Hm.
  - rewrite decide_False by (by intros [? ?]). rewrite app_nil_r. split; [done|]. split; [done|]. intros m. rewrite filesOf_snoc, E, decide_False, app_nil_r by done. apply Hm.
Qed.

(** ** The verdict *)

(** A share of statements at or above [k] percent *)
Definition reaches (k : Z) (fs : list FileData) : Prop := k * zsum tot fs <= 100 * zsum cov fs.

Lemma percent_reaches k fs : k ∈ 71 :: MODULE_THRESHOLDS.*2 -> zsum tot fs <= 2 ^ 40 ->
  num_ge (percent (covered (sums fs)) (total (sums fs))) (int k) = true <-> reaches k fs.
Proof.
  intros Hk Ht. apply thresholds_respected in Hk as [Hr Hk]. pose proof (sums_bounds fs) as Hb. unfold reaches. unfold sums in *. cbn [covered total] in *.
  destruct (decide (0 < zsum tot fs)) as [Hp|Hp].
  - rewrite percent_exact by (done || lia). apply Z.leb_le.
  - unfold percent. rewrite (proj2 (Z.ltb_ge _ _)) by lia. assert (zsum tot fs = 0) as -> by lia. assert (zsum cov fs = 0) as -> by lia.
    split; [lia|]. intros _. cbn. apply Qle_bool_iff. unfold Qle. cbn. lia.
Qed.

Lemma zsum_filter_le {A} (g : A -> Z) (P : A -> Prop) `{!forall x, Decision (P x)} (Q : A -> Prop) `{!forall x, Decision (Q x)} l :
  (forall x, 0 <= g x) -> (forall x, P x -> Q x) -> zsum g (filter P l) <= zsum g (filter Q l).
Proof.
  intros Hg Hpq. induction l as [|x l IH]; [done|]. rewrite !filter_cons. specialize (Hg x) as Hx. unfold zsum in *.
  destruct (decide (P x)) as [Hp|Hp]; [rewrite (decide_True _ _ (Hpq x Hp)); cbn; lia|]. case_decide; cbn; lia.
Qed.

Lemma gates_threshold m k : gates m = Some k -> exempted m = false /\ threshold m = Some k /\ k ∈ 71 :: MODULE_THRESHOLDS.*2.
Proof.
  unfold gates, threshold. destruct (exempted m); [done|]. intros H. split; [done|]. split; [done|]. right.
  apply assoc_get_elem_of in H. apply list_elem_of_fmap. by exists (m, k).
Qed.

(** with the default settings and no baseline, and up to [2^40] statements, the gate passes
    exactly if every module with a threshold that is not exempted reaches it, counted over
    all its files, and all files together reach 71 percent: rounding decides nothing. *)
Theorem coverage_gate_exact fs : zsum tot (counted fs) <= 2 ^ 40 ->
  main None None None (Some fs) = 0 <-> (forall m k, gates m = Some k -> reaches k (filesOf m fs)) /\ reaches 71 (counted fs).
Proof.
  intros Ht. unfold main, readNumericEnv, verdict. pose proof (countFiles_spec fs) as H. destruct (countFiles fs) as [ms all]. destruct H as (Hw & -> & Hm).
  cbn [OVERALL_MIN REGRESSION_MAX_DROP_PCT baselinePct pass]. rewrite andb_true_r.
  assert (Hle : forall m, zsum tot (filesOf m fs) <= 2 ^ 40).
  { intros m. etrans; [|exact Ht]. unfold filesOf, counted. apply zsum_filter_le; [intros f; pose proof (cov_bounds f); lia|]. intros f E. by exists m. }
  assert (H71 := percent_reaches 71 (counted fs) ltac:(by left) Ht).
  assert (Hmod : forallb (fun e => passes e.1 e.2) (filter (fun e => is_Some (gates e.1)) (entries ms)) = true <->
                 forall m k, gates m = Some k -> reaches k (filesOf m fs)).
  { rewrite forallb_forall. split.
    - intros Hall m k Hg. pose proof (gates_threshold m k Hg) as (He & Hk & Hin). destruct (filesOf m fs) as [|f l] eqn:E; [unfold reaches; cbn; lia|].
      specialize (Hm m). rewrite E in Hm. specialize (Hall (m, sums (f :: l))). cbn [fst snd] in Hall.
      rewrite <- E in *. apply percent_reaches; [done|apply Hle|]. unfold passes in Hall. rewrite He, Hk in Hall. apply Hall.
      apply list_elem_of_In, list_elem_of_filter. split; [by exists k|]. by apply jsmap_lookup_elem_of.
    - intros Hall [m t] Hin%list_elem_of_In. apply list_elem_of_filter in Hin as [[k Hg] Hin]. cbn [fst snd] in *.
      apply elem_of_jsmap_lookup in Hin; [|done]. pose proof (gates_threshold m k Hg) as (He & Hk & Hki). rewrite Hm in Hin.
      specialize (Hall m k Hg). unfold passes. rewrite He, Hk. assert (t = sums (filesOf m fs)) as -> by (destruct (filesOf m fs); [done|by injection Hin as <-]).
      by apply percent_reaches. }
  rewrite <- H71, <- Hmod. destruct (forallb _ _), (num_ge (percent _ _) (int 71)); cbn; intuition congruence.
Qed.
End Coverage.

Module Examples.

Import Vulnerabilities.
Definition ON (v : value) : number := NaN.
Definition advisory (s : string) : string * value := ("pkg-" +:+ s, VObject [("severity", VString s)]).
Definition audit : value := VObject [("vulnerabilities", VObject [advisory "high"; advisory "low"; advisory "moderate"])].

Definition oneHigh : jsmap string number := match parseThresholds (Some "high=1") with inr t => t | inl _ => ∅ end.
Example oneHigh_entries : (fun e => (e.1, num_eqb e.2 (int 1), num_eqb e.2 (int 0))) <$> entries oneHigh = [("critical", false, true); ("high", true, false)].
Proof. vm_compute. reflexivity. Qed.

Lemma vulnerability_gate_exact_witness : (hasMembers audit = true /\ scannerError ON audit = false /\ truthy (member audit "metadata") = false) /\
  let allows := forall s a, oneHigh !! s = Some a -> num_ge a (int (severityCount s (advisories audit))) = true in
  main ON (Some "high=1") (Some audit) = 0 /\ allows \/ main ON (Some "high=1") (Some audit) = 1 /\ ~ allows.
Proof.
  split; [by vm_compute|].
  exact (vulnerability_gate_exact ON (Some "high=1") audit oneHigh eq_refl eq_refl eq_refl eq_refl eq_refl).
Defined.

Example codes : (main ON None (Some audit), main ON (Some "high=1") (Some audit), main ON (Some "hight=1") (Some audit)) = (1, 0, 2).
Proof. vm_compute. reflexivity. Qed.

(** A severity in capitals counts as info, and passes. *)
Example capital_severity_passes : main ON None (Some (VObject [("vulnerabilities", VObject [advisory "CRITICAL"])])) = 0.
Proof. vm_compute. reflexivity. Qed.

(** So do a report that says nothing and totals that are no numbers. *)
Example empty_report_passes : main ON None (Some (VObject [])) = 0.
Proof. vm_compute. reflexivity. Qed.
Example unreadable_totals_pass :
  main ON None (Some (VObject [("metadata", VObject [("vulnerabilities", VObject [("critical", VString "many")])])])) = 0.
Proof. vm_compute. reflexivity. Qed.

Definition file (p : string) (hit miss : nat) : Coverage.FileData := Coverage.mkFile p (repeat (int 1) hit ++ repeat (int 0) miss).
Definition tree : list Coverage.FileData := [file "/app/src/core/a.ts" 9 1; file "/app/src/core/b.ts" 5 5; file "/app/src/tls/c.ts" 8 2; file "/app/src/keys/d.ts" 7 3].

(** 14 of 20 statements are the 70 percent of the module. *)
Lemma coverage_gate_exact_witness : zsum Coverage.tot (Coverage.counted tree) <= 2 ^ 40 /\
  (Coverage.main None None None (Some tree) = 0 <->
   (forall m k, Coverage.gates m = Some k -> Coverage.reaches k (Coverage.filesOf m tree)) /\ Coverage.reaches 71 (Coverage.counted tree)).
Proof.
  assert (H : zsum Coverage.tot (Coverage.counted tree) <= 2 ^ 40) by (vm_compute; discriminate). split; [exact H|].
  exact (Coverage.coverage_gate_exact tree H).
Defined.
Example tree_passes : Coverage.main None None None (Some tree) = 0.
Proof. vm_compute. reflexivity. Qed.

(** In a checkout below another src directory, modules are named after what is below that one,
    and no threshold applies. *)
Example outer_src_hides_modules : Coverage.countedIn (file "/usr/src/app/src/core/a.ts" 0 5) = Some "app" /\ Coverage.gates "app" = None.
Proof. by vm_compute. Qed.

(** A module that is not listed has no minimum. *)
Example unlisted_module_passes :
  Coverage.main None None None (Some [file "/app/src/keys/d.ts" 0 10; file "/app/src/core/a.ts" 90 0]) = 0.
Proof. vm_compute. reflexivity. Qed.
End Examples.
