(* ===== verification/WorkerRegistry.v ===== *)
(** * Workers of the scheduler ([src/src/scheduler/scheduler.ts], class [JobScheduler])

    The map of workers by job type and id over the event system of [JobScheduler]: registering,
    starting and stopping them all, while their polls, claims and executions go on.

    [stop_all_stops]: what is stopped, and when that is everything. *)

From Stdlib Require Import ZArith Lia Ascii String.
From stdpp Require Import base numbers list strings gmap.
From S2P Require Import Prelude Js NodeTables DeadLetterQueue JobScheduler.
#[local] Open Scope Z_scope.

(** The members of [Partial<WorkerConfig>] that the worker reads *)
Record WorkerOptions := mkOptions { o_workerId : option string; o_maxConcurrency : option nat }.

(** [config?.workerId ?? workerIdFromConfig(...)]: an id that is missing is generated. *)
Definition resolveWorkerId (o : WorkerOptions) (generated : string) : string := default generated (o_workerId o).

Definition workerKey (jobType id : string) : string := jobType +:+ ":" +:+ id.

Record Registry := mkRegistry {
  workers : jsmap string nat;      (* the numbers of the workers *)
  sched : Sched;
  created : nat                    (* how many there are *)
}.
Definition new_Registry (dlq : option (Dlq string)) (lease : LeaseConfig) : Registry := mkRegistry ∅ (new_Sched dlq lease) 0.

Definition registerWorker (jobType : string) (o : WorkerOptions) (generated : string) (r : Registry) : Registry * nat :=
  let id := resolveWorkerId o generated in
  let w := created r in
  (mkRegistry (<[workerKey jobType id := w]> (workers r))
     (schedStep (SRegister w (mkWorker id jobType (default 1%nat (o_maxConcurrency o)) false 0 0)) (sched r)) (S w), w).

Definition each (f : nat -> SchedEvent) (r : Registry) : Registry :=
  mkRegistry (workers r) (foldl (fun s w => schedStep (f w) s) (sched r) (map_values (workers r))) (created r).
Definition startAll (r : Registry) : Registry := each SStart r.
(** Every [stop] marks its worker before its first wait. *)
Definition stopAll (r : Registry) : Registry := each SStop r.

Inductive Op :=
| Registering (jobType : string) (o : WorkerOptions) (generated : string)
| Starting
| Stopping
| Going (ev : SchedEvent).       (* anything else that happens *)

Definition apply (r : Registry) (op : Op) : Registry :=
  match op with
  | Registering ty o g => (registerWorker ty o g r).1
  | Starting => startAll r
  | Stopping => stopAll r
  | Going (SRegister _ _) => r
  | Going ev => mkRegistry (workers r) (schedStep ev (sched r)) (created r)
  end.
Definition applyAll (ops : list Op) (r : Registry) : Registry := foldl apply r ops.

(** ** What stopping stops *)

(** The keys under which workers are registered *)
Definition keysOf (ops : list Op) : list string :=
  omap (fun op => match op with Registering ty o g => Some (workerKey ty (resolveWorkerId o g)) | _ => None end) ops.

Lemma stop_workers l s w : s_workers (foldl (fun s w => schedStep (SStop w) s) s l) !! w =
  (if decide (w ∈ l) then stoppedWorker else id) <$> s_workers s !! w.
Proof.
  revert s. induction l as [|x l IH]; intros s; cbn [foldl].
  - rewrite decide_False by apply not_elem_of_nil. by destruct (s_workers s !! w).
  - rewrite IH. cbn. destruct (decide (w = x)) as [->|Hne].
    + rewrite lookup_alter_eq. destruct (decide (x ∈ x :: l)) as [_|Hx]; [|exfalso; apply Hx; left]. destruct (s_workers s !! x) as [wk|]; [|done]. cbn. by case_decide.
    + rewrite lookup_alter_ne by done. destruct (decide (w ∈ l)) as [Hl|Hl], (decide (w ∈ x :: l)) as [Hx|Hx]; try done; exfalso; rewrite elem_of_cons in Hx; tauto.
Qed.

Lemma stopped_not_running r w wk : s_workers (sched (stopAll r)) !! w = Some wk -> running wk = true -> w ∉ map_values (workers r).
Proof.
  unfold stopAll, each. cbn [sched]. rewrite stop_workers. intros E Hr Hin. rewrite decide_True in E by done.
  destruct (s_workers (sched r) !! w); [|done]. injection E as <-. done.
Qed.

(** No event but a registration makes a worker. *)
Lemma step_workers ev s w : (forall c, ev <> SRegister w c) -> is_Some (s_workers (schedStep ev s) !! w) -> is_Some (s_workers s !! w).
Proof.
  intros Hne. destruct ev; cbn [schedStep]; unfold claimAnswer, renew, failAnswer, finish, set_jobs, set_workers, set_execs, set_smetrics, set_dlq; cbn;
    repeat case_match; cbn; rewrite ?lookup_alter_is_Some; try done.
  intros Hs. rewrite lookup_insert_ne in Hs; [done|]. intros ->. by eapply Hne.
Qed.

Lemma foldl_workers (f : nat -> SchedEvent) l s w : (forall x c, f x <> SRegister w c) ->
  is_Some (s_workers (foldl (fun s x => schedStep (f x) s) s l) !! w) -> is_Some (s_workers s !! w).
Proof. intros Hf. revert s. induction l as [|x l IH]; intros s H; [done|]. cbn in H. apply IH, step_workers in H; [done|by intros c; apply Hf]. Qed.

(** Every worker has a number below the next, and with distinct keys it is in the map. *)
Definition tracked (ops : list Op) (r : Registry) : Prop :=
  (forall w, is_Some (s_workers (sched r) !! w) -> (w < created r)%nat) /\
  (NoDup (keysOf ops) -> map_keys (workers r) = keysOf ops /\ map_values (workers r) = seq 0 (created r)).

Lemma map_insert_new {V} (m : jsmap string V) k v : k ∉ map_keys m ->
  map_keys (<[k := v]> m) = map_keys m ++ [k] /\ map_values (<[k := v]> m) = map_values m ++ [v].
Proof.
  destruct m as [l]. unfold map_keys, map_values, insert, jsmap_insert. cbn. intros Hk.
  assert (E : assoc_set k v l = l ++ [(k, v)]).
  { induction l as [|[k0 v0] l IH]; [done|]. cbn in *. apply not_elem_of_cons in Hk as [Hk Hl]. by rewrite decide_False, IH by done. }
  by rewrite E, !fmap_app.
Qed.

Lemma tracked_apply ops r op : tracked ops r -> tracked (ops ++ [op]) (apply r op).
Proof.
  intros [H1 H2]. unfold tracked, keysOf in *. rewrite omap_app. destruct op as [ty o g| | |ev]; cbn [omap list_omap apply]; rewrite ?app_nil_r.
  - cbn [registerWorker fst sched created workers]. split.
    + intros w Hw. destruct (decide (w = created r)) as [->|Hne]; [lia|]. apply step_workers in Hw; [specialize (H1 w Hw); lia|by intros c [= ? _]].
    + intros Hnd. apply NoDup_app in Hnd as (Hn1 & Hn2 & _). destruct (H2 Hn1) as [Ek Ev].
      destruct (map_insert_new (workers r) (workerKey ty (resolveWorkerId o g)) (created r)) as [-> ->]; [rewrite Ek; intros Hin; apply (Hn2 _ Hin); left|].
      rewrite Ek, Ev. split; [done|]. by rewrite seq_S.
  - split; [|done]. intros w Hw. apply H1. by apply (foldl_workers SStart) in Hw.
  - split; [|done]. intros w Hw. apply H1. by apply (foldl_workers SStop) in Hw.
  - destruct ev; (split; [|done]); try exact H1; intros w1 Hw; apply H1; cbn [sched] in Hw; by apply step_workers in Hw.
Qed.

Lemma tracked_run ops dlq lease : tracked ops (applyAll ops (new_Registry dlq lease)).
Proof.
  induction ops as [|op ops IH] using rev_ind; [|unfold applyAll; rewrite foldl_app; by apply tracked_apply].
  split; [by intros w [wk Hw]|]. done.
Qed.

(** whatever was registered, started and done before, stopping all workers leaves running
    only workers that were replaced by a registration under the same job type and id; if no
    two registrations shared them, it leaves none. *)
Theorem stop_all_stops ops dlq lease w wk : let r := applyAll ops (new_Registry dlq lease) in
  s_workers (sched (stopAll r)) !! w = Some wk -> running wk = true -> w ∉ map_values (workers r) /\ ~ NoDup (keysOf ops).
Proof.
  intros r E Hr. pose proof (stopped_not_running r w wk E Hr) as Hn. split; [done|]. intros Hnd. destruct (tracked_run ops dlq lease) as [H1 H2]. fold r in H1, H2.
  destruct (H2 Hnd) as [_ Ev]. apply Hn. rewrite Ev, elem_of_seq. split; [lia|]. apply H1. unfold stopAll, each in E. cbn in E. rewrite stop_workers in E.
  destruct (s_workers (sched r) !! w); [by eexists|done].
Qed.

Module Examples.

Definition reg (ty id : string) : Op := Registering ty (mkOptions (Some id) None) "worker-1-abc".
Definition twice : list Op := [reg "mail" "w1"; Starting; reg "mail" "w1"; Starting].
Definition run (ops : list Op) : Registry := applyAll ops (new_Registry None DEFAULT_LEASE_CONFIG).

(** The first of two workers under one name goes on polling. *)
Lemma stop_all_stops_witness : exists wk, (s_workers (sched (stopAll (run twice))) !! 0%nat = Some wk /\ running wk = true) /\
  (0%nat ∉ map_values (workers (run twice)) /\ ~ NoDup (keysOf twice)).
Proof.
  eexists. split; [split; [vm_compute; reflexivity|reflexivity]|].
  exact (stop_all_stops twice None DEFAULT_LEASE_CONFIG 0%nat _ ltac:(vm_compute; reflexivity) ltac:(reflexivity)).
Defined.

(** Colons join the type and the id: different workers can have one key. *)
Example keys_collide : workerKey "mail" "a:b" = workerKey "mail:a" "b".
Proof. reflexivity. Qed.

Example all_stopped : (fun w => running <$> s_workers (sched (stopAll (run [reg "mail" "w1"; reg "mail" "w2"; Starting]))) !! w) <$> [0%nat; 1%nat] = [Some false; Some false].
Proof. vm_compute. reflexivity. Qed.
End Examples.
