(* ===== verification/Factories.v ===== *)
(** * Settings of the parts, and the database client ([src/src/config/database.ts],
      [security/mtls.ts], [config-drift/auditor.ts])

    What the factories take from the configuration, the environment and their defaults, as
    [value]s of [Config], and the counters of [Database.query].  The answers of the pool are
    arguments.

    [pool_settings]: which source a setting of the pool comes from.
    [timeouts_ignored]: two settings of the schema never reach the pool.
    [queries_counted]: the counters are exact whatever the handler does. *)

From Stdlib Require Import ZArith Lia Ascii String.
From stdpp Require Import base numbers list strings.
From S2P Require Import Prelude Js Text Number Mtls Config CertificateService.
#[local] Open Scope Z_scope.

(** [a ?? b] *)
Definition nullish (v : value) : bool := match v with VUndefined | VNull => true | _ => false end.
Definition orElse (a b : value) : value := if nullish a then b else a.

Definition text (o : option string) : value := match o with Some s => VString s | None => VUndefined end.

(** [{ ...o, ...overrides }] *)
Definition spread (o overrides : list (string * value)) : list (string * value) := foldl (fun l kv => assoc_set kv.1 kv.2 l) o overrides.

(** ** The pool *)

Section pool.
Context (env : string -> option string).

(** [parseInt(process.env.X ?? d, 10)] *)
Definition envInt (k d : string) : value := VNumber (Bootstrap.parseInt (default d (env k))).

Definition poolDefaults (db : value) : list (string * value) :=
  [("host", orElse (member db "host") (orElse (text (env "DB_HOST")) (VString "localhost")));
   ("port", orElse (member db "port") (envInt "DB_PORT" "5432"));
   ("user", orElse (member db "user") (orElse (text (env "DB_USER")) (VString "verinode")));
   ("password", orElse (member db "password") (orElse (text (env "DB_PASSWORD")) (VString "")));
   ("database", orElse (member db "database") (orElse (text (env "DB_NAME")) (VString "verinode")));
   ("maxConnections", orElse (member db "maxConnections") (envInt "DB_MAX_CONNECTIONS" "20"))].

(** [createPool]; the section db of the configuration is [undefined] where there is none. *)
Definition createPool (db : value) (overrides : list (string * value)) : value :=
  VObject (spread (poolDefaults (orElse db (VObject []))) overrides).
End pool.

(** What the constructor of [Database] gives to the pool *)
Definition poolConfig (config : value) : list (string * value) :=
  [("host", member config "host"); ("port", member config "port"); ("user", member config "user"); ("password", member config "password");
   ("database", member config "database"); ("max", orElse (member config "maxConnections") (VNumber (int 20)));
   ("idleTimeoutMillis", orElse (member config "idleTimeoutMs") (VNumber (int 30000)));
   ("connectionTimeoutMillis", orElse (member config "connectionTimeoutMs") (VNumber (int 10000))); ("application_name", VString "verinode_backend")].

(** ** Queries *)

Record QueryMetrics := mkMetrics { durationMs : number; rowCount : Z; query_ : string; success : bool }.
Record Database := mkDatabase { onQueryComplete : option (QueryMetrics -> option string); totalQueries : Z; totalErrors : Z }.
Definition new_Database : Database := mkDatabase None 0 0.
Definition setQueryHandler (f : QueryMetrics -> option string) (d : Database) : Database := mkDatabase (Some f) (totalQueries d) (totalErrors d).

(** The answer of the pool: the row count, which may be missing, or an error.  What the handler
    throws replaces the outcome. *)
Definition query (sql : string) (answer : string + option Z) (duration : number) (d : Database) : Database * (string + option Z) :=
  let ok := match answer with inr _ => true | inl _ => false end in
  let d' := mkDatabase (onQueryComplete d) (totalQueries d + 1) (totalErrors d + if ok then 0 else 1) in
  match onQueryComplete d with
  | Some f =>
      match f (mkMetrics duration (match answer with inr o => default 0 o | inl _ => 0 end) (substring 0 200 sql) ok) with
      | Some e => (d', inl e)
      | None => (d', answer)
      end
  | None => (d', answer)
  end.

(** [healthCheck], from the answer of its query *)
Definition healthCheck (answer : string + option Z) : bool := match answer with inr (Some n) => n =? 1 | _ => false end.

(** [ensureExtensions]: the first answer decides, the second is tolerated. *)
Definition ensureExtensions (timescaledb pg_cron : option string) : option string := timescaledb.

Inductive Event := Queried (sql : string) (answer : string + option Z) (duration : number) | Handled (f : QueryMetrics -> option string).
Definition step (d : Database) (e : Event) : Database :=
  match e with Queried s a t => (query s a t d).1 | Handled f => setQueryHandler f d end.

(** ** Certificates of the mesh *)

(** [mtlsConfigFromCentralConfig], from the section mtls of the configuration manager; without a
    manager, which throws, from the environment *)
Definition mtlsConfigFromCentralConfig (env : string -> option string) (section : option value) : MtlsConfig + value :=
  match section with
  | None => inl (mtlsConfigFromEnv env)
  | Some s =>
  let c := orElse s (VObject []) in
  inr (VObject [("enabled", orElse (member c "enabled") (VBool false)); ("certFile", member c "certFile"); ("keyFile", member c "keyFile");
    ("caFile", member c "caFile"); ("trustDomain", orElse (member c "trustDomain") (VString "cluster.local"));
    ("allowedSpiffeIds", orElse (member c "allowedSpiffeIds") (VArray [])); ("certMaxValidityMs", orElse (member c "certMaxValidityMs") (VNumber (int 86400000)));
    ("minSecondsUntilExpiry", orElse (member c "minSecondsUntilExpiry") (VNumber (int 3600))); ("reloadPollMs", orElse (member c "reloadPollMs") (VNumber (int 30000)))])
  end.

(** ** The drift auditor *)

Record AuditorSettings := mkAuditor { pagerDuty : bool; alertsEnabled : bool; criticalKeyPrefixes : list string; intervalMs : number }.

Definition on_ (o : option string) : bool := bool_decide (o = Some "true") || bool_decide (o = Some "1").
Definition createConfigDriftAuditorFromEnv (env : string -> option string) : AuditorSettings :=
  mkAuditor (on_ (env "VERINODE_DRIFT_PAGERDUTY_ENABLED") && negb (falsy (default "" (env "VERINODE_DRIFT_PAGERDUTY_ROUTING_KEY"))))
    (on_ (env "VERINODE_DRIFT_ALERTS_ENABLED"))
    (filter (fun s => falsy s = false) (trim <$> split ","%char (default "db,mtls,tls,app,remote" (env "VERINODE_DRIFT_CRITICAL_PREFIXES"))))
    (Number_ (default "300000" (env "VERINODE_DRIFT_SNAPSHOT_INTERVAL_MS"))).

(** ** Sources *)

Definition POOL_KEYS : list string := ["host"; "port"; "user"; "password"; "database"; "maxConnections"].

Lemma spread_get overrides l k : NoDup overrides.*1 ->
  assoc_get k (spread l overrides) = match assoc_get k overrides with Some v => Some v | None => assoc_get k l end.
Proof.
  unfold spread. revert l. induction overrides as [|[k0 v0] o IH]; intros l Hn; [done|]. cbn [foldl fst snd]. apply NoDup_cons in Hn as [Hk Hn].
  rewrite (IH _ Hn), assoc_get_set. cbn [assoc_get]. destruct (decide (k0 = k)) as [->|Hne].
  - rewrite decide_True by done. by rewrite (proj2 (assoc_get_None o k)).
  - by rewrite decide_False by congruence.
Qed.

(** a setting of the pool is the override if one is given, even as [undefined]; else that of
    the configuration unless it is null or missing; only else that of the environment or the
    default. *)
Theorem pool_settings env db overrides k : NoDup overrides.*1 -> k ∈ POOL_KEYS -> isObject db = true ->
  member (createPool env db overrides) k =
  match assoc_get k overrides with
  | Some v => v
  | None => if nullish (member db k) then member (createPool env VUndefined []) k else member db k
  end.
Proof.
  intros Hn Hk Hdb. unfold createPool. cbn [member]. rewrite spread_get by done. destruct (assoc_get k overrides); [done|].
  assert (E : orElse db (VObject []) = db) by by destruct db. rewrite E. cbn [orElse nullish].
  repeat (apply elem_of_cons in Hk as [->|Hk]; [cbn; unfold orElse; by destruct (nullish _)|]). by apply elem_of_nil in Hk.
Qed.

(** the idle and connection timeouts of the configuration never reach the pool. *)
Theorem timeouts_ignored env db : let c := poolConfig (createPool env db []) in
  assoc_get "idleTimeoutMillis" c = Some (VNumber (int 30000)) /\ assoc_get "connectionTimeoutMillis" c = Some (VNumber (int 10000)).
Proof. split; reflexivity. Qed.

(** ** Counters *)

Definition failed (e : Event) : bool := match e with Queried _ (inl _) _ => true | _ => false end.
Definition queried (e : Event) : bool := match e with Queried _ _ _ => true | _ => false end.

(** after any queries and changes of the handler, the counters are the numbers of queries
    and of those that failed, whatever the handlers throw. *)
Theorem queries_counted es : let d := foldl step new_Database es in
  totalQueries d = Z.of_nat (length (filter (fun e => queried e = true) es)) /\ totalErrors d = Z.of_nat (length (filter (fun e => failed e = true) es)).
Proof.
  induction es as [|e es [IH1 IH2]] using rev_ind; [done|]. cbn zeta. rewrite foldl_app, !filter_app, !length_app, !Nat2Z.inj_add, <- IH1, <- IH2.
  cbn [foldl]. generalize (foldl step new_Database es). clear. intros d. destruct e as [sql [e|n] t|f]; cbn [step]; [| |split; [change (totalQueries d = totalQueries d + 0)|change (totalErrors d = totalErrors d + 0)]; lia].
  all: unfold query; destruct (onQueryComplete d) as [f|]; [destruct (f _)|]; by cbn.
Qed.

Module Examples.

Definition env0 (k : string) : option string := if String.eqb k "DB_HOST" then Some "db1" else if String.eqb k "DB_PORT" then Some "none" else None.
Definition section0 : value := VObject [("host", VString "primary"); ("idleTimeoutMs", VNumber (int 1000)); ("port", VNull)].

Lemma pool_settings_witness : (NoDup ([("user", VUndefined)] : list (string * value)).*1 /\ "host" ∈ POOL_KEYS) /\
  member (createPool env0 section0 [("user", VUndefined)]) "host" = VString "primary".
Proof.
  assert (Hn : NoDup ([("user", VUndefined)] : list (string * value)).*1) by (apply NoDup_singleton).
  split; [split; [exact Hn|left]|]. exact (pool_settings env0 section0 [("user", VUndefined)] "host" Hn ltac:(left) eq_refl).
Defined.

(** A port that is no number reaches the pool as NaN; an override that is given as
    [undefined] removes the setting. *)
Example bad_port_kept : member (createPool env0 section0 [("user", VUndefined)]) "port" = VNumber NaN /\
  member (createPool env0 section0 [("user", VUndefined)]) "user" = VUndefined.
Proof. by vm_compute. Qed.

(** A handler that throws turns a query that was executed into an error. *)
Example handler_replaces_result : query "INSERT" (inr (Some 1)) (int 3) (setQueryHandler (fun _ => Some "exporter down") new_Database) =
  (mkDatabase (Some (fun _ => Some "exporter down")) 1 0, inl "exporter down").
Proof. reflexivity. Qed.

(** An interval that is no number is NaN, with which a timer fires every millisecond. *)
Example bad_interval_kept : intervalMs (createConfigDriftAuditorFromEnv (fun k => if String.eqb k "VERINODE_DRIFT_SNAPSHOT_INTERVAL_MS" then Some "5m" else None)) = NaN.
Proof. by vm_compute. Qed.
End Examples.
