(* ===== verification/Issuers.v ===== *)
(** * Certificate issuers ([AcmeClientIssuer] and [AcmeDns01Issuer] of
      [src/src/tls/acme_rotation.ts])

    What the issuers do around the client of the ACME protocol: the account key, the request,
    and the challenges that the client has them publish and withdraw.  The client is the list
    of the calls it makes; published challenges are a map, by token for HTTP and by domain for
    DNS.

    [challenges_published]: what is published after any calls, and that an open challenge is
    as long as no other one has its name.
    [account_key_kept]: the key of the account is made once. *)

From Stdlib Require Import ZArith Lia String.
From stdpp Require Import base numbers list strings gmap.
From S2P Require Import Prelude Js.
#[local] Open Scope Z_scope.

Inductive Method := Http01 | Dns01.

(** [AcmeIssueRequest] *)
Record Request := mkRequest { domains : list string; email : string }.

(** An authorization with its challenge, as the client hands it over *)
Record Challenge := mkChallenge { identifier : option string; token : option string; keyAuthorization : string }.

Inductive IssueError := NoDomain | NoToken | Library (message : string).

Record State := mkState { accountKey : option string; published : gmap string string }.

(** The name under which a challenge is published; [None] where it has none *)
Definition nameOf (m : Method) (r : Request) (c : Challenge) : option string :=
  match m with
  | Http01 => match token c with Some t => if falsy t then None else Some t | None => None end
  | Dns01 => match identifier c with Some d => Some d | None => head (domains r) end
  end.

(** [challengeCreateFn] and [challengeRemoveFn] *)
Definition challengeCreateFn (m : Method) (r : Request) (c : Challenge) (s : State) : State * option IssueError :=
  match nameOf m r c with
  | Some k => (mkState (accountKey s) (<[k := keyAuthorization c]> (published s)), None)
  | None => (s, Some NoToken)
  end.
Definition challengeRemoveFn (m : Method) (r : Request) (c : Challenge) (s : State) : State :=
  match nameOf m r c with
  | Some k => mkState (accountKey s) (delete k (published s))
  | None => s
  end.

Inductive Call := Create (c : Challenge) | Remove (c : Challenge).
Definition called (m : Method) (r : Request) (s : State) (x : Call) : State :=
  match x with Create c => (challengeCreateFn m r c s).1 | Remove c => challengeRemoveFn m r c s end.

(** The key that is found is used, and one that is made is written first. *)
Definition loadAccountKey (fresh : string) (s : State) : State * string :=
  match accountKey s with Some k => (s, k) | None => (mkState (Some fresh) (published s), fresh) end.

(** [createCsr] and [client.auto] *)
Record Csr := mkCsr { commonName : string; altNames : list string }.
Record Order := mkOrder { o_key : string; o_csr : Csr; o_email : string; challengePriority : Method }.

(** The order that is placed, the calls that the client makes, and its answer: the certificate
    with the key of its request *)
Definition issueCertificate (m : Method) (fresh privateKey : string) (client : Order -> list Call * (string + string)) (r : Request) (s : State) :
    State * (IssueError + string * string) * option Order :=
  match domains r with
  | [] => (s, inl NoDomain, None)
  | d :: _ =>
      let '(s1, key) := loadAccountKey fresh s in
      let order := mkOrder key (mkCsr d (domains r)) (email r) m in
      let '(calls, outcome) := client order in
      (foldl (called m r) s1 calls, match outcome with inr cert => inr (cert, privateKey) | inl e => inl (Library e) end, Some order)
  end.

(** ** What is published *)

Definition callName (m : Method) (r : Request) (x : Call) : option string := match x with Create c | Remove c => nameOf m r c end.

(** What the last call for a name leaves *)
Definition leaves (m : Method) (r : Request) (k : string) (before : option string) (calls : list Call) : option string :=
  foldl (fun o x => if decide (callName m r x = Some k) then match x with Create c => Some (keyAuthorization c) | Remove _ => None end else o) before calls.

Lemma published_after m r calls : forall s k, published (foldl (called m r) s calls) !! k = leaves m r k (published s !! k) calls.
Proof.
  induction calls as [|x calls IH]; intros s k; [done|]. unfold leaves in *. cbn [foldl]. rewrite IH. f_equal. destruct x as [c|c]; cbn [called callName];
    unfold challengeCreateFn, challengeRemoveFn; destruct (nameOf m r c) as [k'|]; cbn; try done; destruct (decide (Some k' = Some k)) as [[= ->]|Hne].
  - by rewrite lookup_insert_eq.
  - by rewrite lookup_insert_ne by congruence.
  - by rewrite lookup_delete_eq.
  - by rewrite lookup_delete_ne by congruence.
Qed.

Lemma leaves_app m r k o l1 l2 : leaves m r k o (l1 ++ l2) = leaves m r k (leaves m r k o l1) l2.
Proof. apply foldl_app. Qed.

Lemma leaves_other m r k o l : Forall (fun x => callName m r x <> Some k) l -> leaves m r k o l = o.
Proof. revert o. induction l as [|x l IH]; intros o H; [done|]. inversion_clear H. unfold leaves in *. cbn. by rewrite decide_False, IH by done. Qed.

Lemma loadAccountKey_spec fresh s s1 key : loadAccountKey fresh s = (s1, key) -> accountKey s1 = Some key /\ published s1 = published s.
Proof. unfold loadAccountKey. destruct (accountKey s) eqn:E; intros [= <- <-]; done. Qed.

(** An order that was placed, with the state that its calls leave *)
Lemma order_placed m fresh pk client r s order : (issueCertificate m fresh pk client r s).2 = Some order ->
  let '(s1, key) := loadAccountKey fresh s in
  o_key order = key /\ (issueCertificate m fresh pk client r s).1.1 = foldl (called m r) s1 (client order).1.
Proof.
  unfold issueCertificate. destruct (domains r) as [|d ds]; [done|]. destruct (loadAccountKey fresh s) as [s1 key].
  destruct (client _) as [calls out] eqn:Ec. cbn. intros [= <-]. by rewrite Ec.
Qed.

(** a challenge that the client had published is still there, with its answer, until the next
    call for its name, and a name whose last call was a withdrawal has none; other names
    are as they were. *)
Theorem challenges_published m fresh pk client r s k order l1 x l2 out : (issueCertificate m fresh pk client r s).2 = Some order ->
  client order = (l1 ++ x :: l2, out) -> callName m r x = Some k -> Forall (fun y => callName m r y <> Some k) l2 ->
  let s' := (issueCertificate m fresh pk client r s).1.1 in
  published s' !! k = match x with Create c => Some (keyAuthorization c) | Remove _ => None end /\
  (forall k', Forall (fun y => callName m r y <> Some k') (l1 ++ x :: l2) -> published s' !! k' = published s !! k').
Proof.
  intros Ho Hc Hx Hl s'. apply order_placed in Ho. destruct (loadAccountKey fresh s) as [s1 key] eqn:E.
  destruct Ho as [_ Hs], (loadAccountKey_spec _ _ _ _ E) as [_ Hp]. subst s'. rewrite Hs, Hc, <- Hp. cbn [fst]. split.
  - rewrite published_after, leaves_app. unfold leaves at 1. cbn [foldl]. rewrite decide_True by done. by apply leaves_other.
  - intros k' Hk'. rewrite published_after. by apply leaves_other.
Qed.

Lemma called_key m r s x : accountKey (called m r s x) = accountKey s.
Proof. destruct x as [c|c]; cbn; unfold challengeCreateFn, challengeRemoveFn; by destruct (nameOf m r c). Qed.

Lemma called_all_key m r l : forall s, accountKey (foldl (called m r) s l) = accountKey s.
Proof. induction l as [|x l IH]; intros s; [done|]. cbn. by rewrite IH, called_key. Qed.

(** the key of the account is made by the first order and used by every later one, whatever
    keys could be made then. *)
Theorem account_key_kept m m' fresh fresh' pk pk' client client' r r' s order order' :
  (issueCertificate m fresh pk client r s).2 = Some order ->
  (issueCertificate m' fresh' pk' client' r' (issueCertificate m fresh pk client r s).1.1).2 = Some order' -> o_key order' = o_key order.
Proof.
  intros Ho Ho'. apply order_placed in Ho, Ho'. destruct (loadAccountKey fresh s) as [s1 key] eqn:E.
  destruct Ho as [-> Hs], (loadAccountKey_spec _ _ _ _ E) as [Hk _]. rewrite Hs in Ho'. unfold loadAccountKey in Ho'.
  rewrite called_all_key, Hk in Ho'. by destruct Ho' as [-> _].
Qed.

Module Examples.

Definition base : Challenge := mkChallenge (Some "node.example") (Some "t1") "auth1".
Definition wildcard : Challenge := mkChallenge (Some "node.example") (Some "t2") "auth2".
Definition req : Request := mkRequest ["node.example"; "*.node.example"] "ops@node.example".
Definition both (o : Order) : list Call * (string + string) := ([Create base; Create wildcard; Remove base], inr "CERT").
Definition empty : State := mkState None ∅.

Lemma challenges_published_witness : let s' := (issueCertificate Http01 "key" "pk" both req empty).1.1 in
  published s' !! "t2" = Some "auth2" /\ (forall k', Forall (fun y => callName Http01 req y <> Some k') ([Create base] ++ Create wildcard :: [Remove base]) -> published s' !! k' = None).
Proof.
  refine (challenges_published Http01 "key" "pk" both req empty "t2" (mkOrder "key" (mkCsr "node.example" (domains req)) (email req) Http01)
    [Create base] (Create wildcard) [Remove base] (inr "CERT") eq_refl eq_refl eq_refl _). by repeat constructor.
Defined.

Lemma account_key_kept_witness : exists order', (issueCertificate Dns01 "other" "pk2" both req (issueCertificate Http01 "key" "pk" both req empty).1.1).2 = Some order' /\ o_key order' = "key".
Proof.
  eexists. split; [reflexivity|]. exact (account_key_kept Http01 Dns01 "key" "other" "pk" "pk2" both both req req empty _ _ eq_refl eq_refl).
Defined.

(** A domain and its wildcard have one DNS name: withdrawing the challenge of one withdraws that
    of the other, and only one of the two is ever published. *)
Example wildcard_withdrawn : published (issueCertificate Dns01 "key" "pk" both req empty).1.1 !! "node.example" = None /\
  published (foldl (called Dns01 req) empty [Create base; Create wildcard]) !! "node.example" = Some "auth2".
Proof. by vm_compute. Qed.

(** A challenge without a token is refused, and nothing is published. *)
Example no_token : challengeCreateFn Http01 req (mkChallenge None None "a") empty = (empty, Some NoToken).
Proof. reflexivity. Qed.
End Examples.
